(* ===== verification/_CoqProject ===== *)
-Q . S2P
Prelude.v
WorkItemKind.v
WorkItemRow.v
WorkItemStore.v
WorkItemHolder.v
WorkItemClaim.v
WorkItemOperator.v
WorkItemInv.v
WorkItemSound.v
WorkItemClaimInv.v
WorkItemSystem.v
WorkItemHops.v
WorkItemSpec.v
WorkItemQueueSpec.v
GoBytes.v
GitPkt.v
GitReport.v
GitGate.v
GitSpec.v
Lease.v
LeaseSpec.v
EgressNet.v
EgressProxy.v
EgressSpec.v
PushPolicy.v
PushSpec.v
TtlCache.v
GhLex.v
GhDoc.v
GhGrammar.v
GhLexAgree.v
GhParseFacts.v
GhTable.v
GhRequest.v
GhGateFacts.v
GhSpec.v
GhExample.v
AgentRow.v
AgentProg.v
AgentLoop.v
AgentEngine.v
AgentWindow.v
AgentInv.v
AgentCompact.v
AgentAssert.v
AgentSafe.v
AgentTurn.v
AgentRepair.v
AgentAssembly.v
AgentSpec.v
AgentExample.v
SidecarFrame.v
SidecarConn.v
SidecarInv.v
SidecarPair.v
RecordSender.v
RecordInv.v
SidecarSpec.v
RouteEvents.v
RouteDb.v
RouteTeams.v
RouteWalk.v
RouteClose.v
RouteEvent.v
RouteInv.v
RouteTables.v
RouteOwners.v
RouteHold.v
RouteSpec.v
TrackerDiff.v
TrackerSpec.v
ConvRow.v
ConvStore.v
ConvQueue.v
ConvInv.v
ConvSystem.v
ConvSpec.v
ConvEpisode.v
ConvExample.v
Placement.v
