(* ===== verification/Prelude.v ===== *)
(** * Triage Factory: a verification development

    Triage Factory runs delegated coding agents.  Events of pull requests and
    issues are routed into tasks and automatic runs, work reaches workers through
    durable work-item queues, conversations reach executors through a queue of
    their own with leased claims, one control process at a time runs the background
    brain, an agent loop drives a model over a stored transcript, an agent reaches
    git, GitHub and the package registries only through per-run proxies,
    the team's push policy decides which branches a run may push, and a sidecar
    beside each run reports what the run did over a supervision channel.  This
    library models those parts of the Go code under src/ as executable functions
    over explicit state and proves what makes them correct.

    ** The parts and their files

    Shared:
    - [Prelude]: results ([let?] for Go's error returns), three-valued logic for
      SQL, [int64] wrap-around, hint database [tf].
    - [GoBytes]: byte strings and what the code uses of strings, bytes, utf8,
      unicode and strconv, UTF-8 decoding and Unicode white space included.

    Work items (src/internal/db/workitem).  A table of rows with a lease block;
    workers claim, hold and dispose of rows, operators cancel, redrive and
    supersede them.
    - [WorkItemKind]: workitem.go and backoff.go, the kind, its validation, its
      policy and the retry delay (floating-point jitter in binary64).
    - [WorkItemRow]: sql.go, the row, assignments, the ownership guard and the
      merged two-branch statement.
    - [WorkItemStore]: admit.go, tx.go, observer.go; a [db] is the table, its id
      sequence and the adopter's own data, and [inTx] is all-or-nothing.
    - [WorkItemHolder], [WorkItemClaim], [WorkItemOperator]: holder.go,
      claim.go, and operator.go with reads.go and measure.go, one definition per
      Go function.
    - [WorkItemInv], [WorkItemSound], [WorkItemClaimInv], [WorkItemSystem],
      [WorkItemHops]: the table invariant, its preservation by every operation,
      the step relation of any number of workers and operators over one table,
      and the two-step view of a holder operation.
    - [WorkItemExample], in [WorkItemHops]: a concrete run for the witnesses.
    - [WorkItemSpec] (C1, C9, C13, C30, C34): fencing, exclusive
      ownership, lapsed and live leases, well-formedness, forward-only history, the attempt budget, atomic
      completion, cancellation, the merged statement against its two-branch
      reading, successors.
    - [WorkItemQueueSpec] (C35): claim rounds and the claim loop,
      requeue, defer, redrive, admission, backoff, listings and depths.

    Git proxy (src/internal/proxy/gitproxy).
    - [GitPkt]: receivepack.go's pkt-lines, command block and parsers.
    - [GitReport]: reportstatus.go's streaming capture.
    - [GitGate]: gate.go, the ref gate, refusals, tokens and proxy.go's handler.
    - [GitSpec] (C4, C39): exact reading of the command block, what is
      forwarded and refused, credentials, the capture and the refusal replies.

    Leader election (src/internal/lease).
    - [Lease]: knobs, store statements and manager transitions; [tick] is cut at
      its store calls.
    - [LeaseSpec] (C5, C29): any number of managers on one store, with calls
      that hang or execute late and processes that restart: a holder stops
      before takeover, there is one brain, terms fence.

    Egress proxy (src/internal/proxy/egressproxy).
    - [EgressNet]: denylist.go, allowlist.go, vetteddial.go.
    - [EgressProxy]: the CONNECT funnel of proxy.go and the session of
      intercept.go.
    - [EgressSpec] (C23, C24): no internal address is dialed in any encoding
      that names no zone; every turn of a session relays a read to the
      allowlisted host or nothing.

    TTL cache (src/internal/ttlcache).
    - [TtlCache]: a cached answer is newer than the last [Forget].

    Push policy (src/internal/pushpolicy, delegate's [gitAuthorizeDecision]).
    - [PushPolicy], [PushSpec] (C12): the class [RefPolicy] of [GitSpec] states
      what the proxy asks of an authorization; the run's decision is an instance
      of it, so a base branch is pushed only when the policy permits the run.

    GitHub write gate (src/internal/ghcli/ghwrite, ghcli/ghinjector).  A run's
    [gh] calls pass an injector that holds the credential; it reads every request
    and refuses the writes that open a pull request, submit a review or create a
    repository, which have a gated path of their own.
    - [GoPath], in [GoBytes]: [path.Clean] and the path and string functions the
      gate uses.
    - [GhLex]: gqldoc.go's scanner, token by token.
    - [GhDoc]: gqldoc.go's reader, the operations and fragments with
      the fields and spreads of their top level, the breadth-first resolution of
      spreads and the caps.
    - [GhGrammar]: an independent reference: the lexical grammar and the
      executable documents of GraphQL with their printer, and which fields an
      operation performs.
    - [GhLexAgree], [GhParseFacts]: scanner and reader against that reference.
    - [GhTable]: graphql.go's and gate.go's tables, classify.go's REST
      classifier, the gate.
    - [GhRequest], [GhGateFacts]: request facts, body buffering, targets and the
      injector's handler.
    - [GhSpec] (C2, C17), with witnesses in [GhExample]: what is never
      forwarded however the document hides it, what is always forwarded, refusals
      of what cannot be read, totality, targets, exact reading, exact REST gate.

    Agent loop (src/internal/agentloop, db/sqlite/conversation.go,
    llm/inference/assembly.go).  The transcript is a table of rows ordered by
    position; the loop and concurrent writers append to it, and each model call
    sends the rows of the window.  A provider rejects a transcript in which a
    tool call is not answered directly behind its turn.
    - [AgentRow]: rows, positions and the store statements.
    - [AgentProg]: programs cut at their calls to the store, the model, the tools
      and the hooks, and what such a program can reach among other writers.
    - [AgentLoop]: persist.go, drain.go, repair.go, stream.go, stopreason.go,
      dispatch.go, toolhostlost.go; [AgentEngine]: compact.go and engine.go's Run.
    - [AgentWindow], [AgentInv], [AgentCompact] (with [AgentStable]), [AgentAssert]:
      the window's shape, legality, the invariant of the table, what other
      writers may do, and the assertions stable under it.
    - [AgentHoare] (in [AgentAssert]), [AgentSafe], [AgentTurn], [AgentRepair],
      [AgentSystem] (in [AgentSpec]): a program logic with interference and a
      triple per function of the loop.
    - [AgentAssembly]: the wire messages of a window.
    - [AgentSpec] (C3, C37), with witnesses in [AgentExample]: every
      request of every session is legal, repair ends and heals, compaction keeps
      the queued rows, a run concludes only from a whole turn, no call is
      dispatched twice, packing is stable under appending.

    Supervision channel (src/internal/sidecarproto, agentproc/recordsender.go).
    The sidecar and the orchestrator call each other over one duplex stream of
    newline-delimited frames; audit records go one at a time and are sent again
    until they are acknowledged.
    - [SidecarFrame]: frames, limits and proto.go's readFrame.
    - [SidecarConn]: proto.go's Conn; one step is what a goroutine does between
      two points where another can run.
    - [SidecarInv], [SidecarPair]: the invariant of one end whatever its peer
      sends, and two ends on one socket.
    - [RecordSender], [RecordInv]: recordsender.go on such a pair, and its
      invariant.
    - [SidecarSpec] (C27, C28, C40), with witnesses in [SidecarExample], in
      the same file: a call gets the peer's answer to that call, no call
      outlives its connection, frames are read exactly and within bounds, records
      are applied in order, acknowledged only when applied, and accounted for.

    Router (src/internal/routing, with the statements of db/sqlite it calls).  An
    event about an entity first closes the tasks it resolves, then matches the
    teams' handlers, resolves who owns the event, finds or creates the one task of
    its situation, and walks the owners' triggers in rank order until a team takes
    the task; a trigger that needs the task's score holds the walk until it has
    one.  Workers drain the event, firing and re-evaluation queues, and a sweep
    settles closes held for running work.
    - [RouteEvents]: event types, their ownership, close types and relations.
    - [RouteDb]: tables and store statements, and the monad of programs cut at
      their store calls: a script says what others write before each call and
      whether it works, is refused, or commits and loses its answer.
    - [RouteTeams]: team_routing.go and the resolution stages of dispatch.go.
    - [RouteWalk]: the walk of dispatch.go and delegation.go's firing.
    - [RouteClose]: close_relations.go and close_deferral.go.
    - [RouteEvent]: routeEvent, and one unit of each worker.
    - [RouteInv], [RouteTables]: the class [Routed] of predicates every
      transaction keeps, that every program keeps them too, and the invariant
      of the tables as an instance; in [RouteClosing], the terminating close task
      by task.
    - [RouteOwners]: in [RouteAsks], a program logic for reads with and without
      faults; the gate, ladders and ranking against their specification.
    - [RouteHold]: the walk with and without a score, whatever its triggers
      decide.
    - [RouteSpec] (C8, C25, C31, C32, C36, C38), with witnesses in
      [RouteExample], in the same file: well-formed tables over any run with any faults, what a
      terminating event closes and what its retry loses, owners, firing order,
      live teams, closed and claimed tasks, one walk out of two.

    Tracker (src/internal/eventing/tracker).  Each poll reads a snapshot of every
    tracked pull request or issue and compares it with the one stored; the changes
    become the events the router works on.
    - [TrackerDiff]: diff.go, diff_linear.go and mentions.go with the snapshots of
      internal/domain, one definition per stretch of a diff, each event with the
      fields of its metadata.
    - [TrackerRead], in the same file: comments.go's and reviews.go's reading of a
      pull request's new comments and reviews.
    - [TrackerSpec] (C18, C26, C33), with its witnesses: replaying a
      sequence of polls rebuilds the pull request; the class [GatedSource] states
      what the issue trackers promise of issues with open children, and both diffs
      are instances; events carry what routing reads; removals close their own
      requests through the router's close hooks; an unchanged entity is quiet.
    - [TrackerReadSpec] (C19), in the same file: over any run of polls, with
      reads that fail, pages and races, each comment and review is reported once.

    Conversation queue (src/internal/db/postgres: conversation_queue.go,
    conversation.go, blueprints.go, claim_fence.go; delegate's wakeParked).  A
    blueprint run fires a conversation per step; executors claim the next one
    that needs driving, renew a lease on the claim while they drive it, and
    conclude, park, fail or hand it back; a lapsed claim is taken over, a stop
    nobody drives is settled by a pass, and a boot reconciles what is left.
    - [ConvRow]: the tables, the SQL predicates every statement is assembled
      from, the hand-back policies and the episode counts.
    - [ConvStore]: the fence and the writes of a conversation and its run.
    - [ConvQueue]: the claim, the renewals, the settlement, the take-over, the
      releases and hand-backs, the reconciliation and the fleet reads.
    - [ConvInv], [ConvSystem]: the invariant of the tables, and any sequence of
      operations of any number of executors, passes and request handlers, each
      with its own clocks, lock sets and snapshots.
    - [ConvSpec] (C6, C7, C10, C11, C20): one driver per conversation, a lost
      claim that writes nothing, the order of claims and the draining of the
      queue, the boot checkers.
    - [ConvEpisode] (C14, C15, C21): the retry budgets against the history of
      claims, the wait of a hand-back, the settlement of a stop.
    - [ConvExample]: the witnesses, and two runs past the comments of the code.

    Placement (src/internal/placement, delegate/placement.go).  Which executor a
    new conversation prefers: a weighted rendezvous hash of its repository over
    the live executors, which the claim of the queue above reads as a tier.
    - [Placement] (C16, C22): hash, binary64 scores, ranking, plans, stamps and
      settings; the unit interval is hit exactly, the order is total, an
      executor that leaves moves only the keys it owned, and stamps name live
      executors.

    ** Conventions

    SQL statements are their effect on rows at the instant they read the clock;
    each statement of an operation reads its own instant.  Integers are [Z], with
    [wrap64] where the code's arithmetic can leave [int64].  Loops that are not
    structural take fuel: [S (length s)] or [length s] over bytes, since every
    iteration consumes at least one; [claimRounds] over claim rounds, which is
    the code's own bound.  Caller closures, claim filters, token sources,
    upstream servers, resolvers, dialers, TLS and [http.ReadRequest] are
    parameters, and theorems hold for every choice of them.  So are JSON and
    Basic-auth decoding, notice texts, the memory envelope's wording, the model's
    replies (with the named hypothesis [answers]: a whole reply's calls carry
    fresh, distinct ids), tool results and hooks.  The GraphQL loops take one more
    step than the text has bytes, or one per fragment; [handler_answers] proves
    that enough.  [runLoop] takes any number of turns: C3 holds for each.
    Others write between any two statements of a repair (C37) too, except while
    it mends a batch that ends the transcript ([repair_tail_race] shows that
    write's damage).  A supervision
    frame is encoded by the class [FrameCodec], whose laws encoding/json documents
    for this struct; a handler's run is one step, at its return; call ids are 64 bits wide and [few] says an end has made
    fewer calls than that; record keys are fresh, as UUIDs are, and the sender is
    the only one to send record frames on its end.  [readFrame] takes one more
    iteration than the stream has bytes, and C40 proves that enough.  Routing
    programs recurse over the lists they read and take no fuel; handler
    predicates, stored events and triggers and the delivery of an injection are
    parameters.  C8 and C32 hold for every script whose moves keep the predicate;
    C25, C36 and C38 run alone with the faults they name; C31 allows any fault and
    [routed_teams_are_live] none, both with nobody else writing.  The diffs take no fuel; the
    parsing of external times, the reviewer resolver, page readers and the ledger
    are parameters, and [serves] states what a reader of pages documents.  The page
    loops take one more step than the list has entries, since a page before the
    last is not empty, and C19 and [each_review_is_reported_once] prove that enough.
    A statement of the conversation queue reads the snapshot it starts with and
    writes the committed tables; a row it locks is read again.  Rows locked
    elsewhere are an arbitrary set to skip, and the claim's retry after a lost
    race takes the code's own bound.  C6, C7, C14 and C20 hold in every state of
    [reachable], whose [legal] says what the keys and callers guarantee: fresh
    claim ids, a first step at index 0, and a settlement that reads the claims
    committed before it; [ConvExample] shows what happens without the last, and
    with the unfenced executor stamp.  [math.Log] is the class [MathLog], of
    which only "finite and negative between 0 and 1" is used.

    ** Bounds and limits

    Outside the router, database failures other than a failed commit are not
    modelled; nor are driver scanning, statement text and context cancellation.  Case folding and header
    names are ASCII.  The lease system assumes timers and call timeouts fire when
    due and clocks run at one rate.  The push decision reads one snapshot.
    Transcript positions and handler priorities are exact rationals where the code
    has a float64.  The
    gate's agreement with the grammar is over texts free of the bytes on which
    the two are proved to differ ([plain]; [document_readings_differ]).  C23
    leaves out zoned IPv6 addresses, which the denylist does not see
    ([zoned_addresses_pass]).  The git proxy forwards the decoded path; an
    encoding of its own ([RawPath]) is not modelled.  The pages of one read of
    comments see one instant of the server, and a poll whose snapshot is lost in
    the commit is outside C18 and C19.  C36 takes each trigger's decision as a
    function that answers alike in both walks.  C5 and C29 hold for lease
    intervals up to 2^61 nanoseconds ([margin_check_overflows] shows one above).
    Refusal and notice wording, response reading, audit rows, tool transport,
    the router's notifications and broadcasts, the expiry of holds, event sources
    of other packages, pricing, server lifecycles, how long the record sender's timers wait and
    panics outside a frame handler are not modelled.

    ** Not modelled

    The stores' SQLite twins of the conversation queue, the credential and
    timing listings and the deletion of conversations; the readings of Jira and
    Linear comments, event predicates, upstream budgets, the LLM breaker and the
    pre-push hook; and the parts that are I/O, wire formats, process
    supervision, wiring or user interface: the HTTP server, the provider and
    tracker clients, sandboxes, worktrees, cryptography, notifications,
    telemetry and the frontend. *)

From Stdlib Require Export ZArith Lia Ascii String.
From stdpp Require Export prelude gmap strings list sorting.

#[global] Open Scope Z_scope.

(** ** Results

    Go functions that return [(T, error)] return [res E T] here: a value or an
    error, never both.  Where the Go code returns a useful value beside a
    non-nil error (a partially filled claim), the model returns a pair. *)
Inductive res (E A : Type) : Type :=
| Ok (a : A)
| Err (e : E).
Arguments Ok {E A} a.
Arguments Err {E A} e.

Definition res_bind {E A B} (c : res E A) (f : A -> res E B) : res E B :=
  match c with Ok a => f a | Err e => Err e end.

Definition is_ok {E A} (c : res E A) : bool :=
  match c with Ok _ => true | Err _ => false end.

Declare Scope tf_scope.
Delimit Scope tf_scope with tf.
Notation "'let?' x ':=' c 'in' k" := (res_bind c (fun x => k))
  (at level 10, x pattern, c at level 100, k at level 200) : tf_scope.
(** [refuse? b with e ;; k] is Go's early return of error [e] when [b] holds. *)
Notation "'refuse?' b 'with' e ';;' k" := (if b then Err e else k)
  (at level 10, b at level 99, e at level 99, k at level 200) : tf_scope.
#[global] Open Scope tf_scope.

Lemma res_bind_ok {E A B} (c : res E A) (f : A -> res E B) b :
  res_bind c f = Ok b <-> exists a, c = Ok a /\ f a = Ok b.
Proof. destruct c as [a'|e]; simpl; [split; [eauto|]; by intros (?&[= ->]&?)|].
  split; [done|]. by intros (?&?&?).
Qed.

(** ** SQL's three-valued logic

    A predicate over a nullable column is true, false or unknown; a [WHERE]
    clause keeps a row only when its predicate is true. *)
Definition tri := option bool.

Definition tri_not (a : tri) : tri := negb <$> a.

Definition tri_and (a b : tri) : tri :=
  match a, b with
  | Some false, _ | _, Some false => Some false
  | Some true, Some true => Some true
  | _, _ => None
  end.

Definition tri_or (a b : tri) : tri := tri_not (tri_and (tri_not a) (tri_not b)).

(** [WHERE p] keeps the row. *)
Definition holds (a : tri) : bool := match a with Some b => b | None => false end.

Lemma holds_and a b : holds (tri_and a b) = holds a && holds b.
Proof. by destruct a as [[]|], b as [[]|]. Qed.

Lemma holds_or a b : holds (tri_or a b) = holds a || holds b.
Proof. by destruct a as [[]|], b as [[]|]. Qed.

(** ** Machine integers: [int64] arithmetic wraps around. *)
Definition int64_min : Z := - 2 ^ 63.
Definition int64_max : Z := 2 ^ 63 - 1.
Definition wrap64 (z : Z) : Z := (z + 2 ^ 63) mod 2 ^ 64 - 2 ^ 63.

Definition in_int64 (z : Z) : Prop := int64_min <= z <= int64_max.

Lemma wrap64_id z : in_int64 z -> wrap64 z = z.
Proof.
  unfold in_int64, wrap64, int64_min, int64_max. intros H.
  rewrite Z.mod_small; lia.
Qed.

Lemma wrap64_range z : in_int64 (wrap64 z).
Proof.
  unfold in_int64, wrap64, int64_min, int64_max.
  pose proof (Z.mod_pos_bound (z + 2 ^ 63) (2 ^ 64) eq_refl). lia.
Qed.

(** ** Lists *)

Lemma StronglySorted_sublist {A} (R : relation A) l l' :
  sublist l l' -> StronglySorted R l' -> StronglySorted R l.
Proof.
  induction 1 as [|x l l' Hs IH|x l l' Hs IH]; [done| |]; intros [H Hx]%StronglySorted_inv; [|auto].
  constructor; [auto|]. rewrite Forall_forall in Hx |- *. intros y Hy. apply Hx. by eapply sublist_subseteq.
Qed.

Lemma sublist_of_map {A B} (g : A -> B) (l : list B) k : sublist l (map g k) -> exists k', sublist k' k /\ l = map g k'.
Proof.
  revert l. induction k as [|x k IH]; cbn [map]; intros l.
  - intros ->%sublist_nil_r. by exists [].
  - intros [(k' & ? & ->)%IH|(l' & -> & (k' & ? & ->)%IH)]%sublist_cons_r; [exists k'|exists (x :: k')]; split; by try constructor.
Qed.

(** ** Automation

    [tf] holds the lemmas that close the routine goals of every component;
    each file adds its own.  [break] splits the first match or conditional it
    finds, and [crush] finishes the case. *)
Create HintDb tf discriminated.
#[export] Hint Resolve wrap64_range : tf.

Ltac break_match :=
  match goal with
  | |- context [match ?x with _ => _ end] =>
      lazymatch x with context [match _ with _ => _ end] => fail | _ => destruct x eqn:? end
  | H : context [match ?x with _ => _ end] |- _ =>
      lazymatch x with context [match _ with _ => _ end] => fail | _ => destruct x eqn:? end
  end.

Ltac break := repeat (break_match; simplify_eq/=; try done).

(** Turn boolean tests in the context into the propositions they decide. *)
Ltac bool_hyps :=
  repeat match goal with
  | H : _ && _ = true |- _ => apply andb_true_iff in H; destruct H
  | H : _ || _ = false |- _ => apply orb_false_iff in H; destruct H
  | H : negb _ = true |- _ => apply negb_true_iff in H
  | H : negb _ = false |- _ => apply negb_false_iff in H
  | H : bool_decide _ = true |- _ => apply bool_decide_eq_true in H
  | H : bool_decide _ = false |- _ => apply bool_decide_eq_false in H
  | H : (_ <? _) = true |- _ => apply Z.ltb_lt in H
  | H : (_ <? _) = false |- _ => apply Z.ltb_ge in H
  | H : (_ <=? _) = true |- _ => apply Z.leb_le in H
  | H : (_ <=? _) = false |- _ => apply Z.leb_gt in H
  | H : (_ =? _) = true |- _ => apply Z.eqb_eq in H
  | H : (_ =? _) = false |- _ => apply Z.eqb_neq in H
  end.
