(* ===== verification/WorkItemKind.v ===== *)
(** * Work item kinds: vocabulary, policy, validation and backoff

    Models internal/db/workitem/workitem.go and backoff.go: the closed
    vocabularies, the timing policy with its field-by-field defaults, the
    [Kind] value every call takes, [Kind.Validate], and the retry delay.
    Durations are [int64] nanoseconds; [float64] is Stdlib's executable IEEE
    754 model [spec_float] at precision 53 and exponent bound 1024. *)

From Stdlib Require Import SpecFloat.
From S2P Require Import Prelude.

(** ** Closed vocabularies *)

(** An integer outside the declared constants behaves as [DialectUnset]: every
    test in the package is against [Postgres] or [SQLite]. *)
Inductive Dialect := DialectUnset | Postgres | SQLite.
Inductive Strategy := StrategyUnset | SingleTx | FencedReplay.
Inductive UniqueMode := UniqueNone | UniqueForever | UniqueWhileUnsettled | UniqueOther (n : Z).
Inductive Outcome :=
  OutcomeTransient | OutcomeDependencyDown | OutcomePoisonSuspected | OutcomeDeadline
| OutcomePermanent | OutcomeUnknown (s : string).

#[global] Instance Dialect_eq_dec : EqDecision Dialect. Proof. solve_decision. Defined.
#[global] Instance Strategy_eq_dec : EqDecision Strategy. Proof. solve_decision. Defined.
#[global] Instance UniqueMode_eq_dec : EqDecision UniqueMode. Proof. solve_decision. Defined.
#[global] Instance Outcome_eq_dec : EqDecision Outcome. Proof. solve_decision. Defined.

Definition outcome_valid (o : Outcome) : bool :=
  match o with OutcomeUnknown _ => false | _ => true end.

Definition outcome_text (o : Outcome) : string :=
  match o with
  | OutcomeTransient => "transient"
  | OutcomeDependencyDown => "dependency_down"
  | OutcomePoisonSuspected => "poison_suspected"
  | OutcomeDeadline => "deadline"
  | OutcomePermanent => "permanent"
  | OutcomeUnknown s => s
  end.

(** The five stored statuses. *)
Inductive Status := StatusReady | StatusLeased | StatusDone | StatusParked | StatusCancelled.
#[global] Instance Status_eq_dec : EqDecision Status. Proof. solve_decision. Defined.

Definition status_text (s : Status) : string :=
  match s with
  | StatusReady => "ready" | StatusLeased => "leased" | StatusDone => "done"
  | StatusParked => "parked" | StatusCancelled => "cancelled"
  end.

(** [last_outcome] values the package writes itself. *)
Definition outcomeDone : string := "done".
Definition outcomeCancelled : string := "cancelled".
Definition outcomeDeferred : string := "deferred".
Definition outcomeRedriven : string := "redriven".
Definition outcomeSuperseded : string := "superseded".
Definition outcomeBudgetExhausted : string := "budget_exhausted".

(** The statuses a claim may move and the statuses that reserve a key. *)
Definition claimable_status (s : Status) : bool :=
  match s with StatusReady | StatusLeased => true | _ => false end.
Definition unsettled_status (s : Status) : bool :=
  match s with StatusReady | StatusLeased | StatusParked => true | _ => false end.

(** ** Durations and floats *)

Definition Second : Z := 1000000000.
Definition Minute : Z := 60 * Second.

Definition f64_prec : Z := 53.
Definition f64_emax : Z := 1024.
Definition f64_add := SFadd f64_prec f64_emax.
Definition f64_sub := SFsub f64_prec f64_emax.
Definition f64_mul := SFmul f64_prec f64_emax.
(** Go's [float64(n)] for an integer: round to nearest even. *)
Definition f64_of_int (n : Z) : spec_float := binary_normalize f64_prec f64_emax n 0 false.
(** Go's [int64(x)] for a float in range: truncate toward zero. *)
Definition f64_trunc (x : spec_float) : Z :=
  match x with
  | S754_finite s m e =>
      let v := if 0 <=? e then Zpos m * 2 ^ e else Z.quot (Zpos m) (2 ^ (- e)) in
      if s then - v else v
  | _ => 0
  end.

Definition f64_zero : spec_float := S754_zero false.
Definition f64_one : spec_float := f64_of_int 1.
Definition f64_two : spec_float := f64_of_int 2.
(** 0.25, and 1 - 1e-9 rounded to the nearest float64. *)
Definition f64_quarter : spec_float := S754_finite false 4503599627370496 (-54).
Definition f64_below_one : spec_float := S754_finite false 9007199245733793 (-53).

(** ** Policy *)

Record BackoffSpec := { Base : Z; Cap : Z; Jitter : spec_float }.

Definition DefaultBackoffBase : Z := 5 * Second.
Definition DefaultBackoffCap : Z := 5 * Minute.
Definition DefaultBackoffJitter : spec_float := f64_quarter.

Definition backoff_resolved (b : BackoffSpec) : BackoffSpec :=
  {| Base := if Base b <=? 0 then DefaultBackoffBase else Base b;
     Cap := if Cap b <=? 0 then DefaultBackoffCap else Cap b;
     Jitter := if SFeqb (Jitter b) f64_zero then DefaultBackoffJitter else Jitter b |}.

Record Policy := {
  MaxAttempts : Z; Lease : Z; RenewEvery : Z; UnitDeadline : Z;
  Backoff_ : BackoffSpec; Fairness : bool }.

Definition DefaultMaxAttempts : Z := 5.
Definition DefaultLease : Z := 60 * Second.

(** Defaults for [RenewEvery] and [UnitDeadline] derive from the resolved
    lease; Go's integer division truncates. *)
Definition policy_resolved (p : Policy) : Policy :=
  let lease := if Lease p <=? 0 then DefaultLease else Lease p in
  {| MaxAttempts := if MaxAttempts p =? 0 then DefaultMaxAttempts else MaxAttempts p;
     Lease := lease;
     RenewEvery := if RenewEvery p <=? 0 then Z.quot lease 3 else RenewEvery p;
     UnitDeadline := if UnitDeadline p <=? 0 then Z.quot lease 2 else UnitDeadline p;
     Backoff_ := backoff_resolved (Backoff_ p);
     Fairness := Fairness p |}.

(** ** Kind *)

Record Kind := {
  Table : string; KDialect : Dialect; KPolicy : Policy; Unique : UniqueMode;
  KStrategy : Strategy; Columns : list string; Frozen : list string;
  ClaimFilter : string }.

(** [identRE], [^[a-z_][a-z0-9_]*$]. *)
Definition ident_start (c : ascii) : bool :=
  let n := nat_of_ascii c in
  ((97 <=? n)%nat && (n <=? 122)%nat) || (n =? 95)%nat.
Definition ident_char (c : ascii) : bool :=
  let n := nat_of_ascii c in
  ident_start c || ((48 <=? n)%nat && (n <=? 57)%nat).
Fixpoint all_chars (p : ascii -> bool) (s : string) : bool :=
  match s with EmptyString => true | String c s => p c && all_chars p s end.
Definition identRE (s : string) : bool :=
  match s with EmptyString => false | String c s => ident_start c && all_chars ident_char s end.

Definition maxIdentLen : nat := 45.

(** [strings.Contains]. *)
Fixpoint str_contains (s sub : string) : bool :=
  String.prefix sub s ||
  match s with EmptyString => false | String _ s' => str_contains s' sub end.

Definition blockColumns : list string :=
  ["id"; "org_id"; "status"; "attempt"; "max_attempts"; "next_attempt_at";
   "lease_generation"; "lease_owner"; "lease_epoch"; "leased_at"; "lease_expires_at";
   "cancel_requested_at"; "cancel_requested_by"; "cancel_reason";
   "last_error"; "last_outcome"; "unique_key"; "superseded_by";
   "first_enqueued_at"; "created_at"; "done_at"].

Definition isBlockColumn (name : string) : bool := bool_decide (name ∈ blockColumns).

(** ** Validation

    One constructor per refusal, in the order the checks run. *)
Inductive kind_error :=
| NoTable | BadTable | BadDialect | NoStrategy | BadUniqueMode
| BadColumn (c : string) | BlockColumn (c : string) | DuplicateColumn (c : string)
| FrozenUndeclared (f : string) | FilterNoColumn | FilterSemicolon
| BadMaxAttempts | DeadlineBeyondLease | RenewBeyondLease | BadJitter.

(** The column loop, threading the set of names already seen. *)
Fixpoint check_columns (seen : list string) (cols : list string) : res kind_error (list string) :=
  match cols with
  | [] => Ok seen
  | c :: cols =>
      refuse? negb (identRE c) with BadColumn c ;;
      refuse? isBlockColumn c with BlockColumn c ;;
      refuse? bool_decide (c ∈ seen) with DuplicateColumn c ;;
      check_columns (c :: seen) cols
  end.

Fixpoint check_frozen (seen : list string) (fs : list string) : res kind_error unit :=
  match fs with
  | [] => Ok tt
  | f :: fs =>
      refuse? negb (bool_decide (f ∈ seen)) with FrozenUndeclared f ;;
      check_frozen seen fs
  end.

Definition check_filter (f : string) : res kind_error unit :=
  if bool_decide (f = ""%string) then Ok tt else
  refuse? negb (str_contains f "t.") with FilterNoColumn ;;
  refuse? str_contains f ";" with FilterSemicolon ;;
  Ok tt.

Definition check_policy (p : Policy) : res kind_error unit :=
  refuse? MaxAttempts p <? 1 with BadMaxAttempts ;;
  refuse? Lease p <=? UnitDeadline p with DeadlineBeyondLease ;;
  refuse? Lease p <=? RenewEvery p with RenewBeyondLease ;;
  refuse? SFltb (Jitter (Backoff_ p)) f64_zero || SFleb f64_one (Jitter (Backoff_ p)) with BadJitter ;;
  Ok tt.

Definition Validate (k : Kind) : res kind_error unit :=
  refuse? bool_decide (Table k = ""%string) with NoTable ;;
  refuse? negb (identRE (Table k)) || (maxIdentLen <? String.length (Table k))%nat with BadTable ;;
  refuse? negb (bool_decide (KDialect k = Postgres)) && negb (bool_decide (KDialect k = SQLite)) with BadDialect ;;
  refuse? negb (bool_decide (KStrategy k = SingleTx)) && negb (bool_decide (KStrategy k = FencedReplay)) with NoStrategy ;;
  refuse? (match Unique k with UniqueOther _ => true | _ => false end) with BadUniqueMode ;;
  let? seen := check_columns [] (Columns k) in
  let? _ := check_frozen seen (Frozen k) in
  let? _ := check_filter (ClaimFilter k) in
  check_policy (policy_resolved (KPolicy k)).

(** ** Backoff *)

(** The doubling loop of [backoffPreJitter]: [n] iterations remain. *)
Fixpoint backoff_loop (cap d : Z) (n : nat) : Z :=
  match n with
  | O => if cap <? d then cap else d
  | S n => if cap <=? d then cap else backoff_loop cap (wrap64 (d * 2)) n
  end.

Definition backoffPreJitter (s : BackoffSpec) (attempt : Z) : Z :=
  let attempt := if attempt <? 1 then 1 else attempt in
  backoff_loop (Cap s) (Base s) (Z.to_nat (attempt - 1)).

(** [u] is the jitter source's draw. *)
Definition Backoff (spec : BackoffSpec) (attempt : Z) (u : spec_float) : Z :=
  let s := backoff_resolved spec in
  let base := backoffPreJitter s attempt in
  if SFleb (Jitter s) f64_zero then base else
  let u := if SFltb u f64_zero then f64_zero
           else if SFleb f64_one u then f64_below_one else u in
  let factor := f64_add (f64_sub f64_one (Jitter s)) (f64_mul (f64_mul f64_two (Jitter s)) u) in
  f64_trunc (f64_mul (f64_of_int base) factor).

(** ** Policy lemmas *)

Lemma policy_resolved_lease p : 0 < Lease (policy_resolved p).
Proof. unfold policy_resolved; simpl. destruct (Z.leb_spec (Lease p) 0); [done|lia]. Qed.
#[export] Hint Resolve policy_resolved_lease : tf.

Lemma backoff_resolved_pos b : 0 < Base (backoff_resolved b) /\ 0 < Cap (backoff_resolved b).
Proof.
  unfold backoff_resolved; simpl.
  destruct (Z.leb_spec (Base b) 0), (Z.leb_spec (Cap b) 0); split; try done; lia.
Qed.

(** The resolved defaults always leave room: when only the lease is set, the
    derived renewal interval and deadline stay strictly inside it. *)
Lemma resolved_defaults_inside p :
  RenewEvery p <= 0 -> UnitDeadline p <= 0 ->
  RenewEvery (policy_resolved p) < Lease (policy_resolved p) /\
  UnitDeadline (policy_resolved p) < Lease (policy_resolved p).
Proof.
  intros H1 H2. pose proof (policy_resolved_lease p) as Hl. revert Hl.
  unfold policy_resolved; simpl.
  rewrite (proj2 (Z.leb_le _ _) H1), (proj2 (Z.leb_le _ _) H2).
  set (l := if Lease p <=? 0 then _ else _). intros.
  rewrite !Z.quot_div_nonneg by lia. split; apply Z.div_lt; lia.
Qed.

Lemma check_columns_ok seen cols out :
  check_columns seen cols = Ok out ->
  Forall (fun c => identRE c = true /\ isBlockColumn c = false) cols /\
  (NoDup seen -> NoDup out) /\ (forall c, c ∈ out <-> c ∈ seen \/ c ∈ cols).
Proof.
  revert seen. induction cols as [|c cols IH]; simpl; intros seen.
  { intros [= <-]. split_and!; [done..|]. set_solver. }
  destruct (identRE c) eqn:Hi; simpl; [|done].
  destruct (isBlockColumn c) eqn:Hb; [done|].
  case_bool_decide as Hs; [done|]. intros (Hf & Hn & Hin)%IH.
  split_and!; [by constructor| |set_solver].
  intros Hnd. apply Hn. by constructor.
Qed.

Lemma check_frozen_ok seen fs : check_frozen seen fs = Ok tt -> Forall (fun f => f ∈ seen) fs.
Proof.
  induction fs as [|f fs IH]; simpl; [done|]. case_bool_decide; simpl; [|done].
  intros ?%IH. by constructor.
Qed.

(** What a validated kind guarantees to every other operation. *)
Record kind_ok (k : Kind) : Prop := {
  ko_dialect : KDialect k = Postgres \/ KDialect k = SQLite;
  ko_strategy : KStrategy k = SingleTx \/ KStrategy k = FencedReplay;
  ko_unique : forall n, Unique k <> UniqueOther n;
  ko_columns : Forall (fun c => identRE c = true /\ isBlockColumn c = false) (Columns k);
  ko_nodup : NoDup (Columns k);
  ko_frozen : Forall (fun f => f ∈ Columns k) (Frozen k);
  ko_attempts : 1 <= MaxAttempts (policy_resolved (KPolicy k));
  ko_deadline : UnitDeadline (policy_resolved (KPolicy k)) < Lease (policy_resolved (KPolicy k));
  ko_renew : RenewEvery (policy_resolved (KPolicy k)) < Lease (policy_resolved (KPolicy k)) }.

Lemma check_columns_nodup seen cols out :
  check_columns seen cols = Ok out -> NoDup cols /\ (forall c, c ∈ cols -> c ∉ seen).
Proof.
  revert seen. induction cols as [|c cols IH]; simpl; intros seen.
  { intros _. split; [constructor|set_solver]. }
  repeat (case_match; [done|]). bool_hyps. intros [Hn Hs]%IH.
  split; [constructor; [|done]|]; set_solver.
Qed.

Lemma check_policy_ok p :
  check_policy p = Ok tt ->
  1 <= MaxAttempts p /\ UnitDeadline p < Lease p /\ RenewEvery p < Lease p.
Proof. unfold check_policy. repeat (case_match; [done|]). bool_hyps. lia. Qed.

Lemma Validate_kind_ok k : Validate k = Ok tt -> kind_ok k.
Proof.
  unfold Validate. repeat (case_match; [done|]).
  intros (seen & Hc & (u & Hf & (u' & _ & Hp)%res_bind_ok)%res_bind_ok)%res_bind_ok.
  destruct u. bool_hyps.
  pose proof (check_columns_ok _ _ _ Hc) as (Hcols & _ & Hin).
  pose proof (check_columns_nodup _ _ _ Hc) as [Hnd _].
  apply check_policy_ok in Hp as (?&?&?). apply check_frozen_ok in Hf.
  split; try done.
  - destruct (KDialect k); naive_solver.
  - destruct (KStrategy k); naive_solver.
  - intros n Hn. by rewrite Hn in *.
  - eapply Forall_impl; [done|]. set_solver.
Qed.
#[export] Hint Resolve Validate_kind_ok : tf.

(** ** Backoff lemmas *)

Lemma backoff_loop_spec cap d n :
  0 < d -> 0 < cap <= 2 ^ 62 -> d <= int64_max ->
  backoff_loop cap d n = Z.min cap (d * 2 ^ Z.of_nat n).
Proof.
  revert d. induction n as [|n IH]; intros d Hd Hc Hm.
  { simpl. rewrite Z.mul_1_r. destruct (Z.ltb_spec cap d); lia. }
  cbn [backoff_loop]. assert (0 < 2 ^ Z.of_nat n) by (apply Z.pow_pos_nonneg; lia).
  rewrite Nat2Z.inj_succ, Z.pow_succ_r by lia.
  destruct (Z.leb_spec cap d); [nia|].
  rewrite wrap64_id by (unfold in_int64, int64_min, int64_max; lia).
  rewrite IH by (unfold int64_max; lia). f_equal. lia.
Qed.

Lemma backoffPreJitter_spec s attempt :
  0 < Base s <= int64_max -> 0 < Cap s <= 2 ^ 62 ->
  backoffPreJitter s attempt = Z.min (Cap s) (Base s * 2 ^ (Z.max 1 attempt - 1)).
Proof.
  intros Hb Hc. unfold backoffPreJitter.
  assert (Ha : (if attempt <? 1 then 1 else attempt) = Z.max 1 attempt).
  { destruct (Z.ltb_spec attempt 1); lia. }
  rewrite Ha, backoff_loop_spec, Z2Nat.id by lia. done.
Qed.
