(* ===== verification/WorkItemRow.v ===== *)
(** * Work item rows and the SQL that moves them

    Models the row an adopting table stores (the shared block of
    internal/db/workitem/workitem.go plus the kind's own columns) and the
    statement builders of internal/db/workitem/sql.go: column assignments,
    the ownership guard, the cancellation settlement, and the merge of an
    operation's own disposition with the settlement into one statement.

    Assignments are typed by their column: [assign] pairs a column with an
    expression over database time and the row before the statement.  A
    statement evaluates every right-hand side against that old row. *)

From S2P Require Import Prelude WorkItemKind.

(** A driver value, for the kind's own columns. *)
Inductive sqlval := SNull | SInt (z : Z) | SText (s : string) | SBytes (s : string).
#[global] Instance sqlval_eq_dec : EqDecision sqlval. Proof. solve_decision. Defined.

(** ** The row *)

Record row := Row {
  id : Z; org_id : string; status : Status; attempt : Z; max_attempts : Z;
  next_attempt_at : option Z;
  lease_generation : Z; lease_owner : option string; lease_epoch : option Z;
  leased_at : option Z; lease_expires_at : option Z;
  cancel_requested_at : option Z; cancel_requested_by : option string;
  cancel_reason : option string;
  last_error : option string; last_outcome : option string;
  unique_key : option string; superseded_by : option Z;
  first_enqueued_at : Z; created_at : Z; done_at : option Z;
  payload : gmap string sqlval }.

#[global] Instance row_eq_dec : EqDecision row. Proof. solve_decision. Defined.

(** ** Columns *)

Inductive col :=
  Cid | Corg_id | Cstatus | Cattempt | Cmax_attempts | Cnext_attempt_at
| Clease_generation | Clease_owner | Clease_epoch | Cleased_at | Clease_expires_at
| Ccancel_requested_at | Ccancel_requested_by | Ccancel_reason
| Clast_error | Clast_outcome | Cunique_key | Csuperseded_by
| Cfirst_enqueued_at | Ccreated_at | Cdone_at.

#[global] Instance col_eq_dec : EqDecision col.
Proof. unfold EqDecision, Decision. decide equality. Defined.

Definition all_cols : list col :=
  [Cid; Corg_id; Cstatus; Cattempt; Cmax_attempts; Cnext_attempt_at;
   Clease_generation; Clease_owner; Clease_epoch; Cleased_at; Clease_expires_at;
   Ccancel_requested_at; Ccancel_requested_by; Ccancel_reason;
   Clast_error; Clast_outcome; Cunique_key; Csuperseded_by;
   Cfirst_enqueued_at; Ccreated_at; Cdone_at].

Definition col_name (c : col) : string :=
  match c with
  | Cid => "id" | Corg_id => "org_id" | Cstatus => "status" | Cattempt => "attempt"
  | Cmax_attempts => "max_attempts" | Cnext_attempt_at => "next_attempt_at"
  | Clease_generation => "lease_generation" | Clease_owner => "lease_owner"
  | Clease_epoch => "lease_epoch" | Cleased_at => "leased_at"
  | Clease_expires_at => "lease_expires_at"
  | Ccancel_requested_at => "cancel_requested_at"
  | Ccancel_requested_by => "cancel_requested_by" | Ccancel_reason => "cancel_reason"
  | Clast_error => "last_error" | Clast_outcome => "last_outcome"
  | Cunique_key => "unique_key" | Csuperseded_by => "superseded_by"
  | Cfirst_enqueued_at => "first_enqueued_at" | Ccreated_at => "created_at"
  | Cdone_at => "done_at"
  end.

Definition col_ty (c : col) : Type :=
  match c with
  | Cid | Cattempt | Cmax_attempts | Clease_generation | Cfirst_enqueued_at | Ccreated_at => Z
  | Corg_id => string
  | Cstatus => Status
  | Cnext_attempt_at | Clease_epoch | Cleased_at | Clease_expires_at
  | Ccancel_requested_at | Csuperseded_by | Cdone_at => option Z
  | Clease_owner | Ccancel_requested_by | Ccancel_reason | Clast_error | Clast_outcome
  | Cunique_key => option string
  end.

Definition get (c : col) : row -> col_ty c :=
  match c with
  | Cid => id | Corg_id => org_id | Cstatus => status | Cattempt => attempt
  | Cmax_attempts => max_attempts | Cnext_attempt_at => next_attempt_at
  | Clease_generation => lease_generation | Clease_owner => lease_owner
  | Clease_epoch => lease_epoch | Cleased_at => leased_at
  | Clease_expires_at => lease_expires_at | Ccancel_requested_at => cancel_requested_at
  | Ccancel_requested_by => cancel_requested_by | Ccancel_reason => cancel_reason
  | Clast_error => last_error | Clast_outcome => last_outcome | Cunique_key => unique_key
  | Csuperseded_by => superseded_by | Cfirst_enqueued_at => first_enqueued_at
  | Ccreated_at => created_at | Cdone_at => done_at
  end.

(** Rebuild a row from a value for every column. *)
Definition mk_row (v : forall c, col_ty c) (p : gmap string sqlval) : row :=
  Row (v Cid) (v Corg_id) (v Cstatus) (v Cattempt) (v Cmax_attempts) (v Cnext_attempt_at)
      (v Clease_generation) (v Clease_owner) (v Clease_epoch) (v Cleased_at)
      (v Clease_expires_at) (v Ccancel_requested_at) (v Ccancel_requested_by)
      (v Ccancel_reason) (v Clast_error) (v Clast_outcome) (v Cunique_key)
      (v Csuperseded_by) (v Cfirst_enqueued_at) (v Ccreated_at) (v Cdone_at) p.

Lemma get_mk_row v p c : get c (mk_row v p) = v c.
Proof. by destruct c. Qed.

Lemma row_ext (r s : row) :
  (forall c, get c r = get c s) -> payload r = payload s -> r = s.
Proof.
  intros H Hp. destruct r, s; simpl in Hp.
  pose proof (H Cid); pose proof (H Corg_id); pose proof (H Cstatus); pose proof (H Cattempt);
  pose proof (H Cmax_attempts); pose proof (H Cnext_attempt_at);
  pose proof (H Clease_generation); pose proof (H Clease_owner); pose proof (H Clease_epoch);
  pose proof (H Cleased_at); pose proof (H Clease_expires_at);
  pose proof (H Ccancel_requested_at); pose proof (H Ccancel_requested_by);
  pose proof (H Ccancel_reason); pose proof (H Clast_error); pose proof (H Clast_outcome);
  pose proof (H Cunique_key); pose proof (H Csuperseded_by); pose proof (H Cfirst_enqueued_at);
  pose proof (H Ccreated_at); pose proof (H Cdone_at).
  simpl in *. by subst.
Qed.

(** ** Value expressions

    [vtext] is the constant's SQL text, [None] for an expression that binds
    parameters; [vsem] is its value at a statement's time over the old row. *)
Record valueExpr (c : col) := VE { vtext : option string; vsem : Z -> row -> col_ty c }.
Arguments VE {c}. Arguments vtext {c}. Arguments vsem {c}.

Definition lit {c} (text : string) (sem : Z -> row -> col_ty c) : valueExpr c := VE (Some text) sem.
Definition bound {c} (sem : Z -> row -> col_ty c) : valueExpr c := VE None sem.
Arguments lit {c} & text sem.
Arguments bound {c} & sem.
Definition keep (c : col) : valueExpr c := lit (col_name c) (fun _ r => get c r).

Definition sameConstant {c} (v o : valueExpr c) : bool :=
  match vtext v, vtext o with
  | Some a, Some b => bool_decide (a = b)
  | _, _ => false
  end.

(** ** Assignments and statements *)

Record assign := Assign { acol : col; aexpr : valueExpr acol }.

(** The first assignment to [c]; the builders never assign a column twice. *)
Fixpoint lookup_assign (c : col) (sets : list assign) : option (valueExpr c) :=
  match sets with
  | [] => None
  | a :: sets =>
      match col_eq_dec (acol a) c with
      | left e => Some (eq_rect (acol a) valueExpr (aexpr a) c e)
      | right _ => lookup_assign c sets
      end
  end.

(** [UPDATE ... SET sets] on one row at time [now]. *)
Definition apply_sets (sets : list assign) (now : Z) (r : row) : row :=
  mk_row (fun c => match lookup_assign c sets with
                   | Some e => vsem e now r
                   | None => get c r
                   end) (payload r).

Lemma get_apply_sets sets now r c :
  get c (apply_sets sets now r) =
  match lookup_assign c sets with Some e => vsem e now r | None => get c r end.
Proof. apply get_mk_row. Qed.

(** [quoteLiteral]; it panics on a quote or a backslash, which no
    package-owned constant holds. *)
Definition quoteLiteral (s : string) : string := ("'" ++ s ++ "'")%string.

Definition nowExpr (k : Kind) : string :=
  match KDialect k with
  | Postgres => "statement_timestamp()"
  | _ => "strftime('%Y-%m-%d %H:%M:%f','now')"
  end.

(** Named constants of the builders. *)
Definition lit_status (s : Status) : valueExpr Cstatus :=
  lit (quoteLiteral (status_text s)) (fun _ _ => s).
Definition lit_now_done (k : Kind) : valueExpr Cdone_at := lit (nowExpr k) (fun now _ => Some now).
Definition lit_outcome (o : string) : valueExpr Clast_outcome :=
  lit (quoteLiteral o) (fun _ _ => Some o).

Definition clearLease : list assign :=
  [ Assign Clease_owner (lit "NULL" (fun _ _ => None));
    Assign Clease_epoch (lit "NULL" (fun _ _ => None));
    Assign Cleased_at (lit "NULL" (fun _ _ => None));
    Assign Clease_expires_at (lit "NULL" (fun _ _ => None)) ].

Definition cancelSettlement (k : Kind) : list assign :=
  [ Assign Cstatus (lit_status StatusCancelled);
    Assign Cdone_at (lit_now_done k);
    Assign Clast_outcome (lit_outcome outcomeCancelled);
    Assign Clease_owner (lit "NULL" (fun _ _ => None));
    Assign Clease_epoch (lit "NULL" (fun _ _ => None));
    Assign Cleased_at (lit "NULL" (fun _ _ => None));
    Assign Clease_expires_at (lit "NULL" (fun _ _ => None)) ].

Definition terminalDone (k : Kind) : list assign :=
  [ Assign Cstatus (lit_status StatusDone);
    Assign Cdone_at (lit_now_done k);
    Assign Clast_outcome (lit_outcome outcomeDone) ] ++ clearLease.

(** [cancel_requested_at IS NOT NULL]. *)
Definition cancel_pending (r : row) : bool := bool_decide (is_Some (cancel_requested_at r)).

(** ** [holderSQL]: one statement, two branches

    Every column either list assigns gets one clause: the shared constant
    when both branches are the identical constant text, otherwise a [CASE]
    on the pending request.  [None] is the builder's panic on a column the
    operation assigns twice. *)
Definition case_expr {c} (ce ne : valueExpr c) : valueExpr c :=
  if sameConstant ce ne then ce
  else VE (match vtext ce, vtext ne with
           | Some a, Some b => Some ("CASE WHEN cancel_requested_at IS NOT NULL THEN " ++ a ++ " ELSE " ++ b ++ " END")%string
           | _, _ => None
           end)
          (fun now r => if cancel_pending r then vsem ce now r else vsem ne now r).

Definition holder_order (cancel sets : list assign) : list col :=
  map acol cancel ++ filter (fun c => c ∉ map acol cancel) (map acol sets).

Definition holder_clause (cancel sets : list assign) (c : col) : assign :=
  Assign c (case_expr (default (keep c) (lookup_assign c cancel))
                      (default (keep c) (lookup_assign c sets))).

Definition holderSQL (k : Kind) (sets : list assign) : option (list assign) :=
  if bool_decide (NoDup (map acol sets)) then
    Some (map (holder_clause (cancelSettlement k) sets) (holder_order (cancelSettlement k) sets))
  else None.

(** ** The ownership guard *)

Record Receipt := MkReceipt {
  ItemID : Z; OrgID : string; LeaseGeneration : Z; LeaseExpiresAt : option Z;
  Attempt : Z; UniqueKey : string; Reclaimed : bool; PreviousOwner : string;
  RFrozen : gmap string sqlval }.

(** [guardBody]: the terms beside the row address.  The [IS NOT NULL] term
    makes the whole predicate two-valued. *)
Definition guardBody (r : Receipt) (now : Z) (w : row) : bool :=
  bool_decide (status w = StatusLeased) &&
  (lease_generation w =? LeaseGeneration r) &&
  match lease_expires_at w with Some e => now <? e | None => false end.

Definition guardSQL (r : Receipt) (now : Z) (w : row) : bool :=
  (id w =? ItemID r) && bool_decide (org_id w = OrgID r) && guardBody r now w.

(** ** Ripeness

    [filter] is the meaning of the kind's claim filter: SQL text over the row
    and whatever tables it names, so a three-valued predicate supplied by the
    adopting kind.  It counts only when the kind declares one. *)
Section Ripe.
Context (claim_filter : row -> tri).

Definition ripeCondition (k : Kind) (now : Z) (w : row) : tri :=
  let cond := Some (match next_attempt_at w with None => true | Some t => t <=? now end) in
  if bool_decide (ClaimFilter k = ""%string) then cond else tri_and cond (claim_filter w).

Definition ripePredicate (k : Kind) (now : Z) (w : row) : tri :=
  tri_and (Some (bool_decide (status w = StatusReady))) (ripeCondition k now w).

Definition deferredPredicate (k : Kind) (now : Z) (w : row) : tri :=
  tri_and (Some (bool_decide (status w = StatusReady))) (tri_not (ripeCondition k now w)).
End Ripe.

(** ** The merged statement is the two-branch one *)

(** A constant's text determines its meaning across the two lists.  The
    builder compares text alone, so this is what its shortcut rests on. *)
Definition texts_agree (cancel sets : list assign) : Prop :=
  forall c (ce ne : valueExpr c),
    default (keep c) (lookup_assign c cancel) = ce ->
    default (keep c) (lookup_assign c sets) = ne ->
    sameConstant ce ne = true -> forall now r, vsem ce now r = vsem ne now r.

Lemma lookup_assign_map (f : forall c, valueExpr c) (l : list col) c :
  lookup_assign c (map (fun c => Assign c (f c)) l) = if bool_decide (c ∈ l) then Some (f c) else None.
Proof.
  induction l as [|d l IH]; simpl; [done|].
  destruct (col_eq_dec d c) as [e|n].
  - subst d. simpl. rewrite bool_decide_true by set_solver. done.
  - rewrite IH. destruct (decide (c ∈ l)) as [i|i].
    + rewrite !bool_decide_true by set_solver. done.
    + rewrite !bool_decide_false by set_solver. done.
Qed.

Lemma lookup_assign_None c sets : c ∉ map acol sets -> lookup_assign c sets = None.
Proof.
  induction sets as [|a sets IH]; simpl; [done|]. intros Hn.
  destruct (col_eq_dec (acol a) c); [set_solver|]. apply IH. set_solver.
Qed.

Lemma holder_order_elem cancel sets c :
  c ∈ holder_order cancel sets <-> c ∈ map acol cancel \/ c ∈ map acol sets.
Proof.
  unfold holder_order. rewrite elem_of_app, list_elem_of_filter.
  destruct (decide (c ∈ map acol cancel)); naive_solver.
Qed.

Lemma holder_merge cancel sets now r :
  texts_agree cancel sets ->
  apply_sets (map (holder_clause cancel sets) (holder_order cancel sets)) now r =
  if cancel_pending r then apply_sets cancel now r else apply_sets sets now r.
Proof.
  intros Ht. apply row_ext; [|by destruct (cancel_pending r)]. intros c.
  rewrite get_apply_sets. unfold holder_clause.
  rewrite (lookup_assign_map (fun c => case_expr (default (keep c) (lookup_assign c cancel))
                                                 (default (keep c) (lookup_assign c sets)))).
  case_bool_decide as Hin; rewrite holder_order_elem in Hin.
  - transitivity (if cancel_pending r
                  then vsem (default (keep c) (lookup_assign c cancel)) now r
                  else vsem (default (keep c) (lookup_assign c sets)) now r).
    + unfold case_expr. destruct (sameConstant _ _) eqn:Hs; [|done].
      destruct (cancel_pending r); [done|]. by apply (Ht c).
    + destruct (cancel_pending r); rewrite get_apply_sets;
        [destruct (lookup_assign c cancel)|destruct (lookup_assign c sets)]; done.
  - destruct (cancel_pending r); rewrite get_apply_sets, lookup_assign_None by tauto; done.
Qed.
