(* ===== verification/WorkItemStore.v ===== *)
(** * The work item table, errors, observers and admission

    Models the database one kind lives in and internal/db/workitem/tx.go,
    observer.go and admit.go.  A [db] is the kind's table, its id sequence and
    the application's other tables ([app]), which the package touches only
    through the closures its callers hand it.  An operation returns the new
    database, its result, and the observer calls it made. *)

From S2P Require Import Prelude WorkItemKind WorkItemRow.

(** ** Errors and observer calls *)

Inductive err :=
| ErrLeaseLost | ErrCancelled | ErrDeferRefused | ErrNotCancellable | ErrNotParked
| ErrAdmissionRaced
| EKind (e : kind_error)          (* Validate refused the kind *)
| EArg (what : string)            (* an argument check of the operation *)
| EUndeclared (column : string)
| ERowMoved (item : Z)            (* a row moved under a locked claim *)
| ESuccessorDeduplicated (by_ : Z)
| EDriver                         (* a statement, begin or commit failed *)
| EApp (what : string)            (* the caller's closure failed *)
| EWrap (what : string) (e : err).

#[global] Instance kind_error_eq_dec : EqDecision kind_error. Proof. solve_decision. Defined.
#[global] Instance err_eq_dec : EqDecision err. Proof. solve_decision. Defined.

(** [errors.Is] against a sentinel: the error itself or anything it wraps. *)
Fixpoint errors_Is (e target : err) : bool :=
  bool_decide (e = target) || match e with EWrap _ e' => errors_Is e' target | _ => false end.

Inductive obs :=
| OClaimed (org : string) (leased reclaimed cancelled parked : nat)
| OCompleted (org : string)
| ORequeued (org : string) (o : Outcome)
| OParked (org reason : string)
| ODeferred (org : string)
| OCancelled (org : string)
| OLeaseLost (org op : string)
| ORedriven (org : string)
| OSuperseded (org : string).

Definition OpComplete : string := "complete".
Definition OpMarkDone : string := "mark_done".
Definition OpRequeue : string := "requeue".
Definition OpPark : string := "park".
Definition OpDefer : string := "defer".
Definition OpRenew : string := "renew".
Definition ReasonBudgetExhausted : string := outcomeBudgetExhausted.

(** ** The database *)

Record db (D : Type) := Db { tbl : gmap Z row; next_id : Z; app : D }.
Arguments Db {D}. Arguments tbl {D}. Arguments next_id {D}. Arguments app {D}.

Definition with_tbl {D} (d : db D) (t : gmap Z row) : db D := Db t (next_id d) (app d).

Record out (D A : Type) := Out { odb : db D; ores : res err A; oobs : list obs }.
Arguments Out {D A}. Arguments odb {D A}. Arguments ores {D A}. Arguments oobs {D A}.

(** [inTx]: the body's error rolls everything back, and so does a commit that
    fails ([commits = false], the driver's choice). *)
Definition inTx {D A} (commits : bool) (fn : db D -> res err (db D * A)) (d : db D) : db D * res err A :=
  match fn d with
  | Err e => (d, Err e)
  | Ok (d', a) => if commits then (d', Ok a) else (d, Err EDriver)
  end.

(** [UPDATE ... WHERE id = i AND p]: the new row and table, [None] when no row
    matched. *)
Definition update_row (t : gmap Z row) (i : Z) (p : row -> bool) (sets : list assign) (now : Z)
  : option (row * gmap Z row) :=
  match t !! i with
  | Some w => if p w then let w' := apply_sets sets now w in Some (w', <[i := w']> t) else None
  | None => None
  end.

(** ** Admission *)

(** A row the mode's partial unique index holds under [(org, key)]. *)
Definition indexed (k : Kind) (w : row) : bool :=
  match Unique k, unique_key w with
  | UniqueForever, Some _ => true
  | UniqueWhileUnsettled, Some _ => unsettled_status (status w)
  | _, _ => false
  end.

Definition key_match (org key : string) (w : row) : bool :=
  bool_decide (org_id w = org) && bool_decide (unique_key w = Some key).

(** The rows an insert of [(org, key)] conflicts with. *)
Definition conflicts (k : Kind) (t : gmap Z row) (org key : string) : list row :=
  filter (fun w => indexed k w && key_match org key w = true) (map_to_list t).*2.

(** [existingByKey]: [ORDER BY id LIMIT 1] over the rows holding the key. *)
Definition row_id_le (a b : row) : Prop := id a <= id b.
#[global] Instance row_id_le_dec : RelDecision row_id_le := fun a b => Z_le_dec (id a) (id b).

Definition existingByKey (k : Kind) (t : gmap Z row) (org key : string) : res err Z :=
  let live w := match Unique k with UniqueWhileUnsettled => unsettled_status (status w) | _ => true end in
  match merge_sort row_id_le (filter (fun w => key_match org key w && live w = true) (map_to_list t).*2) with
  | w :: _ => Ok (id w)
  | [] => Err (EWrap "admit key" ErrAdmissionRaced)
  end.

Definition str_le (a b : string) : Prop := String.leb a b = true.
#[global] Instance str_le_dec : RelDecision str_le := fun a b => decide (String.leb a b = true).

Definition declares (k : Kind) (name : string) : bool := bool_decide (name ∈ Columns k).

Fixpoint check_declared (k : Kind) (names : list string) : res err unit :=
  match names with
  | [] => Ok tt
  | n :: ns => refuse? negb (declares k n) with EUndeclared n ;; check_declared k ns
  end.

Definition nullableText (s : string) : option string :=
  if bool_decide (s = ""%string) then None else Some s.

(** The inserted row; columns the insert does not name take their defaults. *)
Definition admitted_row (k : Kind) (i : Z) (org key : string) (cols : gmap string sqlval) (now : Z) : row :=
  {| id := i; org_id := org; status := StatusReady; attempt := 0;
     max_attempts := MaxAttempts (policy_resolved (KPolicy k));
     next_attempt_at := None; lease_generation := 0; lease_owner := None; lease_epoch := None;
     leased_at := None; lease_expires_at := None; cancel_requested_at := None;
     cancel_requested_by := None; cancel_reason := None; last_error := None;
     last_outcome := None; unique_key := nullableText key; superseded_by := None;
     first_enqueued_at := now; created_at := now; done_at := None; payload := cols |}.

Section Admit.
Context {D : Type}.

(** The unexported [admit]: the id and whether the insert was deduplicated. *)
Definition kind_admit (k : Kind) (org key : string) (cols : gmap string sqlval) (now : Z) (d : db D)
  : res err (db D * (Z * bool)) :=
  let names := merge_sort str_le (map_to_list cols).*1 in
  let? _ := check_declared k names in
  match conflicts k (tbl d) org key with
  | [] =>
      let i := next_id d in
      Ok (Db (<[i := admitted_row k i org key cols now]> (tbl d)) (i + 1) (app d), (i, false))
  | w :: _ =>
      match KDialect k with
      | Postgres => Ok (d, (id w, true))
      | _ => let? i := existingByKey k (tbl d) org key in Ok (d, (i, true))
      end
  end.

Definition Admit (k : Kind) (org key : string) (cols : gmap string sqlval) (now : Z) (commits : bool) (d : db D)
  : db D * res err (Z * bool) :=
  match Validate k with
  | Err e => (d, Err (EKind e))
  | Ok _ =>
      if bool_decide (org = ""%string) then (d, Err (EArg "admit has no org"))
      else if negb (bool_decide (key = ""%string)) && bool_decide (Unique k = UniqueNone)
      then (d, Err (EArg "unique key would dedup nothing"))
      else inTx commits (kind_admit k org key cols now) d
  end.
End Admit.

(** ** Table invariants *)

(** Rows are stored under their id, below the sequence, and no two indexed
    rows share an organization and key. *)
Definition keyed (t : gmap Z row) (next : Z) : Prop :=
  forall i w, t !! i = Some w -> id w = i /\ i < next.

Definition unique_ok (k : Kind) (t : gmap Z row) : Prop :=
  forall i j w v key, t !! i = Some w -> t !! j = Some v ->
    indexed k w = true -> indexed k v = true ->
    org_id w = org_id v -> unique_key w = Some key -> unique_key v = Some key -> i = j.

(** ** Lemmas *)

Lemma update_row_Some t i p sets now w' t' :
  update_row t i p sets now = Some (w', t') <->
  exists w, t !! i = Some w /\ p w = true /\ w' = apply_sets sets now w /\ t' = <[i := w']> t.
Proof.
  unfold update_row. destruct (t !! i) as [w|] eqn:E; [|split; [done|by intros (?&?&?)]].
  destruct (p w) eqn:Ep; split.
  - intros [= <- <-]. eauto.
  - by intros (? & [= <-] & ? & -> & ->).
  - done.
  - intros (? & [= <-] & ? & ? & ?). congruence.
Qed.

Lemma update_row_None t i p sets now :
  update_row t i p sets now = None <-> forall w, t !! i = Some w -> p w = false.
Proof.
  unfold update_row. destruct (t !! i) as [w|] eqn:E; [|done].
  destruct (p w) eqn:Ep; (split; [done || by intros _ ? [= <-]|]).
  - intros H. specialize (H w eq_refl). congruence.
  - done.
Qed.

Lemma elem_of_rows (t : gmap Z row) w :
  w ∈ (map_to_list t).*2 <-> exists i, t !! i = Some w.
Proof.
  rewrite list_elem_of_fmap. split.
  - intros ([i v] & -> & H). exists i. by apply elem_of_map_to_list.
  - intros [i H]. exists (i, w). by rewrite elem_of_map_to_list.
Qed.

Lemma elem_of_conflicts k t org key w :
  w ∈ conflicts k t org key <->
  (exists i, t !! i = Some w) /\ indexed k w = true /\ org_id w = org /\ unique_key w = Some key.
Proof.
  unfold conflicts. rewrite list_elem_of_filter, elem_of_rows, andb_true_iff.
  unfold key_match. rewrite andb_true_iff, !bool_decide_eq_true. tauto.
Qed.

Lemma key_match_iff org key w :
  key_match org key w = true <-> org_id w = org /\ unique_key w = Some key.
Proof. unfold key_match. by rewrite andb_true_iff, !bool_decide_eq_true. Qed.

Lemma merge_sort_head {A} (R : relation A) `{!RelDecision R} (l : list A) x l' :
  merge_sort R l = x :: l' -> x ∈ l.
Proof. intros H. rewrite <- (merge_sort_Permutation R l), H. left. Qed.

Lemma merge_sort_nil {A} (R : relation A) `{!RelDecision R} (l : list A) :
  merge_sort R l = [] -> l = [].
Proof. intros H. apply Permutation_nil. by rewrite <- H, merge_sort_Permutation. Qed.

(** Both dialects name the same row: Postgres returns the row its upsert hit,
    SQLite reads the key back, and the unique index leaves one candidate. *)
Lemma existingByKey_conflict k t next org key w rest :
  keyed t next -> unique_ok k t ->
  conflicts k t org key = w :: rest -> existingByKey k t org key = Ok (id w).
Proof.
  intros Hk Hu Hc.
  assert (Hw : w ∈ conflicts k t org key) by (rewrite Hc; left).
  apply elem_of_conflicts in Hw as ([i Hi] & Hx & Ho & Hkey).
  assert (Hmode : forall v, org_id v = org -> unique_key v = Some key ->
     (match Unique k with UniqueWhileUnsettled => unsettled_status (status v) | _ => true end) = true ->
     indexed k v = true).
  { intros v _ Hv. unfold indexed in *. rewrite Hv. rewrite Hkey in Hx.
    by destruct (Unique k). }
  unfold existingByKey. destruct (merge_sort _ _) as [|v vs] eqn:Hs.
  - exfalso. apply merge_sort_nil in Hs.
    assert (Hin : w ∈ @nil row); [|by apply elem_of_nil in Hin]. rewrite <- Hs.
    apply list_elem_of_filter. rewrite elem_of_rows, andb_true_iff, key_match_iff.
    split_and!; try done; [|by eauto]. unfold indexed in Hx. rewrite Hkey in Hx.
    by destruct (Unique k).
  - apply merge_sort_head, list_elem_of_filter in Hs.
    rewrite elem_of_rows, andb_true_iff, key_match_iff in Hs.
    destruct Hs as [[[? ?] ?] [j Hj]]. f_equal.
    assert (i = j) as <- by (eapply (Hu i j w v); eauto; congruence).
    congruence.
Qed.
