(* ===== verification/WorkItemHolder.v ===== *)
(** * Holder operations

    Models internal/db/workitem/holder.go: the guarded writes a lease holder
    makes with its receipt.  Every statement reads fresh database time, so an
    operation of several statements takes one instant per statement. *)

From Stdlib Require Import SpecFloat.
From S2P Require Import Prelude WorkItemKind WorkItemRow WorkItemStore.

Section Holder.
Context {D : Type}.
Implicit Types (d : db D) (k : Kind) (r : Receipt).

(** ** Guarded writes *)

(** [holderWriteReturningStatus]: the merged statement under the guard.  The
    database moves on the cancellation branch too; only the answer differs. *)
Definition holderWriteReturningStatus k r (sets : list assign) (now : Z) d : db D * res err Status :=
  match holderSQL k sets with
  | None => (d, Err (EArg "duplicate assignment"))
  | Some merged =>
      match update_row (tbl d) (ItemID r) (guardSQL r now) merged now with
      | None => (d, Err ErrLeaseLost)
      | Some (w', t') =>
          (with_tbl d t', if cancel_pending w' then Err ErrCancelled else Ok (status w'))
      end
  end.

Definition holderWrite k r sets now d : db D * res err unit :=
  let '(d', x) := holderWriteReturningStatus k r sets now d in
  (d', let? _ := x in Ok tt).

(** [plainGuardedWrite], for callers that resolved the request under a lock. *)
Definition plainGuardedWrite r (sets : list assign) (now : Z) d : res err (db D) :=
  match update_row (tbl d) (ItemID r) (guardSQL r now) sets now with
  | None => Err ErrLeaseLost
  | Some (_, t') => Ok (with_tbl d t')
  end.

Definition lockAndVerify r (now : Z) d : res err bool :=
  match tbl d !! ItemID r with
  | Some w =>
      if bool_decide (org_id w = OrgID r) then
        if guardBody r now w then Ok (cancel_pending w) else Err ErrLeaseLost
      else Err ErrLeaseLost
  | None => Err ErrLeaseLost
  end.

Definition flipDone k r now d : res err (db D) := plainGuardedWrite r (terminalDone k) now d.
Definition settleUnderGuard k r now d : res err (db D) := plainGuardedWrite r (cancelSettlement k) now d.

(** ** Observer reports *)

Definition reportLost r (op : string) (e : err) : list obs :=
  if errors_Is e ErrLeaseLost then [OLeaseLost (OrgID r) op] else [].

Definition reportHolder {A} r (op : string) (x : res err A) (onOK : A -> list obs) : list obs :=
  match x with
  | Ok a => onOK a
  | Err e => if errors_Is e ErrCancelled then [OCancelled (OrgID r)] else reportLost r op e
  end.

(** ** Completion

    The body of [Kind.complete]'s transaction.  [fn] is the caller's domain
    mutation and [after] runs once the row is done, both inside the same
    transaction; [t_lock] and [t_write] are the instants of the lock and of
    the guarded write. *)
Section Complete.
Context {C B : Type}.

Definition wrap_err {A} (what : string) (x : res err A) : res err A :=
  match x with Ok a => Ok a | Err e => Err (EWrap what e) end.

Definition complete_body k r (fn : db D -> res err (db D * C)) (after : C -> db D -> res err (db D * B))
    (t_lock t_write : Z) d : res err (db D * option B) :=
  let? cancelled := lockAndVerify r t_lock d in
  if (cancelled : bool) then
    let? d' := settleUnderGuard k r t_write d in Ok (d', None)
  else
    let? (d1, c) := wrap_err "complete closure" (fn d) in
    let? d2 := flipDone k r t_write d1 in
    let? (d3, b) := after c d2 in
    Ok (d3, Some b).

Definition complete k r (fn : option (db D -> res err (db D * C))) (after : C -> db D -> res err (db D * B))
    (t_lock t_write : Z) (commits : bool) d : out D B :=
  match Validate k with
  | Err e => Out d (Err (EKind e)) []
  | Ok _ =>
      if negb (bool_decide (KStrategy k = SingleTx)) then Out d (Err (EArg "completes with MarkDone")) [] else
      match fn with
      | None => Out d (Err (EArg "complete has no closure")) []
      | Some fn =>
          match inTx commits (complete_body k r fn after t_lock t_write) d with
          | (d', Err e) => Out d' (Err e) (reportLost r OpComplete e)
          | (d', Ok None) => Out d' (Err ErrCancelled) [OCancelled (OrgID r)]
          | (d', Ok (Some b)) => Out d' (Ok b) [OCompleted (OrgID r)]
          end
      end
  end.
End Complete.

Definition Complete k r (fn : option (db D -> res err (db D))) t_lock t_write commits d : out D unit :=
  complete k r ((fun f d => let? d' := f d in Ok (d', tt)) <$> fn) (fun _ d => Ok (d, tt))
    t_lock t_write commits d.

(** The successor's admission, under the receipt's own key; [0] when nothing
    is owed again. *)
Definition admit_successor k r (t_admit : Z) (cols : option (gmap string sqlval)) d : res err (db D * Z) :=
  match cols with
  | None => Ok (d, 0)
  | Some cols =>
      let? (d', (i, deduplicated)) := kind_admit k (OrgID r) (UniqueKey r) cols t_admit d in
      if (deduplicated : bool) then Err (ESuccessorDeduplicated i) else Ok (d', i)
  end.

Definition CompleteAndAdmit k r
    (fn : option (db D -> res err (db D * option (gmap string sqlval))))
    t_lock t_write t_admit commits d : out D Z :=
  if bool_decide (Unique k = UniqueForever) then Out d (Err (EArg "holds its keys forever")) [] else
  match fn with
  | None => Out d (Err (EArg "complete has no closure")) []
  | Some f => complete k r (Some f) (admit_successor k r t_admit) t_lock t_write commits d
  end.

Definition MarkDone k r now d : out D unit :=
  match Validate k with
  | Err e => Out d (Err (EKind e)) []
  | Ok _ =>
      if negb (bool_decide (KStrategy k = FencedReplay)) then Out d (Err (EArg "completes with Complete")) [] else
      let '(d', x) := holderWrite k r (terminalDone k) now d in
      Out d' x (reportHolder r OpMarkDone x (fun _ => [OCompleted (OrgID r)]))
  end.

(** ** Requeue and Park *)

Definition exhausted (w : row) : bool := max_attempts w <=? attempt w.

Definition requeue_sets k r (outcome : Outcome) (cause : option string) (u : spec_float) : list assign :=
  (if bool_decide (outcome = OutcomePermanent) then
     [ Assign Cstatus (lit_status StatusParked);
       Assign Cdone_at (lit_now_done k);
       Assign Cnext_attempt_at (keep Cnext_attempt_at) ]
   else
     let delay := Backoff (Backoff_ (KPolicy k)) (Attempt r) u in
     [ Assign Cstatus (lit "CASE WHEN attempt >= max_attempts THEN 'parked' ELSE 'ready' END"
                           (fun _ w => if exhausted w then StatusParked else StatusReady));
       Assign Cdone_at (lit ("CASE WHEN attempt >= max_attempts THEN " ++ nowExpr k ++ " ELSE done_at END")%string
                            (fun now w => if exhausted w then Some now else done_at w));
       Assign Cnext_attempt_at (bound (fun now w => if exhausted w then next_attempt_at w else Some (now + delay))) ])
  ++ [ Assign Clast_outcome (bound (fun _ _ => Some (outcome_text outcome)));
       Assign Clast_error (bound (fun _ _ => cause)) ] ++ clearLease.

Definition Requeue k r (outcome : Outcome) (cause : option string) (u : spec_float) now d : out D bool :=
  match Validate k with
  | Err e => Out d (Err (EKind e)) []
  | Ok _ =>
      if negb (outcome_valid outcome) then Out d (Err (EArg "requeue with unknown outcome")) [] else
      let '(d', x) := holderWriteReturningStatus k r (requeue_sets k r outcome cause u) now d in
      let x := let? landed := x in Ok (bool_decide (landed = StatusParked)) in
      Out d' x (reportHolder r OpRequeue x (fun parked : bool =>
        if parked then [OParked (OrgID r) (outcome_text outcome)] else [ORequeued (OrgID r) outcome]))
  end.

Definition park_sets k (reason : string) : list assign :=
  [ Assign Cstatus (lit_status StatusParked);
    Assign Cdone_at (lit_now_done k);
    Assign Clast_outcome (bound (fun _ _ => Some reason)) ] ++ clearLease.

Definition Park k r (reason : string) now d : out D unit :=
  match Validate k with
  | Err e => Out d (Err (EKind e)) []
  | Ok _ =>
      if bool_decide (reason = ""%string) then Out d (Err (EArg "park has no reason")) [] else
      let '(d', x) := holderWrite k r (park_sets k reason) now d in
      Out d' x (reportHolder r OpPark x (fun _ => [OParked (OrgID r) reason]))
  end.

(** ** Defer *)

Definition defer_sets (reason : string) (at_ : Z) : list assign :=
  [ Assign Cstatus (lit_status StatusReady);
    Assign Cattempt (lit "attempt - 1" (fun _ w => attempt w - 1));
    Assign Cnext_attempt_at (bound (fun _ _ => Some at_));
    Assign Clast_outcome (lit_outcome outcomeDeferred);
    Assign Clast_error (bound (fun _ _ => Some reason)) ] ++ clearLease.

Definition defer_body k r (reason : string) (at_ : Z) (predicate : db D -> res err bool)
    (t_lock t_write : Z) d : res err (db D * bool) :=
  let? cancelled := lockAndVerify r t_lock d in
  if (cancelled : bool) then
    let? d' := settleUnderGuard k r t_write d in Ok (d', true)
  else
    let? ok := wrap_err "defer predicate" (predicate d) in
    if negb ok then Err ErrDeferRefused else
    let? d' := plainGuardedWrite r (defer_sets reason at_) t_write d in Ok (d', false).

(** [nextAttemptAt] is [None] for Go's zero instant.  The predicate reads the
    database under the item's lock. *)
Definition Defer k r (reason : string) (nextAttemptAt : option Z) (predicate : option (db D -> res err bool))
    t_lock t_write commits d : out D unit :=
  match Validate k with
  | Err e => Out d (Err (EKind e)) []
  | Ok _ =>
      if bool_decide (reason = ""%string) then Out d (Err (EArg "defer has no reason")) [] else
      match predicate, nextAttemptAt with
      | None, _ => Out d (Err (EArg "defer has no predicate")) []
      | _, None => Out d (Err (EArg "defer has no retry time")) []
      | Some predicate, Some at_ =>
          match inTx commits (defer_body k r reason at_ predicate t_lock t_write) d with
          | (d', Err e) => Out d' (Err e) (reportLost r OpDefer e)
          | (d', Ok true) => Out d' (Err ErrCancelled) [OCancelled (OrgID r)]
          | (d', Ok false) => Out d' (Ok tt) [ODeferred (OrgID r)]
          end
      end
  end.

(** ** RenewLease *)

Definition renew_sets k : list assign :=
  [ Assign Clease_expires_at (bound (fun now _ => Some (now + Lease (policy_resolved (KPolicy k))))) ].

Definition with_expiry (r : Receipt) (e : option Z) : Receipt :=
  MkReceipt (ItemID r) (OrgID r) (LeaseGeneration r) e (Attempt r) (UniqueKey r)
    (Reclaimed r) (PreviousOwner r) (RFrozen r).

Definition RenewLease k r now d : out D Receipt :=
  match Validate k with
  | Err e => Out d (Err (EKind e)) []
  | Ok _ =>
      match holderSQL k (renew_sets k) with
      | None => Out d (Err (EArg "duplicate assignment")) []
      | Some merged =>
          match update_row (tbl d) (ItemID r) (guardSQL r now) merged now with
          | None => Out d (Err ErrLeaseLost) [OLeaseLost (OrgID r) OpRenew]
          | Some (w', t') =>
              if cancel_pending w' then Out (with_tbl d t') (Err ErrCancelled) [OCancelled (OrgID r)]
              else Out (with_tbl d t') (Ok (with_expiry r (lease_expires_at w'))) []
          end
      end
  end.
End Holder.
