(* ===== verification/WorkItemClaim.v ===== *)
(** * Claiming

    Models internal/db/workitem/claim.go: the pick over three arms, the
    disposition of each picked row, one transaction per round, the bounded
    re-pick loop, and the per-organization observer report.

    A round's environment is what the database decides: the instant each
    statement reads, the rows other transactions hold locked (which Postgres
    skips and SQLite never has), whether the round commits, and what other
    sessions committed before it began. *)

From S2P Require Import Prelude WorkItemKind WorkItemRow WorkItemStore.

Record Owner := { owner_ID : string; owner_Epoch : Z }.

Record ClaimResult := { Claimed : list Receipt; Cancelled : nat; Parked : nat; ReclaimedN : nat }.
Definition empty_result : ClaimResult := {| Claimed := []; Cancelled := 0; Parked := 0; ReclaimedN := 0 |}.

Record orgRound := { or_leased : nat; or_reclaimed : nat; or_cancelled : nat; or_parked : nat }.
Definition empty_round : orgRound := {| or_leased := 0; or_reclaimed := 0; or_cancelled := 0; or_parked := 0 |}.

Record picked := {
  p_id : Z; p_orgID : string; p_attempt : Z; p_maxTries : Z; p_cancelled : bool;
  p_wasLeased : bool; p_prevOwner : string }.

Definition claimRounds : nat := 10.

(** ** The pick *)
Section Pick.
Context (claim_filter : row -> tri).

(** A ripe ready row, a ready row with a cancellation request, or a leased
    row whose lease has expired. *)
Definition claim_where (k : Kind) (now : Z) (w : row) : tri :=
  tri_or
    (tri_or (ripePredicate claim_filter k now w)
            (Some (bool_decide (status w = StatusReady) && cancel_pending w)))
    (tri_and (Some (bool_decide (status w = StatusLeased)))
             ((fun e => e <=? now) <$> lease_expires_at w)).

Definition in_org (orgID : string) (w : row) : bool :=
  bool_decide (orgID = ""%string) || bool_decide (org_id w = orgID).

(** [org_leased]: rows an organization holds leased now. *)
Definition org_leased (t : gmap Z row) (org : string) : nat :=
  length (filter (fun w => status w = StatusLeased /\ org_id w = org) (map_to_list t).*2).

(** [ORDER BY COALESCE(ol.leased, 0), t.id] under fairness, else by id. *)
Definition pick_le (k : Kind) (t : gmap Z row) (a b : row) : Prop :=
  if Fairness (KPolicy k) then
    (org_leased t (org_id a) < org_leased t (org_id b))%nat \/
    (org_leased t (org_id a) = org_leased t (org_id b) /\ id a <= id b)
  else id a <= id b.
#[global] Instance pick_le_dec k t : RelDecision (pick_le k t).
Proof. intros a b. unfold pick_le. destruct (Fairness (KPolicy k)); solve_decision. Defined.

Definition to_picked (w : row) : picked :=
  {| p_id := id w; p_orgID := org_id w; p_attempt := attempt w; p_maxTries := max_attempts w;
     p_cancelled := cancel_pending w; p_wasLeased := bool_decide (status w = StatusLeased);
     p_prevOwner := default ""%string (lease_owner w) |}.

Definition pick_rows (k : Kind) (now : Z) (orgID : string) (skip : Z -> bool) (t : gmap Z row) : list row :=
  merge_sort (pick_le k t)
    (filter (fun w => holds (claim_where k now w) && in_org orgID w && negb (skip (id w)) = true)
            (map_to_list t).*2).

Definition pick (k : Kind) (now : Z) (orgID : string) (limit : nat) (skip : Z -> bool) (t : gmap Z row) : list picked :=
  map to_picked (take limit (pick_rows k now orgID skip t)).
End Pick.

(** ** Dispositions *)

Definition claim_guard (p : picked) (w : row) : bool :=
  bool_decide (org_id w = p_orgID p) && claimable_status (status w).

Definition claimDisposition (p : picked) (sets : list assign) (now : Z) (t : gmap Z row) : res err (gmap Z row) :=
  match update_row t (p_id p) (claim_guard p) sets now with
  | Some (_, t') => Ok t'
  | None => Err (ERowMoved (p_id p))
  end.

Definition settleAtClaim (k : Kind) (p : picked) (now : Z) (t : gmap Z row) : res err (gmap Z row) :=
  claimDisposition p (cancelSettlement k) now t.

Definition park_at_claim_sets (k : Kind) : list assign :=
  [ Assign Cstatus (lit_status StatusParked);
    Assign Cdone_at (lit_now_done k);
    Assign Clast_outcome (lit "COALESCE(last_outcome, 'budget_exhausted')"
      (fun _ w => Some (default outcomeBudgetExhausted (last_outcome w)))) ] ++ clearLease.

Definition parkAtClaim (k : Kind) (p : picked) (now : Z) (t : gmap Z row) : res err (gmap Z row) :=
  claimDisposition p (park_at_claim_sets k) now t.

Definition lease_sets (k : Kind) (owner : Owner) : list assign :=
  [ Assign Cstatus (lit_status StatusLeased);
    Assign Cattempt (lit "attempt + 1" (fun _ w => attempt w + 1));
    Assign Clease_generation (lit "lease_generation + 1" (fun _ w => lease_generation w + 1));
    Assign Clease_owner (bound (fun _ _ => Some (owner_ID owner)));
    Assign Clease_epoch (bound (fun _ _ => Some (owner_Epoch owner)));
    Assign Cleased_at (lit (nowExpr k) (fun now _ => Some now));
    Assign Clease_expires_at (bound (fun now _ => Some (now + Lease (policy_resolved (KPolicy k))))) ].

Definition normalizeScanned (v : sqlval) : sqlval :=
  match v with SBytes s => SText s | v => v end.

Definition frozen_of (k : Kind) (w : row) : gmap string sqlval :=
  list_to_map (map (fun f => (f, normalizeScanned (default SNull (payload w !! f)))) (Frozen k)).

(** The receipt reads the row the same statement wrote. *)
Definition receipt_of (k : Kind) (p : picked) (w : row) : Receipt :=
  {| ItemID := p_id p; OrgID := p_orgID p; LeaseGeneration := lease_generation w;
     LeaseExpiresAt := lease_expires_at w; Attempt := attempt w;
     UniqueKey := default ""%string (unique_key w);
     Reclaimed := p_wasLeased p; PreviousOwner := p_prevOwner p; RFrozen := frozen_of k w |}.

Definition lease (k : Kind) (p : picked) (owner : Owner) (now : Z) (t : gmap Z row) : res err (gmap Z row * Receipt) :=
  match update_row t (p_id p) (claim_guard p) (lease_sets k owner) now with
  | Some (w', t') => Ok (t', receipt_of k p w')
  | None => Err (ERowMoved (p_id p))
  end.

(** ** One round *)

Inductive disposition := DCancel | DPark | DLease.

(** Cancellation outranks the budget, and the budget outranks the lease. *)
Definition choose (p : picked) : disposition :=
  if p_cancelled p then DCancel else if p_maxTries p <=? p_attempt p then DPark else DLease.

Definition tally (f : orgRound -> orgRound) (org : string) (m : gmap string orgRound) : gmap string orgRound :=
  <[org := f (default empty_round (m !! org))]> m.

Record round_acc := RA { ra_tbl : gmap Z row; ra_res : ClaimResult; ra_by : gmap string orgRound }.

Definition claim_one (k : Kind) (owner : Owner) (now : Z) (p : picked) (a : round_acc) : res err round_acc :=
  let c := ra_res a in
  match choose p with
  | DCancel =>
      let? t := settleAtClaim k p now (ra_tbl a) in
      Ok (RA t {| Claimed := Claimed c; Cancelled := S (Cancelled c); Parked := Parked c; ReclaimedN := ReclaimedN c |}
            (tally (fun o => {| or_leased := or_leased o; or_reclaimed := or_reclaimed o;
                                or_cancelled := S (or_cancelled o); or_parked := or_parked o |}) (p_orgID p) (ra_by a)))
  | DPark =>
      let? t := parkAtClaim k p now (ra_tbl a) in
      Ok (RA t {| Claimed := Claimed c; Cancelled := Cancelled c; Parked := S (Parked c); ReclaimedN := ReclaimedN c |}
            (tally (fun o => {| or_leased := or_leased o; or_reclaimed := or_reclaimed o;
                                or_cancelled := or_cancelled o; or_parked := S (or_parked o) |}) (p_orgID p) (ra_by a)))
  | DLease =>
      let? (t, r) := lease k p owner now (ra_tbl a) in
      let n := if Reclaimed r then 1%nat else 0%nat in
      Ok (RA t {| Claimed := Claimed c ++ [r]; Cancelled := Cancelled c; Parked := Parked c; ReclaimedN := ReclaimedN c + n |}
            (tally (fun o => {| or_leased := S (or_leased o); or_reclaimed := or_reclaimed o + n;
                                or_cancelled := or_cancelled o; or_parked := or_parked o |}) (p_orgID p) (ra_by a)))
  end.

(** Row [i] of the batch is disposed of at instant [times (S i)]; the pick
    itself read instant [times 0]. *)
Fixpoint claim_rows (k : Kind) (owner : Owner) (times : nat -> Z) (i : nat) (ps : list picked) (a : round_acc) : res err round_acc :=
  match ps with
  | [] => Ok a
  | p :: ps => let? a' := claim_one k owner (times (S i)) p a in claim_rows k owner times (S i) ps a'
  end.

Record round_env (D : Type) := RE {
  re_times : nat -> Z; re_skip : Z -> bool; re_commits : bool; re_world : db D -> db D }.
Arguments RE {D}. Arguments re_times {D}. Arguments re_skip {D}. Arguments re_commits {D}. Arguments re_world {D}.

Section Claim.
Context {D : Type} (claim_filter : row -> tri).

Definition claimRound (k : Kind) (owner : Owner) (orgID : string) (limit : nat) (e : round_env D) (d : db D)
  : db D * res err (nat * ClaimResult * gmap string orgRound) :=
  inTx (re_commits e) (fun d =>
    let rows := pick claim_filter k (re_times e 0%nat) orgID limit (re_skip e) (tbl d) in
    let? a := claim_rows k owner (re_times e) 0 rows (RA (tbl d) empty_result ∅) in
    Ok (with_tbl d (ra_tbl a), (length rows, ra_res a, ra_by a))) d.

Definition report_org (o : string * orgRound) : list obs :=
  let '(org, r) := o in
  OClaimed org (or_leased r) (or_reclaimed r) (or_cancelled r) (or_parked r)
    :: repeat (OParked org ReasonBudgetExhausted) (or_parked r)
    ++ repeat (OCancelled org) (or_cancelled r).

Definition reportRound (m : gmap string orgRound) : list obs :=
  flat_map (fun org => report_org (org, default empty_round (m !! org)))
           (merge_sort str_le (map_to_list m).*1).

(** What one [Claim] call leaves: a non-nil error still returns the receipts
    of the rounds that committed before it. *)
Record claim_out := CO { co_db : db D; co_res : ClaimResult; co_err : option err; co_obs : list obs }.

Definition add_result (a b : ClaimResult) : ClaimResult :=
  {| Claimed := Claimed a ++ Claimed b; Cancelled := Cancelled a + Cancelled b;
     Parked := Parked a + Parked b; ReclaimedN := ReclaimedN a + ReclaimedN b |}.

Fixpoint claim_loop (fuel : nat) (envs : nat -> round_env D) (k : Kind) (owner : Owner) (orgID : string)
    (n : nat) (acc : ClaimResult) (log : list obs) (d : db D) : claim_out :=
  match fuel with
  | O => CO d acc None log
  | S fuel =>
      if bool_decide (length (Claimed acc) < n)%nat then
        let e := envs (claimRounds - S fuel)%nat in
        match claimRound k owner orgID (n - length (Claimed acc)) e (re_world e d) with
        | (d', Err x) => CO d' acc (Some x) log
        | (d', Ok (picked, committed, byOrg)) =>
            let acc := add_result acc committed in
            let log := log ++ reportRound byOrg in
            if bool_decide (picked = 0%nat) then CO d' acc None log
            else claim_loop fuel envs k owner orgID n acc log d'
        end
      else CO d acc None log
  end.

Definition Claim (envs : nat -> round_env D) (k : Kind) (owner : Owner) (orgID : string) (n : Z) (d : db D) : claim_out :=
  match Validate k with
  | Err e => CO d empty_result (Some (EKind e)) []
  | Ok _ =>
      if n <? 1 then CO d empty_result (Some (EArg "claim asked for no rows")) []
      else if bool_decide (owner_ID owner = ""%string) then CO d empty_result (Some (EArg "claim has no owner")) []
      else claim_loop claimRounds envs k owner orgID (Z.to_nat n) empty_result [] d
  end.
End Claim.
