(* ===== verification/WorkItemOperator.v ===== *)
(** * Operator controls, reads and measurements

    Models internal/db/workitem/operator.go (cancel requests, redrive,
    supersede), reads.go (the paged list and the single read) and measure.go
    (queue depths and ages). *)

From S2P Require Import Prelude WorkItemKind WorkItemRow WorkItemStore.

Section Operator.
Context {D : Type}.
Implicit Types (d : db D) (k : Kind).

Definition request_cancel_sets k (by_ reason : string) : list assign :=
  [ Assign Ccancel_requested_at (lit (nowExpr k) (fun now _ => Some now));
    Assign Ccancel_requested_by (bound (fun _ _ => Some by_));
    Assign Ccancel_reason (bound (fun _ _ => Some reason)) ].

Definition RequestCancel k (org : string) (itemID : Z) (by_ reason : string) now d : out D unit :=
  match Validate k with
  | Err e => Out d (Err (EKind e)) []
  | Ok _ =>
      if bool_decide (by_ = ""%string) || bool_decide (reason = ""%string)
      then Out d (Err (EArg "cancel request needs a requester and a reason")) [] else
      match update_row (tbl d) itemID
              (fun w => bool_decide (org_id w = org) && claimable_status (status w) && negb (cancel_pending w))
              (request_cancel_sets k by_ reason) now with
      | Some (_, t') => Out (with_tbl d t') (Ok tt) []
      | None => Out d (Err ErrNotCancellable) []
      end
  end.

(** [operatorWrite]: a control over a parked row. *)
Definition operatorWrite (org : string) (itemID : Z) (p : row -> bool) (sets : list assign) now d (o : obs) : out D unit :=
  match update_row (tbl d) itemID
          (fun w => bool_decide (org_id w = org) && bool_decide (status w = StatusParked) && p w) sets now with
  | Some (_, t') => Out (with_tbl d t') (Ok tt) [o]
  | None => Out d (Err ErrNotParked) []
  end.

Definition redrive_sets : list assign :=
  [ Assign Cstatus (lit_status StatusReady);
    Assign Cattempt (lit "0" (fun _ _ => 0));
    Assign Cnext_attempt_at (lit "NULL" (fun _ _ => None));
    Assign Cdone_at (lit "NULL" (fun _ _ => None));
    Assign Clease_generation (lit "lease_generation + 1" (fun _ w => lease_generation w + 1));
    Assign Clast_outcome (lit_outcome outcomeRedriven);
    Assign Clast_error (lit "NULL" (fun _ _ => None)) ].

Definition Redrive k (org : string) (itemID : Z) (by_ : string) now d : out D unit :=
  match Validate k with
  | Err e => Out d (Err (EKind e)) []
  | Ok _ =>
      if bool_decide (by_ = ""%string) then Out d (Err (EArg "redrive has no requester")) [] else
      operatorWrite org itemID (fun w => negb (cancel_pending w)) redrive_sets now d (ORedriven org)
  end.

Definition supersede_sets k (by_ : string) (supersededBy : Z) : list assign :=
  [ Assign Cstatus (lit_status StatusCancelled);
    Assign Cdone_at (lit_now_done k);
    Assign Csuperseded_by (bound (fun _ _ => Some supersededBy));
    Assign Clast_outcome (lit_outcome outcomeSuperseded);
    Assign Ccancel_requested_by (bound (fun _ _ => Some by_)) ].

Definition Supersede k (org : string) (itemID : Z) (by_ : string) (supersededBy : Z) now d : out D unit :=
  match Validate k with
  | Err e => Out d (Err (EKind e)) []
  | Ok _ =>
      if bool_decide (by_ = ""%string) then Out d (Err (EArg "supersede has no requester")) [] else
      if supersededBy <=? 0 then Out d (Err (EArg "supersede has no replacement row")) [] else
      if supersededBy =? itemID then Out d (Err (EArg "cannot supersede itself")) [] else
      operatorWrite org itemID (fun _ => true) (supersede_sets k by_ supersededBy) now d (OSuperseded org)
  end.
End Operator.

(** ** Reads *)

Definition StatusDeferred : string := "deferred".

Inductive status_filter := AnyStatus | StoredStatus (s : Status) | DeferredFilter.

Definition parse_filter (s : string) : option status_filter :=
  if bool_decide (s = ""%string) then Some AnyStatus
  else if bool_decide (s = "ready"%string) then Some (StoredStatus StatusReady)
  else if bool_decide (s = StatusDeferred) then Some DeferredFilter
  else if bool_decide (s = "leased"%string) then Some (StoredStatus StatusLeased)
  else if bool_decide (s = "done"%string) then Some (StoredStatus StatusDone)
  else if bool_decide (s = "parked"%string) then Some (StoredStatus StatusParked)
  else if bool_decide (s = "cancelled"%string) then Some (StoredStatus StatusCancelled)
  else None.

(** [id DESC]. *)
Definition row_id_ge (a b : row) : Prop := id b <= id a.
#[global] Instance row_id_ge_dec : RelDecision row_id_ge := fun a b => Z_le_dec (id b) (id a).

Section Reads.
Context {D : Type} (claim_filter : row -> tri).

(** [statusPredicate]: "ready" is the ripe half, "deferred" the other. *)
Definition statusPredicate (k : Kind) (now : Z) (f : status_filter) (w : row) : tri :=
  match f with
  | AnyStatus => Some true
  | StoredStatus StatusReady => ripePredicate claim_filter k now w
  | DeferredFilter => deferredPredicate claim_filter k now w
  | StoredStatus s => Some (bool_decide (status w = s))
  end.

Definition list_rows (k : Kind) (now : Z) (org : string) (f : status_filter) (t : gmap Z row) : list row :=
  filter (fun w => bool_decide (org_id w = org) && holds (statusPredicate k now f w) = true) (map_to_list t).*2.

(** One page, newest first, and the unpaged total.  The count and the page
    are two statements, so they read two instants. *)
Definition List_ (k : Kind) (org st : string) (limit offset : Z) (t_count t_page : Z) (d : db D)
  : res err (list row * nat) :=
  match Validate k with
  | Err e => Err (EKind e)
  | Ok _ =>
      refuse? bool_decide (org = ""%string) with EArg "list has no org" ;;
      refuse? (limit <? 0) || (offset <? 0) with EArg "list window is negative" ;;
      match parse_filter st with
      | None => Err (EArg "list has unknown status")
      | Some f =>
          let total := length (list_rows k t_count org f (tbl d)) in
          if limit =? 0 then Ok ([], total) else
          Ok (take (Z.to_nat limit) (drop (Z.to_nat offset)
                (merge_sort row_id_ge (list_rows k t_page org f (tbl d)))), total)
      end
  end.

Definition Get (k : Kind) (org : string) (i : Z) (d : db D) : res err (option row) :=
  match Validate k with
  | Err e => Err (EKind e)
  | Ok _ =>
      refuse? bool_decide (org = ""%string) with EArg "get has no org" ;;
      Ok (match tbl d !! i with
          | Some w => if bool_decide (org_id w = org) then Some w else None
          | None => None
          end)
  end.

(** ** Measurements *)

Record Depths := MkDepths {
  DReady : nat; DLeased : nat; DParked : nat; DDeferred : nat;
  OldestReadyAge : Z; OldestDeferredAge : Z }.

Definition countIf (p : row -> tri) (rows : list row) : nat :=
  length (filter (fun w => holds (p w) = true) rows).

(** [MIN(first_enqueued_at)] over the matching rows, [None] when there is none. *)
Definition oldest (p : row -> tri) (rows : list row) : option Z :=
  fold_right (fun w acc =>
    if holds (p w) then Some (match acc with None => first_enqueued_at w
                                          | Some m => Z.min (first_enqueued_at w) m end)
    else acc) None rows.

(** [secondsToDuration] floors at zero. *)
Definition age (now : Z) (o : option Z) : Z :=
  match o with None => 0 | Some t => Z.max 0 (now - t) end.

Definition depths_of (k : Kind) (now : Z) (rows : list row) : Depths :=
  let ripe := ripePredicate claim_filter k now in
  let deferred := deferredPredicate claim_filter k now in
  MkDepths (countIf ripe rows)
           (countIf (fun w => Some (bool_decide (status w = StatusLeased))) rows)
           (countIf (fun w => Some (bool_decide (status w = StatusParked))) rows)
           (countIf deferred rows)
           (age now (oldest ripe rows)) (age now (oldest deferred rows)).

Definition unsettled_rows (t : gmap Z row) : list row :=
  filter (fun w => unsettled_status (status w) = true) (map_to_list t).*2.

Definition Measure (k : Kind) (org : string) (now : Z) (d : db D) : res err Depths :=
  match Validate k with
  | Err e => Err (EKind e)
  | Ok _ =>
      Ok (depths_of k now
            (filter (fun w => bool_decide (org = ""%string) || bool_decide (org_id w = org) = true)
                    (unsettled_rows (tbl d))))
  end.

(** One entry per organization with an unsettled row. *)
Definition MeasureByOrg (k : Kind) (now : Z) (d : db D) : res err (gmap string Depths) :=
  match Validate k with
  | Err e => Err (EKind e)
  | Ok _ =>
      let rows := unsettled_rows (tbl d) in
      Ok (list_to_map (map (fun org => (org, depths_of k now (filter (fun w => org_id w = org) rows)))
                           (map org_id rows)))
  end.
End Reads.
