(* ===== verification/WorkItemInv.v ===== *)
(** * Row and table invariants of the work item package

    What a well-formed row is, how an operation may change one, and the lemmas
    that lift both from the assignment lists of the builders to the table. *)

From Stdlib Require Import SpecFloat.
From S2P Require Import Prelude WorkItemKind WorkItemRow WorkItemStore WorkItemHolder WorkItemClaim WorkItemOperator.

(** ** Well-formed rows *)

Definition settled_status (s : Status) : bool :=
  match s with StatusDone | StatusCancelled => true | _ => false end.
Definition settled (w : row) : bool := settled_status (status w).

(** The lease columns are set together, and exactly while the row is leased. *)
Definition lease_cols_ok (w : row) : Prop :=
  if bool_decide (status w = StatusLeased)
  then is_Some (lease_owner w) /\ is_Some (lease_epoch w) /\ is_Some (leased_at w) /\
       is_Some (lease_expires_at w) /\ 1 <= attempt w
  else lease_owner w = None /\ lease_epoch w = None /\ leased_at w = None /\ lease_expires_at w = None.

(** [done_at] is stamped exactly when the row is out of circulation. *)
Definition done_ok (w : row) : Prop :=
  match status w with
  | StatusReady | StatusLeased => done_at w = None
  | _ => is_Some (done_at w)
  end.

(** A requested cancellation ends only in a cancelled row: no done or parked
    row carries one. *)
Definition cancel_ok (w : row) : Prop :=
  cancel_pending w = true -> status w <> StatusDone /\ status w <> StatusParked.

Record row_ok (w : row) : Prop := {
  ro_attempt : 0 <= attempt w <= max_attempts w;
  ro_max : 1 <= max_attempts w;
  ro_gen : 0 <= lease_generation w;
  ro_lease : lease_cols_ok w;
  ro_done : done_ok w;
  ro_cancel : cancel_ok w;
  ro_superseded : is_Some (superseded_by w) -> status w = StatusCancelled;
  ro_key : unique_key w <> Some ""%string }.

(** ** How a row may move

    Identity, provenance and payload never change, the generation never goes
    back, a settled row is frozen, and a requested cancellation is never lost:
    the row keeps waiting unchanged or becomes cancelled. *)
Record evolves (w w' : row) : Prop := {
  ev_id : id w' = id w;
  ev_org : org_id w' = org_id w;
  ev_max : max_attempts w' = max_attempts w;
  ev_key : unique_key w' = unique_key w;
  ev_first : first_enqueued_at w' = first_enqueued_at w;
  ev_payload : payload w' = payload w;
  ev_gen : lease_generation w <= lease_generation w';
  ev_settled : settled w = true -> w' = w;
  ev_cancel : cancel_pending w = true ->
              w' = w \/ (status w' = StatusCancelled /\ cancel_requested_at w' = cancel_requested_at w) }.

#[global] Instance evolves_preorder : PreOrder evolves.
Proof.
  split.
  - intros w. split; auto; lia.
  - intros w w' w'' [] []. split; try congruence; try lia.
    + intros H. rewrite <- (ev_settled0 H). apply ev_settled1. by rewrite (ev_settled0 H).
    + intros Hc. destruct (ev_cancel0 Hc) as [->|[Hs Hr]]; [auto|].
      right. rewrite ev_settled1; [done|]. unfold settled. by rewrite Hs.
Qed.

(** ** The assignment lists

    Every builder's list keeps a row well formed and lets it evolve, from the
    row its predicate selects.  [row_crush] opens the row so that the lists
    compute, and splits on its status. *)

Ltac row_crush w :=
  destruct w as [? ? st ? ? ? ? ? ? ? ? creq ? ? ? ? ? ? ? ? ? ?];
  unfold lease_cols_ok, done_ok, cancel_ok, settled, cancel_pending in *; cbn in *;
  destruct st, creq; cbn in *; try done;
  split; unfold lease_cols_ok, done_ok, cancel_ok, settled, cancel_pending, exhausted; cbn;
  repeat case_bool_decide; repeat case_match; cbn in *; bool_hyps; intros; try done;
  repeat match goal with
  | H : is_Some None |- _ => by destruct H
  | H : ~ is_Some (Some _) |- _ => exfalso; apply H; eauto
  | H : _ /\ _ |- _ => destruct H
  | H : is_Some ?x -> _ = _, H' : is_Some ?x |- _ => by specialize (H H')
  end;
  split_and?; try done; try lia; eauto; try tauto.

Section RowSets.
Context (k : Kind) (now : Z).

(** A row a claim or a live holder may move. *)
Definition live (w : row) : Prop := claimable_status (status w) = true.

Lemma row_ok_settle w : row_ok w -> live w -> row_ok (apply_sets (cancelSettlement k) now w).
Proof. unfold live. intros [] Hl. row_crush w. Qed.

Lemma evolves_settle w : live w -> evolves w (apply_sets (cancelSettlement k) now w).
Proof. unfold live. intros Hl. row_crush w. Qed.

Lemma row_ok_park_at_claim w : row_ok w -> live w -> cancel_pending w = false ->
  row_ok (apply_sets (park_at_claim_sets k) now w).
Proof. unfold live. intros [] Hl Hc. row_crush w. Qed.

Lemma evolves_park_at_claim w : live w -> cancel_pending w = false ->
  evolves w (apply_sets (park_at_claim_sets k) now w).
Proof. unfold live. intros Hl Hc. row_crush w. Qed.

Lemma row_ok_lease owner w : row_ok w -> live w -> cancel_pending w = false ->
  attempt w < max_attempts w -> row_ok (apply_sets (lease_sets k owner) now w).
Proof. unfold live. intros [] Hl Hc Ha. row_crush w. Qed.

Lemma evolves_lease owner w : live w -> cancel_pending w = false ->
  evolves w (apply_sets (lease_sets k owner) now w).
Proof. unfold live. intros Hl Hc. row_crush w. Qed.

Lemma row_ok_request_cancel b rs w : row_ok w -> live w ->
  row_ok (apply_sets (request_cancel_sets k b rs) now w).
Proof. unfold live. intros [] Hl. row_crush w. Qed.

Lemma evolves_request_cancel b rs w : live w -> cancel_pending w = false ->
  evolves w (apply_sets (request_cancel_sets k b rs) now w).
Proof. unfold live. intros Hl Hc. row_crush w. Qed.

(** Holder dispositions, from a leased row with no request pending. *)
Definition held (w : row) : Prop := status w = StatusLeased /\ cancel_pending w = false.

Lemma row_ok_done w : row_ok w -> held w -> row_ok (apply_sets (terminalDone k) now w).
Proof. intros [] [Hs Hc]. row_crush w. Qed.

Lemma evolves_done w : held w -> evolves w (apply_sets (terminalDone k) now w).
Proof. intros [Hs Hc]. row_crush w. Qed.

Lemma row_ok_requeue r o c u w : row_ok w -> held w -> row_ok (apply_sets (requeue_sets k r o c u) now w).
Proof. intros [] [Hs Hc]. unfold requeue_sets. case_bool_decide; row_crush w. Qed.

Lemma evolves_requeue r o c u w : held w -> evolves w (apply_sets (requeue_sets k r o c u) now w).
Proof. intros [Hs Hc]. unfold requeue_sets. case_bool_decide; row_crush w. Qed.

Lemma row_ok_park reason w : row_ok w -> held w -> row_ok (apply_sets (park_sets k reason) now w).
Proof. intros [] [Hs Hc]. row_crush w. Qed.

Lemma evolves_park reason w : held w -> evolves w (apply_sets (park_sets k reason) now w).
Proof. intros [Hs Hc]. row_crush w. Qed.

Lemma row_ok_defer reason at_ w : row_ok w -> held w -> row_ok (apply_sets (defer_sets reason at_) now w).
Proof. intros [] [Hs Hc]. row_crush w. Qed.

Lemma evolves_defer reason at_ w : held w -> evolves w (apply_sets (defer_sets reason at_) now w).
Proof. intros [Hs Hc]. row_crush w. Qed.

Lemma row_ok_renew w : row_ok w -> held w -> row_ok (apply_sets (renew_sets k) now w).
Proof. intros [] [Hs Hc]. row_crush w. Qed.

Lemma evolves_renew w : held w -> evolves w (apply_sets (renew_sets k) now w).
Proof. intros [Hs Hc]. row_crush w. Qed.

(** Operator controls, from a parked row. *)
Lemma row_ok_redrive w : row_ok w -> status w = StatusParked -> row_ok (apply_sets redrive_sets now w).
Proof. intros [] Hs. row_crush w. Qed.

Lemma evolves_redrive w : status w = StatusParked -> cancel_pending w = false ->
  evolves w (apply_sets redrive_sets now w).
Proof. intros Hs Hc. row_crush w. Qed.

Lemma row_ok_supersede b i w : row_ok w -> status w = StatusParked ->
  row_ok (apply_sets (supersede_sets k b i) now w).
Proof. intros [] Hs. row_crush w. Qed.

Lemma evolves_supersede b i w : status w = StatusParked -> evolves w (apply_sets (supersede_sets k b i) now w).
Proof. intros Hs. row_crush w. Qed.
End RowSets.

(** ** Tables *)

Record table_ok (k : Kind) (t : gmap Z row) (next : Z) : Prop := {
  to_keyed : keyed t next;
  to_rows : forall i w, t !! i = Some w -> row_ok w;
  to_unique : unique_ok k t }.

Definition tbl_evolves (t t' : gmap Z row) : Prop :=
  forall i w, t !! i = Some w -> exists w', t' !! i = Some w' /\ evolves w w'.

#[global] Instance tbl_evolves_preorder : PreOrder tbl_evolves.
Proof.
  split.
  - intros t i w H. by exists w.
  - intros t t' t'' H H' i w Hw. destruct (H _ _ Hw) as (w' & Hw' & E).
    destruct (H' _ _ Hw') as (w'' & ? & E'). exists w''. split; [done|by etrans].
Qed.

(** An operation is sound when it takes a well-formed database to a
    well-formed one, lets every row evolve, and gives a row it adds an id the
    sequence had not handed out. *)
Definition db_ok {D} (k : Kind) (d : db D) : Prop := table_ok k (tbl d) (next_id d).

Definition grows {D} (d d' : db D) : Prop :=
  next_id d <= next_id d' /\ forall i w, tbl d' !! i = Some w -> tbl d !! i = None -> next_id d <= i.

Definition sound {D} (k : Kind) (d d' : db D) : Prop :=
  db_ok k d -> db_ok k d' /\ tbl_evolves (tbl d) (tbl d') /\ grows d d'.

#[global] Instance sound_preorder {D} k : PreOrder (@sound D k).
Proof.
  split.
  - intros d H. split_and!; [done|reflexivity|split; [lia|congruence]].
  - intros d d' d'' H H' Hd. destruct (H Hd) as (? & E & G1 & G2). destruct H' as (? & E' & G1' & G2'); [done|].
    split_and!; [done|by etrans|split; [lia|]]. intros i w Hw Hn. destruct (tbl d' !! i) as [v|] eqn:Hv; [by eapply G2|].
    pose proof (G2' i w Hw Hv). lia.
Qed.

Lemma indexed_evolves k w w' : evolves w w' -> indexed k w' = true -> indexed k w = true.
Proof.
  intros E. unfold indexed. rewrite (ev_key _ _ E).
  destruct (Unique k), (unique_key w); try done. intros Hu.
  destruct (settled w) eqn:Hs; [by rewrite <- (ev_settled _ _ E Hs)|].
  unfold settled in Hs. by destruct (status w).
Qed.

Lemma table_ok_update k t next i w w' :
  table_ok k t next -> t !! i = Some w -> evolves w w' -> row_ok w' -> table_ok k (<[i := w']> t) next.
Proof.
  intros [Hk Hr Hu] Hi E Hok. split.
  - intros j v. rewrite lookup_insert_Some. intros [[<- <-]|[_ Hj]]; [|by apply Hk].
    rewrite (ev_id _ _ E). by apply Hk.
  - intros j v. rewrite lookup_insert_Some. intros [[<- <-]|[_ Hj]]; [done|by eapply Hr].
  - intros a b x y key. rewrite !lookup_insert_Some.
    intros [[<- <-]|[Ha Hx]] [[<- <-]|[Hb Hy]] Ix Iy Ho Kx Ky; try done.
    + rewrite (ev_org _ _ E), (ev_key _ _ E) in *. eapply (Hu i b w y); eauto using indexed_evolves.
    + rewrite (ev_org _ _ E), (ev_key _ _ E) in *. eapply (Hu a i x w); eauto using indexed_evolves.
    + eauto.
Qed.

Lemma tbl_evolves_update t i w w' :
  t !! i = Some w -> evolves w w' -> tbl_evolves t (<[i := w']> t).
Proof.
  intros Hi E j v Hj. destruct (decide (i = j)) as [<-|Hne].
  - simplify_eq. exists w'. by rewrite lookup_insert_eq.
  - exists v. by rewrite lookup_insert_ne.
Qed.

Lemma grows_insert {D} (d : db D) i w w' : tbl d !! i = Some w -> grows d (with_tbl d (<[i := w']> (tbl d))).
Proof.
  intros Hi. split; simpl; [lia|]. intros j v. rewrite lookup_insert_Some. intros [[<- _]|[_ Hj]] Hn; congruence.
Qed.

Lemma sound_update {D} k (d : db D) i p sets now w' t' :
  update_row (tbl d) i p sets now = Some (w', t') ->
  (forall w, row_ok w -> p w = true -> row_ok (apply_sets sets now w) /\ evolves w (apply_sets sets now w)) ->
  sound k d (with_tbl d t').
Proof.
  intros (w & Hi & Hp & -> & ->)%update_row_Some H Hd.
  destruct (H w) as [Hok E]; [by eapply to_rows|done|].
  split_and!; [by eapply table_ok_update|by eapply tbl_evolves_update|by eapply grows_insert].
Qed.

Lemma sound_app {D} k (d : db D) a : sound k d (Db (tbl d) (next_id d) a).
Proof. intros Hd. split_and!; [done|simpl; reflexivity|split; simpl; [lia|congruence]]. Qed.

(** ** Admission is sound *)

Lemma row_ok_admitted k i org key cols now : kind_ok k -> row_ok (admitted_row k i org key cols now).
Proof.
  intros K. pose proof (ko_attempts k K).
  split; unfold lease_cols_ok, done_ok, cancel_ok, cancel_pending; cbn -[policy_resolved];
    try done; try lia. unfold nullableText. by case_bool_decide; intros [=].
Qed.

Lemma nullableText_Some s key : nullableText s = Some key -> s = key.
Proof. unfold nullableText. case_bool_decide; naive_solver. Qed.

Lemma kind_admit_insert {D} k org key cols now (d d' : db D) i :
  kind_admit k org key cols now d = Ok (d', (i, false)) ->
  i = next_id d /\ conflicts k (tbl d) org key = [] /\
  d' = Db (<[i := admitted_row k i org key cols now]> (tbl d)) (i + 1) (app d).
Proof.
  unfold kind_admit. intros (u & _ & H)%res_bind_ok.
  destruct (conflicts k (tbl d) org key) as [|w ws]; [by simplify_eq|].
  destruct (KDialect k); try done; by apply res_bind_ok in H as (? & ? & ?).
Qed.

Lemma kind_admit_dedup {D} k org key cols now (d d' : db D) i :
  kind_admit k org key cols now d = Ok (d', (i, true)) ->
  d' = d /\ exists w ws, conflicts k (tbl d) org key = w :: ws /\
    (KDialect k = Postgres -> i = id w) /\
    (KDialect k <> Postgres -> existingByKey k (tbl d) org key = Ok i).
Proof.
  unfold kind_admit. intros (u & _ & H)%res_bind_ok.
  destruct (conflicts k (tbl d) org key) as [|w ws]; [done|].
  destruct (KDialect k);
    try (apply res_bind_ok in H as (j & Hj & [= <- <-]); split; [done|]; exists w, ws; by split_and!).
  simplify_eq. split; [done|]. by exists w, ws.
Qed.

Lemma kind_admit_sound {D} k org key cols now (d d' : db D) x :
  kind_ok k -> kind_admit k org key cols now d = Ok (d', x) -> sound k d d'.
Proof.
  intros K H Hd. destruct x as [i []].
  { apply kind_admit_dedup in H as [-> _]. split_and!; [done|reflexivity|split; [lia|congruence]]. }
  apply kind_admit_insert in H as (-> & Hc & ->).
  assert (Hfresh : tbl d !! next_id d = None).
  { destruct (tbl d !! next_id d) eqn:E; [|done]. apply (to_keyed _ _ _ Hd) in E. lia. }
  split_and!; simpl; [|by intros i w Hi; exists w; rewrite lookup_insert_ne by congruence|].
  2: { split; simpl; [lia|]. intros j v. rewrite lookup_insert_Some. intros [[<- _]|[_ Hj]] Hn; [lia|congruence]. }
  destruct Hd as [Hk Hr Hu]. split; simpl.
  - intros j v. rewrite lookup_insert_Some. intros [[<- <-]|[_ Hj]]; [simpl; lia|].
    destruct (Hk _ _ Hj). lia.
  - intros j v. rewrite lookup_insert_Some. intros [[<- <-]|[_ Hj]]; [by apply row_ok_admitted|eauto].
  - assert (Hno : forall j v q, tbl d !! j = Some v -> indexed k v = true ->
        org_id v = org -> unique_key v = Some q -> nullableText key = Some q -> False).
    { intros j v q Hj Ix Ho Hq Hkq. apply nullableText_Some in Hkq as ->.
      assert (v ∈ conflicts k (tbl d) org q) as Hin by (apply elem_of_conflicts; eauto).
      rewrite Hc in Hin. by apply elem_of_nil in Hin. }
    intros a b x y q. rewrite !lookup_insert_Some.
    intros [[<- <-]|[Ha Hx]] [[<- <-]|[Hb Hy]] Ix Iy Ho Kx Ky; simpl in *; try done; eauto.
    + exfalso. by eapply (Hno b y q).
    + exfalso. by eapply (Hno a x q).
Qed.
