(* ===== verification/WorkItemSound.v ===== *)
(** * Every work item operation preserves the invariants

    The holder dispositions are used through an interface: [HolderSets] says
    what an assignment list must satisfy for the merged statement to mean what
    its two branches mean, and for the write to be sound.  Each operation's
    list is an instance, and the guarded write is reasoned about once. *)

From Stdlib Require Import SpecFloat.
From S2P Require Import Prelude WorkItemKind WorkItemRow WorkItemStore WorkItemHolder WorkItemClaim WorkItemOperator WorkItemInv.

(** ** The interface *)

Class HolderSets (k : Kind) (sets : list assign) : Prop := {
  hs_nodup : NoDup (map acol sets);
  hs_texts : texts_agree (cancelSettlement k) sets;
  hs_keeps_request : Ccancel_requested_at ∉ map acol sets;
  hs_keeps_attempt : Cattempt ∉ map acol sets;
  hs_row_ok : forall now w, row_ok w -> held w -> row_ok (apply_sets sets now w);
  hs_evolves : forall now w, held w -> evolves w (apply_sets sets now w) }.

(** Two texts that differ do so by computation, once the dialect is fixed. *)
Ltac texts_crush k :=
  let c := fresh in intros c ce ne <- <- Hs now r; destruct c; cbn in Hs |- *; try done;
  exfalso; revert Hs; unfold sameConstant, nowExpr; cbn;
  try (destruct (KDialect k)); by vm_compute.

Ltac nodup_crush := apply (bool_decide_eq_true_1 _); by vm_compute.

Section Instances.
Context (k : Kind).

#[export] Instance done_holder : HolderSets k (terminalDone k).
Proof.
  split; [nodup_crush|texts_crush k|set_solver|set_solver|intros; by apply row_ok_done|intros; by apply evolves_done].
Qed.

#[export] Instance park_holder reason : HolderSets k (park_sets k reason).
Proof.
  split; [nodup_crush|texts_crush k|set_solver|set_solver|intros; by apply row_ok_park|intros; by apply evolves_park].
Qed.

#[export] Instance renew_holder : HolderSets k (renew_sets k).
Proof.
  split; [nodup_crush|texts_crush k|set_solver|set_solver|intros; by apply row_ok_renew|intros; by apply evolves_renew].
Qed.

#[export] Instance requeue_holder rc o cause u : HolderSets k (requeue_sets k rc o cause u).
Proof.
  split; [| | | |intros; by apply row_ok_requeue|intros; by apply evolves_requeue];
    unfold requeue_sets; case_bool_decide; [nodup_crush|nodup_crush|texts_crush k|texts_crush k|set_solver..].
Qed.
End Instances.

(** ** The merged statement, as a reference reader would write it *)

(** Read the row; if the receipt does not own it, nothing happens; if a
    request is pending, settle it; otherwise apply the disposition. *)
Definition holder_effect {D} (k : Kind) (r : Receipt) (sets : list assign) (now : Z) (d : db D)
  : db D * res err Status :=
  match tbl d !! ItemID r with
  | Some w =>
      if guardSQL r now w then
        if cancel_pending w
        then (with_tbl d (<[ItemID r := apply_sets (cancelSettlement k) now w]> (tbl d)), Err ErrCancelled)
        else let w' := apply_sets sets now w in
             (with_tbl d (<[ItemID r := w']> (tbl d)), Ok (status w'))
      else (d, Err ErrLeaseLost)
  | None => (d, Err ErrLeaseLost)
  end.

Lemma holderSQL_Some k sets : HolderSets k sets ->
  holderSQL k sets = Some (map (holder_clause (cancelSettlement k) sets) (holder_order (cancelSettlement k) sets)).
Proof. intros H. unfold holderSQL. by rewrite bool_decide_true by apply hs_nodup. Qed.

Lemma cancel_pending_merged k sets now w : HolderSets k sets ->
  cancel_pending (if cancel_pending w then apply_sets (cancelSettlement k) now w else apply_sets sets now w)
  = cancel_pending w.
Proof.
  intros H. unfold cancel_pending at 1 3.
  destruct (cancel_pending w); [done|].
  change (cancel_requested_at ?x) with (get Ccancel_requested_at x).
  by rewrite get_apply_sets, lookup_assign_None by apply hs_keeps_request.
Qed.

Lemma holderWriteReturningStatus_effect {D} k r sets now (d : db D) :
  HolderSets k sets -> holderWriteReturningStatus k r sets now d = holder_effect k r sets now d.
Proof.
  intros H. unfold holderWriteReturningStatus, holder_effect, update_row.
  rewrite holderSQL_Some by done.
  destruct (tbl d !! ItemID r) as [w|]; [|done]. destruct (guardSQL r now w); [|done].
  rewrite holder_merge by apply hs_texts. rewrite cancel_pending_merged by done.
  by destruct (cancel_pending w).
Qed.

(** What a receipt's guard says of the row it matches. *)
Lemma guardSQL_true r now w :
  guardSQL r now w = true <->
  id w = ItemID r /\ org_id w = OrgID r /\ status w = StatusLeased /\
  lease_generation w = LeaseGeneration r /\ exists e, lease_expires_at w = Some e /\ now < e.
Proof.
  unfold guardSQL, guardBody. rewrite !andb_true_iff, !bool_decide_eq_true, !Z.eqb_eq.
  destruct (lease_expires_at w) as [e|]; [rewrite Z.ltb_lt|]; split.
  - intros [[? ?] [[? ?] ?]]. split_and!; eauto.
  - by intros (? & ? & ? & ? & ? & [= <-] & ?).
  - by intros [[? ?] [[? ?] ?]].
  - by intros (? & ? & ? & ? & ? & ? & ?).
Qed.

Lemma guard_held r now w : guardSQL r now w = true -> cancel_pending w = false -> held w.
Proof. intros (?&?&?&?&?)%guardSQL_true Hc. by split. Qed.

Lemma guard_live r now w : guardSQL r now w = true -> live w.
Proof. intros (?&?&Hs&?&?)%guardSQL_true. unfold live. by rewrite Hs. Qed.
#[export] Hint Resolve guard_held guard_live : tf.

Section Sound.
Context {D : Type} (k : Kind).
Implicit Types (d : db D) (r : Receipt).

Lemma sound_insert d i w w' :
  tbl d !! i = Some w -> (row_ok w -> row_ok w' /\ evolves w w') -> sound k d (with_tbl d (<[i := w']> (tbl d))).
Proof.
  intros Hi H Hd. destruct H as [Hok E]; [by eapply to_rows|].
  split_and!; [by eapply table_ok_update|by eapply tbl_evolves_update|by eapply grows_insert].
Qed.

Lemma holder_effect_sound r sets now d :
  HolderSets k sets -> sound k d (holder_effect k r sets now d).1.
Proof.
  intros H. unfold holder_effect.
  destruct (tbl d !! ItemID r) as [w|] eqn:Hi; [|simpl; reflexivity].
  destruct (guardSQL r now w) eqn:G; [|simpl; reflexivity].
  destruct (cancel_pending w) eqn:C; simpl; apply (sound_insert _ _ w); try done; intros Hok.
  - split; [apply row_ok_settle|apply evolves_settle]; eauto with tf.
  - split; [apply hs_row_ok|apply hs_evolves]; eauto with tf.
Qed.

Lemma holderWriteReturningStatus_sound r sets now d :
  HolderSets k sets -> sound k d (holderWriteReturningStatus k r sets now d).1.
Proof. intros H. rewrite holderWriteReturningStatus_effect by done. by apply holder_effect_sound. Qed.

Lemma holderWrite_fst r sets now d :
  (holderWrite k r sets now d).1 = (holderWriteReturningStatus k r sets now d).1.
Proof. unfold holderWrite. by destruct (holderWriteReturningStatus _ _ _ _ _). Qed.

Lemma MarkDone_sound r now d : sound k d (odb (MarkDone k r now d)).
Proof.
  unfold MarkDone. destruct (Validate k); [|simpl; reflexivity].
  case_match; [simpl; reflexivity|].
  pose proof (holderWriteReturningStatus_sound r (terminalDone k) now d _) as S.
  rewrite <- holderWrite_fst in S. by destruct (holderWrite _ _ _ _ _).
Qed.

Lemma Park_sound r reason now d : sound k d (odb (Park k r reason now d)).
Proof.
  unfold Park. destruct (Validate k); [|simpl; reflexivity].
  case_match; [simpl; reflexivity|].
  pose proof (holderWriteReturningStatus_sound r (park_sets k reason) now d _) as S.
  rewrite <- holderWrite_fst in S. by destruct (holderWrite _ _ _ _ _).
Qed.

Lemma Requeue_sound r o c u now d : sound k d (odb (Requeue k r o c u now d)).
Proof.
  unfold Requeue. destruct (Validate k); [|simpl; reflexivity].
  case_match; [simpl; reflexivity|].
  pose proof (holderWriteReturningStatus_sound r (requeue_sets k r o c u) now d _) as S.
  by destruct (holderWriteReturningStatus _ _ _ _ _).
Qed.

(** Renewal is the same statement returning another column. *)
Lemma RenewLease_db r now d :
  Validate k = Ok tt -> odb (RenewLease k r now d) = (holderWriteReturningStatus k r (renew_sets k) now d).1.
Proof.
  intros V. unfold RenewLease, holderWriteReturningStatus. rewrite V.
  destruct (holderSQL _ _); [|done]. destruct (update_row _ _ _ _ _) as [[w' t']|]; [|done].
  by destruct (cancel_pending w').
Qed.

Lemma RenewLease_sound r now d : sound k d (odb (RenewLease k r now d)).
Proof.
  destruct (Validate k) as [[]|] eqn:V; [|unfold RenewLease; rewrite V; simpl; reflexivity].
  rewrite RenewLease_db by done. apply holderWriteReturningStatus_sound, _.
Qed.

Lemma plainGuardedWrite_sound r sets now d d' :
  plainGuardedWrite r sets now d = Ok d' ->
  (forall w, row_ok w -> guardSQL r now w = true ->
     tbl d !! ItemID r = Some w -> row_ok (apply_sets sets now w) /\ evolves w (apply_sets sets now w)) ->
  sound k d d'.
Proof.
  unfold plainGuardedWrite. destruct (update_row _ _ _ _ _) as [[w' t']|] eqn:U; [|done].
  intros [= <-] H. apply update_row_Some in U as (w & Hi & G & -> & ->).
  apply (sound_insert _ _ w); eauto.
Qed.

Lemma settleUnderGuard_sound r now d d' : settleUnderGuard k r now d = Ok d' -> sound k d d'.
Proof.
  intros H. eapply plainGuardedWrite_sound; [exact H|]. intros w Hok G _.
  split; [apply row_ok_settle|apply evolves_settle]; eauto with tf.
Qed.

(** The row a guarded write matches is the row the lock read. *)
Lemma lockAndVerify_ok r now d c :
  lockAndVerify r now d = Ok c <->
  exists w, tbl d !! ItemID r = Some w /\ org_id w = OrgID r /\ guardBody r now w = true /\ c = cancel_pending w.
Proof.
  unfold lockAndVerify. destruct (tbl d !! ItemID r) as [w|]; [|split; [done|by intros (?&?&?)]].
  case_bool_decide; [destruct (guardBody r now w) eqn:G|].
  - split; [intros [= <-]; eauto 10|by intros (? & [= <-] & ? & ? & ->)].
  - split; [done|]. intros (? & [= <-] & ? & ? & ?). congruence.
  - split; [done|]. intros (? & [= <-] & ? & ? & ?). congruence.
Qed.

Lemma lockAndVerify_err r now d e : lockAndVerify r now d = Err e -> e = ErrLeaseLost.
Proof. unfold lockAndVerify. repeat case_match; by intros [= <-]. Qed.
End Sound.

(** ** Closures

    A completion's closure works in the item's transaction: it writes the
    application's tables and may admit further work of the same kind.  It does
    not reach into existing rows, which the package owns. *)
Inductive dom_step {D} (k : Kind) : db D -> db D -> Prop :=
| ds_app d a : dom_step k d (Db (tbl d) (next_id d) a)
| ds_admission d d' org key cols now x :
    kind_admit k org key cols now d = Ok (d', x) -> dom_step k d d'.

Definition closure_ok {D C} (k : Kind) (fn : db D -> res err (db D * C)) : Prop :=
  forall d d' c, fn d = Ok (d', c) -> rtc (dom_step k) d d'.

Definition rows_kept {D} (d d' : db D) : Prop :=
  forall i w, tbl d !! i = Some w -> tbl d' !! i = Some w.

Lemma dom_step_ok {D} k (d d' : db D) :
  kind_ok k -> dom_step k d d' -> sound k d d' /\ (db_ok k d -> rows_kept d d').
Proof.
  intros K [d0 a|d0 d1 org key cols now [i []] H].
  - split; [apply sound_app|]. by intros _ i w.
  - split; [by eapply kind_admit_sound|]. apply kind_admit_dedup in H as [-> _]. by intros _ j w.
  - split; [by eapply kind_admit_sound|]. apply kind_admit_insert in H as (-> & _ & ->).
    intros Hd j w Hj. simpl. rewrite lookup_insert_ne; [done|].
    apply (to_keyed _ _ _ Hd) in Hj. lia.
Qed.

Lemma dom_steps_ok {D} k (d d' : db D) :
  kind_ok k -> rtc (dom_step k) d d' -> db_ok k d -> sound k d d' /\ rows_kept d d'.
Proof.
  intros K. induction 1 as [d|d d1 d2 H1 _ IH]; intros Hd.
  - split; [reflexivity|by intros i w].
  - destruct (dom_step_ok k _ _ K H1) as [S R]. destruct IH as [S' R']; [by apply S|].
    split; [by etrans|]. intros i w Hi. by apply R', R.
Qed.

Section Complete.
Context {D C B : Type} (k : Kind) (K : kind_ok k).
Implicit Types (d : db D) (r : Receipt).
Context (fn : db D -> res err (db D * C)) (after : C -> db D -> res err (db D * B)).
Context (Hfn : closure_ok k fn).
Context (Hafter : forall c d d' b, after c d = Ok (d', b) -> sound k d d').

Lemma wrap_err_ok {A} what (x : res err A) a : wrap_err what x = Ok a <-> x = Ok a.
Proof. by destruct x. Qed.

(** The two ways a completion's transaction succeeds. *)
Lemma complete_body_ok r t1 t2 d d' x :
  complete_body k r fn after t1 t2 d = Ok (d', x) ->
  exists w, tbl d !! ItemID r = Some w /\ org_id w = OrgID r /\ guardBody r t1 w = true /\
  ((cancel_pending w = true /\ x = None /\ settleUnderGuard k r t2 d = Ok d') \/
   (cancel_pending w = false /\ exists d1 d2 c b, x = Some b /\ fn d = Ok (d1, c) /\
      flipDone k r t2 d1 = Ok d2 /\ after c d2 = Ok (d', b))).
Proof.
  unfold complete_body. intros (c & (w & Hw & Ho & G & ->)%lockAndVerify_ok & H)%res_bind_ok.
  exists w. split_and!; try done. destruct (cancel_pending w).
  - apply res_bind_ok in H as (d1 & ? & [= <- <-]). by left.
  - right. split; [done|]. apply res_bind_ok in H as ([d1 c] & H1%wrap_err_ok & H).
    apply res_bind_ok in H as (d2 & H2 & H). apply res_bind_ok in H as ([d3 b] & H3 & [= <- <-]).
    by exists d1, d2, c, b.
Qed.

Lemma complete_body_sound r t1 t2 d d' x :
  complete_body k r fn after t1 t2 d = Ok (d', x) -> sound k d d'.
Proof.
  intros (w & Hw & Ho & G & [(C1 & -> & H)|(C1 & d1 & d2 & c & b & -> & H1 & H2 & H3)])%complete_body_ok.
  - by eapply settleUnderGuard_sound.
  - intros Hd. destruct (dom_steps_ok k _ _ K (Hfn _ _ _ H1) Hd) as [S1 R1].
    revert Hd. change (sound k d d'). etrans; [exact S1|]. etrans; [|by eapply Hafter].
    eapply plainGuardedWrite_sound; [exact H2|]. intros v Hok Gv Hv.
    rewrite (R1 _ _ Hw) in Hv. injection Hv as <-.
    split; [apply row_ok_done|apply evolves_done]; eauto with tf.
Qed.

Lemma complete_sound r f t1 t2 commits d :
  (f = Some fn \/ f = None) -> sound k d (odb (complete k r f after t1 t2 commits d)).
Proof.
  intros Hf. unfold complete. destruct (Validate k); [|simpl; reflexivity].
  case_match; [simpl; reflexivity|]. destruct Hf as [-> | ->]; [|simpl; reflexivity].
  unfold inTx. destruct (complete_body k r fn after t1 t2 d) as [[d' x]|] eqn:E; [|simpl; reflexivity].
  apply complete_body_sound in E. destruct commits, x; simpl; done || reflexivity.
Qed.
End Complete.

Section SoundRest.
Context {D : Type} (k : Kind) (K : kind_ok k).
Implicit Types (d : db D) (r : Receipt).

Lemma Complete_sound r (fn : db D -> res err (db D)) t1 t2 commits d :
  closure_ok k (fun d => let? d' := fn d in Ok (d', tt)) ->
  sound k d (odb (Complete k r (Some fn) t1 t2 commits d)).
Proof.
  intros H. eapply complete_sound; [done|exact H| |by left].
  intros [] d1 d2 [] [= <-]. reflexivity.
Qed.

Lemma admit_successor_sound r t cols d d' i :
  admit_successor k r t cols d = Ok (d', i) -> sound k d d'.
Proof.
  unfold admit_successor. destruct cols as [cols|]; [|intros [= <- <-]; reflexivity].
  intros ([d1 [j []]] & H & E)%res_bind_ok; [done|]. injection E as <- <-.
  by eapply kind_admit_sound.
Qed.

Lemma CompleteAndAdmit_sound r fn t1 t2 t3 commits d :
  closure_ok k fn -> sound k d (odb (CompleteAndAdmit k r (Some fn) t1 t2 t3 commits d)).
Proof.
  intros H. unfold CompleteAndAdmit. case_bool_decide; [simpl; reflexivity|].
  eapply complete_sound; [done|exact H| |by left].
  intros c d1 d2 b E. by eapply admit_successor_sound.
Qed.

Lemma defer_body_ok r reason at_ p t1 t2 d d' x :
  defer_body k r reason at_ p t1 t2 d = Ok (d', x) ->
  exists w, tbl d !! ItemID r = Some w /\ org_id w = OrgID r /\ guardBody r t1 w = true /\
  ((cancel_pending w = true /\ x = true /\ settleUnderGuard k r t2 d = Ok d') \/
   (cancel_pending w = false /\ x = false /\ p d = Ok true /\
    plainGuardedWrite r (defer_sets reason at_) t2 d = Ok d')).
Proof.
  unfold defer_body. intros (c & (w & Hw & Ho & G & ->)%lockAndVerify_ok & H)%res_bind_ok.
  exists w. split_and!; try done. destruct (cancel_pending w).
  - apply res_bind_ok in H as (d1 & ? & [= <- <-]). by left.
  - right. apply res_bind_ok in H as ([] & H1%wrap_err_ok & H); [|done].
    apply res_bind_ok in H as (d1 & ? & [= <- <-]). done.
Qed.

Lemma Defer_sound r reason at_ p t1 t2 commits d :
  sound k d (odb (Defer k r reason at_ p t1 t2 commits d)).
Proof.
  unfold Defer. destruct (Validate k); [|simpl; reflexivity].
  case_match; [simpl; reflexivity|].
  destruct p as [p|]; [|simpl; reflexivity]. destruct at_ as [at_|]; [|simpl; reflexivity].
  unfold inTx. destruct (defer_body k r reason at_ p t1 t2 d) as [[d' x]|] eqn:E; [|simpl; reflexivity].
  apply defer_body_ok in E as (w & Hw & Ho & G & [(C1 & -> & Hw')|(C1 & -> & Hp & Hw')]).
  - apply settleUnderGuard_sound in Hw'. destruct commits; simpl; done || reflexivity.
  - assert (sound k d d'); [|destruct commits; simpl; done || reflexivity].
    eapply plainGuardedWrite_sound; [exact Hw'|]. intros v Hok Gv Hv.
    rewrite Hw in Hv. injection Hv as <-.
    split; [apply row_ok_defer|apply evolves_defer]; eauto with tf.
Qed.

Lemma RequestCancel_sound org i by_ reason now d : sound k d (odb (RequestCancel k org i by_ reason now d)).
Proof.
  unfold RequestCancel. destruct (Validate k); [|simpl; reflexivity].
  case_match; [simpl; reflexivity|].
  destruct (update_row _ _ _ _ _) as [[w' t']|] eqn:U; [|simpl; reflexivity].
  eapply sound_update; [exact U|]. intros w Hok Hp. cbv beta in Hp. bool_hyps.
  split; [by apply row_ok_request_cancel|by apply evolves_request_cancel].
Qed.

Lemma operatorWrite_sound org i p sets now d o :
  (forall w, row_ok w -> status w = StatusParked -> p w = true ->
     row_ok (apply_sets sets now w) /\ evolves w (apply_sets sets now w)) ->
  sound k d (odb (operatorWrite org i p sets now d o)).
Proof.
  intros H. unfold operatorWrite.
  destruct (update_row _ _ _ _ _) as [[w' t']|] eqn:U; [|simpl; reflexivity].
  eapply sound_update; [exact U|]. intros w Hok Hp. cbv beta in Hp. bool_hyps. by apply H.
Qed.

Lemma Redrive_sound org i by_ now d : sound k d (odb (Redrive k org i by_ now d)).
Proof.
  unfold Redrive. destruct (Validate k); [|simpl; reflexivity].
  case_match; [simpl; reflexivity|]. apply operatorWrite_sound. intros w Hok Hs Hc. cbv beta in Hc. bool_hyps.
  split; [by apply row_ok_redrive|by apply evolves_redrive].
Qed.

Lemma Supersede_sound org i by_ j now d : sound k d (odb (Supersede k org i by_ j now d)).
Proof.
  unfold Supersede. destruct (Validate k); [|simpl; reflexivity].
  repeat (case_match; [simpl; reflexivity|]). apply operatorWrite_sound. intros w Hok Hs _.
  split; [by apply row_ok_supersede|by apply evolves_supersede].
Qed.

Lemma Admit_sound org key cols now commits d : sound k d (Admit k org key cols now commits d).1.
Proof.
  unfold Admit. destruct (Validate k); [|simpl; reflexivity].
  repeat (case_match; [simpl; reflexivity|]). unfold inTx.
  destruct (kind_admit _ _ _ _ _ _) as [[d' x]|] eqn:E; [|simpl; reflexivity].
  destruct commits; [by eapply kind_admit_sound|simpl; reflexivity].
Qed.
End SoundRest.
