(* ===== verification/WorkItemClaimInv.v ===== *)
(** * Claim rounds: what a committed round does

    A round's picked rows are distinct rows of the table it reads, so the
    round never trips over its own writes: it always succeeds, and its effect
    is the per-row disposition of the batch. *)

From S2P Require Import Prelude WorkItemKind WorkItemRow WorkItemStore WorkItemHolder WorkItemClaim WorkItemOperator WorkItemInv WorkItemSound.

(** ** The reference batch *)

(** The row one disposition leaves. *)
Definition claim_row (k : Kind) (owner : Owner) (now : Z) (w : row) : row :=
  match choose (to_picked w) with
  | DCancel => apply_sets (cancelSettlement k) now w
  | DPark => apply_sets (park_at_claim_sets k) now w
  | DLease => apply_sets (lease_sets k owner) now w
  end.

Definition is_lease (w : row) : bool := match choose (to_picked w) with DLease => true | _ => false end.

Definition row_receipt (k : Kind) (owner : Owner) (now : Z) (w : row) : Receipt :=
  receipt_of k (to_picked w) (claim_row k owner now w).

Fixpoint batch_tbl k owner (times : nat -> Z) i (ws : list row) (t : gmap Z row) : gmap Z row :=
  match ws with
  | [] => t
  | w :: ws => batch_tbl k owner times (S i) ws (<[id w := claim_row k owner (times (S i)) w]> t)
  end.

Fixpoint batch_receipts k owner (times : nat -> Z) i (ws : list row) : list Receipt :=
  match ws with
  | [] => []
  | w :: ws => (if is_lease w then [row_receipt k owner (times (S i)) w] else [])
               ++ batch_receipts k owner times (S i) ws
  end.

Definition same_disp (a b : disposition) : bool :=
  match a, b with DCancel, DCancel | DPark, DPark | DLease, DLease => true | _, _ => false end.

Definition count_disp (x : disposition) (ws : list row) : nat :=
  length (filter (fun w => same_disp (choose (to_picked w)) x = true) ws).

Lemma count_disp_cons x w ws :
  count_disp x (w :: ws) = ((if same_disp (choose (to_picked w)) x then 1 else 0) + count_disp x ws)%nat.
Proof. unfold count_disp. rewrite filter_cons. by destruct (same_disp _ _). Qed.

Section Rows.
Context (k : Kind) (owner : Owner).

Lemma claim_guard_self w : live w -> claim_guard (to_picked w) w = true.
Proof. intros H. unfold claim_guard. cbn. by rewrite bool_decide_true. Qed.

Lemma update_row_self t w sets now :
  t !! id w = Some w -> live w ->
  update_row t (p_id (to_picked w)) (claim_guard (to_picked w)) sets now =
  Some (apply_sets sets now w, <[id w := apply_sets sets now w]> t).
Proof. intros Ht Hl. unfold update_row. cbn [p_id to_picked]. by rewrite Ht, claim_guard_self. Qed.

(** One row of the batch: never an error, and exactly one disposition. *)
Lemma claim_one_ok now w a :
  ra_tbl a !! id w = Some w -> live w ->
  exists a', claim_one k owner now (to_picked w) a = Ok a' /\
    ra_tbl a' = <[id w := claim_row k owner now w]> (ra_tbl a) /\
    Claimed (ra_res a') = Claimed (ra_res a) ++ (if is_lease w then [row_receipt k owner now w] else []) /\
    Cancelled (ra_res a') = (Cancelled (ra_res a) + count_disp DCancel [w])%nat /\
    Parked (ra_res a') = (Parked (ra_res a) + count_disp DPark [w])%nat.
Proof.
  intros Ht Hl. rewrite !count_disp_cons. unfold claim_one, row_receipt, is_lease, claim_row.
  unfold settleAtClaim, parkAtClaim, claimDisposition, lease.
  destruct (choose (to_picked w)) eqn:Hc; rewrite update_row_self by done; simpl;
    (eexists; split; [reflexivity|simpl; rewrite ?app_nil_r; split_and!; try done; unfold count_disp; simpl; lia]).
Qed.

Lemma lookup_batch_tbl_other times i ws t j :
  j ∉ map id ws -> batch_tbl k owner times i ws t !! j = t !! j.
Proof.
  revert i t. induction ws as [|w ws IH]; simpl; intros i t Hj; [done|].
  rewrite IH by set_solver. rewrite lookup_insert_ne; [done|set_solver].
Qed.

Lemma lookup_batch_tbl times i ws t w :
  NoDup (map id ws) -> w ∈ ws ->
  exists now, batch_tbl k owner times i ws t !! id w = Some (claim_row k owner now w) /\
    (is_lease w = true -> row_receipt k owner now w ∈ batch_receipts k owner times i ws).
Proof.
  revert i t. induction ws as [|v ws IH]; simpl; intros i t; [by rewrite elem_of_nil|].
  rewrite NoDup_cons. intros [Hn Hd] [->|Hin]%elem_of_cons.
  - exists (times (S i)). rewrite lookup_batch_tbl_other, lookup_insert_eq by done.
    split; [done|]. intros ->. set_solver.
  - destruct (IH (S i) (<[id v := claim_row k owner (times (S i)) v]> t) Hd Hin) as (now & ? & ?).
    exists now. set_solver.
Qed.

Lemma batch_tbl_inv times i ws t j w' :
  NoDup (map id ws) -> batch_tbl k owner times i ws t !! j = Some w' ->
  (j ∉ map id ws /\ t !! j = Some w') \/
  exists w now, w ∈ ws /\ id w = j /\ w' = claim_row k owner now w.
Proof.
  intros Hd Hj. destruct (decide (j ∈ map id ws)) as [Hin|Hn].
  - right. apply list_elem_of_fmap in Hin as (w & -> & Hin).
    destruct (lookup_batch_tbl times i ws t w Hd Hin) as (now & E & _).
    exists w, now. by simplify_eq.
  - left. by rewrite lookup_batch_tbl_other in Hj.
Qed.

(** Every receipt of the batch belongs to a row the batch leased. *)
Lemma elem_of_batch_receipts times i ws r :
  r ∈ batch_receipts k owner times i ws ->
  exists w now, w ∈ ws /\ is_lease w = true /\ r = row_receipt k owner now w.
Proof.
  revert i. induction ws as [|w ws IH]; simpl; intros i; [by rewrite elem_of_nil|].
  intros [H|H]%elem_of_app.
  - destruct (is_lease w) eqn:E; [|by apply elem_of_nil in H].
    apply list_elem_of_singleton in H as ->. exists w, (times (S i)). set_solver.
  - destruct (IH _ H) as (v & now & ? & ? & ?). exists v, now. set_solver.
Qed.

Lemma batch_receipts_ids times i ws :
  map ItemID (batch_receipts k owner times i ws) = map id (filter (fun w => is_lease w = true) ws).
Proof.
  revert i. induction ws as [|w ws IH]; simpl; intros i; [done|].
  rewrite map_app, IH, filter_cons. destruct (is_lease w); done.
Qed.

Lemma claim_rows_ok times i ws a :
  NoDup (map id ws) -> Forall live ws -> (forall w, w ∈ ws -> ra_tbl a !! id w = Some w) ->
  exists a', claim_rows k owner times i (map to_picked ws) a = Ok a' /\
    ra_tbl a' = batch_tbl k owner times i ws (ra_tbl a) /\
    Claimed (ra_res a') = Claimed (ra_res a) ++ batch_receipts k owner times i ws /\
    Cancelled (ra_res a') = (Cancelled (ra_res a) + count_disp DCancel ws)%nat /\
    Parked (ra_res a') = (Parked (ra_res a) + count_disp DPark ws)%nat.
Proof.
  revert i a. induction ws as [|w ws IH]; simpl; intros i a Hd Hl Ht.
  { exists a. rewrite app_nil_r. split_and!; try done; unfold count_disp; simpl; lia. }
  apply NoDup_cons in Hd as [Hn Hd]. apply Forall_cons in Hl as [Hw Hl].
  destruct (claim_one_ok (times (S i)) w a) as (a1 & E1 & T1 & R1 & C1 & P1); [apply Ht; set_solver|done|].
  rewrite E1. simpl. destruct (IH (S i) a1 Hd Hl) as (a2 & E2 & T2 & R2 & C2 & P2).
  { intros v Hv. rewrite T1, lookup_insert_ne; [apply Ht; set_solver|].
    intros Heq. apply Hn. rewrite Heq. by apply list_elem_of_fmap_2. }
  exists a2. rewrite E2, T2, T1, R2, R1, <- app_assoc. split_and!; try done.
  - rewrite C2, C1, !count_disp_cons. change (count_disp _ []) with 0%nat. lia.
  - rewrite P2, P1, !count_disp_cons. change (count_disp _ []) with 0%nat. lia.
Qed.
End Rows.

Lemma choose_spec w :
  match choose (to_picked w) with
  | DCancel => cancel_pending w = true
  | DPark => cancel_pending w = false /\ max_attempts w <= attempt w
  | DLease => cancel_pending w = false /\ attempt w < max_attempts w
  end.
Proof.
  unfold choose. cbn. destruct (cancel_pending w); [done|].
  destruct (Z.leb_spec (max_attempts w) (attempt w)); done.
Qed.

Lemma claim_row_ok k owner now w :
  live w -> (row_ok w -> row_ok (claim_row k owner now w)) /\ evolves w (claim_row k owner now w).
Proof.
  intros Hl. pose proof (choose_spec w) as H. unfold claim_row.
  destruct (choose (to_picked w)).
  - split; [intros; by apply row_ok_settle|by apply evolves_settle].
  - destruct H. split; [intros; by apply row_ok_park_at_claim|by apply evolves_park_at_claim].
  - destruct H. split; [intros; by apply row_ok_lease|by apply evolves_lease].
Qed.

(** ** The pick *)
Lemma map_id_snd (l : list (Z * row)) : (forall p, p ∈ l -> id p.2 = p.1) -> map id l.*2 = l.*1.
Proof. induction l as [|[i w] l IH]; intros H; simpl; [done|]. f_equal; [apply (H (i, w))|apply IH]; set_solver. Qed.

Lemma NoDup_rows_id t next : keyed t next -> NoDup (map id (map_to_list t).*2).
Proof.
  intros H. rewrite map_id_snd; [apply NoDup_fst_map_to_list|].
  intros [i w] Hi%elem_of_map_to_list. simpl. by apply H.
Qed.

Lemma NoDup_map_filter {A B} (f : A -> B) (P : A -> Prop) `{!forall x, Decision (P x)} (l : list A) :
  NoDup (map f l) -> NoDup (map f (filter P l)).
Proof.
  induction l as [|x l IH]; simpl; [done|]. rewrite NoDup_cons, filter_cons. intros [Hn Hd].
  case_decide; simpl; [|auto]. apply NoDup_cons. split; [|auto].
  intros (y & Heq & [_ Hy]%list_elem_of_filter)%list_elem_of_fmap.
  apply Hn. rewrite Heq. by apply list_elem_of_fmap_2.
Qed.

Section PickFacts.
Context (claim_filter : row -> tri) (k : Kind).

Lemma claim_where_live now w : holds (claim_where claim_filter k now w) = true -> live w.
Proof.
  unfold claim_where, ripePredicate, live. rewrite !holds_or, !holds_and.
  destruct (status w); cbn; done.
Qed.

(** A lease that has not expired is never claimable. *)
Lemma claim_where_unexpired now w e :
  status w = StatusLeased -> lease_expires_at w = Some e -> now < e ->
  holds (claim_where claim_filter k now w) = false.
Proof.
  intros Hs He Hlt. unfold claim_where, ripePredicate. rewrite !holds_or, !holds_and, Hs, He. cbn.
  apply Z.leb_gt. lia.
Qed.

Lemma elem_of_pick_rows now orgID skip t w :
  w ∈ pick_rows claim_filter k now orgID skip t <->
  (exists i, t !! i = Some w) /\ holds (claim_where claim_filter k now w) = true /\
  in_org orgID w = true /\ skip (id w) = false.
Proof.
  unfold pick_rows. rewrite (merge_sort_Permutation (pick_le k t)).
  rewrite list_elem_of_filter, elem_of_rows.
  rewrite !andb_true_iff, negb_true_iff. tauto.
Qed.

Lemma NoDup_pick_ids now orgID skip limit t next :
  keyed t next -> NoDup (map id (take limit (pick_rows claim_filter k now orgID skip t))).
Proof.
  intros H. change (map id) with (fmap (M := list) id). rewrite fmap_take.
  eapply sublist_NoDup; [|apply sublist_take].
  unfold pick_rows. rewrite (merge_sort_Permutation (pick_le k t)). by eapply NoDup_map_filter, NoDup_rows_id.
Qed.

#[local] Instance pick_le_total t : Total (pick_le k t).
Proof. intros a b. unfold pick_le. destruct (Fairness _); lia. Qed.
#[local] Instance pick_le_trans t : Transitive (pick_le k t).
Proof. intros a b c. unfold pick_le. destruct (Fairness _); lia. Qed.

Lemma pick_rows_sorted now orgID skip t :
  StronglySorted (pick_le k t) (pick_rows claim_filter k now orgID skip t).
Proof. unfold pick_rows. apply StronglySorted_merge_sort; apply _. Qed.
End PickFacts.

Lemma batch_sound {D} k owner times i ws (d : db D) :
  NoDup (map id ws) -> Forall live ws -> (forall w, w ∈ ws -> tbl d !! id w = Some w) ->
  sound k d (with_tbl d (batch_tbl k owner times i ws (tbl d))).
Proof.
  revert i d. induction ws as [|w ws IH]; simpl; intros i d Hd Hl Ht.
  { destruct d. reflexivity. }
  apply NoDup_cons in Hd as [Hn Hd]. apply Forall_cons in Hl as [Hw Hl].
  pose (d1 := with_tbl d (<[id w := claim_row k owner (times (S i)) w]> (tbl d))).
  transitivity d1.
  { apply (sound_insert k d (id w) w); [apply Ht; set_solver|]. intros Hok.
    destruct (claim_row_ok k owner (times (S i)) w Hw). auto. }
  apply (IH (S i) d1 Hd Hl). intros v Hv. simpl. rewrite lookup_insert_ne; [apply Ht; set_solver|].
  intros Heq. apply Hn. rewrite Heq. by apply list_elem_of_fmap_2.
Qed.

(** ** A whole round *)
Section Round.
Context {D : Type} (claim_filter : row -> tri) (k : Kind) (owner : Owner).
Implicit Types (d : db D) (e : round_env D).

(** The rows a round disposes of, in order. *)
Definition round_rows (orgID : string) (limit : nat) e d : list row :=
  take limit (pick_rows claim_filter k (re_times e 0%nat) orgID (re_skip e) (tbl d)).

Lemma round_rows_facts orgID limit e d :
  db_ok k d ->
  NoDup (map id (round_rows orgID limit e d)) /\ Forall live (round_rows orgID limit e d) /\
  (forall w, w ∈ round_rows orgID limit e d -> tbl d !! id w = Some w).
Proof.
  intros Hd. unfold round_rows. split; [eapply NoDup_pick_ids, to_keyed, Hd|].
  assert (Hin : forall w, w ∈ take limit (pick_rows claim_filter k (re_times e 0%nat) orgID (re_skip e) (tbl d)) ->
     w ∈ pick_rows claim_filter k (re_times e 0%nat) orgID (re_skip e) (tbl d)).
  { intros w. apply subseteq_take. }
  split.
  - apply Forall_forall. intros w (?&Hc&_)%Hin%elem_of_pick_rows. by eapply claim_where_live.
  - intros w ([i Hi]&_)%Hin%elem_of_pick_rows. by destruct (to_keyed _ _ _ Hd i w Hi) as [-> _].
Qed.

Lemma claimRound_spec orgID limit e d :
  db_ok k d -> re_commits e = true ->
  exists c by_, claimRound claim_filter k owner orgID limit e d =
    (with_tbl d (batch_tbl k owner (re_times e) 0 (round_rows orgID limit e d) (tbl d)),
     Ok (length (round_rows orgID limit e d), c, by_)) /\
    Claimed c = batch_receipts k owner (re_times e) 0 (round_rows orgID limit e d) /\
    Cancelled c = count_disp DCancel (round_rows orgID limit e d) /\
    Parked c = count_disp DPark (round_rows orgID limit e d).
Proof.
  intros Hd Hc. destruct (round_rows_facts orgID limit e d Hd) as (Hn & Hl & Ht).
  destruct (claim_rows_ok k owner (re_times e) 0 _ (RA (tbl d) empty_result ∅) Hn Hl Ht)
    as (a & E & T & R & C & P).
  unfold claimRound, inTx, pick. fold (round_rows orgID limit e d). rewrite E, Hc. simpl.
  rewrite length_map, T. eexists _, _. by split_and!.
Qed.

Lemma claimRound_fail orgID limit e d :
  re_commits e = false -> exists x, claimRound claim_filter k owner orgID limit e d = (d, Err x).
Proof.
  intros Hc. unfold claimRound, inTx. rewrite Hc.
  destruct (claim_rows _ _ _ _ _ _) as [a|x]; simpl; eauto.
Qed.

Lemma claimRound_sound orgID limit e d :
  sound k d (claimRound claim_filter k owner orgID limit e d).1.
Proof.
  intros Hd. destruct (re_commits e) eqn:Hc.
  - destruct (claimRound_spec orgID limit e d Hd Hc) as (c & b & -> & _). simpl.
    destruct (round_rows_facts orgID limit e d Hd) as (Hn & Hl & Ht). by apply batch_sound.
  - destruct (claimRound_fail orgID limit e d Hc) as [x ->]. by apply (sound_preorder k).
Qed.
End Round.
