(* ===== verification/WorkItemSystem.v ===== *)
(** * The work item package as a concurrent system

    Every transaction the package opens is one atomic step here, so an
    interleaving of workers is a sequence of steps.  The state carries the
    receipts handed out so far, by claims and by renewals: a worker may present
    any of them at any later time, however stale, which is the situation the
    generation fence exists for.  Beside the package's own operations the stores
    that adopt it prune settled rows and write their own columns.  The deferrals and redrives recorded beside them are the history the
    budget theorem counts. *)

From Stdlib Require Import SpecFloat.
From S2P Require Import Prelude WorkItemKind WorkItemRow WorkItemStore WorkItemHolder WorkItemClaim WorkItemOperator WorkItemInv WorkItemSound WorkItemClaimInv.

(** ** Holder operations as one type *)

Inductive hop (D : Type) :=
| HComplete (fn : db D -> res err (db D)) (t_lock t_write : Z) (commits : bool)
| HCompleteAndAdmit (fn : db D -> res err (db D * option (gmap string sqlval))) (t_lock t_write t_adm : Z) (commits : bool)
| HMarkDone (t : Z)
| HRequeue (o : Outcome) (cause : option string) (u : spec_float) (t : Z)
| HPark (reason : string) (t : Z)
| HDefer (reason : string) (at_ : option Z) (p : db D -> res err bool) (t_lock t_write : Z) (commits : bool)
| HRenew (t : Z).
Arguments HComplete {D}. Arguments HCompleteAndAdmit {D}. Arguments HMarkDone {D}.
Arguments HRequeue {D}. Arguments HPark {D}. Arguments HDefer {D}. Arguments HRenew {D}.

Definition out_unit {D A} (o : out D A) : out D unit :=
  Out (odb o) (match ores o with Ok _ => Ok tt | Err e => Err e end) (oobs o).

Definition run_hop {D} (k : Kind) (r : Receipt) (h : hop D) (d : db D) : out D unit :=
  match h with
  | HComplete fn t1 t2 c => Complete k r (Some fn) t1 t2 c d
  | HCompleteAndAdmit fn t1 t2 t3 c => out_unit (CompleteAndAdmit k r (Some fn) t1 t2 t3 c d)
  | HMarkDone t => MarkDone k r t d
  | HRequeue o c u t => out_unit (Requeue k r o c u t d)
  | HPark reason t => Park k r reason t d
  | HDefer reason a p t1 t2 c => Defer k r reason a (Some p) t1 t2 c d
  | HRenew t => out_unit (RenewLease k r t d)
  end.

(** The closures a step may carry. *)
Definition hop_ok {D} (k : Kind) (h : hop D) : Prop :=
  match h with
  | HComplete fn _ _ _ => closure_ok k (fun d => let? d' := fn d in Ok (d', tt))
  | HCompleteAndAdmit fn _ _ _ _ => closure_ok k fn
  | _ => True
  end.

Definition hop_times {D} (h : hop D) : list Z :=
  match h with
  | HComplete _ t1 t2 _ | HDefer _ _ _ t1 t2 _ => [t1; t2]
  | HCompleteAndAdmit _ t1 t2 t3 _ => [t1; t2; t3]
  | HMarkDone t | HRequeue _ _ _ t | HPark _ t | HRenew t => [t]
  end.

Definition is_defer {D} (h : hop D) : bool := match h with HDefer _ _ _ _ _ _ => true | _ => false end.

(** ** The transition system *)

(** What the adopting stores do to the table themselves: [PruneSettled] deletes
    old settled rows, and a kind's own columns are written beside an admission
    or a completion. *)
Definition pruned (before : Z) (w : row) : bool :=
  settled w && match done_at w with Some t => t <? before | None => false end.

Definition PruneSettled {D} (before : Z) (d : db D) : db D :=
  Db (filter (fun x => pruned before x.2 = false) (tbl d)) (next_id d) (app d).

Definition with_payload (p : gmap string sqlval) (w : row) : row := mk_row (fun c => get c w) p.

Definition setColumns {D} (i : Z) (p : gmap string sqlval) (d : db D) : db D := with_tbl d (alter (with_payload p) i (tbl d)).

Record sys (D : Type) := Sys {
  s_db : db D; s_now : Z; s_issued : list Receipt;
  s_defers : list Z;       (* items of the deferrals that refunded an attempt *)
  s_redrives : list Z;     (* items of the redrives that moved a row *)
  s_renewed : list Receipt }.   (* receipts renewals answered with *)
Arguments Sys {D}. Arguments s_db {D}. Arguments s_now {D}. Arguments s_issued {D}.
Arguments s_defers {D}. Arguments s_redrives {D}. Arguments s_renewed {D}.

Definition claimed_of (x : res err (nat * ClaimResult * gmap string orgRound)) : list Receipt :=
  match x with Ok (_, c, _) => Claimed c | Err _ => [] end.

(** Every receipt in a worker's hands. *)
Definition s_receipts {D} (s : sys D) : list Receipt := s_issued s ++ s_renewed s.

Definition renewed_by {D} (k : Kind) (r : Receipt) (h : hop D) (d : db D) : list Receipt :=
  match h with
  | HRenew t => match ores (RenewLease k r t d) with Ok r' => [r'] | Err _ => [] end
  | _ => []
  end.

Inductive step {D} (k : Kind) : sys D -> sys D -> Prop :=
| st_world s a now' :
    (* time passes and other code writes the application's tables *)
    s_now s <= now' ->
    step k s (Sys (Db (tbl (s_db s)) (next_id (s_db s)) a) now' (s_issued s) (s_defers s) (s_redrives s) (s_renewed s))
| st_admission s org key cols t commits :
    s_now s <= t ->
    step k s (Sys (Admit k org key cols t commits (s_db s)).1 t (s_issued s) (s_defers s) (s_redrives s) (s_renewed s))
| st_claim s claim_filter owner org limit e now' :
    (forall i, s_now s <= re_times e i <= now') ->
    let o := claimRound claim_filter k owner org limit e (s_db s) in
    step k s (Sys o.1 now' (s_issued s ++ claimed_of o.2) (s_defers s) (s_redrives s) (s_renewed s))
| st_holder s r h now' :
    r ∈ s_receipts s -> hop_ok k h -> Forall (fun t => s_now s <= t <= now') (hop_times h) ->
    let o := run_hop k r h (s_db s) in
    step k s (Sys (odb o) now' (s_issued s)
                (if is_defer h && is_ok (ores o) then ItemID r :: s_defers s else s_defers s) (s_redrives s)
                (s_renewed s ++ renewed_by k r h (s_db s)))
| st_cancel s org i by_ reason t :
    s_now s <= t ->
    step k s (Sys (odb (RequestCancel k org i by_ reason t (s_db s))) t (s_issued s) (s_defers s) (s_redrives s) (s_renewed s))
| st_redrive s org i by_ t :
    s_now s <= t ->
    let o := Redrive k org i by_ t (s_db s) in
    step k s (Sys (odb o) t (s_issued s) (s_defers s)
                (if is_ok (ores o) then i :: s_redrives s else s_redrives s) (s_renewed s))
| st_supersede s org i by_ j t :
    s_now s <= t ->
    step k s (Sys (odb (Supersede k org i by_ j t (s_db s))) t (s_issued s) (s_defers s) (s_redrives s) (s_renewed s))
| st_prune s before now' :
    s_now s <= now' ->
    step k s (Sys (PruneSettled before (s_db s)) now' (s_issued s) (s_defers s) (s_redrives s) (s_renewed s))
| st_columns s i p now' :
    s_now s <= now' ->
    step k s (Sys (setColumns i p (s_db s)) now' (s_issued s) (s_defers s) (s_redrives s) (s_renewed s)).

(** An empty table. *)
Definition initial {D} (s : sys D) : Prop :=
  tbl (s_db s) = ∅ /\ s_issued s = [] /\ s_defers s = [] /\ s_redrives s = [] /\ s_renewed s = [].

Definition reachable {D} (k : Kind) (s : sys D) : Prop := exists s0, initial s0 /\ rtc (step k) s0 s.

(** ** Soundness of every step *)

Lemma run_hop_sound {D} k r (h : hop D) d : kind_ok k -> hop_ok k h -> sound k d (odb (run_hop k r h d)).
Proof.
  intros K. destruct h; simpl; intros H.
  - by apply Complete_sound.
  - by apply CompleteAndAdmit_sound.
  - apply MarkDone_sound.
  - apply Requeue_sound.
  - apply Park_sound.
  - by apply Defer_sound.
  - apply RenewLease_sound.
Qed.

(** ** The adopters' own writes *)

(** The block's columns of a row. *)
Definition bare (w : row) : row := with_payload ∅ w.

(** How a row moves over a run: its block evolves, its own columns are the adopter's. *)
Definition advances (w w' : row) : Prop := evolves (bare w) (bare w').

#[global] Instance advances_preorder : PreOrder advances.
Proof. split; [intros w; unfold advances; reflexivity|]. intros w w' w'' H H'. unfold advances in *. by etrans. Qed.

Lemma evolves_advances w w' : evolves w w' -> advances w w'.
Proof.
  intros []. split; simpl; try done.
  - intros H. by rewrite ev_settled.
  - intros H. destruct (ev_cancel H) as [->|]; [by left|by right].
Qed.

Lemma with_payload_advances p w : advances w (with_payload p w).
Proof. unfold advances, bare. change (with_payload ∅ (with_payload p w)) with (with_payload ∅ w). reflexivity. Qed.

Lemma with_own_payload w : with_payload (payload w) w = w.
Proof. by destruct w. Qed.

Lemma with_payload_ok p w : row_ok w -> row_ok (with_payload p w).
Proof. intros []. by split. Qed.

Lemma lookup_prune {D} before (d : db D) i w :
  tbl (PruneSettled before d) !! i = Some w <-> tbl d !! i = Some w /\ pruned before w = false.
Proof. simpl. by rewrite map_lookup_filter_Some. Qed.

Lemma lookup_columns {D} j p (d : db D) i :
  tbl (setColumns j p d) !! i = (if decide (j = i) then with_payload p <$> tbl d !! i else tbl d !! i).
Proof. simpl. case_decide as E; [subst; by rewrite lookup_alter_eq|by rewrite lookup_alter_ne]. Qed.

Lemma columns_row {D} j p (d : db D) i w :
  tbl (setColumns j p d) !! i = Some w -> exists v, tbl d !! i = Some v /\ (w = v \/ w = with_payload p v).
Proof. rewrite lookup_columns. case_decide; [|eauto]. intros (v & Hv & ->)%fmap_Some. eauto. Qed.

Lemma prune_ok {D} k before (d : db D) : db_ok k d -> db_ok k (PruneSettled before d).
Proof.
  intros [Hk Hr Hu]. split.
  - intros i w [Hw _]%lookup_prune. by apply Hk.
  - intros i w [Hw _]%lookup_prune. by eapply Hr.
  - intros a b x y q [Hx _]%lookup_prune [Hy _]%lookup_prune. by eapply Hu.
Qed.

Lemma columns_ok {D} k j p (d : db D) : db_ok k d -> db_ok k (setColumns j p d).
Proof.
  intros [Hk Hr Hu]. split.
  - intros i w (v & Hv & [->| ->])%columns_row; exact (Hk _ _ Hv).
  - intros i w (v & Hv & [->| ->])%columns_row; [|apply with_payload_ok]; by eapply Hr.
  - intros a b x y q (v & Hv & [->| ->])%columns_row (u & Hu' & [->| ->])%columns_row; exact (Hu a b v u q Hv Hu').
Qed.

(** What one step does to a row: it advances, or it is settled and pruned; a
    row that is added has a fresh id. *)
Record moves {D} (k : Kind) (d d' : db D) : Prop := {
  mv_ok : db_ok k d';
  mv_row : forall i w, tbl d !! i = Some w ->
             (exists w', tbl d' !! i = Some w' /\ advances w w') \/ (tbl d' !! i = None /\ settled w = true);
  mv_grows : grows d d' }.

Lemma sound_moves {D} k (d d' : db D) : db_ok k d -> sound k d d' -> moves k d d'.
Proof.
  intros Hd S. destruct (S Hd) as (O & E & G). split; [done| |done]. intros i w Hw. left. destruct (E _ _ Hw) as (w' & ? & ?).
  eauto using evolves_advances.
Qed.

Lemma prune_moves {D} k before (d : db D) : db_ok k d -> moves k d (PruneSettled before d).
Proof.
  intros Hd. split; [by apply prune_ok| |].
  - intros i w Hw. destruct (pruned before w) eqn:P.
    + right. split; [|unfold pruned in P; by bool_hyps]. destruct (tbl (PruneSettled before d) !! i) as [v|] eqn:Hv; [|done].
      apply lookup_prune in Hv as [? ?]. congruence.
    + left. exists w. split; [by apply lookup_prune|reflexivity].
  - split; simpl; [lia|]. intros i w [Hw _]%lookup_prune. congruence.
Qed.

Lemma columns_moves {D} k j p (d : db D) : db_ok k d -> moves k d (setColumns j p d).
Proof.
  intros Hd. split; [by apply columns_ok| |].
  - intros i w Hw. left. rewrite lookup_columns. case_decide; [|by exists w]. rewrite Hw. simpl. eauto using with_payload_advances.
  - split; [simpl; lia|]. intros i w (v & Hv & _)%columns_row. congruence.
Qed.

Lemma step_moves {D} k (s s' : sys D) : kind_ok k -> db_ok k (s_db s) -> step k s s' -> moves k (s_db s) (s_db s').
Proof.
  intros K Hd H. destruct H as [s a n' Hn|s org key cols t c Hn|s cf owner org limit e n' Hn|s r h n' Hr Hh Ht
                            |s org i b re t Hn|s org i b t Hn|s org i b j t Hn|s b n' Hn|s i p n' Hn].
  1-7: apply sound_moves; [done|].
  - apply sound_app.
  - by apply Admit_sound.
  - apply claimRound_sound.
  - by apply run_hop_sound.
  - by apply RequestCancel_sound.
  - by apply Redrive_sound.
  - by apply Supersede_sound.
  - by apply prune_moves.
  - by apply columns_moves.
Qed.

Lemma initial_ok {D} k (s : sys D) : initial s -> db_ok k (s_db s).
Proof.
  intros (Ht & _). unfold db_ok. rewrite Ht.
  split; [intros i w|intros i w|intros i j w v key]; by rewrite lookup_empty.
Qed.

Lemma steps_ok {D} k (s s' : sys D) : kind_ok k -> rtc (step k) s s' -> db_ok k (s_db s) -> db_ok k (s_db s').
Proof. intros K. induction 1 as [|s s1 s' H _ IH]; [done|]. intros Hd. by apply IH, (step_moves k s s1 K Hd H). Qed.

(** Where a row of a run has got to: it advanced, or it was settled and is gone for good. *)
Lemma steps_row {D} k (s s' : sys D) i w :
  kind_ok k -> rtc (step k) s s' -> db_ok k (s_db s) -> tbl (s_db s) !! i = Some w ->
  exists w', advances w w' /\ (tbl (s_db s') !! i = Some w' \/ (tbl (s_db s') !! i = None /\ settled w' = true)).
Proof.
  intros K H. revert w. induction H as [s|s s1 s' H H' IH]; intros w Hd Hw; [exists w; split; [reflexivity|by left]|].
  destruct (step_moves k s s1 K Hd H) as [O M G]. destruct (M i w Hw) as [(w1 & Hw1 & A)|[Hn Hs]].
  - destruct (IH w1 O Hw1) as (w' & A' & F). exists w'. split; [by etrans|done].
  - exists w. split; [reflexivity|]. right. split; [|done].
    assert (i < next_id (s_db s1)) as Hi by (apply (to_keyed _ _ _ Hd) in Hw; destruct G; lia).
    clear -K H' O Hn Hi. induction H' as [|s s1 s' H _ IH]; [done|].
    destruct (step_moves k s s1 K O H) as [O1 _ [G1 G2]]. apply IH; [done| |lia].
    destruct (tbl (s_db s1) !! i) eqn:E; [|done]. pose proof (G2 _ _ E Hn). lia.
Qed.

Lemma reachable_ok {D} k (s : sys D) : kind_ok k -> reachable k s -> db_ok k (s_db s).
Proof. intros K (s0 & H0 & H). by apply (steps_ok k s0 s K H), initial_ok. Qed.

(** ** Attempts: who may change the counter *)

Section Attempts.
Context {D : Type} (k : Kind) (K : kind_ok k).
Implicit Types (d : db D) (r : Receipt).

Definition attempts_kept d d' : Prop :=
  forall i w w', tbl d !! i = Some w -> tbl d' !! i = Some w' -> attempt w' = attempt w.

Lemma attempts_kept_refl d : attempts_kept d d.
Proof. intros i w w' H H'. by simplify_eq. Qed.

Lemma attempts_kept_insert d i w w' :
  tbl d !! i = Some w -> attempt w' = attempt w -> attempts_kept d (with_tbl d (<[i := w']> (tbl d))).
Proof.
  intros Hi Ha j v v' Hj. simpl. rewrite lookup_insert_Some.
  intros [[-> <-]|[_ Hj']]; by simplify_eq.
Qed.

Lemma rows_kept_attempts d d' : rows_kept d d' -> attempts_kept d d'.
Proof. intros H i w w' Hi Hi'. apply H in Hi. by simplify_eq. Qed.

Lemma attempts_kept_trans d d1 d' :
  attempts_kept d d1 -> tbl_evolves (tbl d) (tbl d1) -> attempts_kept d1 d' -> attempts_kept d d'.
Proof.
  intros H E H' i w w' Hi Hi'. destruct (E _ _ Hi) as (v & Hv & _).
  rewrite (H' _ _ _ Hv Hi'). by eapply H.
Qed.

Lemma holder_effect_attempts r sets now d :
  HolderSets k sets -> attempts_kept d (holder_effect k r sets now d).1.
Proof.
  intros H. unfold holder_effect.
  destruct (tbl d !! ItemID r) as [w|] eqn:Hi; [|apply attempts_kept_refl].
  destruct (guardSQL r now w); [|apply attempts_kept_refl].
  destruct (cancel_pending w); simpl; apply (attempts_kept_insert _ _ w); try done.
  change (attempt ?x) with (get Cattempt x).
  by rewrite get_apply_sets, lookup_assign_None by apply hs_keeps_attempt.
Qed.

Lemma plainGuardedWrite_inv r sets now d d' :
  plainGuardedWrite r sets now d = Ok d' ->
  exists w, tbl d !! ItemID r = Some w /\ guardSQL r now w = true /\
            d' = with_tbl d (<[ItemID r := apply_sets sets now w]> (tbl d)).
Proof.
  unfold plainGuardedWrite. destruct (update_row _ _ _ _ _) as [[w' t']|] eqn:U; [|done].
  intros [= <-]. apply update_row_Some in U as (w & ? & ? & -> & ->). eauto.
Qed.

Lemma plainGuardedWrite_attempts r sets now d d' :
  plainGuardedWrite r sets now d = Ok d' -> Cattempt ∉ map acol sets -> attempts_kept d d'.
Proof.
  intros (w & Hi & _ & ->)%plainGuardedWrite_inv Hn. apply (attempts_kept_insert _ _ w); [done|].
  change (attempt ?x) with (get Cattempt x). by rewrite get_apply_sets, lookup_assign_None.
Qed.

Lemma complete_attempts {C B} (fn : db D -> res err (db D * C)) (after : C -> db D -> res err (db D * B)) r t1 t2 commits d :
  closure_ok k fn ->
  (forall c d d' b, after c d = Ok (d', b) -> sound k d d' /\ (db_ok k d -> rows_kept d d')) ->
  db_ok k d -> attempts_kept d (odb (complete k r (Some fn) after t1 t2 commits d)).
Proof.
  intros Hfn Haf Hd. unfold complete. destruct (Validate k); [|apply attempts_kept_refl].
  case_match; [apply attempts_kept_refl|]. unfold inTx.
  destruct (complete_body k r fn after t1 t2 d) as [[d' x]|] eqn:E; [|apply attempts_kept_refl].
  assert (attempts_kept d d'); [|by destruct commits, x; simpl; try apply attempts_kept_refl].
  apply complete_body_ok in E as (w & Hw & _ & _ & [(_ & -> & Hs)|(Hc & d1 & d2 & c & b & -> & H1 & H2 & H3)]).
  - eapply plainGuardedWrite_attempts; [exact Hs|set_solver].
  - destruct (dom_steps_ok k _ _ K (Hfn _ _ _ H1) Hd) as [S1 R1]. destruct (S1 Hd) as (O1 & E1 & _).
    assert (S2 : sound k d1 d2).
    { eapply plainGuardedWrite_sound; [exact H2|]. intros v Hok Gv Hv.
      rewrite (R1 _ _ Hw) in Hv. injection Hv as <-.
      split; [apply row_ok_done|apply evolves_done]; eauto with tf. }
    destruct (S2 O1) as (O2 & E2 & _).
    eapply attempts_kept_trans; [by apply rows_kept_attempts|done|].
    eapply attempts_kept_trans; [eapply plainGuardedWrite_attempts; [exact H2|set_solver]|done|].
    apply rows_kept_attempts. by apply (Haf _ _ _ _ H3).
Qed.

Lemma admit_successor_rows r t cols d d' i :
  admit_successor k r t cols d = Ok (d', i) -> sound k d d' /\ (db_ok k d -> rows_kept d d').
Proof.
  unfold admit_successor. destruct cols as [cols|].
  - intros ([d1 [j []]] & H & E)%res_bind_ok; [done|]. injection E as <- <-.
    apply (dom_step_ok k); [done|]. by eapply ds_admission.
  - intros [= <- <-]. split; [reflexivity|]. by intros _ j w.
Qed.

(** A holder operation leaves every attempt counter alone, except a deferral
    that went through, which refunds one on its own item. *)
Lemma run_hop_attempts r (h : hop D) d i w w' :
  hop_ok k h -> db_ok k d -> tbl d !! i = Some w -> tbl (odb (run_hop k r h d)) !! i = Some w' ->
  attempt w' = attempt w - (if is_defer h && is_ok (ores (run_hop k r h d)) && (i =? ItemID r) then 1 else 0).
Proof.
  intros Hh Hd Hi Hi'.
  assert (Hkept : is_defer h = false -> attempts_kept d (odb (run_hop k r h d))).
  { destruct h; simpl in *; intros Hdef; try done.
    - apply complete_attempts; [done| |done]. intros [] d1 d2 [] [= <-].
      split; [reflexivity|]. by intros _ j v.
    - unfold CompleteAndAdmit. case_bool_decide; [apply attempts_kept_refl|].
      apply complete_attempts; [done| |done]. intros c d1 d2 b. apply admit_successor_rows.
    - unfold MarkDone. destruct (Validate k); [|apply attempts_kept_refl].
      case_match; [apply attempts_kept_refl|].
      pose proof (holder_effect_attempts r (terminalDone k) t d _) as A.
      rewrite <- holderWriteReturningStatus_effect, <- holderWrite_fst in A by apply _.
      by destruct (holderWrite _ _ _ _ _).
    - unfold Requeue. destruct (Validate k); [|apply attempts_kept_refl].
      case_match; [apply attempts_kept_refl|].
      pose proof (holder_effect_attempts r (requeue_sets k r o cause u) t d _) as A.
      rewrite <- holderWriteReturningStatus_effect in A by apply _.
      by destruct (holderWriteReturningStatus _ _ _ _ _).
    - unfold Park. destruct (Validate k); [|apply attempts_kept_refl].
      case_match; [apply attempts_kept_refl|].
      pose proof (holder_effect_attempts r (park_sets k reason) t d _) as A.
      rewrite <- holderWriteReturningStatus_effect, <- holderWrite_fst in A by apply _.
      by destruct (holderWrite _ _ _ _ _).
    - destruct (Validate k) as [[]|] eqn:V; [|unfold RenewLease; rewrite V; apply attempts_kept_refl].
      rewrite RenewLease_db, holderWriteReturningStatus_effect by (done || apply _).
      apply holder_effect_attempts, _. }
  destruct (is_defer h) eqn:Hdef; simpl.
  2: { rewrite (Hkept eq_refl _ _ _ Hi Hi'). lia. }
  clear Hkept. destruct h; try done. cbn [run_hop] in *. unfold Defer in *.
  destruct (Validate k); [|simpl in *; simplify_eq; lia].
  case_match; [simpl in *; simplify_eq; lia|].
  destruct at_ as [at_|]; [|simpl in *; simplify_eq; lia].
  unfold inTx in *. destruct (defer_body k r reason at_ p t_lock t_write d) as [[d' x]|] eqn:E;
    [|simpl in *; simplify_eq; lia].
  destruct commits; [|simpl in *; simplify_eq; lia].
  apply defer_body_ok in E as (v & Hv & _ & _ & [(_ & -> & Hs)|(_ & -> & _ & Hs)]); simpl in *.
  - rewrite (plainGuardedWrite_attempts _ _ _ _ _ Hs ltac:(set_solver) _ _ _ Hi Hi'). lia.
  - apply plainGuardedWrite_inv in Hs as (u & Hu & _ & ->). simpl in Hi'.
    rewrite lookup_insert in Hi'. case_decide as Heq; simplify_eq.
    + rewrite Z.eqb_refl. done.
    + rewrite (proj2 (Z.eqb_neq i (ItemID r))) by congruence. lia.
Qed.
End Attempts.

(** ** Receipts and the budget *)

(** Occurrences of an item in a history. *)
Definition occurs (i : Z) (l : list Z) : nat := length (filter (fun j => j = i) l).

Lemma occurs_app i l1 l2 : occurs i (l1 ++ l2) = (occurs i l1 + occurs i l2)%nat.
Proof. unfold occurs. by rewrite filter_app, length_app. Qed.

Lemma occurs_cons i j l : occurs i (j :: l) = ((if (i =? j)%Z then 1 else 0) + occurs i l)%nat.
Proof. unfold occurs. rewrite filter_cons. case_decide; destruct (Z.eqb_spec i j); simpl; lia. Qed.

Lemma occurs_zero i l : i ∉ l -> occurs i l = 0%nat.
Proof.
  intros H. induction l as [|j l IH]; [done|]. rewrite occurs_cons, IH by set_solver.
  destruct (Z.eqb_spec i j); set_solver.
Qed.

Lemma occurs_nodup i l : NoDup l -> i ∈ l -> occurs i l = 1%nat.
Proof.
  induction l as [|j l IH]; [set_solver|]. rewrite NoDup_cons, occurs_cons.
  intros [Hn Hd] [->|Hi]%elem_of_cons.
  - rewrite Z.eqb_refl, occurs_zero by done. lia.
  - destruct (Z.eqb_spec i j) as [->|]; [done|]. by rewrite IH.
Qed.

(** Acquisitions of item [i] so far. *)
Definition acquisitions {D} (s : sys D) (i : Z) : nat := occurs i (map ItemID (s_issued s)).

(** A receipt is of an id the sequence handed out, and of a generation its row,
    unless it was pruned, has reached. *)
Definition backed {D} (d : db D) (r : Receipt) : Prop :=
  ItemID r < next_id d /\ 1 <= LeaseGeneration r /\
  forall w, tbl d !! ItemID r = Some w -> OrgID r = org_id w /\ LeaseGeneration r <= lease_generation w.

Record inv {D} (k : Kind) (s : sys D) : Prop := {
  i_db : db_ok k (s_db s);
  i_issued : Forall (backed (s_db s)) (s_issued s);
  i_nodup : NoDup (map (fun r => (ItemID r, LeaseGeneration r)) (s_issued s));
  i_budget : forall i w, tbl (s_db s) !! i = Some w ->
               Z.of_nat (acquisitions s i) <=
               attempt w + Z.of_nat (occurs i (s_defers s)) + max_attempts w * Z.of_nat (occurs i (s_redrives s));
  i_renewed : forall r, r ∈ s_renewed s -> exists r0 e, r0 ∈ s_issued s /\ r = with_expiry r0 e }.

(** Receipts stay backed by their row while rows evolve. *)
Lemma backed_moves {D} k (d d' : db D) r : moves k d d' -> backed d r -> backed d' r.
Proof.
  intros [O M [G1 G2]] (H1 & H2 & H3). split; [lia|]. split; [done|]. intros w' Hw'.
  destruct (tbl d !! ItemID r) as [w|] eqn:Hw; [|pose proof (G2 _ _ Hw' Hw); lia].
  destruct (H3 w eq_refl) as [Ho Hg]. destruct (M _ _ Hw) as [(v & Hv & A)|[Hn _]]; [|congruence]. simplify_eq.
  pose proof (ev_org _ _ A) as E1. pose proof (ev_gen _ _ A) as E2. simpl in E1, E2. rewrite E1. split; [done|lia].
Qed.

(** A row that was never there has no acquisitions. *)
Lemma no_row_no_acquisitions {D} k (s : sys D) i :
  inv k s -> next_id (s_db s) <= i -> acquisitions s i = 0%nat.
Proof.
  intros I Hn. apply occurs_zero. intros (r & -> & Hr)%list_elem_of_fmap.
  pose proof (i_issued _ _ I) as Hb. rewrite Forall_forall in Hb. destruct (Hb r Hr) as (? & _). lia.
Qed.

(** The steps that issue nothing: the invariant follows from soundness and
    from what the step does to the attempt counters. *)
Lemma inv_quiet {D} k (s s' : sys D) :
  inv k s -> moves k (s_db s) (s_db s') -> s_issued s' = s_issued s ->
  (forall r, r ∈ s_renewed s' -> exists r0 e, r0 ∈ s_issued s' /\ r = with_expiry r0 e) ->
  (forall i w w', tbl (s_db s) !! i = Some w -> tbl (s_db s') !! i = Some w' ->
     attempt w + Z.of_nat (occurs i (s_defers s)) + max_attempts w * Z.of_nat (occurs i (s_redrives s)) <=
     attempt w' + Z.of_nat (occurs i (s_defers s')) + max_attempts w' * Z.of_nat (occurs i (s_redrives s'))) ->
  inv k s'.
Proof.
  intros I M Hi Hrn Hb. split.
  - apply M.
  - rewrite Hi. eapply Forall_impl; [apply I|]. intros r. by eapply backed_moves.
  - rewrite Hi. apply I.
  - intros i w' Hw'. unfold acquisitions. rewrite Hi. fold (acquisitions s i).
    destruct (tbl (s_db s) !! i) as [w|] eqn:Hw.
    + pose proof (i_budget _ _ I i w Hw). pose proof (Hb _ _ _ Hw Hw'). lia.
    + rewrite (no_row_no_acquisitions k s i I) by (by eapply (mv_grows _ _ _ M)).
      pose proof (to_rows _ _ _ (mv_ok _ _ _ M) _ _ Hw') as [Ha Hm ? ? ? ? ? ?].
      assert (0 <= max_attempts w' * Z.of_nat (occurs i (s_redrives s'))) by nia. lia.
  - done.
Qed.

Lemma update_row_lookup t i p sets now w' t' j v v' :
  update_row t i p sets now = Some (w', t') -> t !! j = Some v -> t' !! j = Some v' ->
  (j = i /\ v' = apply_sets sets now v) \/ (j <> i /\ v' = v).
Proof.
  intros (w & Hw & _ & -> & ->)%update_row_Some Hj. rewrite lookup_insert. case_decide; intros; simplify_eq; auto.
Qed.

Lemma max_attempts_evolves {D} (d d' : db D) i w w' :
  tbl_evolves (tbl d) (tbl d') -> tbl d !! i = Some w -> tbl d' !! i = Some w' -> max_attempts w' = max_attempts w.
Proof. intros E Hw Hw'. destruct (E _ _ Hw) as (v & Hv & Ev). simplify_eq. apply Ev. Qed.

Lemma max_attempts_moves {D} k (d d' : db D) i w w' :
  moves k d d' -> tbl d !! i = Some w -> tbl d' !! i = Some w' -> max_attempts w' = max_attempts w.
Proof. intros M Hw Hw'. destruct (mv_row _ _ _ M _ _ Hw) as [(v & Hv & A)|[? _]]; [|congruence]. simplify_eq. apply (ev_max _ _ A). Qed.

(** A step that keeps every attempt counter and records nothing. *)
Lemma inv_kept {D} k (s s' : sys D) :
  inv k s -> moves k (s_db s) (s_db s') -> attempts_kept (s_db s) (s_db s') ->
  s_issued s' = s_issued s -> s_defers s' = s_defers s -> s_redrives s' = s_redrives s -> s_renewed s' = s_renewed s -> inv k s'.
Proof.
  intros I M A Hi Hdf Hrd Hrn. apply (inv_quiet k s s'); try done; [rewrite Hrn, Hi; apply I|]. intros i w w' Hw Hw'.
  rewrite Hdf, Hrd, (A _ _ _ Hw Hw'), (max_attempts_moves k _ _ _ _ _ M Hw Hw'). lia.
Qed.

(** ** The claim step *)

Lemma lease_row_fields k owner now w :
  is_lease w = true ->
  attempt (claim_row k owner now w) = attempt w + 1 /\
  lease_generation (claim_row k owner now w) = lease_generation w + 1 /\
  status (claim_row k owner now w) = StatusLeased /\
  lease_expires_at (claim_row k owner now w) = Some (now + Lease (policy_resolved (KPolicy k))) /\
  attempt w < max_attempts w.
Proof.
  intros H. pose proof (choose_spec w) as C. unfold is_lease, claim_row in *.
  destruct (choose (to_picked w)); try done. by destruct C.
Qed.

Lemma not_lease_attempt k owner now w :
  is_lease w = false -> attempt (claim_row k owner now w) = attempt w.
Proof. unfold is_lease, claim_row. by destruct (choose (to_picked w)). Qed.

Lemma receipt_fields k owner now w :
  is_lease w = true ->
  ItemID (row_receipt k owner now w) = id w /\ OrgID (row_receipt k owner now w) = org_id w /\
  LeaseGeneration (row_receipt k owner now w) = lease_generation w + 1.
Proof. intros H. split_and!; try done. by apply (lease_row_fields k owner now w). Qed.

Section ClaimStep.
Context {D : Type} (k : Kind) (owner : Owner) (times : nat -> Z) (ws : list row) (d : db D).
Context (Hd : db_ok k d) (Hn : NoDup (map id ws)) (Ht : forall w, w ∈ ws -> tbl d !! id w = Some w).

Lemma batch_receipt_row r :
  r ∈ batch_receipts k owner times 0 ws ->
  exists w, tbl d !! ItemID r = Some w /\ w ∈ ws /\ is_lease w = true /\ OrgID r = org_id w /\
            LeaseGeneration r = lease_generation w + 1.
Proof.
  intros (w & now & Hw & Hl & ->)%elem_of_batch_receipts.
  destruct (receipt_fields k owner now w Hl) as (-> & -> & ->). exists w. split_and!; try done. by apply Ht.
Qed.

Lemma NoDup_map_pair (l : list Receipt) :
  NoDup (map ItemID l) -> NoDup (map (fun r => (ItemID r, LeaseGeneration r)) l).
Proof.
  intros H. apply (NoDup_fmap_1 (fst : Z * Z -> Z)).
  by replace (fst <$> map (fun r => (ItemID r, LeaseGeneration r)) l) with (map ItemID l)
    by (symmetry; apply map_map).
Qed.

Lemma NoDup_batch_ids : NoDup (map ItemID (batch_receipts k owner times 0 ws)).
Proof. rewrite batch_receipts_ids. by apply NoDup_map_filter. Qed.

Lemma batch_attempt i w w' :
  tbl d !! i = Some w -> batch_tbl k owner times 0 ws (tbl d) !! i = Some w' ->
  attempt w' = attempt w + Z.of_nat (occurs i (map ItemID (batch_receipts k owner times 0 ws))).
Proof.
  intros Hw Hw'. rewrite batch_receipts_ids.
  destruct (batch_tbl_inv k owner times 0 ws (tbl d) i w' Hn Hw') as [[Hi Hi']|(v & now & Hv & <- & ->)].
  - rewrite occurs_zero; [simplify_eq; lia|]. intros (x & -> & [_ Hx]%list_elem_of_filter)%list_elem_of_fmap.
    apply Hi. by apply list_elem_of_fmap_2.
  - rewrite (Ht v Hv) in Hw. injection Hw as <-. destruct (is_lease v) eqn:Hl.
    + rewrite occurs_nodup; [by apply (lease_row_fields k owner now v)|by apply NoDup_map_filter|].
      apply list_elem_of_fmap_2, list_elem_of_filter. done.
    + rewrite occurs_zero; [rewrite not_lease_attempt by done; lia|].
      intros (x & Hx & [Hlx Hxw]%list_elem_of_filter)%list_elem_of_fmap.
      assert (x = v) as ->; [|congruence].
      pose proof (Ht v Hv) as A. pose proof (Ht x Hxw) as B. rewrite Hx in A. congruence.
Qed.
End ClaimStep.

Lemma inv_claim {D} k (s : sys D) cf owner org limit e now' :
  inv k s ->
  let o := claimRound cf k owner org limit e (s_db s) in
  inv k (Sys o.1 now' (s_issued s ++ claimed_of o.2) (s_defers s) (s_redrives s) (s_renewed s)).
Proof.
  intros I o. pose proof (claimRound_sound cf k owner org limit e (s_db s)) as S. destruct (S (i_db _ _ I)) as (Hok & E & _).
  pose proof (sound_moves k _ _ (i_db _ _ I) S) as M. fold o in Hok, E, M. destruct (re_commits e) eqn:Hc.
  2: { destruct (claimRound_fail cf k owner org limit e (s_db s) Hc) as [x Hx]. subst o. rewrite Hx. simpl.
       rewrite app_nil_r. by destruct I. }
  destruct (claimRound_spec cf k owner org limit e (s_db s) (i_db _ _ I) Hc) as (c & b & Hx & Hr & _).
  destruct (round_rows_facts cf k org limit e (s_db s) (i_db _ _ I)) as (Hn & Hl & Ht).
  set (ws := round_rows cf k org limit e (s_db s)) in *.
  assert (Hcl : claimed_of o.2 = batch_receipts k owner (re_times e) 0 ws) by (subst o; by rewrite Hx).
  assert (Htb : tbl o.1 = batch_tbl k owner (re_times e) 0 ws (tbl (s_db s))) by (subst o; by rewrite Hx).
  clearbody o. rewrite Hcl. split; cbn [s_db s_issued s_defers s_redrives s_renewed].
  - done.
  - apply Forall_app. split; [eapply Forall_impl; [apply I|]; intros r; by eapply backed_moves|].
    apply Forall_forall. intros r Hr'. destruct (batch_receipt_row k owner (re_times e) ws (s_db s) Ht r Hr') as (w & Hw & Hin & Hlw & Ho & Hg).
    destruct (lookup_batch_tbl k owner (re_times e) 0 ws (tbl (s_db s)) w Hn Hin) as (now & Hb & _).
    assert (id w = ItemID r) as Hid by (by apply (to_keyed _ _ _ (i_db _ _ I) _ _ Hw)).
    assert (tbl o.1 !! ItemID r = Some (claim_row k owner now w)) as Hc' by (by rewrite Htb, <- Hid).
    pose proof (to_rows _ _ _ (i_db _ _ I) _ _ Hw) as []. destruct (to_keyed _ _ _ Hok _ _ Hc') as [_ ?].
    split; [lia|]. split; [lia|]. intros v Hv. rewrite Hc' in Hv. injection Hv as <-.
    destruct (lease_row_fields k owner now w Hlw) as (_ & -> & _).
    assert (org_id (claim_row k owner now w) = org_id w) as ->; [|split; [done|lia]].
    apply claim_row_ok. by eapply Forall_forall in Hl.
  - rewrite map_app. apply NoDup_app. split_and!; [apply I| |apply NoDup_map_pair, NoDup_batch_ids, Hn].
    intros [i g] (r & Heq & Hr1)%list_elem_of_fmap (r' & Heq' & Hr2)%list_elem_of_fmap. simplify_eq.
    pose proof (i_issued _ _ I) as Hbk. rewrite Forall_forall in Hbk. destruct (Hbk r Hr1) as (_ & _ & Hbw).
    destruct (batch_receipt_row k owner (re_times e) ws (s_db s) Ht r' Hr2) as (v & Hv & _ & _ & _ & Hg').
    destruct (Hbw v) as [_ Hg]; [congruence|]. lia.
  - intros i w' Hw'. unfold acquisitions. cbn [s_issued]. rewrite map_app, occurs_app. fold (acquisitions s i).
    rewrite Htb in Hw'. destruct (tbl (s_db s) !! i) as [w|] eqn:Hw.
    + rewrite (batch_attempt k owner (re_times e) ws (s_db s) Hn Ht i w w' Hw Hw').
      rewrite <- Htb in Hw'. rewrite (max_attempts_evolves _ _ _ _ _ E Hw Hw').
      pose proof (i_budget _ _ I i w Hw). lia.
    + destruct (batch_tbl_inv k owner (re_times e) 0 ws (tbl (s_db s)) i w' Hn Hw') as [[_ ?]|(v & now & Hv & <- & ->)];
        [congruence|]. rewrite (Ht v Hv) in Hw. done.
  - intros r Hr'. destruct (i_renewed _ _ I r Hr') as (r0 & x & ? & ->). exists r0, x. split; [set_solver|done].
Qed.

(** ** The remaining steps *)

Section QuietAttempts.
Context {D : Type} (k : Kind).
Implicit Types (d : db D).

(** A statement over one row keeps every counter it does not assign. *)
Lemma update_row_attempts d i p sets now w' t' :
  update_row (tbl d) i p sets now = Some (w', t') -> Cattempt ∉ map acol sets ->
  attempts_kept d (with_tbl d t').
Proof.
  intros U Hn j w v Hw Hv. destruct (update_row_lookup _ _ _ _ _ _ _ _ _ _ U Hw Hv) as [[_ ->]|[_ ->]]; [|done].
  change (attempt ?x) with (get Cattempt x). by rewrite get_apply_sets, lookup_assign_None.
Qed.

Lemma RequestCancel_attempts org i by_ reason t d :
  attempts_kept d (odb (RequestCancel k org i by_ reason t d)).
Proof.
  unfold RequestCancel. destruct (Validate k); [|apply attempts_kept_refl].
  case_match; [apply attempts_kept_refl|].
  destruct (update_row _ _ _ _ _) as [[w' t']|] eqn:U; [|apply attempts_kept_refl].
  eapply update_row_attempts; [exact U|set_solver].
Qed.

Lemma Supersede_attempts org i by_ j t d : attempts_kept d (odb (Supersede k org i by_ j t d)).
Proof.
  unfold Supersede, operatorWrite. destruct (Validate k); [|apply attempts_kept_refl].
  repeat (case_match; [apply attempts_kept_refl|]).
  destruct (update_row _ _ _ _ _) as [[w' t']|] eqn:U; [|apply attempts_kept_refl].
  eapply update_row_attempts; [exact U|set_solver].
Qed.

Lemma Admit_attempts org key cols t commits d :
  kind_ok k -> db_ok k d -> attempts_kept d (Admit k org key cols t commits d).1.
Proof.
  intros K Hd. unfold Admit. destruct (Validate k); [|apply attempts_kept_refl].
  repeat (case_match; [apply attempts_kept_refl|]). unfold inTx.
  destruct (kind_admit _ _ _ _ _ _) as [[d' x]|] eqn:E; [|apply attempts_kept_refl].
  destruct commits; [|apply attempts_kept_refl]. apply rows_kept_attempts.
  by apply (dom_step_ok k d d' K (ds_admission _ _ _ _ _ _ _ _ E)).
Qed.

(** A redrive either does nothing or resets its own row's counter. *)
Lemma Redrive_attempts org i by_ t d :
  (attempts_kept d (odb (Redrive k org i by_ t d)) /\ is_ok (ores (Redrive k org i by_ t d)) = false) \/
  (is_ok (ores (Redrive k org i by_ t d)) = true /\
   forall j w w', tbl d !! j = Some w -> tbl (odb (Redrive k org i by_ t d)) !! j = Some w' ->
     attempt w' = if j =? i then 0 else attempt w).
Proof.
  pose proof (attempts_kept_refl d) as R.
  unfold Redrive, operatorWrite. destruct (Validate k); [|by left]. case_match; [by left|].
  destruct (update_row _ _ _ _ _) as [[v t']|] eqn:U; [|by left].
  right. split; [done|]. simpl. intros j w w' Hw Hw'.
  destruct (update_row_lookup _ _ _ _ _ _ _ _ _ _ U Hw Hw') as [[-> ->]|[Hne ->]].
  - by rewrite Z.eqb_refl.
  - by rewrite (proj2 (Z.eqb_neq _ _) Hne).
Qed.
End QuietAttempts.

Lemma inv_redrive {D} k (s : sys D) org i b t :
  inv k s ->
  let o := Redrive k org i b t (s_db s) in
  inv k (Sys (odb o) t (s_issued s) (s_defers s) (if is_ok (ores o) then i :: s_redrives s else s_redrives s) (s_renewed s)).
Proof.
  intros I o. pose proof (sound_moves k _ _ (i_db _ _ I) (Redrive_sound k org i b t (s_db s))) as M. fold o in M.
  destruct (Redrive_attempts k org i b t (s_db s)) as [[A Ho]|[Ho A]]; fold o in A, Ho; rewrite Ho.
  - by apply (inv_kept k s).
  - apply (inv_quiet k s); try done; [apply I|]. intros j w w' Hw Hw'. cbn [s_db s_defers s_redrives] in *.
    rewrite (max_attempts_moves k _ _ _ _ _ M Hw Hw'), (A _ _ _ Hw Hw'), occurs_cons.
    pose proof (to_rows _ _ _ (i_db _ _ I) _ _ Hw) as []. destruct (j =? i); nia.
Qed.

(** A renewal answers the receipt it was given, with another expiry. *)
Lemma renewed_by_expiry {D} k r (h : hop D) d r' : r' ∈ renewed_by k r h d -> exists e, r' = with_expiry r e.
Proof.
  unfold renewed_by. destruct h; try (by intros ?%elem_of_nil). unfold RenewLease.
  destruct (Validate k); [|by intros ?%elem_of_nil]. destruct (holderSQL k (renew_sets k)); [|by intros ?%elem_of_nil].
  destruct (update_row _ _ _ _ _) as [[w t']|]; [|by intros ?%elem_of_nil]. destruct (cancel_pending w); simpl; [by intros ?%elem_of_nil|].
  intros ->%list_elem_of_singleton. eauto.
Qed.

(** Every receipt in circulation is one a claim issued, up to its expiry. *)
Lemma receipt_issued {D} k (s : sys D) r : inv k s -> r ∈ s_receipts s ->
  exists r0, r0 ∈ s_issued s /\ forall e, with_expiry r e = with_expiry r0 e.
Proof.
  intros I [Hr|Hr]%elem_of_app; [by exists r|]. destruct (i_renewed _ _ I r Hr) as (r0 & e & ? & ->). by exists r0.
Qed.

Lemma inv_step {D} k (s s' : sys D) : kind_ok k -> step k s s' -> inv k s -> inv k s'.
Proof.
  intros K H I. pose proof (step_moves k s s' K (i_db _ _ I) H) as M.
  destruct H as [s a n' Hn|s org key cols t c Hn|s cf owner org limit e n' Hn|s r h n' Hr Hh Ht
                |s org i b re t Hn|s org i b t Hn|s org i b j t Hn|s b n' Hn|s i p n' Hn].
  - apply (inv_kept k s); try done. intros i w w' ? ?. simpl in *. by simplify_eq.
  - apply (inv_kept k s); try done. apply Admit_attempts; [done|apply I].
  - by apply inv_claim.
  - apply (inv_quiet k s); try done.
    + cbn [s_issued s_renewed]. intros r' [Hr'|(x & ->)%renewed_by_expiry]%elem_of_app; [by apply (i_renewed _ _ I)|].
      destruct (receipt_issued k s r I Hr) as (r0 & Hr0 & E). exists r0, x. by split.
    + intros i w w' Hw Hw'. cbn [s_db s_defers s_redrives] in *.
      rewrite (max_attempts_moves k _ _ _ _ _ M Hw Hw').
      rewrite (run_hop_attempts k K r h (s_db s) i w w' Hh (i_db _ _ I) Hw Hw').
      destruct (is_defer h && is_ok _); simpl; [|lia]. rewrite occurs_cons. destruct (i =? ItemID r); lia.
  - apply (inv_kept k s); try done. apply RequestCancel_attempts.
  - by apply inv_redrive.
  - apply (inv_kept k s); try done. apply Supersede_attempts.
  - apply (inv_kept k s); try done. intros i w w' Hw [Hw' _]%lookup_prune. by simplify_eq.
  - apply (inv_kept k s); try done. intros j w w' Hw (v & Hv & [->| ->])%columns_row; by simplify_eq.
Qed.

Lemma initial_inv {D} k (s : sys D) : initial s -> inv k s.
Proof.
  intros Hs. pose proof (initial_ok k s Hs) as Hd. destruct Hs as (Ht & Hi & Hdf & Hr & Hn). split; [done|..].
  - by rewrite Hi.
  - rewrite Hi. constructor.
  - intros i w. by rewrite Ht, lookup_empty.
  - rewrite Hn. by intros r ?%elem_of_nil.
Qed.

Lemma reachable_inv {D} k (s : sys D) : kind_ok k -> reachable k s -> inv k s.
Proof.
  intros K (s0 & H0 & H). apply (initial_inv k) in H0.
  induction H as [s|s1 s2 s3 H1 _ IH]; [done|]. apply IH. by eapply inv_step.
Qed.
