(* ===== verification/WorkItemHops.v ===== *)
(** * What one holder operation may do

    The branches every holder operation shares, stated once over the type of
    operations: the receipt does not own the row, the row has a cancellation
    request pending, or the operation concerns another row. *)

From Stdlib Require Import SpecFloat.
From S2P Require Import Prelude WorkItemKind WorkItemRow WorkItemStore WorkItemHolder WorkItemClaim WorkItemOperator WorkItemInv WorkItemSound WorkItemClaimInv WorkItemSystem.

(** The argument checks an operation makes before it touches the database. *)
Definition hop_admissible {D} (k : Kind) (h : hop D) : bool :=
  match h with
  | HComplete _ _ _ _ => bool_decide (KStrategy k = SingleTx)
  | HCompleteAndAdmit _ _ _ _ _ => bool_decide (KStrategy k = SingleTx) && negb (bool_decide (Unique k = UniqueForever))
  | HMarkDone _ => bool_decide (KStrategy k = FencedReplay)
  | HRequeue o _ _ _ => outcome_valid o
  | HPark reason _ => negb (bool_decide (reason = ""%string))
  | HDefer reason at_ _ _ _ _ => negb (bool_decide (reason = ""%string)) && bool_decide (is_Some at_)
  | HRenew _ => true
  end.

(** The instants at which an operation tests ownership. *)
Definition guard_times {D} (h : hop D) : list Z :=
  match h with
  | HComplete _ t1 t2 _ | HDefer _ _ _ t1 t2 _ | HCompleteAndAdmit _ t1 t2 _ _ => [t1; t2]
  | HMarkDone t | HRequeue _ _ _ t | HPark _ t | HRenew t => [t]
  end.

(** The name an operation reports a lost lease under. *)
Definition hop_op {D} (h : hop D) : string :=
  match h with
  | HComplete _ _ _ _ | HCompleteAndAdmit _ _ _ _ _ => OpComplete
  | HMarkDone _ => OpMarkDone | HRequeue _ _ _ _ => OpRequeue | HPark _ _ => OpPark
  | HDefer _ _ _ _ _ _ => OpDefer | HRenew _ => OpRenew
  end.

(** Whether the operation's transaction commits. *)
Definition hop_commits {D} (h : hop D) : bool :=
  match h with
  | HComplete _ _ _ c | HCompleteAndAdmit _ _ _ _ c | HDefer _ _ _ _ _ c => c
  | _ => true
  end.

(** The instant of an operation's write. *)
Definition write_time {D} (h : hop D) : Z :=
  match h with
  | HComplete _ _ t _ | HDefer _ _ _ _ t _ | HCompleteAndAdmit _ _ t _ _ => t
  | HMarkDone t | HRequeue _ _ _ t | HPark _ t | HRenew t => t
  end.

(** The receipt owns its row at [t]. *)
Definition owns {D} (r : Receipt) (t : Z) (d : db D) : bool :=
  match tbl d !! ItemID r with Some w => guardSQL r t w | None => false end.

(** Unfold an operation past its argument checks. *)
Ltac open_hop V :=
  cbn [run_hop]; unfold Complete, CompleteAndAdmit, MarkDone, Requeue, Park, Defer, complete;
  rewrite ?V; cbn [fmap option_fmap option_map].

Section Hops.
Context {D : Type} (k : Kind).
Context (V : Validate k = Ok tt).
Implicit Types (d : db D) (r : Receipt) (h : hop D).

Lemma lockAndVerify_owns r t d :
  (forall w, tbl d !! ItemID r = Some w -> id w = ItemID r) ->
  lockAndVerify r t d =
  if owns r t d then Ok (match tbl d !! ItemID r with Some w => cancel_pending w | None => false end)
  else Err ErrLeaseLost.
Proof.
  intros Hk. unfold lockAndVerify, owns. destruct (tbl d !! ItemID r) as [w|]; [|done].
  unfold guardSQL. rewrite (proj2 (Z.eqb_eq _ _) (Hk w eq_refl)). simpl.
  case_bool_decide; simpl; [|done]. by destruct (guardBody r t w).
Qed.

Lemma holder_effect_owns r sets t d :
  holder_effect k r sets t d =
  match tbl d !! ItemID r with
  | Some w =>
      if owns r t d then
        if cancel_pending w
        then (with_tbl d (<[ItemID r := apply_sets (cancelSettlement k) t w]> (tbl d)), Err ErrCancelled)
        else (with_tbl d (<[ItemID r := apply_sets sets t w]> (tbl d)), Ok (status (apply_sets sets t w)))
      else (d, Err ErrLeaseLost)
  | None => (d, Err ErrLeaseLost)
  end.
Proof. unfold holder_effect, owns. by destruct (tbl d !! ItemID r). Qed.

Lemma plainGuardedWrite_owns r sets t d :
  plainGuardedWrite r sets t d =
  match tbl d !! ItemID r with
  | Some w => if owns r t d then Ok (with_tbl d (<[ItemID r := apply_sets sets t w]> (tbl d))) else Err ErrLeaseLost
  | None => Err ErrLeaseLost
  end.
Proof.
  unfold plainGuardedWrite, update_row, owns. destruct (tbl d !! ItemID r) as [w|]; [|done].
  by destruct (guardSQL r t w).
Qed.

(** Renewal answers with the new expiry instead of the status. *)
Lemma RenewLease_effect r t d :
  out_unit (RenewLease k r t d) =
  let '(d', x) := holder_effect k r (renew_sets k) t d in
  Out d' (let? _ := x in Ok tt) (reportHolder r OpRenew x (fun _ => [])).
Proof.
  unfold RenewLease. rewrite V, holderSQL_Some by apply _.
  unfold update_row, holder_effect. destruct (tbl d !! ItemID r) as [w|]; [|done].
  destruct (guardSQL r t w); [|done]. rewrite holder_merge by apply hs_texts.
  rewrite cancel_pending_merged by apply _. by destruct (cancel_pending w).
Qed.

(** A one-statement operation is the reference effect and its report. *)
Definition plain_sets r h : list assign :=
  match h with
  | HMarkDone _ => terminalDone k
  | HRequeue o c u _ => requeue_sets k r o c u
  | HPark reason _ => park_sets k reason
  | _ => renew_sets k
  end.

Definition on_ok r h (s : Status) : list obs :=
  match h with
  | HMarkDone _ => [OCompleted (OrgID r)]
  | HRequeue o _ _ _ =>
      if bool_decide (s = StatusParked) then [OParked (OrgID r) (outcome_text o)] else [ORequeued (OrgID r) o]
  | HPark reason _ => [OParked (OrgID r) reason]
  | _ => []
  end.

Definition one_statement h : bool :=
  match h with HMarkDone _ | HRequeue _ _ _ _ | HPark _ _ | HRenew _ => true | _ => false end.

#[export] Instance plain_sets_holder r h : HolderSets k (plain_sets r h).
Proof. destruct h; simpl; apply _. Qed.

Lemma run_hop_one_statement r h d :
  one_statement h = true -> hop_admissible k h = true ->
  run_hop k r h d =
  let '(d', x) := holder_effect k r (plain_sets r h) (write_time h) d in
  Out d' (let? _ := x in Ok tt) (reportHolder r (hop_op h) x (on_ok r h)).
Proof.
  destruct h; intros H1 H2; simpl in H1; try done; cbn [run_hop plain_sets write_time hop_op on_ok];
    cbn in H2; try apply RenewLease_effect.
  all: unfold MarkDone, Requeue, Park, holderWrite; rewrite V.
  all: try (rewrite H2; cbn [negb]).
  all: try (apply negb_true_iff in H2; rewrite H2).
  all: rewrite holderWriteReturningStatus_effect by apply _.
  all: by destruct (holder_effect _ _ _ _ _) as [d' [s|e]].
Qed.

(** ** The receipt does not own the row *)

Lemma one_statement_unowned r h d :
  one_statement h = true -> hop_admissible k h = true -> owns r (write_time h) d = false ->
  run_hop k r h d = Out d (Err ErrLeaseLost) [OLeaseLost (OrgID r) (hop_op h)].
Proof.
  intros H1 H2 Ho. rewrite run_hop_one_statement, holder_effect_owns, Ho by done.
  by destruct (tbl d !! ItemID r).
Qed.

(** A transaction that starts with the lock returns at once. *)
Lemma locked_unowned r h d :
  one_statement h = false -> hop_admissible k h = true -> keyed (tbl d) (next_id d) ->
  owns r (hd 0 (guard_times h)) d = false ->
  run_hop k r h d = Out d (Err ErrLeaseLost) [OLeaseLost (OrgID r) (hop_op h)].
Proof.
  intros H1 H2 Hk Ho. assert (Hid : forall w, tbl d !! ItemID r = Some w -> id w = ItemID r) by (intros w Hw; by apply Hk).
  destruct h; simpl in H1; try done; cbn in H2, Ho; open_hop V.
  - rewrite H2. cbn. unfold inTx, complete_body. by rewrite lockAndVerify_owns, Ho.
  - apply andb_true_iff in H2 as [H2 H3]. apply negb_true_iff in H3. rewrite H2, H3. cbn.
    unfold inTx, complete_body. by rewrite lockAndVerify_owns, Ho.
  - apply andb_true_iff in H2 as [H2 H3]. apply negb_true_iff in H2. rewrite H2.
    apply bool_decide_eq_true in H3 as [a ->]. unfold inTx, defer_body. by rewrite lockAndVerify_owns, Ho.
Qed.

(** An operation whose receipt does not own the row when it begins. *)
Lemma run_hop_unowned r h d :
  hop_admissible k h = true -> keyed (tbl d) (next_id d) ->
  owns r (hd 0 (guard_times h)) d = false ->
  run_hop k r h d = Out d (Err ErrLeaseLost) [OLeaseLost (OrgID r) (hop_op h)].
Proof.
  destruct (one_statement h) eqn:H1; intros H2 Hk Ho; [|by apply locked_unowned].
  apply one_statement_unowned; [done..|]. by destruct h.
Qed.

(** The lease lapses between the lock and the write: whatever the closure
    did is rolled back with it. *)
Lemma complete_body_lapsed {C B} (fn : db D -> res err (db D * C)) (after : C -> db D -> res err (db D * B)) r t1 t2 d :
  kind_ok k -> closure_ok k fn -> db_ok k d -> owns r t2 d = false ->
  exists e, complete_body k r fn after t1 t2 d = Err e.
Proof.
  intros K Hfn Hd Ho. destruct (complete_body k r fn after t1 t2 d) as [[d' x]|e] eqn:E; [|eauto]. exfalso.
  apply complete_body_ok in E as (w & Hw & _ & _ & [(_ & _ & Hs)|(_ & d1 & d2 & c & b & _ & H1 & H2 & _)]).
  - unfold settleUnderGuard in Hs. by rewrite plainGuardedWrite_owns, Hw, Ho in Hs.
  - destruct (dom_steps_ok k _ _ K (Hfn _ _ _ H1) Hd) as [_ R1]. unfold flipDone in H2.
    rewrite plainGuardedWrite_owns in H2. unfold owns in *. rewrite (R1 _ _ Hw) in H2.
    rewrite Hw in Ho. by rewrite Ho in H2.
Qed.

Lemma complete_lapsed {C B} (fn : db D -> res err (db D * C)) (after : C -> db D -> res err (db D * B)) r t1 t2 c d :
  kind_ok k -> closure_ok k fn -> db_ok k d -> owns r t2 d = false ->
  odb (complete k r (Some fn) after t1 t2 c d) = d /\ is_ok (ores (complete k r (Some fn) after t1 t2 c d)) = false.
Proof.
  intros K Hfn Hd Ho. unfold complete. rewrite V. case_match; [done|].
  destruct (complete_body_lapsed fn after r t1 t2 d K Hfn Hd Ho) as [e E]. unfold inTx. by rewrite E.
Qed.

Lemma run_hop_lapsed r h d t :
  hop_ok k h -> db_ok k d -> t ∈ guard_times h -> owns r t d = false ->
  odb (run_hop k r h d) = d /\ is_ok (ores (run_hop k r h d)) = false.
Proof.
  intros Hh Hd Ht Ho. pose proof (Validate_kind_ok k V) as K.
  destruct (hop_admissible k h) eqn:Ha.
  2: { destruct h; cbn in Ha; try done; open_hop V; try (by rewrite Ha).
       - destruct (bool_decide (KStrategy k = SingleTx)), (bool_decide (Unique k = UniqueForever)); done.
       - apply negb_false_iff in Ha. by rewrite Ha.
       - apply andb_false_iff in Ha as [Ha%negb_false_iff|Ha]; [by rewrite Ha|].
         destruct at_; [|by case_match]. rewrite bool_decide_true in Ha by eauto. done. }
  destruct (owns r (hd 0 (guard_times h)) d) eqn:Hf.
  2: { by rewrite run_hop_unowned by (done || apply Hd). }
  destruct h; simpl in Ht, Hf; try (assert (t = t0) by set_solver; congruence).
  - assert (t = t_write) as -> by (destruct (decide (t = t_lock)); [congruence|set_solver]).
    by apply complete_lapsed.
  - assert (t = t_write) as -> by (destruct (decide (t = t_lock)); [congruence|set_solver]).
    cbn [run_hop]. unfold CompleteAndAdmit. case_bool_decide; [done|].
    pose proof (complete_lapsed fn (admit_successor k r t_adm) r t_lock t_write commits d K Hh Hd Ho) as [E1 E2].
    unfold out_unit. cbn. rewrite E1. split; [done|]. by destruct (ores _).
  - assert (t = t_write) as -> by (destruct (decide (t = t_lock)); [congruence|set_solver]).
    cbn in Ha. open_hop V. apply andb_true_iff in Ha as [Ha%negb_true_iff [a ->]%bool_decide_eq_true]. rewrite Ha.
    unfold inTx, defer_body. destruct (lockAndVerify r t_lock d) as [c|] eqn:L; [|done]. cbn.
    apply lockAndVerify_ok in L as (w & Hw & _ & _ & ->).
    unfold settleUnderGuard. rewrite !plainGuardedWrite_owns, Hw, Ho.
    destruct (cancel_pending w); [done|]. destruct (p d) as [[]|]; done.
Qed.

(** ** A cancellation request is pending *)

(** Every operation that owns the row settles it instead of doing its own
    work, and answers alike. *)
Lemma run_hop_cancelled r h d w :
  hop_admissible k h = true -> hop_commits h = true -> keyed (tbl d) (next_id d) ->
  tbl d !! ItemID r = Some w -> cancel_pending w = true ->
  (forall t, t ∈ guard_times h -> owns r t d = true) ->
  run_hop k r h d =
  Out (with_tbl d (<[ItemID r := apply_sets (cancelSettlement k) (write_time h) w]> (tbl d)))
      (Err ErrCancelled) [OCancelled (OrgID r)].
Proof.
  intros Ha Hc Hk Hw Hp Ho. destruct (one_statement h) eqn:H1.
  { rewrite run_hop_one_statement, holder_effect_owns, Hw, Hp by done.
    rewrite Ho by (destruct h; set_solver). done. }
  assert (Hid : forall w, tbl d !! ItemID r = Some w -> id w = ItemID r) by (intros ? ?; by apply Hk).
  destruct h; simpl in H1, Hc; try done; cbn in Ha, Ho; subst commits; open_hop V.
  - rewrite Ha. cbn. unfold inTx, complete_body, settleUnderGuard.
    rewrite lockAndVerify_owns, Hw by done. rewrite !Ho by set_solver. rewrite Hp. cbn.
    rewrite plainGuardedWrite_owns, Hw, Ho by set_solver. done.
  - apply andb_true_iff in Ha as [Ha Hu%negb_true_iff]. rewrite Ha, Hu. cbn.
    unfold inTx, complete_body, settleUnderGuard.
    rewrite lockAndVerify_owns, Hw by done. rewrite !Ho by set_solver. rewrite Hp. cbn.
    rewrite plainGuardedWrite_owns, Hw, Ho by set_solver. done.
  - apply andb_true_iff in Ha as [Ha%negb_true_iff [a ->]%bool_decide_eq_true]. rewrite Ha.
    unfold inTx, defer_body, settleUnderGuard.
    rewrite lockAndVerify_owns, Hw by done. rewrite !Ho by set_solver. rewrite Hp. cbn.
    rewrite plainGuardedWrite_owns, Hw, Ho by set_solver. done.
Qed.

(** ** Other rows *)

Definition others_kept (i : Z) (d d' : db D) : Prop :=
  forall j w, j <> i -> tbl d !! j = Some w -> tbl d' !! j = Some w.

Lemma others_kept_refl i d : others_kept i d d.
Proof. by intros j w. Qed.

Lemma others_kept_insert i w d : others_kept i d (with_tbl d (<[i := w]> (tbl d))).
Proof. intros j v Hj Hv. simpl. by rewrite lookup_insert_ne by congruence. Qed.

Lemma holder_effect_others r sets t d : others_kept (ItemID r) d (holder_effect k r sets t d).1.
Proof.
  unfold holder_effect. repeat case_match; apply others_kept_refl || apply others_kept_insert.
Qed.

Lemma plainGuardedWrite_others r sets t d d' :
  plainGuardedWrite r sets t d = Ok d' -> others_kept (ItemID r) d d'.
Proof. intros (w & _ & _ & ->)%plainGuardedWrite_inv. apply others_kept_insert. Qed.

Lemma complete_others {C B} (fn : db D -> res err (db D * C)) (after : C -> db D -> res err (db D * B)) r t1 t2 c d :
  kind_ok k -> closure_ok k fn ->
  (forall c d d' b, after c d = Ok (d', b) -> sound k d d' /\ (db_ok k d -> rows_kept d d')) ->
  db_ok k d -> others_kept (ItemID r) d (odb (complete k r (Some fn) after t1 t2 c d)).
Proof.
  intros K Hfn Haf Hd. unfold complete. rewrite V. case_match; [apply others_kept_refl|]. unfold inTx.
  destruct (complete_body k r fn after t1 t2 d) as [[d' x]|] eqn:E; [|apply others_kept_refl].
  assert (others_kept (ItemID r) d d'); [|by destruct c, x; simpl; try apply others_kept_refl].
  apply complete_body_ok in E as (w & Hw & _ & _ & [(_ & -> & Hs)|(Hp & d1 & d2 & a & b & -> & H1 & H2 & H3)]).
  { by eapply plainGuardedWrite_others. }
  destruct (dom_steps_ok k _ _ K (Hfn _ _ _ H1) Hd) as [S1 R1]. destruct (S1 Hd) as (O1 & _ & _).
  assert (O2 : db_ok k d2).
  { eapply plainGuardedWrite_sound; [exact H2| |exact O1]. intros v Hok Gv Hv.
    rewrite (R1 _ _ Hw) in Hv. injection Hv as <-. split; [apply row_ok_done|apply evolves_done]; eauto with tf. }
  intros j v Hj Hv. apply (Haf _ _ _ _ H3); [done|]. eapply plainGuardedWrite_others; eauto.
Qed.

Lemma run_hop_others r h d : hop_ok k h -> db_ok k d -> others_kept (ItemID r) d (odb (run_hop k r h d)).
Proof.
  intros Hh Hd. pose proof (Validate_kind_ok k V) as K. destruct (one_statement h) eqn:H1.
  { destruct (hop_admissible k h) eqn:Ha.
    - rewrite run_hop_one_statement by done. pose proof (holder_effect_others r (plain_sets r h) (write_time h) d).
      by destruct (holder_effect _ _ _ _ _).
    - destruct h; try done; open_hop V; cbn in Ha; rewrite ?Ha; try apply others_kept_refl.
      apply negb_false_iff in Ha. rewrite Ha. apply others_kept_refl. }
  destruct h; try done; cbn [run_hop].
  - apply complete_others; [done..| |done]. intros [] d1 d2 [] [= <-]. split; [reflexivity|]. by intros _ i w.
  - unfold CompleteAndAdmit. case_bool_decide; [apply others_kept_refl|].
    apply complete_others; [done..| |done]. intros c d1 d2 b. by apply admit_successor_rows.
  - open_hop V. case_match; [apply others_kept_refl|]. destruct at_; [|apply others_kept_refl]. unfold inTx.
    destruct (defer_body _ _ _ _ _ _ _ _) as [[d' x]|] eqn:E; [|apply others_kept_refl].
    destruct commits; [|apply others_kept_refl].
    apply defer_body_ok in E as (w & _ & _ & _ & [(_ & -> & Hs)|(_ & -> & _ & Hs)]);
      by eapply plainGuardedWrite_others.
Qed.
End Hops.

(** * A concrete kind and a concrete history

    Two kinds and a short run of the package over them, used to instantiate
    the theorems: a job is admitted, claimed, its lease lapses, another worker
    reclaims it, and an operator requests its cancellation.  The application
    state is one integer. *)



Definition ex_policy : Policy :=
  {| MaxAttempts := 2; Lease := 60; RenewEvery := 0; UnitDeadline := 0;
     Backoff_ := {| Base := 10; Cap := 100; Jitter := f64_zero |}; Fairness := true |}.

Definition ex_kind : Kind :=
  {| Table := "jobs"; KDialect := Postgres; KPolicy := ex_policy; Unique := UniqueWhileUnsettled;
     KStrategy := SingleTx; Columns := ["note"]; Frozen := ["note"]; ClaimFilter := "" |}.

Definition replay_kind : Kind :=
  {| Table := "jobs"; KDialect := SQLite; KPolicy := ex_policy; Unique := UniqueForever;
     KStrategy := FencedReplay; Columns := []; Frozen := []; ClaimFilter := "" |}.

Definition no_filter : row -> tri := fun _ => Some true.
Definition alice : Owner := {| owner_ID := "alice"; owner_Epoch := 1 |}.
Definition bob : Owner := {| owner_ID := "bob"; owner_Epoch := 2 |}.

(** A round in which every statement reads instant [t]. *)
Definition at_time (t : Z) : round_env Z := RE (fun _ => t) (fun _ => false) true (fun d => d).

Definition sys_admission (k : Kind) (org key : string) (t : Z) (s : sys Z) : sys Z :=
  Sys (Admit k org key ∅ t true (s_db s)).1 t (s_issued s) (s_defers s) (s_redrives s) (s_renewed s).

Definition sys_claim (k : Kind) (o : Owner) (t : Z) (s : sys Z) : sys Z :=
  let x := claimRound no_filter k o "" 1 (at_time t) (s_db s) in
  Sys x.1 t (s_issued s ++ claimed_of x.2) (s_defers s) (s_redrives s) (s_renewed s).

Definition sys_cancel (k : Kind) (org : string) (i t : Z) (s : sys Z) : sys Z :=
  Sys (odb (RequestCancel k org i "ops" "stop" t (s_db s))) t (s_issued s) (s_defers s) (s_redrives s) (s_renewed s).

Definition ex0 : sys Z := Sys (Db ∅ 1 0) 0 [] [] [] [].
Definition ex1 (k : Kind) : sys Z := sys_admission k "acme" "k1" 1 ex0.
Definition ex2 (k : Kind) : sys Z := sys_claim k alice 10 (ex1 k).
Definition ex3 (k : Kind) : sys Z := sys_claim k bob 80 (ex2 k).
Definition ex4 (k : Kind) : sys Z := sys_cancel k "acme" 1 90 (ex3 k).

(** Bob renews at 100. *)
Definition sys_renew (k : Kind) (r : Receipt) (t : Z) (s : sys Z) : sys Z :=
  Sys (odb (run_hop k r (HRenew t) (s_db s))) t (s_issued s) (s_defers s) (s_redrives s) (s_renewed s ++ renewed_by k r (HRenew t) (s_db s)).

Definition receipt_at (n : nat) (s : sys Z) : Receipt :=
  nth n (s_issued s) (MkReceipt 0 "" 0 None 0 "" false "" ∅).

(** The receipts of the two claims, and the row as the run leaves it. *)
Definition r_alice (k : Kind) : Receipt := receipt_at 0 (ex3 k).
Definition r_bob (k : Kind) : Receipt := receipt_at 1 (ex3 k).
Definition ex5 (k : Kind) : sys Z := sys_renew k (r_bob k) 100 (ex3 k).
Definition r_renewed (k : Kind) : Receipt := nth 0 (s_renewed (ex5 k)) (r_alice k).
Definition row_at (s : sys Z) : row :=
  default (admitted_row ex_kind 0 "" "" ∅ 0) (tbl (s_db s) !! 1).

Lemma ex_kind_valid : Validate ex_kind = Ok tt.
Proof. by vm_compute. Qed.

Lemma replay_kind_valid : Validate replay_kind = Ok tt.
Proof. by vm_compute. Qed.

Lemma ex1_reachable k : reachable k (ex1 k).
Proof.
  exists ex0. split; [done|]. apply rtc_once, (st_admission k ex0). simpl; lia.
Qed.

Lemma ex1_ex3 k : rtc (step k) (ex1 k) (ex3 k).
Proof.
  eapply rtc_l. { apply (st_claim k (ex1 k) no_filter alice "" 1 (at_time 10) 10). intros i; simpl; lia. }
  apply rtc_once, (st_claim k (ex2 k) no_filter bob "" 1 (at_time 80) 80). intros i; simpl; lia.
Qed.

Lemma ex3_ex4 k : step k (ex3 k) (ex4 k).
Proof. apply (st_cancel k (ex3 k)). simpl. lia. Qed.

Lemma ex3_reachable k : reachable k (ex3 k).
Proof. destruct (ex1_reachable k) as (s0 & H0 & H). exists s0. split; [done|]. etrans; [exact H|apply ex1_ex3]. Qed.

Lemma ex4_reachable k : reachable k (ex4 k).
Proof.
  destruct (ex3_reachable k) as (s0 & H0 & H). exists s0. split; [done|]. etrans; [exact H|].
  apply rtc_once, ex3_ex4.
Qed.

(** The run computes: the lapsed lease is reclaimed under a new generation. *)
Lemma ex3_issued : s_issued (ex3 ex_kind) = [r_alice ex_kind; r_bob ex_kind].
Proof. by vm_compute. Qed.

Lemma ex5_reachable : reachable ex_kind (ex5 ex_kind).
Proof.
  destruct (ex3_reachable ex_kind) as (s0 & H0 & H). exists s0. split; [done|]. etrans; [exact H|]. apply rtc_once.
  apply (st_holder ex_kind (ex3 ex_kind) (r_bob ex_kind) (HRenew 100) 100); [|done|repeat constructor; simpl; lia].
  unfold s_receipts. rewrite ex3_issued. set_solver.
Qed.

Lemma ex5_receipts : r_bob ex_kind ∈ s_receipts (ex5 ex_kind) /\ r_renewed ex_kind ∈ s_receipts (ex5 ex_kind).
Proof.
  assert (s_receipts (ex5 ex_kind) = [r_alice ex_kind; r_bob ex_kind; r_renewed ex_kind]) as -> by (by vm_compute). set_solver.
Qed.

Lemma ex3_row : tbl (s_db (ex3 ex_kind)) !! 1 = Some (row_at (ex3 ex_kind)).
Proof. by vm_compute. Qed.

Lemma ex4_row : tbl (s_db (ex4 ex_kind)) !! 1 = Some (row_at (ex4 ex_kind)).
Proof. by vm_compute. Qed.
