(* ===== verification/WorkItemSpec.v ===== *)
(** * What the work item package guarantees

    The contract of internal/db/workitem, over any interleaving of its
    transactions: ownership and fencing, the life of a row, the attempt
    budget, atomic completion, and cancellation. *)

From Stdlib Require Import SpecFloat.
From S2P Require Import Prelude WorkItemKind WorkItemRow WorkItemStore WorkItemHolder WorkItemClaim WorkItemOperator WorkItemInv WorkItemSound WorkItemClaimInv WorkItemSystem WorkItemHops.

(** ** Fencing *)

(** Two receipts that agree on item and generation are one receipt. *)
Lemma issued_inj {D} k (s : sys D) r r' :
  inv k s -> r ∈ s_issued s -> r' ∈ s_issued s ->
  ItemID r = ItemID r' -> LeaseGeneration r = LeaseGeneration r' -> r = r'.
Proof.
  intros I Hr Hr' Hi Hg. apply list_elem_of_lookup in Hr as [a Ha], Hr' as [b Hb].
  assert (a = b) as ->; [|congruence].
  eapply (NoDup_lookup (map (fun r => (ItemID r, LeaseGeneration r)) (s_issued s)) a b
            (ItemID r, LeaseGeneration r)); [apply I|..].
  - by rewrite list_lookup_fmap, Ha.
  - by rewrite list_lookup_fmap, Hb, Hi, Hg.
Qed.

(** Receipts in circulation that agree on item and generation are of one
    acquisition: they differ at most in the expiry a renewal recorded. *)
Lemma receipts_inj {D} k (s : sys D) r r' :
  inv k s -> r ∈ s_receipts s -> r' ∈ s_receipts s ->
  ItemID r = ItemID r' -> LeaseGeneration r = LeaseGeneration r' -> forall e, with_expiry r e = with_expiry r' e.
Proof.
  intros I Hr Hr' Hi Hg e. destruct (receipt_issued k s r I Hr) as (a & Ha & Ea), (receipt_issued k s r' I Hr') as (b & Hb & Eb).
  rewrite Ea, Eb. f_equal. pose proof (Ea None) as Ia. pose proof (Eb None) as Ib. unfold with_expiry in Ia, Ib. simplify_eq.
  apply (issued_inj k s); [done..| |]; congruence.
Qed.

Lemma receipt_backed {D} k (s : sys D) r : inv k s -> r ∈ s_receipts s -> backed (s_db s) r.
Proof.
  intros I Hr. destruct (receipt_issued k s r I Hr) as (a & Ha & Ea). pose proof (Ea None) as E. unfold with_expiry in E.
  pose proof (i_issued _ _ I) as Hb. rewrite Forall_forall in Hb. specialize (Hb a Ha). unfold backed in *.
  injection E as E1 E2 E3 _ _ _ _ _. by rewrite E1, E2, E3.
Qed.

(** C1: Fencing.  Once a later claim of the same item has issued a receipt,
    every operation of the superseded holder, at any later time and whatever
    closure it carries, answers [ErrLeaseLost], reports the lost lease, and
    leaves the database exactly as it was. *)
Theorem superseded_holder_is_fenced {D} (k : Kind) (s : sys D) (r r' : Receipt) (h : hop D) :
  Validate k = Ok tt -> reachable k s -> r ∈ s_receipts s -> r' ∈ s_receipts s ->
  ItemID r = ItemID r' -> LeaseGeneration r < LeaseGeneration r' -> hop_admissible k h = true ->
  run_hop k r h (s_db s) = Out (s_db s) (Err ErrLeaseLost) [OLeaseLost (OrgID r) (hop_op h)].
Proof.
  intros V R Hr Hr' Hi Hg Ha. pose proof (Validate_kind_ok k V) as K.
  pose proof (reachable_inv k s K R) as I. apply run_hop_unowned; [done..|apply I|].
  destruct (receipt_backed k s r' I Hr') as (_ & _ & Hb).
  unfold owns. rewrite Hi. destruct (tbl (s_db s) !! ItemID r') as [w|]; [|done]. destruct (guardSQL _ _ w) eqn:G; [|done].
  apply guardSQL_true in G as (_ & _ & _ & Hgen & _). destruct (Hb w eq_refl). lia.
Qed.

Lemma superseded_holder_is_fenced_witness :
  run_hop ex_kind (r_alice ex_kind) (HPark "gave up" 81) (s_db (ex3 ex_kind)) =
  Out (s_db (ex3 ex_kind)) (Err ErrLeaseLost) [OLeaseLost "acme" OpPark].
Proof.
  apply (superseded_holder_is_fenced ex_kind (ex3 ex_kind) (r_alice ex_kind) (r_bob ex_kind) (HPark "gave up" 81)).
  - apply ex_kind_valid.
  - apply ex3_reachable.
  - unfold s_receipts. rewrite ex3_issued. set_solver.
  - unfold s_receipts. rewrite ex3_issued. set_solver.
  - by vm_compute.
  - by vm_compute.
  - by vm_compute.
Defined.

(** C9: Ownership is exclusive. At no point of any run over the table of a
    valid kind do receipts of two different acquisitions of one item own its
    row, whatever instants their guards read: two receipts that own it, from
    its claim or from any renewal, are the same but for the expiry they
    record. *)
Theorem one_owner {D} (k : Kind) (s : sys D) (r r' : Receipt) (t t' : Z) :
  Validate k = Ok tt -> reachable k s -> r ∈ s_receipts s -> r' ∈ s_receipts s ->
  ItemID r = ItemID r' -> owns r t (s_db s) = true -> owns r' t' (s_db s) = true ->
  forall e, with_expiry r e = with_expiry r' e.
Proof.
  intros V R Hr Hr' Hi Ho Ho'. pose proof (reachable_inv k s (Validate_kind_ok k V) R) as I.
  apply (receipts_inj k s); try done. unfold owns in *. rewrite <- Hi in Ho'.
  destruct (tbl (s_db s) !! ItemID r) as [w|]; [|done].
  apply guardSQL_true in Ho as (_ & _ & _ & Hg & _), Ho' as (_ & _ & _ & Hg' & _). congruence.
Qed.

(** Bob's receipt and the one his renewal at 100 answered with. *)
Lemma one_owner_witness :
  owns (r_bob ex_kind) 120 (s_db (ex5 ex_kind)) = true /\ owns (r_renewed ex_kind) 120 (s_db (ex5 ex_kind)) = true
  /\ LeaseExpiresAt (r_bob ex_kind) = Some 140 /\ LeaseExpiresAt (r_renewed ex_kind) = Some 160
  /\ with_expiry (r_bob ex_kind) None = with_expiry (r_renewed ex_kind) None.
Proof.
  do 4 (split; [by vm_compute|]).
  apply (one_owner ex_kind (ex5 ex_kind) (r_bob ex_kind) (r_renewed ex_kind) 120 120);
    [apply ex_kind_valid|apply ex5_reachable|apply ex5_receipts|apply ex5_receipts|by vm_compute..].
Defined.

(** A lease that lapses at any of an operation's ownership tests takes the
    whole operation with it: nothing is written, the closure's own writes
    included, and the operation does not answer success. *)
Theorem lapsed_operation_writes_nothing {D} (k : Kind) (r : Receipt) (h : hop D) (d : db D) (t : Z) :
  Validate k = Ok tt -> db_ok k d -> hop_ok k h -> t ∈ guard_times h -> owns r t d = false ->
  odb (run_hop k r h d) = d /\ is_ok (ores (run_hop k r h d)) = false.
Proof. intros V Hd Hh Ht Ho. by apply (run_hop_lapsed k V r h d t). Qed.

(** A completion that outlives its lease: locked at 100, written at 150. *)
Definition late_completion : hop Z :=
  HComplete (fun d => Ok (Db (tbl d) (next_id d) (app d + 7))) 100 150 true.

Lemma late_completion_ok k : hop_ok k late_completion.
Proof. intros d d' c (d1 & [= <-] & [= <- <-])%res_bind_ok. apply rtc_once. constructor. Qed.

Lemma lapsed_operation_writes_nothing_witness :
  owns (r_bob ex_kind) 100 (s_db (ex3 ex_kind)) = true /\
  app (odb (run_hop ex_kind (r_bob ex_kind) late_completion (s_db (ex3 ex_kind)))) = 0.
Proof.
  split; [by vm_compute|].
  destruct (lapsed_operation_writes_nothing ex_kind (r_bob ex_kind) late_completion (s_db (ex3 ex_kind)) 150)
    as [E _].
  - apply ex_kind_valid.
  - apply reachable_ok; [apply Validate_kind_ok, ex_kind_valid|apply ex3_reachable].
  - apply late_completion_ok.
  - simpl. set_solver.
  - by vm_compute.
  - rewrite E. by vm_compute.
Defined.

(** ** A live lease *)

(** A pick never selects an unexpired lease. *)
Lemma live_not_picked {D} cf k org limit (e : round_env D) d w x :
  status w = StatusLeased -> lease_expires_at w = Some x -> re_times e 0%nat < x ->
  w ∉ round_rows cf k org limit e d.
Proof.
  intros Hs He Ht Hin%subseteq_take%elem_of_pick_rows. destruct Hin as (_ & Hc & _).
  by rewrite (claim_where_unexpired cf k _ w x) in Hc.
Qed.

Lemma claim_keeps_live {D} cf k owner org limit (e : round_env D) d i w x :
  db_ok k d -> tbl d !! i = Some w -> status w = StatusLeased -> lease_expires_at w = Some x ->
  re_times e 0%nat < x -> tbl (claimRound cf k owner org limit e d).1 !! i = Some w.
Proof.
  intros Hd Hw Hs He Ht. destruct (re_commits e) eqn:Hc.
  2: { by destruct (claimRound_fail cf k owner org limit e d Hc) as [y ->]. }
  destruct (claimRound_spec cf k owner org limit e d Hd Hc) as (c & b & -> & _). simpl.
  destruct (round_rows_facts cf k org limit e d Hd) as (_ & _ & Hin).
  rewrite lookup_batch_tbl_other; [done|]. intros (v & Hv & Hvin)%list_elem_of_fmap.
  pose proof (Hin v Hvin) as Hv'. rewrite <- Hv in Hv'. assert (v = w) as -> by congruence.
  by apply (live_not_picked cf k org limit e d w x) in Hvin.
Qed.

(** A control over a parked row never touches a leased one. *)
Lemma operatorWrite_leased {D} org i p sets now (d : db D) o j w :
  tbl d !! j = Some w -> status w = StatusLeased -> tbl (odb (operatorWrite org i p sets now d o)) !! j = Some w.
Proof.
  intros Hw Hs. unfold operatorWrite. destruct (update_row _ _ _ _ _) as [[w' t']|] eqn:U; [|done]. simpl.
  apply update_row_Some in U as (v & Hv & Hp & -> & ->). rewrite lookup_insert_ne; [done|]. intros ->.
  assert (v = w) as -> by congruence. cbv beta in Hp. bool_hyps. congruence.
Qed.

(** A live lease belongs to its holder.  While a leased row's expiry lies
    ahead, one step of the system changes it in only two ways: its own holder
    acts on it with the receipt of the current generation, or a cancellation
    request is recorded on it; the adopting store may write its own columns.  No claim, admission, redrive, supersession or
    other worker's operation touches it. *)
Theorem live_lease_is_exclusive {D} (k : Kind) (s s' : sys D) (i : Z) (w : row) (x : Z) :
  Validate k = Ok tt -> reachable k s -> step k s s' ->
  tbl (s_db s) !! i = Some w -> status w = StatusLeased -> lease_expires_at w = Some x -> s_now s' < x ->
  (exists p, tbl (s_db s') !! i = Some (with_payload p w)) \/
  (exists b reason t, tbl (s_db s') !! i = Some (apply_sets (request_cancel_sets k b reason) t w)) \/
  (exists r h, r ∈ s_receipts s /\ ItemID r = i /\ LeaseGeneration r = lease_generation w /\
               s_db s' = odb (run_hop k r h (s_db s))).
Proof.
  intros V R St Hw Hs He Hx. pose proof (Validate_kind_ok k V) as K. pose proof (reachable_ok k s K R) as Hd.
  destruct St as [s a n' Hn|s org key cols t c Hn|s cf owner org limit e n' Hn|s r h n' Hr Hh Ht
                 |s org j b re t Hn|s org j b t Hn|s org j b l t Hn|s b n' Hn|s j p n' Hn]; cbn [s_db s_now] in *;
    repeat match goal with o := _ |- _ => subst o end.
  all: assert (Kp : forall t : gmap Z row, t !! i = Some w -> exists p, t !! i = Some (with_payload p w))
         by (intros t0 E0; exists (payload w); by rewrite with_own_payload).
  - left. by apply Kp.
  - left. apply Kp. unfold Admit. rewrite V. repeat (case_match; [done|]). unfold inTx.
    destruct (kind_admit _ _ _ _ _ _) as [[d' y]|] eqn:E; [|done]. destruct c; [|done].
    by apply (dom_step_ok k _ d' K (ds_admission _ _ _ _ _ _ _ _ E)).
  - left. apply Kp. eapply claim_keeps_live; try done. pose proof (Hn 0%nat). lia.
  - destruct (decide (ItemID r = i)) as [<-|Hne].
    + destruct (decide (LeaseGeneration r = lease_generation w)); [right; right; by exists r, h|].
      left. apply Kp. destruct (run_hop_lapsed k V r h (s_db s) (write_time h)) as [-> _]; try done.
      * destruct h; set_solver.
      * unfold owns. rewrite Hw. destruct (guardSQL _ _ _) eqn:G; [|done].
        apply guardSQL_true in G as (_ & _ & _ & ? & _). congruence.
    + left. apply Kp. by apply run_hop_others.
  - unfold RequestCancel. rewrite V. case_match; [left; by apply Kp|].
    destruct (update_row _ _ _ _ _) as [[w' t']|] eqn:U; [|left; by apply Kp].
    apply update_row_Some in U as (v & Hv & _ & -> & ->). simpl.
    destruct (decide (j = i)) as [->|Hne]; [|left; apply Kp; by rewrite lookup_insert_ne].
    right; left. rewrite lookup_insert_eq. assert (v = w) as -> by congruence. eauto.
  - left. apply Kp. unfold Redrive. rewrite V. case_match; [done|]. by apply operatorWrite_leased.
  - left. apply Kp. unfold Supersede. rewrite V. repeat (case_match; [done|]). by apply operatorWrite_leased.
  - left. apply Kp, lookup_prune. split; [done|]. unfold pruned, settled. by rewrite Hs.
  - left. rewrite lookup_columns, Hw. case_decide; [by exists p|exists (payload w); by rewrite with_own_payload].
Qed.

(** Bob's lease, claimed at 80, outlives the cancellation request at 90. *)
Lemma live_lease_is_exclusive_witness :
  status (row_at (ex3 ex_kind)) = StatusLeased /\
  ((exists p, tbl (s_db (ex4 ex_kind)) !! 1 = Some (with_payload p (row_at (ex3 ex_kind)))) \/
   (exists b reason t, tbl (s_db (ex4 ex_kind)) !! 1 =
      Some (apply_sets (request_cancel_sets ex_kind b reason) t (row_at (ex3 ex_kind)))) \/
   (exists r h, r ∈ s_receipts (ex3 ex_kind) /\ ItemID r = 1 /\
      LeaseGeneration r = lease_generation (row_at (ex3 ex_kind)) /\
      s_db (ex4 ex_kind) = odb (run_hop ex_kind r h (s_db (ex3 ex_kind))))).
Proof.
  split; [by vm_compute|].
  apply (live_lease_is_exclusive ex_kind (ex3 ex_kind) (ex4 ex_kind) 1 (row_at (ex3 ex_kind)) 140).
  - apply ex_kind_valid.
  - apply ex3_reachable.
  - apply ex3_ex4.
  - apply ex3_row.
  - by vm_compute.
  - by vm_compute.
  - by vm_compute.
Defined.

(** ** The life of a row *)

(** C13: Every reachable table is well formed.  Rows sit under their id below
    the sequence; the lease columns are set together and exactly while leased;
    [done_at] is stamped exactly when the row is out of circulation; the
    attempt counter stays within its budget; no done or parked row carries a
    cancellation request; and no two indexed rows share an organization and
    key. *)
Theorem reachable_table_well_formed {D} (k : Kind) (s : sys D) :
  Validate k = Ok tt -> reachable k s -> table_ok k (tbl (s_db s)) (next_id (s_db s)).
Proof. intros V R. apply reachable_ok; [by apply Validate_kind_ok|done]. Qed.

Lemma reachable_table_well_formed_witness :
  table_ok ex_kind (tbl (s_db (ex4 ex_kind))) (next_id (s_db (ex4 ex_kind))).
Proof.
  apply (reachable_table_well_formed ex_kind (ex4 ex_kind)); [apply ex_kind_valid|apply ex4_reachable].
Defined.

(** C34: History only moves forward. Over any run, on the table of a valid
    kind, of the package's operations and of the adopting stores' prunes and
    column writes, a row that is gone was done or cancelled; of a row that is
    there, identity, organization, key and budget never change, the generation
    never goes back, a done or cancelled row's block columns never change
    again, and a cancellation request, once recorded, is never lost: the block
    stays as it is or becomes cancelled. *)
Theorem rows_only_move_forward {D} (k : Kind) (s s' : sys D) (i : Z) (w : row) :
  Validate k = Ok tt -> reachable k s -> rtc (step k) s s' -> tbl (s_db s) !! i = Some w ->
  exists w', (tbl (s_db s') !! i = Some w' \/ (tbl (s_db s') !! i = None /\ (status w' = StatusDone \/ status w' = StatusCancelled)))
    /\ id w' = id w /\ org_id w' = org_id w /\ unique_key w' = unique_key w /\ max_attempts w' = max_attempts w
    /\ first_enqueued_at w' = first_enqueued_at w /\ lease_generation w <= lease_generation w'
    /\ (status w = StatusDone \/ status w = StatusCancelled -> forall c, get c w' = get c w)
    /\ (cancel_pending w = true ->
        (forall c, get c w' = get c w) \/ (status w' = StatusCancelled /\ cancel_requested_at w' = cancel_requested_at w)).
Proof.
  intros V R H Hw. pose proof (Validate_kind_ok k V) as K.
  destruct (steps_row k s s' i w K H (reachable_ok k s K R) Hw) as (w' & A & F). exists w'.
  assert (forall x y c, bare x = bare y -> get c x = get c y) as Hb
    by (intros x y c E; pose proof (f_equal (get c) E) as E'; unfold bare, with_payload in E'; by rewrite !get_mk_row in E').
  split; [destruct F as [F|[F Hs]]; [by left|right; split; [done|]]; unfold settled in Hs; destruct (status w'); naive_solver|].
  split_and!; try apply A.
  - intros Hs c. apply Hb, (ev_settled _ _ A). unfold settled. simpl. by destruct Hs as [->| ->].
  - intros Hc. destruct (ev_cancel _ _ A Hc) as [E|E]; [left; intros c; by apply Hb|by right].
Qed.

Lemma rows_only_move_forward_witness :
  exists w', (tbl (s_db (ex3 ex_kind)) !! 1 = Some w' \/ (tbl (s_db (ex3 ex_kind)) !! 1 = None /\ (status w' = StatusDone \/ status w' = StatusCancelled)))
    /\ id w' = 1 /\ lease_generation (row_at (ex1 ex_kind)) <= lease_generation w'.
Proof.
  destruct (rows_only_move_forward ex_kind (ex1 ex_kind) (ex3 ex_kind) 1 (row_at (ex1 ex_kind))) as (w' & H1 & H2 & _ & _ & _ & _ & H3 & _);
    [apply ex_kind_valid|apply ex1_reachable|apply ex1_ex3|by vm_compute|].
  exists w'. by split_and!.
Defined.

(** The attempt budget is real.  Over a whole run an item is handed out at
    most [max_attempts] times per redrive cycle, plus once for every deferral
    that refunded its attempt; crashes, lapsed leases and reclaims buy
    nothing. *)
Theorem acquisitions_within_budget {D} (k : Kind) (s : sys D) (i : Z) (w : row) :
  Validate k = Ok tt -> reachable k s -> tbl (s_db s) !! i = Some w ->
  Z.of_nat (acquisitions s i) <=
  max_attempts w * (1 + Z.of_nat (occurs i (s_redrives s))) + Z.of_nat (occurs i (s_defers s)).
Proof.
  intros V R Hw. pose proof (reachable_inv k s (Validate_kind_ok k V) R) as I.
  pose proof (i_budget _ _ I i w Hw). pose proof (to_rows _ _ _ (i_db _ _ I) _ _ Hw) as []. lia.
Qed.

(** Two claims, a budget of two: the bound is reached. *)
Lemma acquisitions_within_budget_witness :
  acquisitions (ex3 ex_kind) 1 = 2%nat /\
  Z.of_nat (acquisitions (ex3 ex_kind) 1) <=
  max_attempts (row_at (ex3 ex_kind)) * (1 + Z.of_nat (occurs 1 (s_redrives (ex3 ex_kind)))) +
  Z.of_nat (occurs 1 (s_defers (ex3 ex_kind))).
Proof.
  split; [by vm_compute|].
  apply (acquisitions_within_budget ex_kind (ex3 ex_kind) 1); [apply ex_kind_valid|apply ex3_reachable|apply ex3_row].
Defined.

(** ** Completion and cancellation *)

(** C30: Completion is all or nothing.  It answers success only when the
    closure's database, with the item's row flipped to done, is the new
    database; it answers [ErrCancelled] only when the pending request was
    settled and the closure did not run; and under every other answer the
    database is exactly as before, the closure's writes included. *)
Theorem completion_is_atomic {D} (k : Kind) (r : Receipt) (fn : db D -> res err (db D)) (t1 t2 : Z) (commits : bool) (d : db D) :
  let o := Complete k r (Some fn) t1 t2 commits d in
  match ores o with
  | Ok _ => exists w d1 w1, tbl d !! ItemID r = Some w /\ cancel_pending w = false /\ fn d = Ok d1 /\
              tbl d1 !! ItemID r = Some w1 /\ guardSQL r t2 w1 = true /\
              odb o = with_tbl d1 (<[ItemID r := apply_sets (terminalDone k) t2 w1]> (tbl d1)) /\
              oobs o = [OCompleted (OrgID r)]
  | Err ErrCancelled => exists w, tbl d !! ItemID r = Some w /\ cancel_pending w = true /\ guardSQL r t2 w = true /\
              odb o = with_tbl d (<[ItemID r := apply_sets (cancelSettlement k) t2 w]> (tbl d)) /\
              oobs o = [OCancelled (OrgID r)]
  | Err _ => odb o = d
  end.
Proof.
  cbv zeta. unfold Complete, complete. destruct (Validate k); [|done].
  destruct (negb _); [done|]. cbn [fmap option_fmap option_map]. unfold inTx.
  destruct (complete_body _ _ _ _ _ _ _) as [[d' x]|e] eqn:E; [|simpl; destruct e; try done].
  - apply complete_body_ok in E as (w & Hw & _ & _ & [(Hp & -> & Hs)|(Hp & d1 & d2 & c & b & -> & H1 & H2 & H3)]).
    + apply plainGuardedWrite_inv in Hs as (v & Hv & G & ->). assert (v = w) as -> by congruence.
      destruct commits; simpl; [|done]. by exists w.
    + apply plainGuardedWrite_inv in H2 as (v & Hv & G & ->). injection H3 as <-.
      apply res_bind_ok in H1 as (d3 & H1 & [= <- <-]). destruct commits; simpl; [|done]. by exists w, d3, v.
  - exfalso. unfold complete_body in E. destruct (lockAndVerify r t1 d) as [c|e] eqn:L; simpl in E.
    2: { apply lockAndVerify_err in L as ->. done. }
    unfold settleUnderGuard, flipDone, plainGuardedWrite in E. destruct c; simpl in E.
    + by destruct (update_row _ _ _ _ _) as [[? ?]|].
    + destruct (fn d); simpl in E; [|done]. by destruct (update_row _ _ _ _ _) as [[? ?]|].
Qed.

(** A live holder's completion goes through.  When the lease holds at the
    lock and at the write, no cancellation is pending, the closure succeeds
    and the transaction commits, the answer is success and the item's row is
    done in the database the closure left. *)
Theorem live_completion_succeeds {D} (k : Kind) (r : Receipt) (fn : db D -> res err (db D)) (t1 t2 : Z) (d d1 : db D) (w : row) :
  Validate k = Ok tt -> KStrategy k = SingleTx -> db_ok k d ->
  hop_ok k (HComplete fn t1 t2 true) -> tbl d !! ItemID r = Some w -> cancel_pending w = false ->
  owns r t1 d = true -> owns r t2 d = true -> fn d = Ok d1 ->
  Complete k r (Some fn) t1 t2 true d =
  Out (with_tbl d1 (<[ItemID r := apply_sets (terminalDone k) t2 w]> (tbl d1))) (Ok tt) [OCompleted (OrgID r)].
Proof.
  intros V Hs Hd Hh Hw Hp H1 H2 Hf. pose proof (Validate_kind_ok k V) as K.
  assert (Hfn : (let? d' := fn d in Ok (d', tt)) = Ok (d1, tt)) by (by rewrite Hf).
  destruct (dom_steps_ok k d d1 K (Hh _ _ _ Hfn) Hd) as [_ Hk].
  unfold Complete, complete. rewrite V, Hs. cbn [fmap option_fmap option_map bool_decide negb decide].
  rewrite bool_decide_true by done. cbn [negb]. unfold inTx, complete_body.
  rewrite lockAndVerify_owns, H1, Hw, Hp by (intros v Hv; by apply Hd). cbn. rewrite Hf. cbn.
  unfold flipDone. rewrite plainGuardedWrite_owns. unfold owns in *. rewrite (Hk _ _ Hw). rewrite Hw in H2. by rewrite H2.
Qed.

Definition add_seven (d : db Z) : res err (db Z) := Ok (Db (tbl d) (next_id d) (app d + 7)).

Lemma add_seven_ok k t1 t2 c : hop_ok k (HComplete add_seven t1 t2 c).
Proof. intros d d' x (d1 & [= <-] & [= <- <-])%res_bind_ok. apply rtc_once. constructor. Qed.

Lemma live_completion_succeeds_witness :
  app (odb (Complete ex_kind (r_bob ex_kind) (Some add_seven) 100 110 true (s_db (ex3 ex_kind)))) = 7.
Proof.
  rewrite (live_completion_succeeds ex_kind (r_bob ex_kind) add_seven 100 110 (s_db (ex3 ex_kind))
             (Db (tbl (s_db (ex3 ex_kind))) 2 7) (row_at (ex3 ex_kind))).
  - done.
  - apply ex_kind_valid.
  - done.
  - apply reachable_ok; [apply Validate_kind_ok, ex_kind_valid|apply ex3_reachable].
  - apply add_seven_ok.
  - by vm_compute.
  - by vm_compute.
  - by vm_compute.
  - by vm_compute.
  - by vm_compute.
Defined.

(** Cancellation wins.  Whatever the owner of a row with a pending
    request does (complete, complete and re-admit, mark done, requeue, park,
    defer or renew, with any closure or predicate), the row is settled as
    cancelled, nothing else in the database changes, and the answer is
    [ErrCancelled]. *)
Theorem pending_cancellation_wins {D} (k : Kind) (r : Receipt) (h : hop D) (d : db D) (w : row) :
  Validate k = Ok tt -> db_ok k d -> hop_admissible k h = true -> hop_commits h = true ->
  tbl d !! ItemID r = Some w -> cancel_pending w = true ->
  (forall t, t ∈ guard_times h -> owns r t d = true) ->
  run_hop k r h d =
  Out (with_tbl d (<[ItemID r := apply_sets (cancelSettlement k) (write_time h) w]> (tbl d)))
      (Err ErrCancelled) [OCancelled (OrgID r)].
Proof. intros V Hd Ha Hc Hw Hp Ho. apply run_hop_cancelled; try done. apply Hd. Qed.

Lemma pending_cancellation_wins_witness :
  cancel_pending (row_at (ex4 ex_kind)) = true /\
  run_hop ex_kind (r_bob ex_kind) (HComplete add_seven 100 110 true) (s_db (ex4 ex_kind)) =
  Out (with_tbl (s_db (ex4 ex_kind))
         (<[1 := apply_sets (cancelSettlement ex_kind) 110 (row_at (ex4 ex_kind))]> (tbl (s_db (ex4 ex_kind)))))
      (Err ErrCancelled) [OCancelled "acme"].
Proof.
  split; [by vm_compute|].
  apply (pending_cancellation_wins ex_kind (r_bob ex_kind) (HComplete add_seven 100 110 true)
           (s_db (ex4 ex_kind)) (row_at (ex4 ex_kind))).
  - apply ex_kind_valid.
  - apply reachable_ok; [apply Validate_kind_ok, ex_kind_valid|apply ex4_reachable].
  - done.
  - done.
  - by vm_compute.
  - by vm_compute.
  - intros t Ht. apply elem_of_cons in Ht as [->|Ht]; [by vm_compute|].
    apply list_elem_of_singleton in Ht as ->. by vm_compute.
Defined.

(** The single merged statement means what its two branches mean.  The
    [UPDATE] the builder assembles for mark-done, requeue, park and renew,
    with its per-column [CASE] and its shortcut for identical constants, acts
    exactly like reading the row, checking ownership, and applying either the
    settlement or the operation's own disposition; the builder's
    duplicate-column panic is never reached. *)
Theorem merged_statement_is_two_branches {D} (k : Kind) (r : Receipt) (h : hop D) (d : db D) (now : Z) :
  holderWriteReturningStatus k r (plain_sets k r h) now d = holder_effect k r (plain_sets k r h) now d.
Proof. apply holderWriteReturningStatus_effect, _. Qed.

(** ** Successors *)

(** After the item's row is flipped to done, its key is free: the only row the
    index held under it was the item itself. *)
Lemma key_free_after_done {D} k r (d : db D) w t key :
  db_ok k d -> Unique k <> UniqueForever -> tbl d !! ItemID r = Some w -> status w = StatusLeased ->
  key = default ""%string (unique_key w) ->
  conflicts k (<[ItemID r := apply_sets (terminalDone k) t w]> (tbl d)) (org_id w) key = [].
Proof.
  intros Hd Hu Hw Hs Hkey. destruct (conflicts _ _ _ _) as [|v vs] eqn:E; [done|]. exfalso.
  assert (Hv : v ∈ conflicts k (<[ItemID r := apply_sets (terminalDone k) t w]> (tbl d)) (org_id w) key)
    by (rewrite E; left).
  apply elem_of_conflicts in Hv as ([j Hj] & Hx & Ho & Hvk).
  apply lookup_insert_Some in Hj as [[<- <-]|[Hne Hj]].
  - unfold indexed in Hx. cbn in Hx. by destruct (Unique k), (unique_key w).
  - destruct (unique_key w) as [q|] eqn:Hq; simpl in Hkey; subst key.
    + apply Hne. eapply (to_unique _ _ _ Hd (ItemID r) j w v q); try done.
      unfold indexed in *. rewrite Hq, Hs. rewrite Hvk in Hx. by destruct (Unique k).
    + by apply (ro_key v); [eapply to_rows; eauto|].
Qed.

(** The same, for the flip inside a completion whose closure ran first. *)
Lemma flip_frees_key {D} k r (d d1 d2 : db D) w t :
  kind_ok k -> db_ok k d -> Unique k <> UniqueForever -> tbl d !! ItemID r = Some w ->
  UniqueKey r = default ""%string (unique_key w) -> rtc (dom_step k) d d1 -> flipDone k r t d1 = Ok d2 ->
  conflicts k (tbl d2) (OrgID r) (UniqueKey r) = [] /\
  d2 = with_tbl d1 (<[ItemID r := apply_sets (terminalDone k) t w]> (tbl d1)) /\ db_ok k d1 /\ rows_kept d d1.
Proof.
  intros K Hd Hu Hw Hkey H1 H2. destruct (dom_steps_ok k d d1 K H1 Hd) as [S1 Hk]. destruct (S1 Hd) as (O1 & _).
  apply plainGuardedWrite_inv in H2 as (v & Hv & (_ & Ho & Hs & _)%guardSQL_true & ->).
  rewrite (Hk _ _ Hw) in Hv. injection Hv as <-. split_and!; try done. rewrite <- Ho. cbn [tbl with_tbl].
  apply key_free_after_done; try done. by apply Hk.
Qed.

Lemma check_declared_err k names e : check_declared k names = Err e -> exists c, e = EUndeclared c.
Proof. induction names as [|n ns IH]; simpl; [done|]. case_match; [|done]. intros [= <-]. eauto. Qed.

(** A completion never fails with a deduplicated successor. *)
Lemma complete_body_no_dedup {D} k r (fn : db D -> res err (db D * option (gmap string sqlval))) t1 t2 t3 d w i :
  kind_ok k -> db_ok k d -> Unique k <> UniqueForever -> closure_ok k fn -> tbl d !! ItemID r = Some w ->
  UniqueKey r = default ""%string (unique_key w) ->
  complete_body k r fn (admit_successor k r t3) t1 t2 d <> Err (ESuccessorDeduplicated i).
Proof.
  intros K Hd Hu Hh Hw Hkey E. unfold complete_body in E.
  destruct (lockAndVerify r t1 d) as [c|] eqn:L; [|apply lockAndVerify_err in L as ->; done]. cbn in E.
  destruct c; [unfold settleUnderGuard, plainGuardedWrite in E; by destruct (update_row _ _ _ _ _) as [[? ?]|]|].
  destruct (fn d) as [[d1 c]|] eqn:Hf; [|done]. cbn in E.
  destruct (flipDone k r t2 d1) as [d2|] eqn:H2;
    [|unfold flipDone, plainGuardedWrite in H2; destruct (update_row _ _ _ _ _) as [[? ?]|]; by simplify_eq/=].
  cbn in E. destruct c as [cols|]; [|done].
  destruct (flip_frees_key k r d d1 d2 w t2 K Hd Hu Hw Hkey (Hh _ _ _ Hf) H2) as (Hc & _).
  cbn in E. unfold kind_admit in E. rewrite Hc in E.
  destruct (check_declared _ _) eqn:Hcd; cbn in E; [done|]. by apply check_declared_err in Hcd as [c ->].
Qed.

(** A completed item's successor is always admitted.  The receipt's own
    key is released by the completion inside the same transaction, so the
    successor is never folded into another row: the operation never fails
    with a deduplicated successor, and when it succeeds with one, that row is
    fresh, ready and holds the key, beside the finished item. *)
Theorem successor_is_never_deduplicated {D} (k : Kind) (r : Receipt) (fn : db D -> res err (db D * option (gmap string sqlval)))
    (t1 t2 t3 : Z) (commits : bool) (d : db D) (w : row) :
  Validate k = Ok tt -> db_ok k d -> hop_ok k (HCompleteAndAdmit fn t1 t2 t3 commits) ->
  tbl d !! ItemID r = Some w -> UniqueKey r = default ""%string (unique_key w) ->
  let o := CompleteAndAdmit k r (Some fn) t1 t2 t3 commits d in
  match ores o with
  | Ok j => (exists d1, fn d = Ok (d1, None) /\ j = 0) \/
            (j <> ItemID r /\ tbl d !! j = None /\
             (exists d1 cols, fn d = Ok (d1, Some cols) /\
                tbl (odb o) !! j = Some (admitted_row k j (OrgID r) (UniqueKey r) cols t3)) /\
             exists w', tbl (odb o) !! ItemID r = Some w' /\ status w' = StatusDone)
  | Err (ESuccessorDeduplicated _) => False
  | Err _ => True
  end.
Proof.
  cbv zeta. intros V Hd Hh Hw Hkey. pose proof (Validate_kind_ok k V) as K.
  unfold CompleteAndAdmit. case_bool_decide as Hu; [done|]. unfold complete. rewrite V.
  destruct (negb _); [done|]. unfold inTx.
  destruct (complete_body _ _ _ _ _ _ _) as [[d' x]|e] eqn:E.
  2: { destruct e; try done. by eapply complete_body_no_dedup. }
  apply complete_body_ok in E as (v & Hv & _ & _ & [(Hp & -> & Hs)|(Hp & d1 & d2 & c & j & -> & H1 & H2 & H3)]);
    [by destruct commits|]. destruct commits; [|done]. cbn [ores odb].
  destruct c as [cols|]; [|injection H3 as <- <-; left; by exists d1]. right.
  destruct (flip_frees_key k r d d1 d2 w t2 K Hd Hu Hw Hkey (Hh _ _ _ H1) H2) as (Hc & -> & O1 & Hk).
  apply res_bind_ok in H3 as ([d3 [i []]] & H3 & H4); [done|]. injection H4 as -> ->.
  apply kind_admit_insert in H3 as (-> & _ & ->). cbn [tbl next_id with_tbl].
  assert (Hlt : ItemID r < next_id d1) by (eapply (to_keyed _ _ _ O1), Hk, Hw).
  split_and!.
  - lia.
  - destruct (tbl d !! next_id d1) eqn:Hn; [|done]. apply Hk, (to_keyed _ _ _ O1) in Hn. lia.
  - exists d1, cols. by rewrite lookup_insert_eq.
  - eexists. rewrite lookup_insert_ne by lia. rewrite lookup_insert_eq. done.
Qed.

(** Owe the same key again. *)
Definition owe_again (d : db Z) : res err (db Z * option (gmap string sqlval)) := Ok (d, Some ∅).

Lemma successor_is_never_deduplicated_witness :
  ores (CompleteAndAdmit ex_kind (r_bob ex_kind) (Some owe_again) 100 110 120 true (s_db (ex3 ex_kind))) = Ok 2 /\
  tbl (s_db (ex3 ex_kind)) !! 2 = None.
Proof.
  pose proof (successor_is_never_deduplicated ex_kind (r_bob ex_kind) owe_again 100 110 120 true
                (s_db (ex3 ex_kind)) (row_at (ex3 ex_kind)) ex_kind_valid) as H.
  assert (E : ores (CompleteAndAdmit ex_kind (r_bob ex_kind) (Some owe_again) 100 110 120 true (s_db (ex3 ex_kind))) = Ok 2)
    by (by vm_compute).
  split; [exact E|]. cbv zeta in H. rewrite E in H. destruct H as [(d1 & _ & H)|(_ & H & _)].
  - apply reachable_ok; [apply Validate_kind_ok, ex_kind_valid|apply ex3_reachable].
  - intros d d' c [= <- <-]. constructor.
  - by vm_compute.
  - by vm_compute.
  - done.
  - exact H.
Defined.
