(* ===== verification/WorkItemQueueSpec.v ===== *)
(** * Claiming, retrying, admitting and measuring work

    The functional contract of the queue side of internal/db/workitem: what a
    claim round does to every row, that a claim fills its order or drains the
    queue, what requeue, defer and the operator controls leave behind, that
    admission deduplicates by key alike on both dialects, and that the
    measurements and listings partition the rows they describe. *)

From Stdlib Require Import SpecFloat.
From S2P Require Import Prelude WorkItemKind WorkItemRow WorkItemStore WorkItemHolder WorkItemClaim WorkItemOperator WorkItemInv WorkItemSound WorkItemClaimInv WorkItemSystem WorkItemHops.

(** ** Claim rounds *)

Lemma length_batch_receipts k owner times i ws :
  length (batch_receipts k owner times i ws) = count_disp DLease ws.
Proof.
  rewrite <- (length_map ItemID), batch_receipts_ids, length_map. unfold count_disp, is_lease.
  induction ws as [|w ws IH]; [done|]. rewrite !filter_cons. destruct (choose (to_picked w)); simpl; auto.
Qed.

Lemma count_disp_total ws : (count_disp DLease ws + count_disp DCancel ws + count_disp DPark ws = length ws)%nat.
Proof.
  induction ws as [|w ws IH]; [done|]. rewrite !count_disp_cons. simpl. rewrite <- IH.
  destruct (choose (to_picked w)); simpl; lia.
Qed.

(** What a claim leaves of a row it picked: the cancellation outranks the
    budget and the budget outranks the lease. *)
Definition disposed (k : Kind) (owner : Owner) (rs : list Receipt) (w w' : row) : Prop :=
  if cancel_pending w then status w' = StatusCancelled /\ lease_owner w' = None
  else if max_attempts w <=? attempt w then status w' = StatusParked /\ lease_owner w' = None
  else status w' = StatusLeased /\ lease_owner w' = Some (owner_ID owner) /\
       lease_generation w' = lease_generation w + 1 /\ attempt w' = attempt w + 1 /\
       exists r t, r ∈ rs /\ ItemID r = id w /\ LeaseGeneration r = lease_generation w' /\
         Attempt r = attempt w' /\ UniqueKey r = default ""%string (unique_key w) /\
         Reclaimed r = bool_decide (status w = StatusLeased) /\
         lease_expires_at w' = Some (t + Lease (policy_resolved (KPolicy k))) /\ LeaseExpiresAt r = lease_expires_at w'.

Lemma claim_row_disposed k owner now rs w :
  (is_lease w = true -> row_receipt k owner now w ∈ rs) -> disposed k owner rs w (claim_row k owner now w).
Proof.
  unfold disposed, row_receipt, is_lease, claim_row, choose. cbn [p_cancelled p_maxTries p_attempt to_picked].
  destruct (cancel_pending w); [done|]. destruct (max_attempts w <=? attempt w); [done|]. intros H.
  split_and!; try done. eexists _, now. split; [by apply H|done].
Qed.

Lemma StronglySorted_split {A} (R : relation A) n l x y :
  StronglySorted R l -> x ∈ take n l -> y ∈ drop n l -> R x y.
Proof.
  intros H. rewrite <- (take_drop n l) in H. revert H. generalize (take n l) (drop n l).
  intros a b. induction a as [|z a IH]; simpl; [by rewrite elem_of_nil|].
  intros [H Hz]%StronglySorted_inv [->|Hx]%elem_of_cons Hy; [|by apply IH].
  rewrite Forall_forall in Hz. apply Hz. set_solver.
Qed.

Section ClaimRound.
Context {D : Type} (claim_filter : row -> tri) (k : Kind) (owner : Owner).

(** A committed claim round disposes of every row it picked and of no
    other.  It picks at most the limit, in fairness order, from the rows that
    are ripe, cancelled while ready, or leased past their expiry; each is
    cancelled, parked or leased by its request and budget, each lease comes
    with exactly one receipt that names the row's new generation, and the
    counts add up. *)
Theorem claim_round_disposes (orgID : string) (limit : nat) (e : round_env D) (d : db D) :
  db_ok k d -> re_commits e = true ->
  let rows := round_rows claim_filter k orgID limit e d in
  exists d' c by_, claimRound claim_filter k owner orgID limit e d = (d', Ok (length rows, c, by_)) /\
    (length rows <= limit)%nat /\
    (forall w, w ∈ rows -> exists w', tbl d !! id w = Some w /\ tbl d' !! id w = Some w' /\ disposed k owner (Claimed c) w w') /\
    (forall i, i ∉ map id rows -> tbl d' !! i = tbl d !! i) /\
    NoDup (map ItemID (Claimed c)) /\
    (length (Claimed c) + Cancelled c + Parked c = length rows)%nat /\
    (forall w v, w ∈ rows -> v ∈ pick_rows claim_filter k (re_times e 0%nat) orgID (re_skip e) (tbl d) ->
       v ∉ rows -> pick_le k (tbl d) w v).
Proof.
  intros Hd Hc rows. destruct (claimRound_spec claim_filter k owner orgID limit e d Hd Hc) as (c & b & E & Hr & Hx & Hp).
  destruct (round_rows_facts claim_filter k orgID limit e d Hd) as (Hn & _ & Hin). fold rows in E, Hr, Hx, Hp, Hn, Hin.
  eexists _, c, b. split; [exact E|]. split_and!.
  - apply firstn_le_length.
  - intros w Hw. destruct (lookup_batch_tbl k owner (re_times e) 0 rows (tbl d) w Hn Hw) as (now & Hb & Hrc).
    exists (claim_row k owner now w). split_and!; [by apply Hin|done|]. rewrite Hr. by apply claim_row_disposed.
  - intros i Hi. simpl. by apply lookup_batch_tbl_other.
  - rewrite Hr, batch_receipts_ids. by apply NoDup_map_filter.
  - rewrite Hr, Hx, Hp, length_batch_receipts. apply count_disp_total.
  - intros w v Hw Hv Hnv. eapply StronglySorted_split; [apply pick_rows_sorted|exact Hw|].
    rewrite <- (take_drop limit) in Hv. by apply elem_of_app in Hv as [Hv|Hv].
Qed.
End ClaimRound.

Lemma ex_db_ok (s : sys Z) : reachable ex_kind s -> db_ok ex_kind (s_db s).
Proof. apply reachable_ok, Validate_kind_ok, ex_kind_valid. Qed.

Lemma claim_round_disposes_witness :
  exists d' c by_, claimRound no_filter ex_kind alice "" 5 (at_time 10) (s_db (ex1 ex_kind)) = (d', Ok (1%nat, c, by_)) /\
    length (Claimed c) = 1%nat.
Proof.
  destruct (claim_round_disposes no_filter ex_kind alice "" 5 (at_time 10) (s_db (ex1 ex_kind)))
    as (d' & c & b & E & _ & _ & _ & _ & _ & _).
  - apply ex_db_ok, ex1_reachable.
  - done.
  - exists d', c, b. split; [rewrite E; by vm_compute|].
    assert (Hc : claimed_of (claimRound no_filter ex_kind alice "" 5 (at_time 10) (s_db (ex1 ex_kind))).2 = Claimed c)
      by (by rewrite E). rewrite <- Hc. by vm_compute.
Defined.

(** ** The claim loop *)

Section Claim.
Context {D : Type} (claim_filter : row -> tri) (k : Kind) (owner : Owner) (orgID : string).
Implicit Types (d : db D) (envs : nat -> round_env D).

(** Other sessions leave the table well formed. *)
Definition worlds_ok envs : Prop := forall i d, db_ok k d -> db_ok k (re_world (envs i) d).

(** No other session runs, and every round commits. *)
Definition quiet envs : Prop :=
  forall i, re_commits (envs i) = true /\ (forall j, re_skip (envs i) j = false) /\ (forall d, re_world (envs i) d = d).

Definition total (c : ClaimResult) : nat := length (Claimed c) + Cancelled c + Parked c.

Lemma round_total limit e d :
  db_ok k d -> re_commits e = true ->
  exists c by_, (claimRound claim_filter k owner orgID limit e d).2 =
      Ok (length (round_rows claim_filter k orgID limit e d), c, by_) /\
    total c = length (round_rows claim_filter k orgID limit e d) /\ (length (Claimed c) <= limit)%nat.
Proof.
  intros Hd Hc. destruct (claimRound_spec claim_filter k owner orgID limit e d Hd Hc) as (c & b & E & Hr & Hx & Hp).
  exists c, b. rewrite E. split; [done|]. unfold total. rewrite Hr, Hx, Hp, length_batch_receipts.
  pose proof (count_disp_total (round_rows claim_filter k orgID limit e d)).
  pose proof (firstn_le_length limit (pick_rows claim_filter k (re_times e 0%nat) orgID (re_skip e) (tbl d))).
  fold (round_rows claim_filter k orgID limit e d) in *. lia.
Qed.

Lemma claim_loop_bounded fuel envs n acc log d :
  worlds_ok envs -> db_ok k d -> (length (Claimed acc) <= n)%nat ->
  let o := claim_loop claim_filter fuel envs k owner orgID n acc log d in
  db_ok k (co_db o) /\ (length (Claimed (co_res o)) <= n)%nat.
Proof.
  intros Hw. revert acc log d. induction fuel as [|fuel IH]; intros acc log d Hd Hn; cbn [claim_loop]; [done|].
  case_bool_decide as Hlt; [|done].
  set (e := envs (claimRounds - S fuel)%nat). pose proof (Hw (claimRounds - S fuel)%nat d Hd) as Hd1. fold e in Hd1.
  pose proof (claimRound_sound claim_filter k owner orgID (n - length (Claimed acc)) e _ Hd1) as (Hd2 & _).
  destruct (re_commits e) eqn:Hc.
  2: { destruct (claimRound_fail claim_filter k owner orgID (n - length (Claimed acc)) e (re_world e d) Hc) as [x Hx].
       rewrite Hx in *. done. }
  destruct (round_total (n - length (Claimed acc)) e _ Hd1 Hc) as (c & b & E & _ & Hle).
  destruct (claimRound _ _ _ _ _ _ _) as [d' x]. cbn in E, Hd2. subst x.
  assert (length (Claimed (add_result acc c)) <= n)%nat by (cbn; rewrite length_app; lia).
  case_bool_decide; [done|]. by apply IH.
Qed.

(** A claim never hands out more receipts than it was asked for, and
    leaves the table well formed, whatever other sessions do between its
    rounds and whichever round fails to commit. *)
Theorem claim_is_bounded envs (n : Z) d :
  worlds_ok envs -> db_ok k d ->
  let o := Claim claim_filter envs k owner orgID n d in
  db_ok k (co_db o) /\ Z.of_nat (length (Claimed (co_res o))) <= Z.max 0 n.
Proof.
  intros Hw Hd o. unfold o, Claim. destruct (Validate k); [|split; [done|simpl; lia]].
  destruct (Z.ltb_spec n 1); [split; [done|simpl; lia]|].
  case_bool_decide; [split; [done|simpl; lia]|].
  destruct (claim_loop_bounded claimRounds envs (Z.to_nat n) empty_result [] d) as [? ?]; [done..|simpl; lia|].
  split; [done|lia].
Qed.

Lemma claim_loop_drains fuel envs n acc log d :
  quiet envs -> db_ok k d -> (fuel <= claimRounds)%nat ->
  let o := claim_loop claim_filter fuel envs k owner orgID n acc log d in
  co_err o = None /\
  ((length (Claimed (co_res o)) < n)%nat ->
   (exists i, (i < claimRounds)%nat /\
      pick_rows claim_filter k (re_times (envs i) 0%nat) orgID (re_skip (envs i)) (tbl (co_db o)) = []) \/
   (total acc + fuel <= total (co_res o))%nat).
Proof.
  intros Q. revert acc log d. induction fuel as [|fuel IH]; intros acc log d Hd Hf; cbn [claim_loop].
  { split; [done|]. simpl. intros _. right. lia. }
  case_bool_decide as Hlt; [|split; [done|]; simpl; lia].
  set (e := envs (claimRounds - S fuel)%nat). destruct (Q (claimRounds - S fuel)%nat) as (Hc & Hs & Hw).
  fold e in Hc, Hs, Hw. rewrite Hw.
  destruct (round_total (n - length (Claimed acc)) e d Hd Hc) as (c & b & E & Ht & Hle).
  pose proof (claimRound_sound claim_filter k owner orgID (n - length (Claimed acc)) e d Hd) as (Hd2 & _).
  destruct (claimRound_spec claim_filter k owner orgID (n - length (Claimed acc)) e d Hd Hc) as (c' & b' & E' & _).
  destruct (claimRound _ _ _ _ _ _ _) as [d' x]. cbn in E, Hd2. subst x. injection E' as Hd' -> ->.
  case_bool_decide as Hz.
  - split; [done|]. cbn [co_res co_db]. intros _. left. exists (claimRounds - S fuel)%nat. split; [unfold claimRounds in *; lia|].
    fold e. apply length_zero_iff_nil in Hz. rewrite Hd', Hz. cbn.
    unfold round_rows in Hz. destruct (pick_rows _ _ _ _ _ _) as [|w ws] eqn:Hp; [done|].
    by destruct (n - length (Claimed acc))%nat eqn:Hm; [lia|].
  - destruct (IH (add_result acc c') (log ++ reportRound b') d' Hd2 ltac:(lia)) as [He H]. split; [done|].
    intros Hn. destruct (H Hn) as [?|Hge]; [by left|]. right. revert Hge.
    unfold total in *. cbn [add_result Claimed Cancelled Parked]. rewrite length_app. lia.
Qed.

(** C35: A claim fills its order or drains the queue.  Run alone it never
    fails, and when it hands out fewer receipts than asked, either its last
    round found no claimable row left, or it has disposed of at least as
    many rows as it has rounds. *)
Theorem claim_fills_or_drains envs (n : Z) d :
  Validate k = Ok tt -> quiet envs -> db_ok k d -> 1 <= n -> owner_ID owner <> ""%string ->
  let o := Claim claim_filter envs k owner orgID n d in
  co_err o = None /\
  (Z.of_nat (length (Claimed (co_res o))) < n ->
   (exists i, (i < claimRounds)%nat /\
      pick_rows claim_filter k (re_times (envs i) 0%nat) orgID (re_skip (envs i)) (tbl (co_db o)) = []) \/
   (claimRounds <= total (co_res o))%nat).
Proof.
  intros V Q Hd Hn Ho o. unfold o, Claim. rewrite V. rewrite (proj2 (Z.ltb_ge n 1)) by lia.
  rewrite bool_decide_false by done.
  destruct (claim_loop_drains claimRounds envs (Z.to_nat n) empty_result [] d Q Hd) as [He H]; [lia|].
  split; [done|]. intros Hlt. destruct H as [?|?]; [lia|by left|right]. done.
Qed.
End Claim.

Lemma at_time_quiet t : quiet (fun _ => at_time t).
Proof. done. Qed.

Lemma claim_is_bounded_witness :
  db_ok ex_kind (co_db (Claim no_filter (fun _ => at_time 10) ex_kind alice "" 1 (s_db (ex1 ex_kind)))) /\
  Z.of_nat (length (Claimed (co_res (Claim no_filter (fun _ => at_time 10) ex_kind alice "" 1 (s_db (ex1 ex_kind)))))) <= Z.max 0 1.
Proof.
  apply (claim_is_bounded no_filter ex_kind alice "" (fun _ => at_time 10) 1 (s_db (ex1 ex_kind))).
  - by intros i d.
  - apply ex_db_ok, ex1_reachable.
Defined.

Lemma claim_fills_or_drains_witness :
  co_err (Claim no_filter (fun _ => at_time 10) ex_kind alice "" 3 (s_db (ex1 ex_kind))) = None /\
  length (Claimed (co_res (Claim no_filter (fun _ => at_time 10) ex_kind alice "" 3 (s_db (ex1 ex_kind))))) = 1%nat.
Proof.
  destruct (claim_fills_or_drains no_filter ex_kind alice "" (fun _ => at_time 10) 3 (s_db (ex1 ex_kind))) as [E _].
  - apply ex_kind_valid.
  - apply at_time_quiet.
  - apply ex_db_ok, ex1_reachable.
  - lia.
  - done.
  - split; [exact E|by vm_compute].
Defined.

(** ** Retrying *)

Section Retry.
Context {D : Type} (k : Kind) (V : Validate k = Ok tt).
Implicit Types (d : db D) (r : Receipt).

(** Requeue parks exactly the exhausted and the permanent.  An owner's
    requeue releases the lease, keeps the attempt it spent, records outcome
    and cause, and lands the row parked when the outcome is permanent or the
    budget is spent, and otherwise ready after the backoff delay; its answer
    tells the two apart. *)
Theorem requeue_lands r (o : Outcome) (cause : option string) (u : spec_float) (now : Z) d w :
  outcome_valid o = true -> tbl d !! ItemID r = Some w -> cancel_pending w = false -> owns r now d = true ->
  exists w', odb (Requeue k r o cause u now d) = with_tbl d (<[ItemID r := w']> (tbl d)) /\
    ores (Requeue k r o cause u now d) = Ok (bool_decide (status w' = StatusParked)) /\
    (status w' = StatusParked <-> o = OutcomePermanent \/ max_attempts w <= attempt w) /\
    (status w' <> StatusParked -> status w' = StatusReady /\ done_at w' = done_at w /\
       next_attempt_at w' = Some (now + Backoff (Backoff_ (KPolicy k)) (Attempt r) u)) /\
    attempt w' = attempt w /\ lease_expires_at w' = None /\ lease_owner w' = None /\
    last_outcome w' = Some (outcome_text o) /\ last_error w' = cause.
Proof.
  intros Ho Hw Hp Hown. exists (apply_sets (requeue_sets k r o cause u) now w).
  unfold Requeue. rewrite V, Ho. cbn [negb].
  rewrite holderWriteReturningStatus_effect, holder_effect_owns, Hw, Hown, Hp by apply _. cbn [odb ores].
  split; [done|]. split; [done|]. unfold requeue_sets. case_bool_decide as Hperm; cbn.
  - split_and!; try done; intuition.
  - unfold exhausted. destruct (Z.leb_spec (max_attempts w) (attempt w)); split_and!; try done.
    + split; [by right|done].
    + split; [done|]. intros [?|?]; [done|lia].
Qed.

(** A deferral is conditional and free.  For an owner with no request
    pending, the predicate decides under the row's lock: if it holds, the
    row goes back to ready at the requested time with its attempt refunded
    and the lease released; if it does not, nothing is written and the
    answer is [ErrDeferRefused]. *)
Theorem defer_is_conditional r (reason : string) (at_ : Z) (p : db D -> res err bool) (t1 t2 : Z) d w (b : bool) :
  db_ok k d -> reason <> ""%string -> tbl d !! ItemID r = Some w -> cancel_pending w = false ->
  owns r t1 d = true -> owns r t2 d = true -> p d = Ok b ->
  let o := Defer k r reason (Some at_) (Some p) t1 t2 true d in
  if b then exists w', o = Out (with_tbl d (<[ItemID r := w']> (tbl d))) (Ok tt) [ODeferred (OrgID r)] /\
              status w' = StatusReady /\ attempt w' = attempt w - 1 /\ next_attempt_at w' = Some at_ /\
              lease_owner w' = None /\ lease_expires_at w' = None /\
              lease_generation w' = lease_generation w /\ last_error w' = Some reason
  else o = Out d (Err ErrDeferRefused) [].
Proof.
  intros Hd Hr Hw Hp H1 H2 Hb o. unfold o, Defer. rewrite V, bool_decide_false by done.
  unfold inTx, defer_body. rewrite lockAndVerify_owns, H1, Hw, Hp by (intros v Hv; by apply Hd).
  cbn [res_bind]. rewrite Hb. destruct b; [|done]. cbn [res_bind wrap_err negb].
  rewrite plainGuardedWrite_owns, Hw, H2. by eexists.
Qed.

(** Redrive takes exactly the parked rows.  In a well-formed table it
    succeeds when the row is the organization's and parked, and only then,
    and leaves it ready with a fresh budget under a new generation, so every
    receipt of the earlier cycle is stale. *)
Theorem redrive_takes_parked_rows (org : string) (i : Z) (by_ : string) (now : Z) d :
  db_ok k d -> by_ <> ""%string ->
  match tbl d !! i with
  | Some w =>
      if bool_decide (org_id w = org) && bool_decide (status w = StatusParked) then
        exists w', Redrive k org i by_ now d = Out (with_tbl d (<[i := w']> (tbl d))) (Ok tt) [ORedriven org] /\
          status w' = StatusReady /\ attempt w' = 0 /\ next_attempt_at w' = None /\ done_at w' = None /\
          lease_generation w < lease_generation w'
      else Redrive k org i by_ now d = Out d (Err ErrNotParked) []
  | None => Redrive k org i by_ now d = Out d (Err ErrNotParked) []
  end.
Proof.
  intros Hd Hb. unfold Redrive. rewrite V, bool_decide_false by done. unfold operatorWrite, update_row.
  destruct (tbl d !! i) as [w|] eqn:Hw; [|done]. pose proof (to_rows _ _ _ Hd i w Hw) as [].
  destruct (_ && _) eqn:E; [|done]. bool_hyps.
  destruct (cancel_pending w) eqn:Hp; [by destruct (ro_cancel Hp)|]. cbn [negb andb].
  exists (apply_sets redrive_sets now w). cbn. split_and!; try done. lia.
Qed.
End Retry.

(** The first cycle's row, parked by its last attempt. *)
Definition parked_db (s : sys Z) (r : Receipt) : db Z := odb (Park ex_kind r "bad input" 100 (s_db s)).

Lemma requeue_lands_witness :
  exists w', ores (Requeue ex_kind (r_bob ex_kind) OutcomeTransient (Some "oom"%string) f64_zero 100 (s_db (ex3 ex_kind))) =
    Ok (bool_decide (status w' = StatusParked)) /\ status w' = StatusParked /\ attempt w' = 2.
Proof.
  destruct (requeue_lands ex_kind ex_kind_valid (r_bob ex_kind) OutcomeTransient (Some "oom"%string) f64_zero 100
              (s_db (ex3 ex_kind)) (row_at (ex3 ex_kind))) as (w' & _ & E & Hs & _ & Ha & _).
  - done.
  - apply ex3_row.
  - by vm_compute.
  - by vm_compute.
  - exists w'. split; [exact E|]. split; [apply Hs; right; by vm_compute|rewrite Ha; by vm_compute].
Defined.

Definition app_idle (d : db Z) : res err bool := Ok (app d =? 0).

Lemma defer_is_conditional_witness :
  exists w', Defer ex_kind (r_bob ex_kind) "busy" (Some 500) (Some app_idle) 100 101 true (s_db (ex3 ex_kind)) =
    Out (with_tbl (s_db (ex3 ex_kind)) (<[1 := w']> (tbl (s_db (ex3 ex_kind))))) (Ok tt) [ODeferred "acme"] /\
    attempt w' = 1.
Proof.
  destruct (defer_is_conditional ex_kind ex_kind_valid (r_bob ex_kind) "busy" 500 app_idle 100 101
              (s_db (ex3 ex_kind)) (row_at (ex3 ex_kind)) true) as (w' & E & _ & Ha & _).
  - apply ex_db_ok, ex3_reachable.
  - done.
  - apply ex3_row.
  - by vm_compute.
  - by vm_compute.
  - by vm_compute.
  - by vm_compute.
  - exists w'. split; [exact E|]. rewrite Ha. by vm_compute.
Defined.

Lemma parked_db_ok : db_ok ex_kind (parked_db (ex3 ex_kind) (r_bob ex_kind)).
Proof. apply Park_sound, ex_db_ok, ex3_reachable. Qed.

Lemma redrive_takes_parked_rows_witness :
  exists w', Redrive ex_kind "acme" 1 "ops" 120 (parked_db (ex3 ex_kind) (r_bob ex_kind)) =
    Out (with_tbl (parked_db (ex3 ex_kind) (r_bob ex_kind)) (<[1 := w']> (tbl (parked_db (ex3 ex_kind) (r_bob ex_kind)))))
        (Ok tt) [ORedriven "acme"] /\ attempt w' = 0.
Proof.
  pose proof (redrive_takes_parked_rows ex_kind ex_kind_valid "acme" 1 "ops" 120
                (parked_db (ex3 ex_kind) (r_bob ex_kind)) parked_db_ok) as H.
  assert (E : exists w, tbl (parked_db (ex3 ex_kind) (r_bob ex_kind)) !! 1 = Some w /\
      bool_decide (org_id w = "acme"%string) && bool_decide (status w = StatusParked) = true)
    by (eexists; split; by vm_compute).
  destruct E as (w & Ew & Ep). rewrite Ew, Ep in H. destruct H as (w' & E & _ & Ha & _); [done|]. by exists w'.
Defined.

(** ** Admission *)

Section Admission.
Context {D : Type} (k : Kind) (V : Validate k = Ok tt).
Implicit Types (d : db D).

(** A key the kind would not deduplicate is refused. *)
Definition key_allowed (key : string) : bool :=
  bool_decide (key = ""%string) || negb (bool_decide (Unique k = UniqueNone)).

Lemma Admit_open org key cols now commits d :
  org <> ""%string -> key_allowed key = true ->
  Admit k org key cols now commits d = inTx commits (kind_admit k org key cols now) d.
Proof.
  intros Ho Hk. unfold Admit. rewrite V, bool_decide_false by done. unfold key_allowed in Hk.
  destruct (bool_decide (key = ""%string)), (bool_decide (Unique k = UniqueNone)); done.
Qed.

(** Admission is insert-or-find.  With the columns declared and the
    transaction committing, either no row holds the key in the mode's index
    and a fresh ready row is inserted beside untouched others, or exactly
    one does, nothing is written, and the answer names that row: the same
    one on both dialects, although they find it differently. *)
Theorem admission_inserts_or_finds (org key : string) (cols : gmap string sqlval) (now : Z) d :
  db_ok k d -> org <> ""%string -> key_allowed key = true ->
  (forall c, is_Some (cols !! c) -> c ∈ Columns k) ->
  let o := Admit k org key cols now true d in
  ((forall i w, tbl d !! i = Some w -> indexed k w = true -> org_id w = org -> unique_key w <> Some key) /\
   o = (Db (<[next_id d := admitted_row k (next_id d) org key cols now]> (tbl d)) (next_id d + 1) (app d),
        Ok (next_id d, false)) /\ tbl d !! next_id d = None) \/
  (exists i w, tbl d !! i = Some w /\ indexed k w = true /\ org_id w = org /\ unique_key w = Some key /\
     (forall j v, tbl d !! j = Some v -> indexed k v = true -> org_id v = org -> unique_key v = Some key -> j = i) /\
     o = (d, Ok (i, true))).
Proof.
  intros Hd Ho Hk Hcols o. unfold o. rewrite Admit_open by done. unfold inTx, kind_admit.
  assert (Hdecl : check_declared k (merge_sort str_le (map_to_list cols).*1) = Ok tt).
  { assert (Hin : forall c, c ∈ merge_sort str_le (map_to_list cols).*1 -> c ∈ Columns k).
    { intros c. rewrite (merge_sort_Permutation str_le). intros ([x v] & -> & Hx)%list_elem_of_fmap.
      apply elem_of_map_to_list in Hx. apply Hcols. eauto. }
    revert Hin. generalize (merge_sort str_le (map_to_list cols).*1). intros l. induction l as [|c l IH]; [done|].
    intros Hin. simpl. unfold declares. rewrite bool_decide_true by (apply Hin; left). apply IH. set_solver. }
  rewrite Hdecl. cbn. destruct (conflicts k (tbl d) org key) as [|w ws] eqn:Hc.
  - left. split; [|split; [done|]].
    + intros i w Hw Hx Hwo Hwk. assert (w ∈ conflicts k (tbl d) org key) as Hin by (apply elem_of_conflicts; eauto).
      rewrite Hc in Hin. by apply elem_of_nil in Hin.
    + destruct (tbl d !! next_id d) eqn:E; [|done]. apply (to_keyed _ _ _ Hd) in E. lia.
  - right. assert (Hin : w ∈ conflicts k (tbl d) org key) by (rewrite Hc; left).
    apply elem_of_conflicts in Hin as ([i Hi] & Hx & Hwo & Hwk). exists i, w.
    split_and!; try done.
    + intros j v Hv Hvx Hvo Hvk. eapply (to_unique _ _ _ Hd j i v w key); eauto. congruence.
    + destruct (to_keyed _ _ _ Hd i w Hi) as [<- _].
      rewrite (existingByKey_conflict k (tbl d) (next_id d) org key w ws) by (apply Hd || done).
      by destruct (KDialect k).
Qed.
End Admission.

Lemma admission_inserts_or_finds_witness :
  Admit ex_kind "acme" "k1" ∅ 100 true (s_db (ex3 ex_kind)) = (s_db (ex3 ex_kind), Ok (1, true)).
Proof.
  destruct (admission_inserts_or_finds ex_kind ex_kind_valid "acme" "k1" ∅ 100 (s_db (ex3 ex_kind)))
    as [(H & _ & _)|(i & w & Hi & _ & _ & _ & Hu & E)].
  - apply ex_db_ok, ex3_reachable.
  - done.
  - done.
  - intros c [x Hx]. by rewrite lookup_empty in Hx.
  - exfalso. by apply (H 1 (row_at (ex3 ex_kind)) ex3_row); vm_compute.
  - rewrite E. by rewrite <- (Hu 1 (row_at (ex3 ex_kind)) ex3_row) by (by vm_compute).
Defined.

(** ** Retry delays *)

(** The delay doubles up to its cap.  For any specification whose cap is
    at most 2^62 nanoseconds (about 146 years), the delay before jitter of
    attempt [n] is [min(Cap, Base * 2^(n-1))] on the resolved fields, with no
    64-bit overflow, so it never shrinks as attempts go on and stays between
    the smaller of base and cap, and the cap. *)
Theorem retry_delay_doubles_to_cap (spec : BackoffSpec) (attempt attempt' : Z) :
  Base spec <= int64_max -> Cap spec <= 2 ^ 62 -> attempt <= attempt' ->
  let s := backoff_resolved spec in
  backoffPreJitter s attempt = Z.min (Cap s) (Base s * 2 ^ (Z.max 1 attempt - 1)) /\
  backoffPreJitter s attempt <= backoffPreJitter s attempt' /\
  Z.min (Base s) (Cap s) <= backoffPreJitter s attempt <= Cap s.
Proof.
  intros Hb Hc Ha s. pose proof (backoff_resolved_pos spec) as [Hb0 Hc0]. fold s in Hb0, Hc0.
  assert (Hb' : Base s <= int64_max) by (unfold s, backoff_resolved; simpl; destruct (Base spec <=? 0); done).
  assert (Hc' : Cap s <= 2 ^ 62) by (unfold s, backoff_resolved; simpl; destruct (Cap spec <=? 0); done).
  rewrite !backoffPreJitter_spec by lia.
  assert (H1 : 1 <= 2 ^ (Z.max 1 attempt - 1)) by (apply (Z.pow_le_mono_r 2 0); lia).
  assert (H2 : 2 ^ (Z.max 1 attempt - 1) <= 2 ^ (Z.max 1 attempt' - 1)) by (apply Z.pow_le_mono_r; lia).
  split; [done|]. split; nia.
Qed.

Lemma retry_delay_doubles_to_cap_witness :
  backoffPreJitter (backoff_resolved (Backoff_ ex_policy)) 3 = 40 /\
  backoffPreJitter (backoff_resolved (Backoff_ ex_policy)) 3 <= backoffPreJitter (backoff_resolved (Backoff_ ex_policy)) 9.
Proof.
  destruct (retry_delay_doubles_to_cap (Backoff_ ex_policy) 3 9) as (E & M & _); [by vm_compute|by vm_compute|lia|].
  split; [rewrite E; by vm_compute|exact M].
Defined.

(** Beyond that cap the doubling does overflow: the delay of a late attempt
    is zero. *)
Example backoff_overflows_beyond_2_62 :
  backoffPreJitter {| Base := 2 ^ 61; Cap := int64_max; Jitter := f64_zero |} 4 = 0.
Proof. by vm_compute. Qed.

(** ** Measurements and listings *)

Section Measure.
Context {D : Type} (claim_filter : row -> tri) (k : Kind) (V : Validate k = Ok tt).
Implicit Types (d : db D).

Lemma length_filter_cons (p : row -> bool) w rows :
  length (filter (fun w => p w = true) (w :: rows)) =
  ((if p w then 1 else 0) + length (filter (fun w => p w = true) rows))%nat.
Proof. rewrite filter_cons. by destruct (p w). Qed.

Lemma filter_count (p q u : row -> bool) (rows : list row) :
  (forall w, p w = true -> u w = true) ->
  length (filter (fun w => p w = true) (filter (fun w => q w = true) (filter (fun w => u w = true) rows))) =
  length (filter (fun w => q w && p w = true) rows).
Proof.
  intros H. induction rows as [|w rows IH]; [done|]. rewrite !(filter_cons _ w).
  destruct (decide (u w = true)) as [Hu|Hu].
  - rewrite filter_cons. destruct (decide (q w = true)) as [Hq|Hq].
    + rewrite filter_cons, Hq. simpl. destruct (p w); simpl; [by rewrite IH|done].
    + apply not_true_is_false in Hq. rewrite Hq. simpl. done.
  - assert (p w = false) as -> by (destruct (p w) eqn:Hp; [by apply H in Hp|done]).
    rewrite andb_false_r. done.
Qed.

(** A status filter that selects only unsettled rows counts what the depth
    query counts. *)
Lemma list_count_depth now org f d :
  org <> ""%string ->
  (forall w, holds (statusPredicate claim_filter k now f w) = true -> unsettled_status (status w) = true) ->
  length (list_rows claim_filter k now org f (tbl d)) =
  countIf (statusPredicate claim_filter k now f)
    (filter (fun w => bool_decide (org = ""%string) || bool_decide (org_id w = org) = true) (unsettled_rows (tbl d))).
Proof.
  intros Ho H. unfold list_rows, countIf, unsettled_rows. symmetry.
  rewrite (filter_count (fun w => holds (statusPredicate claim_filter k now f w))
             (fun w => bool_decide (org = ""%string) || bool_decide (org_id w = org))
             (fun w => unsettled_status (status w)) (map_to_list (tbl d)).*2 H).
  by rewrite bool_decide_false.
Qed.

Lemma ripe_ready now w : holds (ripePredicate claim_filter k now w) = true -> status w = StatusReady.
Proof. unfold ripePredicate. rewrite holds_and. cbn. intros [E _]%andb_true_iff. by bool_hyps. Qed.

Lemma deferred_ready now w : holds (deferredPredicate claim_filter k now w) = true -> status w = StatusReady.
Proof. unfold deferredPredicate. rewrite holds_and. cbn. intros [E _]%andb_true_iff. by bool_hyps. Qed.

Lemma list_total now t_page org st f limit d :
  org <> ""%string -> 0 <= limit -> parse_filter st = Some f ->
  (forall w, holds (statusPredicate claim_filter k now f w) = true -> unsettled_status (status w) = true) ->
  exists page, List_ claim_filter k org st limit 0 now t_page d =
    Ok (page, countIf (statusPredicate claim_filter k now f)
      (filter (fun w => bool_decide (org = ""%string) || bool_decide (org_id w = org) = true) (unsettled_rows (tbl d)))).
Proof.
  intros Ho Hl Hp Hu. unfold List_. rewrite V, Hp, (list_count_depth now org f d Ho Hu).
  rewrite (proj2 (Z.ltb_ge limit 0)) by lia. destruct (bool_decide (org = ""%string)) eqn:E; [by bool_hyps|].
  change (false || (0 <? 0)) with false. cbv iota. destruct (limit =? 0); eexists; reflexivity.
Qed.

Lemma ready_partition now org (rows : list row) :
  (ClaimFilter k = ""%string \/ forall w, is_Some (claim_filter w)) ->
  (length (filter (fun w => bool_decide (org_id w = org) && holds (ripePredicate claim_filter k now w) = true) rows) +
   length (filter (fun w => bool_decide (org_id w = org) && holds (deferredPredicate claim_filter k now w) = true) rows))%nat =
  length (filter (fun w => bool_decide (org_id w = org) && bool_decide (status w = StatusReady) = true) rows).
Proof.
  intros Htwo. induction rows as [|w rows IH]; [done|].
  rewrite !(length_filter_cons (fun w => _ && _)), <- IH.
  assert (exists b, ripeCondition claim_filter k now w = Some b) as [b Hb].
  { unfold ripeCondition. case_bool_decide; [eauto|]. destruct Htwo as [?|Hf]; [done|].
    destruct (Hf w) as [b ->]. destruct (next_attempt_at w) as [t|]; [destruct (t <=? now)|]; destruct b; cbn; eauto. }
  unfold ripePredicate at 1, deferredPredicate at 1. rewrite !holds_and, Hb.
  destruct (bool_decide (org_id w = org)), (bool_decide (status w = StatusReady)), b; cbn; lia.
Qed.

(** The list filters and the depth gauges describe the same rows.  At
    one instant, the total of a listing by ready, deferred, leased or parked
    is the depth the measurement reports under that name; and when the
    claim filter is two-valued, ready and deferred partition the stored
    ready rows. *)
Theorem listings_match_depths (org : string) (now t_page limit : Z) d :
  org <> ""%string -> 0 <= limit ->
  exists m, Measure claim_filter k org now d = Ok m /\
    (forall st n, (st, n) ∈ [("ready"%string, DReady m); ("deferred"%string, DDeferred m);
                             ("leased"%string, DLeased m); ("parked"%string, DParked m)] ->
       exists page, List_ claim_filter k org st limit 0 now t_page d = Ok (page, n)) /\
    ((ClaimFilter k = ""%string \/ forall w, is_Some (claim_filter w)) ->
     (DReady m + DDeferred m)%nat =
     length (filter (fun w => bool_decide (org_id w = org) && bool_decide (status w = StatusReady) = true) (map_to_list (tbl d)).*2)).
Proof.
  intros Ho Hl. unfold Measure. rewrite V. eexists. split; [done|].
  assert (Hr : forall w, holds (statusPredicate claim_filter k now (StoredStatus StatusReady) w) = true ->
      unsettled_status (status w) = true) by (intros w Hw; by rewrite (ripe_ready now w Hw)).
  assert (Hf : forall w, holds (statusPredicate claim_filter k now DeferredFilter w) = true ->
      unsettled_status (status w) = true) by (intros w Hw; by rewrite (deferred_ready now w Hw)).
  split; unfold depths_of; cbn [DReady DDeferred DLeased DParked].
  - intros st n Hin. repeat (apply elem_of_cons in Hin as [[= -> ->]|Hin]); [| | | |by apply elem_of_nil in Hin].
    + by apply (list_total now t_page org _ (StoredStatus StatusReady)).
    + by apply (list_total now t_page org _ DeferredFilter).
    + apply (list_total now t_page org _ (StoredStatus StatusLeased)); try done.
      intros w Hw. simpl in Hw. bool_hyps. by rewrite Hw.
    + apply (list_total now t_page org _ (StoredStatus StatusParked)); try done.
      intros w Hw. simpl in Hw. bool_hyps. by rewrite Hw.
  - intros Htwo. rewrite <- (ready_partition now org _ Htwo).
    f_equal; symmetry; [apply (list_count_depth now org (StoredStatus StatusReady) d Ho Hr)
                       |apply (list_count_depth now org DeferredFilter d Ho Hf)].
Qed.

(** The grouped measurement is the per-organization one.  An
    organization with an unsettled row has the entry its own measurement
    would give, and one without has no entry at all. *)
Theorem grouped_measure_agrees (org : string) (now : Z) d :
  org <> ""%string ->
  exists m, MeasureByOrg claim_filter k now d = Ok m /\
    (if bool_decide (org ∈ map org_id (unsettled_rows (tbl d)))
     then exists x, m !! org = Some x /\ Measure claim_filter k org now d = Ok x
     else m !! org = None).
Proof.
  intros Ho. unfold MeasureByOrg, Measure. rewrite V. eexists. split; [done|].
  set (rows := unsettled_rows (tbl d)). set (g := fun o => depths_of claim_filter k now (filter (fun w => org_id w = o) rows)).
  assert (Hlook : forall l, (list_to_map (map (fun o => (o, g o)) l) : gmap string Depths) !! org =
                    if bool_decide (org ∈ l) then Some (g org) else None).
  { induction l as [|o l IH]; [done|]. simpl. destruct (decide (o = org)) as [->|Hne].
    - rewrite lookup_insert_eq, bool_decide_true by set_solver. done.
    - rewrite lookup_insert_ne, IH by done. destruct (decide (org ∈ l)).
      + rewrite !bool_decide_true by set_solver. done.
      + rewrite !bool_decide_false by set_solver. done. }
  rewrite Hlook. case_bool_decide as Hin; [|done]. eexists. split; [done|]. f_equal. unfold g. f_equal.
  apply list_filter_iff. intros w. rewrite (bool_decide_false (org = ""%string)) by done. cbn.
  by rewrite bool_decide_eq_true.
Qed.

#[local] Instance row_id_ge_trans : Transitive row_id_ge.
Proof. intros a b c. unfold row_id_ge. lia. Qed.
#[local] Instance row_id_ge_total : Total row_id_ge.
Proof. intros a b. unfold row_id_ge. lia. Qed.

Lemma ids_descend (l : list row) :
  NoDup (map id l) -> StronglySorted row_id_ge l -> StronglySorted (fun a b => id b < id a) l.
Proof.
  intros Hn Hs. induction Hs as [|w l Hl IH Hall]; [constructor|]. simpl in Hn. apply NoDup_cons in Hn as [Hw Hn].
  constructor; [by apply IH|]. rewrite Forall_forall in Hall |- *. intros v Hv.
  specialize (Hall v Hv). unfold row_id_ge in Hall.
  assert (id w <> id v) by (intros E; apply Hw; rewrite E; by apply list_elem_of_fmap_2). lia.
Qed.

(** A listing is isolated, ordered and partitioned.  Every row of a page
    belongs to the organization asked for and satisfies the status filter,
    ids descend strictly, and two adjacent windows read at one instant are
    the one larger window. *)
Theorem listing_pages (org st : string) (l1 l2 o t_count t_page : Z) d p1 p2 p n1 n2 n :
  db_ok k d -> 0 < l1 -> 0 < l2 ->
  List_ claim_filter k org st l1 o t_count t_page d = Ok (p1, n1) ->
  List_ claim_filter k org st l2 (o + l1) t_count t_page d = Ok (p2, n2) ->
  List_ claim_filter k org st (l1 + l2) o t_count t_page d = Ok (p, n) ->
  p = p1 ++ p2 /\ n1 = n /\ n2 = n /\
  StronglySorted (fun a b => id b < id a) p /\
  Forall (fun w => org_id w = org /\ exists f, parse_filter st = Some f /\
                   holds (statusPredicate claim_filter k t_page f w) = true) p.
Proof.
  intros Hd H1 H2. unfold List_. rewrite V. destruct (bool_decide (org = ""%string)); [done|].
  rewrite !(proj2 (Z.ltb_ge _ _)) by lia. destruct (Z.ltb_spec o 0); [done|].
  rewrite !(proj2 (Z.ltb_ge _ _)) by lia. cbn [orb]. destruct (parse_filter st) as [f|]; [|done].
  rewrite !(proj2 (Z.eqb_neq _ _)) by lia. intros [= <- <-] [= <- <-] [= <- <-].
  set (all := merge_sort row_id_ge (list_rows claim_filter k t_page org f (tbl d))).
  assert (Hel : forall w, w ∈ all -> org_id w = org /\ holds (statusPredicate claim_filter k t_page f w) = true).
  { intros w. unfold all. rewrite (merge_sort_Permutation row_id_ge). unfold list_rows.
    rewrite list_elem_of_filter. intros [E _]. by bool_hyps. }
  split_and!; [|done|done| |].
  - rewrite !Z2Nat.inj_add by lia. by rewrite <- drop_drop, take_take_drop.
  - eapply StronglySorted_sublist; [etrans; [apply sublist_take|apply sublist_drop]|].
    apply ids_descend; [|unfold all; apply StronglySorted_merge_sort; apply _].
    unfold all. rewrite (merge_sort_Permutation row_id_ge). eapply NoDup_map_filter, NoDup_rows_id, Hd.
  - apply Forall_forall. intros w Hw%subseteq_take%subseteq_drop. destruct (Hel w Hw). eauto.
Qed.
End Measure.

Lemma listings_match_depths_witness :
  exists m, Measure no_filter ex_kind "acme" 100 (s_db (ex3 ex_kind)) = Ok m /\
    (DReady m + DDeferred m)%nat = 0%nat.
Proof.
  destruct (listings_match_depths no_filter ex_kind ex_kind_valid "acme" 100 100 10 (s_db (ex3 ex_kind)))
    as (m & E & _ & H); [done|lia|].
  exists m. split; [exact E|]. rewrite H by (by left). by vm_compute.
Defined.

Lemma grouped_measure_agrees_witness :
  exists m x, MeasureByOrg no_filter ex_kind 100 (s_db (ex3 ex_kind)) = Ok m /\ m !! "acme"%string = Some x /\
    Measure no_filter ex_kind "acme" 100 (s_db (ex3 ex_kind)) = Ok x.
Proof.
  destruct (grouped_measure_agrees no_filter ex_kind ex_kind_valid "acme" 100 (s_db (ex3 ex_kind))) as (m & E & H); [done|].
  rewrite bool_decide_true in H by (apply (bool_decide_eq_true_1 _); by vm_compute).
  destruct H as (x & H1 & H2). by exists m, x.
Defined.

(** Two jobs, listed one per page. *)
Definition ex_two : sys Z := sys_admission ex_kind "acme" "k2" 95 (ex3 ex_kind).

Lemma ex_two_ok : db_ok ex_kind (s_db ex_two).
Proof.
  unfold ex_two, sys_admission. cbn [s_db].
  apply Admit_sound, ex_db_ok, ex3_reachable. apply Validate_kind_ok, ex_kind_valid.
Qed.

Definition page_of {A} (x : res err (list row * A)) : list row := match x with Ok (p, _) => p | Err _ => [] end.

Lemma listing_pages_witness :
  map id (page_of (List_ no_filter ex_kind "acme" "" 2 0 100 100 (s_db ex_two))) = [2; 1] /\
  page_of (List_ no_filter ex_kind "acme" "" 2 0 100 100 (s_db ex_two)) =
  page_of (List_ no_filter ex_kind "acme" "" 1 0 100 100 (s_db ex_two)) ++
  page_of (List_ no_filter ex_kind "acme" "" 1 1 100 100 (s_db ex_two)).
Proof.
  split; [by vm_compute|].
  apply (listing_pages no_filter ex_kind ex_kind_valid "acme" "" 1 1 0 100 100 (s_db ex_two) _ _ _ 2 2 2 ex_two_ok);
    [lia|lia|by vm_compute..].
Defined.
