(* ===== verification/GoBytes.v ===== *)
(** * Go strings and byte slices

    Go's [string] and [\[\]byte] are byte sequences: [bytes] here, a list of
    8-bit characters.  This file models what the proxies use of the standard
    library's strings, bytes, unicode/utf8, unicode, strconv and fmt packages:
    UTF-8 decoding, Unicode white space, [Fields], [TrimSpace], [Split],
    [Cut], the prefix and suffix helpers, hexadecimal parsing and printing. *)

From S2P Require Import Prelude.

Notation bytes := (list ascii).

(** A string literal's bytes. *)
Definition bs (s : string) : bytes := list_ascii_of_string s.

Definition bv (c : ascii) : Z := Z.of_N (N_of_ascii c).
Definition byte_of (z : Z) : ascii := ascii_of_N (Z.to_N z).

Definition NUL : ascii := byte_of 0.
Definition LF : ascii := byte_of 10.
Definition CR : ascii := byte_of 13.
Definition SP : ascii := byte_of 32.
Definition SLASH : ascii := byte_of 47.

(** ** Prefixes, suffixes, searching *)

Definition HasPrefix (s p : bytes) : bool := bool_decide (take (length p) s = p).
Definition HasSuffix (s p : bytes) : bool :=
  (length p <=? length s)%nat && bool_decide (drop (length s - length p) s = p).
Definition TrimPrefix (s p : bytes) : bytes := if HasPrefix s p then drop (length p) s else s.
Definition TrimSuffix (s p : bytes) : bytes := if HasSuffix s p then take (length s - length p) s else s.

(** [strings.CutPrefix]. *)
Definition CutPrefix (s p : bytes) : option bytes :=
  if HasPrefix s p then Some (drop (length p) s) else None.

(** [IndexByte]; [None] is Go's -1. *)
Fixpoint IndexByte (s : bytes) (c : ascii) : option nat :=
  match s with
  | [] => None
  | x :: s => if bool_decide (x = c) then Some 0%nat else S <$> IndexByte s c
  end.

(** [strings.Cut] at a one-byte separator: the text before and after its first
    occurrence, and the whole string with nothing after when there is none. *)
Definition Cut (s : bytes) (c : ascii) : bytes * bytes :=
  match IndexByte s c with
  | Some i => (take i s, drop (S i) s)
  | None => (s, [])
  end.

(** [strings.Split] at a one-byte separator. *)
Fixpoint Split (s : bytes) (c : ascii) : list bytes :=
  match s with
  | [] => [[]]
  | x :: s =>
      if bool_decide (x = c) then [] :: Split s c
      else match Split s c with [] => [[x]] | l :: ls => (x :: l) :: ls end
  end.

Fixpoint Contains (s sub : bytes) : bool :=
  HasPrefix s sub || match s with [] => false | _ :: s => Contains s sub end.

(** [strings.Join]. *)
Fixpoint Join (l : list bytes) (sep : bytes) : bytes :=
  match l with
  | [] => []
  | [x] => x
  | x :: l => x ++ sep ++ Join l sep
  end.

(** [strings.ToLower] on ASCII text. *)
Definition lower (c : ascii) : ascii :=
  if (65 <=? bv c) && (bv c <=? 90) then byte_of (bv c + 32) else c.
Definition ToLower (s : bytes) : bytes := map lower s.

(** ** UTF-8 *)

Definition RuneError : Z := 65533.
(** [utf8.RuneStart]: not a continuation byte. *)
Definition RuneStart (c : ascii) : bool := negb ((128 <=? bv c) && (bv c <=? 191)).

Definition cont (lo hi : Z) (c : ascii) : bool := (lo <=? bv c) && (bv c <=? hi).

(** [utf8.DecodeRune]: the rune and its width; an ill-formed sequence is
    [RuneError] of width one, and the empty string has width zero. *)
Definition DecodeRune (s : bytes) : Z * nat :=
  match s with
  | [] => (RuneError, 0%nat)
  | c0 :: s1 =>
      let b0 := bv c0 in
      if b0 <? 128 then (b0, 1%nat)
      else if (b0 <? 194) || (244 <? b0) then (RuneError, 1%nat)
      else
        let lo := if b0 =? 224 then 160 else if b0 =? 240 then 144 else 128 in
        let hi := if b0 =? 237 then 159 else if b0 =? 244 then 143 else 191 in
        match s1 with
        | [] => (RuneError, 1%nat)
        | c1 :: s2 =>
            if negb (cont lo hi c1) then (RuneError, 1%nat)
            else if b0 <? 224 then (Z.shiftl (Z.land b0 31) 6 + Z.land (bv c1) 63, 2%nat)
            else match s2 with
                 | [] => (RuneError, 1%nat)
                 | c2 :: s3 =>
                     if negb (cont 128 191 c2) then (RuneError, 1%nat)
                     else if b0 <? 240 then
                       (Z.shiftl (Z.land b0 15) 12 + Z.shiftl (Z.land (bv c1) 63) 6 + Z.land (bv c2) 63, 3%nat)
                     else match s3 with
                          | [] => (RuneError, 1%nat)
                          | c3 :: _ =>
                              if negb (cont 128 191 c3) then (RuneError, 1%nat)
                              else (Z.shiftl (Z.land b0 7) 18 + Z.shiftl (Z.land (bv c1) 63) 12 +
                                    Z.shiftl (Z.land (bv c2) 63) 6 + Z.land (bv c3) 63, 4%nat)
                          end
                 end
        end
  end.

(** [utf8.DecodeLastRune]: decode from the nearest rune start among the last
    four bytes; it must end exactly at the end of the string. *)
Fixpoint last_start (k : nat) (s : bytes) (tries : nat) : option nat :=
  match tries with
  | O => None
  | S tries =>
      if (k <=? length s)%nat then
        match s !! (length s - k)%nat with
        | Some c => if RuneStart c then Some (length s - k)%nat else last_start (S k) s tries
        | None => None
        end
      else None
  end.

Definition DecodeLastRune (s : bytes) : Z * nat :=
  match last s with
  | None => (RuneError, 0%nat)
  | Some c =>
      if bv c <? 128 then (bv c, 1%nat)
      else match last_start 2 s 3 with
           | None => (RuneError, 1%nat)
           | Some i =>
               let '(r, n) := DecodeRune (drop i s) in
               if (i + n =? length s)%nat then (r, n) else (RuneError, 1%nat)
           end
  end.

(** [unicode.IsSpace]: the White_Space code points. *)
Definition IsSpace (r : Z) : bool :=
  ((9 <=? r) && (r <=? 13)) || (r =? 32) || (r =? 133) || (r =? 160) || (r =? 5760) ||
  ((8192 <=? r) && (r <=? 8202)) || (r =? 8232) || (r =? 8233) || (r =? 8239) || (r =? 8287) || (r =? 12288).

(** ** [strings.Fields]

    The runes of the string are read in order; a maximal run of non-space runes
    is a field.  [cur] is the field being read, empty between fields.  A string
    of [n] bytes has at most [n] runes, so [n] is enough fuel. *)
Fixpoint fields_loop (fuel : nat) (s : bytes) (cur : bytes) : list bytes :=
  match fuel with
  | O => if bool_decide (cur = []) then [] else [cur]
  | S fuel =>
      match s with
      | [] => if bool_decide (cur = []) then [] else [cur]
      | _ =>
          let '(r, n) := DecodeRune s in
          if IsSpace r
          then (if bool_decide (cur = []) then [] else [cur]) ++ fields_loop fuel (drop n s) []
          else fields_loop fuel (drop n s) (cur ++ take n s)
      end
  end.

Definition Fields (s : bytes) : list bytes := fields_loop (length s) s [].

(** [strings.TrimSpace]. *)
Fixpoint trim_left (fuel : nat) (s : bytes) : bytes :=
  match fuel with
  | O => s
  | S fuel =>
      let '(r, n) := DecodeRune s in
      if negb (bool_decide (s = [])) && IsSpace r then trim_left fuel (drop n s) else s
  end.

Fixpoint trim_right (fuel : nat) (s : bytes) : bytes :=
  match fuel with
  | O => s
  | S fuel =>
      let '(r, n) := DecodeLastRune s in
      if negb (bool_decide (s = [])) && IsSpace r then trim_right fuel (take (length s - n) s) else s
  end.

Definition TrimSpace (s : bytes) : bytes :=
  let s := trim_left (length s) s in trim_right (length s) s.

(** ** Hexadecimal *)

(** A base-16 digit, as [strconv.ParseUint] reads it. *)
Definition hexval (c : ascii) : option Z :=
  let b := bv c in
  if (48 <=? b) && (b <=? 57) then Some (b - 48)
  else if (97 <=? b) && (b <=? 102) then Some (b - 87)
  else if (65 <=? b) && (b <=? 70) then Some (b - 55)
  else None.

(** [strconv.ParseUint(s, 16, 32)]: no sign, no prefix, no underscore. *)
Fixpoint parse_hex_loop (acc : Z) (s : bytes) : option Z :=
  match s with
  | [] => Some acc
  | c :: s => match hexval c with Some v => parse_hex_loop (acc * 16 + v) s | None => None end
  end.

Definition ParseHex32 (s : bytes) : option Z :=
  if bool_decide (s = []) then None
  else match parse_hex_loop 0 s with
       | Some n => if n <? 2 ^ 32 then Some n else None
       | None => None
       end.

(** [fmt]'s [%04x]: lower-case digits, zero-padded to four. *)
Definition hexdigit (v : Z) : ascii := byte_of (if v <? 10 then v + 48 else v + 87).

Fixpoint hex_digits (fuel : nat) (n : Z) : bytes :=
  match fuel with
  | O => []
  | S fuel => if n <? 16 then [hexdigit n] else hex_digits fuel (n / 16) ++ [hexdigit (n mod 16)]
  end.

Definition hex04 (n : Z) : bytes :=
  let d := hex_digits 16 n in replicate (4 - length d) (byte_of 48) ++ d.

(** ** Lemmas *)

Lemma bv_range c : 0 <= bv c < 256.
Proof. unfold bv. pose proof (N_ascii_bounded c). lia. Qed.

Lemma bv_byte_of z : 0 <= z < 256 -> bv (byte_of z) = z.
Proof. intros H. unfold bv, byte_of. rewrite N_ascii_embedding by lia. lia. Qed.

Lemma DecodeRune_width s : s <> [] -> (1 <= (DecodeRune s).2 <= length s)%nat.
Proof.
  destruct s as [|c0 s1]; [done|]. intros _. unfold DecodeRune.
  repeat case_match; simpl; lia.
Qed.

Lemma IndexByte_Some s c i :
  IndexByte s c = Some i <-> s !! i = Some c /\ c ∉ take i s.
Proof.
  revert i. induction s as [|x s IH]; intros i; simpl.
  { split; [done|]. intros [H _]. by destruct i. }
  case_bool_decide as Hx.
  - subst x. destruct i as [|i]; simpl.
    + split; [|done]. intros _. split; [done|]. by apply not_elem_of_nil.
    + split; [done|]. intros [_ H]. exfalso. apply H. left.
  - destruct i as [|i]; simpl.
    + split; [by destruct (IndexByte s c)|]. by intros [[= ->] _].
    + rewrite not_elem_of_cons. destruct (IndexByte s c) as [j|] eqn:E; simpl.
      * split.
        -- intros [= ->]. destruct (proj1 (IH i) eq_refl). by split_and!.
        -- intros (H1 & _ & H2). f_equal. pose proof (proj2 (IH i) (conj H1 H2)). congruence.
      * split; [done|]. intros (H1 & _ & H2). by pose proof (proj2 (IH i) (conj H1 H2)).
Qed.

Lemma IndexByte_None s c : IndexByte s c = None <-> c ∉ s.
Proof.
  induction s as [|x s IH]; simpl; [set_solver|]. case_bool_decide as Hx; [set_solver|].
  destruct (IndexByte s c); [set_solver|]. destruct IH. set_solver.
Qed.

(** The separator's first occurrence, written out. *)
Lemma IndexByte_app s c t : c ∉ s -> IndexByte (s ++ c :: t) c = Some (length s).
Proof.
  intros H. apply IndexByte_Some. rewrite lookup_app_r, Nat.sub_diag by lia.
  by rewrite take_app_length.
Qed.

Lemma Cut_app s c t : c ∉ s -> Cut (s ++ c :: t) c = (s, t).
Proof.
  intros H. unfold Cut. rewrite IndexByte_app by done. rewrite take_app_length.
  by rewrite drop_app_ge, Nat.sub_succ_l, Nat.sub_diag by lia.
Qed.

Lemma TrimSuffix_app s p : TrimSuffix (s ++ p) p = s.
Proof.
  unfold TrimSuffix, HasSuffix. rewrite length_app, Nat.add_sub.
  rewrite (proj2 (Nat.leb_le _ _)) by lia. rewrite drop_app_length, bool_decide_true by done. simpl.
  by rewrite take_app_length.
Qed.

Lemma HasPrefix_app p s : HasPrefix (p ++ s) p = true.
Proof. unfold HasPrefix. by rewrite take_app_length, bool_decide_true. Qed.

Lemma HasPrefix_true s p : HasPrefix s p = true <-> exists t, s = p ++ t.
Proof.
  unfold HasPrefix. rewrite bool_decide_eq_true. split.
  - intros H. exists (drop (length p) s). rewrite <- H at 1. by rewrite take_drop.
  - intros [t ->]. by rewrite take_app_length.
Qed.

Lemma HasSuffix_true s p : HasSuffix s p = true <-> exists t, s = t ++ p.
Proof.
  unfold HasSuffix. rewrite andb_true_iff, bool_decide_eq_true, Nat.leb_le. split.
  - intros [H E]. exists (take (length s - length p) s). rewrite <- E at 2. by rewrite take_drop.
  - intros [t ->]. rewrite length_app, Nat.add_sub, drop_app_length. split; [lia|done].
Qed.

(** ** Fields of a space-separated string *)

Lemma cont_SP lo hi : 128 <= lo -> cont lo hi SP = false.
Proof. intros H. unfold cont. change (bv SP) with 32. by rewrite (proj2 (Z.leb_gt lo 32)) by lia. Qed.

(** A space ends whatever rune precedes it: it is never a continuation byte. *)
Lemma DecodeRune_app_SP s t : s <> [] -> DecodeRune (s ++ SP :: t) = DecodeRune s.
Proof.
  destruct s as [|c0 s1]; [done|]. intros _. unfold DecodeRune. cbn [app].
  destruct (bv c0 <? 128); [done|]. destruct (_ || _); [done|].
  set (lo := if bv c0 =? 224 then 160 else if bv c0 =? 240 then 144 else 128).
  assert (Hlo : 128 <= lo) by (unfold lo; repeat case_match; lia).
  destruct s1 as [|c1 s2]; cbn [app]; [by rewrite cont_SP|]. destruct (cont lo _ c1); [|done]. cbn [negb].
  destruct (bv c0 <? 224); [done|].
  destruct s2 as [|c2 s3]; cbn [app]; [by rewrite cont_SP by lia|]. destruct (cont 128 191 c2); [|done]. cbn [negb].
  destruct (bv c0 <? 240); [done|].
  destruct s3 as [|c3 s4]; cbn [app]; [by rewrite cont_SP by lia|]. done.
Qed.

Lemma fields_loop_fuel f f' s cur :
  (length s <= f)%nat -> (length s <= f')%nat -> fields_loop f s cur = fields_loop f' s cur.
Proof.
  revert f' s cur. induction f as [|f IH]; intros [|f'] s cur H H'; [done|..].
  - by destruct s; [|simpl in H; lia].
  - by destruct s; [|simpl in H'; lia].
  - cbn [fields_loop]. destruct s as [|c s]; [done|].
    pose proof (DecodeRune_width (c :: s) ltac:(done)) as Hw. destruct (DecodeRune (c :: s)) as [r n].
    simpl snd in Hw. assert (Hd : (length (drop n (c :: s)) <= f)%nat /\ (length (drop n (c :: s)) <= f')%nat)
      by (rewrite length_drop; lia).
    destruct Hd as [Hd Hd']. rewrite (IH f' _ [] Hd Hd'), (IH f' _ (cur ++ take n (c :: s)) Hd Hd'). done.
Qed.

Lemma fields_loop_SP f s t cur :
  (length s + S (length t) <= f)%nat -> fields_loop f (s ++ SP :: t) cur = fields_loop f s cur ++ Fields t.
Proof.
  revert s cur. induction f as [|f IH]; intros s cur Hf; [lia|]. destruct s as [|c s].
  - cbn [app fields_loop]. change (DecodeRune (SP :: t)) with (32, 1%nat). change (IsSpace 32) with true. cbv iota.
    change (drop 1 (SP :: t)) with t. unfold Fields. by rewrite (fields_loop_fuel f (length t) t []) by (simpl in Hf; lia).
  - cbn [fields_loop]. rewrite <- app_comm_cons. rewrite (app_comm_cons s (SP :: t) c), DecodeRune_app_SP by done.
    pose proof (DecodeRune_width (c :: s) ltac:(done)) as Hw. destruct (DecodeRune (c :: s)) as [r n]. simpl snd in Hw.
    rewrite drop_app_le, take_app_le by lia.
    assert (Hd : (length (drop n (c :: s)) + S (length t) <= f)%nat) by (rewrite length_drop; lia).
    rewrite !(IH (drop n (c :: s))) by done. destruct (IsSpace r); [by rewrite app_assoc|done].
Qed.

Lemma Fields_app_SP s t : Fields (s ++ SP :: t) = Fields s ++ Fields t.
Proof.
  unfold Fields at 1. rewrite fields_loop_SP by (rewrite length_app; simpl; lia).
  unfold Fields at 2. f_equal. apply fields_loop_fuel; rewrite ?length_app; simpl; lia.
Qed.

(** A string that is one field: non-empty and free of white space. *)
Definition solid (s : bytes) : Prop := Fields s = [s].

(** * Paths and decimal numbers

    What the code uses of Go's path, strconv and strings for request paths:
    [path.Clean], [strconv.Atoi], [strings.Trim] and [strings.Index]. *)



Module GoPath.

Definition DOT : bytes := bs ".".
Definition DOTDOT : bytes := bs "..".

(** One path element against the elements kept so far, last first. *)
Definition cleanStep (rooted : bool) (acc : list bytes) (seg : bytes) : list bytes :=
  if bool_decide (seg = []) || bool_decide (seg = DOT) then acc
  else if bool_decide (seg = DOTDOT) then
    match acc with
    | top :: acc' => if bool_decide (top = DOTDOT) then seg :: acc else acc'
    | [] => if rooted then [] else [seg]
    end
  else seg :: acc.

(** [path.Clean]: empty elements and [.] vanish, [..] removes the element
    before it (and vanishes at the root), and the empty result is [.]. *)
Definition Clean (s : bytes) : bytes :=
  let rooted := HasPrefix s [SLASH] in
  let body := Join (rev (fold_left (cleanStep rooted) (Split s SLASH) [])) [SLASH] in
  if rooted then SLASH :: body else match body with [] => DOT | _ => body end.

(** [strings.Trim] with a one-byte cutset. *)
Fixpoint TrimLeftByte (c : ascii) (s : bytes) : bytes :=
  match s with
  | [] => []
  | x :: r => if bool_decide (x = c) then TrimLeftByte c r else s
  end.
Definition TrimRightByte (c : ascii) (s : bytes) : bytes := rev (TrimLeftByte c (rev s)).
Definition TrimByte (c : ascii) (s : bytes) : bytes := TrimRightByte c (TrimLeftByte c s).

(** [strings.Index]; [None] is -1. *)
Fixpoint Index (s sub : bytes) : option nat :=
  if HasPrefix s sub then Some 0%nat
  else match s with [] => None | _ :: r => S <$> Index r sub end.

(** [strconv.Atoi]: an optional sign and decimal digits, in [int64]. *)
Fixpoint decimal (acc : Z) (s : bytes) : option Z :=
  match s with
  | [] => Some acc
  | c :: r => if (48 <=? bv c) && (bv c <=? 57) then decimal (acc * 10 + (bv c - 48)) r else None
  end.
Definition Atoi (s : bytes) : option Z :=
  let '(neg, ds) := match s with
                    | c :: r => if bool_decide (c = "-"%char) then (true, r)
                                else if bool_decide (c = "+"%char) then (false, r) else (false, s)
                    | [] => (false, s)
                    end in
  match ds with
  | [] => None
  | _ => n ← decimal 0 ds;
         let v := if neg : bool then - n else n in
         if (int64_min <=? v) && (v <=? int64_max) then Some v else None
  end.

(** [strconv.Atoi] gave a positive number. *)
Definition positive (s : bytes) : option Z :=
  n ← Atoi s; if n <=? 0 then None else Some n.

(** [url.PathUnescape]: percent-encoded bytes decoded; [None] is an error. *)
Fixpoint PathUnescape (s : bytes) : option bytes :=
  match s with
  | [] => Some []
  | c :: r =>
      if bool_decide (c = "%"%char) then
        match r with
        | h :: l :: r' =>
            hi ← hexval h; lo ← hexval l; rest ← PathUnescape r';
            Some (byte_of (hi * 16 + lo) :: rest)
        | _ => None
        end
      else rest ← PathUnescape r; Some (c :: rest)
  end.

End GoPath.
