(* ===== verification/GitPkt.v ===== *)
(** * pkt-lines and receive-pack command blocks

    Models the framing and command parsing of
    internal/proxy/gitproxy/receivepack.go and the capability parsing of
    reportstatus.go.  A request body is the bytes left to read: [io.ReadFull]
    fails when fewer are left than it asks for. *)

From S2P Require Import Prelude GoBytes.

Definition maxReceivePackCapture : nat := Z.to_nat 65536.
#[global] Opaque maxReceivePackCapture.
Definition pktLineLenWidth : nat := 4.
Definition flush_pkt : bytes := bs "0000".

(** ** Framing *)

Definition pktLineLen (b : bytes) : option nat := Z.to_nat <$> ParseHex32 b.

(** [writePktLine]'s output for one payload. *)
Definition writePktLine (payload : bytes) : bytes :=
  hex04 (Z.of_nat (length payload + pktLineLenWidth)) ++ payload.

Inductive read_err := ShortRead | MalformedLength | InvalidLength (n : nat).

(** What [readCommandBlock] returns, with the bytes left unread. *)
Record block_read := BR { br_block : bytes; br_flush : bool; br_err : option read_err; br_rest : bytes }.

(** One iteration per pkt-line; each consumes at least its four-byte header, so
    [length r + 1] iterations are enough. *)
Fixpoint read_loop (fuel : nat) (buf r : bytes) (max : nat) : option block_read :=
  match fuel with
  | O => None
  | S fuel =>
      if (length r <? pktLineLenWidth)%nat then Some (BR buf false (Some ShortRead) []) else
      let hdr := take pktLineLenWidth r in
      let r := drop pktLineLenWidth r in
      let buf := buf ++ hdr in
      match pktLineLen hdr with
      | None => Some (BR buf false (Some MalformedLength) r)
      | Some n =>
          if (n =? 0)%nat then Some (BR buf true None r) else
          if (n <? pktLineLenWidth)%nat then Some (BR buf false (Some (InvalidLength n)) r) else
          let payloadLen := (n - pktLineLenWidth)%nat in
          if (max <? length buf + payloadLen)%nat then Some (BR buf false None r) else
          if (length r <? payloadLen)%nat then Some (BR buf false (Some ShortRead) []) else
          read_loop fuel (buf ++ take payloadLen r) (drop payloadLen r) max
      end
  end.

Definition readCommandBlock (r : bytes) (max : nat) : option block_read :=
  read_loop (S (length r)) [] r max.

(** ** Ref-update commands *)

(** [isZeroOID]: all zeros, the empty string included. *)
Definition isZeroOID (s : bytes) : bool := forallb (fun c => bv c =? 48) s.

(** A command line without its trailing LF and its capabilities. *)
Definition command_text (line : bytes) : bytes :=
  let line := TrimSuffix line [LF] in
  match IndexByte line NUL with Some i => take i line | None => line end.

Record refUpdate := RefUpdate { ru_ref : bytes; ru_newSHA : bytes; ru_created : bool }.

Definition parseRefUpdate (line : bytes) : option refUpdate :=
  match Fields (command_text line) with
  | [oldSHA; newSHA; ref] =>
      if isZeroOID newSHA then None else Some (RefUpdate ref newSHA (isZeroOID oldSHA))
  | _ => None
  end.

Record gateCommand := GateCommand { gc_ref : bytes; gc_isDelete : bool }.
#[global] Instance gateCommand_eq_dec : EqDecision gateCommand. Proof. solve_decision. Defined.

Definition parseGateRefUpdate (line : bytes) : option gateCommand :=
  match Fields (command_text line) with
  | [_; newSHA; ref] => Some (GateCommand ref (isZeroOID newSHA))
  | _ => None
  end.

Definition opt_cons {A} (x : option A) (l : list A) : list A :=
  match x with Some a => a :: l | None => l end.

(** The scan loop both parsers share in shape: stop at the flush-pkt, at a bad
    length or at a line longer than what is left. *)
Fixpoint gate_loop (fuel : nat) (body : bytes) : list gateCommand :=
  match fuel with
  | O => []
  | S fuel =>
      if (length body <? pktLineLenWidth)%nat then [] else
      match pktLineLen (take pktLineLenWidth body) with
      | None => []
      | Some n =>
          if (n =? 0)%nat || (n <? pktLineLenWidth)%nat || (length body <? n)%nat then [] else
          opt_cons (parseGateRefUpdate (drop pktLineLenWidth (take n body))) (gate_loop fuel (drop n body))
      end
  end.

Definition parseGateCommands (body : bytes) : list gateCommand := gate_loop (length body) body.

Fixpoint receive_loop (fuel : nat) (body : bytes) : list refUpdate :=
  match fuel with
  | O => []
  | S fuel =>
      if (length body <? pktLineLenWidth)%nat then [] else
      match pktLineLen (take pktLineLenWidth body) with
      | None => []
      | Some n =>
          if (n =? 0)%nat || (n <? pktLineLenWidth)%nat || (length body <? n)%nat then [] else
          opt_cons (parseRefUpdate (drop pktLineLenWidth (take n body))) (receive_loop fuel (drop n body))
      end
  end.

Definition parseReceivePackCommands (body : bytes) : list refUpdate := receive_loop (length body) body.

(** ** Capabilities *)

Record pushCapabilities := Caps { sideBand : bool; reportStatus : bool }.

Definition add_cap (caps : pushCapabilities) (c : bytes) : pushCapabilities :=
  if bool_decide (c = bs "side-band") || bool_decide (c = bs "side-band-64k") then Caps true (reportStatus caps)
  else if bool_decide (c = bs "report-status") || bool_decide (c = bs "report-status-v2") then Caps (sideBand caps) true
  else caps.

(** The capabilities after a line's first NUL, if it holds one. *)
Definition line_caps (line : bytes) : option pushCapabilities :=
  match IndexByte line NUL with
  | Some i => Some (fold_left add_cap (Fields (drop (S i) line)) (Caps false false))
  | None => None
  end.

Fixpoint caps_loop (fuel : nat) (block : bytes) : pushCapabilities :=
  match fuel with
  | O => Caps false false
  | S fuel =>
      if (length block <? pktLineLenWidth)%nat then Caps false false else
      match pktLineLen (take pktLineLenWidth block) with
      | None => Caps false false
      | Some n =>
          if (n <? pktLineLenWidth)%nat || (length block <? n)%nat then Caps false false else
          match line_caps (drop pktLineLenWidth (take n block)) with
          | Some caps => caps
          | None => caps_loop fuel (drop n block)
          end
      end
  end.

Definition parsePushCapabilities (block : bytes) : pushCapabilities := caps_loop (length block) block.

(** ** Capturing the observed body

    [receivePackCapture.Read]: a read that returned [p] copies what fits under
    [max] into the buffer; the caller gets [p] unchanged. *)
Definition capture_read (max : nat) (buf p : bytes) : bytes :=
  if (length buf <? max)%nat then buf ++ take (max - length buf) p else buf.

(** ** Framed blocks *)

(** A header and the payload it announces. *)
Definition frame_ok (hdr p : bytes) : Prop :=
  length hdr = pktLineLenWidth /\ pktLineLen hdr = Some (pktLineLenWidth + length p)%nat.

(** [framed ps b]: the pkt-lines with payloads [ps], then a flush-pkt. *)
Inductive framed : list bytes -> bytes -> Prop :=
| framed_flush hdr : length hdr = pktLineLenWidth -> pktLineLen hdr = Some 0%nat -> framed [] hdr
| framed_line hdr p ps b : frame_ok hdr p -> framed ps b -> framed (p :: ps) (hdr ++ p ++ b).

Lemma frame_parts hdr p b :
  frame_ok hdr p ->
  take pktLineLenWidth (hdr ++ p ++ b) = hdr /\
  drop pktLineLenWidth (take (pktLineLenWidth + length p) (hdr ++ p ++ b)) = p /\
  drop (pktLineLenWidth + length p) (hdr ++ p ++ b) = b /\
  (length (hdr ++ p ++ b) <? pktLineLenWidth)%nat = false /\
  (length (hdr ++ p ++ b) <? pktLineLenWidth + length p)%nat = false /\
  ((pktLineLenWidth + length p <? pktLineLenWidth)%nat = false).
Proof.
  intros [Hl _]. rewrite !length_app, Hl, !Nat.ltb_ge. split_and!; try lia.
  - by rewrite <- Hl, take_app_length.
  - rewrite <- Hl, <- length_app, app_assoc, take_app_length. by rewrite drop_app_length.
  - rewrite <- Hl, <- length_app, app_assoc. by rewrite drop_app_length.
Qed.

Lemma framed_length ps b : framed ps b -> (pktLineLenWidth <= length b)%nat.
Proof. destruct 1 as [hdr Hl _|hdr p ps b [Hl _] _]; [lia|]. rewrite length_app. lia. Qed.

Lemma framed_cons p ps b :
  framed (p :: ps) b -> exists hdr b', b = hdr ++ p ++ b' /\ frame_ok hdr p /\ framed ps b'.
Proof. inversion 1; subst; eauto. Qed.

Lemma frame_fuel hdr p (b : bytes) fuel :
  frame_ok hdr p -> (length (hdr ++ p ++ b) <= S fuel)%nat -> (length b <= fuel)%nat.
Proof. intros [Hl _]. rewrite !length_app, Hl. unfold pktLineLenWidth. lia. Qed.

(** Every parser's loop, on a framed block, is a pass over the payloads:
    [flush_case] closes the flush-pkt, [line_case] steps over one line. *)
Ltac flush_case :=
  match goal with
  | Hl : length ?hdr = pktLineLenWidth, H0 : pktLineLen ?hdr = Some 0%nat |- _ =>
      rewrite ?Hl, ?(take_ge hdr pktLineLenWidth) by lia; rewrite ?H0
  end.
Ltac line_case :=
  match goal with
  | Hf : frame_ok ?hdr ?p |- context [?hdr ++ ?p ++ ?b] =>
      let E1 := fresh in let E2 := fresh in let E3 := fresh in
      let E4 := fresh in let E5 := fresh in let E6 := fresh in
      destruct (frame_parts hdr p b Hf) as (E1 & E2 & E3 & E4 & E5 & E6);
      rewrite ?E4, ?E1, (proj2 Hf), ?E2, ?E3, ?E5, ?E6; clear E1 E2 E3 E4 E5 E6
  end.
Ltac no_fuel :=
  match goal with
  | Hl : length ?hdr = pktLineLenWidth, H : (length ?hdr <= 0)%nat |- _ =>
      exfalso; rewrite Hl in H; unfold pktLineLenWidth in H; lia
  | Hf : frame_ok ?hdr _, H : (length (?hdr ++ _) <= 0)%nat |- _ =>
      let Hq := fresh in exfalso; destruct Hf as [Hq _]; rewrite length_app, Hq in H; unfold pktLineLenWidth in H; lia
  end.

Lemma gate_loop_framed fuel ps b :
  framed ps b -> (length b <= fuel)%nat -> gate_loop fuel b = omap parseGateRefUpdate ps.
Proof.
  intros H. revert fuel. induction H as [hdr Hl H0|hdr p ps b Hf Hb IH];
    intros [|fuel] Hlen; try no_fuel; cbn [gate_loop].
  - by flush_case.
  - line_case. cbn [Nat.add Nat.eqb orb omap list_omap]. rewrite IH by (by eapply frame_fuel). done.
Qed.

Lemma receive_loop_framed fuel ps b :
  framed ps b -> (length b <= fuel)%nat -> receive_loop fuel b = omap parseRefUpdate ps.
Proof.
  intros H. revert fuel. induction H as [hdr Hl H0|hdr p ps b Hf Hb IH];
    intros [|fuel] Hlen; try no_fuel; cbn [receive_loop].
  - by flush_case.
  - line_case. cbn [Nat.add Nat.eqb orb omap list_omap]. rewrite IH by (by eapply frame_fuel). done.
Qed.

(** The first line that holds a NUL. *)
Definition first_caps (ps : list bytes) : pushCapabilities :=
  default (Caps false false) (head (omap line_caps ps)).

Lemma caps_loop_framed fuel ps b :
  framed ps b -> (length b <= fuel)%nat -> caps_loop fuel b = first_caps ps.
Proof.
  intros H. revert fuel. induction H as [hdr Hl H0|hdr p ps b Hf Hb IH];
    intros [|fuel] Hlen; try no_fuel; cbn [caps_loop].
  - by flush_case.
  - line_case. cbn [orb]. unfold first_caps. cbn [omap list_omap].
    destruct (line_caps p); [done|]. rewrite IH by (by eapply frame_fuel). done.
Qed.

(** ** Reading a block *)

Lemma read_loop_inv fuel buf r max x :
  read_loop fuel buf r max = Some x ->
  (exists b, br_block x = buf ++ b /\
     (br_flush x = true -> br_err x = None /\ r = b ++ br_rest x /\ (exists ps, framed ps b) /\
        ((length buf <= max)%nat -> (length (br_block x) <= max + pktLineLenWidth)%nat))).
Proof.
  revert buf r. induction fuel as [|fuel IH]; [done|]. intros buf r. cbn [read_loop].
  destruct (Nat.ltb_spec (length r) pktLineLenWidth) as [|Hr].
  { intros [= <-]. exists []. by rewrite app_nil_r. }
  assert (Hl : length (take pktLineLenWidth r) = pktLineLenWidth) by (rewrite length_take; lia).
  destruct (pktLineLen (take pktLineLenWidth r)) as [n|] eqn:Hn; [|intros [= <-]; by eexists].
  destruct (Nat.eqb_spec n 0) as [->|Hn0].
  { intros [= <-]. exists (take pktLineLenWidth r). split; [done|]. intros _. cbn [br_err br_rest br_block].
    split_and!; [done|by rewrite take_drop|exists []; by apply framed_flush|rewrite length_app, Hl; lia]. }
  destruct (Nat.ltb_spec n pktLineLenWidth); [intros [= <-]; by eexists|].
  destruct (Nat.ltb_spec max (length (buf ++ take pktLineLenWidth r) + (n - pktLineLenWidth))); [intros [= <-]; by eexists|].
  destruct (Nat.ltb_spec (length (drop pktLineLenWidth r)) (n - pktLineLenWidth)) as [|Hp]; [intros [= <-]; by eexists|].
  set (hdr := take pktLineLenWidth r) in *. set (p := take (n - pktLineLenWidth) (drop pktLineLenWidth r)).
  assert (Hpl : length p = (n - pktLineLenWidth)%nat) by (unfold p; rewrite length_take; lia).
  intros (b & Hb & Hflush)%IH. exists (hdr ++ p ++ b). split; [by rewrite Hb, !app_assoc|]. intros Hf.
  destruct (Hflush Hf) as (He & Hrest & [ps Hps] & Hmax). split_and!; [done| | |].
  - rewrite <- !app_assoc, <- Hrest. unfold hdr, p. by rewrite !take_drop.
  - exists (p :: ps). constructor; [|done]. split; [done|]. rewrite Hn, Hpl. f_equal. lia.
  - intros _. apply Hmax. rewrite length_app, Hpl. lia.
Qed.

Lemma read_loop_total fuel buf r max :
  (length r < fuel)%nat -> is_Some (read_loop fuel buf r max).
Proof.
  revert buf r. induction fuel as [|fuel IH]; [lia|]. intros buf r Hlen. cbn [read_loop].
  destruct (Nat.ltb_spec (length r) pktLineLenWidth); [by eexists|].
  destruct (pktLineLen _) as [n|]; [|by eexists].
  destruct (n =? 0)%nat; [by eexists|]. destruct (n <? pktLineLenWidth)%nat; [by eexists|].
  destruct (max <? _)%nat; [by eexists|]. destruct (_ <? _)%nat; [by eexists|].
  apply IH. rewrite !length_drop. unfold pktLineLenWidth in *. lia.
Qed.

(** What the gate reads when it sees the flush-pkt. *)
Lemma readCommandBlock_flush r max x :
  readCommandBlock r max = Some x -> br_flush x = true ->
  br_err x = None /\ r = br_block x ++ br_rest x /\ (exists ps, framed ps (br_block x)) /\
  (length (br_block x) <= max + pktLineLenWidth)%nat.
Proof.
  intros (b & Hb & H)%read_loop_inv Hf. simpl in Hb. subst b.
  destruct (H Hf) as (? & ? & ? & Hmax). split_and!; try done. apply Hmax. simpl. lia.
Qed.

(** ** Writing *)

Lemma hexval_hexdigit v : 0 <= v < 16 -> hexval (hexdigit v) = Some v.
Proof.
  intros H. assert (Hv : v = 0 \/ v = 1 \/ v = 2 \/ v = 3 \/ v = 4 \/ v = 5 \/ v = 6 \/ v = 7 \/ v = 8 \/ v = 9 \/
    v = 10 \/ v = 11 \/ v = 12 \/ v = 13 \/ v = 14 \/ v = 15) by lia.
  by repeat destruct Hv as [->|Hv]; [..|subst v].
Qed.

(** A length below 2^16 is written as exactly four digits that read back. *)
Lemma hex04_small n :
  0 <= n < 65536 ->
  hex04 n = [hexdigit (n / 4096); hexdigit (n / 256 mod 16); hexdigit (n / 16 mod 16); hexdigit (n mod 16)].
Proof.
  intros H. unfold hex04. 
  destruct (Z.ltb_spec n 16).
  { cbn [hex_digits]. rewrite (proj2 (Z.ltb_lt n 16)) by lia. cbn.
    by rewrite !(Z.div_small n), (Z.mod_small n) by lia. }
  destruct (Z.ltb_spec n 256).
  { cbn [hex_digits]. rewrite (proj2 (Z.ltb_ge n 16)) by lia.
    rewrite (proj2 (Z.ltb_lt (n / 16) 16)) by (apply Z.div_lt_upper_bound; lia). cbn.
    rewrite !(Z.div_small n 4096), !(Z.div_small n 256), (Z.mod_small (n / 16)) by (split; [apply Z.div_pos; lia|apply Z.div_lt_upper_bound; lia] || lia).
    done. }
  destruct (Z.ltb_spec n 4096).
  { cbn [hex_digits]. rewrite (proj2 (Z.ltb_ge n 16)) by lia.
    rewrite (proj2 (Z.ltb_ge (n / 16) 16)) by (apply Z.div_le_lower_bound; lia).
    rewrite Z.div_div by lia. rewrite (proj2 (Z.ltb_lt (n / (16 * 16)) 16)) by (apply Z.div_lt_upper_bound; lia). cbn.
    rewrite !(Z.div_small n 4096), (Z.mod_small (n / 256)) by (split; [apply Z.div_pos; lia|apply Z.div_lt_upper_bound; lia] || lia).
    done. }
  cbn [hex_digits]. rewrite (proj2 (Z.ltb_ge n 16)) by lia.
  rewrite (proj2 (Z.ltb_ge (n / 16) 16)) by (apply Z.div_le_lower_bound; lia).
  rewrite !Z.div_div by lia. rewrite (proj2 (Z.ltb_ge (n / (16 * 16)) 16)) by (apply Z.div_le_lower_bound; lia).
  rewrite (proj2 (Z.ltb_lt (n / (16 * 16 * 16)) 16)) by (apply Z.div_lt_upper_bound; lia). done.
Qed.

Lemma pktLineLen_hex04 n :
  Z.of_nat n < 65536 -> length (hex04 (Z.of_nat n)) = pktLineLenWidth /\ pktLineLen (hex04 (Z.of_nat n)) = Some n.
Proof.
  intros H. rewrite hex04_small by lia. split; [done|].
  unfold pktLineLen, ParseHex32. rewrite bool_decide_false by done. cbn [parse_hex_loop].
  assert (Hm : 0 <= Z.of_nat n < 65536) by lia. set (m := Z.of_nat n) in *.
  rewrite !hexval_hexdigit by
    (apply Z.mod_pos_bound; lia) || (split; [apply Z.div_pos; lia|apply Z.div_lt_upper_bound; lia]).
  assert (E : (((0 * 16 + m / 4096) * 16 + m / 256 mod 16) * 16 + m / 16 mod 16) * 16 + m mod 16 = m).
  { pose proof (Z.div_mod m 16 ltac:(lia)). pose proof (Z.div_mod (m / 16) 16 ltac:(lia)) as H2.
    pose proof (Z.div_mod (m / 256) 16 ltac:(lia)) as H3. rewrite Z.div_div in H2, H3 by lia.
    change (16 * 16) with 256 in *. change (256 * 16) with 4096 in *. lia. }
  rewrite E. rewrite (proj2 (Z.ltb_lt m (2 ^ 32))) by lia. simpl. f_equal. unfold m. lia.
Qed.

(** A written line is a frame, as long as its length fits four digits. *)
Lemma writePktLine_frame p :
  Z.of_nat (length p + pktLineLenWidth) < 65536 ->
  exists hdr, writePktLine p = hdr ++ p /\ frame_ok hdr p.
Proof.
  intros H. exists (hex04 (Z.of_nat (length p + pktLineLenWidth))). split; [done|].
  destruct (pktLineLen_hex04 _ H) as [? ?]. split; [done|]. rewrite (Nat.add_comm pktLineLenWidth). done.
Qed.

Lemma framed_write ps :
  Forall (fun p => Z.of_nat (length p + pktLineLenWidth) < 65536) ps ->
  framed ps (concat (map writePktLine ps) ++ flush_pkt).
Proof.
  induction 1 as [|p ps Hp _ IH]; simpl; [by constructor|].
  destruct (writePktLine_frame p Hp) as (hdr & -> & Hf). rewrite <- !app_assoc. by constructor.
Qed.
