(* ===== verification/GitReport.v ===== *)
(** * Reading a receive-pack response

    Models internal/proxy/gitproxy/reportstatus.go: the side-band capture that
    runs as the response streams by, the report-status parser, and the bounded
    tail of the remote's messages.  The capture is a state machine fed one
    write at a time. *)

From S2P Require Import Prelude GoBytes GitPkt.

Definition maxReportCapture : nat := Z.to_nat 65536.
#[global] Opaque maxReportCapture.
Definition remoteMessageLines : nat := 20.
Definition remoteMessageMax : nat := Z.to_nat 1024.
Definition maxReasonLen : nat := Z.to_nat 256.
#[global] Opaque remoteMessageMax maxReasonLen.
Definition UTFMax : nat := 4.

Definition sideBandData : ascii := byte_of 1.
Definition sideBandProgress : ascii := byte_of 2.
Definition sideBandError : ascii := byte_of 3.

#[global] Instance ascii_countable : Countable ascii := inj_countable' N_of_ascii ascii_of_N ascii_N_embedding.

(** ** The remote message's tail *)

Record messageTail := MT { mt_lines : list bytes; mt_cur : bytes; mt_curCR : bool }.
Definition empty_tail : messageTail := MT [] [] false.

(** The last [n] bytes. *)
Definition lastn {A} (n : nat) (l : list A) : list A := drop (length l - n) l.

Definition mt_push (m : messageTail) (line : bytes) : messageTail :=
  let lines := if (length (mt_lines m) =? remoteMessageLines)%nat then drop 1 (mt_lines m) else mt_lines m in
  MT (lines ++ [line]) (mt_cur m) (mt_curCR m).

Definition mt_endLine (m : messageTail) : messageTail :=
  let m := if mt_curCR m then m else mt_push m (mt_cur m) in
  MT (mt_lines m) [] false.

Definition mt_extend (m : messageTail) (p : bytes) : messageTail :=
  if mt_curCR m then m
  else match IndexByte p CR with
       | Some _ => MT (mt_lines m) [] true
       | None =>
           let cur := mt_cur m ++ p in
           let over := (length cur - remoteMessageMax - UTFMax)%nat in
           MT (mt_lines m) (if (0 <? over)%nat then drop over cur else cur) false
       end.

(** One iteration per newline of [p], so [length p + 1] are enough. *)
Fixpoint mt_write_loop (fuel : nat) (m : messageTail) (p : bytes) : messageTail :=
  match fuel with
  | O => m
  | S fuel =>
      match IndexByte p LF with
      | None => mt_extend m p
      | Some i => mt_write_loop fuel (mt_endLine (mt_extend m (take i p))) (drop (S i) p)
      end
  end.

Definition mt_write (m : messageTail) (p : bytes) : messageTail := mt_write_loop (S (length p)) m p.

(** Drop leading continuation bytes. *)
Fixpoint rune_align (s : bytes) : bytes :=
  match s with
  | c :: s' => if RuneStart c then s else rune_align s'
  | [] => []
  end.

(** The tail of [String] after the join. *)
Definition mt_cut (s : bytes) : bytes :=
  TrimSpace (if (remoteMessageMax <? length s)%nat then rune_align (lastn remoteMessageMax s) else s).

Definition mt_String (m : messageTail) : bytes :=
  let lines := if mt_curCR m then mt_lines m else mt_lines m ++ [mt_cur m] in
  let lines := if (remoteMessageLines <? length lines)%nat then lastn remoteMessageLines lines else lines in
  mt_cut (Join lines [LF]).

(** ** The capture *)

Record reportCapture := RC {
  rc_raw : bytes; rc_rawOver : bool; rc_pending : bytes; rc_band1 : bytes; rc_band1Over : bool;
  rc_broken : bool; rc_done : bool; rc_fatal : bool; rc_message : messageTail }.
Definition empty_capture : reportCapture := RC [] false [] [] false false false false empty_tail.

Definition set_pending (c : reportCapture) (p : bytes) : reportCapture :=
  RC (rc_raw c) (rc_rawOver c) p (rc_band1 c) (rc_band1Over c) (rc_broken c) (rc_done c) (rc_fatal c) (rc_message c).
Definition set_broken (c : reportCapture) : reportCapture :=
  RC (rc_raw c) (rc_rawOver c) (rc_pending c) (rc_band1 c) (rc_band1Over c) true (rc_done c) (rc_fatal c) (rc_message c).
Definition set_done (c : reportCapture) : reportCapture :=
  RC (rc_raw c) (rc_rawOver c) (rc_pending c) (rc_band1 c) (rc_band1Over c) (rc_broken c) true (rc_fatal c) (rc_message c).

Definition demux (c : reportCapture) (payload : bytes) : reportCapture :=
  match payload with
  | [] => c
  | band :: data =>
      if bool_decide (band = sideBandData) then
        if rc_band1Over c then c
        else if (maxReportCapture <? length (rc_band1 c) + length data)%nat
        then RC (rc_raw c) (rc_rawOver c) (rc_pending c) [] true (rc_broken c) (rc_done c) (rc_fatal c) (rc_message c)
        else RC (rc_raw c) (rc_rawOver c) (rc_pending c) (rc_band1 c ++ data) false (rc_broken c) (rc_done c) (rc_fatal c) (rc_message c)
      else if bool_decide (band = sideBandError) then
        RC (rc_raw c) (rc_rawOver c) (rc_pending c) (rc_band1 c) (rc_band1Over c) (rc_broken c) (rc_done c) true (mt_write (rc_message c) data)
      else if bool_decide (band = sideBandProgress) then
        RC (rc_raw c) (rc_rawOver c) (rc_pending c) (rc_band1 c) (rc_band1Over c) (rc_broken c) (rc_done c) (rc_fatal c) (mt_write (rc_message c) data)
      else set_broken c
  end.

(** The demultiplexing loop over the pending bytes; [pend] is what the offset
    leaves.  Each iteration consumes a whole pkt-line. *)
Fixpoint feed_loop (fuel : nat) (c : reportCapture) (pend : bytes) : reportCapture :=
  match fuel with
  | O => set_pending c pend
  | S fuel =>
      if (length pend <? pktLineLenWidth)%nat then set_pending c pend else
      match pktLineLen (take pktLineLenWidth pend) with
      | None => set_pending (set_broken c) []
      | Some n =>
          if (0 <? n)%nat && (n <? pktLineLenWidth)%nat then set_pending (set_broken c) [] else
          if (n =? 0)%nat then set_pending (set_done c) [] else
          if (length pend <? n)%nat then set_pending c pend else
          let c := demux c (drop pktLineLenWidth (take n pend)) in
          if rc_broken c then set_pending c [] else feed_loop fuel c (drop n pend)
      end
  end.

Definition feed (c : reportCapture) (b : bytes) : reportCapture :=
  let c :=
    if rc_rawOver c then c
    else if (maxReportCapture <? length (rc_raw c) + length b)%nat
    then RC [] true (rc_pending c) (rc_band1 c) (rc_band1Over c) (rc_broken c) (rc_done c) (rc_fatal c) (rc_message c)
    else RC (rc_raw c ++ b) false (rc_pending c) (rc_band1 c) (rc_band1Over c) (rc_broken c) (rc_done c) (rc_fatal c) (rc_message c) in
  if rc_broken c || rc_done c then c
  else feed_loop (length (rc_pending c ++ b)) c (rc_pending c ++ b).

(** ** The report *)

Record refReport := RefReport { rr_ok : bool; rr_reason : bytes }.
(** [rp_refused] empty is Go's empty string: the push was not refused whole. *)
Record receivePackReport := Report { rp_refused : bytes; rp_refs : gmap bytes refReport }.

(** The largest rune boundary at or below [cut]. *)
Fixpoint rune_boundary (s : bytes) (cut : nat) : nat :=
  match cut with
  | O => O
  | S cut' => match s !! cut with
              | Some c => if RuneStart c then cut else rune_boundary s cut'
              | None => cut
              end
  end.

Definition boundReason (s : bytes) : bytes :=
  if (length s <=? maxReasonLen)%nat then s else take (rune_boundary s maxReasonLen) s.

Fixpoint report_loop (fuel : nat) (refused : bytes) (refs : gmap bytes refReport) (sawUnpack : bool) (b : bytes)
  : option receivePackReport :=
  match fuel with
  | O => None
  | S fuel =>
      if (length b <? pktLineLenWidth)%nat then None else
      match pktLineLen (take pktLineLenWidth b) with
      | None => None
      | Some n =>
          if (n =? 0)%nat then (if sawUnpack then Some (Report refused refs) else None) else
          if (n <? pktLineLenWidth)%nat || (length b <? n)%nat then None else
          let line := TrimSuffix (drop pktLineLenWidth (take n b)) [LF] in
          let b := drop n b in
          if negb sawUnpack then
            match CutPrefix line (bs "unpack ") with
            | None => None
            | Some msg =>
                report_loop fuel (if bool_decide (msg = bs "ok") then refused else boundReason (bs "unpack " ++ msg)) refs true b
            end
          else
            let '(kind, rest) := Cut line SP in
            if bool_decide (kind = bs "ok") then
              (if bool_decide (rest = []) then None
               else report_loop fuel refused (<[rest := RefReport true []]> refs) sawUnpack b)
            else if bool_decide (kind = bs "ng") then
              (let '(ref, reason) := Cut rest SP in
               if bool_decide (ref = []) then None
               else report_loop fuel refused (<[ref := RefReport false (boundReason reason)]> refs) sawUnpack b)
            else if bool_decide (kind = bs "option") then report_loop fuel refused refs sawUnpack b
            else None
      end
  end.

Definition parseReportStatus (b : bytes) : option receivePackReport :=
  report_loop (length b) [] ∅ false b.

Definition refOutcome (r : receivePackReport) (ref : bytes) : bool * bytes :=
  if negb (bool_decide (rp_refused r = [])) then (true, rp_refused r)
  else match rp_refs r !! ref with
       | None => (true, bs "not in report-status")
       | Some rr => if rr_ok rr then (false, []) else (true, rr_reason rr)
       end.

Inductive report_cause := NotRequested | BadFraming | OverBound | BadReport | Compressed.

Definition rc_report (c : reportCapture) (caps : pushCapabilities) : option receivePackReport * option report_cause :=
  if negb (reportStatus caps) then (None, Some NotRequested)
  else if sideBand caps && rc_broken c then (None, Some BadFraming)
  else if sideBand caps && rc_band1Over c then (None, Some OverBound)
  else if negb (sideBand caps) && rc_rawOver c then (None, Some OverBound)
  else match parseReportStatus (if sideBand caps then rc_band1 c else rc_raw c) with
       | None => (None, Some BadReport)
       | Some r => (Some r, None)
       end.

Definition rc_result (c : reportCapture) (caps : pushCapabilities)
  : option receivePackReport * bytes * option report_cause :=
  let message := if sideBand caps then mt_String (rc_message c) else [] in
  let '(report, cause) := rc_report c caps in
  match report with
  | None => if sideBand caps && rc_fatal c then (Some (Report (bs "remote fatal error") ∅), message, None)
            else (None, message, cause)
  | Some r => (Some r, message, cause)
  end.

(** * The response capture against its references

    The capture's bounded streaming state against whole-text definitions: the
    demultiplexer does not depend on how the response is cut into writes, and
    the message tail is the last lines of the whole text. *)



(** ** Suffixes *)

Lemma lastn_all {A} n (l : list A) : (length l <= n)%nat -> lastn n l = l.
Proof. intros H. unfold lastn. by replace (length l - n)%nat with 0%nat by lia. Qed.

Lemma length_lastn {A} n (l : list A) : length (lastn n l) = Nat.min n (length l).
Proof. unfold lastn. rewrite length_drop. lia. Qed.

(** A suffix of an append only needs a suffix of the left part. *)
Lemma lastn_app_l {A} n m (a b : list A) : (n <= m)%nat -> lastn n (lastn m a ++ b) = lastn n (a ++ b).
Proof.
  intros H. unfold lastn. rewrite !length_app, length_drop.
  destruct (decide (n <= length b)%nat) as [Hb|Hb].
  - rewrite !drop_app_ge by (rewrite ?length_drop; lia). f_equal. rewrite length_drop. lia.
  - rewrite !drop_app_le by (rewrite ?length_drop; lia). rewrite drop_drop. f_equal. f_equal. lia.
Qed.

Lemma lastn_app_r {A} n (a b b' : list A) : lastn n b = lastn n b' -> lastn n (a ++ b) = lastn n (a ++ b').
Proof.
  intros H. assert (Hl : Nat.min n (length b) = Nat.min n (length b')) by (by rewrite <- !length_lastn, H).
  destruct (decide (n <= length b)%nat) as [Hb|Hb].
  - revert H. unfold lastn. rewrite !length_app, !drop_app_ge by lia. intros H.
    replace (length a + length b - n - length a)%nat with (length b - n)%nat by lia.
    by replace (length a + length b' - n - length a)%nat with (length b' - n)%nat by lia.
  - by rewrite !(lastn_all n b), !(lastn_all n b') in H by lia; subst.
Qed.

Lemma lastn_lastn {A} n m (l : list A) : (n <= m)%nat -> lastn n (lastn m l) = lastn n l.
Proof. intros H. pose proof (lastn_app_l n m l [] H) as E. by rewrite !app_nil_r in E. Qed.

Lemma lastn_map {A B} (f : A -> B) n l : lastn n (map f l) = map f (lastn n l).
Proof. unfold lastn. by rewrite length_map, skipn_map. Qed.

(** ** Splitting at newlines *)

Lemma Split_nonempty s c : exists init l, Split s c = init ++ [l].
Proof.
  assert (H : Split s c <> []) by (destruct s; simpl; [done|]; repeat case_match; done).
  destruct (exists_last H) as (init & l & ->). by exists init, l.
Qed.

Lemma Split_single p c : c ∉ p -> Split p c = [p].
Proof.
  induction p as [|x p IH]; [done|]. intros [Hx Hp]%not_elem_of_cons. simpl.
  rewrite bool_decide_false by congruence. by rewrite IH.
Qed.

Lemma Split_app_sep s c t : Split (s ++ c :: t) c = Split s c ++ Split t c.
Proof.
  induction s as [|x s IH]; simpl.
  - by rewrite bool_decide_true.
  - case_bool_decide; [by rewrite IH|]. rewrite IH. destruct (Split s c) eqn:E; [|done].
    destruct (Split_nonempty s c) as (i & l & H'). rewrite E in H'. by destruct i.
Qed.

Lemma Split_app s c p init l :
  c ∉ p -> Split s c = init ++ [l] -> Split (s ++ p) c = init ++ [l ++ p].
Proof.
  intros Hp. revert init l. induction s as [|x s IH]; simpl; intros init l.
  - intros H. destruct init as [|? [|]]; simplify_eq/=. by apply Split_single.
  - case_bool_decide as Hx.
    + destruct init as [|y init]; simpl; intros [= H0 H1].
      * by destruct (Split_nonempty s c) as ([|] & ? & E); rewrite E in H1.
      * subst y. by rewrite (IH init l H1).
    + destruct (Split_nonempty s c) as (i & z & E). rewrite E. rewrite (IH i z E).
      destruct i as [|y i]; intros H.
      * assert (init = [] /\ l = x :: z) as [-> ->]; [|done].
        change ([x :: z] = init ++ [l]) in H. apply (app_inj_tail [] init) in H as [<- <-]. done.
      * change (((x :: y) :: i) ++ [z] = init ++ [l]) in H. apply app_inj_tail in H as [<- <-]. done.
Qed.

(** ** The tail's reference *)

(** The last lines of a text, progress meters dropped. *)
Definition no_cr (l : bytes) : Prop := CR ∉ l.
#[global] Instance no_cr_dec l : Decision (no_cr l).
Proof. unfold no_cr. apply _. Defined.

Definition message_of (text : bytes) : bytes :=
  mt_cut (Join (lastn remoteMessageLines (filter no_cr (Split text LF))) [LF]).

Definition line_bound : nat := (remoteMessageMax + UTFMax)%nat.

(** What the tail holds after [text]. *)
Definition tail_of (text : bytes) (m : messageTail) : Prop :=
  exists init l, Split text LF = init ++ [l] /\
    mt_lines m = map (lastn line_bound) (lastn remoteMessageLines (filter no_cr init)) /\
    mt_curCR m = negb (bool_decide (no_cr l)) /\
    mt_cur m = if bool_decide (no_cr l) then lastn line_bound l else [].

Lemma tail_of_empty : tail_of [] empty_tail.
Proof. exists [], []. done. Qed.

Lemma IndexByte_is_None s c : IndexByte s c = None \/ exists i, IndexByte s c = Some i /\ c ∈ s.
Proof.
  destruct (IndexByte s c) as [i|] eqn:E; [right|by left]. exists i. split; [done|].
  apply IndexByte_Some in E as [E _]. by eapply list_elem_of_lookup_2.
Qed.

Lemma over_lastn {A} a b (x : list A) :
  (if (0 <? length x - a - b)%nat then drop (length x - a - b) x else x) = lastn (a + b) x.
Proof.
  unfold lastn. rewrite Nat.sub_add_distr. destruct (Nat.ltb_spec 0 (length x - a - b)); [done|].
  by replace (length x - a - b)%nat with 0%nat by lia.
Qed.

Lemma tail_of_extend text m p : LF ∉ p -> tail_of text m -> tail_of (text ++ p) (mt_extend m p).
Proof.
  intros Hp (init & l & Hs & Hl & Hc & Hu). exists init, (l ++ p). split; [by apply Split_app|].
  unfold mt_extend. rewrite Hc. destruct (decide (no_cr l)) as [Hn|Hn].
  2: { rewrite (bool_decide_false _ Hn) in *. cbn. rewrite bool_decide_false by (unfold no_cr in *; set_solver). done. }
  rewrite (bool_decide_true _ Hn) in *. cbn [negb]. destruct (IndexByte_is_None p CR) as [E|(i & E & Hi)]; rewrite E; cbn.
  - apply IndexByte_None in E. rewrite bool_decide_true by (unfold no_cr in *; set_solver).
    split_and!; try done. rewrite Hu.
    transitivity (lastn line_bound (lastn line_bound l ++ p)); [|by apply lastn_app_l].
    apply over_lastn.
  - rewrite bool_decide_false by (unfold no_cr in *; set_solver). done.
Qed.

Lemma lastn_snoc {A} n (l : list A) x : lastn (S n) (l ++ [x]) = lastn n l ++ [x].
Proof.
  unfold lastn. rewrite length_app. simpl. rewrite drop_app_le by lia. do 2 f_equal. lia.
Qed.

Lemma lastn_push {A} (l : list A) :
  (if (length (lastn remoteMessageLines l) =? remoteMessageLines)%nat then drop 1 (lastn remoteMessageLines l)
   else lastn remoteMessageLines l) = lastn 19 l.
Proof.
  unfold lastn at 1 4. rewrite length_drop. destruct (Nat.eqb_spec (length l - (length l - remoteMessageLines)) remoteMessageLines) as [E|E].
  - unfold lastn. rewrite drop_drop. f_equal. unfold remoteMessageLines in *. lia.
  - unfold lastn. f_equal. unfold remoteMessageLines in *. lia.
Qed.

Lemma tail_of_endLine text m : tail_of text m -> tail_of (text ++ [LF]) (mt_endLine m).
Proof.
  intros (init & l & Hs & Hl & Hc & Hu). exists (init ++ [l]), []. rewrite Split_app_sep, Hs.
  split; [done|]. unfold mt_endLine. rewrite Hc, filter_app, filter_cons.
  destruct (decide (no_cr l)) as [Hn|Hn].
  - rewrite (bool_decide_true _ Hn) in *. cbn [negb]. unfold mt_push. cbn [mt_lines mt_curCR mt_cur].
    split; [|done]. rewrite Hl, Hu, <- lastn_map, lastn_push.
    change (filter no_cr []) with (@nil bytes). change remoteMessageLines with (S 19).
    by rewrite lastn_snoc, map_app, lastn_map.
  - rewrite (bool_decide_false _ Hn) in *. cbn. by rewrite app_nil_r.
Qed.

Lemma tail_of_write_loop fuel text m p :
  (length p < fuel)%nat -> tail_of text m -> tail_of (text ++ p) (mt_write_loop fuel m p).
Proof.
  revert text m p. induction fuel as [|fuel IH]; [lia|]. intros text m p Hf Hm. cbn [mt_write_loop].
  destruct (IndexByte p LF) as [i|] eqn:E; [|by apply tail_of_extend; [apply IndexByte_None|]].
  apply IndexByte_Some in E as [Hi Hn]. pose proof (lookup_lt_Some _ _ _ Hi).
  assert (Hp : p = take i p ++ [LF] ++ drop (S i) p) by (by rewrite <- (take_drop_middle p i LF Hi) at 1).
  rewrite Hp at 1. rewrite !app_assoc. apply IH; [rewrite length_drop; lia|].
  by apply tail_of_endLine, tail_of_extend.
Qed.

Lemma tail_of_write text m p : tail_of text m -> tail_of (text ++ p) (mt_write m p).
Proof. apply tail_of_write_loop. lia. Qed.

(** Joining bounded lines keeps every suffix the bound covers. *)
Lemma lastn_Join n m ls : (n <= m)%nat -> lastn n (Join (map (lastn m) ls) [LF]) = lastn n (Join ls [LF]).
Proof.
  intros H. induction ls as [|l ls IH]; [done|]. destruct ls as [|l' ls].
  - by apply lastn_lastn.
  - change (Join (l :: l' :: ls) [LF]) with (l ++ [LF] ++ Join (l' :: ls) [LF]).
    change (Join (map (lastn m) (l :: l' :: ls)) [LF]) with (lastn m l ++ [LF] ++ Join (map (lastn m) (l' :: ls)) [LF]).
    rewrite lastn_app_l by done. by apply lastn_app_r, lastn_app_r.
Qed.

Lemma mt_cut_suffix s s' : lastn (S remoteMessageMax) s = lastn (S remoteMessageMax) s' -> mt_cut s = mt_cut s'.
Proof.
  intros H. assert (Hl : Nat.min (S remoteMessageMax) (length s) = Nat.min (S remoteMessageMax) (length s'))
    by (by rewrite <- !length_lastn, H).
  unfold mt_cut. destruct (Nat.ltb_spec remoteMessageMax (length s)), (Nat.ltb_spec remoteMessageMax (length s')); try lia.
  - rewrite <- (lastn_lastn remoteMessageMax (S remoteMessageMax) s), H, lastn_lastn by lia. done.
  - by rewrite !lastn_all in H by lia; subst.
Qed.

Lemma tail_String text m : tail_of text m -> mt_String m = message_of text.
Proof.
  intros (init & l & Hs & Hl & Hc & Hu). unfold mt_String, message_of. rewrite Hs, filter_app, filter_cons, Hc.
  assert (Hlast : forall (x : list bytes), (if (remoteMessageLines <? length x)%nat then lastn remoteMessageLines x else x) = lastn remoteMessageLines x).
  { intros x. destruct (Nat.ltb_spec remoteMessageLines (length x)); [done|]. symmetry. by apply lastn_all. }
  rewrite Hlast. apply mt_cut_suffix.
  assert (Hb : (S remoteMessageMax <= line_bound)%nat) by (unfold line_bound, UTFMax; lia).
  etransitivity; [|apply (lastn_Join _ line_bound _ Hb)]. f_equal. f_equal. rewrite <- lastn_map.
  destruct (decide (no_cr l)) as [Hn|Hn].
  - rewrite (bool_decide_true _ Hn) in *. cbn [negb]. rewrite Hl, Hu, <- lastn_map.
    change (filter no_cr []) with (@nil bytes). rewrite map_app. by apply lastn_app_l.
  - rewrite (bool_decide_false _ Hn) in *. cbn [negb]. rewrite Hl, <- lastn_map.
    change (filter no_cr []) with (@nil bytes). rewrite app_nil_r. by apply lastn_lastn.
Qed.

(** ** The demultiplexer *)

Lemma demux_pending c x p : demux (set_pending c x) p = set_pending (demux c p) x.
Proof. destruct p as [|b d]; [done|]. unfold demux. cbn. by repeat case_match. Qed.

Lemma demux_flags c p : rc_done (demux c p) = rc_done c.
Proof. destruct p as [|b d]; [done|]. unfold demux. by repeat case_match. Qed.

Lemma feed_loop_pending fuel c x p : feed_loop fuel (set_pending c x) p = feed_loop fuel c p.
Proof.
  revert c p. induction fuel as [|fuel IH]; intros c p; [done|]. cbn [feed_loop].
  repeat (case_match; [done|]). destruct (pktLineLen _) as [n|]; [|done].
  repeat (case_match; [done|]). rewrite demux_pending.
  change (rc_broken (set_pending ?y ?z)) with (rc_broken y). case_match; [done|]. apply IH.
Qed.

Lemma feed_loop_fuel fuel fuel' c p :
  (length p <= fuel)%nat -> (length p <= fuel')%nat -> feed_loop fuel c p = feed_loop fuel' c p.
Proof.
  revert fuel' c p. induction fuel as [|fuel IH]; intros [|fuel'] c p H H'; [done|..].
  - destruct p; [done|simpl in H; lia].
  - destruct p; [done|simpl in H'; lia].
  - cbn [feed_loop]. destruct (Nat.ltb_spec (length p) pktLineLenWidth); [done|].
    destruct (pktLineLen _) as [n|]; [|done]. case_match eqn:E; [done|].
    destruct (Nat.eqb_spec n 0); [done|]. destruct (Nat.ltb_spec (length p) n); [done|].
    case_match; [done|]. apply IH; rewrite length_drop; unfold pktLineLenWidth in *; lia.
Qed.

(** The loop, resumed on more bytes. *)
Definition resume (c : reportCapture) (b : bytes) : reportCapture :=
  if rc_broken c || rc_done c then c else feed_loop (length (rc_pending c ++ b)) c (rc_pending c ++ b).

Lemma resume_idle c p b :
  rc_broken c = false -> rc_done c = false -> resume (set_pending c p) b = feed_loop (length (p ++ b)) c (p ++ b).
Proof. intros H1 H2. unfold resume. cbn. rewrite H1, H2. cbn. apply feed_loop_pending. Qed.

Lemma feed_loop_app fuel c p b :
  rc_broken c = false -> rc_done c = false -> (length p <= fuel)%nat ->
  resume (feed_loop fuel c p) b = feed_loop (length (p ++ b)) c (p ++ b).
Proof.
  revert c p. induction fuel as [|fuel IH]; intros c p Hb Hd Hf; [by apply resume_idle|]. cbn [feed_loop].
  destruct (Nat.ltb_spec (length p) pktLineLenWidth) as [|Hp]; [by apply resume_idle|].
  assert (Hlen : (pktLineLenWidth <= length (p ++ b))%nat) by (rewrite length_app; lia).
  destruct (length (p ++ b)) as [|m] eqn:Hm; [unfold pktLineLenWidth in Hlen; lia|]. cbn [feed_loop].
  rewrite Hm, (proj2 (Nat.ltb_ge _ _) Hlen), take_app_le by lia.
  destruct (pktLineLen (take pktLineLenWidth p)) as [n|] eqn:En; [|done].
  destruct (_ && _) eqn:E; [done|]. destruct (n =? 0)%nat eqn:E0; [unfold resume; cbn; by rewrite orb_true_r|].
  destruct (Nat.ltb_spec (length p) n) as [|Hn].
  { rewrite resume_idle by done. rewrite Hm. cbn [feed_loop].
    by rewrite Hm, (proj2 (Nat.ltb_ge _ _) Hlen), take_app_le, En, E, E0 by lia. }
  rewrite (proj2 (Nat.ltb_ge (S m) n)) by (rewrite <- Hm, length_app; lia).
  rewrite take_app_le, drop_app_le by lia. destruct (rc_broken (demux c _)) eqn:Ebr.
  - unfold resume. change (rc_broken (set_pending ?y ?z)) with (rc_broken y). by rewrite Ebr.
  - apply Nat.eqb_neq in E0. assert ((n <? pktLineLenWidth)%nat = false) as Hge by (destruct n; [done|by simpl in E]).
    apply Nat.ltb_ge in Hge. rewrite IH; [|done|by rewrite demux_flags|rewrite length_drop; unfold pktLineLenWidth in *; lia].
    rewrite length_app in Hm. apply feed_loop_fuel; rewrite length_app, length_drop; unfold pktLineLenWidth in *; lia.
Qed.

(** The raw copy, which the demultiplexer never touches. *)
Definition keep_raw (c : reportCapture) (b : bytes) : reportCapture :=
  if rc_rawOver c then c
  else if (maxReportCapture <? length (rc_raw c) + length b)%nat
  then RC [] true (rc_pending c) (rc_band1 c) (rc_band1Over c) (rc_broken c) (rc_done c) (rc_fatal c) (rc_message c)
  else RC (rc_raw c ++ b) false (rc_pending c) (rc_band1 c) (rc_band1Over c) (rc_broken c) (rc_done c) (rc_fatal c) (rc_message c).

Lemma feed_resume c b : feed c b = resume (keep_raw c b) b.
Proof. done. Qed.

Lemma keep_raw_app c a b : keep_raw (keep_raw c a) b = keep_raw c (a ++ b).
Proof.
  destruct c as [raw [] pend b1 b1o br dn ft msg]; unfold keep_raw; cbn [rc_rawOver rc_raw]; [done|].
  rewrite length_app. destruct (Nat.ltb_spec maxReportCapture (length raw + length a)); cbn [rc_rawOver].
  - by rewrite (proj2 (Nat.ltb_lt _ _)) by lia.
  - cbn [rc_raw]. rewrite length_app, Nat.add_assoc. case_match; [done|]. cbn. by rewrite app_assoc.
Qed.

Lemma demux_keep_raw c b p : demux (keep_raw c b) p = keep_raw (demux c p) b.
Proof.
  destruct c as [raw ro pend b1 b1o br dn ft msg], p as [|x p]; [done|].
  unfold demux, keep_raw, set_broken. cbn [rc_rawOver rc_raw rc_band1 rc_band1Over].
  destruct ro; [cbn; by repeat case_match|].
  destruct (maxReportCapture <? length raw + length b)%nat eqn:E,
    (bool_decide (x = sideBandData)), b1o, (maxReportCapture <? length b1 + length p)%nat eqn:E',
    (bool_decide (x = sideBandError)), (bool_decide (x = sideBandProgress));
    cbn [rc_rawOver rc_raw rc_pending rc_band1 rc_band1Over rc_broken rc_done rc_fatal rc_message];
    rewrite ?E, ?E'; done.
Qed.

Lemma set_pending_keep_raw c b p : set_pending (keep_raw c b) p = keep_raw (set_pending c p) b.
Proof. unfold keep_raw. cbn. by repeat case_match. Qed.

Lemma keep_raw_flags c b : rc_broken (keep_raw c b) = rc_broken c /\ rc_done (keep_raw c b) = rc_done c /\
  rc_pending (keep_raw c b) = rc_pending c.
Proof. unfold keep_raw. by repeat case_match. Qed.

Lemma set_flags_keep_raw c b :
  set_broken (keep_raw c b) = keep_raw (set_broken c) b /\ set_done (keep_raw c b) = keep_raw (set_done c) b.
Proof. unfold keep_raw. cbn. by repeat case_match. Qed.

Lemma feed_loop_keep_raw fuel c b p : feed_loop fuel (keep_raw c b) p = keep_raw (feed_loop fuel c p) b.
Proof.
  revert c p. induction fuel as [|fuel IH]; intros c p; [apply set_pending_keep_raw|]. cbn [feed_loop].
  destruct (set_flags_keep_raw c b) as [-> ->].
  case_match; [apply set_pending_keep_raw|]. destruct (pktLineLen _) as [n|]; [|apply set_pending_keep_raw].
  do 3 (case_match; [apply set_pending_keep_raw|]). rewrite demux_keep_raw.
  destruct (keep_raw_flags (demux c (drop pktLineLenWidth (take n p))) b) as (-> & _ & _).
  case_match; [apply set_pending_keep_raw|apply IH].
Qed.

Lemma resume_keep_raw c b x : resume (keep_raw c b) x = keep_raw (resume c x) b.
Proof.
  unfold resume. destruct (keep_raw_flags c b) as (-> & -> & ->). case_match; [done|]. apply feed_loop_keep_raw.
Qed.

Lemma resume_app c a b : resume (resume c a) b = resume c (a ++ b).
Proof.
  unfold resume at 2 3. destruct (rc_broken c || rc_done c) eqn:E; [unfold resume; by rewrite E|].
  apply orb_false_iff in E as [? ?]. rewrite app_assoc. by apply feed_loop_app.
Qed.

(** Cutting the response into writes differently changes nothing. *)
Lemma feed_app c a b : feed (feed c a) b = feed c (a ++ b).
Proof. rewrite !feed_resume. by rewrite <- resume_keep_raw, keep_raw_app, resume_app. Qed.

Lemma demux_raw c p : rc_raw (demux c p) = rc_raw c /\ rc_rawOver (demux c p) = rc_rawOver c.
Proof. destruct p as [|b d]; [done|]. unfold demux. by repeat case_match. Qed.

Lemma feed_loop_raw fuel c p : rc_raw (feed_loop fuel c p) = rc_raw c /\ rc_rawOver (feed_loop fuel c p) = rc_rawOver c.
Proof.
  revert c p. induction fuel as [|fuel IH]; intros c p; [done|]. cbn [feed_loop].
  case_match; [done|]. destruct (pktLineLen _) as [n|]; [|done]. do 3 (case_match; [done|]).
  destruct (demux_raw c (drop pktLineLenWidth (take n p))) as [<- <-]. case_match; [done|]. apply IH.
Qed.

Lemma resume_raw c b : rc_rawOver (resume c b) = rc_rawOver c /\ rc_raw (resume c b) = rc_raw c.
Proof. unfold resume. case_match; [done|]. by destruct (feed_loop_raw (length (rc_pending c ++ b)) c (rc_pending c ++ b)). Qed.

(** The capture of a whole response, however it was written. *)
Lemma feed_fold c chunks : fold_left feed chunks (feed c []) = feed c (concat chunks).
Proof.
  revert c. induction chunks as [|a chunks IH]; intros c; simpl; [done|].
  rewrite feed_app. simpl. rewrite <- (app_nil_r a) at 1. by rewrite <- feed_app, IH, feed_app.
Qed.

Lemma capture_whole chunks : fold_left feed chunks empty_capture = feed empty_capture (concat chunks).
Proof. by rewrite <- feed_fold. Qed.
