(* ===== verification/GitGate.v ===== *)
(** * The git proxy: path gate, ref gate, credential cache, handler

    Models internal/proxy/gitproxy/gate.go, the enforcing and observing
    receive-pack paths of receivepack.go, and the request handler, token cache
    and header rewrite of proxy.go.

    The upstream host, the authorization callback and the token source are
    parameters of the handler.  Its result says what it answered, what it
    forwarded, which denials and push outcomes it recorded, and the token cache
    it leaves.  The audit callbacks run beside the response and change nothing
    in it, so they are lists of the calls made. *)

From S2P Require Import Prelude GoBytes GitPkt GitReport.

(** ** Paths *)

Inductive git_op := gitOpAdvertise | gitOpFetch | gitOpPush | gitOpPath.
#[global] Instance git_op_eq_dec : EqDecision git_op. Proof. solve_decision. Defined.

Definition segment_char (c : ascii) : bool :=
  let b := bv c in
  ((97 <=? b) && (b <=? 122)) || ((65 <=? b) && (b <=? 90)) || ((48 <=? b) && (b <=? 57)) ||
  (b =? 46) || (b =? 95) || (b =? 45).

Definition ValidRepoSegment (s : bytes) : bool :=
  if bool_decide (s = []) || Contains s (bs "..") then false else forallb segment_char s.

Definition parseGitPath (method path : bytes) : option (bytes * bytes * git_op) :=
  match Split (TrimPrefix path (bs "/")) SLASH with
  | owner :: repo :: r1 :: rest =>
      let repo := TrimSuffix repo (bs ".git") in
      if negb (ValidRepoSegment owner) || negb (ValidRepoSegment repo) then None
      else if bool_decide (method = bs "GET") && bool_decide (r1 :: rest = [bs "info"; bs "refs"])
      then Some (owner, repo, gitOpAdvertise)
      else if bool_decide (method = bs "POST") && bool_decide (r1 :: rest = [bs "git-upload-pack"])
      then Some (owner, repo, gitOpFetch)
      else if bool_decide (method = bs "POST") && bool_decide (r1 :: rest = [bs "git-receive-pack"])
      then Some (owner, repo, gitOpPush)
      else None
  | _ => None
  end.

Definition IsGitSmartHTTPPath (method path : bytes) : bool :=
  if bool_decide (method = bs "GET") then HasSuffix path (bs "/info/refs")
  else if bool_decide (method = bs "POST")
  then HasSuffix path (bs "/git-upload-pack") || HasSuffix path (bs "/git-receive-pack")
  else false.

Definition isReceivePackPush (method path : bytes) : bool :=
  bool_decide (method = bs "POST") && HasSuffix path (bs "/git-receive-pack").

Definition receivePackRepoPath (p : bytes) : bytes :=
  TrimSuffix (TrimPrefix (TrimSuffix p (bs "/git-receive-pack")) (bs "/")) (bs ".git").

(** ** Decisions and records *)

Record Decision := MkDecision {
  d_Allowed : bool; d_AllowedRefs : list bytes; d_ProtectedRefs : list bytes;
  d_DenyReason : bytes; d_DenyMessage : bytes }.
Definition allow_all : Decision := MkDecision true [] [] [] [].

Record DeniedGitOp := Denied { dn_owner : bytes; dn_repo : bytes; dn_ref : bytes; dn_op : git_op; dn_reason : bytes }.

Record PushedRef := Pushed {
  pu_repo : bytes; pu_ref : bytes; pu_newSHA : bytes; pu_created : bool; pu_status : Z;
  pu_rejected : bool; pu_reason : bytes; pu_message : bytes }.

Definition Succeeded (p : PushedRef) : bool :=
  (200 <=? pu_status p) && (pu_status p <? 300) && negb (pu_rejected p).

(** ** The ref gate *)

Definition refSet (refs : list bytes) : gset bytes := list_to_set refs.

Definition refDenial (ref repoID : bytes) (allowedRefs protectedRefs : list bytes) : bytes * bytes :=
  if bool_decide (ref ∈ protectedRefs) then
    (bs "ref-protected",
     bs "gitproxy: " ++ ref ++ bs " is a protected branch on " ++ repoID ++
     bs " (its base/default branch) and this team's base-branch push policy refuses pushes to it; commit to a new branch and open a pull request instead. A team admin can change the policy in Settings → Team.")
  else if bool_decide (allowedRefs = []) then
    (bs "ref-no-pushable-branch",
     bs "gitproxy: no branch of " ++ repoID ++
     bs " is pushable in this run: a push must come from a checkout 'workspace add " ++ repoID ++
     bs "' made, on a branch you created there, and none of this run's checkouts is on one. Create your branch in that checkout with git switch -c <branch> and push from there; a checkout made with git worktree add or git clone cannot push.")
  else
    (bs "ref-not-allowed",
     bs "gitproxy: ref " ++ ref ++ bs " is not pushable in " ++ repoID ++ bs ": this run may push only " ++
     Join allowedRefs (bs ", ") ++
     bs " (the branch each of its checkouts is on). A checkout made with git worktree add or git clone cannot push; for a new branch, run 'workspace add " ++ repoID ++
     bs "' for a checkout of the base branch and create the branch there.").

(** One command's audit reason and refusal; [None] when it is allowed. *)
Definition gate_command (repoID : bytes) (d : Decision) (c : gateCommand) : option (bytes * bytes) :=
  if gc_isDelete c then Some (bs "ref-delete", bs "gitproxy: ref delete not allowed")
  else if negb (bool_decide (gc_ref c ∈ refSet (d_AllowedRefs d)))
  then Some (refDenial (gc_ref c) repoID (d_AllowedRefs d) (d_ProtectedRefs d))
  else None.

(** The loop over the commands: the refusals, and the first refused command
    with its reason. *)
Fixpoint gate_commands (repoID : bytes) (d : Decision) (cmds : list gateCommand)
  : list bytes * option (gateCommand * bytes) :=
  match cmds with
  | [] => ([], None)
  | c :: cmds =>
      let '(msgs, first) := gate_commands repoID d cmds in
      match gate_command repoID d c with
      | Some (reason, msg) => (msg :: msgs, Some (c, reason))
      | None => ([] :: msgs, first)
      end
  end.

(** ** Refusing a push *)

Definition sideBandChunk : nat := 995.

Fixpoint mux_loop (fuel : nat) (body : bytes) : bytes :=
  match fuel with
  | O => []
  | S fuel =>
      if bool_decide (body = []) then []
      else let n := Nat.min (length body) sideBandChunk in
           writePktLine (sideBandData :: take n body) ++ mux_loop fuel (drop n body)
  end.

Definition whole_refusal : bytes := bs "gitproxy: not pushed, because another ref in this push was refused".

Definition report_lines (cmds : list gateCommand) (refusals : list bytes) : list bytes :=
  (bs "unpack ok" ++ [LF]) ::
  zip_with (fun c msg => bs "ng " ++ gc_ref c ++ bs " " ++ (if bool_decide (msg = []) then whole_refusal else msg) ++ [LF])
           cmds refusals.

(** [http.Error] ends the message with a newline. *)
Definition http_error (msg : bytes) : bytes := msg ++ [LF].

Record answer := Answer { an_status : Z; an_body : bytes }.

Definition refusePush (block : bytes) (cmds : list gateCommand) (refusals : list bytes) : answer :=
  let caps := parsePushCapabilities block in
  if negb (reportStatus caps) then
    Answer 403 (http_error (default [] (head (filter (fun m => m <> []) refusals))))
  else
    let report := concat (map writePktLine (report_lines cmds refusals)) ++ flush_pkt in
    Answer 200 (if sideBand caps then mux_loop (length report) report ++ flush_pkt else report).

(** ** The response recorder *)

(** What the reverse proxy does to the writer: headers, then body writes. *)
Inductive rw_event := WriteHeader (code : Z) | WriteBody (b : bytes).

Record responseRecorder := RR { rr_status : Z; rr_body : reportCapture; rr_sent : list rw_event }.
Definition new_recorder : responseRecorder := RR 0 empty_capture [].

Definition rr_step (w : responseRecorder) (e : rw_event) : responseRecorder :=
  match e with
  | WriteHeader code =>
      RR (if (rr_status w =? 0) && (200 <=? code) then code else rr_status w) (rr_body w) (rr_sent w ++ [e])
  | WriteBody b => RR (if rr_status w =? 0 then 200 else rr_status w) (feed (rr_body w) b) (rr_sent w ++ [e])
  end.

(** An upstream answer: the writer calls it makes and its Content-Encoding. *)
Record upstream_answer := Upstream { up_events : list rw_event; up_encoding : bytes }.

Record pushResponse := PushResp { pr_status : Z; pr_report : option receivePackReport; pr_message : bytes }.

(** ** Recording a push *)

(** [alive i] is whether the recording window is still open at the [i]th ref. *)
Fixpoint dispatchPushes (alive : nat -> bool) (i : nat) (repoPath : bytes) (cmds : list refUpdate) (resp : pushResponse)
  : list PushedRef :=
  match cmds with
  | [] => []
  | c :: cmds =>
      if negb (alive i) then [] else
      let '(rejected, reason) :=
        match pr_report resp with Some r => refOutcome r (ru_ref c) | None => (false, []) end in
      Pushed repoPath (ru_ref c) (ru_newSHA c) (ru_created c) (pr_status resp) rejected reason (pr_message resp)
        :: dispatchPushes alive (S i) repoPath cmds resp
  end.

Definition push_response (block : bytes) (rr : responseRecorder) (encoding : bytes) : pushResponse :=
  let '(report, message, _) := rc_result (rr_body rr) (parsePushCapabilities block) in
  let report := if negb (bool_decide (encoding = [])) && negb (bool_decide (ToLower encoding = bs "identity"))
                then None else report in
  let report := if (rr_status rr <? 200) || (300 <=? rr_status rr) then None else report in
  PushResp (rr_status rr) report message.

Definition recordReceivePack (record : bool) (alive : nat -> bool) (repoPath block : bytes)
    (rr : responseRecorder) (encoding : bytes) : list PushedRef :=
  if negb record then [] else
  let cmds := parseReceivePackCommands block in
  if bool_decide (cmds = []) then [] else
  dispatchPushes alive 0 repoPath cmds (push_response block rr encoding).

(** ** Tokens *)

(** [None] is Go's zero time: no tracked lifetime. *)
Record Token := MkToken { tk_Value : bytes; tk_ExpiresAt : option Z }.
Definition refreshThreshold : Z := 5 * 60 * 1000000000.

Definition tokenStale (tok : Token) (now : Z) : bool :=
  match tk_ExpiresAt tok with
  | None => false
  | Some e => negb (now + refreshThreshold <? e)
  end.

Inductive token_err := TokenSourceFailed | TokenEmpty | TokenExpiring.

Record token_cache := TC { tc_tokens : gmap bytes Token; tc_mints : nat }.

Definition installationToken (src : bytes -> bytes -> option Token) (owner repo : bytes) (now : Z) (c : token_cache)
  : token_cache * res token_err Token :=
  let key := ToLower (owner ++ bs "/" ++ repo) in
  let mint :=
    match src owner repo with
    | None => (c, Err TokenSourceFailed)
    | Some tok =>
        if bool_decide (tk_Value tok = []) then (c, Err TokenEmpty)
        else if (match tk_ExpiresAt tok with Some e => negb (now + refreshThreshold <? e) | None => false end)
        then (c, Err TokenExpiring)
        else (TC (<[key := tok]> (tc_tokens c)) (S (tc_mints c)), Ok tok)
    end in
  match tc_tokens c !! key with
  | Some tok => if negb (bool_decide (tk_Value tok = [])) && negb (tokenStale tok now) then (c, Ok tok) else mint
  | None => mint
  end.

(** ** Outgoing headers *)

(** [base64.StdEncoding]. *)
Definition b64char (v : Z) : ascii :=
  byte_of (if v <? 26 then v + 65 else if v <? 52 then v + 71 else if v <? 62 then v - 4 else if v =? 62 then 43 else 47).

Fixpoint base64 (s : bytes) : bytes :=
  match s with
  | a :: b :: c :: s =>
      let v := bv a * 65536 + bv b * 256 + bv c in
      [b64char (Z.shiftr v 18); b64char (Z.land (Z.shiftr v 12) 63); b64char (Z.land (Z.shiftr v 6) 63); b64char (Z.land v 63)]
        ++ base64 s
  | [a; b] =>
      let v := bv a * 65536 + bv b * 256 in
      [b64char (Z.shiftr v 18); b64char (Z.land (Z.shiftr v 12) 63); b64char (Z.land (Z.shiftr v 6) 63); byte_of 61]
  | [a] =>
      let v := bv a * 65536 in
      [b64char (Z.shiftr v 18); b64char (Z.land (Z.shiftr v 12) 63); byte_of 61; byte_of 61]
  | [] => []
  end.

Definition basicAuthHeader (token : bytes) : bytes := bs "Basic " ++ base64 (bs "x-access-token:" ++ token).

Definition stripped_headers : list bytes :=
  [bs "X-Forwarded-For"; bs "X-Forwarded-Host"; bs "X-Forwarded-Proto"; bs "Forwarded";
   bs "Proxy-Authorization"; bs "Proxy-Connection"].

(** [rewrite] on the outgoing header set, keyed by canonical name. *)
Definition rewrite_headers (method path tok : bytes) (h : gmap bytes bytes) : gmap bytes bytes :=
  let h := fold_left (fun h k => delete k h) stripped_headers h in
  let h := if isReceivePackPush method path then <[bs "Accept-Encoding" := bs "identity"]> h else h in
  if bool_decide (tok = []) then delete (bs "Authorization") h
  else <[bs "Authorization" := basicAuthHeader tok]> h.

(** ** The handler *)

Record request := Request {
  rq_method : bytes; rq_path : bytes; rq_password : bytes; rq_headers : gmap bytes bytes; rq_body : bytes }.

(** What crosses to the upstream host. *)
Record forwarded := Forward { fw_method : bytes; fw_path : bytes; fw_headers : gmap bytes bytes; fw_body : bytes }.

Inductive reply :=
| Refused (status : Z) (body : bytes)      (* answered here *)
| Proxied (up : upstream_answer).          (* the upstream's answer, unchanged *)

Record outcome := Outcome {
  o_reply : reply; o_forwarded : option forwarded; o_denials : list DeniedGitOp;
  o_records : list PushedRef; o_cache : token_cache }.

Record config := Config {
  cfg_IncomingToken : bytes; cfg_RecordPush : bool; cfg_TokenSource : bytes -> bytes -> option Token;
  cfg_Authorize : option (bytes -> bytes -> option Decision) }.

Section Handler.
Context (cfg : config) (upstream : forwarded -> upstream_answer) (alive : nat -> bool).

Definition callerAuthorized (r : request) : bool :=
  if bool_decide (cfg_IncomingToken cfg = []) then true
  else bool_decide (rq_password r = cfg_IncomingToken cfg).

Definition forward_of (r : request) (tok body : bytes) : forwarded :=
  Forward (rq_method r) (rq_path r) (rewrite_headers (rq_method r) (rq_path r) tok (rq_headers r)) body.

(** The reverse proxy through a recorder. *)
Definition proxied (r : request) (tok body : bytes) : forwarded * upstream_answer * responseRecorder :=
  let f := forward_of r tok body in
  let up := upstream f in
  (f, up, fold_left rr_step (up_events up) new_recorder).

(** [serveReceivePack]: proxy, then record from the bytes the tee kept. *)
Definition serveReceivePack (r : request) (tok : bytes) (cache : token_cache) : outcome :=
  let '(f, up, rr) := proxied r tok (rq_body r) in
  Outcome (Proxied up) (Some f) []
    (recordReceivePack (cfg_RecordPush cfg) alive (receivePackRepoPath (rq_path r))
       (take maxReceivePackCapture (rq_body r)) rr (up_encoding up)) cache.

Definition serveReceivePackGated (r : request) (tok owner repo : bytes) (d : Decision) (cache : token_cache) : outcome :=
  match readCommandBlock (rq_body r) maxReceivePackCapture with
  | None => Outcome (Refused 400 (http_error (bs "gitproxy: malformed receive-pack request"))) None [] [] cache
  | Some x =>
      match br_err x with
      | Some _ => Outcome (Refused 400 (http_error (bs "gitproxy: malformed receive-pack request"))) None [] [] cache
      | None =>
          if negb (br_flush x) then
            Outcome (Refused 403 (http_error (bs "gitproxy: receive-pack command block too large"))) None
              [Denied owner repo [] gitOpPush (bs "command-block-too-large")] [] cache
          else
            let block := br_block x in
            let repoPath := owner ++ bs "/" ++ repo in
            let cmds := parseGateCommands block in
            let '(refusals, first) := gate_commands repoPath d cmds in
            match first with
            | Some (c, reason) =>
                let a := refusePush block cmds refusals in
                Outcome (Refused (an_status a) (an_body a)) None [Denied owner repo (gc_ref c) gitOpPush reason] [] cache
            | None =>
                let '(f, up, rr) := proxied r tok (block ++ br_rest x) in
                Outcome (Proxied up) (Some f) []
                  (recordReceivePack (cfg_RecordPush cfg) alive repoPath block rr (up_encoding up)) cache
            end
      end
  end.

(** The answer to a credential miss is the responder's, by status. *)
Definition handle (miss : token_err -> Z * bytes) (now : Z) (r : request) (cache : token_cache) : outcome :=
  if bool_decide (rq_method r = bs "CONNECT") then
    Outcome (Refused 501 (http_error (bs "gitproxy: CONNECT not supported; use http:// remote URLs so the proxy can inject credentials (https:// would tunnel TLS opaquely)"))) None [] [] cache
  else if negb (callerAuthorized r) then Outcome (Refused 401 (http_error (bs "unauthorized"))) None [] [] cache
  else
  match parseGitPath (rq_method r) (rq_path r) with
  | None => Outcome (Refused 403 (http_error (bs "gitproxy: non-git path"))) None [Denied [] [] [] gitOpPath (bs "non-git-path")] [] cache
  | Some (owner, repo, op) =>
      let deny reason msg := Outcome (Refused 403 (http_error msg)) None [Denied owner repo [] op reason] [] cache in
      let authorized (d : Decision) : outcome :=
        match installationToken (cfg_TokenSource cfg) owner repo now cache with
        | (cache, Err e) => Outcome (Refused (miss e).1 (miss e).2) None [] [] cache
        | (cache, Ok tok) =>
            if bool_decide (op = gitOpPush) && bool_decide (is_Some (cfg_Authorize cfg))
            then serveReceivePackGated r (tk_Value tok) owner repo d cache
            else if bool_decide (op = gitOpPush) && cfg_RecordPush cfg then serveReceivePack r (tk_Value tok) cache
            else let '(f, up, _) := proxied r (tk_Value tok) (rq_body r) in Outcome (Proxied up) (Some f) [] [] cache
        end in
      match cfg_Authorize cfg with
      | None => authorized allow_all
      | Some authorize =>
          match authorize owner repo with
          | None => deny (bs "authorize-error") (bs "gitproxy: authorization check failed")
          | Some d =>
              if negb (d_Allowed d) then
                deny (if bool_decide (d_DenyReason d = []) then bs "repo-not-authorized" else d_DenyReason d)
                     (if bool_decide (d_DenyMessage d = []) then bs "gitproxy: repo not authorized for this run" else d_DenyMessage d)
              else authorized d
          end
      end
  end.
End Handler.
