(* ===== verification/GitSpec.v ===== *)
(** * What the git proxy guarantees

    The gate reads every command a push carries and forwards the push untouched
    only when each is allowed; nothing is forwarded, and no credential is
    minted, before the request has passed every gate; the credential sent
    upstream is the repository's own fresh one; and what a push's outcome is
    read from does not depend on how the response streams. *)

From S2P Require Import Prelude GoBytes GitPkt GitReport GitGate.

(** ** Reading the command block *)

Lemma framed_read fuel buf ps b rest max :
  framed ps b -> (length b < fuel)%nat -> (length buf + length b <= max + pktLineLenWidth)%nat ->
  read_loop fuel buf (b ++ rest) max = Some (BR (buf ++ b) true None rest).
Proof.
  intros H. revert fuel buf. induction H as [hdr Hl H0|hdr p ps b [Hl Hn] Hb IH]; intros [|fuel] buf Hf Hm; [lia| |lia|].
  - cbn [read_loop]. rewrite length_app, Hl, (proj2 (Nat.ltb_ge _ _)) by lia.
    rewrite <- Hl, take_app_length, drop_app_length, H0. done.
  - cbn [read_loop]. rewrite <- !app_assoc. rewrite !length_app in Hf, Hm.
    rewrite !length_app, (proj2 (Nat.ltb_ge _ pktLineLenWidth)) by lia.
    assert (Et : forall x, take pktLineLenWidth (hdr ++ x) = hdr) by (intros; rewrite <- Hl; apply take_app_length).
    assert (Ed : forall x, drop pktLineLenWidth (hdr ++ x) = x) by (intros; rewrite <- Hl; apply drop_app_length).
    rewrite Et, Ed, Hn.
    rewrite Nat.add_sub_swap, Nat.sub_diag by lia. cbn [Nat.add].
    rewrite (proj2 (Nat.eqb_neq _ 0)) by (unfold pktLineLenWidth; lia).
    rewrite (proj2 (Nat.ltb_ge _ pktLineLenWidth)) by lia.
    pose proof (framed_length _ _ Hb).
    rewrite (proj2 (Nat.ltb_ge max _)) by lia.
    rewrite (proj2 (Nat.ltb_ge _ (length p))) by (rewrite ?length_app; lia).
    rewrite take_app_length, drop_app_length, IH; [by rewrite <- !app_assoc|unfold pktLineLenWidth in *; lia|rewrite !length_app; lia].
Qed.

(** C39: The command block is read whole or not at all.  Reading always
    terminates; when it reports the flush-pkt, what was read is a sequence of
    complete pkt-lines, it and the unread rest are exactly the request body,
    and it exceeds the cap by at most the flush-pkt itself; and every block of
    complete lines within that bound is read. *)
Theorem command_block_is_exact (r : bytes) (max : nat) :
  exists x, readCommandBlock r max = Some x /\
    (br_flush x = true <-> exists ps b rest, framed ps b /\ r = b ++ rest /\ (length b <= max + pktLineLenWidth)%nat) /\
    (br_flush x = true -> br_err x = None /\ r = br_block x ++ br_rest x /\
       (exists ps, framed ps (br_block x)) /\ (length (br_block x) <= max + pktLineLenWidth)%nat).
Proof.
  destruct (read_loop_total (S (length r)) [] r max) as [x Hx]; [lia|].
  exists x. split; [done|]. assert (H := readCommandBlock_flush r max x Hx). split; [|done]. split.
  - intros Hf. destruct (H Hf) as (_ & ? & [ps ?] & ?). by exists ps, (br_block x), (br_rest x).
  - intros (ps & b & rest & Hb & -> & Hl).
    rewrite (framed_read _ [] ps b rest max) in Hx by (rewrite ?length_app; simpl; done || lia).
    by injection Hx as <-.
Qed.

(** ** The ref gate *)

(** A line carries a ref-update command in the pack protocol's sense: old and
    new object id and ref name, separated by single spaces. *)
Definition protocol_command (line old new ref : bytes) : Prop :=
  command_text line = old ++ SP :: new ++ SP :: ref.

Lemma parseGateRefUpdate_protocol line old new ref :
  protocol_command line old new ref -> solid old -> solid new -> solid ref ->
  parseGateRefUpdate line = Some (GateCommand ref (isZeroOID new)).
Proof.
  intros H Ho Hn Hr. unfold parseGateRefUpdate. rewrite H, !Fields_app_SP, Ho, Hn, Hr. done.
Qed.

Lemma gate_commands_none repoID d cmds msgs :
  gate_commands repoID d cmds = (msgs, None) ->
  Forall (fun c => gc_isDelete c = false /\ gc_ref c ∈ d_AllowedRefs d) cmds.
Proof.
  revert msgs. induction cmds as [|c cmds IH]; intros msgs; simpl; [constructor|].
  destruct (gate_commands repoID d cmds) as [ms f] eqn:E.
  unfold gate_command. destruct (gc_isDelete c) eqn:Hd; [done|].
  case_bool_decide as Hin; simpl; [|by destruct (refDenial _ _ _ _)]. intros [= <- ->].
  constructor; [|by eapply IH]. split; [done|]. by apply elem_of_list_to_set in Hin.
Qed.

Section Gate.
Context (cfg : config) (upstream : forwarded -> upstream_answer) (alive : nat -> bool).

Lemma gated_forward r tok owner repo d cache f :
  o_forwarded (serveReceivePackGated cfg upstream alive r tok owner repo d cache) = Some f ->
  exists ps block rest, rq_body r = block ++ rest /\ framed ps block /\ f = forward_of r tok (rq_body r) /\
    Forall (fun c => gc_isDelete c = false /\ gc_ref c ∈ d_AllowedRefs d) (omap parseGateRefUpdate ps).
Proof.
  unfold serveReceivePackGated. destruct (readCommandBlock _ _) as [x|] eqn:Hx; [|done].
  destruct (br_err x) eqn:He; [done|]. destruct (br_flush x) eqn:Hf; [|done]. cbn [negb].
  destruct (readCommandBlock_flush _ _ _ Hx Hf) as (_ & Hr & [ps Hps] & _).
  unfold parseGateCommands. rewrite (gate_loop_framed _ ps) by (done || lia).
  destruct (gate_commands _ _ _) as [msgs [[c reason]|]] eqn:E; [done|].
  cbn. rewrite <- Hr. intros [= <-]. exists ps, (br_block x), (br_rest x).
  split_and!; try done. by eapply gate_commands_none.
Qed.

(** The gates a request passes before any credential is touched. *)
Definition admitted (r : request) : option (bytes * bytes * git_op * Decision) :=
  if bool_decide (rq_method r = bs "CONNECT") || negb (callerAuthorized cfg r) then None
  else match parseGitPath (rq_method r) (rq_path r) with
       | None => None
       | Some (owner, repo, op) =>
           match cfg_Authorize cfg with
           | None => Some (owner, repo, op, allow_all)
           | Some authorize =>
               match authorize owner repo with
               | Some d => if d_Allowed d then Some (owner, repo, op, d) else None
               | None => None
               end
           end
       end.

(** What the handler does behind the gates. *)
Definition serve (miss : token_err -> Z * bytes) (now : Z) (r : request) (cache : token_cache)
    (owner repo : bytes) (op : git_op) (d : Decision) : outcome :=
  match installationToken (cfg_TokenSource cfg) owner repo now cache with
  | (cache, Err e) => Outcome (Refused (miss e).1 (miss e).2) None [] [] cache
  | (cache, Ok tok) =>
      if bool_decide (op = gitOpPush) && bool_decide (is_Some (cfg_Authorize cfg))
      then serveReceivePackGated cfg upstream alive r (tk_Value tok) owner repo d cache
      else if bool_decide (op = gitOpPush) && cfg_RecordPush cfg
      then serveReceivePack cfg upstream alive r (tk_Value tok) cache
      else let '(f, up, _) := proxied upstream r (tk_Value tok) (rq_body r) in Outcome (Proxied up) (Some f) [] [] cache
  end.

Lemma handle_admitted miss now r cache owner repo op d :
  admitted r = Some (owner, repo, op, d) ->
  handle cfg upstream alive miss now r cache = serve miss now r cache owner repo op d.
Proof.
  unfold admitted, handle. destruct (bool_decide (rq_method r = bs "CONNECT")); [done|]. cbn [orb].
  destruct (callerAuthorized cfg r); [|done]. cbn [negb].
  destruct (parseGitPath _ _) as [[[o rp] op']|]; [|done].
  destruct (cfg_Authorize cfg) as [a|] eqn:Ea.
  - destruct (a o rp) as [d'|]; [|done]. destruct (d_Allowed d'); [|done]. intros [= -> -> -> ->].
    unfold serve. by rewrite Ea.
  - intros [= -> -> -> ->]. unfold serve. by rewrite Ea.
Qed.

Lemma handle_not_admitted miss now r cache :
  admitted r = None ->
  exists status body ds, handle cfg upstream alive miss now r cache = Outcome (Refused status body) None ds [] cache /\
    status ∈ [501; 401; 403].
Proof.
  unfold admitted, handle. destruct (bool_decide (rq_method r = bs "CONNECT")); cbn [orb].
  { intros _. eexists _, _, _. split; [reflexivity|]. set_solver. }
  destruct (callerAuthorized cfg r); cbn [negb].
  2: { intros _. eexists _, _, _. split; [reflexivity|]. set_solver. }
  destruct (parseGitPath _ _) as [[[o rp] op']|].
  2: { intros _. eexists _, _, _. split; [reflexivity|]. set_solver. }
  destruct (cfg_Authorize cfg) as [a|]; [|done]. destruct (a o rp) as [d'|].
  - destruct (d_Allowed d'); [done|]. intros _. eexists _, _, _. split; [reflexivity|]. set_solver.
  - intros _. eexists _, _, _. split; [reflexivity|]. set_solver.
Qed.

(** What a forwarded push has passed. *)
Lemma forwarded_commands miss now r cache authorize owner repo f :
  cfg_Authorize cfg = Some authorize ->
  parseGitPath (rq_method r) (rq_path r) = Some (owner, repo, gitOpPush) ->
  o_forwarded (handle cfg upstream alive miss now r cache) = Some f ->
  exists d ps block rest, authorize owner repo = Some d /\ d_Allowed d = true /\
    rq_body r = block ++ rest /\ framed ps block /\ fw_body f = rq_body r /\
    forall line old new ref, line ∈ ps -> protocol_command line old new ref ->
      solid old -> solid new -> solid ref -> ref ∈ d_AllowedRefs d /\ isZeroOID new = false.
Proof.
  intros Ha Hp Hf. destruct (admitted r) as [[[[o rp] op] d]|] eqn:Had.
  2: { destruct (handle_not_admitted miss now r cache Had) as (? & ? & ? & E & _). by rewrite E in Hf. }
  rewrite (handle_admitted _ _ _ _ _ _ _ _ Had) in Hf. unfold admitted in Had. rewrite Hp, Ha in Had.
  destruct (_ || _); [done|]. destruct (authorize owner repo) as [d'|] eqn:Hd; [|done].
  destruct (d_Allowed d') eqn:Hal; [|done]. injection Had as <- <- <- <-.
  unfold serve in Hf. destruct (installationToken _ _ _ _ _) as [cache' [tok|]]; [|done].
  rewrite Ha in Hf. cbn in Hf. apply gated_forward in Hf as (ps & block & rest & Hb & Hfr & -> & Hall).
  exists d', ps, block, rest. split_and!; try done.
  intros line old new ref Hin Hpc H1 H2 H3. rewrite Forall_forall in Hall.
  destruct (Hall (GateCommand ref (isZeroOID new))) as [? ?]; [|done].
  apply list_elem_of_omap. exists line. split; [done|]. by apply (parseGateRefUpdate_protocol line old).
Qed.

(** What the proxy asks of an authorization: every ref a decision allows has
    the property the authorization promises of it. *)
Class RefPolicy (authorize : bytes -> bytes -> option Decision) (may_push : bytes -> bytes -> bytes -> Prop) : Prop :=
  allowed_ref_promised owner repo d ref :
    authorize owner repo = Some d -> ref ∈ d_AllowedRefs d -> may_push owner repo ref.

(** Behind such an authorization, what is forwarded has the property. *)
Lemma forwarded_refs_promised `{RefPolicy authorize may_push} miss now r cache owner repo f :
  cfg_Authorize cfg = Some authorize ->
  parseGitPath (rq_method r) (rq_path r) = Some (owner, repo, gitOpPush) ->
  o_forwarded (handle cfg upstream alive miss now r cache) = Some f ->
  exists ps block rest, rq_body r = block ++ rest /\ framed ps block /\ fw_body f = rq_body r /\
    forall line old new ref, line ∈ ps -> protocol_command line old new ref ->
      solid old -> solid new -> solid ref -> may_push owner repo ref.
Proof.
  intros Ha Hp Hf. destruct (forwarded_commands _ _ _ _ _ _ _ _ Ha Hp Hf)
    as (d & ps & block & rest & Hd & _ & Hb & Hfr & Hfb & Hall).
  exists ps, block, rest. split_and!; [done..|]. intros line old new ref Hin Hpc H1 H2 H3.
  eapply allowed_ref_promised; [exact Hd|]. by apply (Hall line old new ref).
Qed.

(** C4: An enforcing proxy forwards a push only when all of it is allowed.
    If a push reaches the upstream, the live authorization allowed its
    repository, the forwarded body is byte for byte the client's, and every
    pkt-line of its command block that holds a protocol command with names
    free of white space updates a ref in the allowed set and deletes
    nothing. *)
Theorem forwarded_push_is_allowed miss now r cache authorize owner repo f :
  cfg_Authorize cfg = Some authorize ->
  parseGitPath (rq_method r) (rq_path r) = Some (owner, repo, gitOpPush) ->
  o_forwarded (handle cfg upstream alive miss now r cache) = Some f ->
  exists d ps block rest, authorize owner repo = Some d /\ d_Allowed d = true /\
    rq_body r = block ++ rest /\ framed ps block /\ fw_body f = rq_body r /\
    forall line old new ref, line ∈ ps -> protocol_command line old new ref ->
      solid old -> solid new -> solid ref -> ref ∈ d_AllowedRefs d /\ isZeroOID new = false.
Proof. apply forwarded_commands. Qed.

(** A request no gate admits reaches nothing.  A CONNECT, a wrong
    per-run secret, a path that is not one of the three git shapes, a failed
    authorization check or a denied repository is answered 501, 401 or 403
    here, forwards nothing, records no push, and leaves the token cache as it
    was: no credential is minted for it. *)
Theorem refused_requests_reach_nothing miss now r cache :
  admitted r = None ->
  exists status body ds, handle cfg upstream alive miss now r cache = Outcome (Refused status body) None ds [] cache /\
    status ∈ [501; 401; 403].
Proof. apply handle_not_admitted. Qed.
End Gate.

(** ** A concrete proxy *)

Definition ex_feature : bytes := bs "refs/heads/feature".
Definition ex_decision : Decision := MkDecision true [ex_feature] [bs "refs/heads/main"] [] [].
Definition ex_token : Token := MkToken (bs "ghs_secret") (Some 3600000000000).
Definition ex_cfg : config :=
  Config (bs "run-secret") true
    (fun _ _ => Some ex_token)
    (Some (fun owner repo => if bool_decide (owner = bs "acme") && bool_decide (repo = bs "app") then Some ex_decision else None)).
Definition ex_upstream (f : forwarded) : upstream_answer :=
  Upstream [WriteHeader 200; WriteBody (bs "0000")] [].
Definition ex_miss (e : token_err) : Z * bytes := (502, bs "no credential").
Definition always (i : nat) : bool := true.
Definition no_tokens : token_cache := TC ∅ 0.

Definition oid (c : ascii) : bytes := replicate 40 c.
Definition ex_line (new ref : bytes) : bytes :=
  oid (byte_of 48) ++ SP :: new ++ SP :: ref ++ NUL :: bs " report-status side-band-64k".

(** A push of one ref, then three bytes of pack. *)
Definition ex_push (ref : bytes) : request :=
  Request (bs "POST") (bs "/acme/app.git/git-receive-pack") (bs "run-secret")
    {[ bs "Authorization" := bs "Basic caller" ]}
    (writePktLine (ex_line (oid (byte_of 97)) ref) ++ flush_pkt ++ bs "PCK").

Definition ex_handle (r : request) : outcome := handle ex_cfg ex_upstream always ex_miss 0 r no_tokens.

Lemma forwarded_push_is_allowed_witness :
  exists f d, o_forwarded (ex_handle (ex_push ex_feature)) = Some f /\ fw_body f = rq_body (ex_push ex_feature) /\
    d_AllowedRefs d = [ex_feature].
Proof.
  destruct (o_forwarded (ex_handle (ex_push ex_feature))) as [f|] eqn:E; [|by vm_compute in E].
  destruct (forwarded_push_is_allowed ex_cfg ex_upstream always ex_miss 0 (ex_push ex_feature) no_tokens
              (fun owner repo => if bool_decide (owner = bs "acme") && bool_decide (repo = bs "app") then Some ex_decision else None)
              (bs "acme") (bs "app") f) as (d & ps & block & rest & Hd & _ & _ & _ & Hb & _).
  - reflexivity.
  - by vm_compute.
  - exact E.
  - exists f, d. split_and!; [done|exact Hb|]. vm_compute in Hd. by injection Hd as <-.
Defined.

Lemma refused_requests_reach_nothing_witness :
  exists status body ds,
    handle ex_cfg ex_upstream always ex_miss 0
      (Request (bs "GET") (bs "/acme/other/info/refs") (bs "run-secret") ∅ []) no_tokens =
    Outcome (Refused status body) None ds [] no_tokens /\ status ∈ [501; 401; 403].
Proof.
  apply (refused_requests_reach_nothing ex_cfg ex_upstream always ex_miss 0
           (Request (bs "GET") (bs "/acme/other/info/refs") (bs "run-secret") ∅ []) no_tokens).
  by vm_compute.
Defined.

(** A ref name holding U+00A0, which git allows in names. *)
Definition nbsp_ref : bytes := bs "refs/heads/a" ++ [byte_of 194; byte_of 160] ++ bs "b".

(** The gate reads a ref name with Unicode white space as no command at
    all.  The command is well formed for the protocol, which separates fields
    by single spaces, but splitting it at Unicode white space gives four
    fields, so the push is forwarded although its ref is not in the allowed
    set. *)
Theorem unicode_space_ref_is_not_gated :
  protocol_command (ex_line (oid (byte_of 97)) nbsp_ref) (oid (byte_of 48)) (oid (byte_of 97)) nbsp_ref /\
  nbsp_ref ∉ d_AllowedRefs ex_decision /\
  parseGateCommands (writePktLine (ex_line (oid (byte_of 97)) nbsp_ref) ++ flush_pkt) = [] /\
  fw_body <$> o_forwarded (ex_handle (ex_push nbsp_ref)) = Some (rq_body (ex_push nbsp_ref)).
Proof.
  split; [by vm_compute|]. split; [|by vm_compute].
  apply (bool_decide_eq_false_1 _). by vm_compute.
Qed.

(** The same push of a plain name is refused. *)
Example plain_foreign_ref_is_gated : o_forwarded (ex_handle (ex_push (bs "refs/heads/ab"))) = None.
Proof. by vm_compute. Qed.

(** ** Credentials *)

Lemma installationToken_ok src owner repo now c c' tok :
  installationToken src owner repo now c = (c', Ok tok) ->
  tk_Value tok <> [] /\ tokenStale tok now = false /\
  tc_tokens c' !! ToLower (owner ++ bs "/" ++ repo) = Some tok /\
  ((c' = c) \/ (src owner repo = Some tok /\ tc_mints c' = S (tc_mints c) /\
                c' = TC (<[ToLower (owner ++ bs "/" ++ repo) := tok]> (tc_tokens c)) (S (tc_mints c)))).
Proof.
  unfold installationToken. set (key := ToLower _). intros H.
  assert (Hm : (match src owner repo with
    | None => (c, Err TokenSourceFailed)
    | Some tok =>
        if bool_decide (tk_Value tok = []) then (c, Err TokenEmpty)
        else if tokenStale tok now then (c, Err TokenExpiring)
        else (TC (<[key := tok]> (tc_tokens c)) (S (tc_mints c)), Ok tok)
    end) = (c', Ok tok) -> tk_Value tok <> [] /\ tokenStale tok now = false /\ tc_tokens c' !! key = Some tok /\
      ((c' = c) \/ (src owner repo = Some tok /\ tc_mints c' = S (tc_mints c) /\
         c' = TC (<[key := tok]> (tc_tokens c)) (S (tc_mints c))))).
  { destruct (src owner repo) as [t|]; [|done]. case_bool_decide as Hv; [done|].
    destruct (tokenStale t now) eqn:He; [done|]. intros [= <- <-].
    split_and!; try done; [cbn [tc_tokens]; by rewrite lookup_insert_eq|by right]. }
  destruct (tc_tokens c !! key) as [t|] eqn:Hk; [|by apply Hm].
  destruct (negb (bool_decide _) && negb _) eqn:E; [|by apply Hm].
  injection H as <- <-. bool_hyps. split_and!; try done. by left.
Qed.

Lemma fold_delete_lookup (ks : list bytes) (h : gmap bytes bytes) k :
  k ∈ ks -> fold_left (fun h k => delete k h) ks h !! k = None.
Proof.
  revert h. induction ks as [|x ks IH] using rev_ind; intros h; [by rewrite elem_of_nil|].
  rewrite elem_of_app, list_elem_of_singleton, fold_left_app. simpl. intros [Hk| ->]; [|by rewrite lookup_delete_eq].
  destruct (decide (x = k)) as [->|]; [by rewrite lookup_delete_eq|]. rewrite lookup_delete_ne by done. by apply IH.
Qed.

Lemma rewrite_headers_auth m p tok h :
  tok <> [] -> rewrite_headers m p tok h !! bs "Authorization" = Some (basicAuthHeader tok).
Proof. intros H. unfold rewrite_headers. rewrite bool_decide_false by done. by rewrite lookup_insert_eq. Qed.

Lemma rewrite_headers_stripped m p tok h k :
  k ∈ stripped_headers -> rewrite_headers m p tok h !! k = None.
Proof.
  intros Hk. pose proof (fold_delete_lookup stripped_headers h k Hk) as H.
  assert (k <> bs "Authorization" /\ k <> bs "Accept-Encoding") as [H1 H2].
  { unfold stripped_headers in Hk. split; intros ->; revert Hk; apply (bool_decide_eq_false_1 _); by vm_compute. }
  unfold rewrite_headers. destruct (bool_decide (tok = [])), (isReceivePackPush m p);
    rewrite ?lookup_delete_ne, ?lookup_insert_ne by congruence; done.
Qed.

Section Credentials.
Context (cfg : config) (upstream : forwarded -> upstream_answer) (alive : nat -> bool).

Lemma serve_forward miss now r cache owner repo op d f :
  o_forwarded (serve cfg upstream alive miss now r cache owner repo op d) = Some f ->
  exists cache' tok body, installationToken (cfg_TokenSource cfg) owner repo now cache = (cache', Ok tok) /\
    f = forward_of r (tk_Value tok) body.
Proof.
  unfold serve. destruct (installationToken _ _ _ _ _) as [cache' [tok|]]; [|done].
  exists cache', tok. destruct (_ && _).
  - apply gated_forward in H as (_ & _ & _ & _ & _ & -> & _). by eexists.
  - destruct (_ && _); injection H as <-; by eexists.
Qed.

(** The upstream sees the repository's own fresh credential and none of
    the caller's.  Whatever is forwarded, for any operation, carries as its
    Authorization the Basic form of a non-empty token, not within five
    minutes of its expiry, that the source gave for this very repository now
    or that is cached under it; the caller's own Authorization is replaced
    and its proxy and forwarding headers are gone. *)
Theorem forwarded_credential_is_ours miss now r cache f :
  o_forwarded (handle cfg upstream alive miss now r cache) = Some f ->
  exists owner repo op d tok, admitted cfg r = Some (owner, repo, op, d) /\
    tk_Value tok <> [] /\ tokenStale tok now = false /\
    (cfg_TokenSource cfg owner repo = Some tok \/ tc_tokens cache !! ToLower (owner ++ bs "/" ++ repo) = Some tok) /\
    fw_headers f !! bs "Authorization" = Some (basicAuthHeader (tk_Value tok)) /\
    (forall k, k ∈ stripped_headers -> fw_headers f !! k = None).
Proof.
  intros Hf. destruct (admitted cfg r) as [[[[o rp] op] d]|] eqn:Had.
  2: { destruct (handle_not_admitted cfg upstream alive miss now r cache Had) as (? & ? & ? & E & _). by rewrite E in Hf. }
  rewrite (handle_admitted _ _ _ _ _ _ _ _ _ _ _ Had) in Hf.
  apply serve_forward in Hf as (cache' & tok & body & Ht & ->).
  apply installationToken_ok in Ht as (Hv & Hs & Hc & Hsrc). exists o, rp, op, d, tok.
  split_and!; try done.
  - destruct Hsrc as [->|[? _]]; [by right|by left].
  - by apply rewrite_headers_auth.
  - intros k Hk. by apply rewrite_headers_stripped.
Qed.
End Credentials.

Lemma forwarded_credential_is_ours_witness :
  exists f tok, o_forwarded (ex_handle (ex_push ex_feature)) = Some f /\
    fw_headers f !! bs "Authorization" = Some (basicAuthHeader (tk_Value tok)).
Proof.
  destruct (o_forwarded (ex_handle (ex_push ex_feature))) as [f|] eqn:E; [|by vm_compute in E].
  destruct (forwarded_credential_is_ours ex_cfg ex_upstream always ex_miss 0 (ex_push ex_feature) no_tokens f E)
    as (o & rp & op & d & tok & _ & _ & _ & _ & H & _).
  exists f, tok. by split.
Defined.

(** A token is minted once and reused.  After a token was obtained for a
    repository, any later request for it, under any spelling of its case,
    gets the same token with no call to the source and the cache untouched,
    until the token comes within five minutes of its expiry; a token with no
    tracked lifetime is reused for ever. *)
Theorem token_is_reused src src' owner repo owner' repo' now now' c c' tok :
  installationToken src owner repo now c = (c', Ok tok) ->
  ToLower (owner' ++ bs "/" ++ repo') = ToLower (owner ++ bs "/" ++ repo) ->
  tokenStale tok now' = false ->
  installationToken src' owner' repo' now' c' = (c', Ok tok).
Proof.
  intros (Hv & _ & Hc & _)%installationToken_ok Hk Hs. unfold installationToken.
  rewrite Hk, Hc, Hs, bool_decide_false by done. done.
Qed.

Lemma token_is_reused_witness :
  exists c', installationToken (fun _ _ => None) (bs "Acme") (bs "App") 1000 c' = (c', Ok ex_token) /\ tc_mints c' = 1%nat.
Proof.
  exists (installationToken (fun _ _ => Some ex_token) (bs "acme") (bs "app") 0 no_tokens).1.
  split; [|by vm_compute].
  apply (token_is_reused (fun _ _ => Some ex_token) (fun _ _ => None) (bs "acme") (bs "app") (bs "Acme") (bs "App") 0 1000
           no_tokens); by vm_compute.
Defined.

(** ** Paths *)

Definition op_suffix (op : git_op) : bytes :=
  match op with
  | gitOpAdvertise => bs "/info/refs" | gitOpFetch => bs "/git-upload-pack"
  | gitOpPush => bs "/git-receive-pack" | gitOpPath => []
  end.

Lemma Join_Split s c : Join (Split s c) [c] = s.
Proof.
  induction s as [|x s IH]; [done|]. simpl. case_bool_decide as Hx.
  - subst x. destruct (Split_nonempty s c) as (i & l & E). rewrite E in *.
    change (Join ([] :: i ++ [l]) [c]) with (match i ++ [l] with [] => [] | _ => [] ++ [c] ++ Join (i ++ [l]) [c] end).
    rewrite IH. by destruct i.
  - destruct (Split_nonempty s c) as (i & l & E). rewrite E in *. destruct i as [|y i]; simpl in *.
    + by rewrite IH.
    + rewrite <- IH. by destruct i.
Qed.

(** An admitted path is exactly an owner, a repository and a git suffix.
    Both names are non-empty, drawn from the repository alphabet and free of
    dot-dot; the path is nothing but the two names, an optional [.git] and the
    operation's suffix; and the weaker routing predicate recognizes it too. *)
Theorem admitted_path_shape method path owner repo op :
  parseGitPath method path = Some (owner, repo, op) ->
  ValidRepoSegment owner = true /\ ValidRepoSegment repo = true /\
  IsGitSmartHTTPPath method path = true /\
  exists slash git, slash ∈ [[]; bs "/"] /\ git ∈ [[]; bs ".git"] /\
    path = slash ++ owner ++ bs "/" ++ repo ++ git ++ op_suffix op.
Proof.
  unfold parseGitPath. pose proof (Join_Split (TrimPrefix path (bs "/")) SLASH) as Hj.
  destruct (Split _ _) as [|o [|rp [|r1 rest]]]; [done..|].
  destruct (ValidRepoSegment o) eqn:Ho; [|done]. destruct (ValidRepoSegment (TrimSuffix rp (bs ".git"))) eqn:Hr; [|done].
  cbn [negb orb]. intros H.
  assert (Hpath : exists slash, slash ∈ [[]; bs "/"] /\ path = slash ++ TrimPrefix path (bs "/")).
  { unfold TrimPrefix. destruct (HasPrefix path (bs "/")) eqn:Hp.
    - exists (bs "/"). split; [set_solver|]. apply HasPrefix_true in Hp as [t ->]. by rewrite drop_app_length.
    - exists []. split; [set_solver|done]. }
  assert (Hgit : exists git, git ∈ [[]; bs ".git"] /\ rp = TrimSuffix rp (bs ".git") ++ git).
  { unfold TrimSuffix. destruct (HasSuffix rp (bs ".git")) eqn:Hs.
    - exists (bs ".git"). split; [set_solver|]. apply HasSuffix_true in Hs as [t ->].
      by rewrite length_app, Nat.add_sub, take_app_length.
    - exists []. split; [set_solver|]. by rewrite app_nil_r. }
  assert (Hmain : o = owner /\ TrimSuffix rp (bs ".git") = repo /\ Join (r1 :: rest) [SLASH] = drop 1 (op_suffix op) /\
     bs "/" ++ drop 1 (op_suffix op) = op_suffix op /\
     ((op = gitOpAdvertise /\ method = bs "GET") \/ ((op = gitOpFetch \/ op = gitOpPush) /\ method = bs "POST"))).
  { destruct (_ && _) eqn:E1; [|destruct (_ && _) eqn:E2 in H; [|destruct (_ && _) eqn:E3 in H; [|done]]];
      injection H as <- <- <-; bool_hyps; match goal with E : r1 :: rest = _ |- _ => injection E as -> -> end;
      split_and!; try done; auto. }
  destruct Hmain as (-> & Hrp & Hrest & Hsuf & Hop). destruct Hgit as (git & Hg & Hrpg). rewrite Hrp in Hrpg.
  destruct Hpath as (slash & Hsl & Hpp).
  assert (E : path = slash ++ owner ++ bs "/" ++ repo ++ git ++ op_suffix op).
  { rewrite Hpp, <- Hj. change (Join (owner :: rp :: r1 :: rest) [SLASH]) with (owner ++ [SLASH] ++ rp ++ [SLASH] ++ Join (r1 :: rest) [SLASH]).
    rewrite Hrest, Hrpg, <- Hsuf, <- !app_assoc. done. }
  split_and!; [done|by rewrite <- Hrp| |by exists slash, git].
  assert (Hs : HasSuffix path (op_suffix op) = true)
    by (apply HasSuffix_true; exists (slash ++ owner ++ bs "/" ++ repo ++ git); by rewrite E, <- !app_assoc).
  unfold IsGitSmartHTTPPath. destruct Hop as [[-> ->]|[[->| ->] ->]]; cbn [op_suffix] in Hs; rewrite Hs; try done.
  all: by rewrite ?orb_true_r.
Qed.

Lemma admitted_path_shape_witness :
  ValidRepoSegment (bs "app") = true /\
  exists slash git, slash ∈ [[]; bs "/"] /\ git ∈ [[]; bs ".git"] /\
    bs "/acme/app.git/git-receive-pack" = slash ++ bs "acme" ++ bs "/" ++ bs "app" ++ git ++ op_suffix gitOpPush.
Proof.
  destruct (admitted_path_shape (bs "POST") (bs "/acme/app.git/git-receive-pack") (bs "acme") (bs "app") gitOpPush)
    as (_ & H & _ & E); [by vm_compute|]. split; [exact H|exact E].
Defined.

(** ** Reading the response *)

(** How the response is cut into writes does not matter.  The capture
    after any sequence of writes, whatever pkt-lines straddle them, is the
    capture of the whole response fed at once, in every field: the raw copy,
    the assembled report, the flags and the message. *)
Theorem capture_ignores_write_boundaries (chunks : list bytes) :
  fold_left feed chunks empty_capture = feed empty_capture (concat chunks).
Proof. apply capture_whole. Qed.

(** The bounded message tail is the tail of the whole text.  The message
    read after any sequence of writes is the one computed from the whole text:
    split at newlines, lines with a carriage return dropped, the last twenty
    kept, joined, cut from the front to 1024 bytes at a rune boundary and
    trimmed, although only a bounded part of each line is ever kept. *)
Theorem message_tail_is_exact (chunks : list bytes) :
  mt_String (fold_left mt_write chunks empty_tail) = message_of (concat chunks).
Proof.
  apply tail_String. rewrite <- (app_nil_l (concat chunks)). generalize tail_of_empty. generalize empty_tail.
  generalize (@nil ascii). induction chunks as [|a chunks IH]; intros text m Hm; simpl; [by rewrite app_nil_r|].
  rewrite app_assoc. by apply IH, tail_of_write.
Qed.

(** ** A refusal reads as a refusal *)

(** The report's lines, parsed back. *)
Definition ng_line (c : gateCommand) (msg : bytes) : bytes :=
  bs "ng " ++ gc_ref c ++ bs " " ++ (if bool_decide (msg = []) then whole_refusal else msg) ++ [LF].

Lemma ng_line_parts c msg :
  SP ∉ gc_ref c ->
  exists reason, Cut (TrimSuffix (ng_line c msg) [LF]) SP = (bs "ng", gc_ref c ++ SP :: reason) /\
    Cut (gc_ref c ++ SP :: reason) SP = (gc_ref c, reason).
Proof.
  intros H. exists (if bool_decide (msg = []) then whole_refusal else msg). split; [|by apply Cut_app].
  unfold ng_line. rewrite !app_assoc, TrimSuffix_app, <- !app_assoc.
  change (bs "ng " ++ gc_ref c ++ bs " " ++ ?m) with (bs "ng" ++ SP :: (gc_ref c ++ SP :: m)).
  by apply Cut_app, (bool_decide_eq_true_1 _).
Qed.

Lemma report_loop_ng fuel refs cmds msgs b :
  length cmds = length msgs -> Forall (fun c => SP ∉ gc_ref c /\ gc_ref c <> []) cmds ->
  framed (zip_with ng_line cmds msgs) b -> (length b <= fuel)%nat ->
  exists refs', report_loop fuel [] refs true b = Some (Report [] refs') /\
    (forall c, c ∈ cmds -> exists x, refs' !! gc_ref c = Some x /\ rr_ok x = false) /\
    (forall ref x, refs !! ref = Some x -> rr_ok x = false -> exists y, refs' !! ref = Some y /\ rr_ok y = false).
Proof.
  revert fuel refs msgs b. induction cmds as [|c cmds IH]; intros fuel refs msgs b Hl Hc Hb Hf;
    destruct msgs as [|m msgs]; try done; simpl in Hb; inversion Hb as [hdr H0 Hn|hdr p ps b' Hok Hb']; subst;
    (destruct fuel as [|fuel]; [no_fuel|]); cbn [report_loop].
  - flush_case. exists refs. split_and!; [done| |eauto]. intros c Hin. by apply elem_of_nil in Hin.
  - apply Forall_cons in Hc as [[Hsp Hne] Hc]. destruct (ng_line_parts c m Hsp) as (reason & E1 & E2).
    line_case. cbn [Nat.add Nat.eqb orb negb]. rewrite E1. cbn [bool_decide]. rewrite bool_decide_false by done.
    rewrite bool_decide_true by done. rewrite E2, bool_decide_false by done.
    destruct (IH fuel (<[gc_ref c := RefReport false (boundReason reason)]> refs) msgs b') as (refs' & E & H1 & H2);
      [by injection Hl|done|done|by eapply frame_fuel|].
    exists refs'. split_and!; [done| |].
    + intros c' [->|Hin]%elem_of_cons; [|by apply H1].
      eapply H2; [by rewrite lookup_insert_eq|done].
    + intros ref x Hx Hno. destruct (decide (gc_ref c = ref)) as [<-|Hr].
      * eapply H2; [by rewrite lookup_insert_eq|done].
      * eapply H2; [by rewrite lookup_insert_ne|done].
Qed.

Lemma parse_report cmds msgs b :
  length cmds = length msgs -> Forall (fun c => SP ∉ gc_ref c /\ gc_ref c <> []) cmds ->
  framed (report_lines cmds msgs) b ->
  exists rep, parseReportStatus b = Some rep /\ forall c, c ∈ cmds -> (refOutcome rep (gc_ref c)).1 = true.
Proof.
  intros Hl Hc Hb. unfold parseReportStatus. assert (Hf : (length b <= length b)%nat) by lia.
  revert Hf. generalize (length b) at 2 3. intros fuel Hf.
  change (report_lines cmds msgs) with ((bs "unpack ok" ++ [LF]) :: zip_with ng_line cmds msgs) in Hb.
  apply framed_cons in Hb as (hdr & b' & -> & Hok & Hb').
  destruct fuel as [|fuel]; [no_fuel|]. cbn [report_loop]. line_case. cbn [Nat.add Nat.eqb orb negb].
  rewrite TrimSuffix_app. change (CutPrefix (bs "unpack ok") (bs "unpack ")) with (Some (bs "ok")). cbv iota.
  rewrite bool_decide_true by done.
  destruct (report_loop_ng fuel ∅ cmds msgs b') as (refs & E & H & _); [done|done|done|by eapply frame_fuel|].
  exists (Report [] refs). split; [done|]. intros c Hin. destruct (H c Hin) as (x & Hx & Hno).
  unfold refOutcome. cbn [rp_refused rp_refs]. rewrite bool_decide_true by done. cbn. by rewrite Hx, Hno.
Qed.

Lemma mux_framed fuel body :
  (length body <= fuel)%nat ->
  exists ps, framed (map (cons sideBandData) ps) (mux_loop fuel body ++ flush_pkt) /\ concat ps = body.
Proof.
  revert body. induction fuel as [|fuel IH]; intros body Hf.
  { exists []. split; [by constructor|]. by destruct body; [|simpl in Hf; lia]. }
  cbn [mux_loop]. case_bool_decide as Hb; [exists []; subst; split; [by constructor|done]|].
  set (n := Nat.min (length body) sideBandChunk).
  assert (Hn : (1 <= n)%nat) by (unfold n, sideBandChunk; destruct body; [done|simpl; lia]).
  destruct (IH (drop n body)) as (ps & Hps & Hc); [rewrite length_drop; lia|].
  exists (take n body :: ps). split; [|simpl; by rewrite Hc, take_drop].
  destruct (writePktLine_frame (sideBandData :: take n body)) as (hdr & E & Hok).
  { simpl. rewrite length_take. unfold n, sideBandChunk, pktLineLenWidth. lia. }
  rewrite E, <- !app_assoc. by constructor.
Qed.

Lemma feed_loop_band1 ps fuel c b :
  framed (map (cons sideBandData) ps) b -> (length b <= fuel)%nat ->
  rc_broken c = false -> rc_band1Over c = false ->
  (length (rc_band1 c) + length (concat ps) <= maxReportCapture)%nat ->
  rc_broken (feed_loop fuel c b) = false /\ rc_band1Over (feed_loop fuel c b) = false /\
  rc_band1 (feed_loop fuel c b) = rc_band1 c ++ concat ps.
Proof.
  revert fuel c b. induction ps as [|p ps IH]; intros fuel c b Hb Hf Hbr Hov Hlen; simpl in Hb.
  - assert (exists hdr, b = hdr /\ length hdr = pktLineLenWidth /\ pktLineLen hdr = Some 0%nat) as (hdr & -> & Hl & H0)
      by (inversion Hb; eauto).
    destruct fuel as [|fuel]; [no_fuel|]. cbn [feed_loop]. flush_case. cbn. by rewrite app_nil_r.
  - apply framed_cons in Hb as (hdr & b' & -> & Hok & Hb').
    destruct fuel as [|fuel]; [no_fuel|]. cbn [feed_loop].
    replace (length (hdr ++ (sideBandData :: p) ++ b') <? pktLineLenWidth)%nat with false
      by (symmetry; apply (frame_parts hdr (sideBandData :: p) b' Hok)).
    line_case. rewrite andb_false_r. cbn [Nat.add Nat.eqb].
    cbn [concat] in Hlen. rewrite length_app in Hlen.
    set (c1 := RC (rc_raw c) (rc_rawOver c) (rc_pending c) (rc_band1 c ++ p) false (rc_broken c) (rc_done c) (rc_fatal c) (rc_message c)).
    assert (Hdm : demux c (sideBandData :: p) = c1).
    { unfold demux. rewrite bool_decide_true, Hov by done. by rewrite (proj2 (Nat.ltb_ge maxReportCapture _)) by lia. }
    rewrite Hdm. assert (Hbr1 : rc_broken c1 = false) by done. rewrite Hbr1.
    destruct (IH fuel c1 b') as (E1 & E2 & E3); [done|by eapply frame_fuel|done|done|cbn; rewrite length_app; lia|].
    change (pktLineLenWidth + length (sideBandData :: p) =? 0)%nat with false. cbv iota.
    rewrite E1, E2, E3. split_and!; [done..|]. cbn [rc_band1 c1 concat]. by rewrite <- app_assoc.
Qed.

Lemma feed_empty b : feed empty_capture b = feed_loop (length b) (keep_raw empty_capture b) b.
Proof. rewrite feed_resume. unfold resume. by destruct (keep_raw_flags empty_capture b) as (-> & -> & ->). Qed.

(** The report refusePush writes. *)
Definition refusal_report (cmds : list gateCommand) (refusals : list bytes) : bytes :=
  concat (map writePktLine (report_lines cmds refusals)) ++ flush_pkt.

(** A refused push reads as refused.  When the client asked for a report
    and the refusal fits the capture, the answer is a 200 whose body the
    proxy's own response reader, fed in any pieces and under the same
    capabilities, parses into a report that refuses every command of the
    push, plain or multiplexed. *)
Theorem refusal_reads_as_refusal (block : bytes) (cmds : list gateCommand) (refusals chunks : list bytes) :
  reportStatus (parsePushCapabilities block) = true ->
  length cmds = length refusals ->
  Forall (fun c => SP ∉ gc_ref c /\ gc_ref c <> []) cmds ->
  Forall (fun line => Z.of_nat (length line + pktLineLenWidth) < 65536) (report_lines cmds refusals) ->
  (length (refusal_report cmds refusals) <= maxReportCapture)%nat ->
  concat chunks = an_body (refusePush block cmds refusals) ->
  an_status (refusePush block cmds refusals) = 200 /\
  exists rep msg, rc_result (fold_left feed chunks empty_capture) (parsePushCapabilities block) = (Some rep, msg, None) /\
    forall c, c ∈ cmds -> (refOutcome rep (gc_ref c)).1 = true.
Proof.
  intros Hrs Hl Hc Hlines Hlen Hch. rewrite capture_whole, Hch. unfold refusePush in *.
  rewrite Hrs in *. cbn [negb an_status an_body] in *. split; [done|].
  fold (refusal_report cmds refusals) in *. set (report := refusal_report cmds refusals) in *.
  destruct (parse_report cmds refusals report Hl Hc) as (rep & Hrep & Href); [by apply framed_write|].
  unfold rc_result, rc_report. rewrite Hrs. cbn [negb].
  destruct (sideBand (parsePushCapabilities block)) eqn:Hsb; cbn [andb negb].
  - destruct (mux_framed (length report) report) as (ps & Hps & Hcat); [apply Nat.le_refl|].
    set (body := mux_loop (length report) report ++ flush_pkt) in *.
    rewrite feed_empty. clearbody body.
    assert (Hk : rc_band1 (keep_raw empty_capture body) = [] /\ rc_band1Over (keep_raw empty_capture body) = false)
      by (unfold keep_raw; repeat case_match; done). destruct Hk as [Hk1 Hk2].
    destruct (feed_loop_band1 ps (length body) (keep_raw empty_capture body) body) as (E1 & E2 & E3);
      [done|apply Nat.le_refl|by apply keep_raw_flags|done|by rewrite Hk1, Hcat|].
    rewrite E1, E2, E3, Hk1, Hcat. cbn [app]. rewrite Hrep. by eexists _, _.
  - assert (Hraw : rc_rawOver (feed empty_capture report) = false /\ rc_raw (feed empty_capture report) = report).
    { rewrite feed_resume. unfold keep_raw. change (rc_rawOver empty_capture) with false. cbv iota.
      rewrite (proj2 (Nat.ltb_ge maxReportCapture (length (rc_raw empty_capture) + length report)) Hlen).
      apply resume_raw. }
    destruct Hraw as [-> ->]. rewrite Hrep. by eexists _, _.
Qed.

Definition ex_block : bytes := writePktLine (ex_line (oid (byte_of 97)) (bs "refs/heads/main")) ++ flush_pkt.
Definition ex_cmds : list gateCommand := [GateCommand (bs "refs/heads/main") false].
Definition ex_refusals : list bytes := [bs "gitproxy: refused"].

(** The refusal of a push to main, read one byte at a time. *)
Lemma refusal_reads_as_refusal_witness :
  an_status (refusePush ex_block ex_cmds ex_refusals) = 200 /\
  exists rep msg, rc_result (fold_left feed (map (fun c => [c]) (an_body (refusePush ex_block ex_cmds ex_refusals))) empty_capture)
      (parsePushCapabilities ex_block) = (Some rep, msg, None) /\
    forall c, c ∈ ex_cmds -> (refOutcome rep (gc_ref c)).1 = true.
Proof.
  apply (refusal_reads_as_refusal ex_block ex_cmds ex_refusals).
  - by vm_compute.
  - done.
  - apply Forall_singleton. split; [apply (bool_decide_eq_true_1 _); by vm_compute|done].
  - repeat constructor.
  - apply Nat.leb_le. by vm_compute.
  - by vm_compute.
Defined.
