(* ===== verification/Lease.v ===== *)
(** * Leader election: knobs, store and manager

    Models internal/lease: the timing knobs and the margin check of lease.go
    and manager.go, the Postgres store's four statements, and the manager's
    transitions.  A store call is asynchronous: [tick] begins it, the database
    executes it at some instant or never, and [tick] resumes when the call
    returns or its timeout fires, so the tick is modelled as the pieces of code
    between those points.  Durations are nanoseconds. *)

From S2P Require Import Prelude GoBytes.

Definition second : Z := 1000000000.

(** ** Knobs *)

Definition DefaultRenewInterval : Z := 5 * second.
Definition DefaultTTL : Z := 20 * second.
Definition DefaultDemoteDeadline : Z := 15 * second.

(** [strconv.Atoi]: an optional sign and decimal digits, within [int64]. *)
Fixpoint digits_loop (acc : Z) (s : bytes) : option Z :=
  match s with
  | [] => Some acc
  | c :: s => if (48 <=? bv c) && (bv c <=? 57) then digits_loop (acc * 10 + (bv c - 48)) s else None
  end.

Definition Atoi (s : bytes) : option Z :=
  let '(neg, d) := match s with
                   | c :: d => if bv c =? 45 then (true, d) else if bv c =? 43 then (false, d) else (false, s)
                   | [] => (false, [])
                   end in
  if bool_decide (d = []) then None
  else match digits_loop 0 d with
       | None => None
       | Some n => let n := if (neg : bool) then - n else n in
                   if (int64_min <=? n) && (n <=? int64_max) then Some n else None
       end.

Inductive knob_error := BadSeconds (name : string) | MarginTooSmall.

(** The product wraps as [time.Duration] arithmetic does. *)
Definition parseSecondsEnv (raw : bytes) (name : string) (def : Z) : res knob_error Z :=
  let s := TrimSpace raw in
  if bool_decide (s = []) then Ok def
  else match Atoi s with
       | Some n => if n <=? 0 then Err (BadSeconds name) else Ok (wrap64 (n * second))
       | None => Err (BadSeconds name)
       end.

Definition ParseRenewInterval (s : bytes) := parseSecondsEnv s "TF_LEASE_RENEW_SEC" DefaultRenewInterval.
Definition ParseTTL (s : bytes) := parseSecondsEnv s "TF_LEASE_TTL_SEC" DefaultTTL.
Definition ParseDemoteDeadline (s : bytes) := parseSecondsEnv s "TF_LEASE_DEMOTE_SEC" DefaultDemoteDeadline.

Definition deadlineCheckInterval (demoteDeadline : Z) : Z :=
  let d := Z.quot demoteDeadline 5 in if d <? second then second else d.

Definition storeCallTimeout (ttl demoteDeadline : Z) : Z :=
  let d := Z.quot (wrap64 (ttl - demoteDeadline)) 2 in
  let cap := Z.quot demoteDeadline 3 in
  let d := if cap <? d then cap else d in
  if d <? second then second else d.

(** The longer of the two detection delays. *)
Definition detection_gap (ttl demoteDeadline : Z) : Z :=
  let gap := deadlineCheckInterval demoteDeadline in
  let call := storeCallTimeout ttl demoteDeadline in
  if gap <? call then call else gap.

Definition demoteMarginError (demoteDeadline ttl : Z) : bool :=
  ttl <=? wrap64 (demoteDeadline + detection_gap ttl demoteDeadline).

Definition KnobsFromEnv (env : string -> bytes) : res knob_error (Z * Z * Z) :=
  let? renewInterval := ParseRenewInterval (env "TF_LEASE_RENEW_SEC"%string) in
  let? ttl := ParseTTL (env "TF_LEASE_TTL_SEC"%string) in
  let? demoteDeadline := ParseDemoteDeadline (env "TF_LEASE_DEMOTE_SEC"%string) in
  refuse? demoteMarginError demoteDeadline ttl with MarginTooSmall ;;
  Ok (renewInterval, ttl, demoteDeadline).

(** ** The store *)

Record lease_row := LR { lr_holder : string; lr_term : Z; lr_acquired : Z; lr_renewed : Z }.

(** The Unix epoch, in database time. *)
Definition epoch : Z := 0.

(** [EnsureRow]: insert unless present. *)
Definition EnsureRow (name : string) (now : Z) (t : gmap string lease_row) : gmap string lease_row :=
  match t !! name with Some _ => t | None => <[name := LR "" 0 now epoch]> t end.

Definition TryAcquire (name holder : string) (ttl now : Z) (t : gmap string lease_row)
  : gmap string lease_row * option Z :=
  match t !! name with
  | Some r => if lr_renewed r <? now - ttl
              then (<[name := LR holder (lr_term r + 1) now now]> t, Some (lr_term r + 1))
              else (t, None)
  | None => (t, None)
  end.

Definition Renew (name holder : string) (term now : Z) (t : gmap string lease_row) : gmap string lease_row * bool :=
  match t !! name with
  | Some r => if bool_decide (lr_holder r = holder) && (lr_term r =? term)
              then (<[name := LR (lr_holder r) (lr_term r) (lr_acquired r) now]> t, true)
              else (t, false)
  | None => (t, false)
  end.

Definition Read (name : string) (t : gmap string lease_row) : string * Z :=
  match t !! name with Some r => (lr_holder r, lr_term r) | None => (""%string, 0) end.

(** ** The manager *)

Record Status := St { st_HolderID : string; st_Term : Z; st_IsHolder : bool }.

(** What the callbacks were told. *)
Inductive brain_event := OnAcquire (term : Z) | OnDemote.

Record Manager := Mgr { m_status : Status; m_last : Z; m_events : list brain_event }.
Definition new_manager : Manager := Mgr (St "" 0 false) 0 [].

Definition IsHolder (m : Manager) : bool := st_IsHolder (m_status m).
Definition currentTerm (m : Manager) : Z := st_Term (m_status m).

Definition demote (m : Manager) : Manager :=
  let s := m_status m in
  let m' := Mgr (St (st_HolderID s) (st_Term s) false) (m_last m) (m_events m) in
  if st_IsHolder s then Mgr (m_status m') (m_last m') (m_events m' ++ [OnDemote]) else m'.

Definition demoteIfHolder (m : Manager) : Manager := if IsHolder m then demote m else m.

Definition promote (holderID : string) (term issuedAt : Z) (m : Manager) : Manager :=
  Mgr (St holderID term true) issuedAt (m_events m ++ [OnAcquire term]).

(** The new manager and whether it demoted. *)
Definition checkDemoteDeadline (demoteDeadline now : Z) (m : Manager) : Manager * bool :=
  if negb (IsHolder m) || (now - m_last m <? demoteDeadline) then (m, false) else (demote m, true).

Definition refreshObservedStatus (seen : option (string * Z)) (m : Manager) : Manager :=
  match seen with
  | None => m
  | Some (holder, term) =>
      if IsHolder m then m else Mgr (St holder term false) (m_last m) (m_events m)
  end.

(** ** The tick, cut at its store calls *)

(** The call a tick goes on to make. *)
Inductive call := CRenew (term : Z) | CAcquire | CNone.

(** From the tick's start to its first call that matters: a fenced instance
    demotes and stops, a holder checks its deadline and renews, anyone else
    tries to acquire (after an [EnsureRow] whose outcome does not matter). *)
Definition tick_begin (fenced : bool) (demoteDeadline now : Z) (m : Manager) : Manager * call :=
  if fenced then (demoteIfHolder m, CNone)
  else if IsHolder m then
    let '(m, demoted) := checkDemoteDeadline demoteDeadline now m in
    if (demoted : bool) then (m, CNone) else (m, CRenew (currentTerm m))
  else (m, CAcquire).

(** After [Renew]: [None] is an error, timeouts included. *)
Definition tick_renewed (demoteDeadline issuedAt now : Z) (result : option bool) (m : Manager) : Manager :=
  match result with
  | None => (checkDemoteDeadline demoteDeadline now m).1
  | Some false => demote m
  | Some true => Mgr (m_status m) issuedAt (m_events m)
  end.

(** After [TryAcquire]: [None] is an error; a fresh lease elsewhere refreshes
    the observed status with what [Read] answers. *)
Definition tick_acquired (holderID : string) (issuedAt : Z) (result : option (option Z)) (seen : option (string * Z)) (m : Manager) : Manager :=
  match result with
  | None => m
  | Some (Some term) => promote holderID term issuedAt m
  | Some None => refreshObservedStatus seen m
  end.
