(* ===== verification/LeaseSpec.v ===== *)
(** * At most one background brain

    Any number of managers run against one store, in any interleaving.  The
    assumptions on the runtime are the primitive ones: a goroutine idle in its
    select is woken by a deadline tick that is due, a deadline tick is due
    within one interval of the last, and a store call returns within its
    timeout.  Nothing is assumed of the database's latency: a statement may
    execute at any instant of its call, after its caller gave up, or never.
    The database's clock and the managers' monotonic clocks run at one rate,
    so instants are read off one clock. *)

From S2P Require Import Prelude GoBytes Lease.

(** ** The system *)

Inductive phase :=
| Idle (since : Z)
| Renewing (term issued : Z) (got : option bool)
| Acquiring (issued : Z) (got : option (option Z)).

(** [n_tick] is when the next deadline tick is due. *)
Record node := Node { n_mgr : Manager; n_phase : phase; n_tick : Z }.

Record world := World { w_nodes : gmap string node; w_rows : gmap string lease_row; w_now : Z }.

Lemma check_positive d : 0 < deadlineCheckInterval d.
Proof.
  unfold deadlineCheckInterval. generalize (Z.quot d 5). intros q.
  destruct (Z.ltb_spec q second); unfold second in *; lia.
Qed.

Lemma call_positive ttl d : 0 < storeCallTimeout ttl d.
Proof.
  unfold storeCallTimeout. generalize (if Z.quot d 3 <? Z.quot (wrap64 (ttl - d)) 2 then Z.quot d 3 else Z.quot (wrap64 (ttl - d)) 2).
  intros q. destruct (Z.ltb_spec q second); unfold second in *; lia.
Qed.

Section System.
Context (name : string) (ttl demoteDeadline : Z).

Definition check_every : Z := deadlineCheckInterval demoteDeadline.
Definition call_bound : Z := storeCallTimeout ttl demoteDeadline.

(** Time may reach [t]: no holder's due tick and no call's timeout is passed. *)
Definition timely (t : Z) (nd : node) : Prop :=
  match n_phase nd with
  | Idle since => IsHolder (n_mgr nd) = true -> t <= Z.max since (n_tick nd)
  | Renewing _ issued _ | Acquiring issued _ => t <= issued + call_bound
  end.

Definition put (w : world) (n : string) (nd : node) (rows : gmap string lease_row) : world :=
  World (<[n := nd]> (w_nodes w)) rows (w_now w).

Inductive lstep (w : world) : world -> Prop :=
| ls_delay t :
    w_now w <= t -> (forall n nd, w_nodes w !! n = Some nd -> timely t nd) ->
    lstep w (World (w_nodes w) (w_rows w) t)
| ls_ensure : lstep w (World (w_nodes w) (EnsureRow name (w_now w) (w_rows w)) (w_now w))
| ls_deadline n m s tick tick' :
    w_nodes w !! n = Some (Node m (Idle s) tick) -> tick <= w_now w -> tick' <= w_now w + check_every ->
    lstep w (put w n (Node (checkDemoteDeadline demoteDeadline (w_now w) m).1 (Idle (w_now w)) tick') (w_rows w))
| ls_tick n m s tick fenced :
    w_nodes w !! n = Some (Node m (Idle s) tick) ->
    lstep w (let '(m', c) := tick_begin fenced demoteDeadline (w_now w) m in
             put w n (Node m' (match c with
                               | CRenew term => Renewing term (w_now w) None
                               | CAcquire => Acquiring (w_now w) None
                               | CNone => Idle (w_now w)
                               end) tick) (w_rows w))
| ls_exec_renew n m term issued tick :
    w_nodes w !! n = Some (Node m (Renewing term issued None) tick) ->
    lstep w (let '(rows, ok) := Renew name n term (w_now w) (w_rows w) in
             put w n (Node m (Renewing term issued (Some ok)) tick) rows)
| ls_return_renew n m term issued got tick r :
    w_nodes w !! n = Some (Node m (Renewing term issued got) tick) -> r = got \/ r = None ->
    lstep w (put w n (Node (tick_renewed demoteDeadline issued (w_now w) r m) (Idle (w_now w)) tick) (w_rows w))
| ls_exec_acquire n m issued tick :
    w_nodes w !! n = Some (Node m (Acquiring issued None) tick) ->
    lstep w (let '(rows, res) := TryAcquire name n ttl (w_now w) (w_rows w) in
             put w n (Node m (Acquiring issued (Some res)) tick) rows)
| ls_return_acquire n m issued got tick r seen :
    w_nodes w !! n = Some (Node m (Acquiring issued got) tick) -> r = got \/ r = None ->
    lstep w (put w n (Node (tick_acquired n issued r seen m) (Idle (w_now w)) tick) (w_rows w))
| ls_stray_renew n term :
    (* a renewal whose caller gave up executes late *)
    lstep w (World (w_nodes w) (Renew name n term (w_now w) (w_rows w)).1 (w_now w))
| ls_stray_acquire n :
    lstep w (World (w_nodes w) (TryAcquire name n ttl (w_now w) (w_rows w)).1 (w_now w))
| ls_stop n m s tick :
    w_nodes w !! n = Some (Node m (Idle s) tick) ->
    lstep w (put w n (Node (demoteIfHolder m) (Idle (w_now w)) tick) (w_rows w))
| ls_restart n tick' :
    (* a process starts, or dies and starts again *)
    tick' <= w_now w + check_every ->
    lstep w (put w n (Node new_manager (Idle (w_now w)) tick') (w_rows w)).

Definition lreachable (w : world) : Prop := exists now rows, rtc lstep (World ∅ rows now) w.

(** ** The invariant *)

(** The longest a holder goes without a confirmed renewal. *)
Definition horizon : Z := demoteDeadline + detection_gap ttl demoteDeadline.

Context (Hdemote : 0 < demoteDeadline) (Hmargin : horizon < ttl).

Lemma gap_bounds :
  check_every <= detection_gap ttl demoteDeadline /\ call_bound <= detection_gap ttl demoteDeadline /\
  0 < check_every /\ 0 < call_bound.
Proof.
  unfold check_every, call_bound, detection_gap.
  pose proof (check_positive demoteDeadline). pose proof (call_positive ttl demoteDeadline).
  destruct (Z.ltb_spec (deadlineCheckInterval demoteDeadline) (storeCallTimeout ttl demoteDeadline)); lia.
Qed.

(** The row a node believes it owns, and since when: as a holder, or as an
    acquisition that executed and has not returned. *)
Definition claim (nd : node) : option (Z * Z) :=
  if IsHolder (n_mgr nd) then Some (currentTerm (n_mgr nd), m_last (n_mgr nd))
  else match n_phase nd with
       | Acquiring issued (Some (Some term)) => Some (term, issued)
       | _ => None
       end.

Definition backed (rows : gmap string lease_row) (n : string) (term since : Z) : Prop :=
  exists r, rows !! name = Some r /\ lr_holder r = n /\ lr_term r = term /\ since <= lr_renewed r.

(** What a node's clock readings satisfy at [now]. *)
Definition node_ok (now : Z) (nd : node) : Prop :=
  let m := n_mgr nd in
  n_tick nd <= now + check_every /\
  (IsHolder m = true -> m_last m <= now /\ n_tick nd < m_last m + horizon) /\
  match n_phase nd with
  | Idle since => IsHolder m = true -> since < m_last m + horizon /\ now <= Z.max since (n_tick nd)
  | Renewing term issued _ =>
      IsHolder m = true /\ term = currentTerm m /\ issued <= now <= issued + call_bound /\
      m_last m <= issued < m_last m + demoteDeadline
  | Acquiring issued _ =>
      IsHolder m = false /\ issued <= now <= issued + call_bound /\ n_tick nd <= issued + check_every
  end.

Record linv (w : world) : Prop := {
  li_nodes : forall n nd, w_nodes w !! n = Some nd -> node_ok (w_now w) nd;
  li_claims : forall n nd term since, w_nodes w !! n = Some nd -> claim nd = Some (term, since) ->
                backed (w_rows w) n term since;
  li_renewed : forall n m term issued tick, w_nodes w !! n = Some (Node m (Renewing term issued (Some true)) tick) ->
                exists r, w_rows w !! name = Some r /\ issued <= lr_renewed r }.

(** A claim is young: its owner stops before anyone else may acquire. *)
Lemma claim_young now nd term since :
  node_ok now nd -> claim nd = Some (term, since) -> since <= now < since + ttl.
Proof.
  pose proof gap_bounds as (? & ? & ? & ?). unfold horizon in *.
  destruct nd as [m ph tick]. unfold claim, node_ok. cbn [n_mgr n_phase n_tick].
  intros (Ht & Hh & Hp). destruct (IsHolder m).
  - intros [= <- <-]. destruct (Hh eq_refl) as [? ?]. unfold horizon in *.
    destruct ph as [s|t i g|i g]; [destruct (Hp eq_refl); lia|lia|by destruct Hp].
  - destruct ph as [s|t i g|i [[t|]|]]; try done. intros [= <- <-]. lia.
Qed.

(** A holder's last confirmed renewal is inside the horizon. *)
Lemma holder_in_horizon now nd :
  node_ok now nd -> IsHolder (n_mgr nd) = true -> m_last (n_mgr nd) <= now < m_last (n_mgr nd) + horizon.
Proof.
  pose proof gap_bounds as (? & ? & ? & ?). destruct nd as [m ph tick]. unfold node_ok. cbn [n_mgr n_phase n_tick].
  intros (Ht & Hh & Hp) Hm. destruct (Hh Hm) as [? ?]. unfold horizon in *.
  destruct ph as [s|t i g|i g]; [destruct (Hp Hm); lia|lia|destruct Hp; congruence].
Qed.

(** While someone has a claim, nobody acquires. *)
Lemma TryAcquire_blocked w n nd term since n' :
  linv w -> w_nodes w !! n = Some nd -> claim nd = Some (term, since) ->
  TryAcquire name n' ttl (w_now w) (w_rows w) = (w_rows w, None).
Proof.
  intros I Hn Hc. destruct (li_claims _ I n nd term since Hn Hc) as (r & Hr & _ & _ & Hs).
  destruct (claim_young _ _ _ _ (li_nodes _ I n nd Hn) Hc) as [_ Hy].
  unfold TryAcquire. rewrite Hr. by rewrite (proj2 (Z.ltb_ge _ _)) by lia.
Qed.

(** ** Preservation *)

(** The row changed at most in its renewal time, forward or to now. *)
Definition ext (now : Z) (rows rows' : gmap string lease_row) : Prop :=
  forall r, rows !! name = Some r -> exists r', rows' !! name = Some r' /\ lr_holder r' = lr_holder r /\
    lr_term r' = lr_term r /\ (lr_renewed r' = lr_renewed r \/ lr_renewed r' = now).

Lemma ext_refl now rows : ext now rows rows.
Proof. intros r Hr. exists r. auto. Qed.

Lemma ext_ensure now rows : ext now rows (EnsureRow name now rows).
Proof. intros r Hr. unfold EnsureRow. rewrite Hr. exists r. auto. Qed.

Lemma ext_renew now n term rows : ext now rows (Renew name n term now rows).1.
Proof.
  intros r Hr. unfold Renew. rewrite Hr. destruct (_ && _); simpl; [|exists r; auto].
  rewrite lookup_insert_eq. eexists. split; [done|]. auto.
Qed.

Lemma backed_ext now rows rows' n term since :
  ext now rows rows' -> since <= now -> backed rows n term since -> backed rows' n term since.
Proof.
  intros E Hs (r & Hr & Hh & Ht & Hn). destruct (E r Hr) as (r' & Hr' & Hh' & Ht' & Hre).
  exists r'. split_and!; [done|congruence|congruence|]. destruct Hre as [->| ->]; lia.
Qed.

Lemma linv_rows w rows' :
  linv w -> ext (w_now w) (w_rows w) rows' -> linv (World (w_nodes w) rows' (w_now w)).
Proof.
  intros I E. split; cbn.
  - apply I.
  - intros n nd term since Hn Hc. eapply backed_ext; [done| |by eapply I].
    by apply (claim_young _ _ _ _ (li_nodes _ I n nd Hn) Hc).
  - intros n m term issued tick Hn. destruct (li_renewed _ I _ _ _ _ _ Hn) as (r & Hr & Hi).
    pose proof (li_nodes _ I n _ Hn) as (_ & _ & Hp). cbn in Hp.
    destruct (E r Hr) as (r' & Hr' & _ & _ & Hre). exists r'. split; [done|]. destruct Hre as [->| ->]; lia.
Qed.

Lemma linv_put w n nd rows' :
  linv w -> ext (w_now w) (w_rows w) rows' -> node_ok (w_now w) nd ->
  (forall term since, claim nd = Some (term, since) -> backed rows' n term since) ->
  (forall m term issued tick, nd = Node m (Renewing term issued (Some true)) tick ->
     exists r, rows' !! name = Some r /\ issued <= lr_renewed r) ->
  linv (put w n nd rows').
Proof.
  intros I E Hok Hcl Hre. pose proof (linv_rows w rows' I E) as I'.
  split; unfold put; cbn [w_nodes w_rows w_now].
  - intros x y [[<- <-]|[_ Hx]]%lookup_insert_Some; [done|by eapply (li_nodes _ I')].
  - intros x y term since [[<- <-]|[_ Hx]]%lookup_insert_Some; [by apply Hcl|by eapply (li_claims _ I')].
  - intros x m term issued tick [[<- ->]|[_ Hx]]%lookup_insert_Some; [by eapply Hre|by eapply (li_renewed _ I')].
Qed.

(** A node that is no holder and has nothing in flight. *)
Lemma node_ok_idle now m tick :
  IsHolder m = false -> tick <= now + check_every -> node_ok now (Node m (Idle now) tick).
Proof. intros Hm Ht. unfold node_ok. cbn. rewrite Hm. done. Qed.

Lemma claim_idle m s tick : IsHolder m = false -> claim (Node m (Idle s) tick) = None.
Proof. intros Hm. unfold claim. cbn. by rewrite Hm. Qed.

Lemma linv_idle w n m tick :
  linv w -> IsHolder m = false -> tick <= w_now w + check_every ->
  linv (put w n (Node m (Idle (w_now w)) tick) (w_rows w)).
Proof.
  intros I Hm Ht. apply linv_put; [done|apply ext_refl|by apply node_ok_idle| |done].
  intros term since. by rewrite claim_idle.
Qed.

Lemma demote_not_holder m : IsHolder (demote m) = false.
Proof. unfold demote. by destruct (st_IsHolder _). Qed.

Lemma demoteIfHolder_not_holder m : IsHolder (demoteIfHolder m) = false.
Proof. unfold demoteIfHolder. destruct (IsHolder m) eqn:E; [apply demote_not_holder|done]. Qed.

(** The deadline check: a holder that stays one is within its deadline. *)
Lemma check_cases d now m m' b :
  checkDemoteDeadline d now m = (m', b) ->
  (IsHolder m' = false /\ (b = false -> m' = m)) \/ (m' = m /\ b = false /\ IsHolder m = true /\ now < m_last m + d).
Proof.
  unfold checkDemoteDeadline. destruct (IsHolder m) eqn:Em; simpl.
  - destruct (Z.ltb_spec (now - m_last m) d); intros [= <- <-]; [right|left].
    + split_and!; try done. lia.
    + split; [apply demote_not_holder|done].
  - intros [= <- <-]. left. done.
Qed.

(** A holder that passes its check at [now] may idle from there. *)
Lemma linv_checked w n m nd tick m' b :
  linv w -> w_nodes w !! n = Some nd -> n_mgr nd = m ->
  checkDemoteDeadline demoteDeadline (w_now w) m = (m', b) ->
  tick <= w_now w + check_every -> linv (put w n (Node m' (Idle (w_now w)) tick) (w_rows w)).
Proof.
  intros I Hn Hm Hc Ht. pose proof gap_bounds as (? & ? & ? & ?).
  destruct (check_cases _ _ _ _ _ Hc) as [[Hf _]|(-> & -> & Hh & Hlt)]; [by apply linv_idle|].
  pose proof (li_nodes _ I n nd Hn) as (_ & Hl & _). rewrite Hm in Hl. destruct (Hl Hh) as [Hle _].
  apply linv_put; [done|apply ext_refl| | |done].
  - unfold node_ok. cbn [n_mgr n_phase n_tick]. unfold horizon in *. split; [done|].
    split; intros _; [split; [lia|]|split; lia]. lia.
  - unfold claim. cbn [n_mgr]. rewrite Hh. intros term since [= <- <-].
    eapply (li_claims _ I); [exact Hn|]. unfold claim. by rewrite Hm, Hh.
Qed.

Lemma linv_tick w n m s tick fenced :
  linv w -> w_nodes w !! n = Some (Node m (Idle s) tick) ->
  linv (let '(m', c) := tick_begin fenced demoteDeadline (w_now w) m in
        put w n (Node m' (match c with
                          | CRenew term => Renewing term (w_now w) None
                          | CAcquire => Acquiring (w_now w) None
                          | CNone => Idle (w_now w)
                          end) tick) (w_rows w)).
Proof.
  intros I Hn. pose proof gap_bounds as (? & ? & ? & ?).
  pose proof (li_nodes _ I n _ Hn) as (Ht & Hl & Hp). cbn in Ht, Hl, Hp.
  unfold tick_begin. destruct fenced; [by apply linv_idle; [|apply demoteIfHolder_not_holder|]|].
  destruct (IsHolder m) eqn:Hh.
  - destruct (checkDemoteDeadline _ _ m) as [m' b] eqn:Hc.
    destruct (check_cases _ _ _ _ _ Hc) as [[Hf Hb]|(-> & -> & _ & Hlt)].
    + destruct b; [by apply linv_idle|]. rewrite (Hb eq_refl) in Hf. congruence.
    + destruct (Hl eq_refl) as [Hle Htk]. apply linv_put; [done|apply ext_refl| | |done].
      * unfold node_ok. cbn [n_mgr n_phase n_tick]. rewrite Hh. split_and!; try done; lia.
      * unfold claim. cbn [n_mgr]. rewrite Hh. intros term since [= <- <-].
        eapply (li_claims _ I); [exact Hn|]. unfold claim. cbn. by rewrite Hh.
  - apply linv_put; [done|apply ext_refl| | |done].
    + unfold node_ok. cbn [n_mgr n_phase n_tick]. rewrite Hh. split_and!; try done; lia.
    + unfold claim. cbn. by rewrite Hh.
Qed.

Lemma linv_exec_renew w n m term issued tick :
  linv w -> w_nodes w !! n = Some (Node m (Renewing term issued None) tick) ->
  linv (let '(rows, ok) := Renew name n term (w_now w) (w_rows w) in
        put w n (Node m (Renewing term issued (Some ok)) tick) rows).
Proof.
  intros I Hn. pose proof (li_nodes _ I n _ Hn) as Hok.
  pose proof (ext_renew (w_now w) n term (w_rows w)) as E. destruct (Renew _ _ _ _ _) as [rows ok] eqn:HR. cbn in E.
  apply linv_put; [done|done|done| |].
  - intros t0 since Hc. eapply backed_ext; [done| |eapply (li_claims _ I); [exact Hn|exact Hc]].
    by apply (claim_young _ _ _ _ Hok Hc).
  - intros m0 t0 i0 k0 [= <- <- <- -> <-]. unfold Renew in HR.
    destruct (w_rows w !! name) as [r|] eqn:Hr; [|done]. destruct (_ && _); [|done]. injection HR as <-.
    rewrite lookup_insert_eq. eexists. split; [done|]. cbn. destruct Hok as (_ & _ & Hp). cbn in Hp. lia.
Qed.

Lemma linv_return_renew w n m term issued got tick r :
  linv w -> w_nodes w !! n = Some (Node m (Renewing term issued got) tick) -> r = got \/ r = None ->
  linv (put w n (Node (tick_renewed demoteDeadline issued (w_now w) r m) (Idle (w_now w)) tick) (w_rows w)).
Proof.
  intros I Hn Hr. pose proof gap_bounds as (? & ? & ? & ?).
  pose proof (li_nodes _ I n _ Hn) as (Ht & Hl & Hh & Hterm & Hi & Hd). cbn in Ht, Hl, Hh, Hterm, Hi, Hd.
  destruct (Hl Hh) as [Hle Htk]. destruct r as [[]|]; cbn [tick_renewed].
  - destruct Hr as [<-|]; [|done]. destruct (li_renewed _ I _ _ _ _ _ Hn) as (r & Hr & Hri).
    apply linv_put; [done|apply ext_refl| | |done].
    + unfold node_ok. cbn [n_mgr n_phase n_tick]. unfold horizon, IsHolder in *. cbn.
      split; [done|]. split; intros _; split; lia.
    + unfold claim, IsHolder, currentTerm in *. cbn. rewrite Hh. intros t0 since [= <- <-].
      destruct (li_claims _ I n _ (st_Term (m_status m)) (m_last m) Hn) as (r' & Hr' & Hho & Htm & _).
      { unfold claim, IsHolder, currentTerm. cbn. by rewrite Hh. }
      exists r'. split_and!; try done. congruence.
  - apply linv_idle; [done|apply demote_not_holder|done].
  - destruct (checkDemoteDeadline _ _ m) as [m' b] eqn:Hc. cbn. by eapply linv_checked.
Qed.

(** An acquisition that executes is the only claim there is. *)
Lemma acquire_alone w n' rows term :
  linv w -> TryAcquire name n' ttl (w_now w) (w_rows w) = (rows, Some term) ->
  (forall n nd, w_nodes w !! n = Some nd -> claim nd = None) /\ backed rows n' term (w_now w).
Proof.
  intros I HT. split.
  - intros n nd Hn. destruct (claim nd) as [[t s]|] eqn:Hc; [|done].
    by rewrite (TryAcquire_blocked w n nd t s n' I Hn Hc) in HT.
  - unfold TryAcquire in HT. destruct (w_rows w !! name) as [r|]; [|done].
    destruct (_ <? _); [|done]. injection HT as <- <-. eexists. rewrite lookup_insert_eq. split; [done|].
    cbn. split_and!; done || lia.
Qed.

Lemma linv_no_claims w rows :
  linv w -> (forall n nd, w_nodes w !! n = Some nd -> claim nd = None) ->
  linv (World (w_nodes w) rows (w_now w)).
Proof.
  intros I Hno. split; cbn; [apply I| |].
  - intros n nd term since Hn Hc. by rewrite (Hno n nd Hn) in Hc.
  - intros n m term issued tick Hn. pose proof (li_nodes _ I n _ Hn) as (_ & _ & Hh & _). cbn in Hh.
    specialize (Hno n _ Hn). unfold claim in Hno. cbn in Hno. by rewrite Hh in Hno.
Qed.

Lemma linv_stray_acquire w n :
  linv w -> linv (World (w_nodes w) (TryAcquire name n ttl (w_now w) (w_rows w)).1 (w_now w)).
Proof.
  intros I. destruct (TryAcquire _ _ _ _ _) as [rows [term|]] eqn:HT; cbn.
  - apply linv_no_claims; [done|]. by destruct (acquire_alone w n rows term I HT).
  - apply linv_rows; [done|]. unfold TryAcquire in HT. repeat case_match; simplify_eq; apply ext_refl.
Qed.

Lemma linv_exec_acquire w n m issued tick :
  linv w -> w_nodes w !! n = Some (Node m (Acquiring issued None) tick) ->
  linv (let '(rows, res) := TryAcquire name n ttl (w_now w) (w_rows w) in
        put w n (Node m (Acquiring issued (Some res)) tick) rows).
Proof.
  intros I Hn. pose proof (li_nodes _ I n _ Hn) as Hok. pose proof (linv_stray_acquire w n I) as I'.
  destruct (TryAcquire _ _ _ _ _) as [rows res] eqn:HT. cbn in I'.
  assert (Hh : IsHolder m = false) by apply Hok.
  apply (linv_put (World (w_nodes w) rows (w_now w)) n (Node m (Acquiring issued (Some res)) tick) rows); cbn [w_now w_rows];
    [done|apply ext_refl|done| |done].
  intros term since. unfold claim. cbn. rewrite Hh. destruct res as [t|]; [|done]. intros [= <- <-].
  destruct (acquire_alone w n rows t I HT) as [_ (r & Hr & ? & ? & ?)]. exists r. split_and!; try done.
  destruct Hok as (_ & _ & _ & ? & _). cbn in *. lia.
Qed.

Lemma linv_return_acquire w n m issued got tick r seen :
  linv w -> w_nodes w !! n = Some (Node m (Acquiring issued got) tick) -> r = got \/ r = None ->
  linv (put w n (Node (tick_acquired n issued r seen m) (Idle (w_now w)) tick) (w_rows w)).
Proof.
  intros I Hn Hr. pose proof gap_bounds as (? & ? & ? & ?).
  pose proof (li_nodes _ I n _ Hn) as (Ht & _ & Hh & Hi & Hk). cbn in Ht, Hh, Hi, Hk.
  destruct r as [[term|]|]; cbn [tick_acquired].
  - destruct Hr as [<-|]; [|done]. apply linv_put; [done|apply ext_refl| | |done].
    + unfold node_ok. cbn. unfold horizon. split; [done|]. split; intros _; split; lia.
    + unfold claim. cbn. intros t0 since [= <- <-].
      eapply (li_claims _ I); [exact Hn|]. unfold claim. cbn. by rewrite Hh.
  - apply linv_idle; [done| |done]. unfold refreshObservedStatus. destruct seen as [[]|]; [|done]. by rewrite Hh.
  - by apply linv_idle.
Qed.

Lemma linv_delay w t :
  linv w -> w_now w <= t -> (forall n nd, w_nodes w !! n = Some nd -> timely t nd) ->
  linv (World (w_nodes w) (w_rows w) t).
Proof.
  intros I Ht Hall. split; cbn; [|apply I..]. intros n nd Hn.
  pose proof (li_nodes _ I n nd Hn) as (H1 & H2 & H3). specialize (Hall n nd Hn). unfold timely in Hall.
  split; [lia|]. split; [intros Hh; destruct (H2 Hh); lia|].
  destruct (n_phase nd).
  - intros Hh. destruct (H3 Hh). specialize (Hall Hh). lia.
  - destruct H3 as (? & ? & ? & ?). split_and!; try done; lia.
  - destruct H3 as (? & ? & ?). split_and!; try done; lia.
Qed.

Lemma linv_step w w' : lstep w w' -> linv w -> linv w'.
Proof.
  intros H I. destruct H.
  - by apply linv_delay.
  - apply linv_rows; [done|apply ext_ensure].
  - destruct (checkDemoteDeadline _ _ m) as [m' b] eqn:Hc. cbn. by eapply linv_checked.
  - by eapply linv_tick.
  - by apply linv_exec_renew.
  - by eapply linv_return_renew.
  - by apply linv_exec_acquire.
  - by eapply linv_return_acquire.
  - apply linv_rows; [done|apply ext_renew].
  - by apply linv_stray_acquire.
  - apply linv_idle; [done|apply demoteIfHolder_not_holder|]. by apply (li_nodes _ I n _ H).
  - by apply linv_idle.
Qed.

Lemma lreachable_inv w : lreachable w -> linv w.
Proof.
  intros (now & rows & H). assert (I : linv (World ∅ rows now)) by (split; cbn; intros *; by rewrite lookup_empty).
  revert I. induction H as [|w1 w2 w3 H _ IH]; [done|]. intros I. apply IH. by eapply linv_step.
Qed.
End System.

(** ** From the accepted knobs to the margin *)

Lemma gap_small ttl d : 0 < d -> detection_gap ttl d <= Z.max d second.
Proof.
  intros Hd. unfold detection_gap, deadlineCheckInterval, storeCallTimeout.
  assert (H5 : Z.quot d 5 <= d) by (apply Z.quot_le_upper_bound; lia).
  assert (H3 : Z.quot d 3 <= d) by (apply Z.quot_le_upper_bound; lia).
  revert H3 H5. generalize (Z.quot d 3), (Z.quot d 5), (Z.quot (wrap64 (ttl - d)) 2). intros b a q Hb Ha.
  repeat match goal with |- context [?x <? ?y] => destruct (Z.ltb_spec x y) end; lia.
Qed.

(** The check accepts exactly the horizons under the TTL, short of a deadline
    of seventy years. *)
Lemma accepted_margin d ttl :
  0 < d <= 2 ^ 61 -> (demoteMarginError d ttl = false <-> horizon ttl d < ttl).
Proof.
  intros [Hd Hmax]. unfold demoteMarginError, horizon. pose proof (gap_small ttl d Hd) as Hg.
  pose proof (gap_bounds ttl d) as (? & ? & ? & ?).
  rewrite wrap64_id by (unfold in_int64, second, int64_min, int64_max in *; lia). apply Z.leb_gt.
Qed.

Lemma KnobsFromEnv_ok env r ttl d :
  KnobsFromEnv env = Ok (r, ttl, d) -> demoteMarginError d ttl = false.
Proof.
  unfold KnobsFromEnv, res_bind. destruct (ParseRenewInterval _); [|done]. destruct (ParseTTL _); [|done].
  destruct (ParseDemoteDeadline _); [|done]. destruct (demoteMarginError _ _) eqn:E; [done|]. by intros [= <- <- <-].
Qed.

(** ** Runs of the store *)

(** The row only moves forward: its term grows, and a term has one holder. *)
Definition forward (name : string) (rows rows' : gmap string lease_row) : Prop :=
  forall r, rows !! name = Some r -> exists r', rows' !! name = Some r' /\ lr_term r <= lr_term r' /\
    (lr_term r' = lr_term r -> lr_holder r' = lr_holder r).

#[global] Instance forward_preorder name : PreOrder (forward name).
Proof.
  split.
  - intros rows r Hr. exists r. split_and!; done || lia.
  - intros a b c Hab Hbc r Hr. destruct (Hab r Hr) as (r' & Hr' & Ht & Hh). destruct (Hbc r' Hr') as (r'' & Hr'' & Ht' & Hh').
    exists r''. split_and!; [done|lia|]. intros E. rewrite Hh', Hh by lia. done.
Qed.

Lemma ext_forward name now rows rows' : ext name now rows rows' -> forward name rows rows'.
Proof. intros E r Hr. destruct (E r Hr) as (r' & ? & ? & ? & _). exists r'. split_and!; [done|lia|done]. Qed.

Lemma TryAcquire_forward name n ttl now rows : forward name rows (TryAcquire name n ttl now rows).1.
Proof.
  intros r Hr. unfold TryAcquire. rewrite Hr. destruct (_ <? _); simpl.
  - rewrite lookup_insert_eq. eexists. split; [done|]. simpl. split; lia.
  - exists r. split_and!; done || lia.
Qed.

Lemma lstep_forward name ttl d w w' : lstep name ttl d w w' -> forward name (w_rows w) (w_rows w').
Proof.
  intros H. destruct H; cbn; try reflexivity.
  - apply (ext_forward _ (w_now w)), ext_ensure.
  - by destruct (tick_begin _ _ _ _).
  - pose proof (ext_renew name (w_now w) n term (w_rows w)) as E. destruct (Renew _ _ _ _ _).
    by apply (ext_forward _ (w_now w)).
  - pose proof (TryAcquire_forward name n ttl (w_now w) (w_rows w)) as E. by destruct (TryAcquire _ _ _ _ _).
  - apply (ext_forward _ (w_now w)), ext_renew.
  - apply TryAcquire_forward.
Qed.

Lemma lrun_forward name ttl d w w' : rtc (lstep name ttl d) w w' -> forward name (w_rows w) (w_rows w').
Proof. induction 1 as [|w1 w2 w3 H _ IH]; [reflexivity|]. by etrans; [eapply lstep_forward|]. Qed.

(** ** The properties *)

(** The horizon is the deadline and the longer of the two detection delays. *)
Lemma horizon_max ttl d : horizon ttl d = d + Z.max (deadlineCheckInterval d) (storeCallTimeout ttl d).
Proof. unfold horizon, detection_gap. destruct (Z.ltb_spec (deadlineCheckInterval d) (storeCallTimeout ttl d)); lia. Qed.

Lemma holder_claim m ph tick :
  IsHolder m = true -> claim (Node m ph tick) = Some (currentTerm m, m_last m).
Proof. intros H. unfold claim. cbn. by rewrite H. Qed.

(** C29: Under knobs the environment loader accepts, with a positive demote
    deadline of at most 2^61 nanoseconds (about 73 years; beyond it the
    loader's own sum wraps, [margin_check_overflows]), in every state the
    managers and the store can reach, an instance that reports itself holder
    is inside its horizon: its last confirmed renewal is less than the demote
    deadline plus the longer of the two detection delays ago, and that is
    shorter than the takeover TTL. The row names the instance at the
    instance's own term, and an acquisition by anyone at that instant changes
    nothing: a partitioned holder has stopped before its successor can start. *)
Theorem holder_stops_before_takeover name env renew ttl d w n nd :
  KnobsFromEnv env = Ok (renew, ttl, d) -> 0 < d <= 2 ^ 61 ->
  lreachable name ttl d w -> w_nodes w !! n = Some nd -> IsHolder (n_mgr nd) = true ->
  let within := d + Z.max (deadlineCheckInterval d) (storeCallTimeout ttl d) in
  m_last (n_mgr nd) <= w_now w < m_last (n_mgr nd) + within /\ within < ttl /\
  backed name (w_rows w) n (currentTerm (n_mgr nd)) (m_last (n_mgr nd)) /\
  (forall n', TryAcquire name n' ttl (w_now w) (w_rows w) = (w_rows w, None)).
Proof.
  intros Hk Hd Hr Hn Hh within. apply KnobsFromEnv_ok, accepted_margin in Hk as Hm; [|done].
  unfold within. rewrite <- horizon_max.
  pose proof (lreachable_inv name ttl d ltac:(lia) Hm w Hr) as I. destruct nd as [m ph tick]. cbn in *.
  pose proof (holder_claim m ph tick Hh) as Hc. split; [|split_and!].
  - exact (holder_in_horizon ttl d _ _ (li_nodes _ _ _ _ I n _ Hn) Hh).
  - done.
  - by eapply (li_claims _ _ _ _ I).
  - intros n'. eapply (TryAcquire_blocked name ttl d); try done; lia.
Qed.

(** C5: Under knobs the environment loader accepts, with a positive demote
    deadline of at most 2^61 nanoseconds (about 73 years; a longer one wraps
    the loader's margin check, [margin_check_overflows]), in every reachable
    state, two instances that both report themselves holder are the same
    instance: there is never a double brain, whatever the store's latency,
    hung calls, restarts or late statements. *)
Theorem at_most_one_brain name env renew ttl d w n n' nd nd' :
  KnobsFromEnv env = Ok (renew, ttl, d) -> 0 < d <= 2 ^ 61 ->
  lreachable name ttl d w -> w_nodes w !! n = Some nd -> w_nodes w !! n' = Some nd' ->
  IsHolder (n_mgr nd) = true -> IsHolder (n_mgr nd') = true -> n = n'.
Proof.
  intros Hk Hd Hr Hn Hn' Hh Hh'. apply KnobsFromEnv_ok, accepted_margin in Hk as Hm; [|done].
  pose proof (lreachable_inv name ttl d ltac:(lia) Hm w Hr) as I. destruct nd as [m ph tick], nd' as [m' ph' tick'].
  destruct (li_claims _ _ _ _ I n _ _ _ Hn (holder_claim m ph tick Hh)) as (r & Hro & Hho & _).
  destruct (li_claims _ _ _ _ I n' _ _ _ Hn' (holder_claim m' ph' tick' Hh')) as (r' & Hro' & Hho' & _).
  congruence.
Qed.

(** The term is a fencing token.  Over any run, whatever the knobs, the
    row's term never decreases and one term never has two holders; every
    acquisition hands out a term above every earlier one; and once the term
    has moved on, a renewal under an old term is refused and writes nothing. *)
Theorem terms_fence name ttl d w w' r :
  rtc (lstep name ttl d) w w' -> w_rows w !! name = Some r ->
  exists r', w_rows w' !! name = Some r' /\ lr_term r <= lr_term r' /\
    (lr_term r' = lr_term r -> lr_holder r' = lr_holder r) /\
    (forall n now rows term, TryAcquire name n ttl now (w_rows w') = (rows, Some term) -> lr_term r < term) /\
    (forall n now, lr_term r < lr_term r' -> Renew name n (lr_term r) now (w_rows w') = (w_rows w', false)).
Proof.
  intros Hrun Hr. destruct (lrun_forward _ _ _ _ _ Hrun r Hr) as (r' & Hr' & Ht & Hh).
  exists r'. split_and!; [done..| |].
  - intros n now rows term. unfold TryAcquire. rewrite Hr'. destruct (_ <? _); [|done]. intros [= _ <-]. lia.
  - intros n now Hlt. unfold Renew. rewrite Hr'. by rewrite (proj2 (Z.eqb_neq (lr_term r') _)), andb_false_r by lia.
Qed.

(** An overflowing deadline slips through: the sum of the margin check wraps,
    so a demote deadline of nine billion seconds passes under a TTL of twenty. *)
Definition overflow_env (k : string) : bytes :=
  if String.eqb k "TF_LEASE_DEMOTE_SEC" then bs "9000000000" else [].

Example margin_check_overflows :
  exists r ttl d, KnobsFromEnv overflow_env = Ok (r, ttl, d) /\ ttl < d.
Proof. eexists _, _, _. split; [vm_compute; reflexivity|vm_compute; reflexivity]. Qed.

(** ** Witnesses: one instance boots, acquires and renews *)

Definition unset_env (k : string) : bytes := [].

Lemma unset_env_ok : KnobsFromEnv unset_env = Ok (DefaultRenewInterval, DefaultTTL, DefaultDemoteDeadline).
Proof. vm_compute. reflexivity. Defined.

Definition boot_rows : gmap string lease_row := {["brain" := LR "" 0 0 0]}%string.
Definition acquired_node : node := Node (promote "a" 1 (100 * second) new_manager) (Idle (100 * second)) (103 * second).
Definition acquired_world : world :=
  World {["a" := acquired_node]}%string {["brain" := LR "a" 1 (100 * second) (100 * second)]}%string (100 * second).

Lemma acquired_run :
  rtc (lstep "brain" DefaultTTL DefaultDemoteDeadline) (World ∅ boot_rows (100 * second)) acquired_world.
Proof.
  eapply rtc_l; [apply (ls_restart _ _ _ _ "a" (103 * second)); vm_compute; congruence|].
  eapply rtc_l; [eapply (ls_tick _ _ _ _ "a" _ _ _ false); vm_compute; reflexivity|].
  eapply rtc_l; [eapply (ls_exec_acquire _ _ _ _ "a"); vm_compute; reflexivity|].
  eapply rtc_l; [eapply (ls_return_acquire _ _ _ _ "a" _ _ _ _ (Some (Some 1)) None); [vm_compute; reflexivity|left; reflexivity]|].
  match goal with |- rtc _ ?x ?y => replace x with y by (vm_compute; reflexivity) end. apply rtc_refl.
Defined.

Lemma acquired_reachable : lreachable "brain" DefaultTTL DefaultDemoteDeadline acquired_world.
Proof. exists (100 * second), boot_rows. exact acquired_run. Defined.

Lemma default_deadline_small : 0 < DefaultDemoteDeadline <= 2 ^ 61.
Proof. split; vm_compute; congruence. Defined.

Lemma holder_stops_before_takeover_witness :
  TryAcquire "brain" "b" DefaultTTL (w_now acquired_world) (w_rows acquired_world) = (w_rows acquired_world, None).
Proof.
  refine (proj2 (proj2 (proj2 (holder_stops_before_takeover "brain" unset_env _ _ _ acquired_world "a" acquired_node
    unset_env_ok default_deadline_small acquired_reachable _ _))) "b"%string); vm_compute; reflexivity.
Defined.

Lemma at_most_one_brain_witness : IsHolder (n_mgr acquired_node) = true /\ "a"%string = "a"%string.
Proof.
  split; [reflexivity|]. apply (at_most_one_brain "brain" unset_env _ _ _ acquired_world "a" "a" acquired_node acquired_node
    unset_env_ok default_deadline_small acquired_reachable); vm_compute; reflexivity.
Defined.

Lemma terms_fence_witness :
  exists r', w_rows acquired_world !! "brain"%string = Some r' /\ 0 <= lr_term r'.
Proof.
  destruct (terms_fence "brain" DefaultTTL DefaultDemoteDeadline _ acquired_world (LR "" 0 0 0) acquired_run eq_refl)
    as (r' & Hr & Ht & _). exists r'. split; [exact Hr|exact Ht].
Defined.
