(* ===== verification/EgressNet.v ===== *)
(** * Egress proxy: addresses, hosts and the vetted dial

    Models internal/proxy/egressproxy's denylist.go, allowlist.go and
    vetteddial.go, with what they use of net/netip and net.  The resolver and
    the dialer are the two seams the source names: they are parameters here.
    Host names are ASCII text; [url.Parse] is a parameter of the upstream-host
    derivation. *)

From S2P Require Import Prelude GoBytes.

(** ** net/netip *)

(** [netip.Addr]: an IPv4 address of 32 bits, an IPv6 address of 128 bits with
    its zone, or the zero value. *)
Inductive Addr := V4 (n : Z) | V6 (n : Z) (zone : bytes) | ZeroAddr.

Inductive Prefix := P4 (n bits : Z) | P6 (n bits : Z).

(** [Addr.Is4In6], [Addr.Unmap]: the mapped form ::ffff:a.b.c.d becomes its
    IPv4 address and loses its zone. *)
Definition Is4In6 (a : Addr) : bool :=
  match a with V6 n _ => Z.shiftr n 32 =? 0xffff | _ => false end.
Definition Unmap (a : Addr) : Addr :=
  match a with V6 n _ => if Is4In6 a then V4 (Z.land n 0xffffffff) else a | _ => a end.

(** [Prefix.Contains]: families do not mix, and a zoned address is in none. *)
Definition prefix_contains (p : Prefix) (a : Addr) : bool :=
  match p, a with
  | P4 n bits, V4 m => Z.shiftr (Z.lxor m n) (32 - bits) =? 0
  | P6 n bits, V6 m zone => bool_decide (zone = []) && (Z.shiftr (Z.lxor m n) (128 - bits) =? 0)
  | _, _ => false
  end.

Definition quad (a b c d : Z) : Z := ((a * 256 + b) * 256 + c) * 256 + d.

(** ** denylist.go *)

Definition deniedRanges : list Prefix :=
  [ P4 (quad 127 0 0 0) 8; P6 1 128;
    P4 (quad 10 0 0 0) 8; P4 (quad 172 16 0 0) 12; P4 (quad 192 168 0 0) 16;
    P4 (quad 169 254 0 0) 16; P6 (Z.shiftl 0xfe80 112) 10;
    P4 (quad 100 64 0 0) 10;
    P6 (Z.shiftl 0xfc00 112) 7;
    P4 (quad 0 0 0 0) 8; P6 0 128;
    P4 (quad 224 0 0 0) 4; P6 (Z.shiftl 0xff00 112) 8; P4 (quad 255 255 255 255) 32 ].

(** 64:ff9b::/96. *)
Definition nat64_base : Z := Z.shiftl 0x64 112 + Z.shiftl 0xff9b 96.
Definition nat64Prefix : Prefix := P6 nat64_base 96.

(** The low four bytes of [As16]. *)
Definition embedded_v4 (a : Addr) : Addr :=
  match a with
  | V6 n _ => V4 (quad (Z.land (Z.shiftr n 24) 255) (Z.land (Z.shiftr n 16) 255) (Z.land (Z.shiftr n 8) 255) (Z.land n 255))
  | _ => a
  end.

Definition ipDenied (addr : Addr) : bool :=
  let a := Unmap addr in
  if existsb (fun p => prefix_contains p a) deniedRanges then true
  else if prefix_contains nat64Prefix a then existsb (fun p => prefix_contains p (embedded_v4 a)) deniedRanges
  else false.

(** ** allowlist.go *)

Record Registry := Reg { reg_Host : bytes; reg_ReadPOSTPaths : list bytes }.

Definition DefaultRegistries : list Registry :=
  [ Reg (bs "registry.npmjs.org") [bs "/-/npm/v1/security/advisories/bulk"; bs "/-/npm/v1/security/audits/quick"];
    Reg (bs "pypi.org") []; Reg (bs "files.pythonhosted.org") [];
    Reg (bs "index.crates.io") []; Reg (bs "static.crates.io") [] ].

Definition normalizeHost (host : bytes) : bytes := TrimSuffix (ToLower host) (bs ".").

Definition registryHosts (registries : list Registry) : list bytes :=
  filter (fun n => n <> []) (map (fun r => normalizeHost (reg_Host r)) registries).

Definition registry_set := gmap bytes (gset bytes).

Definition add_registry (set : registry_set) (r : Registry) : registry_set :=
  let h := normalizeHost (reg_Host r) in
  if bool_decide (h = []) then set
  else <[h := default ∅ (set !! h) ∪ list_to_set (reg_ReadPOSTPaths r)]> set.

Definition newRegistrySet (registries : list Registry) : registry_set :=
  fold_left add_registry registries ∅.

Definition newHostSet (hosts : list bytes) : gset bytes :=
  fold_left (fun set h => let n := normalizeHost h in if bool_decide (n = []) then set else {[n]} ∪ set) hosts ∅.

Record GitHubHosts := GH { gh_API : list bytes; gh_Git : list bytes }.

Section Upstreams.
(** [url.Parse] followed by [Hostname]: [None] is a parse error. *)
Context (url_hostname : bytes -> option bytes).

Definition upstreamHostname (upstream : bytes) : bytes :=
  let upstream := TrimSpace upstream in
  if bool_decide (upstream = []) then []
  else match url_hostname upstream with
       | Some ((_ :: _) as h) => normalizeHost h
       | _ => match url_hostname (bs "https://" ++ upstream) with
              | Some ((_ :: _) as h) => normalizeHost h
              | _ => []
              end
       end.

Definition GitHubHostsForUpstreams (apiUpstream gitUpstream : bytes) : GitHubHosts :=
  let apiHost := upstreamHostname apiUpstream in
  let gitHost := upstreamHostname gitUpstream in
  let apiHost :=
    if bool_decide (apiHost = []) then
      if bool_decide (gitHost = []) || bool_decide (gitHost = bs "github.com") then bs "api.github.com"
      else if HasSuffix gitHost (bs ".ghe.com") && negb (HasPrefix gitHost (bs "api.")) then bs "api." ++ gitHost
      else gitHost
    else apiHost in
  let gitHost :=
    if bool_decide (gitHost = []) then
      if bool_decide (apiHost = bs "api.github.com") then bs "github.com"
      else if HasPrefix apiHost (bs "api.") && HasSuffix apiHost (bs ".ghe.com") then TrimPrefix apiHost (bs "api.")
      else apiHost
    else gitHost in
  GH ([apiHost] ++ if bool_decide (apiHost = bs "api.github.com") then [bs "uploads.github.com"] else [])
     ([gitHost] ++ if bool_decide (gitHost = bs "github.com") then [bs "codeload.github.com"] else []).
End Upstreams.

(** The remedy a refusal names. *)
Inductive guidance := GuideBoth | GuideAPI | GuideGit.

Definition deniedHostGuidance (apiHosts gitHosts : gset bytes) (host : bytes) : option guidance :=
  let api := bool_decide (host ∈ apiHosts) in
  let git := bool_decide (host ∈ gitHosts) in
  if api && git then Some GuideBoth else if api then Some GuideAPI else if git then Some GuideGit else None.

(** ** [net.SplitHostPort] *)

Definition LastIndexByte (s : bytes) (c : ascii) : option nat :=
  match IndexByte (reverse s) c with Some i => Some (length s - 1 - i)%nat | None => None end.

Definition COLON : ascii := byte_of 58.
Definition LBRACK : ascii := byte_of 91.
Definition RBRACK : ascii := byte_of 93.

Definition SplitHostPort (s : bytes) : option (bytes * bytes) :=
  match LastIndexByte s COLON with
  | None => None
  | Some i =>
      let finish (host : bytes) (j k : nat) :=
        if bool_decide (LBRACK ∈ drop j s) || bool_decide (RBRACK ∈ drop k s) then None
        else Some (host, drop (S i) s) in
      if bool_decide (head s = Some LBRACK) then
        match IndexByte s RBRACK with
        | None => None
        | Some e => if (S e =? i)%nat then finish (drop 1 (take e s)) 1%nat (S e) else None
        end
      else let host := take i s in if bool_decide (COLON ∈ host) then None else finish host 0%nat 0%nat
  end.

(** ** vetteddial.go *)

Inductive dial_error :=
| ResolveFailed | NoAddresses | OnlyDenied | DialFailed.

(** A policy decision rather than a network fault. *)
Definition is_policyDenial (e : dial_error) : bool :=
  match e with NoAddresses | OnlyDenied => true | _ => false end.

Definition connectPort : bytes := bs "443".

Section Dial.
Context (resolve : bytes -> option (list Addr)) (dial : Addr -> bytes -> bool).

(** Dial in order until one answers: what was dialed, and the connection. *)
Fixpoint dial_loop (port : bytes) (addrs : list Addr) : list Addr * option Addr :=
  match addrs with
  | [] => ([], None)
  | a :: addrs =>
      if dial (Unmap a) port then ([Unmap a], Some (Unmap a))
      else let '(tried, c) := dial_loop port addrs in (Unmap a :: tried, c)
  end.

Definition vettedDial (host port : bytes) : list Addr * res dial_error Addr :=
  match resolve host with
  | None => ([], Err ResolveFailed)
  | Some addrs =>
      if bool_decide (addrs = []) then ([], Err NoAddresses)
      else
        let vetted := filter (fun a => ipDenied a = false) addrs in
        if bool_decide (vetted = []) then ([], Err OnlyDenied)
        else match dial_loop port vetted with
             | (tried, Some a) => (tried, Ok a)
             | (tried, None) => (tried, Err DialFailed)
             end
  end.

(** [VettedDialContext]: [None] is a malformed target. *)
Definition VettedDialContext (addr : bytes) : list Addr * option (res dial_error Addr) :=
  match SplitHostPort addr with
  | None => ([], None)
  | Some (host, port) => let '(tried, r) := vettedDial host port in (tried, Some r)
  end.
End Dial.

(** ** Lemmas *)

Lemma dial_loop_tried dial port l tried c :
  dial_loop dial port l = (tried, c) ->
  exists k, tried = take k (map Unmap l) /\
    match c with
    | Some a => exists failed, tried = failed ++ [a] /\ dial a port = true /\ forall b, b ∈ failed -> dial b port = false
    | None => tried = map Unmap l /\ forall a, a ∈ tried -> dial a port = false
    end.
Proof.
  revert tried c. induction l as [|a l IH]; intros tried c; cbn [dial_loop map].
  { intros [= <- <-]. exists 0%nat. split; [done|]. split; [done|]. by intros a ?%elem_of_nil. }
  destruct (dial (Unmap a) port) eqn:Hd; [intros [= <- <-]; exists 1%nat; split; [done|]; exists []; set_solver|].
  destruct (dial_loop dial port l) as [t c'] eqn:Hl. intros [= <- <-].
  destruct (IH _ _ eq_refl) as (k & Hk & Hc). exists (S k). cbn. rewrite <- Hk. split; [done|].
  destruct c' as [x|].
  - destruct Hc as (failed & -> & Hx & Hf). exists (Unmap a :: failed). split_and!; [done|done|].
    intros b [->|?]%elem_of_cons; auto.
  - destruct Hc as [-> Hall]. split; [done|]. intros b [->|?]%elem_of_cons; [done|auto].
Qed.

Lemma vettedDial_tried resolve dial host port a tried r :
  vettedDial resolve dial host port = (tried, r) -> a ∈ tried ->
  exists x addrs, resolve host = Some addrs /\ x ∈ addrs /\ ipDenied x = false /\ a = Unmap x.
Proof.
  unfold vettedDial. destruct (resolve host) as [addrs|]; [|by intros [= <- <-] ?%elem_of_nil].
  case_bool_decide; [by intros [= <- <-] ?%elem_of_nil|]. case_bool_decide; [by intros [= <- <-] ?%elem_of_nil|].
  destruct (dial_loop _ _ _) as [t c] eqn:Hl. intros E Ha.
  assert (Ht : tried = t) by (destruct c; by injection E as <- <-). subst t.
  destruct (dial_loop_tried _ _ _ _ _ Hl) as (k & -> & _).
  apply elem_of_take in Ha as (i & Hi & _). apply list_elem_of_lookup_2 in Hi.
  apply list_elem_of_fmap in Hi as (x & -> & Hx). apply list_elem_of_filter in Hx as [Hx Hin].
  exists x, addrs. auto.
Qed.

Lemma vettedDial_Ok resolve dial host port a tried :
  vettedDial resolve dial host port = (tried, Ok a) ->
  exists failed, tried = failed ++ [a] /\ dial a port = true /\ forall b, b ∈ failed -> dial b port = false.
Proof.
  unfold vettedDial. destruct (resolve host) as [addrs|]; [|done]. repeat case_bool_decide; [done|done|].
  destruct (dial_loop _ _ _) as [t [c|]] eqn:Hl; [|done]. intros [= <- <-].
  by destruct (dial_loop_tried _ _ _ _ _ Hl) as (k & _ & Hc).
Qed.
