(* ===== verification/EgressProxy.v ===== *)
(** * Egress proxy: the CONNECT funnel and the intercepted session

    Models internal/proxy/egressproxy's proxy.go (the CONNECT handler, its
    authentication and refusals, the bounded denial queue) and intercept.go
    (the request head, its framing, the request policy, the outbound request
    and the session loop).  The TLS handshakes, [http.ReadRequest] and the
    round trip are parameters.  Refusal texts are constructors of [reason]
    with the values the source formats into them. *)

From S2P Require Import Prelude GoBytes EgressNet.

(** ** base64 and the caller's credential *)

Definition b64value (c : ascii) : option Z :=
  let b := bv c in
  if (65 <=? b) && (b <=? 90) then Some (b - 65)
  else if (97 <=? b) && (b <=? 122) then Some (b - 71)
  else if (48 <=? b) && (b <=? 57) then Some (b + 4)
  else if b =? 43 then Some 62 else if b =? 47 then Some 63 else None.

Definition PAD : ascii := byte_of 61.

(** [base64.StdEncoding.DecodeString]: line breaks are skipped, padding is
    required, and bits past the last byte are ignored. *)
Fixpoint b64_quads (s : bytes) : option bytes :=
  match s with
  | [] => Some []
  | a :: b :: c :: d :: s =>
      match b64value a, b64value b with
      | Some x, Some y =>
          let v1 := Z.lor (Z.shiftl x 2) (Z.shiftr y 4) in
          if bool_decide (c = PAD) then
            if bool_decide (d = PAD) && bool_decide (s = []) then Some [byte_of v1] else None
          else match b64value c with
               | None => None
               | Some z =>
                   let v2 := Z.land (Z.lor (Z.shiftl y 4) (Z.shiftr z 2)) 255 in
                   if bool_decide (d = PAD) then
                     if bool_decide (s = []) then Some [byte_of v1; byte_of v2] else None
                   else match b64value d, b64_quads s with
                        | Some w, Some r =>
                            Some ([byte_of v1; byte_of v2; byte_of (Z.land (Z.lor (Z.shiftl z 6) w) 255)] ++ r)
                        | _, _ => None
                        end
               end
      | _, _ => None
      end
  | _ => None
  end.

Definition b64_decode (s : bytes) : option bytes :=
  b64_quads (filter (fun c => c <> CR /\ c <> LF) s).

Definition BasicUser : bytes := bs "x-run".

(** [header] is the Proxy-Authorization value, empty when absent. *)
Definition callerAuthorized (incomingToken header : bytes) : bool :=
  if bool_decide (incomingToken = []) then true
  else if negb (HasPrefix header (bs "Basic ")) then false
  else match b64_decode (drop 6 header) with
       | None => false
       | Some decoded => bool_decide (decoded = BasicUser ++ [COLON] ++ incomingToken)
       end.

(** ** Headers and requests *)

(** [http.Header]: values by canonical name. *)
Notation header := (gmap bytes (list bytes)).

(** [Header.Get] of a canonical name. *)
Definition hget (h : header) (k : bytes) : bytes :=
  match h !! k with Some (v :: _) => v | _ => [] end.
Definition hvalues (h : header) (k : bytes) : list bytes := default [] (h !! k).

Definition is_tchar (c : ascii) : bool :=
  let b := bv c in
  ((48 <=? b) && (b <=? 57)) || ((65 <=? b) && (b <=? 90)) || ((97 <=? b) && (b <=? 122)) ||
  bool_decide (c ∈ bs "!#$%&'*+-.^_`|~").

Definition upper (c : ascii) : ascii :=
  if (97 <=? bv c) && (bv c <=? 122) then byte_of (bv c - 32) else c.

Fixpoint canonical_loop (up : bool) (s : bytes) : bytes :=
  match s with
  | [] => []
  | c :: s => (if up then upper c else lower c) :: canonical_loop (bool_decide (c = byte_of 45)) s
  end.

(** [textproto.CanonicalMIMEHeaderKey]: a name that is no token is unchanged. *)
Definition CanonicalHeaderKey (k : bytes) : bytes :=
  if forallb is_tchar k then canonical_loop true k else k.

Definition hdel (h : header) (k : bytes) : header := delete (CanonicalHeaderKey k) h.

(** [strings.EqualFold] on ASCII text. *)
Definition EqualFold (a b : bytes) : bool := bool_decide (ToLower a = ToLower b).

Record request := Req {
  rq_Method : bytes; rq_ProtoMajor : Z; rq_RequestURI : bytes; rq_Host : bytes; rq_Header : header;
  rq_Path : bytes; rq_RawPath : bytes; rq_RawQuery : bytes; rq_ForceQuery : bool;
  rq_ContentLength : Z; rq_TransferEncoding : list bytes; rq_Close : bool; rq_Body : bytes }.

(** What goes upstream. *)
Record outbound := Out {
  ob_Method : bytes; ob_Host : bytes; ob_Path : bytes; ob_RawPath : bytes; ob_RawQuery : bytes;
  ob_ForceQuery : bool; ob_Header : header; ob_Body : option (bytes * Z) }.

(** ** Refusals *)

Inductive reason :=
| NotConnect | MalformedTarget (t : bytes) | PortRefused (p : bytes)
| HostNotListed (h : bytes) (g : option guidance) | TooManySessions | PolicyDenied (e : dial_error)
| UpstreamTLS (h : bytes)
| HeadTooLarge | LengthAndEncoding | ManyLengths | Malformed
| NotHTTP1 | ConnectInside | NotOrigin | HostMismatch (h : bytes) | UpgradeRefused | QuerySemicolon | QueryUnparsed
| OverrideHeader (n : bytes) | OverrideParam (n : bytes) | ExpectRefused (e : bytes) | BodyOnRead | NotReadPath | NotReadMethod (m : bytes).

Record refusal := Refusal { rf_status : Z; rf_reason : reason }.

(** ** Queries *)

(** [url.QueryUnescape]. *)
Fixpoint QueryUnescape (s : bytes) : option bytes :=
  match s with
  | [] => Some []
  | c :: s1 =>
      if bool_decide (c = byte_of 37) then
        match s1 with
        | h :: l :: s2 =>
            match hexval h, hexval l, QueryUnescape s2 with
            | Some x, Some y, Some r => Some (byte_of (x * 16 + y) :: r)
            | _, _, _ => None
            end
        | _ => None
        end
      else match QueryUnescape s1 with
           | Some r => Some ((if bool_decide (c = byte_of 43) then SP else c) :: r)
           | None => None
           end
  end.

Definition SEMI : ascii := byte_of 59.

(** One pair of [url.ParseQuery]: its key, or an error; an empty pair is
    neither. *)
Definition query_pair (p : bytes) : option (option bytes) :=
  if bool_decide (SEMI ∈ p) then Some None
  else if bool_decide (p = []) then None
  else let '(k, v) := Cut p (byte_of 61) in
       match QueryUnescape k, QueryUnescape v with
       | Some k, Some _ => Some (Some k)
       | _, _ => Some None
       end.

(** The keys [url.ParseQuery] keeps, and whether it reports an error. *)
Definition ParseQuery (q : bytes) : list bytes * bool :=
  let ps := omap query_pair (Split q (byte_of 38)) in
  (omap id ps, existsb (fun p => match p with None => true | Some _ => false end) ps).

(** ** intercept.go: the policy *)

Definition methodOverrideHeaders : list bytes :=
  [bs "x-http-method-override"; bs "x-http-method"; bs "x-method-override"].

Definition override_name (name : bytes) : bytes :=
  ToLower (map (fun c => if bool_decide (c = byte_of 95) then byte_of 45 else c) name).

(** A Go map is ranged in no fixed order, so which override is named first is
    unspecified; here it is the map's own order. *)
Definition methodOverride (r : request) : option reason :=
  match filter (fun n => override_name n ∈ methodOverrideHeaders) (fst <$> map_to_list (rq_Header r)) with
  | n :: _ => Some (OverrideHeader n)
  | [] => match filter (fun k => EqualFold k (bs "_method") = true) (ParseQuery (rq_RawQuery r)).1 with
          | k :: _ => Some (OverrideParam k)
          | [] => None
          end
  end.

Definition headerHasToken (h : header) (name token : bytes) : bool :=
  existsb (fun v => existsb (fun t => EqualFold (TrimSpace t) token) (Split v (byte_of 44))) (hvalues h name).

Definition hopByHopHeaders : list bytes :=
  [bs "Connection"; bs "Keep-Alive"; bs "Proxy-Connection"; bs "Proxy-Authenticate";
   bs "Proxy-Authorization"; bs "Te"; bs "Trailer"; bs "Transfer-Encoding"; bs "Upgrade"].

Definition connection_names (h : header) : list bytes :=
  filter (fun n => n <> []) (map TrimSpace (concat (map (fun v => Split v (byte_of 44)) (hvalues h (bs "Connection"))))).

Definition removeHopByHop (h : header) : header :=
  fold_left hdel hopByHopHeaders (fold_left hdel (connection_names h) h).

Definition hostMatches (hostHeader host : bytes) : bool :=
  match SplitHostPort hostHeader with
  | Some (h, port) => if bool_decide (port = connectPort) then bool_decide (normalizeHost h = host) else false
  | None => bool_decide (normalizeHost hostHeader = host)
  end.

Definition requestPolicy (registries : registry_set) (host : bytes) (req : request) : option refusal :=
  if negb (rq_ProtoMajor req =? 1) then Some (Refusal 505 NotHTTP1)
  else if bool_decide (rq_Method req = bs "CONNECT") then Some (Refusal 403 ConnectInside)
  else if negb (HasPrefix (rq_RequestURI req) (bs "/")) then Some (Refusal 400 NotOrigin)
  else if negb (hostMatches (rq_Host req) host) then Some (Refusal 403 (HostMismatch (rq_Host req)))
  else if negb (bool_decide (hget (rq_Header req) (bs "Upgrade") = [])) ||
          headerHasToken (rq_Header req) (bs "Connection") (bs "upgrade") then Some (Refusal 403 UpgradeRefused)
  else if bool_decide (SEMI ∈ rq_RawQuery req) then Some (Refusal 400 QuerySemicolon)
  else if (ParseQuery (rq_RawQuery req)).2 then Some (Refusal 400 QueryUnparsed)
  else match methodOverride req with
  | Some why => Some (Refusal 403 why)
  | None =>
      let e := hget (rq_Header req) (bs "Expect") in
      if negb (bool_decide (e = [])) && negb (EqualFold e (bs "100-continue")) then Some (Refusal 417 (ExpectRefused e))
      else
        let hasBody := negb (rq_ContentLength req =? 0) || (0 <? length (rq_TransferEncoding req))%nat in
        if bool_decide (rq_Method req = bs "GET") || bool_decide (rq_Method req = bs "HEAD") then
          if hasBody then Some (Refusal 403 BodyOnRead) else None
        else if bool_decide (rq_Method req = bs "POST") then
          if bool_decide (rq_Path req ∈ default ∅ (registries !! host)) && bool_decide (rq_RawPath req = []) then None
          else Some (Refusal 403 NotReadPath)
        else Some (Refusal 403 (NotReadMethod (rq_Method req)))
  end.

Definition outboundRequest (host : bytes) (req : request) : outbound :=
  let h := hdel (hdel (removeHopByHop (rq_Header req)) (bs "Host")) (bs "Expect") in
  let h := match h !! bs "User-Agent" with Some _ => h | None => <[bs "User-Agent" := [[]]]> h end in
  Out (rq_Method req) host (rq_Path req) (rq_RawPath req) (rq_RawQuery req) (rq_ForceQuery req) h
      (if bool_decide (rq_Method req = bs "POST") then Some (rq_Body req, rq_ContentLength req) else None).

(** ** intercept.go: the request head *)

Definition head_line (line : bytes) : bytes := TrimSuffix line [CR].

(** Whether line [i] of the head counts as the named header. *)
Definition names_header (name : bytes) (il : nat * bytes) : bool :=
  let line := head_line il.2 in
  match il.1, line with
  | O, _ | _, [] => false
  | _, c :: _ =>
      if bool_decide (c = SP) || bool_decide (c = byte_of 9) then false
      else match IndexByte line COLON with
           | None => false
           | Some i => EqualFold (take i line) name
           end
  end.

Definition ambiguousFraming (head : bytes) : option refusal :=
  let lines := imap (fun i l => (i, l)) (Split head LF) in
  let contentLengths := length (List.filter (names_header (bs "Content-Length")) lines) in
  let transferEncodings := length (List.filter (names_header (bs "Transfer-Encoding")) lines) in
  if (0 <? contentLengths)%nat && (0 <? transferEncodings)%nat then Some (Refusal 400 LengthAndEncoding)
  else if (1 <? contentLengths)%nat then Some (Refusal 400 ManyLengths)
  else None.

Definition maxRequestHead : Z := 65536.

(** The inner scan of [peekRequestHead] over what is buffered: the end of the
    head, or where the scan stopped. *)
Fixpoint scan_lines (fuel : nat) (buf : bytes) (lineStart searched : nat) : nat + (nat * nat) :=
  match fuel with
  | O => inr (lineStart, searched)
  | S fuel =>
      match IndexByte (drop searched buf) LF with
      | None => inr (lineStart, length buf)
      | Some i =>
          let e := (searched + i)%nat in
          let line := TrimSuffix (drop lineStart (take e buf)) [CR] in
          if bool_decide (line = []) then inl (S e) else scan_lines fuel buf (S e) (S e)
      end
  end.

Inductive peeked := Head (head : bytes) | PeekTooLarge | PeekError.

(** [peekRequestHead]: [chunks] is what the connection delivers next, each no
    longer than the room left, and an empty list is a read error. *)
Fixpoint peek_loop (chunks : list bytes) (buf : bytes) (lineStart searched : nat) : peeked :=
  match chunks with
  | [] => PeekError
  | c :: chunks =>
      let buf := buf ++ c in
      match scan_lines (S (length buf)) buf lineStart searched with
      | inl e => Head (take e buf)
      | inr (lineStart, searched) =>
          if maxRequestHead <=? Z.of_nat (length buf) then PeekTooLarge
          else peek_loop chunks buf lineStart searched
      end
  end.

Definition peekRequestHead (chunks : list bytes) : peeked := peek_loop chunks [] 0 0.

(** ** intercept.go: the session *)

(** What one turn of the session saw: the peeked head, and the request
    [http.ReadRequest] read from it. *)
Record turn := Turn { tn_head : peeked; tn_request : option request }.

(** The registry's answer, with whether its body can only be ended by closing;
    or a failed round trip, with the denial it records, if any.  An answer the
    transport decoded counts as the latter. *)
Inductive upstream_reply := Answered (close : bool) | RoundTripFailed (denied : option reason).

Section Session.
Context (registries : registry_set) (host : bytes) (roundTrip : outbound -> upstream_reply).

(** Whether the session takes another request, and the refusal answered. *)
Definition relay (req : request) : outbound * bool * option reason :=
  let out := outboundRequest host req in
  match roundTrip out with
  | RoundTripFailed denied => (out, false, denied)
  | Answered close => (out, negb (rq_Close req || bool_decide (rq_Method req = bs "POST") || close), None)
  end.

(** The requests relayed and the refusals recorded. *)
Fixpoint serveSession (turns : list turn) : list outbound * list reason :=
  match turns with
  | [] => ([], [])
  | t :: turns =>
      match tn_head t with
      | PeekTooLarge => ([], [HeadTooLarge])
      | PeekError => ([], [])
      | Head head =>
          match ambiguousFraming head with
          | Some rf => ([], [rf_reason rf])
          | None =>
              match tn_request t with
              | None => ([], [Malformed])
              | Some req =>
                  match requestPolicy registries host req with
                  | Some rf => ([], [rf_reason rf])
                  | None =>
                      let '(out, more, denied) := relay req in
                      if (more : bool) then
                        let '(outs, rs) := serveSession turns in (out :: outs, rs)
                      else ([out], match denied with Some r => [r] | None => [] end)
                  end
              end
          end
      end
  end.
End Session.

(** ** proxy.go *)

Definition maxSessions : nat := 64.
Definition denialQueueCap : nat := 256.

Record server := Server {
  sv_registries : registry_set; sv_token : bytes; sv_ghAPI : gset bytes; sv_ghGit : gset bytes;
  sv_audited : bool;                          (* RecordDenial is set *)
  sv_slots : nat; sv_queue : list (bytes * reason); sv_dropped : Z; sv_closed : bool }.

Definition New (url_hostname : bytes -> option bytes) (registries : list Registry) (token : bytes) (gh : GitHubHosts) (audited : bool) : server :=
  let gh := if (length (gh_API gh) =? 0)%nat && (length (gh_Git gh) =? 0)%nat
            then GitHubHostsForUpstreams url_hostname [] [] else gh in
  Server (newRegistrySet registries) token (newHostSet (gh_API gh)) (newHostSet (gh_Git gh)) audited 0 [] 0 false.

(** A full queue drops the record and counts it. *)
Definition recordDenial (target : bytes) (why : reason) (s : server) : server :=
  if negb (sv_audited s) then s
  else if (length (sv_queue s) <? denialQueueCap)%nat
  then Server (sv_registries s) (sv_token s) (sv_ghAPI s) (sv_ghGit s) (sv_audited s) (sv_slots s)
              (sv_queue s ++ [(target, why)]) (sv_dropped s) (sv_closed s)
  else Server (sv_registries s) (sv_token s) (sv_ghAPI s) (sv_ghGit s) (sv_audited s) (sv_slots s)
              (sv_queue s) (wrap64 (sv_dropped s + 1)) (sv_closed s).

(** One delivery of [drainDenials]. *)
Definition drainDenials (s : server) : option (bytes * reason) * server :=
  match sv_queue s with
  | [] => (None, s)
  | d :: q => (Some d, Server (sv_registries s) (sv_token s) (sv_ghAPI s) (sv_ghGit s) (sv_audited s) (sv_slots s)
                              q (sv_dropped s) (sv_closed s))
  end.

Inductive answer :=
| AuthRequired                                   (* 407, not recorded *)
| RefusedConnect (status : Z) (why : reason)     (* recorded and answered *)
| DialError                                      (* 502, not recorded *)
| Tunnel (host : bytes) (upstream : Addr).       (* handed to [intercept] *)

Record connect := Conn { cn_method : bytes; cn_host : bytes; cn_auth : bytes }.

Section Handle.
Context (resolve : bytes -> option (list Addr)) (dial : Addr -> bytes -> bool) (tls_ok : bytes -> Addr -> bool).

Inductive upstream_error := DialVetted (e : dial_error) | TLSFailed.

Definition dialUpstream (host : bytes) : list Addr * res upstream_error Addr :=
  let '(tried, r) := vettedDial resolve dial host connectPort in
  (tried, match r with
          | Err e => Err (DialVetted e)
          | Ok a => if tls_ok host a then Ok a else Err TLSFailed
          end).

(** The answer, the addresses dialed, and whether a session slot was taken. *)
Definition connect_answer (s : server) (r : connect) : answer * list Addr * bool :=
  if negb (callerAuthorized (sv_token s) (cn_auth r)) then (AuthRequired, [], false)
  else if negb (bool_decide (cn_method r = bs "CONNECT")) then (RefusedConnect 403 NotConnect, [], false)
  else match SplitHostPort (cn_host r) with
  | None => (RefusedConnect 403 (MalformedTarget (cn_host r)), [], false)
  | Some (host, port) =>
      if negb (bool_decide (port = connectPort)) then (RefusedConnect 403 (PortRefused port), [], false)
      else
        let hostNorm := normalizeHost host in
        match sv_registries s !! hostNorm with
        | None => (RefusedConnect 403 (HostNotListed host (deniedHostGuidance (sv_ghAPI s) (sv_ghGit s) hostNorm)), [], false)
        | Some _ =>
            if (maxSessions <=? sv_slots s)%nat then (RefusedConnect 503 TooManySessions, [], false)
            else
              let '(tried, u) := dialUpstream hostNorm in
              (match u with
               | Ok a => Tunnel hostNorm a
               | Err (DialVetted e) => if is_policyDenial e then RefusedConnect 403 (PolicyDenied e) else DialError
               | Err TLSFailed => RefusedConnect 502 (UpstreamTLS hostNorm)
               end, tried, true)
        end
  end.

Definition set_slots (s : server) (n : nat) : server :=
  Server (sv_registries s) (sv_token s) (sv_ghAPI s) (sv_ghGit s) (sv_audited s) n (sv_queue s) (sv_dropped s) (sv_closed s).

(** [handleRequest] up to [intercept]: a tunnel keeps its slot until its
    session ends; a session set up after [Shutdown] is closed at once. *)
Definition handleRequest (r : connect) (s : server) : answer * list Addr * server :=
  let '(a, tried, _) := connect_answer s r in
  (a, tried,
   match a with
   | RefusedConnect _ why => recordDenial (cn_host r) why s
   | Tunnel _ _ => if sv_closed s then s else set_slots s (S (sv_slots s))
   | _ => s
   end).

Definition end_session (s : server) : server := set_slots s (pred (sv_slots s)).

(** [handleRequest] with the session it serves: the requests relayed, under
    whatever the registry answers. *)
Definition serve (r : connect) (s : server) (turns : list turn) (roundTrip : outbound -> upstream_reply)
  : list Addr * list outbound :=
  let '(a, tried, s') := handleRequest r s in
  match a with
  | Tunnel host _ => if sv_closed s then (tried, []) else (tried, (serveSession (sv_registries s) host roundTrip turns).1)
  | _ => (tried, [])
  end.
End Handle.
