(* ===== verification/EgressSpec.v ===== *)
(** * What the egress proxy admits *)

From S2P Require Import Prelude GoBytes EgressNet EgressProxy.

(** ** The denylist sees through the encodings *)

(** The internal ranges, as numbers: an IPv4 host that is loopback, private,
    link-local, carrier-grade NAT, of this network, multicast or the limited
    broadcast, and an IPv6 one that is unspecified, loopback, unique-local,
    link-local or multicast. *)
Definition reserved_v4 (n : Z) : Prop :=
  quad 127 0 0 0 <= n <= quad 127 255 255 255 \/
  quad 10 0 0 0 <= n <= quad 10 255 255 255 \/
  quad 172 16 0 0 <= n <= quad 172 31 255 255 \/
  quad 192 168 0 0 <= n <= quad 192 168 255 255 \/
  quad 169 254 0 0 <= n <= quad 169 254 255 255 \/
  quad 100 64 0 0 <= n <= quad 100 127 255 255 \/
  quad 0 0 0 0 <= n <= quad 0 255 255 255 \/
  quad 224 0 0 0 <= n <= quad 239 255 255 255 \/
  n = quad 255 255 255 255.

Definition reserved_v6 (n : Z) : Prop :=
  n = 0 \/ n = 1 \/
  0xfc00 * 2 ^ 112 <= n < 0xfe00 * 2 ^ 112 \/
  0xfe80 * 2 ^ 112 <= n < 0xfec0 * 2 ^ 112 \/
  0xff00 * 2 ^ 112 <= n < 0x10000 * 2 ^ 112.

(** Where a connection to an address ends up inside: a zone selects an
    interface and changes no range.  [::ffff:0:0/96] holds the mapped IPv4
    hosts and [64:ff9b::/96] the ones behind a NAT64 gateway. *)
Definition internal (a : Addr) : Prop :=
  match a with
  | V4 n => reserved_v4 n
  | V6 n _ => reserved_v6 n \/
      ((0xffff * 2 ^ 32 <= n < 0x10000 * 2 ^ 32 \/
        0x64ff9b * 2 ^ 96 <= n < 0x64ff9b * 2 ^ 96 + 2 ^ 32) /\ reserved_v4 (n mod 2 ^ 32))
  | ZeroAddr => False
  end.

Definition zoned (a : Addr) : Prop := match a with V6 _ zone => zone <> [] | _ => False end.

Lemma embedded_v4_low n zone : embedded_v4 (V6 n zone) = V4 (n mod 2 ^ 32).
Proof.
  unfold embedded_v4, quad. f_equal. change 255 with (Z.ones 8). rewrite !Z.land_ones, !Z.shiftr_div_pow2 by lia.
  change (2 ^ 8) with 256. change (2 ^ 16) with 65536. change (2 ^ 24) with 16777216. change (2 ^ 32) with 4294967296.
  Z.to_euclidean_division_equations. lia.
Qed.

Lemma in_nat64 n zone :
  prefix_contains nat64Prefix (V6 n zone) = bool_decide (zone = []) && (n / 2 ^ 32 =? nat64_base / 2 ^ 32).
Proof.
  unfold prefix_contains, nat64Prefix. f_equal. rewrite Z.shiftr_lxor. change (128 - 96) with 32.
  rewrite !Z.shiftr_div_pow2 by lia. apply eq_bool_prop_intro. rewrite !Is_true_true, !Z.eqb_eq.
  split; [apply Z.lxor_eq|intros ->; apply Z.lxor_nilpotent].
Qed.

Lemma Unmap_mapped n zone :
  Unmap (V6 n zone) = if n / 2 ^ 32 =? 0xffff then V4 (n mod 2 ^ 32) else V6 n zone.
Proof.
  unfold Unmap, Is4In6. rewrite Z.shiftr_div_pow2 by lia. change 0xffffffff with (Z.ones 32).
  by rewrite Z.land_ones by lia.
Qed.

(** A prefix of the right family is the numbers that share its high bits. *)
Lemma high_bits m n s : 0 <= s -> (Z.shiftr (Z.lxor m n) s =? 0) = (m / 2 ^ s =? n / 2 ^ s).
Proof.
  intros Hs. rewrite Z.shiftr_lxor, !Z.shiftr_div_pow2 by lia. apply eq_bool_prop_intro.
  rewrite !Is_true_true, !Z.eqb_eq. split; [apply Z.lxor_eq|intros ->; apply Z.lxor_nilpotent].
Qed.

Lemma in_block m n s : 0 <= s -> n * 2 ^ s <= m < (n + 1) * 2 ^ s -> m / 2 ^ s = n.
Proof. intros Hs Hm. symmetry. apply (Z.div_unique _ _ _ (m - n * 2 ^ s)); lia. Qed.

(** Every reserved number is in a range of the list. *)
Ltac in_range k b :=
  exists k; split; [simpl; tauto|]; cbn [prefix_contains]; rewrite ?bool_decide_true by done;
  rewrite high_bits by lia; cbn [andb]; apply Z.eqb_eq;
  match goal with |- ?m / 2 ^ ?s = _ =>
    let s' := eval vm_compute in s in change s with s'; rewrite (in_block m b s') by lia end; vm_compute; reflexivity.

Lemma reserved_v4_listed n :
  reserved_v4 n -> existsb (fun p => prefix_contains p (V4 n)) deniedRanges = true.
Proof.
  unfold reserved_v4, quad. intros H. apply existsb_exists. destruct H as [H|[H|[H|[H|[H|[H|[H|[H|H]]]]]]]].
  - in_range (P4 (quad 127 0 0 0) 8) 127.
  - in_range (P4 (quad 10 0 0 0) 8) 10.
  - in_range (P4 (quad 172 16 0 0) 12) (172 * 16 + 1).
  - in_range (P4 (quad 192 168 0 0) 16) (192 * 256 + 168).
  - in_range (P4 (quad 169 254 0 0) 16) (169 * 256 + 254).
  - in_range (P4 (quad 100 64 0 0) 10) (100 * 4 + 1).
  - in_range (P4 (quad 0 0 0 0) 8) 0.
  - in_range (P4 (quad 224 0 0 0) 4) 14.
  - in_range (P4 (quad 255 255 255 255) 32) (2 ^ 32 - 1).
Qed.

Lemma reserved_v6_listed n :
  reserved_v6 n -> existsb (fun p => prefix_contains p (V6 n [])) deniedRanges = true.
Proof.
  unfold reserved_v6. intros H. apply existsb_exists. destruct H as [H|[H|[H|[H|H]]]].
  - in_range (P6 0 128) 0.
  - in_range (P6 1 128) 1.
  - in_range (P6 (Z.shiftl 0xfc00 112) 7) 126.
  - in_range (P6 (Z.shiftl 0xfe80 112) 10) 1018.
  - in_range (P6 (Z.shiftl 0xff00 112) 8) 255.
Qed.

(** An internal address without a zone is refused, in every encoding, and so is
    a zoned mapped one, which [Unmap] reads as IPv4. *)
Lemma internal_denied a : internal a -> ~ zoned a \/ Is4In6 a = true -> ipDenied a = true.
Proof.
  intros Hi Hz. unfold ipDenied. cbv zeta. destruct a as [n|n zone|]; [cbn [Unmap]; by rewrite reserved_v4_listed| |done].
  rewrite Unmap_mapped. cbn [Is4In6] in Hz. rewrite Z.shiftr_div_pow2 in Hz by lia.
  destruct (n / 2 ^ 32 =? 0xffff) eqn:E.
  - apply Z.eqb_eq in E. destruct Hi as [Hi|[_ Hi]]; [|by rewrite reserved_v4_listed].
    exfalso. assert (Hn : 0xffff * 2 ^ 32 <= n < 0x10000 * 2 ^ 32) by (Z.to_euclidean_division_equations; lia).
    unfold reserved_v6 in Hi. lia.
  - destruct Hz as [Hz|?]; [|done]. destruct (decide (zone = [])) as [->|]; [|by destruct Hz].
    destruct Hi as [Hi|[[Hi|Hi] Hr]]; [by rewrite reserved_v6_listed| |].
    + by rewrite (in_block n 0xffff 32) in E by lia.
    + destruct (existsb _ _); [done|]. rewrite in_nat64, embedded_v4_low, (in_block n (0x64ff9b * 2 ^ 64) 32) by lia.
      rewrite bool_decide_true, reserved_v4_listed by done. by vm_compute.
Qed.

(** What is dialed is unmapped, so what passed the vetting is not internal. *)
Lemma vetted_outside x : ipDenied x = false -> ~ zoned (Unmap x) -> ~ internal (Unmap x).
Proof.
  intros Hd Hz Hi. assert (Hu : Unmap (Unmap x) = Unmap x).
  { destruct x as [|n zone|]; [done| |done]. rewrite Unmap_mapped. destruct (n / 2 ^ 32 =? 0xffff) eqn:E; [done|].
    by rewrite Unmap_mapped, E. }
  assert (Ht : ipDenied (Unmap x) = true) by (apply internal_denied; auto).
  unfold ipDenied in *. rewrite Hu in Ht. by rewrite Ht in Hd.
Qed.

(** [Prefix.Contains] is false of every zoned address, so the denylist lets an
    internal address through once it names a zone, unless it is mapped. *)
Theorem zoned_addresses_pass n zone : zone <> [] -> Is4In6 (V6 n zone) = false -> ipDenied (V6 n zone) = false.
Proof.
  intros Hz Hm. unfold ipDenied, Unmap. rewrite Hm. cbn. by rewrite !bool_decide_false by done.
Qed.

Example zoned_loopback_is_dialed :
  vettedDial (fun _ => Some [V6 1 (bs "lo")]) (fun _ _ => true) (bs "::1%lo") connectPort =
    ([V6 1 (bs "lo")], Ok (V6 1 (bs "lo"))) /\ internal (V6 1 (bs "lo")).
Proof. split; [vm_compute; reflexivity|left; right; by left]. Qed.

(** C23: Whatever the resolver answers, the vetted dial dials only addresses the
    resolver gave, unmapped, and none of them without a zone is internal: not
    loopback, private, link-local, carrier-grade NAT, unique-local,
    unspecified, multicast or broadcast, and not the mapped or NAT64 form of
    such an IPv4 host.  A connection is to the last address dialed, which
    answered, and none before it did; a failure to connect means every vetted
    address was tried.  An IPv6 address with a zone, which no DNS record can
    hold and a literal can, is outside the claim: the denylist does not see it
    (see [zoned_addresses_pass]). *)
Theorem dial_avoids_internal_ranges resolve dial host port tried r :
  vettedDial resolve dial host port = (tried, r) ->
  (forall a, a ∈ tried ->
     (exists x addrs, resolve host = Some addrs /\ x ∈ addrs /\ a = Unmap x) /\
     (~ zoned a -> ~ internal a)) /\
  match r with
  | Ok c => exists failed, tried = failed ++ [c] /\ dial c port = true /\ forall a, a ∈ failed -> dial a port = false
  | Err DialFailed => exists addrs, resolve host = Some addrs /\
      tried = map Unmap (filter (fun a => ipDenied a = false) addrs) /\ forall a, a ∈ tried -> dial a port = false
  | Err _ => tried = []
  end.
Proof.
  intros H. split.
  - intros a Ha. destruct (vettedDial_tried _ _ _ _ _ _ _ H Ha) as (x & addrs & Hr & Hx & Hd & ->).
    split; [by exists x, addrs|]. by apply vetted_outside.
  - destruct r as [c|e]; [by apply (vettedDial_Ok resolve _ host)|]. revert H. unfold vettedDial.
    destruct (resolve host) as [addrs|]; [|by intros [= <- <-]]. repeat case_bool_decide; [by intros [= <- <-]..|].
    destruct (dial_loop _ _ _) as [t [c|]] eqn:Hl; [done|]. intros [= <- <-].
    destruct (dial_loop_tried _ _ _ _ _ Hl) as (k & _ & Ht & Hall). by exists addrs.
Qed.

(** ** The allowlist *)

Lemma add_registry_lookup set r h ps :
  add_registry set r !! h = Some ps ->
  (forall p, p ∈ ps -> (exists q, set !! h = Some q /\ p ∈ q) \/ (normalizeHost (reg_Host r) = h /\ p ∈ reg_ReadPOSTPaths r)) /\
  (is_Some (set !! h) \/ (normalizeHost (reg_Host r) = h /\ h <> [])).
Proof.
  unfold add_registry. case_bool_decide as Hn.
  - intros H. split; [intros p Hp; left; eauto|left; eauto].
  - intros [[<- <-]|[_ H]]%lookup_insert_Some; [|split; [intros p Hp; left; eauto|left; eauto]].
    split; [|right; by split]. intros p [Hp|Hp%elem_of_list_to_set]%elem_of_union; [left|right; by split].
    destruct (set !! _) as [q|]; [by exists q|set_solver].
Qed.

Lemma newRegistrySet_sound registries h ps :
  newRegistrySet registries !! h = Some ps ->
  (exists r, r ∈ registries /\ normalizeHost (reg_Host r) = h /\ h <> []) /\
  (forall p, p ∈ ps -> exists r, r ∈ registries /\ normalizeHost (reg_Host r) = h /\ p ∈ reg_ReadPOSTPaths r).
Proof.
  unfold newRegistrySet. revert ps. induction registries as [|r rs IH] using rev_ind; intros ps; [done|].
  rewrite fold_left_app. cbn [fold_left]. intros [Hp Hh]%add_registry_lookup. split.
  - destruct Hh as [[q Hq]|[? ?]].
    + destruct (IH _ Hq) as [(r' & ? & ? & ?) _]. exists r'. set_solver.
    + exists r. set_solver.
  - intros p [(q & Hq & Hpq)|[? ?]]%Hp; [|exists r; set_solver].
    destruct (IH _ Hq) as [_ H']. destruct (H' p Hpq) as (r' & ? & ? & ?). exists r'. set_solver.
Qed.

(** ** The policy *)

(** The request an admitted turn relays is a read. *)
Definition is_read (registries : list Registry) (host : bytes) (o : outbound) : Prop :=
  ((ob_Method o = bs "GET" \/ ob_Method o = bs "HEAD") /\ ob_Body o = None) \/
  (ob_Method o = bs "POST" /\ ob_RawPath o = [] /\
   exists r, r ∈ registries /\ normalizeHost (reg_Host r) = host /\ ob_Path o ∈ reg_ReadPOSTPaths r).

Ltac pass_guard H :=
  match type of H with
  | (if ?b then Some _ else _) = None => let E := fresh "G" in destruct b eqn:E; [discriminate H|]
  end.

Lemma requestPolicy_read registries host req :
  requestPolicy (newRegistrySet registries) host req = None ->
  is_read registries host (outboundRequest host req) /\ methodOverride req = None /\
  hostMatches (rq_Host req) host = true.
Proof.
  unfold requestPolicy. intros H. do 7 pass_guard H. apply negb_false_iff in G2.
  destruct (methodOverride req) eqn:Hm; [done|]. cbv zeta in H. pass_guard H. split; [|done].
  unfold is_read, outboundRequest. cbn [ob_Method ob_Body ob_RawPath ob_Path].
  destruct (bool_decide (rq_Method req = bs "GET") || _) eqn:Hg.
  - left. apply orb_true_iff in Hg as [Hg%bool_decide_eq_true|Hg%bool_decide_eq_true]; rewrite Hg; by auto.
  - destruct (bool_decide (rq_Method req = bs "POST")) eqn:Hp; [|done]. apply bool_decide_eq_true in Hp.
    destruct (bool_decide (rq_Path req ∈ _) && _) eqn:Hpath; [|done]. right.
    apply andb_true_iff in Hpath as [Hin%bool_decide_eq_true Hraw%bool_decide_eq_true].
    split_and!; [done|done|]. destruct (newRegistrySet registries !! host) as [ps|] eqn:Hr; [|set_solver].
    destruct (newRegistrySet_sound _ _ _ Hr) as [_ H']. by apply H'.
Qed.

(** ** Outgoing headers *)

Lemma hdel_subseteq h k : hdel h k ⊆ h.
Proof. apply delete_subseteq. Qed.

Lemma fold_hdel_subseteq ks h : fold_left hdel ks h ⊆ h.
Proof. revert h. induction ks as [|k ks IH]; intros h; [done|]. cbn. by etrans; [apply IH|apply hdel_subseteq]. Qed.

Lemma fold_hdel_deleted ks h k : k ∈ ks -> CanonicalHeaderKey k = k -> fold_left hdel ks h !! k = None.
Proof.
  intros Hk Hc. revert h. induction Hk as [k ks|k k' ks Hk IH]; intros h; cbn; [|by apply IH].
  destruct (fold_left hdel ks (hdel h k) !! k) eqn:E; [|done].
  eapply lookup_weaken in E; [|apply fold_hdel_subseteq]. unfold hdel in E. by rewrite Hc, lookup_delete_eq in E.
Qed.

Lemma hop_canonical k : k ∈ hopByHopHeaders -> CanonicalHeaderKey k = k.
Proof.
  intros Hk. assert (F : Forall (fun k => CanonicalHeaderKey k = k) hopByHopHeaders)
    by (repeat constructor; vm_compute; reflexivity).
  by eapply Forall_forall in F.
Qed.

(** A header that goes out came in and is not hop-by-hop, or is the empty
    User-Agent. *)
Lemma outbound_header host req k v :
  ob_Header (outboundRequest host req) !! k = Some v ->
  (rq_Header req !! k = Some v /\ k ∉ hopByHopHeaders) \/ k = bs "User-Agent".
Proof.
  unfold outboundRequest. cbn [ob_Header]. set (h := hdel (hdel (removeHopByHop _) _) _).
  assert (Hh : forall v, h !! k = Some v -> rq_Header req !! k = Some v /\ k ∉ hopByHopHeaders).
  { intros w Hw. assert (Hr : removeHopByHop (rq_Header req) !! k = Some w).
    { eapply lookup_weaken; [exact Hw|]. by etrans; apply hdel_subseteq. }
    unfold removeHopByHop in Hr. split.
    - eapply lookup_weaken; [exact Hr|]. by etrans; apply fold_hdel_subseteq.
    - intros Hk. by rewrite (fold_hdel_deleted _ _ k Hk (hop_canonical k Hk)) in Hr. }
  destruct (h !! bs "User-Agent"); [intros ?; left; by apply Hh|].
  intros [[<- _]|[_ ?]]%lookup_insert_Some; [by right|left; by apply Hh].
Qed.

Lemma methodOverride_None req k v :
  methodOverride req = None -> rq_Header req !! k = Some v -> override_name k ∉ methodOverrideHeaders.
Proof.
  unfold methodOverride. destruct (filter _ (fst <$> _)) eqn:Hf; [|done]. intros _ Hk Hin.
  assert (Hx : k ∈ filter (fun n => override_name n ∈ methodOverrideHeaders) (fst <$> map_to_list (rq_Header req))).
  { apply list_elem_of_filter. split; [done|]. apply list_elem_of_fmap. exists (k, v). split; [done|].
    by apply elem_of_map_to_list. }
  rewrite Hf in Hx. by apply elem_of_nil in Hx.
Qed.

Lemma user_agent_not_override : override_name (bs "User-Agent") ∉ methodOverrideHeaders.
Proof. by apply (bool_decide_eq_false_1 _); vm_compute. Qed.

Lemma user_agent_not_hop : bs "User-Agent" ∉ hopByHopHeaders.
Proof. by apply (bool_decide_eq_false_1 _); vm_compute. Qed.

(** ** Sessions *)

Definition clean_headers (o : outbound) : Prop :=
  forall k v, ob_Header o !! k = Some v -> k ∉ hopByHopHeaders /\ override_name k ∉ methodOverrideHeaders.

(** Request [req] was read from turn [t] of a session with [host], framed one
    way only and addressed to that host. *)
Definition admitted (host : bytes) (t : turn) (req : request) : Prop :=
  (exists head, tn_head t = Head head /\ ambiguousFraming head = None) /\
  tn_request t = Some req /\ hostMatches (rq_Host req) host = true.

(** What goes out for request [req] is that request, as a read, to [host]. *)
Definition relayed (registries : list Registry) (host : bytes) (req : request) (o : outbound) : Prop :=
  ob_Host o = host /\ ob_Method o = rq_Method req /\ ob_Path o = rq_Path req /\ ob_RawPath o = rq_RawPath req /\
  ob_RawQuery o = rq_RawQuery req /\ (forall b len, ob_Body o = Some (b, len) -> b = rq_Body req) /\
  is_read registries host o /\ clean_headers o.

Lemma outbound_relayed registries host req :
  requestPolicy (newRegistrySet registries) host req = None ->
  relayed registries host req (outboundRequest host req) /\ hostMatches (rq_Host req) host = true.
Proof.
  intros Hp. destruct (requestPolicy_read _ _ _ Hp) as (Hr & Hm & Hho). split; [|done].
  unfold relayed. split_and!; try done.
  - unfold outboundRequest. cbn [ob_Body]. case_bool_decide; [by intros b len [= <- _]|done].
  - intros k v [[Hk Hno]| ->]%outbound_header; [|split; [apply user_agent_not_hop|apply user_agent_not_override]].
    split; [done|]. by eapply methodOverride_None.
Qed.

(** The session relays the request of turn [i] as its request [i], and every
    turn it relays passed the policy itself. *)
Lemma serveSession_reads registries host roundTrip turns i o :
  (serveSession (newRegistrySet registries) host roundTrip turns).1 !! i = Some o ->
  exists t req, turns !! i = Some t /\ admitted host t req /\ relayed registries host req o.
Proof.
  revert i. induction turns as [|t turns IH]; intros i; cbn [serveSession]; [done|].
  destruct (tn_head t) as [head| |] eqn:Hh; [|done..]. destruct (ambiguousFraming head) eqn:Hf; [done|].
  destruct (tn_request t) as [req|] eqn:Ht; [|done].
  destruct (requestPolicy _ host req) eqn:Hp; [done|]. apply outbound_relayed in Hp as [Hr Hho].
  assert (Hnow : admitted host t req) by (split; eauto).
  unfold relay. destruct (roundTrip _) as [close|d]; [destruct (negb _)|].
  - destruct (serveSession _ _ _ turns) as [outs rs]. destruct i as [|i]; cbn in *; [|apply IH].
    intros [= <-]. eauto.
  - destruct i as [|[]]; cbn; [|done..]. intros [= <-]. eauto.
  - destruct i as [|[]]; cbn; [|done..]. intros [= <-]. eauto.
Qed.

(** A turn that is refused is the last: the session relays at most the turns
    before it. *)
Lemma serveSession_stops registries host roundTrip turns i t :
  turns !! i = Some t -> (forall req, tn_request t = Some req -> requestPolicy (newRegistrySet registries) host req <> None) ->
  (length (serveSession (newRegistrySet registries) host roundTrip turns).1 <= i)%nat.
Proof.
  revert i. induction turns as [|t' turns IH]; intros i Hi Hno; cbn [serveSession]; [done|].
  destruct (tn_head t'); [|cbn; lia..]. destruct (ambiguousFraming _); [cbn; lia|].
  destruct (tn_request t') as [req|] eqn:Ht; [|cbn; lia]. destruct (requestPolicy _ host req) eqn:Hp; [cbn; lia|].
  destruct i as [|i]; [injection Hi as ->; by destruct (Hno req)|]. specialize (IH i Hi Hno).
  destruct (relay _ _ req) as [[out more] denied]. destruct more; [|cbn; lia].
  destruct (serveSession _ _ _ turns). cbn in *. lia.
Qed.

(** C24: The requests the proxy relays are those of the session's turns, in
    order: request i is the one read from turn i of a caller with the run's
    credential, inside a CONNECT to an allowlisted host on port 443.  Each of
    them, not only the first, goes to that host and no other with its own
    method, path and query, and is a read: a GET or HEAD with no body, or a
    POST of that turn's body to a path the allowlist lists for that host.  Its
    head was not ambiguously framed, its Host header names the CONNECT host,
    and it carries no hop-by-hop header and no method override.  A turn whose
    request the policy refuses relays nothing, and neither does any after it. *)
Theorem relayed_requests_are_reads resolve dial tls_ok registries s r turns roundTrip tried outs :
  sv_registries s = newRegistrySet registries ->
  serve resolve dial tls_ok r s turns roundTrip = (tried, outs) ->
  (outs <> [] -> exists h host reg,
     callerAuthorized (sv_token s) (cn_auth r) = true /\ cn_method r = bs "CONNECT" /\
     SplitHostPort (cn_host r) = Some (h, connectPort) /\ normalizeHost h = host /\
     reg ∈ registries /\ normalizeHost (reg_Host reg) = host /\
     (forall i o, outs !! i = Some o ->
        exists t req, turns !! i = Some t /\ admitted host t req /\ relayed registries host req o) /\
     (forall i t, turns !! i = Some t ->
        (forall req, tn_request t = Some req -> requestPolicy (sv_registries s) host req <> None) ->
        (length outs <= i)%nat)).
Proof.
  intros Hs. unfold serve, handleRequest, connect_answer.
  destruct (callerAuthorized _ _) eqn:Ha; [|by intros [= <- <-]]. cbn [negb].
  case_bool_decide as Hc; [|by intros [= <- <-]]. cbn [negb].
  destruct (SplitHostPort _) as [[h port]|] eqn:Hsp; [|by intros [= <- <-]].
  case_bool_decide as Hport; [|by intros [= <- <-]]. subst port. cbn [negb].
  destruct (sv_registries s !! _) as [ps|] eqn:Hreg; [|by intros [= <- <-]].
  destruct (_ <=? _)%nat; [by intros [= <- <-]|].
  destruct (dialUpstream _ _ _ _) as [tr [a|[e|]]]; [|destruct (is_policyDenial e); by intros [= <- <-]|by intros [= <- <-]].
  destruct (sv_closed s); [by intros [= <- <-]|]. intros [= <- <-] _. rewrite Hs in *.
  apply newRegistrySet_sound in Hreg as [(reg & Hin & Hn & _) _].
  exists h, (normalizeHost h), reg. split_and!; try done.
  - intros i o. apply serveSession_reads.
  - intros i t. apply serveSession_stops.
Qed.

(** ** Witnesses *)

(** A resolver that answers the metadata endpoint three ways and one public
    address. *)
Definition mixed_resolve (host : bytes) : option (list Addr) :=
  Some [V4 (quad 169 254 169 254); V6 (0xffff * 2 ^ 32 + quad 169 254 169 254) [];
        V6 (nat64_base + quad 169 254 169 254) []; V6 (nat64_base + quad 104 16 0 34) []; V4 (quad 104 16 0 34)].

Definition v4_only (a : Addr) (port : bytes) : bool := match a with V4 _ => true | _ => false end.

Lemma dial_avoids_internal_ranges_witness :
  vettedDial mixed_resolve v4_only (bs "pypi.org") connectPort =
    ([V6 (nat64_base + quad 104 16 0 34) []; V4 (quad 104 16 0 34)], Ok (V4 (quad 104 16 0 34))) /\
  ~ internal (V6 (nat64_base + quad 104 16 0 34) []).
Proof.
  assert (E : vettedDial mixed_resolve v4_only (bs "pypi.org") connectPort =
    ([V6 (nat64_base + quad 104 16 0 34) []; V4 (quad 104 16 0 34)], Ok (V4 (quad 104 16 0 34))))
    by (vm_compute; reflexivity).
  split; [exact E|]. destruct (dial_avoids_internal_ranges _ _ _ _ _ _ E) as [Hall _].
  apply (Hall _ (list_elem_of_here _ _)). intros []. reflexivity.
Defined.

Definition npm_connect : connect :=
  Conn (bs "CONNECT") (bs "Registry.NPMjs.org.:443") (bs "Basic eC1ydW46czNjcmV0").

Definition npm_server : server := New (fun _ => None) DefaultRegistries (bs "s3cret") (GH [] []) true.

Definition npm_request (method path : bytes) (len : Z) : request :=
  Req method 1 path (bs "registry.npmjs.org") {[bs "Connection" := [bs "keep-alive, X-Tmp"]; bs "X-Tmp" := [bs "1"]; bs "Accept" := [bs "*/*"]]}
      path [] [] false len [] false [].

Definition npm_head : bytes := bs "GET /left-pad HTTP/1.1" ++ [CR; LF] ++ bs "Host: registry.npmjs.org" ++ [CR; LF; CR; LF].

(** A read, an audit POST, which ends the session, and a turn never reached. *)
Definition npm_turns : list turn :=
  [Turn (peekRequestHead [take 10 npm_head; drop 10 npm_head]) (Some (npm_request (bs "GET") (bs "/left-pad") 0));
   Turn (peekRequestHead [npm_head]) (Some (npm_request (bs "POST") (bs "/-/npm/v1/security/advisories/bulk") 2));
   Turn (peekRequestHead [npm_head]) (Some (npm_request (bs "PUT") (bs "/left-pad") 2))].

Definition npm_served := serve mixed_resolve v4_only (fun _ _ => true) npm_connect npm_server npm_turns (fun _ => Answered false).

Example npm_session :
  ob_Method <$> npm_served.2 = [bs "GET"; bs "POST"] /\
  (fun o => fst <$> map_to_list (ob_Header o)) <$> npm_served.2 = [[bs "Accept"; bs "User-Agent"]; [bs "Accept"; bs "User-Agent"]] /\
  peekRequestHead [take 10 npm_head; drop 10 npm_head] = Head npm_head.
Proof. vm_compute. auto. Qed.

Lemma relayed_requests_are_reads_witness :
  ob_Method <$> npm_served.2 = [bs "GET"; bs "POST"] /\
  exists req o, npm_served.2 !! 1%nat = Some o /\ relayed DefaultRegistries (bs "registry.npmjs.org") req o.
Proof.
  split; [vm_compute; reflexivity|].
  destruct (relayed_requests_are_reads mixed_resolve v4_only (fun _ _ => true) DefaultRegistries npm_server npm_connect
    npm_turns (fun _ => Answered false) npm_served.1 npm_served.2 eq_refl (surjective_pairing npm_served)
    ltac:(vm_compute; discriminate)) as (h & host & reg & _ & _ & Hh & Hn & _ & _ & Hall & _).
  assert (Ho : exists o, npm_served.2 !! 1%nat = Some o) by (eexists; vm_compute; reflexivity).
  destruct Ho as [o Ho]. destruct (Hall _ _ Ho) as (t & req & _ & _ & Hr).
  exists req, o. split; [exact Ho|].
  assert (host = bs "registry.npmjs.org") as <-; [|exact Hr].
  rewrite <- Hn. change (SplitHostPort (cn_host npm_connect)) with (Some (bs "Registry.NPMjs.org.", connectPort)) in Hh.
  injection Hh as <-. vm_compute. reflexivity.
Defined.
