(* ===== verification/PushPolicy.v ===== *)
(** * Push policy and the git authorization decision

    Models internal/pushpolicy (which branches a run may not push, and when the
    team's policy lifts that), internal/delegate's [gitAuthorizeDecision] with
    its deny builders, cmd/exec/agenthost's [IsTaskOwnRepository] and
    internal/worktree's [PushTargetBranch].  The database rows and the files of
    a checkout they read are one environment record: a decision reads one
    snapshot of it. *)

From S2P Require Import Prelude GoBytes GitPkt GitReport GitGate.

(** ** The environment *)

Record RepoRef := Ref { rr_Host : bytes; rr_Owner : bytes; rr_Repo : bytes }.
Record repo_row := Repo { rp_ID : bytes; rp_DefaultBranch : bytes; rp_BaseBranch : bytes }.
Record worktree_row := Worktree { wt_RepositoryID : bytes; wt_Path : bytes }.
Record ConversationInfo := Info {
  ci_OrgID : bytes; ci_TeamID : bytes; ci_ConversationID : bytes; ci_IsEventTriggered : bool }.

(** Which read failed. *)
Inductive read_error :=
| NoRepoStore | RepoRead | NoTeamStore | NoTeamID | SettingsRead | HostRead | TrackedRead | LedgerRead.

(** An absent store is [None]; a read that errs is [None] inside it. *)
Record stores := Stores {
  st_Repos : option (bytes -> RepoRef -> option (option repo_row));        (* GetByRefSystem *)
  st_TeamSettings : option (bytes -> option bytes);                        (* BaseBranchPushPolicy *)
  st_TracksRepository : option (bytes -> bytes -> option bool);
  st_Worktrees : option (bytes -> bytes -> option (list worktree_row));
  st_GitHubHost : bytes -> option bytes;
  st_ConversationTask : option (bytes -> bytes -> option bytes);           (* None: no row or an error *)
  st_TaskEntity : option (bytes -> bytes -> option bytes);
  st_EntityRepository : option (bytes -> bytes -> option bytes) }.

(** A checkout on disk: its branch, and its git configuration. *)
Record checkouts := Disk {
  dk_CurrentBranch : bytes -> bytes;
  dk_config : bytes -> bytes -> option bytes;          (* --get *)
  dk_config_all : bytes -> bytes -> option bytes }.    (* --get-all, its whole output *)

(** ** pushpolicy.go *)

Definition add_branch (b : bytes) (s : gset bytes) : gset bytes := if bool_decide (b = []) then s else {[b]} ∪ s.

Definition ProtectedBranches (st : stores) (orgID : bytes) (ref : RepoRef) : res read_error (gset bytes) :=
  let out : gset bytes := {[bs "main"; bs "master"]} in
  match st_Repos st with
  | None => Err NoRepoStore
  | Some get =>
      match get orgID ref with
      | None => Err RepoRead
      | Some None => Ok out
      | Some (Some profile) => Ok (add_branch (rp_BaseBranch profile) (add_branch (rp_DefaultBranch profile) out))
      end
  end.

Definition BaseBranchPushManualOnly : bytes := bs "manual_only".
Definition BaseBranchPushAlways : bytes := bs "always".

Definition Allows (st : stores) (teamID : bytes) (eventTriggered : bool) : res read_error bool :=
  match st_TeamSettings st with
  | None => Err NoTeamStore
  | Some get =>
      if bool_decide (teamID = []) then Err NoTeamID
      else match get teamID with
           | None => Err SettingsRead
           | Some policy =>
               if bool_decide (policy = BaseBranchPushAlways) then Ok true
               else if bool_decide (policy = BaseBranchPushManualOnly) then Ok (negb eventTriggered)
               else Ok false
           end
  end.

Definition ProtectedFor (st : stores) (orgID teamID : bytes) (ref : RepoRef) (eventTriggered : bool) : res read_error (gset bytes) :=
  let? protected := ProtectedBranches st orgID ref in
  let? allowed := Allows st teamID eventTriggered in
  if (allowed : bool) then Ok ∅ else Ok protected.

(** [sort.Strings] order: bytewise. *)
Fixpoint bytes_leb (a b : bytes) : bool :=
  match a, b with
  | [], _ => true
  | _ :: _, [] => false
  | x :: a, y :: b => (bv x <? bv y) || ((bv x =? bv y) && bytes_leb a b)
  end.
Definition bytes_le (a b : bytes) : Prop := bytes_leb a b = true.

#[global] Instance bytes_le_dec a b : base.Decision (bytes_le a b).
Proof. unfold bytes_le. apply _. Defined.

Definition heads : bytes := bs "refs/heads/".

(** The set is ranged in no fixed order; sorting makes the result one. *)
Definition Refs (protected : gset bytes) : list bytes :=
  merge_sort bytes_le (map (fun b => heads ++ b) (elements protected)).

(** ** [worktree.PushTargetBranch] *)

Definition gitConfigFirst (dk : checkouts) (path : bytes) (keys : list bytes) : bytes :=
  match filter (fun v => v <> []) (map TrimSpace (omap (dk_config dk path) keys)) with
  | v :: _ => v
  | [] => []
  end.

Definition gitConfigAll (dk : checkouts) (path key : bytes) : list bytes :=
  match dk_config_all dk path key with
  | None => []
  | Some out => filter (fun l => l <> []) (map TrimSpace (Split out LF))
  end.

(** The loop over the remote's push refspecs. *)
Fixpoint refspec_loop (branch : bytes) (specs : list bytes) : bytes :=
  match specs with
  | [] => branch
  | spec :: specs =>
      let spec := TrimPrefix spec (bs "+") in
      match IndexByte spec (byte_of 58) with
      | None => refspec_loop branch specs
      | Some i =>
          let src := take i spec in
          let dst := drop (S i) spec in
          if negb (bool_decide (src = branch)) && negb (bool_decide (src = heads ++ branch)) then refspec_loop branch specs
          else match CutPrefix dst heads with
               | Some target => target
               | None => if HasPrefix dst (bs "refs/") then [] else dst
               end
      end
  end.

Definition PushTargetBranch (dk : checkouts) (path : bytes) : bytes :=
  let branch := dk_CurrentBranch dk path in
  if bool_decide (branch = []) then []
  else
    let remote := gitConfigFirst dk path
      [bs "branch." ++ branch ++ bs ".pushRemote"; bs "remote.pushDefault"; bs "branch." ++ branch ++ bs ".remote"] in
    let remote := if bool_decide (remote = []) then bs "origin" else remote in
    refspec_loop branch (gitConfigAll dk path (bs "remote." ++ remote ++ bs ".push")).

(** ** [agenthost.IsTaskOwnRepository] *)

Definition IsTaskOwnRepository (st : stores) (info : ConversationInfo) (repositoryID : bytes) : bool :=
  match st_ConversationTask st, st_TaskEntity st, st_EntityRepository st with
  | Some conv, Some task, Some entity =>
      if bool_decide (ci_ConversationID info = []) || bool_decide (repositoryID = []) then false
      else match conv (ci_OrgID info) (ci_ConversationID info) with
           | None => false
           | Some taskID =>
               if bool_decide (taskID = []) then false
               else match task (ci_OrgID info) taskID with
                    | None => false
                    | Some entityID =>
                        match entity (ci_OrgID info) entityID with
                        | None => false
                        | Some r => negb (bool_decide (r = [])) && bool_decide (r = repositoryID)
                        end
                    end
           end
  | _, _, _ => false
  end.

(** ** [gitAuthorizeDecision] *)

Definition gitDenyNotTracked (repoID : bytes) : Decision :=
  MkDecision false [] [] (bs "repo-not-tracked")
    (bs "gitproxy: repo " ++ repoID ++ bs " is not tracked by this team; a team admin must add it as a tracked repo in Settings before it can be used").

Definition gitDenyNotMaterialized (repoID : bytes) : Decision :=
  MkDecision false [] [] (bs "repo-not-materialized")
    (bs "gitproxy: repo " ++ repoID ++ bs " is tracked by this team but not yet materialized in this run; run 'workspace add " ++
     repoID ++ bs "' for its default branch, or 'workspace add " ++ repoID ++ bs " --pr <N>' to check out a pull request head, then retry").

(** The refs the run's checkouts of the repository may push. *)
Definition allowed_refs (dk : checkouts) (protected : gset bytes) (rows : list worktree_row) : list bytes :=
  omap (fun w => let branch := PushTargetBranch dk (wt_Path w) in
                 if bool_decide (branch = []) || bool_decide (branch ∈ protected) then None else Some (heads ++ branch)) rows.

Definition gitAuthorizeDecision (st : stores) (dk : checkouts) (info : ConversationInfo) (owner repo : bytes) : res read_error Decision :=
  match st_TracksRepository st, st_Worktrees st, st_Repos st with
  | Some tracks, Some ledger, Some get =>
      let repoID := owner ++ bs "/" ++ repo in
      match st_GitHubHost st (ci_OrgID info) with
      | None => Err HostRead
      | Some host =>
          let ref := Ref host owner repo in
          match get (ci_OrgID info) ref with
          | None => Err RepoRead
          | Some None => Ok (gitDenyNotTracked repoID)
          | Some (Some repoRow) =>
              match tracks (ci_TeamID info) (rp_ID repoRow) with
              | None => Err TrackedRead
              | Some false => Ok (gitDenyNotTracked repoID)
              | Some true =>
                  match ledger (ci_OrgID info) (ci_ConversationID info) with
                  | None => Err LedgerRead
                  | Some rows =>
                      let? protected := ProtectedFor st (ci_OrgID info) (ci_TeamID info) ref (ci_IsEventTriggered info) in
                      let mine := filter (fun w => wt_RepositoryID w = rp_ID repoRow) rows in
                      if bool_decide (mine = []) then
                        if IsTaskOwnRepository st info (rp_ID repoRow)
                        then Ok (MkDecision true [] (Refs protected) [] [])
                        else Ok (gitDenyNotMaterialized repoID)
                      else Ok (MkDecision true (allowed_refs dk protected mine) (Refs protected) [] [])
                  end
              end
          end
      end
  | _, _, _ => Ok (MkDecision false [] [] [] [])
  end.

(** The proxy's Authorize hook: an error is a failed check. *)
Definition authorizer (st : stores) (dk : checkouts) (info : ConversationInfo) (owner repo : bytes) : option Decision :=
  match gitAuthorizeDecision st dk info owner repo with Ok d => Some d | Err _ => None end.
