(* ===== verification/PushSpec.v ===== *)
(** * A base branch is pushed only when the team's policy says so

    Joins the authorization decision to the proxy's receive-pack gate. *)

From S2P Require Import Prelude GoBytes GitPkt GitReport GitGate GitSpec PushPolicy.

(** ** The protected set *)

Lemma elem_of_add_branch b s x : x ∈ add_branch b s <-> (x = b /\ b <> []) \/ x ∈ s.
Proof. unfold add_branch. case_bool_decide as Hb; [|set_solver]. split; [auto|]. intros [[_ ?]|?]; done. Qed.

(** The branches a repository protects before the policy speaks. *)
Definition base_branch (row : repo_row) (b : bytes) : Prop :=
  b = bs "main" \/ b = bs "master" \/ (b <> [] /\ (b = rp_DefaultBranch row \/ b = rp_BaseBranch row)).

Lemma ProtectedBranches_spec st get org ref row s b :
  st_Repos st = Some get -> get org ref = Some (Some row) -> ProtectedBranches st org ref = Ok s ->
  b ∈ s <-> base_branch row b.
Proof.
  intros Hg Hr. unfold ProtectedBranches. rewrite Hg, Hr. intros [= <-]. rewrite !elem_of_add_branch.
  unfold base_branch. rewrite elem_of_union, !elem_of_singleton. naive_solver.
Qed.

(** The policy permits this run to push a base branch. *)
Definition policy_permits (st : stores) (info : ConversationInfo) : Prop :=
  exists get policy, st_TeamSettings st = Some get /\ get (ci_TeamID info) = Some policy /\
    (policy = BaseBranchPushAlways \/ (policy = BaseBranchPushManualOnly /\ ci_IsEventTriggered info = false)).

Lemma Allows_true st info :
  Allows st (ci_TeamID info) (ci_IsEventTriggered info) = Ok true -> policy_permits st info.
Proof.
  unfold Allows. destruct (st_TeamSettings st) as [get|] eqn:Hg; [|done]. case_bool_decide; [done|].
  destruct (get _) as [policy|] eqn:Hp; [|done]. intros H'. exists get, policy. split_and!; [done|done|].
  case_bool_decide; [by left|]. case_bool_decide; [|done]. right. split; [done|].
  by destruct (ci_IsEventTriggered info).
Qed.

Lemma ProtectedFor_spec st info ref s :
  ProtectedFor st (ci_OrgID info) (ci_TeamID info) ref (ci_IsEventTriggered info) = Ok s ->
  policy_permits st info \/ ProtectedBranches st (ci_OrgID info) ref = Ok s.
Proof.
  unfold ProtectedFor, res_bind. destruct (ProtectedBranches _ _ _) as [p|]; [|done].
  destruct (Allows _ _ _) as [[]|] eqn:Ha; [|by intros [= <-]; right|done]. intros _. left. by apply Allows_true.
Qed.

(** ** The rendered refs *)

#[global] Instance bytes_le_total : Total bytes_le.
Proof.
  intros a. unfold bytes_le. induction a as [|x a IH]; intros [|y b]; cbn; auto.
  destruct (IH b) as [H|H]; destruct (Z.ltb_spec (bv x) (bv y)), (Z.ltb_spec (bv y) (bv x)), (Z.eqb_spec (bv x) (bv y)),
    (Z.eqb_spec (bv y) (bv x)); cbn; auto; lia.
Qed.

Lemma Refs_spec s :
  Sorted bytes_le (Refs s) /\ NoDup (Refs s) /\ forall r, r ∈ Refs s <-> exists b, r = heads ++ b /\ b ∈ s.
Proof.
  unfold Refs. split_and!; [apply (Sorted_merge_sort _)| |].
  - rewrite merge_sort_Permutation. apply NoDup_fmap; [|apply NoDup_elements]. by intros x y ?%app_inv_head.
  - intros r. rewrite merge_sort_Permutation. rewrite list_elem_of_fmap. by setoid_rewrite elem_of_elements.
Qed.

(** ** The decision *)

Lemma allowed_refs_spec dk protected rows r :
  r ∈ allowed_refs dk protected rows <->
  exists w, w ∈ rows /\ r = heads ++ PushTargetBranch dk (wt_Path w) /\
    PushTargetBranch dk (wt_Path w) <> [] /\ PushTargetBranch dk (wt_Path w) ∉ protected.
Proof.
  unfold allowed_refs. rewrite list_elem_of_omap. cbv zeta. split.
  - intros (w & Hw & Hr). exists w. case_bool_decide; [done|]. case_bool_decide; [done|]. cbn in Hr. by injection Hr as <-.
  - intros (w & Hw & -> & H1 & H2). exists w. split; [done|]. by rewrite !bool_decide_false.
Qed.

(** What a run may push of a repository: the branch one of its own checkouts
    pushes to, and a base branch only under the policy. *)
Definition run_may_push (st : stores) (dk : checkouts) (info : ConversationInfo) (owner repo ref : bytes) : Prop :=
  exists get host row ledger rows w,
    st_Repos st = Some get /\ st_GitHubHost st (ci_OrgID info) = Some host /\
    get (ci_OrgID info) (Ref host owner repo) = Some (Some row) /\
    st_Worktrees st = Some ledger /\ ledger (ci_OrgID info) (ci_ConversationID info) = Some rows /\
    w ∈ rows /\ wt_RepositoryID w = rp_ID row /\ ref = heads ++ PushTargetBranch dk (wt_Path w) /\
    (policy_permits st info \/ ~ base_branch row (PushTargetBranch dk (wt_Path w))).

(** What a decision that allows a ref has established. *)
Lemma decision_allows st dk info owner repo d r :
  gitAuthorizeDecision st dk info owner repo = Ok d -> r ∈ d_AllowedRefs d -> run_may_push st dk info owner repo r.
Proof.
  unfold gitAuthorizeDecision. destruct (st_TracksRepository st) as [tracks|]; [|by intros [= <-] ?%elem_of_nil].
  destruct (st_Worktrees st) as [ledger|] eqn:Hl; [|by intros [= <-] ?%elem_of_nil].
  destruct (st_Repos st) as [get|] eqn:Hg; [|by intros [= <-] ?%elem_of_nil].
  destruct (st_GitHubHost st _) as [host|] eqn:Hh; [|done].
  destruct (get _ _) as [[row|]|] eqn:Hr; [|by intros [= <-] ?%elem_of_nil|done].
  destruct (tracks _ _) as [[]|]; [|by intros [= <-] ?%elem_of_nil|done].
  destruct (ledger _ _) as [rows|] eqn:Hrows; [|done]. unfold res_bind.
  destruct (ProtectedFor _ _ _ _ _) as [protected|] eqn:Hp; [|done].
  case_bool_decide; [destruct (IsTaskOwnRepository _ _ _); by intros [= <-] ?%elem_of_nil|].
  intros [= <-] (w & Hw & -> & Hne & Hnp)%allowed_refs_spec. apply list_elem_of_filter in Hw as [Hid Hw].
  exists get, host, row, ledger, rows, w. split_and!; try done.
  destruct (ProtectedFor_spec _ _ _ _ Hp) as [?|Hb]; [by left|right].
  by rewrite <- (ProtectedBranches_spec _ _ _ _ _ _ _ Hg Hr Hb).
Qed.

(** The decision keeps the promise the proxy asks for. *)
#[global] Instance authorizer_policy st dk info : RefPolicy (authorizer st dk info) (run_may_push st dk info).
Proof.
  intros owner repo d ref Hd Hr. unfold authorizer in Hd.
  destruct (gitAuthorizeDecision st dk info owner repo) as [d'|] eqn:Hd'; [|done]. injection Hd as ->.
  by eapply decision_allows.
Qed.

(** C12: When the proxy's authorization is the run's git decision, a push it
    forwards updates, with every white-space-free protocol command, the
    branch one of the run's own checkouts of that repository pushes to; and
    that branch is main, master, the default or the base branch only if the
    team's policy is always, or manual_only and a human started the run. *)
Theorem base_branch_push_needs_policy cfg upstream alive st dk info miss now r cache owner repo f :
  cfg_Authorize cfg = Some (authorizer st dk info) ->
  parseGitPath (rq_method r) (rq_path r) = Some (owner, repo, gitOpPush) ->
  o_forwarded (handle cfg upstream alive miss now r cache) = Some f ->
  exists ps block rest, rq_body r = block ++ rest /\ framed ps block /\ fw_body f = rq_body r /\
    forall line old new ref, line ∈ ps -> protocol_command line old new ref ->
      solid old -> solid new -> solid ref -> run_may_push st dk info owner repo ref.
Proof. apply (forwarded_refs_promised cfg upstream alive). Qed.

(** ** A concrete run *)

Definition ex_row : repo_row := Repo (bs "r1") (bs "trunk") (bs "release").
Definition ex_stores (policy : bytes) : stores :=
  Stores (Some (fun _ ref => if bool_decide (rr_Owner ref = bs "acme") && bool_decide (rr_Repo ref = bs "app") then Some (Some ex_row) else Some None))
    (Some (fun _ => Some policy)) (Some (fun _ _ => Some true))
    (Some (fun _ _ => Some [Worktree (bs "r1") (bs "/w/1"); Worktree (bs "r1") (bs "/w/2"); Worktree (bs "r2") (bs "/w/3")]))
    (fun _ => Some (bs "github.com")) None None None.

(** One checkout on a PR branch that pushes to feature, one on trunk. *)
Definition ex_disk : checkouts :=
  Disk (fun p => if bool_decide (p = bs "/w/1") then bs "triagefactory/k/pr-7" else bs "trunk")
    (fun _ _ => None)
    (fun p k => if bool_decide (p = bs "/w/1") && bool_decide (k = bs "remote.origin.push")
                then Some (bs "+refs/heads/triagefactory/k/pr-7:refs/heads/feature" ++ [LF]) else None).

Definition ex_info : ConversationInfo := Info (bs "o1") (bs "t1") (bs "c1") true.

Example manual_only_keeps_event_runs_off :
  (d_AllowedRefs <$> authorizer (ex_stores BaseBranchPushManualOnly) ex_disk ex_info (bs "acme") (bs "app")) = Some [ex_feature] /\
  (d_AllowedRefs <$> authorizer (ex_stores BaseBranchPushAlways) ex_disk ex_info (bs "acme") (bs "app")) = Some [ex_feature; bs "refs/heads/trunk"].
Proof. vm_compute. auto. Qed.

Definition ex_run_cfg : config :=
  Config (bs "run-secret") true (fun _ _ => Some ex_token) (Some (authorizer (ex_stores BaseBranchPushManualOnly) ex_disk ex_info)).

Lemma base_branch_push_needs_policy_witness :
  exists f ps block rest, o_forwarded (handle ex_run_cfg ex_upstream always ex_miss 0 (ex_push ex_feature) no_tokens) = Some f /\
    rq_body (ex_push ex_feature) = block ++ rest /\ framed ps block.
Proof.
  destruct (o_forwarded (handle ex_run_cfg ex_upstream always ex_miss 0 (ex_push ex_feature) no_tokens)) as [f|] eqn:E; [|by vm_compute in E].
  destruct (base_branch_push_needs_policy ex_run_cfg ex_upstream always (ex_stores BaseBranchPushManualOnly) ex_disk ex_info
    ex_miss 0 (ex_push ex_feature) no_tokens (bs "acme") (bs "app") f) as (ps & block & rest & Hb & Hf & _).
  - reflexivity.
  - by vm_compute.
  - exact E.
  - exists f, ps, block, rest. split_and!; [done|exact Hb|exact Hf].
Defined.
