(* ===== verification/TtlCache.v ===== *)
(** * TTL cache

    Models internal/ttlcache: one value per key for a fixed time, and a
    generation per key so that a load begun before a [Forget] keeps nothing.
    [Get]'s load is not atomic: it begins, the upstream answers later, and
    [Forget]s of the key may fall in between.  Which callers share a load is
    the business of golang.org/x/sync/singleflight and is left open: any number
    of loads of a key may be in flight here. *)

From S2P Require Import Prelude.

Section Cache.
Context {V : Type} (ttl : Z).

Record entry := Entry { e_value : V; e_expires : Z }.

(** [gens] are [uint64] counters; an absent key reads as zero. *)
Record Cache := C { c_entries : gmap string entry; c_gens : gmap string Z }.

Definition New : Cache := C ∅ ∅.

Definition generation (c : Cache) (key : string) : Z := default 0 (c_gens c !! key).

Definition lookup (c : Cache) (now : Z) (key : string) : option V :=
  match c_entries c !! key with
  | Some e => if now <? e_expires e then Some (e_value e) else None
  | None => None
  end.

Definition store (c : Cache) (now : Z) (key : string) (gen : Z) (v : V) : Cache :=
  if negb (generation c key =? gen) then c
  else C (<[key := Entry v (now + ttl)]> (filter (fun kv => now < e_expires kv.2) (c_entries c))) (c_gens c).

Definition Forget (c : Cache) (key : string) : Cache :=
  C (delete key (c_entries c)) (<[key := (generation c key + 1) mod 2 ^ 64]> (c_gens c)).

(** ** Runs *)

(** A load's answer: the value and whether it may be kept, or an error. *)
Inductive event :=
| Begin (id : nat) (key : string)              (* [Get] misses and its load begins *)
| Finish (id : nat) (answer : option (V * bool)) (at_ : Z)
| Forgot (key : string).

(** The cache and the loads in flight: key and generation read at the start. *)
Record state := S_ { s_cache : Cache; s_loads : gmap nat (string * Z) }.

(** The part of [Get] a load's return runs. *)
Definition loaded (c : Cache) (now : Z) (key : string) (gen : Z) (answer : option (V * bool)) : Cache :=
  match answer with
  | Some (v, true) => store c now key gen v
  | _ => c
  end.

Definition step (s : state) (e : event) : state :=
  match e with
  | Begin id key => S_ (s_cache s) (<[id := (key, generation (s_cache s) key)]> (s_loads s))
  | Finish id answer now =>
      match s_loads s !! id with
      | Some (key, gen) => S_ (loaded (s_cache s) now key gen answer) (delete id (s_loads s))
      | None => s
      end
  | Forgot key => S_ (Forget (s_cache s) key) (s_loads s)
  end.

Definition run (es : list event) : state := fold_left step es (S_ New ∅).

(** ** What a run shows of an entry *)

Definition forgets (key : string) (es : list event) : nat :=
  length (List.filter (fun e => match e with Forgot k => bool_decide (k = key) | _ => false end) es).

(** The entry was kept by a load of the key that finished with it, and no
    [Forget] of the key came after the load began. *)
Definition fresh_load (es : list event) (key : string) (e : entry) : Prop :=
  exists e1 e2 e3 id now, es = e1 ++ Begin id key :: e2 ++ Finish id (Some (e_value e, true)) now :: e3 /\
    forgets key (e2 ++ e3) = 0%nat /\ e_expires e = now + ttl.

(** A load in flight began somewhere, with the generation of that moment. *)
Definition begun (es : list event) (id : nat) (key : string) (gen : Z) : Prop :=
  exists e1 e2, es = e1 ++ Begin id key :: e2 /\ gen = Z.of_nat (forgets key e1) mod 2 ^ 64.

Lemma forgets_app key l l' : forgets key (l ++ l') = (forgets key l + forgets key l')%nat.
Proof. unfold forgets. by rewrite List.filter_app, length_app. Qed.

Lemma run_snoc es e : run (es ++ [e]) = step (run es) e.
Proof. unfold run. by rewrite fold_left_app. Qed.

Lemma gens_count es key : generation (s_cache (run es)) key = Z.of_nat (forgets key es) mod 2 ^ 64.
Proof.
  induction es as [|e es IH] using rev_ind; [done|]. rewrite run_snoc, forgets_app.
  set (s := run es) in *. destruct e as [id k|id answer now|k]; cbn [step forgets List.filter length].
  - by rewrite Nat.add_0_r.
  - rewrite Nat.add_0_r. destruct (s_loads s !! id) as [[k gen]|]; [|done]. cbn [s_cache]. unfold loaded.
    destruct answer as [[v []]|]; [|done..]. unfold store. by destruct (negb _).
  - cbn [s_cache]. unfold Forget, generation. cbn [c_gens]. case_bool_decide as Hk; cbn [length].
    + subst k. rewrite lookup_insert_eq. cbn. unfold generation in IH. rewrite IH.
      rewrite Nat2Z.inj_add, Z.add_mod_idemp_l by done. done.
    + rewrite lookup_insert_ne by done. rewrite Nat.add_0_r. exact IH.
Qed.

Lemma begun_snoc es e id key gen : begun es id key gen -> begun (es ++ [e]) id key gen.
Proof. intros (e1 & e2 & -> & ->). exists e1, (e2 ++ [e]). by rewrite <- app_assoc. Qed.

Lemma loads_begun es id key gen : s_loads (run es) !! id = Some (key, gen) -> begun es id key gen.
Proof.
  induction es as [|e es IH] using rev_ind; [done|]. rewrite run_snoc. intros H.
  destruct e as [id' k|id' answer now|k]; cbn [step] in H.
  - cbn [s_loads] in H. apply lookup_insert_Some in H as [[-> [= -> <-]]|[_ H]]; [|by apply begun_snoc, IH].
    exists es, []. by rewrite gens_count.
  - destruct (s_loads (run es) !! id') as [[k g]|]; [|by apply begun_snoc, IH]. cbn [s_loads] in H.
    apply lookup_delete_Some in H as [_ H]. by apply begun_snoc, IH.
  - by apply begun_snoc, IH.
Qed.

Lemma fresh_snoc es e key x :
  fresh_load es key x -> (forall k, e = Forgot k -> k <> key) -> fresh_load (es ++ [e]) key x.
Proof.
  intros (e1 & e2 & e3 & id & now & -> & Hf & He) Hk. exists e1, e2, (e3 ++ [e]), id, now. split_and!; [|..].
  - by rewrite <- !app_assoc, !app_comm_cons, <- !app_assoc.
  - rewrite app_assoc, forgets_app, Hf. destruct e as [| |k]; try done. cbn. case_bool_decide as Ek; [|done].
    by destruct (Hk k eq_refl).
  - done.
Qed.

(** Fewer than 2^64 [Forget]s of a key fit between a load's begin and its
    end, so equal generations mean none. *)
Lemma same_generation a b :
  (Z.of_nat a + Z.of_nat b < 2 ^ 64) -> Z.of_nat (a + b) mod 2 ^ 64 = Z.of_nat a mod 2 ^ 64 -> b = 0%nat.
Proof. intros H. rewrite !Z.mod_small by lia. lia. Qed.

Lemma entries_fresh es key x :
  Z.of_nat (forgets key es) < 2 ^ 64 -> c_entries (s_cache (run es)) !! key = Some x -> fresh_load es key x.
Proof.
  induction es as [|e es IH] using rev_ind; [done|]. rewrite run_snoc, forgets_app. intros Hb H.
  destruct e as [id k|id answer now|k]; cbn [step] in H.
  - apply fresh_snoc; [apply IH; [lia|done]|done].
  - assert (Hkeep : c_entries (s_cache (run es)) !! key = Some x -> fresh_load (es ++ [Finish id answer now]) key x)
      by (intros Hx; apply fresh_snoc; [apply IH; [lia|done]|done]).
    destruct (s_loads (run es) !! id) as [[k gen]|] eqn:Hl; [|auto]. cbn [s_cache] in H. unfold loaded in H.
    destruct answer as [[v []]|]; [|auto..]. unfold store in H.
    destruct (Z.eqb_spec (generation (s_cache (run es)) k) gen) as [Hg|]; [|auto]. cbn [negb c_entries] in H.
    apply lookup_insert_Some in H as [[-> <-]|[_ H]]; [|by apply map_lookup_filter_Some in H as [? _]; auto].
    destruct (loads_begun _ _ _ _ Hl) as (e1 & e2 & -> & ->).
    exists e1, e2, [], id, now. split_and!; [by rewrite <- app_assoc| |done]. rewrite gens_count in Hg.
    rewrite !forgets_app in Hg. rewrite app_nil_r. apply (same_generation (forgets key e1)); [|exact Hg].
    rewrite forgets_app in Hb. change (forgets key (Begin id key :: e2)) with (forgets key e2) in Hb. lia.
  - cbn [s_cache] in H. unfold Forget in H. cbn [c_entries] in H. apply lookup_delete_Some in H as [Hne H].
    apply fresh_snoc; [apply IH; [lia|done]|]. by intros k' [= <-].
Qed.

(** A value the cache answers with was loaded for that key by a load
    that began after the key's last [Forget], said it may be kept and did
    not fail, and finished less than one TTL ago: a write that calls
    [Forget] is seen by every read after it, whatever loads were in flight.
    And storing leaves no entry past its time. *)
Theorem cached_value_is_fresh es now key v :
  Z.of_nat (forgets key es) < 2 ^ 64 -> lookup (s_cache (run es)) now key = Some v ->
  (exists e1 e2 e3 id at_, es = e1 ++ Begin id key :: e2 ++ Finish id (Some (v, true)) at_ :: e3 /\
     forgets key (e2 ++ e3) = 0%nat /\ now < at_ + ttl) /\
  (forall gen w k x, generation (s_cache (run es)) key = gen -> 0 < ttl ->
     c_entries (store (s_cache (run es)) now key gen w) !! k = Some x -> now < e_expires x).
Proof.
  intros Hb Hv. split.
  - unfold lookup in Hv. destruct (c_entries _ !! key) as [x|] eqn:Hx; [|done].
    destruct (Z.ltb_spec now (e_expires x)); [|done]. injection Hv as <-.
    destruct (entries_fresh _ _ _ Hb Hx) as (e1 & e2 & e3 & id & at_ & ? & ? & ?).
    exists e1, e2, e3, id, at_. split_and!; [done|done|lia].
  - intros gen w k x <- Ht. unfold store. rewrite Z.eqb_refl. cbn [negb c_entries].
    intros [[_ <-]|[_ H]]%lookup_insert_Some; [cbn; lia|]. by apply map_lookup_filter_Some in H as [_ ?].
Qed.
End Cache.

(** ** Witness: a load overtaken by a [Forget] keeps nothing, the next one does *)

Definition overtaken : list (event (V := Z)) :=
  [Begin 0 "k"; Forgot "k"; Begin 1 "k"; Finish 0 (Some (1, true)) 10; Finish 1 (Some (2, true)) 11]%string.

Example overtaken_load_keeps_nothing :
  lookup (s_cache (run 60 (take 4 overtaken))) 12 "k" = None /\ lookup (s_cache (run 60 overtaken)) 12 "k" = Some 2.
Proof. vm_compute. auto. Qed.

Lemma cached_value_is_fresh_witness :
  exists e1 e2 e3 id at_, overtaken = e1 ++ Begin id "k" :: e2 ++ Finish id (Some (2, true)) at_ :: e3 /\
    forgets "k" (e2 ++ e3) = 0%nat /\ 12 < at_ + 60.
Proof. refine (proj1 (cached_value_is_fresh 60 overtaken 12 "k" 2 _ _)); vm_compute; reflexivity. Defined.
