(* ===== verification/GhLex.v ===== *)
(** * GraphQL tokens: the scanner of ghwrite/gqldoc.go

    The gh write gate reads GraphQL documents an agent composed.  This file
    models its tokenizer: [gqlScanner] with [next] and [peek], white space and
    comments, names, numbers, punctuators and both kinds of string.

    The scanner's [src] and [pos] are kept as the unread part of the source,
    [sc_rest]; [held] and [holding] are [sc_held].  Scanner-threading code is
    written in the small monad [P]: a computation ends with a value and the
    scanner it left, refuses the document, or runs out of fuel. *)

From S2P Require Import Prelude GoBytes.

Module Gql.

#[local] Open Scope char_scope.

Inductive gqlKind := gqlKindName | gqlKindPunct | gqlKindValue.

#[export] Instance gqlKind_eq_dec : EqDecision gqlKind.
Proof. solve_decision. Defined.

Record gqlToken := Tok { kind : gqlKind; text : bytes }.

#[export] Instance gqlToken_eq_dec : EqDecision gqlToken.
Proof. solve_decision. Defined.

(** Go's zero [gqlToken]: an empty name. *)
Definition zeroToken : gqlToken := Tok gqlKindName [].

Definition punct (t : gqlToken) (s : bytes) : bool :=
  bool_decide (kind t = gqlKindPunct) && bool_decide (text t = s).
Definition name (t : gqlToken) (s : bytes) : bool :=
  bool_decide (kind t = gqlKindName) && bool_decide (text t = s).
Definition isName (t : gqlToken) : bool := bool_decide (kind t = gqlKindName).

Record gqlScanner := Sc {
  sc_rest : bytes;
  sc_bad : bool;
  sc_held : option gqlToken
}.

(** [&gqlScanner{src: doc}]. *)
Definition newScanner (doc : bytes) : gqlScanner := Sc doc false None.

(** ** Character classes *)

Definition between (lo hi c : ascii) : bool := (bv lo <=? bv c)%Z && (bv c <=? bv hi)%Z.

Definition isNameStart (c : ascii) : bool :=
  bool_decide (c = "_") || between "a" "z" c || between "A" "Z" c.
Definition isNameContinue (c : ascii) : bool := isNameStart c || between "0" "9" c.
Definition isNumberContinue (c : ascii) : bool :=
  between "0" "9" c || bool_decide (c = ".") || bool_decide (c = "e") ||
  bool_decide (c = "E") || bool_decide (c = "+") || bool_decide (c = "-").

Definition gqlPunctuators : bytes := bs "!$&():=@[]{|}".
Definition isPunctuator (c : ascii) : bool := bool_decide (c ∈ gqlPunctuators).

Definition BACKSLASH : ascii := byte_of 92.
Definition QUOTE : ascii := byte_of 34.
Definition TAB : ascii := byte_of 9.
Definition quotes3 : bytes := [QUOTE; QUOTE; QUOTE].

(** [gqlByteOrderMark]: U+FEFF in UTF-8. *)
Definition gqlByteOrderMark : bytes := [byte_of 239; byte_of 187; byte_of 191].

(** ** Scanning *)

Definition isBlank (c : ascii) : bool :=
  bool_decide (c = SP) || bool_decide (c = TAB) || bool_decide (c = LF) ||
  bool_decide (c = CR) || bool_decide (c = ",").

(** [skipIgnored].  [comment] is true inside the inner loop of the [#] case,
    which stops before the LF that the outer loop then skips. *)
Fixpoint skipIgnored (comment : bool) (s : bytes) : bytes :=
  match s with
  | [] => []
  | c :: r =>
      if comment then skipIgnored (negb (bool_decide (c = LF))) r
      else if isBlank c then skipIgnored false r
      else if bool_decide (c = "#") then skipIgnored true r
      else match r with
           | c1 :: c2 :: r' =>
               if bool_decide ([c; c1; c2] = gqlByteOrderMark) then skipIgnored false r' else s
           | _ => s
           end
  end.

(** The block-string loop of [scanString]: [Some] is what follows the closing
    quotes.  A backslash skips the next byte. *)
Fixpoint blockEnd (s : bytes) : option bytes :=
  match s with
  | [] => None
  | c :: r =>
      if (length s <? 3)%nat then None
      else if bool_decide (c = BACKSLASH) then
        match r with [] => None | _ :: r' => blockEnd r' end
      else if HasPrefix s quotes3 then Some (drop 3 s)
      else blockEnd r
  end.

(** The single-line loop of [scanString]. *)
Fixpoint lineEnd (s : bytes) : option bytes :=
  match s with
  | [] => None
  | c :: r =>
      if bool_decide (c = BACKSLASH) then
        match r with [] => None | _ :: r' => lineEnd r' end
      else if bool_decide (c = LF) then None
      else if bool_decide (c = QUOTE) then Some r
      else lineEnd r
  end.

(** The longest prefix whose bytes satisfy [f], and the rest. *)
Fixpoint spanWhile (f : ascii -> bool) (s : bytes) : bytes * bytes :=
  match s with
  | [] => ([], [])
  | c :: r => if f c then let '(a, b) := spanWhile f r in (c :: a, b) else ([], s)
  end.

(** [scanString] at a quote: the token and the rest, or a bad scan. *)
Definition scanString (s : bytes) : option (gqlToken * bytes) :=
  match (if HasPrefix s quotes3 then blockEnd (drop 3 s) else lineEnd (drop 1 s)) with
  | Some r => Some (Tok gqlKindValue [], r)
  | None => None
  end.

(** [scan] from a position that is not ignored: the token and the rest, or
    [None] for a byte or string the scanner reports as bad. *)
Definition scanAt (s : bytes) : option (gqlToken * bytes) :=
  match s with
  | [] => None
  | c :: r =>
      if HasPrefix s (bs "...") then Some (Tok gqlKindPunct (bs "..."), drop 3 s)
      else if isPunctuator c then Some (Tok gqlKindPunct [c], r)
      else if bool_decide (c = QUOTE) then scanString s
      else if isNameStart c then
        let '(w, r') := spanWhile isNameContinue s in Some (Tok gqlKindName w, r')
      else if bool_decide (c = "-") || between "0" "9" c then
        Some (Tok gqlKindValue [], snd (spanWhile isNumberContinue r))
      else None
  end.

(** [scan]: skip what is ignored, then read one token.  At the end of the
    source there is no token and [bad] keeps its value. *)
Definition scan (sc : gqlScanner) : option gqlToken * gqlScanner :=
  let s := skipIgnored false (sc_rest sc) in
  match s with
  | [] => (None, Sc [] (sc_bad sc) (sc_held sc))
  | _ => match scanAt s with
         | Some (t, r) => (Some t, Sc r (sc_bad sc) (sc_held sc))
         | None => (None, Sc s true (sc_held sc))
         end
  end.

(** ** The parser monad *)

Inductive pres (A : Type) : Type :=
| Done (a : A) (sc : gqlScanner)
| Refuse
| OutOfFuel.
Arguments Done {A} a sc.
Arguments Refuse {A}.
Arguments OutOfFuel {A}.

Definition P (A : Type) : Type := gqlScanner -> pres A.
Definition ret {A} (a : A) : P A := fun sc => Done a sc.
Definition reject {A} : P A := fun _ => Refuse.
Definition bind {A B} (m : P A) (k : A -> P B) : P B := fun sc =>
  match m sc with Done a sc' => k a sc' | Refuse => Refuse | OutOfFuel => OutOfFuel end.

Declare Scope gql_scope.
Notation "x <- m ;; k" := (bind m (fun x => k)) (at level 100, m at next level, right associativity) : gql_scope.
Notation "m ;; k" := (bind m (fun _ => k)) (at level 100, right associativity) : gql_scope.
#[local] Open Scope gql_scope.

(** The number of tokens left is at most this: every loop's fuel. *)
Definition size (sc : gqlScanner) : nat :=
  length (sc_rest sc) + match sc_held sc with Some _ => 1 | None => 0 end.

(** A loop given the fuel its scanner's size allows. *)
Definition fueled {A} (loop : nat -> P A) : P A := fun sc => loop (S (size sc)) sc.

Definition next : P (option gqlToken) := fun sc =>
  match sc_held sc with
  | Some t => Done (Some t) (Sc (sc_rest sc) (sc_bad sc) None)
  | None => let '(t, sc') := scan sc in Done t sc'
  end.

Definition peek : P (option gqlToken) := fun sc =>
  match sc_held sc with
  | Some t => Done (Some t) sc
  | None =>
      match scan sc with
      | (None, sc') => Done None sc'
      | (Some t, sc') => Done (Some t) (Sc (sc_rest sc') (sc_bad sc') (Some t))
      end
  end.

(** [tok, ok := peek(); ok && f tok]. *)
Definition peekIs (f : gqlToken -> bool) : P bool :=
  t <- peek ;; ret (match t with Some t => f t | None => false end).

(** The loop of [skipBalanced] at nesting [depth]. *)
Fixpoint skipBalanced_loop (o c : bytes) (depth : Z) (n : nat) : P unit :=
  match n with
  | O => fun _ => OutOfFuel
  | S n =>
      t <- next ;;
      match t with
      | None => reject
      | Some t =>
          if negb (bool_decide (kind t = gqlKindPunct)) then skipBalanced_loop o c depth n
          else if bool_decide (text t = o) then skipBalanced_loop o c (depth + 1) n
          else if bool_decide (text t = c) then
            if (depth - 1 =? 0)%Z then ret tt else skipBalanced_loop o c (depth - 1) n
          else skipBalanced_loop o c depth n
      end
  end.

Definition skipBalanced (o c : bytes) : P unit := fueled (skipBalanced_loop o c 1).

(** ** The name scans: [documentNames], [documentReferencesVariable],
    [documentAliasesOnto].  [None] is exhausted fuel. *)

Fixpoint documentNames_loop (nm : bytes) (n : nat) (sc : gqlScanner) : option bool :=
  match n with
  | O => None
  | S n =>
      match next sc with
      | Done None sc' => Some (sc_bad sc')
      | Done (Some t) sc' => if name t nm then Some true else documentNames_loop nm n sc'
      | _ => None
      end
  end.
Definition documentNames (doc nm : bytes) : option bool :=
  documentNames_loop nm (S (length doc)) (newScanner doc).

Fixpoint documentReferencesVariable_loop (nm : bytes) (prev : gqlToken) (n : nat) (sc : gqlScanner) : option bool :=
  match n with
  | O => None
  | S n =>
      match next sc with
      | Done None sc' => Some false
      | Done (Some t) sc' =>
          if punct prev (bs "$") && name t nm then Some true
          else documentReferencesVariable_loop nm t n sc'
      | _ => None
      end
  end.
Definition documentReferencesVariable (doc nm : bytes) : option bool :=
  documentReferencesVariable_loop nm zeroToken (S (length doc)) (newScanner doc).

Fixpoint documentAliasesOnto_loop (names : list bytes) (w0 w1 w2 w3 : gqlToken) (n : nat) (sc : gqlScanner) : option bool :=
  match n with
  | O => None
  | S n =>
      match next sc with
      | Done None sc' => Some (sc_bad sc')
      | Done (Some t) sc' =>
          let '(w0, w1, w2, w3) := (w1, w2, w3, t) in
          if isName w1 && bool_decide (text w1 ∈ names) && punct w2 (bs ":") && isName w3 && negb (punct w0 (bs "$"))
          then Some true
          else documentAliasesOnto_loop names w0 w1 w2 w3 n sc'
      | _ => None
      end
  end.
Definition documentAliasesOnto (doc : bytes) (names : list bytes) : option bool :=
  documentAliasesOnto_loop names zeroToken zeroToken zeroToken zeroToken (S (length doc)) (newScanner doc).

End Gql.

(** * Facts about the GraphQL scanner

    Reading a token shortens the unread source, so every loop over tokens
    terminates; a failed read stays failed; and a scanner has exactly one token
    stream, its [view].  [wp] and [safe] are the two program logics the parser's
    proofs use: [wp] for a run that completes with a known result, [safe] for
    every run whatever the document. *)


Import Gql.

Module GqlFacts.

(** ** The scanner consumes *)

Lemma length_ind (Q : bytes -> Prop) :
  (forall s, (forall r, (length r < length s)%nat -> Q r) -> Q s) -> forall s, Q s.
Proof.
  intros H s. remember (length s) as n eqn:E. revert s E.
  induction n as [n IH] using lt_wf_ind. intros s ->. apply H.
  intros r Hr. by apply (IH (length r)).
Qed.

Lemma skipIgnored_length s : forall b, (length (skipIgnored b s) <= length s)%nat.
Proof.
  induction s as [s IH] using length_ind. intros b.
  destruct s as [|c r]; [done|]. cbn [skipIgnored].
  assert (Hr : forall b, (length (skipIgnored b r) <= length (c :: r))%nat)
    by (intros b'; specialize (IH r ltac:(simpl; lia) b'); simpl; lia).
  destruct b; [apply Hr|]. destruct (isBlank c); [apply Hr|].
  case_bool_decide; [apply Hr|].
  destruct r as [|c1 [|c2 r']]; try (simpl; lia).
  case_bool_decide; [|lia]. specialize (IH r' ltac:(simpl; lia) false). simpl in *; lia.
Qed.

Lemma skipIgnored_idem s : forall b, skipIgnored false (skipIgnored b s) = skipIgnored b s.
Proof.
  induction s as [s IH] using length_ind. intros b.
  destruct s as [|c r]; [done|]. cbn [skipIgnored].
  assert (Hr : forall b, skipIgnored false (skipIgnored b r) = skipIgnored b r)
    by (intros b'; apply IH; simpl; lia).
  destruct b; [apply Hr|]. destruct (isBlank c) eqn:Hb; [apply Hr|].
  destruct (bool_decide (c = "#"%char)) eqn:Hc; [apply Hr|].
  destruct r as [|c1 [|c2 r']]; [by cbn; rewrite Hb, Hc..|].
  destruct (bool_decide ([c; c1; c2] = gqlByteOrderMark)) eqn:Hbom.
  - apply IH. simpl; lia.
  - cbn [skipIgnored]. by rewrite Hb, Hc, Hbom.
Qed.

Lemma blockEnd_length s : forall r, blockEnd s = Some r -> (length r < length s)%nat.
Proof.
  induction s as [s IH] using length_ind. intros r.
  destruct s as [|c t]; [done|]. cbn [blockEnd].
  destruct (length (c :: t) <? 3)%nat eqn:Hl; [done|].
  apply Nat.ltb_ge in Hl. case_bool_decide.
  - destruct t as [|d t]; [done|]. intros Hr. apply IH in Hr; simpl in *; lia.
  - destruct (HasPrefix _ _).
    + intros [= <-]. rewrite length_drop. cbn [length] in *. lia.
    + intros Hr. apply IH in Hr; simpl in *; lia.
Qed.

Lemma lineEnd_length s : forall r, lineEnd s = Some r -> (length r < length s)%nat.
Proof.
  induction s as [s IH] using length_ind. intros r.
  destruct s as [|c t]; [done|]. cbn [lineEnd]. case_bool_decide.
  - destruct t as [|d t]; [done|]. intros Hr. apply IH in Hr; simpl in *; lia.
  - case_bool_decide; [done|]. case_bool_decide.
    + intros [= <-]. simpl. lia.
    + intros Hr. apply IH in Hr; simpl in *; lia.
Qed.

Lemma spanWhile_length f s : (length (spanWhile f s).2 <= length s)%nat.
Proof.
  induction s as [|c s IH]; [done|]. cbn [spanWhile]. destruct (f c); [|done].
  destruct (spanWhile f s) as [a b]. simpl in *. lia.
Qed.

Lemma scanString_length s t r : s <> [] -> scanString s = Some (t, r) -> (length r < length s)%nat.
Proof.
  intros Hs. unfold scanString. destruct (HasPrefix s quotes3) eqn:Hp.
  - destruct (blockEnd _) eqn:E; [|done]. intros [= <- <-]. apply blockEnd_length in E.
    rewrite length_drop in E. lia.
  - destruct (lineEnd _) eqn:E; [|done]. intros [= <- <-]. apply lineEnd_length in E.
    rewrite length_drop in E. destruct s; simpl in *; [done|lia].
Qed.

Lemma scanAt_length s t r : scanAt s = Some (t, r) -> (length r < length s)%nat.
Proof.
  destruct s as [|c s']; [done|]. cbn [scanAt].
  destruct (HasPrefix _ _) eqn:Hp; [intros [= <- <-]; rewrite length_drop; simpl; lia|].
  destruct (isPunctuator c); [intros [= <- <-]; simpl; lia|].
  case_bool_decide; [by apply scanString_length|].
  destruct (isNameStart c) eqn:Hn.
  - cbn [spanWhile]. unfold isNameContinue at 1. rewrite Hn. cbn [orb].
    pose proof (spanWhile_length isNameContinue s') as Hl.
    destruct (spanWhile isNameContinue s'). intros [= <- <-]. simpl in *. lia.
  - destruct (_ || _); [|done]. intros [= <- <-].
    pose proof (spanWhile_length isNumberContinue s'). simpl in *. lia.
Qed.

Lemma scan_some sc t sc' : scan sc = (Some t, sc') ->
  (length (sc_rest sc') < length (sc_rest sc))%nat /\ sc_held sc' = sc_held sc /\ sc_bad sc' = sc_bad sc.
Proof.
  unfold scan. pose proof (skipIgnored_length (sc_rest sc) false) as Hl.
  destruct (skipIgnored false (sc_rest sc)) as [|c s] eqn:E; [done|].
  destruct (scanAt (c :: s)) as [[t' r]|] eqn:Es; [|done].
  intros [= <- <-]. apply scanAt_length in Es. simpl in *. split_and!; [lia|done..].
Qed.

Lemma scan_none sc sc' : scan sc = (None, sc') ->
  scan sc' = (None, sc') /\ sc_held sc' = sc_held sc /\ (length (sc_rest sc') <= length (sc_rest sc))%nat.
Proof.
  unfold scan. pose proof (skipIgnored_idem (sc_rest sc) false) as Hi.
  pose proof (skipIgnored_length (sc_rest sc) false) as Hl.
  destruct (skipIgnored false (sc_rest sc)) as [|c s] eqn:E; [by intros [= <-]; simpl; split_and!; try lia|].
  destruct (scanAt (c :: s)) as [[t' r]|] eqn:Es; [done|].
  intros [= <-]. cbn [sc_rest sc_bad sc_held]. rewrite Hi. by rewrite Es.
Qed.

(** ** Program logics *)

(** The computation completes, and [Q] holds of its value and scanner. *)
Definition wp {A} (m : P A) (sc : gqlScanner) (Q : A -> gqlScanner -> Prop) : Prop :=
  exists a sc', m sc = Done a sc' /\ Q a sc'.

(** The computation does not run out of fuel, and [Q] holds if it completes. *)
Definition safe {A} (m : P A) (sc : gqlScanner) (Q : A -> gqlScanner -> Prop) : Prop :=
  match m sc with Done a sc' => Q a sc' | Refuse => True | OutOfFuel => False end.

Lemma scan_bind {A B} (m : P A) (k : A -> P B) sc Q :
  wp m sc (fun a sc' => wp (k a) sc' Q) -> wp (bind m k) sc Q.
Proof. intros (a & sc' & E & H). unfold wp, bind. by rewrite E. Qed.

Lemma wp_ret {A} (a : A) sc (Q : A -> gqlScanner -> Prop) : Q a sc -> wp (ret a) sc Q.
Proof. intros H. by exists a, sc. Qed.

Lemma scan_mono {A} (m : P A) sc (Q R : A -> gqlScanner -> Prop) :
  wp m sc Q -> (forall a sc', Q a sc' -> R a sc') -> wp m sc R.
Proof. intros (a & sc' & E & H) HR. exists a, sc'. eauto. Qed.

Lemma safe_bind {A B} (m : P A) (k : A -> P B) sc Q :
  safe m sc (fun a sc' => safe (k a) sc' Q) -> safe (bind m k) sc Q.
Proof. unfold safe, bind. by destruct (m sc). Qed.

Lemma safe_mono {A} (m : P A) sc (Q R : A -> gqlScanner -> Prop) :
  safe m sc Q -> (forall a sc', Q a sc' -> R a sc') -> safe m sc R.
Proof. unfold safe. destruct (m sc); eauto. Qed.

Lemma safe_ret {A} (a : A) sc (Q : A -> gqlScanner -> Prop) : Q a sc -> safe (ret a) sc Q.
Proof. done. Qed.

Lemma safe_reject {A} sc (Q : A -> gqlScanner -> Prop) : safe reject sc Q.
Proof. done. Qed.

(** ** Sizes: reading shrinks the scanner *)

Lemma safe_next sc (Q : option gqlToken -> gqlScanner -> Prop) :
  (forall t sc', (size sc' < size sc)%nat -> Q (Some t) sc') ->
  (forall sc', (size sc' <= size sc)%nat -> Q None sc') -> safe next sc Q.
Proof.
  intros HS HN. unfold safe, next. destruct (sc_held sc) as [t|] eqn:E.
  - apply HS. unfold size. rewrite E. simpl. lia.
  - destruct (scan sc) as [[t|] sc'] eqn:Es.
    + apply scan_some in Es as (Hl & Hh & _). apply HS. unfold size. rewrite Hh, E. lia.
    + apply scan_none in Es as (_ & Hh & Hl). apply HN. unfold size. rewrite Hh, E. lia.
Qed.

Lemma safe_peek sc (Q : option gqlToken -> gqlScanner -> Prop) :
  (forall t sc', (size sc' <= size sc)%nat -> Q t sc') -> safe peek sc Q.
Proof.
  intros HQ. unfold safe, peek. destruct (sc_held sc) as [t|] eqn:E; [by apply HQ|].
  destruct (scan sc) as [[t|] sc'] eqn:Es.
  - apply scan_some in Es as (Hl & Hh & _). apply HQ. unfold size. rewrite E. simpl. lia.
  - apply scan_none in Es as (_ & Hh & Hl). apply HQ. unfold size. rewrite Hh, E. lia.
Qed.

Lemma safe_peekIs f sc (Q : bool -> gqlScanner -> Prop) :
  (forall b sc', (size sc' <= size sc)%nat -> Q b sc') -> safe (peekIs f) sc Q.
Proof. intros HQ. apply safe_bind, safe_peek. intros t sc' Hs. apply safe_ret. auto. Qed.

Lemma safe_skipBalanced_loop o c n : forall d sc (Q : unit -> gqlScanner -> Prop),
  (size sc < n)%nat -> (forall sc', (size sc' < size sc)%nat -> Q tt sc') ->
  safe (skipBalanced_loop o c d n) sc Q.
Proof.
  induction n as [|n IH]; intros d sc Q Hn HQ; [lia|]. cbn [skipBalanced_loop].
  apply safe_bind, safe_next; [|by intros; apply safe_reject].
  intros t sc' Hs. repeat case_match; try (apply safe_ret; auto); apply IH; try lia; intros; apply HQ; lia.
Qed.

Lemma safe_skipBalanced o c sc (Q : unit -> gqlScanner -> Prop) :
  (forall sc', (size sc' < size sc)%nat -> Q tt sc') -> safe (skipBalanced o c) sc Q.
Proof. intros HQ. apply safe_skipBalanced_loop; [lia|done]. Qed.

(** ** The token stream *)

(** [view sc ts b]: the tokens the scanner will yield, and whether it then
    stops on something it cannot tokenize. *)
Inductive view : gqlScanner -> list gqlToken -> bool -> Prop :=
| view_end sc sc' : next sc = Done None sc' -> view sc [] (sc_bad sc')
| view_tok sc t sc' ts b : next sc = Done (Some t) sc' -> view sc' ts b -> view sc (t :: ts) b.

Lemma next_done sc : exists t sc', next sc = Done t sc'.
Proof. unfold next. destruct (sc_held sc); [eauto|]. destruct (scan sc). eauto. Qed.

Lemma next_size sc t sc' : next sc = Done (Some t) sc' -> (size sc' < size sc)%nat.
Proof.
  intros E. assert (H : safe next sc (fun t sc' => is_Some t -> (size sc' < size sc)%nat)).
  { apply safe_next; [auto|]. by intros ? _ []. }
  unfold safe in H. rewrite E in H. by apply H.
Qed.

Lemma view_total_le k : forall sc, (size sc < k)%nat -> exists ts b, view sc ts b.
Proof.
  induction k as [|k IH]; intros sc Hk; [lia|].
  destruct (next_done sc) as ([t|] & sc' & E); [|eauto using view_end].
  pose proof (next_size _ _ _ E). destruct (IH sc' ltac:(lia)) as (ts & b & Hv). eauto using view_tok.
Qed.

Lemma view_total sc : exists ts b, view sc ts b.
Proof. apply (view_total_le (S (size sc))). lia. Qed.

Lemma view_fun sc ts b : view sc ts b -> forall ts' b', view sc ts' b' -> ts = ts' /\ b = b'.
Proof.
  induction 1 as [sc sc' E|sc t sc' ts b E Hv IH]; intros ts' b' H'; inversion H' as [? sc2 E2|? t2 sc2 ts2 b2 E2 Hv2]; subst;
    rewrite E in E2; simplify_eq; [done|].
  by edestruct IH as [-> ->].
Qed.

Lemma view_size sc ts b : view sc ts b -> (length ts <= size sc)%nat.
Proof.
  induction 1 as [|sc t sc' ts b E Hv IH]; simpl; [lia|]. apply next_size in E. lia.
Qed.

Lemma wp_next_cons sc t ts b (Q : option gqlToken -> gqlScanner -> Prop) :
  view sc (t :: ts) b -> (forall sc', view sc' ts b -> Q (Some t) sc') -> wp next sc Q.
Proof. inversion 1; subst. intros HQ. eexists _, _. eauto. Qed.

Lemma wp_next_nil sc b (Q : option gqlToken -> gqlScanner -> Prop) :
  view sc [] b -> (forall sc', sc_bad sc' = b -> Q None sc') -> wp next sc Q.
Proof. inversion 1; subst. intros HQ. eexists _, _. eauto. Qed.

Lemma next_held sc t : next (Sc (sc_rest sc) (sc_bad sc) (Some t)) = Done (Some t) (Sc (sc_rest sc) (sc_bad sc) None).
Proof. done. Qed.

Lemma scanner_eta sc h : sc_held sc = h -> sc = Sc (sc_rest sc) (sc_bad sc) h.
Proof. destruct sc; simpl. by intros ->. Qed.

Lemma wp_peek_cons sc t ts b (Q : option gqlToken -> gqlScanner -> Prop) :
  view sc (t :: ts) b -> (forall sc', view sc' (t :: ts) b -> Q (Some t) sc') -> wp peek sc Q.
Proof.
  intros Hv HQ. pose proof Hv as Hv0. inversion Hv as [|? ? sc' ? ? E Hv']; subst.
  unfold wp, peek. unfold next in E. destruct (sc_held sc) as [t'|] eqn:Eh.
  - injection E as -> _. eauto.
  - destruct (scan sc) as [[t'|] sc2] eqn:Es; simplify_eq.
    apply scan_some in Es as (_ & Hh & _). rewrite Eh in Hh.
    eexists _, _. split; [done|]. apply HQ. eapply view_tok; [apply next_held|].
    by rewrite <- (scanner_eta sc' None).
Qed.

Lemma wp_peek_nil sc b (Q : option gqlToken -> gqlScanner -> Prop) :
  view sc [] b -> (forall sc', view sc' [] b -> Q None sc') -> wp peek sc Q.
Proof.
  inversion 1 as [? sc' E|]; subst. intros HQ. unfold wp, peek. unfold next in E.
  destruct (sc_held sc) as [t'|] eqn:Eh; [done|].
  destruct (scan sc) as [[t'|] sc2] eqn:Es; simplify_eq.
  apply scan_none in Es as (Hs & Hh & _). eexists _, _. split; [done|]. apply HQ.
  apply view_end. unfold next. by rewrite Hh, Eh, Hs.
Qed.

(** The first token of a stream, if any. *)
Lemma wp_peekIs f sc ts b (Q : bool -> gqlScanner -> Prop) :
  view sc ts b ->
  (forall sc', view sc' ts b -> Q (match ts with t :: _ => f t | [] => false end) sc') ->
  wp (peekIs f) sc Q.
Proof.
  intros Hv HQ. apply scan_bind. destruct ts as [|t ts].
  - eapply wp_peek_nil; [done|]. intros. by apply wp_ret, HQ.
  - eapply wp_peek_cons; [done|]. intros. by apply wp_ret, HQ.
Qed.

(** [fueled] gives a loop at least as much fuel as there are tokens left. *)
Lemma wp_fueled {A} (loop : nat -> P A) sc ts b (Q : A -> gqlScanner -> Prop) :
  view sc ts b -> (forall n, (length ts < n)%nat -> wp (loop n) sc Q) -> wp (fueled loop) sc Q.
Proof. intros Hv H. apply H. apply view_size in Hv. lia. Qed.

End GqlFacts.
