(* ===== verification/GhDoc.v ===== *)
(** * GraphQL documents: the reader of ghwrite/gqldoc.go

    Which top-level fields does a document's mutation select?  [parseDocument]
    reads a document's operations and fragments, names only, and
    [resolveTopLevelFields] follows the fragments an operation spreads. *)

From S2P Require Import Prelude GoBytes GhLex.
Import Gql.

Module GqlDoc.

#[local] Open Scope gql_scope.

Definition gqlOperationQuery : bytes := bs "query".
Definition gqlOperationMutation : bytes := bs "mutation".
Definition gqlOperationSubscription : bytes := bs "subscription".

Definition maxTopLevelFields : nat := 16.
Definition maxInlineFragmentDepth : nat := 8.
Definition mutationRootType : bytes := bs "Mutation".

Definition LBRACE : bytes := bs "{".
Definition RBRACE : bytes := bs "}".
Definition LPAREN : bytes := bs "(".
Definition RPAREN : bytes := bs ")".
Definition COLON : bytes := bs ":".
Definition AT : bytes := bs "@".
Definition ELLIPSIS : bytes := bs "...".
Definition ON : bytes := bs "on".
Definition FRAGMENT : bytes := bs "fragment".

Record gqlSelection := Sel {
  fields : list bytes;
  spreads : list bytes;
  unresolvable : bool;
  truncated : bool
}.
Definition emptySelection : gqlSelection := Sel [] [] false false.

Record gqlOperation := Op { typ : bytes; op_name : bytes; op_sel : gqlSelection }.
Record gqlFragment := Frag { on : bytes; frag_sel : gqlSelection }.
Record gqlDocument := Doc { ops : list gqlOperation; fragments : gmap (list ascii) gqlFragment }.

#[export] Instance gqlSelection_eq_dec : EqDecision gqlSelection.
Proof. solve_decision. Defined.
#[export] Instance gqlOperation_eq_dec : EqDecision gqlOperation.
Proof. solve_decision. Defined.
#[export] Instance gqlFragment_eq_dec : EqDecision gqlFragment.
Proof. solve_decision. Defined.

(** ** Selections *)

(** [if len(sel.fields) < maxTopLevelFields { append } else { truncated }]. *)
Definition addField (sel : gqlSelection) (f : bytes) : gqlSelection :=
  if (length (fields sel) <? maxTopLevelFields)%nat
  then Sel (fields sel ++ [f]) (spreads sel) (unresolvable sel) (truncated sel)
  else Sel (fields sel) (spreads sel) (unresolvable sel) true.
Definition addSpread (sel : gqlSelection) (f : bytes) : gqlSelection :=
  Sel (fields sel) (spreads sel ++ [f]) (unresolvable sel) (truncated sel).
Definition markUnresolvable (sel : gqlSelection) : gqlSelection :=
  Sel (fields sel) (spreads sel) true (truncated sel).

(** [merge]'s loop over the inner fields: append until the bound, then mark the
    selection truncated and stop. *)
Fixpoint appendFields (acc : list bytes) (tr : bool) (l : list bytes) : list bytes * bool :=
  match l with
  | [] => (acc, tr)
  | f :: l =>
      if (maxTopLevelFields <=? length acc)%nat then (acc, true)
      else appendFields (acc ++ [f]) tr l
  end.

Definition merge (sel inner : gqlSelection) : gqlSelection :=
  let '(fs, tr) := appendFields (fields sel) (truncated sel) (fields inner) in
  Sel fs (spreads sel ++ spreads inner) (unresolvable sel || unresolvable inner) (tr || truncated inner).

(** ** The parser *)

(** [real, more := sc.next(); if !more || real.kind != gqlKindName]. *)
Definition nextName : P bytes :=
  t <- next ;;
  match t with
  | Some t => if isName t then ret (text t) else reject
  | None => reject
  end.

(** [tok, ok := sc.next(); if !ok || !tok.punct(p)]. *)
Definition expect (p : bytes) : P unit :=
  t <- next ;;
  match t with
  | Some t => if punct t p then ret tt else reject
  | None => reject
  end.

(** [if tok, ok := sc.peek(); ok && tok.punct(o) { sc.next(); skipBalanced }]. *)
Definition skipGroup (o c : bytes) : P unit :=
  b <- peekIs (fun t => punct t o) ;;
  if b then next ;; skipBalanced o c else ret tt.

Fixpoint skipDirectives_loop (n : nat) : P unit :=
  match n with
  | O => fun _ => OutOfFuel
  | S n =>
      b <- peekIs (fun t => punct t AT) ;;
      if negb b then ret tt
      else next ;; nextName ;; skipGroup LPAREN RPAREN ;; skipDirectives_loop n
  end.
Definition skipDirectives : P unit := fueled skipDirectives_loop.

(** [readFragmentSelection], given the recursive reader of a nested selection
    set at [depth + 1]. *)
Definition readFragmentSelection (inner : P gqlSelection) (sel : gqlSelection) (depth : nat) : P gqlSelection :=
  let braced (condition : bytes) : P gqlSelection :=
    skipDirectives ;;
    b <- peekIs (fun t => punct t LBRACE) ;;
    if negb b then ret sel
    else
      next ;;
      if (maxInlineFragmentDepth <=? depth)%nat ||
         (negb (bool_decide (condition = [])) && negb (bool_decide (condition = mutationRootType)))
      then skipBalanced LBRACE RBRACE ;; ret (markUnresolvable sel)
      else i <- inner ;; ret (merge sel i) in
  t <- peek ;;
  match t with
  | Some t =>
      if name t ON then next ;; condition <- nextName ;; braced condition
      else if isName t then next ;; skipDirectives ;; ret (addSpread sel (text t))
      else braced []
  | None => braced []
  end.

(** [selectionFields]: one turn of its loop, then the rest with the selection
    read so far. *)
Fixpoint selectionFields_loop (n : nat) (depth : nat) (sel : gqlSelection) : P gqlSelection :=
  match n with
  | O => fun _ => OutOfFuel
  | S n =>
      t <- next ;;
      match t with
      | None => reject
      | Some t =>
          if punct t RBRACE then ret sel
          else if punct t ELLIPSIS then
            sel' <- readFragmentSelection (selectionFields_loop n (S depth) emptySelection) sel depth ;;
            selectionFields_loop n depth sel'
          else if negb (isName t) then reject
          else
            aliased <- peekIs (fun t => punct t COLON) ;;
            field <- (if aliased then next ;; nextName else ret (text t)) ;;
            skipGroup LPAREN RPAREN ;;
            skipDirectives ;;
            skipGroup LBRACE RBRACE ;;
            selectionFields_loop n depth (addField sel field)
      end
  end.
Definition selectionFields (depth : nat) : P gqlSelection :=
  fueled (fun n => selectionFields_loop n depth emptySelection).

Definition parseOperation (typ : bytes) : P gqlOperation :=
  t <- peek ;;
  nm <- match t with
        | Some t => if isName t then next ;; ret (text t) else ret []
        | None => ret []
        end ;;
  skipGroup LPAREN RPAREN ;;
  skipDirectives ;;
  expect LBRACE ;;
  sel <- selectionFields 0 ;;
  ret (Op typ nm sel).

Definition parseFragmentDefinition : P (bytes * gqlFragment) :=
  ident <- nextName ;;
  t <- next ;;
  match t with
  | Some t =>
      if negb (name t ON) then reject
      else
        cond <- nextName ;;
        skipDirectives ;;
        expect LBRACE ;;
        sel <- selectionFields 0 ;;
        ret (ident, Frag cond sel)
  | None => reject
  end.

(** [if _, seen := parsed.fragments[name]; !seen]. *)
Definition addFragment (d : gqlDocument) (nm : bytes) (f : gqlFragment) : gqlDocument :=
  match fragments d !! nm with
  | Some _ => d
  | None => Doc (ops d) (<[nm := f]> (fragments d))
  end.
Definition addOp (d : gqlDocument) (o : gqlOperation) : gqlDocument := Doc (ops d ++ [o]) (fragments d).

Fixpoint parseDocument_loop (n : nat) (d : gqlDocument) : P gqlDocument :=
  match n with
  | O => fun _ => OutOfFuel
  | S n =>
      t <- next ;;
      match t with
      | None => ret d
      | Some t =>
          if punct t LBRACE then
            skipBalanced LBRACE RBRACE ;;
            parseDocument_loop n (addOp d (Op gqlOperationQuery [] emptySelection))
          else if name t FRAGMENT then
            nf <- parseFragmentDefinition ;;
            parseDocument_loop n (addFragment d nf.1 nf.2)
          else if name t gqlOperationQuery || name t gqlOperationMutation || name t gqlOperationSubscription then
            o <- parseOperation (text t) ;;
            parseDocument_loop n (addOp d o)
          else reject
      end
  end.

(** [parseDocument]; the final [sc.bad] test turns a scan that stopped short
    into a refusal. *)
Definition parseDocument (doc : bytes) : option (option gqlDocument) :=
  match fueled (fun n => parseDocument_loop n (Doc [] ∅)) (newScanner doc) with
  | Done d sc => Some (if sc_bad sc then None else Some d)
  | Refuse => Some None
  | OutOfFuel => None
  end.

(** ** Resolution *)

Inductive unread := GraphQLOverCap | GraphQLRequestUnread | GraphQLMalformed
| GraphQLAmbiguousOperation | GraphQLUnresolvedFragment | GraphQLTooManyFields.

#[export] Instance unread_eq_dec : EqDecision unread.
Proof. solve_decision. Defined.

(** The loop over [current.spreads]: the selections to append to the queue, the
    names visited, and whether a spread could not be followed. *)
Fixpoint followSpreads (frs : gmap (list ascii) gqlFragment) (visited : gset (list ascii)) (l : list bytes)
  : list gqlSelection * gset (list ascii) * bool :=
  match l with
  | [] => ([], visited, false)
  | nm :: l =>
      if bool_decide (nm ∈ visited) then followSpreads frs visited l
      else
        let '(q, v, u) := followSpreads frs ({[nm]} ∪ visited) l in
        match frs !! nm with
        | Some f => if bool_decide (on f = mutationRootType) then (frag_sel f :: q, v, u) else (q, v, true)
        | None => (q, v, true)
        end
  end.

(** [resolveTopLevelFields]'s queue loop; [dead] is [unreadable] set to the
    fragment reason, [tr] the local [truncated]. *)
Fixpoint resolve_loop (n : nat) (frs : gmap (list ascii) gqlFragment) (visited : gset (list ascii))
    (queue : list gqlSelection) (fs : list bytes) (dead tr : bool) : option (list bytes * bool * bool) :=
  match queue with
  | [] => Some (fs, dead, tr)
  | current :: queue =>
      match n with
      | O => None
      | S n =>
          let '(fs', tr') := appendFields fs (tr || truncated current) (fields current) in
          let '(q, v, u) := followSpreads frs visited (spreads current) in
          resolve_loop n frs v (queue ++ q) fs' (dead || unresolvable current || u) tr'
      end
  end.

Definition resolveTopLevelFields (sel : gqlSelection) (frs : gmap (list ascii) gqlFragment)
  : option (list bytes * option unread) :=
  match resolve_loop (S (base.size frs)) frs ∅ [sel] [] false false with
  | Some (fs, dead, tr) =>
      Some (fs, if dead then Some GraphQLUnresolvedFragment
                else if tr then Some GraphQLTooManyFields else None)
  | None => None
  end.

Definition selectOperation (os : list gqlOperation) (operationName : bytes) : option gqlOperation :=
  if negb (bool_decide (operationName = []))
  then (fix pick l := match l with
                      | [] => None
                      | o :: l => if bool_decide (op_name o = operationName) then Some o else pick l
                      end) os
  else match os with [o] => Some o | _ => None end.

Definition containsMutation (os : list gqlOperation) : bool :=
  existsb (fun o => bool_decide (typ o = gqlOperationMutation)) os.

End GqlDoc.

(** * The GraphQL reader terminates and reports what it leaves out

    Every loop of the reader gets enough fuel on every document, however its
    braces nest and its fragments point at each other, and the selections it
    returns respect the bound on field names: a name that does not fit sets
    [truncated]. *)


Import Gql GqlFacts GqlDoc.

Module GqlDocFacts.

#[local] Open Scope gql_scope.

(** ** Parsing terminates *)

(** [shrinks m]: the computation never runs out of fuel and does not lengthen
    the scanner. *)
Definition shrinks {A} (m : P A) : Prop :=
  forall sc, safe m sc (fun _ sc' => (size sc' <= size sc)%nat).

Lemma shrinks_bind {A B} (m : P A) (k : A -> P B) :
  shrinks m -> (forall a, shrinks (k a)) -> shrinks (bind m k).
Proof.
  intros Hm Hk sc. apply safe_bind. eapply safe_mono; [apply Hm|]. intros a sc' Hs.
  eapply safe_mono; [apply Hk|]. intros. simpl in *. lia.
Qed.

Lemma shrinks_ret {A} (a : A) : shrinks (ret a).
Proof. intros sc. apply safe_ret. lia. Qed.
Lemma shrinks_reject {A} : shrinks (reject (A := A)).
Proof. intros sc. apply safe_reject. Qed.
Lemma shrinks_next : shrinks next.
Proof. intros sc. apply safe_next; intros; lia. Qed.
Lemma shrinks_peek : shrinks peek.
Proof. intros sc. apply safe_peek; intros; lia. Qed.
Lemma shrinks_peekIs f : shrinks (peekIs f).
Proof. intros sc. apply safe_peekIs; intros; lia. Qed.
Lemma shrinks_skipBalanced o c : shrinks (skipBalanced o c).
Proof. intros sc. apply safe_skipBalanced; intros; lia. Qed.

#[local] Hint Resolve shrinks_bind shrinks_ret shrinks_reject shrinks_next shrinks_peek
  shrinks_peekIs shrinks_skipBalanced : shrinks.
Ltac shrinks := repeat (first [apply shrinks_bind; [auto with shrinks|intros] | case_match | by auto with shrinks]).

Lemma shrinks_nextName : shrinks nextName.
Proof. unfold nextName. shrinks. Qed.
Lemma shrinks_expect p : shrinks (expect p).
Proof. unfold expect. shrinks. Qed.
Lemma shrinks_skipGroup o c : shrinks (skipGroup o c).
Proof. unfold skipGroup. shrinks. Qed.
#[local] Hint Resolve shrinks_nextName shrinks_expect shrinks_skipGroup : shrinks.

(** Composition with a step that consumes a token: what follows may assume a
    strictly smaller scanner. *)
Lemma safe_then {A B} (m : P A) (k : A -> P B) sc Q :
  shrinks m -> (forall a sc', (size sc' <= size sc)%nat -> safe (k a) sc' Q) -> safe (bind m k) sc Q.
Proof. intros Hm Hk. apply safe_bind. eapply safe_mono; [apply Hm|]. auto. Qed.

Lemma safe_next_then {B} (k : option gqlToken -> P B) sc Q :
  (forall sc', (size sc' <= size sc)%nat -> safe (k None) sc' Q) ->
  (forall t sc', (size sc' < size sc)%nat -> safe (k (Some t)) sc' Q) -> safe (bind next k) sc Q.
Proof. intros HN HS. apply safe_bind. by apply safe_next. Qed.

Lemma safe_nextName_then {B} (k : bytes -> P B) sc Q :
  (forall w sc', (size sc' < size sc)%nat -> safe (k w) sc' Q) -> safe (bind nextName k) sc Q.
Proof.
  intros H. apply safe_bind. unfold nextName. apply safe_next_then; [by intros; apply safe_reject|].
  intros t sc' Hs. case_match; [by apply safe_ret, H|apply safe_reject].
Qed.

Lemma safe_skipDirectives_loop n : forall sc, (size sc < n)%nat ->
  safe (skipDirectives_loop n) sc (fun _ sc' => (size sc' <= size sc)%nat).
Proof.
  induction n as [|n IH]; intros sc Hn; [lia|]. cbn [skipDirectives_loop].
  apply safe_then; [auto with shrinks|]. intros b sc1 G1. destruct b; cbn [negb].
  - apply safe_then; [auto with shrinks|]. intros t sc2 G2. apply safe_nextName_then. intros w sc3 G3.
    apply safe_then; [auto with shrinks|]. intros [] sc4 G4.
    eapply safe_mono; [apply IH; lia|]. simpl. lia.
  - apply safe_ret. lia.
Qed.

Lemma shrinks_skipDirectives : shrinks skipDirectives.
Proof. intros sc. apply safe_skipDirectives_loop. lia. Qed.
#[local] Hint Resolve shrinks_skipDirectives : shrinks.

(** The reader of a nested selection set is called on a scanner no larger than
    the one [readFragmentSelection] got. *)
Lemma safe_readFragmentSelection inner sel depth sc :
  (forall sc', (size sc' <= size sc)%nat -> safe inner sc' (fun _ sc2 => (size sc2 <= size sc')%nat)) ->
  safe (readFragmentSelection inner sel depth) sc (fun _ sc' => (size sc' <= size sc)%nat).
Proof.
  intros Hin. unfold readFragmentSelection.
  set (braced := fun condition : bytes => _).
  assert (Hb : forall w sc', (size sc' <= size sc)%nat -> safe (braced w) sc' (fun _ sc2 => (size sc2 <= size sc)%nat)).
  { intros w sc' Hs. subst braced. cbn beta. apply safe_then; [auto with shrinks|]. intros [] sc1 G1.
    apply safe_then; [auto with shrinks|]. intros b sc2 G2. case_match; [apply safe_ret; lia|].
    apply safe_then; [auto with shrinks|]. intros t sc3 G3. case_match.
    - apply safe_then; [auto with shrinks|]. intros [] sc4 G4. apply safe_ret. lia.
    - apply safe_bind. eapply safe_mono; [apply Hin; lia|]. intros i sc4 G4. apply safe_ret. simpl in *. lia. }
  apply safe_then; [auto with shrinks|]. intros t sc1 G1.
  destruct t as [t|]; [|by apply Hb]. case_match; [|case_match; [|by apply Hb]].
  - apply safe_then; [auto with shrinks|]. intros t' sc2 G2. apply safe_nextName_then. intros w sc3 G3.
    apply Hb. lia.
  - apply safe_then; [auto with shrinks|]. intros t' sc2 G2.
    apply safe_then; [auto with shrinks|]. intros [] sc3 G3. apply safe_ret. lia.
Qed.

Lemma safe_selectionFields_loop n : forall depth sel sc, (size sc < n)%nat ->
  safe (selectionFields_loop n depth sel) sc (fun _ sc' => (size sc' <= size sc)%nat).
Proof.
  induction n as [|n IH]; intros depth sel sc Hn; [lia|]. cbn [selectionFields_loop].
  apply safe_next_then; [by intros; apply safe_reject|]. intros t sc1 G1.
  case_match; [apply safe_ret; lia|]. case_match.
  - apply safe_bind. eapply safe_mono; [apply safe_readFragmentSelection; intros; apply IH; lia|].
    intros s sc2 G2. eapply safe_mono; [apply IH; simpl in *; lia|]. simpl in *. lia.
  - case_match; [apply safe_reject|].
    apply safe_then; [auto with shrinks|]. intros b sc2 G2.
    apply safe_then; [destruct b; shrinks|]. intros w sc3 G3.
    apply safe_then; [auto with shrinks|]. intros [] sc4 G4.
    apply safe_then; [auto with shrinks|]. intros [] sc5 G5.
    apply safe_then; [auto with shrinks|]. intros [] sc6 G6.
    eapply safe_mono; [apply IH; lia|]. simpl. lia.
Qed.

Lemma shrinks_selectionFields depth : shrinks (selectionFields depth).
Proof. intros sc. apply safe_selectionFields_loop. lia. Qed.
#[local] Hint Resolve shrinks_selectionFields : shrinks.

Lemma shrinks_parseOperation ty : shrinks (parseOperation ty).
Proof.
  unfold parseOperation. apply shrinks_bind; [auto with shrinks|]. intros t.
  apply shrinks_bind; [shrinks|]. intros w. shrinks.
Qed.

Lemma shrinks_parseFragmentDefinition : shrinks parseFragmentDefinition.
Proof. unfold parseFragmentDefinition. shrinks. Qed.
#[local] Hint Resolve shrinks_parseOperation shrinks_parseFragmentDefinition : shrinks.

Lemma safe_parseDocument_loop n : forall d sc, (size sc < n)%nat ->
  safe (parseDocument_loop n d) sc (fun _ _ => True).
Proof.
  induction n as [|n IH]; intros d sc Hn; [lia|]. cbn [parseDocument_loop].
  apply safe_next_then; [by intros; apply safe_ret|]. intros t sc1 G1.
  case_match; [|case_match; [|case_match; [|apply safe_reject]]];
    (apply safe_then; [auto with shrinks|]; intros a sc2 G2; apply IH; lia).
Qed.

Lemma parseDocument_total doc : is_Some (parseDocument doc).
Proof.
  unfold parseDocument, fueled.
  pose proof (safe_parseDocument_loop (S (size (newScanner doc))) (Doc [] ∅) (newScanner doc) ltac:(lia)) as H.
  unfold safe in H. destruct (parseDocument_loop _ _ _); by eauto.
Qed.

(** ** The name scans terminate *)

Lemma documentNames_loop_total nm n : forall sc, (size sc < n)%nat -> is_Some (documentNames_loop nm n sc).
Proof.
  induction n as [|n IH]; intros sc Hn; [lia|]. cbn [documentNames_loop].
  destruct (next_done sc) as (t & sc' & E). rewrite E. destruct t as [t|]; [|eauto].
  apply next_size in E. case_match; [eauto|]. apply IH. lia.
Qed.

Lemma documentNames_total doc nm : is_Some (documentNames doc nm).
Proof. apply documentNames_loop_total. unfold size. simpl. lia. Qed.

Lemma documentReferencesVariable_loop_total nm n : forall p sc, (size sc < n)%nat ->
  is_Some (documentReferencesVariable_loop nm p n sc).
Proof.
  induction n as [|n IH]; intros p sc Hn; [lia|]. cbn [documentReferencesVariable_loop].
  destruct (next_done sc) as (t & sc' & E). rewrite E. destruct t as [t|]; [|eauto].
  apply next_size in E. case_match; [eauto|]. apply IH. lia.
Qed.

Lemma documentReferencesVariable_total doc nm : is_Some (documentReferencesVariable doc nm).
Proof. apply documentReferencesVariable_loop_total. unfold size. simpl. lia. Qed.

Lemma documentAliasesOnto_loop_total ns n : forall a b c d sc, (size sc < n)%nat ->
  is_Some (documentAliasesOnto_loop ns a b c d n sc).
Proof.
  induction n as [|n IH]; intros a b c d sc Hn; [lia|]. cbn [documentAliasesOnto_loop].
  destruct (next_done sc) as (t & sc' & E). rewrite E. destruct t as [t|]; [|eauto].
  apply next_size in E. case_match; [eauto|]. apply IH. lia.
Qed.

Lemma documentAliasesOnto_total doc ns : is_Some (documentAliasesOnto doc ns).
Proof. apply documentAliasesOnto_loop_total. unfold size. simpl. lia. Qed.

(** ** Resolution terminates: each fragment is enqueued at most once *)

Lemma followSpreads_spec frs l : forall visited q v u,
  followSpreads frs visited l = (q, v, u) ->
  visited ⊆ v /\ (forall nm, nm ∈ l -> nm ∈ v) /\
  (length q + base.size (visited ∩ dom frs) <= base.size (v ∩ dom frs))%nat /\
  (u = false -> forall nm, nm ∈ v -> nm ∈ visited \/
     exists f, frs !! nm = Some f /\ on f = mutationRootType /\ frag_sel f ∈ q).
Proof.
  induction l as [|nm l IH]; intros visited q v u; cbn [followSpreads].
  { intros [= <- <- <-]. split_and!; [done|set_solver|simpl; lia|auto]. }
  case_bool_decide as Hin.
  { intros H. destruct (IH _ _ _ _ H) as (G1 & G2 & G3 & G4). split_and!; [done|set_solver|done|done]. }
  destruct (followSpreads frs ({[nm]} ∪ visited) l) as [[q' v'] u'] eqn:E.
  destruct (IH _ _ _ _ E) as (G1 & G2 & G3 & G4). intros H.
  assert (Hv : v = v') by (repeat case_match; by simplify_eq). subst v'.
  assert (Hq : (length q + base.size (visited ∩ dom frs) <= base.size (v ∩ dom frs))%nat).
  { destruct (frs !! nm) as [f|] eqn:Ef.
    - assert (Hs : ({[nm]} ∪ visited) ∩ dom frs = {[nm]} ∪ (visited ∩ dom frs)).
      { apply elem_of_dom_2 in Ef. set_solver. }
      rewrite Hs, size_union, size_singleton in G3 by set_solver.
      case_bool_decide; simplify_eq; cbn [length]; lia.
    - assert (Hs : ({[nm]} ∪ visited) ∩ dom frs = visited ∩ dom frs).
      { apply not_elem_of_dom in Ef. set_solver. }
      rewrite Hs in G3. simplify_eq. lia. }
  split_and!; [set_solver|intros x [->|Hx]%elem_of_cons; set_solver|done|].
  intros ->. destruct (frs !! nm) as [f|] eqn:Ef; [|simplify_eq]. case_bool_decide as Hon; [|simplify_eq].
  simplify_eq. intros x Hx. destruct (G4 eq_refl x Hx) as [Hx'|(g & Hg & Ho & Hq')].
  - destruct (decide (x = nm)) as [->|Hne]; [right; exists f; split_and!; [done..|set_solver]|left; set_solver].
  - right. exists g. split_and!; [done..|set_solver].
Qed.

Lemma resolve_loop_total frs n : forall visited queue fs dead tr,
  (length queue + base.size (dom frs) <= n + base.size (visited ∩ dom frs))%nat ->
  is_Some (resolve_loop n frs visited queue fs dead tr).
Proof.
  induction n as [|n IH]; intros visited queue fs dead tr Hn; destruct queue as [|cur queue]; cbn [resolve_loop]; eauto.
  - assert (base.size (visited ∩ dom frs) <= base.size (dom frs))%nat by (apply subseteq_size; set_solver).
    simpl in Hn. lia.
  - destruct (appendFields _ _ _) as [fs' tr']. destruct (followSpreads frs visited (spreads cur)) as [[q v] u] eqn:E.
    apply followSpreads_spec in E as (_ & _ & Hq & _). apply IH. rewrite length_app. simpl in Hn. lia.
Qed.

Lemma resolveTopLevelFields_total sel frs : is_Some (resolveTopLevelFields sel frs).
Proof.
  unfold resolveTopLevelFields.
  destruct (resolve_loop_total frs (S (base.size frs)) ∅ [sel] [] false false) as [[[fs d] t] ->]; [|eauto].
  rewrite size_dom. simpl. lia.
Qed.

(** ** Resolution is complete unless it says otherwise *)

Lemma appendFields_full l : forall acc tr acc',
  appendFields acc tr l = (acc', false) -> tr = false /\ acc' = acc ++ l.
Proof.
  induction l as [|f l IH]; intros acc tr acc'; cbn [appendFields].
  - intros [= -> ->]. by rewrite app_nil_r.
  - case_match; [done|]. intros [-> ->]%IH. by rewrite <- app_assoc.
Qed.

Lemma appendFields_elem l : forall acc tr acc' tr' f,
  appendFields acc tr l = (acc', tr') -> f ∈ acc' -> f ∈ acc \/ f ∈ l.
Proof.
  induction l as [|g l IH]; intros acc tr acc' tr' f; cbn [appendFields]; [intros [= <- <-]; auto|].
  case_match; [intros [= <- <-]; auto|]. intros Ha Hf. destruct (IH _ _ _ _ _ Ha Hf); set_solver.
Qed.

(** A selection accounted for: nothing in it was left out, its fields are among
    [fs] and its spreads among the names visited. *)
Definition accounted (fs : list bytes) (v : gset (list ascii)) (s : gqlSelection) : Prop :=
  unresolvable s = false /\ truncated s = false /\
  (forall f, f ∈ fields s -> f ∈ fs) /\ (forall nm, nm ∈ spreads s -> nm ∈ v).

Definition closed (frs : gmap (list ascii) gqlFragment) (fs : list bytes) (v : gset (list ascii)) : Prop :=
  forall nm, nm ∈ v -> exists fr, frs !! nm = Some fr /\ on fr = mutationRootType /\ accounted fs v (frag_sel fr).

Lemma accounted_mono fs fs' v v' s :
  (forall f, f ∈ fs -> f ∈ fs') -> v ⊆ v' -> accounted fs v s -> accounted fs' v' s.
Proof. intros ? ? (?&?&?&?). repeat split; auto. Qed.

(** The two reasons for a partial reading are sticky. *)
Lemma resolve_loop_sticky frs n : forall v queue fs dead tr fs' dead' tr',
  resolve_loop n frs v queue fs dead tr = Some (fs', dead', tr') ->
  (dead = true -> dead' = true) /\ (tr = true -> tr' = true).
Proof.
  induction n as [|n IH]; intros v queue fs dead tr fs' dead' tr'; destruct queue as [|cur queue];
    cbn [resolve_loop]; [by intros [= -> -> ->]|done|by intros [= -> -> ->]|].
  destruct (appendFields _ _ _) as [fs1 tr1] eqn:Ea. destruct (followSpreads _ _ _) as [[q v1] u].
  intros [Hd Ht]%IH. split; [intros ->; by apply Hd|]. intros ->. apply Ht.
  destruct tr1; [done|]. by apply appendFields_full in Ea as [? _].
Qed.

Lemma resolve_loop_closed frs n : forall v queue fs dead tr fs',
  resolve_loop n frs v queue fs dead tr = Some (fs', false, false) ->
  (forall nm, nm ∈ v -> exists fr, frs !! nm = Some fr /\ on fr = mutationRootType /\
     (frag_sel fr ∈ queue \/ accounted fs v (frag_sel fr))) ->
  dead = false /\ tr = false /\ (forall f, f ∈ fs -> f ∈ fs') /\
  exists v', v ⊆ v' /\ (forall s, s ∈ queue -> accounted fs' v' s) /\ closed frs fs' v'.
Proof.
  induction n as [|n IH]; intros v queue fs dead tr fs'; destruct queue as [|cur queue]; cbn [resolve_loop]; [|done| |].
  1, 2: (intros [= -> -> ->] Hv; split_and!; [done..|]; exists v; split_and!; [done|set_solver|];
    intros nm (fr & ? & ? & [?|?])%Hv; [set_solver|eauto]).
  destruct (appendFields _ _ _) as [fs1 tr1] eqn:Ea.
  destruct (followSpreads frs v (spreads cur)) as [[q v1] u] eqn:E.
  pose proof (followSpreads_spec _ _ _ _ _ _ E) as (Hsub & Hsp & _ & Hnew).
  intros Hr Hv. pose proof (resolve_loop_sticky _ _ _ _ _ _ _ _ _ _ Hr) as [Hd Ht1].
  destruct tr1; [by discriminate Ht1|].
  destruct (dead || unresolvable cur || u) eqn:Hdu; [by discriminate Hd|].
  apply orb_false_iff in Hdu as [[-> Hu]%orb_false_iff ->].
  apply appendFields_full in Ea as [Ht ->]. apply orb_false_iff in Ht as [-> Htc].
  assert (Hcur : accounted (fs ++ fields cur) v1 cur) by (repeat split; auto; set_solver).
  apply IH in Hr.
  - destruct Hr as (_ & _ & Hfs & v' & Hvv & Hq & Hcl).
    split_and!; [done..|set_solver|]. exists v'. split_and!; [set_solver| |done].
    intros s [->|Hs]%elem_of_cons; [|set_solver]. eapply accounted_mono; [..|by apply Hcur]; [set_solver|done].
  - intros nm Hnm. destruct (Hnew eq_refl nm Hnm) as [Hold|(fr & ? & ? & ?)]; [|exists fr; set_solver].
    destruct (Hv nm Hold) as (fr & ? & ? & [Hin|Hac]); exists fr; split_and!; [done..| |done|done|].
    + apply elem_of_cons in Hin as [<-|Hin]; [right; by apply Hcur|left; set_solver].
    + right. eapply accounted_mono; [..|done]; [set_solver|done].
Qed.

(** A reading reported as whole accounts for the selection and for every
    fragment it reaches. *)
Lemma resolveTopLevelFields_whole sel frs fs :
  resolveTopLevelFields sel frs = Some (fs, None) ->
  exists v, accounted fs v sel /\ closed frs fs v.
Proof.
  unfold resolveTopLevelFields. destruct (resolve_loop _ _ _ _ _ _ _) as [[[fs0 d] t]|] eqn:E; [|done].
  intros H. destruct d, t; simplify_eq. apply resolve_loop_closed in E as (_ & _ & _ & v & _ & Hq & Hc); [|set_solver].
  exists v. split; [set_solver|done].
Qed.

End GqlDocFacts.
