(* ===== verification/GhGrammar.v ===== *)
(** * The GraphQL language the server reads

    An independent reference for what a GraphQL server does with a document:
    the abstract syntax of executable documents with their token form (GraphQL
    specification, October 2021, section 2), the lexical grammar, and which
    mutation fields executing an operation performs (CollectFields, section
    6.3.2).  The gate's reader is proved against this file. *)

From S2P Require Import Prelude GoBytes GhLex GhDoc.
Import Gql GqlDoc.

Module GqlSpec.

(** ** Abstract syntax *)

Inductive value :=
| VVar (n : bytes)
| VLit
| VName (n : bytes)
| VList (vs : list value)
| VObj (fs : list (bytes * value)).

Notation arguments := (list (bytes * value)).
Notation directives := (list (bytes * arguments)).

Inductive type := TNamed (n : bytes) | TList (t : type) | TNonNull (t : type).

Record vardef := VarDef { vd_name : bytes; vd_type : type; vd_default : option value; vd_dirs : directives }.

(** A field without a selection set has the empty one. *)
Inductive selection :=
| SField (alias : option bytes) (f : bytes) (args : arguments) (dirs : directives) (sub : list selection)
| SSpread (n : bytes) (dirs : directives)
| SInline (cond : option bytes) (dirs : directives) (body : list selection).

Inductive optype := OpQuery | OpMutation | OpSubscription.

Inductive definition :=
| DShort (body : list selection)
| DOp (ty : optype) (nm : option bytes) (vars : list vardef) (dirs : directives) (body : list selection)
| DFrag (nm cond : bytes) (dirs : directives) (body : list selection).

Notation document := (list definition).

(** ** Token form *)

Definition pu (s : bytes) : gqlToken := Tok gqlKindPunct s.
Definition nam (w : bytes) : gqlToken := Tok gqlKindName w.
Definition lit : gqlToken := Tok gqlKindValue [].

(** A group in brackets, omitted when empty. *)
Definition grouped (o c : bytes) (ts : list gqlToken) : list gqlToken :=
  match ts with [] => [] | _ => pu o :: ts ++ [pu c] end.

Fixpoint pr_value (v : value) : list gqlToken :=
  match v with
  | VVar n => [pu (bs "$"); nam n]
  | VLit => [lit]
  | VName n => [nam n]
  | VList vs => pu (bs "[") :: concat (map pr_value vs) ++ [pu (bs "]")]
  | VObj fs => pu LBRACE :: concat (map (fun '(n, v) => nam n :: pu COLON :: pr_value v) fs) ++ [pu RBRACE]
  end.

Definition pr_args (a : arguments) : list gqlToken :=
  grouped LPAREN RPAREN (concat (map (fun '(n, v) => nam n :: pu COLON :: pr_value v) a)).

Definition pr_dirs (d : directives) : list gqlToken :=
  concat (map (fun '(n, a) => pu AT :: nam n :: pr_args a) d).

Fixpoint pr_type (t : type) : list gqlToken :=
  match t with
  | TNamed n => [nam n]
  | TList t => pu (bs "[") :: pr_type t ++ [pu (bs "]")]
  | TNonNull t => pr_type t ++ [pu (bs "!")]
  end.

Definition pr_vardef (v : vardef) : list gqlToken :=
  pu (bs "$") :: nam (vd_name v) :: pu COLON :: pr_type (vd_type v) ++
  match vd_default v with Some d => pu (bs "=") :: pr_value d | None => [] end ++ pr_dirs (vd_dirs v).

Definition pr_vardefs (l : list vardef) : list gqlToken :=
  grouped LPAREN RPAREN (concat (map pr_vardef l)).

Fixpoint pr_sel (s : selection) : list gqlToken :=
  match s with
  | SField al f args dirs sub =>
      match al with Some a => [nam a; pu COLON] | None => [] end ++
      nam f :: pr_args args ++ pr_dirs dirs ++ grouped LBRACE RBRACE (concat (map pr_sel sub))
  | SSpread n dirs => pu ELLIPSIS :: nam n :: pr_dirs dirs
  | SInline cond dirs body =>
      pu ELLIPSIS :: match cond with Some t => [nam ON; nam t] | None => [] end ++
      pr_dirs dirs ++ pu LBRACE :: concat (map pr_sel body) ++ [pu RBRACE]
  end.

Definition pr_sels (ss : list selection) : list gqlToken := concat (map pr_sel ss).

Definition pr_optype (t : optype) : bytes :=
  match t with
  | OpQuery => gqlOperationQuery
  | OpMutation => gqlOperationMutation
  | OpSubscription => gqlOperationSubscription
  end.

Definition pr_def (d : definition) : list gqlToken :=
  match d with
  | DShort body => pu LBRACE :: pr_sels body ++ [pu RBRACE]
  | DOp ty nm vars dirs body =>
      nam (pr_optype ty) :: match nm with Some n => [nam n] | None => [] end ++
      pr_vardefs vars ++ pr_dirs dirs ++ pu LBRACE :: pr_sels body ++ [pu RBRACE]
  | DFrag nm cond dirs body =>
      nam FRAGMENT :: nam nm :: nam ON :: nam cond :: pr_dirs dirs ++ pu LBRACE :: pr_sels body ++ [pu RBRACE]
  end.

Definition pr_doc (d : document) : list gqlToken := concat (map pr_def d).

(** The grammar's one restriction on names: a fragment is not called [on].
    [sel_ok] looks at the selections of the level itself, inline fragments
    included, and not below fields. *)
Fixpoint sel_ok (s : selection) : bool :=
  match s with
  | SField _ _ _ _ _ => true
  | SSpread n _ => negb (bool_decide (n = ON))
  | SInline _ _ body => forallb sel_ok body
  end.

Definition def_ok (d : definition) : bool :=
  match d with
  | DShort body => true
  | DOp _ _ _ _ body => forallb sel_ok body
  | DFrag nm _ _ body => forallb sel_ok body
  end.

Definition doc_ok (d : document) : bool := forallb def_ok d.

(** ** Execution *)

(** The fragments a document defines. *)
Definition fragments_of (d : document) : list (bytes * list selection) :=
  omap (fun x => match x with DFrag nm _ _ body => Some (nm, body) | _ => None end) d.

(** The operations a document defines: type, name (empty when anonymous) and
    selection set. *)
Definition operations_of (d : document) : list (optype * bytes * list selection) :=
  omap (fun x => match x with
                 | DShort body => Some (OpQuery, [], body)
                 | DOp ty nm _ _ body => Some (ty, default [] nm, body)
                 | DFrag _ _ _ _ => None
                 end) d.

(** Executing a selection set can perform field [f]: selected there, or in a
    fragment spread or inlined there, to any depth.  Type conditions, [@skip]
    and [@include] only remove fields, so they are not consulted. *)
Inductive performs (frs : list (bytes * list selection)) : list selection -> bytes -> Prop :=
| perf_field ss al f a d sub : SField al f a d sub ∈ ss -> performs frs ss f
| perf_spread ss n d body f : SSpread n d ∈ ss -> (n, body) ∈ frs -> performs frs body f -> performs frs ss f
| perf_inline ss c d body f : SInline c d body ∈ ss -> performs frs body f -> performs frs ss f.

(** GetOperation: the named operation, or the only one. *)
Definition get_operation (d : document) (opname : bytes) (o : optype * bytes * list selection) : Prop :=
  if decide (opname = []) then operations_of d = [o]
  else o ∈ operations_of d /\ o.1.2 = opname.

(** What the server validates before it executes anything: operation and
    fragment names are unique. *)
Definition valid (d : document) : Prop :=
  NoDup (map (fun o => o.1.2) (operations_of d)) /\ NoDup (map fst (fragments_of d)).

(** ** The lexical grammar *)

#[local] Open Scope char_scope.

(** Line terminators end comments; both are white space. *)
Fixpoint spec_ignored (comment : bool) (s : bytes) : bytes :=
  match s with
  | [] => []
  | c :: r =>
      if comment then spec_ignored (negb (bool_decide (c = LF) || bool_decide (c = CR))) r
      else if bool_decide (c ∈ [SP; TAB; LF; CR; ","]) then spec_ignored false r
      else if bool_decide (c = "#") then spec_ignored true r
      else match r with
           | c1 :: c2 :: r' =>
               if bool_decide ([c; c1; c2] = gqlByteOrderMark) then spec_ignored false r' else s
           | _ => s
           end
  end.

(** A block string's only escape is a backslash before three quotes. *)
Fixpoint spec_block (s : bytes) : option bytes :=
  match s with
  | [] => None
  | c :: r =>
      match s with
      | b :: q1 :: q2 :: q3 :: r4 =>
          if bool_decide (b = BACKSLASH /\ [q1; q2; q3] = quotes3) then spec_block r4
          else if bool_decide ([b; q1; q2] = quotes3) then Some (q3 :: r4)
          else spec_block r
      | [q1; q2; q3] => if bool_decide ([q1; q2; q3] = quotes3) then Some [] else None
      | _ => None
      end
  end.

Definition escapable : bytes := QUOTE :: BACKSLASH :: bs "/bfnrtu".

(** A quoted string: no line terminator, and a backslash only before an
    escapable character. *)
Fixpoint spec_line (s : bytes) : option bytes :=
  match s with
  | [] => None
  | c :: r =>
      if bool_decide (c = BACKSLASH) then
        match r with
        | [] => None
        | e :: r' => if bool_decide (e ∈ escapable) then spec_line r' else None
        end
      else if bool_decide (c = LF) || bool_decide (c = CR) then None
      else if bool_decide (c = QUOTE) then Some r
      else spec_line r
  end.

Definition digit (c : ascii) : bool := between "0" "9" c.

(** IntegerPart FractionalPart? ExponentPart?: the lexeme and what follows. *)
Definition spec_int (s : bytes) : option (bytes * bytes) :=
  match s with
  | "0" :: r => Some (["0"], r)
  | c :: r => if digit c then Some (spanWhile digit s) else None
  | [] => None
  end.
Definition spec_digits (s : bytes) : option (bytes * bytes) :=
  match s with
  | c :: _ => if digit c then Some (spanWhile digit s) else None
  | [] => None
  end.
Definition spec_frac (s : bytes) : option (bytes * bytes) :=
  match s with
  | "." :: r => '(d, r') ← spec_digits r; Some ("." :: d, r')
  | _ => Some ([], s)
  end.
Definition spec_exp (s : bytes) : option (bytes * bytes) :=
  match s with
  | e :: r =>
      if bool_decide (e = "e") || bool_decide (e = "E") then
        match r with
        | g :: r' =>
            if bool_decide (g = "+") || bool_decide (g = "-")
            then '(d, r2) ← spec_digits r'; Some (e :: g :: d, r2)
            else '(d, r2) ← spec_digits r; Some (e :: d, r2)
        | [] => None
        end
      else Some ([], s)
  | [] => Some ([], s)
  end.

(** A number may not be followed by a digit, a dot or a name.  The grammar lets
    two numbers abut, as in [1-2]; documents that do are left out here. *)
Definition number_ends (s : bytes) : bool :=
  match s with
  | [] => true
  | c :: _ => negb (isNameContinue c || bool_decide (c = ".") || bool_decide (c = "-") || bool_decide (c = "+"))
  end.
Definition spec_number (s : bytes) : option bytes :=
  let s1 := match s with "-" :: r => r | _ => s end in
  '(_, s2) ← spec_int s1;
  '(_, s3) ← spec_frac s2;
  '(_, s4) ← spec_exp s3;
  if number_ends s4 then Some s4 else None.

(** One token of a source that does not start with ignored text. *)
Definition spec_token (s : bytes) : option (gqlToken * bytes) :=
  match s with
  | [] => None
  | c :: r =>
      if bool_decide (take 3 s = ELLIPSIS) then Some (pu ELLIPSIS, drop 3 s)
      else if bool_decide (c ∈ gqlPunctuators) then Some (pu [c], r)
      else if bool_decide (c = QUOTE) then
        r' ← (if bool_decide (take 3 s = quotes3) then spec_block (drop 3 s) else spec_line r);
        Some (lit, r')
      else if isNameStart c then
        let '(w, r') := spanWhile isNameContinue s in Some (nam w, r')
      else r' ← spec_number s; Some (lit, r')
  end.

(** The tokens of a source; [None] when it is not lexically valid. *)
Fixpoint spec_lex_loop (n : nat) (s : bytes) : option (list gqlToken) :=
  match n with
  | O => None
  | S n =>
      match spec_ignored false s with
      | [] => Some []
      | s => '(t, r) ← spec_token s; ts ← spec_lex_loop n r; Some (t :: ts)
      end
  end.
Definition spec_lex (s : bytes) : option (list gqlToken) := spec_lex_loop (S (length s)) s.

(** Where the gate's scanner and the lexical grammar agree: no carriage
    return, and no backslash in a source that has block strings. *)
Definition plain (s : bytes) : Prop :=
  CR ∉ s /\ (BACKSLASH ∉ s \/ Contains s quotes3 = false).

End GqlSpec.
