(* ===== verification/GhLexAgree.v ===== *)
(** * The gate's scanner agrees with the GraphQL lexical grammar

    On a [plain] source that is lexically valid, the scanner yields exactly the
    tokens of the specification and does not stop short. *)

From S2P Require Import Prelude GoBytes GhLex GhDoc GhGrammar.
Import Gql GqlFacts GqlDoc GqlSpec.

Module GqlAgree.

(** ** What is left unread is a suffix of the source *)

Lemma suffix_step {A} (l : list A) x k : l `suffix_of` k -> l `suffix_of` x :: k.
Proof. apply suffix_cons_r. Qed.
#[local] Hint Resolve suffix_step suffix_nil : core.

Lemma skipIgnored_suffix s : forall b, skipIgnored b s `suffix_of` s.
Proof.
  induction s as [s IH] using length_ind. intros b. destruct s as [|c r]; [done|].
  cbn [skipIgnored].
  assert (Hr : forall b, skipIgnored b r `suffix_of` c :: r) by (intros; apply suffix_step, IH; simpl; lia).
  destruct b; [apply Hr|]. destruct (isBlank c); [apply Hr|]. case_bool_decide; [apply Hr|].
  destruct r as [|c1 [|c2 r']]; [done..|]. case_bool_decide; [|done].
  do 3 apply suffix_step. apply IH. simpl; lia.
Qed.

Lemma blockEnd_suffix s : forall r, blockEnd s = Some r -> r `suffix_of` s.
Proof.
  induction s as [s IH] using length_ind. intros r. destruct s as [|c t]; [done|]. cbn [blockEnd].
  case_match; [done|]. case_bool_decide.
  - destruct t as [|d t]; [done|]. intros Hr. apply IH in Hr; [auto|simpl; lia].
  - case_match; [intros [= <-]; exact (suffix_drop (c :: t) 3)|]. intros Hr. apply IH in Hr; [auto|simpl; lia].
Qed.

Lemma lineEnd_suffix s : forall r, lineEnd s = Some r -> r `suffix_of` s.
Proof.
  induction s as [s IH] using length_ind. intros r. destruct s as [|c t]; [done|]. cbn [lineEnd].
  case_bool_decide; [destruct t as [|d t]; [done|]; intros Hr; apply IH in Hr; [auto|simpl; lia]|].
  case_bool_decide; [done|]. case_bool_decide; [intros [= <-]; auto|].
  intros Hr. apply IH in Hr; [auto|simpl; lia].
Qed.

Lemma spanWhile_suffix f s : (spanWhile f s).2 `suffix_of` s.
Proof.
  induction s as [|c s IH]; [done|]. cbn [spanWhile]. destruct (f c); [|done].
  destruct (spanWhile f s). simpl in *. auto.
Qed.

Lemma scanAt_suffix s t r : scanAt s = Some (t, r) -> r `suffix_of` s.
Proof.
  destruct s as [|c s']; [done|]. cbn [scanAt].
  case_match; [intros [= <- <-]; exact (suffix_drop (c :: s') 3)|]. case_match; [intros [= <- <-]; auto|].
  case_bool_decide.
  - unfold scanString. intros Hs. set (o := if HasPrefix _ _ then _ else _) in Hs.
    destruct o eqn:E; subst o; [|done]. injection Hs as <- <-.
    case_match; [apply blockEnd_suffix in E|apply lineEnd_suffix in E]; (etrans; [done|apply suffix_drop]).
  - case_match.
    + pose proof (spanWhile_suffix isNameContinue (c :: s')) as Hs. destruct (spanWhile _ _). by intros [= <- <-].
    + case_match; [|done]. intros [= <- <-]. apply suffix_step, spanWhile_suffix.
Qed.

(** ** [plain] is a property of the text *)

Lemma Contains_suffix s sub r : r `suffix_of` s -> Contains s sub = false -> Contains r sub = false.
Proof.
  intros [k ->]. induction k as [|c k IH]; [done|]. cbn [app Contains]. intros [_ H]%orb_false_iff. auto.
Qed.

Lemma plain_suffix s r : r `suffix_of` s -> plain s -> plain r.
Proof.
  intros Hs [Hc Hb]. split.
  - intros H. apply Hc. destruct Hs as [k ->]. set_solver.
  - destruct Hb as [Hb|Hb]; [left|right; by eapply Contains_suffix].
    intros H. apply Hb. destruct Hs as [k ->]. set_solver.
Qed.

(** ** Each token *)

Lemma isBlank_elem c : isBlank c = bool_decide (c ∈ [SP; TAB; LF; CR; ","%char]).
Proof.
  unfold isBlank. apply Bool.eq_iff_eq_true. rewrite !orb_true_iff, !bool_decide_eq_true.
  rewrite !elem_of_cons, elem_of_nil. tauto.
Qed.

Lemma ignored_agree s : forall b, CR ∉ s -> spec_ignored b s = skipIgnored b s.
Proof.
  induction s as [s IH] using length_ind. intros b Hc. destruct s as [|c r]; [done|].
  cbn [spec_ignored skipIgnored].
  assert (Hr : forall b, spec_ignored b r = skipIgnored b r) by (intros; apply IH; [simpl; lia|set_solver]).
  rewrite isBlank_elem. rewrite (bool_decide_eq_false_2 (c = CR)) by set_solver. rewrite orb_false_r, !Hr.
  destruct b; [done|]. case_match; [done|]. case_match; [done|].
  destruct r as [|c1 [|c2 r']]; [done..|]. case_match; [|done]. apply IH; [simpl; lia|set_solver].
Qed.

Lemma line_agree s : forall r, spec_line s = Some r -> lineEnd s = Some r.
Proof.
  induction s as [s IH] using length_ind. intros r. destruct s as [|c t]; [done|].
  cbn [spec_line lineEnd]. case_match.
  - destruct t as [|e t]; [done|]. case_match; [|done]. apply IH. simpl; lia.
  - destruct (bool_decide (c = LF)); [done|]. destruct (bool_decide (c = CR)); [done|]. cbn [orb].
    case_match; [done|]. apply IH. simpl; lia.
Qed.

Lemma HasPrefix_take s p : HasPrefix s p = bool_decide (take (length p) s = p).
Proof. done. Qed.

Lemma block_agree s : forall r, BACKSLASH ∉ s -> spec_block s = Some r -> blockEnd s = Some r.
Proof.
  induction s as [|c s IH]; intros r Hb; [done|].
  assert (Hs : BACKSLASH ∉ s) by set_solver. cbn [blockEnd].
  rewrite (bool_decide_eq_false_2 (c = BACKSLASH)) by set_solver.
  rewrite HasPrefix_take. cbn [length quotes3 Nat.ltb Nat.leb].
  destruct s as [|q1 [|q2 [|q3 r4]]]; cbn [spec_block take length Nat.leb]; [done..| |].
  - case_match; [by intros [= <-]|done].
  - rewrite (bool_decide_eq_false_2 (_ /\ _)) by set_solver.
    destruct (bool_decide ([c; q1; q2] = [QUOTE; QUOTE; QUOTE])) eqn:E;
      rewrite (bool_decide_ext _ ([c; q1; q2] = [QUOTE; QUOTE; QUOTE])) by done; rewrite E.
    + by intros [= <-].
    + intros H. apply IH in H; [|done]. cbn [blockEnd] in H. exact H.
Qed.

Lemma spanWhile_app f a b :
  Forall (fun c => f c = true) a -> match b with c :: _ => f c = false | [] => True end ->
  spanWhile f (a ++ b) = (a, b).
Proof.
  induction 1 as [|c a Hc Ha IH]; intros Hb.
  - destruct b as [|c b]; [done|]. cbn [spanWhile app]. by rewrite Hb.
  - cbn [spanWhile app]. by rewrite Hc, IH.
Qed.

Lemma spanWhile_inv f s a b : spanWhile f s = (a, b) -> s = a ++ b /\ Forall (fun c => f c = true) a.
Proof.
  revert a b. induction s as [|c s IH]; intros a b; cbn [spanWhile]; [by intros [= <- <-]|].
  destruct (f c) eqn:E; [|by intros [= <- <-]]. destruct (spanWhile f s) as [a' b'].
  intros [= <- <-]. destruct (IH _ _ eq_refl) as [-> H]. auto.
Qed.

Notation numeric := (Forall (fun c => isNumberContinue c = true)).

Lemma digits_numeric a : Forall (fun c => digit c = true) a -> numeric a.
Proof. intros H. eapply Forall_impl; [exact H|]. intros c Hc. cbn beta in *. unfold isNumberContinue. unfold digit in Hc. by rewrite Hc. Qed.

Lemma spec_digits_inv s a b : spec_digits s = Some (a, b) -> s = a ++ b /\ numeric a.
Proof.
  unfold spec_digits. destruct s as [|c s]; [done|]. destruct (digit c) eqn:Hd; [|done].
  intros E%(inj Some). apply spanWhile_inv in E as [-> ?]. auto using digits_numeric.
Qed.

Lemma spec_int_inv s a b : spec_int s = Some (a, b) ->
  exists c a', s = c :: a' ++ b /\ digit c = true /\ numeric a'.
Proof.
  unfold spec_int. destruct s as [|c s]; [done|].
  assert (Hd : (if digit c then Some (spanWhile digit (c :: s)) else None) = Some (a, b) ->
    exists c0 a', c :: s = c0 :: a' ++ b /\ digit c0 = true /\ numeric a').
  { destruct (digit c) eqn:Hd; [|done]. cbn [spanWhile]. rewrite Hd.
    destruct (spanWhile digit s) as [a1 b1] eqn:E. intros [= <- <-].
    apply spanWhile_inv in E as [-> ?]. exists c, a1. auto using digits_numeric. }
  destruct (decide (c = "0"%char)) as [->|Hne].
  - intros [= <- <-]. exists "0"%char, []. auto.
  - intros H. apply Hd. revert H. destruct c as [[] [] [] [] [] [] [] []]; try done; by destruct Hne.
Qed.

Lemma spec_frac_inv s a b : spec_frac s = Some (a, b) -> s = a ++ b /\ numeric a.
Proof.
  intros H. assert (Hc : (a = [] /\ b = s) \/ exists r d, s = "."%char :: r /\ spec_digits r = Some (d, b) /\ a = "."%char :: d).
  { unfold spec_frac in H. destruct s as [|c s]; [left; by injection H|].
    destruct (decide (c = "."%char)) as [->|Hne].
    - right. destruct (spec_digits s) as [[d r']|] eqn:E; [|done]. simpl in H. simplify_eq. eauto.
    - left. revert H. destruct c as [[] [] [] [] [] [] [] []]; try (by intros [= <- <-]); by destruct Hne. }
  destruct Hc as [[-> ->]|(r & d & -> & Hd & ->)]; [done|].
  apply spec_digits_inv in Hd as [-> Hn]. split; [done|]. by constructor.
Qed.

Lemma spec_exp_inv s a b : spec_exp s = Some (a, b) -> s = a ++ b /\ numeric a.
Proof.
  unfold spec_exp. destruct s as [|e r]; [by intros [= <- <-]|].
  destruct (bool_decide (e = "e"%char) || bool_decide (e = "E"%char)) eqn:He; [|by intros [= <- <-]].
  assert (Hne : isNumberContinue e = true).
  { unfold isNumberContinue. apply orb_true_iff in He as [H|H]; rewrite H; by rewrite ?orb_true_r. }
  destruct r as [|g r']; [done|].
  destruct (bool_decide (g = "+"%char) || bool_decide (g = "-"%char)) eqn:Hg.
  - assert (Hng : isNumberContinue g = true).
    { unfold isNumberContinue. apply orb_true_iff in Hg as [H|H]; rewrite H; by rewrite ?orb_true_r. }
    destruct (spec_digits r') as [[d r2]|] eqn:E; [|done]. intros [= <- <-].
    apply spec_digits_inv in E as [-> ?]. split; [done|]. by repeat constructor.
  - destruct (spec_digits (g :: r')) as [[d r2]|] eqn:E; [|done]. intros [= <- <-].
    apply spec_digits_inv in E as [-> ?]. split; [done|]. by constructor.
Qed.

Lemma number_ends_stop s : number_ends s = true -> match s with c :: _ => isNumberContinue c = false | [] => True end.
Proof.
  destruct s as [|c s]; [done|]. simpl. rewrite negb_true_iff, !orb_false_iff. intros [[[Hn Hd] Hm] Hp].
  unfold isNumberContinue. unfold isNameContinue in Hn. apply orb_false_iff in Hn as [Hs H09].
  rewrite H09, Hd, Hm, Hp. cbn [orb].
  assert (He : forall x, isNameStart x = true -> bool_decide (c = x) = false).
  { intros x Hx. apply bool_decide_eq_false. intros ->. congruence. }
  by rewrite (He "e"%char), (He "E"%char).
Qed.

(** A valid number is a minus sign or a digit, then numeric characters up to
    where the scanner stops. *)
Lemma number_agree s r : spec_number s = Some r ->
  exists c s', s = c :: s' /\ (bool_decide (c = "-"%char) || between "0" "9" c) = true /\
    (spanWhile isNumberContinue s').2 = r.
Proof.
  unfold spec_number. remember (match s with "-"%char :: r => r | _ => s end) as s1 eqn:Hs1.
  destruct (spec_int s1) as [[a1 s2]|] eqn:E1; [|done]. cbn.
  destruct (spec_frac s2) as [[a2 s3]|] eqn:E2; [|done]. cbn.
  destruct (spec_exp s3) as [[a3 s4]|] eqn:E3; [|done]. cbn.
  destruct (number_ends s4) eqn:E4; [|done]. intros [= <-].
  apply spec_int_inv in E1 as (d & a1' & E1 & Hd & H1).
  apply spec_frac_inv in E2 as [-> H2]. apply spec_exp_inv in E3 as [-> H3]. apply number_ends_stop in E4.
  assert (Hn : numeric (d :: a1' ++ a2 ++ a3)).
  { constructor; [by unfold isNumberContinue; unfold digit in Hd; rewrite Hd|]. by rewrite !Forall_app. }
  assert (Hs : s = s1 \/ s = "-"%char :: s1).
  { destruct s as [|c s]; [auto|]. destruct c as [[] [] [] [] [] [] [] []]; auto; right; by rewrite Hs1. }
  destruct Hs as [->| ->].
  - exists d, (a1' ++ a2 ++ a3 ++ s4). unfold digit in Hd. rewrite Hd, orb_true_r. split_and!; [done..|].
    replace (a1' ++ a2 ++ a3 ++ s4) with ((a1' ++ a2 ++ a3) ++ s4) by (by rewrite <- !app_assoc).
    rewrite spanWhile_app; [done| |done]. by inversion Hn.
  - exists "-"%char, s1. split_and!; [done..|]. rewrite E1.
    replace (d :: a1' ++ a2 ++ a3 ++ s4) with ((d :: a1' ++ a2 ++ a3) ++ s4) by (cbn; by rewrite <- !app_assoc).
    by rewrite spanWhile_app.
Qed.

Lemma take3_quotes s : take 3 s = quotes3 -> s = quotes3 ++ drop 3 s.
Proof. intros H. by rewrite <- H, take_drop. Qed.

Lemma token_agree s t r : plain s -> spec_token s = Some (t, r) -> scanAt s = Some (t, r).
Proof.
  intros [Hcr Hb]. destruct s as [|c s']; [done|]. cbn [spec_token scanAt].
  rewrite HasPrefix_take. change (length (bs "...")) with 3%nat. change (bs "...") with ELLIPSIS.
  case_match; [done|]. unfold isPunctuator. case_match; [done|].
  destruct (bool_decide (c = QUOTE)) eqn:Hq.
  - unfold scanString. rewrite HasPrefix_take. change (length quotes3) with 3%nat.
    change (drop 1 (c :: s')) with s'.
    destruct (bool_decide (take 3 (c :: s') = quotes3)) eqn:H3.
    + destruct (spec_block _) as [r'|] eqn:E; [|done]. intros [= <- <-].
      destruct Hb as [Hb|Hb].
      * rewrite (block_agree _ r'); [done| |done]. intros Hi. apply Hb.
        rewrite <- (take_drop 3 (c :: s')). set_solver.
      * exfalso. revert Hb. cbn [Contains]. rewrite HasPrefix_take. change (length quotes3) with 3%nat. by rewrite H3.
    + destruct (spec_line s') as [r'|] eqn:E; [|done]. intros [= <- <-]. by rewrite (line_agree _ r').
  - case_match; [done|]. destruct (spec_number (c :: s')) as [r'|] eqn:E; [|done]. intros [= <- <-].
    apply number_agree in E as (c0 & s0 & [= <- <-] & Hc & <-). by rewrite Hc.
Qed.

(** ** Whole sources *)

Lemma lex_agree n : forall s ts, plain s -> spec_lex_loop n s = Some ts -> view (newScanner s) ts false.
Proof.
  induction n as [|n IH]; intros s ts Hp; [done|]. cbn [spec_lex_loop].
  rewrite ignored_agree by apply Hp. pose proof (skipIgnored_suffix s false) as Hsuf.
  assert (Hnext : next (newScanner s) = let '(t, sc') := scan (newScanner s) in Done t sc') by done.
  unfold scan in Hnext. change (sc_rest (newScanner s)) with s in Hnext.
  destruct (skipIgnored false s) as [|c s'] eqn:E.
  - intros [= <-]. by eapply (view_end _ _ Hnext).
  - destruct (spec_token (c :: s')) as [[t r]|] eqn:Et; [|done]. cbn [mbind option_bind].
    destruct (spec_lex_loop n r) as [ts'|] eqn:El; [|done]. intros [= <-].
    pose proof (plain_suffix _ _ Hsuf Hp) as Hp'. apply token_agree in Et; [|done].
    rewrite Et in Hnext. eapply view_tok; [exact Hnext|]. apply IH; [|done].
    eapply plain_suffix; [|done]. by eapply scanAt_suffix.
Qed.

Lemma spec_lex_view s ts : plain s -> spec_lex s = Some ts -> view (newScanner s) ts false.
Proof. apply lex_agree. Qed.

End GqlAgree.
