(* ===== verification/GhParseFacts.v ===== *)
(** * The gate's reader on GraphQL's own grammar

    On the token form of any executable document the reader returns exactly the
    summary [summary] of its syntax tree: argument lists, directives, variable
    definitions and nested selections are skipped whole, aliases are read
    through, spreads recorded and inline fragments merged. *)

From S2P Require Import Prelude GoBytes GhLex GhDoc GhGrammar.
Import Gql GqlFacts GqlDoc GqlSpec.

Module GqlParse.

#[local] Open Scope gql_scope.

(** ** Balanced token lists *)

(** [skips o c ts]: inside a group, [skipBalanced]'s loop passes over [ts] and
    is back at the same depth. *)
Definition skips (o c : bytes) (ts : list gqlToken) : Prop :=
  forall n d sc rest b Q, 1 <= d -> view sc (ts ++ rest) b -> (length (ts ++ rest) < n)%nat ->
  (forall n' sc', view sc' rest b -> (length rest < n')%nat -> wp (skipBalanced_loop o c d n') sc' Q) ->
  wp (skipBalanced_loop o c d n) sc Q.

Lemma skips_nil o c : skips o c [].
Proof. intros n d sc rest b Q Hd Hv Hn H. by apply H. Qed.

Lemma skips_app o c ts1 ts2 : skips o c ts1 -> skips o c ts2 -> skips o c (ts1 ++ ts2).
Proof.
  intros H1 H2 n d sc rest b Q Hd Hv Hn H. rewrite <- app_assoc in Hv, Hn.
  eapply H1; [done..|]. intros n' sc' Hv' Hn'. by eapply H2.
Qed.

Lemma skips_concat {A} o c (f : A -> list gqlToken) l :
  Forall (fun x => skips o c (f x)) l -> skips o c (concat (map f l)).
Proof. induction 1; [apply skips_nil|]. by apply skips_app. Qed.

Lemma skips_tok o c t : punct t o = false -> punct t c = false -> skips o c [t].
Proof.
  intros Ho Hc n d sc rest b Q Hd Hv Hn H. destruct n as [|n]; [simpl in Hn; lia|].
  cbn [skipBalanced_loop]. apply scan_bind. eapply wp_next_cons; [exact Hv|]. intros sc' Hv'.
  assert (Hk : wp (skipBalanced_loop o c d n) sc' Q) by (apply H; [done|simpl in Hn; lia]).
  unfold punct in Ho, Hc. destruct (bool_decide (kind t = gqlKindPunct)); cbn [negb andb] in *; [|done].
  by rewrite Ho, Hc.
Qed.

Lemma skips_group o c ts : o <> c -> skips o c ts -> skips o c (pu o :: ts ++ [pu c]).
Proof.
  intros Hoc Hts n d sc rest b Q Hd Hv Hn H. destruct n as [|n]; [simpl in Hn; lia|].
  cbn [app length] in Hv, Hn. rewrite <- app_assoc in Hv, Hn.
  cbn [skipBalanced_loop]. apply scan_bind. eapply wp_next_cons; [exact Hv|]. intros sc1 Hv1.
  cbn [kind text pu]. rewrite !bool_decide_eq_true_2 by done. cbn [negb].
  eapply Hts; [|exact Hv1| |]; [lia..|].
  intros n2 sc2 Hv2 Hn2. destruct n2 as [|n2]; [simpl in Hn2; lia|].
  cbn [skipBalanced_loop]. apply scan_bind. eapply wp_next_cons; [exact Hv2|]. intros sc3 Hv3.
  cbn [kind text pu]. rewrite bool_decide_eq_true_2 by done. cbn [negb].
  rewrite bool_decide_eq_false_2 by done. rewrite bool_decide_eq_true_2 by done.
  destruct (d + 1 - 1 =? 0) eqn:E; [apply Z.eqb_eq in E; lia|].
  replace (d + 1 - 1) with d by lia. apply H; [done|simpl in Hn2; lia].
Qed.

(** Skipped whole by both uses of [skipBalanced]. *)
Definition inert (ts : list gqlToken) : Prop := skips LPAREN RPAREN ts /\ skips LBRACE RBRACE ts.

Definition plainTok (t : gqlToken) : bool :=
  negb (punct t LPAREN || punct t RPAREN || punct t LBRACE || punct t RBRACE).

Lemma inert_nil : inert [].
Proof. split; apply skips_nil. Qed.
Lemma inert_app ts1 ts2 : inert ts1 -> inert ts2 -> inert (ts1 ++ ts2).
Proof. intros [] []. split; by apply skips_app. Qed.
Lemma inert_tok t : plainTok t = true -> inert [t].
Proof.
  unfold plainTok. rewrite negb_true_iff, !orb_false_iff. intros [[[? ?] ?] ?]. split; by apply skips_tok.
Qed.
Lemma inert_cons t ts : plainTok t = true -> inert ts -> inert (t :: ts).
Proof. intros ? ?. apply (inert_app [t]); [by apply inert_tok|done]. Qed.
Lemma inert_concat {A} (f : A -> list gqlToken) l : Forall (fun x => inert (f x)) l -> inert (concat (map f l)).
Proof. intros H. split; apply skips_concat; eapply Forall_impl; [exact H|by intros ? []|exact H|by intros ? []]. Qed.
Lemma inert_paren ts : inert ts -> inert (pu LPAREN :: ts ++ [pu RPAREN]).
Proof.
  intros [Hp Hb]. split; [by apply skips_group|].
  apply (skips_app _ _ [_]); [by apply skips_tok|]. apply skips_app; [done|by apply skips_tok].
Qed.
Lemma inert_brace ts : inert ts -> inert (pu LBRACE :: ts ++ [pu RBRACE]).
Proof.
  intros [Hp Hb]. split; [|by apply skips_group].
  apply (skips_app _ _ [_]); [by apply skips_tok|]. apply skips_app; [done|by apply skips_tok].
Qed.
Lemma inert_name w ts : inert ts -> inert (nam w :: ts).
Proof. by apply inert_cons. Qed.
#[local] Hint Resolve inert_nil inert_app inert_concat inert_paren inert_brace inert_name : inert.
#[local] Hint Extern 3 (inert (_ :: _)) => (apply inert_cons; [reflexivity|]) : inert.

Fixpoint value_ind' (Q : value -> Prop) (Hvar : forall n, Q (VVar n)) (Hlit : Q VLit) (Hname : forall n, Q (VName n))
    (Hlist : forall vs, Forall Q vs -> Q (VList vs))
    (Hobj : forall fs, Forall (fun x => Q x.2) fs -> Q (VObj fs)) (v : value) : Q v :=
  match v with
  | VVar n => Hvar n
  | VLit => Hlit
  | VName n => Hname n
  | VList vs => Hlist vs ((fix go l : Forall Q l :=
      match l with [] => @List.Forall_nil _ _ | x :: l =>
        @List.Forall_cons _ _ x l (value_ind' Q Hvar Hlit Hname Hlist Hobj x) (go l) end) vs)
  | VObj fs => Hobj fs ((fix go l : Forall (fun x => Q x.2) l :=
      match l with [] => @List.Forall_nil _ _ | x :: l =>
        @List.Forall_cons _ (fun x => Q x.2) x l (value_ind' Q Hvar Hlit Hname Hlist Hobj x.2) (go l) end) fs)
  end.

Lemma inert_value v : inert (pr_value v).
Proof.
  induction v as [n| |n|vs IH|fs IH] using value_ind'; cbn [pr_value]; auto with inert.
  apply inert_brace, inert_concat. eapply Forall_impl; [exact IH|]. intros [n v] Hv. simpl in Hv. auto with inert.
Qed.
#[local] Hint Resolve inert_value : inert.

Lemma inert_fields (l : list (bytes * value)) : inert (concat (map (fun '(n, v) => nam n :: pu COLON :: pr_value v) l)).
Proof. apply inert_concat, Forall_forall. intros [n v] _. auto with inert. Qed.
#[local] Hint Resolve inert_fields : inert.

Lemma inert_args a : inert (pr_args a).
Proof. unfold pr_args, grouped. case_match eqn:E; [auto with inert|]. rewrite <- E. auto with inert. Qed.
#[local] Hint Resolve inert_args : inert.

Lemma inert_dirs d : inert (pr_dirs d).
Proof. apply inert_concat, Forall_forall. intros [n a] _. auto with inert. Qed.
#[local] Hint Resolve inert_dirs : inert.

Lemma inert_type t : inert (pr_type t).
Proof. induction t; cbn [pr_type]; auto with inert. Qed.
#[local] Hint Resolve inert_type : inert.

Lemma inert_vardefs l : inert (concat (map pr_vardef l)).
Proof.
  apply inert_concat, Forall_forall. intros [n t d ds] _. unfold pr_vardef.
  cbn [vd_name vd_type vd_default vd_dirs]. destruct d; auto 10 with inert.
Qed.

Fixpoint selection_ind' (Q : selection -> Prop)
    (Hf : forall al f a d sub, Forall Q sub -> Q (SField al f a d sub))
    (Hs : forall n d, Q (SSpread n d))
    (Hi : forall c d body, Forall Q body -> Q (SInline c d body)) (s : selection) : Q s :=
  let go := fix go l : Forall Q l :=
    match l with [] => @List.Forall_nil _ _ | x :: l =>
      @List.Forall_cons _ _ x l (selection_ind' Q Hf Hs Hi x) (go l) end in
  match s with
  | SField al f a d sub => Hf al f a d sub (go sub)
  | SSpread n d => Hs n d
  | SInline c d body => Hi c d body (go body)
  end.

Lemma inert_sel s : inert (pr_sel s).
Proof.
  induction s as [al f a d sub IH|n d|c d body IH] using selection_ind'; cbn [pr_sel].
  - assert (inert (grouped LBRACE RBRACE (concat (map pr_sel sub)))).
    { unfold grouped. case_match eqn:E; [auto with inert|]. rewrite <- E. auto with inert. }
    destruct al; cbn [app]; auto 10 with inert.
  - auto with inert.
  - destruct c; cbn [app]; auto 10 with inert.
Qed.

Lemma inert_sels ss : inert (pr_sels ss).
Proof. apply inert_concat, Forall_forall. intros s _. apply inert_sel. Qed.

(** ** Skipping groups and directives *)

(** The next token, if any, is none of these punctuators. *)
Definition not_at (l : list bytes) (ts : list gqlToken) : Prop :=
  match ts with t :: _ => Forall (fun p => punct t p = false) l | [] => True end.

Lemma wp_skipBalanced o c ts sc rest b (Q : unit -> gqlScanner -> Prop) :
  o <> c -> skips o c ts -> view sc (ts ++ pu c :: rest) b -> (forall sc', view sc' rest b -> Q tt sc') ->
  wp (skipBalanced o c) sc Q.
Proof.
  intros Hoc Hts Hv HQ. eapply wp_fueled; [done|]. intros n Hn.
  eapply Hts; [lia|done|done|]. intros n' sc' Hv' Hn'. destruct n' as [|n']; [simpl in Hn'; lia|].
  cbn [skipBalanced_loop]. apply scan_bind. eapply wp_next_cons; [exact Hv'|]. intros sc2 Hv2.
  cbn [kind text pu]. rewrite bool_decide_eq_true_2 by done. cbn [negb].
  rewrite bool_decide_eq_false_2 by done. rewrite bool_decide_eq_true_2 by done. by apply wp_ret, HQ.
Qed.

Lemma wp_skipGroup o c ts sc rest b (Q : unit -> gqlScanner -> Prop) :
  o <> c -> skips o c ts -> not_at [o] rest -> view sc (grouped o c ts ++ rest) b ->
  (forall sc', view sc' rest b -> Q tt sc') -> wp (skipGroup o c) sc Q.
Proof.
  intros Hoc Hts Hr Hv HQ. apply scan_bind. eapply wp_peekIs; [exact Hv|]. intros sc1 Hv1.
  destruct ts as [|t ts].
  - cbn [grouped app] in *. destruct rest as [|t rest]; [by apply wp_ret, HQ|].
    inversion Hr as [|? ? E]; subst. rewrite E. by apply wp_ret, HQ.
  - cbn [grouped app] in *. unfold punct at 1. cbn [kind text pu]. rewrite !bool_decide_eq_true_2 by done. cbn [andb].
    apply scan_bind. eapply wp_next_cons; [exact Hv1|]. intros sc2 Hv2.
    eapply wp_skipBalanced; [done|exact Hts| |exact HQ]. cbn [app]. by rewrite <- app_assoc in Hv2.
Qed.

Lemma wp_nextName w ts sc b (Q : bytes -> gqlScanner -> Prop) :
  view sc (nam w :: ts) b -> (forall sc', view sc' ts b -> Q w sc') -> wp nextName sc Q.
Proof. intros Hv HQ. apply scan_bind. eapply wp_next_cons; [exact Hv|]. intros. by apply wp_ret, HQ. Qed.

Lemma wp_expect p ts sc b (Q : unit -> gqlScanner -> Prop) :
  view sc (pu p :: ts) b -> (forall sc', view sc' ts b -> Q tt sc') -> wp (expect p) sc Q.
Proof.
  intros Hv HQ. apply scan_bind. eapply wp_next_cons; [exact Hv|]. intros.
  unfold punct. cbn [kind text pu]. rewrite !bool_decide_eq_true_2 by done. by apply wp_ret, HQ.
Qed.

Lemma pr_dirs_cons w a d rest :
  pr_dirs ((w, a) :: d) ++ rest = pu AT :: nam w :: pr_args a ++ pr_dirs d ++ rest.
Proof. unfold pr_dirs. cbn [map concat app]. by rewrite <- app_assoc. Qed.

Lemma wp_skipDirectives_loop rest b (Q : unit -> gqlScanner -> Prop) d : not_at [LPAREN; AT] rest ->
  forall n sc, view sc (pr_dirs d ++ rest) b -> (length d < n)%nat -> (forall sc', view sc' rest b -> Q tt sc') ->
  wp (skipDirectives_loop n) sc Q.
Proof.
  intros Hr. induction d as [|[w a] d IH]; intros n sc Hv Hn HQ; (destruct n as [|n]; [simpl in Hn; lia|]);
    cbn [skipDirectives_loop]; apply scan_bind.
  - change (pr_dirs [] ++ rest) with rest in *. eapply wp_peekIs; [exact Hv|]. intros sc1 Hv1.
    destruct rest as [|t rest]; [by apply wp_ret, HQ|].
    inversion Hr as [|? ? _ E]; subst. inversion E as [|? ? Ea]; subst. rewrite Ea. by apply wp_ret, HQ.
  - rewrite pr_dirs_cons in Hv. eapply wp_peekIs; [exact Hv|]. intros sc1 Hv1.
    change (punct (pu AT) AT) with true. cbn [negb].
    apply scan_bind. eapply wp_next_cons; [exact Hv1|]. intros sc2 Hv2.
    apply scan_bind. eapply wp_nextName; [exact Hv2|]. intros sc3 Hv3. apply scan_bind.
    eapply wp_skipGroup; [done|apply inert_fields| |exact Hv3|].
    + destruct d as [|[? ?] ?]; [|by repeat constructor]. change (pr_dirs [] ++ rest) with rest.
      destruct rest as [|t rest]; [done|]. inversion Hr; subst. by repeat constructor.
    + intros sc4 Hv4. eapply IH; [exact Hv4|simpl in Hn; lia|done].
Qed.

Lemma length_dirs d : (length d <= length (pr_dirs d))%nat.
Proof.
  induction d as [|[n a] d IH]; [done|]. rewrite <- (app_nil_r (pr_dirs (_ :: _))), pr_dirs_cons, app_nil_r.
  cbn [length]. rewrite length_app. lia.
Qed.

Lemma wp_skipDirectives d rest sc b (Q : unit -> gqlScanner -> Prop) : not_at [LPAREN; AT] rest ->
  view sc (pr_dirs d ++ rest) b -> (forall sc', view sc' rest b -> Q tt sc') -> wp skipDirectives sc Q.
Proof.
  intros Hr Hv HQ. eapply wp_fueled; [exact Hv|]. intros n Hn. eapply wp_skipDirectives_loop; [done..| |done].
  rewrite length_app in Hn. pose proof (length_dirs d). lia.
Qed.

Lemma not_at_grouped l o c ts rest : o ∉ l -> not_at l rest -> not_at l (grouped o c ts ++ rest).
Proof.
  intros Ho Hr. destruct ts as [|t ts]; [done|]. apply Forall_forall. intros p Hp.
  unfold punct. cbn [kind text pu]. rewrite andb_false_iff. right. apply bool_decide_eq_false. by intros <-.
Qed.

Lemma not_at_dirs l d rest : AT ∉ l -> not_at l rest -> not_at l (pr_dirs d ++ rest).
Proof.
  intros Ho Hr. destruct d as [|[w a] d]; [done|]. apply Forall_forall. intros p Hp.
  unfold punct. cbn [kind text pu]. rewrite andb_false_iff. right. apply bool_decide_eq_false. by intros <-.
Qed.

Lemma not_at_sels ss rest : not_at [LPAREN; AT; LBRACE; COLON] (pr_sels ss ++ pu RBRACE :: rest).
Proof. destruct ss as [|[[]| |[]] ss]; by repeat constructor. Qed.

Lemma not_at_weaken l l' ts : l' ⊆ l -> not_at l ts -> not_at l' ts.
Proof. intros Hl. destruct ts as [|t ts]; [done|]. cbn [not_at]. rewrite !Forall_forall. set_solver. Qed.

(** ** What the reader makes of a selection set *)

Fixpoint collect1 (depth : nat) (acc : gqlSelection) (s : selection) : gqlSelection :=
  match s with
  | SField _ f _ _ _ => addField acc f
  | SSpread n _ => addSpread acc n
  | SInline cond _ body =>
      if (maxInlineFragmentDepth <=? depth)%nat ||
         (negb (bool_decide (default [] cond = [])) && negb (bool_decide (default [] cond = mutationRootType)))
      then markUnresolvable acc
      else merge acc (fold_left (collect1 (S depth)) body emptySelection)
  end.
Definition collect (depth : nat) (acc : gqlSelection) (ss : list selection) : gqlSelection :=
  fold_left (collect1 depth) ss acc.

(** The tokens of a selection set from after its opening brace. *)
Notation closing ss rest := (pr_sels ss ++ pu RBRACE :: rest).

Lemma closing_cons s ss rest : closing (s :: ss) rest = pr_sel s ++ closing ss rest.
Proof. unfold pr_sels. cbn [map concat]. by rewrite <- app_assoc. Qed.

Lemma field_tokens f args dirs sub rest :
  (nam f :: pr_args args ++ pr_dirs dirs ++ grouped LBRACE RBRACE (concat (map pr_sel sub))) ++ rest =
  nam f :: pr_args args ++ pr_dirs dirs ++ grouped LBRACE RBRACE (pr_sels sub) ++ rest.
Proof. cbn [app]. by rewrite <- !app_assoc. Qed.

(** What follows a field's name: arguments, directives and a nested selection,
    each skipped whole. *)
Lemma wp_field_rest {A} (k : P A) args dirs sub tail sc b Q :
  not_at [LPAREN; AT; LBRACE; COLON] tail ->
  view sc (pr_args args ++ pr_dirs dirs ++ grouped LBRACE RBRACE (pr_sels sub) ++ tail) b ->
  (forall sc', view sc' tail b -> wp k sc' Q) ->
  wp (skipGroup LPAREN RPAREN ;; skipDirectives ;; skipGroup LBRACE RBRACE ;; k) sc Q.
Proof.
  intros Ht Hv Hk. apply scan_bind. eapply wp_skipGroup; [done|apply inert_fields| |exact Hv|].
  { apply not_at_dirs; [set_solver|]. apply not_at_grouped; [set_solver|]. eapply not_at_weaken; [|done]. set_solver. }
  intros sc1 Hv1. apply scan_bind. eapply wp_skipDirectives; [|exact Hv1|].
  { apply not_at_grouped; [set_solver|]. eapply not_at_weaken; [|done]. set_solver. }
  intros sc2 Hv2. apply scan_bind. eapply wp_skipGroup; [done|apply inert_sels| |exact Hv2|done].
  eapply not_at_weaken; [|done]. set_solver.
Qed.

Lemma isName_nam w : isName (nam w) = true.
Proof. done. Qed.
Lemma punct_nam w p : punct (nam w) p = false.
Proof. done. Qed.
Lemma name_nam w v : name (nam w) v = bool_decide (w = v).
Proof. done. Qed.

(** After the ellipsis: a spread or an inline fragment. *)
Lemma wp_readFragmentSelection inner acc depth s toks tail sc b (Q : gqlSelection -> gqlScanner -> Prop) :
  sel_ok s = true -> pr_sel s = pu ELLIPSIS :: toks -> not_at [LPAREN; AT; LBRACE; COLON] tail ->
  view sc (toks ++ tail) b ->
  (forall c d body, s = SInline c d body -> forall sc1 R, view sc1 (closing body tail) b ->
     (length (closing body tail) <= length (toks ++ tail))%nat ->
     (forall sc2, view sc2 tail b -> R (collect (S depth) emptySelection body) sc2) -> wp inner sc1 R) ->
  (forall sc', view sc' tail b -> Q (collect1 depth acc s) sc') ->
  wp (readFragmentSelection inner acc depth) sc Q.
Proof.
  intros Hok Hpr Htail Hv Hin HQ. unfold readFragmentSelection. set (braced := fun condition : bytes => _).
  destruct s as [al f a d sub|n d|c d body]; cbn [pr_sel] in Hpr; [by destruct al| |]; injection Hpr as <-.
  - cbn [app] in Hv. apply scan_bind. eapply wp_peek_cons; [exact Hv|]. intros sc1 Hv1.
    rewrite name_nam, isName_nam. cbn [sel_ok] in Hok. apply negb_true_iff in Hok. rewrite Hok.
    apply scan_bind. eapply wp_next_cons; [exact Hv1|]. intros sc2 Hv2.
    apply scan_bind. eapply wp_skipDirectives; [|exact Hv2|intros; by apply wp_ret, HQ].
    eapply not_at_weaken; [|done]. set_solver.
  - assert (Hb : forall sc1, view sc1 (pr_dirs d ++ pu LBRACE :: closing body tail) b -> wp (braced (default [] c)) sc1 Q).
    { intros sc1 Hv1. subst braced. cbn beta. apply scan_bind. eapply wp_skipDirectives; [|exact Hv1|].
      { by repeat constructor. }
      intros sc2 Hv2. apply scan_bind. eapply wp_peekIs; [exact Hv2|]. intros sc3 Hv3.
      change (punct (pu LBRACE) LBRACE) with true. cbn [negb].
      apply scan_bind. eapply wp_next_cons; [exact Hv3|]. intros sc4 Hv4.
      cbn [collect1] in HQ. case_match.
      - apply scan_bind. eapply wp_skipBalanced; [done|apply inert_sels|exact Hv4|]. intros. by apply wp_ret, HQ.
      - apply scan_bind. eapply Hin; [done|exact Hv4| |].
        + destruct c; cbn [app length]; rewrite ?length_app; cbn [length app]; rewrite ?length_app; cbn [length];
            unfold pr_sels; rewrite ?length_app; cbn [length]; lia.
        + intros sc5 Hv5. by apply wp_ret, HQ. }
    assert (E : (pr_dirs d ++ pu LBRACE :: concat (map pr_sel body) ++ [pu RBRACE]) ++ tail =
      pr_dirs d ++ pu LBRACE :: closing body tail).
    { unfold pr_sels. rewrite <- app_assoc. cbn [app]. by rewrite <- app_assoc. }
    destruct c as [t|]; cbn [app] in Hv; rewrite E in Hv.
    + apply scan_bind. eapply wp_peek_cons; [exact Hv|]. intros sc1 Hv1. change (name (nam ON) ON) with true. cbn iota.
      apply scan_bind. eapply wp_next_cons; [exact Hv1|]. intros sc2 Hv2.
      apply scan_bind. eapply wp_nextName; [exact Hv2|]. exact Hb.
    + assert (Hh : exists t ts, pr_dirs d ++ pu LBRACE :: closing body tail = t :: ts /\ isName t = false)
        by (destruct d as [|[? ?] ?]; eauto).
      destruct Hh as (t & ts & Et & Hn). rewrite Et in Hv.
      apply scan_bind. eapply wp_peek_cons; [exact Hv|]. intros sc1 Hv1.
      assert (name t ON = false) as -> by (unfold name; unfold isName in Hn; by rewrite Hn).
      rewrite Hn. apply (Hb sc1). by rewrite Et.
Qed.

Lemma wp_selectionFields_loop n : forall ss depth acc sc rest b (Q : gqlSelection -> gqlScanner -> Prop),
  forallb sel_ok ss = true -> view sc (closing ss rest) b -> (length (closing ss rest) < n)%nat ->
  (forall sc', view sc' rest b -> Q (collect depth acc ss) sc') ->
  wp (selectionFields_loop n depth acc) sc Q.
Proof.
  induction n as [|n IH]; intros ss depth acc sc rest b Q Hok Hv Hn HQ; [lia|]. cbn [selectionFields_loop].
  destruct ss as [|s ss].
  { apply scan_bind. eapply wp_next_cons; [exact Hv|]. intros sc1 Hv1. by apply wp_ret, HQ. }
  cbn [forallb] in Hok. apply andb_true_iff in Hok as [Hs Hss]. rewrite closing_cons in Hv, Hn.
  pose proof (not_at_sels ss rest) as Htail.
  assert (Hnext : forall s' sc', collect1 depth acc s = s' -> (length (closing ss rest) < n)%nat ->
    view sc' (closing ss rest) b -> wp (selectionFields_loop n depth s') sc' Q).
  { intros s' sc' <- Hl Hv'. by eapply IH. }
  assert (Hfrag : forall toks, pr_sel s = pu ELLIPSIS :: toks -> wp (selectionFields_loop (S n) depth acc) sc Q).
  { intros toks Et. rewrite Et in Hv, Hn. cbn [app length] in Hn. apply scan_bind. eapply wp_next_cons; [exact Hv|].
    intros sc1 Hv1. cbn [punct]. change (punct (pu ELLIPSIS) RBRACE) with false.
    change (punct (pu ELLIPSIS) ELLIPSIS) with true. cbn iota. apply scan_bind.
    eapply wp_readFragmentSelection; [exact Hs|exact Et|exact Htail|exact Hv1| |].
    - intros c d body -> sc2 R Hv2 Hl2 HR. cbn [sel_ok] in Hs. eapply IH; [exact Hs|exact Hv2|lia|exact HR].
    - intros sc2 Hv2. apply Hnext; [done| |done]. rewrite length_app in Hn. lia. }
  destruct s as [al f args dirs sub|w d|c d body]; [|by eapply Hfrag..].
  assert (Hl : (length (closing ss rest) < n)%nat).
  { rewrite length_app in Hn. destruct al; cbn [pr_sel app length] in Hn; lia. }
  assert (Hrest : forall sc1, view sc1 (pr_args args ++ pr_dirs dirs ++ grouped LBRACE RBRACE (pr_sels sub) ++ closing ss rest) b ->
    wp (skipGroup LPAREN RPAREN ;; skipDirectives ;; skipGroup LBRACE RBRACE ;;
        selectionFields_loop n depth (addField acc f)) sc1 Q).
  { intros sc1 Hv1. eapply wp_field_rest; [exact Htail|exact Hv1|]. intros sc2 Hv2. by apply Hnext. }
  destruct al as [a|]; cbn [pr_sel app] in Hv.
  - apply scan_bind. eapply wp_next_cons; [exact Hv|]. intros sc1 Hv1. rewrite !punct_nam, isName_nam. cbn [negb].
    apply scan_bind. eapply wp_peekIs; [exact Hv1|]. intros sc2 Hv2. change (punct (pu COLON) COLON) with true. cbn iota.
    apply scan_bind, scan_bind. eapply wp_next_cons; [exact Hv2|]. intros sc3 Hv3.
    change (view sc3 ((nam f :: pr_args args ++ pr_dirs dirs ++ grouped LBRACE RBRACE (concat (map pr_sel sub))) ++ closing ss rest) b) in Hv3.
    rewrite field_tokens in Hv3. eapply wp_nextName; [exact Hv3|]. exact Hrest.
  - change (view sc ((nam f :: pr_args args ++ pr_dirs dirs ++ grouped LBRACE RBRACE (concat (map pr_sel sub))) ++ closing ss rest) b) in Hv.
    rewrite field_tokens in Hv.
    apply scan_bind. eapply wp_next_cons; [exact Hv|]. intros sc1 Hv1. rewrite !punct_nam, isName_nam. cbn [negb].
    apply scan_bind. eapply wp_peekIs; [exact Hv1|]. intros sc2 Hv2.
    assert (Hh : not_at [COLON] (pr_args args ++ pr_dirs dirs ++ grouped LBRACE RBRACE (pr_sels sub) ++ closing ss rest)).
    { apply not_at_grouped; [set_solver|]. apply not_at_dirs; [set_solver|]. apply not_at_grouped; [set_solver|].
      eapply not_at_weaken; [|exact Htail]. set_solver. }
    assert (Hc : match pr_args args ++ pr_dirs dirs ++ grouped LBRACE RBRACE (pr_sels sub) ++ closing ss rest with
      | t :: _ => punct t COLON | [] => false end = false).
    { revert Hh. generalize (pr_args args ++ pr_dirs dirs ++ grouped LBRACE RBRACE (pr_sels sub) ++ closing ss rest).
      intros [|t l]; [done|]. by inversion 1. }
    rewrite Hc. apply scan_bind, wp_ret. exact (Hrest _ Hv2).
Qed.

Lemma wp_selectionFields ss depth sc rest b (Q : gqlSelection -> gqlScanner -> Prop) :
  forallb sel_ok ss = true -> view sc (closing ss rest) b ->
  (forall sc', view sc' rest b -> Q (collect depth emptySelection ss) sc') -> wp (selectionFields depth) sc Q.
Proof. intros. eapply wp_fueled; [done|]. intros n Hn. by eapply wp_selectionFields_loop. Qed.

(** ** Definitions and documents *)

Lemma wp_parseOperation ty nm vars dirs body rest sc b (Q : gqlOperation -> gqlScanner -> Prop) :
  forallb sel_ok body = true ->
  view sc (match nm with Some n => [nam n] | None => [] end ++
           pr_vardefs vars ++ pr_dirs dirs ++ pu LBRACE :: closing body rest) b ->
  (forall sc', view sc' rest b -> Q (Op ty (default [] nm) (collect 0 emptySelection body)) sc') ->
  wp (parseOperation ty) sc Q.
Proof.
  intros Hok Hv HQ. unfold parseOperation.
  assert (Hrest : forall w sc1, w = default [] nm -> view sc1 (pr_vardefs vars ++ pr_dirs dirs ++ pu LBRACE :: closing body rest) b ->
    wp (skipGroup LPAREN RPAREN ;; skipDirectives ;; expect LBRACE ;;
        sel <- selectionFields 0 ;; ret (Op ty w sel)) sc1 Q).
  { intros w sc1 -> Hv1. apply scan_bind. eapply wp_skipGroup; [done|apply inert_vardefs| |exact Hv1|].
    { apply not_at_dirs; [set_solver|]. by repeat constructor. }
    intros sc2 Hv2. apply scan_bind. eapply wp_skipDirectives; [|exact Hv2|]; [by repeat constructor|].
    intros sc3 Hv3. apply scan_bind. eapply wp_expect; [exact Hv3|]. intros sc4 Hv4.
    apply scan_bind. eapply wp_selectionFields; [done|exact Hv4|]. intros sc5 Hv5. by apply wp_ret, HQ. }
  destruct nm as [n|]; cbn [app] in Hv.
  - apply scan_bind. eapply wp_peek_cons; [exact Hv|]. intros sc1 Hv1. rewrite isName_nam.
    apply scan_bind, scan_bind. eapply wp_next_cons; [exact Hv1|]. intros sc2 Hv2. apply wp_ret. by apply Hrest.
  - assert (Hh : exists t ts, pr_vardefs vars ++ pr_dirs dirs ++ pu LBRACE :: closing body rest = t :: ts /\ isName t = false).
    { unfold pr_vardefs. destruct (concat (map pr_vardef vars)); [|cbn; eauto].
      destruct dirs as [|[? ?] ?]; cbn; eauto. }
    destruct Hh as (t & ts & Et & Hn). pose proof Hv as Hv0. rewrite Et in Hv0.
    apply scan_bind. eapply wp_peek_cons; [exact Hv0|]. intros sc1 Hv1. rewrite Hn.
    apply scan_bind, wp_ret. apply Hrest; [done|]. by rewrite Et.
Qed.

Lemma wp_parseFragmentDefinition nm cond dirs body rest sc b (Q : bytes * gqlFragment -> gqlScanner -> Prop) :
  forallb sel_ok body = true ->
  view sc (nam nm :: nam ON :: nam cond :: pr_dirs dirs ++ pu LBRACE :: closing body rest) b ->
  (forall sc', view sc' rest b -> Q (nm, Frag cond (collect 0 emptySelection body)) sc') ->
  wp parseFragmentDefinition sc Q.
Proof.
  intros Hok Hv HQ. apply scan_bind. eapply wp_nextName; [exact Hv|]. intros sc1 Hv1.
  apply scan_bind. eapply wp_next_cons; [exact Hv1|]. intros sc2 Hv2. change (name (nam ON) ON) with true. cbn [negb].
  apply scan_bind. eapply wp_nextName; [exact Hv2|]. intros sc3 Hv3.
  apply scan_bind. eapply wp_skipDirectives; [|exact Hv3|]; [by repeat constructor|]. intros sc4 Hv4.
  apply scan_bind. eapply wp_expect; [exact Hv4|]. intros sc5 Hv5.
  apply scan_bind. eapply wp_selectionFields; [done|exact Hv5|]. intros sc6 Hv6. by apply wp_ret, HQ.
Qed.

(** What the reader makes of a document. *)
Definition summary1 (d : gqlDocument) (x : definition) : gqlDocument :=
  match x with
  | DShort _ => addOp d (Op gqlOperationQuery [] emptySelection)
  | DOp ty nm _ _ body => addOp d (Op (pr_optype ty) (default [] nm) (collect 0 emptySelection body))
  | DFrag nm cond _ body => addFragment d nm (Frag cond (collect 0 emptySelection body))
  end.
Definition summary (d : document) : gqlDocument := fold_left summary1 d (Doc [] ∅).

Lemma pr_doc_cons x d : pr_doc (x :: d) = pr_def x ++ pr_doc d.
Proof. done. Qed.

Lemma wp_parseDocument_loop n : forall d acc sc b, doc_ok d = true ->
  view sc (pr_doc d) b -> (length (pr_doc d) < n)%nat ->
  wp (parseDocument_loop n acc) sc (fun r sc' => r = fold_left summary1 d acc /\ sc_bad sc' = b).
Proof.
  induction n as [|n IH]; intros d acc sc b Hok Hv Hn; [lia|]. cbn [parseDocument_loop]. apply scan_bind.
  destruct d as [|x d]; [eapply wp_next_nil; [exact Hv|]; intros; by apply wp_ret|].
  rewrite pr_doc_cons in Hv, Hn. cbn [doc_ok forallb] in Hok. apply andb_true_iff in Hok as [Hx Hd].
  assert (Hnext : forall acc' sc', summary1 acc x = acc' -> view sc' (pr_doc d) b ->
    wp (parseDocument_loop n acc') sc' (fun r sc2 => r = fold_left summary1 (x :: d) acc /\ sc_bad sc2 = b)).
  { intros acc' sc' <- Hv'. eapply scan_mono; [apply IH; [done|exact Hv'|]|done].
    rewrite length_app in Hn. destruct x; cbn [pr_def length] in Hn; lia. }
  assert (Hc : forall body, (pr_sels body ++ [pu RBRACE]) ++ pr_doc d = closing body (pr_doc d))
    by (intros; by rewrite <- app_assoc).
  destruct x as [body|ty nm vars dirs body|nm cond dirs body]; cbn [pr_def app] in Hv.
  - rewrite Hc in Hv. eapply wp_next_cons; [exact Hv|]. intros sc1 Hv1. change (punct (pu LBRACE) LBRACE) with true. cbn iota.
    apply scan_bind. eapply wp_skipBalanced; [done|apply inert_sels|exact Hv1|]. intros sc2 Hv2. by apply Hnext.
  - rewrite <- !app_assoc in Hv. cbn [app] in Hv. rewrite <- app_assoc in Hv. cbn [app] in Hv.
    eapply wp_next_cons; [exact Hv|]. intros sc1 Hv1.
    assert (Hk : punct (nam (pr_optype ty)) LBRACE = false /\ name (nam (pr_optype ty)) FRAGMENT = false /\
      name (nam (pr_optype ty)) gqlOperationQuery || name (nam (pr_optype ty)) gqlOperationMutation ||
      name (nam (pr_optype ty)) gqlOperationSubscription = true) by (by destruct ty).
    destruct Hk as (-> & -> & ->). apply scan_bind. eapply wp_parseOperation; [exact Hx|exact Hv1|].
    intros sc2 Hv2. by apply Hnext.
  - rewrite <- !app_assoc in Hv. cbn [app] in Hv. rewrite <- app_assoc in Hv. cbn [app] in Hv.
    eapply wp_next_cons; [exact Hv|]. intros sc1 Hv1. change (punct (nam FRAGMENT) LBRACE) with false.
    change (name (nam FRAGMENT) FRAGMENT) with true. cbn iota.
    apply scan_bind. eapply wp_parseFragmentDefinition; [exact Hx|exact Hv1|]. intros sc2 Hv2. by apply Hnext.
Qed.

(** A source whose tokens are a document's is read as that document. *)
Lemma parseDocument_view src d : doc_ok d = true -> view (newScanner src) (pr_doc d) false ->
  parseDocument src = Some (Some (summary d)).
Proof.
  intros Hok Hv. unfold parseDocument.
  destruct (wp_fueled (fun n => parseDocument_loop n (Doc [] ∅)) _ _ _
    (fun r sc' => r = summary d /\ sc_bad sc' = false) Hv) as (r & sc' & -> & -> & ->); [|done].
  intros n Hn. by apply wp_parseDocument_loop.
Qed.

End GqlParse.
