(* ===== verification/GhTable.v ===== *)
(** * GitHub writes: the classification table of ghwrite

    classify.go, the table of graphql.go and the refusal policy of gate.go: the
    act a REST method and path perform, the act a GraphQL mutation performs, and
    the refusal of the three gated families.  Maps keyed by name are association
    lists ([assoc]); Go's empty string is the empty list of bytes. *)

From S2P Require Import Prelude GoBytes GhLex GhDoc.
Import GoPath.
Import GqlDoc.

Module GhWrite.

(** ** Vocabulary (domain/external_action.go, comment.go, entity.go) *)

Definition ActionPRCreated : bytes := bs "pr_created".
Definition ActionPRMarkedReady : bytes := bs "pr_marked_ready".
Definition ActionPRConvertedToDraft : bytes := bs "pr_converted_to_draft".
Definition ActionPREdited : bytes := bs "pr_edited".
Definition ActionPRClosed : bytes := bs "pr_closed".
Definition ActionPRReopened : bytes := bs "pr_reopened".
Definition ActionPRMerged : bytes := bs "pr_merged".
Definition ActionPRAutoMergeEnabled : bytes := bs "pr_auto_merge_enabled".
Definition ActionPRAutoMergeDisabled : bytes := bs "pr_auto_merge_disabled".
Definition ActionPRReverted : bytes := bs "pr_reverted".
Definition ActionPRBranchUpdated : bytes := bs "pr_branch_updated".
Definition ActionReviewSubmitted : bytes := bs "review_submitted".
Definition ActionReviewDismissed : bytes := bs "review_dismissed".
Definition ActionReviewCommentEdited : bytes := bs "review_comment_edited".
Definition ActionReviewCommentDeleted : bytes := bs "review_comment_deleted".
Definition ActionCommentPosted : bytes := bs "comment_posted".
Definition ActionCommentEdited : bytes := bs "comment_edited".
Definition ActionCommentDeleted : bytes := bs "comment_deleted".
Definition ActionReactionAdded : bytes := bs "reaction_added".
Definition ActionReactionRemoved : bytes := bs "reaction_removed".
Definition ActionLabelAdded : bytes := bs "label_added".
Definition ActionLabelRemoved : bytes := bs "label_removed".
Definition ActionConversationLocked : bytes := bs "conversation_locked".
Definition ActionConversationUnlocked : bytes := bs "conversation_unlocked".
Definition ActionWorkflowDispatched : bytes := bs "workflow_dispatched".
Definition ActionWorkflowRunCancelled : bytes := bs "workflow_run_cancelled".
Definition ActionLinkedBranchCreated : bytes := bs "linked_branch_created".
Definition ActionIssueCreated : bytes := bs "issue_created".
Definition ActionIssueUpdated : bytes := bs "issue_updated".
Definition ActionIssueClosed : bytes := bs "issue_closed".
Definition ActionIssueReopened : bytes := bs "issue_reopened".
Definition ActionIssueDeleted : bytes := bs "issue_deleted".
Definition ActionIssuePinned : bytes := bs "issue_pinned".
Definition ActionIssueUnpinned : bytes := bs "issue_unpinned".
Definition ActionIssueTransferred : bytes := bs "issue_transferred".
Definition ActionReviewRequested : bytes := bs "review_requested".
Definition ActionReviewRequestRemoved : bytes := bs "review_request_removed".
Definition ActionRepoCreated : bytes := bs "repo_created".
Definition ActionRepoEdited : bytes := bs "repo_edited".
Definition ActionRepoDeleted : bytes := bs "repo_deleted".
Definition ActionRepoForked : bytes := bs "repo_forked".
Definition ActionRepoArchived : bytes := bs "repo_archived".
Definition ActionRepoUnarchived : bytes := bs "repo_unarchived".
Definition ActionLabelDefined : bytes := bs "label_defined".
Definition ActionLabelDefinitionEdited : bytes := bs "label_definition_edited".
Definition ActionLabelDefinitionDeleted : bytes := bs "label_definition_deleted".
Definition ActionReleaseCreated : bytes := bs "release_created".
Definition ActionReleaseEdited : bytes := bs "release_edited".
Definition ActionReleaseDeleted : bytes := bs "release_deleted".

Inductive GitHubCommentSpace := NoSpace | GitHubIssueComment | GitHubReviewComment.
Definition EntityKindPullRequest : bytes := bs "pr".
Definition EntityKindIssue : bytes := bs "issue".

#[export] Instance space_eq_dec : EqDecision GitHubCommentSpace.
Proof. solve_decision. Defined.

Definition assoc {A} (k : bytes) (l : list (bytes * A)) : option A :=
  snd <$> List.find (fun x => bool_decide (x.1 = k)) l.

(** ** The GraphQL table *)

Record graphQLShape := GShape {
  g_action : bytes; g_creates : bool; g_provenance : bool; g_numberFromURL : bool; g_repoFromURL : bool;
  g_comment : list bytes; g_space : GitHubCommentSpace; g_subject : bytes
}.

Definition graphQLMutations : list (bytes * graphQLShape) := [
  (bs "addComment", GShape ActionCommentPosted true false false false [bs "commentEdge"; bs "node"] GitHubIssueComment []);
  (bs "updateIssueComment", GShape ActionCommentEdited false false false false [bs "issueComment"] GitHubIssueComment []);
  (bs "deleteIssueComment", GShape ActionCommentDeleted false false false false [] GitHubIssueComment []);
  (bs "createPullRequest", GShape ActionPRCreated true true true false [] NoSpace []);
  (bs "updatePullRequest", GShape ActionPREdited false false false false [] NoSpace EntityKindPullRequest);
  (bs "closePullRequest", GShape ActionPRClosed false false false false [] NoSpace EntityKindPullRequest);
  (bs "reopenPullRequest", GShape ActionPRReopened false false false false [] NoSpace EntityKindPullRequest);
  (bs "mergePullRequest", GShape ActionPRMerged false false false false [] NoSpace EntityKindPullRequest);
  (bs "markPullRequestReadyForReview", GShape ActionPRMarkedReady false false false false [] NoSpace EntityKindPullRequest);
  (bs "convertPullRequestToDraft", GShape ActionPRConvertedToDraft false false false false [] NoSpace EntityKindPullRequest);
  (bs "addPullRequestReview", GShape ActionReviewSubmitted false true false false [] NoSpace EntityKindPullRequest);
  (bs "addReaction", GShape ActionReactionAdded false false false false [] NoSpace []);
  (bs "removeReaction", GShape ActionReactionRemoved false false false false [] NoSpace []);
  (bs "submitPullRequestReview", GShape ActionReviewSubmitted false true false false [] NoSpace []);
  (bs "enablePullRequestAutoMerge", GShape ActionPRAutoMergeEnabled false false false false [] NoSpace EntityKindPullRequest);
  (bs "disablePullRequestAutoMerge", GShape ActionPRAutoMergeDisabled false false false false [] NoSpace EntityKindPullRequest);
  (bs "revertPullRequest", GShape ActionPRReverted true true true false [] NoSpace []);
  (bs "updatePullRequestBranch", GShape ActionPRBranchUpdated false false false false [] NoSpace EntityKindPullRequest);
  (bs "addLabelsToLabelable", GShape ActionLabelAdded false false false false [] NoSpace []);
  (bs "removeLabelsFromLabelable", GShape ActionLabelRemoved false false false false [] NoSpace []);
  (bs "lockLockable", GShape ActionConversationLocked false false false false [] NoSpace []);
  (bs "unlockLockable", GShape ActionConversationUnlocked false false false false [] NoSpace []);
  (bs "createIssue", GShape ActionIssueCreated true false true false [] NoSpace []);
  (bs "updateIssue", GShape ActionIssueUpdated false false false false [] NoSpace EntityKindIssue);
  (bs "closeIssue", GShape ActionIssueClosed false false false false [] NoSpace EntityKindIssue);
  (bs "reopenIssue", GShape ActionIssueReopened false false false false [] NoSpace EntityKindIssue);
  (bs "deleteIssue", GShape ActionIssueDeleted false false false false [] NoSpace EntityKindIssue);
  (bs "pinIssue", GShape ActionIssuePinned false false false false [] NoSpace EntityKindIssue);
  (bs "unpinIssue", GShape ActionIssueUnpinned false false false false [] NoSpace EntityKindIssue);
  (bs "transferIssue", GShape ActionIssueTransferred false false false false [] NoSpace EntityKindIssue);
  (bs "createLinkedBranch", GShape ActionLinkedBranchCreated false false false false [] NoSpace EntityKindIssue);
  (bs "createRepository", GShape ActionRepoCreated true false false true [] NoSpace []);
  (bs "cloneTemplateRepository", GShape ActionRepoCreated true false false true [] NoSpace []);
  (bs "updateRepository", GShape ActionRepoEdited false false false false [] NoSpace []);
  (bs "archiveRepository", GShape ActionRepoArchived false false false false [] NoSpace []);
  (bs "unarchiveRepository", GShape ActionRepoUnarchived false false false false [] NoSpace []);
  (bs "addPullRequestReviewThreadReply", GShape ActionCommentPosted true false false false [bs "comment"] GitHubReviewComment []);
  (bs "updatePullRequestReviewComment", GShape ActionReviewCommentEdited false false false false [bs "pullRequestReviewComment"] GitHubReviewComment []);
  (bs "deletePullRequestReviewComment", GShape ActionReviewCommentDeleted false false false false [bs "pullRequestReviewComment"] GitHubReviewComment [])
].

Definition KnownMutations : list bytes := map fst graphQLMutations.

(** [responseReadNames]: the url and ids, and every member on a comment's path. *)
Definition responseReadNames : list bytes :=
  [bs "url"; bs "id"; bs "databaseId"; bs "fullDatabaseId"] ++
  concat (map (fun x => g_comment x.2) graphQLMutations).

(** ** REST paths *)

Record Shape := MkShape {
  Action : bytes; Owner : bytes; Repo : bytes; Number : Z; ExternalID : bytes; NodeID : bytes; InReplyTo : Z;
  Comment : GitHubCommentSpace; ReactsTo : GitHubCommentSpace;
  Subject : bytes; SubjectBound : bool; SubjectKind : bytes;
  CreatesObject : bool; NumberFromObjectURL : bool; CarriesProvenance : bool
}.

(** [Shape{Owner: owner, Repo: repo}]. *)
Definition shapeOf (owner repo : bytes) : Shape :=
  MkShape [] owner repo 0 [] [] 0 NoSpace NoSpace [] false [] false false false.

(** Field assignments. *)
Definition setAction (a : bytes) (s : Shape) : Shape :=
  MkShape a (Owner s) (Repo s) (Number s) (ExternalID s) (NodeID s) (InReplyTo s) (Comment s) (ReactsTo s)
    (Subject s) (SubjectBound s) (SubjectKind s) (CreatesObject s) (NumberFromObjectURL s) (CarriesProvenance s).
Definition setNumber (n : Z) (s : Shape) : Shape :=
  MkShape (Action s) (Owner s) (Repo s) n (ExternalID s) (NodeID s) (InReplyTo s) (Comment s) (ReactsTo s)
    (Subject s) (SubjectBound s) (SubjectKind s) (CreatesObject s) (NumberFromObjectURL s) (CarriesProvenance s).
Definition setExternalID (x : bytes) (s : Shape) : Shape :=
  MkShape (Action s) (Owner s) (Repo s) (Number s) x (NodeID s) (InReplyTo s) (Comment s) (ReactsTo s)
    (Subject s) (SubjectBound s) (SubjectKind s) (CreatesObject s) (NumberFromObjectURL s) (CarriesProvenance s).
Definition setInReplyTo (n : Z) (s : Shape) : Shape :=
  MkShape (Action s) (Owner s) (Repo s) (Number s) (ExternalID s) (NodeID s) n (Comment s) (ReactsTo s)
    (Subject s) (SubjectBound s) (SubjectKind s) (CreatesObject s) (NumberFromObjectURL s) (CarriesProvenance s).
Definition setComment (c : GitHubCommentSpace) (s : Shape) : Shape :=
  MkShape (Action s) (Owner s) (Repo s) (Number s) (ExternalID s) (NodeID s) (InReplyTo s) c (ReactsTo s)
    (Subject s) (SubjectBound s) (SubjectKind s) (CreatesObject s) (NumberFromObjectURL s) (CarriesProvenance s).
Definition setReactsTo (c : GitHubCommentSpace) (s : Shape) : Shape :=
  MkShape (Action s) (Owner s) (Repo s) (Number s) (ExternalID s) (NodeID s) (InReplyTo s) (Comment s) c
    (Subject s) (SubjectBound s) (SubjectKind s) (CreatesObject s) (NumberFromObjectURL s) (CarriesProvenance s).
(** [CreatesObject = true] with the two flags that may go with it. *)
Definition setCreates (fromURL provenance : bool) (s : Shape) : Shape :=
  MkShape (Action s) (Owner s) (Repo s) (Number s) (ExternalID s) (NodeID s) (InReplyTo s) (Comment s) (ReactsTo s)
    (Subject s) (SubjectBound s) (SubjectKind s) true fromURL provenance.

Definition reposSegment : bytes := bs "/repos/".

Definition splitRepoPath (path : bytes) : option (bytes * bytes * list bytes) :=
  match Index path reposSegment with
  | None => None
  | Some i =>
      match Split (TrimByte SLASH (drop (i + length reposSegment) path)) SLASH with
      | owner :: repo :: rest =>
          if bool_decide (owner = []) || bool_decide (repo = []) then None else Some (owner, repo, rest)
      | _ => None
      end
  end.

Definition RepoPath (path : bytes) : bytes :=
  match splitRepoPath path with
  | Some (owner, repo, _) => owner ++ [SLASH] ++ repo
  | None => []
  end.

Definition eqs (x : bytes) (lit : string) : bool := bool_decide (x = bs lit).

(** A comment addressed by its own id, [comments/{id}\[/...\]]: the same
    dispatch under pulls and issues, with their own actions and id space. *)
Definition classifyComment (edited deleted : bytes) (space : GitHubCommentSpace)
    (s : Shape) (method : bytes) (rest : list bytes) : option Shape :=
  match rest with
  | [] => None
  | id :: sub =>
      if bool_decide (id = []) then None
      else
        let s := setExternalID id s in
        match sub with
        | [] =>
            if eqs method "PATCH" then Some (setComment space (setAction edited s))
            else if eqs method "DELETE" then Some (setComment space (setAction deleted s))
            else None
        | [r] =>
            if eqs r "reactions" && eqs method "POST" then Some (setReactsTo space (setAction ActionReactionAdded s))
            else None
        | [r; _] =>
            if eqs r "reactions" && eqs method "DELETE" then Some (setReactsTo space (setAction ActionReactionRemoved s))
            else None
        | _ => None
        end
  end.

Definition classifyPulls (s : Shape) (method : bytes) (rest : list bytes) : option Shape :=
  match rest with
  | [] => if eqs method "POST" then Some (setCreates true true (setAction ActionPRCreated s)) else None
  | head :: sub =>
      if eqs head "comments" then
        classifyComment ActionReviewCommentEdited ActionReviewCommentDeleted GitHubReviewComment s method sub
      else
        match positive head with
        | None => None
        | Some n =>
            let s := setNumber n s in
            match sub with
            | [] => if eqs method "PATCH" then Some (setAction ActionPREdited s) else None
            | [x] =>
                if eqs x "merge" && eqs method "PUT" then Some (setAction ActionPRMerged s)
                else if eqs x "update-branch" && eqs method "PUT" then Some (setAction ActionPRBranchUpdated s)
                else if eqs x "reviews" && eqs method "POST" then Some (setCreates false true (setAction ActionReviewSubmitted s))
                else if eqs x "requested_reviewers" && eqs method "POST" then Some (setAction ActionReviewRequested s)
                else if eqs x "requested_reviewers" && eqs method "DELETE" then Some (setAction ActionReviewRequestRemoved s)
                else None
            | [x; id; y] =>
                if eqs x "reviews" && eqs y "dismissals" && eqs method "PUT" then
                  Some (setExternalID id (setAction ActionReviewDismissed s))
                else if eqs x "comments" && eqs y "replies" && eqs method "POST" then
                  match positive id with
                  | None => None
                  | Some reply =>
                      Some (setComment GitHubReviewComment (setCreates false false
                        (setInReplyTo reply (setAction ActionCommentPosted s))))
                  end
                else None
            | _ => None
            end
        end
  end.

Definition classifyIssues (s : Shape) (method : bytes) (rest : list bytes) : option Shape :=
  match rest with
  | [] => if eqs method "POST" then Some (setCreates true false (setAction ActionIssueCreated s)) else None
  | head :: sub =>
      if eqs head "comments" then
        classifyComment ActionCommentEdited ActionCommentDeleted GitHubIssueComment s method sub
      else
        match positive head with
        | None => None
        | Some n =>
            let s := setNumber n s in
            match sub with
            | [] => if eqs method "PATCH" then Some (setAction ActionIssueUpdated s) else None
            | [x] =>
                if eqs x "comments" && eqs method "POST" then
                  Some (setComment GitHubIssueComment (setCreates false false (setAction ActionCommentPosted s)))
                else if eqs x "reactions" && eqs method "POST" then Some (setAction ActionReactionAdded s)
                else if eqs x "labels" && eqs method "POST" then Some (setAction ActionLabelAdded s)
                else if eqs x "labels" && eqs method "DELETE" then Some (setAction ActionLabelRemoved s)
                else if eqs x "lock" && eqs method "PUT" then Some (setAction ActionConversationLocked s)
                else if eqs x "lock" && eqs method "DELETE" then Some (setAction ActionConversationUnlocked s)
                else None
            | [x; _] =>
                if eqs x "reactions" && eqs method "DELETE" then Some (setAction ActionReactionRemoved s)
                else if eqs x "labels" && eqs method "DELETE" then Some (setAction ActionLabelRemoved s)
                else None
            | _ => None
            end
        end
  end.

Definition classifyLabels (s : Shape) (method : bytes) (rest : list bytes) : option Shape :=
  match rest with
  | [] => if eqs method "POST" then Some (setAction ActionLabelDefined s) else None
  | [name] =>
      if bool_decide (name = []) then None
      else
        let s := setExternalID (default name (PathUnescape name)) s in
        if eqs method "PATCH" then Some (setAction ActionLabelDefinitionEdited s)
        else if eqs method "DELETE" then Some (setAction ActionLabelDefinitionDeleted s)
        else None
  | _ => None
  end.

Definition classifyReleases (s : Shape) (method : bytes) (rest : list bytes) : option Shape :=
  match rest with
  | [] => if eqs method "POST" then Some (setCreates false false (setAction ActionReleaseCreated s)) else None
  | [id] =>
      match positive id with
      | None => None
      | Some _ =>
          let s := setExternalID id s in
          if eqs method "PATCH" then Some (setAction ActionReleaseEdited s)
          else if eqs method "DELETE" then Some (setAction ActionReleaseDeleted s)
          else None
      end
  | _ => None
  end.

Definition classifyActions (s : Shape) (method : bytes) (rest : list bytes) : option Shape :=
  match rest with
  | [x; id; y] =>
      if negb (eqs method "POST") || bool_decide (id = []) then None
      else
        let s := setExternalID id s in
        if eqs x "workflows" && eqs y "dispatches" then Some (setAction ActionWorkflowDispatched s)
        else if eqs x "runs" && eqs y "cancel" then Some (setAction ActionWorkflowRunCancelled s)
        else None
  | _ => None
  end.

Definition Classify (method path : bytes) : option Shape :=
  match splitRepoPath path with
  | None => None
  | Some (owner, repo, rest) =>
      let s := shapeOf owner repo in
      match rest with
      | [] =>
          if eqs method "PATCH" then Some (setAction ActionRepoEdited s)
          else if eqs method "DELETE" then Some (setAction ActionRepoDeleted s)
          else None
      | head :: sub =>
          let whole := match sub with [] => true | _ => false end in
          if eqs head "pulls" then classifyPulls s method sub
          else if eqs head "issues" then classifyIssues s method sub
          else if eqs head "actions" then classifyActions s method sub
          else if eqs head "labels" then classifyLabels s method sub
          else if eqs head "releases" then classifyReleases s method sub
          else if eqs head "forks" then
            if eqs method "POST" && whole then Some (setAction ActionRepoForked s) else None
          else if eqs head "generate" then
            if eqs method "POST" && whole then Some (setAction ActionRepoCreated s) else None
          else if eqs head "topics" then
            if eqs method "PUT" && whole then Some (setAction ActionRepoEdited s) else None
          else None
      end
  end.

(** ** GraphQL facts *)

Record GraphQLFacts := Facts {
  Operation : bytes;
  FieldNames : list bytes;
  FactSubject : bytes;
  FactSubjectBound : bool;
  Unreadable : option unread;
  NamesReview : bool;
  ResponseAliased : bool
}.

(** [GraphQLFacts{Unreadable: u}]. *)
Definition unreadable (u : unread) : GraphQLFacts := Facts [] [] [] false (Some u) false false.

(** [Mutation]: the single field, or empty. *)
Definition Mutation (f : GraphQLFacts) : bytes :=
  match Unreadable f, FieldNames f with
  | None, [x] => x
  | _, _ => []
  end.

(** ** The refusal policy *)

Inductive GateReason := GateReasonReview | GateReasonRepoCreate | GateReasonPRCreate | GateReasonUnreadable.

#[export] Instance GateReason_eq_dec : EqDecision GateReason.
Proof. solve_decision. Defined.

Record Refusal := Refuses { Reason : GateReason; RefAction : bytes; RefMutation : bytes; RefUnreadable : option unread }.

Definition gatedActions : list (bytes * GateReason) := [
  (ActionReviewSubmitted, GateReasonReview);
  (ActionRepoCreated, GateReasonRepoCreate);
  (ActionPRCreated, GateReasonPRCreate);
  (ActionPRReverted, GateReasonPRCreate)
].

Definition gatedMutations : list (bytes * GateReason) := [(bs "addPullRequestReviewThread", GateReasonReview)].
Definition stagedMutations : list (bytes * GateReason) := [(bs "addPullRequestReviewThreadReply", GateReasonReview)].

Definition gheRESTPrefix : bytes := bs "/api/v3".

Definition mintsRepository (requestPath : bytes) : bool :=
  match Split (TrimByte SLASH (TrimPrefix requestPath gheRESTPrefix)) SLASH with
  | [a; b] => eqs a "user" && eqs b "repos"
  | [a; b; c] => eqs a "orgs" && negb (bool_decide (b = [])) && eqs c "repos"
  | _ => false
  end.

Definition gateREST (method requestPath : bytes) : option Refusal :=
  let clean := Clean requestPath in
  if eqs method "POST" && mintsRepository clean then
    Some (Refuses GateReasonRepoCreate ActionRepoCreated [] None)
  else
    match Classify method clean with
    | None => None
    | Some shape =>
        match assoc (Action shape) gatedActions with
        | None => None
        | Some reason => Some (Refuses reason (Action shape) [] None)
        end
    end.

(** The loop of [gateGraphQL] over the fields. *)
Fixpoint gateFields (namesReview : bool) (l : list bytes) : option Refusal :=
  match l with
  | [] => None
  | field :: l =>
      match assoc field gatedMutations with
      | Some reason => Some (Refuses reason [] field None)
      | None =>
          match (if namesReview then assoc field stagedMutations else None) with
          | Some reason => Some (Refuses reason [] field None)
          | None =>
              match assoc field graphQLMutations with
              | None => gateFields namesReview l
              | Some entry =>
                  match assoc (g_action entry) gatedActions with
                  | Some reason => Some (Refuses reason (g_action entry) field None)
                  | None => gateFields namesReview l
                  end
              end
          end
      end
  end.

Definition gateGraphQL (f : GraphQLFacts) : option Refusal :=
  match Unreadable f with
  | Some u => Some (Refuses GateReasonUnreadable [] [] (Some u))
  | None => gateFields (NamesReview f) (FieldNames f)
  end.

Record Request := MkRequest { Method : bytes; Path : bytes; GraphQL : option GraphQLFacts }.

Definition Gate (req : Request) : option Refusal :=
  match GraphQL req with
  | Some f => gateGraphQL f
  | None => gateREST (Method req) (Path req)
  end.

(** ** The classifier's GraphQL half *)

Definition classifyGraphQL (f : GraphQLFacts) : option Shape :=
  let field := Mutation f in
  if bool_decide (field = []) then None
  else
    match assoc field graphQLMutations with
    | None => None
    | Some e =>
        if bool_decide (is_Some (assoc field stagedMutations)) && NamesReview f then None
        else Some (MkShape (g_action e) [] [] 0 [] [] 0 (g_space e) NoSpace (FactSubject f) (FactSubjectBound f)
                    (g_subject e) (g_creates e) (g_numberFromURL e) (g_provenance e))
    end.

End GhWrite.
