(* ===== verification/GhRequest.v ===== *)
(** * GitHub API requests: ghwrite/graphql.go's request reader and the injector

    [ParseGraphQLRequest] reads a GraphQL envelope into the facts the gate and
    the audit row use; the injector (ghinjector/injector.go, gate.go) reads the
    body, asks the gate, and forwards with the run's credential.

    A JSON text is modelled by its syntax tree: members in order, since decoding
    into a struct depends on their order and ignores case in their names, as
    encoding/json documents. *)

From S2P Require Import Prelude GoBytes GhLex GhDoc GhTable GitGate.
Import Gql GqlDoc GhWrite.

Module GhRequest.

(** ** JSON *)

Inductive json :=
| JNull
| JBool (b : bool)
| JNum (literal : bytes)
| JStr (s : bytes)
| JArr (l : list json)
| JObj (members : list (bytes * json)).

Definition upperByte (c : ascii) : ascii :=
  if (97 <=? bv c) && (bv c <=? 122) then byte_of (bv c - 32) else c.

(** encoding/json's [foldName], which struct decoding compares member names
    by.  Two runes outside ASCII fold into it: U+017F to S and U+212A to K; the
    other runes keep their bytes here, and match no field. *)
Fixpoint foldName (s : bytes) : bytes :=
  match s with
  | [] => []
  | c :: r =>
      match r with
      | c1 :: r1 =>
          if bool_decide ([c; c1] = [byte_of 197; byte_of 191]) then "S"%char :: foldName r1
          else match r1 with
               | c2 :: r2 =>
                   if bool_decide ([c; c1; c2] = [byte_of 226; byte_of 132; byte_of 170]) then "K"%char :: foldName r2
                   else upperByte c :: foldName r
               | [] => upperByte c :: foldName r
               end
      | [] => [upperByte c]
      end
  end.

(** The struct field a member name selects: the exact name, else the name up to
    case. *)
Definition fieldFor (names : list bytes) (key : bytes) : option bytes :=
  match List.find (fun n => bool_decide (n = key)) names with
  | Some n => Some n
  | None => List.find (fun n => bool_decide (foldName n = foldName key)) names
  end.

Definition QUERY : bytes := bs "query".
Definition OPERATIONNAME : bytes := bs "operationName".
Definition VARIABLES : bytes := bs "variables".

(** The envelope struct; [e_err] is a member of the wrong type, for which
    [json.Unmarshal] keeps decoding and returns an error. *)
Record envelope := Env { e_query : bytes; e_operationName : bytes; e_variables : option json; e_err : bool }.

(** Decoding a JSON value into a string field: null leaves it as it was. *)
Definition intoString (old : bytes) (v : json) : bytes * bool :=
  match v with JStr s => (s, false) | JNull => (old, false) | _ => (old, true) end.

Definition decodeMember (e : envelope) (m : bytes * json) : envelope :=
  match fieldFor [QUERY; OPERATIONNAME; VARIABLES] m.1 with
  | Some f =>
      if bool_decide (f = QUERY) then
        let '(q, err) := intoString (e_query e) m.2 in Env q (e_operationName e) (e_variables e) (e_err e || err)
      else if bool_decide (f = OPERATIONNAME) then
        let '(o, err) := intoString (e_operationName e) m.2 in Env (e_query e) o (e_variables e) (e_err e || err)
      else Env (e_query e) (e_operationName e) (Some m.2) (e_err e)
  | None => e
  end.

(** [json.Unmarshal(body, &envelope)]; [None] is an error. *)
Definition unmarshalEnvelope (body : option json) : option envelope :=
  match body with
  | Some (JObj ms) =>
      let e := fold_left decodeMember ms (Env [] [] None false) in if e_err e then None else Some e
  | Some JNull => Some (Env [] [] None false)
  | _ => None
  end.

(** [json.Unmarshal(raw, &m)] for a [map\[string\]json.RawMessage]: null is the
    nil map; of members that repeat a key the last one counts. *)
Definition unmarshalMap (v : json) : option (list (bytes * json)) :=
  match v with JObj ms => Some ms | JNull => Some [] | _ => None end.
Definition member (k : bytes) (ms : list (bytes * json)) : option json := assoc k (rev ms).

(** ** The request reader *)

Definition graphQLSubjectKeys : list bytes :=
  [bs "pullRequestId"; bs "subjectId"; bs "issueId"; bs "labelableId"; bs "lockableId";
   bs "pullRequestReviewThreadId"; bs "pullRequestReviewCommentId"; bs "commentId"; bs "repositoryId"; bs "id"].
Definition maxSubjectLength : Z := 256.
Definition subjectInput : bytes := bs "input".
Definition reviewInput : bytes := bs "pullRequestReviewId".

Fixpoint pickFrom (keys : list bytes) (vars : list (bytes * json)) : bytes :=
  match keys with
  | [] => []
  | key :: keys =>
      match member key vars with
      | Some (JStr id) =>
          if bool_decide (id = []) || (maxSubjectLength <? Z.of_nat (length id)) then pickFrom keys vars else id
      | _ => pickFrom keys vars
      end
  end.
Definition pickSubject (vars : list (bytes * json)) : bytes := pickFrom graphQLSubjectKeys vars.

Definition subjectFromVariables (raw : option json) : bytes * bool :=
  match raw with
  | None => ([], false)
  | Some v =>
      match unmarshalMap v with
      | None => ([], false)
      | Some vars =>
          let top := (pickSubject vars, false) in
          match member subjectInput vars with
          | Some input =>
              match unmarshalMap input with
              | Some inner => let id := pickSubject inner in if bool_decide (id = []) then top else (id, true)
              | None => top
              end
          | None => top
          end
      end
  end.

Definition variablesName (raw : option json) (nm : bytes) : bool :=
  match raw with
  | None => false
  | Some v =>
      match unmarshalMap v with
      | None => false
      | Some vars =>
          bool_decide (is_Some (member nm vars)) ||
          existsb (fun '(k, _) =>
            match member k vars with
            | Some o => match unmarshalMap o with
                        | Some ms => bool_decide (is_Some (member nm ms))
                        | None => false
                        end
            | None => false
            end) vars
      end
  end.

Definition mutationKeyword : bytes := bs "mutation".

(** [ParseGraphQLRequest].  [Some None] is a request proven to be a read;
    the outer [None] is exhausted fuel. *)
Definition ParseGraphQLRequest (body : option json) : option (option GraphQLFacts) :=
  match unmarshalEnvelope body with
  | None => Some (Some (unreadable GraphQLMalformed))
  | Some e =>
      if bool_decide (e_query e = []) then Some (Some (unreadable GraphQLMalformed))
      else if negb (Contains (e_query e) mutationKeyword) then Some None
      else
        let '(subject, fromInput) := subjectFromVariables (e_variables e) in
        parsed ← parseDocument (e_query e);
        match parsed with
        | None => Some (Some (Facts (e_operationName e) [] subject false (Some GraphQLMalformed) false false))
        | Some document =>
            match selectOperation (ops document) (e_operationName e) with
            | None =>
                if negb (containsMutation (ops document)) then Some None
                else Some (Some (Facts (e_operationName e) [] subject false (Some GraphQLAmbiguousOperation) false false))
            | Some op =>
                if negb (bool_decide (typ op = gqlOperationMutation)) then Some None
                else
                  '(fs, unr) ← resolveTopLevelFields (op_sel op) (fragments document);
                  refs ← documentReferencesVariable (e_query e) subjectInput;
                  names ← documentNames (e_query e) reviewInput;
                  aliased ← documentAliasesOnto (e_query e) responseReadNames;
                  let bound := fromInput && bool_decide (length (ops document) = 1%nat) && refs in
                  let u := match unr with
                           | Some u => Some u
                           | None => match fs with [] => Some GraphQLMalformed | _ => None end
                           end in
                  Some (Some (Facts (op_name op) fs subject bound u
                                (names || variablesName (e_variables e) reviewInput) aliased))
            end
        end
  end.

(** ** The injector *)

Definition restPrefix : bytes := bs "/api/v3".
Definition graphqlPath : bytes := bs "/api/graphql".
Definition dotcomAPIHost : bytes := bs "api.github.com".
Definition maxRequestBody : Z := 1048576.

Definition isGraphQLPath (path : bytes) : bool :=
  bool_decide (path = graphqlPath) || HasPrefix path (graphqlPath ++ [SLASH]).

(** A base URL without query or fragment, as [parseUpstream] requires. *)
Record baseURL := MkURL { u_scheme : bytes; u_hostname : bytes; u_port : bytes; u_path : bytes }.

(** [graphqlUpstream]. *)
Definition graphqlUpstream (rest : baseURL) : baseURL :=
  if bool_decide (ToLower (u_hostname rest) = dotcomAPIHost)
  then MkURL (bs "https") dotcomAPIHost [] (bs "/graphql")
  else MkURL (u_scheme rest) (u_hostname rest) (u_port rest)
         (TrimSuffix (GoPath.TrimRightByte SLASH (u_path rest)) (bs "/v3") ++ bs "/graphql").

Definition singleJoiningSlash (a b : bytes) : bytes :=
  let aslash := HasSuffix a [SLASH] in
  let bslash := HasPrefix b [SLASH] in
  if aslash && bslash then a ++ drop 1 b
  else if negb aslash && negb bslash && negb (bool_decide (b = [])) then a ++ [SLASH] ++ b
  else a ++ b.

(** [setTarget]: the URL a request goes to. *)
Definition setTarget (base : baseURL) (extraPath : bytes) : baseURL :=
  MkURL (u_scheme base) (u_hostname base) (u_port base) (singleJoiningSlash (u_path base) extraPath).

(** The path half of [rewrite]. *)
Definition rewriteTarget (rest : baseURL) (inPath : bytes) : baseURL :=
  if isGraphQLPath inPath then setTarget (graphqlUpstream rest) []
  else setTarget rest (TrimPrefix inPath restPrefix).

(** An inbound request.  [r_body] is what its body yields and [r_broken] that
    its read then fails; [r_length] is Content-Length, -1 when undeclared. *)
Record httpRequest := MkHttp {
  r_method : bytes; r_path : bytes; r_authorization : bytes;
  r_length : Z; r_body : bytes; r_broken : bool
}.

Record Config := MkConfig {
  Upstream : baseURL;
  IncomingToken : bytes;
  AuthorizeWrite : option (Request -> Refusal -> bool);
  GitHandler : bool;
  TokenSource : option bytes
}.

(** [bufferRequest]: the whole body, or why it was not read whole.  The read
    stops one byte past the cap, so a stream that fails later is over the cap. *)
Definition bufferRequest (r : httpRequest) : res unread bytes :=
  if maxRequestBody <? r_length r then Err GraphQLOverCap
  else if r_broken r && (Z.of_nat (length (r_body r)) <=? maxRequestBody) then Err GraphQLRequestUnread
  else if maxRequestBody <? Z.of_nat (length (r_body r)) then Err GraphQLOverCap
  else Ok (r_body r).

Definition routesToGit (cfg : Config) (r : httpRequest) : bool :=
  GitHandler cfg &&
  negb (isGraphQLPath (r_path r) ||
        bool_decide (r_path r = restPrefix) || HasPrefix (r_path r) (restPrefix ++ [SLASH])) &&
  IsGitSmartHTTPPath (r_method r) (r_path r).

Inductive answer :=
| ToGit
| Unauthorized
| Refused (r : Refusal)
| CredentialMiss
| Forwarded (target : baseURL) (authorization : bytes).

Section Handler.

(** encoding/json's reading of a text (None when it is not JSON), and the
    password [http.Request.BasicAuth] decodes from a header. *)
Context (parseJSON : bytes -> option json) (basicPassword : bytes -> bytes).

Definition callerAuthorized (cfg : Config) (r : httpRequest) : bool :=
  bool_decide (IncomingToken cfg = []) ||
  let auth := r_authorization r in
  let presented :=
    if HasPrefix auth (bs "token ") then TrimPrefix auth (bs "token ")
    else if HasPrefix auth (bs "Bearer ") then TrimPrefix auth (bs "Bearer ")
    else if HasPrefix auth (bs "Basic ") then basicPassword auth
    else auth in
  bool_decide (presented = IncomingToken cfg).

Definition captureGraphQLWrite (r : httpRequest) : option (option GraphQLFacts) :=
  if negb (eqs (r_method r) "POST") || negb (isGraphQLPath (r_path r)) then Some None
  else
    match bufferRequest r with
    | Err u => Some (Some (unreadable u))
    | Ok body => ParseGraphQLRequest (parseJSON body)
    end.

Definition gateRequest (r : httpRequest) (facts : option GraphQLFacts) : option Request :=
  if isGraphQLPath (r_path r) then
    match facts with
    | None => None
    | Some f => Some (MkRequest (r_method r) (r_path r) (Some f))
    end
  else Some (MkRequest (r_method r) (TrimPrefix (r_path r) restPrefix) None).

(** [refused]: the refusal answered, if any. *)
Definition refused (cfg : Config) (r : httpRequest) (facts : option GraphQLFacts) : option Refusal :=
  match gateRequest r facts with
  | None => None
  | Some req =>
      match Gate req with
      | None => None
      | Some ref =>
          if match AuthorizeWrite cfg with Some hook => hook req ref | None => false end then None else Some ref
      end
  end.

(** [Handler]; the outer [None] is exhausted fuel. *)
Definition Handler (cfg : Config) (r : httpRequest) : option answer :=
  if routesToGit cfg r then Some ToGit
  else if negb (callerAuthorized cfg r) then Some Unauthorized
  else
    facts ← captureGraphQLWrite r;
    match refused cfg r facts with
    | Some ref => Some (Refused ref)
    | None =>
        match TokenSource cfg with
        | None | Some [] => Some CredentialMiss
        | Some tok => Some (Forwarded (rewriteTarget (Upstream cfg) (r_path r)) (bs "token " ++ tok))
        end
    end.

End Handler.

End GhRequest.
