(* ===== verification/GhGateFacts.v ===== *)
(** * From documents to refusals

    The lemmas between the reader and the gate's theorems: what a whole reading
    accounts for, which operation is selected, how an envelope decodes, which
    fields and paths the policy refuses. *)

From S2P Require Import Prelude GoBytes GhLex GhDoc GhGrammar GhLexAgree GhParseFacts GhTable GhRequest.
Import GoPath Gql GqlFacts GqlDoc GqlDocFacts GqlSpec GqlAgree GqlParse GhWrite GhRequest.

Module GhGateFacts.

(** ** A whole reading names every field the server performs *)

Lemma accounted_addField fs v acc f : accounted fs v (addField acc f) -> accounted fs v acc /\ f ∈ fs.
Proof.
  unfold addField, accounted. case_match; cbn [fields spreads unresolvable truncated]; intros (Hu & Ht & Hf & Hs);
    [|done]. split_and!; [done..|set_solver|done|set_solver].
Qed.

Lemma accounted_addSpread fs v acc n : accounted fs v (addSpread acc n) -> accounted fs v acc /\ n ∈ v.
Proof.
  unfold addSpread, accounted. cbn [fields spreads unresolvable truncated]. intros (? & ? & ? & ?).
  split_and!; [done..|set_solver|set_solver].
Qed.

Lemma accounted_merge fs v acc inner : accounted fs v (merge acc inner) -> accounted fs v acc /\ accounted fs v inner.
Proof.
  unfold merge. destruct (appendFields _ _ _) as [l tr] eqn:E. unfold accounted.
  cbn [fields spreads unresolvable truncated]. intros ([? ?]%orb_false_iff & [-> ?]%orb_false_iff & Hf & Hs).
  apply appendFields_full in E as [? ->]. split_and!; try done; set_solver.
Qed.

Lemma accounted_collect1 fs v depth acc s : accounted fs v (collect1 depth acc s) -> accounted fs v acc.
Proof.
  destruct s; cbn [collect1]; [apply accounted_addField|apply accounted_addSpread|].
  case_match; [by intros (? & _)|]. apply accounted_merge.
Qed.

Lemma accounted_elem fs v depth ss s : s ∈ ss -> forall acc, accounted fs v (collect depth acc ss) ->
  exists acc', accounted fs v (collect1 depth acc' s).
Proof.
  assert (Hback : forall l acc, accounted fs v (collect depth acc l) -> accounted fs v acc).
  { intros l. induction l as [|x l IH]; intros acc; [exact (fun H => H)|]. intros H%IH. by eapply accounted_collect1. }
  induction 1 as [s ss|s x ss Hin IH]; intros acc; cbn [collect fold_left].
  - intros H. exists acc. by eapply Hback.
  - apply IH.
Qed.

Lemma summary_fragments d : forall acc nm, nm ∉ map fst (fragments_of d) ->
  fragments (fold_left summary1 d acc) !! nm = fragments acc !! nm.
Proof.
  induction d as [|x d IH]; intros acc nm Hn; [done|]. cbn [fold_left].
  destruct x as [body|ty o vs ds body|n c ds body]; cbn [fragments_of omap list_omap map fst] in Hn;
    (rewrite IH; [|set_solver]); [done..|].
  unfold summary1, addFragment. case_match; [done|]. cbn [fragments]. apply lookup_insert_ne. set_solver.
Qed.

Lemma summary_fragment d : NoDup (map fst (fragments_of d)) -> forall acc nm body,
  (nm, body) ∈ fragments_of d -> fragments acc !! nm = None ->
  exists cond, fragments (fold_left summary1 d acc) !! nm = Some (Frag cond (collect 0 emptySelection body)).
Proof.
  induction d as [|x d IH]; intros Hnd acc nm body Hin Hacc; [by apply not_elem_of_nil in Hin|]. cbn [fold_left].
  destruct x as [b|ty o vs ds b|n c ds b]; cbn [fragments_of omap list_omap map fst] in Hnd, Hin.
  - apply IH; [done..|]. by destruct acc.
  - apply IH; [done..|]. by destruct acc.
  - apply NoDup_cons in Hnd as [Hn Hnd]. apply elem_of_cons in Hin as [[= -> ->]|Hin].
    + exists c. rewrite summary_fragments by done. unfold summary1, addFragment. rewrite Hacc. cbn [fragments].
      apply lookup_insert_eq.
    + apply IH; [done..|]. unfold summary1, addFragment. case_match; [done|]. cbn [fragments].
      rewrite lookup_insert_ne; [done|]. intros ->. apply Hn. apply list_elem_of_fmap. by exists (nm, body).
Qed.

(** If the selection and the fragments of a document are all accounted for,
    every field the server can perform is among those read. *)
Lemma performs_read d fs v : NoDup (map fst (fragments_of d)) -> closed (fragments (summary d)) fs v ->
  forall ss f, performs (fragments_of d) ss f ->
  forall depth acc, accounted fs v (collect depth acc ss) -> f ∈ fs.
Proof.
  intros Hnd Hcl. induction 1 as [ss al f a ds sub Hin|ss n ds body f Hin Hfr Hp IH|ss c ds body f Hin Hp IH];
    intros depth acc Hacc; destruct (accounted_elem _ _ _ _ _ Hin _ Hacc) as [acc' Ha]; cbn [collect1] in Ha.
  - by apply accounted_addField in Ha as [_ ?].
  - apply accounted_addSpread in Ha as [_ Hv]. destruct (Hcl n Hv) as (fr & Hl & _ & Hfa).
    destruct (summary_fragment d Hnd (Doc [] ∅) n body Hfr (lookup_empty _)) as [cond Hs].
    unfold summary in Hl. rewrite Hs in Hl. injection Hl as <-. by apply (IH 0%nat emptySelection).
  - revert Ha. case_match; [by intros (? & _)|]. intros [_ Ha]%accounted_merge. by apply (IH (S depth) emptySelection).
Qed.

(** ** The operation selected *)

Definition op_summary (x : definition) : option gqlOperation :=
  match x with
  | DShort _ => Some (Op gqlOperationQuery [] emptySelection)
  | DOp ty nm _ _ body => Some (Op (pr_optype ty) (default [] nm) (collect 0 emptySelection body))
  | DFrag _ _ _ _ => None
  end.

Lemma summary_ops d : forall acc, ops (fold_left summary1 d acc) = ops acc ++ omap op_summary d.
Proof.
  induction d as [|x d IH]; intros acc; cbn [fold_left]; [by rewrite app_nil_r|]. rewrite IH.
  destruct x; cbn [summary1 omap list_omap op_summary addOp ops]; [by rewrite <- app_assoc..|].
  unfold addFragment. by case_match.
Qed.

(** Reading the operations of a document keeps their order, names and types. *)
Lemma operations_agree d :
  Forall2 (fun o s => typ s = pr_optype o.1.1 /\ op_name s = o.1.2 /\
                      (o.1.1 = OpMutation -> op_sel s = collect 0 emptySelection o.2))
    (operations_of d) (ops (summary d)).
Proof.
  unfold summary. rewrite summary_ops. cbn [ops app]. unfold operations_of.
  induction d as [|x d IH]; cbn [omap list_omap]; [constructor|].
  destruct x; cbn [op_summary]; [by constructor..|done].
Qed.

Lemma selectOperation_agree d opname o : valid d -> get_operation d opname o ->
  exists s, selectOperation (ops (summary d)) opname = Some s /\ typ s = pr_optype o.1.1 /\
    (o.1.1 = OpMutation -> op_sel s = collect 0 emptySelection o.2).
Proof.
  intros [Hnd _]. unfold get_operation, selectOperation. pose proof (operations_agree d) as Hag.
  destruct (decide (opname = [])) as [->|Hne].
  - rewrite (bool_decide_eq_true_2 ([] = [])) by done. cbn [negb]. intros Hd. rewrite Hd in Hag.
    inversion Hag as [|? s ? l (? & ? & ?) Hr E1 E2]; subst. inversion Hr; subst. eauto.
  - rewrite bool_decide_eq_false_2 by done. cbn [negb]. intros [Hin <-].
    revert Hnd Hin. induction Hag as [|o' s os ss (Ht & Hn & Hs) Hr IH]; intros Hnd Hin; [by apply not_elem_of_nil in Hin|].
    cbn [map] in Hnd. apply NoDup_cons in Hnd as [Hno Hnd]. rewrite Hn.
    apply elem_of_cons in Hin as [->|Hin].
    + rewrite bool_decide_eq_true_2 by done. eauto.
    + rewrite bool_decide_eq_false_2; [by apply IH|]. intros E. apply Hno. rewrite E.
      apply list_elem_of_fmap. eauto.
Qed.

(** ** The keyword prescreen is sound *)

Lemma scanAt_name s w r : scanAt s = Some (nam w, r) -> s = w ++ r.
Proof.
  destruct s as [|c s']; [done|]. cbn [scanAt]. case_match; [done|]. case_match; [done|]. case_match.
  - unfold scanString. by destruct (if HasPrefix _ _ then _ else _).
  - case_match; [|by case_match]. destruct (spanWhile isNameContinue (c :: s')) as [a b] eqn:E.
    intros [= <- <-]. by apply spanWhile_inv in E as [-> _].
Qed.

Lemma Contains_prefix w r : Contains (w ++ r) w = true.
Proof. destruct (w ++ r) eqn:E; cbn [Contains]; rewrite <- E, HasPrefix_app; done. Qed.

Lemma view_name_in sc ts b w : view sc ts b -> sc_held sc = None -> nam w ∈ ts -> Contains (sc_rest sc) w = true.
Proof.
  induction 1 as [sc sc' E|sc t sc' ts b E Hv IH]; intros Hh Hin; [by apply not_elem_of_nil in Hin|].
  unfold next in E. rewrite Hh in E. destruct (scan sc) as [o sc2] eqn:Es. simplify_eq.
  pose proof (scan_some _ _ _ Es) as (_ & Hh' & _). rewrite Hh in Hh'. unfold scan in Es.
  pose proof (skipIgnored_suffix (sc_rest sc) false) as Hsuf.
  destruct (skipIgnored false (sc_rest sc)) as [|c s]; [done|].
  destruct (scanAt (c :: s)) as [[t' r]|] eqn:Ea; [|done]. injection Es as -> <-.
  assert (Hc : Contains (c :: s) w = true).
  { apply elem_of_cons in Hin as [<-|Hin].
    - apply scanAt_name in Ea as ->. apply Contains_prefix.
    - specialize (IH Hh' Hin). cbn [sc_rest] in IH. apply scanAt_suffix in Ea.
      destruct (Contains (c :: s) w) eqn:Ec; [done|]. by rewrite (Contains_suffix _ _ _ Ea Ec) in IH. }
  destruct (Contains (sc_rest sc) w) eqn:Ec; [done|]. by rewrite (Contains_suffix _ _ _ Hsuf Ec) in Hc.
Qed.

Lemma documentNames_view nm ts b n : forall sc, view sc ts b -> (length ts < n)%nat -> nam nm ∈ ts ->
  documentNames_loop nm n sc = Some true.
Proof.
  intros sc Hv. revert n. induction Hv as [sc sc' E|sc t sc' ts b E Hv IH]; intros n Hn Hin; [by apply not_elem_of_nil in Hin|].
  destruct n as [|n]; [simpl in Hn; lia|]. cbn [documentNames_loop]. rewrite E.
  destruct (name t nm) eqn:En; [done|]. apply IH; [simpl in Hn; lia|].
  apply elem_of_cons in Hin as [<-|Hin]; [|done]. exfalso. unfold name in En. by rewrite !bool_decide_eq_true_2 in En.
Qed.

(** The mutation keyword is a token of a document with a mutation. *)
Lemma mutation_token d nm body : (OpMutation, nm, body) ∈ operations_of d -> nam gqlOperationMutation ∈ pr_doc d.
Proof.
  unfold operations_of, pr_doc. rewrite list_elem_of_omap. intros (x & Hx & E).
  destruct x as [b|ty o vs ds b|? ? ? ?]; simplify_eq. apply list_elem_of_In, in_concat.
  eexists. split; [apply in_map, list_elem_of_In; exact Hx|]. by left.
Qed.

Lemma get_operation_elem d opname o : get_operation d opname o -> o ∈ operations_of d.
Proof. unfold get_operation. case_decide; [intros ->; set_solver|by intros []]. Qed.

(** ** Envelopes *)

(** The members the server reads are the only ones the decoder can take for
    them: no repeated name, and none that differs from a known name in case. *)
Definition case_exact (ms : list (bytes * json)) : Prop :=
  NoDup (map fst ms) /\
  forall k v, (k, v) ∈ ms -> forall n, fieldFor [QUERY; OPERATIONNAME; VARIABLES] k = Some n -> k = n.

(** What a server takes from an envelope: the query text, the operation name
    (empty when absent or null) and the variables. *)
Definition server_reads (ms : list (bytes * json)) (q opname : bytes) : Prop :=
  member QUERY ms = Some (JStr q) /\
  (member OPERATIONNAME ms = Some (JStr opname) \/
   (opname = [] /\ (member OPERATIONNAME ms = None \/ member OPERATIONNAME ms = Some JNull))).

Definition textOf (v : option json) : bytes := match v with Some (JStr s) => s | _ => [] end.
Definition textOK (v : option json) : bool := match v with Some (JStr _) | Some JNull | None => true | _ => false end.

Lemma member_snoc k ms m : member k (ms ++ [m]) = if bool_decide (m.1 = k) then Some m.2 else member k ms.
Proof. unfold member, assoc. rewrite rev_app_distr. cbn [rev app List.find]. by case_match. Qed.

Lemma member_notin k ms : k ∉ map fst ms -> member k ms = None.
Proof.
  induction ms as [|m ms IH] using rev_ind; [done|]. rewrite map_app, member_snoc. intros H.
  rewrite bool_decide_eq_false_2 by set_solver. apply IH. set_solver.
Qed.

Lemma fieldFor_other k : fieldFor [QUERY; OPERATIONNAME; VARIABLES] k = None ->
  k <> QUERY /\ k <> OPERATIONNAME /\ k <> VARIABLES.
Proof. intros H. split_and!; intros ->; revert H; vm_compute; done. Qed.

Lemma decode_case_exact ms : case_exact ms -> textOK (member QUERY ms) = true -> textOK (member OPERATIONNAME ms) = true ->
  fold_left decodeMember ms (Env [] [] None false) =
  Env (textOf (member QUERY ms)) (textOf (member OPERATIONNAME ms)) (member VARIABLES ms) false.
Proof.
  induction ms as [|[k v] ms IH] using rev_ind; [done|]. intros [Hnd Hc]. rewrite !member_snoc. cbn [fst snd].
  rewrite map_app in Hnd. cbn [map fst] in Hnd. apply NoDup_app in Hnd as (Hnd & Hk & _).
  assert (Hkn : k ∉ map fst ms) by set_solver.
  assert (Hc' : case_exact ms) by (split; [done|]; intros k0 v0 H0 n; apply (Hc k0 v0); apply elem_of_app; by left).
  specialize (Hc k v ltac:(apply elem_of_app; right; by apply list_elem_of_singleton)). rewrite fold_left_app. cbn [fold_left].
  destruct (fieldFor [QUERY; OPERATIONNAME; VARIABLES] k) as [n|] eqn:Ef.
  - specialize (Hc n eq_refl) as ->.
    assert (Hn : n = QUERY \/ n = OPERATIONNAME \/ n = VARIABLES).
    { unfold fieldFor in Ef. destruct (List.find _ _) eqn:E1; [injection Ef as ->; rename E1 into Ef|clear E1];
        apply List.find_some in Ef as [Hi _]; simpl in Hi; intuition. }
    pose proof (member_notin _ _ Hkn) as Hm.
    destruct Hn as [ -> | [ -> | -> ]]; repeat (rewrite bool_decide_eq_true_2 by done || rewrite bool_decide_eq_false_2 by done);
      intros HQ HO; rewrite IH by (done || by rewrite Hm); unfold decodeMember; cbn [fst snd]; rewrite Ef;
      repeat (rewrite bool_decide_eq_true_2 by done || rewrite bool_decide_eq_false_2 by done);
      cbn [e_query e_operationName e_variables e_err]; rewrite ?Hm; try done; destruct v; done.
  - pose proof (fieldFor_other _ Ef) as (H1 & H2 & H3).
    rewrite !bool_decide_eq_false_2 by done. intros HQ HO. rewrite IH by done. unfold decodeMember. cbn [fst].
    by rewrite Ef.
Qed.

Lemma unmarshal_exact ms q opname : case_exact ms -> server_reads ms q opname ->
  unmarshalEnvelope (Some (JObj ms)) = Some (Env q opname (member VARIABLES ms) false).
Proof.
  intros Hc [Hq Ho]. unfold unmarshalEnvelope. rewrite decode_case_exact; [|done|by rewrite Hq|].
  - cbn [e_err]. rewrite Hq. destruct Ho as [->|[-> [->| ->]]]; done.
  - destruct Ho as [->|[_ [->| ->]]]; done.
Qed.

(** ** A server executes an operation of a request *)

(** The envelope [ms] carries the text [q] of document [d], and the server
    selects its operation [o]. *)
Record executes (ms : list (bytes * json)) (q : bytes) (d : document) (o : optype * bytes * list selection) : Prop := {
  ex_opname : bytes;
  ex_reads : server_reads ms q ex_opname;
  ex_lex : spec_lex q = Some (pr_doc d);
  ex_ok : doc_ok d = true;
  ex_valid : valid d;
  ex_get : get_operation d ex_opname o
}.

(** The whole reading of a request whose text is plain and whose members are
    exact: a mutation's facts cover what it performs, and anything else is a
    read. *)
Lemma parse_executed ms q d o : case_exact ms -> plain q -> executes ms q d o ->
  (o.1.1 <> OpMutation -> ParseGraphQLRequest (Some (JObj ms)) = Some None) /\
  (o.1.1 = OpMutation -> exists facts, ParseGraphQLRequest (Some (JObj ms)) = Some (Some facts) /\
     (Unreadable facts = None -> forall f, performs (fragments_of d) o.2 f -> f ∈ FieldNames facts) /\
     (nam reviewInput ∈ pr_doc d \/ variablesName (member VARIABLES ms) reviewInput = true -> NamesReview facts = true)).
Proof.
  intros Hc Hp [opname Hr Hl Hok Hv Hg]. pose proof (spec_lex_view _ _ Hp Hl) as Hview.
  pose proof (parseDocument_view q d Hok Hview) as Hparse.
  destruct (selectOperation_agree d opname o Hv Hg) as (s & Hsel & Hty & Hbody).
  unfold ParseGraphQLRequest. rewrite (unmarshal_exact _ _ _ Hc Hr). cbn [e_query e_operationName e_variables].
  assert (Hq : q <> []).
  { intros ->. apply get_operation_elem in Hg. vm_compute in Hl. injection Hl as Hd.
    destruct d as [|x d]; [by apply not_elem_of_nil in Hg|]. destruct x as [b|[] ? ? ? b|? ? ? b]; done. }
  rewrite bool_decide_eq_false_2 by done. destruct (subjectFromVariables (member VARIABLES ms)) as [sub fin].
  rewrite Hparse. cbn [mbind option_bind]. rewrite Hsel, Hty. split; intros Ho.
  - case_match; [done|]. rewrite bool_decide_eq_false_2; [done|]. by destruct o as [[[] ?] ?].
  - destruct o as [[ty nm] body]. cbn [fst snd] in *. subst ty.
    assert (Hm : Contains q mutationKeyword = true).
    { apply (view_name_in (newScanner q) (pr_doc d) false); [done|done|]. eapply mutation_token, get_operation_elem, Hg. }
    rewrite Hm. cbn [negb]. rewrite bool_decide_eq_true_2 by done. cbn [negb].
    destruct (resolveTopLevelFields_total (op_sel s) (fragments (summary d))) as [[fs unr] Hres].
    destruct (documentReferencesVariable_total q subjectInput) as [refs ->].
    destruct (documentNames_total q reviewInput) as [names Hn].
    destruct (documentAliasesOnto_total q responseReadNames) as [al ->]. rewrite Hres, Hn. cbn [mbind option_bind].
    eexists. split; [done|]. cbn [Unreadable FieldNames NamesReview]. split.
    + intros Hu f Hf. destruct unr; [done|]. rewrite (Hbody eq_refl) in Hres.
      apply resolveTopLevelFields_whole in Hres as (v & Ha & Hcl). eapply performs_read; [apply Hv|done|done|done].
    + intros [Hin|Hvar]; [|by rewrite Hvar, orb_true_r]. unfold documentNames in Hn.
      rewrite (documentNames_view _ (pr_doc d) false) in Hn; [by injection Hn as <-|done| |done].
      apply view_size in Hview. unfold size in Hview. simpl in Hview. lia.
Qed.

(** ** The policy *)

Lemma gateFields_elem nr fs f : f ∈ fs -> is_Some (gateFields nr [f]) -> is_Some (gateFields nr fs).
Proof.
  induction 1 as [f fs|f x fs Hin IH]; intros Hf; cbn [gateFields] in *.
  - repeat case_match; try done; by destruct Hf.
  - specialize (IH Hf). repeat case_match; done.
Qed.

(** A single gated field is refused by name or by the act the table names. *)
Lemma gateFields_inv nr fs r : gateFields nr fs = Some r ->
  RefMutation r ∈ fs /\ RefUnreadable r = None /\ Reason r <> GateReasonUnreadable.
Proof.
  induction fs as [|f fs IH]; cbn [gateFields]; [done|].
  destruct (assoc f gatedMutations) as [x|] eqn:E1.
  { intros [= <-]. cbn. split_and!; [set_solver|done|]. unfold assoc in E1. cbn in E1. by repeat case_match; simplify_eq/=. }
  destruct (if nr then assoc f stagedMutations else None) as [x|] eqn:E2.
  { intros [= <-]. cbn. split_and!; [set_solver|done|]. destruct nr; [|done]. unfold assoc in E2. cbn in E2.
    by repeat case_match; simplify_eq/=. }
  destruct (assoc f graphQLMutations) as [e|]; [|intros (? & ? & ?)%IH; split_and!; [set_solver|done..]].
  destruct (assoc (g_action e) gatedActions) as [x|] eqn:E3; [|intros (? & ? & ?)%IH; split_and!; [set_solver|done..]].
  intros [= <-]. cbn. split_and!; [set_solver|done|]. unfold assoc, gatedActions in E3. cbn [List.find fst snd] in E3.
  by repeat case_match; simplify_eq/=.
Qed.

Lemma ParseGraphQLRequest_total body : is_Some (ParseGraphQLRequest body).
Proof.
  unfold ParseGraphQLRequest. destruct (unmarshalEnvelope body) as [e|]; [|eauto].
  case_match; [eauto|]. case_match; [eauto|]. destruct (subjectFromVariables _) as [sub fin].
  destruct (parseDocument_total (e_query e)) as [[d|] ->]; cbn [mbind option_bind]; [|eauto].
  destruct (selectOperation _ _) as [o|]; [|case_match; eauto]. case_match; [eauto|].
  destruct (resolveTopLevelFields_total (op_sel o) (fragments d)) as [[fs unr] ->].
  destruct (documentReferencesVariable_total (e_query e) subjectInput) as [refs ->].
  destruct (documentNames_total (e_query e) reviewInput) as [names ->].
  destruct (documentAliasesOnto_total (e_query e) responseReadNames) as [al ->]. cbn [mbind option_bind]. eauto.
Qed.

(** ** Paths *)

Lemma Split_cons s c : exists l ls, Split s c = l :: ls.
Proof. destruct s as [|x s]; cbn [Split]; [eauto|]. case_match; [eauto|]. case_match; eauto. Qed.

Lemma Split_cut a b c : Split (a ++ c :: b) c = Split a c ++ Split b c.
Proof.
  induction a as [|x a IH]; cbn [app Split].
  - by rewrite bool_decide_eq_true_2.
  - rewrite IH. case_match; [done|]. destruct (Split_cons a c) as (l & ls & ->). done.
Qed.

(** Text that leads nowhere between two slashes: nothing, a dot, or an element
    and the dot-dot that leaves it. *)
Inductive detour : bytes -> Prop :=
| detour_empty : detour []
| detour_dot : detour DOT
| detour_back x : x <> [] -> x <> DOT -> x <> DOTDOT -> SLASH ∉ x -> detour (x ++ SLASH :: DOTDOT).

Lemma Split_noslash x : SLASH ∉ x -> Split x SLASH = [x].
Proof.
  induction x as [|c x IH]; cbn [Split]; [done|]. intros H. rewrite bool_decide_eq_false_2 by set_solver.
  rewrite IH by set_solver. done.
Qed.

Lemma detour_fold rooted j acc : detour j -> fold_left (cleanStep rooted) (Split j SLASH) acc = acc.
Proof.
  destruct 1 as [| |x H1 H2 H3 H4]; [done|done|]. rewrite Split_cut, Split_noslash by done. cbn [app].
  change (Split DOTDOT SLASH) with [DOTDOT]. cbn [fold_left]. unfold cleanStep at 2.
  rewrite !bool_decide_eq_false_2 by done. cbn [orb]. unfold cleanStep.
  rewrite !(bool_decide_eq_false_2 (DOTDOT = _)) by done. cbn [orb]. rewrite bool_decide_eq_true_2 by done.
  by rewrite bool_decide_eq_false_2.
Qed.

Lemma Clean_detour a j b : detour j -> Clean (a ++ SLASH :: j ++ SLASH :: b) = Clean (a ++ SLASH :: b).
Proof.
  intros Hj. unfold Clean.
  assert (HasPrefix (a ++ SLASH :: j ++ SLASH :: b) [SLASH] = HasPrefix (a ++ SLASH :: b) [SLASH]) as ->
    by (destruct a; reflexivity).
  rewrite !Split_cut, !fold_left_app, (detour_fold _ j) by done. done.
Qed.

End GhGateFacts.
