(* ===== verification/GhSpec.v ===== *)
(** * What the GitHub write gate guarantees

    The gate is stated against the reference of [GhGrammar]: whatever a server
    would perform for a request, however its document spells it, the injector
    refuses what the policy refuses and forwards reads.  The hypotheses name
    where the gate's reading and the server's can part: [plain] texts,
    [case_exact] envelopes and the path the request came in on; what happens
    outside them is shown on concrete requests. *)

From S2P Require Import Prelude GoBytes GhLex GhDoc GhGrammar GhLexAgree GhParseFacts GhTable GhRequest GhGateFacts.
Import GoPath Gql GqlFacts GqlDoc GqlDocFacts GqlSpec GqlAgree GqlParse GhWrite GhRequest GhGateFacts.

Module GhSpec.

(** The GraphQL mutations the policy never lets through. *)
Definition forbidden : list bytes :=
  [bs "createPullRequest"; bs "revertPullRequest"; bs "addPullRequestReview"; bs "submitPullRequestReview";
   bs "addPullRequestReviewThread"; bs "createRepository"; bs "cloneTemplateRepository"].

Definition stagedReply : bytes := bs "addPullRequestReviewThreadReply".

Lemma forbidden_gated nr f : f ∈ forbidden -> is_Some (gateFields nr [f]).
Proof.
  intros Hf. apply list_elem_of_In in Hf. destruct nr; cbn in Hf;
    (repeat destruct Hf as [<-|Hf]; [vm_compute; eauto..|done]).
Qed.

Lemma staged_gated : is_Some (gateFields true [stagedReply]).
Proof. vm_compute. eauto. Qed.

(** No exemption is granted, which is what both modes wire. *)
Definition never_authorizes (cfg : Config) : Prop :=
  forall hook req ref, AuthorizeWrite cfg = Some hook -> hook req ref = false.

Section Gate.

Context (parseJSON : bytes -> option json) (basicPassword : bytes -> bytes).

(** A request to the GraphQL endpoint from the run itself. *)
Record graphql_call (cfg : Config) (r : httpRequest) : Prop := {
  gc_method : r_method r = bs "POST";
  gc_path : isGraphQLPath (r_path r) = true;
  gc_auth : callerAuthorized basicPassword cfg r = true
}.

(** ... whose body arrives whole and is the JSON object [ms]. *)
Record graphql_body (r : httpRequest) (ms : list (bytes * json)) : Prop := {
  gb_bytes : bytes;
  gb_read : bufferRequest r = Ok gb_bytes;
  gb_json : parseJSON gb_bytes = Some (JObj ms)
}.

Lemma handler_graphql cfg r facts : graphql_call cfg r -> captureGraphQLWrite parseJSON r = Some facts ->
  Handler parseJSON basicPassword cfg r =
  match refused cfg r facts with
  | Some ref => Some (Refused ref)
  | None => match TokenSource cfg with
            | None | Some [] => Some CredentialMiss
            | Some tok => Some (Forwarded (rewriteTarget (Upstream cfg) (r_path r)) (bs "token " ++ tok))
            end
  end.
Proof.
  intros [Hm Hp Ha] Hc. unfold Handler. unfold routesToGit. rewrite Hp. cbn [orb negb].
  rewrite andb_false_r. cbn [andb]. by rewrite Ha, Hc.
Qed.

Lemma capture_body cfg r ms : graphql_call cfg r -> graphql_body r ms ->
  captureGraphQLWrite parseJSON r = ParseGraphQLRequest (Some (JObj ms)).
Proof.
  intros [Hm Hp _] [b Hb Hj]. unfold captureGraphQLWrite. unfold eqs. rewrite Hm, Hp.
  rewrite bool_decide_eq_true_2 by done. cbn [negb orb]. by rewrite Hb, Hj.
Qed.

Lemma refused_gated cfg r f ref : isGraphQLPath (r_path r) = true -> never_authorizes cfg ->
  gateGraphQL f = Some ref -> refused cfg r (Some f) = Some ref.
Proof.
  intros Hp Hn Hg. unfold refused, gateRequest, Gate. rewrite Hp. cbn [GraphQL]. rewrite Hg.
  destruct (AuthorizeWrite cfg) as [hook|] eqn:E; [|done]. by rewrite (Hn _ _ _ E).
Qed.

Lemma gate_facts f fld : (Unreadable f = None -> fld ∈ FieldNames f) ->
  is_Some (gateFields (NamesReview f) [fld]) -> is_Some (gateGraphQL f).
Proof.
  intros Hin Hf. unfold gateGraphQL. destruct (Unreadable f); [eauto|]. by eapply gateFields_elem; [apply Hin|].
Qed.

(** A request whose mutation performs a field the gate refuses is answered with
    a refusal. *)
Lemma performed_refused cfg r ms q d o f :
  never_authorizes cfg -> graphql_call cfg r -> graphql_body r ms -> case_exact ms -> plain q ->
  executes ms q d o -> o.1.1 = OpMutation -> performs (fragments_of d) o.2 f ->
  (forall facts, (nam reviewInput ∈ pr_doc d \/ variablesName (member VARIABLES ms) reviewInput = true ->
     NamesReview facts = true) -> is_Some (gateFields (NamesReview facts) [f])) ->
  exists ref, Handler parseJSON basicPassword cfg r = Some (Refused ref).
Proof.
  intros Hn Hcall Hbody Hc Hp Hex Ho Hf Hg.
  destruct (parse_executed _ _ _ _ Hc Hp Hex) as [_ Hmut]. destruct (Hmut Ho) as (facts & Hpf & Hall & Hrev).
  pose proof (capture_body _ _ _ Hcall Hbody) as Hcap. rewrite Hpf in Hcap.
  destruct (gate_facts facts f (fun Hu => Hall Hu f Hf) (Hg facts Hrev)) as [ref Href].
  exists ref. rewrite (handler_graphql _ _ _ Hcall Hcap). by rewrite (refused_gated _ _ _ ref (gc_path _ _ Hcall)).
Qed.

(** C2: Opening or reverting into a pull request, submitting or staging a review
    and creating a repository are refused on the GraphQL endpoint: under an
    alias, inside inline fragments, behind chains or cycles of spreads, or
    beside any number of other fields, if the server would perform the field,
    the request is answered with a refusal and never forwarded.  The request is
    an authorized POST whose body arrives whole, and it lies where the gate and
    the server read alike: the envelope repeats no member name and spells the
    known ones in their own case ([case_exact]), the document text has no
    carriage return, nor a backslash if it has block strings ([plain]), and the
    AuthorizeWrite hook grants no exemption ([never_authorizes]).  Outside the
    first two the gate forwards such mutations: [document_readings_differ]. *)
Theorem gated_mutations_never_forwarded cfg r ms q d o f :
  never_authorizes cfg -> graphql_call cfg r -> graphql_body r ms -> case_exact ms -> plain q ->
  executes ms q d o -> o.1.1 = OpMutation -> performs (fragments_of d) o.2 f -> f ∈ forbidden ->
  exists ref, Handler parseJSON basicPassword cfg r = Some (Refused ref).
Proof.
  intros Hn Hcall Hbody Hc Hp Hex Ho Hf Hin.
  apply (performed_refused cfg r ms q d o f); try done. intros. by apply forbidden_gated.
Qed.

(** Replying to a review thread is allowed, but the form that names a pending
    review, in the document or in the variables, is refused. *)
Theorem staged_reply_never_forwarded cfg r ms q d o :
  never_authorizes cfg -> graphql_call cfg r -> graphql_body r ms -> case_exact ms -> plain q ->
  executes ms q d o -> o.1.1 = OpMutation -> performs (fragments_of d) o.2 stagedReply ->
  nam reviewInput ∈ pr_doc d \/ variablesName (member VARIABLES ms) reviewInput = true ->
  exists ref, Handler parseJSON basicPassword cfg r = Some (Refused ref).
Proof.
  intros Hn Hcall Hbody Hc Hp Hex Ho Hf Hrev. apply (performed_refused cfg r ms q d o stagedReply); try done.
  intros facts H. rewrite (H Hrev). apply staged_gated.
Qed.

(** A request whose selected operation is a query or a subscription is never
    refused: it is forwarded to the GraphQL endpoint under the run's credential,
    even when the document also defines mutations. *)
Theorem reads_are_forwarded cfg r ms q d o tok :
  graphql_call cfg r -> graphql_body r ms -> case_exact ms -> plain q ->
  executes ms q d o -> o.1.1 <> OpMutation -> TokenSource cfg = Some tok -> tok <> [] ->
  Handler parseJSON basicPassword cfg r =
    Some (Forwarded (graphqlUpstream (Upstream cfg)) (bs "token " ++ tok)).
Proof.
  intros Hcall Hbody Hc Hp Hex Ho Ht Hne. destruct (parse_executed _ _ _ _ Hc Hp Hex) as [Hread _].
  pose proof (capture_body _ _ _ Hcall Hbody) as Hcap. rewrite (Hread Ho) in Hcap.
  rewrite (handler_graphql _ _ _ Hcall Hcap). unfold refused, gateRequest. rewrite (gc_path _ _ Hcall), Ht.
  destruct tok as [|c tok]; [done|]. unfold rewriteTarget. rewrite (gc_path _ _ Hcall).
  unfold setTarget, singleJoiningSlash. 
  destruct (graphqlUpstream (Upstream cfg)) as [a b c' e]. cbn [u_path u_scheme u_hostname u_port].
  change (HasPrefix [] [SLASH]) with false. rewrite andb_false_r, bool_decide_eq_true_2 by done.
  cbn [negb andb]. by rewrite andb_false_r, app_nil_r.
Qed.

(** Declared or delivered longer than the proxy buffers. *)
Definition over_cap (r : httpRequest) : Prop :=
  maxRequestBody < r_length r \/ maxRequestBody < Z.of_nat (length (r_body r)).

Lemma buffer_over_cap r : over_cap r -> bufferRequest r = Err GraphQLOverCap.
Proof.
  unfold over_cap, bufferRequest. intros H. destruct (Z.ltb_spec maxRequestBody (r_length r)); [done|].
  destruct H as [|H]; [lia|]. rewrite (proj2 (Z.leb_gt _ _)), andb_false_r, (proj2 (Z.ltb_lt _ _)) by done. done.
Qed.

Lemma buffer_within_cap r : ~ over_cap r ->
  bufferRequest r = if r_broken r then Err GraphQLRequestUnread else Ok (r_body r).
Proof.
  unfold over_cap, bufferRequest. intros H. rewrite (proj2 (Z.ltb_ge maxRequestBody (r_length r))) by lia.
  rewrite (proj2 (Z.leb_le _ _)), andb_true_r, (proj2 (Z.ltb_ge _ _)) by lia. done.
Qed.

(** A GraphQL request that cannot be read is refused, with the reason it could
    not: a body over the cap, a body whose stream broke, and a body that is not a
    JSON object with a query text. *)
Theorem unreadable_is_refused cfg r u :
  never_authorizes cfg -> graphql_call cfg r ->
  match u with
  | GraphQLOverCap => over_cap r
  | GraphQLRequestUnread => ~ over_cap r /\ r_broken r = true
  | GraphQLMalformed => ~ over_cap r /\ r_broken r = false /\
      match unmarshalEnvelope (parseJSON (r_body r)) with
      | Some e => e_query e = [] \/ (Contains (e_query e) mutationKeyword = true /\ parseDocument (e_query e) = Some None)
      | None => True
      end
  | _ => False
  end ->
  Handler parseJSON basicPassword cfg r = Some (Refused (Refuses GateReasonUnreadable [] [] (Some u))).
Proof.
  intros Hn Hcall Hu. pose proof Hcall as [Hm Hp Ha].
  assert (Hcap : exists f, captureGraphQLWrite parseJSON r = Some (Some f) /\ Unreadable f = Some u).
  { unfold captureGraphQLWrite, eqs. rewrite Hm, Hp, bool_decide_eq_true_2 by done. cbn [negb orb].
    destruct u; try done; [rewrite buffer_over_cap by done; eauto|
      destruct Hu as [Hc Hb]; rewrite buffer_within_cap, Hb by done; eauto|].
    destruct Hu as (Hc & Hb & He). rewrite buffer_within_cap, Hb by done. unfold ParseGraphQLRequest.
    destruct (unmarshalEnvelope (parseJSON (r_body r))) as [e|]; [|eauto].
    destruct He as [->|[Hk Hd]]; [rewrite bool_decide_eq_true_2 by done; eauto|].
    case_match; [eauto|]. rewrite Hk. cbn [negb]. destruct (subjectFromVariables _). rewrite Hd.
    cbn [mbind option_bind]. eauto. }
  destruct Hcap as (f & Hcap & Hf). rewrite (handler_graphql _ _ _ Hcall Hcap).
  erewrite refused_gated; [done|done|done|]. unfold gateGraphQL. by rewrite Hf.
Qed.

(** The handler always answers: on no request, whatever document an agent
    composed, do the reader's loops run out. *)
Theorem handler_answers cfg r : is_Some (Handler parseJSON basicPassword cfg r).
Proof.
  unfold Handler. case_match; [eauto|]. case_match; [eauto|].
  assert (Hc : is_Some (captureGraphQLWrite parseJSON r)).
  { unfold captureGraphQLWrite. case_match; [eauto|]. case_match; [apply ParseGraphQLRequest_total|eauto]. }
  destruct Hc as [f ->]. cbn [mbind option_bind]. repeat case_match; eauto.
Qed.

(** What leaves does so under the run's own credential and only to its
    upstream: a forwarded request comes from an authorized caller, carries the
    token the source supplied, and goes to the configured host, or for a dotcom
    base to api.github.com. *)
Theorem forwards_stay_on_upstream cfg r t auth :
  Handler parseJSON basicPassword cfg r = Some (Forwarded t auth) ->
  callerAuthorized basicPassword cfg r = true /\
  (exists tok, TokenSource cfg = Some tok /\ tok <> [] /\ auth = bs "token " ++ tok) /\
  (u_hostname t = u_hostname (Upstream cfg) \/
   (ToLower (u_hostname (Upstream cfg)) = dotcomAPIHost /\ u_hostname t = dotcomAPIHost)).
Proof.
  unfold Handler. case_match; [done|]. destruct (callerAuthorized basicPassword cfg r); [|done]. cbn [negb].
  destruct (captureGraphQLWrite parseJSON r) as [facts|]; [|done]. cbn [mbind option_bind].
  destruct (refused cfg r facts); [done|]. destruct (TokenSource cfg) as [[|c tok]|] eqn:Et; [done| |done].
  intros [= <- <-]. split_and!; [done|by exists (c :: tok)|].
  unfold rewriteTarget, setTarget. case_match; cbn [u_hostname]; [|by left].
  unfold graphqlUpstream. case_bool_decide; cbn [u_hostname]; auto.
Qed.

End Gate.

(** ** Documents *)

(** C17: The reader against the grammar: on the text of an executable document
    that has no carriage return, nor a backslash if it has block strings
    ([plain]), whatever its arguments, strings, directives, variable
    definitions and nested selections hold, the reader returns exactly that
    document's operations and fragments with the fields and spreads of their
    top level.  Off [plain] texts the reader and the grammar part
    ([document_readings_differ]). *)
Theorem documents_are_read_exactly q d : plain q -> spec_lex q = Some (pr_doc d) -> doc_ok d = true ->
  parseDocument q = Some (Some (summary d)).
Proof. intros Hp Hl Hok. by apply parseDocument_view, spec_lex_view. Qed.

(** ** REST *)

(** The collections and members a REST request creates a pull request, a review
    or a repository by. *)
Definition creates_rest (clean : bytes) : Prop :=
  mintsRepository clean = true \/
  exists o r rest, splitRepoPath clean = Some (o, r, rest) /\
    (rest = [bs "pulls"] \/ rest = [bs "generate"] \/
     exists n, is_Some (positive n) /\ rest = [bs "pulls"; n; bs "reviews"]).

Ltac eqs_cases := unfold eqs in *; repeat (case_bool_decide; subst; cbn [andb orb negb] in *).

Lemma classify_gated method path s r : Classify method path = Some s -> assoc (Action s) gatedActions = Some r ->
  method = bs "POST" /\ exists o rp rest, splitRepoPath path = Some (o, rp, rest) /\
    (rest = [bs "pulls"] \/ rest = [bs "generate"] \/
     exists n, is_Some (positive n) /\ rest = [bs "pulls"; n; bs "reviews"]).
Proof.
  unfold Classify. destruct (splitRepoPath path) as [[[o rp] rest]|]; [|done].
  destruct rest as [|h sub].
  { unfold eqs. repeat case_match; intros [= <-] Hg; exfalso; revert Hg; vm_compute; done. }
  unfold eqs at 1. case_bool_decide as Hp; [subst h|].
  - unfold classifyPulls. destruct sub as [|n sub].
    { unfold eqs. case_bool_decide; [|done]. intros _ _. subst. split; [done|]. eexists _, _, _. split; [done|]. by left. }
    unfold eqs at 1. case_match.
    { unfold classifyComment. repeat case_match; try done; intros [= <-] Hg; exfalso; revert Hg; vm_compute; done. }
    destruct (positive n) as [k|] eqn:Ek; [|done].
    destruct sub as [|x [|id [|y [|]]]]; cbv zeta; try done.
    + case_match; [|done]. intros [= <-] Hg. exfalso. revert Hg. vm_compute. done.
    + unfold eqs. case_match; [intros [= <-] Hg; exfalso; revert Hg; vm_compute; done|].
      case_match; [intros [= <-] Hg; exfalso; revert Hg; vm_compute; done|].
      case_match; [|repeat case_match; try done; intros [= <-] Hg; exfalso; revert Hg; vm_compute; done].
      intros _ _. bool_hyps. subst. split; [done|]. eexists _, _, _. split; [done|]. right; right. by exists n.
    + repeat case_match; try done; intros [= <-] Hg; exfalso; revert Hg; vm_compute; done.
  - unfold classifyIssues, classifyComment, classifyActions, classifyLabels, classifyReleases, eqs.
    destruct sub as [|x1 [|x2 [|x3 [|x4 sub]]]]; repeat (case_match; try done);
      intros [= <-] Hg; try (exfalso; revert Hg; vm_compute; done).
    all: bool_hyps; subst; split; [done|]; eexists _, _, _; split; [done|]; right; by left.
Qed.

(** The REST half refuses exactly the creating requests: a POST to one of the
    repository collections, to a repository's pulls or generate, or to a pull
    request's reviews, read from the path with its dots and doubled slashes
    resolved. *)
Theorem rest_gate_exact method path :
  is_Some (gateREST method path) <-> method = bs "POST" /\ creates_rest (Clean path).
Proof.
  unfold gateREST, creates_rest. generalize (Clean path). intros clean. split.
  - case_match eqn:E; [|].
    + intros _. apply andb_true_iff in E as [E1 E2]. unfold eqs in E1. apply bool_decide_eq_true in E1. auto.
    + destruct (Classify method clean) as [s|] eqn:Ec; [|by intros []].
      destruct (assoc (Action s) gatedActions) as [r|] eqn:Er; [|by intros []]. intros _.
      destruct (classify_gated _ _ _ _ Ec Er) as [-> ?]. auto.
  - intros [-> [Hm|(o & r & rest & Hs & Hr)]].
    + rewrite Hm. change (eqs (bs "POST") "POST") with true. cbn [andb]. eauto.
    + case_match; [eauto|]. unfold Classify. rewrite Hs.
      destruct Hr as [->|[->|(n & [k Hk] & ->)]].
      * vm_compute. eauto.
      * vm_compute. eauto.
      * unfold classifyPulls. rewrite Hk.
        assert (Hc : eqs n "comments" = false).
        { unfold eqs. apply bool_decide_eq_false. intros ->. vm_compute in Hk. done. }
        rewrite Hc. vm_compute. eauto.
Qed.

(** Spelling the path another way changes nothing: empty elements, dots and
    elements left again by dot-dot may be inserted at any slash of the path. *)
Theorem rest_gate_ignores_detours method a j b : detour j ->
  gateREST method (a ++ SLASH :: j ++ SLASH :: b) = gateREST method (a ++ SLASH :: b).
Proof. intros Hj. unfold gateREST. by rewrite Clean_detour. Qed.

(** The audit log and the gate agree on names: a GraphQL request the classifier
    would record under a gated act is refused as that act. *)
Theorem gate_agrees_with_classifier facts s reason :
  classifyGraphQL facts = Some s -> assoc (Action s) gatedActions = Some reason ->
  gateGraphQL facts = Some (Refuses reason (Action s) (Mutation facts) None).
Proof.
  unfold classifyGraphQL, gateGraphQL, Mutation.
  destruct (Unreadable facts); [by rewrite bool_decide_eq_true_2|].
  destruct (FieldNames facts) as [|f [|]]; [by rewrite bool_decide_eq_true_2| |by rewrite bool_decide_eq_true_2].
  case_bool_decide; [done|]. destruct (assoc f graphQLMutations) as [e|] eqn:Ee; [|done].
  case_match eqn:Est; [done|]. intros [= <-]. cbn [Action]. intros Ha. cbn [gateFields].
  assert (assoc f gatedMutations = None) as ->.
  { unfold gatedMutations, assoc. cbn [List.find fst]. destruct (decide (f = bs "addPullRequestReviewThread")) as [->|Hne].
    - exfalso. vm_compute in Ee. done.
    - rewrite bool_decide_eq_false_2 by done. done. }
  destruct (NamesReview facts).
  - rewrite andb_true_r in Est. apply bool_decide_eq_false in Est.
    destruct (assoc f stagedMutations); [exfalso; apply Est; eauto|]. by rewrite Ee, Ha.
  - by rewrite Ee, Ha.
Qed.

End GhSpec.
