(* ===== verification/GhExample.v ===== *)
(** * The write gate on concrete requests

    Witnesses for the theorems of [GhSpec], and the requests on which the gate's
    reading and the server's differ. *)

From S2P Require Import Prelude GoBytes GhLex GhDoc GhGrammar GhLexAgree GhParseFacts GhTable GhRequest GhGateFacts GhSpec.
Import GoPath Gql GqlFacts GqlDoc GqlDocFacts GqlSpec GqlAgree GqlParse GhWrite GhRequest GhGateFacts GhSpec.

Module GhExample.

(** Source text written with ['] for a double quote, [~] for a line feed and
    [^] for a carriage return. *)
Definition src (s : string) : bytes :=
  map (fun c => if bool_decide (c = "'"%char) then QUOTE
                else if bool_decide (c = "~"%char) then LF
                else if bool_decide (c = "^"%char) then CR else c) (bs s).

Definition cfg : Config :=
  MkConfig (MkURL (bs "https") (bs "api.github.com") [] []) (bs "placeholder") None true (Some (bs "ghs_token")).
Definition post (path : string) : httpRequest :=
  MkHttp (bs "POST") (bs path) (bs "token placeholder") (-1) (bs "body") false.
Definition noBasic : bytes -> bytes := fun _ => [].
(** encoding/json's reading of the body of the example at hand. *)
Definition reads (ms : list (bytes * json)) : bytes -> option json := fun _ => Some (JObj ms).
Definition envelope_of (q : bytes) : list (bytes * json) := [(QUERY, JStr q)].

(** A pull request opened under an alias, inside an inline fragment of a
    fragment that spreads itself, beside an innocent comment. *)
Definition hidden : bytes := src
  "mutation M { ok: addComment(input: {subjectId: 'x', body: '}{'}) { clientMutationId } ...F } fragment F on Mutation { ... @include(if: true) { pr: createPullRequest(input: {title: 't'}) { pullRequest { url } } ...F } }".
Definition hidden_body : list selection :=
  [SField (Some (bs "ok")) (bs "addComment") [(bs "input", VObj [(bs "subjectId", VLit); (bs "body", VLit)])] []
     [SField None (bs "clientMutationId") [] [] []];
   SSpread (bs "F") []].
Definition hidden_frag : list selection :=
  [SInline None [(bs "include", [(bs "if", VName (bs "true"))])]
     [SField (Some (bs "pr")) (bs "createPullRequest") [(bs "input", VObj [(bs "title", VLit)])] []
        [SField None (bs "pullRequest") [] [] [SField None (bs "url") [] [] []]];
      SSpread (bs "F") []]].
Definition hidden_doc : document :=
  [DOp OpMutation (Some (bs "M")) [] [] hidden_body; DFrag (bs "F") mutationRootType [] hidden_frag].

Ltac decided := apply (bool_decide_eq_true_1 _); vm_compute; reflexivity.

Lemma case_exact_query q : case_exact (envelope_of q).
Proof.
  split; [apply NoDup_singleton|]. intros k v [= -> ->]%list_elem_of_singleton n. vm_compute. by intros [= <-].
Qed.

Lemma executes_query q d o : spec_lex q = Some (pr_doc d) -> doc_ok d = true -> valid d -> operations_of d = [o] ->
  executes (envelope_of q) q d o.
Proof. intros. exists []; [|done..]. split; [done|]. right. auto. Qed.

Lemma plain_of q : bool_decide (CR ∉ q) && (bool_decide (BACKSLASH ∉ q) || negb (Contains q quotes3)) = true -> plain q.
Proof.
  rewrite andb_true_iff, orb_true_iff, negb_true_iff, !bool_decide_eq_true. intros [? [?|?]]; split; auto.
Qed.

Lemma hidden_executes : executes (envelope_of hidden) hidden hidden_doc (OpMutation, bs "M", hidden_body).
Proof. apply executes_query; [vm_compute; done..| |done]. split; decided. Qed.

Lemma hidden_performs : performs (fragments_of hidden_doc) hidden_body (bs "createPullRequest").
Proof.
  eapply perf_spread; [right; left|left|]. eapply perf_inline; [left|]. eapply perf_field. left.
Qed.

Lemma never_cfg : never_authorizes cfg.
Proof. done. Qed.

Lemma call_cfg path : isGraphQLPath (bs path) = true -> graphql_call noBasic cfg (post path).
Proof. intros H. by split. Qed.

Lemma body_reads ms path : graphql_body (reads ms) (post path) ms.
Proof. by exists (bs "body"). Qed.

Lemma gated_mutations_never_forwarded_witness :
  exists ref, Handler (reads (envelope_of hidden)) noBasic cfg (post "/api/graphql") = Some (Refused ref).
Proof.
  apply (gated_mutations_never_forwarded (reads (envelope_of hidden)) noBasic cfg (post "/api/graphql")
    (envelope_of hidden) hidden hidden_doc (OpMutation, bs "M", hidden_body) (bs "createPullRequest")).
  - exact never_cfg.
  - apply call_cfg. vm_compute. done.
  - apply body_reads.
  - apply case_exact_query.
  - apply plain_of. vm_compute. done.
  - exact hidden_executes.
  - done.
  - exact hidden_performs.
  - left.
Defined.

(** A reply to a review thread staged on a pending review. *)
Definition staged : bytes := src
  "mutation { addPullRequestReviewThreadReply(input: {pullRequestReviewId: 'R', body: 'b'}) { clientMutationId } }".
Definition staged_body : list selection :=
  [SField None stagedReply [(bs "input", VObj [(reviewInput, VLit); (bs "body", VLit)])] []
     [SField None (bs "clientMutationId") [] [] []]].
Definition staged_doc : document := [DOp OpMutation None [] [] staged_body].

Lemma staged_reply_never_forwarded_witness :
  exists ref, Handler (reads (envelope_of staged)) noBasic cfg (post "/api/graphql") = Some (Refused ref).
Proof.
  apply (staged_reply_never_forwarded (reads (envelope_of staged)) noBasic cfg (post "/api/graphql")
    (envelope_of staged) staged staged_doc (OpMutation, [], staged_body)).
  - exact never_cfg.
  - apply call_cfg. vm_compute. done.
  - apply body_reads.
  - apply case_exact_query.
  - apply plain_of. vm_compute. done.
  - apply executes_query; [vm_compute; done..| |done]. split; decided.
  - done.
  - eapply perf_field. left.
  - left. decided.
Defined.

(** A read whose document also defines a mutation, selected by name. *)
Definition mixed : bytes := src "query Q { viewer { login } } mutation M { createPullRequest { clientMutationId } }".
Definition mixed_members : list (bytes * json) := [(QUERY, JStr mixed); (OPERATIONNAME, JStr (bs "Q"))].
Definition viewer : list selection := [SField None (bs "viewer") [] [] [SField None (bs "login") [] [] []]].
Definition mixed_doc : document :=
  [DOp OpQuery (Some (bs "Q")) [] [] viewer;
   DOp OpMutation (Some (bs "M")) [] []
     [SField None (bs "createPullRequest") [] [] [SField None (bs "clientMutationId") [] [] []]]].

Lemma reads_are_forwarded_witness :
  Handler (reads mixed_members) noBasic cfg (post "/api/graphql") =
    Some (Forwarded (graphqlUpstream (Upstream cfg)) (bs "token " ++ bs "ghs_token")).
Proof.
  apply (reads_are_forwarded (reads mixed_members) noBasic cfg (post "/api/graphql")
    mixed_members mixed mixed_doc (OpQuery, bs "Q", viewer)).
  - apply call_cfg. vm_compute. done.
  - apply body_reads.
  - split; [decided|]. intros k v Hk n. apply list_elem_of_In in Hk.
    destruct Hk as [[= <- <-]|[[= <- <-]|[]]]; vm_compute; by intros [= <-].
  - apply plain_of. vm_compute. done.
  - exists (bs "Q").
    + split; [done|]. by left.
    + vm_compute. done.
    + done.
    + split; decided.
    + split; [left|done].
  - done.
  - done.
  - done.
Defined.

Lemma unreadable_is_refused_witness :
  Handler (fun _ => None) noBasic cfg (post "/api/graphql") =
    Some (Refused (Refuses GateReasonUnreadable [] [] (Some GraphQLMalformed))).
Proof.
  apply (unreadable_is_refused (fun _ => None) noBasic cfg (post "/api/graphql") GraphQLMalformed).
  - exact never_cfg.
  - apply call_cfg. vm_compute. done.
  - split; [|done]. vm_compute. by intros [|].
Defined.

Lemma forwards_stay_on_upstream_witness :
  Handler (reads (envelope_of (bs "{viewer{login}}"))) noBasic cfg (post "/api/graphql") =
    Some (Forwarded (MkURL (bs "https") (bs "api.github.com") [] (bs "/graphql")) (bs "token ghs_token")) /\
  callerAuthorized noBasic cfg (post "/api/graphql") = true.
Proof.
  assert (H : Handler (reads (envelope_of (bs "{viewer{login}}"))) noBasic cfg (post "/api/graphql") =
    Some (Forwarded (MkURL (bs "https") (bs "api.github.com") [] (bs "/graphql")) (bs "token ghs_token")))
    by (vm_compute; done).
  split; [exact H|]. exact (proj1 (forwards_stay_on_upstream _ _ _ _ _ _ H)).
Defined.

Lemma documents_are_read_exactly_witness : parseDocument hidden = Some (Some (summary hidden_doc)).
Proof.
  apply documents_are_read_exactly; [apply plain_of|..]; vm_compute; done.
Defined.

Lemma rest_gate_ignores_detours_witness :
  gateREST (bs "POST") (bs "/repos/o/r" ++ SLASH :: bs "x/.." ++ SLASH :: bs "pulls") =
  gateREST (bs "POST") (bs "/repos/o/r" ++ SLASH :: bs "pulls").
Proof.
  apply rest_gate_ignores_detours. apply (detour_back (bs "x")); decided.
Defined.

Lemma gate_agrees_with_classifier_witness :
  let facts := Facts [] [bs "revertPullRequest"] [] false None false false in
  gateGraphQL facts = Some (Refuses GateReasonPRCreate ActionPRReverted (bs "revertPullRequest") None).
Proof.
  intros facts. apply (gate_agrees_with_classifier facts
    (MkShape ActionPRReverted [] [] 0 [] [] 0 NoSpace NoSpace [] false [] true true true) GateReasonPRCreate);
    vm_compute; done.
Defined.

(** ** Where the two readings part *)

(** A request the injector forwards with the credential although the server
    would open a pull request. *)
Definition slips_through (path : string) (ms : list (bytes * json)) : Prop :=
  (exists t auth, Handler (reads ms) noBasic cfg (post path) = Some (Forwarded t auth) /\
     u_hostname t = dotcomAPIHost /\ u_path t = bs "/graphql") /\
  exists q d o, executes ms q d o /\ o.1.1 = OpMutation /\ performs (fragments_of d) o.2 (bs "createPullRequest").

Definition create_pr : list selection :=
  [SField None (bs "createPullRequest") [(bs "input", VObj [(bs "title", VLit)])] []
     [SField None (bs "clientMutationId") [] [] []]].
Definition create_doc : document := [DOp OpMutation None [] [] create_pr].
Definition create_text : string := "mutation { createPullRequest(input: {title: 't'}) { clientMutationId } }".

(** The decoder takes [QUERY] for [query], and the last one wins. *)
Definition twin_members : list (bytes * json) :=
  [(QUERY, JStr (src create_text)); (bs "QUERY", JStr (bs "{viewer{login}}"))].

(** The scanner's comment runs to the line feed; the grammar's ends at the
    carriage return too. *)
Definition cr_members : list (bytes * json) :=
  envelope_of (src ("#^" ++ create_text)).

(** The scanner lets a backslash escape any byte of a block string; the
    grammar's only escape is a backslash before three quotes. *)
Definition block_text : bytes := src
  "mutation { addComment(input: {body: '''\\''' '''}) { id } createPullRequest(input: {body: ''' # '''~}) { id } }".
Definition block_body : list selection :=
  [SField None (bs "addComment") [(bs "input", VObj [(bs "body", VLit)])] [] [SField None (bs "id") [] [] []];
   SField None (bs "createPullRequest") [(bs "input", VObj [(bs "body", VLit)])] [] [SField None (bs "id") [] [] []]].

Ltac forwards := eexists _, _; split; [vm_compute; reflexivity|split; reflexivity].

(** Three envelopes each carry a mutation that opens a pull request, and each
    is forwarded as a read or as a comment: one with a second member [QUERY], one
    whose text hides behind a carriage return in a comment, one whose block string
    ends in two backslashes. *)
Theorem document_readings_differ :
  slips_through "/api/graphql" twin_members /\
  slips_through "/api/graphql" cr_members /\
  slips_through "/api/graphql" (envelope_of block_text).
Proof.
  split_and!; (split; [forwards|]).
  - exists (src create_text), create_doc, (OpMutation, [], create_pr). split_and!; [|done|eapply perf_field; left].
    exists []; [split; [done|right; auto]|vm_compute; done|done|split; decided|done].
  - eexists _, create_doc, (OpMutation, [], create_pr). split_and!; [|done|eapply perf_field; left].
    apply executes_query; [vm_compute; done..| |done]. split; decided.
  - eexists _, [DOp OpMutation None [] [] block_body], (OpMutation, [], block_body).
    split_and!; [|done|eapply perf_field; right; left]. apply executes_query; [vm_compute; done..| |done]. split; decided.
Qed.

(** Under a dotcom base the GraphQL endpoint is also reached as a REST path,
    which the gate reads as an unclassified REST write: a mutation posted to
    /api/v3/graphql is forwarded to it with the credential and its document unread. *)
Theorem graphql_under_rest_prefix_unread : slips_through "/api/v3/graphql" (envelope_of (src create_text)).
Proof.
  split; [forwards|]. eexists _, create_doc, (OpMutation, [], create_pr). split_and!; [|done|eapply perf_field; left].
  apply executes_query; [vm_compute; done..| |done]. split; decided.
Qed.

End GhExample.
