(* ===== verification/AgentRow.v ===== *)
(** * The agent loop's transcript

    The rows of the messages table as the native agent loop reads them
    (domain/agent.go), their assembly order, and the store operations the loop
    uses (the conversation store's ListForAssembly, Insert, MarkDelivered,
    Compact and SettleCompactionRequest).

    A row's assembly position is COALESCE(seq, id); fractional positions are
    exact rationals here.  Token counts, the settled failure of a compaction
    request and the creation time are kept because the loop decides by them;
    costs, durations, reasoning and images are not. *)

From Stdlib Require Export QArith Lqa.
From S2P Require Import Prelude GoBytes.

#[global] Open Scope Z_scope.

Module AgentRow.

(** ** Rows *)

Inductive role := RoleUser | RoleAssistant | RoleTool.
Inductive windowState := WindowActive | WindowElided | WindowInactive.

#[export] Instance role_eq_dec : EqDecision role.
Proof. solve_decision. Defined.
#[export] Instance windowState_eq_dec : EqDecision windowState.
Proof. solve_decision. Defined.

Record ToolCall := TC { tc_id : bytes; tc_name : bytes }.

#[export] Instance ToolCall_eq_dec : EqDecision ToolCall.
Proof. solve_decision. Defined.

Definition MessageSubtypeInjectionSteer : bytes := bs "injection:steer".
Definition MessageSubtypeInjectionExecutorChanged : bytes := bs "injection:executor-changed".
Definition MessageSubtypeInjectionNewSandbox : bytes := bs "injection:new-sandbox".
Definition MessageSubtypeInjectionNudge : bytes := bs "injection:nudge".
Definition MessageSubtypeInjectionOutputLimit : bytes := bs "injection:output-limit".
Definition MessageSubtypeInjectionCompactionRequest : bytes := bs "injection:compaction-request".
Definition MessageSubtypeInjectionCompactionResult : bytes := bs "injection:compaction-result".
Definition MessageSubtypeInjectionEvent : bytes := bs "injection:event".
Definition MessageSubtypeStopNote : bytes := bs "stop-note".

(** The four token columns; [None] is NULL. *)
Record usage := Tok { u_input : option Z; u_output : option Z; u_cacheRead : option Z; u_cacheCreation : option Z }.
Definition noUsage : usage := Tok None None None None.

Record Message := Msg {
  ID : Z;
  Role : role;
  Subtype : bytes;
  Content : bytes;
  ToolCalls : list ToolCall;
  ToolCallID : bytes;
  IsError : bool;
  Seq : option Q;
  Delivered : bool;
  WindowState : windowState;
  Tokens : usage;
  CreatedAt : Z;
  Failure : option bytes;
  Blocks : nat
}.

(** [&domain.Message{Role: "user", Subtype: st, Content: c}] before the insert
    assigns its id. *)
Definition userRow (st c : bytes) (seq : option Q) (delivered : bool) : Message :=
  Msg 0 RoleUser st c [] [] false seq delivered WindowActive noUsage 0 None 0.

Definition setID (i : Z) (m : Message) : Message :=
  Msg i (Role m) (Subtype m) (Content m) (ToolCalls m) (ToolCallID m) (IsError m) (Seq m) (Delivered m)
    (WindowState m) (Tokens m) (CreatedAt m) (Failure m) (Blocks m).
Definition setSeq (q : Q) (m : Message) : Message :=
  Msg (ID m) (Role m) (Subtype m) (Content m) (ToolCalls m) (ToolCallID m) (IsError m) (Some q) (Delivered m)
    (WindowState m) (Tokens m) (CreatedAt m) (Failure m) (Blocks m).
Definition setWindow (w : windowState) (m : Message) : Message :=
  Msg (ID m) (Role m) (Subtype m) (Content m) (ToolCalls m) (ToolCallID m) (IsError m) (Seq m) (Delivered m)
    w (Tokens m) (CreatedAt m) (Failure m) (Blocks m).
(** [delivered = 1, subtype = COALESCE(NULLIF(st, ''), subtype)]. *)
Definition setDelivered (st : bytes) (m : Message) : Message :=
  Msg (ID m) (Role m) (match st with [] => Subtype m | _ => st end) (Content m) (ToolCalls m) (ToolCallID m)
    (IsError m) (Seq m) true (WindowState m) (Tokens m) (CreatedAt m) (Failure m) (Blocks m).
Definition setFailure (u : usage) (reason : bytes) (m : Message) : Message :=
  Msg (ID m) (Role m) (Subtype m) (Content m) (ToolCalls m) (ToolCallID m) (IsError m) (Seq m) (Delivered m)
    (WindowState m) u (CreatedAt m) (Some reason) (Blocks m).

Definition assemblyKey (m : Message) : Q :=
  match Seq m with Some q => q | None => inject_Z (ID m) end.

Definition isDelivered (m : Message) : bool := Delivered m.

(** [IsHumanInput]: an ordinary turn, or one stamped as a steer. *)
Definition IsHumanInput (m : Message) : bool :=
  bool_decide (Subtype m = []) || bool_decide (Subtype m = MessageSubtypeInjectionSteer).

Definition KeepsAFinishingTurnGoing (m : Message) : bool :=
  IsHumanInput m || bool_decide (Subtype m = MessageSubtypeInjectionEvent).

(** [unreplayableTurn]: nothing a later request could replay. *)
Definition unreplayableTurn (m : Message) : bool :=
  bool_decide (Content m = []) && bool_decide (ToolCalls m = []) && bool_decide (Blocks m = 0%nat).

(** ** Assembly order *)

Definition keyle (a b : Message) : bool := Qle_bool (assemblyKey a) (assemblyKey b).

Fixpoint insertKey (m : Message) (l : list Message) : list Message :=
  match l with
  | [] => [m]
  | x :: r => if keyle m x then m :: l else x :: insertKey m r
  end.

(** [sort.SliceStable] by assembly key, and [ORDER BY COALESCE(seq, id)]. *)
Definition sortByKey (l : list Message) : list Message := fold_right insertKey [] l.

Definition inWindow (m : Message) : bool := negb (bool_decide (WindowState m = WindowInactive)).

(** ** The store *)

(** The conversation's rows in insertion order, and the id the next row gets. *)
Record table := Table { t_rows : list Message; t_next : Z }.

Definition ListForAssembly (t : table) : list Message := sortByKey (filter (fun m => inWindow m = true) (t_rows t)).

(** [InsertMessage]: the row gets the next id. *)
Definition Insert (m : Message) (t : table) : table :=
  Table (t_rows t ++ [setID (t_next t) m]) (t_next t + 1).

(** The rows an UPDATE ... WHERE id IN (ids) touches. *)
Definition updateIDs (ids : list Z) (f : Message -> Message) (l : list Message) : list Message :=
  map (fun m => if bool_decide (ID m ∈ ids) then f m else m) l.

Definition MarkDelivered (ids : list Z) (st : bytes) (t : table) : table :=
  Table (updateIDs ids (setDelivered st) (t_rows t)) (t_next t).

Definition SettleCompactionRequest (id : Z) (u : usage) (reason : bytes) (t : table) : table :=
  Table (updateIDs [id] (setFailure u reason) (t_rows t)) (t_next t).

(** [float64(i+1)/float64(n+1)]. *)
Definition fraction (i n : nat) : Q := inject_Z (Z.of_nat (S i)) / inject_Z (Z.of_nat (S n)).

(** The re-seq of [Compact]: the [i]-th of [n] queued rows. *)
Fixpoint reseq (result : Z) (i n : nat) (queued : list Z) (l : list Message) : list Message :=
  match queued with
  | [] => l
  | id :: queued => reseq result (S i) n queued (updateIDs [id] (setSeq (inject_Z result + fraction i n)) l)
  end.

(** [CompactForClaimSystem]: insert the reply (inactive) when there is one and
    the result, take the span out of the window, and move every undelivered row
    that assembles before the result to behind it, in order. *)
Definition Compact (reply : option Message) (result : Message) (inactive : list Z) (t : table) : table :=
  let t1 := match reply with Some r => Insert (setWindow WindowInactive r) t | None => t end in
  let resultID := t_next t1 in
  let t2 := Insert result t1 in
  let rows := updateIDs inactive (setWindow WindowInactive) (t_rows t2) in
  let queued := map ID (sortByKey (filter (fun m => negb (Delivered m) &&
                  negb (Qle_bool (inject_Z resultID) (assemblyKey m)) = true) rows)) in
  Table (reseq resultID 0 (length queued) queued rows) (t_next t2).

End AgentRow.
