(* ===== verification/AgentProg.v ===== *)
(** * The agent loop's effects

    The loop runs against a shared transcript, a model provider, a tool host,
    guards and hooks, while people and the control plane write to the same
    transcript.  Its code is a value of [prog]: each constructor is one call out
    of the loop, answered by the world.  [reach] runs a program over a table with
    the world's writes interleaved between any two calls, and [wp] is the
    program logic for it: what holds at every call, at every instant and at the
    end. *)

From S2P Require Import Prelude GoBytes AgentRow.
Import AgentRow.

Module AgentProg.

(** A call's stringified arguments, as encoding/json reads them: whether they
    are empty or a JSON document, whether they are empty or an object, and the
    analysis and summary members as strings when they decode into those. *)
Record callArgs := MkArgs { a_valid : bool; a_object : bool; a_forced : option (bytes * bytes) }.

(** [inference.Usage]: the prompt counts include the cache's. *)
Record Usage := MkUsage { PromptTokens : Z; OutputTokens : Z; CacheReadTokens : Z; CacheCreationTokens : Z }.

(** A completed provider call: finish reason, text, tool calls with their
    arguments, non-text blocks, whether its role maps to a row, and usage. *)
Record Completion := MkCompletion {
  FinishReason : bytes;
  c_text : bytes;
  c_calls : list (ToolCall * callArgs);
  c_blocks : nat;
  c_roleOK : bool;
  c_usage : Usage
}.

(** One provider attempt: inference.Classify's reading of a failure, and
    whether it is a context overflow. *)
Inductive errClass := Transient | RateLimited | Rejected.
Inductive attempt := AttemptOk (c : Completion) | AttemptErr (class : errClass) (overflow : bool).

#[export] Instance errClass_eq_dec : EqDecision errClass.
Proof. solve_decision. Defined.

(** One tool call: a survivable error (the tool's own or a protocol one), an
    answer with its images, or a tool host that died, with what is known about
    the call. *)
Inductive toolReply := ToolError (text : bytes) | ToolAnswer (content : bytes) (images : nat) | ToolLost (notice : bytes).

(** A tool resolved inside the loop; [tf_terminal] names the outcome of one
    that ends the run. *)
Record tfOutcome := TF { tf_content : bytes; tf_isErr : bool; tf_terminal : option bytes; tf_reason : bytes; tf_summary : bytes }.

(** Which request a provider call makes. *)
Inductive callKind := Working | Warm | Cold.

(** A call that touches no row, and the type of its answer: a tool dispatch, a
    tool resolved in the loop, the gate's denial (empty for none), whether the
    context is cancelled, the guards' notice, the turn-end nudge, whether
    credentials resolve, a sleep that may be interrupted, a tool host's restart,
    and the clock. *)
Inductive question :=
| QTool (c : ToolCall)
| QLoopSide (c : ToolCall)
| QGate (c : ToolCall)
| QCancelled
| QGuard (turn : Z)
| QNudge (turn : Z) (text : bytes)
| QCredentials
| QSleep (delay : Z)
| QRestart
| QNow.

Definition reply (q : question) : Type :=
  match q with
  | QTool _ => toolReply
  | QLoopSide _ => option tfOutcome
  | QGate _ | QGuard _ | QNudge _ _ => bytes
  | QCancelled | QCredentials | QSleep _ | QRestart => bool
  | QNow => Z
  end.

(** [None] answers of store calls are errors: the write did not happen. *)
Inductive prog (A : Type) : Type :=
| Ret (a : A)
| PList (k : option (list Message) -> prog A)
| PInsert (m : Message) (k : option Z -> prog A)
| PMark (ids : list Z) (st : bytes) (k : option unit -> prog A)
| PCompact (reply : option Message) (result : Message) (ids : list Z) (k : option unit -> prog A)
| PSettle (id : Z) (u : usage) (reason : bytes) (k : option unit -> prog A)
| PStream (kind : callKind) (rows : list Message) (k : attempt -> prog A)
| PAsk (q : question) (k : reply q -> prog A).
Arguments Ret {A} a.
Arguments PList {A} k.
Arguments PInsert {A} m k.
Arguments PMark {A} ids st k.
Arguments PCompact {A} reply result ids k.
Arguments PSettle {A} id u reason k.
Arguments PStream {A} kind rows k.
Arguments PAsk {A} q k.

Definition PTool (c : ToolCall) : prog toolReply := PAsk (QTool c) Ret.
Definition PLoopSide (c : ToolCall) : prog (option tfOutcome) := PAsk (QLoopSide c) Ret.
Definition PGate (c : ToolCall) : prog bytes := PAsk (QGate c) Ret.
Definition PCancelled : prog bool := PAsk QCancelled Ret.
Definition PGuard (turn : Z) : prog bytes := PAsk (QGuard turn) Ret.
Definition PNudge (turn : Z) (text : bytes) : prog bytes := PAsk (QNudge turn text) Ret.
Definition PCredentials : prog bool := PAsk QCredentials Ret.
Definition PSleep (delay : Z) : prog bool := PAsk (QSleep delay) Ret.
Definition PRestart : prog bool := PAsk QRestart Ret.
Definition PNow : prog Z := PAsk QNow Ret.

Fixpoint pbind {A B} (p : prog A) (f : A -> prog B) : prog B :=
  match p with
  | Ret a => f a
  | PList k => PList (fun x => pbind (k x) f)
  | PInsert m k => PInsert m (fun x => pbind (k x) f)
  | PMark ids st k => PMark ids st (fun x => pbind (k x) f)
  | PCompact reply result ids k => PCompact reply result ids (fun x => pbind (k x) f)
  | PSettle id u reason k => PSettle id u reason (fun x => pbind (k x) f)
  | PStream kind rows k => PStream kind rows (fun x => pbind (k x) f)
  | PAsk q k => PAsk q (fun x => pbind (k x) f)
  end.

Declare Scope prog_scope.
Notation "x <- p ;; k" := (pbind p (fun x => k)) (at level 100, p at next level, right associativity) : prog_scope.
Notation "p ;; k" := (pbind p (fun _ => k)) (at level 100, right associativity) : prog_scope.

(** ** Running a program *)

(** One call answered by the world: the event it is, the next program and the
    table it leaves. *)
Inductive event := EvStream (kind : callKind) (rows : list Message) | EvAsk (q : question) | EvStore.

Inductive step {A} : prog A -> table -> event -> prog A -> table -> Prop :=
| st_list k t : step (PList k) t EvStore (k (Some (ListForAssembly t))) t
| st_list_err k t : step (PList k) t EvStore (k None) t
| st_insert m k t : step (PInsert m k) t EvStore (k (Some (t_next t))) (Insert m t)
| st_insert_err m k t : step (PInsert m k) t EvStore (k None) t
| st_mark ids st k t : step (PMark ids st k) t EvStore (k (Some tt)) (MarkDelivered ids st t)
| st_mark_err ids st k t : step (PMark ids st k) t EvStore (k None) t
| st_compact reply result ids k t : step (PCompact reply result ids k) t EvStore (k (Some tt)) (Compact reply result ids t)
| st_compact_err reply result ids k t : step (PCompact reply result ids k) t EvStore (k None) t
| st_settle id u r k t : step (PSettle id u r k) t EvStore (k (Some tt)) (SettleCompactionRequest id u r t)
| st_settle_err id u r k t : step (PSettle id u r k) t EvStore (k None) t
| st_stream kind rows k t a : step (PStream kind rows k) t (EvStream kind rows) (k a) t
| st_ask q k t a : step (PAsk q k) t (EvAsk q) (k a) t.

(** ** The program logic *)

Section Logic.

(** What the world may do to the table between two calls, what it may answer a
    provider call, what must hold of a provider call's rows, and what must hold
    at every instant, a crash included. *)
Context (rely : table -> table -> Prop) (answers : attempt -> table -> Prop).
Context (callOK : list Message -> Prop) (inv : table -> Prop).

Notation rely_star := (rtc rely).

(** An execution: calls of the program and writes of the world in any order. *)
Inductive reach {A} : prog A -> table -> prog A -> table -> Prop :=
| reach_refl p t : reach p t p t
| reach_world p t u p' v : rely t u -> reach p u p' v -> reach p t p' v
| reach_call p t ev q u p' v : step p t ev q u ->
    (forall kind rows k, p = PStream kind rows k -> exists a, q = k a /\ answers a t) ->
    reach q u p' v -> reach p t p' v.

(** [wp p Q t]: run from [t] among the world's writes, [p] keeps [inv] at every
    instant, makes only provider calls that are [callOK], and ends in [Q]. *)
Fixpoint wp {A} (p : prog A) (Q : A -> table -> Prop) (t : table) : Prop :=
  forall u, rely_star t u -> inv u /\
  match p with
  | Ret a => Q a u
  | PList k => wp (k (Some (ListForAssembly u))) Q u /\ wp (k None) Q u
  | PInsert m k => wp (k (Some (t_next u))) Q (Insert m u) /\ wp (k None) Q u
  | PMark ids st k => wp (k (Some tt)) Q (MarkDelivered ids st u) /\ wp (k None) Q u
  | PCompact reply result ids k => wp (k (Some tt)) Q (Compact reply result ids u) /\ wp (k None) Q u
  | PSettle id us r k => wp (k (Some tt)) Q (SettleCompactionRequest id us r u) /\ wp (k None) Q u
  | PStream kind rows k => callOK rows /\ forall a, answers a u -> wp (k a) Q u
  | PAsk q k => forall a, wp (k a) Q u
  end.

Lemma wp_now {A} (p : prog A) Q t : wp p Q t -> inv t.
Proof. destruct p; intros H; apply (H t (rtc_refl _ _)). Qed.

Lemma wp_world {A} (p : prog A) Q t u : rely_star t u -> wp p Q t -> wp p Q u.
Proof. intros Hr H. destruct p; intros v Hv; apply (H v); by etrans. Qed.

Lemma wp_mono {A} (p : prog A) : forall (Q R : A -> table -> Prop) t,
  (forall a u, Q a u -> R a u) -> wp p Q t -> wp p R t.
Proof.
  induction p; intros Q R t HQR Hp u0 Hu; specialize (Hp u0 Hu) as [Hi Hp]; (split; [done|]); naive_solver.
Qed.

Lemma wp_bind {A B} (p : prog A) (f : A -> prog B) Q t :
  wp p (fun a u => wp (f a) Q u) t -> wp (pbind p f) Q t.
Proof.
  revert t. induction p; intros t Hp; cbn [pbind]; [apply (Hp t (rtc_refl _ _))|..];
    intros u0 Hu; specialize (Hp u0 Hu) as [Hi Hp]; (split; [done|]);
    first [ intros x; apply H, Hp
          | destruct Hp as [H1 H2]; split; first [apply H, H1 | apply H, H2 | exact H1 | intros x Hx; apply H, H2, Hx] ].
Qed.

(** What [wp] promises holds of every execution. *)
Lemma wp_reach {A} (p : prog A) t p' v Q : reach p t p' v -> wp p Q t ->
  wp p' Q v.
Proof.
  induction 1 as [|p t u p' v Hr _ IH|p t ev q u p' v Hs Ha _ IH]; intros Hp; [done| |].
  - apply IH. eapply wp_world; [|done]. by apply rtc_once.
  - apply IH. clear IH. destruct Hs; specialize (Hp _ (rtc_refl _ _)) as [_ Hp]; try (by apply Hp).
    destruct (Ha _ _ _ eq_refl) as (a' & Hk & Han). rewrite Hk. by apply Hp.
Qed.

Lemma wp_adequate {A} (p : prog A) t p' v Q : reach p t p' v -> wp p Q t ->
  inv v /\ (forall kind rows k, p' = PStream kind rows k -> callOK rows) /\ (forall a, p' = Ret a -> Q a v).
Proof.
  intros Hr Hp. pose proof (wp_reach _ _ _ _ _ Hr Hp) as Hw. pose proof (wp_now _ _ _ Hw) as Hi.
  split_and!; [done|intros kind rows k ->|intros a ->]; apply (Hw v (rtc_refl _ _)).
Qed.

End Logic.

End AgentProg.
