(* ===== verification/AgentLoop.v ===== *)
(** * The native agent loop: src/internal/agentloop

    One definition per function of repair.go, drain.go, persist.go, stream.go,
    stopreason.go and dispatch.go; [AgentEngine] has compact.go and engine.go.

    The wording of notices is the parameter [Texts]: the loop compares and
    stores it, and reads nothing else from it.  A failed store call is the
    [None] of an option, or [false]. *)

From S2P Require Import Prelude GoBytes AgentRow AgentProg.
Import AgentRow AgentProg.

Module AgentLoop.

#[local] Open Scope prog_scope.

Inductive WorkspaceProvenance := ProvenanceUnknown | ProvenanceWarm | ProvenanceRehydrated | ProvenanceFresh.

#[export] Instance provenance_eq_dec : EqDecision WorkspaceProvenance.
Proof. solve_decision. Defined.

Definition Rebuilt (p : WorkspaceProvenance) : bool :=
  bool_decide (p = ProvenanceRehydrated) || bool_decide (p = ProvenanceFresh).

Record Texts := MkTexts {
  interruptedToolResult : WorkspaceProvenance -> bool -> bool -> bytes;
  sandboxResumeNotice : bytes;
  workspaceRebuiltNotice : WorkspaceProvenance -> bool -> bool -> bytes;
  checkpointRestoredNotice : list Message -> Q -> bool -> bool -> bytes;
  truncatedBatchNotice : bytes;
  wallCutBatchNotice : bytes;
  interruptedCallNotice : bytes;
  outputLimitNotice : bytes;
  outputLimitFailureNotice : Z -> bytes;
  windowWallFailureNotice : bytes;
  declineParkNotice : bytes -> bytes;
  unrecognizedStopParkNotice : bytes -> bytes;
  emptyToolBatchParkNotice : bytes;
  fatalToolHostNotice : bytes;
  restartedRemainingNotice : bytes;
  newSandboxSentence : bytes;
  restartedSentence : bytes;
  stopBlueprintNotAlone : bytes;
  compactFailedNotice : bytes;
  callFailedNotice : bytes;
  warmCompactionRequest : bytes;
  compactionPreamble : bytes
}.

(** One engagement's inputs.  [TripAt] is [int(threshold*window)] for a model
    whose window is known, [MaxTokens] the cap [callMaxTokens] resolves, and
    [ModelMaxOutput] the datasheet's ceiling. *)
Record Params := MkParams {
  TripAt : option Z;
  MaxTokens : Z;
  ModelMaxOutput : option Z;
  Workspace : WorkspaceProvenance;
  ExecutorChanged : bool;
  NewSandbox : bool;
  WorkspaceAsOf : option Q;
  RetryMaxAttempts : Z;
  RetryBaseDelay : Z;
  RetryMaxDelay : Z;
  Restartable : bool
}.

Section Loop.

Context (T : Texts) (params : Params).

(** ** persist.go *)

(** Sanitizing strips NUL. *)
Definition sanitizeForStore (s : bytes) : bytes := filter (fun c => c <> NUL) s.

Definition NonCachedInputTokens (u : Usage) : Z :=
  let nonCached := PromptTokens u - CacheReadTokens u - CacheCreationTokens u in
  if nonCached <? 0 then 0 else nonCached.
Definition stampUsage (u : Usage) : usage :=
  Tok (Some (NonCachedInputTokens u)) (Some (OutputTokens u)) (Some (CacheReadTokens u)) (Some (CacheCreationTokens u)).

(** [insertToolResult], and [insertToolResultWithImages] for [images] > 0; the
    answer is the row's assembly key. *)
Definition insertToolResult (call : ToolCall) (content : bytes) (isErr : bool) (seq : option Q) (images : nat)
  : prog (option Q) :=
  let row := Msg 0 RoleTool [] (sanitizeForStore content) [] (tc_id call) isErr seq true WindowActive noUsage 0 None images in
  id <- PInsert row Ret ;;
  Ret (match id with Some id => Some (assemblyKey (setID id row)) | None => None end).

(** [toolResultPositions(ownerID, n)(i)]. *)
Definition toolResultPositions (ownerID : Z) (n i : nat) : option Q :=
  if (ownerID <=? 0) || (n <=? 0)%nat || (n <=? i)%nat then None
  else Some (inject_Z ownerID + fraction i n)%Q.

(** [inference.MessageToRow], [None] when the message does not map. *)
Definition MessageToRow (c : Completion) : option Message :=
  if c_roleOK c && forallb (fun x => a_object x.2) (c_calls c) then
    Some (Msg 0 RoleAssistant [] (c_text c) (map fst (c_calls c)) [] false None true WindowActive noUsage 0 None (c_blocks c))
  else None.

(** [persistAssistant]: the row is born outside the window when nothing in it
    can be replayed. *)
Definition persistAssistant (c : Completion) : prog (option Message) :=
  match MessageToRow c with
  | None => Ret None
  | Some row =>
      let row := Msg (ID row) (Role row) (Subtype row) (sanitizeForStore (Content row)) (ToolCalls row) (ToolCallID row)
                   (IsError row) (Seq row) (Delivered row) (WindowState row) (stampUsage (c_usage c)) (CreatedAt row)
                   (Failure row) (Blocks row) in
      let row := if unreplayableTurn row then setWindow WindowInactive row else row in
      now <- PNow ;;
      let row := Msg (ID row) (Role row) (Subtype row) (Content row) (ToolCalls row) (ToolCallID row) (IsError row)
                   (Seq row) (Delivered row) (WindowState row) (Tokens row) now (Failure row) (Blocks row) in
      id <- PInsert row Ret ;;
      Ret (match id with Some id => Some (setID id row) | None => None end)
  end.

(** ** drain.go *)

Definition pendingInOrder (rows : list Message) : list Message :=
  sortByKey (filter (fun m => isDelivered m = false) rows).

Definition drain (bare : bool) : prog bool :=
  rows <- PList Ret ;;
  match rows with
  | None => Ret false
  | Some rows =>
      match pendingInOrder rows with
      | [] => Ret true
      | pending =>
          if bare then
            ok <- PMark (map ID pending) [] Ret ;; Ret (bool_decide (is_Some ok))
          else
            let human := filter (fun m => IsHumanInput m = true) pending in
            let injected := filter (fun m => IsHumanInput m = false) pending in
            ok1 <- match injected with [] => Ret (Some tt) | _ => PMark (map ID injected) [] Ret end ;;
            match ok1 with
            | None => Ret false
            | Some _ =>
                ok2 <- match human with
                       | [] => Ret (Some tt)
                       | _ => PMark (map ID human) MessageSubtypeInjectionSteer Ret
                       end ;;
                Ret (bool_decide (is_Some ok2))
            end
      end
  end.

Definition hasPending : prog (option bool) :=
  rows <- PList Ret ;;
  Ret (match rows with
       | None => None
       | Some rows => Some (existsb KeepsAFinishingTurnGoing (pendingInOrder rows))
       end).

(** [aboveWaitingInput]: the loop over the rows in order, with the row before. *)
Fixpoint aboveWaiting (prev : option Message) (l : list Message) : option Q :=
  match l with
  | [] => None
  | r :: l =>
      if negb (bool_decide (Role r = RoleUser)) || isDelivered r || negb (IsHumanInput r)
      then aboveWaiting (Some r) l
      else
        let hi := assemblyKey r in
        let lo := match prev with Some p => assemblyKey p | None => (hi - 1)%Q end in
        Some (lo + (hi - lo) / 2)%Q
  end.
Definition aboveWaitingInput (rows : list Message) : option Q := aboveWaiting None (sortByKey rows).

Definition insertPending (content st : bytes) : prog bool :=
  rows <- PList Ret ;;
  match rows with
  | None => Ret false
  | Some rows =>
      id <- PInsert (userRow st content (aboveWaitingInput rows) false) Ret ;;
      Ret (bool_decide (is_Some id))
  end.

Definition insertDelivered (content st : bytes) : prog bool :=
  id <- PInsert (userRow st content None true) Ret ;; Ret (bool_decide (is_Some id)).

(** [insertNotice]: its failure is only logged. *)
Definition insertNotice (content : bytes) : prog unit :=
  PInsert (userRow MessageSubtypeStopNote content None true) Ret ;; Ret tt.

Fixpoint noticeSince (content : bytes) (rev_rows : list Message) : bool :=
  match rev_rows with
  | [] => false
  | r :: l =>
      if negb (bool_decide (Role r = RoleUser)) then noticeSince content l
      else if IsHumanInput r then false
      else if bool_decide (Subtype r = MessageSubtypeStopNote) && bool_decide (Content r = content) then true
      else noticeSince content l
  end.
Definition HasNoticeSince (rows : list Message) (content : bytes) : bool := noticeSince content (rev rows).

(** ** repair.go *)

(** The calls of one assistant row that have no answer, against the ids
    answered so far; each id is counted once. *)
Fixpoint missingCalls (answered : gset (list ascii)) (calls : list ToolCall) : list ToolCall * gset (list ascii) :=
  match calls with
  | [] => ([], answered)
  | c :: calls =>
      if bool_decide (tc_id c = []) || bool_decide (tc_id c ∈ answered) then missingCalls answered calls
      else let '(m, a) := missingCalls ({[tc_id c]} ∪ answered) calls in (c :: m, a)
  end.

(** [toolResultPlacement]: the call, its position ([None] for the tail) and
    the key of the row that made it. *)
Record placement := Place { pl_call : ToolCall; pl_seq : option Q; pl_owner : Q }.

(** The run of tool rows at the head of a list, and what follows. *)
Fixpoint toolRun (l : list Message) : list Message * list Message :=
  match l with
  | r :: l' => if bool_decide (Role r = RoleTool) then let '(a, b) := toolRun l' in (r :: a, b) else ([], l)
  | [] => ([], [])
  end.

(** [placeAfterAnswers] for the row [owner] followed by [after]. *)
Definition placeAfterAnswers (owner : Message) (after : list Message) (missing : list ToolCall) : list placement :=
  let '(run, beyond) := toolRun after in
  let anchor := default owner (last run) in
  match beyond with
  | [] => map (fun c => Place c None (assemblyKey owner)) missing
  | b :: _ =>
      let lo := assemblyKey anchor in
      let hi := assemblyKey b in
      imap (fun i c => Place c (Some (lo + (hi - lo) * fraction i (length missing))%Q) (assemblyKey owner)) missing
  end.

(** The walk of [repairDanglingToolCalls] over the rows in order. *)
Fixpoint repairWalk (answered : gset (list ascii)) (l : list Message) : list placement :=
  match l with
  | [] => []
  | r :: l =>
      if bool_decide (Role r = RoleAssistant) then
        let '(missing, answered) := missingCalls answered (ToolCalls r) in
        placeAfterAnswers r l missing ++ repairWalk answered l
      else repairWalk answered l
  end.

Definition answeredIDs (rows : list Message) : gset (list ascii) :=
  list_to_set (map ToolCallID (filter (fun m => Role m = RoleTool /\ ToolCallID m <> []) rows)).

Definition repairs (rows : list Message) : list placement :=
  let ordered := sortByKey rows in repairWalk (answeredIDs ordered) ordered.

Fixpoint insertRepairs (l : list placement) : prog bool :=
  match l with
  | [] => Ret true
  | p :: l =>
      let after := match WorkspaceAsOf params with
                   | Some q => negb (Qle_bool (pl_owner p) q)
                   | None => false
                   end in
      r <- insertToolResult (pl_call p) (interruptedToolResult T (Workspace params) (ExecutorChanged params) after)
             true (pl_seq p) 0 ;;
      match r with Some _ => insertRepairs l | None => Ret false end
  end.

Definition repairDanglingToolCalls (rows : list Message) : prog bool := insertRepairs (repairs rows).

Definition noticeResume (rows : list Message) : prog bool :=
  if negb (existsb (fun m => bool_decide (Role m = RoleAssistant)) rows) then Ret true
  else
    let pending st := existsb (fun m => negb (isDelivered m) && bool_decide (Subtype m = st)) rows in
    let workspacePending := pending MessageSubtypeInjectionExecutorChanged in
    let sandboxPending := pending MessageSubtypeInjectionNewSandbox in
    if negb (Rebuilt (Workspace params)) then
      if negb (NewSandbox params) || workspacePending || sandboxPending then Ret true
      else insertPending (sandboxResumeNotice T) MessageSubtypeInjectionNewSandbox
    else if workspacePending then Ret true
    else
      let newSandbox := NewSandbox params && negb sandboxPending in
      let notice :=
        match Workspace params, WorkspaceAsOf params with
        | ProvenanceRehydrated, Some q => checkpointRestoredNotice T rows q (ExecutorChanged params) newSandbox
        | _, _ => workspaceRebuiltNotice T (Workspace params) (ExecutorChanged params) newSandbox
        end in
      insertPending notice MessageSubtypeInjectionExecutorChanged.

Definition repairTranscript : prog bool :=
  rows <- PList Ret ;;
  match rows with
  | None => Ret false
  | Some rows =>
      ok <- repairDanglingToolCalls rows ;;
      if ok then noticeResume rows else Ret false
  end.

(** ** stream.go *)

Inductive streamResult := SOk (c : Completion) | SFail (overflow unavailable : bool).

Definition maxAttempts : nat := Z.to_nat (if RetryMaxAttempts params <=? 0 then 5 else RetryMaxAttempts params).
Definition baseDelay : Z := if RetryBaseDelay params <=? 0 then 1000000000 else RetryBaseDelay params.
Definition maxDelay : Z := if RetryMaxDelay params <=? 0 then 30000000000 else RetryMaxDelay params.

(** The attempts left, [S n] of them, and the delay before the next. *)
Fixpoint streamLoop (n : nat) (delay : Z) (kind : callKind) (rows : list Message) : prog streamResult :=
  a <- PStream kind rows Ret ;;
  match a with
  | AttemptOk c => Ret (SOk c)
  | AttemptErr class overflow =>
      cancelled <- PCancelled ;;
      if cancelled then Ret (SFail false false)
      else if bool_decide (class = Rejected) then Ret (SFail overflow false)
      else match n with
           | O => Ret (SFail overflow true)
           | S n =>
               slept <- PSleep delay ;;
               if slept then streamLoop n (Z.min (delay * 2) maxDelay) kind rows else Ret (SFail false false)
           end
  end.
Definition streamWithRetry (kind : callKind) (rows : list Message) : prog streamResult :=
  streamLoop (Nat.pred maxAttempts) baseDelay kind rows.

(** ** stopreason.go *)

Inductive stopClass := stopEndTurn | stopToolCalls | stopLength | stopWindowWall | stopDecline | stopUnknown.

#[export] Instance stopClass_eq_dec : EqDecision stopClass.
Proof. solve_decision. Defined.

Definition classifyStop (reason : bytes) : stopClass :=
  let oneOf l := bool_decide (reason ∈ map bs l) in
  if oneOf [""%string; "stop"%string] then stopEndTurn
  else if oneOf ["tool_calls"%string] then stopToolCalls
  else if oneOf ["length"%string; "max_tokens"%string] then stopLength
  else if oneOf ["model_context_window_exceeded"%string; "context_window_exceeded"%string] then stopWindowWall
  else if oneOf ["refusal"%string; "content_filter"%string; "guardrail_intervened"%string] then stopDecline
  else stopUnknown.

Definition interrupted (c : stopClass) : bool :=
  match c with stopLength | stopWindowWall | stopDecline | stopUnknown => true | _ => false end.

Definition maxEmptyLengthStops : Z := 2.
Definition maxWindowWallStops : Z := 2.

(** [stubTruncatedToolArgs]: arguments that do not parse become an empty
    object. *)
Definition stubTruncatedToolArgs (c : Completion) : Completion :=
  MkCompletion (FinishReason c) (c_text c) (map (fun x => (x.1, if a_valid x.2 then x.2 else MkArgs true true (Some ([], [])))) (c_calls c))
    (c_blocks c) (c_roleOK c) (c_usage c).

Fixpoint answerFrom (ownerID : Z) (n i : nat) (calls : list ToolCall) (notice : bytes) : prog bool :=
  match calls with
  | [] => Ret true
  | c :: calls =>
      r <- insertToolResult c notice true (toolResultPositions ownerID n i) 0 ;;
      match r with Some _ => answerFrom ownerID n (S i) calls notice | None => Ret false end
  end.
Definition answerUndispatchedCalls (ownerID : Z) (calls : list ToolCall) (notice : bytes) : prog bool :=
  answerFrom ownerID (length calls) 0 calls notice.

Definition escalateMaxTokens (current : Z) : Z :=
  match ModelMaxOutput params with
  | None => current
  | Some ceiling => if Z.quot ceiling 2 <=? current then ceiling else current * 2
  end.

(** ** toolhostlost.go *)

Definition maxConsecutiveDeaths : Z := 3.

(** [restartToolHost]: whether the engagement can go on, and the deaths since a
    call last completed. *)
Definition restartToolHost (deaths : Z) : prog (bool * Z) :=
  if negb (Restartable params) then Ret (false, deaths)
  else
    let deaths := deaths + 1 in
    if maxConsecutiveDeaths <=? deaths then Ret (false, deaths)
    else ok <- PRestart ;; Ret (ok, deaths).

(** ** dispatch.go *)

(** How a batch ended: every call answered, or a flow-control call ended the
    run, or the tool host is lost, or the engagement must stop (a store error
    or a cancelled context). *)
Inductive batchEnd :=
| BatchDone (deaths : Z)
| BatchTerminated (outcome reason summary : bytes)
| BatchLost
| BatchStopped.

Fixpoint answerLost (ownerID : Z) (n i : nat) (calls : list ToolCall) (first rest : bytes) : prog bool :=
  match calls with
  | [] => Ret true
  | c :: calls =>
      r <- insertToolResult c first true (toolResultPositions ownerID n i) 0 ;;
      match r with Some _ => answerLost ownerID n (S i) calls rest rest | None => Ret false end
  end.

(** [answerLostBatch] from the call the tool host died in. *)
Definition answerLostBatch (ownerID : Z) (n i : nat) (calls : list ToolCall) (notice : bytes) (restarted : bool) : prog bool :=
  let next := if restarted then restartedSentence T else newSandboxSentence T in
  let remaining := if restarted then restartedRemainingNotice T else fatalToolHostNotice T in
  answerLost ownerID n i calls (notice ++ bs " " ++ next) remaining.

(** The loop of [dispatchBatch] over the calls from index [i] of [n];
    [terminal] is the flow-control outcome met so far. *)
Fixpoint dispatchFrom (ownerID : Z) (n i : nat) (calls : list ToolCall)
    (terminal : option (bytes * bytes * bytes)) (deaths : Z) : prog batchEnd :=
  match calls with
  | [] => Ret (match terminal with Some (o, r, s) => BatchTerminated o r s | None => BatchDone deaths end)
  | call :: rest =>
      cancelled <- PCancelled ;;
      if cancelled then Ret BatchStopped
      else
        side <- PLoopSide call ;;
        match side with
        | Some out =>
            let alone := (n <=? 1)%nat in
            let out := match tf_terminal out with
                       | Some _ => if alone then out else TF (stopBlueprintNotAlone T) true None [] []
                       | None => out
                       end in
            r <- insertToolResult call (tf_content out) (tf_isErr out) (toolResultPositions ownerID n i) 0 ;;
            match r with
            | None => Ret BatchStopped
            | Some _ =>
                let terminal := match tf_terminal out with
                                | Some o => Some (o, tf_reason out, tf_summary out)
                                | None => terminal
                                end in
                dispatchFrom ownerID n (S i) rest terminal deaths
            end
        | None =>
            deny <- PGate call ;;
            if negb (bool_decide (deny = [])) then
              r <- insertToolResult call deny true (toolResultPositions ownerID n i) 0 ;;
              match r with
              | None => Ret BatchStopped
              | Some _ => dispatchFrom ownerID n (S i) rest terminal deaths
              end
            else
              out <- PTool call ;;
              match out with
              | ToolLost notice =>
                  cancelled <- PCancelled ;;
                  if cancelled then Ret BatchStopped
                  else
                    rd <- restartToolHost deaths ;;
                    cancelled <- PCancelled ;;
                    if cancelled then Ret BatchStopped
                    else
                      ok <- answerLostBatch ownerID n i calls notice rd.1 ;;
                      Ret (if negb ok then BatchStopped else if rd.1 then BatchDone rd.2 else BatchLost)
              | ToolError text =>
                  r <- insertToolResult call text true (toolResultPositions ownerID n i) 0 ;;
                  match r with
                  | None => Ret BatchStopped
                  | Some _ => dispatchFrom ownerID n (S i) rest terminal 0
                  end
              | ToolAnswer content images =>
                  r <- insertToolResult call content false (toolResultPositions ownerID n i) images ;;
                  match r with
                  | None => Ret BatchStopped
                  | Some _ => dispatchFrom ownerID n (S i) rest terminal 0
                  end
              end
        end
  end.
Definition dispatchBatch (ownerID : Z) (calls : list ToolCall) (deaths : Z) : prog batchEnd :=
  dispatchFrom ownerID (length calls) 0 calls None deaths.

End Loop.

End AgentLoop.
