(* ===== verification/AgentEngine.v ===== *)
(** * The native agent loop: compact.go and engine.go

    Compaction in its three arms, and [Run], the engagement from the repair of
    the transcript to its disposition.  [Run]'s loop is unbounded by design; the
    fuel of [runLoop] is how many iterations are looked at, and theorems hold for
    every fuel. *)

From S2P Require Import Prelude GoBytes AgentRow AgentProg AgentLoop.
Import AgentRow AgentProg AgentLoop.

Module AgentEngine.

#[local] Open Scope prog_scope.

(** ** compact.go *)

(** The newest assistant row, from the end. *)
Definition lastAssistant (rows : list Message) : option Message :=
  List.find (fun m => bool_decide (Role m = RoleAssistant)) (rev rows).

Definition occupancy (rows : list Message) : Z :=
  match lastAssistant rows with
  | None => 0
  | Some r =>
      let u := Tokens r in
      default 0 (u_input u) + default 0 (u_output u) + default 0 (u_cacheRead u) + default 0 (u_cacheCreation u)
  end.

Definition providerCacheTTL : Z := 300000000000.

(** [warmCacheLive] at the instant [now]. *)
Definition warmCacheLive (now : Z) (rows : list Message) : bool :=
  match lastAssistant rows with
  | None => false
  | Some r => now - CreatedAt r <? providerCacheTTL
  end.

Definition compactionSpan (rows : list Message) : list Z :=
  map ID (filter (fun m => isDelivered m = true) rows).

(** The walk of [unansweredCompactionRequest] from the end. *)
Fixpoint unansweredFrom (rev_rows : list Message) : option Message :=
  match rev_rows with
  | [] => None
  | r :: l =>
      if bool_decide (Role r = RoleAssistant) then None
      else if bool_decide (Role r = RoleUser) && bool_decide (Subtype r = MessageSubtypeInjectionCompactionRequest) &&
              isDelivered r
      then Some r
      else unansweredFrom l
  end.
Definition unansweredCompactionRequest (rows : list Message) : option Message := unansweredFrom (rev rows).

Definition warmAttemptSettled (m : Message) : bool := bool_decide (is_Some (Failure m)).

Fixpoint findSub (sub s : bytes) : option nat :=
  if HasPrefix s sub then Some 0%nat else match s with [] => None | _ :: r => S <$> findSub sub r end.
(** [strings.LastIndex]. *)
Fixpoint findLast (sub s : bytes) : option nat :=
  match s with
  | [] => if HasPrefix s sub then Some 0%nat else None
  | _ :: r =>
      match findLast sub r with
      | Some i => Some (S i)
      | None => if HasPrefix s sub then Some 0%nat else None
      end
  end.

Definition openTag : bytes := bs "<summary>".
Definition closeTag : bytes := bs "</summary>".

Definition extractSummary (text : bytes) : option bytes :=
  match findSub openTag text, findLast closeTag text with
  | Some start, Some stop =>
      if (stop <=? start)%nat then None
      else
        let from := (start + length openTag)%nat in
        let body := TrimSpace (take (stop - from) (drop from text)) in
        match body with [] => None | _ => Some body end
  | _, _ => None
  end.

Definition compactionFailToolCalls : bytes := bs "tool-calls-in-reply".
Definition compactionFailNoSummary : bytes := bs "no-parseable-summary".
Definition compactionFailUnmapped : bytes := bs "unmappable-reply".

(** [judgeWarmReply]: the summary, or why the attempt failed. *)
Definition judgeWarmReply (c : Completion) : res bytes bytes :=
  match MessageToRow c with
  | None => Err compactionFailUnmapped
  | Some row =>
      match ToolCalls row with
      | _ :: _ => Err compactionFailToolCalls
      | [] => match extractSummary (Content row) with
              | Some s => Ok s
              | None => Err compactionFailNoSummary
              end
      end
  end.

(** The loops of [uncommittedWarmSummary] from the end: to the reply, then to
    the request before it. *)
Fixpoint requestBefore (rev_rows : list Message) : bool :=
  match rev_rows with
  | [] => false
  | r :: l =>
      if negb (isDelivered r) then requestBefore l
      else bool_decide (Role r = RoleUser) && bool_decide (Subtype r = MessageSubtypeInjectionCompactionRequest)
  end.
Fixpoint replyFrom (rev_rows : list Message) : option bytes :=
  match rev_rows with
  | [] => None
  | r :: l =>
      if negb (isDelivered r) || bool_decide (Subtype r = MessageSubtypeStopNote) then replyFrom l
      else if negb (bool_decide (Role r = RoleAssistant)) then None
      else match ToolCalls r with
           | _ :: _ => None
           | [] => match extractSummary (Content r) with
                   | None => None
                   | Some s => if requestBefore l then Some s else None
                   end
           end
  end.
Definition uncommittedWarmSummary (rows : list Message) : option bytes := replyFrom (rev rows).

Definition compactionToolName : bytes := bs "record_compaction".

(** [parseForcedCompaction]: the first call of the compaction tool. *)
Fixpoint forcedCall (calls : list (ToolCall * callArgs)) : option (bytes * bytes) :=
  match calls with
  | [] => None
  | (c, args) :: calls =>
      if negb (bool_decide (tc_name c = compactionToolName)) then forcedCall calls
      else match a_forced args with
           | None => None
           | Some (analysis, summary) => match TrimSpace summary with [] => None | _ => Some (analysis, summary) end
           end
  end.
Definition parseForcedCompaction (c : Completion) : option (bytes * bytes) := forcedCall (c_calls c).

Definition canonicalCompactionArtifact (analysis summary : bytes) : bytes :=
  bs "<analysis>" ++ [LF] ++ analysis ++ [LF] ++ bs "</analysis>" ++ [LF; LF] ++
  openTag ++ [LF] ++ summary ++ [LF] ++ closeTag.

(** [ResultKind] with what each carries. *)
Inductive Result :=
| ResultConcluded (outcome reason summary : bytes)
| ResultParked (notice : bytes)
| ResultFailed
| ResultCancelled
| ResultUpstreamUnavailable
| ResultToolHostLost.

Definition ConversationOutcomeContinue : bytes := bs "continue".

Section Engine.

Context (T : Texts) (params : Params).

(** A compaction's error: whether it is an unavailable provider. *)
Notation cres := (res bool unit).

Definition compactionDue (rows : list Message) : bool :=
  match TripAt params with
  | None => false
  | Some at_ => at_ <=? occupancy rows
  end.

Definition composeResultRow (summary : bytes) : Message :=
  userRow MessageSubtypeInjectionCompactionResult
    (sanitizeForStore (compactionPreamble T ++ [LF; LF] ++ openTag ++ [LF] ++ summary ++ [LF] ++ closeTag)) None true.

Definition commitCompaction (reply : option Message) (summary : bytes) (span : list Z) : prog cres :=
  ok <- PCompact reply (composeResultRow summary) span Ret ;;
  Ret (match ok with Some _ => Ok tt | None => Err false end).

(** [compactCold]: the forced-shape call. *)
Definition compactCold : prog cres :=
  rows <- PList Ret ;;
  match rows with
  | None => Ret (Err false)
  | Some rows =>
      cred <- PCredentials ;;
      if negb cred then Ret (Err false)
      else
        s <- streamWithRetry params Cold rows ;;
        match s with
        | SFail _ unavailable => Ret (Err unavailable)
        | SOk c =>
            match parseForcedCompaction c with
            | None => Ret (Err false)
            | Some (analysis, summary) =>
                let reply := Msg 0 RoleAssistant [] (sanitizeForStore (canonicalCompactionArtifact analysis summary))
                               [] [] false None true WindowActive (stampUsage (c_usage c)) 0 None 0 in
                commitCompaction (Some reply) summary (compactionSpan rows)
            end
        end
  end.

(** [compactWarm]: one attempt at the model's own summary, else the forced
    call. *)
Definition compactWarm : prog cres :=
  rows <- PList Ret ;;
  match rows with
  | None => Ret (Err false)
  | Some rows =>
      let standing := unansweredCompactionRequest rows in
      if match standing with Some r => warmAttemptSettled r | None => false end then compactCold
      else
        reqrows <- match standing with
                   | Some r => Ret (Some (ID r, rows))
                   | None =>
                       let row := userRow MessageSubtypeInjectionCompactionRequest (warmCompactionRequest T) None true in
                       id <- PInsert row Ret ;;
                       Ret (match id with Some id => Some (id, rows ++ [setID id row]) | None => None end)
                   end ;;
        match reqrows with
        | None => Ret (Err false)
        | Some (reqID, rows) =>
            cred <- PCredentials ;;
            if negb cred then Ret (Err false)
            else
              s <- streamWithRetry params Warm rows ;;
              match s with
              | SFail true _ => compactCold
              | SFail false unavailable => Ret (Err unavailable)
              | SOk c =>
                  match judgeWarmReply c with
                  | Err reason =>
                      ok <- PSettle reqID (stampUsage (c_usage c)) reason Ret ;;
                      match ok with
                      | None => Ret (Err false)
                      | Some _ => compactCold
                      end
                  | Ok summary =>
                      reply <- persistAssistant c ;;
                      match reply with
                      | None => Ret (Err false)
                      | Some reply => commitCompaction None summary (compactionSpan rows ++ [ID reply])
                      end
                  end
              end
        end
  end.

Definition compactOnResume : prog cres :=
  rows <- PList Ret ;;
  match rows with
  | None => Ret (Err false)
  | Some rows =>
      match uncommittedWarmSummary rows with
      | Some summary => commitCompaction None summary (compactionSpan rows)
      | None =>
          if negb (compactionDue rows) then Ret (Ok tt)
          else
            now <- PNow ;;
            if warmCacheLive now rows then Ret (Ok tt) else compactCold
      end
  end.

Definition compactWindowFull : prog cres :=
  rows <- PList Ret ;;
  match rows with
  | None => Ret (Err false)
  | Some rows => now <- PNow ;; if warmCacheLive now rows then compactWarm else compactCold
  end.

(** ** engine.go *)

(** [failed]: a killed context is a cancellation. *)
Definition failed : prog Result :=
  cancelled <- PCancelled ;; Ret (if cancelled then ResultCancelled else ResultFailed).

(** What [Run] does with a compaction that failed. *)
Definition compactFailed (unavailable : bool) : prog Result :=
  cancelled <- PCancelled ;;
  if cancelled then Ret ResultCancelled
  else if unavailable then Ret ResultUpstreamUnavailable
  else insertNotice (compactFailedNotice T) ;; failed.

Definition parkOnStop (rows : list Message) (notice : bytes) : prog Result :=
  (if HasNoticeSince rows notice then Ret tt else insertNotice notice) ;; Ret (ResultParked notice).

(** The loop's local variables. *)
Record loopState := MkLoop {
  bareDrain : bool;
  turn : Z;
  deaths : Z;
  emptyLengthStops : Z;
  escalatedMaxTokens : Z;
  windowWallStops : Z;
  reactiveCompacted : bool
}.
Definition firstTurn : loopState := MkLoop true 0 0 0 0 0 false.

(** An iteration ends the engagement or goes round again. *)
Inductive turnEnd := Finish (r : Result) | Again (s : loopState).

Definition finishWith (p : prog Result) : prog turnEnd := r <- p ;; Ret (Finish r).

(** Steps 8 and 9: dispatch the batch, or decide whether to conclude. *)
Definition afterTurn (s : loopState) (row : Message) : prog turnEnd :=
  match ToolCalls row with
  | _ :: _ =>
      b <- dispatchBatch T params (ID row) (ToolCalls row) (deaths s) ;;
      match b with
      | BatchStopped => finishWith failed
      | BatchLost =>
          cancelled <- PCancelled ;;
          Ret (Finish (if cancelled then ResultCancelled else ResultToolHostLost))
      | BatchTerminated o r sum => Ret (Finish (ResultConcluded o r (match sum with [] => Content row | _ => sum end)))
      | BatchDone d =>
          Ret (Again (MkLoop false (turn s) d (emptyLengthStops s) (escalatedMaxTokens s) (windowWallStops s) (reactiveCompacted s)))
      end
  | [] =>
      let s := MkLoop true (turn s) (deaths s) (emptyLengthStops s) (escalatedMaxTokens s) (windowWallStops s) (reactiveCompacted s) in
      pending <- hasPending ;;
      match pending with
      | None => finishWith failed
      | Some true => Ret (Again s)
      | Some false =>
          nudge <- PNudge (turn s) (Content row) ;;
          match nudge with
          | [] => Ret (Finish (ResultConcluded ConversationOutcomeContinue [] (Content row)))
          | _ =>
              ok <- insertPending nudge MessageSubtypeInjectionNudge ;;
              if ok : bool then Ret (Again s) else finishWith failed
          end
      end
  end.

(** Step 7: the stop reason of a persisted turn, then steps 8 and 9.
    [maxTokens] is the cap of the call and [rows] what it read. *)
Definition onStop (s : loopState) (maxTokens : Z) (rows : list Message) (reason : bytes) (row : Message) : prog turnEnd :=
  let class := classifyStop reason in
  let calls := ToolCalls row in
  let empties := if bool_decide (class = stopLength) then emptyLengthStops s else 0 in
  let walls := if bool_decide (class = stopWindowWall) then windowWallStops s else 0 in
  let next bare empties escalated walls :=
    Again (MkLoop bare (turn s) (deaths s) empties escalated walls (reactiveCompacted s)) in
  let park notice := finishWith (parkOnStop rows notice) in
  match class with
  | stopLength =>
      match calls with
      | _ :: _ =>
          ok <- answerUndispatchedCalls (ID row) calls (truncatedBatchNotice T) ;;
          if ok : bool then Ret (next false 0 (escalatedMaxTokens s) walls) else finishWith failed
      | [] =>
          let empties := empties + 1 in
          if maxEmptyLengthStops <=? empties then
            finishWith (insertNotice (outputLimitFailureNotice T maxTokens) ;; failed)
          else
            ok <- insertDelivered (outputLimitNotice T) MessageSubtypeInjectionOutputLimit ;;
            if ok : bool then Ret (next false empties (escalateMaxTokens params maxTokens) walls) else finishWith failed
      end
  | stopWindowWall =>
      ok <- answerUndispatchedCalls (ID row) calls (wallCutBatchNotice T) ;;
      if negb ok then finishWith failed
      else
        let walls := walls + 1 in
        if maxWindowWallStops <=? walls then finishWith (insertNotice (windowWallFailureNotice T) ;; failed)
        else
          c <- compactWindowFull ;;
          match c with
          | Err unavailable => finishWith (compactFailed unavailable)
          | Ok _ => Ret (next false empties (escalatedMaxTokens s) walls)
          end
  | stopDecline =>
      ok <- answerUndispatchedCalls (ID row) calls (interruptedCallNotice T) ;;
      if ok : bool then park (declineParkNotice T reason) else finishWith failed
  | stopUnknown =>
      ok <- answerUndispatchedCalls (ID row) calls (interruptedCallNotice T) ;;
      if ok : bool then park (unrecognizedStopParkNotice T reason) else finishWith failed
  | stopToolCalls =>
      match calls with
      | [] => park (emptyToolBatchParkNotice T)
      | _ => afterTurn (MkLoop (bareDrain s) (turn s) (deaths s) empties (escalatedMaxTokens s) walls (reactiveCompacted s)) row
      end
  | stopEndTurn =>
      afterTurn (MkLoop (bareDrain s) (turn s) (deaths s) empties (escalatedMaxTokens s) walls (reactiveCompacted s)) row
  end.

(** Steps 4 to 6: the provider call, its failure, and the row it leaves. *)
Definition callModel (s : loopState) (rows : list Message) : prog turnEnd :=
  cred <- PCredentials ;;
  if negb cred then finishWith failed
  else
    let maxTokens := if 0 <? escalatedMaxTokens s then escalatedMaxTokens s else MaxTokens params in
    let s := MkLoop (bareDrain s) (turn s) (deaths s) (emptyLengthStops s) 0 (windowWallStops s) (reactiveCompacted s) in
    sr <- streamWithRetry params Working rows ;;
    match sr with
    | SFail overflow unavailable =>
        cancelled <- PCancelled ;;
        if cancelled then Ret (Finish ResultCancelled)
        else if overflow && negb (reactiveCompacted s) then
          c <- compactWindowFull ;;
          match c with
          | Ok _ => Ret (Again (MkLoop (bareDrain s) (turn s) (deaths s) (emptyLengthStops s) 0 (windowWallStops s) true))
          | Err unavailable => finishWith (
              cancelled <- PCancelled ;;
              if cancelled then Ret ResultCancelled
              else if unavailable then Ret ResultUpstreamUnavailable
              else insertNotice (callFailedNotice T) ;; failed)
          end
        else if unavailable then Ret (Finish ResultUpstreamUnavailable)
        else finishWith (insertNotice (callFailedNotice T) ;; failed)
    | SOk c =>
        let s := MkLoop (bareDrain s) (turn s + 1) (deaths s) (emptyLengthStops s) 0 (windowWallStops s) false in
        let c := if interrupted (classifyStop (FinishReason c)) then stubTruncatedToolArgs c else c in
        row <- persistAssistant c ;;
        match row with
        | None => finishWith failed
        | Some row => onStop s maxTokens rows (FinishReason c) row
        end
    end.

(** One iteration of [Run]'s loop. *)
Definition runTurn (s : loopState) : prog turnEnd :=
  cancelled <- PCancelled ;;
  if cancelled then Ret (Finish ResultCancelled)
  else
    pre <- PList Ret ;;
    match pre with
    | None => finishWith failed
    | Some pre =>
        if compactionDue pre then
          c <- compactWarm ;;
          match c with
          | Err unavailable => finishWith (compactFailed unavailable)
          | Ok _ => Ret (Again s)
          end
        else
          drained <- drain (bareDrain s) ;;
          if negb drained then finishWith failed
          else
            rows <- PList Ret ;;
            match rows with
            | None => finishWith failed
            | Some rows =>
                notice <- PGuard (turn s) ;;
                match notice with
                | _ :: _ => finishWith (parkOnStop rows notice)
                | [] => callModel s rows
                end
            end
    end.

(** [None] when more than [n] iterations are needed. *)
Fixpoint runLoop (n : nat) (s : loopState) : prog (option Result) :=
  match n with
  | O => Ret None
  | S n =>
      e <- runTurn s ;;
      match e with
      | Finish r => Ret (Some r)
      | Again s => runLoop n s
      end
  end.

(** [Run] after the transcript's repair. *)
Definition runRepaired (n : nat) : prog (option Result) :=
  c <- compactOnResume ;;
  match c with
  | Err unavailable => r <- compactFailed unavailable ;; Ret (Some r)
  | Ok _ => runLoop n firstTurn
  end.

Definition Run (n : nat) : prog (option Result) :=
  ok <- repairTranscript T params ;;
  if ok then runRepaired n else r <- failed ;; Ret (Some r).

End Engine.

End AgentEngine.
