(* ===== verification/AgentWindow.v ===== *)
(** * Assembly order and the store's operations

    Sorting by assembly key, and the window each store operation leaves: when
    no two rows of the window share a position, [ListForAssembly] is the one
    strictly increasing arrangement of the window, so an operation's effect on
    it is found by exhibiting that arrangement. *)

From S2P Require Import Prelude GoBytes AgentRow.
Import AgentRow.

Module AgentWindow.

(** ** Sorting *)

Definition klt (a b : Message) : Prop := (assemblyKey a < assemblyKey b)%Q.
Definition kle (a b : Message) : Prop := (assemblyKey a <= assemblyKey b)%Q.

Lemma keyle_spec a b : keyle a b = true <-> kle a b.
Proof. apply Qle_bool_iff. Qed.

Lemma keyle_not a b : keyle a b = false <-> klt b a.
Proof.
  rewrite <- not_true_iff_false, keyle_spec. unfold kle, klt. split; [apply Qnot_le_lt|intros H; apply Qlt_not_le, H].
Qed.

Lemma insertKey_mid x l1 l2 : Forall (fun y => klt y x) l1 -> Forall (fun y => klt x y) l2 ->
  insertKey x (l1 ++ l2) = l1 ++ x :: l2.
Proof.
  intros H1 H2. induction l1 as [|y l1 IH]; cbn.
  - destruct l2 as [|z l2]; [done|]. cbn. apply Forall_cons in H2 as [Hz _].
    destruct (keyle x z) eqn:E; [done|]. apply keyle_not in E. unfold klt in *. lra.
  - apply Forall_cons in H1 as [Hy H1]. apply keyle_not in Hy. rewrite Hy. by rewrite IH.
Qed.

Lemma insertKey_perm x l : insertKey x l ≡ₚ x :: l.
Proof. induction l as [|y l IH]; cbn; [done|]. destruct (keyle x y); [done|]. rewrite IH. apply perm_swap. Qed.

Lemma sortByKey_perm l : sortByKey l ≡ₚ l.
Proof. induction l as [|x l IH]; cbn; [done|]. by rewrite insertKey_perm, IH. Qed.

Lemma insertKey_sorted x l : StronglySorted kle l -> StronglySorted kle (insertKey x l).
Proof.
  induction 1 as [|y l Hl IH Hy]; cbn; [repeat constructor|].
  destruct (keyle x y) eqn:E.
  - apply keyle_spec in E. constructor; [by constructor|]. constructor; [done|].
    eapply Forall_impl; [exact Hy|]. cbn. unfold kle in *. intros z Hz. lra.
  - apply keyle_not in E. constructor; [done|].
    rewrite insertKey_perm. constructor; [|done]. unfold klt, kle in *. lra.
Qed.

Lemma sortByKey_sorted l : StronglySorted kle (sortByKey l).
Proof. induction l; cbn; [constructor|by apply insertKey_sorted]. Qed.

(** A strictly increasing arrangement is the sort. *)
Lemma sort_unique l : forall l', l ≡ₚ l' -> StronglySorted klt l' -> sortByKey l = l'.
Proof.
  induction l as [|x l IH]; intros l' Hp Hs; [by apply Permutation_nil in Hp; subst|].
  assert (x ∈ l') as Hx by (rewrite <- Hp; left).
  apply list_elem_of_split in Hx as (l1 & l2 & ->).
  apply Permutation_cons_app_inv in Hp.
  apply StronglySorted_app in Hs as (H12 & Hs1 & Hs2). inversion_clear Hs2 as [|? ? Hs2' Hx2].
  change (sortByKey (x :: l)) with (insertKey x (sortByKey l)). rewrite (IH (l1 ++ l2)); [|done|].
  - apply insertKey_mid; [|done]. apply Forall_forall. intros y Hy. apply H12; [done|left].
  - apply StronglySorted_app_2; [|done|done]. intros a b Ha Hb. apply H12; [done|by right].
Qed.

Lemma sort_strict l : StronglySorted klt l -> sortByKey l = l.
Proof. by apply sort_unique. Qed.

Lemma strict_filter (P : Message -> Prop) `{!∀ x, Decision (P x)} l : StronglySorted klt l -> StronglySorted klt (filter P l).
Proof.
  induction 1 as [|x l Hl IH Hx]; [constructor|]. rewrite filter_cons. destruct (decide (P x)); [|done].
  constructor; [done|]. apply Forall_forall. intros y Hy. apply list_elem_of_filter in Hy as [_ Hy].
  by eapply Forall_forall in Hx.
Qed.

Lemma strict_map (f : Message -> Message) l : (forall m, assemblyKey (f m) = assemblyKey m) ->
  StronglySorted klt l -> StronglySorted klt (map f l).
Proof.
  intros Hf. induction 1 as [|x l Hl IH Hx]; cbn; constructor; [done|].
  apply Forall_forall. intros y Hy. apply list_elem_of_In, in_map_iff in Hy as (z & <- & Hz).
  unfold klt. rewrite !Hf. apply list_elem_of_In in Hz. by eapply Forall_forall in Hx.
Qed.

Lemma strict_last x l : StronglySorted klt l -> Forall (fun y => klt y x) l -> StronglySorted klt (l ++ [x]).
Proof.
  intros Hl Hx. apply StronglySorted_app_2; [|done|repeat constructor].
  intros a b Ha Hb. apply list_elem_of_singleton in Hb as ->. by eapply Forall_forall in Hx.
Qed.

(** ** The window *)

Definition windowRows (t : table) : list Message := filter (fun m => inWindow m = true) (t_rows t).

Lemma window_elem m t : m ∈ ListForAssembly t <-> m ∈ t_rows t /\ inWindow m = true.
Proof. unfold ListForAssembly. rewrite sortByKey_perm, list_elem_of_filter. naive_solver. Qed.

Lemma window_perm t : ListForAssembly t ≡ₚ windowRows t.
Proof. apply sortByKey_perm. Qed.

Lemma window_unique t l : windowRows t ≡ₚ l -> StronglySorted klt l -> ListForAssembly t = l.
Proof. apply sort_unique. Qed.

Lemma insert_window m t : windowRows (Insert m t) = windowRows t ++ (if inWindow m then [setID (t_next t) m] else []).
Proof.
  unfold windowRows, Insert; cbn. rewrite filter_app. f_equal.
  rewrite filter_cons, filter_nil. change (inWindow (setID (t_next t) m)) with (inWindow m). by destruct (inWindow m).
Qed.

(** A row inserted into the window between two halves of it. *)
Lemma insert_between m t l1 l2 : ListForAssembly t = l1 ++ l2 -> StronglySorted klt (l1 ++ l2) -> inWindow m = true ->
  Forall (fun y => klt y (setID (t_next t) m)) l1 -> Forall (fun y => klt (setID (t_next t) m) y) l2 ->
  ListForAssembly (Insert m t) = l1 ++ setID (t_next t) m :: l2.
Proof.
  intros Hl Hs Hw H1 H2. apply window_unique.
  - rewrite insert_window, Hw, <- window_perm, Hl, <- app_assoc. apply Permutation_app_head.
    by rewrite (Permutation_app_comm l2).
  - apply StronglySorted_app in Hs as (H12 & Hs1 & Hs2). apply StronglySorted_app_2; [|done|by constructor].
    intros a b Ha Hb. apply elem_of_cons in Hb as [->|Hb]; [by eapply Forall_forall in H1|by apply H12].
Qed.

Lemma insert_outside m t : inWindow m = false -> ListForAssembly (Insert m t) = ListForAssembly t.
Proof. intros Hw. unfold ListForAssembly. fold (windowRows t) (windowRows (Insert m t)). by rewrite insert_window, Hw, app_nil_r. Qed.

Lemma filter_map_comm (f : Message -> Message) (l : list Message) : (forall m, inWindow (f m) = inWindow m) ->
  filter (fun m => inWindow m = true) (map f l) = map f (filter (fun m => inWindow m = true) l).
Proof.
  intros Hf. induction l as [|x l IH]; [done|]. cbn [map]. rewrite !filter_cons. rewrite Hf.
  destruct (decide (inWindow x = true)); cbn; by rewrite IH.
Qed.

(** An update of rows that keeps their window state and position. *)
Lemma update_window (f : Message -> Message) t : StronglySorted klt (ListForAssembly t) ->
  (forall m, inWindow (f m) = inWindow m) -> (forall m, assemblyKey (f m) = assemblyKey m) ->
  ListForAssembly (Table (map f (t_rows t)) (t_next t)) = map f (ListForAssembly t).
Proof.
  intros Hs Hw Hk. apply window_unique; [|by apply strict_map].
  unfold windowRows; cbn. rewrite filter_map_comm by done. apply Permutation_map. symmetry. apply window_perm.
Qed.

(** An update of rows that keeps positions and takes some rows out. *)
Lemma drop_window (f : Message -> Message) (keep : Message -> bool) t : StronglySorted klt (ListForAssembly t) ->
  (forall m, inWindow m = true -> inWindow (f m) = keep m) ->
  (forall m, inWindow m = false -> inWindow (f m) = false) ->
  (forall m, keep m = true -> f m = m) ->
  ListForAssembly (Table (map f (t_rows t)) (t_next t)) = filter (fun m => keep m = true) (ListForAssembly t).
Proof.
  intros Hs Hin Hout Hk. apply window_unique; [|by apply strict_filter].
  rewrite window_perm. unfold windowRows; cbn. generalize (t_rows t). intros l.
  induction l as [|x l IH]; [done|]. cbn [map]. rewrite !filter_cons. destruct (inWindow x) eqn:Ex.
  - rewrite (Hin x Ex). destruct (decide (true = true)) as [_|[]]; [|done]. rewrite filter_cons.
    destruct (keep x) eqn:Ek; destruct (decide _); try done. rewrite (Hk x Ek). by apply perm_skip.
  - rewrite (Hout x Ex). by destruct (decide _).
Qed.

(** ** Identity *)

Lemma id_unique (l : list Message) a b : NoDup (map ID l) -> a ∈ l -> b ∈ l -> ID a = ID b -> a = b.
Proof.
  intros Hn Ha Hb He. apply list_elem_of_lookup in Ha as [i Ha]. apply list_elem_of_lookup in Hb as [j Hb].
  assert (i = j) as ->; [|congruence]. change (map ID) with (fmap (M := list) ID) in Hn.
  apply (NoDup_lookup (ID <$> l) i j (ID a)); [done| |]; rewrite list_lookup_fmap; [by rewrite Ha|by rewrite Hb, He].
Qed.

Lemma filter_ext_in (P Q : Message -> Prop) `{!∀ x, Decision (P x), !∀ x, Decision (Q x)} (l : list Message) :
  (forall m, m ∈ l -> P m <-> Q m) -> filter P l = filter Q l.
Proof.
  induction l as [|m l IH]; intros Hpq; [done|]. rewrite !filter_cons. rewrite IH by (intros; apply Hpq; by right).
  pose proof (Hpq m ltac:(left)). repeat case_decide; tauto || done.
Qed.

(** ** Fractional positions *)

Lemma fraction_pos i n : (0 < fraction i n)%Q.
Proof. unfold fraction. apply Qlt_shift_div_l; [|rewrite Qmult_0_l]; rewrite <- Zlt_Qlt || change 0%Q with (inject_Z 0); rewrite <- ?Zlt_Qlt; lia. Qed.

Lemma fraction_lt1 i n : (i < n)%nat -> (fraction i n < 1)%Q.
Proof.
  intros Hi. unfold fraction. apply Qlt_shift_div_r.
  - change 0%Q with (inject_Z 0). rewrite <- Zlt_Qlt. lia.
  - rewrite Qmult_1_l, <- Zlt_Qlt. lia.
Qed.

Lemma fraction_mono i j n : (i < j)%nat -> (fraction i n < fraction j n)%Q.
Proof.
  intros Hij. unfold fraction, Qdiv. apply Qmult_lt_compat_r.
  - apply Qinv_lt_0_compat. change 0%Q with (inject_Z 0). rewrite <- Zlt_Qlt. lia.
  - rewrite <- Zlt_Qlt. lia.
Qed.

Lemma half_between lo hi : (lo < hi)%Q -> (lo < lo + (hi - lo) / 2 /\ lo + (hi - lo) / 2 < hi)%Q.
Proof. intros H. unfold Qdiv. change (/ 2)%Q with (1 # 2)%Q. split; lra. Qed.

End AgentWindow.
