(* ===== verification/AgentInv.v ===== *)
(** * Legal transcripts

    What the provider requires of a request ([legal]: every tool call answered
    in the messages right behind it, nothing else between), the transcript's
    invariant ([wf]), the writes of the world ([rely]), and the assertions the
    loop moves between, each stable under those writes. *)

From S2P Require Import Prelude GoBytes AgentRow AgentWindow.
Import AgentRow AgentWindow.

Module AgentInv.

(** ** Legality *)

(** What the provider checks of a message: its role and the call ids. *)
Inductive shape := SUser | STool (id : bytes) | SAssistant (calls : list bytes).

#[export] Instance shape_eq_dec : EqDecision shape.
Proof. solve_decision. Defined.

Definition shapeOf (m : Message) : shape :=
  match Role m with
  | RoleUser => SUser
  | RoleTool => STool (ToolCallID m)
  | RoleAssistant => SAssistant (map tc_id (ToolCalls m))
  end.

(** One answer settles one call. *)
Fixpoint settle (id : bytes) (owed : list bytes) : option (list bytes) :=
  match owed with
  | [] => None
  | x :: owed => if bool_decide (x = id) then Some owed else (x ::.) <$> settle id owed
  end.

(** [owes owed l]: with the calls [owed] open, [l] answers them at once, and
    every later call likewise. *)
Fixpoint owes (owed : list bytes) (l : list shape) : bool :=
  match l with
  | [] => bool_decide (owed = [])
  | STool id :: l => match settle id owed with Some owed => owes owed l | None => false end
  | SUser :: l => bool_decide (owed = []) && owes [] l
  | SAssistant calls :: l => bool_decide (owed = []) && owes calls l
  end.
Definition legal : list shape -> bool := owes [].

Lemma owes_app o l1 l2 : owes o l1 = true -> legal l2 = true -> owes o (l1 ++ l2) = true.
Proof.
  revert o. induction l1 as [|[|id|calls] l1 IH]; intros o H1 H2; cbn in *.
  - apply bool_decide_eq_true in H1 as ->. done.
  - apply andb_true_iff in H1 as [H1 H3]. rewrite H1. by apply IH.
  - destruct (settle id o); [|done]. by apply IH.
  - apply andb_true_iff in H1 as [H1 H3]. rewrite H1. by apply IH.
Qed.

Lemma legal_split_user l1 l2 : forall o, owes o (l1 ++ SUser :: l2) = true -> owes o l1 = true /\ legal (SUser :: l2) = true.
Proof.
  induction l1 as [|[|id|calls] l1 IH]; intros o H; cbn in *.
  - apply andb_true_iff in H as [H1 H2]. by rewrite H1.
  - apply andb_true_iff in H as [H1 H2]. rewrite H1. by apply IH.
  - destruct (settle id o); [|done]. by apply IH.
  - apply andb_true_iff in H as [H1 H2]. rewrite H1. by apply IH.
Qed.

Lemma legal_users l : Forall (eq SUser) l -> legal l = true.
Proof. induction 1 as [|x l <- _ IH]; done. Qed.

Lemma owes_answers ids : forall l, owes ids (map STool ids ++ l) = owes [] l.
Proof. induction ids as [|x ids IH]; intros l; [done|]. cbn. by rewrite bool_decide_eq_true_2. Qed.

(** ** Cells *)

(** A row's place in the window: identity, position, shape. *)
Record cell := Cell { c_id : Z; c_key : Q; c_shape : shape }.
Definition cellOf (m : Message) : cell := Cell (ID m) (assemblyKey m) (shapeOf m).
Definition view (t : table) : list cell := map cellOf (ListForAssembly t).
Definition shapes (v : list cell) : list shape := map c_shape v.
Definition isUser (c : cell) : Prop := c_shape c = SUser.
Definition callsOf (c : cell) : list bytes := match c_shape c with SAssistant calls => calls | _ => [] end.
Definition allCalls (v : list cell) : list bytes := v ≫= callsOf.

(** [drops v w]: [w] is [v] without some user cells. *)
Inductive drops : list cell -> list cell -> Prop :=
| drops_nil : drops [] []
| drops_keep c v w : drops v w -> drops (c :: v) (c :: w)
| drops_skip c v w : isUser c -> drops v w -> drops (c :: v) w.

Lemma drops_refl v : drops v v.
Proof. induction v; by constructor. Qed.

Lemma drops_legal v w : drops v w -> forall o, owes o (shapes v) = true -> owes o (shapes w) = true.
Proof.
  induction 1 as [|c v w _ IH|c v w Hc _ IH]; intros o H; [done| |].
  - cbn in *. destruct (c_shape c) as [|id|calls].
    + apply andb_true_iff in H as [H1 H2]. rewrite H1. by apply IH.
    + destruct (settle id o); [|done]. by apply IH.
    + apply andb_true_iff in H as [H1 H2]. rewrite H1. by apply IH.
  - apply IH. cbn in H. rewrite Hc in H. apply andb_true_iff in H as [H1 H2]. apply bool_decide_eq_true in H1 as ->. done.
Qed.

Lemma drops_app_inv v1 : forall v2 w, drops (v1 ++ v2) w -> exists w1 w2, w = w1 ++ w2 /\ drops v1 w1 /\ drops v2 w2.
Proof.
  induction v1 as [|c v1 IH]; intros v2 w H; cbn in H; [exists [], w; split_and!; [done|constructor|done]|].
  inversion H as [|? ? ? Hd|? ? ? Hu Hd]; subst; destruct (IH _ _ Hd) as (w1 & w2 & -> & H1 & H2).
  - exists (c :: w1), w2. split_and!; [done|by constructor|done].
  - exists w1, w2. split_and!; [done|by constructor|done].
Qed.

Lemma drops_cons_inv c v w : drops (c :: v) w -> ~ isUser c -> exists w', w = c :: w' /\ drops v w'.
Proof. intros H Hc. inversion H; subst; [eauto|done]. Qed.

Lemma drops_solid v w : drops v w -> Forall (fun c => ~ isUser c) v -> w = v.
Proof. induction 1 as [|c v w _ IH|c v w Hc _ IH]; intros Hs; [done| |]; apply Forall_cons in Hs as [? ?]; [f_equal; by apply IH|done]. Qed.

Lemma drops_forall (P : cell -> Prop) v w : drops v w -> Forall P v -> Forall P w.
Proof. induction 1; intros Hs; [done| |]; apply Forall_cons in Hs as [? ?]; [constructor|]; auto. Qed.

Lemma drops_calls v w : drops v w -> allCalls w = allCalls v.
Proof.
  induction 1 as [|c v w _ IH|c v w Hc _ IH]; [done| |].
  - change (callsOf c ++ allCalls w = callsOf c ++ allCalls v). by rewrite IH.
  - change (allCalls w = callsOf c ++ allCalls v). rewrite IH. unfold callsOf. by rewrite Hc.
Qed.

Lemma users_calls v : Forall isUser v -> allCalls v = [].
Proof.
  induction 1 as [|c v Hc _ IH]; [done|]. change (callsOf c ++ allCalls v = []). rewrite IH. unfold callsOf. by rewrite Hc.
Qed.

(** ** The transcript's invariant *)

Record wf (t : table) : Prop := MkWf {
  wf_pos : 0 < t_next t;
  wf_ids : NoDup (map ID (t_rows t));
  wf_next : Forall (fun m => ID m < t_next t) (t_rows t);
  wf_strict : StronglySorted klt (ListForAssembly t);
  wf_keys : Forall (fun m => (assemblyKey m < inject_Z (t_next t))%Q) (ListForAssembly t);
  wf_pending : Forall (fun m => Delivered m = false -> Role m = RoleUser) (ListForAssembly t);
  wf_calls : NoDup (allCalls (view t));
  wf_named : Forall (fun id => id <> []) (allCalls (view t))
}.

Lemma view_keys t : wf t -> Forall (fun c => (c_key c < inject_Z (t_next t))%Q) (view t).
Proof. intros H. unfold view. apply List.Forall_map. apply (wf_keys t H). Qed.

(** ** The world's writes *)

(** A person's message, an event, a stop's note: a user row at the tail. *)
Definition speaks (m : Message) : Prop := Role m = RoleUser /\ Seq m = None /\ inWindow m = true.

Definition onUsers (ids : list Z) (P : Message -> bool) (f : Message -> Message) (t : table) : table :=
  Table (map (fun m => if bool_decide (ID m ∈ ids) && bool_decide (Role m = RoleUser) && P m then f m else m) (t_rows t)) (t_next t).

(** [WithdrawPendingInputSystem] and the staged notes' withdrawals. *)
Definition withdraw (ids : list Z) : table -> table :=
  onUsers ids (fun m => negb (Delivered m)) (setWindow WindowInactive).

Definition setPending (m : Message) : Message :=
  Msg (ID m) (Role m) (Subtype m) (Content m) (ToolCalls m) (ToolCallID m) (IsError m) (Seq m) false
    (WindowState m) (Tokens m) (CreatedAt m) (Failure m) (Blocks m).
(** [FlushPendingSystem] and [RestorePendingSystem]. *)
Definition flush (ids : list Z) : table -> table := onUsers ids (fun m => negb (Delivered m)) (setDelivered []).
Definition restore (ids : list Z) : table -> table := onUsers ids Delivered setPending.

Inductive rely : table -> table -> Prop :=
| rely_say m t : speaks m -> rely t (Insert m t)
| rely_withdraw ids t : rely t (withdraw ids t)
| rely_flush ids t : rely t (flush ids t)
| rely_restore ids t : rely t (restore ids t)
| rely_ids n t : t_next t <= n -> rely t (Table (t_rows t) n).

(** The opening rows a spawn hoists above the transcript. *)
Inductive between : table -> table -> Prop :=
| between_rely t u : rely t u -> between t u
| between_hoist m q t : Role m = RoleUser -> Seq m = Some q -> inWindow m = true ->
    (q < inject_Z (t_next t))%Q ->
    Forall (fun c => (c_key c < q)%Q /\ isUser c \/ (q < c_key c)%Q) (view t) -> between t (Insert m t).

(** What the world does to the window: it drops user rows and appends user rows. *)
Definition evolve (t u : table) : Prop :=
  t_next t <= t_next u /\ exists w tail, view u = w ++ tail /\ drops (view t) w /\
    Forall (fun c => isUser c /\ (inject_Z (t_next t) <= c_key c)%Q) tail.

Lemma evolve_same t u : t_next t <= t_next u -> view u = view t -> evolve t u.
Proof. intros Hn Hv. split; [done|]. exists (view t), []. rewrite app_nil_r. split_and!; [done|apply drops_refl|done]. Qed.

(** ** Inserting a row *)

Lemma cells_forall (P : cell -> Prop) l : Forall P (map cellOf l) -> Forall (fun m => P (cellOf m)) l.
Proof. apply List.Forall_map. Qed.


Lemma view_insert m t v1 v2 : wf t -> view t = v1 ++ v2 -> inWindow m = true ->
  let c := cellOf (setID (t_next t) m) in
  Forall (fun x => (c_key x < c_key c)%Q) v1 -> Forall (fun x => (c_key c < c_key x)%Q) v2 ->
  view (Insert m t) = v1 ++ c :: v2.
Proof.
  intros Hwf Hv Hw c H1 H2. unfold view in *. symmetry in Hv.
  destruct (map_eq_app _ _ _ _ (eq_sym Hv)) as (l1 & l2 & Hl & <- & <-).
  pose proof (wf_strict t Hwf) as Hs. rewrite Hl in Hs.
  rewrite (insert_between m t l1 l2); [by rewrite map_app|done|done|done| |].
  - exact (cells_forall _ _ H1).
  - exact (cells_forall _ _ H2).
Qed.

(** The new row's position is free and below the next id. *)
Definition fits (m : Message) (t : table) : Prop :=
  (assemblyKey (setID (t_next t) m) < inject_Z (t_next t + 1))%Q /\
  (Delivered m = false -> Role m = RoleUser).

Lemma allCalls_app v w : allCalls (v ++ w) = allCalls v ++ allCalls w.
Proof. apply bind_app. Qed.

Lemma wf_insert m t v1 v2 : wf t -> view t = v1 ++ v2 -> inWindow m = true ->
  let c := cellOf (setID (t_next t) m) in
  Forall (fun x => (c_key x < c_key c)%Q) v1 -> Forall (fun x => (c_key c < c_key x)%Q) v2 -> fits m t ->
  NoDup (callsOf c) -> Forall (fun id => id <> []) (callsOf c) -> (forall id, id ∈ callsOf c -> id ∉ allCalls (view t)) ->
  wf (Insert m t).
Proof.
  intros Hwf Hv Hw c H1 H2 [Hf1 Hf2] Hn Hne Hfr.
  pose proof (view_insert m t v1 v2 Hwf Hv Hw H1 H2) as Hvi.
  assert (allCalls (view (Insert m t)) ≡ₚ callsOf c ++ allCalls (view t)) as Hcalls.
  { rewrite Hvi, Hv, !allCalls_app. change (allCalls (cellOf (setID (t_next t) m) :: v2)) with (callsOf c ++ allCalls v2). apply Permutation_app_swap_app. }
  assert (Forall (fun x => ID x < t_next t + 1) (t_rows t)) as Hnext.
  { eapply Forall_impl; [apply (wf_next t Hwf)|]. cbn. lia. }
  clear Hvi. unfold view in Hv. destruct (map_eq_app _ _ _ _ Hv) as (l1 & l2 & Hl & <- & <-).
  apply cells_forall in H1, H2.
  pose proof (wf_strict t Hwf) as Hs. rewrite Hl in Hs.
  pose proof (insert_between m t l1 l2 Hl Hs Hw H1 H2) as Hli.
  constructor.
  - pose proof (wf_pos t Hwf). cbn. lia.
  - cbn. rewrite map_app. apply NoDup_app. split_and!; [apply (wf_ids t Hwf)| |apply NoDup_singleton].
    intros x Hx Hin. apply list_elem_of_singleton in Hin as ->. apply list_elem_of_In, in_map_iff in Hx as (y & Hy & Hin).
    apply list_elem_of_In in Hin. pose proof (proj1 (Forall_forall _ _) (wf_next t Hwf) _ Hin). cbn in *. lia.
  - cbn. apply Forall_app. split; [done|]. repeat constructor. cbn. lia.
  - rewrite Hli. apply StronglySorted_app in Hs as (H12 & Hs1 & Hs2). apply StronglySorted_app_2; [|done|by constructor].
    intros a b Ha Hb. apply elem_of_cons in Hb as [->|Hb]; [exact (proj1 (Forall_forall _ _) H1 _ Ha)|by apply H12].
  - rewrite Hli. pose proof (wf_keys t Hwf) as Hk. rewrite Hl in Hk. apply Forall_app in Hk as [Hk1 Hk2].
    assert (forall l, Forall (fun x => (assemblyKey x < inject_Z (t_next t))%Q) l ->
      Forall (fun x => (assemblyKey x < inject_Z (t_next t + 1))%Q) l) as Hup.
    { intros l Hl'. eapply Forall_impl; [exact Hl'|]. intros x Hx. eapply Qlt_trans; [exact Hx|]. rewrite <- Zlt_Qlt. lia. }
    apply Forall_app. split; [by apply Hup|]. constructor; [done|by apply Hup].
  - rewrite Hli. pose proof (wf_pending t Hwf) as Hp. rewrite Hl in Hp. apply Forall_app in Hp as [Hp1 Hp2].
    apply Forall_app. split; [done|]. by constructor.
  - rewrite Hcalls. apply NoDup_app. split_and!; [done|done|apply (wf_calls t Hwf)].
  - rewrite Hcalls. apply Forall_app. split; [done|apply (wf_named t Hwf)].
Qed.

(** A user row at the tail. *)
Lemma insert_tail m t : wf t -> Seq m = None -> inWindow m = true -> callsOf (cellOf m) = [] ->
  (Delivered m = false -> Role m = RoleUser) ->
  wf (Insert m t) /\ view (Insert m t) = view t ++ [cellOf (setID (t_next t) m)].
Proof.
  intros Hwf Hs Hw Hc Hd.
  assert (c_key (cellOf (setID (t_next t) m)) = inject_Z (t_next t)) as Hk by (cbn; unfold assemblyKey; cbn; by rewrite Hs).
  assert (callsOf (cellOf (setID (t_next t) m)) = []) as Hc' by done.
  assert (Forall (fun x => (c_key x < c_key (cellOf (setID (t_next t) m)))%Q) (view t)) as H1.
  { rewrite Hk. by apply view_keys. }
  split.
  - apply (wf_insert m t (view t) []); try done; [by rewrite app_nil_r| |rewrite Hc'; constructor|by rewrite Hc'|rewrite Hc'; set_solver].
    split; [|done]. change (assemblyKey (setID (t_next t) m)) with (c_key (cellOf (setID (t_next t) m))). rewrite Hk.
    rewrite <- Zlt_Qlt. lia.
  - rewrite (view_insert m t (view t) []); try done; by rewrite app_nil_r.
Qed.

Lemma insert_hidden m t : wf t -> inWindow m = false -> wf (Insert m t) /\ view (Insert m t) = view t.
Proof.
  intros Hwf Hw. pose proof (insert_outside m t Hw) as Hl.
  assert (view (Insert m t) = view t) as Hv by (unfold view; by rewrite Hl). split; [|done].
  constructor; rewrite ?Hl, ?Hv; try apply Hwf.
  - pose proof (wf_pos t Hwf). cbn. lia.
  - cbn. rewrite map_app. apply NoDup_app. split_and!; [apply (wf_ids t Hwf)| |apply NoDup_singleton].
    intros x Hx Hin. apply list_elem_of_singleton in Hin as ->. apply list_elem_of_In, in_map_iff in Hx as (y & Hy & Hin).
    apply list_elem_of_In in Hin. pose proof (proj1 (Forall_forall _ _) (wf_next t Hwf) _ Hin). cbn in *. lia.
  - cbn. apply Forall_app. split; [|repeat constructor; cbn; lia].
    eapply Forall_impl; [apply (wf_next t Hwf)|]. cbn. lia.
  - cbn. eapply Forall_impl; [apply (wf_keys t Hwf)|]. intros x Hx. eapply Qlt_trans; [exact Hx|]. rewrite <- Zlt_Qlt. lia.
Qed.

End AgentInv.
