(* ===== verification/AgentCompact.v ===== *)
(** * The compaction commit

    The window [Compact] leaves: the delivered rows outside the span, the
    result, and every queued row behind it in its old order. *)

From S2P Require Import Prelude GoBytes AgentRow AgentWindow AgentInv.
Import AgentRow AgentWindow AgentInv.

Module AgentCompact.

(** The position of an id in a list. *)
Fixpoint posn (id : Z) (l : list Z) : option nat :=
  match l with
  | [] => None
  | x :: l => if decide (x = id) then Some 0%nat else S <$> posn id l
  end.

Lemma posn_none id l : id ∉ l -> posn id l = None.
Proof.
  induction l as [|x l IH]; intros H; [done|]. cbn. apply not_elem_of_cons in H as [Hx Hl].
  rewrite decide_False by done. by rewrite IH.
Qed.

Lemma posn_lookup id l : NoDup l -> forall i, l !! i = Some id -> posn id l = Some i.
Proof.
  induction 1 as [|x l Hx Hl IH]; intros i Hi; [done|]. destruct i as [|i]; cbn in *.
  - injection Hi as ->. by rewrite decide_True.
  - rewrite decide_False by (intros ->; apply Hx; by eapply list_elem_of_lookup_2). by rewrite (IH i).
Qed.

(** What the re-seq does to one row. *)
Definition moved (result : Z) (i n : nat) (queued : list Z) (m : Message) : Message :=
  match posn (ID m) queued with
  | Some j => setSeq (inject_Z result + fraction (i + j) n) m
  | None => m
  end.

Lemma reseq_moved result n queued : NoDup queued -> forall i l,
  reseq result i n queued l = map (moved result i n queued) l.
Proof.
  induction 1 as [|id queued Hid Hq IH]; intros i l; [by rewrite map_id|].
  cbn [reseq]. rewrite IH. unfold updateIDs. rewrite map_map. apply map_ext. intros m.
  unfold moved. cbn [posn]. destruct (decide (id = ID m)) as [->|Hne].
  - rewrite (bool_decide_eq_true_2 (ID m ∈ [ID m])) by set_solver. cbn [ID setSeq].
    rewrite posn_none by done. by rewrite Nat.add_0_r.
  - rewrite bool_decide_eq_false_2 by set_solver. destruct (posn (ID m) queued); cbn; [|done].
    by rewrite Nat.add_succ_r.
Qed.

Lemma moved_fixed result i n queued m : ID m ∉ queued -> moved result i n queued m = m.
Proof. intros H. unfold moved. by rewrite posn_none. Qed.

Lemma moved_window result i n queued m : inWindow (moved result i n queued m) = inWindow m.
Proof. unfold moved. by case_match. Qed.

Lemma moved_id result i n queued m : ID (moved result i n queued m) = ID m.
Proof. unfold moved. by destruct (posn _ _). Qed.

Lemma moved_role result i n queued m : Role (moved result i n queued m) = Role m.
Proof. unfold moved. by destruct (posn _ _). Qed.

Section Commit.

Context (reply : option Message) (result : Message) (span : list Z) (t : table).

Definition resultID : Z := match reply with Some _ => t_next t + 1 | None => t_next t end.
Definition resultRow : Message := setID resultID result.

(** The rows of the commit before the re-seq. *)
Definition spanRows : list Message :=
  updateIDs span (setWindow WindowInactive)
    (t_rows t ++ match reply with Some r => [setID (t_next t) (setWindow WindowInactive r)] | None => [] end ++ [resultRow]).
Definition queuedRows : list Message :=
  filter (fun m => negb (Delivered m) && negb (Qle_bool (inject_Z resultID) (assemblyKey m)) = true) spanRows.
Definition queuedIDs : list Z := map ID (sortByKey queuedRows).

(** The queued rows' new positions. *)
Definition requeue : Message -> Message := moved resultID 0 (length queuedIDs) queuedIDs.

Lemma compact_unfold : Compact reply result span t =
  Table (reseq resultID 0 (length queuedIDs) queuedIDs spanRows) (resultID + 1).
Proof.
  unfold Compact, queuedIDs, queuedRows, spanRows, resultRow, resultID, Insert. destruct reply; cbn;
    rewrite <- ?app_assoc; done.
Qed.

Hypothesis Hwf : wf t.
Hypothesis Hspan : Forall (fun i => i < t_next t) span.
Hypothesis Hresult : Seq result = None /\ Delivered result = true /\ WindowState result = WindowActive.

Lemma resultID_next : t_next t <= resultID.
Proof. unfold resultID. destruct reply; lia. Qed.

Lemma span_ids : map ID spanRows = map ID (t_rows t) ++ (match reply with Some _ => [t_next t] | None => [] end) ++ [resultID].
Proof.
  unfold spanRows, updateIDs. rewrite map_map.
  transitivity (map ID (t_rows t ++ match reply with Some r => [setID (t_next t) (setWindow WindowInactive r)] | None => [] end ++ [resultRow])).
  - apply map_ext. intros m. by destruct (bool_decide _).
  - rewrite !map_app. f_equal. f_equal. by destruct reply.
Qed.

Lemma old_ids x : x ∈ map ID (t_rows t) -> x < t_next t.
Proof. intros Hx. apply list_elem_of_In, in_map_iff in Hx as (m & <- & Hm). apply list_elem_of_In in Hm. exact (proj1 (Forall_forall _ _) (wf_next t Hwf) _ Hm). Qed.

Lemma span_nodup : NoDup (map ID spanRows).
Proof.
  clear Hspan Hresult. rewrite span_ids. apply NoDup_app. split_and!; [apply Hwf| |].
  - intros x Hx Hin. apply old_ids in Hx. unfold resultID in Hin. destruct reply; set_unfold; naive_solver lia.
  - unfold resultID. destruct reply; cbn; [|apply NoDup_singleton].
    apply NoDup_cons. split; [|apply NoDup_singleton]. rewrite list_elem_of_singleton. lia.
Qed.

Lemma nodup_sublist_map (l l' : list Message) : NoDup (map ID l') -> l `sublist_of` l' -> NoDup (map ID l).
Proof. intros Hn Hs. eapply sublist_NoDup; [done|]. by apply (fmap_sublist ID). Qed.

Lemma queued_nodup : NoDup queuedIDs.
Proof.
  unfold queuedIDs. rewrite (Permutation_map ID (sortByKey_perm _)).
  eapply nodup_sublist_map; [apply span_nodup|]. apply sublist_filter.
Qed.

Lemma id_inj a b : a ∈ spanRows -> b ∈ spanRows -> ID a = ID b -> a = b.
Proof.
  apply id_unique, span_nodup.
Qed.

(** The window rows of [t] that the span leaves. *)
Definition kept : list Message := filter (fun m => ID m ∉ span) (ListForAssembly t).

Lemma span_keep m : ID m ∉ span -> m ∈ t_rows t -> m ∈ spanRows.
Proof.
  intros Hs Hm. unfold spanRows, updateIDs. apply list_elem_of_In, in_map_iff. exists m. split.
  - by rewrite bool_decide_eq_false_2.
  - apply list_elem_of_In, elem_of_app. by left.
Qed.

Lemma kept_elem m : m ∈ kept -> m ∈ spanRows /\ inWindow m = true /\ (assemblyKey m < inject_Z resultID)%Q.
Proof.
  unfold kept. rewrite list_elem_of_filter. intros [Hs Hm]. pose proof Hm as Hm'. apply window_elem in Hm as [Hr Hw].
  split_and!; [by apply span_keep|done|].
  eapply Qlt_le_trans; [exact (proj1 (Forall_forall _ _) (wf_keys t Hwf) _ Hm')|].
  rewrite <- Zle_Qle. apply resultID_next.
Qed.

Lemma queued_elem m : m ∈ spanRows -> (ID m ∈ queuedIDs <-> m ∈ queuedRows).
Proof.
  intros Hm. unfold queuedIDs. rewrite (Permutation_map ID (sortByKey_perm _)). split.
  - intros Hi. apply list_elem_of_In, in_map_iff in Hi as (x & He & Hx). apply list_elem_of_In in Hx.
    rewrite <- (id_inj x m); [done| |done|done]. unfold queuedRows in Hx. by apply list_elem_of_filter in Hx as [_ Hx].
  - intros Hq. apply list_elem_of_In, in_map_iff. exists m. split; [done|]. by apply list_elem_of_In.
Qed.

Lemma kept_queued m : m ∈ kept -> (ID m ∈ queuedIDs <-> Delivered m = false).
Proof.
  clear Hspan Hresult. intros Hm. apply kept_elem in Hm as (Hs & _ & Hk). rewrite queued_elem by done. unfold queuedRows.
  rewrite list_elem_of_filter.
  replace (Qle_bool (inject_Z resultID) (assemblyKey m)) with false.
  - destruct (Delivered m); cbn; naive_solver.
  - symmetry. apply not_true_iff_false. rewrite Qle_bool_iff. by apply Qlt_not_le.
Qed.

(** The queued rows of the window keep their order. *)
Lemma requeue_pos m : m ∈ kept -> Delivered m = false ->
  exists j, sortByKey queuedRows !! j = Some m /\ (j < length queuedIDs)%nat /\
    requeue m = setSeq (inject_Z resultID + fraction j (length queuedIDs)) m.
Proof.
  intros Hm Hd. pose proof (proj2 (kept_queued m Hm) Hd) as Hq.
  pose proof (proj1 (kept_elem m Hm)) as Hs. apply queued_elem in Hq; [|done].
  rewrite <- sortByKey_perm in Hq. apply list_elem_of_lookup in Hq as [j Hj]. exists j.
  assert (queuedIDs !! j = Some (ID m)) as Hj'.
  { unfold queuedIDs. change (map ID) with (fmap (M := list) ID). by rewrite list_lookup_fmap, Hj. }
  split_and!; [done|by apply lookup_lt_Some in Hj'|].
  unfold requeue, moved. by rewrite (posn_lookup _ _ queued_nodup j).
Qed.

Lemma requeue_key m : m ∈ kept -> Delivered m = false ->
  (inject_Z resultID < assemblyKey (requeue m) /\ assemblyKey (requeue m) < inject_Z (resultID + 1))%Q.
Proof.
  intros Hm Hd. destruct (requeue_pos m Hm Hd) as (j & _ & Hl & ->). cbn.
  pose proof (fraction_pos j (length queuedIDs)). pose proof (fraction_lt1 _ _ Hl).
  rewrite inject_Z_plus. change (inject_Z 1) with 1%Q. split; lra.
Qed.

Lemma requeue_mono a b : a ∈ kept -> b ∈ kept -> Delivered a = false -> Delivered b = false -> klt a b ->
  klt (requeue a) (requeue b).
Proof.
  intros Ha Hb Hda Hdb Hab.
  destruct (requeue_pos a Ha Hda) as (i & Hi & _ & ->). destruct (requeue_pos b Hb Hdb) as (j & Hj & _ & ->).
  unfold klt. cbn. assert (i < j)%nat as Hij; [|pose proof (fraction_mono i j (length queuedIDs) Hij); lra].
  destruct (decide (i < j)%nat) as [|Hn]; [done|exfalso].
  destruct (decide (i = j)) as [->|Hne]; [rewrite Hi in Hj; injection Hj as ->; unfold klt in Hab; lra|].
  pose proof (sortByKey_sorted queuedRows) as Hs.
  assert (kle b a) as Hba; [|unfold kle, klt in *; lra].
  rewrite <- (take_drop_middle _ _ _ Hj) in Hs. apply StronglySorted_app in Hs as (_ & _ & Hs).
  inversion_clear Hs as [|? ? _ Hf]. eapply Forall_forall; [exact Hf|].
  apply list_elem_of_lookup. exists (i - S j)%nat. rewrite lookup_drop. rewrite <- Hi. f_equal. lia.
Qed.

Definition compacted : list Message :=
  filter (fun m => Delivered m = true) kept ++ resultRow :: map requeue (filter (fun m => Delivered m = false) kept).

Lemma compacted_strict : StronglySorted klt compacted.
Proof.
  unfold compacted. assert (StronglySorted klt kept) as Hk by (apply strict_filter, Hwf).
  assert (assemblyKey resultRow = inject_Z resultID) as Hr.
  { unfold assemblyKey, resultRow. cbn. by destruct Hresult as [-> _]. }
  apply StronglySorted_app_2; [|by apply strict_filter|].
  - intros a b Ha Hb. apply list_elem_of_filter in Ha as [_ Ha]. apply kept_elem in Ha as (_ & _ & Ha).
    apply elem_of_cons in Hb as [->|Hb]; unfold klt; [by rewrite Hr|].
    apply list_elem_of_In, in_map_iff in Hb as (c & <- & Hc). apply list_elem_of_In, list_elem_of_filter in Hc as [Hd Hc].
    destruct (requeue_key c Hc Hd). lra.
  - constructor.
    + assert (Forall (fun m => m ∈ kept /\ Delivered m = false) (filter (fun m => Delivered m = false) kept)) as Hf.
      { apply Forall_forall. intros x. rewrite list_elem_of_filter. tauto. }
      pose proof (strict_filter (fun m => Delivered m = false) kept Hk) as Hs. revert Hf Hs.
      generalize (filter (fun m => Delivered m = false) kept). intros l Hf.
      induction Hf as [|a l [Ha Hda] Hl IH]; intros Hs; cbn; [constructor|].
      inversion_clear Hs as [|? ? Hs' Hfa]. constructor; [by apply IH|].
      apply Forall_forall. intros x Hx. apply list_elem_of_In, in_map_iff in Hx as (b & <- & Hb). apply list_elem_of_In in Hb.
      eapply Forall_forall in Hl as [Hkb Hdb]; [|exact Hb]. eapply Forall_forall in Hfa; [|exact Hb]. by apply requeue_mono.
    + apply Forall_forall. intros x Hx. apply list_elem_of_In, in_map_iff in Hx as (b & <- & Hb).
      apply list_elem_of_In, list_elem_of_filter in Hb as [Hd Hb]. unfold klt. rewrite Hr. by apply requeue_key.
Qed.

Lemma window_split l : filter (fun m => inWindow m = true) (updateIDs span (setWindow WindowInactive) l)
  = filter (fun m => ID m ∉ span) (filter (fun m => inWindow m = true) l).
Proof.
  induction l as [|x l IH]; [done|]. unfold updateIDs in *. cbn [map]. rewrite !filter_cons.
  destruct (decide (ID x ∈ span)) as [Hin|Hin].
  - rewrite bool_decide_eq_true_2 by done. rewrite decide_False by (by cbn). rewrite IH.
    destruct (decide (inWindow x = true)); [|done]. rewrite filter_cons. rewrite decide_False by naive_solver. done.
  - rewrite bool_decide_eq_false_2 by done. destruct (decide (inWindow x = true)); [|done].
    rewrite filter_cons. rewrite (decide_True (P := ID x ∉ span)) by done. by rewrite IH.
Qed.

Lemma span_window : filter (fun m => inWindow m = true) spanRows ≡ₚ kept ++ [resultRow].
Proof.
  unfold spanRows. rewrite window_split, !filter_app.
  assert (filter (fun m => ID m ∉ span) (filter (fun m => inWindow m = true) [resultRow]) = [resultRow]) as ->.
  { rewrite filter_cons, filter_nil. rewrite decide_True.
    - rewrite filter_cons, filter_nil. rewrite decide_True; [done|]. intros Hin.
      eapply Forall_forall in Hspan; [|exact Hin]. unfold resultRow in Hspan. cbn in Hspan. pose proof resultID_next. lia.
    - destruct Hresult as (_ & _ & Hw). unfold resultRow, inWindow. cbn. by rewrite Hw. }
  assert (filter (fun m => ID m ∉ span) (filter (fun m => inWindow m = true)
    (match reply with Some r => [setID (t_next t) (setWindow WindowInactive r)] | None => [] end)) = []) as ->.
  { by destruct reply. }
  cbn [app]. apply Permutation_app_tail. unfold kept. apply filter_Permutation. symmetry. apply window_perm.
Qed.

Lemma requeue_delivered m : m ∈ kept -> Delivered m = true -> requeue m = m.
Proof. intros Hm Hd. apply moved_fixed. rewrite kept_queued by done. by rewrite Hd. Qed.

Lemma requeue_result : requeue resultRow = resultRow.
Proof.
  apply moved_fixed. unfold queuedIDs. rewrite (Permutation_map ID (sortByKey_perm _)). intros Hi.
  apply list_elem_of_In, in_map_iff in Hi as (x & He & Hx). apply list_elem_of_In in Hx.
  unfold queuedRows in Hx. apply list_elem_of_filter in Hx as [Hd Hx].
  assert (resultRow ∈ spanRows) as Hr.
  { unfold spanRows, updateIDs. apply list_elem_of_In, in_map_iff. exists resultRow. split.
    - rewrite bool_decide_eq_false_2; [done|]. intros Hin. eapply Forall_forall in Hspan; [|exact Hin].
      unfold resultRow in Hspan. cbn in Hspan. pose proof resultID_next. lia.
    - apply list_elem_of_In, elem_of_app. right. apply elem_of_app. right. by left. }
  rewrite (id_inj x resultRow Hx Hr He) in Hd. destruct Hresult as (_ & Hdel & _). unfold resultRow in Hd. cbn in Hd.
  by rewrite Hdel in Hd.
Qed.

Lemma filter_split (l : list Message) :
  l ≡ₚ filter (fun m => Delivered m = true) l ++ filter (fun m => Delivered m = false) l.
Proof.
  induction l as [|x l IH]; [done|]. rewrite !filter_cons.
  destruct (Delivered x); repeat case_decide; try done.
  - cbn. by apply perm_skip.
  - rewrite <- Permutation_middle. by apply perm_skip.
Qed.

(** The window after the commit. *)
Lemma compact_window : ListForAssembly (Compact reply result span t) = compacted.
Proof.
  apply window_unique; [|apply compacted_strict]. rewrite compact_unfold. unfold windowRows. cbn [t_rows].
  rewrite reseq_moved by apply queued_nodup. rewrite filter_map_comm by (intros; apply moved_window).
  change (moved resultID 0 (length queuedIDs) queuedIDs) with requeue.
  rewrite (Permutation_map requeue span_window), map_app. cbn [map]. rewrite requeue_result.
  assert (map requeue kept ≡ₚ filter (fun m => Delivered m = true) kept ++ map requeue (filter (fun m => Delivered m = false) kept)) as ->.
  { rewrite (Permutation_map requeue (filter_split kept)), map_app. apply Permutation_app_tail.
    rewrite (map_ext_in requeue (fun x => x)); [by rewrite map_id|]. intros x Hx.
    apply list_elem_of_In, list_elem_of_filter in Hx as [Hd Hx]. by apply requeue_delivered. }
  rewrite <- app_assoc. apply Permutation_app_head. by rewrite <- Permutation_cons_append.
Qed.

End Commit.

End AgentCompact.

(** * Assertions about the transcript

    The world keeps [wf] and only drops or appends user rows ([rely_evolve]);
    the assertions of the loop's proof and why they survive that; what the
    loop's own writes do to them. *)

Import AgentCompact.

Module AgentStable.

(** ** Updates in place *)

(** An update that keeps what [wf] and [view] read. *)
Lemma update_same f t : wf t ->
  (forall m, cellOf (f m) = cellOf m) -> (forall m, inWindow (f m) = inWindow m) ->
  (forall m, m ∈ t_rows t -> (Delivered m = false -> Role m = RoleUser) -> Delivered (f m) = false -> Role (f m) = RoleUser) ->
  let u := Table (map f (t_rows t)) (t_next t) in wf u /\ view u = view t.
Proof.
  intros Hwf Hc Hw Hd u.
  assert (forall m, assemblyKey (f m) = assemblyKey m) as Hk by (intros m; exact (f_equal c_key (Hc m))).
  assert (forall m, ID (f m) = ID m) as Hi by (intros m; exact (f_equal c_id (Hc m))).
  pose proof (update_window f t (wf_strict t Hwf) Hw Hk) as Hl.
  assert (view u = view t) as Hv.
  { unfold view. subst u. rewrite Hl, map_map. by apply map_ext. }
  split; [|done]. subst u. constructor; cbn [t_next t_rows]; rewrite ?Hl, ?Hv; try apply Hwf.
  - rewrite map_map. erewrite map_ext; [apply Hwf|done].
  - apply List.Forall_map. eapply Forall_impl; [apply (wf_next t Hwf)|]. intros m. by rewrite Hi.
  - apply strict_map; [done|apply Hwf].
  - apply List.Forall_map. eapply Forall_impl; [apply (wf_keys t Hwf)|]. intros m. by rewrite Hk.
  - apply List.Forall_map. apply Forall_forall. intros m Hm. apply Hd.
    + apply window_elem in Hm; tauto.
    + exact (proj1 (Forall_forall _ _) (wf_pending t Hwf) m Hm).
Qed.

(** Dropping user rows. *)
Lemma drop_users f keep t : wf t ->
  (forall m, inWindow m = true -> inWindow (f m) = keep m) ->
  (forall m, inWindow m = false -> inWindow (f m) = false) ->
  (forall m, keep m = true -> f m = m) -> (forall m, ID (f m) = ID m) ->
  (forall m, inWindow m = true -> keep m = false -> Role m = RoleUser) ->
  let u := Table (map f (t_rows t)) (t_next t) in wf u /\ drops (view t) (view u).
Proof.
  intros Hwf H1 H2 H3 H4 H5 u.
  pose proof (drop_window f keep t (wf_strict t Hwf) H1 H2 H3) as Hl.
  assert (drops (view t) (view u)) as Hv.
  { unfold view. subst u. rewrite Hl.
    assert (Forall (fun m => inWindow m = true) (ListForAssembly t)) as Hin.
    { apply Forall_forall. intros m Hm. apply window_elem in Hm; tauto. }
    clear Hl. induction Hin as [|m l Hm _ IH]; [constructor|]. rewrite filter_cons. destruct (keep m) eqn:E; case_decide; try done.
    - apply drops_keep, IH.
    - apply drops_skip; [|exact IH]. unfold isUser. cbn. unfold shapeOf. by rewrite (H5 m Hm E). }
  split; [|done].
  assert (forall (P : Message -> Prop), Forall P (ListForAssembly t) -> Forall P (ListForAssembly u)) as Hf.
  { intros P HP. subst u. rewrite Hl. apply Forall_forall. intros m Hm. apply list_elem_of_filter in Hm as [_ Hm].
    exact (proj1 (Forall_forall _ _) HP m Hm). }
  subst u. constructor; cbn [t_next t_rows]; rewrite ?(drops_calls _ _ Hv); try apply Hwf.
  - rewrite map_map. erewrite map_ext; [apply Hwf|done].
  - apply List.Forall_map. eapply Forall_impl; [apply (wf_next t Hwf)|]. intros m. by rewrite H4.
  - rewrite Hl. apply strict_filter, Hwf.
  - apply Hf, Hwf.
  - apply Hf, Hwf.
Qed.

Lemma onUsers_same ids P f t : wf t -> (forall m, Role m = RoleUser -> cellOf (f m) = cellOf m) ->
  (forall m, inWindow (f m) = inWindow m) -> (forall m, Role (f m) = Role m) ->
  wf (onUsers ids P f t) /\ view (onUsers ids P f t) = view t.
Proof.
  intros Hwf Hc Hw Hr. apply update_same; [done|..].
  - intros m. destruct (bool_decide (ID m ∈ ids)), (bool_decide_reflect (Role m = RoleUser)), (P m); cbn; auto.
  - intros m. by case_match.
  - intros m _ Hd. destruct (bool_decide_reflect (Role m = RoleUser)).
    + intros _. case_match; by rewrite ?Hr.
    + rewrite andb_false_r. done.
Qed.

Lemma mark_same ids st t : wf t -> wf (MarkDelivered ids st t) /\ view (MarkDelivered ids st t) = view t.
Proof.
  intros Hwf. apply update_same; [done|..]; intros m; [by case_match..|]. intros _ Hd. by case_match.
Qed.

Lemma settle_same id u r t : wf t -> wf (SettleCompactionRequest id u r t) /\ view (SettleCompactionRequest id u r t) = view t.
Proof. intros Hwf. apply update_same; [done|..]; intros m; [by case_match..|]. intros _ Hd. by case_match. Qed.

(** ** The world *)

Lemma speaks_cell m : speaks m -> callsOf (cellOf m) = [] /\ isUser (cellOf m).
Proof. intros (Hr & _). unfold callsOf, isUser. cbn. unfold shapeOf. by rewrite Hr. Qed.

Lemma rely_evolve t u : rely t u -> wf t -> wf u /\ evolve t u.
Proof.
  destruct 1 as [m t Hm|ids t|ids t|ids t|n t Hn]; intros Hwf.
  - destruct (speaks_cell m Hm) as [Hc Hu]. destruct Hm as (Hr & Hs & Hw).
    destruct (insert_tail m t Hwf Hs Hw Hc) as [Hwf' Hv]; [done|]. split; [done|]. split; [cbn; lia|].
    exists (view t), [cellOf (setID (t_next t) m)]. split_and!; [done|apply drops_refl|]. repeat constructor; [done|].
    cbn. unfold assemblyKey. cbn. rewrite Hs. apply Qle_refl.
  - set (gone := fun m => bool_decide (ID m ∈ ids) && bool_decide (Role m = RoleUser) && negb (Delivered m)).
    destruct (drop_users (fun m => if gone m then setWindow WindowInactive m else m) (fun m => negb (gone m)) t Hwf)
      as [Hwf' Hd]; subst gone; cbn beta.
    + intros m Hm. by destruct (_ && _).
    + intros m Hm. by destruct (_ && _).
    + intros m. by destruct (_ && _).
    + intros m. by destruct (_ && _).
    + intros m _. destruct (bool_decide_reflect (Role m = RoleUser)); [done|]. by rewrite andb_false_r.
    + split; [exact Hwf'|]. split; [done|]. exists (view (withdraw ids t)), []. split_and!; [by rewrite app_nil_r|exact Hd|constructor].
  - destruct (onUsers_same ids (fun m => negb (Delivered m)) (setDelivered []) t Hwf) as [Hwf' Hv]; [done..|].
    split; [done|]. by apply evolve_same.
  - destruct (onUsers_same ids Delivered setPending t Hwf) as [Hwf' Hv]; [done..|].
    split; [done|]. by apply evolve_same.
  - split; [|by apply evolve_same].
    constructor; cbn [t_next t_rows]; try apply Hwf.
    + pose proof (wf_pos t Hwf). lia.
    + eapply Forall_impl; [apply (wf_next t Hwf)|]. cbn. lia.
    + eapply Forall_impl; [apply (wf_keys t Hwf)|]. intros m Hm. eapply Qlt_le_trans; [exact Hm|]. by rewrite <- Zle_Qle.
Qed.

End AgentStable.
