(* ===== verification/AgentAssert.v ===== *)
(** * The loop's assertions

    Where the transcript can be while the loop runs: legal, with a gap to
    insert into, or with an open batch; each stable under the world's writes,
    and what the loop's own writes do to them. *)

From S2P Require Import Prelude GoBytes AgentRow AgentWindow AgentProg AgentCompact AgentInv.
Import AgentRow AgentWindow AgentCompact AgentInv AgentStable.

Module AgentAssert.

(** ** Stability *)

Definition stable (P : table -> Prop) : Prop := forall t u, evolve t u -> P t -> P u.

Lemma stable_rely P t u : stable P -> rtc rely t u -> wf t -> P t -> wf u /\ P u.
Proof.
  intros HP. induction 1 as [t|t v u Hr _ IH]; intros Hwf Ht; [done|].
  destruct (rely_evolve t v Hr Hwf) as [Hv He]. apply IH; [done|]. by eapply HP.
Qed.

Lemma stable_and P Q : stable P -> stable Q -> stable (fun t => P t /\ Q t).
Proof. intros HP HQ t u He [? ?]. split; [by eapply HP|by eapply HQ]. Qed.

Create HintDb agent.

(** ** The assertions *)

Definition Legal (t : table) : Prop := legal (shapes (view t)) = true.
Definition Next (n : Z) (t : table) : Prop := n <= t_next t.
Definition SpanOK (ids : list Z) (t : table) : Prop := Forall (fun c => isUser c \/ c_id c ∈ ids) (view t).
Definition Fresh (ids : list bytes) (t : table) : Prop := forall id, id ∈ ids -> id ∉ allCalls (view t).

(** A free position between two legal halves. *)
Definition Gap (k : Q) (t : table) : Prop :=
  (k < inject_Z (t_next t))%Q /\ exists v1 v2, view t = v1 ++ v2 /\
    Forall (fun c => (c_key c < k)%Q) v1 /\ Forall (fun c => (k < c_key c)%Q) v2 /\
    legal (shapes v1) = true /\ legal (shapes v2) = true.

(** The batch of [owner] answered up to [i], only user rows behind it. *)
Definition Open (owner : Z) (ids : list bytes) (i : nat) (t : table) : Prop :=
  0 < owner /\ owner + 1 <= t_next t /\ exists pre a ts us, view t = pre ++ a :: ts ++ us /\
    legal (shapes pre) = true /\ c_key a = inject_Z owner /\ c_shape a = SAssistant ids /\
    shapes ts = map STool (take i ids) /\
    Forall (fun c => (c_key c < inject_Z owner + fraction i (length ids))%Q) ts /\
    Forall (fun c => isUser c /\ (inject_Z (owner + 1) <= c_key c)%Q) us.

(** A batch cut short: a prefix answered, then user rows at most. *)
Definition Torn (t : table) : Prop :=
  exists pre a ts us ids i, view t = pre ++ a :: ts ++ us /\ legal (shapes pre) = true /\
    c_shape a = SAssistant ids /\ shapes ts = map STool (take i ids) /\ Forall isUser us.

(** What a crash may leave. *)
Definition Recoverable (t : table) : Prop := Legal t \/ Torn t.

(** ** Stability of each *)

Lemma shapes_app v w : shapes (v ++ w) = shapes v ++ shapes w.
Proof. apply map_app. Qed.

Lemma shapes_users v : Forall isUser v -> legal (shapes v) = true.
Proof. intros H. apply legal_users. apply List.Forall_map. eapply Forall_impl; [exact H|]. by intros x ->. Qed.

Lemma legal_app v w : legal (shapes v) = true -> legal (shapes w) = true -> legal (shapes (v ++ w)) = true.
Proof. rewrite shapes_app. apply owes_app. Qed.

Lemma tail_users n tail : Forall (fun c => isUser c /\ (inject_Z n <= c_key c)%Q) tail -> Forall isUser tail.
Proof. intros H. eapply Forall_impl; [exact H|]. by intros c [? ?]. Qed.

Lemma Legal_stable : stable Legal.
Proof.
  intros t u (_ & w & tail & Hv & Hd & Ht) Hl. unfold Legal. rewrite Hv. apply legal_app.
  - by eapply drops_legal.
  - by eapply shapes_users, tail_users.
Qed.

Lemma Next_stable n : stable (Next n).
Proof. intros t u (Hn & _) H. unfold Next in *. lia. Qed.

Lemma SpanOK_stable ids : stable (SpanOK ids).
Proof.
  intros t u (_ & w & tail & Hv & Hd & Ht) Hl. unfold SpanOK. rewrite Hv. apply Forall_app. split.
  - by eapply drops_forall.
  - eapply Forall_impl; [exact Ht|]. intros c [? _]. by left.
Qed.

Lemma Fresh_stable ids : stable (Fresh ids).
Proof.
  intros t u (_ & w & tail & Hv & Hd & Ht) Hf id Hid. rewrite Hv, allCalls_app, (drops_calls _ _ Hd).
  rewrite (users_calls tail); [|by eapply tail_users]. rewrite app_nil_r. by apply Hf.
Qed.

Lemma Gap_stable k : stable (Gap k).
Proof.
  intros t u (Hn & w & tail & Hv & Hd & Ht) (Hk & v1 & v2 & Hv' & H1 & H2 & L1 & L2). split.
  - eapply Qlt_le_trans; [exact Hk|]. by rewrite <- Zle_Qle.
  - rewrite Hv' in Hd. apply drops_app_inv in Hd as (w1 & w2 & -> & D1 & D2).
    exists w1, (w2 ++ tail). rewrite Hv, <- app_assoc. split_and!; [done|by eapply drops_forall| |by eapply drops_legal|].
    + apply Forall_app. split; [by eapply drops_forall|]. eapply Forall_impl; [exact Ht|]. intros c [_ Hc]. lra.
    + apply legal_app; [by eapply drops_legal|by eapply shapes_users, tail_users].
Qed.

Lemma tools_solid ts ids : shapes ts = map STool ids -> Forall (fun c => ~ isUser c) ts.
Proof.
  revert ids. induction ts as [|c ts IH]; intros [|id ids] H; try done. cbn in H. injection H as Hc Ht.
  constructor; [unfold isUser; congruence|by eapply IH].
Qed.

(** The world keeps the pieces of an open batch. *)
Lemma drops_batch pre a ts us ids ids' w : drops (pre ++ a :: ts ++ us) w -> c_shape a = SAssistant ids ->
  shapes ts = map STool ids' -> exists pre' us', w = pre' ++ a :: ts ++ us' /\ drops pre pre' /\ drops us us'.
Proof.
  intros Hd Ha Hts. apply drops_app_inv in Hd as (pre' & w2 & -> & H1 & H2).
  apply drops_cons_inv in H2 as (w3 & -> & H2); [|unfold isUser; congruence].
  apply drops_app_inv in H2 as (ts' & us' & -> & H3 & H4). apply drops_solid in H3 as ->; [|by eapply tools_solid].
  by exists pre', us'.
Qed.

Lemma Open_stable owner ids i : stable (Open owner ids i).
Proof.
  intros t u (Hn & w & tail & Hv & Hd & Ht) (Ho & Hb & pre & a & ts & us & Hvt & Hl & Hk & Ha & Hts & Hkt & Hus).
  split; [done|]. split; [lia|]. rewrite Hvt in Hd. destruct (drops_batch _ _ _ _ _ _ _ Hd Ha Hts) as (pre' & us' & -> & D1 & D2).
  exists pre', a, ts, (us' ++ tail). rewrite Hv. split_and!; [by rewrite <- app_assoc; cbn; rewrite <- app_assoc|by eapply drops_legal|done..|].
  apply Forall_app. split; [by eapply drops_forall|]. eapply Forall_impl; [exact Ht|]. intros c [Hu Hc]. split; [done|].
  eapply Qle_trans; [|exact Hc]. by rewrite <- Zle_Qle.
Qed.

Lemma Torn_stable : stable Torn.
Proof.
  intros t u (Hn & w & tail & Hv & Hd & Ht) (pre & a & ts & us & ids & i & Hvt & Hl & Ha & Hts & Hus).
  rewrite Hvt in Hd. destruct (drops_batch _ _ _ _ _ _ _ Hd Ha Hts) as (pre' & us' & -> & D1 & D2).
  exists pre', a, ts, (us' ++ tail), ids, i. rewrite Hv.
  split_and!; [by rewrite <- app_assoc; cbn; rewrite <- app_assoc|by eapply drops_legal|done..|].
  apply Forall_app. split; [by eapply drops_forall|by eapply tail_users].
Qed.

Lemma Recoverable_stable : stable Recoverable.
Proof. intros t u He [H|H]; [left; by eapply Legal_stable|right; by eapply Torn_stable]. Qed.

#[export] Hint Resolve Legal_stable Next_stable SpanOK_stable Fresh_stable Gap_stable Open_stable Torn_stable
  Recoverable_stable stable_and : agent.

(** Stability of a conjunction, of the assertions above and of facts. *)
Ltac stab := repeat first [solve [eauto with agent] | solve [by intros ? ? ?] | apply stable_and].

(** ** Moving between them *)

Lemma Legal_recoverable t : Legal t -> Recoverable t.
Proof. by left. Qed.

Lemma Open_recoverable owner ids i t : Open owner ids i t -> Recoverable t.
Proof.
  intros (_ & _ & pre & a & ts & us & H1 & H2 & _ & H3 & H4 & _ & H5). right. exists pre, a, ts, us, ids, i.
  split_and!; try done. eapply Forall_impl; [exact H5|]. by intros c [? ?].
Qed.

Lemma Open_full owner ids t : Open owner ids (length ids) t -> Legal t.
Proof.
  intros (_ & _ & pre & a & ts & us & Hv & Hl & _ & Ha & Hts & _ & Hus). unfold Legal. rewrite Hv, shapes_app. apply owes_app; [done|].
  change (legal (c_shape a :: shapes (ts ++ us)) = true). rewrite Ha, shapes_app, Hts, firstn_all. cbn.
  rewrite owes_answers. apply shapes_users. eapply Forall_impl; [exact Hus|]. by intros c [? ?].
Qed.

(** The request a listing gives is legal: undelivered rows are user rows. *)
Definition requestRows (rows : list Message) : list Message :=
  filter (fun m => Delivered m && inWindow m = true) (sortByKey rows).

Lemma drops_request l : Forall (fun m => Delivered m && inWindow m = false -> Role m = RoleUser) l ->
  drops (map cellOf l) (map cellOf (filter (fun m => Delivered m && inWindow m = true) l)).
Proof.
  induction 1 as [|m l Hm _ IH]; [constructor|]. rewrite filter_cons. destruct (Delivered m && inWindow m) eqn:E; case_decide; try done.
  - apply drops_keep, IH.
  - apply drops_skip; [|exact IH]. unfold isUser. cbn. unfold shapeOf. by rewrite (Hm eq_refl).
Qed.

Lemma request_legal t : wf t -> Legal t -> legal (map shapeOf (requestRows (ListForAssembly t))) = true.
Proof.
  intros Hwf Hl. unfold requestRows. rewrite sort_strict by apply Hwf.
  assert (Forall (fun m => Delivered m && inWindow m = false -> Role m = RoleUser) (ListForAssembly t)) as Hf.
  { apply Forall_forall. intros m Hm. pose proof (proj1 (Forall_forall _ _) (wf_pending t Hwf) m Hm) as Hp.
    apply window_elem in Hm as [_ Hw]. rewrite Hw, andb_true_r. done. }
  pose proof (drops_legal _ _ (drops_request _ Hf) [] Hl) as Hr. unfold shapes in Hr. by rewrite map_map in Hr.
Qed.

(** ** The loop's writes *)

Lemma say_legal m t : wf t -> Legal t -> speaks m -> wf (Insert m t) /\ Legal (Insert m t).
Proof. intros Hwf Hl Hm. apply (stable_rely Legal t); [apply Legal_stable|apply rtc_once; by constructor|done|done]. Qed.

(** The assistant's row opens its batch. *)
Lemma assistant_opens m t : wf t -> Legal t -> Role m = RoleAssistant -> Seq m = None -> Delivered m = true -> inWindow m = true ->
  let ids := map tc_id (ToolCalls m) in NoDup ids -> Forall (fun id => id <> []) ids -> Fresh ids t ->
  wf (Insert m t) /\ Open (t_next t) ids 0 (Insert m t).
Proof.
  intros Hwf Hl Hr Hs Hd Hw ids Hnd Hne Hf. set (c := cellOf (setID (t_next t) m)).
  assert (c_key c = inject_Z (t_next t)) as Hk by (cbn; unfold assemblyKey; cbn; by rewrite Hs).
  assert (c_shape c = SAssistant ids) as Hc by (cbn; unfold shapeOf; cbn; by rewrite Hr).
  assert (Forall (fun x => (c_key x < c_key c)%Q) (view t)) as H1 by (rewrite Hk; by apply view_keys).
  assert (view t = view t ++ []) as Hv by by rewrite app_nil_r.
  assert (view (Insert m t) = view t ++ [c]) as Hvi by (by apply view_insert).
  split.
  - apply (wf_insert m t (view t) []); try done; fold c; unfold callsOf; rewrite ?Hc; try done.
    split; [|by rewrite Hd]. change (c_key c < inject_Z (t_next t + 1))%Q. rewrite Hk, <- Zlt_Qlt. lia.
  - split; [apply Hwf|]. split; [cbn; lia|]. exists (view t), c, [], []. rewrite Hvi.
    split_and!; try done; by rewrite take_0.
Qed.

(** An answer into the place behind [pre ++ a :: ts]. *)
Lemma insert_answer m t pre a ts us id : wf t -> view t = pre ++ a :: ts ++ us ->
  Role m = RoleTool -> ToolCallID m = id -> Delivered m = true -> inWindow m = true ->
  let c := cellOf (setID (t_next t) m) in
  Forall (fun x => (c_key x < c_key c)%Q) (pre ++ a :: ts) -> Forall (fun x => (c_key c < c_key x)%Q) us ->
  (c_key c < inject_Z (t_next t + 1))%Q ->
  wf (Insert m t) /\ view (Insert m t) = pre ++ a :: (ts ++ [c]) ++ us /\ c_shape c = STool id.
Proof.
  intros Hwf Hv Hr Hid Hd Hw c H1 H2 Hk.
  assert (c_shape c = STool id) as Hc by (cbn; unfold shapeOf; cbn; by rewrite Hr, Hid).
  assert (view t = (pre ++ a :: ts) ++ us) as Hv2 by (rewrite Hv, <- app_assoc; done).
  assert (view (Insert m t) = (pre ++ a :: ts) ++ c :: us) as Hvi by (by apply view_insert).
  split_and!; [|rewrite Hvi; by rewrite <- !app_assoc|done].
  apply (wf_insert m t (pre ++ a :: ts) us); try done; fold c; unfold callsOf; rewrite ?Hc; try done; try by constructor.
  - split; [done|by rewrite Hd].
  - set_solver.
Qed.

(** Everything before the owner assembles before it. *)
Lemma keys_before t pre a rest k : wf t -> view t = pre ++ a :: rest -> (c_key a < k)%Q -> Forall (fun c => (c_key c < k)%Q) (pre ++ [a]).
Proof.
  intros Hwf Hv Hk. apply Forall_app. split; [|by repeat constructor].
  pose proof (wf_strict t Hwf) as Hst. unfold view in Hv.
  destruct (map_eq_app _ _ _ _ Hv) as (lp & lr & HL & <- & Hlr). destruct lr as [|x lr]; [done|]. injection Hlr as Hx Hlr.
  rewrite HL in Hst. apply StronglySorted_app in Hst as (H12 & _). apply List.Forall_map, Forall_forall. intros y Hy.
  specialize (H12 y x Hy ltac:(left)). unfold klt in H12. rewrite <- Hx in Hk. cbn in *. lra.
Qed.

Lemma answers_step ts c ids i id : shapes ts = map STool (take i ids) -> c_shape c = STool id -> ids !! i = Some id ->
  shapes (ts ++ [c]) = map STool (take (S i) ids).
Proof. intros Hts Hc Hi. rewrite shapes_app, Hts. change (shapes [c]) with [c_shape c]. by rewrite Hc, (take_S_r _ _ _ Hi), map_app. Qed.

(** A result lands right behind the answers before it. *)
Lemma result_answers m t owner ids i id : wf t -> Open owner ids i t -> ids !! i = Some id ->
  Role m = RoleTool -> ToolCallID m = id -> Seq m = Some (inject_Z owner + fraction i (length ids))%Q ->
  Delivered m = true -> inWindow m = true -> wf (Insert m t) /\ Open owner ids (S i) (Insert m t).
Proof.
  intros Hwf (Ho & Hn & pre & a & ts & us & Hv & Hl & Hk & Ha & Hts & Hkt & Hus) Hi Hr Hid Hs Hd Hw.
  set (c := cellOf (setID (t_next t) m)).
  assert (c_key c = inject_Z owner + fraction i (length ids))%Q as Hkc by (cbn; unfold assemblyKey; cbn; by rewrite Hs).
  pose proof (lookup_lt_Some _ _ _ Hi) as Hlt. pose proof (fraction_lt1 _ _ Hlt) as Hf1. pose proof (fraction_pos i (length ids)) as Hf0.
  assert (inject_Z (owner + 1) == inject_Z owner + 1)%Q as H1 by by rewrite inject_Z_plus.
  assert (inject_Z (owner + 1) <= inject_Z (t_next t))%Q as H2 by (rewrite <- Zle_Qle; lia).
  assert (inject_Z (t_next t) <= inject_Z (t_next t + 1))%Q as H3 by (rewrite <- Zle_Qle; lia).
  destruct (insert_answer m t pre a ts us id Hwf Hv Hr Hid Hd Hw) as (Hwf' & Hvi & Hc); fold c.
  - pose proof (keys_before t pre a _ (c_key c) Hwf Hv ltac:(rewrite Hk, Hkc; lra)) as Hb.
    rewrite cons_middle, app_assoc. apply Forall_app. split; [done|]. by rewrite Hkc.
  - eapply Forall_impl; [exact Hus|]. intros x [_ Hx]. rewrite Hkc. lra.
  - rewrite Hkc. lra.
  - fold c in Hvi, Hc. split; [done|]. split; [done|]. split; [cbn; lia|]. exists pre, a, (ts ++ [c]), us. split_and!; try done.
    + by eapply answers_step.
    + pose proof (fraction_mono i (S i) (length ids) ltac:(lia)) as Hm. apply Forall_app. split.
      * eapply Forall_impl; [exact Hkt|]. intros x Hx. cbn beta in *. lra.
      * repeat constructor. rewrite Hkc. lra.
Qed.

(** A user row into a gap. *)
Lemma gap_legal m t k : wf t -> Gap k t -> Role m = RoleUser -> Seq m = Some k -> inWindow m = true ->
  wf (Insert m t) /\ Legal (Insert m t).
Proof.
  intros Hwf (Hk & v1 & v2 & Hv & H1 & H2 & L1 & L2) Hr Hs Hw. set (c := cellOf (setID (t_next t) m)).
  assert (c_key c = k) as Hkc by (cbn; unfold assemblyKey; cbn; by rewrite Hs).
  assert (c_shape c = SUser) as Hc by (cbn; unfold shapeOf; cbn; by rewrite Hr).
  rewrite <- Hkc in H1, H2.
  assert (view (Insert m t) = v1 ++ c :: v2) as Hvi by (by apply view_insert).
  split.
  - apply (wf_insert m t v1 v2); try done; fold c; unfold callsOf; rewrite ?Hc; try done; try by constructor.
    + split; [|done]. change (c_key c < inject_Z (t_next t + 1))%Q. rewrite Hkc. eapply Qlt_trans; [exact Hk|].
      rewrite <- Zlt_Qlt. lia.
    + set_solver.
  - unfold Legal. rewrite Hvi. apply legal_app; [done|]. change (legal (c_shape c :: shapes v2) = true). by rewrite Hc.
Qed.

(** The commit leaves user rows only. *)
Lemma compact_legal reply result span t : wf t -> SpanOK span t -> Forall (fun i => i < t_next t) span ->
  Role result = RoleUser -> Seq result = None -> Delivered result = true -> WindowState result = WindowActive ->
  wf (Compact reply result span t) /\ Legal (Compact reply result span t) /\ t_next t < t_next (Compact reply result span t).
Proof.
  intros Hwf Hspan Hlt Hr Hs Hd Hw.
  assert (Seq result = None /\ Delivered result = true /\ WindowState result = WindowActive) as Hres by done.
  pose proof (compact_window reply result span t Hwf Hlt Hres) as HL.
  pose proof (compacted_strict reply result span t Hwf Hres) as Hst.
  pose proof (span_nodup reply result span t Hwf) as Hnd.
  pose proof (queued_nodup reply result span t Hwf) as Hqn.
  pose proof (resultID_next reply t) as Hn.
  assert (Forall (fun m => Role m = RoleUser) (kept span t)) as Hkept.
  { apply Forall_forall. intros m Hm. apply list_elem_of_filter in Hm as [Hns Hm].
    destruct (proj1 (Forall_forall _ _) (proj1 (List.Forall_map _ _ _) Hspan) m Hm) as [Hu|Hi]; [|done].
    unfold isUser in Hu. cbn in Hu. unfold shapeOf in Hu. by destruct (Role m). }
  assert (Forall (fun m => Role m = RoleUser) (compacted reply result span t)) as Hall.
  { unfold compacted. apply Forall_app. split; [|constructor; [done|]].
    - apply Forall_forall. intros m Hm. apply list_elem_of_filter in Hm as [_ Hm]. by eapply Forall_forall in Hkept.
    - apply List.Forall_map, Forall_forall. intros m Hm. apply list_elem_of_filter in Hm as [_ Hm].
      eapply Forall_forall in Hkept; [|exact Hm]. unfold requeue. by rewrite moved_role. }
  assert (Forall isUser (view (Compact reply result span t))) as Hus.
  { unfold view. rewrite HL. apply List.Forall_map. eapply Forall_impl; [exact Hall|]. intros m Hm. unfold isUser. cbn.
    unfold shapeOf. by rewrite Hm. }
  assert (t_next (Compact reply result span t) = resultID reply t + 1) as Hnx by by rewrite compact_unfold.
  split_and!; [|by apply shapes_users|lia].
  constructor; rewrite ?HL, ?(users_calls _ Hus), ?Hnx; try done.
  - pose proof (wf_pos t Hwf). lia.
  - rewrite compact_unfold. cbn [t_rows]. rewrite reseq_moved by exact Hqn. rewrite map_map.
    erewrite map_ext; [exact Hnd|]. intros m. apply moved_id.
  - rewrite compact_unfold. cbn [t_rows]. rewrite reseq_moved by exact Hqn. apply List.Forall_map.
    apply Forall_forall. intros m Hm. rewrite moved_id.
    assert (ID m ∈ map ID (spanRows reply result span t)) as Hi by (apply list_elem_of_In, in_map, list_elem_of_In, Hm).
    rewrite span_ids in Hi. apply elem_of_app in Hi as [Hi|Hi].
    + apply (old_ids t Hwf) in Hi. lia.
    + unfold resultID in *. destruct reply; set_unfold; naive_solver lia.
  - unfold compacted. apply Forall_app. split; [|constructor].
    + apply Forall_forall. intros m Hm. apply list_elem_of_filter in Hm as [_ Hm].
      apply (kept_elem reply result span t Hwf) in Hm as (_ & _ & Hk). eapply Qlt_trans; [exact Hk|]. rewrite <- Zlt_Qlt. lia.
    + unfold assemblyKey, resultRow. cbn. rewrite Hs, <- Zlt_Qlt. lia.
    + apply List.Forall_map, Forall_forall. intros m Hm. apply list_elem_of_filter in Hm as [Hdm Hm].
      by apply (requeue_key reply result span t Hwf m Hm Hdm).
  - eapply Forall_impl; [exact Hall|]. done.
  - constructor.
Qed.

End AgentAssert.

(** * Triples for the loop's programs

    [triple P p Q]: from a well-formed transcript in [P], every execution of
    [p] among the writes of [R] sends only legal requests, leaves a recoverable
    transcript at every instant and ends in [Q].  [R] is all the world's writes
    for the loop, and none for a repair in isolation. *)

Import AgentProg AgentAssert.

Module AgentHoare.

Definition callNames (c : Completion) : list bytes := map (fun x => tc_id x.1) (c_calls c).

(** The provider names each call it makes, and never twice. *)
Definition answers (a : attempt) (t : table) : Prop :=
  match a with
  | AttemptOk c => NoDup (callNames c) /\ Forall (fun id => id <> []) (callNames c) /\ Fresh (callNames c) t
  | AttemptErr _ _ => True
  end.

Definition callOK (rows : list Message) : Prop := legal (map shapeOf (requestRows rows)) = true.

Definition inv (t : table) : Prop := wf t /\ Recoverable t.

Section Rules.

Context (R : table -> table -> Prop) (HR : forall t u, R t u -> rely t u).

(** An assertion the writes of [R] keep, and that a crash can leave. *)
Record good (P : table -> Prop) : Prop := MkGood {
  good_stable : forall t u, R t u -> wf t -> P t -> P u;
  good_recoverable : forall t, P t -> Recoverable t
}.

Lemma good_intro P : stable P -> (forall t, P t -> Recoverable t) -> good P.
Proof. intros H1 H2. constructor; [|done]. intros t u Hr Hwf. apply H1. by apply (rely_evolve t u (HR _ _ Hr)). Qed.

Lemma good_rtc P t u : good P -> rtc R t u -> wf t -> P t -> inv u /\ wf u /\ P u.
Proof.
  intros HP. induction 1 as [t|t v u Hr _ IH]; intros Hwf Ht.
  - split_and!; [split|..]; try done. by apply HP.
  - apply IH; [by apply (rely_evolve t v (HR _ _ Hr))|by eapply HP].
Qed.

Definition triple {A} (P : table -> Prop) (p : prog A) (Q : A -> table -> Prop) : Prop :=
  forall t, wf t -> P t -> wp R answers callOK inv p (fun a u => wf u /\ Q a u) t.

(** Wait for the world, then act. *)
Ltac enter HP :=
  let t := fresh "t" in let Hwf := fresh "Hwf" in let Ht := fresh "Ht" in let Hr := fresh "Hr" in
  intros t Hwf Ht u Hr; destruct (good_rtc _ t u HP Hr Hwf Ht) as (Hi & Hu & HPu).

Lemma triple_bind {A B} P (p : prog A) Q (f : A -> prog B) S :
  triple P p Q -> (forall a, triple (Q a) (f a) S) -> triple P (pbind p f) S.
Proof.
  intros Hp Hf t Hwf Ht. apply wp_bind. eapply wp_mono; [|by apply Hp]. intros a u [Hu Ha]. by apply Hf.
Qed.

Lemma triple_weaken {A} P P' (p : prog A) Q Q' : (forall t, wf t -> P' t -> P t) -> (forall a u, wf u -> Q a u -> Q' a u) ->
  triple P p Q -> triple P' p Q'.
Proof.
  intros HP HQ Hp t Hwf Ht. eapply wp_mono; [|apply Hp; [done|by apply HP]]. intros a u [Hu Ha]. split; [done|by apply HQ].
Qed.

Lemma triple_ret {A} P (a : A) Q : good P -> (forall t, wf t -> P t -> Q a t) -> triple P (Ret a) Q.
Proof. intros HP HQ. enter HP. eauto. Qed.

Lemma triple_list {A} P (k : option (list Message) -> prog A) Q : good P ->
  (forall u, wf u -> P u -> wp R answers callOK inv (k (Some (ListForAssembly u))) (fun a u => wf u /\ Q a u) u) ->
  triple P (k None) Q -> triple P (PList k) Q.
Proof.
  intros HP H1 H2. enter HP. split; [done|]. split; [by apply H1|by apply H2].
Qed.

(** A write that lands moves from [P] to [P1]; one that fails stays in [P]. *)
Lemma triple_insert {A} P P1 m (k : option Z -> prog A) Q : good P ->
  (forall u, wf u -> P u -> wf (Insert m u) /\ P1 (t_next u) (Insert m u)) ->
  (forall id, triple (P1 id) (k (Some id)) Q) -> triple P (k None) Q -> triple P (PInsert m k) Q.
Proof.
  intros HP HI H1 H2. enter HP. split; [done|].
  destruct (HI u Hu HPu). split; [by apply H1|by apply H2].
Qed.

(** Reads and waits keep [P]. *)
Lemma triple_mark {A} P ids st (k : option unit -> prog A) Q : good P ->
  (forall u, wf u -> P u -> P (MarkDelivered ids st u)) -> (forall r, triple P (k r) Q) -> triple P (PMark ids st k) Q.
Proof.
  intros HP HM H. enter HP. split; [done|].
  split; apply H; [|by apply HM|..]; try done. by apply (mark_same ids st u).
Qed.

Lemma triple_settle {A} P id us r (k : option unit -> prog A) Q : good P ->
  (forall u, wf u -> P u -> P (SettleCompactionRequest id us r u)) -> (forall r, triple P (k r) Q) -> triple P (PSettle id us r k) Q.
Proof.
  intros HP HM H. enter HP. split; [done|].
  split; apply H; [|by apply HM|..]; try done. by apply (settle_same id us r u).
Qed.

Lemma triple_compact {A} P P1 reply result ids (k : option unit -> prog A) Q : good P ->
  (forall u, wf u -> P u -> wf (Compact reply result ids u) /\ P1 (Compact reply result ids u)) ->
  triple P1 (k (Some tt)) Q -> triple P (k None) Q -> triple P (PCompact reply result ids k) Q.
Proof.
  intros HP HI H1 H2. enter HP. split; [done|].
  destruct (HI u Hu HPu). split; [by apply H1|by apply H2].
Qed.

Lemma triple_stream {A} P kind rows (k : attempt -> prog A) Q : good P -> callOK rows ->
  (forall a, triple (fun t => P t /\ answers a t) (k a) Q) -> triple P (PStream kind rows k) Q.
Proof.
  intros HP HC H. enter HP. split; [done|].
  split; [done|]. intros a Ha. by apply H.
Qed.

Lemma triple_ask {A} P q (k : reply q -> prog A) Q : good P -> (forall a, triple P (k a) Q) -> triple P (PAsk q k) Q.
Proof.
  intros HP H. enter HP. split; [done|]. intros a. by apply H.
Qed.

(** ** The assertions are good *)

Lemma good_legal : good Legal.
Proof. apply good_intro; [apply Legal_stable|apply Legal_recoverable]. Qed.
Lemma good_recoverable_ : good Recoverable.
Proof. apply good_intro; [apply Recoverable_stable|done]. Qed.
Lemma good_open owner ids i : good (Open owner ids i).
Proof. apply good_intro; [apply Open_stable|apply Open_recoverable]. Qed.
Lemma good_and P S : good P -> stable S -> good (fun t => P t /\ S t).
Proof.
  intros HP HS. constructor.
  - intros t u Hr Hwf [? ?]. split; [by eapply HP|]. eapply HS; [|done]. by apply (rely_evolve t u (HR _ _ Hr)).
  - intros t [? _]. by apply HP.
Qed.

End Rules.

#[export] Hint Resolve good_legal good_recoverable_ good_open good_and : agent.

(** ** Tactics *)

Ltac good := eauto 6 with agent.

(** The rules' [R], from the context. *)
Ltac with_rely tac := match goal with HR : forall t u, ?R t u -> rely t u |- _ => tac R HR end.

Ltac ask := with_rely ltac:(fun R HR => refine (triple_ask R HR _ _ _ _ _ _); [good|intros ?; cbn [pbind]]).
Ltac done_ := with_rely ltac:(fun R HR => refine (triple_ret R HR _ _ _ _ _); [good|intros ? ? ?; cbn; try solve [done|by apply Legal_recoverable]]).
Ltac listing := with_rely ltac:(fun R HR => refine (triple_list R HR _ _ _ _ _ _); [good| |]).

(** Back from a point of an execution to a triple. *)
Ltac restart P Q := match goal with Hu : wf ?u |- wp ?R _ _ _ ?p _ ?u => refine ((_ : triple R P p Q) u Hu _); [|try done] end.

End AgentHoare.
