(* ===== verification/AgentSafe.v ===== *)
(** * The loop keeps the transcript legal

    A triple per function of the agent loop: from a legal transcript, with the
    world writing in between, each sends only legal requests and ends legal
    when it succeeds; where it fails it leaves a recoverable one. *)

From S2P Require Import Prelude GoBytes AgentRow AgentWindow AgentProg AgentLoop AgentEngine AgentInv AgentCompact AgentAssert.
Import AgentRow AgentWindow AgentProg AgentLoop AgentEngine AgentInv AgentStable AgentAssert AgentHoare.

Module AgentSafe.

Section Safe.

Context (R : table -> table -> Prop) (HR : forall t u, R t u -> rely t u).
Context (T : Texts) (params : Params).

Notation triple := (triple R).

(** ** Single rows *)

Lemma positions_in owner n i : 0 < owner -> (i < n)%nat ->
  toolResultPositions owner n i = Some (inject_Z owner + fraction i n)%Q.
Proof.
  intros Ho Hi. unfold toolResultPositions. rewrite (proj2 (Z.leb_gt owner 0)) by lia.
  rewrite (proj2 (Nat.leb_gt n 0)) by lia. by rewrite (proj2 (Nat.leb_gt n i)).
Qed.

(** Success moves on, failure stays. *)
Definition ifSome {A} (P S : table -> Prop) (r : option A) : table -> Prop := match r with Some _ => P | None => S end.

Lemma insertToolResult_safe owner ids i call content err images : ids !! i = Some (tc_id call) ->
  triple (Open owner ids i) (insertToolResult call content err (toolResultPositions owner (length ids) i) images)
    (ifSome (Open owner ids (S i)) (Open owner ids i)).
Proof.
  intros Hi t Hwf Ht.
  assert (0 < owner) as Ho by apply Ht. unfold insertToolResult. rewrite positions_in; [|done|by eapply lookup_lt_Some].
  restart (Open owner ids i) (ifSome (A := Q) (Open owner ids (S i)) (Open owner ids i)). cbn [pbind].
  eapply (triple_insert R HR _ (fun _ => Open owner ids (S i))); [good| | |].
  - intros u Hu HP. by eapply result_answers.
  - intros id. done_.
  - done_.
Qed.

(** ** Batches *)

Definition ifTrue (P S : table -> Prop) (b : bool) : table -> Prop := if b then P else S.

Lemma open_next (ids : list bytes) i call calls : drop i ids = map tc_id (call :: calls) ->
  ids !! i = Some (tc_id call) /\ drop (S i) ids = map tc_id calls.
Proof.
  intros H. split.
  - rewrite <- (Nat.add_0_r i), <- lookup_drop, H. done.
  - by rewrite <- Nat.add_1_r, <- drop_drop, H.
Qed.

Lemma open_end owner ids i t : drop i ids = [] -> (i <= length ids)%nat -> Open owner ids i t -> Legal t.
Proof.
  intros H Hi Ht. apply (f_equal length) in H. rewrite length_drop in H. cbn in H.
  replace i with (length ids) in Ht by lia. by eapply Open_full.
Qed.

Lemma lookup_le (ids : list bytes) i x : ids !! i = Some x -> (S i <= length ids)%nat.
Proof. intros H. apply lookup_lt_Some in H. lia. Qed.

Lemma answerFrom_safe owner ids notice calls : forall i, drop i ids = map tc_id calls -> (i <= length ids)%nat ->
  triple (Open owner ids i) (answerFrom owner (length ids) i calls notice) (ifTrue Legal Recoverable).
Proof.
  induction calls as [|c calls IH]; intros i Hd Hi; cbn [answerFrom].
  - done_. by eapply open_end.
  - destruct (open_next ids i c calls Hd) as [Hl Hd'].
    eapply triple_bind; [by apply insertToolResult_safe|]. intros [q|].
    + apply IH; [done|by eapply lookup_le].
    + done_. by eapply Open_recoverable.
Qed.

Lemma answerLost_safe owner ids calls : forall i first rest, drop i ids = map tc_id calls -> (i <= length ids)%nat ->
  triple (Open owner ids i) (answerLost owner (length ids) i calls first rest) (ifTrue Legal Recoverable).
Proof.
  induction calls as [|c calls IH]; intros i first rest Hd Hi; cbn [answerLost].
  - done_. by eapply open_end.
  - destruct (open_next ids i c calls Hd) as [Hl Hd'].
    eapply triple_bind; [by apply insertToolResult_safe|]. intros [q|].
    + apply IH; [done|by eapply lookup_le].
    + done_. by eapply Open_recoverable.
Qed.

Definition batchPost (b : batchEnd) : table -> Prop := match b with BatchStopped => Recoverable | _ => Legal end.

Lemma dispatchFrom_safe owner ids calls : forall i terminal deaths, drop i ids = map tc_id calls -> (i <= length ids)%nat ->
  triple (Open owner ids i) (dispatchFrom T params owner (length ids) i calls terminal deaths) batchPost.
Proof.
  induction calls as [|c calls IH]; intros i terminal deaths Hd Hi; cbn [dispatchFrom].
  - destruct terminal as [[[? ?] ?]|]; done_; by eapply open_end.
  - destruct (open_next ids i c calls Hd) as [Hl Hd'].
    assert (forall content err images terminal deaths, triple (Open owner ids i)
      (pbind (insertToolResult c content err (toolResultPositions owner (length ids) i) images)
        (fun r => match r with Some _ => dispatchFrom T params owner (length ids) (S i) calls terminal deaths | None => Ret BatchStopped end))
      batchPost) as Hins.
    { intros. eapply triple_bind; [by apply insertToolResult_safe|]. intros [q|].
      - apply IH; [done|by eapply lookup_le].
      - done_. by eapply Open_recoverable. }
    assert (triple (Open owner ids i) (Ret BatchStopped) batchPost) as Hstop by (done_; by eapply Open_recoverable).
    ask. destruct a; [done|]. ask. destruct a as [out|]; [apply Hins|].
    ask. destruct (negb _); [apply Hins|]. ask. destruct a0 as [text|content images|notice]; [apply Hins..|].
    ask. destruct a0; [done|]. eapply (triple_bind R _ _ (fun _ => Open owner ids i)).
    + unfold restartToolHost. destruct (negb _); [by done_|]. destruct (_ <=? _); [by done_|]. ask. by done_.
    + intros [ok d]. ask. destruct a0; [done|]. eapply triple_bind; [by apply answerLost_safe|].
      intros [|]; cbn [negb fst snd]; [destruct ok|]; by done_.
Qed.

Lemma dispatchBatch_safe owner calls deaths :
  triple (Open owner (map tc_id calls) 0) (dispatchBatch T params owner calls deaths) batchPost.
Proof. unfold dispatchBatch. rewrite <- (length_map tc_id calls). apply dispatchFrom_safe; [done|lia]. Qed.

Lemma answerUndispatched_safe owner calls notice :
  triple (Open owner (map tc_id calls) 0) (answerUndispatchedCalls owner calls notice) (ifTrue Legal Recoverable).
Proof. unfold answerUndispatchedCalls. rewrite <- (length_map tc_id calls). apply answerFrom_safe; [done|lia]. Qed.

(** ** User rows *)

Lemma userRow_speaks st c delivered : speaks (userRow st c None delivered).
Proof. done. Qed.

(** A tail row keeps every assertion the world keeps. *)
Lemma say_good P st c delivered t : stable P -> wf t -> P t ->
  wf (Insert (userRow st c None delivered) t) /\ P (Insert (userRow st c None delivered) t).
Proof. intros HP Hwf Ht. by apply (stable_rely P t); [|apply rtc_once; constructor|..]. Qed.

Lemma insertNotice_safe content : triple Recoverable (insertNotice content) (fun _ => Recoverable).
Proof.
  unfold insertNotice. cbn [pbind]. refine (triple_insert R HR _ (fun _ => Recoverable) _ _ _ _ _ _ _); [good| |by intros; done_|by done_].
  intros u Hu HP. apply say_good; [good|done|done].
Qed.

Lemma insertDelivered_safe content st : triple Legal (insertDelivered content st) (fun _ => Legal).
Proof.
  unfold insertDelivered. cbn [pbind]. refine (triple_insert R HR _ (fun _ => Legal) _ _ _ _ _ _ _); [good| |by intros; done_|by done_].
  intros u Hu HP. apply say_good; [good|done|done].
Qed.

(** A note above waiting input goes into a gap. *)
Lemma aboveWaiting_gap t l : forall before q, ListForAssembly t = before ++ l -> wf t -> Legal t ->
  aboveWaiting (last before) l = Some q -> Gap q t.
Proof.
  induction l as [|r l IH]; intros before q HL Hwf Hl Hq; [done|]. cbn [aboveWaiting] in Hq.
  destruct (_ || _) eqn:E.
  - apply (IH (before ++ [r]) q); [by rewrite <- app_assoc|done|done|by rewrite last_snoc].
  - apply orb_false_iff in E as [E _]. apply orb_false_iff in E as [E _]. apply negb_false_iff, bool_decide_eq_true in E.
    pose proof (wf_strict t Hwf) as Hs. pose proof (wf_keys t Hwf) as Hk. rewrite HL in Hs, Hk.
    apply StronglySorted_app in Hs as (H12 & Hs1 & Hs2). inversion_clear Hs2 as [|? ? Hs3 Hr].
    apply Forall_app in Hk as [_ Hk]. apply Forall_cons in Hk as [Hk _].
    injection Hq as <-. set (lo := match last before with Some p => assemblyKey p | None => (assemblyKey r - 1)%Q end).
    assert (lo < assemblyKey r)%Q as Hlo.
    { subst lo. destruct (last before) as [p|] eqn:Ep; [|lra]. apply last_Some_elem_of in Ep. apply H12; [done|left]. }
    destruct (half_between _ _ Hlo) as [Ha Hb].
    split; [lra|]. exists (map cellOf before), (map cellOf (r :: l)). unfold Legal, view in Hl. rewrite HL, map_app in Hl.
    assert (shapes (map cellOf (r :: l)) = SUser :: shapes (map cellOf l)) as Hsh by (cbn; unfold shapeOf; by rewrite E).
    rewrite shapes_app, Hsh in Hl. apply legal_split_user in Hl as [L1 L2].
    split_and!; [unfold view; by rewrite HL, map_app| | |done|].
    + apply List.Forall_map, Forall_forall. intros x Hx. cbn [c_key cellOf]. eapply Qle_lt_trans; [|exact Ha]. subst lo.
      destruct (last before) as [p|] eqn:Ep.
      * apply last_Some in Ep as [l' ->]. apply StronglySorted_app in Hs1 as (Hx1 & _). apply elem_of_app in Hx as [Hx|Hx].
        -- specialize (Hx1 x p Hx ltac:(left)). unfold klt in Hx1. lra.
        -- apply list_elem_of_singleton in Hx as ->. lra.
      * apply last_None in Ep as ->. by apply elem_of_nil in Hx.
    + cbn [map]. constructor; [done|]. apply List.Forall_map. eapply Forall_impl; [exact Hr|]. intros x Hx. unfold klt in Hx. cbn. lra.
    + by rewrite Hsh.
Qed.

Lemma insertPending_safe content st : triple Legal (insertPending content st) (fun _ => Legal).
Proof.
  unfold insertPending. cbn [pbind]. listing; [|by done_].
  intros u Hu Hl. cbn [pbind]. destruct (aboveWaitingInput (ListForAssembly u)) as [q|] eqn:E.
  - assert (Gap q u /\ Legal u) as HG.
    { split; [|done]. unfold aboveWaitingInput in E. rewrite sort_strict in E by apply Hu. exact (aboveWaiting_gap u (ListForAssembly u) [] q eq_refl Hu Hl E). }
    restart (fun t => Gap q t /\ Legal t) (fun (_ : bool) => Legal). clear u Hu Hl E HG.
    refine (triple_insert R HR _ (fun _ => Legal) _ _ _ _ _ _ _); [|intros u Hu [HG _]; by eapply gap_legal|intros; by done_|].
    + apply good_intro; [done|apply stable_and; good|intros t [_ Ht]; by left].
    + refine (triple_ret R HR _ _ _ _ _); [|by intros t ? []]. apply good_intro; [done|apply stable_and; good|intros t [_ Ht]; by left].
  - restart Legal (fun (_ : bool) => Legal). clear u Hu Hl E.
    refine (triple_insert R HR _ (fun _ => Legal) _ _ _ _ _ _ _); [good| |by intros; done_|by done_].
    intros u Hu HP. apply say_good; [good|done|done].
Qed.

Lemma failed_safe : triple Recoverable failed (fun _ => Recoverable).
Proof. unfold failed. ask. by done_. Qed.

Lemma drain_safe bare : triple Legal (drain bare) (fun _ => Legal).
Proof.
  assert (forall ids st (k : option unit -> prog bool), (forall r, triple Legal (k r) (fun _ => Legal)) -> triple Legal (PMark ids st k) (fun _ => Legal)) as Hm.
  { intros ids st k Hk. refine (triple_mark R HR _ _ _ _ _ _ _ _); [good| |done].
    intros u Hu Hl. unfold Legal. by rewrite (proj2 (mark_same ids st u Hu)). }
  unfold drain. cbn [pbind]. listing; [|by done_].
  intros u Hu Hl. cbn [pbind]. destruct (pendingInOrder _) as [|p ps]; [restart Legal (fun (_ : bool) => Legal); by done_|].
  restart Legal (fun (_ : bool) => Legal).
  destruct bare; [apply Hm; intros; by done_|].
  destruct (filter (fun m => IsHumanInput m = false) _); destruct (filter (fun m => IsHumanInput m = true) _); cbn [pbind];
    repeat (first [by done_|apply Hm; intros [[]|]; cbn [pbind]]).
Qed.

Lemma hasPending_safe : triple Legal hasPending (fun _ => Legal).
Proof.
  unfold hasPending. cbn [pbind]. listing; [|by done_].
  intros u Hu Hl. restart Legal (fun (_ : option bool) => Legal). by done_.
Qed.

End Safe.

End AgentSafe.
