(* ===== verification/AgentTurn.v ===== *)
(** * Provider calls, compaction and turns keep the transcript legal *)

From S2P Require Import Prelude GoBytes AgentRow AgentWindow AgentProg AgentLoop AgentEngine AgentInv AgentCompact AgentAssert AgentSafe.
Import AgentRow AgentWindow AgentProg AgentLoop AgentEngine AgentInv AgentStable AgentAssert AgentHoare AgentSafe.

Module AgentTurn.

(** ** Store facts *)

Lemma answers_stable a : stable (answers a).
Proof. destruct a; [|done]. intros t u He (H1 & H2 & H3). split_and!; [done|done|by eapply Fresh_stable]. Qed.
#[export] Hint Resolve answers_stable : agent.

Lemma span_insert m t span : SpanOK span t -> SpanOK (span ++ [t_next t]) (Insert m t).
Proof.
  intros Hs. apply List.Forall_map, Forall_forall. intros x Hx. apply window_elem in Hx as [Hx Hw]. cbn in Hx.
  apply elem_of_app in Hx as [Hx|Hx].
  - assert (x ∈ ListForAssembly t) as Hin by by apply window_elem.
    destruct (proj1 (Forall_forall _ _) (proj1 (List.Forall_map _ _ _) Hs) x Hin) as [?|?]; [by left|right; set_solver].
  - apply list_elem_of_singleton in Hx as ->. right. cbn. set_solver.
Qed.

Lemma span_mono span span' t : span ⊆ span' -> SpanOK span t -> SpanOK span' t.
Proof. intros Hs H. eapply Forall_impl; [exact H|]. intros c [?|?]; [by left|right; by apply Hs]. Qed.

Lemma span_all t : SpanOK (map c_id (view t)) t.
Proof. apply Forall_forall. intros c Hc. right. apply list_elem_of_In, in_map, list_elem_of_In, Hc. Qed.

(** The compaction span covers every row that is not a user's. *)
Lemma compactionSpan_ok t : wf t -> SpanOK (compactionSpan (ListForAssembly t)) t.
Proof.
  intros Hwf. apply List.Forall_map, Forall_forall. intros m Hm.
  destruct (Delivered m) eqn:E.
  - right. apply list_elem_of_In, (in_map ID), list_elem_of_In, list_elem_of_filter. done.
  - left. pose proof (proj1 (Forall_forall _ _) (wf_pending t Hwf) m Hm E) as Hr. unfold isUser. cbn. unfold shapeOf. by rewrite Hr.
Qed.

Lemma compactionSpan_lt t : wf t -> Forall (fun i => i < t_next t) (compactionSpan (ListForAssembly t)).
Proof.
  intros Hwf. apply List.Forall_map, Forall_forall. intros m Hm. apply list_elem_of_filter in Hm as [_ Hm].
  apply window_elem in Hm as [Hm _]. exact (proj1 (Forall_forall _ _) (wf_next t Hwf) m Hm).
Qed.

(** The summarize request: the listed rows and the ask behind them. *)
Lemma request_snoc t u x : wf t -> Legal t -> t_next t <= u -> assemblyKey x = inject_Z u -> Role x = RoleUser ->
  Delivered x = true -> inWindow x = true -> callOK (ListForAssembly t ++ [x]).
Proof.
  intros Hwf Hl Hu Hk Hr Hd Hw. unfold callOK, requestRows. rewrite sort_strict.
  - rewrite filter_app, filter_cons, filter_nil. rewrite decide_True by by rewrite Hd, Hw.
    rewrite map_app. apply owes_app.
    + pose proof (request_legal t Hwf Hl) as H. unfold requestRows in H. by rewrite sort_strict in H by apply Hwf.
    + cbn. unfold shapeOf. by rewrite Hr.
  - apply strict_last; [apply Hwf|]. eapply Forall_impl; [apply (wf_keys t Hwf)|]. intros m Hm. unfold klt. rewrite Hk.
    eapply Qlt_le_trans; [exact Hm|]. by rewrite <- Zle_Qle.
Qed.

(** A persisted turn: legal when it made no calls, its batch open otherwise. *)
Definition Turn (row : Message) (t : table) : Prop :=
  match ToolCalls row with [] => Legal t | calls => Open (ID row) (map tc_id calls) 0 t end.

Lemma Turn_stable row : stable (Turn row).
Proof. intros t u He. unfold Turn. destruct (ToolCalls row); intros H; [by eapply Legal_stable|by eapply Open_stable]. Qed.

Lemma Turn_recoverable row t : Turn row t -> Recoverable t.
Proof. unfold Turn. destruct (ToolCalls row); [apply Legal_recoverable|apply Open_recoverable]. Qed.

Lemma Open_turn row t : Open (ID row) (map tc_id (ToolCalls row)) 0 t -> Turn row t.
Proof. unfold Turn. destruct (ToolCalls row) eqn:E; [apply (Open_full (ID row) [])|done]. Qed.

#[export] Hint Resolve Turn_stable : agent.

Section Turns.

Context (R : table -> table -> Prop) (HR : forall t u, R t u -> rely t u).
Context (T : Texts) (params : Params).

Notation triple := (triple R).

Lemma good_turn row : good R (Turn row).
Proof. apply good_intro; [done|apply Turn_stable|apply Turn_recoverable]. Qed.

(** ** Provider calls *)

Definition streamPost (P : table -> Prop) (r : streamResult) (t : table) : Prop :=
  match r with SOk c => P t /\ answers (AttemptOk c) t | SFail _ _ => P t end.

Lemma streamLoop_safe P kind rows : good R P -> callOK rows -> forall n delay,
  triple P (streamLoop params n delay kind rows) (streamPost P).
Proof.
  intros HP Hc. induction n as [|n IH]; intros delay; cbn [streamLoop pbind];
    refine (triple_stream R HR _ _ _ _ _ HP Hc _); intros [c|class overflow]; cbn [pbind];
    try (refine (triple_ret R HR _ _ _ _ _); [apply good_and; good|by intros]);
    apply (triple_weaken R P _ _ (streamPost P) _); [by intros ? ? []|done|..|by intros ? ? []|done|];
    ask; (destruct a; [by done_|]; destruct (bool_decide _); [by done_|]); [by done_|].
  ask. destruct a; [apply IH|by done_].
Qed.

Lemma stream_safe P kind rows : good R P -> callOK rows -> triple P (streamWithRetry params kind rows) (streamPost P).
Proof. intros HP Hc. by apply streamLoop_safe. Qed.

(** ** Persisting a turn *)

Definition persistPre (span : list Z) (n : Z) (c : Completion) (t : table) : Prop :=
  Legal t /\ (answers (AttemptOk c) t /\ (SpanOK span t /\ Next n t)).
Definition persistPost (span : list Z) (n : Z) (c : Completion) (r : option Message) (t : table) : Prop :=
  match r with
  | None => Recoverable t
  | Some row => Turn row t /\ (SpanOK (span ++ [ID row]) t /\ Next (ID row + 1) t) /\ n <= ID row /\ ToolCalls row = map fst (c_calls c)
  end.

Lemma persist_insert m c span n u : wf u -> persistPre span n c u ->
  Role m = RoleAssistant -> Seq m = None -> Delivered m = true -> ToolCalls m = map fst (c_calls c) ->
  (inWindow m = false -> ToolCalls m = []) ->
  wf (Insert m u) /\ persistPost span n c (Some (setID (t_next u) m)) (Insert m u).
Proof.
  intros Hwf (Hl & (Hnd & Hne & Hf) & Hs & Hx) Hr Hq Hd Hc Hw.
  assert (map tc_id (ToolCalls m) = callNames c) as Hn by (rewrite Hc, map_map; done).
  assert (wf (Insert m u) /\ Turn (setID (t_next u) m) (Insert m u)) as [Hwf' Ht].
  { destruct (inWindow m) eqn:E.
    - destruct (assistant_opens m u Hwf Hl Hr Hq Hd E) as [Hwf' Ho]; rewrite ?Hn; try done. split; [done|].
      apply Open_turn. exact Ho.
    - destruct (insert_hidden m u Hwf E) as [Hwf' Hv]. split; [done|]. unfold Turn. cbn. rewrite (Hw eq_refl). unfold Legal. by rewrite Hv. }
  split; [done|]. split_and!; [done|by apply span_insert|unfold Next; cbn; lia|done|done].
Qed.

Lemma persist_safe c span n : triple (persistPre span n c) (persistAssistant c) (persistPost span n c).
Proof.
  assert (good R (persistPre span n c)) as HG by (apply good_and; [done|good|stab]).
  unfold persistAssistant. destruct (MessageToRow c) as [row|] eqn:E.
  2: { refine (triple_ret R HR _ _ _ HG _). intros t _ [Ht _]. by left. }
  unfold MessageToRow in E. destruct (c_roleOK c && _); [|done]. injection E as <-.
  cbn [pbind]. refine (triple_ask R HR _ _ _ _ HG _). intros now. cbn [pbind].
  match goal with |- AgentHoare.triple _ _ (PInsert ?m _) _ => set (row := m) end.
  assert (Role row = RoleAssistant /\ Seq row = None /\ Delivered row = true /\ ToolCalls row = map fst (c_calls c)
    /\ (inWindow row = false -> ToolCalls row = [])) as (H1 & H2 & H3 & H4 & H5).
  { subst row. destruct (unreplayableTurn _) eqn:Eu; cbn; split_and!; try done. intros _.
    unfold unreplayableTurn in Eu. apply andb_true_iff in Eu as [Eu _]. apply andb_true_iff in Eu as [_ Eu].
    by apply bool_decide_eq_true in Eu. }
  refine (triple_insert R HR _ (fun id t => persistPost span n c (Some (setID id row)) t) _ _ _ HG _ _ _).
  - intros u Hu Hpre. by apply persist_insert.
  - intros id. refine (triple_ret R HR _ _ _ _ _); [|done].
    apply good_intro; [done| |intros t [Ht _]; by eapply Turn_recoverable].
    stab.
  - refine (triple_ret R HR _ _ _ HG _). intros t _ [Ht _]. by left.
Qed.

(** ** Compaction *)

Definition okPost (r : res bool unit) : table -> Prop := match r with Ok _ => Legal | Err _ => Recoverable end.

Lemma good_span span n : good R (fun t => Legal t /\ (SpanOK span t /\ Next n t)).
Proof. apply good_and; [done|good|stab]. Qed.

Lemma commit_safe reply summary span n : Forall (fun i => i < n) span ->
  triple (fun t => Legal t /\ (SpanOK span t /\ Next n t)) (commitCompaction T reply summary span) okPost.
Proof.
  intros Hn. unfold commitCompaction. cbn [pbind]. refine (triple_compact R HR _ Legal _ _ _ _ _ (good_span span n) _ _ _).
  - intros u Hu (_ & Hs & Hx). unfold Next in Hx.
    edestruct (compact_legal reply (composeResultRow T summary) span u) as (? & ? & _); try done.
    eapply Forall_impl; [exact Hn|]. cbn. lia.
  - by done_.
  - refine (triple_ret R HR _ _ _ (good_span span n) _). intros t _ [Ht _]. by left.
Qed.

Lemma legal_err A (P : table -> Prop) (b : bool) : (forall t, P t -> Legal t) -> good R P ->
  triple P (Ret (Err b : res bool A)) (fun r => match r with Ok _ => Legal | Err _ => Recoverable end).
Proof. intros HP HG. refine (triple_ret R HR _ _ _ HG _). intros t _ Ht. left. by apply HP. Qed.

Lemma cold_safe : triple Legal (compactCold T params) okPost.
Proof.
  unfold compactCold. cbn [pbind]. listing; [|apply (legal_err unit); [done|good]].
  intros u Hu Hl. cbn [pbind]. set (span := compactionSpan (ListForAssembly u)).
  pose proof (request_legal u Hu Hl) as Hreq. pose proof (compactionSpan_lt u Hu) as Hlt. fold span in Hlt.
  assert (Legal u /\ (SpanOK span u /\ Next (t_next u) u)) as HP by (split_and!; [done|by apply compactionSpan_ok|unfold Next; lia]).
  set (n := t_next u) in *. set (rows := ListForAssembly u) in *. clearbody n rows span.
  pose proof (good_span span n) as HG.
  restart (fun t => Legal t /\ (SpanOK span t /\ Next n t)) okPost. clear u Hu Hl HP.
  refine (triple_ask R HR _ _ _ _ HG _). intros cred. cbn [pbind]. destruct (negb cred); [apply (legal_err unit); [by intros ? []|done]|].
  eapply triple_bind; [by apply stream_safe|]. intros [c|overflow unavailable].
  - eapply triple_weaken; [intros t _ [Ht _]; exact Ht|done|].
    destruct (parseForcedCompaction c) as [[analysis summary]|]; [|apply (legal_err unit); [by intros ? []|done]].
    by apply commit_safe.
  - apply (legal_err unit); [by intros ? []|done].
Qed.

(** The warm attempt over the rows [rows] and its request [req]. *)
Definition warmCall (reqID : Z) (rows : list Message) : prog (res bool unit) :=
  pbind PCredentials (fun cred =>
    if negb cred then Ret (Err false)
    else pbind (streamWithRetry params Warm rows) (fun s =>
      match s with
      | SFail true _ => compactCold T params
      | SFail false unavailable => Ret (Err unavailable)
      | SOk c =>
          match judgeWarmReply c with
          | Err reason =>
              pbind (PSettle reqID (stampUsage (c_usage c)) reason Ret) (fun ok =>
                match ok with None => Ret (Err false) | Some _ => compactCold T params end)
          | Ok summary =>
              pbind (persistAssistant c) (fun reply =>
                match reply with
                | None => Ret (Err false)
                | Some reply => commitCompaction T None summary (compactionSpan rows ++ [ID reply])
                end)
          end
      end)).

Lemma judge_nocalls c summary : judgeWarmReply c = Ok summary -> c_calls c = [].
Proof.
  unfold judgeWarmReply, MessageToRow. destruct (c_roleOK c && _); [|done]. cbn [ToolCalls]. by destruct (c_calls c).
Qed.

Lemma warmCall_safe reqID rows n : callOK rows -> Forall (fun i => i < n) (compactionSpan rows) ->
  triple (fun t => Legal t /\ (SpanOK (compactionSpan rows) t /\ Next n t)) (warmCall reqID rows) okPost.
Proof.
  intros Hc Hn. set (span := compactionSpan rows) in *. pose proof (good_span span n) as HG. unfold warmCall. cbn [pbind].
  refine (triple_ask R HR _ _ _ _ HG _). intros cred. cbn [pbind]. destruct (negb cred); [apply (legal_err unit); [by intros ? []|done]|].
  eapply triple_bind; [by apply stream_safe|]. intros [c|[|] unavailable]; cbn [streamPost].
  - destruct (judgeWarmReply c) as [summary|reason] eqn:Ej.
    + pose proof (judge_nocalls c summary Ej) as Hnc.
      eapply triple_bind; [eapply triple_weaken; [|done|apply (persist_safe c span n)]; by intros t _ [(? & ? & ?) ?]|].
      intros [reply|]; cbn [persistPost]; [|by done_].
      intros t Hwf (Ht & Hs & Hle & Hcalls). unfold Turn in Ht. rewrite Hcalls, Hnc in Ht.
      apply (commit_safe None summary (span ++ [ID reply]) (ID reply + 1)); [|done|done].
      apply Forall_app. split; [|repeat constructor; lia]. eapply Forall_impl; [exact Hn|]. cbn. lia.
    + eapply triple_weaken; [by intros t _ [[? _] _]|done|]. cbn [pbind].
      refine (triple_settle R HR Legal _ _ _ _ _ _ _ _); [good| |].
      * intros u Hu Hl. unfold Legal. by rewrite (proj2 (settle_same reqID (stampUsage (c_usage c)) reason u Hu)).
      * intros [[]|]; cbn [pbind]; [apply cold_safe|apply (legal_err unit); [done|good]].
  - eapply triple_weaken; [|done|apply cold_safe]. by intros t _ [].
  - apply (legal_err unit); [by intros ? []|done].
Qed.

Lemma compactionSpan_snoc rows x : Delivered x = true -> compactionSpan (rows ++ [x]) = compactionSpan rows ++ [ID x].
Proof.
  intros Hd. unfold compactionSpan. rewrite filter_app, filter_cons, filter_nil. rewrite decide_True by done. by rewrite map_app.
Qed.

Lemma warm_safe : triple Legal (compactWarm T params) okPost.
Proof.
  unfold compactWarm. cbn [pbind]. listing; [|apply (legal_err unit); [done|good]].
  intros u Hu Hl. cbn [pbind]. pose proof (compactionSpan_lt u Hu) as Hlt.
  destruct (unansweredCompactionRequest (ListForAssembly u)) as [r|] eqn:Er.
  - destruct (warmAttemptSettled r); [restart Legal okPost; apply cold_safe|]. cbn [pbind].
    apply (warmCall_safe (ID r) (ListForAssembly u) (t_next u)); [by apply request_legal|done|done|].
    split_and!; [done|by apply compactionSpan_ok|unfold Next; lia].
  - cbn [pbind]. set (row := userRow MessageSubtypeInjectionCompactionRequest (warmCompactionRequest T) None true).
    set (n := t_next u) in *. set (rows := ListForAssembly u) in *.
    assert (forall id, n <= id -> callOK (rows ++ [setID id row])) as Hok by (intros id Hid; by apply (request_snoc u id)).
    assert (SpanOK (compactionSpan rows) u /\ Next n u) as HP by (split; [by apply compactionSpan_ok|unfold Next; lia]).
    restart (fun t => Legal t /\ (SpanOK (compactionSpan rows) t /\ Next n t)) okPost. clearbody n rows. clear u Hu Hl Er HP.
    refine (triple_insert R HR _ (fun id t => Legal t /\ (SpanOK (compactionSpan rows) t /\ Next (id + 1) t) /\ n <= id) _ _ _ (good_span _ _) _ _ _).
    + intros u Hu (Hl & Hs & Hn). destruct (say_good Legal MessageSubtypeInjectionCompactionRequest (warmCompactionRequest T) true u) as [Hwf' Hl'];
        [good|done|done|]. destruct (say_good (SpanOK (compactionSpan rows)) MessageSubtypeInjectionCompactionRequest (warmCompactionRequest T) true u) as [_ Hs'];
        [good|done|done|]. split_and!; try done. unfold Next. cbn. lia.
    + intros id t Hwf (Hl & (Hs & Hx) & Hle). cbn [pbind].
      apply (warmCall_safe id (rows ++ [setID id row]) (id + 1)); [by apply Hok| |done|].
      * rewrite compactionSpan_snoc by done. apply Forall_app. split; [|repeat constructor; cbn; lia].
        eapply Forall_impl; [exact Hlt|]. cbn. lia.
      * split_and!; [done| |done]. rewrite compactionSpan_snoc by done. eapply span_mono; [|exact Hs]. set_solver.
    + cbn [pbind]. apply (legal_err unit); [by intros ? []|apply good_span].
Qed.

Lemma resume_safe : triple Legal (compactOnResume T params) okPost.
Proof.
  unfold compactOnResume. cbn [pbind]. listing; [|apply (legal_err unit); [done|good]].
  intros u Hu Hl. cbn [pbind]. destruct (uncommittedWarmSummary (ListForAssembly u)) as [summary|].
  - apply (commit_safe None summary _ (t_next u)); [by apply compactionSpan_lt|done|].
    split_and!; [done|by apply compactionSpan_ok|unfold Next; lia].
  - restart Legal okPost. destruct (negb _); [by done_|]. ask. destruct (warmCacheLive _ _); [by done_|apply cold_safe].
Qed.

Lemma windowFull_safe : triple Legal (compactWindowFull T params) okPost.
Proof.
  unfold compactWindowFull. cbn [pbind]. listing; [|apply (legal_err unit); [done|good]].
  intros u Hu Hl. restart Legal okPost. ask. destruct (warmCacheLive _ _); [apply warm_safe|apply cold_safe].
Qed.

(** ** Endings *)

(** A turn that goes round again does so from a legal transcript. *)
Definition turnPost (e : turnEnd) : table -> Prop := match e with Finish _ => Recoverable | Again _ => Legal end.

Lemma finish_safe p : triple Recoverable p (fun _ => Recoverable) -> triple Recoverable (finishWith p) turnPost.
Proof. intros Hp. unfold finishWith. eapply triple_bind; [exact Hp|]. intros r. by done_. Qed.

Lemma noticed_safe content : triple Recoverable (pbind (insertNotice content) (fun _ => failed)) (fun _ => Recoverable).
Proof. eapply triple_bind; [by apply insertNotice_safe|]. intros ?. by apply failed_safe. Qed.

Lemma compactFailed_safe unavailable : triple Recoverable (compactFailed T unavailable) (fun _ => Recoverable).
Proof. unfold compactFailed. ask. destruct a; [by done_|]. destruct unavailable; [by done_|]. apply noticed_safe. Qed.

Lemma park_safe rows notice : triple Recoverable (parkOnStop rows notice) (fun _ => Recoverable).
Proof.
  unfold parkOnStop. destruct (HasNoticeSince rows notice); cbn [pbind]; [by done_|].
  eapply triple_bind; [by apply insertNotice_safe|]. intros ?. by done_.
Qed.

Lemma from_legal A (p : prog A) Q : triple Recoverable p Q -> triple Legal p Q.
Proof. apply triple_weaken; [|done]. intros t _ Ht. by left. Qed.

Lemma finish_failed : triple Recoverable (finishWith failed) turnPost.
Proof. by apply finish_safe, failed_safe. Qed.

Lemma again_safe s : triple Legal (Ret (Again s)) turnPost.
Proof. by done_. Qed.

#[local] Hint Resolve finish_failed again_safe from_legal finish_safe noticed_safe compactFailed_safe park_safe : turns.

(** ** Turns *)

Lemma afterTurn_safe s row : triple (Turn row) (afterTurn T params s row) turnPost.
Proof.
  unfold afterTurn. destruct (ToolCalls row) as [|c calls] eqn:E.
  - eapply (triple_weaken R Legal); [|done|]; [intros t _ Ht; unfold Turn in Ht; by rewrite E in Ht|].
    eapply triple_bind; [by apply hasPending_safe|]. intros [[|]|]; [auto with turns| |auto with turns].
    ask. destruct a; [by done_|]. eapply triple_bind; [by apply insertPending_safe|]. intros [|]; auto with turns.
  - eapply (triple_weaken R (Open (ID row) (map tc_id (ToolCalls row)) 0)); [|done|].
    { intros t _ Ht. unfold Turn in Ht. rewrite E in *. done. }
    rewrite <- E. eapply triple_bind; [by apply dispatchBatch_safe|]. intros [d|o r sum| |]; cbn [batchPost].
    + auto with turns.
    + by done_.
    + ask. by done_.
    + auto with turns.
Qed.

(** The answers to calls that will not run. *)
Lemma undispatched_safe row notice :
  triple (Turn row) (answerUndispatchedCalls (ID row) (ToolCalls row) notice) (ifTrue Legal Recoverable).
Proof.
  destruct (ToolCalls row) as [|c calls] eqn:E.
  - eapply (triple_weaken R Legal); [intros t _ Ht; unfold Turn in Ht; by rewrite E in Ht|done|]. by done_.
  - eapply triple_weaken; [|done|by apply answerUndispatched_safe]. intros t _ Ht. unfold Turn in Ht. by rewrite E in Ht.
Qed.

Lemma onStop_safe s maxTokens rows reason row : triple (Turn row) (onStop T params s maxTokens rows reason row) turnPost.
Proof.
  unfold onStop. destruct (classifyStop reason).
  - apply afterTurn_safe.
  - destruct (ToolCalls row) as [|c calls] eqn:E; [|apply afterTurn_safe].
    eapply (triple_weaken R Legal); [intros t _ Ht; unfold Turn in Ht; by rewrite E in Ht|done|auto with turns].
  - destruct (ToolCalls row) as [|c calls] eqn:E.
    + eapply (triple_weaken R Legal); [intros t _ Ht; unfold Turn in Ht; by rewrite E in Ht|done|].
      destruct (_ <=? _); [auto with turns|]. eapply triple_bind; [by apply insertDelivered_safe|]. intros [|]; auto with turns.
    + rewrite <- E. eapply triple_bind; [by apply undispatched_safe|]. intros [|]; cbn [ifTrue]; auto with turns.
  - eapply triple_bind; [by apply undispatched_safe|]. intros [|]; cbn [ifTrue negb]; [|auto with turns].
    destruct (_ <=? _); [auto with turns|]. eapply triple_bind; [by apply windowFull_safe|].
    intros [[]|b]; cbn [okPost]; auto with turns.
  - eapply triple_bind; [by apply undispatched_safe|]. intros [|]; cbn [ifTrue]; auto with turns.
  - eapply triple_bind; [by apply undispatched_safe|]. intros [|]; cbn [ifTrue]; auto with turns.
Qed.

Lemma stub_names c : callNames (stubTruncatedToolArgs c) = callNames c.
Proof. unfold callNames, stubTruncatedToolArgs. cbn. by rewrite map_map. Qed.

Lemma callModel_safe s rows : callOK rows -> triple Legal (callModel T params s rows) turnPost.
Proof.
  intros Hc. unfold callModel. ask. destruct (negb a); [auto with turns|].
  eapply triple_bind; [apply stream_safe; [good|done]|]. intros [c|overflow unavailable]; cbn [streamPost].
  - intros t Hwf [Hl Ha]. set (c' := if interrupted (classifyStop (FinishReason c)) then stubTruncatedToolArgs c else c).
    assert (answers (AttemptOk c') t) as Ha'.
    { subst c'. destruct (interrupted _); [|done]. unfold answers. by rewrite stub_names. }
    assert (persistPre (map c_id (view t)) 0 c' t) as Hp.
    { split_and!; [done|done|apply span_all|]. pose proof (wf_pos t Hwf). unfold Next. lia. }
    set (span := map c_id (view t)) in *. clearbody span. restart (persistPre span 0 c') turnPost.
    eapply triple_bind; [by apply persist_safe|]. intros [row|]; cbn [persistPost]; [|auto with turns].
    eapply triple_weaken; [|done|apply onStop_safe]. by intros u _ [Hu _].
  - ask. destruct a0; [by done_|]. destruct (_ && _).
    + eapply triple_bind; [by apply windowFull_safe|]. intros [[]|b]; cbn [okPost]; [auto with turns|].
      apply finish_safe. ask. destruct a0; [by done_|]. destruct b; [by done_|]. apply noticed_safe.
    + destruct unavailable; [by done_|]. auto with turns.
Qed.

Lemma runTurn_safe s : triple Legal (runTurn T params s) turnPost.
Proof.
  unfold runTurn. ask. destruct a; [by done_|]. listing; [|auto with turns].
  intros u Hu Hl. restart Legal turnPost. cbn [pbind]. destruct (compactionDue params _).
  - eapply triple_bind; [by apply warm_safe|]. intros [[]|b]; cbn [okPost]; auto with turns.
  - eapply triple_bind; [by apply drain_safe|]. intros [|]; cbn [negb]; [|auto with turns].
    cbn [pbind]. listing; [|auto with turns]. intros v Hv Hlv. cbn [pbind].
    pose proof (request_legal v Hv Hlv) as Hreq. set (rows := ListForAssembly v) in *. clearbody rows. restart Legal turnPost.
    ask. destruct a; [by apply callModel_safe|]. auto with turns.
Qed.

Lemma runLoop_safe n : forall s, triple Legal (runLoop T params n s) (fun _ => Recoverable).
Proof.
  induction n as [|n IH]; intros s; cbn [runLoop]; [by done_|].
  eapply triple_bind; [by apply runTurn_safe|]. intros [r|s']; cbn [turnPost]; [by done_|apply IH].
Qed.

Lemma runRepaired_safe n : triple Legal (runRepaired T params n) (fun _ => Recoverable).
Proof.
  unfold runRepaired. eapply triple_bind; [by apply resume_safe|]. intros [[]|b]; cbn [okPost]; [apply runLoop_safe|].
  eapply triple_bind; [apply compactFailed_safe|]. intros r. by done_.
Qed.

End Turns.

End AgentTurn.
