(* ===== verification/AgentRepair.v ===== *)
(** * The repair at claim start

    On a legal transcript the repair finds nothing; on one whose last batch a
    crash cut short it finds exactly the calls without an answer, and answering
    them in the places it chose makes the transcript legal. *)

From S2P Require Import Prelude GoBytes AgentRow AgentWindow AgentProg AgentLoop AgentInv AgentCompact AgentAssert AgentSafe.
Import AgentRow AgentWindow AgentProg AgentLoop AgentInv AgentStable AgentAssert AgentHoare AgentSafe.

Module AgentRepair.

(** ** Answered calls *)

Definition answersOf (c : cell) : list bytes := match c_shape c with STool id => [id] | _ => [] end.
Definition allAnswers (v : list cell) : list bytes := v ≫= answersOf.

Lemma settle_perm id o o' : settle id o = Some o' -> o ≡ₚ id :: o'.
Proof.
  revert o'. induction o as [|x o IH]; intros o' H; [done|]. cbn in H. destruct (bool_decide_reflect (x = id)) as [->|Hne].
  - by injection H as ->.
  - destruct (settle id o) as [o2|]; [|done]. injection H as <-. rewrite (IH o2 eq_refl). apply perm_swap.
Qed.

(** In a legal transcript the answers are the calls. *)
Lemma owes_answers_calls v : forall o, owes o (shapes v) = true -> allAnswers v ≡ₚ o ++ allCalls v.
Proof.
  induction v as [|c v IH]; intros o H; [by apply bool_decide_eq_true in H as ->|].
  change (allAnswers (c :: v)) with (answersOf c ++ allAnswers v). change (allCalls (c :: v)) with (callsOf c ++ allCalls v).
  cbn in H. unfold answersOf, callsOf. destruct (c_shape c) as [|id|calls].
  - apply andb_true_iff in H as [H1 H2]. apply bool_decide_eq_true in H1 as ->. by apply IH.
  - destruct (settle id o) as [o'|] eqn:E; [|done]. rewrite (settle_perm _ _ _ E). cbn. apply perm_skip. by apply IH.
  - apply andb_true_iff in H as [H1 H2]. apply bool_decide_eq_true in H1 as ->. cbn. by apply IH.
Qed.

Lemma answeredIDs_elem id rows : id ∈ answeredIDs rows <-> id ∈ allAnswers (map cellOf rows) /\ id <> [].
Proof.
  unfold answeredIDs. rewrite elem_of_list_to_set. unfold allAnswers. rewrite list_elem_of_bind. split.
  - intros H. apply list_elem_of_In, in_map_iff in H as (m & <- & Hm). apply list_elem_of_In, list_elem_of_filter in Hm as [[Hr Hne] Hm].
    split; [|done]. exists (cellOf m). split; [|apply list_elem_of_In, in_map, list_elem_of_In, Hm].
    unfold answersOf. cbn. unfold shapeOf. rewrite Hr. set_solver.
  - intros [(c & Hid & Hc) Hne]. apply list_elem_of_In, in_map_iff in Hc as (m & <- & Hm). apply list_elem_of_In in Hm.
    unfold answersOf in Hid. cbn in Hid. unfold shapeOf in Hid. destruct (Role m) eqn:Er; [set_solver|set_solver|].
    apply list_elem_of_In, in_map_iff. exists m. apply list_elem_of_singleton in Hid as ->. split; [done|].
    apply list_elem_of_In, list_elem_of_filter. done.
Qed.

(** ** The walk *)

Lemma missing_none A calls : Forall (fun c => tc_id c ∈ A) calls -> missingCalls A calls = ([], A).
Proof.
  induction 1 as [|c calls Hc _ IH]; [done|]. cbn. rewrite (bool_decide_eq_true_2 (tc_id c ∈ A)) by done. by rewrite orb_true_r.
Qed.

Lemma missing_app A c1 c2 : Forall (fun c => tc_id c ∈ A) c1 -> missingCalls A (c1 ++ c2) = missingCalls A c2.
Proof.
  induction 1 as [|c calls Hc _ IH]; [done|]. cbn. rewrite (bool_decide_eq_true_2 (tc_id c ∈ A)) by done. by rewrite orb_true_r.
Qed.

Lemma missing_all calls : forall A, NoDup (map tc_id calls) -> Forall (fun c => tc_id c <> [] /\ tc_id c ∉ A) calls ->
  (missingCalls A calls).1 = calls.
Proof.
  induction calls as [|c calls IH]; intros A Hn Hf; [done|]. cbn in *. apply NoDup_cons in Hn as [Hc Hn].
  apply Forall_cons in Hf as [[Hne HA] Hf]. rewrite (bool_decide_eq_false_2 _ Hne), (bool_decide_eq_false_2 _ HA). cbn.
  specialize (IH ({[tc_id c]} ∪ A) Hn). destruct (missingCalls ({[tc_id c]} ∪ A) calls) as [m A']. cbn in *. f_equal. apply IH.
  apply Forall_forall. intros x Hx. pose proof (proj1 (Forall_forall _ _) Hf x Hx) as [? ?]. split; [done|].
  apply not_elem_of_union. split; [|done]. rewrite elem_of_singleton. intros He. apply Hc. rewrite <- He.
  apply list_elem_of_In, in_map, list_elem_of_In, Hx.
Qed.

Lemma place_none owner after : placeAfterAnswers owner after [] = [].
Proof. unfold placeAfterAnswers. destruct (toolRun after) as [run [|b beyond]]; done. Qed.

Definition settled (A : gset (list ascii)) (m : Message) : Prop :=
  Role m = RoleAssistant -> Forall (fun c => tc_id c ∈ A) (ToolCalls m).

Lemma walk_settled A pre rest : Forall (settled A) pre -> repairWalk A (pre ++ rest) = repairWalk A rest.
Proof.
  induction 1 as [|m pre Hm _ IH]; [done|]. cbn. destruct (bool_decide_reflect (Role m = RoleAssistant)) as [Hr|]; [|done].
  rewrite (missing_none A _ (Hm Hr)), place_none. done.
Qed.

Lemma walk_users A l : Forall (fun m => Role m <> RoleAssistant) l -> repairWalk A l = [].
Proof. induction 1 as [|m l Hm _ IH]; [done|]. cbn. by rewrite bool_decide_eq_false_2. Qed.

Lemma toolRun_split ts us : Forall (fun m => Role m = RoleTool) ts -> Forall (fun m => Role m = RoleUser) us ->
  toolRun (ts ++ us) = (ts, us).
Proof.
  induction 1 as [|m ts Hm _ IH]; intros Hu; cbn.
  - destruct Hu as [|b us Hb]; [done|]. cbn. by rewrite bool_decide_eq_false_2 by congruence.
  - rewrite bool_decide_eq_true_2 by done. by rewrite IH.
Qed.

Lemma shape_role m : (shapeOf m = SUser <-> Role m = RoleUser) /\ (forall id, shapeOf m = STool id -> Role m = RoleTool) /\
  (forall ids, shapeOf m = SAssistant ids -> Role m = RoleAssistant /\ map tc_id (ToolCalls m) = ids).
Proof. unfold shapeOf. destruct (Role m); split_and!; try done; intros ids H; by injection H. Qed.

(** A settled prefix: every call of it is among the answers [A]. *)
Lemma settled_prefix A (l : list Message) : (forall id, id ∈ allCalls (map cellOf l) -> id ∈ A) -> Forall (settled A) l.
Proof.
  intros H. apply Forall_forall. intros m Hm Hr. apply Forall_forall. intros c Hc. apply H. unfold allCalls.
  apply list_elem_of_bind. exists (cellOf m). split.
  - unfold callsOf. cbn. unfold shapeOf. rewrite Hr. apply list_elem_of_In, in_map, list_elem_of_In, Hc.
  - apply list_elem_of_In, in_map, list_elem_of_In, Hm.
Qed.

Lemma allAnswers_app v w : allAnswers (v ++ w) = allAnswers v ++ allAnswers w.
Proof. apply bind_app. Qed.

Lemma users_answers v : Forall isUser v -> allAnswers v = [].
Proof.
  induction 1 as [|c v Hc _ IH]; [done|]. change (answersOf c ++ allAnswers v = []). rewrite IH. unfold answersOf. by rewrite Hc.
Qed.

(** On a legal transcript there is nothing to repair. *)
Lemma repairs_legal t : wf t -> Legal t -> repairs (ListForAssembly t) = [].
Proof.
  intros Hwf Hl. unfold repairs. rewrite sort_strict by apply Hwf.
  rewrite <- (app_nil_r (ListForAssembly t)) at 2. rewrite walk_settled; [done|]. apply settled_prefix. intros id Hid.
  apply answeredIDs_elem. split; [|exact (proj1 (Forall_forall _ _) (wf_named t Hwf) id Hid)].
  pose proof (owes_answers_calls (view t) [] Hl) as Hp. change (map cellOf (ListForAssembly t)) with (view t).
  by rewrite Hp.
Qed.

(** ** A torn batch *)

Section Torn.

Context (t : table) (lp : list Message) (am : Message) (lts lus : list Message) (ids : list bytes) (i : nat).
Hypothesis Hwf : wf t.
Hypothesis HL : ListForAssembly t = lp ++ am :: lts ++ lus.
Hypothesis Hpre : legal (shapes (map cellOf lp)) = true.
Hypothesis Ham : shapeOf am = SAssistant ids.
Hypothesis Hts : shapes (map cellOf lts) = map STool (take i ids).
Hypothesis Hus : Forall (fun m => Role m = RoleUser) lus.

Lemma torn_calls : map tc_id (ToolCalls am) = ids.
Proof. exact (proj2 (proj2 (proj2 (shape_role am)) ids Ham)). Qed.

Lemma torn_tools : Forall (fun m => Role m = RoleTool) lts.
Proof.
  clear HL. revert Hts. generalize (take i ids). induction lts as [|m l IH]; intros ids' H; [constructor|].
  destruct ids' as [|id ids']; [done|]. cbn in H. injection H as H1 H2. constructor; [|by eapply IH]. exact (proj1 (proj2 (shape_role m)) _ H1).
Qed.

Lemma torn_answers : allAnswers (view t) ≡ₚ allCalls (map cellOf lp) ++ take i ids.
Proof.
  unfold view. rewrite HL, !map_app, allAnswers_app. rewrite (owes_answers_calls _ [] Hpre). cbn [app]. apply Permutation_app_head.
  rewrite map_cons, map_app. change (allAnswers (cellOf am :: map cellOf lts ++ map cellOf lus)) with (answersOf (cellOf am) ++ allAnswers (map cellOf lts ++ map cellOf lus)).
  unfold answersOf. cbn. rewrite Ham. cbn. rewrite allAnswers_app.
  assert (allAnswers (map cellOf lus) = []) as ->.
  { apply users_answers, List.Forall_map. eapply Forall_impl; [exact Hus|]. intros m Hm. by apply shape_role. }
  rewrite app_nil_r. revert Hts. generalize (take i ids). clear. induction lts as [|m l IH]; intros ids' H.
  - by destruct ids'.
  - destruct ids' as [|id ids']; [done|]. cbn in H. injection H as H1 H2.
    change (answersOf (cellOf m) ++ allAnswers (map cellOf l) ≡ₚ id :: ids'). unfold answersOf. cbn. rewrite H1. cbn.
    apply perm_skip. by apply IH.
Qed.

Lemma torn_allcalls : allCalls (view t) = allCalls (map cellOf lp) ++ ids ++ allCalls (map cellOf (lts ++ lus)).
Proof.
  unfold view. rewrite HL, map_app, allCalls_app. f_equal.
  change (callsOf (cellOf am) ++ allCalls (map cellOf (lts ++ lus)) = ids ++ allCalls (map cellOf (lts ++ lus))).
  unfold callsOf. cbn. by rewrite Ham.
Qed.

Lemma torn_nodup : NoDup ids /\ Forall (fun id => id <> []) ids /\ (forall id, id ∈ ids -> id ∉ allCalls (map cellOf lp)).
Proof.
  pose proof (wf_calls t Hwf) as Hn. pose proof (wf_named t Hwf) as Hne. rewrite torn_allcalls in Hn, Hne.
  apply NoDup_app in Hn as (_ & Hd & Hn). apply NoDup_app in Hn as (Hn & _). apply Forall_app in Hne as [_ Hne].
  apply Forall_app in Hne as [Hne _]. split_and!; [done|done|]. intros id Hid Hin. apply (Hd id Hin). set_solver.
Qed.

(** The repair places an answer for each call without one, and for no other. *)
Lemma repairs_torn : repairs (ListForAssembly t) = placeAfterAnswers am (lts ++ lus) (drop i (ToolCalls am)).
Proof.
  destruct torn_nodup as (Hn & Hne & Hd). unfold repairs. rewrite sort_strict by apply Hwf.
  set (A := answeredIDs (ListForAssembly t)).
  assert (forall id, id ∈ A <-> (id ∈ allCalls (map cellOf lp) \/ id ∈ take i ids) /\ id <> []) as HA.
  { intros id. subst A. rewrite answeredIDs_elem. change (map cellOf (ListForAssembly t)) with (view t). by rewrite torn_answers, elem_of_app. }
  rewrite HL. rewrite walk_settled.
  2: { apply settled_prefix. intros id Hid. apply HA. split; [by left|].
       apply (proj1 (Forall_forall _ _) (wf_named t Hwf)). rewrite torn_allcalls. set_solver. }
  cbn [repairWalk]. pose proof (proj1 (proj2 (proj2 (shape_role am)) ids Ham)) as Hr. rewrite bool_decide_eq_true_2 by done.
  assert ((missingCalls A (ToolCalls am)).1 = drop i (ToolCalls am)) as Hm.
  { rewrite <- (take_drop i (ToolCalls am)) at 1. rewrite missing_app.
    - apply missing_all.
      + rewrite <- skipn_map, torn_calls. by eapply sublist_NoDup, sublist_drop.
      + assert (forall id, id ∈ drop i ids -> id <> [] /\ id ∉ A) as Hdrop.
        { intros id Hid. assert (id ∈ ids) as Hin by (rewrite <- (take_drop i ids); set_solver).
          split; [by apply (proj1 (Forall_forall _ _) Hne)|]. rewrite HA. intros [[Hp|Ht] _]; [by apply (Hd id Hin)|].
          rewrite <- (take_drop i ids) in Hn. apply NoDup_app in Hn as (_ & Hdis & _). by apply (Hdis id Ht). }
        apply Forall_forall. intros c Hc. apply Hdrop. rewrite <- torn_calls, skipn_map.
        by apply list_elem_of_fmap_2.
    - apply Forall_forall. intros c Hc. assert (tc_id c ∈ take i ids) as Hin.
      { rewrite <- torn_calls, firstn_map. by apply list_elem_of_fmap_2. }
      apply HA. split; [by right|]. apply (proj1 (Forall_forall _ _) Hne). rewrite <- (take_drop i ids). set_solver. }
  destruct (missingCalls A (ToolCalls am)) as [missing A']. cbn in Hm. subst missing.
  rewrite (walk_users A'); [by rewrite app_nil_r|]. apply Forall_app. split.
  - eapply Forall_impl; [exact torn_tools|]. intros m Hmr. by rewrite Hmr.
  - eapply Forall_impl; [exact Hus|]. intros m Hmr. by rewrite Hmr.
Qed.

Lemma torn_place missing : placeAfterAnswers am (lts ++ lus) missing =
  match lus with
  | [] => map (fun c => Place c None (assemblyKey am)) missing
  | b :: _ => imap (fun j c => Place c (Some (assemblyKey (default am (last lts)) +
      (assemblyKey b - assemblyKey (default am (last lts))) * fraction j (length missing))%Q) (assemblyKey am)) missing
  end.
Proof. unfold placeAfterAnswers. by rewrite toolRun_split by first [exact torn_tools|exact Hus]. Qed.

End Torn.

(** ** Mending *)

(** The batch answered up to [j]; the next answer at [q], below the user rows
    from [hi] on. *)
Definition Mending (ids : list bytes) (j : nat) (q hi : Q) (t : table) : Prop :=
  (hi <= inject_Z (t_next t))%Q /\ exists pre a ts us, view t = pre ++ a :: ts ++ us /\ legal (shapes pre) = true /\
    c_shape a = SAssistant ids /\ shapes ts = map STool (take j ids) /\
    Forall (fun c => (c_key c < q)%Q) (pre ++ a :: ts) /\ Forall (fun c => isUser c /\ (hi <= c_key c)%Q) us.

Lemma Mending_stable ids j q hi : stable (Mending ids j q hi).
Proof.
  intros t u (Hn & w & tail & Hv & Hd & Ht) (Hhi & pre & a & ts & us & Hvt & Hl & Ha & Hts & Hk & Hus).
  assert (hi <= inject_Z (t_next u))%Q as Hhi' by (eapply Qle_trans; [exact Hhi|by rewrite <- Zle_Qle]). split; [done|].
  rewrite Hvt in Hd. destruct (drops_batch _ _ _ _ _ _ _ Hd Ha Hts) as (pre' & us' & -> & D1 & D2).
  exists pre', a, ts, (us' ++ tail). rewrite Hv. apply Forall_app in Hk as [Hk1 Hk2].
  split_and!; [by rewrite <- app_assoc; cbn; rewrite <- app_assoc|by eapply drops_legal|done..| |].
  - apply Forall_app. split; [by eapply drops_forall|done].
  - apply Forall_app. split; [by eapply drops_forall|]. eapply Forall_impl; [exact Ht|]. intros c [Hu Hc]. split; [done|].
    eapply Qle_trans; [exact Hhi|done].
Qed.

Lemma Mending_recoverable ids j q hi t : Mending ids j q hi t -> Recoverable t.
Proof.
  intros (_ & pre & a & ts & us & H1 & H2 & H3 & H4 & _ & H5). right. exists pre, a, ts, us, ids, j.
  split_and!; try done. eapply Forall_impl; [exact H5|]. by intros c [? ?].
Qed.

Lemma batch_legal pre a ts us ids : legal (shapes pre) = true -> c_shape a = SAssistant ids -> shapes ts = map STool ids ->
  Forall isUser us -> legal (shapes (pre ++ a :: ts ++ us)) = true.
Proof.
  intros Hl Ha Hts Hus. rewrite shapes_app. apply owes_app; [done|]. change (legal (c_shape a :: shapes (ts ++ us)) = true).
  rewrite Ha, shapes_app, Hts. cbn. rewrite owes_answers. by apply shapes_users.
Qed.

Lemma Mending_full ids q hi t : Mending ids (length ids) q hi t -> Legal t.
Proof.
  intros (_ & pre & a & ts & us & Hv & Hl & Ha & Hts & _ & Hus). rewrite firstn_all in Hts. unfold Legal. rewrite Hv.
  eapply batch_legal; try done. eapply Forall_impl; [exact Hus|]. by intros c [? ?].
Qed.

(** A repair in place: the next answer lands at [q]. *)
Lemma mend_insert m t ids j q q' hi id : wf t -> Mending ids j q hi t -> ids !! j = Some id -> (q < hi)%Q -> (q < q')%Q ->
  Role m = RoleTool -> ToolCallID m = id -> Seq m = Some q -> Delivered m = true -> inWindow m = true ->
  wf (Insert m t) /\ Mending ids (S j) q' hi (Insert m t).
Proof.
  intros Hwf (Hhi & pre & a & ts & us & Hv & Hl & Ha & Hts & Hk & Hus) Hj Hq Hq' Hr Hid Hs Hd Hw.
  set (c := cellOf (setID (t_next t) m)).
  assert (c_key c = q) as Hkc by (cbn; unfold assemblyKey; cbn; by rewrite Hs).
  assert (inject_Z (t_next t) <= inject_Z (t_next t + 1))%Q as Hn by (rewrite <- Zle_Qle; lia).
  destruct (insert_answer m t pre a ts us id Hwf Hv Hr Hid Hd Hw) as (Hwf' & Hvi & Hc); fold c.
  - by rewrite Hkc.
  - eapply Forall_impl; [exact Hus|]. intros x [_ Hx]. rewrite Hkc. lra.
  - rewrite Hkc. lra.
  - fold c in Hvi, Hc. split; [done|]. split; [cbn; lra|]. exists pre, a, (ts ++ [c]), us. split_and!; try done; [by eapply answers_step|].
    rewrite cons_middle, !app_assoc. rewrite <- (app_assoc pre). apply Forall_app. split; [|repeat constructor; by rewrite Hkc].
    eapply Forall_impl; [exact Hk|]. intros x Hx. cbn beta in *. lra.
Qed.

(** The batch at the transcript's tail, nothing behind it. *)
Definition AtTail (ids : list bytes) (j : nat) (t : table) : Prop :=
  exists pre a ts, view t = pre ++ a :: ts /\ legal (shapes pre) = true /\ c_shape a = SAssistant ids /\ shapes ts = map STool (take j ids).

Lemma AtTail_recoverable ids j t : AtTail ids j t -> Recoverable t.
Proof. intros (pre & a & ts & H1 & H2 & H3 & H4). right. exists pre, a, ts, [], ids, j. by rewrite app_nil_r. Qed.

Lemma AtTail_full ids t : AtTail ids (length ids) t -> Legal t.
Proof.
  intros (pre & a & ts & Hv & Hl & Ha & Hts). rewrite firstn_all in Hts. unfold Legal. rewrite Hv, <- (app_nil_r ts). by eapply batch_legal.
Qed.

Lemma tail_insert m t ids j id : wf t -> AtTail ids j t -> ids !! j = Some id -> Role m = RoleTool -> ToolCallID m = id ->
  Seq m = None -> Delivered m = true -> inWindow m = true -> wf (Insert m t) /\ AtTail ids (S j) (Insert m t).
Proof.
  intros Hwf (pre & a & ts & Hv & Hl & Ha & Hts) Hj Hr Hid Hs Hd Hw. set (c := cellOf (setID (t_next t) m)).
  assert (c_shape c = STool id) as Hc by (cbn; unfold shapeOf; cbn; by rewrite Hr, Hid).
  destruct (insert_tail m t Hwf Hs Hw) as [Hwf' Hvi]; [by unfold callsOf; cbn; unfold shapeOf; rewrite Hr|by rewrite Hd|].
  split; [done|]. exists pre, a, (ts ++ [c]). split_and!; try done; [|by eapply answers_step].
  rewrite Hvi, Hv. by rewrite <- app_assoc.
Qed.

(** A torn transcript, row by row. *)
Lemma Torn_rows t : Torn t -> exists lp am lts lus ids i, ListForAssembly t = lp ++ am :: lts ++ lus /\
  legal (shapes (map cellOf lp)) = true /\ shapeOf am = SAssistant ids /\ shapes (map cellOf lts) = map STool (take i ids) /\
  Forall (fun m => Role m = RoleUser) lus /\ (i <= length ids)%nat.
Proof.
  intros (pre & a & ts & us & ids & i & Hv & Hl & Ha & Hts & Hus). unfold view in Hv.
  destruct (map_eq_app _ _ _ _ Hv) as (lp & l1 & HL & <- & H1). destruct l1 as [|am l1]; [done|]. injection H1 as <- H1.
  destruct (map_eq_app _ _ _ _ H1) as (lts & lus & -> & <- & <-).
  exists lp, am, lts, lus, ids, (min i (length ids)). split_and!; try done; [| |lia].
  - rewrite Hts. f_equal. destruct (decide (i <= length ids)%nat); [by rewrite Nat.min_l by lia|].
    rewrite Nat.min_r by lia. by rewrite !take_ge by lia.
  - apply Forall_forall. intros m Hm. apply shape_role. exact (proj1 (Forall_forall _ _) (cells_forall _ _ Hus) m Hm).
Qed.

Lemma last_max l p : StronglySorted klt l -> last l = Some p -> Forall (fun m => kle m p) l.
Proof.
  intros Hs Hp. apply last_Some in Hp as [l' ->]. apply StronglySorted_app in Hs as (H12 & _). apply Forall_app. split.
  - apply Forall_forall. intros m Hm. specialize (H12 m p Hm ltac:(left)). unfold klt, kle in *. lra.
  - repeat constructor. unfold kle. lra.
Qed.

(** Rows already follow the torn batch: the repair's places are free. *)
Lemma mending_start t lp am lts b lus ids i n : wf t -> ListForAssembly t = lp ++ am :: lts ++ b :: lus ->
  legal (shapes (map cellOf lp)) = true -> shapeOf am = SAssistant ids -> shapes (map cellOf lts) = map STool (take i ids) ->
  Forall (fun m => Role m = RoleUser) (b :: lus) ->
  let lo := assemblyKey (default am (last lts)) in let hi := assemblyKey b in
  (lo < hi)%Q /\ Mending ids i (lo + (hi - lo) * fraction 0 n)%Q hi t.
Proof.
  intros Hwf HL Hl Ham Hts Hus lo hi. pose proof (wf_strict t Hwf) as Hs. pose proof (wf_keys t Hwf) as Hk. rewrite HL in Hs, Hk.
  rewrite (app_assoc lp (am :: lts) (b :: lus) : lp ++ am :: lts ++ b :: lus = (lp ++ am :: lts) ++ b :: lus) in Hs, Hk.
  apply StronglySorted_app in Hs as (H12 & Hs1 & Hs2). apply Forall_app in Hk as [_ Hk]. apply Forall_cons in Hk as [Hkb _].
  assert (last (lp ++ am :: lts) = Some (default am (last lts))) as Hlast.
  { rewrite cons_middle, app_assoc, last_app. by destruct (last lts) eqn:E; rewrite ?last_snoc. }
  assert (lo < hi)%Q as Hlh by (apply H12; [by apply last_Some_elem_of in Hlast|left]). split; [done|].
  pose proof (last_max _ _ Hs1 Hlast) as Hmax. pose proof (fraction_pos 0 n) as Hf.
  assert (0 < (hi - lo) * fraction 0 n)%Q as Hp by (apply Qmult_lt_0_compat; lra).
  split; [apply Qlt_le_weak; exact Hkb|]. exists (map cellOf lp), (cellOf am), (map cellOf lts), (map cellOf (b :: lus)).
  split_and!; [unfold view; by rewrite HL, !map_app; cbn; rewrite !map_app|done|done|done| |].
  - change (cellOf am :: map cellOf lts) with (map cellOf (am :: lts)). rewrite <- map_app. apply List.Forall_map.
    eapply Forall_impl; [exact Hmax|]. intros m Hm. unfold kle in Hm. cbn. fold lo in Hm. lra.
  - apply List.Forall_map. inversion_clear Hs2 as [|? ? _ Hb]. apply Forall_cons in Hus as [Hub Hus]. constructor.
    + split; [by apply shape_role|apply Qle_refl].
    + apply Forall_forall. intros m Hm. split; [apply shape_role; exact (proj1 (Forall_forall _ _) Hus m Hm)|].
      apply Qlt_le_weak. exact (proj1 (Forall_forall _ _) Hb m Hm).
Qed.

(** The transcript owes answers and its last row is not a message: an
    interrupted batch is its tail. *)
Definition openTail (t : table) : Prop :=
  legal (shapes (view t)) = false /\ forall b, last (ListForAssembly t) = Some b -> Role b <> RoleUser.

(** [p] once its first call, a listing, has answered [rows]. *)
Definition listed {A} (p : prog A) (rows : list Message) : prog A :=
  match p with PList k => k (Some rows) | _ => p end.

Section Mend.

Context (R : table -> table -> Prop) (HR : forall t u, R t u -> rely t u).
Context (T : Texts) (params : Params).

Notation triple := (triple R).

Lemma good_mending ids j q hi : good R (Mending ids j q hi).
Proof. apply good_intro; [done|apply Mending_stable|apply Mending_recoverable]. Qed.

Lemma mend_safe owner lo hi n calls ids i : (lo < hi)%Q -> forall k, drop (i + k) ids = map tc_id calls ->
  (i + k <= length ids)%nat -> (k + length calls = n)%nat ->
  triple (Mending ids (i + k) (lo + (hi - lo) * fraction k n)%Q hi)
    (insertRepairs T params (imap (fun j c => Place c (Some (lo + (hi - lo) * fraction (k + j) n)%Q) owner) calls))
    (ifTrue Legal Recoverable).
Proof.
  intros Hlo. induction calls as [|c calls IH]; intros k Hd Hi Hn.
  - refine (triple_ret R HR _ _ _ (good_mending _ _ _ _) _). intros t _ Ht. cbn.
    apply (f_equal length) in Hd. rewrite length_drop in Hd. cbn in Hd. replace (i + k)%nat with (length ids) in Ht by lia.
    by eapply Mending_full.
  - destruct (open_next ids (i + k) c calls Hd) as [Hl Hd']. cbn [imap insertRepairs pl_call pl_seq pl_owner]. rewrite Nat.add_0_r.
    unfold insertToolResult. cbn [pbind].
    pose proof (fraction_mono k (S k) n ltac:(lia)) as Hm. pose proof (fraction_lt1 k n ltac:(cbn in Hn; lia)) as H1.
    assert ((hi - lo) * fraction k n < (hi - lo) * fraction (S k) n)%Q as Hq by (apply Qmult_lt_l; lra).
    assert ((hi - lo) * fraction k n < (hi - lo) * 1)%Q as Hq1 by (apply Qmult_lt_l; lra).
    refine (triple_insert R HR _ (fun _ => Mending ids (S (i + k)) (lo + (hi - lo) * fraction (S k) n)%Q hi) _ _ _ (good_mending _ _ _ _) _ _ _).
    + intros u Hu HP. eapply mend_insert; try done; lra.
    + intros id. cbn [pbind]. replace (S (i + k)) with (i + S k)%nat in * by lia.
      erewrite imap_ext; [apply IH|]; [done|apply lookup_lt_Some in Hl; lia|cbn in Hn; lia|].
      intros j x _. cbn. by rewrite Nat.add_succ_r.
    + cbn [pbind]. refine (triple_ret R HR _ _ _ (good_mending _ _ _ _) _). intros t _ Ht. cbn. by eapply Mending_recoverable.
Qed.

(** With nobody writing, answers can go to the tail. *)
Lemma tail_safe (quiet : forall t u, ~ R t u) owner calls ids : forall i, drop i ids = map tc_id calls -> (i <= length ids)%nat ->
  triple (AtTail ids i) (insertRepairs T params (map (fun c => Place c None owner) calls)) (ifTrue Legal Recoverable).
Proof.
  assert (forall i, good R (AtTail ids i)) as HG.
  { intros i. constructor; [intros t u Hr; by apply quiet in Hr|apply AtTail_recoverable]. }
  induction calls as [|c calls IH]; intros i Hd Hi.
  - refine (triple_ret R HR _ _ _ (HG _) _). intros t _ Ht. cbn.
    apply (f_equal length) in Hd. rewrite length_drop in Hd. cbn in Hd. replace i with (length ids) in Ht by lia. by eapply AtTail_full.
  - destruct (open_next ids i c calls Hd) as [Hl Hd']. cbn [map insertRepairs pl_call pl_seq pl_owner].
    unfold insertToolResult. cbn [pbind].
    refine (triple_insert R HR _ (fun _ => AtTail ids (S i)) _ _ _ (HG _) _ _ _).
    + intros u Hu HP. by eapply tail_insert.
    + intros id. cbn [pbind]. apply IH; [done|by eapply lookup_le].
    + cbn [pbind]. refine (triple_ret R HR _ _ _ (HG _) _). intros t _ Ht. cbn. by eapply AtTail_recoverable.
Qed.

(** The repair over a listing of a torn transcript: safe among the world's
    writes once a row follows the batch, and in isolation otherwise. *)
Lemma dangling_safe u lp am lts lus ids i : wf u -> ListForAssembly u = lp ++ am :: lts ++ lus ->
  legal (shapes (map cellOf lp)) = true -> shapeOf am = SAssistant ids -> shapes (map cellOf lts) = map STool (take i ids) ->
  Forall (fun m => Role m = RoleUser) lus -> (i <= length ids)%nat -> (lus <> [] \/ forall t v, ~ R t v) ->
  wp R answers callOK inv (repairDanglingToolCalls T params (ListForAssembly u)) (fun ok v => wf v /\ ifTrue Legal Recoverable ok v) u.
Proof.
  intros Hwf HL Hl Ham Hts Hus Hi Hc. unfold repairDanglingToolCalls.
  rewrite (repairs_torn u lp am lts lus ids i Hwf HL Hl Ham Hts Hus), (torn_place am lts lus ids i Hts Hus).
  pose proof (torn_calls am ids Ham) as Hcalls.
  assert (drop i ids = map tc_id (drop i (ToolCalls am))) as Hd by (by rewrite <- skipn_map, Hcalls).
  destruct lus as [|b lus].
  - destruct Hc as [Hc|quiet]; [done|]. apply (tail_safe quiet (assemblyKey am) (drop i (ToolCalls am)) ids i Hd Hi u Hwf).
    exists (map cellOf lp), (cellOf am), (map cellOf lts). split_and!; try done.
    unfold view. rewrite HL, app_nil_r, map_app. done.
  - destruct (mending_start u lp am lts b lus ids i (length (drop i (ToolCalls am))) Hwf HL Hl Ham Hts Hus) as [Hlh Hm].
    pose proof (mend_safe (assemblyKey am) _ _ (length (drop i (ToolCalls am))) (drop i (ToolCalls am)) ids i Hlh 0%nat) as Hs.
    rewrite Nat.add_0_r in Hs. by apply (Hs Hd Hi eq_refl u Hwf).
Qed.

Lemma noticeResume_safe rows : triple Legal (noticeResume T params rows) (fun _ => Legal).
Proof.
  unfold noticeResume. destruct (negb _); [by done_|]. destruct (negb (Rebuilt _)).
  - destruct (_ || _); [by done_|]. by apply insertPending_safe.
  - destruct (existsb _ _); [by done_|]. by apply insertPending_safe.
Qed.

(** The repair from its reading on: safe among the world's writes unless the
    interrupted batch ends the transcript, and in isolation otherwise. *)
Lemma repairListed_safe u : wf u -> Recoverable u -> (openTail u -> forall t v, ~ R t v) ->
  wp R answers callOK inv (listed (repairTranscript T params) (ListForAssembly u)) (fun ok v => wf v /\ ifTrue Legal Recoverable ok v) u.
Proof.
  intros Hu Hrec Hq. cbn. apply wp_bind.
  assert (wp R answers callOK inv (repairDanglingToolCalls T params (ListForAssembly u)) (fun ok v => wf v /\ ifTrue Legal Recoverable ok v) u) as Hd.
  { destruct (legal (shapes (view u))) eqn:El.
    - unfold repairDanglingToolCalls. rewrite (repairs_legal u Hu El). restart Legal (ifTrue Legal Recoverable). by done_.
    - destruct Hrec as [Hl|Ht]; [unfold Legal in Hl; congruence|].
      destruct (Torn_rows u Ht) as (lp & am & lts & lus & ids & i & H1 & H2 & H3 & H4 & H5 & H6). eapply dangling_safe; try done.
      destruct lus as [|b lus]; [right|by left]. apply Hq. split; [done|]. intros b. rewrite H1, app_nil_r, cons_middle, app_assoc, last_app.
      destruct (last lts) as [x|] eqn:E; [|rewrite last_snoc]; intros [= <-].
      + apply last_Some_elem_of in E. rewrite (proj1 (Forall_forall _ _) (torn_tools lts ids i H4) x E). done.
      + apply shape_role in H3 as [-> _]. done. }
  eapply wp_mono; [|exact Hd]. intros [|] v [Hv Hok]; cbn in Hok.
  - restart Legal (ifTrue Legal Recoverable). eapply triple_weaken; [by intros ? _ ?| |apply noticeResume_safe].
    intros [|] w _ Hw; [done|by left].
  - restart Recoverable (ifTrue Legal Recoverable). by done_.
Qed.

End Mend.

End AgentRepair.
