(* ===== verification/AgentAssembly.v ===== *)
(** * Assembling a request: src/internal/llm/inference/assembly.go

    [RowsToMessages]: the stored rows to the message list a provider call
    sends.  Reasoning and the cache breakpoint are not modelled; a row's
    non-text blocks are numbered. *)

From S2P Require Import Prelude GoBytes AgentRow AgentInv AgentAssert.
Import AgentRow AgentInv AgentAssert.

Module AgentAssembly.

(** ** Messages *)

Inductive block := Text (s : bytes) | NonText (row : Z) (i : nat).
(** The content union: absent, a string, or blocks. *)
Inductive content := NoContent | ContentStr (s : bytes) | ContentBlocks (l : list block).

#[export] Instance block_eq_dec : EqDecision block.
Proof. solve_decision. Defined.
#[export] Instance content_eq_dec : EqDecision content.
Proof. solve_decision. Defined.

Record ChatMessage := Chat {
  w_role : role;
  w_content : content;
  w_calls : list ToolCall;
  w_callID : bytes;
  w_isErr : bool
}.

Definition setContent (c : content) (m : ChatMessage) : ChatMessage := Chat (w_role m) c (w_calls m) (w_callID m) (w_isErr m).

Definition isUserMsg (m : ChatMessage) : bool := bool_decide (w_role m = RoleUser).

(** What the provider checks of a message. *)
Definition wireShape (m : ChatMessage) : shape :=
  match w_role m with
  | RoleUser => SUser
  | RoleTool => STool (w_callID m)
  | RoleAssistant => SAssistant (map tc_id (w_calls m))
  end.

Definition MessageSubtypeInjectionMemory : bytes := bs "injection:memory".
Definition quote : bytes := ["034"%char].
Definition SteerOpen : bytes :=
  bs "<steer note=" ++ quote ++ bs "sent while you were working; keep going and respond if appropriate" ++ quote ++ bs ">" ++ [LF].
Definition SteerClose : bytes := [LF] ++ bs "</steer>".
Definition elidedStubText : bytes := bs "[elided]".

(** ** Rows *)

Definition rowContent (r : Message) : content :=
  match Blocks r, Content r with
  | O, [] => NoContent
  | O, s => ContentStr s
  | n, [] => ContentBlocks (map (NonText (ID r)) (seq 0 n))
  | n, s => ContentBlocks (Text s :: map (NonText (ID r)) (seq 0 n))
  end.

Definition wrapSteer (r : Message) (c : content) : content :=
  if negb (bool_decide (Subtype r = MessageSubtypeInjectionSteer)) then c
  else match c with
       | NoContent | ContentStr [] | ContentBlocks [] => c
       | ContentStr s => ContentStr (SteerOpen ++ s ++ SteerClose)
       | ContentBlocks l => ContentBlocks (Text SteerOpen :: l ++ [Text SteerClose])
       end.

Definition rowToMessage (r : Message) : ChatMessage :=
  match Role r with
  | RoleUser => Chat RoleUser (wrapSteer r (rowContent r)) [] [] false
  | RoleTool => Chat RoleTool (rowContent r) [] (ToolCallID r) (IsError r)
  | RoleAssistant => Chat RoleAssistant (rowContent r) (ToolCalls r) [] false
  end.

Definition elidedStub (r : Message) : ChatMessage :=
  let c := ContentStr elidedStubText in
  match Role r with
  | RoleUser => Chat RoleUser c [] [] false
  | RoleTool => Chat RoleTool c [] (ToolCallID r) (IsError r)
  | RoleAssistant => Chat RoleAssistant c (ToolCalls r) [] false
  end.

Definition renderRow (r : Message) : ChatMessage :=
  if bool_decide (WindowState r = WindowElided) then elidedStub r else rowToMessage r.

(** ** Envelopes and packing *)

Definition contentAsBlocks (c : content) : list block :=
  match c with
  | NoContent | ContentStr [] => []
  | ContentStr s => [Text s]
  | ContentBlocks l => l
  end.

Definition prependTextBlock (s : bytes) (m : ChatMessage) : ChatMessage :=
  setContent (ContentBlocks (Text s :: contentAsBlocks (w_content m))) m.
Definition appendTextBlock (s : bytes) (m : ChatMessage) : ChatMessage :=
  setContent (ContentBlocks (contentAsBlocks (w_content m) ++ [Text s])) m.

Section Envelope.

(** [MemoryEnvelopeOpen] and [MemoryEnvelopeClose], the envelope's wording. *)
Context (MemoryEnvelopeOpen : nat -> bytes) (MemoryEnvelopeClose : bytes).

Definition isMemory (r : Message) : bool := bool_decide (Subtype r = MessageSubtypeInjectionMemory).

(** How many memory rows a list opens with. *)
Fixpoint memoryRun (rows : list Message) : nat :=
  match rows with
  | r :: rows => if isMemory r then S (memoryRun rows) else 0
  | [] => 0
  end.

(** [wrapMemoryRuns]; [inRun] says the row before was a memory. *)
Fixpoint wrapMemoryRuns (inRun : bool) (rows : list Message) (msgs : list ChatMessage) : list ChatMessage :=
  match rows, msgs with
  | r :: rows', m :: msgs' =>
      let k := memoryRun rows in
      let m := if isMemory r && negb inRun then prependTextBlock (MemoryEnvelopeOpen k) m else m in
      let m := if bool_decide (k = 1%nat) then appendTextBlock MemoryEnvelopeClose m else m in
      m :: wrapMemoryRuns (isMemory r) rows' msgs'
  | _, _ => msgs
  end.

(** One run of user messages: a run of one is left as it is. *)
Definition mergeRun (run : list ChatMessage) : list ChatMessage :=
  match run with
  | [] | [_] => run
  | _ =>
      let blocks := flat_map (fun m => contentAsBlocks (w_content m)) run in
      [Chat RoleUser (match blocks with [] => NoContent | _ => ContentBlocks blocks end) [] [] false]
  end.

(** The loop of [consolidateAdjacentUsers], [run] the user messages since the
    last other one. *)
Fixpoint packRuns (run msgs : list ChatMessage) : list ChatMessage :=
  match msgs with
  | [] => mergeRun run
  | m :: msgs => if isUserMsg m then packRuns (run ++ [m]) msgs else mergeRun run ++ m :: packRuns [] msgs
  end.
Definition consolidateAdjacentUsers (msgs : list ChatMessage) : list ChatMessage := packRuns [] msgs.

(** [RowsToMessages] with the zero options. *)
Definition RowsToMessages (rows : list Message) : list ChatMessage :=
  let active := requestRows rows in
  consolidateAdjacentUsers (wrapMemoryRuns false active (map renderRow active)).

(** ** What the provider sees *)

Lemma render_shape r : wireShape (renderRow r) = shapeOf r.
Proof. unfold renderRow, elidedStub, rowToMessage, wireShape, shapeOf. by destruct (bool_decide _), (Role r). Qed.

Lemma wrap_shape rows : forall inRun msgs, map wireShape (wrapMemoryRuns inRun rows msgs) = map wireShape msgs.
Proof.
  induction rows as [|r rows IH]; intros inRun [|m msgs]; try done. cbn [wrapMemoryRuns map]. rewrite IH. f_equal.
  by destruct (isMemory r && negb inRun), (bool_decide _).
Qed.

Lemma user_shape m : isUserMsg m = true -> wireShape m = SUser.
Proof. intros H. apply bool_decide_eq_true in H. unfold wireShape. by rewrite H. Qed.

Lemma merge_legal run l : Forall (fun m => isUserMsg m = true) run -> legal l = true -> legal (map wireShape (mergeRun run) ++ l) = true.
Proof.
  intros Hr Hl. apply owes_app; [|done]. apply legal_users. unfold mergeRun. destruct run as [|m [|m' run]].
  - constructor.
  - apply Forall_cons in Hr as [Hm _]. repeat constructor. by rewrite user_shape.
  - by repeat constructor.
Qed.

(** Packing users does not move an answer. *)
Lemma pack_legal msgs : forall run o, Forall (fun m => isUserMsg m = true) run -> (run <> [] -> o = []) ->
  owes o (map wireShape msgs) = true -> owes o (map wireShape (packRuns run msgs)) = true.
Proof.
  induction msgs as [|m msgs IH]; intros run o Hr Ho Hl; cbn [packRuns].
  - cbn in Hl. apply bool_decide_eq_true in Hl as ->. rewrite <- (app_nil_r (map wireShape _)). by apply merge_legal.
  - destruct (isUserMsg m) eqn:E.
    + cbn in Hl. rewrite (user_shape m E) in Hl. apply andb_true_iff in Hl as [H1 H2]. apply bool_decide_eq_true in H1 as ->.
      apply IH; [|done|done]. apply Forall_app. split; [done|by repeat constructor].
    + assert (owes o (map wireShape (m :: packRuns [] msgs)) = true) as Hm.
      { assert (forall o', owes o' (map wireShape msgs) = true -> owes o' (map wireShape (packRuns [] msgs)) = true) as HI
          by (intros o'; by apply IH). cbn in *. destruct (wireShape m).
        - apply andb_true_iff in Hl as [-> Hl]. by apply HI.
        - destruct (settle id o); [|done]. by apply HI.
        - apply andb_true_iff in Hl as [-> Hl]. by apply HI. }
      destruct run as [|x run]; [done|]. rewrite (Ho ltac:(done)) in *. rewrite map_app. by apply merge_legal.
Qed.

Lemma assembly_legal rows : legal (map shapeOf (requestRows rows)) = true -> legal (map wireShape (RowsToMessages rows)) = true.
Proof.
  intros H. apply pack_legal; [constructor|done|]. rewrite wrap_shape, map_map.
  erewrite map_ext; [exact H|]. apply render_shape.
Qed.

End Envelope.

End AgentAssembly.
