(* ===== verification/AgentSpec.v ===== *)
(** * The agent loop: what it promises *)

From S2P Require Import Prelude GoBytes AgentRow AgentWindow AgentCompact AgentProg AgentLoop AgentEngine AgentInv AgentAssert AgentSafe AgentTurn AgentRepair AgentAssembly.
Import AgentRow AgentWindow AgentCompact AgentProg AgentLoop AgentEngine AgentInv AgentStable AgentAssert AgentHoare AgentSafe AgentTurn AgentRepair AgentAssembly.

(** * A conversation's whole life

    Engagements one after another on one transcript: each repairs, runs among
    the world's writes, and may die at any call; between them the world writes,
    hoisted openings included.  [session] is what such a life can leave. *)

Module AgentSystem.

(** ** Hoisting *)

Definition clt (a b : cell) : Prop := (c_key a < c_key b)%Q.

Lemma view_strict t : wf t -> StronglySorted clt (view t).
Proof.
  intros Hwf. unfold view. induction (wf_strict t Hwf) as [|m l _ IH Hm]; cbn; constructor; [done|].
  apply List.Forall_map. exact Hm.
Qed.

Definition below (q : Q) (c : cell) : Prop := (c_key c < q)%Q /\ isUser c \/ (q < c_key c)%Q.

(** From a cell above [q] on, everything is above. *)
Lemma above_all q c v : StronglySorted clt (c :: v) -> (q < c_key c)%Q -> Forall (fun x => (q < c_key x)%Q) (c :: v).
Proof.
  intros Hs Hq. inversion_clear Hs as [|? ? _ Hc]. constructor; [done|]. eapply Forall_impl; [exact Hc|].
  intros x Hx. unfold clt in Hx. lra.
Qed.

Lemma split_below q v : StronglySorted clt v -> Forall (below q) v ->
  exists v1 v2, v = v1 ++ v2 /\ Forall (fun c => (c_key c < q)%Q /\ isUser c) v1 /\ Forall (fun c => (q < c_key c)%Q) v2.
Proof.
  induction v as [|c v IH]; intros Hs Hb; [by exists [], []|]. apply Forall_cons in Hb as [[Hc|Hc] Hb].
  - inversion_clear Hs as [|? ? Hs' _]. destruct (IH Hs' Hb) as (v1 & v2 & -> & H1 & H2). exists (c :: v1), v2. split_and!; [done|by constructor|done].
  - exists [], (c :: v). split_and!; [done|constructor|by apply above_all].
Qed.

Lemma legal_skip_users v1 v2 : Forall isUser v1 -> legal (shapes (v1 ++ v2)) = true -> legal (shapes v2) = true.
Proof. induction 1 as [|c v Hc _ IH]; [done|]. cbn. rewrite Hc. done. Qed.

Lemma users_of q v : Forall (fun c => (c_key c < q)%Q /\ isUser c) v -> Forall isUser v /\ Forall (fun c => (c_key c < q)%Q) v.
Proof. intros H. split; (eapply Forall_impl; [exact H|]; by intros c [? ?]). Qed.

(** A user row between user rows and the rest of a window. *)
Lemma hoist_view m q t : wf t -> Role m = RoleUser -> Seq m = Some q -> inWindow m = true -> (q < inject_Z (t_next t))%Q ->
  forall v1 v2, view t = v1 ++ v2 -> Forall (fun c => (c_key c < q)%Q) v1 -> Forall (fun c => (q < c_key c)%Q) v2 ->
  wf (Insert m t) /\ exists c, isUser c /\ view (Insert m t) = v1 ++ c :: v2.
Proof.
  intros Hwf Hr Hs Hw Hq v1 v2 Hv H1 H2. set (c := cellOf (setID (t_next t) m)).
  assert (c_key c = q) as Hk by (cbn; unfold assemblyKey; cbn; by rewrite Hs).
  assert (c_shape c = SUser) as Hc by (cbn; unfold shapeOf; cbn; by rewrite Hr).
  rewrite <- Hk in H1, H2. split.
  - apply (wf_insert m t v1 v2); try done; fold c; unfold callsOf; rewrite ?Hc; try done; try by constructor.
    + split; [|done]. change (c_key c < inject_Z (t_next t + 1))%Q. rewrite Hk. eapply Qlt_trans; [exact Hq|]. rewrite <- Zlt_Qlt. lia.
    + set_solver.
  - exists c. split; [done|]. by apply view_insert.
Qed.

Lemma between_keeps t u : between t u -> wf t -> Recoverable t -> wf u /\ Recoverable u.
Proof.
  destruct 1 as [t u Hr|m q t Hr Hs Hw Hq Hb]; intros Hwf Hrec.
  - destruct (rely_evolve t u Hr Hwf) as [Hu He]. split; [done|]. by eapply Recoverable_stable.
  - pose proof (view_strict t Hwf) as Hst. destruct Hrec as [Hl|(pre & a & ts & us & ids & i & Hv & Hl & Ha & Hts & Hus)].
    + destruct (split_below q _ Hst Hb) as (v1 & v2 & Hv & H1 & H2). apply users_of in H1 as [Hu1 Hk1].
      destruct (hoist_view m q t Hwf Hr Hs Hw Hq v1 v2 Hv Hk1 H2) as (Hwf' & c & Hc & Hvi). split; [done|]. left. unfold Legal in *.
      rewrite Hvi. rewrite Hv in Hl. apply legal_app; [by apply shapes_users|]. cbn. rewrite Hc. cbn. by eapply legal_skip_users.
    + rewrite Hv in Hst, Hb. apply StronglySorted_app in Hst as (_ & Hs1 & Hs2). apply Forall_app in Hb as [Hb1 Hb2].
      apply Forall_cons in Hb2 as [[[_ Hba]|Hba] _]; [unfold isUser in Hba; congruence|].
      destruct (split_below q _ Hs1 Hb1) as (v1 & v2 & -> & H1 & H2). apply users_of in H1 as [Hu1 Hk1].
      destruct (hoist_view m q t Hwf Hr Hs Hw Hq v1 (v2 ++ a :: ts ++ us)) as (Hwf' & c & Hc & Hvi); [by rewrite Hv, <- app_assoc|done| |].
      { apply Forall_app. split; [done|by apply above_all]. }
      split; [done|]. right. exists (v1 ++ c :: v2), a, ts, us, ids, i. split_and!; try done; [by rewrite Hvi, <- app_assoc|].
      apply legal_app; [by apply shapes_users|]. cbn. rewrite Hc. cbn. by eapply legal_skip_users.
Qed.

(** ** Sessions *)

(** Who writes from the repair's reading at [u] to its last answer: anyone,
    unless the interrupted batch ends the transcript; then nobody. *)
Definition during (u t v : table) : Prop := ~ openTail u /\ rely t v.

Lemma during_rely u t v : during u t v -> rely t v.
Proof. by intros []. Qed.

(** The repair, the world writing up to its reading and [during] it, has got
    to [p] at [v]. *)
Definition repairing (T : Texts) (params : Params) (t : table) (p : prog bool) (v : table) : Prop :=
  exists u, rtc rely t u /\ reach (during u) answers (listed (repairTranscript T params) (ListForAssembly u)) u p v.

(** The repair ran and the loop can start. *)
Definition repaired (T : Texts) (params : Params) (t v : table) : Prop := repairing T params t (Ret true) v.

Inductive session : table -> Prop :=
| session_start n : 0 < n -> session (Table [] n)
| session_world t u : session t -> between t u -> session u
| session_repair T params t p u : session t -> repairing T params t p u -> session u
| session_run T params n t v p u : session t -> repaired T params t v ->
    reach rely answers (runRepaired T params n) v p u -> session u.

Lemma wf_empty n : 0 < n -> wf (Table [] n) /\ Recoverable (Table [] n).
Proof. intros Hn. split; [by constructor; cbn; try constructor|by left]. Qed.

Lemma rely_keeps t u : rtc rely t u -> wf t -> Recoverable t -> wf u /\ Recoverable u.
Proof. induction 1 as [|t v u Hr _ IH]; intros Hwf Hrec; [done|]. by apply IH; apply (between_keeps t v (between_rely t v Hr)). Qed.

(** Wherever the repair has got to, what it left is recoverable, and legal once
    it ended well. *)
Lemma repairing_inv T params t p v : wf t -> Recoverable t -> repairing T params t p v ->
  (wf v /\ Recoverable v) /\ (p = Ret true -> Legal v).
Proof.
  intros Hwf Hr (u & Hu & Hreach). destruct (rely_keeps t u Hu Hwf Hr) as [Hwu Hru].
  pose proof (repairListed_safe (during u) (during_rely u) T params u Hwu Hru) as Hw.
  destruct (wp_adequate _ _ _ _ _ _ _ _ _ Hreach (Hw (fun Ho _ _ '(conj Hn _) => Hn Ho))) as (Hi & _ & HQ).
  split; [done|]. intros ->. by destruct (HQ true eq_refl).
Qed.

Lemma repaired_legal T params t v : wf t -> Recoverable t -> repaired T params t v -> wf v /\ Legal v.
Proof. intros Hwf Hr Hrep. destruct (repairing_inv T params t (Ret true) v Hwf Hr Hrep) as [[? _] H]. by auto. Qed.

Lemma session_inv t : session t -> wf t /\ Recoverable t.
Proof.
  induction 1 as [n Hn|t u _ [Hwf Hr] Hb|T params t p u _ [Hwf Hr] Hreach|T params n t v p u _ [Hwf Hr] Hrep Hreach].
  - by apply wf_empty.
  - by eapply between_keeps.
  - by apply (repairing_inv T params t p u Hwf Hr).
  - destruct (repaired_legal T params t v Hwf Hr Hrep) as [Hv Hl].
    pose proof (runRepaired_safe rely (fun _ _ H => H) T params n v Hv Hl) as Hw.
    by destruct (wp_adequate _ _ _ _ _ _ _ _ _ Hreach Hw) as ([? ?] & _).
Qed.

End AgentSystem.

Import AgentSystem.

Module AgentSpec.

(** ** Requests *)

(** C3: Whatever a conversation went through (engagements killed at any call,
    store errors, people writing and withdrawing at any moment of a run,
    compactions, openings hoisted between runs), every request an engagement
    sends after its repair answers each tool call in the messages right behind
    it and owes nothing at its end, so the provider never rejects it for its
    shape.  Two provisos: the provider names every tool call with an id that is
    not empty and new to the transcript ([answers]), and while a repair mends a
    transcript that ends with the interrupted batch, nobody writes between its
    reading and its last answer ([during]); a message that arrives in that
    interval makes the transcript illegal ([repair_tail_race]). *)
Theorem sessions_send_legal T params n t v kind rows k u opening closing : session t -> repaired T params t v ->
  reach rely answers (runRepaired T params n) v (PStream kind rows k) u ->
  legal (map wireShape (RowsToMessages opening closing rows)) = true.
Proof.
  intros Hs Hrep Hr. destruct (session_inv t Hs) as [Hwf Hrec]. destruct (repaired_legal T params t v Hwf Hrec Hrep) as [Hv Hl].
  pose proof (runRepaired_safe rely (fun _ _ H => H) T params n v Hv Hl) as Hw.
  destruct (wp_adequate _ _ _ _ _ _ _ _ _ Hr Hw) as (_ & Hc & _). apply assembly_legal. by eapply Hc.
Qed.

(** ** Packing *)

Definition adjacentUsers (a b : ChatMessage) : bool := isUserMsg a && isUserMsg b.

(** No two neighbours are both user messages. *)
Fixpoint alternates (l : list ChatMessage) : bool :=
  match l with
  | a :: ((b :: _) as l') => negb (adjacentUsers a b) && alternates l'
  | _ => true
  end.

Definition blocksOf (l : list ChatMessage) : list block := flat_map (fun m => contentAsBlocks (w_content m)) l.

Lemma merge_user run : Forall (fun m => isUserMsg m = true) run -> run <> [] ->
  exists m, mergeRun run = [m] /\ isUserMsg m = true /\ contentAsBlocks (w_content m) = blocksOf run.
Proof.
  intros Hr Hne. unfold mergeRun. destruct run as [|m [|m' run]]; [done| |].
  - apply Forall_cons in Hr as [Hm _]. exists m. split_and!; [done|done|]. cbn. by rewrite app_nil_r.
  - eexists. split; [done|]. split; [done|]. unfold blocksOf. cbn [w_content]. set (bl := flat_map _ _). by destruct bl.
Qed.

Lemma alternates_other m l : isUserMsg m = false -> alternates l = true -> alternates (m :: l) = true.
Proof. intros Hm Hl. destruct l as [|x l]; [done|]. cbn [alternates]. unfold adjacentUsers. by rewrite Hm. Qed.

Lemma pack_alternates msgs : forall run, Forall (fun m => isUserMsg m = true) run -> alternates (packRuns run msgs) = true.
Proof.
  induction msgs as [|m msgs IH]; intros run Hr; cbn [packRuns].
  - destruct run as [|x run]; [done|]. destruct (merge_user (x :: run) Hr) as (m & Hm & _); [done|]. by rewrite Hm.
  - destruct (isUserMsg m) eqn:E; [apply IH; apply Forall_app; split; [done|by repeat constructor]|].
    assert (alternates (m :: packRuns [] msgs) = true) as Hm by (apply alternates_other; [done|]; by apply IH).
    destruct run as [|x run]; [done|]. destruct (merge_user (x :: run) Hr) as (y & Hy & _); [done|]. rewrite Hy.
    change (negb (adjacentUsers y m) && alternates (m :: packRuns [] msgs) = true). unfold adjacentUsers.
    by rewrite E, andb_false_r, Hm.
Qed.

Lemma pack_blocks msgs : forall run, Forall (fun m => isUserMsg m = true) run -> blocksOf (packRuns run msgs) = blocksOf run ++ blocksOf msgs.
Proof.
  assert (forall run, Forall (fun m => isUserMsg m = true) run -> blocksOf (mergeRun run) = blocksOf run) as Hm.
  { intros [|x run] Hr; [done|]. destruct (merge_user (x :: run) Hr) as (m & Hm & _ & Hb); [done|]. rewrite Hm. cbn [blocksOf flat_map]. by rewrite app_nil_r, Hb. }
  induction msgs as [|m msgs IH]; intros run Hr; cbn [packRuns].
  - rewrite Hm by done. cbn. by rewrite app_nil_r.
  - destruct (isUserMsg m) eqn:E.
    + rewrite IH by (apply Forall_app; split; [done|by repeat constructor]). unfold blocksOf. rewrite flat_map_app. cbn. by rewrite app_nil_r, <- app_assoc.
    + unfold blocksOf in *. rewrite flat_map_app. fold (blocksOf (mergeRun run)). rewrite Hm by done. cbn. by rewrite IH by constructor.
Qed.

(** Packing keeps the messages' blocks in order and leaves no two user messages
    side by side. *)
Theorem packing_alternates msgs : alternates (consolidateAdjacentUsers msgs) = true /\
  blocksOf (consolidateAdjacentUsers msgs) = blocksOf msgs.
Proof. split; [by apply pack_alternates|by apply pack_blocks]. Qed.

Lemma pack_app msgs more : forall run, Forall (fun m => isUserMsg m = true) run ->
  exists keep lastRun, packRuns run msgs = keep ++ mergeRun lastRun /\ packRuns run (msgs ++ more) = keep ++ packRuns lastRun more /\
    lastRun `suffix_of` run ++ msgs /\ Forall (fun m => isUserMsg m = true) lastRun.
Proof.
  induction msgs as [|m msgs IH]; intros run Hr; cbn [packRuns app].
  - exists [], run. split_and!; [done|done|by rewrite app_nil_r|done].
  - destruct (isUserMsg m) eqn:E.
    + destruct (IH (run ++ [m])) as (keep & lastRun & H1 & H2 & H3 & H4); [apply Forall_app; split; [done|by repeat constructor]|].
      exists keep, lastRun. split_and!; [done|done|by rewrite <- app_assoc in H3|done].
    + destruct (IH [] ltac:(constructor)) as (keep & lastRun & H1 & H2 & H3 & H4). exists (mergeRun run ++ m :: keep), lastRun.
      rewrite H1, H2, <- !app_assoc. split_and!; [done|done| |done]. apply suffix_app_r, suffix_cons_r, H3.
Qed.

(** Rows appended to a transcript change the packed request only from its last
    run of user messages on: everything before it, the cached prefix, is sent
    byte for byte as before. *)
Theorem packing_append_stable msgs more : exists keep lastRun,
  consolidateAdjacentUsers msgs = keep ++ mergeRun lastRun /\
  consolidateAdjacentUsers (msgs ++ more) = keep ++ packRuns lastRun more /\
  lastRun `suffix_of` msgs /\ Forall (fun m => isUserMsg m = true) lastRun.
Proof. apply (pack_app msgs more []). constructor. Qed.

(** ** Repair *)

(** A run in which every store call succeeds and nobody writes. *)
Fixpoint quietRun {A} (p : prog A) (t : table) : option (A * table) :=
  match p with
  | Ret a => Some (a, t)
  | PList k => quietRun (k (Some (ListForAssembly t))) t
  | PInsert m k => quietRun (k (Some (t_next t))) (Insert m t)
  | PMark ids st k => quietRun (k (Some tt)) (MarkDelivered ids st t)
  | PCompact reply result ids k => quietRun (k (Some tt)) (Compact reply result ids t)
  | PSettle id u r k => quietRun (k (Some tt)) (SettleCompactionRequest id u r t)
  | PStream _ _ _ | PAsk _ _ => None
  end.

Lemma quietRun_reach {A} R (p : prog A) : forall t a u, quietRun p t = Some (a, u) -> reach R answers p t (Ret a) u.
Proof.
  induction p as [a|k IH|m k IH|ids st k IH|reply result ids k IH|id us r k IH|kind rows k IH|q k IH]; intros t b u H; cbn in H; try done.
  - injection H as -> ->. constructor.
  - eapply reach_call; [constructor|done|by apply IH].
  - eapply reach_call; [constructor|done|by apply IH].
  - eapply reach_call; [constructor|done|by apply IH].
  - eapply reach_call; [constructor|done|by apply IH].
  - eapply reach_call; [constructor|done|by apply IH].
Qed.

Lemma quietRun_bind {A B} (p : prog A) (f : A -> prog B) : forall t a u, quietRun p t = Some (a, u) ->
  quietRun (pbind p f) t = quietRun (f a) u.
Proof.
  induction p as [a|k IH|m k IH|ids st k IH|reply result ids k IH|id us r k IH|kind rows k IH|q k IH]; intros t b u H; cbn in *; try done; try by apply IH.
  by injection H as -> ->.
Qed.

Lemma insertRepairs_runs T params ps : forall t, exists u, quietRun (insertRepairs T params ps) t = Some (true, u).
Proof. induction ps as [|p ps IH]; intros t; [by exists t|]. cbn. apply IH. Qed.

Lemma noticeResume_runs T params rows t : exists u, quietRun (noticeResume T params rows) t = Some (true, u).
Proof. unfold noticeResume. repeat case_match; cbn; eauto. Qed.

Lemma repair_runs T params t : exists v, quietRun (repairTranscript T params) t = Some (true, v).
Proof.
  destruct (insertRepairs_runs T params (repairs (ListForAssembly t)) t) as [u Hu].
  destruct (noticeResume_runs T params (ListForAssembly t) u) as [v Hv]. exists v. cbn.
  unfold repairDanglingToolCalls. rewrite (quietRun_bind _ _ _ _ _ Hu). exact Hv.
Qed.

(** A repair nobody writes among is one. *)
Lemma quiet_repaired T params t v : quietRun (repairTranscript T params) t = Some (true, v) -> repaired T params t v.
Proof. intros H. exists t. split; [reflexivity|]. by apply quietRun_reach. Qed.

(** C37: From whatever an earlier engagement left: every repair that runs to its
    end among the writes [during] allows (none while it mends a batch that ends
    the transcript) leaves a transcript that is legal, in which no tool call
    lacks an answer, so that a second repair has no answer to add; and the
    repair does run to its end when no store call fails and nobody writes. *)
Theorem repair_completes T params t : session t ->
  (forall v, repaired T params t v -> Legal v /\ repairs (ListForAssembly v) = []) /\
  (exists v, quietRun (repairTranscript T params) t = Some (true, v) /\ repaired T params t v).
Proof.
  intros Hs. destruct (session_inv t Hs) as [Hwf Hrec]. split.
  - intros v Hv. destruct (repaired_legal T params t v Hwf Hrec Hv) as [Hwv Hl]. split; [done|by apply repairs_legal].
  - destruct (repair_runs T params t) as [v Hv]. exists v. split; [done|by apply quiet_repaired].
Qed.

(** ** Compaction *)

(** A compaction replaces the span by its result and swallows no queued input:
    every undelivered row of the window is still there, in order, behind the
    result. *)
Theorem compaction_keeps_queue reply summary T t : wf t ->
  let span := compactionSpan (ListForAssembly t) in
  let result := setID (resultID reply t) (composeResultRow T summary) in
  let queue := filter (fun m => Delivered m = false) (ListForAssembly t) in
  exists moved, ListForAssembly (Compact reply (composeResultRow T summary) span t) = result :: moved /\
    map (fun m => (ID m, Role m, Subtype m, Content m, Delivered m)) moved = map (fun m => (ID m, Role m, Subtype m, Content m, Delivered m)) queue.
Proof.
  intros Hwf span result queue.
  rewrite (compact_window reply (composeResultRow T summary) span t Hwf (compactionSpan_lt t Hwf)) by done.
  unfold compacted. set (mv := requeue reply (composeResultRow T summary) span t).
  assert (filter (fun m => Delivered m = true) (kept span t) = []) as ->.
  { apply elem_of_nil_inv. intros m Hm. apply list_elem_of_filter in Hm as [Hd Hm].
    unfold kept in Hm. apply list_elem_of_filter in Hm as [Hn Hm]. apply Hn. unfold span, compactionSpan.
    apply list_elem_of_In, in_map, list_elem_of_In, list_elem_of_filter. done. }
  assert (filter (fun m => Delivered m = false) (kept span t) = queue) as ->.
  { unfold kept, queue. rewrite list_filter_filter. apply filter_ext_in. intros m Hm. split; [tauto|]. intros Hd. split; [done|].
    intros Hin. apply list_elem_of_In, in_map_iff in Hin as (x & He & Hx). apply list_elem_of_In, list_elem_of_filter in Hx as [Hdx Hx].
    apply window_elem in Hx as [Hx _]. apply window_elem in Hm as [Hm _].
    rewrite (id_unique _ x m (wf_ids t Hwf) Hx Hm He) in Hdx. unfold isDelivered in Hdx. congruence. }
  exists (map mv queue). split; [done|]. rewrite map_map. apply map_ext. intros m. unfold mv, requeue, moved. by case_match.
Qed.

(** ** What the loop never does *)

(** Every question [p] can ask satisfies [Pq], every result it can end with
    [Pr], whatever the world answers. *)
Fixpoint always {A} (Pq : question -> Prop) (Pr : A -> Prop) (p : prog A) : Prop :=
  match p with
  | Ret a => Pr a
  | PList k => forall x, always Pq Pr (k x)
  | PInsert _ k => forall x, always Pq Pr (k x)
  | PMark _ _ k | PCompact _ _ _ k | PSettle _ _ _ k => forall x, always Pq Pr (k x)
  | PStream _ _ k => forall x, always Pq Pr (k x)
  | PAsk q k => Pq q /\ forall x, always Pq Pr (k x)
  end.

Lemma always_bind {A B} Pq (Pa : A -> Prop) (Pb : B -> Prop) (p : prog A) (f : A -> prog B) :
  always Pq Pa p -> (forall a, Pa a -> always Pq Pb (f a)) -> always Pq Pb (pbind p f).
Proof.
  intros Hp Hf. induction p as [a|k IH|m k IH|ids st k IH|reply result ids k IH|id us r k IH|kind rows k IH|q k IH]; cbn in *;
    [by apply Hf|intros x; by apply IH..|]. destruct Hp as [Hq Hp]. split; [done|]. intros x. by apply IH.
Qed.

Lemma always_true {A} (p : prog A) : always (fun _ => True) (fun _ => True) p.
Proof.
  induction p as [a|k IH|m k IH|ids st k IH|reply result ids k IH|id us r k IH|kind rows k IH|q k IH]; cbn; auto.
Qed.

Lemma always_reach {A} R an Pq (Pr : A -> Prop) p t p' u : @reach R an A p t p' u -> always Pq Pr p -> always Pq Pr p'.
Proof.
  induction 1 as [|p t u p' v _ _ IH|p t ev q u p' v Hs _ _ IH]; intros Hp; [done|by apply IH|]. apply IH.
  destruct Hs; cbn in Hp; try done. by apply Hp.
Qed.

Definition isTool (q : question) : bool := match q with QTool _ => true | _ => false end.
Notation undispatched := (always (fun q => isTool q = false) (fun _ => True)).

Create HintDb walk.
Ltac walk := repeat (cbn [always pbind]; intros; auto with walk;
  first [ exact I | split; [reflexivity|] | progress case_match | eapply always_bind; [by auto with walk|intros ? _] ]).

Section Never.

Context (T : Texts) (params : Params).

Lemma insert_undispatched call content err seq images : undispatched (insertToolResult call content err seq images).
Proof. done. Qed.
#[local] Hint Resolve insert_undispatched : walk.

Lemma answer_undispatched owner n calls notice : forall i, undispatched (answerFrom owner n i calls notice).
Proof. induction calls as [|c calls IH]; intros i; cbn [answerFrom]; [done|]. cbn. intros [x|]; [apply IH|done]. Qed.

Lemma notice_undispatched content : undispatched (insertNotice content).
Proof. done. Qed.
Lemma pending_undispatched content st : undispatched (insertPending content st).
Proof. unfold insertPending. walk. Qed.
Lemma stream_undispatched n : forall delay kind rows, undispatched (streamLoop params n delay kind rows).
Proof. induction n as [|n IH]; intros delay kind rows; cbn [streamLoop]; walk. Qed.
Lemma persist_undispatched c : undispatched (persistAssistant c).
Proof. unfold persistAssistant. walk. Qed.
Lemma commit_undispatched reply summary span : undispatched (commitCompaction T reply summary span).
Proof. done. Qed.
#[local] Hint Resolve notice_undispatched pending_undispatched stream_undispatched persist_undispatched commit_undispatched : walk.

Lemma cold_undispatched : undispatched (compactCold T params).
Proof. unfold compactCold, streamWithRetry. walk. Qed.
#[local] Hint Resolve cold_undispatched : walk.
Lemma warm_undispatched : undispatched (compactWarm T params).
Proof. unfold compactWarm, streamWithRetry. walk. Qed.
#[local] Hint Resolve warm_undispatched : walk.
Lemma full_undispatched : undispatched (compactWindowFull T params).
Proof. unfold compactWindowFull. walk. Qed.
Lemma undispatched_answer owner calls notice : undispatched (answerUndispatchedCalls owner calls notice).
Proof. apply answer_undispatched. Qed.
Lemma repairs_undispatched ps : undispatched (insertRepairs T params ps).
Proof. induction ps as [|p ps IH]; cbn [insertRepairs]; walk. Qed.
#[local] Hint Resolve full_undispatched undispatched_answer repairs_undispatched : walk.

(** ** Attempts *)

(** [p] makes at most [n] provider calls, whatever the world answers. *)
Fixpoint callsUpTo {A} (n : nat) (p : prog A) : Prop :=
  match p with
  | Ret _ => True
  | PList k => forall x, callsUpTo n (k x)
  | PInsert _ k => forall x, callsUpTo n (k x)
  | PMark _ _ k | PCompact _ _ _ k | PSettle _ _ _ k => forall x, callsUpTo n (k x)
  | PStream _ _ k => match n with O => False | S n => forall x, callsUpTo n (k x) end
  | PAsk _ k => forall x, callsUpTo n (k x)
  end.

Lemma streamLoop_calls n : forall delay kind rows, callsUpTo (S n) (streamLoop params n delay kind rows).
Proof.
  induction n as [|n IH]; intros delay kind rows; cbn; intros [c|class overflow]; cbn; auto; intros [|]; cbn; auto;
    destruct (bool_decide _); cbn; auto. intros [|]; cbn; auto.
Qed.

(** A provider call is tried at most [MaxAttempts] times, five when unset, and
    with the base delay within the cap every wait is positive and within it. *)
Theorem attempts_bounded kind rows : callsUpTo (maxAttempts params) (streamWithRetry params kind rows) /\
  maxAttempts params = (if RetryMaxAttempts params <=? 0 then 5%nat else Z.to_nat (RetryMaxAttempts params)) /\
  (baseDelay params <= maxDelay params ->
   always (fun q => match q with QSleep d => 0 < d <= maxDelay params | _ => True end) (fun _ => True) (streamWithRetry params kind rows)).
Proof.
  split_and!.
  - unfold streamWithRetry. replace (maxAttempts params) with (S (Nat.pred (maxAttempts params))) at 1; [apply streamLoop_calls|].
    unfold maxAttempts. destruct (Z.leb_spec (RetryMaxAttempts params) 0); lia.
  - unfold maxAttempts. by destruct (_ <=? _).
  - intros Hd. unfold streamWithRetry.
    assert (0 < baseDelay params <= maxDelay params) as Hb by (split; [|done]; unfold baseDelay; destruct (Z.leb_spec (RetryBaseDelay params) 0); lia).
    revert Hb. generalize (baseDelay params). generalize (Nat.pred (maxAttempts params)). intros n. clear Hd.
    induction n as [|n IH]; intros d Hb; cbn; intros [c|class overflow]; cbn; auto; (split; [done|]); intros [|]; cbn; auto;
      destruct (bool_decide _); cbn; auto. split; [done|]. intros [|]; cbn; auto. apply IH. lia.
Qed.

(** No call is ever run twice for want of a recorded result, nor run from a
    message that was cut short: the repair dispatches nothing, and neither does
    a turn that stopped at a limit, was declined or ended in a way nobody
    classified. *)
Theorem never_redispatched : undispatched (repairTranscript T params) /\
  forall s maxTokens rows reason row, interrupted (classifyStop reason) = true ->
    undispatched (onStop T params s maxTokens rows reason row).
Proof.
  split.
  - unfold repairTranscript, repairDanglingToolCalls, noticeResume. walk.
  - intros s maxTokens rows reason row Hi. unfold onStop, finishWith, failed, parkOnStop, compactFailed, insertDelivered, insertNotice.
    destruct (classifyStop reason); try done; walk.
Qed.

(** ** Conclusions *)

Notation ends := (always (fun _ => True)).

Definition aloneBatch (n : nat) (b : batchEnd) : Prop := match b with BatchTerminated _ _ _ => (n <= 1)%nat | _ => True end.

Lemma dispatch_alone owner n calls : forall i terminal deaths, (is_Some terminal -> (n <= 1)%nat) ->
  ends (aloneBatch n) (dispatchFrom T params owner n i calls terminal deaths).
Proof.
  induction calls as [|c calls IH]; intros i terminal deaths Ht; cbn [dispatchFrom].
  - destruct terminal as [[[o r] s]|]; [|done]. apply Ht. eauto.
  - cbn [pbind]. split; [done|]. intros [|]; [done|]. split; [done|]. intros [out|]; cbn [pbind].
    + intros [x|]; cbn [pbind]; [|done]. apply IH. destruct (tf_terminal out) eqn:E; cbn [tf_terminal]; [|by rewrite E].
      destruct (Nat.leb_spec n 1); [done|]. cbn [tf_terminal]. done.
    + split; [done|]. intros deny. cbn [pbind]. destruct (negb _); cbn [pbind]; [intros [x|]; [by apply IH|done]|].
      split; [done|]. intros [text|content images|notice]; cbn [pbind]; [intros [x|]; [by apply IH|done]..|].
      split; [done|]. intros [|]; [done|]. cbn [pbind]. apply (always_bind _ (fun _ => True)).
      * apply always_true.
      * intros rd _. split; [done|]. intros [|]; [done|]. cbn [pbind]. apply (always_bind _ (fun _ => True)); [apply always_true|].
        intros ok _. cbn. by destruct (negb ok), rd.1.
Qed.

(** What a turn's conclusion rests on: the reply is whole, ended by the model. *)
Definition concluded (reason : bytes) (row : Message) (e : turnEnd) : Prop :=
  match e with
  | Finish (ResultConcluded o _ s) =>
      match ToolCalls row with
      | [] => (reason = [] \/ reason = bs "stop") /\ o = ConversationOutcomeContinue /\ s = Content row
      | [_] => reason = [] \/ reason = bs "stop" \/ reason = bs "tool_calls"
      | _ => False
      end
  | _ => True
  end.

(** The same through the classes of [classifyStop]. *)
Definition concludedAs (reason : bytes) (row : Message) (e : turnEnd) : Prop :=
  match e with
  | Finish (ResultConcluded o _ s) =>
      match ToolCalls row with
      | [] => classifyStop reason = stopEndTurn /\ o = ConversationOutcomeContinue /\ s = Content row
      | [_] => classifyStop reason = stopEndTurn \/ classifyStop reason = stopToolCalls
      | _ => False
      end
  | _ => True
  end.

Lemma finish_ends p P : (forall r, match r with ResultConcluded _ _ _ => True | _ => P (Finish r) end) ->
  ends (fun r => match r with ResultConcluded _ _ _ => False | _ => True end) p -> ends P (finishWith p).
Proof. intros HP Hp. eapply always_bind; [exact Hp|]. intros r Hr. cbn. specialize (HP r). by destruct r. Qed.

Lemma afterTurn_ends s row reason : (ToolCalls row = [] -> classifyStop reason = stopEndTurn) ->
  (classifyStop reason = stopEndTurn \/ classifyStop reason = stopToolCalls) ->
  ends (concludedAs reason row) (afterTurn T params s row).
Proof.
  intros He Hs. assert (ends (concludedAs reason row) (finishWith failed)) as Hf.
  { apply finish_ends; [by intros []|]. unfold failed. cbn. split; [done|]. by intros []. }
  unfold afterTurn. destruct (ToolCalls row) as [|c calls] eqn:E.
  - cbn [pbind hasPending]. intros [rows|]; cbn [pbind]; [|exact Hf]. destruct (existsb _ _); [done|]. split; [done|].
    intros [|x nudge]; cbn [pbind].
    + unfold concludedAs. cbn. rewrite E. by split; [apply He|].
    + unfold insertPending. cbn [pbind]. intros [rs|]; cbn [pbind]; [|exact Hf]. intros [id|]; [done|exact Hf].
  - eapply always_bind; [apply dispatch_alone; by intros []|]. intros [d|o r sm| |] Hb; [done| | |exact Hf].
    + unfold concludedAs. cbn. rewrite E. cbn in Hb. by destruct calls; [|cbn in Hb; lia].
    + cbn. split; [done|]. by intros [].
Qed.

Lemma endTurn_reason reason : classifyStop reason = stopEndTurn -> reason = [] \/ reason = bs "stop".
Proof. unfold classifyStop. repeat case_bool_decide; try done. intros _. set_solver. Qed.

Lemma toolCalls_reason reason : classifyStop reason = stopToolCalls -> reason = bs "tool_calls".
Proof. unfold classifyStop. repeat case_bool_decide; try done. intros _. set_solver. Qed.

Lemma concludedAs_concluded reason row e : concludedAs reason row e -> concluded reason row e.
Proof.
  destruct e as [[]|]; try done. unfold concludedAs, concluded. destruct (ToolCalls row) as [|? []]; [|intros [H|H]|done].
  - intros (H & ? & ?). auto using endTurn_reason.
  - apply endTurn_reason in H. tauto.
  - auto using toolCalls_reason.
Qed.

(** A run concludes only from a turn the model itself ended: without calls, on
    an end-of-turn stop, or with one flow-control call as its only call.  A
    truncated, walled, declined or unclassified reply never concludes. *)
Theorem concludes_only_when_done s maxTokens rows reason row t o r sm u :
  reach rely answers (onStop T params s maxTokens rows reason row) t (Ret (Finish (ResultConcluded o r sm))) u ->
  concluded reason row (Finish (ResultConcluded o r sm)).
Proof.
  intros Hreach. apply concludedAs_concluded.
  apply (always_reach _ _ (fun _ => True) (concludedAs reason row) _ _ _ _ Hreach). clear Hreach.
  assert (forall p, ends (fun r => match r with ResultConcluded _ _ _ => False | _ => True end) p -> ends (concludedAs reason row) (finishWith p)) as Hf
    by (intros p; apply finish_ends; by intros []).
  assert (forall rows notice, ends (concludedAs reason row) (finishWith (parkOnStop rows notice))) as Hp
    by (intros; apply Hf; unfold parkOnStop; destruct (HasNoticeSince _ _); cbn; by intros).
  assert (ends (concludedAs reason row) (finishWith failed)) as Hfail by (apply Hf; unfold failed; cbn; split; [done|]; by intros []).
  assert (forall x, ends (concludedAs reason row) (finishWith (pbind (insertNotice x) (fun _ => failed)))) as Hnf
    by (intros; apply Hf; cbn; intros _; split; [done|]; by intros []).
  assert (forall b, ends (concludedAs reason row) (finishWith (compactFailed T b))) as Hcf.
  { intros b. apply Hf. unfold compactFailed. cbn. split; [done|]. intros [|]; [done|]. cbn. destruct b; [done|]. cbn. intros _. split; [done|]. by intros []. }
  assert (forall calls notice (f : bool -> prog turnEnd), (forall b, ends (concludedAs reason row) (f b)) ->
    ends (concludedAs reason row) (pbind (answerUndispatchedCalls (ID row) calls notice) f)) as Ha.
  { intros calls notice f Hfb. apply (always_bind _ (fun _ => True)); [apply always_true|by intros b _]. }
  unfold onStop. destruct (classifyStop reason) eqn:Ec.
  - apply afterTurn_ends; rewrite Ec; auto.
  - destruct (ToolCalls row) eqn:E; [apply Hp|]. apply afterTurn_ends; rewrite ?E; auto; done.
  - destruct (ToolCalls row) as [|c calls].
    + destruct (_ <=? _); [apply Hnf|]. unfold insertDelivered. cbn [pbind]. intros [id|]; [done|apply Hfail].
    + apply Ha. intros [|]; [done|apply Hfail].
  - apply Ha. intros [|]; cbn [negb]; [|apply Hfail]. destruct (_ <=? _); [apply Hnf|].
    apply (always_bind _ (fun _ => True)); [apply always_true|]. intros [[]|b] _; [done|apply Hcf].
  - apply Ha. intros [|]; [apply Hp|apply Hfail].
  - apply Ha. intros [|]; [apply Hp|apply Hfail].
Qed.

End Never.

End AgentSpec.
