(* ===== verification/AgentExample.v ===== *)
(** * The agent loop on concrete conversations

    Scripted executions ([play]): a witness for each theorem with hypotheses,
    and the two orderings the loop does not get right. *)

From S2P Require Import Prelude GoBytes AgentRow AgentWindow AgentCompact AgentProg AgentLoop AgentEngine AgentInv AgentAssert AgentTurn AgentRepair AgentAssembly AgentSpec.
Import AgentRow AgentWindow AgentCompact AgentProg AgentLoop AgentEngine AgentInv AgentStable AgentAssert AgentHoare AgentTurn AgentRepair AgentAssembly AgentSystem AgentSpec.

Module AgentExample.

(** ** Scripts *)

(** One thing that happens: a store call succeeds, someone speaks, the provider
    answers, a question is answered. *)
Inductive cue :=
| Stored
| Says (m : Message)
| Replies (a : attempt)
| AnswersBool (b : bool)
| AnswersBytes (s : bytes)
| AnswersTool (r : toolReply)
| AnswersSide (o : option tfOutcome)
| AnswersClock (z : Z).

Definition fitting (q : question) (c : cue) : option (reply q) :=
  match q, c with
  | QTool _, AnswersTool r => Some r
  | QLoopSide _, AnswersSide o => Some o
  | (QGate _ | QGuard _ | QNudge _ _), AnswersBytes s => Some s
  | (QCancelled | QCredentials | QSleep _ | QRestart), AnswersBool b => Some b
  | QNow, AnswersClock z => Some z
  | _, _ => None
  end.

Definition speaksb (m : Message) : bool := bool_decide (Role m = RoleUser) && bool_decide (Seq m = None) && inWindow m.

Definition answersb (a : attempt) (t : table) : bool :=
  match a with
  | AttemptOk c => bool_decide (NoDup (callNames c)) && forallb (fun id => negb (bool_decide (id = []))) (callNames c) &&
                   forallb (fun id => bool_decide (id ∉ allCalls (view t))) (callNames c)
  | AttemptErr _ _ => true
  end.

Lemma answersb_spec a t : answersb a t = true -> answers a t.
Proof.
  destruct a as [c|]; [|done]. cbn. intros H. apply andb_true_iff in H as [H H3]. apply andb_true_iff in H as [H1 H2].
  apply bool_decide_eq_true in H1. rewrite forallb_forall in H2, H3. split_and!; [done| |].
  - apply Forall_forall. intros id Hid. apply list_elem_of_In in Hid. specialize (H2 id Hid). by apply negb_true_iff, bool_decide_eq_false in H2.
  - intros id Hid. apply list_elem_of_In in Hid. specialize (H3 id Hid). by apply bool_decide_eq_true in H3.
Qed.

(** The program and table after a script; [None] when the script does not fit. *)
Fixpoint play {A} (script : list cue) (p : prog A) (t : table) : option (prog A * table) :=
  match script with
  | [] => Some (p, t)
  | Says m :: script => if speaksb m then play script p (Insert m t) else None
  | c :: script =>
      match p, c with
      | PList k, Stored => play script (k (Some (ListForAssembly t))) t
      | PInsert m k, Stored => play script (k (Some (t_next t))) (Insert m t)
      | PMark ids st k, Stored => play script (k (Some tt)) (MarkDelivered ids st t)
      | PCompact reply result ids k, Stored => play script (k (Some tt)) (Compact reply result ids t)
      | PSettle id u r k, Stored => play script (k (Some tt)) (SettleCompactionRequest id u r t)
      | PStream _ _ k, Replies a => if answersb a t then play script (k a) t else None
      | PAsk q k, _ => match fitting q c with Some x => play script (k x) t | None => None end
      | _, _ => None
      end
  end.

Lemma play_reach {A} script : forall (p : prog A) t p' u, play script p t = Some (p', u) -> reach rely answers p t p' u.
Proof.
  induction script as [|c script IH]; intros p t p' u H; [injection H as -> ->; constructor|].
  destruct c as [|m|a|b0|s0|r0|o0|z0]; try (destruct (speaksb m) eqn:E; [|by cbn in H; rewrite E in H]; cbn in H; rewrite E in H;
    apply andb_true_iff in E as [E1 E3]; apply andb_true_iff in E1 as [E1 E2]; apply bool_decide_eq_true in E1, E2;
    eapply reach_world; [by apply rely_say|by apply IH]);
    destruct p as [x|k|n k|ids st k|rep result ids k|id us rs k|kind rows k|q k]; cbn in H; try done;
    try (eapply reach_call; [by constructor|done|by apply IH]);
    try (destruct (answersb a t) eqn:E; [|done]; eapply reach_call; [constructor| |by apply IH]; intros ? ? ? He; injection He as <- <- <-;
      eexists; split; [done|by apply answersb_spec]);
    destruct (fitting q _); try done; (eapply reach_call; [by constructor|done|by apply IH]).
Qed.

(** The request, the result and the table a script ends at. *)
Definition requestOf {A} (r : option (prog A * table)) : option (list Message) :=
  match r with Some (PStream _ rows _, _) => Some rows | _ => None end.
Definition resultOf {A} (r : option (prog A * table)) : option (A * table) :=
  match r with Some (Ret a, u) => Some (a, u) | _ => None end.
Definition tableOf {A} (r : option (prog A * table)) : option table :=
  match r with Some (_, u) => Some u | None => None end.

Lemma request_reach {A} script (p : prog A) t rows : requestOf (play script p t) = Some rows ->
  exists kind k u, reach rely answers p t (PStream kind rows k) u.
Proof.
  destruct (play script p t) as [[p' u]|] eqn:E; [|done]. apply play_reach in E. destruct p'; try done. intros H. injection H as ->. eauto.
Qed.

Lemma result_reach {A} script (p : prog A) t a u : resultOf (play script p t) = Some (a, u) -> reach rely answers p t (Ret a) u.
Proof.
  destruct (play script p t) as [[p' v]|] eqn:E; [|done]. apply play_reach in E. destruct p'; try done. intros H. by injection H as -> ->.
Qed.

Lemma table_reach {A} script (p : prog A) t u : tableOf (play script p t) = Some u -> exists p', reach rely answers p t p' u.
Proof. destruct (play script p t) as [[p' v]|] eqn:E; [|done]. intros H. injection H as ->. exists p'. by eapply play_reach. Qed.

(** ** A conversation *)

Definition texts : Texts :=
  MkTexts (fun _ _ _ => bs "interrupted") [] (fun _ _ _ => []) (fun _ _ _ _ => []) [] [] [] [] (fun _ => []) []
    (fun _ => []) (fun _ => []) [] [] [] [] [] [] [] [] [] [].
Definition params : Params := MkParams None 4096 None ProvenanceWarm false false None 0 0 0 true.

Definition prompt : Message := userRow [] (bs "fix the bug") None false.
Definition followUp : Message := userRow [] (bs "also the docs") None false.
Definition bash (id : bytes) : ToolCall := TC id (bs "bash").
Definition completion (reason text : bytes) (calls : list ToolCall) : Completion :=
  MkCompletion reason text (map (fun c => (c, MkArgs true true None)) calls) 0 true (MkUsage 10 10 0 0).

(** From the start of the loop to its first provider call. *)
Definition toFirstCall : list cue :=
  [Stored; AnswersBool false; Stored; Stored; Stored; Stored; AnswersBytes []; AnswersBool true].

Definition asked : table := Insert prompt (Table [] 1).

Lemma asked_session : session asked.
Proof. apply (session_world (Table [] 1)); [by apply session_start|]. by apply between_rely, rely_say. Qed.

(** A first engagement calls two tools and dies after the first result. *)
Definition killed : option table :=
  tableOf (play (toFirstCall ++ [Replies (AttemptOk (completion (bs "tool_calls") [] [bash (bs "a"); bash (bs "b")]));
    AnswersClock 0; Stored; AnswersBool false; AnswersSide None; AnswersBytes []; AnswersTool (ToolAnswer (bs "ok") 0); Stored])
    (runRepaired texts params 1) asked).
Definition dead : table := default (Table [] 1) killed.

Lemma dead_session : session dead.
Proof.
  assert (killed = Some dead) as H by (vm_compute; reflexivity).
  destruct (table_reach _ _ _ _ H) as [p' Hr].
  apply (session_run texts params 1 asked asked p'); [apply asked_session| |exact Hr].
  apply quiet_repaired. vm_compute. reflexivity.
Qed.

(** Someone writes before the next claim. *)
Definition answeredLater : table := Insert followUp dead.
Lemma later_session : session answeredLater.
Proof. apply (session_world dead); [apply dead_session|]. by apply between_rely, rely_say. Qed.

Definition mended : table := default (Table [] 1) (snd <$> quietRun (repairTranscript texts params) answeredLater).
Lemma mended_repaired : repaired texts params answeredLater mended.
Proof. apply quiet_repaired. vm_compute. reflexivity. Qed.

Definition nextRequest : option (list Message) := requestOf (play toFirstCall (runRepaired texts params 1) mended).

Lemma sessions_send_legal_witness :
  exists rows, nextRequest = Some rows /\ length rows = 5%nat /\ legal (map wireShape (RowsToMessages (fun _ => []) [] rows)) = true.
Proof.
  assert (exists rows, nextRequest = Some rows /\ length rows = 5%nat) as (rows & H1 & H2)
    by (eexists; split; [vm_compute; reflexivity|reflexivity]).
  exists rows. split; [exact H1|]. split; [exact H2|]. destruct (request_reach toFirstCall _ _ rows H1) as (kind & k & u & Hr).
  exact (sessions_send_legal texts params 1 answeredLater mended kind rows k u (fun _ => []) [] later_session mended_repaired Hr).
Defined.

(** The repair of [answeredLater] with someone writing in the middle. *)
Definition busyRepair : option (bool * table) :=
  resultOf (play [Says followUp; Stored; Says followUp] (listed (repairTranscript texts params) (ListForAssembly answeredLater)) answeredLater).
Definition busy : table := default (Table [] 1) (snd <$> busyRepair).

Lemma reach_mono {A} (R R' : table -> table -> Prop) (p : prog A) t p' u :
  (forall t u, R t u -> R' t u) -> reach R answers p t p' u -> reach R' answers p t p' u.
Proof. intros H. induction 1; [constructor|eapply reach_world; eauto|eapply reach_call; eauto]. Qed.

Lemma busy_repaired : repaired texts params answeredLater busy.
Proof.
  exists answeredLater. split; [reflexivity|]. eapply reach_mono.
  - intros t u Hr. split; [|exact Hr]. intros [_ Hl]. by apply (Hl (setID 4 followUp)); vm_compute.
  - apply (result_reach [Says followUp; Stored; Says followUp]). vm_compute. reflexivity.
Qed.

(** The repair of a transcript that ends with the batch, and one people write
    among. *)
Lemma repair_completes_witness :
  (exists v, quietRun (repairTranscript texts params) dead = Some (true, v) /\ repaired texts params dead v) /\
  Legal busy /\ repairs (ListForAssembly busy) = [].
Proof.
  split; [exact (proj2 (repair_completes texts params dead dead_session))|].
  exact (proj1 (repair_completes texts params answeredLater later_session) busy busy_repaired).
Defined.

Lemma asked_wf : wf asked.
Proof. apply (proj1 (session_inv asked asked_session)). Defined.

Lemma compaction_keeps_queue_witness :
  exists moved, ListForAssembly (Compact None (composeResultRow texts (bs "s")) (compactionSpan (ListForAssembly asked)) asked) =
    setID 2 (composeResultRow texts (bs "s")) :: moved /\ map Content moved = [bs "fix the bug"].
Proof.
  destruct (compaction_keeps_queue None (bs "s") texts asked asked_wf) as (moved & H1 & H2). exists moved. split; [exact H1|].
  apply (f_equal (map (fun x => x.1.2))) in H2. rewrite !map_map in H2. exact H2.
Defined.

Definition stopRow : Message := setID 7 (Msg 0 RoleAssistant [] (bs "done") [] [] false None true WindowActive noUsage 0 None 0).

Lemma concludes_only_when_done_witness :
  concluded (bs "stop") stopRow (Finish (ResultConcluded ConversationOutcomeContinue [] (bs "done"))).
Proof.
  assert (resultOf (play [Stored; AnswersBytes []] (onStop texts params firstTurn 4096 [] (bs "stop") stopRow) (Table [] 8)) =
    Some (Finish (ResultConcluded ConversationOutcomeContinue [] (bs "done")), Table [] 8)) as H by (vm_compute; reflexivity).
  exact (concludes_only_when_done texts params firstTurn 4096 [] (bs "stop") stopRow (Table [] 8) _ _ _ (Table [] 8) (result_reach _ _ _ _ _ H)).
Defined.

(** ** Two orderings *)

(** A dead engagement whose open batch is the tail of the transcript, and a
    message that arrives between the repair's read and its first answer: the
    answer lands behind the message, the transcript is illegal, and no later
    repair finds anything to mend. *)
Theorem repair_tail_race : session dead /\ exists u, reach rely answers (repairTranscript texts params) dead (Ret true) u /\
  legal (shapes (view u)) = false /\ repairs (ListForAssembly u) = [].
Proof.
  split; [apply dead_session|]. eexists. split; [|split].
  - apply (result_reach [Stored; Says followUp; Stored]). vm_compute. reflexivity.
  - vm_compute. reflexivity.
  - vm_compute. reflexivity.
Qed.

(** A message that arrives while the concluding turn streams keeps the run
    going, and the request that follows puts it before that turn: the last
    message the provider reads is the assistant's own. *)
Theorem late_input_precedes_reply : exists kind rows k u,
  reach rely answers (runRepaired texts params 2) asked (PStream kind rows k) u /\
  map w_role (RowsToMessages (fun _ => []) [] rows) = [RoleUser; RoleAssistant] /\
  map Content (filter (fun m => Delivered m = true) rows) = [bs "fix the bug"; bs "also the docs"; bs "done"].
Proof.
  assert (exists rows, requestOf (play (toFirstCall ++ [Says followUp; Replies (AttemptOk (completion (bs "stop") (bs "done") []));
    AnswersClock 0; Stored; Stored] ++ tail toFirstCall) (runRepaired texts params 2) asked) = Some rows /\
    map w_role (RowsToMessages (fun _ => []) [] rows) = [RoleUser; RoleAssistant] /\
    map Content (filter (fun m => Delivered m = true) rows) = [bs "fix the bug"; bs "also the docs"; bs "done"]) as (rows & H1 & H2 & H3).
  { eexists. split; [vm_compute; reflexivity|]. split; vm_compute; reflexivity. }
  destruct (request_reach _ _ _ _ H1) as (kind & k & u & Hr). by exists kind, rows, k, u.
Qed.

End AgentExample.
