(* ===== verification/SidecarFrame.v ===== *)
(** * Supervision frames

    Models the framing of internal/sidecarproto/proto.go: the [Frame], the frame
    kinds and limits, and [readFrame], which takes one line off a buffered
    reader a buffer at a time.  A stream is the bytes the peer sends before it
    ends and how it ends; what [bufio.Reader.ReadSlice] returns depends only on
    that, not on how the bytes arrive. *)

From S2P Require Import Prelude GoBytes.

Module SidecarFrame.

(** ** Kinds and limits *)

Definition KindHello : bytes := bs "hello".
Definition KindSealedBundle : bytes := bs "sealed_bundle".
Definition KindStartProxies : bytes := bs "start_proxies".
Definition KindRelayCall : bytes := bs "relay_call".
Definition KindRelayRecord : bytes := bs "relay_record".
Definition KindDrainRecords : bytes := bs "drain_records".

Definition recordLaneLimit : nat := 64.
Definition MaxSidecarFrameSize : Z := Z.shiftl 16 20.

(** A [Frame].  [Body] is the raw JSON payload, empty when absent; [Err] is
    empty when the frame carries no error. *)
Record Frame := MkFrame { Kind : bytes; ID : Z; IsResponse : bool; ErrText : bytes; Body : bytes }.

#[export] Instance Frame_eq_dec : EqDecision Frame.
Proof. solve_decision. Defined.

(** ** The buffered reader *)

Inductive ioErr := EOF | Broken.

Record stream := Stream { unread : bytes; finally : ioErr }.

(** bufio's default buffer size. *)
Definition defaultBufSize : nat := Z.to_nat 4096.

Inductive sliceErr := SliceOk | SliceFull | SliceEnd (e : ioErr).

(** [ReadSlice('\n')]: through the newline when the buffer holds one, a full
    buffer without one, or what is left when the stream ends first. *)
Definition ReadSlice (s : stream) : bytes * sliceErr * stream :=
  match IndexByte (take defaultBufSize (unread s)) LF with
  | Some i => (take (S i) (unread s), SliceOk, Stream (drop (S i) (unread s)) (finally s))
  | None =>
      if (defaultBufSize <=? length (unread s))%nat
      then (take defaultBufSize (unread s), SliceFull, Stream (drop defaultBufSize (unread s)) (finally s))
      else (unread s, SliceEnd (finally s), Stream [] (finally s))
  end.

(** ** readFrame *)

Inductive frameErr := ErrFrameTooLarge | ErrUnexpectedEOF | ErrRead (e : ioErr).

(** [n] over the limit; a limit of 0 or less is no limit. *)
Definition overLimit (max : Z) (n : nat) : bool := (0 <? max) && (max <? Z.of_nat n).

(** The loop of [readFrame].  A full buffer is the only branch that repeats, and
    it consumes the buffer, so one more iteration than there are bytes is enough. *)
Fixpoint readFrame_loop (max : Z) (n : nat) (frame : bytes) (s : stream) : option (res frameErr bytes * stream) :=
  match n with
  | O => None
  | S n =>
      let '(chunk, err, s') := ReadSlice s in
      let size := (length frame + length chunk - match err with SliceOk => 1 | _ => 0 end)%nat in
      if overLimit max size then Some (Err ErrFrameTooLarge, s')
      else
        let frame := frame ++ chunk in
        match err with
        | SliceOk => Some (Ok (take (length frame - 1) frame), s')
        | SliceFull => readFrame_loop max n frame s'
        | SliceEnd EOF => Some (Err (match frame with [] => ErrRead EOF | _ => ErrUnexpectedEOF end), s')
        | SliceEnd e => Some (Err (ErrRead e), s')
        end
  end.

Definition readFrame (max : Z) (s : stream) : option (res frameErr bytes * stream) :=
  readFrame_loop max (S (length (unread s))) [] s.

(** ** What readFrame returns, read off the whole stream *)

Definition frameOf (max : Z) (s : stream) : res frameErr bytes :=
  match IndexByte (unread s) LF with
  | Some i => if overLimit max i then Err ErrFrameTooLarge else Ok (take i (unread s))
  | None =>
      if overLimit max (length (unread s)) then Err ErrFrameTooLarge
      else Err (match unread s, finally s with [], e => ErrRead e | _, EOF => ErrUnexpectedEOF | _, e => ErrRead e end)
  end.

Lemma bufSize_pos : (0 < defaultBufSize)%nat.
Proof. unfold defaultBufSize. lia. Qed.

#[global] Opaque defaultBufSize.

Lemma overLimit_mono max n m : (n <= m)%nat -> overLimit max m = false -> overLimit max n = false.
Proof. unfold overLimit. rewrite !andb_false_iff, !Z.ltb_ge. lia. Qed.

Lemma within_limit max n : 0 < max -> overLimit max n = false -> Z.of_nat n <= max.
Proof. unfold overLimit. rewrite andb_false_iff, !Z.ltb_ge. lia. Qed.

(** What one [ReadSlice] takes and leaves. *)
Lemma ReadSlice_spec s chunk err s' : ReadSlice s = (chunk, err, s') ->
  unread s = chunk ++ unread s' /\ finally s' = finally s /\ (length chunk <= defaultBufSize)%nat /\
  match err with
  | SliceOk => exists l, chunk = l ++ [LF] /\ LF ∉ l
  | SliceFull => LF ∉ chunk /\ chunk <> []
  | SliceEnd e => LF ∉ chunk /\ unread s' = [] /\ e = finally s
  end.
Proof.
  pose proof bufSize_pos. unfold ReadSlice. destruct (IndexByte _ _) as [i|] eqn:E; [|destruct (Nat.leb_spec defaultBufSize (length (unread s)))].
  - intros [= <- <- <-]. apply IndexByte_Some in E as [E Hn]. apply lookup_take_Some in E as [E Hi].
    rewrite take_take, Nat.min_l in Hn by lia. cbn. rewrite take_drop, length_take. split_and!; [done..|lia|].
    exists (take i (unread s)). split; [by apply take_S_r|done].
  - intros [= <- <- <-]. apply IndexByte_None in E. cbn. rewrite take_drop, length_take. split_and!; [done..|lia|done|].
    intros H1%(f_equal length). rewrite length_take in H1. simpl in H1. lia.
  - intros [= <- <- <-]. rewrite take_ge in E by lia. apply IndexByte_None in E. cbn. rewrite app_nil_r. split_and!; try done. lia.
Qed.

Lemma frameOf_line max l r e : LF ∉ l ->
  frameOf max (Stream (l ++ LF :: r) e) = if overLimit max (length l) then Err ErrFrameTooLarge else Ok l.
Proof. intros H. unfold frameOf. cbn [unread finally]. by rewrite IndexByte_app, take_app_length. Qed.

Lemma frameOf_over max p r e : LF ∉ p -> overLimit max (length p) = true ->
  frameOf max (Stream (p ++ r) e) = Err ErrFrameTooLarge.
Proof.
  intros Hp Ho. unfold frameOf. cbn [unread finally].
  assert (Hbig : forall m, (length p <= m)%nat -> overLimit max m = true).
  { intros m Hm. apply not_false_iff_true. intros H. by rewrite (overLimit_mono _ _ _ Hm H) in Ho. }
  destruct (IndexByte (p ++ r) LF) as [i|] eqn:E; [|rewrite Hbig; [done|rewrite length_app; lia]].
  rewrite Hbig; [done|]. apply IndexByte_Some in E as [E _]. destruct (decide (length p <= i)%nat) as [|H]; [done|].
  rewrite lookup_app_l in E by lia. destruct Hp. by eapply list_elem_of_lookup_2.
Qed.

Lemma frameOf_end max p e : LF ∉ p -> overLimit max (length p) = false ->
  frameOf max (Stream p e) = Err (match p, e with [], e => ErrRead e | _, EOF => ErrUnexpectedEOF | _, e => ErrRead e end).
Proof. intros Hp Ho. unfold frameOf. cbn [unread finally]. apply IndexByte_None in Hp. rewrite Hp, Ho. by destruct p, e. Qed.

(** The loop after the pieces in [frame]: it returns what the whole stream says,
    leaves what follows the newline, and has used no more than the limit and one
    buffer. *)
Lemma readFrame_loop_spec max n : forall frame s, (length (unread s) < n)%nat -> LF ∉ frame ->
  overLimit max (length frame) = false ->
  exists r s', readFrame_loop max n frame s = Some (r, s') /\
    r = frameOf max (Stream (frame ++ unread s) (finally s)) /\ finally s' = finally s /\
    (forall l, r = Ok l -> frame ++ unread s = l ++ LF :: unread s') /\
    exists used, unread s = used ++ unread s' /\
      (0 < max -> Z.of_nat (length frame + length used) <= max + Z.of_nat defaultBufSize).
Proof.
  induction n as [|n IH]; intros frame s Hn Hf Ho; [lia|]. cbn [readFrame_loop].
  destruct (ReadSlice s) as [[chunk err] s'] eqn:E. apply ReadSlice_spec in E as (Hs & He & Hb & Herr). rewrite Hs.
  assert (Hu : 0 < max -> Z.of_nat (length frame + length chunk) <= max + Z.of_nat defaultBufSize)
    by (intros Hm; pose proof (within_limit _ _ Hm Ho); lia).
  destruct err as [| |e].
  - destruct Herr as (l & -> & Hl). rewrite <-(app_assoc l), !(app_assoc frame l). cbn [app].
    assert (LF ∉ frame ++ l) as Hfl by (rewrite elem_of_app; tauto). rewrite frameOf_line by done.
    replace (length frame + length (l ++ [LF]) - 1)%nat with (length (frame ++ l)) by (rewrite !length_app; simpl; lia).
    destruct (overLimit max (length (frame ++ l))); do 2 eexists; (split; [reflexivity|]).
    + split_and!; try done. by exists (l ++ [LF]); rewrite <-app_assoc.
    + rewrite (length_app _ [LF]). cbn [length]. rewrite Nat.add_sub, take_app_length.
      split_and!; try done; [by intros ? [= <-]|]. by exists (l ++ [LF]); rewrite <-app_assoc.
  - destruct Herr as [Hc Hne]. rewrite Nat.sub_0_r, app_assoc. assert (LF ∉ frame ++ chunk) as Hfc by (rewrite elem_of_app; tauto).
    rewrite <-length_app. destruct (overLimit max (length (frame ++ chunk))) eqn:Hov.
    + do 2 eexists. split; [reflexivity|]. rewrite frameOf_over by done. split_and!; try done. exists chunk. by split.
    + destruct (IH (frame ++ chunk) s') as (r & s2 & Hr & Hv & Hfin & Hok & used & Hu2 & Hc2); [|done..|].
      { rewrite Hs, length_app in Hn. destruct chunk; [done|]. simpl in *. lia. }
      exists r, s2. rewrite Hr, He in *. split_and!; try done. exists (chunk ++ used).
      rewrite <-app_assoc, Hu2 in *. split; [done|]. by rewrite !length_app in *; rewrite Nat.add_assoc.
  - destruct Herr as (Hc & Hnil & ->). rewrite Nat.sub_0_r, Hnil, app_nil_r, <-length_app.
    assert (LF ∉ frame ++ chunk) as Hfc by (rewrite elem_of_app; tauto).
    destruct (overLimit max (length (frame ++ chunk))) eqn:Hov.
    + do 2 eexists. split; [reflexivity|]. rewrite <-(app_nil_r (frame ++ chunk)), frameOf_over by done. split_and!; try done.
      exists chunk. by rewrite Hnil, app_nil_r.
    + rewrite frameOf_end by done. destruct (finally s); do 2 eexists; (split; [reflexivity|]); split_and!; try done;
        try (by destruct (frame ++ chunk)); exists chunk; by rewrite Hnil, app_nil_r.
Qed.

Lemma readFrame_spec max s : exists r s', readFrame max s = Some (r, s') /\ r = frameOf max s /\ finally s' = finally s /\
  (forall l, r = Ok l -> unread s = l ++ LF :: unread s') /\
  exists used, unread s = used ++ unread s' /\ (0 < max -> Z.of_nat (length used) <= max + Z.of_nat defaultBufSize).
Proof.
  destruct (readFrame_loop_spec max (S (length (unread s))) [] s) as (r & s' & H1 & H2 & H3); [lia|set_solver| |].
  - unfold overLimit. cbn. destruct (0 <? max) eqn:E; [|done]. cbn. apply Z.ltb_lt in E. by apply Z.ltb_ge; lia.
  - exists r, s'. cbn [app] in *. split; [done|]. by destruct s.
Qed.

End SidecarFrame.
