(* ===== verification/SidecarConn.v ===== *)
(** * The supervision connection

    Models [Conn] of internal/sidecarproto/proto.go: calls and their pending
    table, the write path, the read loop, the record lane, the request
    goroutines and [shutdown].  A connection is a state and a step relation: one
    step is what a goroutine does between two points where others can run, which
    are the sections under [mu] and [wmu], channel operations and the handler.
    JSON is the codec class; its laws are what encoding/json documents. *)

From stdpp Require Import pretty.
From S2P Require Import Prelude GoBytes SidecarFrame.
Import SidecarFrame.

Module SidecarConn.

(** ** The codec

    [text] is a string as the peer decodes it, where invalid UTF-8 has become
    the replacement character; [compact] is a raw message as the peer decodes it,
    which [json.Marshal] writes without white space and with its HTML characters
    escaped. *)
Class FrameCodec := {
  Marshal : Frame -> option bytes;
  Unmarshal : bytes -> option Frame;
  text : bytes -> bytes;
  compact : bytes -> bytes;
  Marshal_line : forall f l, Marshal f = Some l -> LF ∉ l;
  Unmarshal_Marshal : forall f l, Marshal f = Some l ->
    Unmarshal l = Some (MkFrame (text (Kind f)) (ID f) (IsResponse f) (text (ErrText f)) (compact (Body f)));
  text_nil : forall b, text b = [] <-> b = [];
  text_record : forall b, text b = KindRelayRecord <-> b = KindRelayRecord;
  compact_nil : compact [] = []
}.

(** The frame a peer decodes from [f]. *)
Definition carried `{FrameCodec} (f : Frame) : Frame :=
  MkFrame (text (Kind f)) (ID f) (IsResponse f) (text (ErrText f)) (compact (Body f)).

Section Carried.
Context {CODEC : FrameCodec}.

Lemma carried_id f : ID (carried f) = ID f.
Proof. done. Qed.
Lemma carried_response f : IsResponse (carried f) = IsResponse f.
Proof. done. Qed.
Lemma carried_record f : Kind (carried f) = KindRelayRecord <-> Kind f = KindRelayRecord.
Proof. apply text_record. Qed.
Lemma carried_err f : ErrText (carried f) = [] <-> ErrText f = [].
Proof. apply text_nil. Qed.
End Carried.

(** ** Errors and values *)

(** Why a connection shut down; each wraps [ErrClosed]. *)
Inductive cause := CauseClosed | CauseWrite | CauseRead | CauseTooLarge.

Inductive cerr :=
| EClosed (c : cause)
| EMarshal
| ETooLarge (kind : bytes) (size : nat) (max : Z)
| ECancelled
| ERemote (kind text : bytes)
| EUnmarshal
| ENoHandler
| ELaneFull
| EPanic (kind : bytes) (id : Z)
| EHandler (text : bytes).

Definition itoa (z : Z) : bytes := bs (pretty z).

(** The text an error travels as, without the encoder's or the stream's own text
    behind a wrapping prefix.  [EHandler] is the handler's own. *)
Definition errorText (e : cerr) : bytes :=
  match e with
  | EClosed _ => bs "sidecarproto: connection closed"
  | EMarshal => bs "sidecarproto: marshal frame"
  | ETooLarge kind size max =>
      bs "sidecarproto: frame exceeds the size limit: the " ++ kind ++ bs " frame is " ++ itoa (Z.of_nat size) ++
      bs " bytes, over the " ++ itoa max ++ bs " the peer accepts"
  | ECancelled => bs "context canceled"
  | ERemote kind text => bs "sidecarproto: remote " ++ kind ++ bs ": " ++ text
  | EUnmarshal => bs "sidecarproto: unmarshal response"
  | ENoHandler => bs "sidecarproto: no handler for inbound request"
  | ELaneFull => bs "sidecarproto: record lane full"
  | EPanic kind id =>
      bs "sidecarproto: internal failure serving " ++ kind ++ bs " (id " ++ itoa id ++
      bs "): handler panicked; see the serving process's log"
  | EHandler text => text
  end.

(** A request or response payload before encoding: nil, a raw message, or a
    value with what [json.Marshal] makes of it. *)
Inductive value := VNil | VRaw (b : bytes) | VJson (m : option bytes).

Definition marshalBody (v : value) : option bytes :=
  match v with VNil => Some [] | VRaw b => Some b | VJson m => m end.

(** ** State *)

(** A call's reply channel, of capacity one. *)
Record channel := Chan { buffered : option Frame; chanClosed : bool }.

(** How a call ended: with a reply, or with a local error. *)
Inductive ending := Replied (f : Frame) | Failed (e : cerr).

Inductive callState := Sending | Waiting | Returning (e : ending) | Returned (e : ending).

(** One [Call] past its registration.  [c_decodes] says which response bodies
    unmarshal into [respBody], [None] when the caller passed nil. *)
Record call := MkCall {
  c_kind : bytes; c_id : Z; c_body : bytes; c_decodes : option (bytes -> bool);
  c_state : callState; c_chan : channel
}.

(** A request being served: the handler runs, its answer is written, or the
    refusal of its answer is written. *)
Inductive job := JServing (f : Frame) | JAnswering (f : Frame) (r : res cerr value) | JRefusing (f : Frame) (e : cerr).

Inductive server := LaneIdle | LaneBusy (j : job) | LaneStopped.

Inductive readerState := Reading | Delivering (i : nat) (f : Frame) | Stopped.

(** How the handler ends. *)
Inductive handled := HReturn (v : value) | HFail (text : bytes) | HPanic.

(** What the connection has done so far: frames read and written, record frames
    queued on the lane, requests served, on the lane or off it, with how the
    handler ended when there is one, and requests answered. *)
Record history := Hist {
  took : list Frame; wrote : list Frame;
  accepted : list Frame; served : list (Frame * option handled);
  answered : list (Frame * res cerr value)
}.

Definition isRecord (f : Frame) : bool := bool_decide (Kind f = KindRelayRecord).

(** The record frames handed to the handler, in order, wherever they were
    served. *)
Definition applied (h : history) : list Frame := filter (fun f => isRecord f = true) (served h).*1.

Record conn := MkConn {
  nextID : Z;
  pending : gmap Z nat;
  closed : option cause;
  calls : list call;
  lane : list Frame;
  laneServer : server;
  tasks : list job;
  reader : readerState;
  hist : history
}.

Record config := MkConfig { maxRead : Z; maxWrite : Z; hasHandler : bool }.

Definition New : conn := MkConn 0 ∅ None [] [] LaneIdle [] Reading (Hist [] [] [] [] []).

Definition setCalls (f : list call -> list call) (s : conn) : conn :=
  MkConn (nextID s) (pending s) (closed s) (f (calls s)) (lane s) (laneServer s) (tasks s) (reader s) (hist s).
Definition setPending (p : gmap Z nat) (s : conn) : conn :=
  MkConn (nextID s) p (closed s) (calls s) (lane s) (laneServer s) (tasks s) (reader s) (hist s).
Definition setServer (l : list Frame) (v : server) (s : conn) : conn :=
  MkConn (nextID s) (pending s) (closed s) (calls s) l v (tasks s) (reader s) (hist s).
Definition setTasks (ts : list job) (s : conn) : conn :=
  MkConn (nextID s) (pending s) (closed s) (calls s) (lane s) (laneServer s) ts (reader s) (hist s).
Definition setReader (r : readerState) (s : conn) : conn :=
  MkConn (nextID s) (pending s) (closed s) (calls s) (lane s) (laneServer s) (tasks s) r (hist s).
Definition setHist (h : history) (s : conn) : conn :=
  MkConn (nextID s) (pending s) (closed s) (calls s) (lane s) (laneServer s) (tasks s) (reader s) h.

Definition logTook (f : Frame) (h : history) : history :=
  Hist (took h ++ [f]) (wrote h) (accepted h) (served h) (answered h).
Definition logWrote (f : Frame) (h : history) : history :=
  Hist (took h) (wrote h ++ [f]) (accepted h) (served h) (answered h).
Definition logAccepted (f : Frame) (h : history) : history :=
  Hist (took h) (wrote h) (accepted h ++ [f]) (served h) (answered h).
Definition logServed (f : Frame) (o : option handled) (h : history) : history :=
  Hist (took h) (wrote h) (accepted h) (served h ++ [(f, o)]) (answered h).
Definition logAnswered (f : Frame) (r : res cerr value) (h : history) : history :=
  Hist (took h) (wrote h) (accepted h) (served h) (answered h ++ [(f, r)]).

Definition setState (st : callState) (c : call) : call :=
  MkCall (c_kind c) (c_id c) (c_body c) (c_decodes c) st (c_chan c).
Definition setChan (ch : channel) (c : call) : call :=
  MkCall (c_kind c) (c_id c) (c_body c) (c_decodes c) (c_state c) ch.

(** ** shutdown *)

Definition closeChan (c : call) : call := setChan (Chan (buffered (c_chan c)) true) c.

(** [shutdown]: once, closes every pending channel and empties the table. *)
Definition shutdown (why : cause) (s : conn) : conn :=
  match closed s with
  | Some _ => s
  | None =>
      MkConn (nextID s) ∅ (Some why)
        (imap (fun i c => if bool_decide (i ∈ (map_img (pending s) : gset nat)) then closeChan c else c) (calls s))
        (lane s) (laneServer s) (tasks s) (reader s) (hist s)
  end.

Section Conn.

Context {CODEC : FrameCodec}.
Variable cfg : config.

(** ** Writing *)

(** [writeFrame].  [seen] is what the check under [mu] read, [failed] that the
    stream's write fails.  Returns the error, the state and the line written. *)
Definition writeFrame (seen : option cause) (failed : bool) (f : Frame) (s : conn) : option cerr * conn * option bytes :=
  match Marshal f with
  | None => (Some EMarshal, s, None)
  | Some line =>
      if overLimit (maxWrite cfg) (length line)
      then (Some (ETooLarge (Kind f) (length line) (maxWrite cfg)), s, None)
      else
        match seen with
        | Some c => (Some (EClosed c), s, None)
        | None =>
            if failed then
              let s := shutdown CauseWrite s in
              (Some (EClosed (default CauseWrite (closed s))), s, None)
            else (None, setHist (logWrote f (hist s)) s, Some line)
        end
  end.

(** ** Call and Notify *)

Definition callFrame (c : call) : Frame := MkFrame (c_kind c) (c_id c) false [] (c_body c).

(** The section of [Call] under [mu]: refuse when closed, else mint the next id
    and register the channel. *)
Definition callBegin (kind : bytes) (reqBody : value) (decodes : option (bytes -> bool)) (s : conn) : res cerr conn :=
  match marshalBody reqBody with
  | None => Err EMarshal
  | Some payload =>
      match closed s with
      | Some c => Err (EClosed c)
      | None =>
          let id := (nextID s + 1) mod 2 ^ 64 in
          let c := MkCall kind id payload decodes Sending (Chan None false) in
          Ok (MkConn id (<[id := length (calls s)]> (pending s)) None (calls s ++ [c])
                (lane s) (laneServer s) (tasks s) (reader s) (hist s))
      end
  end.

Definition callWrite (i : nat) (c : call) (seen : option cause) (failed : bool) (s : conn) : conn * option bytes :=
  match writeFrame seen failed (callFrame c) s with
  | (None, s, line) => (setCalls (alter (setState Waiting) i) s, line)
  | (Some e, s, line) => (setCalls (alter (setState (Returning (Failed e))) i) s, line)
  end.

(** The arms of the select: a reply, a closed channel, a cancelled context. *)
Definition callReceive (c : call) (s : conn) : option call :=
  match buffered (c_chan c) with
  | Some f => Some (setChan (Chan None (chanClosed (c_chan c))) (setState (Returning (Replied f)) c))
  | None =>
      if chanClosed (c_chan c)
      then Some (setState (Returning (Failed (EClosed (default CauseClosed (closed s))))) c)
      else None
  end.

(** The deferred delete, as the call returns. *)
Definition callReturn (i : nat) (c : call) (e : ending) (s : conn) : conn :=
  setCalls (alter (setState (Returned e)) i) (setPending (delete (c_id c) (pending s)) s).

(** What [Call] gives its caller. *)
Definition callResult (c : call) (e : ending) : res cerr bytes :=
  match e with
  | Failed e => Err e
  | Replied resp =>
      if negb (bool_decide (ErrText resp = [])) then Err (ERemote (c_kind c) (ErrText resp))
      else
        match c_decodes c with
        | Some decodes => if negb (bool_decide (Body resp = [])) && negb (decodes (Body resp)) then Err EUnmarshal else Ok (Body resp)
        | None => Ok (Body resp)
        end
  end.

Definition Notify (kind : bytes) (body : value) (seen : option cause) (failed : bool) (s : conn) : conn * option bytes :=
  match marshalBody body with
  | None => (s, None)
  | Some payload => let '(_, s, line) := writeFrame seen failed (MkFrame kind 0 false [] payload) s in (s, line)
  end.

(** ** The read loop *)

Definition deliverResponse (f : Frame) (s : conn) : conn :=
  match pending s !! ID f with
  | Some i => setReader (Delivering i f) (setPending (delete (ID f) (pending s)) s)
  | None => s
  end.

Definition dispatchRequest (f : Frame) (s : conn) : conn :=
  if isRecord f then
    if (length (lane s) <? recordLaneLimit)%nat
    then setHist (logAccepted f (hist s)) (setServer (lane s ++ [f]) (laneServer s) s)
    else setHist (logAnswered f (Err ELaneFull) (hist s)) (setTasks (tasks s ++ [JAnswering f (Err ELaneFull)]) s)
  else setTasks (tasks s ++ [JServing f]) s.

Definition readCause (e : frameErr) : cause :=
  match e with ErrFrameTooLarge => CauseTooLarge | ErrRead EOF => CauseClosed | _ => CauseRead end.

(** One iteration of [readLoop] on what [readFrame] returned. *)
Definition readLoop (r : res frameErr bytes) (s : conn) : conn :=
  match r with
  | Err e => setReader Stopped (shutdown (readCause e) s)
  | Ok line =>
      match Unmarshal line with
      | None => setReader Stopped (shutdown CauseRead s)
      | Some f =>
          let s := setHist (logTook f (hist s)) s in
          if IsResponse f then deliverResponse f s else dispatchRequest f s
      end
  end.

(** The send of [deliverResponse]: [None] is a send on a closed channel, which
    panics, or on a full one, which would block the reader. *)
Definition chanSend (f : Frame) (ch : channel) : option channel :=
  if chanClosed ch then None
  else match buffered ch with Some _ => None | None => Some (Chan (Some f) false) end.

(** ** Serving *)

Definition serveGuarded (h : handled) (f : Frame) : res cerr value :=
  if negb (hasHandler cfg) then Err ENoHandler
  else match h with
       | HReturn v => Ok v
       | HFail text => Err (EHandler text)
       | HPanic => Err (EPanic (Kind f) (ID f))
       end.

(** The handler's run, as the history keeps it: one step, at its return. *)
Definition logRun (f : Frame) (h : handled) (s : conn) : history :=
  logAnswered f (serveGuarded h f) (logServed f (if hasHandler cfg then Some h else None) (hist s)).

Definition refusalFrame (f : Frame) (e : cerr) : Frame := MkFrame (Kind f) (ID f) true (errorText e) [].

Definition responseFrame (f : Frame) (r : res cerr value) : Frame :=
  match r with
  | Err e => refusalFrame f e
  | Ok v =>
      match marshalBody v with
      | None => MkFrame (Kind f) (ID f) true (bs "marshal response: unsupported value") []
      | Some payload => MkFrame (Kind f) (ID f) true [] payload
      end
  end.

(** The writes of [respond]: the answer, then, when it was refused before
    anything was written, the refusal.  [None] is a job that is over. *)
Definition respond (seen : option cause) (failed : bool) (j : job) (s : conn) : option job * conn * option bytes :=
  match j with
  | JServing _ => (Some j, s, None)
  | JAnswering f r =>
      if ID f =? 0 then (None, s, None)
      else match writeFrame seen failed (responseFrame f r) s with
           | (None, s, line) | (Some (EClosed _), s, line) => (None, s, line)
           | (Some e, s, line) => (Some (JRefusing f e), s, line)
           end
  | JRefusing f e => let '(_, s, line) := writeFrame seen failed (refusalFrame f e) s in (None, s, line)
  end.

(** ** Steps *)

Inductive event := Tau | Wrote (line : bytes) | Took (r : res frameErr bytes).

Definition written (line : option bytes) : event := match line with Some l => Wrote l | None => Tau end.

(** What the closed check can have read: the state as it is, or open, read
    before a concurrent shutdown. *)
Definition sees (s : conn) (seen : option cause) : Prop := seen = closed s \/ seen = None.

Inductive cstep : conn -> event -> conn -> Prop :=
| st_call kind body decodes s s' : callBegin kind body decodes s = Ok s' -> cstep s Tau s'
| st_send i c seen failed s s' line : calls s !! i = Some c -> c_state c = Sending -> sees s seen ->
    callWrite i c seen failed s = (s', line) -> cstep s (written line) s'
| st_receive i c c' s : calls s !! i = Some c -> c_state c = Waiting -> callReceive c s = Some c' ->
    cstep s Tau (setCalls (insert i c') s)
| st_cancel i c s : calls s !! i = Some c -> c_state c = Waiting ->
    cstep s Tau (setCalls (alter (setState (Returning (Failed ECancelled))) i) s)
| st_return i c e s : calls s !! i = Some c -> c_state c = Returning e -> cstep s Tau (callReturn i c e s)
| st_notify kind body seen failed s s' line : sees s seen -> Notify kind body seen failed s = (s', line) ->
    cstep s (written line) s'
| st_close s : cstep s Tau (shutdown CauseClosed s)
| st_read r s : reader s = Reading -> cstep s (Took r) (readLoop r s)
| st_deliver i f c ch s : reader s = Delivering i f -> calls s !! i = Some c -> chanSend f (c_chan c) = Some ch ->
    cstep s Tau (setReader Reading (setCalls (alter (setChan ch) i) s))
| st_serve k f h s : tasks s !! k = Some (JServing f) ->
    let r := serveGuarded h f in
    cstep s Tau (setHist (logRun f h s) (setTasks (<[k := JAnswering f r]> (tasks s)) s))
| st_respond k j seen failed s j' s' line : tasks s !! k = Some j -> (forall f, j <> JServing f) -> sees s seen ->
    respond seen failed j s = (j', s', line) ->
    cstep s (written line)
      (setTasks (match j' with Some j => <[k := j]> (tasks s') | None => delete k (tasks s') end) s')
| st_lane_take f l s : laneServer s = LaneIdle -> lane s = f :: l ->
    cstep s Tau (setServer l (LaneBusy (JServing f)) s)
| st_lane_serve f h s : laneServer s = LaneBusy (JServing f) ->
    let r := serveGuarded h f in
    cstep s Tau (setHist (logRun f h s) (setServer (lane s) (LaneBusy (JAnswering f r)) s))
| st_lane_respond j seen failed s j' s' line : laneServer s = LaneBusy j -> (forall f, j <> JServing f) -> sees s seen ->
    respond seen failed j s = (j', s', line) ->
    cstep s (written line) (setServer (lane s') (match j' with Some j => LaneBusy j | None => LaneIdle end) s')
| st_lane_stop s : laneServer s = LaneIdle -> closed s <> None -> cstep s Tau (setServer (lane s) LaneStopped s).

(** The states a connection reaches whatever its peer sends. *)
Inductive creach : conn -> Prop :=
| creach_new : creach New
| creach_step s ev s' : creach s -> cstep s ev s' -> creach s'.

End Conn.

End SidecarConn.
