(* ===== verification/SidecarInv.v ===== *)
(** * The connection's invariant

    What holds of a connection whatever its peer sends: a channel in the pending
    table is open and empty and belongs to a live call, every waiting call can be
    woken, requests are neither lost nor served twice, records leave the lane in
    the order they entered it, and what was written is a call, a notify or an
    answer. *)

From S2P Require Import Prelude GoBytes SidecarFrame SidecarConn.
Import SidecarFrame SidecarConn.

Module SidecarInv.

(** ** Calls *)

(** The call has not returned from its write or its select. *)
Definition live (c : call) : Prop := c_state c = Sending \/ c_state c = Waiting.

(** The reply frames a call holds. *)
Definition holds (c : call) (f : Frame) : Prop :=
  buffered (c_chan c) = Some f \/ c_state c = Returning (Replied f) \/ c_state c = Returned (Replied f).

Definition replyOK (s : conn) (c : call) (f : Frame) : Prop :=
  ID f = c_id c /\ IsResponse f = true /\ f ∈ took (hist s).

Notation fresh := (Chan None false).

(** Something will wake the call. *)
Definition wakes (s : conn) (i : nat) (c : call) : Prop :=
  pending s !! c_id c = Some i \/ is_Some (buffered (c_chan c)) \/ chanClosed (c_chan c) = true \/
  exists f, reader s = Delivering i f.

Record callsOK (s : conn) : Prop := {
  ok_next : nextID s = Z.of_nat (length (calls s));
  ok_ids : forall i c, calls s !! i = Some c -> c_id c = Z.of_nat i + 1;
  ok_pending : forall id i, pending s !! id = Some i ->
    exists c, calls s !! i = Some c /\ c_id c = id /\ c_chan c = fresh /\ (forall e, c_state c <> Returned e) /\
      forall f, reader s <> Delivering i f;
  ok_closed : is_Some (closed s) -> pending s = ∅;
  ok_live : forall i c, calls s !! i = Some c -> live c -> wakes s i c;
  ok_deliver : forall i f, reader s = Delivering i f ->
    exists c, calls s !! i = Some c /\ c_chan c = fresh /\ replyOK s c f;
  ok_replies : forall i c f, calls s !! i = Some c -> holds c f -> replyOK s c f
}.

Lemma alter_insert {A} (g : A -> A) (l : list A) i x : l !! i = Some x -> alter g i l = <[i := g x]> l.
Proof.
  intros H. apply list_eq. intros j. destruct (decide (i = j)) as [<-|Hn].
  - rewrite list_lookup_alter, decide_True, H by done. symmetry. apply list_lookup_insert_eq. by apply lookup_lt_Some in H.
  - by rewrite list_lookup_alter_ne, list_lookup_insert_ne.
Qed.

(** Replace call [i] by [c']. *)
Definition put (i : nat) (c' : call) (s : conn) : conn := setCalls (insert i c') s.

Ltac at_index H := apply list_lookup_insert_Some in H as [(? & ? & ?)|[? H]]; [subst|].

Lemma callsOK_put i c c' s : callsOK s -> calls s !! i = Some c -> c_id c' = c_id c ->
  (c_chan c' = c_chan c \/ c_chan c <> fresh) -> (live c' -> live c /\ c_chan c' = c_chan c) ->
  (forall f, holds c' f -> replyOK s c f) ->
  ((exists e, c_state c' = Returned e) -> pending s !! c_id c <> Some i) -> callsOK (put i c' s).
Proof.
  intros [Hn Hids Hp Hc Hl Hd Hr] Hi Hid Hch Hlive Hh Hret. split; unfold put; cbn [nextID calls pending closed reader setCalls].
  - by rewrite length_insert.
  - intros j d Hj. at_index Hj; [rewrite Hid|]; eauto.
  - intros id j Hj. destruct (Hp _ _ Hj) as (d & Hd1 & Hd2 & Hd3 & Hd4 & Hd5). destruct (decide (i = j)) as [<-|Hne].
    + exists c'. rewrite list_lookup_insert_eq by by apply lookup_lt_Some in Hi. simplify_eq. split_and!; try done.
      * by destruct Hch as [->|].
      * intros e He. apply Hret; eauto.
    + exists d. by rewrite list_lookup_insert_ne.
  - done.
  - intros j d Hj Hd'. at_index Hj.
    + destruct (Hlive Hd') as [Hlc Hcc]. destruct (Hl _ _ Hi Hlc) as [|[|[|]]]; unfold wakes; rewrite Hid, Hcc; eauto.
    + exact (Hl _ _ Hj Hd').
  - intros j f Hj. destruct (Hd _ _ Hj) as (d & Hd1 & Hd2 & Hd3). destruct (decide (i = j)) as [<-|Hne].
    + exists c'. rewrite list_lookup_insert_eq by by apply lookup_lt_Some in Hi. simplify_eq. split_and!; try done.
      * by destruct Hch as [->|].
      * unfold replyOK in *. by rewrite Hid.
    + exists d. by rewrite list_lookup_insert_ne.
  - intros j d f Hj Hf. at_index Hj; [|by eapply Hr]. unfold replyOK in *. rewrite Hid. by apply Hh.
Qed.

Lemma callsOK_state i c st s : callsOK s -> calls s !! i = Some c ->
  (st = Waiting -> live c) -> st <> Sending ->
  (forall f, st = Returning (Replied f) \/ st = Returned (Replied f) -> replyOK s c f) ->
  ((exists e, st = Returned e) -> pending s !! c_id c <> Some i) ->
  callsOK (setCalls (alter (setState st) i) s).
Proof.
  intros H Hi Hl Hs Hf Hret. unfold setCalls. rewrite (alter_insert _ _ _ _ Hi). apply (callsOK_put i c (setState st c)); try done.
  - by left.
  - intros [E|E]; cbn in E; [done|]. split; [by apply Hl|done].
  - intros f [E|E]; [|by apply Hf]. eapply (ok_replies _ H); [done|]. by left.
Qed.

Lemma callsOK_receive i c c' s : callsOK s -> calls s !! i = Some c -> callReceive c s = Some c' ->
  callsOK (setCalls (insert i c') s).
Proof.
  intros H Hi Hc. unfold callReceive in Hc. destruct (buffered (c_chan c)) as [f|] eqn:Eb.
  - simplify_eq. eapply callsOK_put; try done.
    + right. intros E. by rewrite E in Eb.
    + by intros [|].
    + intros g [E|[E|E]]; [done| |done]. cbn in E. simplify_eq. eapply (ok_replies _ H); [done|by left].
    + by intros [].
  - destruct (chanClosed (c_chan c)) eqn:Ec; [|done]. simplify_eq. eapply callsOK_put; try done.
    + by left.
    + by intros [|].
    + intros g [E|[E|E]]; [|done..]. cbn in E. congruence.
    + by intros [].
Qed.

Lemma callsOK_return i c e s : callsOK s -> calls s !! i = Some c -> c_state c = Returning e ->
  callsOK (callReturn i c e s).
Proof.
  intros H Hi Hs. assert (callsOK (setPending (delete (c_id c) (pending s)) s)) as Hdel.
  { pose proof H as [Hn Hids Hp Hc Hl Hd Hr]. split; cbn [nextID calls pending closed reader setPending]; try done.
    - intros id j Hj. apply lookup_delete_Some in Hj as [_ Hj]. by apply Hp.
    - intros E. rewrite (Hc E). apply delete_empty.
    - intros j d Hj Hlive. destruct (Hl _ _ Hj Hlive) as [Hw|Hw]; [|by right]. left. cbn. rewrite lookup_delete_ne; [done|].
      intros E. rewrite (Hids _ _ Hi), (Hids _ _ Hj) in E. assert (i = j) by lia. subst.
      rewrite Hj in Hi. simplify_eq. unfold live in Hlive. rewrite Hs in Hlive. by destruct Hlive. }
  unfold callReturn. apply (callsOK_state i c); try done.
  - intros f [E|E]; simplify_eq. eapply (ok_replies _ H); [done|]. right. by left.
  - intros _. cbn. by rewrite lookup_delete_eq.
Qed.

Lemma callsOK_deliver i f c ch s : callsOK s -> reader s = Delivering i f -> calls s !! i = Some c ->
  chanSend f (c_chan c) = Some ch -> callsOK (setReader Reading (setCalls (alter (setChan ch) i) s)).
Proof.
  intros H Hr Hi Hch. pose proof H as [Hn Hids Hp Hc Hl Hd Hre].
  destruct (Hd _ _ Hr) as (c0 & Hi0 & Hf & Hok). rewrite Hi in Hi0. simplify_eq.
  unfold setCalls. rewrite (alter_insert _ _ _ _ Hi). rewrite Hf in Hch. cbn in Hch. simplify_eq.
  split; cbn [nextID calls pending closed reader setReader].
  - by rewrite length_insert.
  - intros j d Hj. at_index Hj; [exact (Hids _ _ Hi)|by eapply Hids].
  - intros id j Hj. destruct (Hp _ _ Hj) as (d & Hd1 & Hd2 & Hd3 & Hd4 & Hd5). exists d.
    rewrite list_lookup_insert_ne; [by eauto 6|]. intros <-. by eapply Hd5.
  - done.
  - intros j d Hj Hlive. at_index Hj; [right; left; by eexists|].
    destruct (Hl _ _ Hj Hlive) as [Hw|[Hw|[Hw|[g Hw]]]]; unfold wakes; eauto. congruence.
  - done.
  - intros j d g Hj Hg. at_index Hj; [|by eapply Hre]. destruct Hg as [Hg|Hg]; cbn in Hg; [by simplify_eq|].
    apply (Hre _ _ g Hi). by right.
Qed.

Lemma callsOK_shutdown why s : callsOK s -> callsOK (shutdown why s).
Proof.
  intros H. unfold shutdown. destruct (closed s) eqn:E; [done|]. destruct H as [Hn Hids Hp Hc Hl Hd Hr].
  assert (Hat : forall i c, imap (fun i c => if bool_decide (i ∈ (map_img (pending s) : gset nat)) then closeChan c else c) (calls s) !! i = Some c ->
    exists c0, calls s !! i = Some c0 /\ c_id c = c_id c0 /\ c_state c = c_state c0 /\ buffered (c_chan c) = buffered (c_chan c0) /\
      (pending s !! c_id c0 = Some i -> chanClosed (c_chan c) = true) /\ (chanClosed (c_chan c0) = true -> chanClosed (c_chan c) = true) /\
      ((forall id, pending s !! id <> Some i) -> c = c0)).
  { intros i c Hi. rewrite list_lookup_imap in Hi. destruct (calls s !! i) as [c0|] eqn:Ei; cbn in Hi; simplify_eq. exists c0.
    case_bool_decide as Em; [|split_and!; try done; intros Hx; destruct Em; apply elem_of_map_img; eauto].
    split_and!; try done. intros Hx. apply elem_of_map_img in Em as (id & Hid). by destruct (Hx id). }
  split; cbn [nextID calls pending closed reader]; try done.
  - by rewrite length_imap.
  - intros i c Hi. destruct (Hat _ _ Hi) as (c0 & Hi0 & -> & _). eauto.
  - intros i c Hi Hlive. destruct (Hat _ _ Hi) as (c0 & Hi0 & H1 & H2 & H3 & H4 & H5 & _).
    assert (live c0) as Hl0 by (unfold live in *; by rewrite <-H2).
    destruct (Hl _ _ Hi0 Hl0) as [Hw|[Hw|[Hw|Hw]]]; unfold wakes; rewrite ?H3; eauto.
  - intros i f Hf. destruct (Hd _ _ Hf) as (c0 & Hi0 & Hf0 & Hok). exists c0. split; [|done]. rewrite list_lookup_imap, Hi0. cbn.
    rewrite bool_decide_eq_false_2; [done|]. intros (id & Hid)%elem_of_map_img.
    destruct (Hp _ _ Hid) as (d & _ & _ & _ & _ & Hno). by eapply Hno.
  - intros i c f Hi Hf. destruct (Hat _ _ Hi) as (c0 & Hi0 & H1 & H2 & H3 & _). unfold replyOK. cbn. rewrite H1.
    eapply (Hr i c0); [done|]. unfold holds in *. by rewrite <-H2, <-H3.
Qed.

Lemma callsOK_same s s' : callsOK s -> nextID s' = nextID s -> pending s' = pending s -> closed s' = closed s ->
  calls s' = calls s -> reader s' = reader s -> took (hist s) ⊆ took (hist s') -> callsOK s'.
Proof.
  intros [Hn Hids Hp Hc Hl Hd Hr] E1 E2 E3 E4 E5 E6.
  assert (Hok : forall c f, replyOK s c f -> replyOK s' c f) by (intros c f (? & ? & ?); split_and!; [done..|by apply E6]).
  split; rewrite ?E1, ?E2, ?E3, ?E4, ?E5; try done.
  - intros i c Hi Hlive. destruct (Hl _ _ Hi Hlive) as [|[|[|]]]; unfold wakes; rewrite ?E2, ?E5; eauto.
  - intros i f Hf. destruct (Hd _ _ Hf) as (c & ? & ? & ?). eauto.
  - eauto.
Qed.

Lemma callsOK_begin kind body decodes s s' : callsOK s -> callBegin kind body decodes s = Ok s' ->
  Z.of_nat (length (calls s')) < 2 ^ 64 -> callsOK s'.
Proof.
  intros [Hn Hids Hp Hc Hl Hd Hr] Hb. unfold callBegin in Hb. destruct (marshalBody body) as [payload|]; [|done].
  destruct (closed s) eqn:Ec; [done|]. simplify_eq/=. rewrite length_app. cbn [length]. intros Hlt.
  rewrite Hn, Z.mod_small by lia. set (c := MkCall kind _ _ _ _ _).
  assert (Hat : forall i d, (calls s ++ [c]) !! i = Some d -> calls s !! i = Some d \/ i = length (calls s) /\ d = c).
  { intros i d [|[? Hi]]%lookup_app_Some; [by left|right]. apply list_lookup_singleton_Some in Hi as [? <-]. split; [lia|done]. }
  assert (Hold : forall i d, calls s !! i = Some d -> (calls s ++ [c]) !! i = Some d) by (intros i d Hi; by apply lookup_app_l_Some).
  split; cbn [nextID calls pending closed reader].
  - rewrite length_app. cbn. lia.
  - intros i d [Hi|[-> ->]]%Hat; [eauto|done].
  - intros id i [[<- <-]|[Hne Hi]]%lookup_insert_Some.
    + exists c. rewrite lookup_app_r, Nat.sub_diag by lia. split_and!; try done. intros f Hf.
      destruct (Hd _ _ Hf) as (d & Hi & _). apply lookup_lt_Some in Hi. lia.
    + destruct (Hp _ _ Hi) as (d & ? & ? & ? & ? & ?). eauto 7.
  - by intros [].
  - intros i d [Hi|[-> ->]]%Hat Hlive.
    + destruct (Hl _ _ Hi Hlive) as [Hw|[|[|]]]; unfold wakes; cbn; eauto. left. rewrite lookup_insert_ne; [done|].
      rewrite (Hids _ _ Hi). apply lookup_lt_Some in Hi. lia.
    + left. cbn. by rewrite lookup_insert_eq.
  - intros i f Hf. destruct (Hd _ _ Hf) as (d & ? & ? & ?). eauto.
  - intros i d f [Hi|[-> ->]]%Hat Hf; [exact (Hr _ _ _ Hi Hf)|]. by destruct Hf as [|[|]].
Qed.

Lemma callsOK_response f s : callsOK s -> reader s = Reading -> IsResponse f = true -> f ∈ took (hist s) ->
  callsOK (deliverResponse f s).
Proof.
  intros H Hrd Hf Ht. unfold deliverResponse. destruct (pending s !! ID f) as [i|] eqn:Ei; [|done].
  destruct H as [Hn Hids Hp Hc Hl Hd Hr]. destruct (Hp _ _ Ei) as (c & Hi & Hid & Hch & Hst & Hno).
  split; cbn [nextID calls pending closed reader setReader setPending]; try done.
  - intros id j [Hne Hj]%lookup_delete_Some. destruct (Hp _ _ Hj) as (d & Hd1 & Hd2 & Hd3 & Hd4 & _). exists d. split_and!; try done.
    intros g [= -> _]. rewrite Hi in Hd1. simplify_eq.
  - intros Hx. by rewrite (Hc Hx) in Ei.
  - intros j d Hj Hlive. destruct (decide (j = i)) as [->|Hne].
    + do 3 right. by exists f.
    + destruct (Hl _ _ Hj Hlive) as [Hw|[|[|[g Hg]]]]; unfold wakes; cbn; eauto; [|congruence].
      left. rewrite lookup_delete_ne; [done|]. intros E. rewrite <-E in Hw. congruence.
  - intros j g [= <- <-]. exists c. by split_and!.
Qed.

(** ** Requests and records *)

Definition servingOf (j : job) : option Frame := match j with JServing f => Some f | _ => None end.
Definition laneJob (v : server) : list job := match v with LaneBusy j => [j] | _ => [] end.
Definition jobs (s : conn) : list job := laneJob (laneServer s) ++ tasks s.

(** Requests taken and not yet answered. *)
Definition unanswered (s : conn) : list Frame := lane s ++ omap servingOf (jobs s).

Definition isRequest (f : Frame) : Prop := IsResponse f = false.
#[export] Instance isRequest_dec f : Decision (isRequest f) := decide_rel eq _ _.
Definition isRecordRequest (f : Frame) : Prop := IsResponse f = false /\ Kind f = KindRelayRecord.
#[export] Instance isRecordRequest_dec f : Decision (isRecordRequest f) := and_dec _ _.

Section Serve.

Context {CODEC : FrameCodec}.
Variable cfg : config.

(** Why [writeFrame] refuses to write [f], before anything is written. *)
Definition refusedFrame (f : Frame) (e : cerr) : Prop :=
  (Marshal f = None /\ e = EMarshal) \/
  exists line, Marshal f = Some line /\ 0 < maxWrite cfg < Z.of_nat (length line) /\
    e = ETooLarge (Kind f) (length line) (maxWrite cfg).

Definition jobOK (h : history) (j : job) : Prop :=
  match j with
  | JServing _ => True
  | JAnswering f r => (f, r) ∈ answered h
  | JRefusing f e => ID f <> 0 /\ exists r, (f, r) ∈ answered h /\ refusedFrame (responseFrame f r) e
  end.

(** Why a request was answered with [r]: the handler ended so, there is no
    handler, or it is a record that found the lane full. *)
Definition answerOK (h : history) (q : Frame) (r : res cerr value) : Prop :=
  (exists o, (q, Some o) ∈ served h /\
     r = match o with HReturn v => Ok v | HFail text => Err (EHandler text) | HPanic => Err (EPanic (Kind q) (ID q)) end) \/
  (hasHandler cfg = false /\ r = Err ENoHandler) \/
  (Kind q = KindRelayRecord /\ r = Err ELaneFull).

(** The record the lane is serving. *)
Definition laneServing (v : server) : list Frame := omap servingOf (laneJob v).

Record serveOK (s : conn) : Prop := {
  ok_lane : applied (hist s) ++ laneServing (laneServer s) ++ lane s = accepted (hist s);
  ok_tasks : forall f, JServing f ∈ tasks s -> isRecord f = false;
  ok_answers : forall q r, (q, r) ∈ answered (hist s) -> answerOK (hist s) q r;
  ok_served : (served (hist s)).*1 `sublist_of` (answered (hist s)).*1;
  ok_accepted : accepted (hist s) `sublist_of` filter isRecordRequest (took (hist s));
  ok_room : (length (lane s) <= recordLaneLimit)%nat;
  ok_requests : (answered (hist s)).*1 ++ unanswered s ≡ₚ filter isRequest (took (hist s));
  ok_jobs : Forall (jobOK (hist s)) (jobs s)
}.

Lemma serveOK_same s s' : serveOK s -> lane s' = lane s -> laneServer s' = laneServer s -> tasks s' = tasks s ->
  took (hist s') = took (hist s) -> accepted (hist s') = accepted (hist s) -> served (hist s') = served (hist s) ->
  answered (hist s') = answered (hist s) -> serveOK s'.
Proof.
  intros [H1 Ht Ha Hs H2 H3 H4 H5] E1 E2 E3 E4 E5 E6 E7. unfold unanswered, jobs, applied, answerOK in *.
  split; unfold unanswered, jobs, applied, answerOK; rewrite ?E1, ?E2, ?E3, ?E4, ?E5, ?E6, ?E7; try done.
  eapply Forall_impl; [exact H5|]. intros [f|f r|f e]; cbn; by rewrite ?E7.
Qed.

Lemma jobOK_more h h' j : answered h ⊆ answered h' -> jobOK h j -> jobOK h' j.
Proof. intros Hs. destruct j; cbn; [done|by apply Hs|]. intros (? & r & ? & ?). split; [done|]. exists r. split; [by apply Hs|done]. Qed.

(** A response only joins what was read. *)
Lemma serveOK_response f s : serveOK s -> IsResponse f = true -> serveOK (setHist (logTook f (hist s)) s).
Proof.
  intros [H1 Ht Ha Hs H2 H3 H4 H5] Hf. assert (~ isRequest f) as Hn by (unfold isRequest; by rewrite Hf).
  split; cbn [hist setHist accepted served took answered logTook lane]; try done.
  - rewrite filter_app, filter_cons_False, filter_nil, app_nil_r; [done|]. by intros [? _].
  - by rewrite filter_app, filter_cons_False, filter_nil, app_nil_r.
Qed.

Lemma serveOK_request f s : serveOK s -> IsResponse f = false ->
  serveOK (dispatchRequest f (setHist (logTook f (hist s)) s)).
Proof.
  intros [H1 Ht Ha Hs H2 H3 H4 H5] Hf. assert (isRequest f) as Hr by done.
  assert (Hreq : filter isRequest (took (hist s) ++ [f]) = filter isRequest (took (hist s)) ++ [f])
    by by rewrite filter_app, filter_cons_True, filter_nil.
  assert (Hmore : accepted (hist s) `sublist_of` filter isRecordRequest (took (hist s) ++ [f]))
    by (rewrite filter_app; by apply sublist_inserts_r).
  unfold dispatchRequest. case_eq (isRecord f); intros Hrec; [cbn [lane setHist]; destruct (Nat.ltb_spec (length (lane s)) recordLaneLimit)|].
  - apply bool_decide_eq_true in Hrec. split; cbn [hist setHist accepted served took answered logTook logAccepted lane setServer laneServer tasks]; try done.
    + rewrite <-H1. by rewrite !app_assoc.
    + rewrite filter_app, filter_cons_True, filter_nil by done. by apply sublist_app.
    + rewrite length_app. cbn. lia.
    + rewrite Hreq, <-H4. unfold unanswered, jobs. cbn. solve_Permutation.
  - split; cbn [hist setHist accepted served took answered logTook logAnswered lane setTasks laneServer tasks]; try done.
    + intros g [Hg|Hg%list_elem_of_singleton]%elem_of_app; [by apply Ht|done].
    + intros q r [Hq|[= -> ->]%list_elem_of_singleton]%elem_of_app; [by apply Ha|].
      right. right. split; [|done]. by apply bool_decide_eq_true in Hrec.
    + rewrite fmap_app. by apply sublist_inserts_r.
    + rewrite Hreq, <-H4. unfold unanswered, jobs. cbn. rewrite fmap_app, !omap_app. cbn. rewrite app_nil_r. solve_Permutation.
    + unfold jobs in *. cbn. rewrite app_assoc. apply Forall_app. split; [|constructor; [cbn; set_solver|done]].
      eapply Forall_impl; [exact H5|]. intros j. apply jobOK_more. cbn. set_solver.
  - split; cbn [hist setHist accepted served took answered logTook lane setTasks laneServer tasks]; try done.
    + intros g [Hg|[= ->]%list_elem_of_singleton]%elem_of_app; [by apply Ht|done].
    + rewrite Hreq, <-H4. unfold unanswered, jobs. cbn. rewrite !omap_app. cbn. solve_Permutation.
    + unfold jobs in *. cbn. rewrite app_assoc. apply Forall_app. split; [done|by constructor].
Qed.

(** A change of jobs: those that stop being unanswered are answered. *)
Lemma serveOK_jobs new s s' : serveOK s -> lane s' = lane s -> took (hist s') = took (hist s) ->
  accepted (hist s') = accepted (hist s) ->
  applied (hist s') ++ laneServing (laneServer s') = applied (hist s) ++ laneServing (laneServer s) ->
  (forall f, JServing f ∈ tasks s' -> JServing f ∈ tasks s) ->
  (forall q r, (q, r) ∈ answered (hist s') -> answerOK (hist s') q r) ->
  (served (hist s')).*1 `sublist_of` (answered (hist s')).*1 ->
  answered (hist s') = answered (hist s) ++ new ->
  new.*1 ++ omap servingOf (jobs s') ≡ₚ omap servingOf (jobs s) -> Forall (jobOK (hist s')) (jobs s') -> serveOK s'.
Proof.
  intros [H1 Ht Ha Hs H2 H3 H4 H5] E1 E2 E3 E4 Ht' Ha' Hs' E5 Hp Hj. split; rewrite ?E1, ?E2, ?E3; try done.
  - by rewrite app_assoc, E4, <-app_assoc.
  - eauto.
  - rewrite <-H4, E5, fmap_app. unfold unanswered. rewrite E1, <-Hp. solve_Permutation.
Qed.

(** What one run of the handler, or none, adds to the history. *)
Definition ranOf (f : Frame) (h : handled) : list (Frame * option handled) :=
  [(f, if hasHandler cfg then Some h else None)].

Definition grows (h h' : history) (ran : list (Frame * option handled)) (new : list (Frame * res cerr value)) : Prop :=
  served h' = served h ++ ran /\ answered h' = answered h ++ new /\
  ((ran = [] /\ new = []) \/ exists f o, ran = ranOf f o /\ new = [(f, serveGuarded cfg o f)]).

Lemma grows_nil h h' : served h' = served h -> answered h' = answered h -> grows h h' [] [].
Proof. intros E1 E2. unfold grows. rewrite E1, E2, !app_nil_r. auto. Qed.

Lemma grows_run f h s : grows (hist s) (logRun cfg f h s) (ranOf f h) [(f, serveGuarded cfg h f)].
Proof. split_and!; [done..|]. right. by exists f, h. Qed.

Lemma answerOK_grows h h' ran new : grows h h' ran new -> (forall q r, (q, r) ∈ answered h -> answerOK h q r) ->
  forall q r, (q, r) ∈ answered h' -> answerOK h' q r.
Proof.
  intros (Es & Ea & Hn) H q r. rewrite Ea. intros [Hq|Hq]%elem_of_app.
  - destruct (H _ _ Hq) as [(o & Ho & ->)|Hx]; [left|by right]. exists o. rewrite Es. split; [|done]. apply elem_of_app. by left.
  - destruct Hn as [[-> ->]|(f & o & -> & ->)]; [by apply elem_of_nil in Hq|]. apply list_elem_of_singleton in Hq as [= -> ->].
    unfold answerOK, ranOf, serveGuarded in *. rewrite Es. destruct (hasHandler cfg); cbn; [|by auto].
    left. exists o. split; [|by destruct o]. apply elem_of_app. right. apply list_elem_of_here.
Qed.

Lemma served_grows h h' ran new : grows h h' ran new -> (served h).*1 `sublist_of` (answered h).*1 ->
  (served h').*1 `sublist_of` (answered h').*1.
Proof.
  intros (-> & -> & [[-> ->]|(f & o & -> & ->)]) H; rewrite !fmap_app; by apply sublist_app.
Qed.

Lemma applied_grows h h' ran new : grows h h' ran new -> applied h' = applied h ++ filter (fun f => isRecord f = true) ran.*1.
Proof. intros (E & _). unfold applied. by rewrite E, fmap_app, filter_app. Qed.

Lemma serveOK_take f l s : serveOK s -> laneServer s = LaneIdle -> lane s = f :: l ->
  serveOK (setServer l (LaneBusy (JServing f)) s).
Proof.
  intros [H1 Ht Ha Hs H2 H3 H4 H5] Hi Hl. unfold unanswered, jobs, laneServing in *. rewrite Hl, Hi in *.
  split; unfold unanswered, jobs, laneServing; cbn [hist setHist accepted served took answered lane setServer laneServer tasks laneJob]; try done.
  - cbn in H3. lia.
  - rewrite <-H4. cbn. solve_Permutation.
  - by constructor.
Qed.

(** Replacing or ending the job at [k]. *)
Definition putJob (k : nat) (j : option job) (l : list job) : list job :=
  match j with Some j => <[k := j]> l | None => delete k l end.

Lemma putJob_split k j (l : list job) x : l !! k = Some x ->
  l = take k l ++ x :: drop (S k) l /\ putJob k j l = take k l ++ option_list j ++ drop (S k) l.
Proof.
  intros H. split; [by rewrite take_drop_middle|]. destruct j as [j|]; cbn.
  - rewrite insert_take_drop; [done|]. by apply lookup_lt_Some in H.
  - by rewrite delete_take_drop.
Qed.

(** Jobs before and after one of them moves from [j] to [j']; [wrap] is how the
    rest of the jobs surround it. *)
Lemma move_job new h h' (a b : list job) j j' : Forall (jobOK h) (a ++ j :: b) -> answered h' = answered h ++ new ->
  Forall (jobOK h') (option_list j') -> new.*1 ++ omap servingOf (option_list j') ≡ₚ option_list (servingOf j) ->
  Forall (jobOK h') (a ++ option_list j' ++ b) /\
  new.*1 ++ omap servingOf (a ++ option_list j' ++ b) ≡ₚ omap servingOf (a ++ j :: b).
Proof.
  intros Hf Ha Hj Hp. split.
  - apply Forall_app in Hf as [Hf1 Hf2]. apply Forall_cons in Hf2 as [_ Hf2].
    assert (forall l, Forall (jobOK h) l -> Forall (jobOK h') l) as Hm.
    { intros l Hl. eapply Forall_impl; [exact Hl|]. intros x. apply jobOK_more. rewrite Ha. set_solver. }
    rewrite !Forall_app. auto.
  - rewrite !omap_app. assert (omap servingOf (j :: b) = option_list (servingOf j) ++ omap servingOf b) as ->
      by by destruct j.
    rewrite <-Hp. solve_Permutation.
Qed.

Lemma serving_put k j' (l : list job) x f : l !! k = Some x -> (forall g, j' <> Some (JServing g)) ->
  JServing f ∈ putJob k j' l -> JServing f ∈ l.
Proof.
  intros Hk Hj. destruct (putJob_split k j' _ _ Hk) as [S1 S2]. rewrite S2. intros Hf. rewrite S1.
  rewrite !elem_of_app, elem_of_cons in *. destruct Hf as [|[Hf|]]; [tauto| |tauto].
  destruct j' as [j|]; [|by apply elem_of_nil in Hf]. apply list_elem_of_singleton in Hf as <-. by destruct (Hj f).
Qed.

(** A request off the lane moves from [j] to [j'], which serves nothing; when
    [j] was serving, the run is logged. *)
Lemma serveOK_task ran new k j j' s s' : serveOK s -> tasks s !! k = Some j -> lane s' = lane s -> laneServer s' = laneServer s ->
  took (hist s') = took (hist s) -> accepted (hist s') = accepted (hist s) ->
  grows (hist s) (hist s') ran new -> ran.*1 = option_list (servingOf j) -> tasks s' = putJob k j' (tasks s) ->
  Forall (jobOK (hist s')) (option_list j') -> (forall g, j' <> Some (JServing g)) ->
  new.*1 ++ omap servingOf (option_list j') ≡ₚ option_list (servingOf j) -> serveOK s'.
Proof.
  intros H Hk E1 E2 E3 E4 Hg Hran E7 Hj Hno Hp. pose proof E7 as E7'. destruct (putJob_split k j' _ _ Hk) as [S1 S2]. rewrite S2 in E7.
  pose proof (ok_jobs _ H) as Hjs. unfold jobs in Hjs. rewrite S1, app_assoc in Hjs.
  destruct (move_job new _ (hist s') _ _ _ j' Hjs (proj1 (proj2 Hg)) Hj Hp) as [M1 M2].
  apply (serveOK_jobs new s); try done.
  - rewrite (applied_grows _ _ _ _ Hg), E2, Hran. f_equal. rewrite <-(app_nil_r (applied (hist s))) at 2. f_equal.
    destruct j as [f| |]; [|done..]. change (option_list (servingOf (JServing f))) with [f]. rewrite filter_cons_False, filter_nil; [done|]. rewrite (ok_tasks _ H f); [done|]. by eapply list_elem_of_lookup_2.
  - intros f. rewrite E7'. by eapply serving_put.
  - eapply answerOK_grows; [done|apply H].
  - eapply served_grows; [done|apply H].
  - apply Hg.
  - unfold jobs. rewrite E2, E7, app_assoc, M2, <-app_assoc. by rewrite <-S1.
  - unfold jobs. by rewrite E2, E7, app_assoc.
Qed.

Lemma serveOK_lane ran new j j' s s' : serveOK s -> laneServer s = LaneBusy j -> lane s' = lane s -> tasks s' = tasks s ->
  took (hist s') = took (hist s) -> accepted (hist s') = accepted (hist s) ->
  grows (hist s) (hist s') ran new -> ran.*1 = option_list (servingOf j) -> laneJob (laneServer s') = option_list j' ->
  Forall (jobOK (hist s')) (option_list j') -> (forall g, j' <> Some (JServing g)) ->
  new.*1 ++ omap servingOf (option_list j') ≡ₚ option_list (servingOf j) -> serveOK s'.
Proof.
  intros H Hk E1 E2 E3 E4 Hg Hran E7 Hj Hno Hp. pose proof (ok_jobs _ H) as Hjs. unfold jobs in Hjs. rewrite Hk in Hjs.
  destruct (move_job new _ (hist s') [] _ _ j' Hjs (proj1 (proj2 Hg)) Hj Hp) as [M1 M2].
  apply (serveOK_jobs new s); try done.
  - rewrite (applied_grows _ _ _ _ Hg). unfold laneServing. rewrite E7, Hk, Hran.
    assert (omap servingOf (option_list j') = []) as -> by (destruct j' as [[f| |]|]; [by destruct (Hno f)|done..]).
    rewrite app_nil_r. f_equal. destruct j as [f| |]; [|done..]. change (filter (fun f => isRecord f = true) [f] = [f]). rewrite filter_cons_True, filter_nil; [done|].
    pose proof (ok_lane _ H) as Hl. unfold laneServing in Hl. rewrite Hk in Hl. pose proof (ok_accepted _ H) as Hacc.
    assert (f ∈ filter isRecordRequest (took (hist s))) as [[_ Hf] _]%list_elem_of_filter; [|by apply bool_decide_eq_true].
    eapply elem_of_sublist; [|exact Hacc]. rewrite <-Hl. cbn. set_solver.
  - by rewrite E2.
  - eapply answerOK_grows; [done|apply H].
  - eapply served_grows; [done|apply H].
  - apply Hg.
  - unfold jobs. rewrite E7, E2. by rewrite Hk.
  - unfold jobs. by rewrite E7, E2.
Qed.

(** ** What was written *)

Definition sent (s : conn) (f : Frame) : Prop :=
  (exists i c, calls s !! i = Some c /\ c_state c <> Sending /\ f = callFrame c) \/
  (IsResponse f = false /\ ID f = 0) \/
  exists q r, (q, r) ∈ answered (hist s) /\ ID q <> 0 /\
    (f = responseFrame q r \/ exists e, refusedFrame (responseFrame q r) e /\ f = refusalFrame q e).

(** The id of a written call. *)
Definition callID (f : Frame) : option Z :=
  if negb (IsResponse f) && negb (ID f =? 0) then Some (ID f) else None.

Record wroteOK (s : conn) : Prop := {
  ok_sent : Forall (sent s) (wrote (hist s));
  ok_once : NoDup (omap callID (wrote (hist s)))
}.

(** Calls keep what they asked, stay written and returned, and answers are kept. *)
Definition evolves (s s' : conn) : Prop :=
  (forall i c, calls s !! i = Some c -> exists c', calls s' !! i = Some c' /\ callFrame c' = callFrame c /\
     (c_state c <> Sending -> c_state c' <> Sending) /\ (forall e, c_state c = Returned e -> c_state c' = Returned e)) /\
  answered (hist s) ⊆ answered (hist s').

Lemma sent_evolves s s' f : evolves s s' -> sent s f -> sent s' f.
Proof.
  intros [Hc Ha] [(i & c & Hi & Hs & ->)|[?|(q & r & Hq & ?)]].
  - destruct (Hc _ _ Hi) as (c' & Hi' & Hf & Hs' & _). left. exists i, c'. rewrite Hf. auto.
  - right. by left.
  - do 2 right. exists q, r. split; [by apply Ha|done].
Qed.

Lemma wroteOK_evolves s s' : wroteOK s -> evolves s s' -> wrote (hist s') = wrote (hist s) -> wroteOK s'.
Proof.
  intros [H1 H2] He Hw. split; rewrite Hw; [|done]. eapply Forall_impl; [exact H1|]. intros f. by apply sent_evolves.
Qed.

Lemma wroteOK_write f s : wroteOK s -> sent s f -> (forall id, callID f = Some id -> id ∉ omap callID (wrote (hist s))) ->
  wroteOK (setHist (logWrote f (hist s)) s).
Proof.
  intros [H1 H2] Hs Hn. split; cbn [hist setHist wrote logWrote].
  - assert (evolves s (setHist (logWrote f (hist s)) s)) as He by (split; [eauto 6|done]).
    apply Forall_app. split; [eapply Forall_impl; [exact H1|]|constructor; [|done]]; eauto using sent_evolves.
  - rewrite omap_app. cbn. destruct (callID f) as [id|]; [|by rewrite app_nil_r]. apply NoDup_app. split_and!; [done| |apply NoDup_singleton].
    intros x Hx ->%list_elem_of_singleton. by eapply Hn.
Qed.

Lemma evolves_refl s s' : calls s' = calls s -> answered (hist s') = answered (hist s) -> evolves s s'.
Proof. intros E1 E2. split; rewrite ?E1, ?E2; eauto 6. Qed.

Lemma evolves_put i c c' s s' : calls s !! i = Some c -> calls s' = <[i := c']> (calls s) -> hist s' = hist s ->
  callFrame c' = callFrame c -> c_state c' <> Sending -> (forall e, c_state c <> Returned e) -> evolves s s'.
Proof.
  intros Hi E1 E2 Hf Hs Hr. split; rewrite ?E1, ?E2; [|done]. intros j d Hj. destruct (decide (i = j)) as [<-|Hne].
  - exists c'. rewrite list_lookup_insert_eq by by apply lookup_lt_Some in Hi. rewrite Hj in Hi. injection Hi as <-. split_and!; try done. by intros e ?%Hr.
  - exists d. by rewrite list_lookup_insert_ne.
Qed.

Lemma evolves_shutdown why s : evolves s (shutdown why s).
Proof.
  unfold shutdown. destruct (closed s); [by apply evolves_refl|]. split; [|done]. intros i c Hi. cbn.
  rewrite list_lookup_imap, Hi. cbn. by case_bool_decide; eexists; split_and!.
Qed.

Lemma evolves_begin kind body decodes s s' : callBegin kind body decodes s = Ok s' -> evolves s s' /\ hist s' = hist s /\
  lane s' = lane s /\ laneServer s' = laneServer s /\ tasks s' = tasks s.
Proof.
  unfold callBegin. destruct (marshalBody body); [|done]. destruct (closed s); [done|]. intros. simplify_eq/=. split_and!; try done.
  split; [|done]. intros i c Hi. exists c. cbn. split_and!; [by apply lookup_app_l_Some|done..].
Qed.

(** ** The whole invariant *)

Definition inv (s : conn) : Prop := callsOK s /\ serveOK s /\ wroteOK s.

Lemma inv_new : inv New.
Proof.
  split_and!; split; cbn; try done; try lia; try apply NoDup_nil_2.
  - by intros f ?%elem_of_nil.
  - by intros q r ?%elem_of_nil.
Qed.

Lemma shutdown_serving why s : lane (shutdown why s) = lane s /\ laneServer (shutdown why s) = laneServer s /\
  tasks (shutdown why s) = tasks s /\ hist (shutdown why s) = hist s /\ length (calls (shutdown why s)) = length (calls s).
Proof. unfold shutdown. destruct (closed s); [done|]. cbn. by rewrite length_imap. Qed.

Lemma inv_shutdown why s : inv s -> inv (shutdown why s).
Proof.
  intros (H1 & H2 & H3). destruct (shutdown_serving why s) as (E1 & E2 & E3 & E4 & _). split_and!.
  - by apply callsOK_shutdown.
  - eapply serveOK_same; [exact H2|..]; by rewrite ?E4.
  - eapply wroteOK_evolves; [exact H3|apply evolves_shutdown|by rewrite E4].
Qed.

Lemma refused_text f e : refusedFrame f e -> errorText e <> [].
Proof. by intros [[_ ->]|(line & _ & _ & ->)]. Qed.

Lemma writeFrame_cases seen failed f s e s' line : writeFrame cfg seen failed f s = (e, s', line) ->
  (e = None /\ s' = setHist (logWrote f (hist s)) s /\ exists l, line = Some l /\ Marshal f = Some l /\ overLimit (maxWrite cfg) (length l) = false) \/
  (line = None /\ (s' = s \/ s' = shutdown CauseWrite s) /\ exists e', e = Some e' /\ ((exists c, e' = EClosed c) \/ refusedFrame f e')).
Proof.
  unfold writeFrame. intros H. destruct (Marshal f) as [l|] eqn:Em.
  2: { simplify_eq. right. split_and!; [done|by left|]. eexists. split; [done|]. right. by left. }
  destruct (overLimit _ _) eqn:Eo.
  { simplify_eq. right. split_and!; [done|by left|]. eexists. split; [done|]. right. right. exists l.
    unfold overLimit in Eo. split; [done|]. split; [lia|done]. }
  destruct seen as [c|]; [simplify_eq; right; split_and!; [done|by left|by eauto]|].
  destruct failed; simplify_eq; [right; split_and!; [done|by right|by eauto]|left; by eauto 6].
Qed.

Definition sameServing (s s' : conn) : Prop :=
  lane s' = lane s /\ laneServer s' = laneServer s /\ tasks s' = tasks s /\ took (hist s') = took (hist s) /\
  accepted (hist s') = accepted (hist s) /\ served (hist s') = served (hist s) /\ answered (hist s') = answered (hist s) /\
  length (calls s') = length (calls s).

Lemma inv_write seen failed f s e s' line : inv s -> sent s f -> callID f = None ->
  writeFrame cfg seen failed f s = (e, s', line) -> inv s' /\ sameServing s s'.
Proof.
  intros (H1 & H2 & H3) Hs Hid [(-> & -> & _) | (-> & Hx & _)]%writeFrame_cases.
  - split; [|done]. split_and!; [by eapply callsOK_same; [exact H1|..]|by eapply serveOK_same; [exact H2|..]|].
    apply wroteOK_write; [done..|]. by rewrite Hid.
  - destruct Hx as [Hx|Hx]; subst s'; [done|]. split; [by apply inv_shutdown|]. destruct (shutdown_serving CauseWrite s) as (E1 & E2 & E3 & E4 & E5).
    unfold sameServing. by rewrite E4.
Qed.

Lemma callID_refusal q e : callID (refusalFrame q e) = None.
Proof. done. Qed.
Lemma callID_response q r : callID (responseFrame q r) = None.
Proof. destruct r as [v|e]; [|done]. cbn. by destruct (marshalBody v). Qed.

Lemma respond_inv seen failed j s j' s' line : inv s -> jobOK (hist s) j -> (forall f, j <> JServing f) ->
  respond cfg seen failed j s = (j', s', line) ->
  inv s' /\ sameServing s s' /\ Forall (jobOK (hist s')) (option_list j') /\ omap servingOf (option_list j') = [].
Proof.
  intros Hinv Hj Hn. destruct j as [f|f r|f e]; [by destruct (Hn f)| |]; cbn [respond].
  - destruct (Z.eqb_spec (ID f) 0) as [E0|E0]; [by intros [= <- <- <-]|].
    assert (sent s (responseFrame f r)) as Hs by (do 2 right; exists f, r; auto).
    destruct (writeFrame _ _ _ _ s) as [[e s1] l] eqn:Ew.
    destruct (inv_write _ _ _ _ _ _ _ Hinv Hs (callID_response f r) Ew) as [H1 H2].
    pose proof H2 as (_ & _ & _ & _ & _ & _ & Ha & _).
    apply writeFrame_cases in Ew as [(-> & _)|(-> & _ & e' & -> & He)]; [by intros [= <- <- <-]|].
    destruct He as [[c ->]|He]; [by intros [= <- <- <-]; split_and!|].
    assert (jobOK (hist s1) (JRefusing f e')) as Hr by (cbn; rewrite Ha; eauto).
    destruct e'; intros [= <- <- <-]; split_and!; try done; by constructor.
  - destruct Hj as (E0 & r & Hr & He). assert (sent s (refusalFrame f e)) as Hs by (do 2 right; exists f, r; eauto 6).
    destruct (writeFrame _ _ _ _ s) as [[e1 s1] l] eqn:Ew. intros [= <- <- <-].
    by destruct (inv_write _ _ _ _ _ _ _ Hinv Hs (callID_refusal f e) Ew).
Qed.

(** A step that only touches calls, the pending table or the reader. *)
Lemma inv_calls s s' : inv s -> callsOK s' -> evolves s s' -> sameServing s s' -> wrote (hist s') = wrote (hist s) -> inv s'.
Proof.
  intros (H1 & H2 & H3) Hc He (E1 & E2 & E3 & E4 & E5 & E6 & E7 & _) Hw. split_and!; [done|..].
  - by eapply serveOK_same; [exact H2|..].
  - by eapply wroteOK_evolves; [exact H3|..].
Qed.

(** A step that only touches jobs, the lane and the history. *)
Lemma inv_serve s s' : inv s -> serveOK s' -> nextID s' = nextID s -> pending s' = pending s -> closed s' = closed s ->
  calls s' = calls s -> reader s' = reader s -> took (hist s) ⊆ took (hist s') -> wrote (hist s') = wrote (hist s) ->
  answered (hist s) ⊆ answered (hist s') -> inv s'.
Proof.
  intros (H1 & H2 & H3) Hs E1 E2 E3 E4 E5 E6 E7 E8. split_and!; [|done|].
  - by eapply callsOK_same; [exact H1|..].
  - eapply wroteOK_evolves; [exact H3| |done]. split; [|done]. rewrite E4. eauto 6.
Qed.

Lemma inv_state i c st s : inv s -> calls s !! i = Some c -> (st = Waiting -> live c) -> st <> Sending ->
  (forall f, st = Returning (Replied f) \/ st = Returned (Replied f) -> replyOK s c f) -> (forall e, st <> Returned e) ->
  (forall e, c_state c <> Returned e) -> inv (setCalls (alter (setState st) i) s).
Proof.
  intros H Hi Hl Hs Hf Hn Hr. apply (inv_calls s); [done|eapply callsOK_state; [apply H|done..|by intros [e ?%Hn]]| | |done].
  - apply (evolves_put i c (setState st c)); try done. cbn. by rewrite (alter_insert _ _ _ _ Hi).
  - unfold sameServing. cbn. by rewrite length_alter.
Qed.

(** Sending a call: the call stops being [Sending] as its frame is written. *)
Lemma inv_send i c seen failed s s' line : inv s -> calls s !! i = Some c -> c_state c = Sending ->
  callWrite cfg i c seen failed s = (s', line) -> inv s'.
Proof.
  intros Hinv Hi Hs. unfold callWrite. destruct (writeFrame _ _ _ _ s) as [[e s1] l] eqn:Ew.
  apply writeFrame_cases in Ew as [(-> & -> & _)|(-> & Hx & e' & -> & _)]; intros [= <- <-].
  - assert (inv (setCalls (alter (setState Waiting) i) s)) as H1 by (apply (inv_state i c); [done|done|by left|done|by intros ? [|]|done|by rewrite Hs]).
    change (inv (setHist (logWrote (callFrame c) (hist s)) (setCalls (alter (setState Waiting) i) s))).
    pose proof Hinv as ([_ Hids _ _ _ _ _] & _ & [Hsent _]). destruct H1 as (C1 & C2 & C3).
    split_and!; [by eapply callsOK_same; [exact C1|..]|by eapply serveOK_same; [exact C2|..]|].
    apply (wroteOK_write _ (setCalls (alter (setState Waiting) i) s)); [done| |].
    + left. exists i, (setState Waiting c). cbn. by rewrite list_lookup_alter, decide_True, Hi.
    + intros id Hid (f & Hf & Hfid)%list_elem_of_omap. rewrite Forall_forall in Hsent.
      unfold callID in *. cbn in Hid. destruct (c_id c =? 0); simplify_eq. destruct (IsResponse f) eqn:Er; [done|].
      destruct (Z.eqb_spec (ID f) 0); [done|]. cbn in Hfid. simplify_eq.
      destruct (Hsent _ Hf) as [(j & d & Hj & Hd & ->)|[[_ E]|(q & r & _ & _ & [->|(e & _ & ->)])]]; [|done| |done].
      * pose proof (Hids _ _ Hi). pose proof (Hids _ _ Hj). cbn in *. injection Hid as Hid; assert (i = j) by lia. congruence.
      * by destruct r as [v|]; cbn in Er; [destruct (marshalBody v)|].
  - assert (inv s1 /\ exists c1, calls s1 !! i = Some c1 /\ c_state c1 = Sending) as (H1 & c1 & Hi1 & Hs1).
    { destruct Hx as [->| ->]; [eauto|]. split; [by apply inv_shutdown|]. unfold shutdown. destruct (closed s); [eauto|].
      cbn. rewrite list_lookup_imap, Hi. cbn. by case_bool_decide; eexists. }
    apply (inv_state i c1); try done; [by intros f [|]|by rewrite Hs1].
Qed.

Lemma inv_read r s : inv s -> reader s = Reading -> inv (readLoop r s).
Proof.
  intros Hinv Hrd. assert (Hstop : forall why, inv (setReader Stopped (shutdown why s))).
  { intros why. destruct (inv_shutdown why s Hinv) as (H1 & H2 & H3).
    split_and!; [|by eapply serveOK_same; [exact H2|..]|by eapply wroteOK_evolves; [exact H3|by apply evolves_refl|]].
    assert (reader (shutdown why s) = Reading) as Hr by (unfold shutdown; by destruct (closed s)).
    destruct H1 as [Hn Hids Hp Hc Hl Hd Hre]. split; cbn [nextID calls pending closed reader setReader]; try done.
    - intros id i Hi. destruct (Hp _ _ Hi) as (c & ? & ? & ? & ? & _). exists c. by split_and!.
    - intros i c Hi Hlive. destruct (Hl _ _ Hi Hlive) as [|[|[|[f Hf]]]]; unfold wakes; cbn; eauto. congruence. }
  unfold readLoop. destruct r as [line|e]; [|apply Hstop]. destruct (Unmarshal line) as [f|]; [|apply Hstop].
  pose proof Hinv as (H1 & H2 & H3). destruct (IsResponse f) eqn:Ef.
  - set (s1 := setHist (logTook f (hist s)) s). assert (inv s1) as Hinv1.
    { apply (inv_serve s); try done; [by apply serveOK_response|cbn; set_solver]. }
    apply (inv_calls s1); [done| | | |]; try (unfold deliverResponse; by destruct (pending s1 !! _)).
    + apply callsOK_response; [apply Hinv1|done..|]. cbn. set_solver.
    + apply evolves_refl; unfold deliverResponse; by destruct (pending s1 !! _).
  - apply (inv_serve s); [done|by apply serveOK_request|..];
      unfold dispatchRequest; repeat case_match; try done; cbn; set_solver.
Qed.

Theorem conn_inv_step s ev s' : cstep cfg s ev s' -> Z.of_nat (length (calls s')) < 2 ^ 64 -> inv s -> inv s'.
Proof.
  intros Hstep Hlt Hinv. pose proof Hinv as (H1 & H2 & H3). destruct Hstep as
    [kind body decodes s s' Hb|i c seen failed s s' line Hi Hs _ Hw|i c c' s Hi Hs Hc|i c s Hi Hs|i c e s Hi Hs
    |kind body seen failed s s' line _ Hw|s|r s Hr|i f c ch s Hr Hi Hch|k f h s Hk r|k j seen failed s j' s' line Hk Hn _ Hw
    |f l s Hi Hl|f h s Hk r|j seen failed s j' s' line Hk Hn _ Hw|s Hi Hc].
  - destruct (evolves_begin _ _ _ _ _ Hb) as (He & E1 & E2 & E3 & E4).
    split_and!; [by eapply callsOK_begin|eapply serveOK_same; [exact H2|..]; by rewrite ?E1|].
    eapply wroteOK_evolves; [exact H3|done|by rewrite E1].
  - by eapply inv_send.
  - apply (inv_calls s); [done|by eapply callsOK_receive| |unfold sameServing; cbn; by rewrite length_insert|done].
    apply (evolves_put i c c'); [done..| | |by rewrite Hs]; unfold callReceive in Hc; by repeat case_match; simplify_eq.
  - apply (inv_state i c); try done; [by intros f [|]|by rewrite Hs].
  - apply (inv_calls s); [done|by apply callsOK_return| |unfold sameServing; cbn; by rewrite length_alter|done].
    apply (evolves_put i c (setState (Returned e) c)); try done; [cbn; by rewrite (alter_insert _ _ _ _ Hi)|by rewrite Hs].
  - unfold Notify in Hw. destruct (marshalBody body) as [payload|]; [|by simplify_eq].
    destruct (writeFrame _ _ _ _ s) as [[e s1] l] eqn:Ew. simplify_eq.
    refine (proj1 (inv_write _ _ _ _ _ _ _ Hinv _ _ Ew)); [right; by left|done].
  - by apply inv_shutdown.
  - by apply inv_read.
  - apply (inv_calls s); [done|by eapply callsOK_deliver| |unfold sameServing; cbn; by rewrite length_alter|done].
    split; [|done]. intros j d Hj. cbn. rewrite list_lookup_alter. case_decide; [|eauto 6]. subst. rewrite Hj. cbn. eexists. by split_and!.
  - apply (inv_serve s); try done; [|cbn; set_solver]. apply (serveOK_task (ranOf f h) [(f, r)] k (JServing f) (Some (JAnswering f r)) s); try done;
      [apply grows_run|]. repeat constructor. cbn. set_solver.
  - pose proof (ok_jobs _ H2) as Hjs. assert (jobOK (hist s) j) as Hj.
    { rewrite Forall_forall in Hjs. apply Hjs, elem_of_app. right. by eapply list_elem_of_lookup_2. }
    destruct (respond_inv _ _ _ _ _ _ _ Hinv Hj Hn Hw) as (Hi & (E1 & E2 & E3 & E4 & E5 & E6 & E7 & _) & Hj' & Hno).
    apply (inv_serve s'); try done. apply (serveOK_task [] [] k j j' s'); try done; [apply Hi|by rewrite E3|by apply grows_nil|by destruct j as [f| |]; [destruct (Hn f)|..]| |].
    + intros g ->. done.
    + rewrite Hno. by destruct j as [f| |]; [destruct (Hn f)|..].
  - apply (inv_serve s); try done. by apply serveOK_take.
  - apply (inv_serve s); try done; [|cbn; set_solver]. apply (serveOK_lane (ranOf f h) [(f, r)] (JServing f) (Some (JAnswering f r)) s); try done;
      [apply grows_run|]. repeat constructor. cbn. set_solver.
  - pose proof (ok_jobs _ H2) as Hjs. assert (jobOK (hist s) j) as Hj.
    { rewrite Forall_forall in Hjs. apply Hjs, elem_of_app. left. rewrite Hk. cbn. set_solver. }
    destruct (respond_inv _ _ _ _ _ _ _ Hinv Hj Hn Hw) as (Hi & (E1 & E2 & E3 & E4 & E5 & E6 & E7 & _) & Hj' & Hno).
    apply (inv_serve s'); try done. apply (serveOK_lane [] [] j j' s'); try done;
      [apply Hi|by rewrite E2|by apply grows_nil|by destruct j as [f| |]; [destruct (Hn f)|..]|by destruct j'| |].
    + intros g ->. done.
    + rewrite Hno. by destruct j as [f| |]; [destruct (Hn f)|..].
  - apply (inv_serve s); try done. eapply (serveOK_jobs [] s); try done;
      [by rewrite Hi|apply H2|apply H2|by rewrite app_nil_r|..]; unfold jobs; cbn; [by rewrite Hi|].
    pose proof (ok_jobs _ H2) as Hjs. unfold jobs in Hjs. by rewrite Hi in Hjs.
Qed.

(** A step adds at most one call. *)
Lemma calls_grow s ev s' : cstep cfg s ev s' -> (length (calls s) <= length (calls s') <= S (length (calls s)))%nat.
Proof.
  assert (Hw : forall seen failed f s e s1 line, writeFrame cfg seen failed f s = (e, s1, line) -> length (calls s1) = length (calls s)).
  { intros seen failed f s0 e s1 line [(-> & -> & _)|(-> & [->| ->] & _)]%writeFrame_cases; [done..|]. apply shutdown_serving. }
  destruct 1 as [kind body decodes s s' Hb|i c seen failed s s' line Hi Hs _ E| | | |kind body seen failed s s' line _ E| |r s Hr| |
    |k j seen failed s j' s' line Hk Hn _ E| | |j seen failed s j' s' line Hk Hn _ E|]; cbn; rewrite ?length_insert, ?length_alter; try lia.
  - unfold callBegin in Hb. repeat case_match; simplify_eq/=. rewrite length_app. cbn [length]. lia.
  - unfold callWrite in E. destruct (writeFrame _ _ _ _ s) as [[e1 s1] out] eqn:Ew. apply Hw in Ew.
    destruct e1; simplify_eq/=; rewrite length_alter; lia.
  - unfold Notify in E. destruct (marshalBody body); [|simplify_eq; lia].
    destruct (writeFrame _ _ _ _ s) as [[e1 s1] out] eqn:Ew. apply Hw in Ew. simplify_eq. lia.
  - pose proof (shutdown_serving CauseClosed s). lia.
  - unfold readLoop. destruct r as [line|e].
    + destruct (Unmarshal line) as [f|]; [|cbn; pose proof (shutdown_serving CauseRead s); lia].
      unfold deliverResponse, dispatchRequest. repeat case_match; cbn; lia.
    + cbn. pose proof (shutdown_serving (readCause e) s). lia.
  - unfold respond in E. repeat case_match; simplify_eq; try lia;
      match goal with H : writeFrame _ _ _ _ _ = _ |- _ => apply Hw in H; lia end.
  - unfold respond in E. repeat case_match; simplify_eq; try lia;
      match goal with H : writeFrame _ _ _ _ _ = _ |- _ => apply Hw in H; lia end.
Qed.

Lemma creach_inv s : creach cfg s -> Z.of_nat (length (calls s)) < 2 ^ 64 -> inv s.
Proof.
  induction 1 as [|s ev s' _ IH Hstep]; intros Hlt; [apply inv_new|]. eapply conn_inv_step; [done..|].
  apply IH. apply calls_grow in Hstep. lia.
Qed.

Lemma evolves_trans s1 s2 s3 : evolves s1 s2 -> evolves s2 s3 -> evolves s1 s3.
Proof.
  intros [A1 B1] [A2 B2]. split; [|by etrans]. intros i c Hi. destruct (A1 _ _ Hi) as (c1 & H1 & E1 & F1 & G1).
  destruct (A2 _ _ H1) as (c2 & H2 & E2 & F2 & G2). exists c2. rewrite E2. split_and!; auto.
Qed.

Lemma write_evolves seen failed f s e s' line : writeFrame cfg seen failed f s = (e, s', line) -> evolves s s'.
Proof.
  intros [(-> & -> & _)|(-> & [->| ->] & _)]%writeFrame_cases; [by apply evolves_refl..|apply evolves_shutdown].
Qed.

Lemma respond_evolves seen failed j s j' s' line : respond cfg seen failed j s = (j', s', line) -> evolves s s'.
Proof.
  unfold respond. intros E. repeat case_match; simplify_eq; try (by apply evolves_refl);
    match goal with H : writeFrame _ _ _ _ _ = _ |- _ => by apply write_evolves in H end.
Qed.

(** Writing a call moves it out of [Sending]. *)
Lemma send_evolves i c seen failed s s' line : calls s !! i = Some c -> c_state c = Sending ->
  callWrite cfg i c seen failed s = (s', line) ->
  evolves s s' /\ exists c', calls s' !! i = Some c' /\ c_state c' <> Sending.
Proof.
  intros Hi Hs. unfold callWrite. destruct (writeFrame _ _ _ _ s) as [[e s1] l] eqn:Ew.
  pose proof (write_evolves _ _ _ _ _ _ _ Ew) as He. destruct He as [Hc Ha]. destruct (Hc _ _ Hi) as (c1 & Hi1 & Hf & _).
  assert (forall e, c_state c1 <> Returned e) as Hr.
  { assert (c_state c1 = Sending) as ->; [|done].
    apply writeFrame_cases in Ew as [(-> & -> & _)|(-> & [->| ->] & _)]; cbn in Hi1; [congruence..|]. revert Hi1. unfold shutdown.
    destruct (closed s); [congruence|]. cbn. rewrite list_lookup_imap, Hi. cbn. by case_bool_decide; intros [= <-]. }
  intros E. assert (exists st, st <> Sending /\ s' = setCalls (alter (setState st) i) s1) as (st & Hst & ->)
    by (destruct e as [e|]; injection E as <- <-; [by exists (Returning (Failed e))|by exists Waiting]).
  split; [|exists (setState st c1); cbn; by rewrite list_lookup_alter, decide_True, Hi1].
  apply (evolves_trans _ s1); [done|]. apply (evolves_put i c1 (setState st c1)); try done. cbn. by apply alter_insert.
Qed.

Lemma cstep_evolves s ev s' : cstep cfg s ev s' -> evolves s s'.
Proof.
  destruct 1 as [kind body decodes s s' Hb|i c seen failed s s' line Hi Hs _ Hw|i c c' s Hi Hs Hc|i c s Hi Hs|i c e s Hi Hs
    |kind body seen failed s s' line _ Hw|s|r s Hr|i f c ch s Hr Hi Hch|k f h s Hk r|k j seen failed s j' s' line Hk Hn _ Hw
    |f l s Hi Hl|f h s Hk r|j seen failed s j' s' line Hk Hn _ Hw|s Hi Hc].
  - by destruct (evolves_begin _ _ _ _ _ Hb).
  - by destruct (send_evolves _ _ _ _ _ _ _ Hi Hs Hw).
  - apply (evolves_put i c c'); [done..| | |by rewrite Hs]; unfold callReceive in Hc; by repeat case_match; simplify_eq.
  - apply (evolves_put i c (setState (Returning (Failed ECancelled)) c)); try done; [by apply alter_insert|by rewrite Hs].
  - apply (evolves_put i c (setState (Returned e) c)); try done; [by apply alter_insert|by rewrite Hs].
  - unfold Notify in Hw. destruct (marshalBody body); [|simplify_eq; by apply evolves_refl].
    destruct (writeFrame _ _ _ _ s) as [[e1 s1] out] eqn:Ew. apply write_evolves in Ew. by simplify_eq.
  - apply evolves_shutdown.
  - unfold readLoop. destruct r as [line|e]; [|apply (evolves_trans _ _ _ (evolves_shutdown (readCause e) s)); by apply evolves_refl].
    destruct (Unmarshal line) as [f|]; [|apply (evolves_trans _ _ _ (evolves_shutdown CauseRead s)); by apply evolves_refl].
    unfold deliverResponse, dispatchRequest. repeat case_match; try (by apply evolves_refl). split; [eauto 6|cbn; set_solver].
  - split; [|done]. intros j d Hj. cbn. rewrite list_lookup_alter. case_decide; [|eauto 6]. subst. rewrite Hj. cbn. eexists. by split_and!.
  - split; [eauto 6|cbn; set_solver].
  - apply (evolves_trans _ s'); [by eapply respond_evolves|by apply evolves_refl].
  - by apply evolves_refl.
  - split; [eauto 6|cbn; set_solver].
  - apply (evolves_trans _ s'); [by eapply respond_evolves|by apply evolves_refl].
  - by apply evolves_refl.
Qed.

(** A request frame with an id is written by the call it belongs to. *)
Lemma cstep_writes s l s' f : cstep cfg s (Wrote l) s' -> wrote (hist s') = wrote (hist s) ++ [f] ->
  IsResponse f = true \/ ID f = 0 \/
  exists i c c', calls s !! i = Some c /\ c_state c = Sending /\ f = callFrame c /\ calls s' !! i = Some c' /\ c_state c' <> Sending.
Proof.
  assert (Hw : forall seen failed g s e s1 out, writeFrame cfg seen failed g s = (e, s1, out) -> wrote (hist s1) = wrote (hist s) ++ [f] -> g = f).
  { intros seen failed g s0 e s1 out [(-> & -> & _)|(-> & [->| ->] & _)]%writeFrame_cases; cbn.
    - by intros [_ [= ->]]%app_inj_tail.
    - intros E%(f_equal length). rewrite length_app in E. cbn in E. lia.
    - destruct (shutdown_serving CauseWrite s0) as (_ & _ & _ & -> & _). intros E%(f_equal length). rewrite length_app in E. cbn in E. lia. }
  assert (Hresp : forall seen failed j s j' s1 out, respond cfg seen failed j s = (j', s1, out) -> wrote (hist s1) = wrote (hist s) ++ [f] -> IsResponse f = true).
  { intros seen failed j s0 j' s1 out E Hf. unfold respond in E. destruct j as [g|g r|g e].
    - simplify_eq. apply (f_equal length) in Hf. rewrite length_app in Hf. cbn in Hf. lia.
    - destruct (ID g =? 0); [simplify_eq; apply (f_equal length) in Hf; rewrite length_app in Hf; cbn in Hf; lia|].
      destruct (writeFrame _ _ _ _ s0) as [[e1 s2] out1] eqn:Ew. assert (s1 = s2) as -> by (destruct e1 as [[]|]; by simplify_eq).
      apply Hw in Ew; [subst f|done]. destruct r as [v|]; [|done]. cbn. by destruct (marshalBody v).
    - destruct (writeFrame _ _ _ _ s0) as [[e1 s2] out1] eqn:Ew. simplify_eq. apply Hw in Ew; [by subst f|done]. }
  intros Hst Hf. remember (Wrote l) as ev eqn:Hev. destruct Hst as
    [|i c seen failed s s' line Hi Hs _ E| | | |kind body seen failed s s' line _ E| | | | |k j seen failed s j' s' line Hk Hn _ E
    | | |j seen failed s j' s' line Hk Hn _ E|]; try done.
  - right. right. destruct (send_evolves _ _ _ _ _ _ _ Hi Hs E) as (_ & c' & Hi' & Hs'). exists i, c, c'. split_and!; try done.
    unfold callWrite in E. destruct (writeFrame _ _ _ _ s) as [[e1 s1] out] eqn:Ew. symmetry. eapply Hw; [exact Ew|].
    by destruct e1; simplify_eq.
  - right. left. unfold Notify in E. destruct (marshalBody body); [|simplify_eq; by destruct line].
    destruct (writeFrame _ _ _ _ s) as [[e1 s1] out] eqn:Ew. simplify_eq. apply Hw in Ew; [by subst f|done].
  - left. by eapply Hresp.
  - left. by eapply Hresp.
Qed.

End Serve.

End SidecarInv.
