(* ===== verification/SidecarPair.v ===== *)
(** * Two connections on one socket

    Composes two [Conn]s over the duplex stream between them.  Each direction is
    the list of lines written and not yet read; a reader takes the next one with
    [readFrame], and either end's reads and writes may fail at any time.  A failed
    write shuts its end down before the next write can start, so a torn line is
    the last thing its reader gets and reads as a broken stream. *)

From S2P Require Import Prelude GoBytes SidecarFrame SidecarConn SidecarInv.
Import SidecarFrame SidecarConn SidecarInv.

Module SidecarPair.

Section Pair.

Context {CODEC : FrameCodec}.

(** The bytes on the stream for the lines [w]. *)
Definition onWire (w : list bytes) : bytes := concat (map (fun l => l ++ [LF]) w).

(** One end's steps: what it reads comes off [inw], what it writes joins [outw]. *)
Inductive hstep (cfg : config) : conn -> list bytes -> list bytes -> conn -> list bytes -> list bytes -> Prop :=
| h_tau s s' inw outw : cstep cfg s Tau s' -> hstep cfg s inw outw s' inw outw
| h_wrote s s' inw outw l : cstep cfg s (Wrote l) s' -> hstep cfg s inw outw s' inw (outw ++ [l])
| h_took s s' l inw outw r rest : readFrame (maxRead cfg) (Stream (onWire (l :: inw)) Broken) = Some (r, rest) ->
    cstep cfg s (Took r) s' -> hstep cfg s (l :: inw) outw s' inw outw
| h_broken s s' inw outw e : e <> ErrFrameTooLarge -> cstep cfg s (Took (Err e)) s' -> hstep cfg s inw outw s' inw outw.

Record pair := MkPair { left : conn; right : conn; toRight : list bytes; toLeft : list bytes }.

Variables cfgL cfgR : config.

Inductive pstep : pair -> pair -> Prop :=
| p_left l r wr wl l' wl' wr' : hstep cfgL l wl wr l' wl' wr' -> pstep (MkPair l r wr wl) (MkPair l' r wr' wl')
| p_right l r wr wl r' wr' wl' : hstep cfgR r wr wl r' wr' wl' -> pstep (MkPair l r wr wl) (MkPair l r' wr' wl').

Definition start : pair := MkPair New New [] [].

Definition preach (p : pair) : Prop := rtc pstep start p.

(** Fewer calls than a 64-bit id can number. *)
Definition few (s : conn) : Prop := Z.of_nat (length (calls s)) < 2 ^ 64.

(** ** What a step logs *)

Definition logsOf (s : conn) (ev : event) (cfg : config) (s' : conn) : Prop :=
  match ev with
  | Tau => took (hist s') = took (hist s) /\ wrote (hist s') = wrote (hist s) /\ (reader s = Stopped -> reader s' = Stopped)
  | Wrote l => took (hist s') = took (hist s) /\ (reader s = Stopped -> reader s' = Stopped) /\
      exists f, wrote (hist s') = wrote (hist s) ++ [f] /\ Marshal f = Some l /\ overLimit (maxWrite cfg) (length l) = false
  | Took r => reader s = Reading /\ s' = readLoop r s
  end.

Lemma shutdown_hist why s : hist (shutdown why s) = hist s /\ reader (shutdown why s) = reader s.
Proof. unfold shutdown. by destruct (closed s). Qed.

Lemma write_logs cfg seen failed f s e s' line : writeFrame cfg seen failed f s = (e, s', line) -> logsOf s (written line) cfg s'.
Proof.
  intros [(-> & -> & l & -> & Hm & Ho)|(-> & Hx & _)]%writeFrame_cases; cbn; [split_and!; [done..|by exists f]|].
  destruct Hx as [->| ->]; [done|]. by destruct (shutdown_hist CauseWrite s) as [-> ->].
Qed.

Lemma respond_logs cfg seen failed j s j' s' line : respond cfg seen failed j s = (j', s', line) -> logsOf s (written line) cfg s'.
Proof.
  unfold respond. destruct j as [f|f r|f e]; [by intros [= <- <- <-]| |].
  - destruct (ID f =? 0); [by intros [= <- <- <-]|]. destruct (writeFrame _ _ _ _ s) as [[e s1] l] eqn:Ew.
    apply write_logs in Ew. by destruct e as [[]|]; intros [= <- <- <-].
  - destruct (writeFrame _ _ _ _ s) as [[e1 s1] l] eqn:Ew. apply write_logs in Ew. by intros [= <- <- <-].
Qed.

(** The log only depends on the history and the reader. *)
Lemma logs_same cfg s ev s' s'' : logsOf s ev cfg s' -> (forall r, ev <> Took r) -> took (hist s'') = took (hist s') -> wrote (hist s'') = wrote (hist s') ->
  (reader s' = Stopped -> reader s'' = Stopped) -> logsOf s ev cfg s''.
Proof. intros H Hn E1 E2 E3. destruct ev; cbn in *; [| |by destruct (Hn r)]; rewrite E1, E2; naive_solver. Qed.

Lemma written_took line r : written line <> Took r.
Proof. by destruct line. Qed.

Lemma cstep_logs cfg s ev s' : cstep cfg s ev s' -> logsOf s ev cfg s'.
Proof.
  destruct 1 as [kind body decodes s s' Hb|i c seen failed s s' line Hi Hs _ E| | | |kind body seen failed s s' line _ E|s|r s Hr|i f c ch s Hr|
    |k j seen failed s j' s' line Hk Hn _ E| | |j seen failed s j' s' line Hk Hn _ E|]; try done.
  - unfold callBegin in Hb. by repeat case_match; simplify_eq/=.
  - unfold callWrite in E. destruct (writeFrame _ _ _ _ s) as [[e1 s1] out] eqn:Ew. apply write_logs in Ew.
    destruct e1; simplify_eq; by apply (logs_same _ _ _ _ _ Ew); [apply written_took|..].
  - unfold Notify in E. destruct (marshalBody body); [|by simplify_eq]. destruct (writeFrame _ _ _ _ s) as [[e1 s1] out] eqn:Ew.
    apply write_logs in Ew. by simplify_eq.
  - cbn. by destruct (shutdown_hist CauseClosed s) as [-> ->].
  - cbn. rewrite Hr. by split_and!.
  - apply respond_logs in E. by apply (logs_same _ _ _ _ _ E); [apply written_took|..].
  - apply respond_logs in E. by apply (logs_same _ _ _ _ _ E); [apply written_took|..].
Qed.

(** ** The stream between two ends *)

(** What [D] has read is what [C] wrote, in order, and the rest is on the wire. *)
Definition chanOK (cfgC : config) (C D : conn) (wire : list bytes) : Prop :=
  exists done_ pend, wrote (hist C) = done_ ++ pend /\ took (hist D) = map carried done_ /\
    (reader D <> Stopped -> Forall2 (fun f l => Marshal f = Some l /\ overLimit (maxWrite cfgC) (length l) = false) pend wire).

Lemma readLine max l w r rest : LF ∉ l -> readFrame max (Stream (onWire (l :: w)) Broken) = Some (r, rest) ->
  r = if overLimit max (length l) then Err ErrFrameTooLarge else Ok l.
Proof.
  intros Hl Hr. destruct (readFrame_spec max (Stream (onWire (l :: w)) Broken)) as (r' & s' & H1 & H2 & _).
  rewrite H1 in Hr. simplify_eq. unfold onWire. cbn [map concat]. rewrite <-app_assoc. by apply frameOf_line.
Qed.

Lemma readLoop_took r s : took (hist (readLoop r s)) = took (hist s) ++ match r with Ok l => option_list (Unmarshal l) | Err _ => [] end /\
  wrote (hist (readLoop r s)) = wrote (hist s) /\
  (reader s = Reading -> match r with Ok l => is_Some (Unmarshal l) | Err _ => False end \/ reader (readLoop r s) = Stopped).
Proof.
  unfold readLoop. destruct r as [l|e].
  - destruct (Unmarshal l) as [f|]; cbn; [|destruct (shutdown_hist CauseRead s) as [-> _]; rewrite app_nil_r; auto].
    unfold deliverResponse, dispatchRequest. split_and!; [by repeat case_match..|eauto].
  - cbn. destruct (shutdown_hist (readCause e) s) as [-> _]. rewrite app_nil_r. auto.
Qed.

Lemma chanOK_reader cfg cfgD C D D' l inw outw' r rest : chanOK cfg C D (l :: inw) -> reader D = Reading ->
  readFrame (maxRead cfgD) (Stream (onWire (l :: inw)) Broken) = Some (r, rest) -> D' = readLoop r D -> outw' = inw -> chanOK cfg C D' outw'.
Proof.
  intros (dn & pend & Hw & Ht & Hp) Hrd Hr -> ->. specialize (Hp ltac:(by rewrite Hrd)).
  apply Forall2_cons_inv_r in Hp as (f & pend' & (Hf & Ho) & Hp & ->).
  apply readLine in Hr; [|by eapply Marshal_line]. destruct (readLoop_took r D) as (T1 & T2 & T3).
  destruct (overLimit (maxRead cfgD) (length l)); subst r; cbn beta iota in T1.
  - exists dn, (f :: pend'). rewrite T1, app_nil_r. split_and!; [done..|]. by destruct (T3 Hrd).
  - exists (dn ++ [f]), pend'. rewrite T1, Ht, map_app, (Unmarshal_Marshal _ _ Hf), Hw, <-app_assoc. by split_and!.
Qed.

Lemma chanOK_step cfg s inw outw s' inw' outw' : hstep cfg s inw outw s' inw' outw' -> forall cfgC D,
  chanOK cfgC D s inw -> chanOK cfg s D outw -> chanOK cfgC D s' inw' /\ chanOK cfg s' D outw'.
Proof.
  intros H cfgC D Hin Hout. destruct H as [s s' inw outw H|s s' inw outw l H|s s' l inw outw r rest Hr H|s s' inw outw e He H];
    apply cstep_logs in H; cbn [logsOf] in H.
  - destruct H as (E1 & E2 & E3). split.
    + destruct Hin as (dn & pd & ? & ? & ?). exists dn, pd. rewrite E1. split_and!; auto.
    + destruct Hout as (dn & pd & ? & ? & ?). exists dn, pd. by rewrite E2.
  - destruct H as (E1 & E3 & f & E2 & Hf). split.
    + destruct Hin as (dn & pd & ? & ? & ?). exists dn, pd. rewrite E1. split_and!; auto.
    + destruct Hout as (dn & pd & Hw & Ht & Hp). exists dn, (pd ++ [f]). rewrite E2, Hw, app_assoc. split_and!; [done..|].
      intros Hs. apply Forall2_app; [by apply Hp|by constructor].
  - destruct H as (Hrd & ->). split; [by eapply chanOK_reader|]. destruct Hout as (dn & pd & ? & ? & ?). exists dn, pd.
    by destruct (readLoop_took r s) as (_ & -> & _).
  - destruct H as (Hrd & ->). destruct (readLoop_took (Err e) s) as (T1 & T2 & T3). cbn beta iota in T1. rewrite app_nil_r in T1. split.
    + destruct Hin as (dn & pd & ? & ? & ?). exists dn, pd. rewrite T1. split_and!; [done..|]. by destruct (T3 Hrd).
    + destruct Hout as (dn & pd & ? & ? & ?). exists dn, pd. by rewrite T2.
Qed.

Lemma pstep_inv p q : pstep p q -> few (left q) -> few (right q) ->
  inv cfgL (left p) /\ inv cfgR (right p) /\ chanOK cfgL (left p) (right p) (toRight p) /\ chanOK cfgR (right p) (left p) (toLeft p) ->
  inv cfgL (left q) /\ inv cfgR (right q) /\ chanOK cfgL (left q) (right q) (toRight q) /\ chanOK cfgR (right q) (left q) (toLeft q).
Proof.
  assert (Hend : forall cfg s inw outw s' inw' outw', hstep cfg s inw outw s' inw' outw' -> few s' -> inv cfg s -> inv cfg s').
  { intros cfg s inw outw s' inw' outw' []; intros; by eapply conn_inv_step. }
  intros [l r wr wl l' wl' wr' H|l r wr wl r' wr' wl' H]; cbn; intros F1 F2 (I1 & I2 & C1 & C2).
  - destruct (chanOK_step _ _ _ _ _ _ _ H _ _ C2 C1). split_and!; try done. by eapply Hend.
  - destruct (chanOK_step _ _ _ _ _ _ _ H _ _ C1 C2). split_and!; try done. by eapply Hend.
Qed.

Lemma pstep_grow p q : pstep p q -> (length (calls (left p)) <= length (calls (left q)))%nat /\ (length (calls (right p)) <= length (calls (right q)))%nat.
Proof.
  assert (Hend : forall cfg s inw outw s' inw' outw', hstep cfg s inw outw s' inw' outw' -> (length (calls s) <= length (calls s'))%nat).
  { intros cfg s inw outw s' inw' outw' [? ? ? ? Hs|? ? ? ? ? Hs|? ? ? ? ? ? ? _ Hs|? ? ? ? ? _ Hs]; apply calls_grow in Hs; lia. }
  intros [l r wr wl l' wl' wr' H|l r wr wl r' wr' wl' H]; cbn; eauto.
Qed.

Lemma preach_inv p : preach p -> few (left p) -> few (right p) ->
  inv cfgL (left p) /\ inv cfgR (right p) /\ chanOK cfgL (left p) (right p) (toRight p) /\ chanOK cfgR (right p) (left p) (toLeft p).
Proof.
  revert p. apply (rtc_ind_r (fun p => few (left p) -> few (right p) -> inv cfgL (left p) /\ inv cfgR (right p) /\
    chanOK cfgL (left p) (right p) (toRight p) /\ chanOK cfgR (right p) (left p) (toLeft p))); [|intros q p _ Hstep IH]; intros F1 F2.
  - assert (forall cfg, chanOK cfg New New []) by (intros cfg; exists [], []; by repeat constructor).
    split_and!; cbn; auto using inv_new.
  - eapply pstep_inv; [done..|]. apply pstep_grow in Hstep. unfold few in *. apply IH; lia.
Qed.

(** ** Requests and their answers *)

Lemma took_sent cfg C D wire f : chanOK cfg C D wire -> inv cfg C -> f ∈ took (hist D) -> exists f0, f = carried f0 /\ f0 ∈ wrote (hist C) /\ sent cfg C f0.
Proof.
  intros (dn & pd & Hw & Ht & _) (_ & _ & [Hs _]) Hf. rewrite Ht in Hf. apply list_elem_of_fmap in Hf as (f0 & -> & Hf0).
  exists f0. assert (f0 ∈ wrote (hist C)) by (rewrite Hw; set_solver). rewrite Forall_forall in Hs. auto.
Qed.

(** A response [D] read answers a request [C] answered. *)
Lemma took_response cfg C D wire f : chanOK cfg C D wire -> inv cfg C -> f ∈ took (hist D) -> IsResponse f = true ->
  exists q r, (q, r) ∈ answered (hist C) /\ ID q <> 0 /\ ID f = ID q /\
    (f = carried (responseFrame q r) \/ exists e, refusedFrame cfg (responseFrame q r) e /\ f = carried (refusalFrame q e)).
Proof.
  intros Hch Hinv Hf Hr. destruct (took_sent _ _ _ _ _ Hch Hinv Hf) as (f0 & -> & _ & Hs). rewrite carried_response in Hr.
  destruct Hs as [(i & c & _ & _ & ->)|[[? _]|(q & r & Hq & H0 & Hs)]]; [done|congruence|].
  exists q, r. rewrite carried_id. split_and!; [done..| |naive_solver].
  destruct Hs as [->|(e & _ & ->)]; [|done]. destruct r as [v|]; [|done]. cbn. by destruct (marshalBody v).
Qed.

(** A request with an id that [D] read is a call of [C]. *)
Lemma took_request cfg C D wire f : chanOK cfg C D wire -> inv cfg C -> f ∈ took (hist D) -> IsResponse f = false -> ID f <> 0 ->
  exists i c, calls C !! i = Some c /\ f = carried (callFrame c).
Proof.
  intros Hch Hinv Hf Hr H0. destruct (took_sent _ _ _ _ _ Hch Hinv Hf) as (f0 & -> & _ & Hs). rewrite carried_response in Hr.
  rewrite carried_id in H0. destruct Hs as [(i & c & Hi & _ & ->)|[[_ ?]|(q & r & _ & _ & [->|(e & _ & ->)])]]; [by eauto|done| |done].
  destruct r as [v|]; [|done]. cbn in Hr. by destruct (marshalBody v).
Qed.

(** Requests are read from the stream before they are answered. *)
Lemma answered_took cfg s q r : inv cfg s -> (q, r) ∈ answered (hist s) -> q ∈ took (hist s) /\ IsResponse q = false.
Proof.
  intros (_ & [_ _ _ _ _ _ Hp _] & _) Hq. assert (q ∈ filter isRequest (took (hist s))) as [? ?]%list_elem_of_filter; [|done].
  rewrite <-Hp. apply elem_of_app. left. apply list_elem_of_fmap. by exists (q, r).
Qed.

(** The frame that ended call [c] of [C] is [D]'s answer to that call. *)
Lemma reply_matches cfgC cfgD C D wcd wdc i c f : chanOK cfgC C D wcd -> chanOK cfgD D C wdc -> inv cfgC C -> inv cfgD D ->
  calls C !! i = Some c -> holds c f -> exists r, (carried (callFrame c), r) ∈ answered (hist D) /\
    (f = carried (responseFrame (carried (callFrame c)) r) \/ exists e, refusedFrame cfgD (responseFrame (carried (callFrame c)) r) e /\ f = carried (refusalFrame (carried (callFrame c)) e)).
Proof.
  intros H1 H2 IC ID_ Hi Hf. pose proof IC as ([_ Hids _ _ _ _ Hrep] & _). destruct (Hrep _ _ _ Hi Hf) as (Hid & Hr & Ht).
  destruct (took_response _ _ _ _ _ H2 ID_ Ht Hr) as (q & r & Hq & H0 & Hidq & Hfr).
  destruct (answered_took _ _ _ _ ID_ Hq) as [Htq Hrq].
  destruct (took_request _ _ _ _ _ H1 IC Htq Hrq H0) as (j & d & Hj & ->).
  rewrite carried_id in Hidq. cbn in Hidq. pose proof (Hids _ _ Hi). pose proof (Hids _ _ Hj). assert (i = j) by lia. subst.
  rewrite Hi in Hj. injection Hj as <-. by exists r.
Qed.

Lemma callID_carried f : callID (carried f) = callID f.
Proof. unfold callID. by rewrite carried_response, carried_id. Qed.

(** No request is answered twice. *)
Lemma answered_once cfgC cfgD C D wire : chanOK cfgC C D wire -> inv cfgC C -> inv cfgD D ->
  NoDup (omap callID ((answered (hist D)).*1)).
Proof.
  intros (dn & pd & Hw & Ht & _) (_ & _ & [_ Hon]) (_ & [_ _ _ _ _ _ Hp _] & _).
  assert (NoDup (omap callID (took (hist D)))) as Hnd.
  { rewrite Hw, omap_app in Hon. apply NoDup_app in Hon as (Hon & _). rewrite Ht.
    assert (forall l, omap callID (map carried l) = omap callID l) as ->; [|done].
    intros l. induction l as [|f l IH]; [done|]. cbn. rewrite callID_carried. by destruct (callID f); rewrite IH. }
  assert (omap callID (took (hist D)) = omap callID (filter isRequest (took (hist D)))) as E.
  { clear. induction (took (hist D)) as [|f l IH]; [done|]. rewrite filter_cons. cbn. case_decide as Hd; cbn; rewrite IH; [done|].
    unfold callID. unfold isRequest in Hd. by destruct (IsResponse f). }
  rewrite E, <-Hp, omap_app in Hnd. by apply NoDup_app in Hnd as (? & _).
Qed.

(** Nor is any handed to the handler twice. *)
Lemma served_once cfgC cfgD C D wire : chanOK cfgC C D wire -> inv cfgC C -> inv cfgD D ->
  NoDup (omap callID ((served (hist D)).*1)).
Proof.
  intros H1 H2 H3. pose proof (answered_once _ _ _ _ _ H1 H2 H3) as Hn. destruct H3 as (_ & [_ _ _ Hs _ _ _ _] & _).
  revert Hn. induction Hs as [|x l k Hs IH|x l k Hs IH]; cbn; [done|..].
  - destruct (callID x); [|done]. rewrite !NoDup_cons. intros [Hx Hn]. split; [|auto]. intros Hin. apply Hx.
    apply list_elem_of_omap in Hin as (y & Hy & E). apply list_elem_of_omap. exists y. split; [|done]. by eapply elem_of_sublist.
  - destruct (callID x); [rewrite NoDup_cons; intros [_ Hn]|intros Hn]; auto.
Qed.

End Pair.

End SidecarPair.
