(* ===== verification/RecordSender.v ===== *)
(** * Delivering audit records

    Models [RecordSender] of internal/agentproc/recordsender.go: the queue, its
    one sending goroutine and the drain, running on the sidecar's end of a pair
    of connections.  The sender is the only user of [KindRelayRecord] on its
    connection; every other call and notify of that end may be of any other kind. *)

From S2P Require Import Prelude GoBytes SidecarFrame SidecarConn SidecarInv SidecarPair.
Import SidecarFrame SidecarConn SidecarInv SidecarPair.

Module RecordSender.

(** A [RelayRecordBody]. *)
Record rec := MkRec { Namespace : bytes; Op : bytes; Key : bytes; Args : bytes }.

Notation recordName := (list ascii * list ascii)%type.
Definition nameOf (r : rec) : recordName := (Namespace r, Op r).

Record recordSendPolicy := Policy { queueLimit : nat; resendInitial : Z; resendMax : Z }.

(** Durations in nanoseconds. *)
Definition defaultRecordSendPolicy : recordSendPolicy := Policy (Z.to_nat 4096) 250000000 5000000000.

(** Where the sending goroutine is: before [next], in the call for [head],
    between the two halves of [givenUp], waiting out [delay], or gone. *)
Inductive runState :=
| Between (delay : Z)
| Calling (head : rec) (i : nat) (delay : Z)
| GivingUp (head : rec) (delay : Z)
| Backoff (delay : Z)
| Exited.

(** [queue], [empty], [undelivered], [stopped] and the goroutine; [empty] is
    [None] before the first record, else whether the channel is closed.  The
    other fields record the past: names offered, records queued, attempts with
    the number of the record they carry, how many records left the head, records
    acknowledged, records reported by a drain, and names counted while the
    record is still queued. *)
Record sender := MkSender {
  queue : list rec; empty_ : option bool; undelivered : gmap recordName Z; stopped : bool; running : runState;
  offered : list recordName; queued : list rec; tries : list (Frame * nat); removed : nat;
  acks : list rec; reported : gmap recordName Z; twice : list recordName
}.

Definition newRecordSender (p : recordSendPolicy) : sender :=
  MkSender [] None ∅ false (Between (resendInitial p)) [] [] [] 0 [] ∅ [].

Definition count (m : gmap recordName Z) (n : recordName) : Z := default 0 (m !! n).
Definition bump (n : recordName) (m : gmap recordName Z) : gmap recordName Z := <[n := count m n + 1]> m.

Inductive sendErr := errRecordsDrained | errMarshal | errRecordQueueFull.

(** [Send] of a record whose arguments marshal to [raw] and whose key is [key]. *)
Definition Send (p : recordSendPolicy) (ns op : bytes) (raw : option bytes) (key : bytes) (s : sender) : sender * option sendErr :=
  let name := (ns, op) in
  let lost e :=
    (MkSender (queue s) (empty_ s) (bump name (undelivered s)) (stopped s) (running s)
       (offered s ++ [name]) (queued s) (tries s) (removed s) (acks s) (reported s) (twice s), Some e) in
  if stopped s then (s, Some errRecordsDrained)
  else
    match raw with
    | None => lost errMarshal
    | Some args =>
        if (queueLimit p <=? length (queue s))%nat then lost errRecordQueueFull
        else
          let r := MkRec ns op key args in
          (MkSender (queue s ++ [r]) (if bool_decide (queue s = []) then Some false else empty_ s) (undelivered s) (stopped s) (running s)
             (offered s ++ [name]) (queued s ++ [r]) (tries s) (removed s) (acks s) (reported s) (twice s), None)
    end.

(** The order of [Drain]'s report. *)
Fixpoint bytesLt (a b : bytes) : bool :=
  match a, b with
  | _, [] => false
  | [], _ => true
  | x :: a, y :: b => (bv x <? bv y) || ((bv x =? bv y) && bytesLt a b)
  end.
Definition reportLe (a b : recordName * Z) : Prop :=
  (if bool_decide (b.1.1 = a.1.1) then bytesLt b.1.2 a.1.2 else bytesLt b.1.1 a.1.1) = false.
#[export] Instance reportLe_dec a b : Decision (reportLe a b) := decide_rel eq _ _.

Definition addCounts (a b : gmap recordName Z) : gmap recordName Z := union_with (fun x y => Some (x + y)) a b.

(** [Drain] once its wait is over: stop, count what is queued, report. *)
Definition Drain (s : sender) : sender * list (recordName * Z) :=
  let und := fold_left (fun m r => bump (nameOf r) m) (queue s) (undelivered s) in
  (MkSender [] (empty_ s) ∅ true (running s) (offered s) (queued s) (tries s) (removed s) (acks s) (addCounts (reported s) und) (twice s),
   merge_sort reportLe (map_to_list und)).

(** [acknowledged]: removes the head when it is still the record with this key. *)
Definition isHead (key : bytes) (s : sender) : bool :=
  match queue s with r :: _ => bool_decide (Key r = key) | [] => false end.

Definition acknowledged (key : bytes) (s : sender) : sender :=
  if isHead key s then
    let q := tail (queue s) in
    MkSender q (if bool_decide (q = []) then Some true else empty_ s) (undelivered s) (stopped s) (running s)
      (offered s) (queued s) (tries s) (S (removed s)) (acks s) (reported s) (twice s)
  else s.

(** The first half of [givenUp], under its own lock: the count. *)
Definition givenUp (head : rec) (s : sender) : sender :=
  if isHead (Key head) s then
    MkSender (queue s) (empty_ s) (bump (nameOf head) (undelivered s)) (stopped s) (running s)
      (offered s) (queued s) (tries s) (removed s) (acks s) (reported s) (nameOf head :: twice s)
  else s.

(** The bookkeeping of an acknowledgement, and of a removal after the count. *)
Definition logAck (head : rec) (s : sender) : sender :=
  MkSender (queue s) (empty_ s) (undelivered s) (stopped s) (running s) (offered s) (queued s) (tries s) (removed s)
    (if isHead (Key head) s then acks s ++ [head] else acks s) (reported s) (twice s).
Definition logRemoved (head : rec) (s : sender) : sender :=
  MkSender (queue s) (empty_ s) (undelivered s) (stopped s) (running s) (offered s) (queued s) (tries s) (removed s)
    (acks s) (reported s) (if isHead (Key head) s then tail (twice s) else twice s).

Definition setRunning (r : runState) (s : sender) : sender :=
  MkSender (queue s) (empty_ s) (undelivered s) (stopped s) r (offered s) (queued s) (tries s) (removed s) (acks s) (reported s) (twice s).
Definition logTry (f : Frame) (s : sender) : sender :=
  MkSender (queue s) (empty_ s) (undelivered s) (stopped s) (running s) (offered s) (queued s) (tries s ++ [(f, removed s)])
    (removed s) (acks s) (reported s) (twice s).

(** [errors.Is(err, ErrFrameTooLarge)]: a frame this end refused to write, or a
    connection closed over a frame this end refused to read. *)
Definition tooLarge (e : cerr) : bool :=
  match e with ETooLarge _ _ _ | EClosed CauseTooLarge => true | _ => false end.

(** What [run] does with the outcome of the call for [head]. *)
Definition onResult (p : recordSendPolicy) (head : rec) (delay : Z) (r : res cerr bytes) (s : sender) : sender :=
  match r with
  | Ok _ => setRunning (Between (resendInitial p)) (acknowledged (Key head) (logAck head s))
  | Err e => if tooLarge e then setRunning (GivingUp head delay) (givenUp head s) else setRunning (Backoff delay) s
  end.

Section System.

Context {CODEC : FrameCodec}.
Variables cfgL cfgR : config.
Variable policy : recordSendPolicy.
(** The payload a record is sent as. *)
Variable marshalRecord : rec -> bytes.

Record rsys := MkSys { net : pair; snd_ : sender }.

(** A step of the pair in which nobody else sends a record frame. *)
Definition quiet (p q : pair) : Prop :=
  (forall c, calls (left q) !! length (calls (left p)) = Some c -> c_kind c <> KindRelayRecord) /\
  (forall f, wrote (hist (left q)) = wrote (hist (left p)) ++ [f] -> ID f = 0 -> Kind f <> KindRelayRecord).

Inductive rstep : rsys -> rsys -> Prop :=
| r_net p q s : pstep cfgL cfgR p q -> quiet p q -> rstep (MkSys p s) (MkSys q s)
| r_send p s ns op raw key s' e : key ∉ map Key (queued s) -> Send policy ns op raw key s = (s', e) -> rstep (MkSys p s) (MkSys p s')
| r_drain p s s' res : Drain s = (s', res) -> rstep (MkSys p s) (MkSys p s')
| r_stop p s d : running s = Between d -> stopped s = true \/ (queue s = [] /\ closed (left p) <> None) ->
    rstep (MkSys p s) (MkSys p (setRunning Exited s))
| r_call l r wr wl l' s head q d : running s = Between d -> stopped s = false -> queue s = head :: q ->
    callBegin KindRelayRecord (VJson (Some (marshalRecord head))) None l = Ok l' ->
    let f := MkFrame KindRelayRecord (nextID l') false [] (marshalRecord head) in
    rstep (MkSys (MkPair l r wr wl) s)
      (MkSys (MkPair l' r wr wl) (setRunning (Calling head (length (calls l)) d) (logTry f s)))
| r_refused p s head q d e : running s = Between d -> stopped s = false -> queue s = head :: q ->
    callBegin KindRelayRecord (VJson (Some (marshalRecord head))) None (left p) = Err e ->
    rstep (MkSys p s) (MkSys p (onResult policy head d (Err e) s))
| r_result p s head i d c e : running s = Calling head i d -> calls (left p) !! i = Some c -> c_state c = Returned e ->
    rstep (MkSys p s) (MkSys p (onResult policy head d (callResult c e) s))
| r_removed p s head d : running s = GivingUp head d ->
    rstep (MkSys p s) (MkSys p (setRunning (Between d) (acknowledged (Key head) (logRemoved head s))))
| r_again p s d : running s = Backoff d -> rstep (MkSys p s) (MkSys p (setRunning (Between (Z.min (2 * d) (resendMax policy))) s))
| r_give_up p s d : running s = Backoff d -> stopped s = true \/ closed (left p) <> None ->
    rstep (MkSys p s) (MkSys p (setRunning Exited s)).

Definition rstart : rsys := MkSys start (newRecordSender policy).
Definition rreach (x : rsys) : Prop := rtc rstep rstart x.

End System.

End RecordSender.
