(* ===== verification/RecordInv.v ===== *)
(** * The record sender's invariants

    The sender's own bookkeeping ([acctOK]: the queue is the tail of what was
    queued, every offered record is acknowledged, counted or queued) and its
    relation to the connection it drives ([triesOK]: attempts carry records in
    queue order and are written in the order they were made). *)

From S2P Require Import Prelude GoBytes SidecarFrame SidecarConn SidecarInv SidecarPair RecordSender.
Import SidecarFrame SidecarConn SidecarInv SidecarPair RecordSender.

Module RecordInv.

(** ** Counting *)

Definition cnt (n : recordName) (l : list recordName) : Z := Z.of_nat (length (filter (eq n) l)).

Lemma cnt_app n l k : cnt n (l ++ k) = cnt n l + cnt n k.
Proof. unfold cnt. rewrite filter_app, length_app. lia. Qed.
Lemma cnt_cons n x l : cnt n (x :: l) = cnt n [x] + cnt n l.
Proof. exact (cnt_app n [x] l). Qed.
Lemma cnt_nil n : cnt n [] = 0.
Proof. done. Qed.

Lemma count_bump m n k : count (bump n m) k = count m k + cnt k [n].
Proof.
  unfold bump, count, cnt. rewrite filter_cons, filter_nil. case_decide as E.
  - subst. rewrite lookup_insert_eq. cbn. lia.
  - rewrite lookup_insert_ne by done. cbn. lia.
Qed.

Lemma count_bumps q m k : count (fold_left (fun m r => bump (nameOf r) m) q m) k = count m k + cnt k (map nameOf q).
Proof.
  revert m. induction q as [|r q IH]; intros m; cbn [fold_left map]; [rewrite cnt_nil; lia|].
  rewrite IH, count_bump, (cnt_cons _ _ (map nameOf q)). lia.
Qed.

Lemma count_add a b k : count (addCounts a b) k = count a k + count b k.
Proof. unfold count, addCounts. rewrite lookup_union_with. destruct (a !! k), (b !! k); cbn; lia. Qed.

(** ** The sender alone *)

(** The record the goroutine is working on. *)
Definition working (r : runState) : option rec :=
  match r with Calling h _ _ | GivingUp h _ => Some h | _ => None end.

Record acctOK (s : sender) : Prop := {
  ok_queue : if stopped s then queue s = [] else queue s = drop (removed s) (queued s);
  ok_removed : (removed s <= length (queued s))%nat;
  ok_keys : NoDup (map Key (queued s));
  ok_empty : queue s <> [] -> empty_ s = Some false;
  ok_working : stopped s = false -> forall h, working (running s) = Some h -> exists q, queue s = h :: q;
  ok_twice : if stopped s then (length (twice s) <= 1)%nat
             else twice s = match running s with GivingUp h _ => [nameOf h] | _ => [] end;
  ok_counts : forall n, cnt n (offered s) + cnt n (twice s) =
    cnt n (map nameOf (acks s)) + count (undelivered s) n + cnt n (map nameOf (queue s)) + count (reported s) n
}.

Ltac fields := cbn [queue empty_ undelivered stopped running offered queued tries removed acks reported twice fst].

Ltac counts := intros n; cbn [offered twice acks undelivered queue reported]; rewrite ?map_app, ?cnt_app, ?count_bump, ?count_add, ?count_bumps;
  cbn [map]; rewrite ?cnt_nil.

Lemma acctOK_new p : acctOK (newRecordSender p).
Proof. split; cbn; try done. apply NoDup_nil_2. Qed.

Lemma acctOK_send p ns op raw key s s' e : acctOK s -> key ∉ map Key (queued s) -> Send p ns op raw key s = (s', e) -> acctOK s'.
Proof.
  intros H Hk. unfold Send. destruct (stopped s) eqn:Es; [by intros [= <- _]|]. destruct H as [H1 Hr H2 H3 H4 H5 H6]. rewrite Es in *.
  assert (acctOK (MkSender (queue s) (empty_ s) (bump (ns, op) (undelivered s)) false (running s)
    (offered s ++ [(ns, op)]) (queued s) (tries s) (removed s) (acks s) (reported s) (twice s))) as Hlost.
  { split; fields; try done. counts. specialize (H6 n). lia. }
  destruct raw as [args|]; [|by intros [= <- _]]. destruct (queueLimit p <=? length (queue s))%nat; [by intros [= <- _]|].
  intros [= <- _]. split; fields.
  - by rewrite H1, drop_app_le.
  - rewrite length_app. lia.
  - rewrite map_app. apply NoDup_app. split_and!; [done| |apply NoDup_singleton]. cbn. set_solver.
  - intros _. case_bool_decide; [done|]. by apply H3.
  - intros _ h Hh. destruct (H4 eq_refl h Hh) as [q ->]. by exists (q ++ [MkRec ns op key args]).
  - done.
  - counts. specialize (H6 n). change (nameOf (MkRec ns op key args)) with (ns, op). lia.
Qed.

Lemma acctOK_drain s : acctOK s -> acctOK (Drain s).1.
Proof.
  intros [H1 Hr H2 H3 H4 H5 H6]. unfold Drain. split; fields; try done.
  - destruct (stopped s); [done|]. rewrite H5. by destruct (running s); cbn; lia.
  - counts. specialize (H6 n). change (count ∅ n) with 0. lia.
Qed.

Lemma acctOK_run st s : acctOK s -> (stopped s = false -> working st = working (running s)) ->
  (stopped s = false -> match st, running s with GivingUp h _, GivingUp h' _ => h = h' | GivingUp _ _, _ | _, GivingUp _ _ => False | _, _ => True end) ->
  acctOK (setRunning st s).
Proof.
  intros [H1 Hr H2 H3 H4 H5 H6] Hw Hg. unfold setRunning. split; fields; try done.
  - intros Hs h Hh. rewrite Hw in Hh by done. by apply H4.
  - destruct (stopped s); [done|]. specialize (Hg eq_refl). rewrite H5. destruct st, (running s); naive_solver.
Qed.

Lemma isHead_head h q s : queue s = h :: q -> isHead (Key h) s = true.
Proof. intros E. unfold isHead. rewrite E. by apply bool_decide_eq_true. Qed.
Lemma isHead_empty k s : queue s = [] -> isHead k s = false.
Proof. intros E. unfold isHead. by rewrite E. Qed.

(** Taking the head off the queue. *)
Lemma drop_head {A} n (l : list A) x q : drop n l = x :: q -> q = drop (S n) l /\ (n < length l)%nat /\ l !! n = Some x.
Proof.
  intros H. assert (Hn : (n < length l)%nat) by (apply (f_equal length) in H; rewrite length_drop in H; cbn in H; lia).
  apply lookup_lt_is_Some in Hn as Hx. destruct Hx as [y Hy]. rewrite (drop_S _ _ _ Hy) in H. by simplify_eq.
Qed.

Lemma acctOK_ack h i d d' s : acctOK s -> running s = Calling h i d ->
  acctOK (setRunning (Between d') (acknowledged (Key h) (logAck h s))).
Proof.
  intros H Hrun. unfold acknowledged, logAck. destruct (stopped s) eqn:Es.
  - pose proof (ok_queue _ H) as Hq. rewrite Es in Hq. rewrite !(isHead_empty (Key h)) by done.
    destruct s. cbn in *. subst. by apply acctOK_run.
  - destruct (ok_working _ H Es h) as [q Hq]; [by rewrite Hrun|]. rewrite !(isHead_head h q) by done. cbn [queue]. rewrite Hq. cbn [tail].
    destruct H as [H1 Hr H2 H3 H4 H5 H6]. rewrite Es, Hrun in *. rewrite Hq in H1. symmetry in H1. apply drop_head in H1 as (H1 & Hlt & _).
    unfold setRunning. split; fields; rewrite ?Es; try done.
    + intros Hne. rewrite bool_decide_eq_false_2 by done. apply H3. by rewrite Hq.
    + counts. specialize (H6 n). rewrite Hq in H6. cbn [map] in H6. rewrite (cnt_cons _ _ (map nameOf q)) in H6. lia.
Qed.

Lemma acctOK_giveup h d s : acctOK s -> (stopped s = false -> exists q, queue s = h :: q) ->
  (forall h d, running s <> GivingUp h d) -> acctOK (setRunning (GivingUp h d) (givenUp h s)).
Proof.
  intros H Hh Hn. unfold givenUp. destruct (stopped s) eqn:Es.
  - pose proof (ok_queue _ H) as Hq. rewrite Es in Hq. rewrite (isHead_empty (Key h)) by done. by apply acctOK_run; rewrite ?Es.
  - destruct (Hh eq_refl) as [q Hq]. rewrite (isHead_head h q) by done. destruct H as [H1 Hr H2 H3 H4 H5 H6]. rewrite Es in *.
    assert (twice s = []) as Ht by (rewrite H5; destruct (running s); naive_solver).
    unfold setRunning. split; fields; rewrite ?Es; try done.
    + intros _ ? [= <-]. eauto.
    + by rewrite Ht.
    + counts. specialize (H6 n). rewrite (cnt_cons _ _ (twice s)). lia.
Qed.

Lemma acctOK_removed h d d' s : acctOK s -> running s = GivingUp h d ->
  acctOK (setRunning (Between d') (acknowledged (Key h) (logRemoved h s))).
Proof.
  intros H Hrun. unfold acknowledged, logRemoved. destruct (stopped s) eqn:Es.
  - pose proof (ok_queue _ H) as Hq. rewrite Es in Hq. rewrite !(isHead_empty (Key h)) by done.
    destruct s. cbn in *. subst. by apply acctOK_run.
  - destruct (ok_working _ H Es h) as [q Hq]; [by rewrite Hrun|]. rewrite !(isHead_head h q) by done. cbn [queue]. rewrite Hq. cbn [tail].
    destruct H as [H1 Hr H2 H3 H4 H5 H6]. rewrite Es, Hrun in *. rewrite Hq in H1. symmetry in H1. apply drop_head in H1 as (H1 & Hlt & _).
    unfold setRunning. split; fields; rewrite ?Es; try done.
    + intros Hne. rewrite bool_decide_eq_false_2 by done. apply H3. by rewrite Hq.
    + by rewrite H5.
    + counts. specialize (H6 n). rewrite Hq, H5 in H6. cbn [map] in H6. rewrite (cnt_cons _ _ (map nameOf q)) in H6. rewrite H5. cbn [tail].
      rewrite cnt_nil. lia.
Qed.

Section System.

Context {CODEC : FrameCodec}.
Variables cfgL cfgR : config.
Variable policy : recordSendPolicy.
Variable marshalRecord : rec -> bytes.

Notation rstep := (rstep cfgL cfgR policy marshalRecord).

Lemma acctOK_step x y : rstep x y -> acctOK (snd_ x) -> acctOK (snd_ y).
Proof.
  destruct 1 as [p q s _ _|p s ns op raw key s' e Hk Hs|p s s' res Hd|p s d Hr _|l r wr wl l' s head q d Hr Hs Hq Hb f
    |p s head q d e Hr Hs Hq Hb|p s head i d c e Hr Hi Hc|p s head d Hr|p s d Hr|p s d Hr _]; cbn; intros H; try done.
  - by eapply acctOK_send.
  - assert (s' = (Drain s).1) as -> by by rewrite Hd. by apply acctOK_drain.
  - by apply acctOK_run; rewrite ?Hr.
  - assert (acctOK (logTry f s)) as H' by by destruct H.
    destruct H' as [H1 Hx H2 H3 H4 H5 H6]. unfold setRunning. cbn in *. rewrite Hr, Hs in *. split; fields; rewrite ?Hs; try done.
    intros _ ? [= <-]. eauto.
  - unfold onResult. destruct (tooLarge e); [|by apply acctOK_run; rewrite ?Hr].
    apply acctOK_giveup; [done|eauto|by rewrite Hr].
  - unfold onResult. destruct (callResult c e) as [b|e']; [by eapply acctOK_ack|]. destruct (tooLarge e').
    + apply acctOK_giveup; [done| |by rewrite Hr]. intros Hs. apply (ok_working _ H Hs). by rewrite Hr.
    + destruct H as [H1 Hx H2 H3 H4 H5 H6]. rewrite Hr in *. unfold setRunning. by split; fields.
  - by eapply acctOK_removed.
  - by apply acctOK_run; rewrite ?Hr.
  - by apply acctOK_run; rewrite ?Hr.
Qed.

(** ** The sender on its connection *)

Definition recordFrame (id : Z) (r : rec) : Frame := MkFrame KindRelayRecord id false [] (marshalRecord r).

Notation written_records l := (filter isRecordRequest (wrote (hist l))).

Record triesOK (l : conn) (s : sender) : Prop := {
  ok_tries : Forall (fun x => exists id r, queued s !! x.2 = Some r /\ x.1 = recordFrame id r /\ (x.2 <= removed s)%nat) (tries s);
  ok_sorted : StronglySorted le (map snd (tries s));
  ok_callers : forall i c, calls l !! i = Some c -> c_kind c = KindRelayRecord ->
    (exists e, c_state c = Returned e) \/ exists h d, running s = Calling h i d;
  ok_current : forall h i d, running s = Calling h i d -> exists c T n, calls l !! i = Some c /\ tries s = T ++ [(callFrame c, n)] /\
    queued s !! n = Some h /\ callFrame c = recordFrame (c_id c) h /\
    (c_state c = Sending -> written_records l `sublist_of` map fst T);
  ok_written : written_records l `sublist_of` map fst (tries s)
}.

Lemma net_wrote cfg l ev l' p q : cstep cfg l ev l' -> left p = l -> left q = l' -> quiet p q ->
  written_records l' = written_records l \/
  exists j c c', written_records l' = written_records l ++ [callFrame c] /\ calls l !! j = Some c /\ c_state c = Sending /\
    c_kind c = KindRelayRecord /\ calls l' !! j = Some c' /\ c_state c' <> Sending.
Proof.
  intros Hst <- <- [_ Hq]. pose proof (cstep_logs _ _ _ _ Hst) as Hl. destruct ev as [|line|r]; cbn [logsOf] in Hl.
  - left. by destruct Hl as (_ & -> & _).
  - destruct Hl as (_ & _ & f & Hw & _). destruct (decide (isRecordRequest f)) as [Hf|Hf].
    + right. destruct Hf as [Hf1 Hf2]. destruct (cstep_writes _ _ _ _ f Hst Hw) as [?|[?|(j & c & c' & H1 & H2 & -> & H3 & H4)]]; [congruence|by destruct (Hq f)|].
      exists j, c, c'. rewrite Hw, filter_app, filter_cons_True, filter_nil by done. done.
    + left. by rewrite Hw, filter_app, filter_cons_False, filter_nil, app_nil_r.
  - left. destruct Hl as [_ ->]. by destruct (readLoop_took r (left p)) as (_ & -> & _).
Qed.

Lemma triesOK_net cfg l ev l' p q s : cstep cfg l ev l' -> left p = l -> left q = l' -> quiet p q -> triesOK l s -> triesOK l' s.
Proof.
  intros Hst Hp Hq Hquiet [H1 H2 H3 H4 H5]. pose proof (calls_grow _ _ _ _ Hst) as Hlen.
  destruct (cstep_evolves _ _ _ _ Hst) as [Hev _]. pose proof (net_wrote _ _ _ _ _ _ Hst Hp Hq Hquiet) as Hw.
  assert (Hcur : forall j c, calls l !! j = Some c -> c_state c = Sending -> c_kind c = KindRelayRecord -> exists h d, running s = Calling h j d).
  { intros j c Hj Hs Hk. destruct (H3 _ _ Hj Hk) as [[e He]|?]; [congruence|done]. }
  split; try done.
  - intros i c Hi Hk. destruct (calls l !! i) as [c0|] eqn:Hi0.
    + destruct (Hev _ _ Hi0) as (c' & Hi' & Hf & _ & Hr). rewrite Hi in Hi'. injection Hi' as <-.
      assert (c_kind c0 = KindRelayRecord) as Hk0 by (change (Kind (callFrame c0) = KindRelayRecord); by rewrite <-Hf).
      destruct (H3 _ _ Hi0 Hk0) as [[e He]|?]; [left; eauto|by right].
    + destruct Hquiet as [Hnew _]. apply lookup_ge_None in Hi0. apply lookup_lt_Some in Hi as Hlt.
      destruct (Hnew c); [|done]. rewrite Hp, Hq. by replace (length (calls l)) with i by lia.
  - intros h i d Hrun. destruct (H4 _ _ _ Hrun) as (c & T & n & Hi & Ht & Hn & Hf & Hs).
    destruct (Hev _ _ Hi) as (c' & Hi' & Hf' & Hns & _). exists c', T, n. rewrite Hf'. split_and!; try done.
    + rewrite Hf. f_equal. change (ID (callFrame c) = ID (callFrame c')). by rewrite Hf'.
    + intros Hs'. assert (c_state c = Sending) as Hc by (destruct (c_state c); [done|by destruct Hns..]).
      destruct Hw as [->|(j & d0 & d1 & _ & Hj & Hjs & Hjk & Hj' & Hjn)]; [by apply Hs|].
      destruct (Hcur _ _ Hj Hjs Hjk) as (h' & d' & Hr'). rewrite Hrun in Hr'. simplify_eq.
  - destruct Hw as [->|(j & c & c' & -> & Hj & Hs & Hk & _)]; [done|]. destruct (Hcur _ _ Hj Hs Hk) as (h & d & Hrun).
    destruct (H4 _ _ _ Hrun) as (c0 & T & n & Hi & Ht & _ & _ & Hsub). rewrite Hj in Hi. injection Hi as <-.
    rewrite Ht, map_app. cbn. apply sublist_app; [by apply Hsub|done].
Qed.

(** Only the running state, the removed count and what is queued matter. *)
Lemma triesOK_sender l s s' : triesOK l s -> tries s' = tries s -> (removed s <= removed s')%nat ->
  queued s `prefix_of` queued s' -> (forall h i d, running s' = Calling h i d -> running s = Calling h i d) ->
  (forall h i d c, running s = Calling h i d -> (forall h i d, running s' <> Calling h i d) -> calls l !! i = Some c -> exists e, c_state c = Returned e) ->
  triesOK l s'.
Proof.
  intros [H1 H2 H3 H4 H5] E1 E2 E3 E4 E5. split; rewrite ?E1; try done.
  - eapply Forall_impl; [exact H1|]. intros x (id & r & Hn & Hx & Hle). exists id, r. split_and!; [by eapply prefix_lookup_Some|done|lia].
  - intros i c Hi Hk. destruct (H3 _ _ Hi Hk) as [?|(h & d & Hr)]; [by left|].
    destruct (running s') as [d'|h' i' d'|h' d'|d'|] eqn:Er; try (left; by eapply E5).
    right. pose proof (E4 _ _ _ eq_refl) as Hx. rewrite Hr in Hx. simplify_eq. eauto.
  - intros h i d Hr. apply E4 in Hr. destruct (H4 _ _ _ Hr) as (c & T & n & ? & ? & ? & ? & ?). exists c, T, n. split_and!; try done.
    by eapply prefix_lookup_Some.
Qed.

Lemma triesOK_call l l' s head q d : triesOK l s -> acctOK s -> running s = Between d -> stopped s = false -> queue s = head :: q ->
  callBegin KindRelayRecord (VJson (Some (marshalRecord head))) None l = Ok l' ->
  triesOK l' (setRunning (Calling head (length (calls l)) d)
    (logTry (MkFrame KindRelayRecord (nextID l') false [] (marshalRecord head)) s)).
Proof.
  intros [H1 H2 H3 H4 H5] Ha Hr Hs Hq Hb. pose proof (ok_queue _ Ha) as Hqq. rewrite Hs, Hq in Hqq. symmetry in Hqq.
  apply drop_head in Hqq as (_ & _ & Hhead). unfold callBegin in Hb. cbn [marshalBody] in Hb. destruct (closed l); [done|]. simplify_eq/=.
  set (id := (nextID l + 1) mod 2 ^ 64). set (c := MkCall _ _ _ _ _ _).
  assert (Hnew : (calls l ++ [c]) !! length (calls l) = Some c) by (rewrite lookup_app_r, Nat.sub_diag by lia; done).
  split; cbn [tries queued removed running setRunning logTry calls hist].
  - apply Forall_app. split; [done|]. constructor; [|done]. exists id, head. done.
  - rewrite map_app. apply StronglySorted_app. split_and!; [intros x y Hx Hy|done|by repeat constructor].
    cbn in Hy. apply list_elem_of_singleton in Hy as ->. apply list_elem_of_fmap in Hx as (z & -> & Hz).
    rewrite Forall_forall in H1. by destruct (H1 _ Hz) as (_ & _ & _ & _ & ?).
  - intros i c0 [Hi|[Hlt Hi]]%lookup_app_Some Hk.
    + destruct (H3 _ _ Hi Hk) as [?|(h & d' & Hx)]; [by left|congruence].
    + apply list_lookup_singleton_Some in Hi as [? <-]. right. exists head, d. f_equal. lia.
  - intros h i d' [= <- <- <-]. exists c, (tries s), (removed s). by split_and!.
  - rewrite map_app. by apply sublist_inserts_r.
Qed.

Lemma hstep_cstep cfg s inw outw s' inw' outw' : hstep cfg s inw outw s' inw' outw' -> exists ev, cstep cfg s ev s'.
Proof. destruct 1; eauto. Qed.

Lemma triesOK_step x y : rstep x y -> acctOK (snd_ x) -> triesOK (left (net x)) (snd_ x) -> triesOK (left (net y)) (snd_ y).
Proof.
  destruct 1 as [p q s Hp Hq|p s ns op raw key s' e Hk Hs|p s s' res Hd|p s d Hr _|l r wr wl l' s head q d Hr Hs Hq Hb f
    |p s head q d e Hr Hs Hq Hb|p s head i d c e Hr Hi Hc|p s head d Hr|p s d Hr|p s d Hr _]; cbn [net snd_]; intros Ha H.
  - destruct Hp as [l r wr wl l' wl' wr' Hl|l r wr wl r' wr' wl' _]; [|done].
    destruct (hstep_cstep _ _ _ _ _ _ _ Hl) as [ev Hst]. exact (triesOK_net _ _ _ _ (MkPair l r wr wl) (MkPair l' r wr' wl') _ Hst eq_refl eq_refl Hq H).
  - assert (tries s' = tries s /\ removed s' = removed s /\ running s' = running s /\ queued s `prefix_of` queued s') as (E1 & E2 & E3 & E4).
    { unfold Send in Hs. repeat case_match; simplify_eq; cbn; split_and!; first [done|reflexivity|by eexists]. }
    apply (triesOK_sender _ s); rewrite ?E3; try done; [by rewrite E2|]. intros h i d c Hc Hn. by destruct (Hn h i d).
  - unfold Drain in Hd. simplify_eq. apply (triesOK_sender _ s); try done. intros h i d c Hc Hn. by destruct (Hn h i d).
  - apply (triesOK_sender _ s); try done; cbn; by rewrite Hr.
  - by eapply triesOK_call.
  - unfold onResult, givenUp. destruct (tooLarge e); [destruct (isHead _ _)|]; apply (triesOK_sender _ s); try done; cbn; by rewrite Hr.
  - assert (forall s', tries s' = tries s -> (removed s <= removed s')%nat -> queued s' = queued s ->
      (forall h i d, running s' <> Calling h i d) -> triesOK (left p) s') as Hx.
    { intros s' E1 E2 E3 E4. apply (triesOK_sender _ s); try done; [by rewrite E3|by intros h j d' ?%E4|].
      intros h j d' c0 Hj _ Hj0. rewrite Hr in Hj. simplify_eq. eauto. }
    unfold onResult, givenUp, acknowledged, logAck. destruct (callResult c e) as [b|e'].
    + destruct (isHead _ _); apply Hx; cbn; try done; lia.
    + destruct (tooLarge e'); [destruct (isHead _ _)|]; by apply Hx.
  - unfold acknowledged, logRemoved. destruct (isHead _ _); (apply (triesOK_sender _ s); cbn; rewrite ?Hr; try done); lia.
  - apply (triesOK_sender _ s); try done; cbn; by rewrite Hr.
  - apply (triesOK_sender _ s); try done; cbn; by rewrite Hr.
Qed.

(** ** Acknowledged records were answered *)

(** A record the orchestrator answered without an error, or with one that has
    no text. *)
Definition answeredFor (h : history) (r : rec) : Prop :=
  exists id a, (carried (recordFrame id r), a) ∈ answered h /\ match a with Ok _ => True | Err e => errorText e = [] end.

Lemma rstep_pstep x y : rstep x y -> net x = net y \/ pstep cfgL cfgR (net x) (net y).
Proof.
  destruct 1 as [p q s Hp Hq| | | |l r wr wl l' s head q d Hr Hs Hq Hb f| | | | |]; cbn; auto.
  right. apply p_left, h_tau. by eapply st_call.
Qed.

Lemma pstep_answers p q : pstep cfgL cfgR p q -> answered (hist (right p)) ⊆ answered (hist (right q)).
Proof.
  intros [l r wr wl l' wl' wr' H|l r wr wl r' wr' wl' H]; [done|]. cbn.
  destruct (hstep_cstep _ _ _ _ _ _ _ H) as [ev Hst]. apply (cstep_evolves _ _ _ _ Hst).
Qed.

(** A reply without an error answers a call without an error. *)
Lemma reply_ok cfg q f r : f = carried (responseFrame q r) \/
    (exists e, refusedFrame cfg (responseFrame q r) e /\ f = carried (refusalFrame q e)) ->
  ErrText f = [] -> match r with Ok _ => True | Err e => errorText e = [] end.
Proof.
  intros [->|(e & He & ->)] Hf; apply (proj1 (carried_err _)) in Hf; [by destruct r as [v|e]|by destruct (refused_text _ _ _ He)].
Qed.

Lemma acks_step x y : rstep x y -> acctOK (snd_ x) -> triesOK (left (net x)) (snd_ x) ->
  inv cfgL (left (net x)) /\ inv cfgR (right (net x)) /\ chanOK cfgL (left (net x)) (right (net x)) (toRight (net x)) /\
    chanOK cfgR (right (net x)) (left (net x)) (toLeft (net x)) ->
  Forall (answeredFor (hist (right (net x)))) (acks (snd_ x)) -> Forall (answeredFor (hist (right (net y)))) (acks (snd_ y)).
Proof.
  intros Hst Ha Ht (I1 & I2 & C1 & C2) H.
  assert (Forall (answeredFor (hist (right (net y)))) (acks (snd_ x))) as H'.
  { destruct (rstep_pstep _ _ Hst) as [<-|Hp%pstep_answers]; [done|]. eapply Forall_impl; [exact H|].
    intros r (id & a & Hin & Hok). exists id, a. split; [by apply Hp|done]. }
  destruct Hst as [p q s Hp Hq|p s ns op raw key s' e Hk Hs|p s s' res Hd|p s d Hr _|l r wr wl l' s head q d Hr Hs Hq Hb f
    |p s head q d e Hr Hs Hq Hb|p s head i d c e Hr Hi Hc|p s head d Hr|p s d Hr|p s d Hr _]; cbn [net snd_] in *; try done.
  - unfold Send in Hs. by repeat case_match; simplify_eq.
  - unfold Drain in Hd. by simplify_eq.
  - unfold onResult, givenUp. by destruct (tooLarge e); [destruct (isHead _ _)|].
  - unfold onResult, givenUp. destruct (callResult c e) as [b|e'] eqn:Er; [|by destruct (tooLarge e'); [destruct (isHead _ _)|]].
    assert (acks (acknowledged (Key head) (logAck head s)) = acks s \/ acks (acknowledged (Key head) (logAck head s)) = acks s ++ [head]) as Hack.
    { unfold acknowledged, logAck. cbn. destruct (isHead (Key head) s); [right|left]; by destruct (isHead _ _). }
    cbn. destruct Hack as [->| ->]; [done|]. apply Forall_app. split; [done|]. constructor; [|done].
    destruct (ok_current _ _ Ht _ _ _ Hr) as (c0 & T & n & Hi0 & _ & _ & Hf & _). rewrite Hi in Hi0. injection Hi0 as <-.
    destruct e as [f|e']; [|done]. cbn in Er. case_bool_decide as Hnil; [|done].
    destruct (reply_matches _ _ _ _ _ _ i c f C1 C2 I1 I2 Hi) as (a & Hin & Hrep); [by do 2 right|].
    rewrite Hf in Hin, Hrep. exists (c_id c), a. split; [done|]. by eapply reply_ok.
  - unfold acknowledged. by destruct (isHead _ _).
Qed.

Lemma rreach_inv x : rreach cfgL cfgR policy marshalRecord x -> few (left (net x)) -> few (right (net x)) ->
  preach cfgL cfgR (net x) /\ acctOK (snd_ x) /\ triesOK (left (net x)) (snd_ x) /\
  Forall (answeredFor (hist (right (net x)))) (acks (snd_ x)).
Proof.
  revert x. apply (rtc_ind_r (fun x => few (left (net x)) -> few (right (net x)) -> preach cfgL cfgR (net x) /\ acctOK (snd_ x) /\
    triesOK (left (net x)) (snd_ x) /\ Forall (answeredFor (hist (right (net x)))) (acks (snd_ x)))).
  - intros _ _. split_and!; [apply rtc_refl|apply acctOK_new| |done]. split; cbn; try done. constructor.
  - intros x y _ Hst IH F1 F2. assert (few (left (net x)) /\ few (right (net x))) as [G1 G2].
    { destruct (rstep_pstep _ _ Hst) as [->|Hp%pstep_grow]; [done|]. unfold few in *. lia. }
    destruct (IH G1 G2) as (P & A & T & K). split_and!.
    + destruct (rstep_pstep _ _ Hst) as [<-|Hp]; [done|]. by eapply rtc_r.
    + by eapply acctOK_step.
    + by eapply triesOK_step.
    + eapply acks_step; try done. by apply preach_inv.
Qed.

(** Attempts, and so the records handed to the handler, are in queue order. *)
Lemma applied_order x : rreach cfgL cfgR policy marshalRecord x -> few (left (net x)) -> few (right (net x)) ->
  exists ns, StronglySorted le ns /\
    Forall2 (fun f n => exists id r, queued (snd_ x) !! n = Some r /\ f = carried (recordFrame id r)) (applied (hist (right (net x)))) ns.
Proof.
  intros H F1 F2. destruct (rreach_inv _ H F1 F2) as (P & _ & [T1 T2 _ _ T5] & _).
  destruct (preach_inv _ _ _ P F1 F2) as (_ & (_ & [L1 _ _ _ L2 _ _ _] & _) & (dn & pd & Hw & Ht & _) & _).
  assert (applied (hist (right (net x))) `sublist_of` map carried (map fst (tries (snd_ x)))) as Hsub.
  { etrans; [|exact (fmap_sublist carried _ _ T5)]. etrans; [by apply sublist_inserts_r with (k := laneServing (laneServer (right (net x))) ++ lane (right (net x)))|].
    rewrite L1. etrans; [exact L2|]. rewrite Ht, Hw, filter_app, fmap_app.
    assert (forall l, filter isRecordRequest (map carried l) = map carried (filter isRecordRequest l)) as ->.
    { intros l. induction l as [|f l IH]; [done|]. cbn [map]. rewrite !filter_cons, IH.
      assert (isRecordRequest (carried f) <-> isRecordRequest f) as Hiff by (unfold isRecordRequest; by rewrite carried_response, carried_record).
      destruct (decide (isRecordRequest (carried f))), (decide (isRecordRequest f)); tauto. }
    by apply sublist_inserts_r. }
  rewrite map_map in Hsub. apply sublist_of_map in Hsub as (T & HT & ->). exists (map snd T). split.
  - eapply StronglySorted_sublist; [exact (fmap_sublist snd _ _ HT)|done].
  - apply Forall2_fmap_2, Forall_Forall2_diag, Forall_forall. intros [f n] Hx. rewrite Forall_forall in T1.
    destruct (T1 (f, n)) as (id & r & Hn & Hf & _); [by eapply sublist_subseteq|]. cbn in *. subst f. eauto.
Qed.

End System.

End RecordInv.
