(* ===== verification/SidecarSpec.v ===== *)
(** * What the supervision channel guarantees

    The properties of the sidecar protocol: framing, calls and their answers,
    shutdown, and the delivery of audit records from end to end. *)

From S2P Require Import Prelude GoBytes SidecarFrame SidecarConn SidecarInv SidecarPair RecordSender RecordInv.
Import SidecarFrame SidecarConn SidecarInv SidecarPair RecordSender RecordInv.

Module SidecarSpec.

(** A frame of [n] bytes is within a limit, which is none when it is not
    positive; a frame of exactly the limit is within it. *)
Definition fits (max : Z) (n : nat) : Prop := max <= 0 \/ Z.of_nat n <= max.

Lemma overLimit_fits max n : overLimit max n = false <-> fits max n.
Proof. unfold overLimit, fits. rewrite andb_false_iff, !Z.ltb_ge. lia. Qed.

Lemma overLimit_above max n : ~ fits max n -> overLimit max n = true.
Proof. rewrite <-overLimit_fits. by destruct (overLimit max n). Qed.

(** C40: Reading a frame is a function of the stream, however its bytes arrive.
    A frame, the bytes up to the first newline, is returned whole when it is no
    longer than the limit, and what follows the newline is left unread; a longer
    one is refused.  A stream that ends before a newline is refused once what it
    holds is over the limit; otherwise it gives EOF between frames, an unexpected
    EOF inside one, and a broken stream's own error.  No more than the limit and
    one read buffer is ever taken. *)
Theorem frames_are_read_exactly max s : exists r s', readFrame max s = Some (r, s') /\
  (forall l rest, unread s = l ++ LF :: rest -> LF ∉ l ->
     (fits max (length l) -> r = Ok l /\ s' = Stream rest (finally s)) /\
     (~ fits max (length l) -> r = Err ErrFrameTooLarge)) /\
  (LF ∉ unread s ->
     (~ fits max (length (unread s)) -> r = Err ErrFrameTooLarge) /\
     (fits max (length (unread s)) ->
        (finally s = Broken -> r = Err (ErrRead Broken)) /\
        (finally s = EOF -> unread s = [] -> r = Err (ErrRead EOF)) /\
        (finally s = EOF -> unread s <> [] -> r = Err ErrUnexpectedEOF))) /\
  exists used, unread s = used ++ unread s' /\ (0 < max -> Z.of_nat (length used) <= max + Z.of_nat defaultBufSize).
Proof.
  destruct (readFrame_spec max s) as (r & s' & H1 & Hr & Hfin & Hok & Hused). exists r, s'. split; [done|]. subst r.
  split; [|split; [|done]].
  - intros l rest Hs Hl. destruct s as [u e]. cbn [unread finally] in *. subst u. rewrite frameOf_line in * by done.
    split; intros Hf; [|by rewrite overLimit_above]. apply overLimit_fits in Hf. rewrite Hf in *. split; [done|].
    destruct s' as [u' e']. cbn in *. specialize (Hok l eq_refl). apply app_inv_head in Hok. injection Hok as <-. by rewrite Hfin.
  - intros Hl. destruct s as [u e]. cbn [unread finally] in *. split; intros Hf.
    + rewrite <-(app_nil_r u). apply frameOf_over; [done|by apply overLimit_above].
    + apply overLimit_fits in Hf. rewrite frameOf_end by done. split_and!; intros ->; [by destruct u|by intros ->|by intros Hu; destruct u].
Qed.

Section Spec.

Context {CODEC : FrameCodec}.

(** Once a connection has shut down no call is left waiting: every call still in
    its select can receive its reply or the closed channel, or the reader is
    about to hand it one and can.  Whatever the peer sent, the reader never sends
    on a closed channel and never waits for a receiver, and the pending table
    holds only calls that have not returned. *)
Theorem no_call_is_stuck cfg s : creach cfg s -> few s ->
  (is_Some (closed s) -> pending s = ∅ /\ forall i c, calls s !! i = Some c -> c_state c = Waiting ->
     is_Some (callReceive c s) \/ exists f, reader s = Delivering i f) /\
  (forall i f, reader s = Delivering i f -> exists c, calls s !! i = Some c /\ is_Some (chanSend f (c_chan c))) /\
  (forall id i, pending s !! id = Some i -> exists c, calls s !! i = Some c /\ c_id c = id /\ forall e, c_state c <> Returned e).
Proof.
  intros Hs Hf. destruct (creach_inv _ _ Hs Hf) as ([_ _ Hp Hc Hl Hd _] & _). split_and!.
  - intros Hcl. split; [by apply Hc|]. intros i c Hi Hw. destruct (Hl i c Hi) as [Hx|[Hx|[Hx|Hx]]]; [by right| | | |by right].
    + by rewrite (Hc Hcl) in Hx.
    + left. unfold callReceive. destruct Hx as [f ->]. by eexists.
    + left. unfold callReceive. rewrite Hx. by destruct (buffered (c_chan c)); eexists.
  - intros i f Hr. destruct (Hd _ _ Hr) as (c & Hi & Hch & _). exists c. rewrite Hch. split; [done|by eexists].
  - intros id i Hi. destruct (Hp _ _ Hi) as (c & ? & ? & _ & ? & _). eauto.
Qed.

Variables cfgL cfgR : config.








Lemma closed_too_large cfg s ev s' : cstep cfg s ev s' -> closed s' = Some CauseTooLarge ->
  closed s = Some CauseTooLarge \/ ev = Took (Err ErrFrameTooLarge).
Proof.
  assert (Hsh : forall why s, why <> CauseTooLarge -> closed (shutdown why s) = Some CauseTooLarge -> closed s = Some CauseTooLarge).
  { intros why s0 Hw. unfold shutdown. destruct (closed s0) as [c|] eqn:E; [by rewrite E|]. cbn. congruence. }
  assert (Hw : forall seen failed f s e s1 out, writeFrame cfg seen failed f s = (e, s1, out) ->
    closed s1 = Some CauseTooLarge -> closed s = Some CauseTooLarge).
  { intros seen failed f s0 e s1 out [(-> & -> & _)|(-> & [->| ->] & _)]%writeFrame_cases; [done..|]. by apply Hsh. }
  destruct 1 as [kind body decodes s s' Hb|i c seen failed s s' line Hi Hs _ E| | | |kind body seen failed s s' line _ E|s|r s Hr| |
    |k j seen failed s j' s' line Hk Hn _ E| | |j seen failed s j' s' line Hk Hn _ E|]; try (by left); intros Hc.
  - unfold callBegin in Hb. by repeat case_match; simplify_eq/=.
  - left. unfold callWrite in E. destruct (writeFrame _ _ _ _ s) as [[e1 s1] out] eqn:Ew. eapply Hw; [exact Ew|].
    by destruct e1; simplify_eq.
  - left. unfold Notify in E. destruct (marshalBody body); [|by simplify_eq]. destruct (writeFrame _ _ _ _ s) as [[e1 s1] out] eqn:Ew.
    eapply Hw; [exact Ew|]. by simplify_eq.
  - left. by apply (Hsh CauseClosed).
  - unfold readLoop in Hc. destruct r as [line|e].
    + left. destruct (Unmarshal line) as [f|]; [|by eapply (Hsh CauseRead)].
      unfold deliverResponse, dispatchRequest in Hc. by repeat case_match.
    + destruct e as [| |[]]; [by right|left..]; revert Hc; by apply Hsh.
  - left. unfold respond in E. repeat case_match; simplify_eq; try done; by eapply Hw.
  - left. unfold respond in E. repeat case_match; simplify_eq; try done; by eapply Hw.
Qed.

(** With a write limit no larger than the peer's read limit, the peer never
    closes over a frame that is too large. *)
Theorem matched_limits p : 0 < maxWrite cfgL -> maxRead cfgR <= 0 \/ maxWrite cfgL <= maxRead cfgR ->
  preach cfgL cfgR p -> closed (right p) <> Some CauseTooLarge.
Proof.
  intros Hw Hr. revert p. assert (Hok : forall n, overLimit (maxWrite cfgL) n = false -> overLimit (maxRead cfgR) n = false).
  { intros n. unfold overLimit. rewrite !andb_false_iff, !Z.ltb_ge. lia. }
  enough (forall p, preach cfgL cfgR p -> chanOK cfgL (left p) (right p) (toRight p) /\ chanOK cfgR (right p) (left p) (toLeft p) /\
    closed (right p) <> Some CauseTooLarge) as H by (intros p Hp; by apply H).
  apply (rtc_ind_r (fun p => chanOK cfgL (left p) (right p) (toRight p) /\ chanOK cfgR (right p) (left p) (toLeft p) /\ closed (right p) <> Some CauseTooLarge)).
  - assert (forall cfg, chanOK cfg New New []) by (intros cfg; exists [], []; by repeat constructor). by split_and!.
  - intros p q _ [l r wr wl l' wl' wr' H|l r wr wl r' wr' wl' H] (C1 & C2 & Hc); cbn in *.
    + destruct (chanOK_step _ _ _ _ _ _ _ H _ _ C2 C1). by split_and!.
    + destruct (chanOK_step _ _ _ _ _ _ _ H _ _ C1 C2). split_and!; [done..|]. intros E.
      destruct H as [s s' inw outw H|s s' inw outw x H|s s' x inw outw y rest Hx H|s s' inw outw e He H];
        destruct (closed_too_large _ _ _ _ H E) as [|Hev]; try done; [|congruence]. injection Hev as ->.
      destruct C1 as (dn & pd & _ & _ & Hp). apply cstep_logs in H as [Hrd _].
      specialize (Hp ltac:(by rewrite Hrd)). apply Forall2_cons_inv_r in Hp as (f & pd' & (Hf & Ho) & _).
      apply readLine in Hx; [|by eapply Marshal_line]. by rewrite (Hok _ Ho) in Hx.
Qed.

Variable policy : recordSendPolicy.
Variable marshalRecord : rec -> bytes.

(** C28: While each end has made fewer than 2^64 calls, records carry fresh
    keys and only the sender sends record frames on its end, audit records are
    handled by the orchestrator in the order they were queued: a resend may
    repeat a record, but no record is handled after one queued behind it,
    whatever the timeouts, resends, full lanes and failures, and wherever the
    connection serves it. *)
Theorem records_applied_in_order x : rreach cfgL cfgR policy marshalRecord x -> few (left (net x)) -> few (right (net x)) ->
  exists ns, StronglySorted le ns /\
    Forall2 (fun f n => exists id r, queued (snd_ x) !! n = Some r /\ f = carried (recordFrame marshalRecord id r))
      (applied (hist (right (net x)))) ns.
Proof. apply applied_order. Qed.

(** A record leaves the queue as acknowledged only when the orchestrator's
    handler answered it without an error. *)
Theorem acknowledged_records_were_applied x r : rreach cfgL cfgR policy marshalRecord x -> few (left (net x)) -> few (right (net x)) ->
  (forall q e, (q, Err e) ∈ answered (hist (right (net x))) -> errorText e <> []) -> r ∈ acks (snd_ x) ->
  exists id v, (carried (recordFrame marshalRecord id r), Ok v) ∈ answered (hist (right (net x))).
Proof.
  intros H F1 F2 Ht Hr. destruct (rreach_inv _ _ _ _ _ H F1 F2) as (_ & _ & _ & Ha). rewrite Forall_forall in Ha.
  destruct (Ha _ Hr) as (id & [v|e] & Hin & He); [eauto|]. by destruct (Ht _ _ Hin).
Qed.

(** No record disappears: for every op, the records offered before the drain are
    those acknowledged, counted, queued and reported, exactly, except that one
    record may be counted twice, and only once the sender was drained or while it
    gives that record up. *)
Theorem every_record_is_accounted_for x n : rreach cfgL cfgR policy marshalRecord x -> few (left (net x)) -> few (right (net x)) ->
  let s := snd_ x in
  let found := cnt n (map nameOf (acks s)) + count (undelivered s) n + cnt n (map nameOf (queue s)) + count (reported s) n in
  cnt n (offered s) <= found <= cnt n (offered s) + 1 /\
  (stopped s = false -> (forall h d, running s <> GivingUp h d) -> found = cnt n (offered s)).
Proof.
  intros H F1 F2 s found. destruct (rreach_inv _ _ _ _ _ H F1 F2) as (_ & [_ _ _ _ _ Ht Hc] & _). specialize (Hc n). fold s in Ht, Hc.
  assert (Hone : (length (twice s) <= 1)%nat) by (destruct (stopped s); [done|]; rewrite Ht; destruct (running s); cbn; lia).
  assert (0 <= cnt n (twice s) <= 1) by (unfold cnt; pose proof (length_filter (eq n) (twice s)); lia).
  split; [unfold found; lia|]. intros Hs Hr. rewrite Hs in Ht. assert (twice s = []) as E by (rewrite Ht; destruct (running s); naive_solver).
  rewrite E, cnt_nil in Hc. unfold found. lia.
Qed.

End Spec.

End SidecarSpec.

(** * A concrete supervision channel

    A codec that satisfies the class, a player that turns a list of actions into
    a run of the sender and its two connections, and the runs that instantiate
    the theorems of [SidecarSpec]. *)

Import SidecarSpec.

Module SidecarExample.

(** ** A codec: frames as numbers in binary *)

Definition tupleOf (f : Frame) : bytes * Z * bool * bytes * bytes := (Kind f, ID f, IsResponse f, ErrText f, Body f).
Definition ofTuple (x : bytes * Z * bool * bytes * bytes) : Frame :=
  let '(k, i, r, e, b) := x in MkFrame k i r e b.

#[export] Instance Frame_countable : Countable Frame.
Proof. apply (inj_countable' tupleOf ofTuple). by intros []. Defined.

Fixpoint bits (p : positive) : bytes :=
  match p with xH => [] | xO p => "0"%char :: bits p | xI p => "1"%char :: bits p end.
Fixpoint unbits (l : bytes) : positive :=
  match l with [] => xH | c :: l => if bool_decide (c = "0"%char) then xO (unbits l) else xI (unbits l) end.

Lemma unbits_bits p : unbits (bits p) = p.
Proof. induction p as [p IH|p IH|]; cbn; by rewrite ?IH. Qed.

Lemma bits_line p : LF ∉ bits p.
Proof. induction p; cbn [bits]; [..|apply not_elem_of_nil]; rewrite not_elem_of_cons; split; done. Qed.

#[export] Instance demoCodec : FrameCodec.
Proof.
  refine {| Marshal := fun f => Some (bits (encode f)); Unmarshal := fun l => decode (unbits l);
            text := fun b => b; compact := fun b => b |}; try done.
  - intros f l [= <-]. apply bits_line.
  - intros [] l [= <-]. by rewrite unbits_bits, decode_encode.
Defined.

(** ** Playing a run *)

Definition policy : recordSendPolicy := Policy 2 250 5000.
Definition payload (r : rec) : bytes := Key r.

Inductive act :=
| ASend (ns op key : bytes) | ADrain | ACall | AResult | ARemoved
| AWrite (i : nat) | AReadRight | ATake | AServe (h : handled) | AAnswer
| AReadLeft | ADeliver | AReceive (i : nat) | AReturn (i : nat).

Section Player.

Variable cfg : config.

Definition net_step (x : rsys) (l : option (conn * option bytes)) : option rsys :=
  let p := net x in
  match l with
  | Some (l', out) => Some (MkSys (MkPair l' (right p) (toRight p ++ option_list out) (toLeft p)) (snd_ x))
  | None => None
  end.

Definition read_line (w : list bytes) : option (res frameErr bytes) :=
  match w with _ :: _ => fst <$> readFrame (maxRead cfg) (Stream (onWire w) Broken) | [] => None end.

Definition exec (a : act) (x : rsys) : option rsys :=
  let p := net x in
  let s := snd_ x in
  match a with
  | ASend ns op key =>
      if bool_decide (key ∈ map Key (queued s)) then None else Some (MkSys p (Send policy ns op (Some []) key s).1)
  | ADrain => Some (MkSys p (Drain s).1)
  | ACall =>
      match running s, stopped s, queue s with
      | Between d, false, head :: _ =>
          match callBegin KindRelayRecord (VJson (Some (payload head))) None (left p) with
          | Ok l' => Some (MkSys (MkPair l' (right p) (toRight p) (toLeft p))
                       (setRunning (Calling head (length (calls (left p))) d)
                          (logTry (MkFrame KindRelayRecord (nextID l') false [] (payload head)) s)))
          | Err _ => None
          end
      | _, _, _ => None
      end
  | AResult =>
      match running s with
      | Calling head i d =>
          match calls (left p) !! i with
          | Some c => match c_state c with
                      | Returned e => Some (MkSys p (onResult policy head d (callResult c e) s))
                      | _ => None
                      end
          | None => None
          end
      | _ => None
      end
  | ARemoved =>
      match running s with
      | GivingUp head d => Some (MkSys p (setRunning (Between d) (acknowledged (Key head) (logRemoved head s))))
      | _ => None
      end
  | AWrite i =>
      match calls (left p) !! i with
      | Some c => match c_state c with
                  | Sending => if c_id c =? 0 then None else net_step x (Some (callWrite cfg i c (closed (left p)) false (left p)))
                  | _ => None
                  end
      | None => None
      end
  | AReceive i =>
      match calls (left p) !! i with
      | Some c => match c_state c, callReceive c (left p) with
                  | Waiting, Some c' => net_step x (Some (setCalls (insert i c') (left p), None))
                  | _, _ => None
                  end
      | None => None
      end
  | AReturn i =>
      match calls (left p) !! i with
      | Some c => match c_state c with
                  | Returning e => net_step x (Some (callReturn i c e (left p), None))
                  | _ => None
                  end
      | None => None
      end
  | AReadLeft =>
      match reader (left p), toLeft p, read_line (toLeft p) with
      | Reading, _ :: w, Some r => Some (MkSys (MkPair (readLoop r (left p)) (right p) (toRight p) w) s)
      | _, _, _ => None
      end
  | ADeliver =>
      match reader (left p) with
      | Delivering i f =>
          match calls (left p) !! i with
          | Some c => match chanSend f (c_chan c) with
                      | Some ch => net_step x (Some (setReader Reading (setCalls (alter (setChan ch) i) (left p)), None))
                      | None => None
                      end
          | None => None
          end
      | _ => None
      end
  | AReadRight =>
      match reader (right p), toRight p, read_line (toRight p) with
      | Reading, _ :: w, Some r => Some (MkSys (MkPair (left p) (readLoop r (right p)) w (toLeft p)) s)
      | _, _, _ => None
      end
  | ATake =>
      match laneServer (right p), lane (right p) with
      | LaneIdle, f :: l =>
          Some (MkSys (MkPair (left p) (setServer l (LaneBusy (JServing f)) (right p)) (toRight p) (toLeft p)) s)
      | _, _ => None
      end
  | AServe h =>
      match laneServer (right p) with
      | LaneBusy (JServing f) =>
          let r := serveGuarded cfg h f in
          Some (MkSys (MkPair (left p) (setHist (logRun cfg f h (right p))
                  (setServer (lane (right p)) (LaneBusy (JAnswering f r)) (right p))) (toRight p) (toLeft p)) s)
      | _ => None
      end
  | AAnswer =>
      match laneServer (right p) with
      | LaneBusy (JAnswering f r) =>
          let '(j', r', out) := respond cfg (closed (right p)) false (JAnswering f r) (right p) in
          Some (MkSys (MkPair (left p) (setServer (lane r') (match j' with Some j => LaneBusy j | None => LaneIdle end) r')
                  (toRight p) (toLeft p ++ option_list out)) s)
      | _ => None
      end
  end.

Fixpoint play (l : list act) (x : rsys) : option rsys :=
  match l with [] => Some x | a :: l => match exec a x with Some y => play l y | None => None end end.

Notation rstep := (rstep cfg cfg policy payload).
Notation rreach := (rreach cfg cfg policy payload).

Lemma quiet_same p q : length (calls (left q)) = length (calls (left p)) -> wrote (hist (left q)) = wrote (hist (left p)) -> quiet p q.
Proof.
  intros E1 E2. split.
  - intros c Hc. apply lookup_lt_Some in Hc. lia.
  - intros f Hf. apply (f_equal length) in Hf. rewrite E2, length_app in Hf. cbn in Hf. lia.
Qed.

Lemma quiet_write i c l l' out p q : calls l !! i = Some c -> c_id c <> 0 -> callWrite cfg i c (closed l) false l = (l', out) ->
  left p = l -> left q = l' -> quiet p q.
Proof.
  intros Hi Hid E Hp Hq. unfold callWrite in E. destruct (writeFrame _ _ _ _ l) as [[e s1] o] eqn:Ew.
  assert (wrote (hist l') = wrote (hist s1) /\ length (calls l') = length (calls s1)) as [E1 E2]
    by (destruct e; injection E as <- <-; (split; [done|apply length_alter])).
  split; rewrite Hp, Hq.
  - intros c0 Hc0. apply lookup_lt_Some in Hc0. rewrite E2 in Hc0.
    apply writeFrame_cases in Ew as [(-> & -> & _)|(-> & [->| ->] & _)]; cbn in Hc0; [lia..|]. pose proof (shutdown_serving CauseWrite l). lia.
  - intros f Hf H0. rewrite E1 in Hf. destruct (writeFrame_cases _ _ _ _ _ _ _ _ Ew) as [(-> & -> & _)|(-> & Hs & _)].
    + cbn in Hf. apply app_inj_tail in Hf as [_ <-]. done.
    + assert (wrote (hist s1) = wrote (hist l)) as E3 by (destruct Hs as [->| ->]; [done|]; by destruct (shutdown_serving CauseWrite l) as (_ & _ & _ & -> & _)).
      rewrite E3 in Hf. apply (f_equal length) in Hf. rewrite length_app in Hf. cbn in Hf. lia.
Qed.

Lemma hstep_out l l' inw outw out : cstep cfg l (written out) l' -> hstep cfg l inw outw l' inw (outw ++ option_list out).
Proof. destruct out; cbn; [apply h_wrote|]. rewrite app_nil_r. apply h_tau. Qed.

Lemma read_line_took w w' l r : w = l :: w' -> read_line w = Some r -> exists rest, readFrame (maxRead cfg) (Stream (onWire (l :: w')) Broken) = Some (r, rest).
Proof. intros -> H. unfold read_line in H. destruct (readFrame (maxRead cfg) _) as [[r' rest]|]; [|done]. cbn in H. simplify_eq. eauto. Qed.

Lemma exec_sound a x y : exec a x = Some y -> rstep x y.
Proof.
  destruct x as [[l r wr wl] s]. destruct a; cbn [exec net snd_ left right toRight toLeft]; intros H.
  - case_bool_decide; [done|]. simplify_eq. destruct (Send _ _ _ _ _ s) as [s' e] eqn:E. by eapply r_send.
  - simplify_eq. destruct (Drain s) as [s' res] eqn:E. by eapply r_drain.
  - repeat case_match; simplify_eq. by eapply r_call.
  - repeat case_match; simplify_eq. by eapply r_result.
  - repeat case_match; simplify_eq. by eapply r_removed.
  - destruct (calls l !! i) as [c|] eqn:Hi; [|done]. destruct (c_state c) eqn:Hs; try done. destruct (Z.eqb_spec (c_id c) 0); [done|].
    destruct (callWrite _ _ _ _ _ l) as [l' out] eqn:E. cbn in H. simplify_eq. apply r_net; [|by eapply quiet_write].
    apply p_left, hstep_out. eapply st_send; [done..|by left|done].
  - destruct (reader r) eqn:Hr; try done. destruct wr as [|w wr]; [done|]. destruct (read_line (w :: wr)) as [x|] eqn:E; [|done].
    simplify_eq. apply r_net; [|by apply quiet_same]. destruct (read_line_took _ _ _ _ eq_refl E) as [rest Hrest].
    apply p_right. eapply h_took; [done|by apply st_read].
  - repeat case_match; simplify_eq. apply r_net; [|by apply quiet_same]. apply p_right, h_tau. by apply st_lane_take.
  - repeat case_match; simplify_eq. apply r_net; [|by apply quiet_same]. apply p_right, h_tau. by apply st_lane_serve.
  - destruct (laneServer r) as [|[]|] eqn:Hl; try done. destruct (respond _ _ _ _ r) as [[j' r'] out] eqn:E. simplify_eq.
    apply r_net; [|by apply quiet_same]. apply p_right, hstep_out. by eapply st_lane_respond; [..|left|].
  - destruct (reader l) eqn:Hr; try done. destruct wl as [|w wl]; [done|]. destruct (read_line (w :: wl)) as [x|] eqn:E; [|done].
    simplify_eq. destruct (read_line_took _ _ _ _ eq_refl E) as [rest Hrest]. assert (cstep cfg l (Took x) (readLoop x l)) as Hst by by apply st_read.
    apply r_net; [apply p_left; by eapply h_took|].
    pose proof (readLoop_took x l) as (_ & Hw & _). apply quiet_same; [|done]. cbn.
    unfold readLoop. destruct x as [ln|e].
    + destruct (Unmarshal ln); [unfold deliverResponse, dispatchRequest; by repeat case_match|]. cbn. apply shutdown_serving.
    + cbn. apply shutdown_serving.
  - repeat case_match; simplify_eq. cbn in H. simplify_eq. apply r_net; [|apply quiet_same; [apply length_alter|done]].
    rewrite app_nil_r. apply p_left, h_tau. by eapply st_deliver.
  - destruct (calls l !! i) as [c|] eqn:Hi; [|done]. destruct (c_state c) eqn:Hs; try done. destruct (callReceive c l) eqn:E; [|done].
    cbn in H. simplify_eq. apply r_net; [|apply quiet_same; [apply length_insert|done]]. rewrite app_nil_r. apply p_left, h_tau. by eapply st_receive.
  - destruct (calls l !! i) as [c|] eqn:Hi; [|done]. destruct (c_state c) eqn:Hs; try done.
    cbn in H. simplify_eq. apply r_net; [|apply quiet_same; [apply length_alter|done]]. rewrite app_nil_r. apply p_left, h_tau. by eapply st_return.
Qed.

Lemma script_reach l x y : rreach x -> play l x = Some y -> rreach y.
Proof.
  revert x. induction l as [|a l IH]; cbn; intros x Hx Hy; [by simplify_eq|].
  destruct (exec a x) as [z|] eqn:E; [|done]. apply (IH z); [|done]. eapply rtc_r; [done|]. by eapply exec_sound.
Qed.

(** ** Runs *)

Definition rec1 : rec := MkRec (bs "core") (bs "record_push") (bs "k1") [].

(** One record, from the queue to its acknowledgement. *)
Definition deliver (i : nat) (h : handled) : list act :=
  [ACall; AWrite i; AReadRight; ATake; AServe h; AAnswer; AReadLeft; ADeliver; AReceive i; AReturn i; AResult].

Definition delivery : list act := ASend (bs "core") (bs "record_push") (bs "k1") :: deliver 0 (HReturn (VRaw (bs "{}"))).

(** The state a run ends in. *)
Definition after (l : list act) : rsys := default (rstart policy) (play l (rstart policy)).

Lemma after_reach l : play l (rstart policy) <> None -> rreach (after l).
Proof. unfold after. destruct (play l (rstart policy)) eqn:E; [|done]. intros _. eapply script_reach; [apply rtc_refl|done]. Qed.

End Player.

Definition open : config := MkConfig 0 0 true.

Definition delivered : rsys := after open delivery.

Lemma delivered_reach : rreach open open policy payload delivered.
Proof. apply after_reach. vm_compute. done. Qed.

Lemma delivered_few : few (left (net delivered)) /\ few (right (net delivered)).
Proof. vm_compute. done. Qed.



(** ** Witnesses *)

(** A call that waits while its connection closes. *)
Definition waiting : conn :=
  match callBegin KindHello VNil None New with
  | Ok s => match calls s !! 0%nat with Some c => (callWrite open 0 c None false s).1 | None => s end
  | Err _ => New
  end.

Lemma waiting_reach : creach open waiting.
Proof.
  eapply creach_step; [eapply creach_step; [apply creach_new|by eapply (st_call _ KindHello VNil None)]|].
  eapply (st_send open 0 _ None false); [reflexivity|reflexivity|by left|vm_compute; reflexivity].
Qed.

Lemma no_call_is_stuck_witness : let s := shutdown CauseClosed waiting in
  exists c, calls s !! 0%nat = Some c /\ c_state c = Waiting /\
    (is_Some (callReceive c s) \/ exists f, reader s = Delivering 0 f).
Proof.
  eexists. split; [reflexivity|]. split; [reflexivity|].
  apply (no_call_is_stuck open (shutdown CauseClosed waiting)); [|vm_compute; done|by eexists|reflexivity|reflexivity].
  eapply creach_step; [apply waiting_reach|apply st_close].
Defined.


Lemma records_applied_in_order_witness : length (applied (hist (right (net delivered)))) = 1%nat /\
  exists ns, StronglySorted le ns /\ length ns = 1%nat.
Proof.
  split; [reflexivity|].
  destruct (records_applied_in_order open open policy payload delivered delivered_reach) as (ns & Hs & Hn); [vm_compute; done..|].
  exists ns. split; [done|]. apply Forall2_length in Hn. by rewrite <-Hn.
Defined.

Lemma acknowledged_records_were_applied_witness : rec1 ∈ acks (snd_ delivered) /\
  exists id v, (carried (recordFrame payload id rec1), Ok v) ∈ answered (hist (right (net delivered))).
Proof.
  assert (rec1 ∈ acks (snd_ delivered)) as Hr by (vm_compute; left). split; [done|].
  apply (acknowledged_records_were_applied open open policy payload delivered rec1 delivered_reach); [vm_compute; done..| |done].
  intros q e Hq. change (answered (hist (right (net delivered)))) with [(recordFrame payload 1 rec1, Ok (E := cerr) (VRaw (bs "{}")))] in Hq.
  by apply list_elem_of_singleton in Hq.
Defined.

Lemma delivered_quiet : stopped (snd_ delivered) = false /\ (forall h d, running (snd_ delivered) <> GivingUp h d).
Proof. split; vm_compute; done. Qed.

Lemma every_record_is_accounted_for_witness : let s := snd_ delivered in let n := nameOf rec1 in
  stopped s = false /\ cnt n (map nameOf (acks s)) + count (undelivered s) n + cnt n (map nameOf (queue s)) + count (reported s) n = cnt n (offered s).
Proof.
  cbv zeta. destruct delivered_few as [F1 F2]. destruct delivered_quiet as [Hs Hr]. split; [exact Hs|].
  refine (proj2 (every_record_is_accounted_for open open policy payload delivered (nameOf rec1) delivered_reach F1 F2) Hs Hr).
Defined.

(** ** A double count *)

(** [givenUp] counts the record under one lock and removes it under another.  A
    drain between the two counts it again: one record was offered and two are
    reported. *)
Definition tiny : config := MkConfig 0 10 true.
Definition doubled : rsys :=
  after tiny [ASend (bs "core") (bs "record_push") (bs "k1"); ACall; AWrite 0; AReturn 0; AResult; ADrain].

Theorem given_up_counted_twice : rreach tiny tiny policy payload doubled /\
  length (offered (snd_ doubled)) = 1%nat /\ reported (snd_ doubled) !! nameOf rec1 = Some 2.
Proof. split; [apply after_reach; vm_compute; done|]. vm_compute. done. Qed.

End SidecarExample.
