(* ===== verification/RouteEvents.v ===== *)
(** * Event types

    Models the event vocabulary the router works with: the type names of
    internal/domain/event.go, the ownership each type is registered with in
    internal/domain/events, the type sets internal/routing/lifecycle.go derives
    from them, and the close sets of internal/routing/close_relations.go. *)

From S2P Require Import Prelude.
Local Open Scope string_scope.

Module RouteEvents.

(** ** The names *)

Definition EventGitHubPRCICheckFailed := "github:pr:ci_check_failed".
Definition EventGitHubPRCICheckPassed := "github:pr:ci_check_passed".
Definition EventGitHubPRReviewChangesRequested := "github:pr:review_changes_requested".
Definition EventGitHubPRReviewApproved := "github:pr:review_approved".
Definition EventGitHubPRReviewCommented := "github:pr:review_commented".
Definition EventGitHubPRReviewDismissed := "github:pr:review_dismissed".
Definition EventGitHubPRReviewRequested := "github:pr:review_requested".
Definition EventGitHubPRReviewRequestRemoved := "github:pr:review_request_removed".
Definition EventGitHubPRLabelAdded := "github:pr:label_added".
Definition EventGitHubPRLabelRemoved := "github:pr:label_removed".
Definition EventGitHubPRMerged := "github:pr:merged".
Definition EventGitHubPRClosed := "github:pr:closed".
Definition EventGitHubPROpened := "github:pr:opened".
Definition EventGitHubPRReadyForReview := "github:pr:ready_for_review".
Definition EventGitHubPRNewCommits := "github:pr:new_commits".
Definition EventGitHubPRConflicts := "github:pr:conflicts".
Definition EventGitHubPRConflictsResolved := "github:pr:conflicts_resolved".
Definition EventGitHubPRMentioned := "github:pr:mentioned".
Definition EventGitHubPRBodyUpdated := "github:pr:body_updated".
Definition EventGitHubPRCommented := "github:pr:commented".
Definition EventGitHubPRUnreachable := "github:pr:unreachable".

Definition EventJiraIssueAvailable := "jira:issue:available".
Definition EventJiraIssueAssigned := "jira:issue:assigned".
Definition EventJiraIssueStatusChanged := "jira:issue:status_changed".
Definition EventJiraIssueCompleted := "jira:issue:completed".
Definition EventJiraIssuePriorityChanged := "jira:issue:priority_changed".
Definition EventJiraIssueCommented := "jira:issue:commented".
Definition EventJiraIssueBecameAtomic := "jira:issue:became_atomic".
Definition EventJiraIssueUnreachable := "jira:issue:unreachable".
Definition EventJiraIssueBodyUpdated := "jira:issue:body_updated".
Definition EventJiraIssueLabelAdded := "jira:issue:label_added".
Definition EventJiraIssueLabelRemoved := "jira:issue:label_removed".
Definition EventJiraIssueKeyChanged := "jira:issue:key_changed".

Definition EventLinearIssueAssigned := "linear:issue:assigned".
Definition EventLinearIssueAvailable := "linear:issue:available".
Definition EventLinearIssueStatusChanged := "linear:issue:status_changed".
Definition EventLinearIssuePriorityChanged := "linear:issue:priority_changed".
Definition EventLinearIssueCommented := "linear:issue:commented".
Definition EventLinearIssueCompleted := "linear:issue:completed".
Definition EventLinearIssueBodyUpdated := "linear:issue:body_updated".
Definition EventLinearIssueParentChanged := "linear:issue:parent_changed".
Definition EventLinearIssueBecameAtomic := "linear:issue:became_atomic".
Definition EventLinearIssueUnreachable := "linear:issue:unreachable".
Definition EventLinearIssueLabelAdded := "linear:issue:label_added".
Definition EventLinearIssueLabelRemoved := "linear:issue:label_removed".
Definition EventLinearIssueIdentifierChanged := "linear:issue:identifier_changed".

Definition EventSlackMessage := "slack:message".

Definition EventSystemPollCompleted := "system:poll:completed".
Definition EventSystemScoringCompleted := "system:scoring:completed".
Definition EventSystemDelegationCompleted := "system:delegation:completed".
Definition EventSystemDelegationFailed := "system:delegation:failed".
Definition EventSystemPromptAutoSuspended := "system:prompt:auto_suspended".
Definition EventSystemConversationStatus := "system:conversation:status".
Definition EventSystemConversationActivity := "system:conversation:activity".
Definition EventSystemConversationResumed := "system:conversation:resumed".
Definition EventSystemRoutingDisposition := "system:routing:disposition".
Definition EventSystemEntityCloseOwed := "system:entity:close_owed".

(** ** Ownership *)

Inductive OwnershipModel := OwnershipPool | OwnershipOwned | OwnershipRequestedParty | OwnershipUnrouted.

#[export] Instance OwnershipModel_eq_dec : EqDecision OwnershipModel.
Proof. solve_decision. Defined.

(** The [Register] calls of domain/events/github.go, jira.go, linear.go,
    system.go and body_updated.go. *)
Definition githubRegistry : list (string * OwnershipModel) :=
  [ (EventGitHubPRBodyUpdated, OwnershipOwned);
    (EventGitHubPRReviewRequested, OwnershipRequestedParty); (EventGitHubPRReviewRequestRemoved, OwnershipOwned);
    (EventGitHubPRReviewChangesRequested, OwnershipOwned); (EventGitHubPRReviewApproved, OwnershipOwned);
    (EventGitHubPRReviewCommented, OwnershipOwned); (EventGitHubPRReviewDismissed, OwnershipOwned);
    (EventGitHubPRCICheckFailed, OwnershipOwned); (EventGitHubPRCICheckPassed, OwnershipOwned);
    (EventGitHubPRLabelAdded, OwnershipOwned); (EventGitHubPRLabelRemoved, OwnershipOwned);
    (EventGitHubPRNewCommits, OwnershipOwned); (EventGitHubPRConflicts, OwnershipOwned);
    (EventGitHubPRConflictsResolved, OwnershipOwned); (EventGitHubPRReadyForReview, OwnershipOwned);
    (EventGitHubPROpened, OwnershipOwned); (EventGitHubPRMerged, OwnershipOwned); (EventGitHubPRClosed, OwnershipOwned);
    (EventGitHubPRUnreachable, OwnershipOwned); (EventGitHubPRMentioned, OwnershipRequestedParty);
    (EventGitHubPRCommented, OwnershipOwned) ].

Definition jiraRegistry : list (string * OwnershipModel) :=
  [ (EventJiraIssueBodyUpdated, OwnershipOwned);
    (EventJiraIssueAssigned, OwnershipOwned); (EventJiraIssueAvailable, OwnershipPool);
    (EventJiraIssueStatusChanged, OwnershipOwned); (EventJiraIssuePriorityChanged, OwnershipOwned);
    (EventJiraIssueCommented, OwnershipOwned); (EventJiraIssueCompleted, OwnershipOwned);
    (EventJiraIssueBecameAtomic, OwnershipOwned); (EventJiraIssueLabelAdded, OwnershipOwned);
    (EventJiraIssueLabelRemoved, OwnershipOwned); (EventJiraIssueUnreachable, OwnershipOwned);
    (EventJiraIssueKeyChanged, OwnershipOwned) ].

Definition linearRegistry : list (string * OwnershipModel) :=
  [ (EventLinearIssueAssigned, OwnershipOwned); (EventLinearIssueAvailable, OwnershipPool);
    (EventLinearIssueStatusChanged, OwnershipOwned); (EventLinearIssuePriorityChanged, OwnershipOwned);
    (EventLinearIssueCommented, OwnershipOwned); (EventLinearIssueCompleted, OwnershipOwned);
    (EventLinearIssueBodyUpdated, OwnershipOwned); (EventLinearIssueParentChanged, OwnershipOwned);
    (EventLinearIssueLabelAdded, OwnershipOwned); (EventLinearIssueLabelRemoved, OwnershipOwned);
    (EventLinearIssueBecameAtomic, OwnershipOwned); (EventLinearIssueUnreachable, OwnershipOwned);
    (EventLinearIssueIdentifierChanged, OwnershipOwned) ].

Definition systemRegistry : list (string * OwnershipModel) :=
  [ (EventSystemPollCompleted, OwnershipUnrouted); (EventSystemScoringCompleted, OwnershipUnrouted);
    (EventSystemDelegationCompleted, OwnershipUnrouted); (EventSystemDelegationFailed, OwnershipUnrouted);
    (EventSystemPromptAutoSuspended, OwnershipUnrouted); (EventSystemConversationStatus, OwnershipUnrouted);
    (EventSystemConversationActivity, OwnershipUnrouted); (EventSystemConversationResumed, OwnershipUnrouted);
    (EventSystemRoutingDisposition, OwnershipUnrouted); (EventSystemEntityCloseOwed, OwnershipUnrouted) ].

Definition registry : gmap string OwnershipModel :=
  list_to_map (githubRegistry ++ jiraRegistry ++ linearRegistry ++ systemRegistry).

(** [OwnershipModelFor]: a type nobody registered is a pool type. *)
Definition OwnershipModelFor (eventType : string) : OwnershipModel := default OwnershipPool (registry !! eventType).

(** Strings in ascending byte order, and a set as such a list. *)
Definition sortStrings : list string -> list string := merge_sort String.le.
Definition sortedKeys (s : gset string) : list string := sortStrings (elements s).

Definition TypesWithOwnership (model : OwnershipModel) (sourcePrefix : string) : list string :=
  sortStrings (omap (fun '(et, m) => if bool_decide (m = model) && String.prefix sourcePrefix et then Some et else None)
    (map_to_list registry)).

(** ** Derived sets *)

Definition authorCentricGitHubEventTypes : list string := TypesWithOwnership OwnershipOwned "github:pr:".
Definition requestedPartyGitHubEventTypes : list string := TypesWithOwnership OwnershipRequestedParty "github:pr:".
Definition assigneeCentricJiraEventTypes : list string := TypesWithOwnership OwnershipOwned "jira:issue:".
Definition assigneeCentricLinearEventTypes : list string := TypesWithOwnership OwnershipOwned "linear:issue:".

Definition isAuthorCentricGitHubEvent (eventType : string) : bool := bool_decide (eventType ∈ authorCentricGitHubEventTypes).

(** The text before the first colon, or all of it. *)
Fixpoint eventSourcePrefix (s : string) : string :=
  match s with
  | String c rest => if Ascii.eqb c ":" then "" else String c (eventSourcePrefix rest)
  | EmptyString => ""
  end.

Definition EntityTerminatingEventTypes : list string :=
  [ EventGitHubPRMerged; EventGitHubPRClosed; EventGitHubPRUnreachable; EventJiraIssueCompleted; EventJiraIssueUnreachable;
    EventLinearIssueCompleted; EventLinearIssueUnreachable ].

(** Whether a task of this type may live on a closed entity. *)
Definition TaskMayRideClosedEntity (eventType : string) : bool := bool_decide (eventType ∈ EntityTerminatingEventTypes).

(** ** Close sets *)

Definition githubPRCloseTypesExcept (terminators : list string) : list string :=
  filter (fun et => et ∉ terminators) authorCentricGitHubEventTypes ++ requestedPartyGitHubEventTypes.
Definition githubPRTerminalCloseTypes : list string := githubPRCloseTypesExcept [EventGitHubPRMerged; EventGitHubPRClosed].

Definition jiraCloseTypesExcept (terminator : string) : list string :=
  filter (fun et => et <> terminator) assigneeCentricJiraEventTypes ++ [EventJiraIssueAvailable].
Definition jiraIssueTerminalCloseTypes : list string := jiraCloseTypesExcept EventJiraIssueCompleted.
Definition jiraIssueUnreachableCloseTypes : list string := jiraCloseTypesExcept EventJiraIssueUnreachable.

Definition linearCloseTypesExcept (terminator : string) : list string :=
  filter (fun et => et <> terminator) assigneeCentricLinearEventTypes ++ [EventLinearIssueAvailable].

(** The first occurrence of each element. *)
Fixpoint firstOf (seen : list string) (l : list string) : list string :=
  match l with
  | [] => []
  | x :: l => if bool_decide (x ∈ seen) then firstOf seen l else x :: firstOf (x :: seen) l
  end.

Definition closeOwedCloseTypes : list string :=
  firstOf EntityTerminatingEventTypes
    (githubPRTerminalCloseTypes ++ githubPRCloseTypesExcept [EventGitHubPRUnreachable] ++
     jiraIssueTerminalCloseTypes ++ jiraIssueUnreachableCloseTypes ++
     linearCloseTypesExcept EventLinearIssueCompleted ++ linearCloseTypesExcept EventLinearIssueUnreachable).

(** ** Close relations

    The gate and the filter of a typed relation are named here and evaluated
    where the router reads them. *)
Inductive prepareHook :=
| NoPrepare
| PrepareCIPassed
| PrepareConflictsResolved
| PrepareReviewerKey
| PrepareReviewResolved
| PrepareRemovedReviewerKeys
| PrepareReassign.

Inductive keepHook := NoKeep | KeepDedupKey | KeepReviewRequestRemoved | KeepReassign (poolType : string).

Record closeRelation := MkRel {
  onEvents : list string; closes : list string; prepare : prepareHook; keep : keepHook;
  terminatesEntity : bool; closeReason : string
}.

(** [reason]. *)
Definition relReason (rel : closeRelation) : string :=
  if bool_decide (closeReason rel = "") then "auto_closed_by_event" else closeReason rel.

Definition closeReasonReconciled := "reconciled".

Definition closeRelations : list closeRelation :=
  [ MkRel [EventGitHubPRCICheckPassed] [EventGitHubPRCICheckFailed] PrepareCIPassed NoKeep false "";
    MkRel [EventGitHubPRConflictsResolved] [EventGitHubPRConflicts] PrepareConflictsResolved NoKeep false "";
    MkRel [EventGitHubPRReviewApproved; EventGitHubPRReviewCommented; EventGitHubPRReviewDismissed;
           EventGitHubPRReviewChangesRequested]
      [EventGitHubPRReviewRequested] PrepareReviewerKey KeepDedupKey false "";
    MkRel [EventGitHubPRReviewApproved; EventGitHubPRReviewCommented; EventGitHubPRReviewDismissed]
      [EventGitHubPRReviewChangesRequested] PrepareReviewResolved NoKeep false "";
    MkRel [EventGitHubPRReviewRequestRemoved] [EventGitHubPRReviewRequested]
      PrepareRemovedReviewerKeys KeepReviewRequestRemoved false "";
    MkRel [EventJiraIssueAssigned] [EventJiraIssueAssigned; EventJiraIssueAvailable]
      PrepareReassign (KeepReassign EventJiraIssueAvailable) false "";
    MkRel [EventLinearIssueAssigned] [EventLinearIssueAssigned; EventLinearIssueAvailable]
      PrepareReassign (KeepReassign EventLinearIssueAvailable) false "";
    MkRel [EventGitHubPRMerged; EventGitHubPRClosed] githubPRTerminalCloseTypes NoPrepare NoKeep true "entity_closed";
    MkRel [EventGitHubPRUnreachable] (githubPRCloseTypesExcept [EventGitHubPRUnreachable]) NoPrepare NoKeep true "entity_closed";
    MkRel [EventJiraIssueCompleted] jiraIssueTerminalCloseTypes NoPrepare NoKeep true "entity_closed";
    MkRel [EventJiraIssueUnreachable] jiraIssueUnreachableCloseTypes NoPrepare NoKeep true "entity_closed";
    MkRel [EventLinearIssueCompleted] (linearCloseTypesExcept EventLinearIssueCompleted) NoPrepare NoKeep true "entity_closed";
    MkRel [EventLinearIssueUnreachable] (linearCloseTypesExcept EventLinearIssueUnreachable) NoPrepare NoKeep true "entity_closed";
    MkRel [EventSystemEntityCloseOwed] closeOwedCloseTypes NoPrepare NoKeep true closeReasonReconciled ].

Definition terminatingRelationFor (eventType : string) : option closeRelation :=
  List.find (fun rel => terminatesEntity rel && bool_decide (eventType ∈ onEvents rel)) closeRelations.

(** The typed relations an event triggers, in order. *)
Definition typedRelationsFor (eventType : string) : list closeRelation :=
  filter (fun rel => terminatesEntity rel = false /\ eventType ∈ onEvents rel) closeRelations.

End RouteEvents.
