(* ===== verification/RouteDb.v ===== *)
(** * The router's tables and store calls

    Models what internal/routing reads and writes through its stores: tasks,
    entities, blueprint runs, conversations and queued firings, with the
    statements of internal/db/sqlite/tasks.go, entities.go, blueprints.go,
    pending_firings.go and conversation.go the router uses.  A store call runs at
    one instant; before it other processes may have changed the tables, and it may
    fail, with or without its transaction having committed. *)

From Stdlib Require Export QArith.
From S2P Require Import Prelude RouteEvents.
Import RouteEvents.
Local Open Scope string_scope.
Local Open Scope Z_scope.
Local Open Scope list_scope.

Module RouteDb.

(** ** Rows *)

Inductive status := Queued | InProgress | Snoozed | Done | Dismissed.

#[export] Instance status_eq_dec : EqDecision status.
Proof. solve_decision. Defined.

(** A task; ids are positions in the table.  Empty text stands for NULL in the
    team and claim columns. *)
Record task := MkTask {
  t_id : nat; t_entity : string; t_type : string; t_key : string; t_primary : string; t_status : status;
  t_priority : Q; t_created : Z; t_team : string; t_agent : string; t_user : string;
  t_score : option Q; t_held : option string; t_closed : option (string * string)
}.

Definition isActive (t : task) : bool := negb (bool_decide (t_status t = Done)) && negb (bool_decide (t_status t = Dismissed)).

Record checkRun := MkCheck { k_status : string; k_conclusion : string }.

(** The stored pull request snapshot, as far as the close gates read it. *)
Record snapshot := MkSnap { s_checks : list checkRun; s_reviews : list string }.

(** [e_snapshot] is [None] when the stored text is not a pull request snapshot. *)
Record entity := MkEntity {
  e_active : bool; e_poll : Z; e_source : string; e_scope : string; e_repo : string; e_owner : string;
  e_snapshot : option snapshot; e_mergeable : option string
}.

(** A blueprint run; [r_event] is empty for one a person started. *)
Record run := MkRun {
  r_task : nat; r_trigger : string; r_event : string; r_agent : string; r_running : bool; r_cancel : bool
}.

(** A conversation with what the predicates over its columns say of it. *)
Record conv := MkConv { c_task : nat; c_run : nat; c_live : bool; c_working : bool; c_unsettled : bool }.

Record firing := MkFiring { f_task : nat; f_trigger : string; f_event : string; f_unsettled : bool }.

Record team := MkTeam { g_archived : bool; g_autoDelegate : bool; g_bot : bool }.

Inductive handlerKind := HRule | HTrigger | HNotify.

#[export] Instance handlerKind_eq_dec : EqDecision handlerKind.
Proof. solve_decision. Defined.

(** An [EventHandler]; an empty team is a handler of the whole organization. *)
Record handler := MkHandler {
  h_id : string; h_kind : handlerKind; h_team : string; h_priority : option Q; h_unowned : bool;
  h_suitability : option Q; h_breaker : option Z; h_blueprint : string
}.

(** The tables the router only reads: handlers, and the tracking, identity and
    settings lookups, each at the organization's own host, site and workspace. *)
Record config := MkConfig {
  enabledHandlers : string -> list handler;
  tracksRepository : string -> string -> bool;
  tracksJiraProject : string -> string -> bool;
  tracksLinearTeam : string -> string -> bool;
  usersByGitHubID : string -> string -> list string;
  usersByGitHubLogin : string -> list string;
  usersByJira : string -> list string;
  usersByLinear : string -> list string;
  teamsOfUser : string -> list string;
  teamsOfGitHubTeam : string -> string -> string -> string -> list string;
  noModel : bool;
  agent : option string;
  failures : string -> string -> Z;
  firstPrompt : string -> string;
  sourceDisabled : string -> bool;
  eventAllowed : string -> bool
}.

Record rdb := MkDb {
  entities : gmap string entity;
  tasks : list task;
  task_teams : gset (nat * string);
  task_events : list (nat * string * string);
  runs : list run;
  convs : list conv;
  firings : list firing;
  awaiting : list (nat * string);
  teams : gmap string team;
  conf : config
}.

Definition setEntities (f : gmap string entity -> gmap string entity) (d : rdb) : rdb :=
  MkDb (f (entities d)) (tasks d) (task_teams d) (task_events d) (runs d) (convs d) (firings d) (awaiting d) (teams d) (conf d).
Definition setTasks (f : list task -> list task) (d : rdb) : rdb :=
  MkDb (entities d) (f (tasks d)) (task_teams d) (task_events d) (runs d) (convs d) (firings d) (awaiting d) (teams d) (conf d).
Definition setTeamRows (f : gset (nat * string) -> gset (nat * string)) (d : rdb) : rdb :=
  MkDb (entities d) (tasks d) (f (task_teams d)) (task_events d) (runs d) (convs d) (firings d) (awaiting d) (teams d) (conf d).
Definition setTaskEvents (f : list (nat * string * string) -> list (nat * string * string)) (d : rdb) : rdb :=
  MkDb (entities d) (tasks d) (task_teams d) (f (task_events d)) (runs d) (convs d) (firings d) (awaiting d) (teams d) (conf d).
Definition setRuns (f : list run -> list run) (d : rdb) : rdb :=
  MkDb (entities d) (tasks d) (task_teams d) (task_events d) (f (runs d)) (convs d) (firings d) (awaiting d) (teams d) (conf d).
Definition setConvs (f : list conv -> list conv) (d : rdb) : rdb :=
  MkDb (entities d) (tasks d) (task_teams d) (task_events d) (runs d) (f (convs d)) (firings d) (awaiting d) (teams d) (conf d).
Definition setFirings (f : list firing -> list firing) (d : rdb) : rdb :=
  MkDb (entities d) (tasks d) (task_teams d) (task_events d) (runs d) (convs d) (f (firings d)) (awaiting d) (teams d) (conf d).

Definition setStatus (s : status) (t : task) : task :=
  MkTask (t_id t) (t_entity t) (t_type t) (t_key t) (t_primary t) s (t_priority t) (t_created t) (t_team t) (t_agent t)
    (t_user t) (t_score t) (t_held t) (t_closed t).
Definition setHeld (h : option string) (t : task) : task :=
  MkTask (t_id t) (t_entity t) (t_type t) (t_key t) (t_primary t) (t_status t) (t_priority t) (t_created t) (t_team t)
    (t_agent t) (t_user t) (t_score t) h (t_closed t).
Definition setTeam (g : string) (t : task) : task :=
  MkTask (t_id t) (t_entity t) (t_type t) (t_key t) (t_primary t) (t_status t) (t_priority t) (t_created t) g (t_agent t)
    (t_user t) (t_score t) (t_held t) (t_closed t).
Definition setClaim (a u : string) (t : task) : task :=
  MkTask (t_id t) (t_entity t) (t_type t) (t_key t) (t_primary t) (t_status t) (t_priority t) (t_created t) (t_team t) a u
    (t_score t) (t_held t) (t_closed t).
Definition setClosed (c : string * string) (t : task) : task :=
  MkTask (t_id t) (t_entity t) (t_type t) (t_key t) (t_primary t) Done (t_priority t) (t_created t) (t_team t) (t_agent t)
    (t_user t) (t_score t) (t_held t) (Some c).

(** ** Calls *)

Inductive rerr := Fault | NoOrg | ErrEntityClosed | ErrAlreadyFired | ErrTaskClosed | ErrTeamArchived | ErrTaskBusy | ErrNoSuchTask.

#[export] Instance rerr_eq_dec : EqDecision rerr.
Proof. solve_decision. Defined.

(** What happens around one store call: others' writes before it, and whether it
    works, is refused, or commits without its answer arriving. *)
Inductive fault := Works | Refused | Lost.
Record turn := Turn { meanwhile : rdb -> rdb; outcome : fault }.

(** The tables and the turns to come; with none left, every call works alone. *)
Record world := World { db : rdb; script : list turn }.

Definition M (A : Type) : Type := world -> res rerr A * world.

Definition ret {A} (a : A) : M A := fun w => (Ok a, w).
Definition throw {A} (e : rerr) : M A := fun w => (Err e, w).
Definition bind {A B} (m : M A) (k : A -> M B) : M B :=
  fun w => match m w with (Ok a, w) => k a w | (Err e, w) => (Err e, w) end.
(** Go's [v, err := m]: the result as a value. *)
Definition try {A} (m : M A) : M (res rerr A) := fun w => let '(r, w) := m w in (Ok r, w).

Notation "'let!' x ':=' m 'in' k" := (bind m (fun x => k))
  (at level 10, x pattern, m at level 100, k at level 200) : tf_scope.

(** A transaction: it answers and may write; an error rolls it back. *)
Definition call {A} (tx : rdb -> res rerr A * rdb) : M A := fun w =>
  match script w with
  | [] => match tx (db w) with (Ok a, d) => (Ok a, World d []) | (Err e, _) => (Err e, w) end
  | t :: ts =>
      let d := meanwhile t (db w) in
      match outcome t with
      | Refused => (Err Fault, World d ts)
      | Works => match tx d with (Ok a, d') => (Ok a, World d' ts) | (Err e, _) => (Err e, World d ts) end
      | Lost => match tx d with (Ok _, d') => (Err Fault, World d' ts) | (Err _, _) => (Err Fault, World d ts) end
      end
  end.

Definition read {A} (f : rdb -> A) : M A := call (fun d => (Ok (f d), d)).

(** What the process knows without a store call. *)
Definition peek {A} (f : rdb -> A) : M A := fun w => (Ok (f (db w)), w).

(** ** Task store *)

Definition sameKey (entityID eventType dedupKey : string) (t : task) : bool :=
  isActive t && bool_decide (t_entity t = entityID /\ t_type t = eventType /\ t_key t = dedupKey).

Definition GetTask (id : nat) (d : rdb) : option task := tasks d !! id.

Definition FindActiveByEntity (entityID : string) (d : rdb) : list task :=
  filter (fun t => isActive t = true /\ t_entity t = entityID) (tasks d).
Definition FindActiveByEntityAndType (entityID eventType : string) (d : rdb) : list task :=
  filter (fun t => t_type t = eventType) (FindActiveByEntity entityID d).

(** The latest of the rows by creation, the first among equals. *)
Fixpoint latest (l : list task) : option task :=
  match l with
  | [] => None
  | t :: l => match latest l with Some u => if t_created t <? t_created u then Some u else Some t | None => Some t end
  end.

Definition OwnerTeamForLatestTaskInTypes (entityID : string) (types : list string) (d : rdb) : string :=
  default "" (t_team <$> latest (filter (fun t => t_entity t = entityID /\ t_team t <> "" /\ t_type t ∈ types) (tasks d))).

(** [findOrCreateAt] through the router's door: refuses a closed or missing
    entity unless the type may ride one, answers the active task of the key, or
    inserts one. *)
Definition FindOrCreateAt (teamID entityID eventType dedupKey primaryEventID : string) (priority : Q) (createdAt : Z) (d : rdb) :
    res rerr (task * bool) * rdb :=
  let mint :=
    match List.find (sameKey entityID eventType dedupKey) (tasks d) with
    | Some t => (Ok (t, false), d)
    | None =>
        let t := MkTask (length (tasks d)) entityID eventType dedupKey primaryEventID Queued priority createdAt teamID "" "" None None None in
        (Ok (t, true), setTasks (fun ts => ts ++ [t]) d)
    end in
  match entities d !! entityID with
  | None => (Err ErrEntityClosed, d)
  | Some e => if e_active e || TaskMayRideClosedEntity eventType then mint else (Err ErrEntityClosed, d)
  end.

(** [FindOrCreateAtUnlessEntityActive]: [None] when some task is already active on
    the entity. *)
Definition FindOrCreateAtUnlessEntityActive (teamID entityID eventType dedupKey primaryEventID : string) (priority : Q) (createdAt : Z)
    (d : rdb) : res rerr (option (task * bool)) * rdb :=
  if bool_decide (FindActiveByEntity entityID d = [])
  then match FindOrCreateAt teamID entityID eventType dedupKey primaryEventID priority createdAt d with
       | (Ok r, d) => (Ok (Some r), d)
       | (Err e, d) => (Err e, d)
       end
  else (Ok None, d).

Definition SetVisibilityTeams (id : nat) (ts : list string) (d : rdb) : res rerr unit * rdb :=
  (Ok tt, setTeamRows (fun s => s ∪ list_to_set (map (pair id) (filter (fun g => g <> "") ts))) d).

(** [INSERT OR IGNORE] into task_events. *)
Definition RecordEvent (id : nat) (eventID kind : string) (d : rdb) : res rerr unit * rdb :=
  (Ok tt, setTaskEvents (fun l => if bool_decide ((id, eventID, kind) ∈ l) then l else l ++ [(id, eventID, kind)]) d).

Definition bumpRow (t : task) : task := setHeld None (if bool_decide (t_status t = Snoozed) then setStatus Queued t else t).
Definition Bump (id : nat) (d : rdb) : res rerr unit * rdb :=
  match tasks d !! id with
  | None => (Err ErrNoSuchTask, d)
  | Some _ => (Ok tt, setTasks (alter bumpRow id) d)
  end.

(** [stampAgentClaimIfUnclaimed]. *)
Definition stampable (agentID : string) (t : task) : bool :=
  bool_decide (t_user t = "") && negb (bool_decide (t_agent t = agentID)) && isActive t.
Definition stampRow (agentID actingTeam : string) (t : task) : task :=
  setTeam (if bool_decide (actingTeam = "") then t_team t else actingTeam)
    (setClaim agentID (t_user t) (setStatus (match t_status t with Queued | Snoozed => InProgress | s => s end) t)).
Definition stampAgentClaim (id : nat) (agentID actingTeam : string) (d : rdb) : bool * rdb :=
  match tasks d !! id with
  | Some t => if stampable agentID t then (true, setTasks (alter (stampRow agentID actingTeam) id) d) else (false, d)
  | None => (false, d)
  end.

(** An [AgentClaimStamp]; the zero stamp is skipped. *)
Record claim := MkClaim { AgentID : string; ActingTeamID : string }.
Definition claimStamp (agentID actingTeamID : string) : claim :=
  if bool_decide (agentID = "") then MkClaim "" "" else MkClaim agentID actingTeamID.
Definition stampClaim (id : nat) (c : claim) (d : rdb) : bool * rdb :=
  if bool_decide (AgentID c = "") then (false, d) else stampAgentClaim id (AgentID c) (ActingTeamID c) d.

Definition MarkEventInjected (id : nat) (eventID : string) (c : claim) (d : rdb) : res rerr bool * rdb :=
  let d := setTaskEvents (map (fun '(i, e, k) => if bool_decide (i = id /\ e = eventID) then (i, e, "injected") else (i, e, k))) d in
  let '(claimed, d) := stampClaim id c d in (Ok claimed, d).

(** ** Closing a task *)

Definition unsettledOf (id : nat) (d : rdb) : list nat :=
  omap (fun '(i, c) => if bool_decide (c_task c = id) && c_unsettled c then Some i else None) (imap pair (convs d)).
Definition workingOf (id : nat) (d : rdb) : list nat :=
  omap (fun '(i, c) => if bool_decide (c_task c = id) && c_working c then Some i else None) (imap pair (convs d)).
Definition awaitingPerson (id : nat) (d : rdb) : bool :=
  existsb (fun '(i, e) => bool_decide (i = id) && match entities d !! e with Some x => e_active x | None => false end) (awaiting d).

(** The cancel intent on the runs behind the task's unsettled conversations. *)
Definition cancelRuns (id : nat) (d : rdb) : rdb :=
  let ids := omap (fun c => if bool_decide (c_task c = id) && c_unsettled c then Some (c_run c) else None) (convs d) in
  setRuns (imap (fun i r => if bool_decide (i ∈ ids) && r_running r then MkRun (r_task r) (r_trigger r) (r_event r) (r_agent r) true true else r)) d.

Definition auditClose (id : nat) (eventID : string) (d : rdb) : rdb :=
  if bool_decide (eventID = "") then d else (RecordEvent id eventID "closed" d).2.

(** [closeTaskWithCancelIntent]. *)
Definition closeTaskWithCancelIntent (id : nat) (reason eventType eventID : string) (d : rdb) : (bool * list nat) * rdb :=
  match tasks d !! id with
  | Some t =>
      if isActive t then
        let d := auditClose id eventID (setTasks (alter (setClosed (reason, eventType)) id) d) in
        ((true, unsettledOf id d), cancelRuns id d)
      else ((false, []), auditClose id eventID d)
  | None => ((false, []), auditClose id eventID d)
  end.

Definition CloseWithConversationCancelIntent (id : nat) (reason eventType eventID : string) (d : rdb) : res rerr (bool * list nat) * rdb :=
  let '(r, d) := closeTaskWithCancelIntent id reason eventType eventID d in (Ok r, d).

(** A [TaskCloseOutcome]: closed with the conversations to stop, held with the
    ones to tell, or neither. *)
Inductive closeOutcome :=
| CloseNone
| Closed (stopped : list nat)
| Held (working : list nat) (awaits : bool) (newly : bool).

Definition holdRow (eventID : string) (t : task) : task := setHeld (Some eventID) t.

(** [closeOrHoldTask]; [applying] for the sweep. *)
Definition closeOrHoldTask (id : nat) (reason eventType eventID : string) (applying : bool) (d : rdb) : closeOutcome * rdb :=
  let close d :=
    let '((closed, stopped), d) := closeTaskWithCancelIntent id reason eventType eventID d in
    (if closed then Closed stopped else CloseNone, if applying then setTasks (alter (setHeld None) id) d else d) in
  if bool_decide (eventID = "") then close d
  else
    match tasks d !! id with
    | Some t =>
        if negb (isActive t) || (applying && negb (bool_decide (t_held t = Some eventID))) then (CloseNone, d)
        else
          let working := workingOf id d in
          let awaits := bool_decide (working = []) && awaitingPerson id d in
          if negb (bool_decide (working = [])) || awaits then
            let out := Held working awaits (match t_held t with None => negb applying | Some _ => false end) in
            (out, if applying then d else setTasks (alter (holdRow eventID) id) d)
          else close d
    | None => (CloseNone, d)
    end.

Definition CloseOrHold (id : nat) (reason eventType eventID : string) (d : rdb) : res rerr closeOutcome * rdb :=
  let '(o, d) := closeOrHoldTask id reason eventType eventID false d in (Ok o, d).
Definition ApplyHeldClose (id : nat) (eventID reason eventType : string) (d : rdb) : res rerr closeOutcome * rdb :=
  let '(o, d) := closeOrHoldTask id reason eventType eventID true d in (Ok o, d).
Definition ClearCloseDeferral (id : nat) (eventID : string) (d : rdb) : res rerr bool * rdb :=
  match tasks d !! id with
  | Some t => if bool_decide (t_held t = Some eventID) then (Ok true, setTasks (alter (setHeld None) id) d) else (Ok false, d)
  | None => (Ok false, d)
  end.

(** The closing event a task's close is held on. *)
Definition CloseDeferralForTask (id : nat) (d : rdb) : option string :=
  match tasks d !! id with Some t => if isActive t then t_held t else None | None => None end.

(** ** Entity store *)

Definition closeEntity (e : entity) : entity :=
  MkEntity false (e_poll e) (e_source e) (e_scope e) (e_repo e) (e_owner e) (e_snapshot e) (e_mergeable e).

(** The tasks a terminating close walks, oldest first. *)
Definition openTaskIDs (entityID : string) (types : list string) (d : rdb) : list nat :=
  map t_id (filter (fun t => t_type t ∈ types) (FindActiveByEntity entityID d)).

Fixpoint closeEach (ids : list nat) (reason eventType eventID : string) (d : rdb) : list (nat * closeOutcome) * rdb :=
  match ids with
  | [] => ([], d)
  | i :: ids =>
      let '(o, d) := closeOrHoldTask i reason eventType eventID false d in
      let '(os, d) := closeEach ids reason eventType eventID d in ((i, o) :: os, d)
  end.

(** [CloseTerminalSystem]: [None] when the entity is missing, closed, or at another
    version than the one judged. *)
Definition CloseTerminal (entityID : string) (expected : option Z) (types : list string) (reason eventType eventID : string) (d : rdb) :
    res rerr (option (list (nat * closeOutcome))) * rdb :=
  match entities d !! entityID with
  | Some e =>
      if negb (e_active e) || match expected with Some v => negb (e_poll e =? v) | None => false end then (Ok None, d)
      else
        let d := setEntities (alter closeEntity entityID) d in
        let '(os, d) := closeEach (openTaskIDs entityID types d) reason eventType eventID d in (Ok (Some os), d)
  | None => (Ok None, d)
  end.

(** ** Firing *)

(** The run insert of a firing with its fences: a run of the same event and
    trigger makes it a replay, a running one of the task makes the task busy; the
    replay fence is the conflict target and decides first. *)
Definition fenced (eventID triggerID : string) (d : rdb) : bool :=
  existsb (fun r => bool_decide (r_event r = eventID /\ r_trigger r = triggerID /\ eventID <> "")) (runs d).
Definition busy (id : nat) (d : rdb) : bool := existsb (fun r => bool_decide (r_task r = id) && r_running r) (runs d).

Definition teamArchived (g : string) (d : rdb) : bool := match teams d !! g with Some x => g_archived x | None => false end.

(** Settled conversations of the task end with the new delegation. *)
Definition endSettled (id : nat) : list conv -> list conv :=
  map (fun c => if bool_decide (c_task c = id) && negb (c_unsettled c) then MkConv (c_task c) (c_run c) false false false else c).

(** [CreateRunWithFirstStepSystem] for an event-triggered run; its answer is the
    run, its errors the spawner's refusals. *)
Definition CreateRunWithFirstStep (id : nat) (triggerID eventID actor : string) (c : claim) (ownerTeam : string) (d : rdb) :
    res rerr nat * rdb :=
  match tasks d !! id with
  | None => (Err ErrNoSuchTask, d)
  | Some t =>
      let open := isActive t && bool_decide (t_held t = None) in
      let runTeam := if bool_decide (ownerTeam = "") then t_team t else ownerTeam in
      if fenced eventID triggerID d then (Err ErrAlreadyFired, d)
      else if busy id d then (Err ErrTaskBusy, d)
      else if negb open then (Err ErrTaskClosed, d)
      else if teamArchived runTeam d then (Err ErrTeamArchived, d)
      else
        let n := length (runs d) in
        let d := setRuns (fun rs => rs ++ [MkRun id triggerID eventID actor true false]) d in
        let d := setConvs (endSettled id) d in
        let d := if bool_decide (ownerTeam = "") then d else setTasks (alter (setTeam ownerTeam) id) d in
        let d := (stampClaim id c d).2 in
        (Ok n, setConvs (fun cs => cs ++ [MkConv id n true true true]) d)
  end.

(** [Enqueue]: one unsettled firing per task and trigger. *)
Definition queuedFiring (id : nat) (triggerID : string) (d : rdb) : bool :=
  existsb (fun f => bool_decide (f_task f = id /\ f_trigger f = triggerID) && f_unsettled f) (firings d).
Definition Enqueue (id : nat) (triggerID eventID : string) (c : claim) (d : rdb) : res rerr (bool * bool) * rdb :=
  if queuedFiring id triggerID d then (Ok (false, false), d)
  else
    let d := setFirings (fun fs => fs ++ [MkFiring id triggerID eventID true]) d in
    let '(claimed, d) := stampClaim id c d in (Ok (true, claimed), d).
Definition HasUnsettledForTask (id : nat) (d : rdb) : bool := existsb (fun f => bool_decide (f_task f = id) && f_unsettled f) (firings d).

(** The newest live conversation of the task. *)
Definition LiveConversationIDForTask (id : nat) (d : rdb) : option nat :=
  last (omap (fun '(i, c) => if bool_decide (c_task c = id) && c_live c then Some i else None) (imap pair (convs d))).

End RouteDb.
