(* ===== verification/RouteTeams.v ===== *)
(** * Which teams an event reaches

    Models internal/routing/team_routing.go and the resolution stages of
    dispatch.go: the team and scope gates with their per-event cache, the owner
    ladders, the requested party, the pool, and the ranking of teams.  No event
    source of another package is registered, and the stores the router can do
    without are all wired. *)

From S2P Require Import Prelude RouteEvents RouteDb.
Import RouteEvents RouteDb.
Local Open Scope string_scope.
Local Open Scope Z_scope.
Local Open Scope list_scope.

Module RouteTeams.

(** The metadata fields the router decodes. *)
Record meta := MkMeta {
  m_author : string; m_authorID : string; m_host : string; m_reviewer : string; m_reviewerID : string;
  m_requestedLogin : string; m_requestedTeam : string; m_requestedUserID : string; m_requestedTeamID : string;
  m_mentionedLogin : string; m_mentionedTeam : string;
  m_project : string; m_oldProject : string; m_linearTeam : string; m_oldLinearTeam : string;
  m_assigneeAccount : string; m_assigneeUser : string
}.

(** An event; [v_meta] is [None] when its metadata does not decode. *)
Record event := MkEvent {
  v_org : string; v_id : string; v_type : string; v_entity : option string; v_key : string; v_at : option Z; v_meta : option meta
}.

Definition field (f : meta -> string) (evt : event) : string := default "" (f <$> v_meta evt).

(** ** The scope gate *)

(** Task routing's answer and the notify rules'. *)
Record teamScope := MkScope { open : bool; strict : bool }.

Record teamCacheEntry := MkEntry { archivedRead : option bool; scopeRead : option teamScope }.
Definition teamScopeCache := gmap string teamCacheEntry.
Definition entryOf (cache : teamScopeCache) (g : string) : teamCacheEntry := default (MkEntry None None) (cache !! g).

Definition teamArchivedCached (g : string) (cache : teamScopeCache) : M (bool * teamScopeCache) :=
  match archivedRead (entryOf cache g) with
  | Some a => ret (a, cache)
  | None =>
      let! a := read (teamArchived g) in
      ret (a, <[g := MkEntry (Some a) (scopeRead (entryOf cache g))]> cache)
  end.

(** What the gate decides; [Undecided] is metadata or an entity naming nothing to
    look up, [NoGate] a source without a gate. *)
Inductive verdict := Decided (tracks : bool) | Undecided | NoGate.

Definition teamTracksEventRepo (evt : event) (g : string) : M verdict :=
  match v_entity evt with
  | None => ret Undecided
  | Some id =>
      let! e := read (fun d => entities d !! id) in
      match e with
      | None => ret Undecided
      | Some e =>
          if bool_decide (e_repo e = "") then ret Undecided
          else let! t := read (fun d => tracksRepository (conf d) g (e_repo e)) in ret (Decided t)
      end
  end.

(** The settings read that names the site or workspace. *)
Definition readSettings : M unit := read (fun _ => tt).

(** Whether any of the ids is tracked, asked in order until one is. *)
Fixpoint tracksAny (tracks : rdb -> string -> bool) (ids : list string) : M bool :=
  match ids with
  | [] => ret false
  | i :: ids => let! t := read (fun d => tracks d i) in if t then ret true else tracksAny tracks ids
  end.

(** The projects and Linear teams an event names: where it is, and where a key or
    identifier change moved it from. *)
Definition eventProjects (evt : event) : list string :=
  let p := field m_project evt in
  let old := field m_oldProject evt in
  p :: (if bool_decide (v_type evt = EventJiraIssueKeyChanged /\ old <> "" /\ old <> p) then [old] else []).
Definition eventLinearTeams (evt : event) (m : meta) : list string :=
  let lt := m_linearTeam m in
  let old := m_oldLinearTeam m in
  (if bool_decide (lt = "") then [] else [lt]) ++
  (if bool_decide (v_type evt = EventLinearIssueIdentifierChanged /\ old <> "" /\ old <> lt) then [old] else []).

Definition teamTracksEventProject (evt : event) (g : string) : M verdict :=
  if bool_decide (field m_project evt = "") then ret Undecided
  else
    let! _ := readSettings in
    let! t := tracksAny (fun d => tracksJiraProject (conf d) g) (eventProjects evt) in ret (Decided t).

Definition teamTracksEventLinearTeam (evt : event) (g : string) : M verdict :=
  match v_meta evt with
  | None => ret Undecided
  | Some m =>
      if bool_decide (eventLinearTeams evt m = []) then ret (Decided false)
      else
        let! _ := readSettings in
        let! t := tracksAny (fun d => tracksLinearTeam (conf d) g) (eventLinearTeams evt m) in ret (Decided t)
  end.

Definition teamScopeVerdict (evt : event) (g : string) : M verdict :=
  if String.prefix "github:" (v_type evt) then teamTracksEventRepo evt g
  else if String.prefix "jira:" (v_type evt) then teamTracksEventProject evt g
  else if String.prefix "linear:" (v_type evt) then teamTracksEventLinearTeam evt g
  else ret NoGate.

Definition scopeFor (evt : event) (g : string) : M teamScope :=
  let! r := try (teamScopeVerdict evt g) in
  ret match r with Ok (Decided t) => MkScope t t | _ => MkScope true false end.

Definition teamScopeCached (evt : event) (g : string) (cache : teamScopeCache) : M (teamScope * teamScopeCache) :=
  match scopeRead (entryOf cache g) with
  | Some s => ret (s, cache)
  | None =>
      let! r := try (teamArchivedCached g cache) in
      match r with
      | Err _ => ret (MkScope true false, cache)
      | Ok (archived, cache) =>
          let! s := (if (archived : bool) then ret (MkScope false false) else scopeFor evt g) in
          ret (s, <[g := MkEntry (archivedRead (entryOf cache g)) (Some s)]> cache)
      end
  end.

Definition handlerScopeMatchesEvent (evt : event) (h : handler) (cache : teamScopeCache) : M (bool * teamScopeCache) :=
  if bool_decide (h_team h = "") then ret (true, cache)
  else let! (s, cache) := teamScopeCached evt (h_team h) cache in ret (open s, cache).

Definition liveTeam (g : string) (cache : teamScopeCache) : M (string * teamScopeCache) :=
  if bool_decide (g = "") then ret ("", cache)
  else let! (a, cache) := teamArchivedCached g cache in ret (if (a : bool) then "" else g, cache).

Fixpoint liveTeams (gs : list string) (cache : teamScopeCache) : M (list string * teamScopeCache) :=
  match gs with
  | [] => ret ([], cache)
  | g :: gs =>
      let! (t, cache) := liveTeam g cache in
      let! (ts, cache) := liveTeams gs cache in
      ret (if bool_decide (t = "") then ts else t :: ts, cache)
  end.

Fixpoint trackingTeams (evt : event) (gs : list string) (cache : teamScopeCache) : M (list string * teamScopeCache) :=
  match gs with
  | [] => ret ([], cache)
  | g :: gs =>
      let! (s, cache) := teamScopeCached evt g cache in
      let! (ts, cache) := trackingTeams evt gs cache in
      ret (if open s then g :: ts else ts, cache)
  end.

(** ** Identities *)

(** The teams of all the users, failing after the last when any lookup failed. *)
Fixpoint teamsOfUsers (us : list string) : M (gset string * bool) :=
  match us with
  | [] => ret (∅, false)
  | u :: us =>
      let! r := try (read (fun d => teamsOfUser (conf d) u)) in
      let! (ts, bad) := teamsOfUsers us in
      ret match r with Ok l => (list_to_set l ∪ ts, bad) | Err _ => (ts, true) end
  end.

Definition unionTeams (us : list string) : M (list string) :=
  let! (ts, bad) := teamsOfUsers us in if (bad : bool) then throw Fault else ret (sortedKeys ts).

Definition usersForGitHubAccount (id login : string) : M (list string) :=
  if bool_decide (id = "") then read (fun d => usersByGitHubLogin (conf d) login)
  else read (fun d => usersByGitHubID (conf d) id login).

Definition authorTeams (evt : event) : M (list string) :=
  let login := field m_author evt in
  let id := field m_authorID evt in
  if bool_decide (login = "" /\ id = "") then ret []
  else let! _ := readSettings in let! us := usersForGitHubAccount id login in unionTeams us.

Definition assigneeUsers (evt : event) : M (list string) :=
  if bool_decide (eventSourcePrefix (v_type evt) = "linear") then
    let a := field m_assigneeUser evt in
    if bool_decide (a = "") then ret [] else let! _ := readSettings in read (fun d => usersByLinear (conf d) a)
  else
    let a := field m_assigneeAccount evt in
    if bool_decide (a = "") then ret [] else let! _ := readSettings in read (fun d => usersByJira (conf d) a).

Definition assigneeTeams (evt : event) : M (list string) :=
  let! us := assigneeUsers evt in if bool_decide (us = []) then ret [] else unionTeams us.

(** ** The owner ladders *)

(** What a ladder answers: the owner, the teams it produced, and the cache. *)
Definition ladder : Type := string * list string * teamScopeCache.

Definition identityTier (evt : event) (gs : list string) (cache : teamScopeCache) : M ladder :=
  let! (ts, cache) := trackingTeams evt gs cache in
  ret match ts with [] => ("", [], cache) | [t] => (t, [t], cache) | _ => ("", ts, cache) end.

Definition authorCentricOwner (evt : event) (entityID : string) (cache : teamScopeCache) : M ladder :=
  let! t := read (fun d => default "" (e_owner <$> entities d !! entityID)) in
  let! (t, cache) := liveTeam t cache in
  if negb (bool_decide (t = "")) then ret (t, [t], cache)
  else
    let! t := read (OwnerTeamForLatestTaskInTypes entityID authorCentricGitHubEventTypes) in
    let! (t, cache) := liveTeam t cache in
    if negb (bool_decide (t = "")) then ret (t, [t], cache)
    else let! authored := authorTeams evt in identityTier evt authored cache.

Definition latestActiveOwnedTaskTeam (entityID : string) (types : list string) : M string :=
  let! active := read (FindActiveByEntity entityID) in
  ret (default "" (t_team <$> latest (filter (fun t => t_team t <> "" /\ t_type t ∈ types) active))).

Definition assigneeCentricOwner (evt : event) (entityID : string) (ownedTypes : list string) (cache : teamScopeCache) : M ladder :=
  let! t := read (fun d => default "" (e_owner <$> entities d !! entityID)) in
  let! (t, cache) := liveTeam t cache in
  if negb (bool_decide (t = "")) then ret (t, [t], cache)
  else
    let! t := latestActiveOwnedTaskTeam entityID ownedTypes in
    let! (t, cache) := liveTeam t cache in
    if negb (bool_decide (t = "")) then ret (t, [t], cache)
    else let! assigned := assigneeTeams evt in identityTier evt assigned cache.

(** ** Ranking *)

Definition LocalDefaultTeamID := "00000000-0000-0000-0000-000000000010".

Definition handlerTeamID (h : handler) : string := if bool_decide (h_team h = "") then LocalDefaultTeamID else h_team h.

Definition Qgt_bool (a b : Q) : bool := negb (Qle_bool a b).

(** The larger of [s] and the handler's priority. *)
Definition raise (s : Q) (h : handler) : Q :=
  match h_priority h with Some p => if Qgt_bool p s then p else s | None => s end.

Definition maxRuleDefaultPriority (rules : list handler) : Q := fold_left raise rules (1 # 2)%Q.

(** The score of one team: its best rule's priority, from one half up. *)
Definition teamScore (rules : list handler) (g : string) : Q :=
  maxRuleDefaultPriority (filter (fun h => handlerTeamID h = g) rules).

(** [teamRulePriorityScores]: one pass over the rules. *)
Definition teamRulePriorityScores (vis : gset string) (rules : list handler) : gmap string Q :=
  fold_left (fun m h => match m !! handlerTeamID h with Some s => <[handlerTeamID h := raise s h]> m | None => m end)
    rules (gset_to_gmap (1 # 2)%Q vis).

(** Higher score first, then the smaller id. *)
Definition ranks (scores : gmap string Q) (a b : string) : Prop :=
  let s g := default 0%Q (scores !! g) in
  if Qeq_bool (s a) (s b) then String.le a b else Qgt_bool (s a) (s b) = true.
#[export] Instance ranks_dec scores a b : Decision (ranks scores a b).
Proof. unfold ranks. destruct (Qeq_bool _ _); apply _. Defined.

Definition orderTeamsByScores (gs : list string) (scores : gmap string Q) : list string := merge_sort (ranks scores) gs.

Definition orderTeamsByRulePriority (vis : gset string) (rules : list handler) : list string :=
  orderTeamsByScores (sortedKeys vis) (teamRulePriorityScores vis rules).

Definition explicitWatchTeams (rules triggers : list handler) : gset string :=
  list_to_set (map handlerTeamID (filter (fun h => h_unowned h = true) (rules ++ triggers))).

(** ** Routing *)

Record eventRouting := MkRouting {
  ownerTeam : string; visibleTeams : list string; orderedTeams : list string; identityTeams : bool; taskPriority : Q;
  teamTriggers : string -> list handler
}.

Definition groupTriggers (triggers : list handler) (g : string) : list handler := filter (fun h => handlerTeamID h = g) triggers.

Definition ownerLadderRouting (owner : string) (ownerSet : list string) (rules triggers : list handler) : option eventRouting :=
  let watchTeams := explicitWatchTeams rules triggers in
  let vis := list_to_set ownerSet ∪ watchTeams in
  if bool_decide (vis = ∅) then None
  else
    let ordered :=
      if negb (bool_decide (owner = "")) then [owner]
      else if negb (bool_decide (ownerSet = [])) then orderTeamsByRulePriority (list_to_set ownerSet) rules
      else orderTeamsByRulePriority watchTeams rules in
    Some (MkRouting owner (sortedKeys vis) ordered (bool_decide (owner = "") && negb (bool_decide (ownerSet = [])))
      (maxRuleDefaultPriority rules) (groupTriggers triggers)).

(** [resolvePoolRouting]; the sort is in place, so the visible teams are listed in
    firing order too. *)
Definition resolvePoolRouting (rules triggers : list handler) : eventRouting :=
  let seen : gset string := list_to_set (map handlerTeamID (rules ++ triggers)) in
  let scores := teamRulePriorityScores seen rules in
  let ordered := orderTeamsByScores (sortedKeys seen) scores in
  let owner := default "" (head ordered) in
  MkRouting owner ordered ordered false (default 0%Q (scores !! owner)) (groupTriggers triggers).

Definition resolveOwnedRouting (evt : event) (entityID : string) (rules triggers : list handler) (cache : teamScopeCache) :
    M (option eventRouting) :=
  let! (owner, ownerSet, _) :=
    (if isAuthorCentricGitHubEvent (v_type evt) then authorCentricOwner evt entityID cache
     else if bool_decide (eventSourcePrefix (v_type evt) = "linear")
     then assigneeCentricOwner evt entityID assigneeCentricLinearEventTypes cache
     else assigneeCentricOwner evt entityID assigneeCentricJiraEventTypes cache) in
  ret (ownerLadderRouting owner ownerSet rules triggers).

(** [requestedParty]: the login, the team handle and the id. *)
Definition requestedParty (evt : event) : string * string * string :=
  if bool_decide (v_type evt = EventGitHubPRMentioned) then (field m_mentionedLogin evt, field m_mentionedTeam evt, "")
  else if negb (bool_decide (field m_requestedTeam evt = "")) then ("", field m_requestedTeam evt, field m_requestedTeamID evt)
  else (field m_requestedLogin evt, "", field m_requestedUserID evt).

(** [strings.Cut(s, "/")]. *)
Fixpoint cutSlash (s : string) : option (string * string) :=
  match s with
  | String c rest => if Ascii.eqb c "/" then Some ("", rest) else (fun '(a, b) => (String c a, b)) <$> cutSlash rest
  | EmptyString => None
  end.

(** [githubEventHost]: the event's, else the entity's, else the organization's own,
    written as the empty host. *)
Definition githubEventHost (evt : event) : M string :=
  if negb (bool_decide (field m_host evt = "")) then ret (field m_host evt)
  else
    let! fromEntity :=
      match v_entity evt with
      | Some id =>
          let! e := read (fun d => entities d !! id) in
          ret match e with Some e => if bool_decide (e_source e = "github") then e_scope e else "" | None => "" end
      | None => ret ""
      end in
    if negb (bool_decide (fromEntity = "")) then ret fromEntity else let! _ := readSettings in ret "".

(** [requestedPartyTeams]: [None] falls back to the handlers' teams. *)
Definition requestedPartyTeams (evt : event) : M (option (list string)) :=
  let '(login, handle, id) := requestedParty evt in
  if bool_decide (login = "" /\ handle = "") then ret None
  else if negb (bool_decide (handle = "")) then
    let '(org, slug) := default (handle, "") (cutSlash handle) in
    if bool_decide (id = "" /\ (cutSlash handle = None \/ org = "" \/ slug = "")) then ret (Some [])
    else
      let! host := githubEventHost evt in
      let! ts := read (fun d => teamsOfGitHubTeam (conf d) host id org slug) in
      ret (Some (sortedKeys (list_to_set ts)))
  else
    let! _ := readSettings in
    let! us := usersForGitHubAccount id login in
    let! ts := unionTeams us in ret (Some ts).

Definition resolveRequestedPartyRouting (evt : event) (rules triggers : list handler) (cache : teamScopeCache) :
    M (option eventRouting) :=
  let! req := requestedPartyTeams evt in
  match req with
  | None => ret (Some (resolvePoolRouting rules triggers))
  | Some gs =>
      let! (gs, _) := liveTeams gs cache in
      ret (if bool_decide (gs = []) then None
           else Some (MkRouting "" gs gs true (maxRuleDefaultPriority rules) (groupTriggers triggers)))
  end.

Definition resolveTeamRouting (evt : event) (entityID : string) (rules triggers : list handler) (cache : teamScopeCache) :
    M (option eventRouting) :=
  match OwnershipModelFor (v_type evt) with
  | OwnershipOwned => resolveOwnedRouting evt entityID rules triggers cache
  | OwnershipRequestedParty => resolveRequestedPartyRouting evt rules triggers cache
  | OwnershipPool | OwnershipUnrouted => ret (Some (resolvePoolRouting rules triggers))
  end.

(** ** Matching handlers *)

Section Match.

(** A handler's predicate on the event's current metadata; [None] is a predicate
    that does not decode. *)
Variable matchPredicate : handler -> event -> option bool.

Fixpoint matchEach (evt : event) (hs : list handler) (cache : teamScopeCache) :
    M (list handler * list handler * list handler * teamScopeCache) :=
  match hs with
  | [] => ret ([], [], [], cache)
  | h :: hs =>
      if bool_decide (matchPredicate h evt = Some true) then
        if bool_decide (h_kind h = HNotify) then
          let! (rs, ts, ns, cache) := matchEach evt hs cache in ret (rs, ts, h :: ns, cache)
        else
          let! (ok, cache) := handlerScopeMatchesEvent evt h cache in
          let! (rs, ts, ns, cache) := matchEach evt hs cache in
          ret (if (ok : bool) then
                 match h_kind h with HRule => (h :: rs, ts, ns, cache) | _ => (rs, h :: ts, ns, cache) end
               else (rs, ts, ns, cache))
      else matchEach evt hs cache
  end.

(** [matchHandlers]: the handler read, the read of the event's current view, then
    each handler in order. *)
Definition matchHandlers (evt : event) (cache : teamScopeCache) : M (list handler * list handler * list handler * teamScopeCache) :=
  let! hs := read (fun d => enabledHandlers (conf d) (v_type evt)) in
  let! _ := read (fun _ => tt) in
  matchEach evt hs cache.

End Match.

End RouteTeams.
