(* ===== verification/RouteWalk.v ===== *)
(** * Deciding and firing triggers

    Models the ranked walk of internal/routing/dispatch.go over the matched
    triggers ([walkTriggers], the deferral gate, conflicts) and the firing of one
    trigger in delegation.go: the preflight, the task gate, injection, the queue
    and the fenced run. *)

From S2P Require Import Prelude RouteEvents RouteDb RouteTeams.
Import RouteEvents RouteDb RouteTeams.
Local Open Scope string_scope.
Local Open Scope Z_scope.
Local Open Scope list_scope.

Module RouteWalk.

(** ** The deferral gate *)

Inductive triggerOutcome := FireNow | Skip | TUndecided.

Definition derefFloatDefault (p : option Q) (def : Q) : Q := default def p.
Definition derefIntDefault (p : option Z) (def : Z) : Z := default def p.

(** Whether the trigger waits on the task's score. *)
Definition deferredTrigger (h : handler) : bool := Qgt_bool (derefFloatDefault (h_suitability h) 0%Q) 0%Q.

(** The background model, once read: there is none, there is one, or the read
    failed. *)
Inductive modelRead := NotRead | ModelFailed | HasModel | HasNone.

Definition orgHasNoBackgroundModel : M bool := read (fun d => noModel (conf d)).

(** [outcome]: the decision, the error of the read this call made, and the gate. *)
Definition outcome (score : option Q) (g : modelRead) (h : handler) : M (triggerOutcome * option rerr * modelRead) :=
  if negb (deferredTrigger h) then ret (FireNow, None, g)
  else
    match score with
    | Some s => ret (if Qle_bool (derefFloatDefault (h_suitability h) 0%Q) s then FireNow else Skip, None, g)
    | None =>
        let decide g := match g with HasNone => Skip | _ => TUndecided end in
        match g with
        | NotRead =>
            let! r := try orgHasNoBackgroundModel in
            ret match r with
                | Err e => (TUndecided, Some e, ModelFailed)
                | Ok b => let g := if (b : bool) then HasNone else HasModel in (decide g, None, g)
                end
        | _ => ret (decide g, None, g)
        end
    end.

(** ** The walk *)

(** The team the bot acts for: the local default team stands for the task's own. *)
Definition effectiveActingTeam (g taskTeam : string) : string :=
  if bool_decide (g = "" \/ g = LocalDefaultTeamID) then taskTeam else g.

Definition autoDelegateEnabledForTeam (g : string) : M bool :=
  if bool_decide (g = "") then ret false
  else read (fun d => match teams d !! g with Some x => g_autoDelegate x | None => false end).

Record rankedWalk := MkWalk { winner : string; losers : list (string * string); heldBy : string }.

Section Walk.

(** What [commit] works on: the task it shares with the walk and its own notes. *)
Variable St : Type.
Variable taskOf : St -> task.
Variable commit : handler -> string -> St -> M (bool * St).

(** One team's pass over its triggers: the linked trigger and whether it fires
    now, whether one committed, whether one is undecided, and the state. *)
Record teamPass := MkPass {
  linked : string; linkedNow : bool; committed : bool; undecided : bool; gate : modelRead; errs : list rerr; st : St
}.

Definition tryTrigger (hasWinner : bool) (score : option Q) (acting : string) (p : teamPass) (h : handler) : M teamPass :=
  let! (o, e, g) := outcome score (gate p) h in
  let errs1 := errs p ++ (if hasWinner then [] else option_list e) in
  match o with
  | Skip => ret (MkPass (linked p) (linkedNow p) (committed p) (undecided p) g errs1 (st p))
  | TUndecided =>
      ret (MkPass (if bool_decide (linked p = "") then h_id h else linked p) (linkedNow p) (committed p) true g errs1 (st p))
  | FireNow =>
      let l := if linkedNow p then linked p else h_id h in
      let! r := try (commit h acting (st p)) in
      ret match r with
          | Err e => MkPass l true (committed p) (undecided p) g (errs1 ++ [e]) (st p)
          | Ok (ok, s) => MkPass l true (committed p || ok) (undecided p) g errs1 s
          end
  end.

Fixpoint tryTriggers (hasWinner : bool) (score : option Q) (acting : string) (hs : list handler) (p : teamPass) : M teamPass :=
  match hs with
  | [] => ret p
  | h :: hs => let! p := tryTrigger hasWinner score acting p h in tryTriggers hasWinner score acting hs p
  end.

(** Where the walk is: its decisions so far, whether it has reached the team a
    walk without a score held at, the gate, the errors and the state. *)
Record walkState := MkWS { walk : rankedWalk; reachedHold : bool; wgate : modelRead; werrs : list rerr; wst : St }.

(** One team; [true] when the walk holds there. *)
Definition walkTeam (score : option Q) (routing : eventRouting) (w : walkState) (g : string) : M (walkState * bool) :=
  let triggers := teamTriggers routing g in
  if bool_decide (triggers = []) then ret (w, false)
  else
    let acting := effectiveActingTeam g (t_team (taskOf (wst w))) in
    let! r := try (autoDelegateEnabledForTeam acting) in
    match r with
    | Err e => ret (MkWS (walk w) (reachedHold w) (wgate w) (werrs w ++ [e]) (wst w), false)
    | Ok false => ret (w, false)
    | Ok true =>
        if negb (reachedHold w) && negb (existsb deferredTrigger triggers) then ret (w, false)
        else
          let todo := if reachedHold w then triggers else filter (fun h => deferredTrigger h = true) triggers in
          let hasWinner := negb (bool_decide (winner (walk w) = "")) in
          let! p := tryTriggers hasWinner score acting todo (MkPass "" false false false (wgate w) (werrs w) (wst w)) in
          let next k := MkWS k true (gate p) (errs p) (st p) in
          let t := taskOf (st p) in
          ret (if committed p then
                 (next (MkWalk (if hasWinner then winner (walk w) else acting) (losers (walk w)) (heldBy (walk w))), false)
               else if hasWinner && negb (bool_decide (linked p = "")) then
                 (next (MkWalk (winner (walk w)) (losers (walk w) ++ [(acting, linked p)]) (heldBy (walk w))), false)
               else if undecided p && bool_decide (t_agent t = "" /\ t_user t = "") then
                 (next (MkWalk (winner (walk w)) (losers (walk w)) acting), true)
               else (next (walk w), false))
    end.

Fixpoint walkFrom (score : option Q) (routing : eventRouting) (gs : list string) (w : walkState) : M walkState :=
  match gs with
  | [] => ret w
  | g :: gs => let! (w, held) := walkTeam score routing w g in if (held : bool) then ret w else walkFrom score routing gs w
  end.

(** [walkTriggers]; the errors are joined by the caller. *)
Definition walkTriggers (routing : eventRouting) (fromHold : bool) (s : St) : M walkState :=
  walkFrom (t_score (taskOf s)) routing (orderedTeams routing) (MkWS (MkWalk "" [] "") (negb fromHold) NotRead [] s).

End Walk.

Arguments MkPass {_}. Arguments MkWS {_}.
Arguments walk {_}. Arguments werrs {_}. Arguments wst {_}. Arguments wgate {_}. Arguments reachedHold {_}.
Arguments linked {_}. Arguments linkedNow {_}. Arguments committed {_}. Arguments undecided {_}. Arguments gate {_}.
Arguments tryTrigger {_}. Arguments tryTriggers {_}. Arguments walkTeam {_}. Arguments walkFrom {_}. Arguments walkTriggers {_}.
Arguments errs {_}. Arguments st {_}.

(** The conflict a walk decided between one identity's teams. *)
Definition conflict (w : rankedWalk) (routing : eventRouting) : option (string * list (string * string)) :=
  if identityTeams routing && negb (bool_decide (winner w = "")) && negb (bool_decide (losers w = []))
  then Some (winner w, losers w) else None.

(** ** Firing one trigger *)

Inductive InjectOutcome := InjectNotDelivered | InjectDeliveredLocal | InjectDeliveredRemote | InjectStagedResumable.

Section Fire.

(** How the spawner hands an event to a live conversation. *)
Variable StageOrDeliver : rdb -> nat -> string -> InjectOutcome.

Definition breakerPromptID (blueprint : string) : M string :=
  if bool_decide (blueprint = "") then ret ""
  else let! r := try (read (fun d => firstPrompt (conf d) blueprint)) in ret match r with Ok p => p | Err _ => "" end.

(** [autoDelegatePreflight]: the agent to fire as, or [None] for a decided skip. *)
Definition autoDelegatePreflight (t : task) (h : handler) (acting : string) : M (option string) :=
  let! held := read (CloseDeferralForTask (t_id t)) in
  if negb (bool_decide (held = None)) then ret None
  else if bool_decide (t_agent t <> "" /\ acting <> "" /\ t_team t <> acting) then ret None
  else
    let! a := read (fun d => agent (conf d)) in
    match a with
    | None => ret None
    | Some a =>
        let g := if negb (bool_decide (acting = "")) then acting
                 else if negb (bool_decide (t_team t = "")) then t_team t else LocalDefaultTeamID in
        let! on := read (fun d => match teams d !! g with Some x => g_bot x | None => false end) in
        if negb on then ret None
        else
          let! prompt := breakerPromptID (h_blueprint h) in
          let! n := read (fun d => failures (conf d) (t_entity t) prompt) in
          ret (if derefIntDefault (h_breaker h) 0 <=? n then None else Some a)
    end.

(** [claimCommitted] on the shared task. *)
Definition claimCommitted (actingTeam agentID : string) (claimed : bool) (t : task) : task :=
  if claimed then setTeam (if bool_decide (actingTeam = "") then t_team t else actingTeam) (setClaim agentID "" t) else t.

(** [syncClaimAfterCommit]: the claim and the owner as stored, when they can be
    read. *)
Definition syncClaimAfterCommit (t : task) : M task :=
  let! r := try (read (GetTask (t_id t))) in
  ret match r with Ok (Some f) => setTeam (t_team f) (setClaim (t_agent f) (t_user f) t) | _ => t end.

Definition enqueueBusyFiring (t : task) (h : handler) (eventID acting agentID : string) : M (bool * task) :=
  let! (inserted, claimed) := call (Enqueue (t_id t) (h_id h) eventID (claimStamp agentID acting)) in
  ret (if (inserted : bool) then (true, claimCommitted acting agentID claimed t) else (false, t)).

(** [tryAdditiveInjection]: whether the live conversation has the event. *)
Definition tryAdditiveInjection (conversation : nat) (t : task) (eventID : string) (c : claim) : M (bool * task) :=
  let! _ := try (read (fun _ => tt)) in
  let! _ := try (read (fun _ => tt)) in
  let! r := try (read (fun d => StageOrDeliver d conversation eventID)) in
  match r with
  | Err _ | Ok InjectNotDelivered => ret (false, t)
  | Ok InjectDeliveredRemote =>
      if bool_decide (AgentID c = "") then ret (true, t)
      else
        let! r := try (call (fun d => let '(ok, d) := stampAgentClaim (t_id t) (AgentID c) (ActingTeamID c) d in (Ok ok, d))) in
        ret (true, match r with Ok ok => claimCommitted (ActingTeamID c) (AgentID c) ok t | Err _ => t end)
  | Ok _ =>
      let! r := try (call (MarkEventInjected (t_id t) eventID c)) in
      ret (true, match r with Ok ok => claimCommitted (ActingTeamID c) (AgentID c) ok t | Err _ => t end)
  end.

Definition fireDelegate (id : nat) (h : handler) (eventID actor : string) (c : claim) (ownerTeam : string) : M nat :=
  let! fresh := read (GetTask id) in
  match fresh with
  | None => throw ErrNoSuchTask
  | Some _ => call (CreateRunWithFirstStep id (h_id h) eventID actor c ownerTeam)
  end.

(** What the event-time walk shares with its commits: the task and the
    conversation that took the event, with how many triggers committed. *)
Record fireState := MkFire { fs_task : task; fs_injected : option nat; fs_fired : nat }.

Definition onTask (f : fireState) (t : task) : fireState := MkFire t (fs_injected f) (fs_fired f).

(** [tryAutoDelegateTrackingInjection]. *)
Definition tryAutoDelegate (eventID : string) (h : handler) (acting : string) (f : fireState) : M (bool * fireState) :=
  let t := fs_task f in
  let! p := autoDelegatePreflight t h acting in
  match p with
  | None => ret (false, f)
  | Some a =>
      let queue := let! (ok, t) := enqueueBusyFiring t h eventID acting a in ret (ok, onTask f t) in
      let! live := read (LiveConversationIDForTask (t_id t)) in
      match live with
      | Some c =>
          let! (took, t') := tryAdditiveInjection c t eventID (claimStamp a acting) in
          if (took : bool) then ret (false, MkFire t' (Some c) (fs_fired f)) else queue
      | None =>
          let! queued := read (HasUnsettledForTask (t_id t)) in
          if (queued : bool) then queue
          else
            let! r := try (fireDelegate (t_id t) h eventID a (claimStamp a acting) acting) in
            match r with
            | Ok _ => let! t := syncClaimAfterCommit t in ret (true, onTask f t)
            | Err ErrAlreadyFired | Err ErrTaskClosed | Err ErrTeamArchived => ret (false, f)
            | Err ErrTaskBusy => queue
            | Err e => throw e
            end
      end
  end.

(** The commit of [fireMatchedTriggers]. *)
Definition fireCommit (eventID : string) (h : handler) (acting : string) (f : fireState) : M (bool * fireState) :=
  let! (ok, f) := tryAutoDelegate eventID h acting f in
  ret (ok, if (ok : bool) then MkFire (fs_task f) (fs_injected f) (S (fs_fired f)) else f).

Definition fireMatchedTriggers (eventID : string) (t : task) (routing : eventRouting) : M (walkState fireState) :=
  walkTriggers fs_task (fireCommit eventID) routing false (MkFire t None 0).

End Fire.

End RouteWalk.
