(* ===== verification/RouteClose.v ===== *)
(** * Closing tasks on an event

    Models the close phase of internal/routing/close_relations.go and the settling
    of held closes in close_deferral.go.  Notifications are left out: they are
    raised and resolved beside the tasks and decide nothing about them.  The stop
    of a closed task's conversations and the teardown of its deliverables follow
    the commit and touch no table of the model. *)

From S2P Require Import Prelude RouteEvents RouteDb RouteTeams RouteWalk.
Import RouteEvents RouteDb RouteTeams RouteWalk.
Local Open Scope string_scope.
Local Open Scope Z_scope.
Local Open Scope list_scope.

Module RouteClose.

(** ** Gates and filters *)

Definition IsFailingConclusion (c : string) : bool := bool_decide (c ∈ ["failure"; "timed_out"; "cancelled"; "action_required"]).

Definition CIStatusFromCheckRuns (runs : list checkRun) : string :=
  let pending r := negb (bool_decide (k_status r = "completed")) in
  let failing r := negb (pending r) && IsFailingConclusion (k_conclusion r) in
  if existsb failing runs then "failure"
  else if existsb pending runs then "pending"
  else if bool_decide (runs = []) then "" else "success".

(** [closeContext]. *)
Inductive closeContext := NoContext | Keys (keys : list string) | NewTeams (gs : gset string).

Record closeTarget := MkTarget { ct_type : string; ct_key : string; ct_owner : string }.
Definition taskTarget (t : task) : closeTarget := MkTarget (t_type t) (t_key t) (t_team t).

(** [prSnapshotForEntity]: [None] for a missing entity or one whose stored text is
    not a pull request snapshot. *)
Definition prSnapshotForEntity (entityID : string) : M (option snapshot) :=
  let! e := read (fun d => entities d !! entityID) in ret (e ≫= e_snapshot).

Definition ReviewerDedupKeyUser (login : string) : string := ("user:" ++ login)%string.
Definition ReviewerDedupKeyTeam (handle : string) : string := ("team:" ++ handle)%string.
Definition ReviewerDedupKeyUserID (id : string) : string := ("user_id:" ++ id)%string.

Definition userReviewerKeys (login id : string) : list string :=
  (if bool_decide (id = "") then [] else [ReviewerDedupKeyUserID id]) ++
  (if bool_decide (login = "") then [] else [ReviewerDedupKeyUser login]).

(** The [prepare] hooks: [None] skips the relation. *)
Definition prepareCIPassed (entityID : string) : M (option closeContext) :=
  let! s := prSnapshotForEntity entityID in
  ret match s with
      | Some s => if bool_decide (CIStatusFromCheckRuns (s_checks s) ∈ ["failure"; "pending"]) then None else Some NoContext
      | None => None
      end.

Definition prepareConflictsResolved (entityID : string) : M (option closeContext) :=
  let! e := read (fun d => entities d !! entityID) in
  ret (if bool_decide (e ≫= e_mergeable = Some "MERGEABLE") then Some NoContext else None).

Definition prepareReviewerKey (evt : event) : M (option closeContext) :=
  let keys := userReviewerKeys (field m_reviewer evt) (field m_reviewerID evt) in
  ret (if bool_decide (keys = []) then None else Some (Keys keys)).

Definition prepareReviewResolved (evt : event) (entityID : string) : M (option closeContext) :=
  if bool_decide (field m_reviewer evt = "" /\ field m_reviewerID evt = "") then ret None
  else
    let! s := prSnapshotForEntity entityID in
    ret match s with
        | Some s => if bool_decide ("CHANGES_REQUESTED" ∈ s_reviews s) then None else Some NoContext
        | None => None
        end.

Definition prepareRemovedReviewerKeys (evt : event) : M (option closeContext) :=
  ret (Some (if bool_decide (v_key evt = "") then NoContext
    else Keys (v_key evt ::
      (if negb (bool_decide (field m_requestedLogin evt = "")) then [ReviewerDedupKeyUser (field m_requestedLogin evt)]
       else if negb (bool_decide (field m_requestedTeam evt = "")) then [ReviewerDedupKeyTeam (field m_requestedTeam evt)] else [])))).

(** [prepareJiraReassign] and [prepareLinearReassign]. *)
Definition prepareReassign (evt : event) : M (option closeContext) :=
  match v_meta evt with
  | None => ret None
  | Some _ => let! ts := assigneeTeams evt in ret (Some (NewTeams (list_to_set ts)))
  end.

Definition runPrepare (p : prepareHook) (evt : event) (entityID : string) : M (option closeContext) :=
  match p with
  | NoPrepare => ret (Some NoContext)
  | PrepareCIPassed => prepareCIPassed entityID
  | PrepareConflictsResolved => prepareConflictsResolved entityID
  | PrepareReviewerKey => prepareReviewerKey evt
  | PrepareReviewResolved => prepareReviewResolved evt entityID
  | PrepareRemovedReviewerKeys => prepareRemovedReviewerKeys evt
  | PrepareReassign => prepareReassign evt
  end.

(** The [keep] hooks: whether the target closes. *)
Definition keepDedupKey (c : closeContext) (t : closeTarget) : bool :=
  match c with Keys ks => bool_decide (ct_key t ∈ ks) | _ => false end.

Definition keepReviewRequestRemoved (evt : event) (c : closeContext) (t : closeTarget) : bool :=
  bool_decide (v_key evt = "") || keepDedupKey c t.

Definition keepReassign (poolType : string) (c : closeContext) (t : closeTarget) : bool :=
  bool_decide (ct_type t = poolType) ||
  negb (match c with NewTeams gs => bool_decide (ct_owner t <> "" /\ ct_owner t ∈ gs) | _ => false end).

Definition runKeep (k : keepHook) (evt : event) (c : closeContext) (t : closeTarget) : bool :=
  match k with
  | NoKeep => true
  | KeepDedupKey => keepDedupKey c t
  | KeepReviewRequestRemoved => keepReviewRequestRemoved evt c t
  | KeepReassign pool => keepReassign pool c t
  end.

(** ** Typed closes *)

(** The targets of the types, with whether a list could not be read. *)
Fixpoint closeTargets (entityID : string) (types : list string) : M (list task * list rerr) :=
  match types with
  | [] => ret ([], [])
  | et :: types =>
      let! r := try (read (FindActiveByEntityAndType entityID et)) in
      let! (ts, es) := closeTargets entityID types in
      ret match r with Ok l => (l ++ ts, es) | Err e => (ts, e :: es) end
  end.

(** One target: a task of the event's own type closes at once, any other is held
    while it is worked on. *)
Definition closeOne (evt : event) (reason : string) (t : task) : M bool :=
  if bool_decide (t_type t = v_type evt) then
    let! (closed, _) := call (CloseWithConversationCancelIntent (t_id t) reason (v_type evt) (v_id evt)) in ret closed
  else
    let! o := call (CloseOrHold (t_id t) reason (v_type evt) (v_id evt)) in
    ret match o with Closed _ => true | _ => false end.

Fixpoint closeAll (evt : event) (rel : closeRelation) (c : closeContext) (ts : list task) : M (bool * list rerr) :=
  match ts with
  | [] => ret (false, [])
  | t :: ts =>
      if runKeep (keep rel) evt c (taskTarget t) then
        let! r := try (closeOne evt (relReason rel) t) in
        let! (any, es) := closeAll evt rel c ts in
        ret match r with Ok b => (b || any, es) | Err e => (any, e :: es) end
      else closeAll evt rel c ts
  end.

Definition runRelation (evt : event) (entityID : string) (rel : closeRelation) : M (bool * list rerr) :=
  let! (ts, es) := closeTargets entityID (closes rel) in
  if bool_decide (ts = []) then ret (false, es)
  else
    let! r := try (runPrepare (prepare rel) evt entityID) in
    match r with
    | Err e => ret (false, es ++ [e])
    | Ok None => ret (false, es)
    | Ok (Some c) => let! (any, es') := closeAll evt rel c ts in ret (any, es ++ es')
    end.

Fixpoint runRelations (evt : event) (entityID : string) (rels : list closeRelation) : M (bool * list rerr) :=
  match rels with
  | [] => ret (false, [])
  | rel :: rels =>
      let! (a, es) := runRelation evt entityID rel in
      let! (b, es') := runRelations evt entityID rels in ret (a || b, es ++ es')
  end.

(** [runCloses]: the error joins every failure. *)
Definition runCloses (evt : event) (entityID : string) : M (bool * list rerr) :=
  runRelations evt entityID (typedRelationsFor (v_type evt)).

(** [runTerminatingClose]: whether the entity was closed. *)
Definition runTerminatingClose (evt : event) (entityID : string) (rel : closeRelation) (judgedAt : option Z) : M bool :=
  let! r := call (CloseTerminal entityID judgedAt (closes rel) (relReason rel) (v_type evt) (v_id evt)) in
  ret match r with Some _ => true | None => false end.

(** ** Held closes *)

Section Held.

(** The stored event of an id. *)
Variable GetEvent : rdb -> string -> option event.

(** [deferredCloseReason]: the reason of the relation that still admits the
    close. *)
Fixpoint typedReason (evt : event) (t : task) (rels : list closeRelation) : M (option string) :=
  match rels with
  | [] => ret None
  | rel :: rels =>
      if bool_decide (t_type t ∈ closes rel) then
        let! c := runPrepare (prepare rel) evt (t_entity t) in
        match c with
        | Some c => if runKeep (keep rel) evt c (taskTarget t) then ret (Some (relReason rel)) else typedReason evt t rels
        | None => typedReason evt t rels
        end
      else typedReason evt t rels
  end.

Definition deferredCloseReason (evt : event) (t : task) : M (option string) :=
  match terminatingRelationFor (v_type evt) with
  | Some rel =>
      let! e := read (fun d => entities d !! t_entity t) in
      ret match e with Some e => if e_active e then None else Some (relReason rel) | None => None end
  | None => typedReason evt t (typedRelationsFor (v_type evt))
  end.

(** [readHeldClose]: the event with the reason, [None] for a task that is no
    longer active. *)
Definition readHeldClose (id : nat) (eventID : string) : M (option (event * option string)) :=
  let! evt := read (fun d => GetEvent d eventID) in
  match evt with
  | None => throw Fault
  | Some evt =>
      let! t := read (GetTask id) in
      match t with
      | Some t => if isActive t then let! r := deferredCloseReason evt t in ret (Some (evt, r)) else ret None
      | None => ret None
      end
  end.

(** [settleCloseDeferral] of the close of [eventID] held on the task. *)
Definition settleCloseDeferral (id : nat) (eventID : string) : M bool :=
  let! h := readHeldClose id eventID in
  match h with
  | None => ret false
  | Some (evt, None) => let! _ := call (ClearCloseDeferral id eventID) in ret false
  | Some (evt, Some reason) =>
      let! o := call (ApplyHeldClose id eventID reason (v_type evt)) in
      ret match o with Closed _ => true | _ => false end
  end.

(** [ListActiveCloseDeferralsSystem]: held closes of active tasks nothing holds. *)
Definition ListActiveCloseDeferrals (d : rdb) : list (nat * string) :=
  omap (fun t => match t_held t with
                 | Some e => if isActive t && bool_decide (workingOf (t_id t) d = []) && negb (awaitingPerson (t_id t) d)
                             then Some (t_id t, e) else None
                 | None => None
                 end) (tasks d).

Fixpoint settleEach (l : list (nat * string)) : M unit :=
  match l with
  | [] => ret tt
  | (id, e) :: l => let! _ := try (settleCloseDeferral id e) in settleEach l
  end.

(** The settling half of [sweepCloseDeferrals]. *)
Definition sweepCloseDeferrals : M unit :=
  let! r := try (read ListActiveCloseDeferrals) in
  match r with Ok l => settleEach l | Err _ => ret tt end.

End Held.

End RouteClose.
