(* ===== verification/RouteEvent.v ===== *)
(** * Routing one event

    Models [routeEvent] of internal/routing/dispatch.go with the task upsert, the
    post-scoring evaluation of rederive.go, and what the queue workers do with one
    unit (queue_worker.go, firing_worker.go).  Spans, logs, broadcasts, the scorer's
    nudge and notifications are left out. *)

From S2P Require Import Prelude RouteEvents RouteDb RouteTeams RouteWalk RouteClose.
Import RouteEvents RouteDb RouteTeams RouteWalk RouteClose.
Local Open Scope string_scope.
Local Open Scope Z_scope.
Local Open Scope list_scope.

Module RouteEvent.

Inductive Disposition :=
| DispositionFrozen | DispositionError | DispositionSourceDisabled | DispositionTasklessUnroutable | DispositionStaleTerminal
| DispositionEntityCloseOwed | DispositionTasklessNoHandler | DispositionTasklessNoOwner
| DispositionTaskCreated | DispositionTaskBumped.

#[export] Instance Disposition_eq_dec : EqDecision Disposition.
Proof. solve_decision. Defined.

(** How routing ended: the error, if any, what was published, the task, and what
    the triggers did. *)
Record routed := MkRouted { r_err : list rerr; r_disp : Disposition; r_taskID : option nat; r_fired : nat; r_injected : option nat }.

Definition consumed (r : routed) : bool := bool_decide (r_err r = []).

Definition stopWith (disp : Disposition) : M routed := ret (MkRouted [] disp None 0 None).
Definition failWith (es : list rerr) : M routed := ret (MkRouted es DispositionError None 0 None).

(** Go's [if err != nil] around a stage: the error ends the routing of the event. *)
Definition stage {A} (m : M A) (k : A -> M routed) : M routed :=
  let! r := try m in match r with Ok a => k a | Err e => failWith [e] end.

Notation "'stage!' x ':=' m 'in' k" := (stage m (fun x => k))
  (at level 10, x pattern, m at level 100, k at level 200) : tf_scope.

Section Route.

Variable matchPredicate : handler -> event -> option bool.
Variable StageOrDeliver : rdb -> nat -> string -> InjectOutcome.

(** [routableEntity]: the active entity the event is about. *)
Definition routableEntity (evt : event) : M (option string) :=
  match v_entity evt with
  | None => ret None
  | Some id =>
      let! e := read (fun d => entities d !! id) in
      ret match e with Some e => if e_active e then Some id else None | None => None end
  end.

Definition isBecameAtomic (et : string) : bool := bool_decide (et = EventJiraIssueBecameAtomic \/ et = EventLinearIssueBecameAtomic).

(** [upsertTaskForEvent] at [now]: the task and whether it was created, [None] when
    a became-atomic event found a task already active on the entity.  The writes
    after the mint are best effort. *)
Definition upsertTaskForEvent (now : Z) (evt : event) (entityID : string) (routing : eventRouting) : M (option (task * bool)) :=
  let createdAt := default now (v_at evt) in
  let! r :=
    (if isBecameAtomic (v_type evt)
     then call (FindOrCreateAtUnlessEntityActive (ownerTeam routing) entityID (v_type evt) (v_key evt) (v_id evt) (taskPriority routing) createdAt)
     else let! r := call (FindOrCreateAt (ownerTeam routing) entityID (v_type evt) (v_key evt) (v_id evt) (taskPriority routing) createdAt) in
          ret (Some r)) in
  match r with
  | None => ret None
  | Some (t, created) =>
      let! _ := try (call (SetVisibilityTeams (t_id t) (visibleTeams routing))) in
      let! _ :=
        (if (created : bool) then try (call (RecordEvent (t_id t) (v_id evt) "spawned"))
         else let! _ := try (call (Bump (t_id t))) in try (call (RecordEvent (t_id t) (v_id evt) "bumped"))) in
      ret (Some (t, created))
  end.

(** The close phase: [true] when routing goes on, else the disposition the event
    is consumed with. *)
Definition closePhase (evt : event) (entityID : string) (judgedAt : option Z) : M (list rerr * option Disposition) :=
  match terminatingRelationFor (v_type evt) with
  | Some rel =>
      let! closed := runTerminatingClose evt entityID rel judgedAt in
      ret ([], if negb closed then Some DispositionStaleTerminal
               else if bool_decide (v_type evt = EventSystemEntityCloseOwed) then Some DispositionEntityCloseOwed else None)
  | None => let! (_, es) := runCloses evt entityID in ret (es, None)
  end.

(** From the handlers on. *)
Definition routeMatched (now : Z) (evt : event) (entityID : string) : M routed :=
  stage! (rules, triggers, _, cache) := matchHandlers matchPredicate evt ∅ in
  if bool_decide (rules = [] /\ triggers = []) then stopWith DispositionTasklessNoHandler
  else
    stage! routing := resolveTeamRouting evt entityID rules triggers cache in
    match routing with
    | None => stopWith DispositionTasklessNoOwner
    | Some routing =>
        let! r := try (upsertTaskForEvent now evt entityID routing) in
        match r with
        | Err ErrEntityClosed => stopWith DispositionTasklessUnroutable
        | Err e => failWith [e]
        | Ok None => stopWith DispositionTasklessUnroutable
        | Ok (Some (t, created)) =>
            let disp := if (created : bool) then DispositionTaskCreated else DispositionTaskBumped in
            let! w := fireMatchedTriggers StageOrDeliver (v_id evt) t routing in
            ret (MkRouted (werrs w) disp (Some (t_id t)) (fs_fired (wst w)) (fs_injected (wst w)))
        end
    end.

(** [routeEvent] of a stored event; [judgedAt] is the entity's version the event
    was judged at. *)
Definition routeEvent (now : Z) (evt : event) (judgedAt : option Z) : M routed :=
  if bool_decide (v_org evt = "") then failWith [NoOrg]
  else
    let! allowed := peek (fun d => eventAllowed (conf d) (v_type evt)) in
    if negb allowed then stopWith DispositionFrozen
    else
      stage! paused := read (fun d => sourceDisabled (conf d) (eventSourcePrefix (v_type evt))) in
      if (paused : bool) then stopWith DispositionSourceDisabled
      else
        stage! entityID := routableEntity evt in
        match entityID with
        | None => stopWith DispositionTasklessUnroutable
        | Some entityID =>
            stage! (es, stop) := closePhase evt entityID judgedAt in
            if negb (bool_decide (es = [])) then failWith es
            else match stop with Some disp => stopWith disp | None => routeMatched now evt entityID end
        end.

(** ** The queue worker's unit *)

(** What [processQueuedEvent] writes for its row once the lease is renewed. *)
Inductive unitEnd := MarkDone | RequeueTransient | RequeuePermanent.

Variable GetEvent : rdb -> string -> option event.

Definition processQueuedEvent (now : Z) (eventID : string) (judgedAt : option Z) : M unitEnd :=
  let! r := try (read (fun d => GetEvent d eventID)) in
  match r with
  | Err _ => ret RequeueTransient
  | Ok None => ret RequeuePermanent
  | Ok (Some evt) =>
      let! r := routeEvent now evt judgedAt in
      ret (if consumed r then MarkDone else RequeueTransient)
  end.

(** ** The post-scoring evaluation *)

Record reDeriveFiring := MkRD { rd_trigger : handler; rd_team : string; rd_agent : string }.

(** What the walk of [evaluateReDerive] shares with its commits: the task as read
    and the firings planned. *)
Record planState := MkPlan { p_task : task; p_firings : list reDeriveFiring }.

Definition planCommit (h : handler) (acting : string) (s : planState) : M (bool * planState) :=
  let! p := autoDelegatePreflight (p_task s) h acting in
  match p with
  | None => ret (false, s)
  | Some a =>
      let t :=
        if bool_decide (a = "") then p_task s
        else setTeam (if bool_decide (acting = "") then t_team (p_task s) else acting) (setClaim a (t_user (p_task s)) (p_task s)) in
      ret (true, MkPlan t (p_firings s ++ [MkRD h acting a]))
  end.

(** [evaluateReDerive]: the task as read and its firings, with the error that asks
    for a retry. *)
Definition evaluateReDerive (id : nat) : M (option task * list reDeriveFiring) :=
  let! t := read (GetTask id) in
  match t with
  | None => ret (None, [])
  | Some t =>
      let! allowed := peek (fun d => eventAllowed (conf d) (t_type t)) in
      if negb allowed || negb (bool_decide (t_status t = Queued)) || negb (bool_decide (t_agent t = "" /\ t_user t = "")) ||
         bool_decide (t_score t = None) then ret (Some t, [])
      else
        let! evt := read (fun d => GetEvent d (t_primary t)) in
        match evt with
        | None => ret (Some t, [])
        | Some evt =>
            let! (rules, triggers, _, cache) := matchHandlers matchPredicate evt ∅ in
            if negb (existsb deferredTrigger triggers) then ret (Some t, [])
            else
              let! routing := resolveTeamRouting evt (t_entity t) rules triggers cache in
              match routing with
              | None => ret (Some t, [])
              | Some routing =>
                  let! w := walkTriggers p_task planCommit routing true (MkPlan t []) in
                  match werrs w with [] => ret (Some t, p_firings (wst w)) | e :: _ => throw e end
              end
        end
  end.

(** The completion's transaction: every planned firing admitted, in order. *)
Fixpoint admitFirings (t : task) (fs : list reDeriveFiring) (d : rdb) : res rerr unit * rdb :=
  match fs with
  | [] => (Ok tt, d)
  | f :: fs =>
      match Enqueue (t_id t) (h_id (rd_trigger f)) (t_primary t) (claimStamp (rd_agent f) (rd_team f)) d with
      | (Ok _, d) => admitFirings t fs d
      | (Err e, d) => (Err e, d)
      end
  end.

Inductive reDeriveEnd := ReDeriveDone | ReDeriveAgain.

(** [processReDerive] once the lease is renewed.  A completion that is refused, for
    a newer score, a lost lease or a failure, lands nothing and leaves the row to
    be evaluated again. *)
Definition processReDerive (id : nat) : M reDeriveEnd :=
  let! r := try (evaluateReDerive id) in
  match r with
  | Err _ => ret ReDeriveAgain
  | Ok (t, fs) =>
      let! r := try (call (match t with Some t => admitFirings t fs | None => fun d => (Ok tt, d) end)) in
      ret match r with Ok _ => ReDeriveDone | Err _ => ReDeriveAgain end
  end.

(** ** The firing worker's unit *)

Variable GetTrigger : rdb -> string -> option (handler * bool).

Inductive firingEnd := MarkFired (r : nat) | MarkSkipped | FiringRequeue | FiringDefer.

(** [processFiring] once the lease is renewed. *)
Definition processFiring (f : firing) : M firingEnd :=
  let stop {A} (m : M A) (k : A -> M firingEnd) : M firingEnd :=
    let! r := try m in match r with Ok a => k a | Err _ => ret FiringRequeue end in
  stop (read (GetTask (f_task f))) (fun t =>
    match t with
    | None => ret MarkSkipped
    | Some t =>
        if negb (isActive t) || bool_decide (t_status t = Snoozed) then ret MarkSkipped
        else
          stop (read (CloseDeferralForTask (f_task f))) (fun held =>
            if negb (bool_decide (held = None)) then ret MarkSkipped
            else if bool_decide (t_agent t = "") then ret MarkSkipped
            else
              stop (read (fun d => GetTrigger d (f_trigger f))) (fun g =>
                match g with
                | Some (h, true) =>
                    let archived := if bool_decide (h_team h = "") then ret false else read (teamArchived (h_team h)) in
                    stop archived (fun a =>
                      if (a : bool) then ret MarkSkipped
                      else
                        let! prompt := breakerPromptID (h_blueprint h) in
                        stop (read (fun d => failures (conf d) (t_entity t) prompt)) (fun n =>
                          if derefIntDefault (h_breaker h) 0 <=? n then ret MarkSkipped
                          else
                            let! r := try (fireDelegate (f_task f) h (f_event f) (t_agent t) (MkClaim "" "") "") in
                            ret match r with
                                | Ok n => MarkFired n
                                | Err ErrAlreadyFired | Err ErrTaskClosed | Err ErrTeamArchived => MarkSkipped
                                | Err ErrTaskBusy => FiringDefer
                                | Err _ => FiringRequeue
                                end))
                | _ => ret MarkSkipped
                end))
    end).

End Route.

End RouteEvent.
