(* ===== verification/RouteInv.v ===== *)
(** * What routing keeps

    A predicate of the tables that every store call and every move of the other
    processes preserves is preserved by the router's programs, whatever fails
    ([keeps]).  The tables' own invariant: one open task per situation, one run per
    event and trigger, one running run per task, one queued firing per task and
    trigger, and at most one claim on a task. *)

From S2P Require Import Prelude RouteEvents RouteDb RouteTeams RouteWalk RouteClose RouteEvent.
Import RouteEvents RouteDb RouteTeams RouteWalk RouteClose RouteEvent.
Local Open Scope string_scope.
Local Open Scope Z_scope.
Local Open Scope list_scope.

Module RouteInv.

(** ** Preservation *)

(** The predicate holds, and the moves to come keep it. *)
Definition safe (I : rdb -> Prop) (w : world) : Prop :=
  I (db w) /\ Forall (fun t => forall d, I d -> I (meanwhile t d)) (script w).

Definition keeps (I : rdb -> Prop) {A} (m : M A) : Prop := forall w, safe I w -> safe I (m w).2.

(** A transaction that keeps the predicate when it commits. *)
Definition txKeeps (I : rdb -> Prop) {A} (tx : rdb -> res rerr A * rdb) : Prop :=
  forall d a d', I d -> tx d = (Ok a, d') -> I d'.

Create HintDb keep.

Section Keeps.

Context (I : rdb -> Prop).

Lemma keeps_ret {A} (a : A) : keeps I (ret a).
Proof. by intros w. Qed.

Lemma keeps_throw {A} e : keeps I (throw (A := A) e).
Proof. by intros w. Qed.

Lemma keeps_peek {A} (f : rdb -> A) : keeps I (peek f).
Proof. by intros w. Qed.

Lemma keeps_bind {A B} (m : M A) (k : A -> M B) : keeps I m -> (forall a, keeps I (k a)) -> keeps I (bind m k).
Proof.
  intros Hm Hk w Hw. unfold bind. specialize (Hm w Hw). destruct (m w) as [[a|e] w1]; [by apply Hk|done].
Qed.

Lemma keeps_try {A} (m : M A) : keeps I m -> keeps I (try m).
Proof. intros Hm w Hw. unfold try. specialize (Hm w Hw). by destruct (m w). Qed.

Lemma keeps_call {A} (tx : rdb -> res rerr A * rdb) : txKeeps I tx -> keeps I (call tx).
Proof.
  intros Ht [d s] [Hd Hs]. unfold call. cbn in *. destruct s as [|t ts].
  - destruct (tx d) as [[a|e] d'] eqn:E; [|done]. split; [by eapply Ht|done].
  - apply Forall_cons in Hs as [Hm Hs]. specialize (Hm d Hd). destruct (RouteDb.outcome t); [| done |];
      destruct (tx (meanwhile t d)) as [[a|e] d'] eqn:E; by split; try done; eapply Ht.
Qed.

Lemma keeps_read {A} (f : rdb -> A) : keeps I (read f).
Proof. apply keeps_call. by intros d a d' Hd [= _ <-]. Qed.

Lemma keeps_if {A} (b : bool) (m n : M A) : keeps I m -> keeps I n -> keeps I (if b then m else n).
Proof. by destruct b. Qed.

Lemma keeps_stage {A} (m : M A) k : keeps I m -> (forall a, keeps I (k a)) -> keeps I (stage m k).
Proof. intros Hm Hk. unfold stage. apply keeps_bind; [by apply keeps_try|]. intros [a|e]; [apply Hk|apply keeps_ret]. Qed.

End Keeps.

(** Follows a program's shape, leaving its transactions. *)
Ltac kp :=
  repeat first
    [ apply keeps_ret | apply keeps_throw | apply keeps_peek | apply keeps_read | assumption
    | solve [auto with keep nocore]
    | apply keeps_stage; [|intros ?] | apply keeps_bind; [|intros ?] | apply keeps_try
    | match goal with
      | |- keeps _ (if ?b then _ else _) => destruct b
      | |- keeps _ (match ?x with _ => _ end) => destruct x
      end
    | progress cbn beta zeta ].

(** ** Programs that only read *)

Section Reads.

Context (I : rdb -> Prop).

Lemma teamArchivedCached_keeps g c : keeps I (teamArchivedCached g c).
Proof. unfold teamArchivedCached. kp. Qed.

Lemma tracksAny_keeps f ids : keeps I (tracksAny f ids).
Proof. induction ids; cbn [tracksAny]; kp. Qed.
Hint Resolve teamArchivedCached_keeps tracksAny_keeps : keep.

Lemma teamScopeVerdict_keeps evt g : keeps I (teamScopeVerdict evt g).
Proof. unfold teamScopeVerdict, teamTracksEventRepo, teamTracksEventProject, teamTracksEventLinearTeam, readSettings. kp. Qed.
Hint Resolve teamScopeVerdict_keeps : keep.

Lemma teamScopeCached_keeps evt g c : keeps I (teamScopeCached evt g c).
Proof. unfold teamScopeCached, scopeFor. kp. Qed.

Lemma liveTeam_keeps g c : keeps I (liveTeam g c).
Proof. unfold liveTeam. kp. Qed.
Hint Resolve teamScopeCached_keeps liveTeam_keeps : keep.

Lemma liveTeams_keeps gs c : keeps I (liveTeams gs c).
Proof. revert c. induction gs; intros c; cbn [liveTeams]; kp. Qed.

Lemma trackingTeams_keeps evt gs c : keeps I (trackingTeams evt gs c).
Proof. revert c. induction gs; intros c; cbn [trackingTeams]; kp. Qed.

Lemma teamsOfUsers_keeps us : keeps I (teamsOfUsers us).
Proof. induction us; cbn [teamsOfUsers]; kp. Qed.
Hint Resolve liveTeams_keeps trackingTeams_keeps teamsOfUsers_keeps : keep.

Lemma unionTeams_keeps us : keeps I (unionTeams us).
Proof. unfold unionTeams. kp. Qed.
Hint Resolve unionTeams_keeps : keep.

Lemma authorTeams_keeps evt : keeps I (authorTeams evt).
Proof. unfold authorTeams, usersForGitHubAccount, readSettings. kp. Qed.

Lemma assigneeTeams_keeps evt : keeps I (assigneeTeams evt).
Proof. unfold assigneeTeams, assigneeUsers, readSettings. kp. Qed.
Hint Resolve authorTeams_keeps assigneeTeams_keeps : keep.

Lemma authorCentricOwner_keeps evt e c : keeps I (authorCentricOwner evt e c).
Proof. unfold authorCentricOwner, identityTier. kp. Qed.

Lemma assigneeCentricOwner_keeps evt e ts c : keeps I (assigneeCentricOwner evt e ts c).
Proof. unfold assigneeCentricOwner, latestActiveOwnedTaskTeam, identityTier. kp. Qed.
Hint Resolve authorCentricOwner_keeps assigneeCentricOwner_keeps : keep.

Lemma resolveTeamRouting_keeps evt e rs ts c : keeps I (resolveTeamRouting evt e rs ts c).
Proof.
  unfold resolveTeamRouting, resolveOwnedRouting, resolveRequestedPartyRouting, requestedPartyTeams, githubEventHost,
    usersForGitHubAccount, readSettings. kp.
Qed.

Lemma matchHandlers_keeps mp evt c : keeps I (matchHandlers mp evt c).
Proof.
  unfold matchHandlers. kp. clear. revert c. induction a as [|h hs IH]; intros c; cbn [matchEach]; [kp|].
  unfold handlerScopeMatchesEvent. kp.
Qed.

Lemma autoDelegatePreflight_keeps t h g : keeps I (autoDelegatePreflight t h g).
Proof. unfold autoDelegatePreflight, breakerPromptID. kp. Qed.

Lemma runPrepare_keeps p evt e : keeps I (runPrepare p evt e).
Proof. unfold runPrepare, prepareCIPassed, prepareConflictsResolved, prepareReviewerKey, prepareReviewResolved, prepareRemovedReviewerKeys,
    prepareReassign, prSnapshotForEntity. kp. Qed.

(** ** The walk *)

Section WalkKeeps.
Context {St : Type} (taskOf : St -> task) (commit : handler -> string -> St -> M (bool * St)).
Hypothesis Hc : forall h g s, keeps I (commit h g s).

Lemma tryTriggers_keeps hw sc g hs p : keeps I (tryTriggers commit hw sc g hs p).
Proof.
  revert p. induction hs as [|h hs IH]; intros p; cbn [tryTriggers]; kp.
  unfold tryTrigger, RouteWalk.outcome, orgHasNoBackgroundModel. kp.
Qed.

Lemma walkTriggers_keeps r b s : keeps I (walkTriggers taskOf commit r b s).
Proof.
  unfold walkTriggers. generalize (MkWS (MkWalk "" [] "") (negb b) NotRead [] s). generalize (t_score (taskOf s)).
  intros sc. induction (orderedTeams r) as [|g gs IH]; intros w; cbn [walkFrom]; kp.
  unfold walkTeam, autoDelegateEnabledForTeam. kp. apply tryTriggers_keeps.
Qed.
End WalkKeeps.

End Reads.

#[export] Hint Resolve resolveTeamRouting_keeps matchHandlers_keeps autoDelegatePreflight_keeps runPrepare_keeps assigneeTeams_keeps : keep.

(** ** Programs that write *)

(** The predicate is kept by every transaction the router makes. *)
Class Routed (I : rdb -> Prop) := {
  keep_mint : forall g e et k p q c, txKeeps I (FindOrCreateAt g e et k p q c);
  keep_visible : forall i gs, txKeeps I (SetVisibilityTeams i gs);
  keep_record : forall i e k, txKeeps I (RecordEvent i e k);
  keep_bump : forall i, txKeeps I (Bump i);
  keep_stamp : forall i a g, txKeeps I (fun d => let '(ok, d) := stampAgentClaim i a g d in (Ok ok, d));
  keep_injected : forall i e c, txKeeps I (MarkEventInjected i e c);
  keep_close : forall i r et e, txKeeps I (CloseWithConversationCancelIntent i r et e);
  keep_hold : forall i r et e, txKeeps I (CloseOrHold i r et e);
  keep_apply : forall i e r et, txKeeps I (ApplyHeldClose i e r et);
  keep_clear : forall i e, txKeeps I (ClearCloseDeferral i e);
  keep_terminal : forall e v ts r et i, txKeeps I (CloseTerminal e v ts r et i);
  keep_run : forall i h e a c g, txKeeps I (CreateRunWithFirstStep i h e a c g);
  keep_enqueue : forall i h e c, txKeeps I (Enqueue i h e c)
}.

Section Writes.

Context (I : rdb -> Prop) `{HI : !Routed I}.

Hint Resolve keep_mint keep_visible keep_record keep_bump keep_stamp keep_injected keep_close keep_hold keep_apply keep_clear
  keep_terminal keep_run keep_enqueue : keep.

Lemma keep_mint_unless g e et k p q c : txKeeps I (FindOrCreateAtUnlessEntityActive g e et k p q c).
Proof.
  intros d a d' Hd. unfold FindOrCreateAtUnlessEntityActive. case_bool_decide; [|by intros [= _ <-]].
  destruct (FindOrCreateAt _ _ _ _ _ _ _ d) as [[r|x] d1] eqn:E; [|done]. intros [= _ <-]. by eapply keep_mint.
Qed.
Hint Resolve keep_mint_unless : keep.

Variables (mp : handler -> event -> option bool) (sd : rdb -> nat -> string -> InjectOutcome) (ge : rdb -> string -> option event)
  (gt : rdb -> string -> option (handler * bool)).

Lemma fireDelegate_keeps i h e a c g : keeps I (fireDelegate i h e a c g).
Proof. unfold fireDelegate. kp. apply keeps_call, keep_run. Qed.

Lemma enqueue_keeps t h e g a : keeps I (enqueueBusyFiring t h e g a).
Proof. unfold enqueueBusyFiring. kp. apply keeps_call, keep_enqueue. Qed.

Lemma injection_keeps c t e cl : keeps I (tryAdditiveInjection sd c t e cl).
Proof. unfold tryAdditiveInjection. kp; apply keeps_call; auto with keep. Qed.
Hint Resolve fireDelegate_keeps enqueue_keeps injection_keeps : keep.

Lemma fireCommit_keeps e h g f : keeps I (fireCommit sd e h g f).
Proof. unfold fireCommit, tryAutoDelegate, syncClaimAfterCommit. kp. Qed.

Lemma closeTargets_keeps e ts : keeps I (closeTargets e ts).
Proof. induction ts; cbn [closeTargets]; kp. Qed.

Lemma closeAll_keeps evt rel c ts : keeps I (closeAll evt rel c ts).
Proof. induction ts as [|t ts IH]; cbn [closeAll]; kp. unfold closeOne. kp; apply keeps_call; auto with keep. Qed.
Hint Resolve closeTargets_keeps closeAll_keeps : keep.

Lemma runCloses_keeps evt e : keeps I (runCloses evt e).
Proof.
  unfold runCloses. induction (typedRelationsFor (v_type evt)) as [|rel rels IH]; cbn [runRelations]; kp.
Qed.
Hint Resolve runCloses_keeps : keep.

Lemma upsert_keeps now evt e r : keeps I (upsertTaskForEvent now evt e r).
Proof. unfold upsertTaskForEvent. kp; apply keeps_call; auto with keep. Qed.
Hint Resolve upsert_keeps : keep.

Lemma routeMatched_keeps now evt e : keeps I (routeMatched mp sd now evt e).
Proof. unfold routeMatched, stopWith, failWith, fireMatchedTriggers. kp. apply walkTriggers_keeps. intros. apply fireCommit_keeps. Qed.
Hint Resolve routeMatched_keeps : keep.

Lemma routeEvent_keeps now evt j : keeps I (routeEvent mp sd now evt j).
Proof.
  unfold routeEvent, stopWith, failWith, routableEntity, closePhase, runTerminatingClose. kp. apply keeps_call, keep_terminal.
Qed.
Hint Resolve routeEvent_keeps : keep.

Lemma processQueuedEvent_keeps now e j : keeps I (processQueuedEvent mp sd ge now e j).
Proof. unfold processQueuedEvent. kp. Qed.

Lemma evaluateReDerive_keeps i : keeps I (evaluateReDerive mp ge i).
Proof. unfold evaluateReDerive. kp. apply walkTriggers_keeps. intros h g s. unfold planCommit. kp. Qed.

Lemma keep_admit t fs : txKeeps I (admitFirings t fs).
Proof.
  induction fs as [|f fs IH]; intros d a d' Hd; cbn [admitFirings]; [by intros [= _ <-]|].
  destruct (Enqueue _ _ _ _ d) as [[x|e] d1] eqn:E; [|done]. intros H. by eapply IH, H; eapply keep_enqueue.
Qed.

Lemma keep_admit_plan (t : option task) fs :
  txKeeps I (match t with Some t => admitFirings t fs | None => fun d => (Ok (), d) end).
Proof. destruct t; [apply keep_admit|by intros d a d' Hd [= _ <-]]. Qed.
Hint Resolve evaluateReDerive_keeps keep_admit_plan : keep.

Lemma processReDerive_keeps i : keeps I (processReDerive mp ge i).
Proof. unfold processReDerive. kp. apply keeps_call, keep_admit_plan. Qed.

Lemma processFiring_keeps f : keeps I (processFiring gt f).
Proof. unfold processFiring, breakerPromptID. kp. Qed.

Lemma typedReason_keeps evt t rels : keeps I (typedReason evt t rels).
Proof. induction rels; cbn [typedReason]; kp. Qed.
Hint Resolve typedReason_keeps : keep.

Lemma settle_keeps i e : keeps I (settleCloseDeferral ge i e).
Proof. unfold settleCloseDeferral, readHeldClose, deferredCloseReason. kp; apply keeps_call; auto with keep. Qed.
Hint Resolve settle_keeps : keep.

Lemma sweep_keeps : keeps I (sweepCloseDeferrals ge).
Proof. unfold sweepCloseDeferrals. kp. match goal with l : list (nat * string) |- _ => induction l as [|[? ?]] end; cbn [settleEach]; kp. Qed.

End Writes.

End RouteInv.
