(* ===== verification/RouteTables.v ===== *)
(** * The invariant of the router's tables

    Every transaction the router makes steps the rows in place ([quiet]) or
    appends one task, run or firing past its guard, so a predicate stable under
    those ([Stable]) is kept by everything the router runs.  Three are: the tables'
    own invariant ([routeOK]), a closed task staying closed, and a person's claim
    staying theirs. *)

From S2P Require Import Prelude RouteEvents RouteDb RouteTeams RouteWalk RouteClose RouteEvent RouteInv.
Import RouteEvents RouteDb RouteTeams RouteWalk RouteClose RouteEvent RouteInv.
Local Open Scope string_scope.
Local Open Scope Z_scope.
Local Open Scope list_scope.

Module RouteTables.

(** ** Rows stepping in place *)

(** What a write may do to a task: its identity and its person stay, it is not
    opened again, and an agent comes only to a task no person has. *)
Record taskStep (t u : task) : Prop := {
  step_id : t_id u = t_id t;
  step_key : t_entity u = t_entity t /\ t_type u = t_type t /\ t_key u = t_key t;
  step_active : isActive u = true -> isActive t = true;
  step_user : t_user u = t_user t;
  step_agent : t_user t <> "" -> t_agent u = t_agent t
}.

(** A run keeps everything but its cancel intent. *)
Definition runStep (r s : run) : Prop :=
  r_task s = r_task r /\ r_trigger s = r_trigger r /\ r_event s = r_event r /\ r_running s = r_running r.

Record quiet (d d' : rdb) : Prop := {
  quiet_tasks : Forall2 taskStep (tasks d) (tasks d');
  quiet_runs : Forall2 runStep (runs d) (runs d');
  quiet_firings : firings d' = firings d
}.

Lemma taskStep_refl t : taskStep t t.
Proof. by split. Qed.

Lemma taskStep_trans t u v : taskStep t u -> taskStep u v -> taskStep t v.
Proof.
  intros [I1 (K1 & K2 & K3) A1 U1 G1] [I2 (L1 & L2 & L3) A2 U2 G2]. split; try congruence; eauto.
  - split_and!; congruence.
  - intros H. rewrite G2 by congruence. by apply G1.
Qed.

#[export] Instance taskStep_preorder : PreOrder taskStep.
Proof. split; [exact taskStep_refl|exact taskStep_trans]. Qed.

#[export] Instance runStep_preorder : PreOrder runStep.
Proof. split; [by intros r|]. intros r s q (?&?&?&?) (?&?&?&?). unfold runStep. split_and!; congruence. Qed.

#[export] Instance quiet_preorder : PreOrder quiet.
Proof.
  split; [by split|]. intros a b c [T1 R1 F1] [T2 R2 F2]. split; [by etrans|by etrans|congruence].
Qed.

Lemma Forall2_alter_step {A} (R : A -> A -> Prop) `{!Reflexive R} (f : A -> A) i (l : list A) :
  (forall x, l !! i = Some x -> R x (f x)) -> Forall2 R l (alter f i l).
Proof.
  intros Hf. apply Forall2_lookup. intros j. destruct (decide (i = j)) as [<-|Hij].
  - rewrite list_lookup_alter_eq. destruct (l !! i) eqn:E; constructor; auto.
  - rewrite list_lookup_alter_ne by done. destruct (l !! j); by constructor.
Qed.

Lemma quiet_setTasks f i d : (forall t, tasks d !! i = Some t -> taskStep t (f t)) -> quiet d (setTasks (alter f i) d).
Proof. intros H. split; [|done|done]. cbn. by apply Forall2_alter_step; [apply _|]. Qed.

(** The same tasks, runs and firings. *)
Lemma quiet_rows d d' : tasks d' = tasks d -> runs d' = runs d -> firings d' = firings d -> quiet d d'.
Proof. intros Ht Hr Hf. by split; rewrite ?Ht, ?Hr. Qed.

Lemma step_held h t : taskStep t (setHeld h t).
Proof. by destruct t. Qed.

Lemma step_team g t : taskStep t (setTeam g t).
Proof. by destruct t. Qed.

Lemma step_closed c t : taskStep t (setClosed c t).
Proof. by destruct t. Qed.

Lemma step_bump t : taskStep t (bumpRow t).
Proof.
  unfold bumpRow. etrans; [|apply step_held]. case_bool_decide as H; [|done]. destruct t; cbn in *. subst. by split.
Qed.

Lemma step_stamp a g t : stampable a t = true -> taskStep t (stampRow a g t).
Proof.
  unfold stampable. rewrite !andb_true_iff, bool_decide_eq_true. intros [[Hu _] Ha]. unfold stampRow. etrans; [|apply step_team].
  destruct t; cbn in *. subst. by split.
Qed.

Create HintDb quiet.
#[export] Hint Resolve step_held step_team step_closed step_bump step_stamp : quiet.

Lemma quiet_stampAgentClaim i a g d : quiet d (stampAgentClaim i a g d).2.
Proof.
  unfold stampAgentClaim. destruct (tasks d !! i) eqn:E; [|done]. destruct (stampable a t) eqn:S; [|done].
  apply quiet_setTasks. intros u Hu. simplify_eq. by apply step_stamp.
Qed.

Lemma quiet_stampClaim i c d : quiet d (stampClaim i c d).2.
Proof. unfold stampClaim. case_bool_decide; [done|apply quiet_stampAgentClaim]. Qed.

Lemma quiet_auditClose i e d : quiet d (auditClose i e d).
Proof. unfold auditClose. case_bool_decide; [done|]. by apply quiet_rows. Qed.

Lemma quiet_cancelRuns i d : quiet d (cancelRuns i d).
Proof.
  split; [done| |done]. cbn. generalize (omap (fun c => if bool_decide (c_task c = i) && c_unsettled c then Some (c_run c) else None) (convs d)).
  intros ids. apply Forall2_lookup. intros j. rewrite list_lookup_imap. destruct (runs d !! j) as [r|]; constructor.
  destruct (bool_decide _ && _) eqn:E; [|done]. apply andb_prop in E as [_ E]. by split_and!.
Qed.
#[export] Hint Resolve quiet_stampAgentClaim quiet_stampClaim quiet_auditClose quiet_cancelRuns : quiet.

Lemma quiet_closeTask i r et e d : quiet d (closeTaskWithCancelIntent i r et e d).2.
Proof.
  unfold closeTaskWithCancelIntent. destruct (tasks d !! i) as [t|]; [destruct (isActive t)|]; cbn [snd]; [|auto with quiet..].
  etrans; [|apply quiet_cancelRuns]. etrans; [|apply quiet_auditClose]. apply quiet_setTasks. auto with quiet.
Qed.

Lemma quiet_closeOrHold i r et e b d : quiet d (closeOrHoldTask i r et e b d).2.
Proof.
  assert (forall d, quiet d (let '((closed, stopped), d) := closeTaskWithCancelIntent i r et e d in
    (if closed : bool then Closed stopped else CloseNone, if b then setTasks (alter (setHeld None) i) d else d)).2) as Hc.
  { intros d0. pose proof (quiet_closeTask i r et e d0) as H. destruct (closeTaskWithCancelIntent _ _ _ _ _) as [[c s] d1].
    cbn in *. destruct b; [|done]. etrans; [exact H|]. apply quiet_setTasks. auto with quiet. }
  unfold closeOrHoldTask. case_bool_decide; [apply Hc|]. destruct (tasks d !! i) as [t|]; [|done].
  destruct (_ || _); [done|]. cbv zeta. destruct (_ || _); [|apply Hc]. destruct b; [done|].
  apply quiet_setTasks. intros. apply step_held.
Qed.

Lemma quiet_closeEach ids r et e d : quiet d (closeEach ids r et e d).2.
Proof.
  revert d. induction ids as [|i ids IH]; intros d; [done|]. cbn. pose proof (quiet_closeOrHold i r et e false d) as H.
  destruct (closeOrHoldTask _ _ _ _ _ _) as [o d1]. specialize (IH d1). destruct (closeEach _ _ _ _ _) as [os d2]. by etrans.
Qed.
#[export] Hint Resolve quiet_closeTask quiet_closeOrHold quiet_closeEach : quiet.

(** ** Stable predicates *)

Class Stable (I : rdb -> Prop) := {
  stable_quiet : forall d d', I d -> quiet d d' -> I d';
  stable_task : forall d t, I d -> t_id t = length (tasks d) -> t_agent t = "" -> t_user t = "" ->
    List.find (sameKey (t_entity t) (t_type t) (t_key t)) (tasks d) = None -> I (setTasks (fun ts => ts ++ [t]) d);
  stable_run : forall d r, I d -> (r_task r < length (tasks d))%nat -> fenced (r_event r) (r_trigger r) d = false ->
    busy (r_task r) d = false -> I (setRuns (fun rs => rs ++ [r]) d);
  stable_firing : forall d f, I d -> queuedFiring (f_task f) (f_trigger f) d = false -> I (setFirings (fun fs => fs ++ [f]) d)
}.

Section StableRouted.

Context (I : rdb -> Prop) `{HS : !Stable I}.

(** A transaction that only steps rows, whatever it answers. *)
Lemma keep_quiet {A} (tx : rdb -> res rerr A * rdb) : (forall d, quiet d (tx d).2) -> txKeeps I tx.
Proof. intros H d a d' Hd E. eapply stable_quiet; [exact Hd|]. specialize (H d). by rewrite E in H. Qed.

Lemma keep_pair {A B} (f : rdb -> A * rdb) (k : A -> B) :
  (forall d, quiet d (f d).2) -> txKeeps I (fun d => let '(a, d) := f d in (Ok (k a), d)).
Proof. intros H. apply keep_quiet. intros d. specialize (H d). by destruct (f d). Qed.

Lemma mint_kept g e et k p q c : txKeeps I (FindOrCreateAt g e et k p q c).
Proof.
  intros d a d' Hd. unfold FindOrCreateAt. destruct (entities d !! e); [|done]. destruct (_ || _); [|done].
  destruct (List.find _ _) as [t|] eqn:E; intros [= _ <-]; [done|]. by apply stable_task.
Qed.

Lemma run_kept i h e a c g : txKeeps I (CreateRunWithFirstStep i h e a c g).
Proof.
  intros d n d' Hd. unfold CreateRunWithFirstStep. destruct (tasks d !! i) as [t|] eqn:Et; [|done]. cbv zeta.
  destruct (fenced e h d) eqn:Ef; [done|]. destruct (busy i d) eqn:Eb; [done|]. destruct (negb _); [done|].
  destruct (teamArchived _ _); [done|]. intros [= _ <-]. eapply stable_quiet.
  { apply (stable_run d (MkRun i h e a true false)); [done|cbn|done|done]. apply lookup_lt_Some in Et. lia. }
  set (d1 := setRuns _ d). set (d2 := if bool_decide (g = "") then _ else _).
  assert (quiet d1 d2) as H2.
  { unfold d2. case_bool_decide; [by apply quiet_rows|]. etrans; [by apply (quiet_rows d1 (setConvs (endSettled i) d1))|].
    apply quiet_setTasks. auto with quiet. }
  etrans; [exact H2|]. etrans; [apply (quiet_stampClaim i c)|]. by apply quiet_rows.
Qed.

Lemma enqueue_kept i h e c : txKeeps I (Enqueue i h e c).
Proof.
  intros d n d' Hd. unfold Enqueue. destruct (queuedFiring i h d) eqn:E; [by intros [= _ <-]|].
  set (d1 := setFirings _ d). pose proof (quiet_stampClaim i c d1) as H. destruct (stampClaim i c d1) as [b d2].
  intros [= _ <-]. eapply stable_quiet; [|exact H]. by apply (stable_firing d (MkFiring i h e true)).
Qed.

#[export] Instance stable_routed : Routed I.
Proof.
  split.
  - apply mint_kept.
  - intros. apply keep_quiet. intros d. by apply quiet_rows.
  - intros. apply keep_quiet. intros d. by apply quiet_rows.
  - intros i. apply keep_quiet. intros d. unfold Bump. destruct (tasks d !! i); [|done]. apply quiet_setTasks. auto with quiet.
  - intros. apply keep_pair. auto with quiet.
  - intros i e c. unfold MarkEventInjected. apply keep_quiet. intros d.
    set (d1 := setTaskEvents _ d). pose proof (quiet_stampClaim i c d1) as H. destruct (stampClaim i c d1).
    etrans; [|exact H]. by apply quiet_rows.
  - intros. apply keep_pair. auto with quiet.
  - intros. apply keep_pair. auto with quiet.
  - intros. apply keep_pair. auto with quiet.
  - intros i e. apply keep_quiet. intros d. unfold ClearCloseDeferral. destruct (tasks d !! i); [|done].
    case_bool_decide; [|done]. apply quiet_setTasks. auto with quiet.
  - intros e v ts r et i. apply keep_quiet. intros d. unfold CloseTerminal. destruct (entities d !! e); [|done].
    destruct (_ || _); [done|]. set (d1 := setEntities _ d). pose proof (quiet_closeEach (openTaskIDs e ts d1) r et i d1) as H.
    destruct (closeEach _ _ _ _ _) as [os d2]. etrans; [|exact H]. by apply quiet_rows.
  - apply run_kept.
  - apply enqueue_kept.
Qed.

End StableRouted.

(** ** The tables' invariant *)

(** The keys the tables allow once: an open task's situation, a fired event with
    its trigger, the task of a running run, and an unsettled firing. *)
Definition openKey (t : task) : option (string * string * string) :=
  if isActive t then Some (t_entity t, t_type t, t_key t) else None.
Definition firedKey (r : run) : option (string * string) :=
  if bool_decide (r_event r = "") then None else Some (r_event r, r_trigger r).
Definition runningKey (r : run) : option nat := if r_running r then Some (r_task r) else None.
Definition queuedKey (f : firing) : option (nat * string) := if f_unsettled f then Some (f_task f, f_trigger f) else None.

Record routeOK (d : rdb) : Prop := {
  ids_ok : map t_id (tasks d) = seq 0 (length (tasks d));
  one_open : NoDup (omap openKey (tasks d));
  one_fired : NoDup (omap firedKey (runs d));
  one_running : NoDup (omap runningKey (runs d));
  one_queued : NoDup (omap queuedKey (firings d));
  one_claim : Forall (fun t => t_agent t = "" \/ t_user t = "") (tasks d);
  runs_of_tasks : Forall (fun r => (r_task r < length (tasks d))%nat) (runs d)
}.

#[export] Instance routeOK_dec d : Decision (routeOK d).
Proof.
  refine (cast_if (decide (map t_id (tasks d) = seq 0 (length (tasks d)) /\ NoDup (omap openKey (tasks d)) /\
    NoDup (omap firedKey (runs d)) /\ NoDup (omap runningKey (runs d)) /\ NoDup (omap queuedKey (firings d)) /\
    Forall (fun t => t_agent t = "" \/ t_user t = "") (tasks d) /\ Forall (fun r => (r_task r < length (tasks d))%nat) (runs d)))).
  - abstract (destruct_and!; by split).
  - abstract (intros []; naive_solver).
Defined.

Lemma omap_step_sublist {A B} (k : A -> option B) (l l' : list A) :
  Forall2 (fun x y => k y = k x \/ k y = None) l l' -> omap k l' `sublist_of` omap k l.
Proof.
  induction 1 as [|x y l l' H _ IH]; [done|]. cbn. destruct H as [-> | ->].
  - destruct (k x); [by apply sublist_skip|done].
  - destruct (k x); [by apply sublist_cons|done].
Qed.

(** Rows that keep their key or lose it. *)
Lemma NoDup_step {A B} (k : A -> option B) (R : A -> A -> Prop) (l l' : list A) :
  (forall x y, R x y -> k y = k x \/ k y = None) -> Forall2 R l l' -> NoDup (omap k l) -> NoDup (omap k l').
Proof. intros H F N. eapply sublist_NoDup; [exact N|]. apply omap_step_sublist. by eapply Forall2_impl; [exact F|]. Qed.

(** A row whose key no other row has. *)
Lemma NoDup_append {A B} (k : A -> option B) (l : list A) (x : A) :
  (forall y b, y ∈ l -> k y = Some b -> k x = Some b -> False) -> NoDup (omap k l) -> NoDup (omap k (l ++ [x])).
Proof.
  intros H N. rewrite omap_app. cbn. destruct (k x) as [b|] eqn:E; cbn; [|by rewrite app_nil_r].
  apply NoDup_app. split_and!; [done| |apply NoDup_singleton]. intros c Hc E'. apply list_elem_of_singleton in E' as ->.
  apply list_elem_of_omap in Hc as (y & Hy & Hk). by eapply H.
Qed.

Lemma existsb_none {A} (f : A -> bool) (l : list A) : existsb f l = false -> forall x, x ∈ l -> f x = false.
Proof.
  intros H x Hx. apply not_true_iff_false. intros Hf. apply not_true_iff_false in H. apply H, existsb_exists.
  exists x. split; [by apply list_elem_of_In|done].
Qed.

Lemma openKey_step t u : taskStep t u -> openKey u = openKey t \/ openKey u = None.
Proof.
  intros [_ (E1 & E2 & E3) A _ _]. unfold openKey. destruct (isActive u); [|by right]. rewrite A by done. left. congruence.
Qed.

Lemma quiet_length d d' : quiet d d' -> length (tasks d') = length (tasks d).
Proof. intros [H _ _]. symmetry. by eapply Forall2_length. Qed.

Lemma routeOK_quiet d d' : routeOK d -> quiet d d' -> routeOK d'.
Proof.
  intros [H1 H2 H3 H4 H5 H6 H7] Hq. pose proof (quiet_length _ _ Hq) as HL. destruct Hq as [Ht Hr Hf]. split.
  - rewrite HL, <- H1. clear -Ht. induction Ht as [|t u l l' Hs _ IH]; [|destruct Hs]; cbn; [done|]. by f_equal.
  - by eapply NoDup_step; [exact openKey_step|..].
  - eapply NoDup_step; [|exact Hr|done]. intros r s (_ & E1 & E2 & _). left. unfold firedKey. by rewrite E1, E2.
  - eapply NoDup_step; [|exact Hr|done]. intros r s (E1 & _ & _ & E2). left. unfold runningKey. by rewrite E1, E2.
  - by rewrite Hf.
  - clear -H6 Ht. induction Ht as [|t u l l' Hs _ IH]; [|destruct Hs]; [done|]. apply Forall_cons in H6 as [H6 H6']. constructor; [|auto].
    destruct (decide (t_user t = "")) as [E|E]; [right; congruence|left]. rewrite step_agent0 by done. tauto.
  - rewrite HL. clear -Hr H7. induction Hr as [|r s l l' (E & _) _ IH]; [done|]. apply Forall_cons in H7 as [H7 H7'].
    constructor; [by rewrite E|auto].
Qed.

Lemma routeOK_task d t : routeOK d -> t_id t = length (tasks d) -> t_agent t = "" ->
  List.find (sameKey (t_entity t) (t_type t) (t_key t)) (tasks d) = None -> routeOK (setTasks (fun ts => ts ++ [t]) d).
Proof.
  intros [H1 H2 H3 H4 H5 H6 H7] Hi Ha Hf. split; cbn; try done.
  - rewrite map_app, H1, length_app, seq_app. cbn. by rewrite Hi.
  - apply NoDup_append; [|done]. intros u b Hu Ku Kt. apply list_elem_of_In in Hu.
    pose proof (List.find_none _ _ Hf u Hu) as Hn. unfold openKey, sameKey in *. destruct (isActive u), (isActive t); try done.
    simplify_eq. apply bool_decide_eq_false in Hn. naive_solver.
  - apply Forall_app. split; [done|]. apply Forall_singleton. by left.
  - eapply Forall_impl; [exact H7|]. intros r Hr. rewrite length_app. cbn in *. lia.
Qed.

Lemma routeOK_run d r : routeOK d -> (r_task r < length (tasks d))%nat -> fenced (r_event r) (r_trigger r) d = false ->
  busy (r_task r) d = false -> routeOK (setRuns (fun rs => rs ++ [r]) d).
Proof.
  intros [H1 H2 H3 H4 H5 H6 H7] HL Hf Hb. split; cbn; try done.
  - apply NoDup_append; [|done]. intros s b Hs Ks Kr. apply existsb_none with (x := s) in Hf; [|done].
    unfold firedKey in *. repeat case_bool_decide; simplify_eq. naive_solver.
  - apply NoDup_append; [|done]. intros s b Hs Ks Kr. apply existsb_none with (x := s) in Hb; [|done].
    unfold runningKey in *. destruct (r_running s), (r_running r); simplify_eq. rewrite bool_decide_eq_true_2 in Hb; done.
  - apply Forall_app. split; [done|]. by apply Forall_singleton.
Qed.

Lemma routeOK_firing d f : routeOK d -> queuedFiring (f_task f) (f_trigger f) d = false ->
  routeOK (setFirings (fun fs => fs ++ [f]) d).
Proof.
  intros [H1 H2 H3 H4 H5 H6 H7] Hq. split; cbn; try done.
  apply NoDup_append; [|done]. intros g b Hg Kg Kf. apply existsb_none with (x := g) in Hq; [|done].
  unfold queuedKey in *. destruct (f_unsettled g), (f_unsettled f); simplify_eq. rewrite bool_decide_eq_true_2 in Hq; done.
Qed.

#[export] Instance routeOK_stable : Stable routeOK.
Proof. split; intros; [by eapply routeOK_quiet|by apply routeOK_task|by apply routeOK_run|by apply routeOK_firing]. Qed.

(** ** What stays with a task *)

(** A predicate of one task its steps keep. *)
Definition ofTask (P : task -> Prop) (i : nat) (d : rdb) : Prop := exists t, tasks d !! i = Some t /\ P t.

Lemma ofTask_stable P i : (forall t u, taskStep t u -> P t -> P u) -> Stable (ofTask P i).
Proof.
  intros HP. split.
  - intros d d' (t & Ht & Hp) [Hq _ _]. pose proof (Forall2_lookup_l _ _ _ _ _ Hq Ht) as (u & Hu & Hs). exists u. eauto.
  - intros d t (u & Hu & Hp) _ _ _ _. exists u. split; [|done]. cbn. by apply lookup_app_l_Some.
  - by intros d r (u & Hu & Hp) _ _ _; exists u.
  - by intros d f (u & Hu & Hp) _; exists u.
Qed.

Definition closedTask (t : task) : Prop := isActive t = false.
Definition personsTask (u a : string) (t : task) : Prop := u <> "" /\ t_user t = u /\ t_agent t = a.

#[export] Instance closedTask_stable i : Stable (ofTask closedTask i).
Proof.
  apply ofTask_stable. unfold closedTask. intros t u [_ _ A _ _] H. apply not_true_iff_false. intros E. specialize (A E). congruence.
Qed.

#[export] Instance personsTask_stable u a i : Stable (ofTask (personsTask u a) i).
Proof. apply ofTask_stable. intros t v [_ _ _ U A] (H1 & <- & <-). split_and!; [done|done|by apply A]. Qed.

End RouteTables.

(** * What a terminating event closes

    The guarded transaction of internal/db/sqlite/entities.go under the terminating
    relations of internal/routing/close_relations.go, task by task: an idle task is
    closed, one being worked on is held, one of another type or entity is left. *)

Import RouteTables.

Module RouteClosing.

(** ** One task *)

(** Something still holds the task: a working conversation, or a deliverable on an
    active entity waiting for a person. *)
Definition heldOpen (d : rdb) (i : nat) : bool := negb (bool_decide (workingOf i d = [])) || awaitingPerson i d.

Definition judged (d : rdb) (reason eventType eventID : string) (i : nat) (t : task) : task :=
  if isActive t then if heldOpen d i then setHeld (Some eventID) t else setClosed (reason, eventType) t else t.

(** What the decision reads is not what it writes, nor is the configuration. *)
Definition sameHolds (d d' : rdb) : Prop := convs d' = convs d /\ entities d' = entities d /\ awaiting d' = awaiting d /\ conf d' = conf d.

Lemma heldOpen_same d d' i : sameHolds d d' -> heldOpen d' i = heldOpen d i.
Proof. intros (Hc & He & Ha & _). unfold heldOpen, workingOf, awaitingPerson. by rewrite Hc, He, Ha. Qed.

Lemma auditClose_frame i e d : tasks (auditClose i e d) = tasks d /\ sameHolds d (auditClose i e d).
Proof. unfold auditClose. by case_bool_decide. Qed.

Lemma alter_const {A} (f g : A -> A) i (l : list A) x : l !! i = Some x -> f x = g x -> alter f i l = alter g i l.
Proof. intros Hx E. apply list_eq. intros j. destruct (decide (i = j)) as [<-|]; [by rewrite !list_lookup_alter_eq, Hx; cbn; rewrite E|by rewrite !list_lookup_alter_ne]. Qed.

Lemma alter_none {A} (f : A -> A) i (l : list A) : l !! i = None -> alter f i l = l.
Proof. intros Hx. apply list_eq. intros j. destruct (decide (i = j)) as [<-|]; [by rewrite !list_lookup_alter_eq, Hx|by rewrite !list_lookup_alter_ne]. Qed.

Lemma alter_fix {A} (f : A -> A) i (l : list A) x : l !! i = Some x -> f x = x -> alter f i l = l.
Proof. intros Hx E. apply list_eq. intros j. destruct (decide (i = j)) as [<-|]; [by rewrite !list_lookup_alter_eq, Hx; cbn; rewrite E|by rewrite !list_lookup_alter_ne]. Qed.

Lemma closeTask_frame i t r et e d : tasks d !! i = Some t -> isActive t = true ->
  let d' := (closeTaskWithCancelIntent i r et e d).2 in
  tasks d' = alter (setClosed (r, et)) i (tasks d) /\ sameHolds d d' /\ (closeTaskWithCancelIntent i r et e d).1.1 = true.
Proof.
  intros Ht Ha. unfold closeTaskWithCancelIntent. rewrite Ht, Ha. cbn [fst snd]. unfold auditClose. by case_bool_decide.
Qed.

Lemma closeOrHold_judges i r et e d : e <> "" ->
  let d' := (closeOrHoldTask i r et e false d).2 in
  tasks d' = alter (judged d r et e i) i (tasks d) /\ sameHolds d d'.
Proof.
  intros He. unfold closeOrHoldTask. rewrite bool_decide_eq_false_2 by done. cbv zeta.
  destruct (tasks d !! i) as [t|] eqn:Ht; [|cbn; by rewrite alter_none]. cbn [andb]. rewrite orb_false_r.
  destruct (isActive t) eqn:Ha; cbn [negb]; [|cbn; split; [|done]; symmetry; eapply alter_fix; [done|]; unfold judged; by rewrite Ha].
  replace (negb (bool_decide (workingOf i d = [])) || bool_decide (workingOf i d = []) && awaitingPerson i d) with (heldOpen d i)
    by (unfold heldOpen; by destruct (bool_decide _)).
  destruct (heldOpen d i) eqn:Hh.
  - cbn. split; [|done]. eapply alter_const; [done|]. unfold judged. by rewrite Ha, Hh.
  - destruct (closeTask_frame i t r et e d Ht Ha) as (F1 & F2 & F3). destruct (closeTaskWithCancelIntent i r et e d) as [[c st] d1].
    cbn in *. split; [|done]. rewrite F1. eapply alter_const; [done|]. unfold judged. by rewrite Ha, Hh.
Qed.

(** ** All of them *)

Lemma judged_same d d' r et e i t : sameHolds d d' -> judged d' r et e i t = judged d r et e i t.
Proof. intros H. unfold judged. by rewrite (heldOpen_same d d'). Qed.

Lemma sameHolds_trans d1 d2 d3 : sameHolds d1 d2 -> sameHolds d2 d3 -> sameHolds d1 d3.
Proof. intros (?&?&?&?) (?&?&?&?). unfold sameHolds. split_and!; congruence. Qed.

Lemma closeEach_judges ids r et e d : e <> "" -> NoDup ids ->
  let d' := (closeEach ids r et e d).2 in
  sameHolds d d' /\
  forall j, tasks d' !! j = (if bool_decide (j ∈ ids) then judged d r et e j else id) <$> tasks d !! j.
Proof.
  intros He. revert d. induction ids as [|i ids IH]; intros d; cbn [closeEach].
  - intros _. split; [done|]. intros j. rewrite bool_decide_eq_false_2 by apply not_elem_of_nil. cbn. by rewrite option_fmap_id.
  - intros [Hi Hn]%NoDup_cons. pose proof (closeOrHold_judges i r et e d He) as [T1 S1].
    destruct (closeOrHoldTask i r et e false d) as [o d1]. cbn [snd] in *. pose proof (IH d1 Hn) as [S2 T2].
    destruct (closeEach ids r et e d1) as [os d2]. cbn [snd] in *. split; [by eapply sameHolds_trans|].
    intros j. rewrite T2, T1. destruct (decide (i = j)) as [<-|Hij].
    + rewrite list_lookup_alter_eq, (bool_decide_eq_false_2 (i ∈ ids)), bool_decide_eq_true_2 by (done || by left).
      by destruct (tasks d !! i).
    + rewrite list_lookup_alter_ne by done. case_bool_decide as Hj.
      * rewrite bool_decide_eq_true_2 by (by right). destruct (tasks d !! j); cbn; [|done]. by rewrite (judged_same d d1).
      * rewrite bool_decide_eq_false_2; [done|]. intros [->|]%elem_of_cons; done.
Qed.

(** ** The tasks the transaction walks *)

Definition aimedAt (entityID : string) (types : list string) (t : task) : bool :=
  isActive t && bool_decide (t_entity t = entityID /\ t_type t ∈ types).

Lemma ids_lookup d i t : map t_id (tasks d) = seq 0 (length (tasks d)) -> tasks d !! i = Some t -> t_id t = i.
Proof.
  intros H Hi. pose proof (f_equal (fun l => l !! i) H) as E. cbn in E. change (map t_id (tasks d)) with (t_id <$> tasks d) in E.
  rewrite list_lookup_fmap, Hi in E. cbn in E. symmetry in E. apply lookup_seq in E as [E _]. lia.
Qed.

Lemma openTaskIDs_filter entityID types d :
  openTaskIDs entityID types d = map t_id (filter (fun t => aimedAt entityID types t = true) (tasks d)).
Proof.
  unfold openTaskIDs, FindActiveByEntity. f_equal. rewrite list_filter_filter. apply list_filter_iff. intros t. unfold aimedAt.
  rewrite andb_true_iff, bool_decide_eq_true. naive_solver.
Qed.

Lemma openTaskIDs_NoDup entityID types d : map t_id (tasks d) = seq 0 (length (tasks d)) -> NoDup (openTaskIDs entityID types d).
Proof.
  intros H. rewrite openTaskIDs_filter. eapply sublist_NoDup; [apply (NoDup_seq 0 (length (tasks d)))|]. rewrite <- H.
  apply (fmap_sublist t_id), sublist_filter.
Qed.

Lemma openTaskIDs_elem entityID types d i t : map t_id (tasks d) = seq 0 (length (tasks d)) -> tasks d !! i = Some t ->
  bool_decide (i ∈ openTaskIDs entityID types d) = aimedAt entityID types t.
Proof.
  intros H Hi. rewrite openTaskIDs_filter. apply eq_true_iff_eq. rewrite bool_decide_eq_true, list_elem_of_fmap. split.
  - intros (u & -> & Hu). apply list_elem_of_filter in Hu as [Hu Hin]. apply list_elem_of_lookup in Hin as [j Hj].
    rewrite (ids_lookup d j u) in Hi by done. congruence.
  - intros Ha. exists t. rewrite (ids_lookup d i t) by done. split; [done|]. apply list_elem_of_filter. split; [done|].
    by eapply list_elem_of_lookup_2.
Qed.

(** ** The transaction *)

(** The entity is there, open, and at the version the event was judged at. *)
Definition closable (d : rdb) (entityID : string) (judgedAt : option Z) : bool :=
  match entities d !! entityID with
  | Some e => e_active e && match judgedAt with Some v => e_poll e =? v | None => true end
  | None => false
  end.

Definition afterTerminal (d : rdb) (rel : closeRelation) (evt : event) (entityID : string) (i : nat) (t : task) : task :=
  let d0 := setEntities (alter closeEntity entityID) d in
  if aimedAt entityID (closes rel) t then judged d0 (relReason rel) (v_type evt) (v_id evt) i t else t.

Lemma terminal_declined d evt entityID rel judgedAt : closable d entityID judgedAt = false ->
  runTerminatingClose evt entityID rel judgedAt (World d []) = (Ok false, World d []).
Proof.
  unfold closable, runTerminatingClose, bind, call, CloseTerminal. cbn [script db].
  destruct (entities d !! entityID) as [e|]; [|done]. destruct (e_active e), judgedAt as [v|]; try done. cbn. intros ->. done.
Qed.

Lemma terminal_closes d evt entityID rel judgedAt : closable d entityID judgedAt = true -> routeOK d -> v_id evt <> "" ->
  exists d', runTerminatingClose evt entityID rel judgedAt (World d []) = (Ok true, World d' []) /\
    entities d' = alter closeEntity entityID (entities d) /\ conf d' = conf d /\
    forall i, tasks d' !! i = afterTerminal d rel evt entityID i <$> tasks d !! i.
Proof.
  intros Hc Hok Hv. unfold runTerminatingClose, bind, call, CloseTerminal. cbn [script db]. unfold closable in Hc.
  destruct (entities d !! entityID) as [e|]; [|done]. apply andb_prop in Hc as [-> Hv']. cbn [negb orb].
  replace (match judgedAt with Some v => negb (e_poll e =? v) | None => false end) with false
    by (destruct judgedAt; [by rewrite Hv'|done]).
  set (d0 := setEntities _ d). set (ids := openTaskIDs _ _ d0).
  pose proof (closeEach_judges ids (relReason rel) (v_type evt) (v_id evt) d0 Hv) as HE.
  destruct (closeEach ids _ _ _ d0) as [os d1]. cbn [snd] in HE. destruct HE as [(_ & He & _ & Hf) HT].
  { apply openTaskIDs_NoDup. apply (ids_ok d Hok). }
  exists d1. split_and!; [done|by rewrite He|by rewrite Hf|]. intros i. rewrite HT. change (tasks d0) with (tasks d).
  destruct (tasks d !! i) as [t|] eqn:Ht; [|done].
  pose proof (openTaskIDs_elem entityID (closes rel) d0 i t (ids_ok d Hok) Ht) as Hm. fold ids in Hm. unfold afterTerminal.
  repeat case_bool_decide; cbn; by rewrite <- Hm.
Qed.

(** ** Typed closes *)

(** The tasks a relation's close goes over, when each is of another type than the
    event, one by one and with every call answered. *)
Lemma closeAll_judges evt rel c ts d : v_id evt <> "" -> Forall (fun t => t_type t <> v_type evt) ts -> NoDup (map t_id ts) ->
  exists any d', closeAll evt rel c ts (World d []) = (Ok (any, []), World d' []) /\ sameHolds d d' /\
    forall j, tasks d' !! j =
      (if bool_decide (j ∈ map t_id (filter (fun t => runKeep (keep rel) evt c (taskTarget t) = true) ts))
       then judged d (relReason rel) (v_type evt) (v_id evt) j else id) <$> tasks d !! j.
Proof.
  intros Hv. revert d. induction ts as [|t ts IH]; intros d Ht Hn.
  - exists false, d. split_and!; [done..|]. intros j. rewrite bool_decide_eq_false_2 by apply not_elem_of_nil. by rewrite option_fmap_id.
  - apply Forall_cons in Ht as [Hty Ht]. apply NoDup_cons in Hn as [Hi Hn]. cbn [closeAll].
    destruct (runKeep (keep rel) evt c (taskTarget t)) eqn:Ek; [|rewrite filter_cons_False by congruence; by apply IH].
    rewrite filter_cons_True by done. unfold closeOne. rewrite bool_decide_eq_false_2 by done.
    pose proof (closeOrHold_judges (t_id t) (relReason rel) (v_type evt) (v_id evt) d Hv) as [T1 S1].
    unfold bind, try, call, CloseOrHold. cbn [script db]. destruct (closeOrHoldTask _ _ _ _ false d) as [o d1]. cbn [snd] in *.
    destruct (IH d1 Ht Hn) as (any & d' & Hr & S2 & T2). unfold ret. rewrite Hr. eexists _, d'. split; [done|]. split; [by eapply sameHolds_trans|].
    intros j. rewrite T2, T1. cbn [map]. destruct (decide (t_id t = j)) as [<-|Hij].
    + rewrite list_lookup_alter_eq, (bool_decide_eq_false_2 (t_id t ∈ _)), bool_decide_eq_true_2; [by destruct (tasks d !! t_id t)|by left|].
      intros Hin. apply Hi. apply list_elem_of_fmap in Hin as (u & E & Hu). apply list_elem_of_filter in Hu as [_ Hu]. rewrite E.
      by apply list_elem_of_fmap_2.
    + rewrite list_lookup_alter_ne by done. case_bool_decide as Hj.
      * rewrite bool_decide_eq_true_2 by (by right). destruct (tasks d !! j); cbn; [|done]. by rewrite (judged_same d d1).
      * rewrite bool_decide_eq_false_2; [done|]. intros [->|]%elem_of_cons; done.
Qed.

(** An event with one typed relation to one other type, whose hook asks for no
    read: every open task of the type on the entity that the relation keeps is
    judged, and nothing else changes. *)
Lemma runCloses_judges evt entityID rel ty c d : routeOK d -> v_id evt <> "" -> ty <> v_type evt ->
  typedRelationsFor (v_type evt) = [rel] -> closes rel = [ty] -> (forall w, runPrepare (prepare rel) evt entityID w = (Ok (Some c), w)) ->
  exists any d', runCloses evt entityID (World d []) = (Ok (any, []), World d' []) /\
    forall i t, tasks d !! i = Some t ->
      tasks d' !! i = Some (if aimedAt entityID [ty] t && runKeep (keep rel) evt c (taskTarget t)
                            then judged d (relReason rel) (v_type evt) (v_id evt) i t else t).
Proof.
  intros Hok Hv Hty Hrel Hcl Hp. set (ts := FindActiveByEntityAndType entityID ty d).
  assert (Hts : forall t, t ∈ ts <-> t ∈ tasks d /\ aimedAt entityID [ty] t = true).
  { intros t. unfold ts, FindActiveByEntityAndType, FindActiveByEntity, aimedAt. rewrite !list_elem_of_filter, andb_true_iff, bool_decide_eq_true, list_elem_of_singleton. tauto. }
  assert (Hrun : exists any d', closeAll evt rel c ts (World d []) = (Ok (any, []), World d' []) /\ sameHolds d d' /\
    forall j, tasks d' !! j =
      (if bool_decide (j ∈ map t_id (filter (fun t => runKeep (keep rel) evt c (taskTarget t) = true) ts))
       then judged d (relReason rel) (v_type evt) (v_id evt) j else id) <$> tasks d !! j).
  { apply closeAll_judges; [done| |].
    - apply Forall_forall. intros t [_ H]%Hts. unfold aimedAt in H. apply andb_prop in H as [_ H]. apply bool_decide_eq_true in H as [_ H].
      apply list_elem_of_singleton in H. congruence.
    - unfold ts, FindActiveByEntityAndType, FindActiveByEntity. eapply sublist_NoDup; [apply (NoDup_seq 0 (length (tasks d)))|].
      rewrite <- (ids_ok d Hok). apply (fmap_sublist t_id). etrans; apply sublist_filter. }
  destruct Hrun as (any & d' & Hrun & _ & HT).
  assert (Hc : exists any', runCloses evt entityID (World d []) = (Ok (any', []), World d' [])).
  { unfold runCloses. rewrite Hrel. cbn [runRelations]. unfold runRelation. rewrite Hcl. cbn [closeTargets].
    unfold bind, try, read, call, ret. cbn [script db]. fold ts. rewrite app_nil_r. case_bool_decide as E.
    - rewrite E in Hrun. cbn in Hrun. unfold ret in Hrun. injection Hrun as <- <-. by eexists.
    - rewrite Hp, Hrun. by eexists. }
  destruct Hc as [any' Hc]. exists any', d'. split; [done|]. intros i t Hi. rewrite HT, Hi. cbn. f_equal.
  replace (bool_decide _) with (aimedAt entityID [ty] t && runKeep (keep rel) evt c (taskTarget t)); [by destruct (_ && _)|].
  apply eq_true_iff_eq. rewrite andb_true_iff, bool_decide_eq_true, list_elem_of_fmap. split.
  - intros [Ha Hk]. exists t. rewrite (ids_lookup d i t (ids_ok d Hok) Hi). split; [done|]. apply list_elem_of_filter. split; [done|].
    apply Hts. split; [by eapply list_elem_of_lookup_2|done].
  - intros (u & -> & Hu). apply list_elem_of_filter in Hu as [Hk Hu]. apply Hts in Hu as [Hin Ha]. apply list_elem_of_lookup in Hin as [j Hj].
    rewrite (ids_lookup d j u (ids_ok d Hok) Hj) in Hi. rewrite Hj in Hi. injection Hi as ->. done.
Qed.

(** ** Nothing is stranded *)

(** A type whose tasks live on entities of the source; the close the poll owes is
    of every source. *)
Definition ofSource (source eventType : string) : bool :=
  negb (bool_decide (OwnershipModelFor eventType = OwnershipUnrouted)) &&
  (bool_decide (source = "system") || bool_decide (eventSourcePrefix eventType = source)).

(** The relation of a terminating event names every type of its source but the
    ones a closed entity may carry. *)
Definition covers (rel : closeRelation) : bool :=
  forallb (fun et => forallb (fun '(ty, _) =>
      negb (ofSource (eventSourcePrefix et) ty) || bool_decide (ty ∈ closes rel) || TaskMayRideClosedEntity ty) (map_to_list registry))
    (onEvents rel).

Lemma relations_cover : forallb (fun rel => negb (terminatesEntity rel) || covers rel) closeRelations = true.
Proof. vm_compute. reflexivity. Qed.

End RouteClosing.
