(* ===== verification/RouteOwners.v ===== *)
(** * Who owns an event

    The owner ladders and the team routing of internal/routing/team_routing.go and
    dispatch.go against what they should answer: the first live stored owner, else
    the author's or assignee's teams in scope; the firing order by each team's best
    rule; and live teams only. *)

From S2P Require Import Prelude RouteEvents RouteDb RouteTeams.
Import RouteEvents RouteDb RouteTeams.
Local Open Scope string_scope.
Local Open Scope Z_scope.
Local Open Scope list_scope.

(** * Answering from the tables, with and without faults

    A program logic for the router's reads: [asks] says what an answer means when
    nothing else writes, for scripts whose calls all work ([calm]) and for scripts
    where any may fail.  In it the scope gate and the owner ladders are shown to
    answer their specification, a fault making them fail or widen what they would
    have said. *)

Module RouteAsks.

(** ** The logic *)

(** A turn in which nobody else writes, and, when calm, the call works. *)
Definition still (calm : bool) (t : turn) : Prop := (forall d, meanwhile t d = d) /\ (calm = true -> outcome t = Works).

(** From [d] the program leaves [d], answers what [Q] says, and errs only when not
    calm. *)
Definition asks (calm : bool) (d : rdb) {A} (m : M A) (Q : A -> Prop) : Prop :=
  forall s, Forall (still calm) s ->
  exists s', Forall (still calm) s' /\
    match m (World d s) with
    | (Ok a, w) => Q a /\ w = World d s'
    | (Err _, w) => calm = false /\ w = World d s'
    end.

Section Logic.

Context {calm : bool} {d : rdb}.

Lemma asks_ret {A} (a : A) (Q : A -> Prop) : Q a -> asks calm d (ret a) Q.
Proof. intros Ha s Hs. by exists s. Qed.

Lemma asks_throw {A} e (Q : A -> Prop) : calm = false -> asks calm d (throw e) Q.
Proof. intros Ha s Hs. by exists s. Qed.

Lemma asks_bind {A B} (m : M A) (k : A -> M B) (P : A -> Prop) (Q : B -> Prop) :
  asks calm d m P -> (forall a, P a -> asks calm d (k a) Q) -> asks calm d (bind m k) Q.
Proof.
  intros Hm Hk s Hs. destruct (Hm s Hs) as (s1 & Hs1 & H). unfold bind. destruct (m (World d s)) as [[a|e] w].
  - destruct H as [Ha ->]. by apply Hk.
  - by exists s1.
Qed.

Lemma asks_try {A} (m : M A) (Q : A -> Prop) :
  asks calm d m Q -> asks calm d (try m) (fun r => match r with Ok a => Q a | Err _ => calm = false end).
Proof.
  intros Hm s Hs. destruct (Hm s Hs) as (s1 & Hs1 & H). exists s1. unfold try. destruct (m (World d s)) as [[a|e] w]; naive_solver.
Qed.

Lemma asks_read {A} (f : rdb -> A) : asks calm d (read f) (fun a => a = f d).
Proof.
  intros s Hs. unfold read, call. cbn. destruct s as [|t s]; [by exists []|]. apply Forall_cons in Hs as [[Hm Ho] Hs]. exists s.
  rewrite Hm. split; [done|]. destruct (outcome t); [done| |]; destruct calm; naive_solver.
Qed.

Lemma asks_weaken {A} (m : M A) (P Q : A -> Prop) : asks calm d m P -> (forall a, P a -> Q a) -> asks calm d m Q.
Proof.
  intros Hm HQ s Hs. destruct (Hm s Hs) as (s1 & Hs1 & H). exists s1. split; [done|].
  destruct (m (World d s)) as [[a|e] w]; naive_solver.
Qed.

(** The bind of a plain read. *)
Lemma asks_bind_read {A B} (f : rdb -> A) (k : A -> M B) (Q : B -> Prop) :
  asks calm d (k (f d)) Q -> asks calm d (bind (read f) k) Q.
Proof. intros H. eapply asks_bind; [apply asks_read|]. by intros a ->. Qed.

End Logic.

(** ** The scope gate *)

(** What the team tracks of the event. *)
Definition trackedVerdict (d : rdb) (evt : event) (g : string) : verdict :=
  if String.prefix "github:" (v_type evt) then
    match v_entity evt ≫= (fun id => entities d !! id) with
    | Some e => if bool_decide (e_repo e = "") then Undecided else Decided (tracksRepository (conf d) g (e_repo e))
    | None => Undecided
    end
  else if String.prefix "jira:" (v_type evt) then
    if bool_decide (field m_project evt = "") then Undecided
    else Decided (existsb (tracksJiraProject (conf d) g) (eventProjects evt))
  else if String.prefix "linear:" (v_type evt) then
    match v_meta evt with Some m => Decided (existsb (tracksLinearTeam (conf d) g) (eventLinearTeams evt m)) | None => Undecided end
  else NoGate.

(** Whether task routing reaches the team: it is live, and does not say it tracks
    something else. *)
Definition inScope (d : rdb) (evt : event) (g : string) : bool :=
  negb (teamArchived g d) && match trackedVerdict d evt g with Decided b => b | _ => true end.

Section Gate.

Context (calm : bool) (d : rdb) (evt : event).

Lemma tracksAny_asks f ids : asks calm d (tracksAny f ids) (fun b => b = existsb (f d) ids).
Proof.
  induction ids as [|i ids IH]; cbn [tracksAny existsb]; [by apply asks_ret|]. apply asks_bind_read.
  destruct (f d i); [by apply asks_ret|exact IH].
Qed.

Lemma teamScopeVerdict_asks g : asks calm d (teamScopeVerdict evt g) (fun v => v = trackedVerdict d evt g).
Proof.
  unfold teamScopeVerdict, trackedVerdict. destruct (String.prefix "github:" _); [|destruct (String.prefix "jira:" _); [|destruct (String.prefix "linear:" _)]].
  - unfold teamTracksEventRepo. destruct (v_entity evt) as [id|]; cbn; [|by apply asks_ret]. apply asks_bind_read.
    destruct (entities d !! id) as [e|]; [|by apply asks_ret]. case_bool_decide; [by apply asks_ret|].
    apply asks_bind_read. by apply asks_ret.
  - unfold teamTracksEventProject. case_bool_decide; [by apply asks_ret|]. apply asks_bind_read.
    eapply asks_bind; [apply tracksAny_asks|]. intros b ->. by apply asks_ret.
  - unfold teamTracksEventLinearTeam. destruct (v_meta evt) as [m|]; [|by apply asks_ret].
    case_bool_decide as E; [rewrite E; by apply asks_ret|]. apply asks_bind_read.
    eapply asks_bind; [apply tracksAny_asks|]. intros b ->. by apply asks_ret.
  - by apply asks_ret.
Qed.

(** An answer of the gate: what it closes is out of scope, and when calm it is the
    scope. *)
Definition gateSays (g : string) (b : bool) : Prop := (inScope d evt g = true -> b = true) /\ (calm = true -> b = inScope d evt g).

(** The cache repeats answers that were given. *)
Definition cacheOK (c : teamScopeCache) : Prop :=
  forall g e, c !! g = Some e ->
    (forall a, archivedRead e = Some a -> a = teamArchived g d) /\ (forall s, scopeRead e = Some s -> gateSays g (open s)).

Lemma cacheOK_empty : cacheOK ∅.
Proof. intros g e H. exfalso. unfold teamScopeCache in H. by rewrite lookup_empty in H. Qed.

Lemma cacheOK_insert g e c : cacheOK c -> (forall a, archivedRead e = Some a -> a = teamArchived g d) ->
  (forall s, scopeRead e = Some s -> gateSays g (open s)) -> cacheOK (<[g := e]> c).
Proof. intros Hc Ha Hs g' e' H. unfold teamScopeCache in *. apply lookup_insert_Some in H as [[-> ->]|[_ H]]; [done|by apply Hc]. Qed.

Lemma cacheOK_entry c g : cacheOK c ->
  (forall a, archivedRead (entryOf c g) = Some a -> a = teamArchived g d) /\
  (forall s, scopeRead (entryOf c g) = Some s -> gateSays g (open s)).
Proof. intros Hc. unfold entryOf. destruct (c !! g) eqn:E; cbn; [by apply Hc|done]. Qed.

Lemma teamArchivedCached_asks g c : cacheOK c ->
  asks calm d (teamArchivedCached g c) (fun '(a, c) => a = teamArchived g d /\ cacheOK c).
Proof.
  intros Hc. unfold teamArchivedCached. destruct (cacheOK_entry c g Hc) as [Ha Hs].
  destruct (archivedRead (entryOf c g)) as [a|] eqn:E; [apply asks_ret; auto|]. apply asks_bind_read. apply asks_ret.
  split; [done|]. apply cacheOK_insert; cbn; naive_solver.
Qed.

Lemma scopeFor_asks g : teamArchived g d = false -> asks calm d (scopeFor evt g) (fun s => gateSays g (open s)).
Proof.
  intros Ha. unfold scopeFor. eapply asks_bind; [apply asks_try, teamScopeVerdict_asks|]. intros r Hr. apply asks_ret.
  unfold gateSays, inScope. rewrite Ha. destruct r as [v|e]; [subst v; by destruct (trackedVerdict d evt g)|].
  split; [done|]. intros ->. done.
Qed.

Lemma teamScopeCached_asks g c : cacheOK c -> asks calm d (teamScopeCached evt g c) (fun '(s, c) => gateSays g (open s) /\ cacheOK c).
Proof.
  intros Hc. unfold teamScopeCached. destruct (cacheOK_entry c g Hc) as [Ha Hs].
  destruct (scopeRead (entryOf c g)) as [s|] eqn:E; [apply asks_ret; auto|].
  eapply asks_bind; [by apply asks_try, teamArchivedCached_asks|]. intros [[a c1]|e] Hr.
  - destruct Hr as [-> Hc1].
    eapply (asks_bind _ _ (fun s => gateSays g (open s))).
    + destruct (teamArchived g d) eqn:Et; [|by apply scopeFor_asks]. apply asks_ret. unfold gateSays, inScope. by rewrite Et.
    + intros s Hg. apply asks_ret. split; [done|]. destruct (cacheOK_entry c1 g Hc1) as [Ha1 _]. apply cacheOK_insert; cbn; naive_solver.
  - apply asks_ret. split; [|done]. split; [done|]. intros ->. done.
Qed.

(** Teams that pass the gate. *)
Lemma trackingTeams_asks gs c : cacheOK c ->
  asks calm d (trackingTeams evt gs c) (fun '(ts, c) =>
    filter (fun g => inScope d evt g = true) gs `sublist_of` ts /\ ts `sublist_of` gs /\
    (calm = true -> ts = filter (fun g => inScope d evt g = true) gs) /\ cacheOK c).
Proof.
  revert c. induction gs as [|g gs IH]; intros c Hc; cbn [trackingTeams]; [by apply asks_ret|].
  eapply asks_bind; [by apply teamScopeCached_asks|]. intros [s c1] [[G1 G2] Hc1].
  eapply asks_bind; [by apply IH|]. intros [ts c2] (T1 & T2 & T3 & Hc2). apply asks_ret. rewrite filter_cons.
  split_and!; [| | |done]; destruct (decide (inScope d evt g = true)) as [E|E].
  - rewrite G1 by done. by apply sublist_skip.
  - destruct (open s); [by apply sublist_cons|done].
  - rewrite G1 by done. by apply sublist_skip.
  - destruct (open s); [by apply sublist_skip|by apply sublist_cons].
  - intros Hcalm. rewrite G1, T3 by done. done.
  - intros Hcalm. rewrite (G2 Hcalm). apply not_true_is_false in E. rewrite E. auto.
Qed.

(** [liveTeam] empties an archived team. *)
Definition live (g : string) : string := if teamArchived g d then "" else g.

Lemma live_empty : live "" = "".
Proof. unfold live. by destruct (teamArchived "" d). Qed.

Lemma liveTeam_asks g c : cacheOK c -> asks calm d (liveTeam g c) (fun '(t, c) => t = live g /\ cacheOK c).
Proof.
  intros Hc. unfold liveTeam. case_bool_decide as E; [subst; apply asks_ret; by rewrite live_empty|].
  eapply asks_bind; [by apply teamArchivedCached_asks|]. intros [a c1] [-> Hc1]. by apply asks_ret.
Qed.

Lemma liveTeams_asks gs c : cacheOK c ->
  asks calm d (liveTeams gs c) (fun '(ts, c) => ts = filter (fun g => g <> "") (live <$> gs) /\ cacheOK c).
Proof.
  revert c. induction gs as [|g gs IH]; intros c Hc; cbn [liveTeams]; [by apply asks_ret|].
  eapply asks_bind; [by apply liveTeam_asks|]. intros [t c1] [-> Hc1]. eapply asks_bind; [by apply IH|].
  intros [ts c2] [-> Hc2]. apply asks_ret. split; [|done]. rewrite fmap_cons, filter_cons. case_bool_decide as E; case_decide; naive_solver.
Qed.

End Gate.

End RouteAsks.

Import RouteAsks.

Module RouteOwners.

(** ** Identities *)

Definition teamsOf (d : rdb) (us : list string) : list string :=
  sortedKeys (foldr (fun u ts => list_to_set (teamsOfUser (conf d) u) ∪ ts) ∅ us).

Definition accountUsers (d : rdb) (id login : string) : list string :=
  if bool_decide (id = "") then usersByGitHubLogin (conf d) login else usersByGitHubID (conf d) id login.

(** The event's author's teams and its assignee's. *)
Definition authored (d : rdb) (evt : event) : list string :=
  if bool_decide (field m_author evt = "" /\ field m_authorID evt = "") then []
  else teamsOf d (accountUsers d (field m_authorID evt) (field m_author evt)).

Definition assigned (d : rdb) (evt : event) : list string :=
  if bool_decide (eventSourcePrefix (v_type evt) = "linear")
  then if bool_decide (field m_assigneeUser evt = "") then [] else teamsOf d (usersByLinear (conf d) (field m_assigneeUser evt))
  else if bool_decide (field m_assigneeAccount evt = "") then [] else teamsOf d (usersByJira (conf d) (field m_assigneeAccount evt)).

Section Owners.

Context (calm : bool) (d : rdb) (evt : event).

Lemma teamsOfUsers_asks us :
  asks calm d (teamsOfUsers us) (fun '(ts, bad) =>
    if bad : bool then calm = false else ts = foldr (fun u ts => list_to_set (teamsOfUser (conf d) u) ∪ ts) ∅ us).
Proof.
  induction us as [|u us IH]; cbn [teamsOfUsers foldr]; [by apply asks_ret|].
  eapply asks_bind; [apply asks_try, asks_read|]. intros r Hr. eapply asks_bind; [exact IH|]. intros [ts bad] H.
  apply asks_ret. destruct r as [l|e]; [|done]. subst l. destruct bad; [done|]. by rewrite H.
Qed.

Lemma unionTeams_asks us : asks calm d (unionTeams us) (fun ts => ts = teamsOf d us).
Proof.
  unfold unionTeams. eapply asks_bind; [apply teamsOfUsers_asks|]. intros [ts [|]] H; [by apply asks_throw|].
  apply asks_ret. by rewrite H.
Qed.

Lemma accountUsers_asks id login : asks calm d (usersForGitHubAccount id login) (fun us => us = accountUsers d id login).
Proof. unfold usersForGitHubAccount, accountUsers. case_bool_decide; eapply asks_weaken; [apply asks_read|by intros ? ->|apply asks_read|by intros ? ->]. Qed.

Lemma authorTeams_asks : asks calm d (authorTeams evt) (fun ts => ts = authored d evt).
Proof.
  unfold authorTeams, authored. cbv zeta. case_bool_decide; [by apply asks_ret|]. apply asks_bind_read.
  eapply asks_bind; [apply accountUsers_asks|]. intros us ->. apply unionTeams_asks.
Qed.

(** No users have no teams. *)
Lemma teamsOf_nil : teamsOf d [] = [].
Proof. unfold teamsOf, sortedKeys, sortStrings. cbn. by rewrite elements_empty. Qed.

Lemma assigneeTeams_asks : asks calm d (assigneeTeams evt) (fun ts => ts = assigned d evt).
Proof.
  unfold assigneeTeams, assigneeUsers, assigned. cbv zeta.
  assert (forall us, asks calm d (if bool_decide (us = []) then ret [] else unionTeams us) (fun ts => ts = teamsOf d us)) as Hu.
  { intros us. case_bool_decide as E; [subst; apply asks_ret; by rewrite teamsOf_nil|apply unionTeams_asks]. }
  case_bool_decide; case_bool_decide; (eapply asks_bind;
    [first [by apply (asks_ret [] (fun us => us = [])) | apply asks_bind_read, asks_read]|]);
    intros us ->; first [by apply asks_ret|apply Hu].
Qed.

(** ** The ladders *)

(** An answer of a ladder over the stored owners and then the members' teams. *)
Definition ladderOK (stored members : list string) (l : ladder) : Prop :=
  let '(owner, owners, cache) := l in
  let scoped := filter (fun g => inScope d evt g = true) members in
  match filter (fun g => g <> "") (live d <$> stored) with
  | t :: _ => owner = t /\ owners = [t]
  | [] =>
      scoped `sublist_of` owners /\ owners `sublist_of` members /\ (calm = true -> owners = scoped) /\
      owner = match owners with [t] => t | _ => "" end
  end /\ cacheOK calm d evt cache.

Lemma identityTier_asks gs c : cacheOK calm d evt c -> asks calm d (identityTier evt gs c) (ladderOK [] gs).
Proof.
  intros Hc. unfold identityTier. eapply asks_bind; [by apply trackingTeams_asks|]. intros [ts c1] (T1 & T2 & T3 & Hc1).
  apply asks_ret. destruct ts as [|t [|u ts]]; cbn; split_and!; auto.
Qed.

Lemma ladderOK_skip g stored members l : live d g = "" -> ladderOK stored members l -> ladderOK (g :: stored) members l.
Proof. intros Hg. unfold ladderOK. rewrite fmap_cons, filter_cons, Hg. by rewrite decide_False by (intros []; done). Qed.

Lemma ladderOK_stop g stored members c : live d g <> "" -> cacheOK calm d evt c ->
  ladderOK (g :: stored) members (live d g, [live d g], c).
Proof. intros Hg Hc. unfold ladderOK. rewrite fmap_cons, filter_cons. by rewrite decide_True by done. Qed.

(** One stored tier. *)
Lemma tier_asks g stored members c (k : teamScopeCache -> M ladder) :
  cacheOK calm d evt c -> (forall c, cacheOK calm d evt c -> asks calm d (k c) (ladderOK stored members)) ->
  asks calm d (let! (t, cache) := liveTeam g c in
    if negb (bool_decide (t = "")) then ret (t, [t], cache) else k cache) (ladderOK (g :: stored) members).
Proof.
  intros Hc Hk. eapply asks_bind; [by apply (liveTeam_asks calm d evt)|]. intros [t c1] [-> Hc1]. case_bool_decide as E; cbn [negb].
  - eapply asks_weaken; [by apply Hk|]. intros l. by apply ladderOK_skip.
  - apply asks_ret. by apply ladderOK_stop.
Qed.

Definition entityOwner (e : string) : string := default "" (e_owner <$> entities d !! e).

Lemma authorLadder e c : cacheOK calm d evt c ->
  asks calm d (authorCentricOwner evt e c)
    (ladderOK [entityOwner e; OwnerTeamForLatestTaskInTypes e authorCentricGitHubEventTypes d] (authored d evt)).
Proof.
  intros Hc. unfold authorCentricOwner. apply asks_bind_read. apply tier_asks; [done|]. intros c1 Hc1. apply asks_bind_read.
  apply tier_asks; [done|]. intros c2 Hc2. eapply asks_bind; [apply authorTeams_asks|]. intros ts ->. by apply identityTier_asks.
Qed.

Definition activeOwner (e : string) (types : list string) : string :=
  default "" (t_team <$> latest (filter (fun t => t_team t <> "" /\ t_type t ∈ types) (FindActiveByEntity e d))).

Lemma assigneeLadder e types c : cacheOK calm d evt c ->
  asks calm d (assigneeCentricOwner evt e types c) (ladderOK [entityOwner e; activeOwner e types] (assigned d evt)).
Proof.
  intros Hc. unfold assigneeCentricOwner. apply asks_bind_read. apply tier_asks; [done|]. intros c1 Hc1.
  unfold latestActiveOwnedTaskTeam. eapply (asks_bind _ _ (fun t => t = activeOwner e types)).
  { apply asks_bind_read. by apply asks_ret. }
  intros t ->. apply tier_asks; [done|]. intros c2 Hc2. eapply asks_bind; [apply assigneeTeams_asks|]. intros ts ->.
  by apply identityTier_asks.
Qed.

End Owners.

(** ** The firing order *)

(** The higher score first, the smaller id among equals. *)
Definition rankedBy (score : string -> Q) (a b : string) : Prop :=
  (score b < score a)%Q \/ ((score a == score b)%Q /\ String.le a b).

(** The team with the better best rule first. *)
Definition better (rules : list handler) : string -> string -> Prop := rankedBy (teamScore rules).

#[export] Instance rankedBy_trans score : Transitive (rankedBy score).
Proof.
  intros a b c [H1|[E1 L1]] [H2|[E2 L2]].
  - left. by eapply Qlt_trans.
  - left. by rewrite <- E2.
  - left. by rewrite E1.
  - right. split; [by rewrite E1|by etrans].
Qed.

#[export] Instance rankedBy_total score : Total (rankedBy score).
Proof.
  intros a b. unfold rankedBy. destruct (Q_dec (score a) (score b)) as [[H|H]|H]; [tauto|tauto|].
  destruct (total String.le a b) as [L|L]; [tauto|]. right. right. by split; [symmetry|].
Qed.

Lemma ranks_rankedBy scores a b : ranks scores a b <-> rankedBy (fun g => default 0%Q (scores !! g)) a b.
Proof.
  unfold ranks, rankedBy, Qgt_bool. cbv zeta beta. destruct (Qeq_bool _ _) eqn:E.
  - apply Qeq_bool_iff in E. split; [auto|]. intros [H|[_ H]]; [|done]. rewrite E in H. by apply Qlt_irrefl in H.
  - apply Qeq_bool_neq in E. rewrite negb_true_iff. split.
    + intros H. left. apply Qnot_le_lt. rewrite <- Qle_bool_iff. congruence.
    + intros [H|[H _]]; [|done]. apply not_true_iff_false. rewrite Qle_bool_iff. by apply Qlt_not_le.
Qed.

#[export] Instance ranks_trans scores : Transitive (ranks scores).
Proof. intros a b c. rewrite !ranks_rankedBy. apply rankedBy_trans. Qed.

#[export] Instance ranks_total scores : Total (ranks scores).
Proof. intros a b. rewrite !ranks_rankedBy. apply rankedBy_total. Qed.

Lemma scores_fold (rules : list handler) (m : gmap string Q) g :
  fold_left (fun m h => match m !! handlerTeamID h with Some s => <[handlerTeamID h := raise s h]> m | None => m end) rules m !! g =
  (fun s => fold_left raise (filter (fun h => handlerTeamID h = g) rules) s) <$> m !! g.
Proof.
  revert m. induction rules as [|h rules IH]; intros m; [cbn; by destruct (m !! g)|]. cbn [fold_left]. rewrite IH, filter_cons.
  destruct (m !! handlerTeamID h) as [s|] eqn:E; destruct (decide (handlerTeamID h = g)) as [<-|Hg].
  - by rewrite lookup_insert_eq, E.
  - by rewrite lookup_insert_ne.
  - by rewrite E.
  - done.
Qed.

(** One pass over the rules scores each team by its own. *)
Lemma scores_lookup vis rules g : g ∈ vis -> teamRulePriorityScores vis rules !! g = Some (teamScore rules g).
Proof. intros Hg. unfold teamRulePriorityScores. rewrite scores_fold, lookup_gset_to_gmap. by rewrite option_guard_True. Qed.

Lemma sortedKeys_elem (s : gset string) g : g ∈ sortedKeys s <-> g ∈ s.
Proof. unfold sortedKeys, sortStrings. by rewrite merge_sort_Permutation, elem_of_elements. Qed.

Lemma sortedKeys_NoDup (s : gset string) : NoDup (sortedKeys s).
Proof. unfold sortedKeys, sortStrings. rewrite merge_sort_Permutation. apply NoDup_elements. Qed.

(** The teams in [l] are those of [P], each once, the better first. *)
Definition inOrder (rules : list handler) (P : string -> Prop) (l : list string) : Prop :=
  NoDup l /\ (forall g, g ∈ l <-> P g) /\ StronglySorted (better rules) l.

Lemma order_inOrder vis rules : inOrder rules (fun g => g ∈ vis) (orderTeamsByRulePriority vis rules).
Proof.
  unfold orderTeamsByRulePriority, orderTeamsByScores. set (R := ranks _).
  assert (forall g, g ∈ merge_sort R (sortedKeys vis) <-> g ∈ vis) as Hm.
  { intros g. rewrite merge_sort_Permutation. apply sortedKeys_elem. }
  split_and!; [rewrite merge_sort_Permutation; apply sortedKeys_NoDup|exact Hm|].
  assert (StronglySorted R (merge_sort R (sortedKeys vis))) as HS by (apply StronglySorted_merge_sort; apply _).
  assert (forall g, g ∈ merge_sort R (sortedKeys vis) -> g ∈ vis) as Hin by (intros g; apply Hm).
  clear Hm. induction HS as [|a l _ IH HF]; [constructor|]. constructor; [apply IH; intros g Hg; apply Hin; by right|].
  rewrite Forall_forall in HF |- *. intros b Hb. specialize (HF b Hb). unfold R in HF. apply ranks_rankedBy in HF.
  assert (a ∈ vis /\ b ∈ vis) as [Ha Hv] by (split; apply Hin; [by left|by right]).
  unfold rankedBy in HF. by rewrite !scores_lookup in HF.
Qed.

Definition watching (rules triggers : list handler) (g : string) : Prop :=
  exists h, h ∈ rules ++ triggers /\ h_unowned h = true /\ handlerTeamID h = g.

Lemma watch_elem rules triggers g : g ∈ explicitWatchTeams rules triggers <-> watching rules triggers g.
Proof.
  unfold explicitWatchTeams, watching. rewrite elem_of_list_to_set, list_elem_of_fmap. setoid_rewrite list_elem_of_filter. naive_solver.
Qed.

Lemma inOrder_proper rules (P Q : string -> Prop) l : (forall g, P g <-> Q g) -> inOrder rules P l -> inOrder rules Q l.
Proof. intros HPQ (H1 & H2 & H3). split_and!; [done| |done]. intros g. rewrite H2. apply HPQ. Qed.

(** The ladder's routing. *)
Lemma ladder_routing owner owners rules triggers r : ownerLadderRouting owner owners rules triggers = Some r ->
  ownerTeam r = owner /\
  (forall g, g ∈ visibleTeams r <-> g ∈ owners \/ watching rules triggers g) /\
  (if bool_decide (owner = "")
   then inOrder rules (fun g => if bool_decide (owners = []) then watching rules triggers g else g ∈ owners) (orderedTeams r)
   else orderedTeams r = [owner]).
Proof.
  unfold ownerLadderRouting. cbv zeta. case_bool_decide as E; [done|]. intros [= <-]. cbn [ownerTeam visibleTeams orderedTeams]. split_and!; [done| |].
  - intros g. rewrite sortedKeys_elem, elem_of_union, elem_of_list_to_set, watch_elem. done.
  - destruct (bool_decide (owner = "")); [|done]. cbn [negb]. case_bool_decide; cbn [negb]; (eapply inOrder_proper; [|apply order_inOrder]); intros g.
    + apply watch_elem.
    + by rewrite elem_of_list_to_set.
Qed.

(** The pool's routing. *)
Lemma pool_routing rules triggers :
  let r := resolvePoolRouting rules triggers in
  inOrder rules (fun g => exists h, h ∈ rules ++ triggers /\ handlerTeamID h = g) (orderedTeams r) /\
  visibleTeams r = orderedTeams r /\ ownerTeam r = default "" (head (orderedTeams r)).
Proof.
  cbv zeta. split_and!; [|done|done]. unfold resolvePoolRouting. cbv zeta. cbn [orderedTeams].
  eapply inOrder_proper; [|apply order_inOrder]. intros g. cbv beta. rewrite elem_of_list_to_set, list_elem_of_fmap. naive_solver.
Qed.

(** ** Live teams only *)

(** The handlers an event matches and the routing they give. *)
Definition routingFor (matchPredicate : handler -> event -> option bool) (evt : event) (entityID : string) :
    M (list handler * list handler * option eventRouting) :=
  let! (rules, triggers, _, cache) := matchHandlers matchPredicate evt ∅ in
  let! r := resolveTeamRouting evt entityID rules triggers cache in ret (rules, triggers, r).

Section Live.

Context (d : rdb) (evt : event) (mp : handler -> event -> option bool).

(** A team that is not archived; the whole organization's handlers stand for the
    local default team, which no gate asks about. *)
Definition reachable (g : string) : Prop := g = LocalDefaultTeamID \/ teamArchived g d = false.

Definition handlersLive (hs : list handler) : Prop := Forall (fun h => reachable (handlerTeamID h)) hs.

Lemma inScope_live g : inScope d evt g = true -> teamArchived g d = false.
Proof. unfold inScope. by destruct (teamArchived g d). Qed.

Lemma handlerScope_asks h c : cacheOK true d evt c ->
  asks true d (handlerScopeMatchesEvent evt h c) (fun '(ok, c) => (ok = true -> reachable (handlerTeamID h)) /\ cacheOK true d evt c).
Proof.
  intros Hc. unfold handlerScopeMatchesEvent, handlerTeamID. case_bool_decide; [apply asks_ret; split; [by left|done]|].
  eapply asks_bind; [by apply teamScopeCached_asks|]. intros [s c1] [[_ G] Hc1]. apply asks_ret. split; [|done].
  intros Hs. right. apply inScope_live. by rewrite <- G.
Qed.

Lemma matchEach_asks hs c : cacheOK true d evt c ->
  asks true d (matchEach mp evt hs c) (fun '(rs, ts, _, c) => handlersLive rs /\ handlersLive ts /\ cacheOK true d evt c).
Proof.
  revert c. induction hs as [|h hs IH]; intros c Hc; cbn [matchEach]; [apply asks_ret; split_and!; [apply Forall_nil_2..|done]|].
  case_bool_decide; [|by apply IH]. case_bool_decide.
  - eapply asks_bind; [by apply IH|]. intros [[[rs ts] ns] c1] H1. by apply asks_ret.
  - eapply asks_bind; [by apply handlerScope_asks|]. intros [ok c1] [Hok Hc1]. eapply asks_bind; [by apply IH|].
    intros [[[rs ts] ns] c2] (H1 & H2 & H3). apply asks_ret. destruct ok; [|done].
    destruct (h_kind h); split_and!; try done; constructor; auto.
Qed.

Lemma matchHandlers_asks :
  asks true d (matchHandlers mp evt ∅) (fun '(rs, ts, _, c) => handlersLive rs /\ handlersLive ts /\ cacheOK true d evt c).
Proof. unfold matchHandlers. apply asks_bind_read, asks_bind_read. apply matchEach_asks, cacheOK_empty. Qed.

(** Where a routing may send an event. *)
Definition reached (r : eventRouting) (g : string) : Prop := g <> "" /\ (g = ownerTeam r \/ g ∈ visibleTeams r \/ g ∈ orderedTeams r).

Definition routesLive (r : option eventRouting) : Prop := forall x g, r = Some x -> reached x g -> reachable g.

Lemma watching_live rules triggers g : handlersLive rules -> handlersLive triggers -> watching rules triggers g -> reachable g.
Proof.
  intros H1 H2 (h & Hh & _ & <-). pose proof (Forall_app_2 _ _ _ H1 H2) as H. rewrite Forall_forall in H. by apply H.
Qed.

Lemma pool_live rules triggers : handlersLive rules -> handlersLive triggers -> routesLive (Some (resolvePoolRouting rules triggers)).
Proof.
  intros H1 H2 x g [= <-] [Hg Hr]. destruct (pool_routing rules triggers) as ((_ & Hm & _) & Hv & Ho).
  assert (g ∈ orderedTeams (resolvePoolRouting rules triggers)) as Hin.
  { destruct Hr as [-> | [Hr|Hr]]; [|by rewrite <- Hv|done]. rewrite Ho in *. by destruct (orderedTeams _); [done|left]. }
  apply Hm in Hin as (h & Hh & <-). pose proof (Forall_app_2 _ _ _ H1 H2) as H. rewrite Forall_forall in H. by apply H.
Qed.

Lemma ladder_live_owners stored members l : ladderOK true d evt stored members l -> forall g, g ∈ l.1.2 -> g <> "" -> reachable g.
Proof.
  destruct l as [[owner owners] c]. cbn [fst snd]. intros [H _] g Hg Hne. right.
  destruct (filter _ (live d <$> stored)) as [|t ts] eqn:E.
  - destruct H as (_ & _ & H & _). rewrite H in Hg by done. apply list_elem_of_filter in Hg as [Hg _]. by apply inScope_live.
  - destruct H as [_ ->]. apply list_elem_of_singleton in Hg as ->.
    assert (t ∈ filter (fun g => g <> "") (live d <$> stored)) as Ht by (rewrite E; by left).
    apply list_elem_of_filter in Ht as [_ Ht]. apply list_elem_of_fmap in Ht as (g & Hl & _). unfold live in Hl.
    destruct (teamArchived g d) eqn:Ea; by subst.
Qed.

Lemma ladderOK_owner stored members l : ladderOK true d evt stored members l -> l.1.1 <> "" -> l.1.1 ∈ l.1.2.
Proof.
  destruct l as [[owner owners] c]. cbn [fst snd]. intros [H _] Hne. destruct (filter _ (live d <$> stored)) as [|t ts].
  - destruct H as (_ & _ & _ & E). destruct owners as [|x [|y o]]; subst; try done. by left.
  - destruct H as [-> ->]. by left.
Qed.

Lemma ladderRouting_live stored members l rules triggers : ladderOK true d evt stored members l ->
  handlersLive rules -> handlersLive triggers -> routesLive (ownerLadderRouting l.1.1 l.1.2 rules triggers).
Proof.
  intros HL H1 H2 x g E [Hg Hr]. apply ladder_routing in E as (Eo & Ev & Er).
  pose proof (ladder_live_owners _ _ _ HL) as Hlive. pose proof (ladderOK_owner _ _ _ HL) as Hown.
  pose proof (watching_live rules triggers g H1 H2) as Hw.
  destruct Hr as [-> | [Hr|Hr]].
  - rewrite Eo in *. auto.
  - apply Ev in Hr as [Hr|Hr]; auto.
  - case_bool_decide as Eo'.
    + destruct Er as (_ & Hm & _). apply Hm in Hr. case_bool_decide; auto.
    + rewrite Er in Hr. apply list_elem_of_singleton in Hr as ->. auto.
Qed.

Lemma githubEventHost_asks : asks true d (githubEventHost evt) (fun _ => True).
Proof.
  unfold githubEventHost. case_bool_decide; cbn [negb]; [|by apply asks_ret].
  eapply (asks_bind _ _ (fun _ => True)).
  - destruct (v_entity evt); [apply asks_bind_read|]; by apply asks_ret.
  - intros h _. case_bool_decide; cbn [negb]; [apply asks_bind_read|]; by apply asks_ret.
Qed.

Lemma requestedPartyTeams_asks : asks true d (requestedPartyTeams evt) (fun _ => True).
Proof.
  unfold requestedPartyTeams. destruct (requestedParty evt) as [[login handle] id]. case_bool_decide; [by apply asks_ret|].
  case_bool_decide; cbn [negb].
  - apply asks_bind_read. eapply asks_bind; [apply accountUsers_asks|]. intros us _.
    eapply asks_bind; [apply unionTeams_asks|]. intros ts _. by apply asks_ret.
  - destruct (default (handle, "") (cutSlash handle)) as [org slug]. case_bool_decide; [by apply asks_ret|].
    eapply asks_bind; [apply githubEventHost_asks|]. intros h _. apply asks_bind_read. by apply asks_ret.
Qed.

Lemma owned_live entityID rules triggers c : cacheOK true d evt c -> handlersLive rules -> handlersLive triggers ->
  asks true d (resolveOwnedRouting evt entityID rules triggers c) routesLive.
Proof.
  intros Hc H1 H2. unfold resolveOwnedRouting.
  eapply (asks_bind _ _ (fun l => exists stored members, ladderOK true d evt stored members l)).
  - destruct (isAuthorCentricGitHubEvent _); [|case_bool_decide].
    + eapply asks_weaken; [by apply authorLadder|eauto].
    + eapply asks_weaken; [by apply assigneeLadder|eauto].
    + eapply asks_weaken; [by apply assigneeLadder|eauto].
  - intros [[owner owners] c1] (stored & members & HL). apply asks_ret. by apply (ladderRouting_live _ _ _ _ _ HL).
Qed.

Lemma requested_live rules triggers c : cacheOK true d evt c -> handlersLive rules -> handlersLive triggers ->
  asks true d (resolveRequestedPartyRouting evt rules triggers c) routesLive.
Proof.
  intros Hc H1 H2. unfold resolveRequestedPartyRouting. eapply asks_bind; [apply requestedPartyTeams_asks|].
  intros [gs|] _; [|by apply asks_ret, pool_live]. eapply asks_bind; [by apply (liveTeams_asks true d evt)|].
  intros [ts c1] [-> _]. apply asks_ret. case_bool_decide as E; [done|]. intros x g [= <-] [Hg Hr]. cbn in Hr.
  destruct Hr as [Hr|Hr]; [done|]. assert (g ∈ filter (fun g => g <> "") (live d <$> gs)) as Hin by tauto.
  apply list_elem_of_filter in Hin as [_ Hin]. apply list_elem_of_fmap in Hin as (g0 & Hl & _). right. unfold live in Hl.
  destruct (teamArchived g0 d) eqn:Ea; by subst.
Qed.

Lemma resolve_live entityID rules triggers c : cacheOK true d evt c -> handlersLive rules -> handlersLive triggers ->
  asks true d (resolveTeamRouting evt entityID rules triggers c) routesLive.
Proof.
  intros Hc H1 H2. unfold resolveTeamRouting.
  destruct (OwnershipModelFor _); [by apply asks_ret, pool_live|by apply owned_live|by apply requested_live|by apply asks_ret, pool_live].
Qed.

Lemma routingFor_live entityID : asks true d (routingFor mp evt entityID) (fun '(_, _, r) => routesLive r).
Proof.
  unfold routingFor. eapply asks_bind; [apply matchHandlers_asks|]. intros [[[rs ts] ns] c] (H1 & H2 & Hc).
  eapply asks_bind; [by apply resolve_live|]. intros r Hr. by apply asks_ret.
Qed.

End Live.

End RouteOwners.
