(* ===== verification/RouteHold.v ===== *)
(** * Holding for a score

    The walk of internal/routing/dispatch.go run twice over one task: at the event,
    when the task has no score and the walk may hold at a team with a trigger that
    waits for one, and after scoring, when it goes on from there.  What a trigger
    decides when it is offered is a parameter, [accept], which stands for the
    preflight and the gates of delegation.go and answers alike in both walks; an
    accepted trigger claims the task for its team as the source's commits do, and a
    claimed task declines the triggers of other teams. *)

From S2P Require Import Prelude RouteEvents RouteDb RouteTeams RouteWalk.
Import RouteEvents RouteDb RouteTeams RouteWalk.
Local Open Scope string_scope.
Local Open Scope Z_scope.
Local Open Scope list_scope.

Module RouteHold.

Notation noted := (task * list (handler * string))%type.

Definition setScore (q : option Q) (t : task) : task :=
  MkTask (t_id t) (t_entity t) (t_type t) (t_key t) (t_primary t) (t_status t) (t_priority t) (t_created t) (t_team t) (t_agent t)
    (t_user t) q (t_held t) (t_closed t).

(** Nobody has the task. *)
Definition free (t : task) : bool := bool_decide (t_agent t = "" /\ t_user t = "").

(** The task does not belong to another team's bot. *)
Definition openTo (acting : string) (t : task) : bool :=
  negb (bool_decide (t_agent t <> "" /\ acting <> "" /\ t_team t <> acting)).

Section Commit.

Context (accept : handler -> string -> bool) (bot : string) (Hbot : bot <> "").

(** A commit that decides by [accept], claims the task when it accepts, and
    writes down what it was offered. *)
Definition note (h : handler) (acting : string) (s : noted) : M (bool * noted) :=
  let ok := accept h acting && openTo acting s.1 in
  ret (ok, (claimCommitted acting bot ok s.1, s.2 ++ [(h, acting)])).

(** A walk over the task, with this score: the triggers it offers, in order, the
    task it leaves and where it held, empty when it did not. *)
Definition walked (d : rdb) (routing : eventRouting) (fromHold : bool) (score : option Q) (t : task)
  : list (handler * string) * task * string :=
  match walkTriggers fst note routing fromHold (setScore score t, []) (World d []) with
  | (Ok w, _) => ((wst w).2, (wst w).1, heldBy (walk w))
  | (Err _, _) => ([], t, "")
  end.

(** ** One trigger *)

Definition firesAt (score : option Q) (h : handler) : bool :=
  negb (deferredTrigger h) || match score with Some s => Qle_bool (derefFloatDefault (h_suitability h) 0%Q) s | None => false end.
Definition waits (score : option Q) (h : handler) : bool := deferredTrigger h && bool_decide (score = None).

Section Hold.

Context (d : rdb) (Hmodel : noModel (conf d) = false).

Definition scored (g : modelRead) : Prop := g = NotRead \/ g = HasModel.

Lemma outcome_calm score g h : scored g -> exists g', scored g' /\
  RouteWalk.outcome score g h (World d []) = (Ok (if firesAt score h then FireNow else if waits score h then TUndecided else Skip, None, g'), World d []).
Proof.
  intros Hg. unfold RouteWalk.outcome, firesAt, waits. destruct (deferredTrigger h); cbn [negb orb andb]; [|by exists g].
  destruct score as [s|]; [exists g; split; [done|]; by destruct (Qle_bool _ _)|].
  destruct Hg as [-> | ->].
  - exists HasModel. split; [by right|]. unfold bind, try, orgHasNoBackgroundModel, read, call. cbn. by rewrite Hmodel.
  - exists HasModel. split; [by right|done].
Qed.

Definition triedBy (score : option Q) (acting : string) (hs : list handler) : list (handler * string) :=
  map (fun h => (h, acting)) (filter (fun h => firesAt score h = true) hs).

(** The task after a team's triggers were offered. *)
Definition commits (score : option Q) (acting : string) (hs : list handler) (t : task) : bool :=
  existsb (fun h => firesAt score h && accept h acting) hs && openTo acting t.
Definition after (score : option Q) (acting : string) (hs : list handler) (t : task) : task :=
  claimCommitted acting bot (commits score acting hs t) t.

Lemma open_claimed acting t : acting <> "" -> openTo acting (claimCommitted acting bot true t) = true.
Proof.
  intros Ha. unfold openTo, claimCommitted. rewrite (bool_decide_eq_false_2 (acting = "")) by done. cbn.
  by rewrite bool_decide_eq_false_2 by tauto.
Qed.

Lemma after_cons score acting h hs t : acting <> "" ->
  let t1 := claimCommitted acting bot (firesAt score h && accept h acting && openTo acting t) t in
  after score acting hs t1 = after score acting (h :: hs) t /\
  commits score acting (h :: hs) t = (firesAt score h && accept h acting && openTo acting t) || commits score acting hs t1.
Proof.
  intros Ha. unfold after, commits. cbn [existsb]. destruct (firesAt score h && accept h acting); cbn [andb orb]; [|done].
  destruct (openTo acting t) eqn:Eo; [|cbn; by rewrite Eo, andb_false_r]. rewrite open_claimed by done. split; [|done].
  destruct (existsb _ hs); [|done]. cbn. unfold claimCommitted. by rewrite (bool_decide_eq_false_2 (acting = "")).
Qed.

Lemma tryTriggers_notes won score acting hs (p : teamPass noted) : acting <> "" -> scored (gate p) ->
  exists p', tryTriggers note won score acting hs p (World d []) = (Ok p', World d []) /\
    scored (gate p') /\ errs p' = errs p /\ committed p' = committed p || commits score acting hs (st p).1 /\
    undecided p' = undecided p || existsb (waits score) hs /\
    st p' = (after score acting hs (st p).1, (st p).2 ++ triedBy score acting hs).
Proof.
  intros Ha. revert p. induction hs as [|h hs IH]; intros p Hg; cbn [tryTriggers].
  - exists p. unfold triedBy, after, commits. cbn. rewrite !orb_false_r, app_nil_r. destruct (st p). by split_and!.
  - destruct (outcome_calm score (gate p) h Hg) as (g' & Hg' & Ho).
    set (ok := firesAt score h && accept h acting && openTo acting (st p).1).
    assert (exists q, tryTrigger note won score acting p h (World d []) = (Ok q, World d []) /\ scored (gate q) /\ errs q = errs p /\
      committed q = committed p || ok /\ undecided q = undecided p || waits score h /\
      st q = (claimCommitted acting bot ok (st p).1, (st p).2 ++ (if firesAt score h then [(h, acting)] else [])))
      as (q & Hq & Q1 & Q2 & Q3 & Q4 & Q5).
    { unfold tryTrigger, bind, ok. rewrite Ho. unfold waits, firesAt.
      destruct (deferredTrigger h); [destruct score as [s|]; [destruct (Qle_bool _ s)|]|];
        cbn; eexists; (split; [reflexivity|]); cbn;
        destruct won; rewrite ?orb_true_r, ?orb_false_r, ?app_nil_r; destruct (st p); by split_and!. }
    destruct (IH q Q1) as (p' & Hp & P1 & P2 & P3 & P4 & P5). destruct (after_cons score acting h hs (st p).1 Ha) as [A1 A2].
    fold ok in A1, A2. rewrite Q5 in P3, P5. cbn [fst snd] in P3, P5.
    exists p'. unfold bind. rewrite Hq. split_and!; try done; try congruence.
    + by rewrite P3, Q3, A2, orb_assoc.
    + rewrite P4, Q4. cbn [existsb]. by rewrite orb_assoc.
    + rewrite P5, A1. unfold triedBy. rewrite filter_cons. destruct (firesAt score h) eqn:E;
        [rewrite decide_True by done|rewrite decide_False by done]; cbn; by rewrite <- app_assoc.
Qed.

(** ** One team *)

Context (routing : eventRouting).

Definition actingFor (t : task) (g : string) : string := effectiveActingTeam g (t_team t).

(** The team automates, and has triggers. *)
Definition enabled (t : task) (g : string) : bool :=
  negb (bool_decide (teamTriggers routing g = [])) && negb (bool_decide (actingFor t g = "")) &&
  match teams d !! actingFor t g with Some x => g_autoDelegate x | None => false end.

Definition waiting (t : task) (g : string) : bool := enabled t g && existsb deferredTrigger (teamTriggers routing g).

Definition notedAt (reached : bool) (l : list (handler * string)) (t : task) (held : string) (w : walkState noted) : Prop :=
  reachedHold w = reached /\ scored (wgate w) /\ heldBy (walk w) = held /\ wst w = (t, l) /\
  (winner (walk w) <> "" -> free t = false).

Lemma autoDelegate_calm t g : autoDelegateEnabledForTeam (actingFor t g) (World d []) =
  (Ok (negb (bool_decide (actingFor t g = "")) && match teams d !! actingFor t g with Some x => g_autoDelegate x | None => false end), World d []).
Proof. unfold autoDelegateEnabledForTeam. by case_bool_decide. Qed.

Lemma free_claimed acting t : free (claimCommitted acting bot true t) = false.
Proof. apply bool_decide_eq_false. cbn. tauto. Qed.

Lemma free_after score acting hs t : free (after score acting hs t) = negb (commits score acting hs t) && free t.
Proof. unfold after. destruct (commits score acting hs t); [by rewrite free_claimed|done]. Qed.

Lemma walkTeam_notes score reached l t w g : notedAt reached l t "" w ->
  exists w', let hs := if reached then teamTriggers routing g else filter (fun h => deferredTrigger h = true) (teamTriggers routing g) in
    let here := enabled t g && (reached || waiting t g) in
    let t' := if here then after score (actingFor t g) hs t else t in
    let held := here && existsb (waits score) hs && free t' in
    walkTeam fst note score routing w g (World d []) = (Ok (w', held), World d []) /\
    notedAt (reached || here) (l ++ (if here then triedBy score (actingFor t g) hs else [])) t'
      (if held then actingFor t g else "") w'.
Proof.
  intros (R & G & K & S & W). cbv zeta. unfold walkTeam. case_bool_decide as Ht.
  { exists w. unfold enabled. rewrite Ht. cbn. rewrite orb_false_r, app_nil_r. by split_and!. }
  rewrite S. cbn [fst]. fold (actingFor t g). unfold bind, try. rewrite autoDelegate_calm.
  assert (enabled t g = negb (bool_decide (actingFor t g = "")) && match teams d !! actingFor t g with Some x => g_autoDelegate x | None => false end) as En.
  { unfold enabled. by rewrite (bool_decide_eq_false_2 (teamTriggers routing g = [])). }
  rewrite <- En. unfold waiting. destruct (enabled t g); cbn [andb].
  2: { exists w. rewrite orb_false_r, app_nil_r. by split_and!. }
  assert (Ha : actingFor t g <> "") by (case_bool_decide; [done|done]). clear En.
  rewrite R. destruct (negb reached && negb (existsb deferredTrigger (teamTriggers routing g))) eqn:Skip.
  - apply andb_prop in Skip as [Hr Hd]. apply negb_true_iff in Hr, Hd. subst reached. exists w. rewrite Hd, Hr. cbn [orb andb]. rewrite app_nil_r. by split_and!.
  - assert (reached || existsb deferredTrigger (teamTriggers routing g) = true) as Hhere
      by (by destruct reached, (existsb deferredTrigger (teamTriggers routing g))).
    rewrite Hhere, orb_true_r. cbn [andb]. set (hs := if reached then _ else _).
    destruct (tryTriggers_notes (negb (bool_decide (winner (walk w) = ""))) score (actingFor t g) hs
      (MkPass "" false false false (wgate w) (werrs w) (wst w)) Ha) as (p & Hp & P1 & P2 & P3 & P4 & P5); [done|].
    rewrite S in Hp, P3, P5. rewrite Hp, P3, P4, P5. cbn [fst snd andb orb committed undecided st] in *.
    fold (free (after score (actingFor t g) hs t)). rewrite free_after.
    assert (Hw : winner (walk w) <> "" -> free t = false) by done.
    destruct (commits score (actingFor t g) hs t) eqn:Ec; cbn [negb andb]; [|destruct (negb (bool_decide (winner (walk w) = "")) && _) eqn:El].
    + rewrite andb_false_r. eexists. split; [reflexivity|]. split_and!; cbn; try done. intros _. by rewrite free_after, Ec.
    + apply andb_prop in El as [Hne%negb_true_iff%bool_decide_eq_false _]. rewrite (Hw Hne), andb_false_r.
      eexists. split; [reflexivity|]. split_and!; cbn; try done. by rewrite free_after, Ec.
    + destruct (existsb (waits score) hs && free t); eexists; (split; [reflexivity|]); split_and!; cbn; try done; by rewrite free_after, Ec.
Qed.

(** ** The three walks *)

(** The scored walk offers every team's triggers; the walk without a score stops
    at the first team that waits while the task is free; the one from the hold
    starts with what that team waits for. *)
Fixpoint scoredWalk (s : Q) (gs : list string) (t : task) : list (handler * string) * task :=
  match gs with
  | [] => ([], t)
  | g :: gs =>
      if enabled t g then
        let a := actingFor t g in
        let r := scoredWalk s gs (after (Some s) a (teamTriggers routing g) t) in
        (triedBy (Some s) a (teamTriggers routing g) ++ r.1, r.2)
      else scoredWalk s gs t
  end.

Fixpoint firstWalk (gs : list string) (t : task) : list (handler * string) * task * string :=
  match gs with
  | [] => ([], t, "")
  | g :: gs =>
      if enabled t g then
        let a := actingFor t g in
        let t' := after None a (teamTriggers routing g) t in
        let tried := triedBy None a (teamTriggers routing g) in
        if existsb deferredTrigger (teamTriggers routing g) && free t' then (tried, t', a)
        else let r := firstWalk gs t' in (tried ++ r.1.1, r.1.2, r.2)
      else firstWalk gs t
  end.

Fixpoint resumedWalk (s : Q) (gs : list string) (t : task) : list (handler * string) * task :=
  match gs with
  | [] => ([], t)
  | g :: gs =>
      if waiting t g then
        let a := actingFor t g in
        let hs := filter (fun h => deferredTrigger h = true) (teamTriggers routing g) in
        let r := scoredWalk s gs (after (Some s) a hs t) in (triedBy (Some s) a hs ++ r.1, r.2)
      else resumedWalk s gs t
  end.

(** The first automating team, in firing order, with a trigger that waits. *)
Definition holder (t : task) (gs : list string) : string :=
  default "" (actingFor t <$> head (filter (fun g => waiting t g = true) gs)).

Lemma waits_scored s hs : existsb (waits (Some s)) hs = false.
Proof. induction hs as [|h hs IH]; [done|]. cbn. rewrite IH. unfold waits. by rewrite andb_false_r. Qed.

Lemma waits_unscored hs : existsb (waits None) hs = existsb deferredTrigger hs.
Proof. induction hs as [|h hs IH]; [done|]. cbn. rewrite IH. unfold waits. by rewrite andb_true_r. Qed.

Lemma waiting_enabled t g : enabled t g && waiting t g = waiting t g.
Proof. unfold waiting. by destruct (enabled t g). Qed.

Lemma walk_scored s gs l t w : notedAt true l t "" w ->
  exists w', walkFrom fst note (Some s) routing gs w (World d []) = (Ok w', World d []) /\
    notedAt true (l ++ (scoredWalk s gs t).1) (scoredWalk s gs t).2 "" w'.
Proof.
  revert l t w. induction gs as [|g gs IH]; intros l t w Hw.
  - exists w. cbn. by rewrite app_nil_r.
  - cbn [scoredWalk]. destruct (walkTeam_notes (Some s) _ _ _ _ g Hw) as (w' & H). cbn [orb] in H.
    rewrite waits_scored, andb_true_r, andb_false_r in H. cbn [andb] in H. destruct H as [H Hw']. cbn [walkFrom]. unfold bind. rewrite H.
    destruct (enabled t g); destruct (IH _ _ _ Hw') as (w2 & H2 & Hw2); exists w2; (split; [done|]); cbn [fst snd];
      by rewrite <-app_assoc in Hw2.
Qed.

Lemma walk_first gs l t w : notedAt true l t "" w ->
  exists w', walkFrom fst note None routing gs w (World d []) = (Ok w', World d []) /\
    notedAt true (l ++ (firstWalk gs t).1.1) (firstWalk gs t).1.2 (firstWalk gs t).2 w'.
Proof.
  revert l t w. induction gs as [|g gs IH]; intros l t w Hw.
  - exists w. cbn. by rewrite app_nil_r.
  - cbn [firstWalk]. destruct (walkTeam_notes None _ _ _ _ g Hw) as (w' & H). cbn [orb] in H.
    rewrite waits_unscored, andb_true_r in H. destruct H as [H Hw']. cbn [walkFrom]. unfold bind. rewrite H.
    destruct (enabled t g); cbn [andb] in *.
    + destruct (existsb deferredTrigger (teamTriggers routing g) && free _).
      * by exists w'.
      * destruct (IH _ _ _ Hw') as (w2 & H2 & Hw2); exists w2; (split; [done|]). cbn [fst snd]. by rewrite <-app_assoc in Hw2.
    + destruct (IH _ _ _ Hw') as (w2 & H2 & Hw2); exists w2; (split; [done|]). by rewrite <-app_assoc in Hw2.
Qed.

Lemma walk_resumed s gs l t w : notedAt false l t "" w ->
  exists w' r, walkFrom fst note (Some s) routing gs w (World d []) = (Ok w', World d []) /\
    notedAt r (l ++ (resumedWalk s gs t).1) (resumedWalk s gs t).2 "" w'.
Proof.
  revert l t w. induction gs as [|g gs IH]; intros l t w Hw.
  - exists w, false. cbn. by rewrite app_nil_r.
  - cbn [resumedWalk]. destruct (walkTeam_notes (Some s) _ _ _ _ g Hw) as (w' & H). cbn [orb] in H.
    rewrite waiting_enabled, waits_scored, andb_false_r in H. cbn [andb] in H. destruct H as [H Hw']. cbn [walkFrom]. unfold bind. rewrite H.
    destruct (waiting t g).
    + destruct (walk_scored s gs _ _ _ Hw') as (w2 & H2 & Hw2). exists w2, true. split; [done|]. cbn [fst snd]. by rewrite <-app_assoc in Hw2.
    + rewrite app_nil_r in Hw'. by apply IH.
Qed.

Lemma triedBy_split s acting hs :
  triedBy None acting hs ++ triedBy (Some s) acting (filter (fun h => deferredTrigger h = true) hs) ≡ₚ triedBy (Some s) acting hs.
Proof.
  unfold triedBy. rewrite <- map_app. apply Permutation_map. induction hs as [|h hs IH]; [done|]. rewrite !filter_cons.
  assert (firesAt None h = negb (deferredTrigger h)) as E1 by (unfold firesAt; apply orb_false_r).
  assert (deferredTrigger h = false -> firesAt (Some s) h = true) as E2 by (unfold firesAt; by intros ->).
  assert (deferredTrigger h = true \/ deferredTrigger h = false) as [E|E] by (by destruct (deferredTrigger h); [left|right]); rewrite E in E1, E2; cbn [negb] in E1.
  - rewrite (decide_False (P := firesAt None h = true)) by congruence. rewrite (decide_True (P := deferredTrigger h = true)) by done.
    rewrite filter_cons. case_decide; [|done]. by rewrite <- Permutation_middle, IH.
  - rewrite (decide_True (P := firesAt None h = true)) by done. rewrite (decide_False (P := deferredTrigger h = true)) by congruence.
    rewrite (decide_True (P := firesAt (Some s) h = true)) by auto. cbn. by rewrite IH.
Qed.

(** Without a trigger that waits the score changes nothing. *)
Lemma triedBy_plain s acting hs : existsb deferredTrigger hs = false -> triedBy None acting hs = triedBy (Some s) acting hs.
Proof.
  intros H. unfold triedBy. f_equal. induction hs as [|h hs IH]; [done|]. cbn in H. apply orb_false_elim in H as [E H].
  rewrite !filter_cons, IH by done. by rewrite !decide_True by (unfold firesAt; by rewrite E).
Qed.

(** Offered alone and then with the ones that wait, the triggers commit as they
    do together. *)
Lemma commits_split s acting hs t : commits None acting hs t = false -> openTo acting t = true ->
  commits (Some s) acting (filter (fun h => deferredTrigger h = true) hs) t = commits (Some s) acting hs t.
Proof.
  unfold commits. intros Hn Ho. rewrite Ho in *. rewrite !andb_true_r in *. clear Ho. induction hs as [|h hs IH]; [done|].
  cbn [existsb] in Hn. apply orb_false_elim in Hn as [Hh Hn]. rewrite filter_cons. cbn [existsb]. rewrite <-(IH Hn).
  destruct (deferredTrigger h) eqn:E; [by rewrite decide_True|rewrite decide_False by done].
  unfold firesAt in *. rewrite E in *. cbn in *. by rewrite Hh.
Qed.

Lemma commits_plain s acting hs t : existsb deferredTrigger hs = false -> commits (Some s) acting hs t = commits None acting hs t.
Proof.
  unfold commits. intros H. f_equal. induction hs as [|h hs IH]; [done|]. cbn in H. apply orb_false_elim in H as [E H].
  cbn [existsb]. rewrite IH by done. unfold firesAt. by rewrite E.
Qed.

Lemma free_open acting t : free t = true -> openTo acting t = true.
Proof. intros [Ha _]%bool_decide_eq_true. unfold openTo. by rewrite bool_decide_eq_false_2 by tauto. Qed.

(** A claimed task is never held, and stays claimed. *)
Lemma first_claimed gs t : free t = false -> free (firstWalk gs t).1.2 = false /\ (firstWalk gs t).2 = "".
Proof.
  revert t. induction gs as [|g gs IH]; intros t Hf; [done|]. cbn [firstWalk]. destruct (enabled t g); [|by apply IH].
  rewrite free_after, Hf, !andb_false_r. cbn [fst snd]. apply IH. by rewrite free_after, Hf, andb_false_r.
Qed.

(** Two tasks of the same team that nobody has: one not yet scored, one scored. *)
Definition alike (t u : task) : Prop := t_team u = t_team t /\ free t = true /\ free u = true.

Lemma alike_enabled t u g : alike t u -> enabled u g = enabled t g /\ actingFor u g = actingFor t g /\ waiting u g = waiting t g.
Proof. intros (E & _). unfold waiting, enabled, actingFor. by rewrite E. Qed.

Lemma alike_commits score acting hs t u : alike t u -> commits score acting hs u = commits score acting hs t.
Proof. intros (_ & H1 & H2). unfold commits. by rewrite !(free_open acting). Qed.

Lemma hold_splits s gs t u : alike t u ->
  let '(l, t', held) := firstWalk gs t in
  (held <> "" -> t' = t /\ held = holder t gs /\ l ++ (resumedWalk s gs u).1 ≡ₚ (scoredWalk s gs u).1 /\
     (resumedWalk s gs u).2 = (scoredWalk s gs u).2) /\
  (held = "" -> free t' = true -> t' = t /\ holder t gs = "" /\ l = (scoredWalk s gs u).1 /\ (scoredWalk s gs u).2 = u).
Proof.
  intros Hal. pose proof Hal as (Et & Hft & Hfu). induction gs as [|g gs IH]; [done|]. cbn [firstWalk resumedWalk scoredWalk].
  destruct (alike_enabled t u g Hal) as (-> & -> & ->). unfold holder. rewrite filter_cons.
  set (a := actingFor t g). set (hs := teamTriggers routing g).
  assert (waiting t g = enabled t g && existsb deferredTrigger hs) as Hwait by done.
  destruct (enabled t g) eqn:En; cbn [andb] in Hwait.
  2: { rewrite Hwait, decide_False by done. exact IH. }
  assert (Ha : a <> "").
  { unfold enabled in En. fold a in En. case_bool_decide; [done|]. cbn in En. case_bool_decide; [done|done]. }
  rewrite free_after, Hft, andb_true_r. destruct (commits None a hs t) eqn:Ec; cbn [negb].
  - rewrite andb_false_r. destruct (first_claimed gs (after None a hs t)) as [Hc Hh]; [by rewrite free_after, Ec|].
    destruct (firstWalk gs _) as [[l' t'] held']. cbn [fst snd] in *. split; [done|congruence].
  - assert (after None a hs t = t) as Eaft by (unfold after; by rewrite Ec). rewrite Eaft, andb_true_r, Hwait.
    destruct (existsb deferredTrigger hs) eqn:Ed.
    + rewrite decide_True by done. split; [intros _|done].
      assert (after (Some s) a (filter (fun h => deferredTrigger h = true) hs) u = after (Some s) a hs u) as Eaft'
        by (unfold after; f_equal; apply commits_split; [by rewrite (alike_commits _ _ _ t)|by apply free_open]).
      rewrite Eaft'. split_and!; [done|done| |done]. cbn [fst snd]. rewrite app_assoc. by rewrite triedBy_split.
    + rewrite decide_False by done. rewrite <-(triedBy_plain s) by done.
      assert (after (Some s) a hs u = u) as Eu
        by (unfold after; by rewrite commits_plain, (alike_commits _ _ _ t), Ec).
      rewrite Eu. destruct (firstWalk gs t) as [[l' t'] held']. cbn [fst snd]. destruct IH as [IH1 IH2]. split.
      * intros Hne. destruct (IH1 Hne) as (? & ? & Hp & ?). split_and!; try done. by rewrite <-app_assoc, Hp.
      * intros Hnil Hf. destruct (IH2 Hnil Hf) as (? & ? & -> & ?). by split_and!.
Qed.

Lemma start_noted score b t : notedAt (negb b) [] (setScore score t) "" (MkWS (MkWalk "" [] "") (negb b) NotRead [] (setScore score t, [])).
Proof. unfold notedAt. cbn. split_and!; try done. by left. Qed.

Lemma walked_scored s t : (walked d routing false (Some s) t).1 = scoredWalk s (orderedTeams routing) (setScore (Some s) t).
Proof.
  unfold walked, walkTriggers. cbn [fst t_score setScore].
  destruct (walk_scored s (orderedTeams routing) _ _ _ (start_noted (Some s) false t)) as (w & H & _ & _ & _ & S & _).
  cbn [negb] in *. rewrite H. cbn [fst]. rewrite S. cbn. by destruct (scoredWalk _ _ _).
Qed.

Lemma walked_first t : walked d routing false None t = firstWalk (orderedTeams routing) (setScore None t).
Proof.
  unfold walked, walkTriggers. cbn [fst t_score setScore].
  destruct (walk_first (orderedTeams routing) _ _ _ (start_noted None false t)) as (w & H & _ & _ & K & S & _).
  cbn [negb] in *. rewrite H, K, S. cbn. by destruct (firstWalk _ _) as [[] ].
Qed.

Lemma walked_resumed s t : (walked d routing true (Some s) t).1 = resumedWalk s (orderedTeams routing) (setScore (Some s) t).
Proof.
  unfold walked, walkTriggers. cbn [fst t_score setScore].
  destruct (walk_resumed s (orderedTeams routing) _ _ _ (start_noted (Some s) true t)) as (w & r & H & _ & _ & _ & S & _).
  cbn [negb] in *. rewrite H. cbn [fst]. rewrite S. cbn. by destruct (resumedWalk _ _ _).
Qed.

End Hold.

End Commit.

End RouteHold.
