(* ===== verification/RouteSpec.v ===== *)
(** * What routing promises

    The theorems of the event router: its tables over any run with any faults, the
    terminating close, the owner ladders, the firing order, live teams, and the
    walk that holds for a score. *)

From S2P Require Import Prelude RouteEvents RouteDb RouteTeams RouteWalk RouteClose RouteEvent RouteInv RouteTables RouteOwners RouteHold.
Import RouteEvents RouteDb RouteTeams RouteWalk RouteClose RouteEvent RouteInv RouteTables RouteAsks RouteOwners RouteClosing RouteHold.
Local Open Scope string_scope.
Local Open Scope Z_scope.
Local Open Scope list_scope.

Module RouteSpec.

(** ** Runs *)

(** What the process does with the tables: an event routed directly or from the
    queue, a task evaluated after scoring, a queued firing, and the sweep of held
    closes. *)
Inductive action :=
| ARoute (now : Z) (evt : event) (judgedAt : option Z)
| AQueued (now : Z) (eventID : string) (judgedAt : option Z)
| AReDerive (id : nat)
| AFiring (f : firing)
| ASweep.

Section Runs.

Variables (mp : handler -> event -> option bool) (sd : rdb -> nat -> string -> InjectOutcome) (ge : rdb -> string -> option event)
  (gt : rdb -> string -> option (handler * bool)).

Definition perform (a : action) : M unit :=
  let done {A} (m : M A) : M unit := let! _ := try m in ret tt in
  match a with
  | ARoute now evt j => done (routeEvent mp sd now evt j)
  | AQueued now e j => done (processQueuedEvent mp sd ge now e j)
  | AReDerive i => done (processReDerive mp ge i)
  | AFiring f => done (processFiring gt f)
  | ASweep => done (sweepCloseDeferrals ge)
  end.

Fixpoint performAll (l : list action) : M unit := match l with [] => ret tt | a :: l => let! _ := perform a in performAll l end.

Lemma performAll_keeps (I : rdb -> Prop) `{!Routed I} l : keeps I (performAll l).
Proof.
  induction l as [|a l IH]; cbn [performAll]; [apply keeps_ret|]. apply keeps_bind; [|done].
  destruct a; (apply keeps_bind; [apply keeps_try|intros; apply keeps_ret]).
  - by apply routeEvent_keeps.
  - by apply processQueuedEvent_keeps.
  - by apply processReDerive_keeps.
  - by apply processFiring_keeps.
  - by apply sweep_keeps.
Qed.

(** C8: Whatever is routed, drained, re-evaluated or swept, in any order and any
    number of times, whichever store calls fail before or after committing, and
    whatever other writers do that respects them, the tables stay well formed: one
    open task per entity, event type and dedup key; one run per event and trigger;
    one running run per task; one unsettled firing per task and trigger; at most
    one claim on a task; ids and references in place. *)
Theorem routing_keeps_its_tables (l : list action) (w : world) (Hw : safe routeOK w) : routeOK (db (performAll l w).2).
Proof. by apply (performAll_keeps routeOK). Qed.

(** C32: Over every such run a closed task is never opened again, and a task a
    person claimed stays theirs and gets no agent. *)
Theorem closed_and_claimed_tasks_stay (l : list action) (w : world) (i j : nat) (user agent : string)
    (Hi : safe (ofTask closedTask i) w) (Hj : safe (ofTask (personsTask user agent) j) w) :
  (exists t, tasks (db (performAll l w).2) !! i = Some t /\ isActive t = false) /\
  (exists t, tasks (db (performAll l w).2) !! j = Some t /\ t_user t = user /\ t_agent t = agent).
Proof.
  split; [apply (performAll_keeps (ofTask closedTask i)); exact Hi|].
  destruct (performAll_keeps (ofTask (personsTask user agent) j) l w Hj) as [(t & Ht & _ & Hu & Ha) _]. by exists t.
Qed.

End Runs.

(** ** Closing *)

Lemma terminating_covers et rel ty : terminatingRelationFor et = Some rel -> is_Some (registry !! ty) ->
  ofSource (eventSourcePrefix et) ty = true -> ty ∈ closes rel \/ TaskMayRideClosedEntity ty = true.
Proof.
  unfold terminatingRelationFor. intros Hf [m Hm] Hs. apply List.find_some in Hf as [Hin Hr].
  apply andb_prop in Hr as [Ht He]. apply bool_decide_eq_true in He. pose proof relations_cover as HC.
  rewrite List.forallb_forall in HC. specialize (HC rel Hin). rewrite Ht in HC. cbn [negb orb] in HC. unfold covers in HC.
  rewrite List.forallb_forall in HC. specialize (HC et). rewrite <- list_elem_of_In, List.forallb_forall in HC. specialize (HC He (ty, m)).
  rewrite <- list_elem_of_In, elem_of_map_to_list in HC. specialize (HC Hm). cbn beta iota in HC. rewrite Hs in HC. cbn [negb orb] in HC.
  apply orb_prop in HC as [HC|HC]; [left; by apply bool_decide_eq_true in HC|by right].
Qed.

(** C25: A terminating event whose entity is open, at the version the event was
    judged at, closes the entity and settles every open task of the types it
    resolves in one transaction: idle ones are closed, ones being worked on are
    held for this event, every other task is untouched, and no task of the
    entity's source is left but those held and the types a closed entity may
    carry.  Otherwise it writes nothing. *)
Theorem terminating_event_clears_its_entity (d : rdb) (evt : event) (entityID : string) (rel : closeRelation) (judgedAt : option Z)
    (Hrel : terminatingRelationFor (v_type evt) = Some rel) (Hok : routeOK d) (Hid : v_id evt <> "") :
  if closable d entityID judgedAt then
    exists d', runTerminatingClose evt entityID rel judgedAt (World d []) = (Ok true, World d' []) /\
      entities d' = alter closeEntity entityID (entities d) /\
      (forall i, tasks d' !! i = afterTerminal d rel evt entityID i <$> tasks d !! i) /\
      (forall i t, tasks d' !! i = Some t -> isActive t = true -> t_entity t = entityID ->
         is_Some (registry !! t_type t) -> ofSource (eventSourcePrefix (v_type evt)) (t_type t) = true ->
         t_held t = Some (v_id evt) \/ TaskMayRideClosedEntity (t_type t) = true)
  else runTerminatingClose evt entityID rel judgedAt (World d []) = (Ok false, World d []).
Proof.
  destruct (closable d entityID judgedAt) eqn:Hc; [|by apply terminal_declined].
  destruct (terminal_closes d evt entityID rel judgedAt Hc Hok Hid) as (d' & H1 & H2 & _ & H3). exists d'. split_and!; [done..|].
  intros i t Ht Ha He Hreg Hs. rewrite H3 in Ht. destruct (tasks d !! i) as [u|]; [|done]. cbn in Ht. injection Ht as <-.
  unfold afterTerminal, judged in *. cbv zeta in *. destruct (aimedAt entityID (closes rel) u) eqn:Hat.
  - assert (isActive u = true) as Hu by (unfold aimedAt in Hat; by destruct (isActive u)). rewrite Hu in *.
    destruct (heldOpen _ i); [by left|done].
  - destruct (terminating_covers _ _ _ Hrel Hreg Hs) as [Hin|Hride]; [|by right].
    unfold aimedAt in Hat. rewrite Ha in Hat. apply bool_decide_eq_false in Hat. by destruct Hat.
Qed.

(** A store call that works, and one that is refused, with nobody else writing. *)
Definition works : turn := Turn id Works.
Definition refused : turn := Turn id Refused.

(** An event on a closed entity is consumed, and nothing is written. *)
Lemma closed_entity_consumes mp sd now evt entityID judgedAt d e :
  v_org evt <> "" -> eventAllowed (conf d) (v_type evt) = true -> sourceDisabled (conf d) (eventSourcePrefix (v_type evt)) = false ->
  v_entity evt = Some entityID -> entities d !! entityID = Some e -> e_active e = false ->
  routeEvent mp sd now evt judgedAt (World d []) = (Ok (MkRouted [] DispositionTasklessUnroutable None 0 None), World d []).
Proof.
  intros Ho Ha Hs Hv He Hc. unfold routeEvent. rewrite bool_decide_eq_false_2 by done. unfold bind at 1, peek. cbn [db]. rewrite Ha. cbn [negb].
  unfold stage, bind, try, read, call, routableEntity. cbn [script db]. rewrite Hs, Hv. cbn. by rewrite He, Hc.
Qed.

(** The close ahead of other turns. *)
Lemma terminating_ahead evt entityID rel judgedAt d d' b s :
  runTerminatingClose evt entityID rel judgedAt (World d []) = (Ok b, World d' []) ->
  runTerminatingClose evt entityID rel judgedAt (World d (works :: s)) = (Ok b, World d' s).
Proof.
  unfold runTerminatingClose, bind, call. cbn [script db works meanwhile RouteDb.outcome]. unfold id.
  destruct (CloseTerminal _ _ _ _ _ _ d) as [[x|e] d1]; [|done]. cbn. by intros [= <- <-].
Qed.

(** C38: A terminating event whose routing fails after its close has committed (here
    the handlers could not be read) is returned to the queue, but its retry finds
    the entity closed and is consumed without minting the task it was to leave on
    the closed entity. *)
Theorem retried_terminating_event_mints_nothing (mp : handler -> event -> option bool) (sd : rdb -> nat -> string -> InjectOutcome)
    (now later : Z) (d : rdb) (evt : event) (entityID : string) (rel : closeRelation) (judgedAt : option Z)
    (Horg : v_org evt <> "") (Hid : v_id evt <> "") (Hallowed : eventAllowed (conf d) (v_type evt) = true)
    (Hsource : sourceDisabled (conf d) (eventSourcePrefix (v_type evt)) = false) (Hent : v_entity evt = Some entityID)
    (Hrel : terminatingRelationFor (v_type evt) = Some rel) (Hnews : v_type evt <> EventSystemEntityCloseOwed)
    (Hok : routeOK d) (Hopen : closable d entityID judgedAt = true) :
  exists d', routeEvent mp sd now evt judgedAt (World d [works; works; works; refused]) =
      (Ok (MkRouted [Fault] DispositionError None 0 None), World d' []) /\
    length (tasks d') = length (tasks d) /\
    routeEvent mp sd later evt judgedAt (World d' []) = (Ok (MkRouted [] DispositionTasklessUnroutable None 0 None), World d' []).
Proof.
  destruct (terminal_closes d evt entityID rel judgedAt Hopen Hok Hid) as (d' & H1 & H2 & H3 & H4). exists d'.
  unfold closable in Hopen. destruct (entities d !! entityID) as [e|] eqn:He; [|done]. apply andb_prop in Hopen as [Ha _].
  split_and!.
  - unfold routeEvent. rewrite bool_decide_eq_false_2 by done. unfold bind at 1, peek. cbn [db]. rewrite Hallowed. cbn [negb].
    unfold stage, bind, try, read, call, routableEntity. cbn [script db works meanwhile RouteDb.outcome]. unfold id. rewrite Hsource, Hent.
    unfold bind, read, call. cbn [script db works meanwhile RouteDb.outcome]. unfold id. rewrite He. cbn. rewrite Ha.
    unfold closePhase. rewrite Hrel. unfold bind. rewrite (terminating_ahead _ _ _ _ _ _ _ _ H1). cbn [negb]. unfold ret at 1.
    rewrite (bool_decide_eq_false_2 (v_type evt = EventSystemEntityCloseOwed)) by done. reflexivity.
  - replace (tasks d') with (imap (afterTerminal d rel evt entityID) (tasks d)) by (apply list_eq; intros i; by rewrite list_lookup_imap, H4).
    apply length_imap.
  - eapply closed_entity_consumes; [done|by rewrite H3|by rewrite H3|done|rewrite H2, lookup_alter_eq, He; reflexivity|done].
Qed.

(** ** Owners *)

(** C31: Both owner ladders answer their specification: the first stored owner whose
    team is live (the entity's, then the latest task's), else the author's or
    assignee's teams in scope, with an owner only when there is exactly one.  When
    the reads work that is the answer; when some fail the ladder errs or widens the
    member teams, and never takes a stored owner away or hands the event to a team
    outside the members'. *)
Theorem owner_ladders_answer (calm : bool) (d : rdb) (evt : event) (entityID : string) (types : list string) (c : teamScopeCache)
    (Hc : cacheOK calm d evt c) :
  asks calm d (authorCentricOwner evt entityID c)
    (ladderOK calm d evt [entityOwner d entityID; OwnerTeamForLatestTaskInTypes entityID authorCentricGitHubEventTypes d] (authored d evt)) /\
  asks calm d (assigneeCentricOwner evt entityID types c)
    (ladderOK calm d evt [entityOwner d entityID; activeOwner d entityID types] (assigned d evt)).
Proof. split; [by apply authorLadder|by apply assigneeLadder]. Qed.

(** The owner alone fires; with no single owner the member teams fire, and
    teams that only watch fire only when there are no members, though they always
    see the task.  Teams fire once each, the one with the better best rule first
    and the smaller id among equals; the pool's teams, every team with a matching
    handler, fire in the same order, the first being the owner. *)
Theorem firing_order (owner : string) (owners : list string) (rules triggers : list handler) (r : eventRouting)
    (Hr : ownerLadderRouting owner owners rules triggers = Some r) :
  (forall g, g ∈ visibleTeams r <-> g ∈ owners \/ watching rules triggers g) /\
  (if bool_decide (owner = "")
   then inOrder rules (fun g => if bool_decide (owners = []) then watching rules triggers g else g ∈ owners) (orderedTeams r)
   else orderedTeams r = [owner]) /\
  let pool := resolvePoolRouting rules triggers in
  inOrder rules (fun g => exists h, h ∈ rules ++ triggers /\ handlerTeamID h = g) (orderedTeams pool) /\
  ownerTeam pool = default "" (head (orderedTeams pool)).
Proof.
  apply ladder_routing in Hr as (_ & H1 & H2). destruct (pool_routing rules triggers) as (H3 & _ & H4). by split_and!.
Qed.

(** With the reads working, matching and resolving an event, of any ownership,
    reaches no archived team: none owns, sees or fires it. *)
Theorem routed_teams_are_live (mp : handler -> event -> option bool) (d : rdb) (evt : event) (entityID : string) :
  asks true d (routingFor mp evt entityID) (fun '(_, _, r) =>
    forall routing g, r = Some routing -> g <> "" ->
      g = ownerTeam routing \/ g ∈ visibleTeams routing \/ g ∈ orderedTeams routing ->
      g = LocalDefaultTeamID \/ teamArchived g d = false).
Proof.
  eapply asks_weaken; [apply routingFor_live|]. intros [[rs ts] r] H x g E Hg Hr. by apply (H x g E).
Qed.

(** ** The hold *)

(** C36: For a task nobody has, in an organization with a background model,
    with every read answered: holding for a score loses and repeats nothing,
    whatever the triggers decide when they are offered, as long as each
    decides alike in both walks and an accepted one claims the task for its
    team. When the walk at the event holds, the task is still nobody's, the
    hold is at the first automating team with a trigger that waits, and that
    walk and the one after scoring together offer the triggers one walk with
    the score in hand offers, each as often, and leave the task to the same
    team. When it ends without a hold and the task is still nobody's, no
    automating team has a trigger that waits, and it offered exactly what the
    walk with the score offers. A walk that ends with the task claimed does
    not hold, so there is no second one. *)
Theorem hold_and_resume_are_one_walk (accept : handler -> string -> bool) (bot : string) (d : rdb)
    (routing : eventRouting) (t : task) (s : Q)
    (Hbot : bot <> "") (Hmodel : noModel (conf d) = false) (Hfree : t_agent t = "" /\ t_user t = "") :
  let '(offered, kept, held) := walked accept bot d routing false None t in
  let '(more, resumed, _) := walked accept bot d routing true (Some s) t in
  let '(all, direct, _) := walked accept bot d routing false (Some s) t in
  let first := holder d routing t (orderedTeams routing) in
  (held <> "" -> (t_agent kept = "" /\ t_user kept = "") /\ held = first /\ offered ++ more ≡ₚ all /\ resumed = direct) /\
  (held = "" -> t_agent kept = "" -> t_user kept = "" -> first = "" /\ offered = all /\ t_agent direct = "") /\
  (t_agent kept <> "" -> held = "").
Proof.
  pose proof (walked_first accept bot Hbot d Hmodel routing t) as E1.
  pose proof (walked_resumed accept bot Hbot d Hmodel routing s t) as E2.
  pose proof (walked_scored accept bot Hbot d Hmodel routing s t) as E3.
  assert (Hal : alike (setScore None t) (setScore (Some s) t)) by (split_and!; [done|by apply bool_decide_eq_true..]).
  pose proof (hold_splits accept bot Hbot d routing s (orderedTeams routing) _ _ Hal) as H.
  rewrite <-E1, <-E2, <-E3 in H. destruct (walked accept bot d routing false None t) as [[offered kept] held].
  destruct (walked accept bot d routing true (Some s) t) as [[more resumed] h2].
  destruct (walked accept bot d routing false (Some s) t) as [[all direct] h3]. cbn [fst snd] in H. cbv zeta.
  change (holder d routing (setScore None t)) with (holder d routing t) in H. destruct H as [H1 H2]. split_and!.
  - intros Hh. destruct (H1 Hh) as (-> & ? & ? & ?). split; [exact Hfree|done].
  - intros Hh Ha Hu. destruct (H2 Hh) as (_ & ? & ? & ->); [by apply bool_decide_eq_true|]. split_and!; [done|done|apply Hfree].
  - intros Ha. destruct (decide (held = "")) as [|Hh]; [done|]. destruct (H1 Hh) as (-> & _). by destruct Hfree.
Qed.

End RouteSpec.

(** * A concrete organization

    Two teams, one pull request with a closed task, a person's task and a task an
    agent is working on, and the runs that instantiate the theorems of
    [RouteSpec]. *)

Import RouteSpec.

Module RouteExample.

Definition rule (id team : string) (p : Q) (unowned : bool) : handler := MkHandler id HRule team (Some p) unowned None None "".
Definition trigger (id team : string) (suitability : option Q) : handler :=
  MkHandler id HTrigger team None false suitability (Some 3) "bp".

Definition demoConf : config := {|
  enabledHandlers := fun _ => [rule "r-a" "a" (7 # 10)%Q false; rule "r-b" "b" (9 # 10)%Q true; trigger "t-a" "a" None];
  tracksRepository := fun g r => bool_decide (g = "a" \/ g = "b");
  tracksJiraProject := fun _ _ => false;
  tracksLinearTeam := fun _ _ => false;
  usersByGitHubID := fun _ _ => ["ann"];
  usersByGitHubLogin := fun _ => ["ann"];
  usersByJira := fun _ => ["ann"];
  usersByLinear := fun _ => ["ann"];
  teamsOfUser := fun _ => ["b"; "a"];
  teamsOfGitHubTeam := fun _ _ _ _ => [];
  noModel := false;
  agent := Some "bot";
  failures := fun _ _ => 0;
  firstPrompt := fun _ => "p";
  sourceDisabled := fun _ => false;
  eventAllowed := fun _ => true
|}.

Definition closedRow : task :=
  MkTask 0 "pr1" EventGitHubPRCICheckFailed "" "e0" Done (1 # 2)%Q 1 "a" "" "" None None (Some ("auto_closed_by_event", EventGitHubPRCICheckPassed)).
Definition personsRow : task := MkTask 1 "pr1" EventGitHubPRConflicts "" "e1" InProgress (1 # 2)%Q 2 "a" "" "ann" None None None.
Definition workedRow : task := MkTask 2 "pr1" EventGitHubPRCICheckFailed "" "e2" InProgress (1 # 2)%Q 3 "a" "bot" "" None None None.

Definition demoDb : rdb := {|
  entities := {[ "pr1" := MkEntity true 7 "github" "github.com" "o/r" "a" None None ]};
  tasks := [closedRow; personsRow; workedRow];
  task_teams := ∅;
  task_events := [];
  runs := [MkRun 2 "t-a" "e2" "bot" true false];
  convs := [MkConv 2 0 true true true];
  firings := [];
  awaiting := [];
  teams := {[ "a" := MkTeam false true true; "b" := MkTeam false true true ]};
  conf := demoConf
|}.

Definition noMeta : meta := MkMeta "ann" "" "" "" "" "" "" "" "" "" "" "" "" "" "" "" "".
Definition mergedEvent : event := MkEvent "org" "e9" EventGitHubPRMerged (Some "pr1") "" (Some 9) (Some noMeta).
Definition commitsEvent : event := MkEvent "org" "e8" EventGitHubPRNewCommits (Some "pr1") "" (Some 8) (Some noMeta).

Definition anyMatch (h : handler) (evt : event) : option bool := Some true.
Definition noDelivery (d : rdb) (c : nat) (e : string) : InjectOutcome := InjectNotDelivered.
Definition stored (d : rdb) (id : string) : option event := if bool_decide (id = "e9") then Some mergedEvent else Some commitsEvent.
Definition trigs (d : rdb) (id : string) : option (handler * bool) := Some (trigger id "a" None, true).

(** A run: the commits fire a trigger and are routed again under faults, the merge
    is routed twice, a task is re-evaluated, a firing drained and the closes swept. *)
Definition demoRun : list action :=
  [ARoute 8 commitsEvent None; AQueued 8 "e8" None; AQueued 9 "e9" (Some 7); AQueued 10 "e9" (Some 7); AReDerive 1;
   AFiring (MkFiring 2 "t-b" "e8" true); ASweep].
Definition demoScript : list turn := replicate 30 works ++ [refused; Turn id Lost; works; Turn id Lost].
Definition demoWorld : world := World demoDb demoScript.

Lemma still_moves (I : rdb -> Prop) : Forall (fun t => forall d, I d -> I (meanwhile t d)) demoScript.
Proof. unfold demoScript. apply Forall_app. split; [by apply Forall_replicate|]. by repeat apply Forall_cons_2; [..|apply Forall_nil_2]. Defined.

Lemma demo_ok : routeOK demoDb.
Proof. apply (bool_decide_unpack _). vm_compute. exact I. Defined.

(** The run routes: it leaves new rows behind. *)
Example demo_runs :
  let d := db (performAll anyMatch noDelivery stored trigs demoRun demoWorld).2 in
  length (tasks d) = 5%nat /\ length (runs d) = 3%nat /\ (e_active <$> entities d !! "pr1") = Some false.
Proof. vm_compute. split_and!; reflexivity. Qed.

Example routing_keeps_its_tables_witness :
  safe routeOK demoWorld /\ routeOK (db (performAll anyMatch noDelivery stored trigs demoRun demoWorld).2).
Proof.
  assert (safe routeOK demoWorld) as H by (split; [exact demo_ok|apply still_moves]).
  exact (conj H (routing_keeps_its_tables anyMatch noDelivery stored trigs demoRun demoWorld H)).
Defined.

Example closed_and_claimed_tasks_stay_witness :
  (exists t, tasks (db (performAll anyMatch noDelivery stored trigs demoRun demoWorld).2) !! 0%nat = Some t /\ isActive t = false) /\
  (exists t, tasks (db (performAll anyMatch noDelivery stored trigs demoRun demoWorld).2) !! 1%nat = Some t /\ t_user t = "ann" /\ t_agent t = "").
Proof.
  assert (safe (ofTask closedTask 0) demoWorld) as H0 by (split; [by exists closedRow|apply still_moves]).
  assert (safe (ofTask (personsTask "ann" "") 1) demoWorld) as H1 by (split; [by exists personsRow|apply still_moves]).
  exact (closed_and_claimed_tasks_stay anyMatch noDelivery stored trigs demoRun demoWorld 0 1 "ann" "" H0 H1).
Defined.

Definition mergedRelation : closeRelation :=
  MkRel [EventGitHubPRMerged; EventGitHubPRClosed] githubPRTerminalCloseTypes NoPrepare NoKeep true "entity_closed".

Lemma merged_relation : terminatingRelationFor (v_type mergedEvent) = Some mergedRelation.
Proof. vm_compute. reflexivity. Defined.

Lemma demo_closable : closable demoDb "pr1" (Some 7) = true.
Proof. vm_compute. reflexivity. Defined.

(** The merge closes the person's task and holds the one being worked on; a merge
    judged at another version writes nothing. *)
Example terminating_event_clears_its_entity_witness :
  (exists d', runTerminatingClose mergedEvent "pr1" mergedRelation (Some 7) (World demoDb []) = (Ok true, World d' []) /\
     (exists t, tasks d' !! 1%nat = Some t /\ isActive t = false) /\
     (exists t, tasks d' !! 2%nat = Some t /\ isActive t = true /\ t_held t = Some "e9")) /\
  runTerminatingClose mergedEvent "pr1" mergedRelation (Some 6) (World demoDb []) = (Ok false, World demoDb []).
Proof.
  assert (v_id mergedEvent <> "") as Hid by discriminate.
  pose proof (terminating_event_clears_its_entity demoDb mergedEvent "pr1" mergedRelation (Some 7) merged_relation demo_ok Hid) as H7.
  pose proof (terminating_event_clears_its_entity demoDb mergedEvent "pr1" mergedRelation (Some 6) merged_relation demo_ok Hid) as H6.
  rewrite demo_closable in H7. change (closable demoDb "pr1" (Some 6)) with false in H6.
  destruct H7 as (d' & H1 & _ & H3 & _). split; [|exact H6]. exists d'. split; [exact H1|]. split.
  - exists (setClosed ("entity_closed", EventGitHubPRMerged) personsRow). split; [|reflexivity]. rewrite H3. vm_compute. reflexivity.
  - exists (setHeld (Some "e9") workedRow). split; [|by split]. rewrite H3. vm_compute. reflexivity.
Defined.

(** A retried merge mints nothing, where one that did not fail leaves its task. *)
Example retried_terminating_event_mints_nothing_witness :
  (exists d', routeEvent anyMatch noDelivery 9 mergedEvent (Some 7) (World demoDb [works; works; works; refused]) =
      (Ok (MkRouted [Fault] DispositionError None 0 None), World d' []) /\
    length (tasks d') = 3%nat /\
    routeEvent anyMatch noDelivery 10 mergedEvent (Some 7) (World d' []) =
      (Ok (MkRouted [] DispositionTasklessUnroutable None 0 None), World d' [])) /\
  (routeEvent anyMatch noDelivery 9 mergedEvent (Some 7) (World demoDb [])).1 = Ok (MkRouted [] DispositionTaskCreated (Some 3%nat) 1 None).
Proof.
  split; [|vm_compute; reflexivity].
  assert (v_org mergedEvent <> "") as H1 by discriminate. assert (v_id mergedEvent <> "") as H2 by discriminate.
  assert (v_type mergedEvent <> EventSystemEntityCloseOwed) as H3 by discriminate.
  exact (retried_terminating_event_mints_nothing anyMatch noDelivery 9 10 demoDb mergedEvent "pr1" mergedRelation (Some 7) H1 H2
    eq_refl eq_refl eq_refl merged_relation H3 demo_ok demo_closable).
Defined.

(** From an empty cache, with faults and without. *)
Example owner_ladders_answer_witness :
  cacheOK false demoDb commitsEvent ∅ /\
  asks false demoDb (authorCentricOwner commitsEvent "pr1" ∅)
    (ladderOK false demoDb commitsEvent [entityOwner demoDb "pr1"; OwnerTeamForLatestTaskInTypes "pr1" authorCentricGitHubEventTypes demoDb]
      (authored demoDb commitsEvent)) /\
  asks true demoDb (assigneeCentricOwner commitsEvent "pr1" assigneeCentricJiraEventTypes ∅)
    (ladderOK true demoDb commitsEvent [entityOwner demoDb "pr1"; activeOwner demoDb "pr1" assigneeCentricJiraEventTypes]
      (assigned demoDb commitsEvent)).
Proof.
  pose proof (cacheOK_empty false demoDb commitsEvent) as Hf. pose proof (cacheOK_empty true demoDb commitsEvent) as Ht.
  exact (conj Hf (conj
    (proj1 (owner_ladders_answer false demoDb commitsEvent "pr1" assigneeCentricJiraEventTypes ∅ Hf))
    (proj2 (owner_ladders_answer true demoDb commitsEvent "pr1" assigneeCentricJiraEventTypes ∅ Ht)))).
Defined.

Definition demoRules : list handler := [rule "r-a" "a" (7 # 10)%Q false; rule "r-b" "b" (9 # 10)%Q false; rule "r-c" "c" (1 # 10)%Q true].
Definition sharedRouting : eventRouting :=
  MkRouting "" ["a"; "b"; "c"] ["b"; "a"] true (9 # 10)%Q (groupTriggers []).

(** Two member teams fire, the better rule first; the watcher only sees. *)
Example firing_order_witness :
  ownerLadderRouting "" ["a"; "b"] demoRules [] = Some sharedRouting /\
  inOrder demoRules (fun g => g ∈ ["a"; "b"]) (orderedTeams sharedRouting) /\ "c" ∈ visibleTeams sharedRouting.
Proof.
  assert (ownerLadderRouting "" ["a"; "b"] demoRules [] = Some sharedRouting) as E by (vm_compute; reflexivity).
  destruct (firing_order "" ["a"; "b"] demoRules [] sharedRouting E) as (H1 & H2 & _).
  split; [exact E|]. split; [exact H2|]. apply H1. right. exists (rule "r-c" "c" (1 # 10)%Q true).
  split; [apply list_elem_of_In; cbn; tauto|by split].
Defined.

Definition waitingTriggers (g : string) : list handler :=
  if bool_decide (g = "a") then [trigger "t1" "a" None; trigger "t2" "a" (Some (1 # 2)%Q)]
  else if bool_decide (g = "b") then [trigger "t3" "b" None; trigger "t4" "b" (Some (9 # 10)%Q)] else [].
Definition waitingRouting : eventRouting := MkRouting "" ["a"; "b"] ["a"; "b"] true (1 # 2)%Q waitingTriggers.
Definition freeRow : task := MkTask 3 "pr1" EventGitHubPRNewCommits "" "e8" Queued (1 # 2)%Q 8 "" "" "" None None None.

Definition anyAgent : handler -> string -> bool := fun h _ => negb (bool_decide (h_id h = "t1")).

Example hold_and_resume_are_one_walk_witness :
  let first := walked anyAgent "bot" demoDb waitingRouting false None freeRow in
  let second := walked anyAgent "bot" demoDb waitingRouting true (Some (3 # 4)%Q) freeRow in
  first.1.1 = [(trigger "t1" "a" None, "a")] /\ first.2 = "a" /\
  second.1.1 = [(trigger "t2" "a" (Some (1 # 2)%Q), "a"); (trigger "t3" "b" None, "b")] /\ t_agent second.1.2 = "bot" /\ t_team second.1.2 = "a" /\
  first.1.1 ++ second.1.1 ≡ₚ (walked anyAgent "bot" demoDb waitingRouting false (Some (3 # 4)%Q) freeRow).1.1.
Proof.
  cbv zeta. split; [vm_compute; reflexivity|]. split; [vm_compute; reflexivity|]. split; [vm_compute; reflexivity|].
  split; [vm_compute; reflexivity|]. split; [vm_compute; reflexivity|].
  pose proof (hold_and_resume_are_one_walk anyAgent "bot" demoDb waitingRouting freeRow (3 # 4)%Q
    ltac:(discriminate) eq_refl (conj eq_refl eq_refl)) as H.
  assert ((walked anyAgent "bot" demoDb waitingRouting false None freeRow).2 <> "") as Hh by (vm_compute; discriminate).
  destruct (walked anyAgent "bot" demoDb waitingRouting false None freeRow) as [[o l] h].
  destruct (walked anyAgent "bot" demoDb waitingRouting true (Some (3 # 4)%Q) freeRow) as [[m r] h2].
  destruct (walked anyAgent "bot" demoDb waitingRouting false (Some (3 # 4)%Q) freeRow) as [[a x] h3].
  destruct (proj1 H Hh) as (_ & _ & Hp & _). exact Hp.
Defined.

End RouteExample.
