(* ===== verification/TrackerDiff.v ===== *)
(** * What changed between two polls

    Models internal/eventing/tracker/diff.go, diff_linear.go and mentions.go with
    the reviewer and comment helpers beside them and the snapshots of
    internal/domain/tracked.go: each source's diff as the list of events it emits.
    An event's metadata is the struct literal's fields by name; its detection time
    is left out.  Time parsing and the resolver are parameters, text comparison
    without regard to case is ASCII's, and Go's iteration over a map is the order
    of [elements], which no theorem depends on.  Module [TrackerRead] is how a poll
    reads a pull request's new comments and reviews. *)

From stdpp Require Import pretty.
From S2P Require Import Prelude RouteEvents RouteDb RouteTeams RouteWalk RouteClose.
Import RouteEvents.
Local Open Scope string_scope.
Local Open Scope Z_scope.
Local Open Scope list_scope.

Module TrackerDiff.

(** ** Snapshots *)

Record CheckRun := MkCheckRun {
  cr_ID : Z; cr_Name : string; cr_Conclusion : string; cr_CompletedAt : string; cr_DetailsURL : string; cr_WorkflowRunID : Z
}.

Record TimelineEvent := MkTimeline { tl_Kind : string; tl_CreatedAt : string; tl_Label : string; tl_Reviewer : string }.

Record ReviewState := MkReview {
  rv_DatabaseID : Z; rv_Author : string; rv_AuthorID : string; rv_State : string; rv_SubmittedAt : string; rv_CommentCount : Z
}.

(** [CheckRuns], [ReviewMarker] and [BodyMentions] are [None] where Go has nil. *)
Record PRSnapshot := MkPR {
  pr_Number : Z; pr_Title : string; pr_Author : string; pr_AuthorID : string; pr_Repo : string;
  pr_State : string; pr_IsDraft : bool; pr_Merged : bool;
  pr_HeadSHA : string; pr_HeadCommittedAt : string;
  pr_CheckRuns : option (list CheckRun);
  pr_ReviewRequests : list string; pr_ReviewRequestIDs : gmap string string;
  pr_Reviews : list ReviewState; pr_ReviewMarker : option (Z * string);
  pr_Labels : list string; pr_UpdatedAt : string; pr_MergedAt : string; pr_ClosedAt : string;
  pr_MergedBy : string; pr_MergedByID : string; pr_ClosedBy : string; pr_ClosedByID : string;
  pr_Timeline : list TimelineEvent; pr_BodyHash : string; pr_BodyMentions : option (list string)
}.

Record JiraStatusRef := MkStatus { st_ID : string; st_Name : string }.

Record JiraSnapshot := MkJira {
  ji_BodyHash : string; ji_ID : string; ji_Key : string; ji_ProjectKey : string; ji_Summary : string;
  ji_Status : string; ji_StatusID : string; ji_StatusCategory : string;
  ji_Assignee : string; ji_AssigneeAccountID : string; ji_Reporter : string; ji_ReporterAccountID : string;
  ji_Priority : string; ji_PriorityID : string; ji_Labels : list string; ji_IssueType : string; ji_IssueTypeID : string;
  ji_UpdatedAt : string; ji_OpenSubtaskCount : Z
}.

Record LinearStateRef := MkState { ls_ID : string; ls_Name : string }.
Record LinearLabelRef := MkLabel { ll_ID : string; ll_Name : string }.

Record LinearSnapshot := MkLinear {
  li_ID : string; li_Identifier : string; li_Title : string; li_BodyHash : string; li_State : LinearStateRef;
  li_Assignee : string; li_AssigneeUserID : string; li_Creator : string; li_CreatorUserID : string;
  li_Priority : Z; li_PriorityLabel : string; li_Labels : list string; li_LabelRefs : list LinearLabelRef;
  li_TeamID : string; li_TeamKey : string; li_ParentID : string; li_ParentIdentifier : string;
  li_OpenChildCount : Z; li_UpdatedAt : string
}.

Record NewComment := MkComment {
  nc_ID : string; nc_Author : string; nc_AuthorID : string; nc_CreatedAt : string; nc_ByTF : bool; nc_Mentions : list string
}.

Record NewReviewComment := MkReviewComment { rc_ID : Z; rc_Mentions : list string; rc_ByTF : bool }.

Record NewReview := MkNewReview {
  nr_ID : Z; nr_Author : string; nr_AuthorID : string; nr_State : string; nr_SubmittedAt : string; nr_CommentCount : Z;
  nr_Paths : list string; nr_ByTF : bool; nr_Mentions : list string; nr_Comments : list NewReviewComment
}.

(** ** Text *)

Definition lower (c : ascii) : ascii :=
  let n := nat_of_ascii c in if Nat.leb 65 n && Nat.leb n 90 then ascii_of_nat (n + 32) else c.
Fixpoint ToLower (s : string) : string := match s with String c s => String (lower c) (ToLower s) | EmptyString => "" end.
Definition EqualFold (a b : string) : bool := bool_decide (ToLower a = ToLower b).

Fixpoint containsSlash (s : string) : bool :=
  match s with String c s => Ascii.eqb c "/" || containsSlash s | EmptyString => false end.

(** [strings.CutSuffix]. *)
Fixpoint CutSuffix (s suffix : string) : option string :=
  if bool_decide (s = suffix) then Some ""
  else match s with String c s => String c <$> CutSuffix s suffix | EmptyString => None end.

Definition GitHubBotLoginSuffix := "[bot]".

(** The text before and after the first slash, when neither is empty. *)
Fixpoint cutAt (s : string) : option (string * string) :=
  match s with
  | String c s => if Ascii.eqb c "/" then Some ("", s) else (fun '(a, b) => (String c a, b)) <$> cutAt s
  | EmptyString => None
  end.
Definition splitTeamHandle (handle : string) : string * string :=
  match cutAt handle with Some (org, slug) => if bool_decide (org = "" \/ slug = "") then ("", "") else (org, slug) | None => ("", "") end.

(** [strconv.ParseInt(s, 10, 64)] with its error dropped: zero for what is not a
    number, the nearest bound for one too large. *)
Definition digit (c : ascii) : option Z :=
  let n := nat_of_ascii c in if Nat.leb 48 n && Nat.leb n 57 then Some (Z.of_nat n - 48) else None.
Fixpoint digits (acc : Z) (s : string) : option Z :=
  match s with String c s => match digit c with Some k => digits (acc * 10 + k) s | None => None end | EmptyString => Some acc end.
Definition parseInt64 (s : string) : Z :=
  let signed neg s :=
    match s with
    | "" => 0
    | _ => match digits 0 s with
           | Some n => if (neg : bool) then Z.max (- 2 ^ 63) (- n) else Z.min (2 ^ 63 - 1) n
           | None => 0
           end
    end in
  match s with
  | String "-" s => signed true s
  | String "+" s => signed false s
  | s => signed false s
  end.

(** ** Snapshot helpers *)

Record RequestedReviewer := MkRequested { rr_Handle : string; rr_ID : string; rr_Team : bool }.

Definition SameReviewer (r o : RequestedReviewer) : bool :=
  if negb (bool_decide (rr_Team r = rr_Team o)) then false
  else if bool_decide (rr_ID r <> "" /\ rr_ID o <> "") then bool_decide (rr_ID r = rr_ID o)
  else bool_decide (rr_Handle r = rr_Handle o).

Definition RequestedReviewers (s : PRSnapshot) : list RequestedReviewer :=
  map (fun h => MkRequested h (default "" (pr_ReviewRequestIDs s !! h)) (containsSlash h)) (filter (fun h => h <> "") (pr_ReviewRequests s)).
Definition HasRequestedReviewer (s : PRSnapshot) (r : RequestedReviewer) : bool := existsb (fun o => SameReviewer o r) (RequestedReviewers s).

Definition SameStatus (r o : JiraStatusRef) : bool :=
  if bool_decide (st_ID r <> "" /\ st_ID o <> "") then bool_decide (st_ID r = st_ID o)
  else bool_decide (st_Name r <> "" /\ st_Name r = st_Name o).
Definition StatusRef (s : JiraSnapshot) : JiraStatusRef := MkStatus (ji_StatusID s) (ji_Status s).
Definition ContainsStatus (l : list JiraStatusRef) (s : JiraStatusRef) : bool := existsb (fun r => SameStatus r s) l.
Definition JiraStatusCategoryDone := "done".
Definition JiraIssueDone (done : list JiraStatusRef) (s : JiraSnapshot) : bool :=
  match done with [] => bool_decide (ji_StatusCategory s = JiraStatusCategoryDone) | _ => ContainsStatus done (StatusRef s) end.

Definition HasAssignee (s : JiraSnapshot) : bool := bool_decide (ji_AssigneeAccountID s <> "" \/ ji_Assignee s <> "").
Definition SameAssignee (s o : JiraSnapshot) : bool :=
  if negb (Bool.eqb (HasAssignee s) (HasAssignee o)) then false
  else if bool_decide (ji_AssigneeAccountID s <> "" /\ ji_AssigneeAccountID o <> "")
  then bool_decide (ji_AssigneeAccountID s = ji_AssigneeAccountID o)
  else bool_decide (ji_Assignee s = ji_Assignee o).
Definition SamePriority (s o : JiraSnapshot) : bool :=
  if bool_decide (ji_PriorityID s <> "" /\ ji_PriorityID o <> "") then bool_decide (ji_PriorityID s = ji_PriorityID o)
  else bool_decide (ji_Priority s = ji_Priority o).

Definition SameState (r o : LinearStateRef) : bool :=
  if bool_decide (ls_ID r <> "" /\ ls_ID o <> "") then bool_decide (ls_ID r = ls_ID o)
  else bool_decide (ls_Name r <> "" /\ ls_Name r = ls_Name o).
Definition ContainsState (l : list LinearStateRef) (s : LinearStateRef) : bool := existsb (fun r => SameState r s) l.

Record GitHubAccount := MkAccount { ac_Login : string; ac_ID : string }.
Definition IsAccount (a : GitHubAccount) (login id : string) : bool :=
  if bool_decide (ac_ID a <> "" /\ id <> "") then bool_decide (ac_ID a = id)
  else negb (bool_decide (ac_Login a = "")) && EqualFold (ac_Login a) login.

(** ** Events *)

Inductive val := VS (s : string) | VZ (n : Z) | VB (b : bool) | VL (l : list string).
Definition fields := list (string * val).

(** An emitted event: its type, dedup key, source time when one parsed, and the
    fields of its metadata. *)
Record emitted := MkEmitted { em_type : string; em_entity : string; em_key : string; em_at : option Z; em_meta : fields }.

(** ** Lists and reviewers *)

(** The elements of [l] not in [gone] and not seen before. *)
Fixpoint changesIn (gone : gset string) (seen : gset string) (l : list string) : list string * gset string :=
  match l with
  | [] => ([], seen)
  | x :: l =>
      if bool_decide (x ∉ gone /\ x ∉ seen) then let '(out, seen) := changesIn gone ({[x]} ∪ seen) l in (x :: out, seen)
      else changesIn gone seen l
  end.
Definition toSet (l : list string) : gset string := list_to_set l.
Definition labelChanges (prev curr : list string) : list string * list string :=
  let '(added, seen) := changesIn (toSet prev) ∅ curr in
  (added, (changesIn (toSet curr) seen prev).1).

(** The created time of the last entry of a timeline that matches. *)
Definition lastMatch (f : TimelineEvent -> bool) (l : list TimelineEvent) : string :=
  default "" (tl_CreatedAt <$> last (filter (fun t => f t = true) l)).
Definition lookupLabelTime (l : list TimelineEvent) (kind label : string) : string :=
  lastMatch (fun t => bool_decide (tl_Kind t = kind /\ tl_Label t = label)) l.
Definition lookupReviewRequestedTimeFor (l : list TimelineEvent) (reviewer : string) : string :=
  lastMatch (fun t => bool_decide (tl_Kind t = "review_requested" /\ tl_Reviewer t = reviewer)) l.
Definition lookupReadyForReviewTime (l : list TimelineEvent) : string := lastMatch (fun t => bool_decide (tl_Kind t = "ready_for_review")) l.

Definition ReviewerDedupKeyTeamID (id : string) : string := ("team_id:" ++ id)%string.
Definition reviewerDedupKey (r : RequestedReviewer) : string :=
  if rr_Team r then if bool_decide (rr_ID r = "") then RouteClose.ReviewerDedupKeyTeam (rr_Handle r) else ReviewerDedupKeyTeamID (rr_ID r)
  else if bool_decide (rr_ID r = "") then RouteClose.ReviewerDedupKeyUser (rr_Handle r) else RouteClose.ReviewerDedupKeyUserID (rr_ID r).
Definition handleReviewer (handle : string) : RequestedReviewer := MkRequested handle "" (containsSlash handle).

(** [requestedIdentityFields], under the names of the metadata's fields. *)
Definition requestedIdentityFields (r : RequestedReviewer) : fields :=
  if rr_Team r
  then [("RequestedLogin", VS ""); ("RequestedTeam", VS (rr_Handle r)); ("RequestedUserID", VS ""); ("RequestedTeamID", VS (rr_ID r))]
  else [("RequestedLogin", VS (rr_Handle r)); ("RequestedTeam", VS ""); ("RequestedUserID", VS (rr_ID r)); ("RequestedTeamID", VS "")].

(** A [ReviewerResolver]. *)
Record resolver := MkResolver { KnownUser : string -> string -> bool; KnownTeam : string -> string -> string -> bool }.

(** [resolveReviewer]: the login and the team of a known reviewer. *)
Definition resolveReviewer (rs : option resolver) (r : RequestedReviewer) : option (string * string) :=
  match rs with
  | None => None
  | Some rs =>
      if bool_decide (rr_Handle r = "" /\ rr_ID r = "") then None
      else if rr_Team r then
        let '(org, slug) := splitTeamHandle (rr_Handle r) in
        if bool_decide (rr_ID r = "" /\ slug = "") then None
        else if KnownTeam rs (rr_ID r) org slug then Some ("", rr_Handle r) else None
      else if KnownUser rs (rr_ID r) (rr_Handle r) then Some (rr_Handle r, "") else None
  end.

(** [reviewIndex]: by login and by id, the last of each. *)
Definition byLogin (l : list ReviewState) : gmap string ReviewState := foldl (fun m r => <[rv_Author r := r]> m) ∅ l.
Definition byID (l : list ReviewState) : gmap string ReviewState :=
  foldl (fun m r => if bool_decide (rv_AuthorID r = "") then m else <[rv_AuthorID r := r]> m) ∅ l.

Definition zeroReview : ReviewState := MkReview 0 "" "" "" "" 0.

Definition sameAccount (r p : ReviewState) : bool :=
  bool_decide (rv_AuthorID r = "" \/ rv_AuthorID p = "" \/ rv_AuthorID p = rv_AuthorID r).

(** [prevOf]: the review of [r]'s reviewer among [prev], [r] being one of [curr]. *)
Definition prevOf (prev curr : list ReviewState) (r : ReviewState) : ReviewState :=
  match (if bool_decide (rv_AuthorID r = "") then None else byID prev !! rv_AuthorID r) with
  | Some p => p
  | None =>
      match byLogin prev !! rv_Author r with
      | Some p => if sameAccount r p then p else zeroReview
      | None =>
          match CutSuffix (rv_Author r) GitHubBotLoginSuffix with
          | None => zeroReview
          | Some slug =>
              match byLogin curr !! slug with
              | Some _ => zeroReview
              | None => match byLogin prev !! slug with Some p => if sameAccount r p then p else zeroReview | None => zeroReview end
              end
          end
      end
  end.

(** [commentedBy]: the newest comment not by TF and the author ids of all of them,
    once each; and [commentedByLogins]. *)
Definition others (l : list NewComment) : list NewComment := filter (fun c => nc_ByTF c = false) l.
Fixpoint once (l : list string) (seen : list string) : list string :=
  match l with
  | [] => seen
  | x :: l => once l (if bool_decide (x <> "" /\ x ∉ seen) then seen ++ [x] else seen)
  end.
Definition commentedBy (l : list NewComment) : option (NewComment * list string) :=
  (fun c => (c, once (map nc_AuthorID (others l)) [])) <$> last (others l).
Definition commentedByLogins (l : list NewComment) : list string := once (map nc_Author (others l)) [].

Section Diff.

(** The moment a time in an external format names. *)
Variable ParseExternalTime : string -> option Z.

Definition commentedAt (c : NewComment) (updatedAt : string) : string :=
  match ParseExternalTime (nc_CreatedAt c) with Some _ => nc_CreatedAt c | None => updatedAt end.

(** Whether [a] is later than [b]: as moments, or as text when one does not
    parse. *)
Definition laterTime (a b : string) : bool :=
  match ParseExternalTime a, ParseExternalTime b with
  | Some x, Some y => y <? x
  | _, _ => bool_decide (~ String.le a b)
  end.

Definition emitWithFallback (et entity key fallbackAt : string) (m : fields) : emitted :=
  MkEmitted et entity key (ParseExternalTime fallbackAt) m.

(** ** Mentions *)

Record prMention := MkMention {
  me_handle : string; me_source : string; me_commenter : string; me_commenterID : string; me_commentID : Z; me_at : string
}.

Definition isSelfMention (handle commenter : string) : bool :=
  if bool_decide (commenter = "") then false else EqualFold handle (default commenter (CutSuffix commenter GitHubBotLoginSuffix)).

(** The handles in the order they were found, each with its best mention. *)
Definition consider (best : list prMention) (m : prMention) : list prMention :=
  if isSelfMention (me_handle m) (me_commenter m) then best
  else match List.find (fun h => bool_decide (me_handle h = me_handle m)) best with
       | None => best ++ [m]
       | Some held =>
           if bool_decide (me_source m = "body") || negb (laterTime (me_at m) (me_at held)) then best
           else map (fun h => if bool_decide (me_handle h = me_handle m) then m else h) best
       end.

Definition reviewMentions (r : NewReview) : list prMention :=
  if nr_ByTF r then []
  else map (fun h => MkMention h "review" (nr_Author r) (nr_AuthorID r) (nr_ID r) (nr_SubmittedAt r)) (nr_Mentions r) ++
    flat_map (fun c => if rc_ByTF c then []
                       else map (fun h => MkMention h "review_comment" (nr_Author r) (nr_AuthorID r) (rc_ID c) (nr_SubmittedAt r)) (rc_Mentions c))
      (nr_Comments r).
Definition commentMentions (c : NewComment) : list prMention :=
  if nc_ByTF c then []
  else map (fun h => MkMention h "comment" (nc_Author c) (nc_AuthorID c) (parseInt64 (nc_ID c)) (nc_CreatedAt c)) (nc_Mentions c).
Definition bodyMentions (prev curr : PRSnapshot) : list prMention :=
  match pr_BodyMentions prev, pr_BodyMentions curr with
  | Some old, Some new =>
      map (fun h => MkMention h "body" "" "" 0 (pr_UpdatedAt curr))
        (filter (fun h => h ∉ old /\ isSelfMention h (pr_Author curr) = false) new)
  | _, _ => []
  end.

Definition prMentions (prev curr : PRSnapshot) (reviews : list NewReview) (comments : list NewComment) : list prMention :=
  foldl consider [] (flat_map commentMentions comments ++ flat_map reviewMentions reviews ++ bodyMentions prev curr).

(** ** Pull requests *)

Section PR.

Variables (prev curr : PRSnapshot) (entityID repositoryID : string) (self : GitHubAccount) (rs : option resolver)
  (reviews : list NewReview) (comments : list NewComment).

Definition emit (et key : string) (m : fields) : emitted := emitWithFallback et entityID key (pr_UpdatedAt curr) m.
Definition emitAt (et key sourceAt : string) (m : fields) : emitted :=
  match ParseExternalTime sourceAt with Some t => MkEmitted et entityID key (Some t) m | None => emit et key m end.

(** Fields shared by the metadata of every pull request event. *)
Definition prFields : fields :=
  [("Author", VS (pr_Author curr)); ("AuthorID", VS (pr_AuthorID curr)); ("Repo", VS (pr_Repo curr)); ("RepositoryID", VS repositoryID);
   ("PRNumber", VZ (pr_Number curr)); ("Labels", VL (pr_Labels curr))].
Definition headF : string * val := ("HeadSHA", VS (pr_HeadSHA curr)).
Definition draftF : string * val := ("IsDraft", VB (pr_IsDraft curr)).

Definition mergedEvent : emitted :=
  emitAt EventGitHubPRMerged "" (pr_MergedAt curr)
    (prFields ++ [("MergedBy", VS (pr_MergedBy curr)); ("MergedByID", VS (pr_MergedByID curr)); headF]).
Definition closedEvent : emitted :=
  emitAt EventGitHubPRClosed "" (pr_ClosedAt curr) (prFields ++ [("ClosedBy", VS (pr_ClosedBy curr)); ("ClosedByID", VS (pr_ClosedByID curr))]).

Definition when {A} (b : bool) (l : list A) : list A := if b then l else [].

Definition bodyEvents : list emitted :=
  when (bool_decide (pr_BodyHash prev <> "" /\ pr_BodyHash curr <> "" /\ pr_BodyHash prev <> pr_BodyHash curr))
    [emitAt EventGitHubPRBodyUpdated "" (pr_UpdatedAt curr)
       (prFields ++ [draftF; headF; ("Title", VS (pr_Title curr)); ("PreviousBodyHash", VS (pr_BodyHash prev)); ("BodyHash", VS (pr_BodyHash curr))])].

Definition terminalEvents : list emitted :=
  when (negb (pr_Merged prev) && pr_Merged curr) [mergedEvent] ++
  when (bool_decide (pr_State prev <> "CLOSED" /\ pr_State curr = "CLOSED") && negb (pr_Merged curr)) [closedEvent].

Definition readyEvents : list emitted :=
  when (pr_IsDraft prev && negb (pr_IsDraft curr))
    [emitAt EventGitHubPRReadyForReview "" (lookupReadyForReviewTime (pr_Timeline curr)) (prFields ++ [headF])].

(** The check runs of [prev] by id, the last of each. *)
Definition prevByID : gmap Z CheckRun := foldl (fun m c => <[cr_ID c := c]> m) ∅ (default [] (pr_CheckRuns prev)).

Definition checkEvents (cr : CheckRun) : list emitted :=
  let was := prevByID !! cr_ID cr in
  if RouteClose.IsFailingConclusion (cr_Conclusion cr) then
    when (negb (match was with Some p => RouteClose.IsFailingConclusion (cr_Conclusion p) | None => false end))
      [emitAt EventGitHubPRCICheckFailed "" (cr_CompletedAt cr)
         (prFields ++ [("CheckRunID", VZ (cr_ID cr)); ("CheckName", VS (cr_Name cr)); ("CheckURL", VS (cr_DetailsURL cr));
            ("WorkflowRunID", VZ (cr_WorkflowRunID cr)); headF; draftF])]
  else if negb (bool_decide (cr_Conclusion cr = "")) then
    when (negb (match was with
                | Some p => negb (RouteClose.IsFailingConclusion (cr_Conclusion p)) && negb (bool_decide (cr_Conclusion p = ""))
                | None => false
                end))
      [emitAt EventGitHubPRCICheckPassed "" (cr_CompletedAt cr)
         (prFields ++ [("CheckRunID", VZ (cr_ID cr)); ("CheckName", VS (cr_Name cr)); ("Conclusion", VS (cr_Conclusion cr));
            ("WorkflowRunID", VZ (cr_WorkflowRunID cr)); headF; draftF])]
  else [].
Definition ciEvents : list emitted := match pr_CheckRuns curr with Some l => flat_map checkEvents l | None => [] end.

Definition commitEvents : list emitted :=
  when (bool_decide (pr_HeadSHA prev <> "" /\ pr_HeadSHA curr <> "" /\ pr_HeadSHA prev <> pr_HeadSHA curr))
    [emitAt EventGitHubPRNewCommits "" (pr_HeadCommittedAt curr) (prFields ++ [draftF; ("CommitCount", VZ 0); headF; ("PrevHeadSHA", VS (pr_HeadSHA prev))])].

Definition known (r : RequestedReviewer) : bool := match resolveReviewer rs r with Some _ => true | None => false end.
Definition requestFields (r : RequestedReviewer) : fields := prFields ++ [draftF; headF; ("Title", VS (pr_Title curr))] ++ requestedIdentityFields r.
Definition requestEvents : list emitted :=
  when (negb (IsAccount self (pr_Author curr) (pr_AuthorID curr)))
    (map (fun r => emitAt EventGitHubPRReviewRequested (reviewerDedupKey r) (lookupReviewRequestedTimeFor (pr_Timeline curr) (rr_Handle r)) (requestFields r))
       (filter (fun r => HasRequestedReviewer prev r = false /\ known r = true) (RequestedReviewers curr)) ++
     map (fun r => emit EventGitHubPRReviewRequestRemoved (reviewerDedupKey r) (requestFields r))
       (filter (fun r => HasRequestedReviewer curr r = false /\ known r = true) (RequestedReviewers prev))).

Definition reviewType (state : string) : option string :=
  if bool_decide (state = "CHANGES_REQUESTED") then Some EventGitHubPRReviewChangesRequested
  else if bool_decide (state = "APPROVED") then Some EventGitHubPRReviewApproved
  else if bool_decide (state = "COMMENTED") then Some EventGitHubPRReviewCommented
  else if bool_decide (state = "DISMISSED") then Some EventGitHubPRReviewDismissed else None.
Definition emitReview (state reviewer reviewerID : string) (reviewID commentCount : Z) (paths : list string) (submittedAt : string) : list emitted :=
  match reviewType state with
  | Some et =>
      [emitAt et "" submittedAt (prFields ++ [("Reviewer", VS reviewer); ("ReviewerID", VS reviewerID); ("ReviewID", VZ reviewID);
         ("CommentCount", VZ commentCount); ("Paths", VL paths); draftF; headF])]
  | None => []
  end.
Definition emitLatest (r : ReviewState) : list emitted :=
  emitReview (rv_State r) (rv_Author r) (rv_AuthorID r) (rv_DatabaseID r) (rv_CommentCount r) [] (rv_SubmittedAt r).
Definition before (r : ReviewState) : ReviewState := prevOf (pr_Reviews prev) (pr_Reviews curr) r.
Definition reviewEvents : list emitted :=
  match pr_ReviewMarker prev with
  | None => flat_map (fun r => when (negb (bool_decide (rv_State r = rv_State (before r)))) (emitLatest r)) (pr_Reviews curr)
  | Some _ =>
      flat_map (fun r => when (negb (nr_ByTF r || bool_decide (nr_Author r = "") || bool_decide (nr_State r = "DISMISSED")))
        (emitReview (nr_State r) (nr_Author r) (nr_AuthorID r) (nr_ID r) (nr_CommentCount r) (nr_Paths r) (nr_SubmittedAt r))) reviews ++
      flat_map (fun r => when (negb (negb (bool_decide (rv_State r = "DISMISSED")) || bool_decide (rv_State (before r) = "DISMISSED"))) (emitLatest r))
        (pr_Reviews curr)
  end.

Definition commentEvents : list emitted :=
  match commentedBy comments with
  | Some (newest, ids) =>
      [emitWithFallback EventGitHubPRCommented entityID "" (commentedAt newest (pr_UpdatedAt curr))
         (prFields ++ [("Commenter", VS (nc_Author newest)); ("CommenterLogins", VL (commentedByLogins comments)); ("CommenterID", VS (nc_AuthorID newest));
            ("CommenterIDs", VL ids); ("CommentID", VZ (parseInt64 (nc_ID newest))); draftF; headF])]
  | None => []
  end.

Definition mentionEvents (m : prMention) : list emitted :=
  let mentioned := handleReviewer (me_handle m) in
  match resolveReviewer rs mentioned with
  | Some (login, team) =>
      let at_ := match ParseExternalTime (me_at m) with Some _ => me_at m | None => pr_UpdatedAt curr end in
      [emitWithFallback EventGitHubPRMentioned entityID (reviewerDedupKey mentioned) at_
         (prFields ++ [("Commenter", VS (me_commenter m)); ("CommenterID", VS (me_commenterID m)); ("CommentID", VZ (me_commentID m));
            ("MentionedLogin", VS login); ("MentionedTeam", VS team); ("MentionSource", VS (me_source m)); draftF; headF])]
  | None => []
  end.

Definition labelEvents : list emitted :=
  map (fun l => emitAt EventGitHubPRLabelAdded l (lookupLabelTime (pr_Timeline curr) "labeled" l) (prFields ++ [("LabelName", VS l); draftF; headF]))
    (elements (toSet (pr_Labels curr) ∖ toSet (pr_Labels prev))) ++
  map (fun l => emitAt EventGitHubPRLabelRemoved l (lookupLabelTime (pr_Timeline curr) "unlabeled" l) (prFields ++ [("LabelName", VS l); draftF; headF]))
    (elements (toSet (pr_Labels prev) ∖ toSet (pr_Labels curr))).

Definition DiffPRSnapshots : list emitted :=
  if pr_Number prev =? 0 then
    if pr_Merged curr then [mergedEvent] else when (bool_decide (pr_State curr = "CLOSED")) [closedEvent]
  else
    bodyEvents ++ terminalEvents ++ readyEvents ++ ciEvents ++ commitEvents ++ requestEvents ++ reviewEvents ++ commentEvents ++
    flat_map mentionEvents (prMentions prev curr reviews comments) ++ labelEvents.

End PR.

(** [openedPRMentions]: the mentions in the body of a newly opened pull request. *)
Definition openedPRMentions (entityID repositoryID : string) (snap : PRSnapshot) (rs : option resolver) : list emitted :=
  let none := MkPR 0 "" "" "" "" "" false false "" "" None [] ∅ [] None [] "" "" "" "" "" "" "" [] "" (Some []) in
  flat_map (mentionEvents snap entityID repositoryID rs) (prMentions none snap [] []).

(** ** Jira issues *)

Definition jiraValueDedupKey (id name : string) : string := if bool_decide (id = "") then name else id.

Section Jira.

(** [projects.Current] and [projects.Previous]. *)
Variables (prev curr : JiraSnapshot) (entityID : string) (current previous : string) (doneStatuses : list JiraStatusRef)
  (comments : list NewComment).

Definition jemit (et key : string) (m : fields) : emitted := emitWithFallback et entityID key (ji_UpdatedAt curr) m.
Definition terminal : bool := JiraIssueDone doneStatuses curr.

Definition assigneeF : fields := [("Assignee", VS (ji_Assignee curr)); ("AssigneeAccountID", VS (ji_AssigneeAccountID curr))].
Definition reporterF : fields := [("Reporter", VS (ji_Reporter curr)); ("ReporterAccountID", VS (ji_ReporterAccountID curr))].
Definition issueF : fields :=
  [("IssueKey", VS (ji_Key curr)); ("IssueID", VS (ji_ID curr)); ("Project", VS (ji_ProjectKey curr)); ("JiraProjectID", VS current)].
Definition typeF : fields := [("IssueType", VS (ji_IssueType curr)); ("IssueTypeID", VS (ji_IssueTypeID curr))].
Definition priorityF : fields := [("Priority", VS (ji_Priority curr)); ("PriorityID", VS (ji_PriorityID curr))].
Definition stateF : fields := [("Status", VS (ji_Status curr)); ("StatusID", VS (ji_StatusID curr)); ("Summary", VS (ji_Summary curr))].
Definition labelsF : fields := [("Labels", VL (ji_Labels curr))].

Definition jiraCompleted : emitted :=
  jemit EventJiraIssueCompleted "" (assigneeF ++ issueF ++ typeF ++ [("FinalStatus", VS (ji_Status curr)); ("FinalStatusID", VS (ji_StatusID curr))]).
Definition jiraAssigned : emitted :=
  jemit EventJiraIssueAssigned "" (assigneeF ++ reporterF ++ issueF ++ typeF ++ priorityF ++ stateF ++ labelsF).
Definition jiraAvailable : emitted :=
  jemit EventJiraIssueAvailable "" (reporterF ++ issueF ++ typeF ++ priorityF ++ stateF ++ labelsF).

Definition jiraLabelMetadata (label : string) : fields :=
  assigneeF ++ reporterF ++ issueF ++ typeF ++ priorityF ++ stateF ++ [("LabelName", VS label)] ++ labelsF.

Definition jiraKeyChangedEvents : list emitted :=
  when (negb (bool_decide (ji_Key prev = "" \/ ji_Key curr = "" \/ ji_Key prev = ji_Key curr)))
    [jemit EventJiraIssueKeyChanged "" (assigneeF ++ issueF ++ typeF ++ [("Summary", VS (ji_Summary curr)); ("OldIssueKey", VS (ji_Key prev));
       ("OldProject", VS (ji_ProjectKey prev)); ("OldJiraProjectID", VS previous)])].

Definition jiraFirst : list emitted :=
  if terminal then [jiraCompleted]
  else if 0 <? ji_OpenSubtaskCount curr then []
  else if HasAssignee curr then [jiraAssigned] else [jiraAvailable].

Definition jiraBody : list emitted :=
  when (bool_decide (ji_BodyHash prev <> "" /\ ji_BodyHash curr <> "" /\ ji_BodyHash prev <> ji_BodyHash curr))
    [jemit EventJiraIssueBodyUpdated "" (assigneeF ++ issueF ++ typeF ++ [("Summary", VS (ji_Summary curr))] ++ labelsF ++
       [("PreviousBodyHash", VS (ji_BodyHash prev)); ("BodyHash", VS (ji_BodyHash curr))])].

Definition jiraStatus : list emitted :=
  when (negb (SameStatus (StatusRef prev) (StatusRef curr)) && negb (bool_decide (ji_Status curr = "")))
    (jemit EventJiraIssueStatusChanged (jiraValueDedupKey (ji_StatusID curr) (ji_Status curr))
       (assigneeF ++ issueF ++ typeF ++ [("OldStatus", VS (ji_Status prev)); ("OldStatusID", VS (ji_StatusID prev));
          ("NewStatus", VS (ji_Status curr)); ("NewStatusID", VS (ji_StatusID curr))] ++ priorityF) :: when terminal [jiraCompleted]).

Definition jiraAssignment : list emitted :=
  when (negb (SameAssignee prev curr) && (ji_OpenSubtaskCount curr =? 0)) (if HasAssignee curr then [jiraAssigned] else [jiraAvailable]).

Definition jiraPriority : list emitted :=
  when (negb (SamePriority prev curr) && negb (bool_decide (ji_Priority curr = "")))
    [jemit EventJiraIssuePriorityChanged (jiraValueDedupKey (ji_PriorityID curr) (ji_Priority curr))
       (assigneeF ++ issueF ++ [("OldPriority", VS (ji_Priority prev)); ("OldPriorityID", VS (ji_PriorityID prev));
          ("NewPriority", VS (ji_Priority curr)); ("NewPriorityID", VS (ji_PriorityID curr))])].

Definition jiraLabels : list emitted :=
  let '(added, removed) := labelChanges (ji_Labels prev) (ji_Labels curr) in
  map (fun l => jemit EventJiraIssueLabelAdded l (jiraLabelMetadata l)) added ++
  map (fun l => jemit EventJiraIssueLabelRemoved l (jiraLabelMetadata l)) removed.

Definition jiraComments : list emitted :=
  match commentedBy comments with
  | Some (newest, authors) =>
      [emitWithFallback EventJiraIssueCommented entityID "" (commentedAt newest (ji_UpdatedAt curr))
         (assigneeF ++ [("Commenter", VS (nc_Author newest)); ("CommenterAccountID", VS (nc_AuthorID newest)); ("CommenterAccountIDs", VL authors);
            ("CommentID", VS (nc_ID newest))] ++ issueF)]
  | None => []
  end.

Definition jiraAtomic : list emitted :=
  when ((0 <? ji_OpenSubtaskCount prev) && (ji_OpenSubtaskCount curr =? 0) && negb terminal)
    [jemit EventJiraIssueBecameAtomic "" (assigneeF ++ reporterF ++ issueF ++ typeF ++ priorityF ++ stateF ++ labelsF)].

Definition DiffJiraSnapshots : list emitted :=
  if bool_decide (ji_ID prev = "" /\ ji_Key prev = "") then jiraFirst
  else jiraKeyChangedEvents ++ jiraBody ++ jiraStatus ++ jiraAssignment ++ jiraPriority ++ jiraLabels ++ jiraComments ++ jiraAtomic.

End Jira.

(** ** Linear issues *)

Definition linearNoParent := "none".
Definition linearStateDedupKey (s : LinearStateRef) : string := if bool_decide (ls_ID s = "") then ls_Name s else ls_ID s.
Definition linearLabelDedupKey (l : LinearLabelRef) : string := if bool_decide (ll_ID l = "") then ll_Name l else ll_ID l.
Definition linearLabelIDs (s : LinearSnapshot) : list string := map ll_ID (li_LabelRefs s).

Definition linearLabelChanges (prev curr : LinearSnapshot) : list LinearLabelRef * list LinearLabelRef :=
  if negb (Nat.eqb (length (li_LabelRefs prev)) (length (li_Labels prev))) then
    let '(addedNames, removedNames) := labelChanges (li_Labels prev) (li_Labels curr) in
    (filter (fun l => ll_Name l ∈ toSet addedNames) (li_LabelRefs curr), map (MkLabel "") removedNames)
  else
    (filter (fun l => ll_ID l ∉ toSet (linearLabelIDs prev)) (li_LabelRefs curr),
     filter (fun l => ll_ID l ∉ toSet (linearLabelIDs curr)) (li_LabelRefs prev)).

Section Linear.

Variables (prev curr : LinearSnapshot) (entityID : string) (done : list LinearStateRef) (comments : list NewComment)
  (labelGroups : gmap string LinearLabelRef).

Definition lemit (et key : string) (m : fields) : emitted := emitWithFallback et entityID key (li_UpdatedAt curr) m.
Definition lterminal : bool := ContainsState done (li_State curr).

Definition linearIdentity : fields :=
  [("IssueIdentifier", VS (li_Identifier curr)); ("IssueID", VS (li_ID curr)); ("LinearTeamID", VS (li_TeamID curr));
   ("LinearTeamKey", VS (li_TeamKey curr)); ("Assignee", VS (li_Assignee curr)); ("AssigneeUserID", VS (li_AssigneeUserID curr));
   ("Creator", VS (li_Creator curr)); ("CreatorUserID", VS (li_CreatorUserID curr)); ("Title", VS (li_Title curr))].
Definition statusF : fields :=
  [("Priority", VS (li_PriorityLabel curr)); ("Status", VS (ls_Name (li_State curr))); ("StatusID", VS (ls_ID (li_State curr)))].
Definition llabelsF : fields := [("Labels", VL (li_Labels curr)); ("LabelIDs", VL (linearLabelIDs curr))].

Definition linearCompleted : emitted :=
  lemit EventLinearIssueCompleted "" (linearIdentity ++ [("FinalStatus", VS (ls_Name (li_State curr))); ("FinalStatusID", VS (ls_ID (li_State curr)))]).
Definition linearAssigned : emitted := lemit EventLinearIssueAssigned "" (linearIdentity ++ statusF ++ llabelsF).
Definition linearAvailable : emitted := lemit EventLinearIssueAvailable "" (linearIdentity ++ statusF ++ llabelsF).

Definition linearLabelMetadata (l : LinearLabelRef) : fields :=
  let group := default (MkLabel "" "") (labelGroups !! ll_ID l) in
  linearIdentity ++ statusF ++ [("LabelID", VS (ll_ID l)); ("LabelName", VS (ll_Name l)); ("LabelGroupID", VS (ll_ID group));
    ("LabelGroup", VS (ll_Name group))] ++ llabelsF.

Definition linearIdentifierChangedEvents : list emitted :=
  when (negb (bool_decide (li_Identifier prev = "" \/ li_Identifier curr = "" \/ li_Identifier prev = li_Identifier curr)))
    [lemit EventLinearIssueIdentifierChanged "" (linearIdentity ++ [("OldIdentifier", VS (li_Identifier prev));
       ("OldLinearTeamID", VS (li_TeamID prev)); ("OldLinearTeamKey", VS (li_TeamKey prev))])].

Definition linearFirst : list emitted :=
  if lterminal then [linearCompleted]
  else if 0 <? li_OpenChildCount curr then []
  else if negb (bool_decide (li_AssigneeUserID curr = "")) then [linearAssigned] else [linearAvailable].

Definition linearBody : list emitted :=
  when (bool_decide (li_BodyHash prev <> "" /\ li_BodyHash curr <> "" /\ li_BodyHash prev <> li_BodyHash curr))
    [lemit EventLinearIssueBodyUpdated "" (linearIdentity ++ llabelsF ++
       [("PreviousBodyHash", VS (li_BodyHash prev)); ("BodyHash", VS (li_BodyHash curr))])].

Definition linearStatus : list emitted :=
  when (negb (SameState (li_State prev) (li_State curr)) && negb (bool_decide (ls_Name (li_State curr) = "")))
    (lemit EventLinearIssueStatusChanged (linearStateDedupKey (li_State curr))
       (linearIdentity ++ [("OldStatus", VS (ls_Name (li_State prev))); ("OldStatusID", VS (ls_ID (li_State prev)));
          ("NewStatus", VS (ls_Name (li_State curr))); ("NewStatusID", VS (ls_ID (li_State curr))); ("Priority", VS (li_PriorityLabel curr))])
     :: when lterminal [linearCompleted]).

Definition linearAssignment : list emitted :=
  when (negb (bool_decide (li_AssigneeUserID prev = li_AssigneeUserID curr)) && (li_OpenChildCount curr =? 0))
    (if negb (bool_decide (li_AssigneeUserID curr = "")) then [linearAssigned] else [linearAvailable]).

Definition linearPriority : list emitted :=
  when (negb (li_Priority prev =? li_Priority curr) && negb (bool_decide (li_PriorityLabel curr = "")))
    [lemit EventLinearIssuePriorityChanged (li_PriorityLabel curr)
       (linearIdentity ++ [("OldPriority", VS (li_PriorityLabel prev)); ("NewPriority", VS (li_PriorityLabel curr))])].

Definition linearLabels : list emitted :=
  let '(added, removed) := linearLabelChanges prev curr in
  map (fun l => lemit EventLinearIssueLabelAdded (linearLabelDedupKey l) (linearLabelMetadata l)) added ++
  map (fun l => lemit EventLinearIssueLabelRemoved (linearLabelDedupKey l) (linearLabelMetadata l)) removed.

Definition linearComments : list emitted :=
  match commentedBy comments with
  | Some (newest, authors) =>
      [emitWithFallback EventLinearIssueCommented entityID "" (commentedAt newest (li_UpdatedAt curr))
         (linearIdentity ++ [("CommentID", VS (nc_ID newest)); ("Commenter", VS (nc_Author newest)); ("CommenterUserID", VS (nc_AuthorID newest));
            ("CommenterUserIDs", VL authors)])]
  | None => []
  end.

Definition linearParent : list emitted :=
  when (negb (bool_decide (li_ParentID prev = li_ParentID curr)))
    [lemit EventLinearIssueParentChanged (if bool_decide (li_ParentID curr = "") then linearNoParent else li_ParentID curr)
       (linearIdentity ++ [("OldParentID", VS (li_ParentID prev)); ("NewParentID", VS (li_ParentID curr));
          ("OldParent", VS (li_ParentIdentifier prev)); ("NewParent", VS (li_ParentIdentifier curr))])].

Definition linearAtomic : list emitted :=
  when ((0 <? li_OpenChildCount prev) && (li_OpenChildCount curr =? 0) && negb lterminal)
    [lemit EventLinearIssueBecameAtomic "" (linearIdentity ++ statusF ++ llabelsF)].

Definition DiffLinearSnapshots : list emitted :=
  if bool_decide (li_ID prev = "" /\ li_Identifier prev = "") then linearFirst
  else linearIdentifierChangedEvents ++ linearBody ++ linearStatus ++ linearAssignment ++ linearPriority ++ linearLabels ++ linearComments ++
    linearParent ++ linearAtomic.

End Linear.

(** ** Discoveries *)

Definition noJira : JiraSnapshot := MkJira "" "" "" "" "" "" "" "" "" "" "" "" "" "" [] "" "" "" 0.
Definition noLinear : LinearSnapshot := MkLinear "" "" "" "" (MkState "" "") "" "" "" "" 0 "" [] [] "" "" "" "" 0 "".

(** The events of the first snapshot of an issue discovery has just created:
    none for a finished issue, the diff against nothing for one that came through
    the assigned-to-the-user query, and none for one it picked up. *)
Definition seedCreatedJira (entityID current : string) (done : list JiraStatusRef) (assignedToUser : bool) (snap : JiraSnapshot) : list emitted :=
  if JiraIssueDone done snap then []
  else if assignedToUser then DiffJiraSnapshots noJira snap entityID current "" done [] else [].
Definition seedCreatedLinear (entityID : string) (done : list LinearStateRef) (assignedToUser : bool) (snap : LinearSnapshot) : list emitted :=
  if ContainsState done (li_State snap) then []
  else if assignedToUser then DiffLinearSnapshots noLinear snap entityID done [] ∅ else [].

End Diff.

End TrackerDiff.

(** ** Reading what was written since the last poll

    comments.go's and reviews.go's reading of a pull request's new comments and
    reviews, with the markers of internal/domain/tracked.go.  A page reader is a
    parameter, and so is the ledger of what the program posted itself. *)

Module TrackerRead.

Import TrackerDiff.

(** [ReviewMarker] and [CommentMarker], which have the same fields and methods. *)
Record marker := MkMarker { mk_ID : Z; mk_At : string }.

Record PRComment := MkPRComment { pc_ID : Z; pc_Author : string; pc_AuthorID : string; pc_CreatedAt : string; pc_Mentions : list string }.
Record PRReviewComment := MkPRReviewComment { pv_ID : Z; pv_Path : string; pv_Mentions : list string }.
Record PRReview := MkPRReview {
  re_ID : Z; re_State : string; re_Author : string; re_AuthorID : string; re_SubmittedAt : string; re_Mentions : list string;
  re_CommentCount : Z; re_Comments : list PRReviewComment
}.

(** [PRCommentPage] and [PRReviewPage]. *)
Record page (A : Type) := MkPage { pg_items : list A; pg_total : Z; pg_hasPrevious : bool; pg_before : string }.
#[global] Arguments MkPage {A}.
#[global] Arguments pg_items {A}.
#[global] Arguments pg_total {A}.
#[global] Arguments pg_hasPrevious {A}.
#[global] Arguments pg_before {A}.

(** The loops over pages are unbounded; [OutOfFuel] ends the model's. *)
Inductive readErr := RateLimited | ReadFailed | OutOfFuel.

(** [PRCommentsBefore] and [PRReviewsBefore] on one pull request. *)
Definition reader (A : Type) : Type := string -> res readErr (page A).

(** What a snapshot remembers: [CommentMarker] and [CommentCount], or [ReviewMarker]
    and [ReviewCount]. *)
Record remembered := MkRemembered { rm_marker : option marker; rm_count : Z }.

(** [strconv.FormatInt] and [strconv.ParseInt], [None] for an error. *)
Definition FormatInt (n : Z) : string := pretty n.
Definition ParseInt (s : string) : option Z :=
  let signed neg s :=
    match s with
    | "" => None
    | _ => n ← digits 0 s; let v := if (neg : bool) then - n else n in
           if bool_decide (- 2 ^ 63 <= v < 2 ^ 63) then Some v else None
    end in
  match s with String "-" s => signed true s | String "+" s => signed false s | s => signed false s end.

Definition ObjectKey (provider kind resource anchor : string) : string :=
  (provider ++ ":" ++ kind ++ ":" ++ resource ++ (if bool_decide (anchor = "") then "" else ":" ++ anchor))%string.
Inductive GitHubCommentSpace := GitHubIssueComment | GitHubReviewComment.
Definition GitHubCommentKey (space : GitHubCommentSpace) (id : Z) : string :=
  if id <=? 0 then ""
  else match space with
       | GitHubIssueComment => ObjectKey "github" "comment" (FormatInt id) ""
       | GitHubReviewComment => ObjectKey "github" "comment" "review" (FormatInt id)
       end.
Definition githubCommentKey (commentID : string) : string :=
  match ParseInt commentID with Some id => GitHubCommentKey GitHubIssueComment id | None => "" end.

(** [slices.SortStableFunc], for a comparison that finds [a] after [b]. *)
Fixpoint insertBy {A} (after : A -> A -> bool) (x : A) (l : list A) : list A :=
  match l with [] => [x] | y :: l => if after x y then y :: insertBy after x l else x :: y :: l end.
Definition sortBy {A} (after : A -> A -> bool) : list A -> list A := foldr (insertBy after) [].

(** [markTFComments]: [posted] is the ledger's answer for some keys, [None] when it
    cannot be read. *)
Definition markTFComments (posted : list string -> option (gset string)) (key : string -> string) (l : list NewComment) : option (list NewComment) :=
  let keys := filter (fun k => k <> "") (map (fun c => key (nc_ID c)) l) in
  if bool_decide (keys = []) then Some l
  else match posted keys with
       | None => None
       | Some present =>
           Some (map (fun c => if bool_decide (key (nc_ID c) = "") then c
                               else MkComment (nc_ID c) (nc_Author c) (nc_AuthorID c) (nc_CreatedAt c) (bool_decide (key (nc_ID c) ∈ present)) (nc_Mentions c)) l)
       end.

Section Read.

Variable ParseExternalTime : string -> option Z.

Definition markedAfter (at_ : string) (id : Z) (markAt : string) (markID : Z) : bool :=
  match ParseExternalTime at_, ParseExternalTime markAt with
  | Some t, Some m => if t =? m then markID <? id else m <? t
  | Some _, None => true
  | None, Some _ => false
  | None, None => markID <? id
  end.
Definition After (m : marker) (at_ : string) (id : Z) : bool := markedAfter at_ id (mk_At m) (mk_ID m).
Definition Newer (m o : marker) : marker := if After m (mk_At o) (mk_ID o) then o else m.

(** *** Comments *)

Definition commentMarker (c : PRComment) : marker := MkMarker (pc_ID c) (pc_CreatedAt c).

(** [newestComment], over the comments a batch read returns with the pull request. *)
Definition newestComment (nodes : list PRComment) : marker := foldl (fun m c => Newer m (commentMarker c)) (MkMarker 0 "") nodes.

Definition githubReadReachesPrev (prev : remembered) (total : Z) (read : list PRComment) : bool :=
  match read with
  | [] => false
  | c :: _ =>
      match rm_marker prev with
      | Some m => negb (After m (pc_CreatedAt c) (pc_ID c))
      | None => total - rm_count prev <=? Z.of_nat (length read)
      end
  end.

(** The loop of [readGitHubComments]; [total] is [None] before the first page. *)
Fixpoint readComments_loop (fuel : nat) (client : reader PRComment) (prev : remembered) (before : string) (total : option Z)
    (read : list PRComment) : res readErr (list PRComment * Z) :=
  match fuel with
  | O => Err OutOfFuel
  | S fuel =>
      let? page := client before in
      let n := default (pg_total page) total in
      let read := pg_items page ++ read in
      if negb (pg_hasPrevious page) || bool_decide (pg_before page = "") || githubReadReachesPrev prev n read then Ok (read, n)
      else readComments_loop fuel client prev (pg_before page) (Some n) read
  end.
Definition commentAfter (a b : PRComment) : bool := After (commentMarker b) (pc_CreatedAt a) (pc_ID a).
Definition readGitHubComments (fuel : nat) (client : reader PRComment) (prev : remembered) : res readErr (list PRComment * Z) :=
  let? r := readComments_loop fuel client prev "" None [] in Ok (sortBy commentAfter r.1, r.2).

Definition newComment (c : PRComment) : NewComment :=
  MkComment (FormatInt (pc_ID c)) (pc_Author c) (pc_AuthorID c) (pc_CreatedAt c) false (pc_Mentions c).
Definition githubCommentsSince (prev : remembered) (total : Z) (read : list PRComment) : list NewComment :=
  match rm_marker prev with
  | None => map newComment (drop (length read - Z.to_nat (Z.max 0 (total - rm_count prev)))%nat read)
  | Some m => map newComment (filter (fun c => After m (pc_CreatedAt c) (pc_ID c) = true) read)
  end.

(** [githubNewComments]: the comments or the rate limit, and what [curr] remembers
    after. *)
Definition githubNewComments (fuel : nat) (client : reader PRComment) (posted : list string -> option (gset string)) (prev curr : remembered)
    : res readErr (list NewComment) * remembered :=
  match rm_marker curr with
  | None => (Ok [], curr)
  | Some cm =>
      let unchanged :=
        match rm_marker prev with
        | Some pm => negb (After pm (mk_At cm) (mk_ID cm))
        | None => bool_decide (rm_count prev = 0) || (rm_count curr <=? rm_count prev)
        end in
      if unchanged then (Ok [], curr)
      else match readGitHubComments fuel client prev with
           | Err RateLimited => (Err RateLimited, prev)
           | Err _ => (Ok [], prev)
           | Ok (read, total) =>
               let newest := foldl (fun n c => Newer n (commentMarker c)) cm read in
               match markTFComments posted githubCommentKey (githubCommentsSince prev total read) with
               | None => (Ok [], prev)
               | Some fresh => (Ok fresh, MkRemembered (Some newest) total)
               end
           end
  end.

(** *** Reviews *)

Definition reviewMarker (r : PRReview) : marker := MkMarker (re_ID r) (re_SubmittedAt r).
(** [newestReview], over the nodes a batch read returns: the last submitted reviews and
    each reviewer's latest. *)
Definition newestReview (nodes : list PRReview) : marker :=
  foldl (fun m r => if bool_decide (re_SubmittedAt r = "") then m else Newer m (reviewMarker r)) (MkMarker 0 "") nodes.
Definition isNew (since : marker) (r : PRReview) : bool := After since (re_SubmittedAt r) (re_ID r).

(** The loop of [readNewReviews]. *)
Fixpoint readReviews_loop (fuel : nat) (client : reader PRReview) (since : marker) (prevCount : Z) (before : string) (total : option Z)
    (reachedOld : bool) (fresh : list PRReview) : res readErr (list PRReview * Z) :=
  match fuel with
  | O => Err OutOfFuel
  | S fuel =>
      let? page := client before in
      let n := default (pg_total page) total in
      let fresh := fresh ++ filter (fun r => isNew since r = true) (pg_items page) in
      let reachedOld := reachedOld || existsb (fun r => negb (isNew since r)) (pg_items page) in
      if negb (pg_hasPrevious page) || bool_decide (pg_before page = "") || (reachedOld && (n - prevCount <=? Z.of_nat (length fresh)))
      then Ok (fresh, n)
      else readReviews_loop fuel client since prevCount (pg_before page) (Some n) reachedOld fresh
  end.
Definition reviewAfter (a b : PRReview) : bool := After (reviewMarker b) (re_SubmittedAt a) (re_ID a).
Definition readNewReviews (fuel : nat) (client : reader PRReview) (since : marker) (prevCount : Z) : res readErr (list PRReview * Z) :=
  let? r := readReviews_loop fuel client since prevCount "" None false [] in Ok (sortBy reviewAfter r.1, r.2).

Definition isTFReply (r : PRReview) (posted : gset string) : bool :=
  if bool_decide (re_State r <> "COMMENTED" \/ re_CommentCount r = 0 \/ Z.of_nat (length (re_Comments r)) <> re_CommentCount r) then false
  else forallb (fun c => bool_decide (GitHubCommentKey GitHubReviewComment (pv_ID c) ∈ posted)) (re_Comments r).

(** The files a review's comments are on, each once. *)
Fixpoint pathsOf (l : list PRReviewComment) (paths : list string) : list string :=
  match l with
  | [] => paths
  | c :: l => pathsOf l (if bool_decide (pv_Path c <> "" /\ pv_Path c ∉ paths) then paths ++ [pv_Path c] else paths)
  end.
Definition newReview (r : PRReview) : NewReview :=
  MkNewReview (re_ID r) (re_Author r) (re_AuthorID r) (re_State r) (re_SubmittedAt r) (re_CommentCount r) (pathsOf (re_Comments r) [])
    false (re_Mentions r) (map (fun c => MkReviewComment (pv_ID c) (pv_Mentions c) false) (re_Comments r)).

(** [markTFReviews] on the reviews read, converted: [submitted] answers which review
    ids the program submitted, [posted] which comment keys it posted. *)
Definition markReview (submitted posted : gset string) (r : PRReview) : NewReview :=
  let n := newReview r in
  MkNewReview (nr_ID n) (nr_Author n) (nr_AuthorID n) (nr_State n) (nr_SubmittedAt n) (nr_CommentCount n) (nr_Paths n)
    (bool_decide (FormatInt (re_ID r) ∈ submitted) || isTFReply r posted) (nr_Mentions n)
    (map (fun c => MkReviewComment (pv_ID c) (pv_Mentions c) (bool_decide (GitHubCommentKey GitHubReviewComment (pv_ID c) ∈ posted))) (re_Comments r)).
Definition markTFReviews (submitted posted : list string -> option (gset string)) (read : list PRReview) : option (list NewReview) :=
  match read with
  | [] => Some []
  | _ =>
      match submitted (map (fun r => FormatInt (re_ID r)) read) with
      | None => None
      | Some sub =>
          match posted (flat_map (fun r => map (fun c => GitHubCommentKey GitHubReviewComment (pv_ID c)) (re_Comments r)) read) with
          | None => None
          | Some pos => Some (map (markReview sub pos) read)
          end
      end
  end.

#[global] Instance marker_eq_dec : EqDecision marker.
Proof. solve_decision. Defined.

Definition githubNewReviews (fuel : nat) (client : reader PRReview) (submitted posted : list string -> option (gset string)) (prev curr : remembered)
    : res readErr (list NewReview) * remembered :=
  match rm_marker prev, rm_marker curr with
  | Some since, Some cm =>
      let newest := Newer since cm in
      if bool_decide (rm_count curr = rm_count prev /\ newest = since) then (Ok [], MkRemembered (Some newest) (rm_count curr))
      else match readNewReviews fuel client since (rm_count prev) with
           | Err RateLimited => (Err RateLimited, prev)
           | Err _ => (Ok [], prev)
           | Ok (read, total) =>
               match markTFReviews submitted posted read with
               | None => (Ok [], prev)
               | Some fresh => (Ok fresh, MkRemembered (Some (foldl (fun n r => Newer n (reviewMarker r)) newest read)) total)
               end
           end
  | _, _ => (Ok [], curr)
  end.

End Read.

End TrackerRead.
