(* ===== verification/TrackerSpec.v ===== *)
(** * What the trackers promise

    The properties of the diffs of [TrackerDiff]: replaying the events of a
    sequence of polls rebuilds the entity, an issue with open children waits for
    them, an unchanged entity says nothing, the events carry what routing reads,
    and a removed review request closes the request's own tasks.  Module
    [TrackerReadSpec] is about what polls read: comments and reviews reach the diff
    once each. *)

From S2P Require Import Prelude RouteEvents RouteDb RouteTeams RouteWalk RouteClose RouteTables TrackerDiff.
Import RouteEvents TrackerDiff.
Local Open Scope string_scope.
Local Open Scope Z_scope.
Local Open Scope list_scope.

Module TrackerSpec.

(** ** Facts about all the events of a list *)

Lemma Forall_when {A} (P : A -> Prop) b l : Forall P l -> Forall P (when b l).
Proof. destruct b; [done | constructor]. Qed.
Lemma Forall_each {A B} (P : B -> Prop) (f : A -> B) l : (forall x, P (f x)) -> Forall P (map f l).
Proof. intros H. apply Forall_fmap, Forall_true. done. Qed.
Lemma Forall_flat {A B} (P : B -> Prop) (f : A -> list B) l : (forall x, Forall P (f x)) -> Forall P (flat_map f l).
Proof. intros H. induction l as [| x l IH]; [constructor |]. apply Forall_app_2; [apply H | done]. Qed.

Ltac each :=
  repeat first [ apply Forall_app_2 | apply Forall_when | apply Forall_each; intros ? | apply Forall_flat; intros ?
               | apply Forall_cons; split | apply Forall_nil; exact I ].
Ltac in_list := repeat first [apply list_elem_of_here | apply list_elem_of_further].

(** ** Reading an event *)

Definition get (name : string) (m : fields) : option val := snd <$> List.find (fun p => bool_decide (p.1 = name)) m.
Definition getS (name : string) (m : fields) : string := match get name m with Some (VS s) => s | _ => "" end.
Definition getZ (name : string) (m : fields) : Z := match get name m with Some (VZ n) => n | _ => 0 end.

(** The event as the router decodes it.  No tracker event names a host. *)
Definition decode (m : fields) : RouteTeams.meta := {|
  RouteTeams.m_author := getS "Author" m; RouteTeams.m_authorID := getS "AuthorID" m; RouteTeams.m_host := "";
  RouteTeams.m_reviewer := getS "Reviewer" m; RouteTeams.m_reviewerID := getS "ReviewerID" m;
  RouteTeams.m_requestedLogin := getS "RequestedLogin" m; RouteTeams.m_requestedTeam := getS "RequestedTeam" m;
  RouteTeams.m_requestedUserID := getS "RequestedUserID" m; RouteTeams.m_requestedTeamID := getS "RequestedTeamID" m;
  RouteTeams.m_mentionedLogin := getS "MentionedLogin" m; RouteTeams.m_mentionedTeam := getS "MentionedTeam" m;
  RouteTeams.m_project := getS "JiraProjectID" m; RouteTeams.m_oldProject := getS "OldJiraProjectID" m;
  RouteTeams.m_linearTeam := getS "LinearTeamID" m; RouteTeams.m_oldLinearTeam := getS "OldLinearTeamID" m;
  RouteTeams.m_assigneeAccount := getS "AssigneeAccountID" m; RouteTeams.m_assigneeUser := getS "AssigneeUserID" m
|}.
Definition toEvent (org id : string) (e : emitted) : RouteTeams.event :=
  RouteTeams.MkEvent org id (em_type e) (Some (em_entity e)) (em_key e) (em_at e) (Some (decode (em_meta e))).

(** ** Replaying a pull request *)

(** What a reader who sees only the events knows of a pull request. *)
Record view := MkView { vw_labels : gset string; vw_head : string; vw_merged : bool; vw_failing : gmap Z bool }.

Definition apply (v : view) (e : emitted) : view :=
  let ofType t := bool_decide (em_type e = t) in
  if ofType EventGitHubPRLabelAdded then MkView ({[em_key e]} ∪ vw_labels v) (vw_head v) (vw_merged v) (vw_failing v)
  else if ofType EventGitHubPRLabelRemoved then MkView (vw_labels v ∖ {[em_key e]}) (vw_head v) (vw_merged v) (vw_failing v)
  else if ofType EventGitHubPRNewCommits then MkView (vw_labels v) (getS "HeadSHA" (em_meta e)) (vw_merged v) (vw_failing v)
  else if ofType EventGitHubPRMerged then MkView (vw_labels v) (vw_head v) true (vw_failing v)
  else if ofType EventGitHubPRCICheckFailed then
    MkView (vw_labels v) (vw_head v) (vw_merged v) (<[getZ "CheckRunID" (em_meta e) := true]> (vw_failing v))
  else if ofType EventGitHubPRCICheckPassed then
    MkView (vw_labels v) (vw_head v) (vw_merged v) (<[getZ "CheckRunID" (em_meta e) := false]> (vw_failing v))
  else v.
Definition replay : view -> list emitted -> view := foldl apply.

Definition checksOf (s : PRSnapshot) : list CheckRun := default [] (pr_CheckRuns s).

(** The view agrees with a snapshot: its labels, its head, whether it is merged,
    and for every completed check whether it fails. *)
Definition shows (v : view) (s : PRSnapshot) : Prop :=
  vw_labels v = toSet (pr_Labels s) /\ vw_head v = pr_HeadSHA s /\ vw_merged v = pr_Merged s /\
  (forall cr, cr ∈ checksOf s -> cr_Conclusion cr <> "" ->
     vw_failing v !! cr_ID cr = Some (RouteClose.IsFailingConclusion (cr_Conclusion cr))).

(** What is stored when a pull request is discovered: nothing is known of its
    checks. *)
Definition seed (s : PRSnapshot) : view := MkView (toSet (pr_Labels s)) (pr_HeadSHA s) (pr_Merged s) ∅.

(** A full read of a pull request: it has a number and a head, and a check run is
    listed once. *)
Definition fullRead (s : PRSnapshot) : Prop := pr_Number s <> 0 /\ pr_HeadSHA s <> "" /\ NoDup (map cr_ID (checksOf s)).

(** One poll: the snapshot it read and what was read beside it. *)
Record prPoll := MkPoll { pl_snap : PRSnapshot; pl_resolver : option resolver; pl_reviews : list NewReview; pl_comments : list NewComment }.

(** The polls' events, each diffed against the snapshot before it, and the last
    snapshot. *)
Section History.
Variables (parse : string -> option Z) (entityID repositoryID : string) (self : GitHubAccount).

Definition prDiff (prev : PRSnapshot) (p : prPoll) : list emitted :=
  DiffPRSnapshots parse prev (pl_snap p) entityID repositoryID self (pl_resolver p) (pl_reviews p) (pl_comments p).
Fixpoint history (prev : PRSnapshot) (ps : list prPoll) : list emitted :=
  match ps with [] => [] | p :: ps => prDiff prev p ++ history (pl_snap p) ps end.
Fixpoint latest (prev : PRSnapshot) (ps : list prPoll) : PRSnapshot :=
  match ps with [] => prev | p :: ps => latest (pl_snap p) ps end.

(** A merge is never undone. *)
Fixpoint mergesStick (prev : PRSnapshot) (ps : list prPoll) : Prop :=
  match ps with [] => True | p :: ps => (pr_Merged prev = true -> pr_Merged (pl_snap p) = true) /\ mergesStick (pl_snap p) ps end.

(** *** Events that leave the view alone *)

Definition replayed : list string :=
  [EventGitHubPRLabelAdded; EventGitHubPRLabelRemoved; EventGitHubPRNewCommits; EventGitHubPRMerged; EventGitHubPRCICheckFailed;
   EventGitHubPRCICheckPassed].
Definition inert (l : list emitted) : Prop := Forall (fun e => em_type e ∉ replayed) l.

Lemma apply_inert v e : em_type e ∉ replayed -> apply v e = v.
Proof.
  unfold replayed. intros H. unfold apply.
  repeat match goal with |- context [bool_decide (em_type e = ?t)] =>
    rewrite (bool_decide_eq_false_2 (em_type e = t)) by (intros E; apply H; rewrite E; set_solver) end.
  reflexivity.
Qed.

Lemma replay_inert v l : inert l -> replay v l = v.
Proof. intros H. induction H as [| e l He _ IH]; [done |]. cbn. rewrite apply_inert; done. Qed.

Lemma replay_app v l l' : replay v (l ++ l') = replay (replay v l) l'.
Proof. apply foldl_app. Qed.

Lemma toSet_elements (X : gset string) : toSet (elements X) = X.
Proof. apply list_to_set_elements_L. Qed.

Lemma emitAt_type curr et key at_ m : em_type (emitAt parse curr entityID et key at_ m) = et.
Proof. unfold emitAt. destruct (parse at_); done. Qed.
Lemma emitAt_key curr et key at_ m : em_key (emitAt parse curr entityID et key at_ m) = key.
Proof. unfold emitAt. destruct (parse at_); done. Qed.
Lemma emitAt_meta curr et key at_ m : em_meta (emitAt parse curr entityID et key at_ m) = m.
Proof. unfold emitAt. destruct (parse at_); done. Qed.
Lemma emitAt_entity curr et key at_ m : em_entity (emitAt parse curr entityID et key at_ m) = entityID.
Proof. unfold emitAt. destruct (parse at_); done. Qed.

(** *** The types of each part of a diff *)

Definition typed (ts : list string) (l : list emitted) : Prop := Forall (fun e => em_type e ∈ ts) l.

Lemma typed_avoids ts (bad : list string) l : typed ts l -> bool_decide (Forall (fun t => t ∉ bad) ts) = true -> Forall (fun e => em_type e ∉ bad) l.
Proof. intros Ht Hb. apply bool_decide_eq_true in Hb. rewrite Forall_forall in Hb. eapply Forall_impl; [exact Ht | intros e He; apply Hb, He]. Qed.
Lemma typed_within ts (ok : list string) l : typed ts l -> bool_decide (Forall (fun t => t ∈ ok) ts) = true -> typed ok l.
Proof. intros Ht Hb. apply bool_decide_eq_true in Hb. rewrite Forall_forall in Hb. eapply Forall_impl; [exact Ht | intros e He; apply Hb, He]. Qed.

Lemma replay_typed ts v l : typed ts l -> bool_decide (Forall (fun t => t ∉ replayed) ts) = true -> replay v l = v.
Proof. intros Ht Hb. eapply replay_inert, typed_avoids; done. Qed.

Ltac in_types := rewrite ?emitAt_type; in_list.

Section Step.
Variables (prev : PRSnapshot) (p : prPoll).
Notation curr := (pl_snap p).
Notation rs := (pl_resolver p).

Definition reviewTypes : list string :=
  [EventGitHubPRReviewChangesRequested; EventGitHubPRReviewApproved; EventGitHubPRReviewCommented; EventGitHubPRReviewDismissed].

Lemma body_types : typed [EventGitHubPRBodyUpdated] (bodyEvents parse prev curr entityID repositoryID).
Proof. unfold bodyEvents, typed. each. in_types. Qed.
Lemma merged_types : typed [EventGitHubPRMerged] [mergedEvent parse curr entityID repositoryID].
Proof. unfold mergedEvent, typed. each. in_types. Qed.
Lemma closed_types : typed [EventGitHubPRClosed] [closedEvent parse curr entityID repositoryID].
Proof. unfold closedEvent, typed. each. in_types. Qed.
Lemma ready_types : typed [EventGitHubPRReadyForReview] (readyEvents parse prev curr entityID repositoryID).
Proof. unfold readyEvents, typed. each. in_types. Qed.
Lemma ci_types : typed [EventGitHubPRCICheckFailed; EventGitHubPRCICheckPassed] (ciEvents parse prev curr entityID repositoryID).
Proof.
  unfold ciEvents, typed. destruct (pr_CheckRuns curr); each. unfold checkEvents.
  destruct (RouteClose.IsFailingConclusion _); [| destruct (negb (bool_decide (cr_Conclusion x = "")))]; each; in_types.
Qed.
Lemma commit_types : typed [EventGitHubPRNewCommits] (commitEvents parse prev curr entityID repositoryID).
Proof. unfold commitEvents, typed. each. in_types. Qed.
Lemma request_types :
  typed [EventGitHubPRReviewRequested; EventGitHubPRReviewRequestRemoved] (requestEvents parse prev curr entityID repositoryID self rs).
Proof. unfold requestEvents, typed. each; in_types. Qed.
Lemma emitReview_types st r i n c ps at_ : typed reviewTypes (emitReview parse curr entityID repositoryID st r i n c ps at_).
Proof. unfold emitReview, typed, reviewType. repeat case_bool_decide; each; in_types. Qed.
Lemma review_types : typed reviewTypes (reviewEvents parse prev curr entityID repositoryID (pl_reviews p)).
Proof. unfold reviewEvents. destruct (pr_ReviewMarker prev); unfold typed; each; apply emitReview_types. Qed.
Lemma comment_types : typed [EventGitHubPRCommented] (commentEvents parse curr entityID repositoryID (pl_comments p)).
Proof. unfold commentEvents, typed. destruct (commentedBy _) as [[c ids] |]; each. in_types. Qed.
Lemma mention_types l : typed [EventGitHubPRMentioned] (flat_map (mentionEvents parse curr entityID repositoryID rs) l).
Proof. unfold typed. each. unfold mentionEvents. destruct (resolveReviewer _ _) as [[? t] |]; each. in_types. Qed.
Lemma label_types : typed [EventGitHubPRLabelAdded; EventGitHubPRLabelRemoved] (labelEvents parse prev curr entityID repositoryID).
Proof. unfold labelEvents, typed. each; in_types. Qed.

(** *** Events that move it *)

Lemma replay_terminal v :
  vw_merged v = pr_Merged prev -> (pr_Merged prev = true -> pr_Merged curr = true) ->
  replay v (terminalEvents parse prev curr entityID repositoryID) =
  MkView (vw_labels v) (vw_head v) (pr_Merged curr) (vw_failing v).
Proof.
  intros Hm Hs. unfold terminalEvents. rewrite replay_app.
  rewrite (replay_typed _ _ (when _ [closedEvent _ _ _ _]) (Forall_when _ _ _ closed_types) eq_refl).
  destruct v as [l h m f]; cbn in *. destruct (pr_Merged prev), (pr_Merged curr); cbn; subst; try done; [naive_solver |].
  unfold apply, mergedEvent. rewrite !emitAt_type. done.
Qed.

Lemma replay_commits v :
  vw_head v = pr_HeadSHA prev -> pr_HeadSHA prev <> "" -> pr_HeadSHA curr <> "" ->
  replay v (commitEvents parse prev curr entityID repositoryID) = MkView (vw_labels v) (pr_HeadSHA curr) (vw_merged v) (vw_failing v).
Proof.
  intros Hh Hp Hc. unfold commitEvents. destruct v as [l h m f]; cbn in *; subst h.
  case_bool_decide as E; cbn; [| f_equal; destruct (decide (pr_HeadSHA prev = pr_HeadSHA curr)); naive_solver].
  unfold apply. rewrite !emitAt_type, !emitAt_meta. done.
Qed.

Lemma replay_added (f : string -> emitted) l v :
  (forall x, em_type (f x) = EventGitHubPRLabelAdded) -> (forall x, em_key (f x) = x) ->
  replay v (map f l) = MkView (toSet l ∪ vw_labels v) (vw_head v) (vw_merged v) (vw_failing v).
Proof.
  intros Ht Hk. revert v. induction l as [| x l IH]; intros [ls h m c]; cbn; [f_equal; set_solver |].
  unfold replay in IH |- *. rewrite IH. unfold apply. rewrite Ht, Hk. cbn. f_equal. set_solver.
Qed.
Lemma replay_removed (f : string -> emitted) l v :
  (forall x, em_type (f x) = EventGitHubPRLabelRemoved) -> (forall x, em_key (f x) = x) ->
  replay v (map f l) = MkView (vw_labels v ∖ toSet l) (vw_head v) (vw_merged v) (vw_failing v).
Proof.
  intros Ht Hk. revert v. induction l as [| x l IH]; intros [ls h m c]; cbn; [f_equal; set_solver |].
  unfold replay in IH |- *. rewrite IH. unfold apply. rewrite Ht, Hk. cbn. f_equal. set_solver.
Qed.

Lemma replay_labels v :
  vw_labels v = toSet (pr_Labels prev) ->
  replay v (labelEvents parse prev curr entityID repositoryID) =
  MkView (toSet (pr_Labels curr)) (vw_head v) (vw_merged v) (vw_failing v).
Proof.
  intros Hl. unfold labelEvents. rewrite replay_app.
  rewrite replay_removed by (intros; rewrite ?emitAt_type, ?emitAt_key; done).
  rewrite replay_added by (intros; rewrite ?emitAt_type, ?emitAt_key; done).
  cbn. f_equal. rewrite Hl, !toSet_elements.
  generalize (toSet (pr_Labels curr)) (toSet (pr_Labels prev)). intros X Y.
  apply set_eq. intros x. rewrite !elem_of_difference, elem_of_union, elem_of_difference.
  destruct (decide (x ∈ X)), (decide (x ∈ Y)); tauto.
Qed.

(** The class of a check as it was, when it was listed and complete. *)
Definition wasClass (id : Z) : option bool :=
  match prevByID prev !! id with
  | Some q => if bool_decide (cr_Conclusion q = "") then None else Some (RouteClose.IsFailingConclusion (cr_Conclusion q))
  | None => None
  end.

Lemma replay_check v cr :
  replay v (checkEvents parse prev curr entityID repositoryID cr) =
    if bool_decide (cr_Conclusion cr = "" \/ wasClass (cr_ID cr) = Some (RouteClose.IsFailingConclusion (cr_Conclusion cr))) then v
    else MkView (vw_labels v) (vw_head v) (vw_merged v)
           (<[cr_ID cr := RouteClose.IsFailingConclusion (cr_Conclusion cr)]> (vw_failing v)).
Proof.
  assert (He : RouteClose.IsFailingConclusion "" = false) by reflexivity.
  unfold checkEvents. destruct (decide (cr_Conclusion cr = "")) as [E | E].
  { rewrite (bool_decide_eq_true_2 (_ \/ _)) by (left; done). rewrite E, He. done. }
  rewrite (bool_decide_eq_false_2 _ E). unfold wasClass.
  destruct (prevByID prev !! cr_ID cr) as [q |]; [destruct (decide (cr_Conclusion q = "")) as [Eq | Eq] |];
    [rewrite !Eq, He, (bool_decide_eq_true_2 ("" = "")) by done | rewrite !(bool_decide_eq_false_2 _ Eq) |];
    destruct (RouteClose.IsFailingConclusion (cr_Conclusion cr)); try destruct (RouteClose.IsFailingConclusion (cr_Conclusion q));
    case_bool_decide as D; cbn; try done; try naive_solver;
    unfold apply; rewrite !emitAt_type, !emitAt_meta; done.
Qed.

Lemma replay_checks l : forall v,
  NoDup (map cr_ID l) ->
  (forall cr c, cr ∈ l -> wasClass (cr_ID cr) = Some c -> vw_failing v !! cr_ID cr = Some c) ->
  let v' := replay v (flat_map (checkEvents parse prev curr entityID repositoryID) l) in
  vw_labels v' = vw_labels v /\ vw_head v' = vw_head v /\ vw_merged v' = vw_merged v /\
  (forall id, id ∉ map cr_ID l -> vw_failing v' !! id = vw_failing v !! id) /\
  (forall cr, cr ∈ l -> cr_Conclusion cr <> "" -> vw_failing v' !! cr_ID cr = Some (RouteClose.IsFailingConclusion (cr_Conclusion cr))).
Proof.
  induction l as [| cr l IH]; intros v Hn Hv; cbn; [set_solver |].
  apply NoDup_cons in Hn as [Hcr Hn]. rewrite replay_app, replay_check.
  set (v1 := if bool_decide _ then _ else _).
  assert (Hv1 : vw_labels v1 = vw_labels v /\ vw_head v1 = vw_head v /\ vw_merged v1 = vw_merged v /\
    (forall id, id <> cr_ID cr -> vw_failing v1 !! id = vw_failing v !! id) /\
    (cr_Conclusion cr <> "" -> vw_failing v1 !! cr_ID cr = Some (RouteClose.IsFailingConclusion (cr_Conclusion cr)))).
  { subst v1. case_bool_decide as D; cbn.
    - split_and!; try done. intros H. destruct D as [D | D]; [done |]. apply Hv; [constructor | done].
    - split_and!; try done; [intros id H; rewrite lookup_insert_ne by done; done | intros _; apply lookup_insert_eq]. }
  destruct Hv1 as (L1 & L2 & L3 & L4 & L5).
  destruct (IH v1 Hn) as (I1 & I2 & I3 & I4 & I5).
  { intros c k Hc Hk. rewrite L4; [apply Hv; [by constructor | done] |].
    intros E. apply Hcr. rewrite <- E. apply list_elem_of_fmap. eauto. }
  rewrite I1, I2, I3, L1, L2, L3. split_and!; try done.
  - intros id Hid. apply not_elem_of_cons in Hid as [Hne Hid]. rewrite I4, L4; done.
  - intros c Hc Hne. apply elem_of_cons in Hc as [-> | Hc]; [rewrite I4, L5; done | apply I5; done].
Qed.

Lemma prevByID_in id q : prevByID prev !! id = Some q -> q ∈ checksOf prev /\ cr_ID q = id.
Proof.
  unfold prevByID. fold (checksOf prev).
  assert (H : forall l (m : gmap Z CheckRun), (forall id q, m !! id = Some q -> q ∈ checksOf prev /\ cr_ID q = id) ->
    (forall q, q ∈ l -> q ∈ checksOf prev) ->
    forall id q, foldl (fun m c => <[cr_ID c := c]> m) m l !! id = Some q -> q ∈ checksOf prev /\ cr_ID q = id).
  { induction l as [| c l IH]; intros m Hm Hl; cbn; [done |]. apply IH; [| intros x Hx; apply Hl; by constructor].
    intros i x. destruct (decide (i = cr_ID c)) as [-> |]; [rewrite lookup_insert_eq | rewrite lookup_insert_ne by done; apply Hm].
    intros [= <-]. split; [apply Hl; constructor | done]. }
  apply H; [intros ? ?; rewrite lookup_empty; done | done].
Qed.

(** A view of the snapshot before is, after the poll's events, a view of the
    snapshot the poll read. *)
Lemma replay_poll v :
  pr_Number prev <> 0 -> pr_HeadSHA prev <> "" -> fullRead curr -> (pr_Merged prev = true -> pr_Merged curr = true) ->
  shows v prev -> shows (replay v (prDiff prev p)) curr.
Proof.
  intros Hp Hh (_ & Hh' & Hn) Hm (Sl & Sh & Sm & Sc). unfold prDiff, DiffPRSnapshots.
  rewrite (proj2 (Z.eqb_neq _ _) Hp), !replay_app.
  rewrite (replay_typed _ _ _ body_types eq_refl), (replay_terminal _ Sm Hm), (replay_typed _ _ _ ready_types eq_refl).
  set (v1 := MkView _ _ _ _).
  destruct (replay_checks (checksOf curr) v1 Hn) as (I1 & I2 & I3 & _ & I5).
  { intros cr c _. unfold wasClass. destruct (prevByID prev !! cr_ID cr) as [q |] eqn:E; [| done].
    apply prevByID_in in E as [Hq <-]. case_bool_decide; [done |]. intros [= <-]. apply Sc; done. }
  assert (Ec : ciEvents parse prev curr entityID repositoryID = flat_map (checkEvents parse prev curr entityID repositoryID) (checksOf curr))
    by (unfold ciEvents, checksOf; destruct (pr_CheckRuns curr); done).
  rewrite Ec. rewrite replay_commits by (rewrite ?I2; done).
  rewrite (replay_typed _ _ _ request_types eq_refl), (replay_typed _ _ _ review_types eq_refl).
  rewrite (replay_typed _ _ _ comment_types eq_refl), (replay_typed _ _ _ (mention_types _) eq_refl).
  rewrite replay_labels by (cbn; rewrite I1; done). split_and!; [done | done | exact I3 | exact I5].
Qed.

(** *** Every event that moves it reports a change *)

(** A check of [s] with this id is complete and in this class. *)
Definition classed (s : PRSnapshot) (id : Z) (failing : bool) : Prop :=
  exists cr, cr ∈ checksOf s /\ cr_ID cr = id /\ cr_Conclusion cr <> "" /\ RouteClose.IsFailingConclusion (cr_Conclusion cr) = failing.

(** What the snapshots must differ in for an event of each replayed type. *)
Definition news (s s' : PRSnapshot) (e : emitted) : Prop :=
  let id := getZ "CheckRunID" (em_meta e) in
  (em_type e = EventGitHubPRLabelAdded -> em_key e ∈ pr_Labels s' /\ em_key e ∉ pr_Labels s) /\
  (em_type e = EventGitHubPRLabelRemoved -> em_key e ∈ pr_Labels s /\ em_key e ∉ pr_Labels s') /\
  (em_type e = EventGitHubPRNewCommits -> pr_HeadSHA s' <> pr_HeadSHA s) /\
  (em_type e = EventGitHubPRMerged -> pr_Merged s = false /\ pr_Merged s' = true) /\
  (em_type e = EventGitHubPRCICheckFailed -> classed s' id true /\ ~ classed s id true) /\
  (em_type e = EventGitHubPRCICheckPassed -> classed s' id false /\ ~ classed s id false).

(** What an event is about. *)
Definition subject (e : emitted) : string * string * Z := (em_type e, em_key e, getZ "CheckRunID" (em_meta e)).
Definition moving (l : list emitted) : list emitted := filter (fun e => em_type e ∈ replayed) l.

Lemma prevByID_some cr : NoDup (map cr_ID (checksOf prev)) -> cr ∈ checksOf prev -> prevByID prev !! cr_ID cr = Some cr.
Proof.
  unfold prevByID. fold (checksOf prev). generalize (∅ : gmap Z CheckRun).
  induction (checksOf prev) as [| c l IH]; intros m Hn Hc; [by apply not_elem_of_nil in Hc |]. cbn.
  apply NoDup_cons in Hn as [Hni Hn]. apply elem_of_cons in Hc as [-> | Hc]; [| by apply IH]. clear IH Hn.
  assert (H : forall l (m : gmap Z CheckRun), cr_ID c ∉ map cr_ID l -> m !! cr_ID c = Some c ->
    foldl (fun m c => <[cr_ID c := c]> m) m l !! cr_ID c = Some c).
  { clear. induction l as [| x l IH]; intros m Hx Hm; [done |]. cbn in *. apply not_elem_of_cons in Hx as [Hne Hx].
    apply IH; [done |]. by rewrite lookup_insert_ne. }
  apply H; [done | apply lookup_insert_eq].
Qed.

Lemma was_classed cr failing : NoDup (map cr_ID (checksOf prev)) ->
  classed prev (cr_ID cr) failing <-> wasClass (cr_ID cr) = Some failing.
Proof.
  intros Hn. unfold wasClass. split.
  - intros (q & Hq & <- & Hc & <-). rewrite (prevByID_some q Hn Hq). by rewrite bool_decide_eq_false_2.
  - destruct (prevByID prev !! cr_ID cr) as [q |] eqn:E; [| done]. apply prevByID_in in E as [Hq E].
    case_bool_decide; [done |]. intros [= <-]. exists q. done.
Qed.

(** The events of one check: one that reports its class when the class is new. *)
Lemma check_news cr : NoDup (map cr_ID (checksOf prev)) -> cr ∈ checksOf curr ->
  checkEvents parse prev curr entityID repositoryID cr = [] \/
  exists e, checkEvents parse prev curr entityID repositoryID cr = [e] /\ news prev curr e /\ getZ "CheckRunID" (em_meta e) = cr_ID cr.
Proof.
  intros Hn Hcr. assert (He : RouteClose.IsFailingConclusion "" = false) by reflexivity. unfold checkEvents.
  destruct (decide (cr_Conclusion cr = "")) as [E | E]; [left; by rewrite E, He |].
  assert (Hc : forall failing, RouteClose.IsFailingConclusion (cr_Conclusion cr) = failing -> classed curr (cr_ID cr) failing)
    by (intros failing Hf; exists cr; done).
  rewrite (bool_decide_eq_false_2 _ E). cbn [negb].
  destruct (RouteClose.IsFailingConclusion (cr_Conclusion cr)) eqn:Hf.
  - match goal with |- context [when ?b _] => destruct b eqn:Eb end; [right | left; done]. eexists. split; [done |].
    split; [| by rewrite emitAt_meta]. unfold news. rewrite emitAt_type, emitAt_meta. cbn zeta. split_and!; try done. intros _. split; [by apply Hc |].
    change (~ classed prev (cr_ID cr) true). rewrite (was_classed cr true Hn). unfold wasClass. destruct (prevByID prev !! cr_ID cr); [| done]. apply negb_true_iff in Eb. rewrite Eb. by case_bool_decide.
  - match goal with |- context [when ?b _] => destruct b eqn:Eb end; [right | left; done]. eexists. split; [done |].
    split; [| by rewrite emitAt_meta]. unfold news. rewrite emitAt_type, emitAt_meta. cbn zeta. split_and!; try done. intros _. split; [by apply Hc |].
    change (~ classed prev (cr_ID cr) false). rewrite (was_classed cr false Hn). unfold wasClass. destruct (prevByID prev !! cr_ID cr) as [q |]; [| done]. apply negb_true_iff in Eb.
    destruct (RouteClose.IsFailingConclusion (cr_Conclusion q)); case_bool_decide; done.
Qed.

Lemma inert_news ts l : typed ts l -> bool_decide (Forall (fun t => t ∉ replayed) ts) = true -> Forall (news prev curr) l /\ moving l = [].
Proof.
  intros Ht Hb. pose proof (typed_avoids _ _ _ Ht Hb) as H. clear Ht. unfold moving. induction H as [| e l He _ [IH1 IH2]]; [done |].
  rewrite filter_cons_False by done. split; [| done]. constructor; [| done].
  unfold news. split_and!; intros E; exfalso; apply He; rewrite E; unfold replayed; set_solver.
Qed.

Lemma moving_app l l' : moving (l ++ l') = moving l ++ moving l'.
Proof. apply filter_app. Qed.
Lemma moving_typed ts l : typed ts l -> bool_decide (Forall (fun t => t ∈ replayed) ts) = true -> moving l = l.
Proof.
  intros Ht Hb. pose proof (typed_within _ _ _ Ht Hb) as H. clear Ht. unfold moving. induction H as [| e l He _ IH]; [done |].
  rewrite filter_cons_True by done. by rewrite IH.
Qed.

Lemma subjects_app ts ts' l l' : typed ts l -> typed ts' l' -> bool_decide (Forall (fun t => t ∉ ts') ts) = true ->
  NoDup (map subject l) -> NoDup (map subject l') -> NoDup (map subject (l ++ l')).
Proof.
  intros Ht Ht' Hb Hn Hn'. rewrite map_app. apply NoDup_app. split_and!; [done | | done].
  intros x Hx Hx'. apply list_elem_of_fmap in Hx as (e & -> & He), Hx' as (e' & E & He'). injection E as E _ _.
  apply bool_decide_eq_true in Hb. rewrite Forall_forall in Hb. apply (Hb (em_type e)); [exact (proj1 (Forall_forall _ _) Ht e He) |].
  rewrite E. exact (proj1 (Forall_forall _ _) Ht' e' He').
Qed.

Lemma subjects_map (f : string -> emitted) (X : gset string) : (forall x, em_key (f x) = x) -> NoDup (map subject (map f (elements X))).
Proof.
  intros Hk. rewrite map_map. apply (NoDup_fmap_1 (fun x : string * string * Z => x.1.2)).
  assert (E : (fun x : string * string * Z => x.1.2) <$> map (fun x => subject (f x)) (elements X) = elements X).
  { change (map (fun x : string * string * Z => x.1.2) (map (fun x => subject (f x)) (elements X)) = elements X).
    rewrite map_map. rewrite <- (map_id (elements X)) at 2. apply map_ext. intros x. exact (Hk x). }
  rewrite E. apply NoDup_elements.
Qed.

Lemma label_news : Forall (news prev curr) (labelEvents parse prev curr entityID repositoryID) /\
  NoDup (map subject (labelEvents parse prev curr entityID repositoryID)).
Proof.
  assert (T1 : typed [EventGitHubPRLabelAdded] (map (fun l => emitAt parse curr entityID EventGitHubPRLabelAdded l (lookupLabelTime (pr_Timeline curr) "labeled" l)
      (prFields curr repositoryID ++ [("LabelName", VS l); draftF curr; headF curr])) (elements (toSet (pr_Labels curr) ∖ toSet (pr_Labels prev))))).
  { unfold typed. each. in_types. }
  assert (T2 : typed [EventGitHubPRLabelRemoved] (map (fun l => emitAt parse curr entityID EventGitHubPRLabelRemoved l (lookupLabelTime (pr_Timeline curr) "unlabeled" l)
      (prFields curr repositoryID ++ [("LabelName", VS l); draftF curr; headF curr])) (elements (toSet (pr_Labels prev) ∖ toSet (pr_Labels curr))))).
  { unfold typed. each. in_types. }
  unfold labelEvents. split.
  - apply Forall_app; split; apply Forall_forall; intros e He; apply list_elem_of_fmap in He as (l & -> & Hl);
      apply elem_of_elements, elem_of_difference in Hl as [H1 H2]; unfold toSet in H1, H2; rewrite elem_of_list_to_set in H1, H2;
      unfold news; rewrite emitAt_type, emitAt_key; split_and!; done.
  - eapply subjects_app; [exact T1 | exact T2 | done | |]; apply subjects_map; intros; apply emitAt_key.
Qed.

Lemma ci_news : NoDup (map cr_ID (checksOf prev)) -> NoDup (map cr_ID (checksOf curr)) ->
  Forall (news prev curr) (ciEvents parse prev curr entityID repositoryID) /\
  NoDup (map subject (ciEvents parse prev curr entityID repositoryID)).
Proof.
  intros Hp Hc.
  assert (Ec : ciEvents parse prev curr entityID repositoryID = flat_map (checkEvents parse prev curr entityID repositoryID) (checksOf curr))
    by (unfold ciEvents, checksOf; destruct (pr_CheckRuns curr); done).
  rewrite Ec.
  assert (H : forall l, (forall cr, cr ∈ l -> cr ∈ checksOf curr) -> NoDup (map cr_ID l) ->
    Forall (news prev curr) (flat_map (checkEvents parse prev curr entityID repositoryID) l) /\
    NoDup (map subject (flat_map (checkEvents parse prev curr entityID repositoryID) l)) /\
    Forall (fun e => getZ "CheckRunID" (em_meta e) ∈ map cr_ID l) (flat_map (checkEvents parse prev curr entityID repositoryID) l)).
  { induction l as [| cr l IH]; intros Hl Hn; [cbn; split_and!; constructor |]. apply NoDup_cons in Hn as [Hcr Hn]. cbn [flat_map].
    destruct (IH (fun c H => Hl c (list_elem_of_further _ _ _ H)) Hn) as (I1 & I2 & I3).
    assert (I3' : Forall (fun e => getZ "CheckRunID" (em_meta e) ∈ map cr_ID (cr :: l)) (flat_map (checkEvents parse prev curr entityID repositoryID) l))
      by (eapply Forall_impl; [exact I3 |]; intros e He; cbn; by right).
    destruct (check_news cr Hp (Hl cr (list_elem_of_here _ _))) as [-> | (e & -> & He & Hid)]; [done |].
    cbn [app map]. split_and!; [by constructor | | constructor; [rewrite Hid; cbn; by left | done]].
    apply NoDup_cons. split; [| done]. intros Hin. apply list_elem_of_fmap in Hin as (e' & E & He'). injection E as _ _ E.
    apply Hcr. rewrite <- Hid, E. exact (proj1 (Forall_forall _ _) I3 e' He'). }
  destruct (H (checksOf curr) (fun _ H => H) Hc) as (? & ? & _). done.
Qed.

Lemma terminal_news : Forall (news prev curr) (terminalEvents parse prev curr entityID repositoryID) /\
  exists l, moving (terminalEvents parse prev curr entityID repositoryID) = l /\ typed [EventGitHubPRMerged] l /\ (length l <= 1)%nat.
Proof.
  unfold terminalEvents. destruct (inert_news _ _ (Forall_when _ (bool_decide (pr_State prev <> "CLOSED" /\ pr_State curr = "CLOSED") && negb (pr_Merged curr)) _ closed_types) eq_refl) as [H1 H2].
  rewrite moving_app, H2, app_nil_r. split.
  - apply Forall_app; split; [| done]. destruct (negb (pr_Merged prev) && pr_Merged curr) eqn:E; cbn [when]; [| constructor].
    apply andb_true_iff in E as [E1%negb_true_iff E2]. constructor; [| constructor]. unfold news, mergedEvent. rewrite emitAt_type. split_and!; done.
  - eexists. split; [done |]. rewrite (moving_typed _ _ (Forall_when _ _ _ merged_types) eq_refl). split; [apply Forall_when, merged_types |].
    destruct (negb (pr_Merged prev) && pr_Merged curr); cbn; lia.
Qed.

Lemma commit_news : Forall (news prev curr) (commitEvents parse prev curr entityID repositoryID) /\
  (length (commitEvents parse prev curr entityID repositoryID) <= 1)%nat.
Proof.
  unfold commitEvents. case_bool_decide as E; cbn [when]; [| split; [constructor | cbn; lia]]. split; [| cbn; lia].
  constructor; [| constructor]. unfold news. rewrite emitAt_type. split_and!; try done. intros _. naive_solver.
Qed.

Lemma subjects_one l : (length l <= 1)%nat -> NoDup (map subject l).
Proof. destruct l as [| e [| e' l]]; cbn; intros H; [constructor | apply NoDup_singleton | lia]. Qed.

(** One poll reports every change once and nothing else. *)
Lemma diff_news : pr_Number prev <> 0 -> NoDup (map cr_ID (checksOf prev)) -> NoDup (map cr_ID (checksOf curr)) ->
  Forall (news prev curr) (prDiff prev p) /\ NoDup (map subject (moving (prDiff prev p))).
Proof.
  intros Hn Hp Hc. unfold prDiff, DiffPRSnapshots. rewrite (proj2 (Z.eqb_neq _ _) Hn), !moving_app.
  destruct (inert_news _ _ body_types eq_refl) as [B1 ->], (inert_news _ _ ready_types eq_refl) as [R1 ->],
    (inert_news _ _ request_types eq_refl) as [Q1 ->], (inert_news _ _ review_types eq_refl) as [V1 ->],
    (inert_news _ _ comment_types eq_refl) as [C1 ->].
  match goal with |- context [moving (flat_map ?f ?l)] => destruct (inert_news _ (flat_map f l) (mention_types l) eq_refl) as [M1 ->] end.
  rewrite (moving_typed _ _ ci_types eq_refl), (moving_typed _ _ commit_types eq_refl), (moving_typed _ _ label_types eq_refl). cbn [app].
  destruct terminal_news as (T1 & l & -> & T2 & T3), (ci_news Hp Hc) as [I1 I2], commit_news as [K1 K2], label_news as [L1 L2].
  split; [repeat (apply Forall_app; split; [done |]); done |].
  eapply (subjects_app _ [EventGitHubPRCICheckFailed; EventGitHubPRCICheckPassed; EventGitHubPRNewCommits; EventGitHubPRLabelAdded; EventGitHubPRLabelRemoved]); [exact T2 | | done | by apply subjects_one |].
  - apply Forall_app; split; [| apply Forall_app; split]; (eapply typed_within; [first [apply ci_types | apply commit_types | apply label_types] | reflexivity]).
  - eapply (subjects_app _ [EventGitHubPRNewCommits; EventGitHubPRLabelAdded; EventGitHubPRLabelRemoved]); [apply ci_types | | done | done |].
    + apply Forall_app; split; (eapply typed_within; [first [apply commit_types | apply label_types] | reflexivity]).
    + eapply subjects_app; [apply commit_types | apply label_types | done | by apply subjects_one | done].
Qed.

(** *** What every event carries *)

Definition stamped (e : emitted) : Prop := em_entity e = entityID /\ exists rest, em_meta e = prFields curr repositoryID ++ rest.

Lemma stamped_at et key at_ rest : stamped (emitAt parse curr entityID et key at_ (prFields curr repositoryID ++ rest)).
Proof. split; [apply emitAt_entity | exists rest; apply emitAt_meta]. Qed.
Lemma stamped_by et key at_ rest : stamped (emitWithFallback parse et entityID key at_ (prFields curr repositoryID ++ rest)).
Proof. split; [done | exists rest; done]. Qed.
Lemma stamped_emit et key rest : stamped (emit parse curr entityID et key (prFields curr repositoryID ++ rest)).
Proof. split; [done | exists rest; done]. Qed.

Lemma diff_stamped : Forall stamped (prDiff prev p).
Proof.
  assert (R : forall st r i n c ps at_, Forall stamped (emitReview parse curr entityID repositoryID st r i n c ps at_)).
  { intros. unfold emitReview. destruct (reviewType st); each. apply stamped_at. }
  unfold prDiff, DiffPRSnapshots. destruct (_ =? _); [destruct (pr_Merged curr); each; apply stamped_at |].
  unfold bodyEvents, terminalEvents, readyEvents, ciEvents, commitEvents, requestEvents, labelEvents.
  repeat apply Forall_app_2; each; try apply stamped_at; try apply stamped_emit.
  - destruct (pr_CheckRuns curr); each. unfold checkEvents.
    destruct (RouteClose.IsFailingConclusion _); [| destruct (negb (bool_decide (cr_Conclusion x = "")))]; each; apply stamped_at.
  - unfold reviewEvents. destruct (pr_ReviewMarker prev); each; apply R.
  - unfold commentEvents. destruct (commentedBy _) as [[c ids] |]; each. apply stamped_by.
  - unfold mentionEvents. destruct (resolveReviewer _ _) as [[? t] |]; each. apply stamped_by.
Qed.

Lemma diff_types : typed (map fst githubRegistry) (prDiff prev p).
Proof.
  unfold prDiff, DiffPRSnapshots.
  destruct (_ =? _); [destruct (pr_Merged curr); [| apply Forall_when];
    (eapply typed_within; [apply merged_types || apply closed_types | reflexivity]) |].
  unfold terminalEvents, typed. rewrite !Forall_app. split_and!; try match goal with |- Forall _ (when _ _) => apply Forall_when end;
    (eapply typed_within; [first [apply body_types | apply merged_types | apply closed_types | apply ready_types | apply ci_types
      | apply commit_types | apply request_types | apply review_types | apply comment_types | apply mention_types | apply label_types]
    | reflexivity]).
Qed.

Definition terminators (l : list emitted) : list emitted := filter (fun e => em_type e ∈ EntityTerminatingEventTypes) l.

Lemma terminators_app l l' : terminators (l ++ l') = terminators l ++ terminators l'.
Proof. apply filter_app. Qed.
Lemma terminators_none ts l :
  typed ts l -> bool_decide (Forall (fun t => t ∉ EntityTerminatingEventTypes) ts) = true -> terminators l = [].
Proof.
  intros Ht Hb. pose proof (typed_avoids _ _ _ Ht Hb) as H. unfold terminators.
  induction H as [| e l He _ IH]; [done |]. rewrite filter_cons_False; [apply IH; by inversion Ht | done].
Qed.

Lemma pr_terminators :
  terminators (prDiff prev p) = [] \/ terminators (prDiff prev p) = [mergedEvent parse curr entityID repositoryID] \/
  terminators (prDiff prev p) = [closedEvent parse curr entityID repositoryID].
Proof.
  assert (Tm : terminators [mergedEvent parse curr entityID repositoryID] = [mergedEvent parse curr entityID repositoryID]).
  { unfold terminators. rewrite filter_cons_True; [done |]. unfold mergedEvent. in_types. }
  assert (Tc : terminators [closedEvent parse curr entityID repositoryID] = [closedEvent parse curr entityID repositoryID]).
  { unfold terminators. rewrite filter_cons_True; [done |]. unfold closedEvent. in_types. }
  unfold prDiff, DiffPRSnapshots. destruct (_ =? _); [destruct (pr_Merged curr); try case_bool_decide; cbn [when]; auto |].
  rewrite !terminators_app.
  rewrite (terminators_none _ _ body_types eq_refl), (terminators_none _ _ ready_types eq_refl), (terminators_none _ _ ci_types eq_refl),
    (terminators_none _ _ commit_types eq_refl), (terminators_none _ _ request_types eq_refl), (terminators_none _ _ review_types eq_refl),
    (terminators_none _ _ comment_types eq_refl), (terminators_none _ _ (mention_types _) eq_refl),
    (terminators_none _ _ label_types eq_refl).
  cbn [app]. rewrite !app_nil_r. unfold terminalEvents. rewrite terminators_app.
  destruct (pr_Merged prev), (pr_Merged curr); case_bool_decide; cbn [when andb negb]; rewrite ?Tm, ?Tc; cbn [app]; auto.
Qed.

End Step.

Lemma latest_full ps : forall prev, fullRead prev -> Forall (fun p => fullRead (pl_snap p)) ps -> fullRead (latest prev ps).
Proof. induction ps as [| p ps IH]; intros prev Hp Hps; [done |]. apply Forall_cons in Hps as [? ?]. by apply IH. Qed.

Lemma replay_history ps : forall prev v,
  fullRead prev -> Forall (fun p => fullRead (pl_snap p)) ps -> mergesStick prev ps ->
  shows v prev -> shows (replay v (history prev ps)) (latest prev ps).
Proof.
  induction ps as [| p ps IH]; intros prev v Hp Hps Hm Hv; cbn; [done |].
  inversion Hps; subst. destruct Hm as [Hm Hms], Hp as (Hn & Hh & _). rewrite replay_app. apply IH; try done.
  apply replay_poll; done.
Qed.

End History.

(** ** Issues with children *)

(** What the two issue trackers share: a snapshot with a count of open children, a
    poll's own inputs, and the types that announce the issue as work. *)
Class IssueSource (S P : Type) := {
  is_diff : S -> S -> P -> list emitted;
  is_seed : bool -> S -> P -> list emitted;
  is_new : S -> bool;
  is_open : S -> Z;
  is_done : S -> P -> bool;
  is_work : list string;
  is_atomic : string
}.

Definition announces (S P : Type) `{IssueSource S P} (e : emitted) : Prop := em_type e ∈ is_work (S := S) (P := P).

(** Its contract: a container announces nothing; an issue discovered as assigned to
    the user, neither a container nor finished, is announced, one picked up is not;
    and one whose last child closed is announced as atomic. *)
Class GatedSource (S P : Type) `{IssueSource S P} := {
  gate_container prev curr p : 0 < is_open curr -> Forall (fun e => ~ announces S P e) (is_diff prev curr p);
  gate_seed_container assigned curr p : 0 < is_open curr -> Forall (fun e => ~ announces S P e) (is_seed assigned curr p);
  gate_discovery curr p : is_open curr = 0 -> is_done curr p = false -> Exists (announces S P) (is_seed true curr p);
  gate_pickup curr p : is_seed false curr p = [];
  gate_closing prev curr p : is_new prev = false -> 0 < is_open prev -> is_open curr = 0 -> is_done curr p = false ->
    Exists (fun e => announces S P e /\ em_type e = is_atomic (S := S) (P := P)) (is_diff prev curr p)
}.

Section Issues.
Context {S P : Type} `{GatedSource S P}.

(** The events of a sequence of polls from a stored snapshot, each snapshot with
    the inputs of its poll; and of a discovery and the polls after it. *)
Fixpoint issueHistory (prev : S) (ps : list (S * P)) : list emitted :=
  match ps with [] => [] | (curr, p) :: ps => is_diff prev curr p ++ issueHistory curr ps end.
Definition issueLife (assigned : bool) (s : S) (p : P) (ps : list (S * P)) : list emitted :=
  is_seed assigned s p ++ issueHistory s ps.

(** No poll finds the issue finished, and each reads a count of children. *)
Definition working (ps : list (S * P)) : Prop := Forall (fun '(s, p) => is_done s p = false /\ is_new s = false /\ 0 <= is_open s) ps.

Lemma containers_announce_nothing ps : forall prev,
  Forall (fun '(s, _) => 0 < is_open s) ps -> Forall (fun e => ~ announces S P e) (issueHistory prev ps).
Proof.
  induction ps as [| [s p] ps IH]; intros prev Hs; cbn; [constructor |]. inversion Hs; subst.
  apply Forall_app_2; [apply gate_container; done | apply IH; done].
Qed.

(** The event that announces an issue whose last child closed. *)
Definition collapse (e : emitted) : Prop := announces S P e /\ em_type e = is_atomic (S := S) (P := P).

Lemma collapse_announces ps : forall prev s p,
  is_new prev = false -> 0 < is_open prev -> working (ps ++ [(s, p)]) -> is_open s = 0 ->
  Exists collapse (issueHistory prev (ps ++ [(s, p)])).
Proof.
  induction ps as [| [t q] ps IH]; intros prev s p Hn Ho Hw Hs; cbn; apply Forall_cons in Hw as [(Hd & Hn' & Hp) Hw].
  - rewrite app_nil_r. by apply gate_closing.
  - apply Exists_app. destruct (decide (is_open t = 0)) as [E | E]; [left; by apply gate_closing |].
    right. apply IH; try done. lia.
Qed.

End Issues.

(** *** The two trackers *)

Record jiraInputs := MkJiraInputs { jn_current : string; jn_previous : string; jn_done : list JiraStatusRef; jn_comments : list NewComment }.
Record linearInputs := MkLinearInputs { ln_done : list LinearStateRef; ln_comments : list NewComment; ln_groups : gmap string LinearLabelRef }.

Section Sources.
Variables (parse : string -> option Z) (entityID : string).

Definition jiraDiff (prev curr : JiraSnapshot) (p : jiraInputs) : list emitted :=
  DiffJiraSnapshots parse prev curr entityID (jn_current p) (jn_previous p) (jn_done p) (jn_comments p).
Definition linearDiff (prev curr : LinearSnapshot) (p : linearInputs) : list emitted :=
  DiffLinearSnapshots parse prev curr entityID (ln_done p) (ln_comments p) (ln_groups p).

#[local] Instance jiraSource : IssueSource JiraSnapshot jiraInputs := {|
  is_diff := jiraDiff;
  is_seed assigned s p := seedCreatedJira parse entityID (jn_current p) (jn_done p) assigned s;
  is_new s := bool_decide (ji_ID s = "" /\ ji_Key s = "");
  is_open := ji_OpenSubtaskCount;
  is_done s p := JiraIssueDone (jn_done p) s;
  is_work := [EventJiraIssueAssigned; EventJiraIssueAvailable; EventJiraIssueBecameAtomic];
  is_atomic := EventJiraIssueBecameAtomic
|}.
#[local] Instance linearSource : IssueSource LinearSnapshot linearInputs := {|
  is_diff := linearDiff;
  is_seed assigned s p := seedCreatedLinear parse entityID (ln_done p) assigned s;
  is_new s := bool_decide (li_ID s = "" /\ li_Identifier s = "");
  is_open := li_OpenChildCount;
  is_done s p := ContainsState (ln_done p) (li_State s);
  is_work := [EventLinearIssueAssigned; EventLinearIssueAvailable; EventLinearIssueBecameAtomic];
  is_atomic := EventLinearIssueBecameAtomic
|}.

Ltac no_work := unfold announces; vm_compute; set_solver.

Lemma jira_container prev curr p :
  0 < ji_OpenSubtaskCount curr -> Forall (fun e => ~ announces JiraSnapshot jiraInputs e) (jiraDiff prev curr p).
Proof.
  intros Ho. assert (E : (ji_OpenSubtaskCount curr =? 0) = false) by lia.
  unfold jiraDiff, DiffJiraSnapshots. case_bool_decide.
  - unfold jiraFirst. rewrite (proj2 (Z.ltb_lt _ _) Ho). destruct (terminal _ _); each. no_work.
  - assert (A : jiraAssignment parse prev curr entityID (jn_current p) = []) by (unfold jiraAssignment; rewrite E, andb_false_r; done).
    assert (B : jiraAtomic parse prev curr entityID (jn_current p) (jn_done p) = [])
      by (unfold jiraAtomic; rewrite E, andb_false_r; done).
    rewrite A, B. unfold jiraKeyChangedEvents, jiraBody, jiraStatus, jiraPriority, jiraLabels, jiraComments.
    destruct (labelChanges _ _) as [ad rm], (commentedBy _) as [[c cs] |]; each; no_work.
Qed.

Lemma linear_container prev curr p :
  0 < li_OpenChildCount curr -> Forall (fun e => ~ announces LinearSnapshot linearInputs e) (linearDiff prev curr p).
Proof.
  intros Ho. assert (E : (li_OpenChildCount curr =? 0) = false) by lia.
  unfold linearDiff, DiffLinearSnapshots. case_bool_decide.
  - unfold linearFirst. rewrite (proj2 (Z.ltb_lt _ _) Ho). destruct (lterminal _ _); each. no_work.
  - assert (A : linearAssignment parse prev curr entityID = []) by (unfold linearAssignment; rewrite E, andb_false_r; done).
    assert (B : linearAtomic parse prev curr entityID (ln_done p) = []) by (unfold linearAtomic; rewrite E, andb_false_r; done).
    rewrite A, B. unfold linearIdentifierChangedEvents, linearBody, linearStatus, linearPriority, linearLabels, linearComments, linearParent.
    destruct (linearLabelChanges _ _) as [ad rm], (commentedBy _) as [[c cs] |]; each; no_work.
Qed.

#[local] Instance jiraGated : GatedSource JiraSnapshot jiraInputs.
Proof.
  split; cbn.
  - exact jira_container.
  - intros assigned curr p Ho. unfold seedCreatedJira. destruct (JiraIssueDone _ _); [constructor |]. destruct assigned; [| constructor].
    exact (jira_container noJira curr (MkJiraInputs (jn_current p) "" (jn_done p) []) Ho).
  - intros curr p Ho Hd. unfold seedCreatedJira. rewrite Hd. unfold DiffJiraSnapshots. cbn. unfold jiraFirst, terminal. rewrite Hd, Ho. cbn.
    destruct (HasAssignee curr); constructor; unfold announces; cbn; set_solver.
  - intros curr p. unfold seedCreatedJira. by destruct (JiraIssueDone _ _).
  - intros prev curr p Hn Hp Ho Hd. unfold jiraDiff, DiffJiraSnapshots. rewrite Hn. rewrite !Exists_app. do 7 right.
    unfold jiraAtomic, terminal. rewrite Hd, Ho, (proj2 (Z.ltb_lt _ _) Hp). cbn. constructor. unfold announces; cbn; set_solver.
Qed.
#[local] Instance linearGated : GatedSource LinearSnapshot linearInputs.
Proof.
  split; cbn.
  - exact linear_container.
  - intros assigned curr p Ho. unfold seedCreatedLinear. destruct (ContainsState _ _); [constructor |]. destruct assigned; [| constructor].
    exact (linear_container noLinear curr (MkLinearInputs (ln_done p) [] ∅) Ho).
  - intros curr p Ho Hd. unfold seedCreatedLinear. rewrite Hd. unfold DiffLinearSnapshots. cbn. unfold linearFirst, lterminal. rewrite Hd, Ho. cbn.
    destruct (negb _); constructor; unfold announces; cbn; set_solver.
  - intros curr p. unfold seedCreatedLinear. by destruct (ContainsState _ _).
  - intros prev curr p Hn Hp Ho Hd. unfold linearDiff, DiffLinearSnapshots. rewrite Hn. rewrite !Exists_app. do 8 right.
    unfold linearAtomic, lterminal. rewrite Hd, Ho, (proj2 (Z.ltb_lt _ _) Hp). cbn. constructor. unfold announces; cbn; set_solver.
Qed.

(** *** What every issue event carries *)

Section Carried.
Variables (org id : string).

(** The projects the scope gate asks about: where the issue is and, for a changed
    key, where it was. *)
Definition placedJira (p : jiraInputs) (e : emitted) : Prop :=
  em_entity e = entityID /\ em_type e ∈ map fst jiraRegistry /\
  RouteTeams.eventProjects (toEvent org id e) =
    jn_current p :: (if bool_decide (em_type e = EventJiraIssueKeyChanged /\ jn_previous p <> "" /\ jn_previous p <> jn_current p)
                     then [jn_previous p] else []).
Definition placedLinear (prev curr : LinearSnapshot) (e : emitted) : Prop :=
  em_entity e = entityID /\ em_type e ∈ map fst linearRegistry /\
  RouteTeams.eventLinearTeams (toEvent org id e) (decode (em_meta e)) =
    (if bool_decide (li_TeamID curr = "") then [] else [li_TeamID curr]) ++
    (if bool_decide (em_type e = EventLinearIssueIdentifierChanged /\ li_TeamID prev <> "" /\ li_TeamID prev <> li_TeamID curr)
     then [li_TeamID prev] else []).

Ltac placed := split; [reflexivity | split; [cbn; in_list | reflexivity]].

Lemma jira_placed prev curr p : Forall (placedJira p) (jiraDiff prev curr p).
Proof.
  unfold jiraDiff, DiffJiraSnapshots. case_bool_decide.
  - unfold jiraFirst. repeat case_match; each; placed.
  - unfold jiraKeyChangedEvents, jiraBody, jiraStatus, jiraAssignment, jiraPriority, jiraLabels, jiraComments, jiraAtomic.
    destruct (labelChanges _ _) as [ad rm], (commentedBy _) as [[c cs] |], (HasAssignee _); each; placed.
Qed.
Lemma linear_placed prev curr p : Forall (placedLinear prev curr) (linearDiff prev curr p).
Proof.
  unfold linearDiff, DiffLinearSnapshots. case_bool_decide.
  - unfold linearFirst. repeat case_match; each; placed.
  - unfold linearIdentifierChangedEvents, linearBody, linearStatus, linearAssignment, linearPriority, linearLabels, linearComments,
      linearParent, linearAtomic.
    destruct (linearLabelChanges _ _) as [ad rm], (commentedBy _) as [[c cs] |]; each; try placed;
      (case_match; each; placed).
Qed.

End Carried.

(** *** An issue finishes once in a diff *)

Ltac no_terminator ts := rewrite (terminators_none ts) by (first [reflexivity | unfold typed; each; cbn; in_list]).

Lemma jira_terminators prev curr p : (length (terminators (jiraDiff prev curr p)) <= 1)%nat.
Proof.
  unfold jiraDiff, DiffJiraSnapshots. case_bool_decide; [unfold jiraFirst; repeat case_match; apply Nat.leb_le; reflexivity |].
  rewrite !terminators_app, !length_app. set (st := terminators (jiraStatus _ _ _ _ _ _)).
  unfold jiraKeyChangedEvents, jiraBody, jiraAssignment, jiraPriority, jiraLabels, jiraComments, jiraAtomic.
  destruct (labelChanges _ _) as [ad rm], (commentedBy _) as [[c cs] |], (HasAssignee curr);
  no_terminator [EventJiraIssueKeyChanged]; no_terminator [EventJiraIssueBodyUpdated];
  no_terminator [EventJiraIssueAssigned; EventJiraIssueAvailable]; no_terminator [EventJiraIssuePriorityChanged];
  no_terminator [EventJiraIssueLabelAdded; EventJiraIssueLabelRemoved]; no_terminator [EventJiraIssueCommented];
  no_terminator [EventJiraIssueBecameAtomic]; subst st; unfold jiraStatus; destruct (negb _ && _), (terminal _ _); apply Nat.leb_le; reflexivity.
Qed.
Lemma linear_terminators prev curr p : (length (terminators (linearDiff prev curr p)) <= 1)%nat.
Proof.
  unfold linearDiff, DiffLinearSnapshots. case_bool_decide; [unfold linearFirst; repeat case_match; apply Nat.leb_le; reflexivity |].
  rewrite !terminators_app, !length_app. set (st := terminators (linearStatus _ _ _ _ _)).
  unfold linearIdentifierChangedEvents, linearBody, linearAssignment, linearPriority, linearLabels, linearComments, linearParent, linearAtomic.
  destruct (linearLabelChanges _ _) as [ad rm], (commentedBy _) as [[c cs] |], (bool_decide (li_AssigneeUserID curr = "")); cbn [negb];
  no_terminator [EventLinearIssueIdentifierChanged]; no_terminator [EventLinearIssueBodyUpdated];
  no_terminator [EventLinearIssueAssigned; EventLinearIssueAvailable]; no_terminator [EventLinearIssuePriorityChanged];
  no_terminator [EventLinearIssueLabelAdded; EventLinearIssueLabelRemoved]; no_terminator [EventLinearIssueCommented];
  no_terminator [EventLinearIssueParentChanged];
  no_terminator [EventLinearIssueBecameAtomic]; subst st; unfold linearStatus; destruct (negb _ && _), (lterminal _ _); apply Nat.leb_le; reflexivity.
Qed.

End Sources.

(** ** An unchanged entity *)

Lemma flat_map_none {A B} (f : A -> list B) l : (forall x, x ∈ l -> f x = []) -> flat_map f l = [].
Proof. induction l as [| x l IH]; intros H; cbn; [done |]. rewrite H by constructor. apply IH. intros y Hy. apply H. by constructor. Qed.
Lemma filter_none {A} (P : A -> Prop) `{forall x, Decision (P x)} l : (forall x, x ∈ l -> ~ P x) -> filter P l = [].
Proof.
  induction l as [| x l IH]; intros H'; [done |]. rewrite filter_cons_False by (apply H'; constructor).
  apply IH. intros y Hy. apply H'. by constructor.
Qed.

Lemma NoDup_map_inj {A B} (f : A -> B) l x y : NoDup (map f l) -> x ∈ l -> y ∈ l -> f x = f y -> x = y.
Proof.
  induction l as [| z l IH]; cbn; intros Hn Hx Hy E; [by apply not_elem_of_nil in Hx |]. apply NoDup_cons in Hn as [Hz Hn].
  apply elem_of_cons in Hx, Hy. destruct Hx as [-> | Hx], Hy as [-> | Hy].
  - done.
  - exfalso. apply Hz. rewrite E. apply list_elem_of_fmap. eauto.
  - exfalso. apply Hz. rewrite <- E. apply list_elem_of_fmap. eauto.
  - apply IH; done.
Qed.

(** An index by a key holds each entry that shares its key with no other. *)
Lemma index_holds {K A} `{Countable K} (f : A -> K) (skip : A -> bool) l x : forall m : gmap K A,
  skip x = false -> (m !! f x = Some x \/ x ∈ l) -> (forall y, y ∈ l -> skip y = false -> f y = f x -> y = x) ->
  foldl (fun m c => if skip c then m else <[f c := c]> m) m l !! f x = Some x.
Proof.
  induction l as [| y l IH]; intros m Hs Hx Hu; cbn; [destruct Hx as [Hx | Hx]; [done | by apply not_elem_of_nil in Hx] |].
  apply IH; [done | | intros z Hz; apply Hu; by constructor].
  destruct (skip y) eqn:Ey.
  - destruct Hx as [Hx | Hx]; [by left |]. apply elem_of_cons in Hx as [-> | Hx]; [congruence | by right].
  - destruct (decide (f y = f x)) as [E | E].
    + left. rewrite (Hu y) by (done || constructor). apply lookup_insert_eq.
    + rewrite lookup_insert_ne by done. destruct Hx as [Hx | Hx]; [by left |]. apply elem_of_cons in Hx as [-> | Hx]; [done | by right].
Qed.

(** The reviews of a snapshot: the latest of each account, so no login and no
    account id is there twice. *)
Definition oneReviewEach (s : PRSnapshot) : Prop :=
  NoDup (map rv_Author (pr_Reviews s)) /\ NoDup (map rv_AuthorID (filter (fun r => rv_AuthorID r <> "") (pr_Reviews s))).

Lemma before_self s r : oneReviewEach s -> r ∈ pr_Reviews s -> before s s r = r.
Proof.
  intros [Hl Hi] Hr. unfold before, prevOf.
  assert (Bl : byLogin (pr_Reviews s) !! rv_Author r = Some r).
  { apply (index_holds rv_Author (fun _ => false)); [done | by right |]. intros y Hy _ E. exact (NoDup_map_inj _ _ _ _ Hl Hy Hr E). }
  assert (Bi : rv_AuthorID r <> "" -> byID (pr_Reviews s) !! rv_AuthorID r = Some r).
  { intros Hne. apply (index_holds rv_AuthorID (fun r => bool_decide (rv_AuthorID r = ""))); [by apply bool_decide_eq_false | by right |].
    intros y Hy Hk E. eapply NoDup_map_inj; [exact Hi | | | done]; apply list_elem_of_filter; split; try done. congruence. }
  case_bool_decide as E; [| rewrite Bi; done].
  rewrite Bl. unfold sameAccount. rewrite bool_decide_eq_true_2 by (left; done). done.
Qed.

Lemma changesIn_none gone seen l : (forall x, x ∈ l -> x ∈ gone) -> changesIn gone seen l = ([], seen).
Proof.
  induction l as [| x l IH]; intros H; cbn; [done |].
  rewrite bool_decide_eq_false_2 by (intros [H1 _]; apply H1, H; constructor). apply IH. intros y Hy. apply H. by constructor.
Qed.
Lemma labelChanges_self l : labelChanges l l = ([], []).
Proof. unfold labelChanges. rewrite !changesIn_none by (intros; apply elem_of_list_to_set; done). done. Qed.

Lemma same_reviewer r : SameReviewer r r = true.
Proof.
  unfold SameReviewer. rewrite (bool_decide_eq_true_2 (rr_Team r = rr_Team r)) by done. cbn.
  case_bool_decide; rewrite bool_decide_eq_true_2; done.
Qed.
Lemma requested_present s r : r ∈ RequestedReviewers s -> HasRequestedReviewer s r = true.
Proof. intros Hr. apply existsb_exists. exists r. split; [by apply list_elem_of_In | apply same_reviewer]. Qed.

Section Quiet.
Variables (parse : string -> option Z) (entityID repositoryID : string) (self : GitHubAccount) (rs : option resolver).

Lemma ci_quiet s : NoDup (map cr_ID (checksOf s)) -> ciEvents parse s s entityID repositoryID = [].
Proof.
  intros Hn. unfold ciEvents. destruct (pr_CheckRuns s) as [l |] eqn:El; [| done]. apply flat_map_none. intros cr Hcr.
  assert (Hl : checksOf s = l) by (unfold checksOf; rewrite El; done).
  assert (E : prevByID s !! cr_ID cr = Some cr).
  { unfold prevByID. fold (checksOf s). rewrite Hl in *. apply (index_holds cr_ID (fun _ => false)); [done | by right |].
    intros y Hy _ E. exact (NoDup_map_inj _ _ _ _ Hn Hy Hcr E). }
  unfold checkEvents. rewrite E. destruct (RouteClose.IsFailingConclusion _); [done |].
  case_bool_decide; done.
Qed.

Lemma review_quiet s : oneReviewEach s -> reviewEvents parse s s entityID repositoryID [] = [].
Proof.
  intros H. unfold reviewEvents. destruct (pr_ReviewMarker s); cbn [flat_map app]; apply flat_map_none; intros r Hr;
    rewrite (before_self s r) by done; [destruct (bool_decide (rv_State r = "DISMISSED")); done |].
  rewrite bool_decide_eq_true_2; done.
Qed.

Lemma request_quiet s : requestEvents parse s s entityID repositoryID self rs = [].
Proof.
  unfold requestEvents. rewrite !filter_none by (intros r Hr [E _]; rewrite requested_present in E; done).
  destruct (negb _); done.
Qed.

Lemma mention_quiet s : prMentions parse s s [] [] = [].
Proof.
  unfold prMentions, bodyMentions. cbn [flat_map app]. destruct (pr_BodyMentions s); [| done].
  rewrite filter_none by (intros h Hh [E _]; done). done.
Qed.

Lemma pr_quiet s :
  pr_Number s <> 0 -> NoDup (map cr_ID (checksOf s)) -> oneReviewEach s ->
  DiffPRSnapshots parse s s entityID repositoryID self rs [] [] = [].
Proof.
  intros Hn Hc Hr. unfold DiffPRSnapshots. rewrite (proj2 (Z.eqb_neq _ _) Hn), ci_quiet, review_quiet, request_quiet, mention_quiet by done.
  unfold bodyEvents, terminalEvents, readyEvents, commitEvents, commentEvents, labelEvents.
  rewrite !(bool_decide_eq_false_2 (_ /\ _)) by naive_solver. rewrite difference_diag_L, elements_empty.
  destruct (pr_Merged s), (pr_IsDraft s); done.
Qed.

Lemma jira_quiet s current previous done : ~ (ji_ID s = "" /\ ji_Key s = "") -> DiffJiraSnapshots parse s s entityID current previous done [] = [].
Proof.
  intros Hn. unfold DiffJiraSnapshots. rewrite bool_decide_eq_false_2 by done.
  unfold jiraKeyChangedEvents, jiraBody, jiraStatus, jiraAssignment, jiraPriority, jiraLabels, jiraComments, jiraAtomic.
  rewrite labelChanges_self. rewrite (bool_decide_eq_true_2 (ji_Key s = "" \/ _)) by auto. rewrite (bool_decide_eq_false_2 (ji_BodyHash s <> "" /\ _)) by naive_solver.
  assert (Ha : SameAssignee s s = true).
  { unfold SameAssignee. rewrite eqb_reflx. cbn. case_bool_decide; rewrite bool_decide_eq_true_2; reflexivity. }
  assert (Hp : SamePriority s s = true).
  { unfold SamePriority. case_bool_decide; rewrite bool_decide_eq_true_2; reflexivity. }
  assert (Hs : negb (SameStatus (StatusRef s) (StatusRef s)) && negb (bool_decide (ji_Status s = "")) = false).
  { unfold SameStatus. repeat case_bool_decide; cbn in *; naive_solver. }
  assert (Ho : (0 <? ji_OpenSubtaskCount s) && (ji_OpenSubtaskCount s =? 0) = false) by lia.
  rewrite Hs, Ha, Hp, Ho. reflexivity.
Qed.

Lemma linear_quiet s done groups : ~ (li_ID s = "" /\ li_Identifier s = "") -> DiffLinearSnapshots parse s s entityID done [] groups = [].
Proof.
  intros Hn. unfold DiffLinearSnapshots. rewrite bool_decide_eq_false_2 by done.
  unfold linearIdentifierChangedEvents, linearBody, linearStatus, linearAssignment, linearPriority, linearLabels, linearComments, linearParent,
    linearAtomic.
  assert (Hl : linearLabelChanges s s = ([], [])).
  { unfold linearLabelChanges. rewrite labelChanges_self, !filter_none; [destruct (negb _); reflexivity | |].
    - intros l Hl H. apply H, elem_of_list_to_set, list_elem_of_fmap. eauto.
    - intros l Hl H. unfold toSet in H. cbn in H. set_solver. }
  assert (Hs : negb (SameState (li_State s) (li_State s)) && negb (bool_decide (ls_Name (li_State s) = "")) = false).
  { unfold SameState. repeat case_bool_decide; cbn in *; naive_solver. }
  assert (Ho : (0 <? li_OpenChildCount s) && (li_OpenChildCount s =? 0) = false) by lia.
  rewrite Hl, Hs, Ho, Z.eqb_refl, (bool_decide_eq_true_2 (li_Identifier s = "" \/ _)) by auto.
  rewrite (bool_decide_eq_false_2 (li_BodyHash s <> "" /\ _)) by naive_solver.
  rewrite (bool_decide_eq_true_2 (li_AssigneeUserID s = li_AssigneeUserID s)), (bool_decide_eq_true_2 (li_ParentID s = li_ParentID s))
    by reflexivity.
  reflexivity.
Qed.

End Quiet.

(** ** Removed review requests *)

(** Whether a task opened for [r1] is the request of the removed reviewer [r2]: the
    same account, by the id the task was opened with or, opened without one, by
    the handle. *)
Definition sameRequest (r1 r2 : RequestedReviewer) : Prop :=
  rr_Team r1 = rr_Team r2 /\ (rr_ID r1 <> "" /\ rr_ID r1 = rr_ID r2 \/ rr_ID r1 = "" /\ rr_Handle r1 = rr_Handle r2).

Lemma same_reviewer_request r1 r2 :
  SameReviewer r1 r2 = true -> (rr_ID r1 <> "" -> rr_ID r2 <> "") -> sameRequest r1 r2.
Proof. unfold SameReviewer, sameRequest. intros H Hid. repeat case_bool_decide; cbn in *; destruct (decide (rr_ID r1 = "")); naive_solver. Qed.

(** The keys a removal's event names are those of the reviewer it removed. *)
Definition removedKeys (r : RequestedReviewer) : list string :=
  [reviewerDedupKey r; if rr_Team r then RouteClose.ReviewerDedupKeyTeam (rr_Handle r) else RouteClose.ReviewerDedupKeyUser (rr_Handle r)].

Lemma key_removed r1 r2 : reviewerDedupKey r1 ∈ removedKeys r2 <-> sameRequest r1 r2.
Proof.
  unfold removedKeys, sameRequest, reviewerDedupKey. rewrite !elem_of_cons, elem_of_nil.
  destruct r1 as [h1 i1 t1], r2 as [h2 i2 t2]; cbn. destruct t1, t2; repeat case_bool_decide; subst; cbn; split; intros Hk;
    repeat match goal with H : _ \/ _ |- _ => destruct H | H : _ /\ _ |- _ => destruct H end; simplify_eq/=; try done; tauto.
Qed.

Section Removal.
Variables (parse : string -> option Z) (entityID repositoryID : string) (self : GitHubAccount).

Definition removalOf (p : prPoll) (r : RequestedReviewer) : emitted :=
  emit parse (pl_snap p) entityID EventGitHubPRReviewRequestRemoved (reviewerDedupKey r) (requestFields (pl_snap p) repositoryID r).

Lemma removal_context p r org id w :
  rr_Handle r <> "" ->
  RouteClose.prepareRemovedReviewerKeys (toEvent org id (removalOf p r)) w = (Ok (Some (RouteClose.Keys (removedKeys r))), w).
Proof.
  intros Hh. unfold RouteClose.prepareRemovedReviewerKeys, RouteTeams.field, RouteDb.ret, removedKeys, removalOf. do 3 f_equal.
  cbn [toEvent RouteTeams.v_key RouteTeams.v_meta emit emitWithFallback em_key em_meta fmap option_fmap option_map default from_option].
  rewrite bool_decide_eq_false_2 by (unfold reviewerDedupKey; destruct (rr_Team r); case_bool_decide; done).
  unfold requestFields, requestedIdentityFields. do 2 f_equal. destruct (rr_Team r); cbn.
  - destruct (rr_Handle r); done.
  - destruct (rr_Handle r); done.
Qed.

Lemma removal_handle s r : r ∈ RequestedReviewers s -> rr_Handle r <> "".
Proof. unfold RequestedReviewers. intros H. apply list_elem_of_fmap in H as (h & -> & Hh). apply list_elem_of_filter in Hh as [Hh _]. done. Qed.

Lemma removal_keep p r org id r1 ty owner :
  RouteClose.keepReviewRequestRemoved (toEvent org id (removalOf p r)) (RouteClose.Keys (removedKeys r))
    (RouteClose.MkTarget ty (reviewerDedupKey r1) owner) = true <-> sameRequest r1 r.
Proof.
  unfold RouteClose.keepReviewRequestRemoved. cbn.
  rewrite (bool_decide_eq_false_2 (reviewerDedupKey r = "")) by (unfold reviewerDedupKey; destruct (rr_Team r); case_bool_decide; done).
  cbn. rewrite bool_decide_eq_true. apply key_removed.
Qed.

(** The keys a removal's event names are those a task of the request may have. *)
Lemma removed_key r k : k ∈ removedKeys r <-> exists r1, k = reviewerDedupKey r1 /\ sameRequest r1 r.
Proof.
  split; [| intros (r1 & -> & H); by apply key_removed]. unfold removedKeys. rewrite !elem_of_cons, elem_of_nil. intros [-> | [-> | []]].
  - exists r. split; [done |]. split; [done |]. destruct (decide (rr_ID r = "")); auto.
  - exists (MkRequested (rr_Handle r) "" (rr_Team r)). split; [| split; [done | by right]].
    unfold reviewerDedupKey. cbn. by destruct (rr_Team r).
Qed.

(** The task was opened for the removed request. *)
Definition opened (r : RequestedReviewer) (t : RouteDb.task) : Prop :=
  RouteDb.t_entity t = entityID /\ RouteDb.t_type t = EventGitHubPRReviewRequested /\
  exists r1, RouteDb.t_key t = reviewerDedupKey r1 /\ sameRequest r1 r.

(** The router given [e] closes the open tasks of [r]'s request and no other, and
    holds the close of one that is still worked on. *)
Definition closesOnly (org id : string) (e : emitted) (r : RequestedReviewer) : Prop :=
  forall d, RouteTables.routeOK d -> exists any d',
    RouteClose.runCloses (toEvent org id e) entityID (RouteDb.World d []) = (Ok (any, []), RouteDb.World d' []) /\
    forall i t, RouteDb.tasks d !! i = Some t ->
      (opened r t -> RouteDb.isActive t = true ->
         RouteDb.tasks d' !! i = Some (if RouteClosing.heldOpen d i then RouteDb.setHeld (Some id) t
                                       else RouteDb.setClosed ("auto_closed_by_event", EventGitHubPRReviewRequestRemoved) t)) /\
      (~ opened r t \/ RouteDb.isActive t = false -> RouteDb.tasks d' !! i = Some t).

Lemma removal_closes p r org id : rr_Handle r <> "" -> id <> "" -> closesOnly org id (removalOf p r) r.
Proof.
  intros Hh Hid d Hok. set (evt := toEvent org id (removalOf p r)).
  destruct (RouteClosing.runCloses_judges evt entityID
    (MkRel [EventGitHubPRReviewRequestRemoved] [EventGitHubPRReviewRequested] PrepareRemovedReviewerKeys KeepReviewRequestRemoved false "")
    EventGitHubPRReviewRequested (RouteClose.Keys (removedKeys r)) d Hok Hid) as (any & d' & Hrun & HT); [done | reflexivity | reflexivity | |].
  { intros w. apply removal_context. done. }
  exists any, d'. split; [exact Hrun |]. intros i t Hi. specialize (HT i t Hi).
  assert (Hk : RouteClosing.aimedAt entityID [EventGitHubPRReviewRequested] t &&
    RouteClose.keepReviewRequestRemoved evt (RouteClose.Keys (removedKeys r)) (RouteClose.taskTarget t) = true <->
    opened r t /\ RouteDb.isActive t = true).
  { unfold RouteClosing.aimedAt, RouteClose.keepReviewRequestRemoved, opened. cbn.
    rewrite (bool_decide_eq_false_2 (reviewerDedupKey r = "")) by (unfold reviewerDedupKey; destruct (rr_Team r); case_bool_decide; done).
    cbn. rewrite !andb_true_iff, !bool_decide_eq_true, list_elem_of_singleton, removed_key. tauto. }
  cbn [keep RouteClose.runKeep] in HT. destruct (_ && _) eqn:E in HT; rewrite E in Hk.
  - destruct (proj1 Hk eq_refl) as [Ho Ha]. split; [intros _ _ | intros [? | ?]; [done | congruence]].
    rewrite HT. unfold RouteClosing.judged. by rewrite Ha.
  - split; [intros Ho Ha; pose proof (proj2 Hk (conj Ho Ha)); done | done].
Qed.

Lemma typed_not ts l e t : typed ts l -> e ∈ l -> em_type e = t -> bool_decide (t ∈ ts) = false -> False.
Proof. intros Ht He <- Hf. apply bool_decide_eq_false in Hf. apply Hf. exact (proj1 (Forall_forall _ _) Ht e He). Qed.

Lemma removal_in_requests prev p e :
  pr_Number prev <> 0 -> e ∈ prDiff parse entityID repositoryID self prev p -> em_type e = EventGitHubPRReviewRequestRemoved ->
  e ∈ requestEvents parse prev (pl_snap p) entityID repositoryID self (pl_resolver p).
Proof.
  intros Hn He Ht. unfold prDiff, DiffPRSnapshots in He. rewrite (proj2 (Z.eqb_neq _ _) Hn) in He. unfold terminalEvents in He.
  rewrite !elem_of_app in He. repeat match type of He with _ \/ _ => destruct He as [He | He] end;
    try (exfalso; eapply typed_not; [| exact He | exact Ht |];
         [first [apply body_types | apply Forall_when, merged_types | apply Forall_when, closed_types | apply ready_types | apply ci_types
                | apply commit_types | apply review_types | apply comment_types | apply mention_types | apply label_types]
         | reflexivity]).
  exact He.
Qed.

(** The removals of a diff are those of the known reviewers it no longer finds. *)
Lemma removals prev p e :
  pr_Number prev <> 0 ->
  e ∈ prDiff parse entityID repositoryID self prev p /\ em_type e = EventGitHubPRReviewRequestRemoved <->
  IsAccount self (pr_Author (pl_snap p)) (pr_AuthorID (pl_snap p)) = false /\
  exists r, r ∈ RequestedReviewers prev /\ HasRequestedReviewer (pl_snap p) r = false /\ known (pl_resolver p) r = true /\ e = removalOf p r.
Proof.
  intros Hn. split.
  - intros [He Ht]. pose proof (removal_in_requests _ _ _ Hn He Ht) as Hr. unfold requestEvents in Hr.
    destruct (IsAccount _ _ _); cbn [negb when] in Hr; [by apply not_elem_of_nil in Hr |]. split; [done |].
    apply elem_of_app in Hr as [Hr | Hr]; apply list_elem_of_fmap in Hr as (r & -> & Hr); [rewrite emitAt_type in Ht; discriminate |].
    apply list_elem_of_filter in Hr as [[Ha Hk] Hr]. eauto 6.
  - intros [Hs (r & Hr & Ha & Hk & ->)]. split; [| done]. unfold prDiff, DiffPRSnapshots. rewrite (proj2 (Z.eqb_neq _ _) Hn).
    do 5 (apply elem_of_app; right). apply elem_of_app; left. unfold requestEvents. rewrite Hs. cbn [negb when].
    apply elem_of_app; right. apply list_elem_of_fmap. exists r. split; [done |]. apply list_elem_of_filter. done.
Qed.

End Removal.

(** ** The claims *)

(** What the gate on containers comes to over a whole sequence of polls. *)
Definition waits (S P : Type) `{IssueSource S P} : Prop :=
  (forall assigned s p ps, Forall (fun '(t, _) => 0 < is_open t) ((s, p) :: ps) -> Forall (fun e => ~ announces S P e) (issueLife assigned s p ps)) /\
  (forall prev ps, Forall (fun '(t, _) => 0 < is_open t) ps -> Forall (fun e => ~ announces S P e) (issueHistory prev ps)) /\
  (forall prev ps s p, is_new prev = false -> 0 < is_open prev -> working (ps ++ [(s, p)]) -> is_open s = 0 ->
     Exists collapse (issueHistory prev (ps ++ [(s, p)]))) /\
  (forall s p, is_open s = 0 -> is_done s p = false -> Exists (announces S P) (is_seed true s p)) /\
  (forall s p, is_seed false s p = []).

Lemma gated_waits (S P : Type) `{GatedSource S P} : waits S P.
Proof.
  split_and!.
  - intros assigned s p ps Hs. inversion Hs; subst. apply Forall_app; split; [by apply gate_seed_container | by apply containers_announce_nothing].
  - intros prev ps. apply containers_announce_nothing.
  - intros prev ps s p. apply collapse_announces.
  - apply gate_discovery.
  - apply gate_pickup.
Qed.

(** C18: Replaying the events of any sequence of polls, from what was stored,
    without checks, when a pull request was discovered, gives the last poll's
    labels, head commit and merge state, and for every check run complete in
    it whether it is failing, through reruns, reads without checks and checks
    that come and go: the diffs miss no change. And they invent none: an event
    of these kinds is emitted by a poll only when its snapshot differs from
    the one before in exactly what the event reports (a label gained or lost,
    another head, a merge, a check that is newly failing or newly passing),
    and at most once per poll for each label, head, merge and check. It asks
    that every read has a number and a head and lists a check once, and that a
    merge is not undone. *)
Theorem polls_replay_the_pull_request parse entityID repositoryID self s0 ps :
  fullRead s0 -> pr_CheckRuns s0 = None -> Forall (fun p => fullRead (pl_snap p)) ps -> mergesStick s0 ps ->
  shows (replay (seed s0) (history parse entityID repositoryID self s0 ps)) (latest s0 ps) /\
  (forall ps1 p ps2, ps = ps1 ++ p :: ps2 ->
     let emitted := prDiff parse entityID repositoryID self (latest s0 ps1) p in
     Forall (news (latest s0 ps1) (pl_snap p)) emitted /\ NoDup (map subject (moving emitted))).
Proof.
  intros Hs Hc Hps Hm. split.
  - apply replay_history; [done | done | done |]. split_and!; try done.
    unfold checksOf. rewrite Hc. cbn. intros cr Hcr. by apply not_elem_of_nil in Hcr.
  - intros ps1 p ps2 ->. apply Forall_app in Hps as [H1 H2]. apply Forall_cons in H2 as [(_ & _ & Hp) _].
    assert (H : fullRead (latest s0 ps1)) by (apply latest_full; done). destruct H as (Hn & _ & Hl). by apply diff_news.
Qed.

(** C26: An issue with open children waits for them.  While every read of a Jira
    or Linear issue finds open children, from its discovery on or from whatever
    snapshot is stored, no event announces it as work, however it is discovered and
    reassigned; and once a poll finds none left of the children the stored snapshot
    had, an issue no poll found finished has been announced as atomic by the close
    of the last child.  An unfinished issue without children is announced by its
    discovery when it came through the assigned-to-the-user query; one that was
    picked up is stored quietly. *)
Theorem containers_wait_for_their_children parse entityID :
  waits (H := jiraSource parse entityID) JiraSnapshot jiraInputs /\ waits (H := linearSource parse entityID) LinearSnapshot linearInputs.
Proof.
  split; [exact (gated_waits _ _ (H0 := jiraGated parse entityID)) | exact (gated_waits _ _ (H0 := linearGated parse entityID))].
Qed.

(** Every event a diff emits is of a registered type of its source, names the
    polled entity, and decodes to what routing reads: the pull request's author and
    repository, the issue's project and, for a changed key, the project it left, or
    its Linear team and the one it left.  A diff emits at most one event that closes
    its entity. *)
Theorem diffed_events_are_routable parse entityID repositoryID self org id :
  (forall prev p,
     let l := prDiff parse entityID repositoryID self prev p in
     Forall (fun e => em_entity e = entityID /\ em_type e ∈ map fst githubRegistry /\
       RouteTeams.field RouteTeams.m_author (toEvent org id e) = pr_Author (pl_snap p) /\
       RouteTeams.field RouteTeams.m_authorID (toEvent org id e) = pr_AuthorID (pl_snap p) /\
       getS "RepositoryID" (em_meta e) = repositoryID) l /\ (length (terminators l) <= 1)%nat) /\
  (forall prev curr p,
     let l := jiraDiff parse entityID prev curr p in
     Forall (placedJira entityID org id p) l /\ (length (terminators l) <= 1)%nat) /\
  (forall prev curr p,
     let l := linearDiff parse entityID prev curr p in
     Forall (placedLinear entityID org id prev curr) l /\ (length (terminators l) <= 1)%nat).
Proof.
  split_and!; intros; subst l; (split; [| try apply jira_terminators; try apply linear_terminators]).
  - apply Forall_forall. intros e He. pose proof (proj1 (Forall_forall _ _) (diff_stamped _ _ _ _ _ _) e He) as (H1 & rest & H2).
    pose proof (proj1 (Forall_forall _ _) (diff_types _ _ _ _ _ _) e He) as H3.
    unfold RouteTeams.field. cbn. rewrite H2. done.
  - destruct (pr_terminators parse entityID repositoryID self prev p) as [-> | [-> | ->]]; cbn; lia.
  - apply jira_placed.
  - apply linear_placed.
Qed.

(** A poll that finds an entity as it was stored, with nothing newly written,
    emits nothing, on each source: a poll repeated after its snapshot was saved has
    no effect.  A pull request's reads must list a check once and one review per
    account. *)
Theorem unchanged_entities_are_quiet parse entityID :
  (forall s repositoryID self rs, pr_Number s <> 0 -> NoDup (map cr_ID (checksOf s)) -> oneReviewEach s ->
     DiffPRSnapshots parse s s entityID repositoryID self rs [] [] = []) /\
  (forall s current previous done, ~ (ji_ID s = "" /\ ji_Key s = "") -> DiffJiraSnapshots parse s s entityID current previous done [] = []) /\
  (forall s done groups, ~ (li_ID s = "" /\ li_Identifier s = "") -> DiffLinearSnapshots parse s s entityID done [] groups = []).
Proof. split_and!; intros; [apply pr_quiet | apply jira_quiet | apply linear_quiet]; done. Qed.

(** C33: On a pull request that is not self-authored (a self-authored one
    emits no review requests at all), a diff against a stored snapshot removes
    exactly the known reviewers it no longer finds; and the router's typed
    closes, run on the removal's event under an id, with every store call
    answered and nobody else writing, close exactly the open tasks of that
    reviewer's request, those opened under its account id and those opened
    under its handle before an id was read, except that one still worked on is
    held on the event; every other task is left as it is. *)
Theorem removed_requests_close_their_tasks parse entityID repositoryID self prev p org id :
  pr_Number prev <> 0 -> IsAccount self (pr_Author (pl_snap p)) (pr_AuthorID (pl_snap p)) = false -> id <> "" ->
  let removed r := r ∈ RequestedReviewers prev /\ HasRequestedReviewer (pl_snap p) r = false /\ known (pl_resolver p) r = true in
  let ofDiff e := e ∈ prDiff parse entityID repositoryID self prev p /\ em_type e = EventGitHubPRReviewRequestRemoved in
  (forall r, removed r -> exists e, ofDiff e /\ closesOnly entityID org id e r) /\
  (forall e, ofDiff e -> exists r, removed r /\ closesOnly entityID org id e r).
Proof.
  intros Hn Hs Hid removed ofDiff.
  assert (Hc : forall r, removed r -> closesOnly entityID org id (removalOf parse entityID repositoryID p r) r).
  { intros r (Hr & _). apply removal_closes; [exact (removal_handle _ _ Hr) | done]. }
  split.
  - intros r Hr. exists (removalOf parse entityID repositoryID p r). split; [| by apply Hc].
    apply (removals parse entityID repositoryID self); [done |]. split; [done |]. destruct Hr as (? & ? & ?). eauto 6.
  - intros e He. apply (removals parse entityID repositoryID self) in He as [_ (r & Hr & Ha & Hk & ->)]; [| done].
    exists r. split; [done | apply Hc; done].
Qed.

(** A pull request discovered open emits nothing, whatever its state. *)
Theorem open_discovery_is_silent parse entityID repositoryID self prev p :
  pr_Number prev = 0 -> pr_Merged (pl_snap p) = false -> pr_State (pl_snap p) <> "CLOSED" ->
  prDiff parse entityID repositoryID self prev p = [].
Proof. intros Hn Hm Hs. unfold prDiff, DiffPRSnapshots. rewrite Hn, Hm, bool_decide_eq_false_2 by done. done. Qed.

(** ** A concrete pull request and a concrete issue *)

Definition pull (labels : list string) (head : string) (runs : option (list CheckRun)) (requested : list string) (merged : bool) : PRSnapshot :=
  MkPR 7 "t" "ann" "1" "o/r" "OPEN" false merged head "" runs requested {["bob" := "22"]} [MkReview 5 "cy" "33" "APPROVED" "" 0] None
    labels "" "" "" "" "" "" "" [] "h" (Some []).
Definition run (id : Z) (conclusion : string) : CheckRun := MkCheckRun id "ci" conclusion "" "" 0.

Definition discovered : PRSnapshot := pull ["bug"] "a" None [] false.
Definition asked : prPoll := MkPoll (pull ["ci"] "b" (Some [run 1 "failure"; run 2 ""]) ["bob"] false) (Some (MkResolver (fun _ _ => true) (fun _ _ _ => true))) [] [].
Definition settled : prPoll := MkPoll (pull ["ci"; "bug"] "b" (Some [run 1 "success"; run 2 "cancelled"]) [] true) (pl_resolver asked) [] [].

(** The types the two polls emit. *)
Example two_polls :
  map em_type (history (fun _ => None) "e" "repo" (MkAccount "" "") discovered [asked; settled]) =
    [EventGitHubPRCICheckFailed; EventGitHubPRNewCommits; EventGitHubPRReviewRequested;
     EventGitHubPRLabelAdded; EventGitHubPRLabelRemoved;
     EventGitHubPRMerged; EventGitHubPRCICheckPassed; EventGitHubPRCICheckFailed; EventGitHubPRReviewRequestRemoved; EventGitHubPRLabelAdded].
Proof. vm_compute. reflexivity. Qed.

Lemma polls_replay_the_pull_request_witness :
  shows (replay (seed discovered) (history (fun _ => None) "e" "repo" (MkAccount "" "") discovered [asked; settled])) (pl_snap settled) /\
  Forall (news (pl_snap asked) (pl_snap settled)) (prDiff (fun _ => None) "e" "repo" (MkAccount "" "") (pl_snap asked) settled).
Proof.
  destruct (polls_replay_the_pull_request (fun _ => None) "e" "repo" (MkAccount "" "") discovered [asked; settled]) as [H1 H2].
  - split_and!; [done | done | constructor].
  - reflexivity.
  - repeat constructor; try done; cbn; set_solver.
  - cbn. split_and!; done.
  - split; [exact H1 | exact (proj1 (H2 [asked] settled [] eq_refl))].
Defined.

Definition issue (open : Z) (assignee : string) : JiraSnapshot :=
  MkJira "" "1" "K-1" "K" "s" "To do" "s1" "new" "" assignee "" "" "" "" [] "" "" "" open.
Definition inputs : jiraInputs := MkJiraInputs "proj" "" [MkStatus "s9" "Done"] [].

Lemma containers_wait_for_their_children_witness :
  Exists (fun e => em_type e = EventJiraIssueBecameAtomic)
    (issueHistory (H := jiraSource (fun _ => None) "e") (issue 2 "ann") [(issue 1 "bob", inputs); (issue 0 "bob", inputs)]).
Proof.
  eapply Exists_impl; [apply (proj1 (proj2 (proj2 (proj1 (containers_wait_for_their_children (fun _ => None) "e"))))
    (issue 2 "ann") [(issue 1 "bob", inputs)] (issue 0 "bob") inputs) | by intros e [_ ?]].
  - reflexivity.
  - cbn. lia.
  - repeat constructor; reflexivity || (cbn; lia).
  - reflexivity.
Defined.

(** The parent is announced once, when its last subtask closes. *)
Example parent_announced_once :
  map em_type (issueLife (H := jiraSource (fun _ => None) "e") true (issue 2 "ann") inputs
    [(issue 1 "bob", inputs); (issue 0 "bob", inputs); (issue 0 "bob", inputs)]) = [EventJiraIssueBecameAtomic].
Proof. vm_compute. reflexivity. Qed.

Lemma unchanged_entities_are_quiet_witness :
  DiffPRSnapshots (fun _ => None) (pl_snap asked) (pl_snap asked) "e" "repo" (MkAccount "" "") None [] [] = [] /\
  DiffJiraSnapshots (fun _ => None) (issue 0 "bob") (issue 0 "bob") "e" "proj" "" [] [] = [].
Proof.
  split; [apply (proj1 (unchanged_entities_are_quiet (fun _ => None) "e")) | apply (proj1 (proj2 (unchanged_entities_are_quiet (fun _ => None) "e")))].
  - done.
  - repeat constructor; cbn; set_solver.
  - split; repeat constructor; cbn; set_solver.
  - intros [H _]. discriminate.
Defined.

(** A table with a task opened for the reviewer's handle, before its id was read,
    and one opened for another: the removal that names the id closes the first. *)
Definition bobTask : RouteDb.task :=
  RouteDb.MkTask 0 "e" EventGitHubPRReviewRequested "user:bob" "v0" RouteDb.Queued 0 0 "" "" "" None None None.
Definition dotTask : RouteDb.task :=
  RouteDb.MkTask 1 "e" EventGitHubPRReviewRequested "user:dot" "v0" RouteDb.Queued 0 0 "" "" "" None None None.
Definition emptyConfig : RouteDb.config :=
  RouteDb.MkConfig (fun _ => []) (fun _ _ => false) (fun _ _ => false) (fun _ _ => false) (fun _ _ => []) (fun _ => []) (fun _ => []) (fun _ => [])
    (fun _ => []) (fun _ _ _ _ => []) false None (fun _ _ => 0) (fun _ => "") (fun _ => false) (fun _ => true).
Definition twoTasks : RouteDb.rdb := RouteDb.MkDb ∅ [bobTask; dotTask] ∅ [] [] [] [] [] ∅ emptyConfig.

Lemma two_ok : RouteTables.routeOK twoTasks.
Proof.
  refine (bool_decide_unpack _ (_ : Is_true (@bool_decide _ (RouteTables.routeOK_dec twoTasks)))). vm_compute. exact I.
Qed.

Lemma removed_requests_close_their_tasks_witness :
  exists e, e ∈ prDiff (fun _ => None) "e" "repo" (MkAccount "" "") (pl_snap asked) settled /\
  exists any d', RouteClose.runCloses (toEvent "org" "v" e) "e" (RouteDb.World twoTasks []) = (Ok (any, []), RouteDb.World d' []) /\
    RouteDb.tasks d' !! 0%nat = Some (RouteDb.setClosed ("auto_closed_by_event", EventGitHubPRReviewRequestRemoved) bobTask) /\
    RouteDb.tasks d' !! 1%nat = Some dotTask.
Proof.
  destruct (removed_requests_close_their_tasks (fun _ => None) "e" "repo" (MkAccount "" "") (pl_snap asked) settled "org" "v") as [F _].
  - done.
  - reflexivity.
  - done.
  - destruct (F (MkRequested "bob" "22" false)) as (e & [He _] & Hc).
    + split_and!; [apply list_elem_of_here | reflexivity | reflexivity].
    + exists e. split; [exact He |]. destruct (Hc twoTasks) as (any & d' & Hrun & HT); [exact two_ok |].
      exists any, d'. split; [exact Hrun |]. split.
      * apply (proj1 (HT 0%nat bobTask eq_refl)); [| done]. split_and!; [done | done |].
        exists (MkRequested "bob" "" false). split; [done |]. split; [done | by right].
      * apply (proj2 (HT 1%nat dotTask eq_refl)). left. intros (_ & _ & r1 & Hk & Ht & [[H1 H2] | [H1 H2]]); destruct r1 as [h i tm]; cbn in *; subst;
          unfold reviewerDedupKey in Hk; cbn in Hk; simplify_eq.
Defined.

End TrackerSpec.

(** * What a poll reads

    Comments reach the diff once each, however the reads of the polls fail, page or
    race with the people who comment. *)

Module TrackerReadSpec.

Import TrackerRead.

Section Order.
Variable parse : string -> option Z.

(** ** The order of markers *)

Definition gt (x y : marker) : Prop := After parse y (mk_At x) (mk_ID x) = true.

(** Unparsed times first, then the moment, then the id. *)
Definition parsed (m : marker) : Z := match parse (mk_At m) with Some _ => 1 | None => 0 end.
Definition moment (m : marker) : Z := default 0 (parse (mk_At m)).

Lemma gt_iff x y :
  gt x y <-> parsed y < parsed x \/ parsed y = parsed x /\ (moment y < moment x \/ moment y = moment x /\ mk_ID y < mk_ID x).
Proof.
  unfold gt, After, markedAfter, parsed, moment. destruct (parse (mk_At x)) as [t |], (parse (mk_At y)) as [u |]; cbn.
  - destruct (Z.eqb_spec t u); rewrite Z.ltb_lt; lia.
  - split; [lia | done].
  - split; [done | lia].
  - rewrite Z.ltb_lt. lia.
Qed.

#[local] Instance gt_dec x y : Decision (gt x y).
Proof. unfold gt. apply _. Defined.

Ltac order := rewrite ?gt_iff in *; lia.

Lemma not_gt x y : ~ gt x y <-> After parse y (mk_At x) (mk_ID x) = false.
Proof. unfold gt. destruct (After _ _ _ _); split; done. Qed.

Lemma Newer_le_l m o : ~ gt m (Newer parse m o).
Proof. unfold Newer. destruct (After parse m _ _) eqn:E; [change (gt o m) in E |]; order. Qed.
Lemma Newer_le_r m o : ~ gt o (Newer parse m o).
Proof. unfold Newer. destruct (After parse m _ _) eqn:E; [order | by apply not_gt]. Qed.
Lemma Newer_one_of m o : Newer parse m o = m \/ Newer parse m o = o.
Proof. unfold Newer. destruct (After _ _ _ _); auto. Qed.

(** The newest of some markers and of those of a list. *)
Lemma newest_spec {A} (f : A -> marker) l : forall m,
  let n := foldl (fun n c => Newer parse n (f c)) m l in
  ~ gt m n /\ (forall c, c ∈ l -> ~ gt (f c) n) /\ (n = m \/ exists c, c ∈ l /\ n = f c).
Proof.
  induction l as [| c l IH]; intros m; cbn.
  - split_and!; [order | intros c Hc; by apply not_elem_of_nil in Hc | auto].
  - destruct (IH (Newer parse m (f c))) as (H1 & H2 & H3). pose proof (Newer_le_l m (f c)). pose proof (Newer_le_r m (f c)).
    split_and!.
    + order.
    + intros d Hd. apply elem_of_cons in Hd as [-> | Hd]; [order | by apply H2].
    + destruct H3 as [-> | (d & Hd & ->)]; [| right; exists d; split; [by constructor | done]].
      destruct (Newer_one_of m (f c)) as [-> | ->]; [by left |]. right. exists c. split; [constructor | done].
Qed.

(** ** Sorted lists *)

Definition sorted (l : list PRComment) : Prop := StronglySorted (fun a b => gt (commentMarker b) (commentMarker a)) l.

Lemma sortBy_sorted l : sorted l -> sortBy (commentAfter parse) l = l.
Proof.
  induction 1 as [| c l Hl IH Hc]; cbn; [done |]. rewrite IH. destruct l as [| d l]; cbn; [done |].
  inversion Hc; subst. unfold commentAfter. change (After parse (commentMarker d) (pc_CreatedAt c) (pc_ID c)) with
    (After parse (commentMarker d) (mk_At (commentMarker c)) (mk_ID (commentMarker c))).
  rewrite (proj1 (not_gt _ _)); [done | order].
Qed.

(** ** Pages *)

(** A reader that serves a list from its end, a page at a time, and, with [faulty], may
    fail at any page: the pages of a GraphQL connection read with [before]. *)
Inductive serves {A} (faulty : bool) (client : reader A) (n : Z) : string -> list A -> Prop :=
| serves_rest b items before : client b = Ok (MkPage items n false before) -> serves faulty client n b items
| serves_page b rest items before :
    client b = Ok (MkPage items n true before) -> before <> "" -> items <> [] -> serves faulty client n before rest ->
    serves faulty client n b (rest ++ items)
| serves_error b l e : faulty = true -> client b = Err e -> serves faulty client n b l.

(** Reading comments back from the end: an error, or a tail of the list that is all of
    it or reaches what was there before. *)
Lemma readComments_tail faulty client prev n b l : serves faulty client n b l -> forall fuel read total,
  (length l < fuel)%nat -> default n total = n ->
  match readComments_loop parse fuel client prev b total read with
  | Err _ => faulty = true
  | Ok (r, t) => t = n /\ exists l1 l2, l = l1 ++ l2 /\ r = l2 ++ read /\ (l1 = [] \/ githubReadReachesPrev parse prev n r = true)
  end.
Proof.
  induction 1 as [b items before E | b rest items before E Hb Hi Hr IH | b l e Hy E]; intros [| fuel] read total Hf Ht; try lia;
    cbn; rewrite E; cbn; rewrite ?Ht.
  - split; [done |]. exists [], items. auto.
  - rewrite (bool_decide_eq_false_2 _ Hb). cbn. destruct (githubReadReachesPrev parse prev n (items ++ read)) eqn:Er.
    + split; [done |]. exists rest, items. auto.
    + specialize (IH fuel (items ++ read) (Some n)). rewrite length_app in Hf. destruct items as [| i items]; [done |]. cbn in Hf.
      specialize (IH ltac:(lia) eq_refl).
      destruct (readComments_loop _ _ _ _ _ _ _) as [[r t] |]; [| done]. destruct IH as (-> & l1 & l2 & -> & -> & IH).
      split; [done |]. exists l1, (l2 ++ i :: items). rewrite <- !app_assoc. auto.
  - done.
Qed.

Lemma sorted_app l1 l2 : sorted (l1 ++ l2) -> sorted l2 /\ forall a b, a ∈ l1 -> b ∈ l2 -> gt (commentMarker b) (commentMarker a).
Proof.
  induction l1 as [| c l1 IH]; cbn; intros H; [split; [done | intros a b Ha; by apply not_elem_of_nil in Ha] |].
  inversion H as [| ? ? H1 H2]; subst. destruct (IH H1) as [I1 I2]. split; [done |]. intros a b Ha Hb.
  apply elem_of_cons in Ha as [-> | Ha]; [| by apply I2]. rewrite Forall_forall in H2. apply H2, elem_of_app. by right.
Qed.

Lemma readGitHubComments_ok faulty fuel client m k l r n :
  serves faulty client n "" l -> (length l < fuel)%nat -> sorted l ->
  readGitHubComments parse fuel client (MkRemembered (Some m) k) = Ok (r, n) ->
  exists l1, l = l1 ++ r /\ forall c, c ∈ l1 -> ~ gt (commentMarker c) m.
Proof.
  intros Hs Hf Hl. unfold readGitHubComments.
  pose proof (readComments_tail _ _ (MkRemembered (Some m) k) _ _ _ Hs fuel [] None Hf eq_refl) as H.
  destruct (readComments_loop _ _ _ _ _ _ _) as [[r' t] |]; cbn; [| done]. destruct H as (-> & l1 & l2 & -> & -> & H).
  rewrite app_nil_r in *. destruct (sorted_app _ _ Hl) as [Hl2 Hlt]. rewrite sortBy_sorted by done. intros [= <-].
  exists l1. split; [done |]. intros c Hc. destruct H as [-> | H]; [by apply not_elem_of_nil in Hc |].
  destruct l2 as [| d l2]; [done |]. cbn in H. apply negb_true_iff, (not_gt (commentMarker d) m) in H. pose proof (Hlt c d Hc ltac:(constructor)).
  order.
Qed.

(** ** One poll *)

(** What a read of the comments alive gives the poll: nothing and what was remembered,
    or exactly the comments newer than the marker, and a marker none of them is newer
    than. *)
Lemma markTF_ids posted key l l' : markTFComments posted key l = Some l' -> map nc_ID l' = map nc_ID l.
Proof.
  unfold markTFComments. case_bool_decide; [congruence |]. destruct (posted _); [| done]. intros [= <-]. rewrite map_map.
  apply map_ext. intros c. case_bool_decide; done.
Qed.

Lemma markTF_fails posted key l : markTFComments posted key l = None -> exists ks, posted ks = None.
Proof. unfold markTFComments. case_bool_decide; [done |]. destruct (posted _) eqn:E; [done | eauto]. Qed.

Definition since (m : marker) (l : list PRComment) : list PRComment := filter (fun c => gt (commentMarker c) m) l.

Lemma since_drops m l1 l2 : (forall c, c ∈ l1 -> ~ gt (commentMarker c) m) -> since m (l1 ++ l2) = since m l2.
Proof.
  intros H. unfold since. rewrite filter_app. replace (filter _ l1) with (@nil PRComment); [done |]. symmetry.
  apply TrackerSpec.filter_none. done.
Qed.

Lemma fresh_ids m k n r : map nc_ID (githubCommentsSince parse (MkRemembered (Some m) k) n r) = map FormatInt (map pc_ID (since m r)).
Proof. unfold githubCommentsSince. cbn. rewrite !map_map. done. Qed.

(** What a poll reports and remembers. *)
Definition reportedBy (o : res readErr (list NewComment) * remembered) : list NewComment := match o.1 with Ok l => l | Err _ => [] end.

Lemma new_comments_cases faulty fuel client posted m k cm kc l n :
  serves faulty client n "" l -> (length l < fuel)%nat -> sorted l ->
  let o := githubNewComments parse fuel client posted (MkRemembered (Some m) k) (MkRemembered (Some cm) kc) in
  ~ gt cm m /\ o = (Ok [], MkRemembered (Some cm) kc) \/
  gt cm m /\ reportedBy o = [] /\ o.2 = MkRemembered (Some m) k /\ (faulty = true \/ exists ks, posted ks = None) \/
  gt cm m /\ map nc_ID (reportedBy o) = map FormatInt (map pc_ID (since m l)) /\
    exists m', rm_marker o.2 = Some m' /\ ~ gt cm m' /\ (forall c, c ∈ l -> ~ gt (commentMarker c) m') /\
      (m' = cm \/ exists c, c ∈ l /\ m' = commentMarker c).
Proof.
  intros Hs Hf Hl o. subst o. unfold githubNewComments. cbn [rm_marker].
  destruct (After parse m (mk_At cm) (mk_ID cm)) eqn:E; cbn [negb]; [change (gt cm m) in E | left; split; [by apply not_gt | done]].
  right. assert (Hn : match readGitHubComments parse fuel client (MkRemembered (Some m) k) with Ok (_, t) => t = n | Err _ => faulty = true end).
  { unfold readGitHubComments. pose proof (readComments_tail _ _ (MkRemembered (Some m) k) _ _ _ Hs fuel [] None Hf eq_refl) as H.
    destruct (readComments_loop _ _ _ _ _ _ _) as [[r' t'] |]; cbn; [by destruct H as [-> _] | done]. }
  destruct (readGitHubComments parse fuel client _) as [[r t] | []] eqn:Er; [| left; split_and!; auto ..]. subst t.
  destruct (markTFComments _ _ _) as [fresh |] eqn:Em; [| left; split_and!; try done; right; by eapply markTF_fails]. right. split; [done |]. cbn.
  destruct (readGitHubComments_ok _ _ _ _ _ _ _ _ Hs Hf Hl Er) as (l1 & -> & H1). split.
  - rewrite (markTF_ids _ _ _ _ Em), fresh_ids, since_drops by done. done.
  - destruct (newest_spec commentMarker r cm) as (N1 & N2 & N3). eexists. split; [done |]. split_and!.
    + exact N1.
    + intros c Hc. apply elem_of_app in Hc as [Hc | Hc]; [| by apply N2]. specialize (H1 c Hc). order.
    + destruct N3 as [N3 | (c & Hc & N3)]; [by left |]. right. exists c. split; [apply elem_of_app; by right | done].
Qed.

(** ** The pull request's comments over time *)

(** Every comment ever made, oldest first, and those not deleted. *)
Record server := MkServer { sv_created : list PRComment; sv_alive : list PRComment }.

Definition zeroMarker : marker := MkMarker 0 "".

(** GitHub's ids and times: a comment made later is newer, and its id is its own. *)
Definition wfServer (s : server) : Prop :=
  sorted (sv_created s) /\ NoDup (map pc_ID (sv_created s)) /\ sv_alive s `sublist_of` sv_created s /\
  forall c, c ∈ sv_created s -> gt (commentMarker c) zeroMarker.

(** Time passes: comments are made and deleted. *)
Definition later (s s' : server) : Prop :=
  wfServer s' /\ exists made, sv_created s' = sv_created s ++ made /\ sv_alive s' `sublist_of` sv_alive s ++ made.

Definition known (l : list PRComment) (m : marker) : Prop := m = zeroMarker \/ exists c, c ∈ l /\ m = commentMarker c.

Lemma later_created s s' c : later s s' -> c ∈ sv_created s -> c ∈ sv_created s'.
Proof. intros (_ & made & -> & _) Hc. apply elem_of_app. by left. Qed.
Lemma alive_created s c : wfServer s -> c ∈ sv_alive s -> c ∈ sv_created s.
Proof. intros (_ & _ & Hs & _) Hc. eapply elem_of_submseteq; [exact Hc | by apply sublist_submseteq]. Qed.
Lemma known_later s s' m : later s s' -> known (sv_created s) m -> known (sv_created s') m.
Proof. intros Hl [-> | (c & Hc & ->)]; [by left |]. right. exists c. split; [by eapply later_created | done]. Qed.

(** A comment alive later was alive, or is newer than everything known before. *)
Lemma later_alive s s' a :
  later s s' -> a ∈ sv_alive s' ->
  a ∈ sv_alive s \/ (pc_ID a ∉ map pc_ID (sv_created s) /\ forall m, known (sv_created s) m -> gt (commentMarker a) m).
Proof.
  intros ((Hs & Hn & _ & Hz) & made & E & Ha) Hin. assert (Hin' : a ∈ sv_alive s ++ made) by (eapply elem_of_submseteq; [exact Hin | by apply sublist_submseteq]).
  apply elem_of_app in Hin' as [H | H]; [by left |]. right. rewrite E in Hs, Hn, Hz. split.
  - rewrite map_app in Hn. apply NoDup_app in Hn as (_ & Hd & _). intros Hin'. apply (Hd _ Hin'), list_elem_of_fmap. eauto.
  - intros m [-> | (c & Hc & ->)]; [apply Hz, elem_of_app; by right |]. exact (proj2 (sorted_app _ _ Hs) c a Hc H).
Qed.

(** ** The invariant of a run of polls *)

(** [m0] is the marker the run began with, [m] the one remembered now, and [ids] the
    comments reported so far. *)
Record reportedOnce (s : server) (m0 m : marker) (ids : list Z) : Prop := {
  ro_wf : wfServer s;
  ro_start : known (sv_created s) m0;
  ro_known : known (sv_created s) m;
  ro_nodup : NoDup ids;
  ro_made : forall i, i ∈ ids -> i ∈ map pc_ID (sv_created s);
  ro_exact : forall a, a ∈ sv_alive s -> (pc_ID a ∈ ids <-> gt (commentMarker a) m0 /\ ~ gt (commentMarker a) m);
  ro_above : forall a, a ∈ sv_alive s -> gt (commentMarker a) m -> gt (commentMarker a) m0
}.

Lemma ro_later s s' m0 m ids : later s s' -> reportedOnce s m0 m ids -> reportedOnce s' m0 m ids.
Proof.
  intros Hl [H1 H2 H3 H4 H5 H6 H7]. pose proof Hl as [Hw _]. split; try done.
  - by eapply known_later.
  - by eapply known_later.
  - intros i Hi. specialize (H5 i Hi). apply list_elem_of_fmap in H5 as (c & -> & Hc). apply list_elem_of_fmap. eauto using later_created.
  - intros a Ha. destruct (later_alive _ _ _ Hl Ha) as [Ho | [Hn Hg]]; [by apply H6 |]. split; [intros Hi; exfalso; by apply Hn, H5 |].
    intros [_ Hm]. destruct Hm. by apply Hg.
  - intros a Ha Hm. destruct (later_alive _ _ _ Hl Ha) as [Ho | [Hn Hg]]; [by apply H7 | by apply Hg].
Qed.

(** The marker moves to that of the newest comment alive, though older. *)
Lemma ro_back s m0 m cm ids :
  reportedOnce s m0 m ids -> known (sv_created s) cm -> (forall a, a ∈ sv_alive s -> ~ gt (commentMarker a) cm) -> ~ gt cm m ->
  reportedOnce s m0 cm ids.
Proof.
  intros [H1 H2 H3 H4 H5 H6 H7] Hk Hc Hm. split; try done.
  - intros a Ha. rewrite (H6 a Ha). specialize (Hc a Ha). split; intros [G1 G2]; (split; [done |]); [done | order].
  - intros a Ha Hg. by destruct (Hc a Ha).
Qed.

(** The comments newer than the marker are reported and the marker moves past all. *)
Lemma ro_read s m0 m m' ids :
  reportedOnce s m0 m ids -> known (sv_created s) m' -> (forall a, a ∈ sv_alive s -> ~ gt (commentMarker a) m') ->
  reportedOnce s m0 m' (ids ++ map pc_ID (since m (sv_alive s))).
Proof.
  intros [H1 H2 H3 H4 H5 H6 H7] Hk Hc.
  assert (Hid : forall a b, a ∈ sv_alive s -> b ∈ sv_alive s -> pc_ID a = pc_ID b -> a = b).
  { intros a b Ha Hb. destruct H1 as (_ & Hn & Hs & Hz). apply (TrackerSpec.NoDup_map_inj pc_ID (sv_created s)); try done;
      eapply elem_of_submseteq; eauto using sublist_submseteq. }
  assert (Hnew : forall i, i ∈ map pc_ID (since m (sv_alive s)) <-> exists a, i = pc_ID a /\ a ∈ sv_alive s /\ gt (commentMarker a) m).
  { intros i. rewrite list_elem_of_fmap. unfold since. setoid_rewrite list_elem_of_filter. naive_solver. }
  split; try done.
  - apply NoDup_app. split_and!; [done | |].
    + intros i Hi Hj. apply Hnew in Hj as (a & -> & Ha & Hg). apply H6 in Hi; [| done]. tauto.
    + destruct H1 as (_ & Hn & Hs & _). eapply sublist_NoDup; [exact Hn |]. apply (fmap_sublist pc_ID). etrans; [| exact Hs]. apply sublist_filter.
  - intros i Hi. apply elem_of_app in Hi as [Hi | Hi]; [by apply H5 |]. apply Hnew in Hi as (a & -> & Ha & _).
    apply list_elem_of_fmap. eauto using alive_created.
  - intros a Ha. rewrite elem_of_app, Hnew, (H6 a Ha). specialize (Hc a Ha). specialize (H7 a Ha). split.
    + intros [[G1 _] | (b & E & Hb & Hg)]; [done |]. rewrite (Hid a b Ha Hb E) in *. auto.
    + intros [G1 _]. destruct (decide (gt (commentMarker a) m)); [right; eauto | by left].
  - intros a Ha Hg. by destruct (Hc a Ha).
Qed.

(** ** Runs of polls *)

(** One poll: the comments when the pull request was read in its batch and when they
    were paged through, what each read returned, and the ledger's answers. *)
Record commentPoll := MkCommentPoll {
  cp_batch : server; cp_read : server; cp_nodes : list PRComment; cp_count : Z; cp_faulty : bool; cp_client : reader PRComment;
  cp_posted : list string -> option (gset string); cp_fuel : nat
}.

(** The batch returns the last comments, and the pages those alive; both run after [s],
    and the pages may fail. *)
Definition validPoll (s : server) (p : commentPoll) : Prop :=
  later s (cp_batch p) /\ later (cp_batch p) (cp_read p) /\
  cp_nodes p `suffix_of` sv_alive (cp_batch p) /\ (cp_nodes p = [] -> sv_alive (cp_batch p) = []) /\
  serves (cp_faulty p) (cp_client p) (Z.of_nat (length (sv_alive (cp_read p)))) "" (sv_alive (cp_read p)) /\
  (length (sv_alive (cp_read p)) < cp_fuel p)%nat.
Fixpoint validPolls (s : server) (ps : list commentPoll) : Prop :=
  match ps with [] => True | p :: ps => validPoll s p /\ validPolls (cp_read p) ps end.
Fixpoint finalServer (s : server) (ps : list commentPoll) : server :=
  match ps with [] => s | p :: ps => finalServer (cp_read p) ps end.

Definition takePoll (st : remembered) (p : commentPoll) : res readErr (list NewComment) * remembered :=
  githubNewComments parse (cp_fuel p) (cp_client p) (cp_posted p) st (MkRemembered (Some (newestComment parse (cp_nodes p))) (cp_count p)).

(** Everything the polls hand to the diff, and what is remembered in the end. *)
Fixpoint reports (st : remembered) (ps : list commentPoll) : list NewComment * remembered :=
  match ps with
  | [] => ([], st)
  | p :: ps => let o := takePoll st p in let r := reports o.2 ps in (reportedBy o ++ r.1, r.2)
  end.

Lemma batch_newest s p : validPoll s p ->
  known (sv_created (cp_batch p)) (newestComment parse (cp_nodes p)) /\
  forall a, a ∈ sv_alive (cp_batch p) -> ~ gt (commentMarker a) (newestComment parse (cp_nodes p)).
Proof.
  intros ([Hw _] & _ & [k Hk] & Hz & _). 
  pose proof (newest_spec commentMarker (cp_nodes p) zeroMarker : let n := newestComment parse (cp_nodes p) in _) as (N1 & N2 & N3).
  cbv zeta in N2, N3. split.
  - destruct N3 as [-> | (c & Hc & ->)]; [by left |]. right. exists c. split; [| done]. apply alive_created; [done |]. rewrite Hk.
    apply elem_of_app. by right.
  - intros a Ha. rewrite Hk in Ha. apply elem_of_app in Ha as [Ha | Ha]; [| by apply N2].
    destruct (cp_nodes p) as [| d l] eqn:El; [rewrite (Hz eq_refl) in Hk; symmetry in Hk; apply app_eq_nil in Hk as [-> _]; by apply not_elem_of_nil in Ha |].
    assert (Hs : sorted (k ++ d :: l)) by (rewrite <- Hk; destruct Hw as (Hs & _ & Hsub & _); by eapply StronglySorted_sublist).
    pose proof (proj2 (sorted_app _ _ Hs) a d Ha ltac:(constructor)). pose proof (N2 d ltac:(constructor)). order.
Qed.

Lemma poll_step s p m0 m k ids :
  validPoll s p -> reportedOnce s m0 m ids ->
  let o := takePoll (MkRemembered (Some m) k) p in
  exists m' new, rm_marker o.2 = Some m' /\ map nc_ID (reportedBy o) = map FormatInt new /\ reportedOnce (cp_read p) m0 m' (ids ++ new) /\
    (cp_faulty p = false -> (forall ks, cp_posted p ks <> None) -> forall a, a ∈ sv_alive (cp_batch p) -> a ∈ sv_alive (cp_read p) ->
       ~ gt (commentMarker a) m').
Proof.
  intros Hv Hr o. pose proof (batch_newest _ _ Hv) as [Bk Bn]. destruct Hv as (Lb & Lr & _ & _ & Hs & Hf).
  pose proof (ro_later _ _ _ _ _ Lb Hr) as Hb. pose proof (ro_later _ _ _ _ _ Lr Hb) as Hd.
  assert (Hsort : sorted (sv_alive (cp_read p))).
  { destruct Lr as [(Hs' & _ & Hsub & _) _]. by eapply StronglySorted_sublist. }
  destruct (new_comments_cases _ _ _ (cp_posted p) m k (newestComment parse (cp_nodes p)) (cp_count p) _ _ Hs Hf Hsort)
    as [[Hg Ho] | [(Hg & Ho & Hst & Hbad) | (Hg & Ho & m' & Hm & Hm1 & Hm2 & Hm3)]]; fold (takePoll (MkRemembered (Some m) k) p) in *.
  - exists (newestComment parse (cp_nodes p)), []. subst o. rewrite Ho, app_nil_r. split_and!; try done; [| intros _ _ a Ha _; by apply Bn].
    eapply ro_later; [exact Lr |]. by eapply ro_back.
  - exists m, []. subst o. rewrite Ho, Hst, app_nil_r. split_and!; try done. intros Hn Hp. exfalso.
    destruct Hbad as [Hbad | [ks Hbad]]; [congruence | by apply (Hp ks)].
  - exists m', (map pc_ID (since m (sv_alive (cp_read p)))). split_and!; try done; [| intros _ _ a _ Ha; by apply Hm2].
    apply ro_read; [done | | done]. destruct Hm3 as [-> | (c & Hc & ->)]; [by eapply known_later |].
    right. exists c. split; [| done]. apply alive_created; [by destruct Lr | done].
Qed.

Lemma reports_inv ps : forall s m0 m k ids, validPolls s ps -> reportedOnce s m0 m ids ->
  exists m' new, rm_marker (reports (MkRemembered (Some m) k) ps).2 = Some m' /\
    map nc_ID (reports (MkRemembered (Some m) k) ps).1 = map FormatInt new /\ reportedOnce (finalServer s ps) m0 m' (ids ++ new).
Proof.
  induction ps as [| p ps IH]; intros s m0 m k ids Hv Hr; cbn [reports finalServer].
  - exists m, []. rewrite app_nil_r. done.
  - destruct Hv as [Hp Hv]. destruct (poll_step _ _ _ _ k _ Hp Hr) as (m1 & new1 & Hm & Hn & Hr1 & _).
    destruct (takePoll (MkRemembered (Some m) k) p) as [o [om k1]]. cbn in Hm. subst om.
    destruct (IH _ _ m1 k1 _ Hv Hr1) as (m2 & new2 & Hm2 & Hn2 & Hr2). exists m2, (new1 ++ new2). cbn.
    rewrite !map_app. split_and!; [exact Hm2 | f_equal; done | rewrite app_assoc; done].
Qed.

Lemma reports_snoc ps p : forall st,
  (reports st (ps ++ [p])).1 = (reports st ps).1 ++ reportedBy (takePoll (reports st ps).2 p).
Proof.
  induction ps as [| q ps IH]; intros st; cbn; [by rewrite app_nil_r |]. rewrite IH, app_assoc. done.
Qed.

Lemma ro_begin s m k : wfServer s -> known (sv_created s) m -> reportedOnce s m m [] /\ rm_marker (MkRemembered (Some m) k) = Some m.
Proof.
  intros Hw Hk. split; [| done]. split; try done.
  - constructor.
  - intros i Hi. by apply not_elem_of_nil in Hi.
  - intros a Ha. split; [intros Hi; by apply not_elem_of_nil in Hi | tauto].
Qed.

(** ** Reviews *)

(** The submitted reviews in the order they are listed, which is not documented.  A
    review is never deleted, and one submitted later is newer. *)
Definition wfReviews (l : list PRReview) : Prop := NoDup (map re_ID l) /\ forall r, r ∈ l -> gt (reviewMarker r) zeroMarker.
Definition laterReviews (l l' : list PRReview) : Prop :=
  wfReviews l' /\ exists made, l' ≡ₚ l ++ made /\ forall r o, r ∈ made -> o ∈ l -> gt (reviewMarker r) (reviewMarker o).
Definition knownReview (l : list PRReview) (m : marker) : Prop := m = zeroMarker \/ exists r, r ∈ l /\ m = reviewMarker r.
Definition sinceReview (m : marker) (l : list PRReview) : list PRReview := filter (fun r => gt (reviewMarker r) m) l.

Lemma insertBy_perm {A} (f : A -> A -> bool) x l : insertBy f x l ≡ₚ x :: l.
Proof. induction l as [| y l IH]; cbn; [done |]. destruct (f x y); [| done]. rewrite IH. constructor. Qed.
Lemma sortBy_perm {A} (f : A -> A -> bool) l : sortBy f l ≡ₚ l.
Proof. induction l as [| x l IH]; cbn; [done |]. rewrite insertBy_perm, IH. done. Qed.

(** The loop ends with every new review of the list, wherever it is listed: the pages
    left out hold none, by the count. *)
Lemma readReviews_all faulty client m k n b l : serves faulty client n b l -> forall fuel total old fresh,
  (length l < fuel)%nat -> default n total = n -> Z.of_nat (length (sinceReview m l) + length fresh) <= n - k ->
  match readReviews_loop parse fuel client m k b total old fresh with
  | Err _ => faulty = true
  | Ok (r, t) => t = n /\ r ≡ₚ fresh ++ sinceReview m l
  end.
Proof.
  induction 1 as [b items before E | b rest items before E Hb Hi Hr IH | b l e Hy E]; intros [| fuel] total old fresh Hf Ht Hn; try lia;
    cbn; rewrite E; cbn; rewrite ?Ht.
  - done.
  - rewrite (bool_decide_eq_false_2 _ Hb). cbn. unfold sinceReview in *. rewrite filter_app, length_app in Hn. rewrite filter_app.
    set (f1 := filter _ items) in *. change (filter (fun r => isNew parse m r = true) items) with f1.
    destruct (_ && _) eqn:Ed.
    + split; [done |]. apply andb_true_iff in Ed as [_ Ed]. apply Z.leb_le in Ed. rewrite length_app in Ed.
      assert (E0 : filter (fun r => gt (reviewMarker r) m) rest = []) by (apply length_zero_iff_nil; lia). rewrite E0. done.
    + specialize (IH fuel (Some n) (old || existsb (fun r => negb (isNew parse m r)) items) (fresh ++ f1)).
      rewrite length_app in Hf. destruct items as [| i items]; [done |]. cbn in Hf.
      specialize (IH ltac:(lia) eq_refl). rewrite length_app in IH. specialize (IH ltac:(lia)).
      destruct (readReviews_loop _ _ _ _ _ _ _ _ _) as [[r t] |]; [| done]. destruct IH as [-> IH]. split; [done |].
      rewrite IH, <- app_assoc. apply Permutation_app_head, Permutation_app_comm.
  - done.
Qed.

Record reviewsOnce (l : list PRReview) (m0 m : marker) (k : Z) (ids : list Z) : Prop := {
  rw_wf : wfReviews l;
  rw_start : knownReview l m0;
  rw_known : knownReview l m;
  rw_above : ~ gt m0 m;
  rw_count : k = Z.of_nat (length l) - Z.of_nat (length (sinceReview m l));
  rw_exact : ids ≡ₚ map re_ID (filter (fun r => gt (reviewMarker r) m0 /\ ~ gt (reviewMarker r) m) l)
}.

Lemma filter_every {A} (P : A -> Prop) `{forall x, Decision (P x)} (l : list A) : (forall x, x ∈ l -> P x) -> filter P l = l.
Proof.
  induction l as [| x l IH]; intros Hp; [done |]. rewrite filter_cons_True by (apply Hp; constructor). f_equal. apply IH. intros y Hy.
  apply Hp. by constructor.
Qed.

Lemma knownReview_later l l' m : laterReviews l l' -> knownReview l m -> knownReview l' m.
Proof.
  intros (_ & made & Hp & _) [-> | (r & Hr & ->)]; [by left |]. right. exists r. split; [| done]. rewrite Hp. apply elem_of_app. by left.
Qed.
Lemma made_newer l l' made m r :
  wfReviews l' -> l' ≡ₚ l ++ made -> (forall r o, r ∈ made -> o ∈ l -> gt (reviewMarker r) (reviewMarker o)) -> knownReview l m -> r ∈ made ->
  gt (reviewMarker r) m.
Proof.
  intros [_ Hz] Hp Hg [-> | (o & Ho & ->)] Hr; [| by apply Hg]. apply Hz. rewrite Hp. apply elem_of_app. by right.
Qed.

Lemma rw_later l l' m0 m k ids : laterReviews l l' -> reviewsOnce l m0 m k ids -> reviewsOnce l' m0 m k ids.
Proof.
  intros Hl [H1 H2 H3 H4 H5 H6]. pose proof Hl as (Hw & made & Hp & Hg).
  pose proof (fun r => made_newer _ _ _ m r Hw Hp Hg H3) as Hm.
  assert (Hs : sinceReview m l' ≡ₚ sinceReview m l ++ made).
  { unfold sinceReview. rewrite Hp, filter_app. apply Permutation_app_head. rewrite filter_every; done. }
  split; try done; try (by eapply knownReview_later).
  - rewrite Hs, Hp, !length_app. lia.
  - rewrite H6, Hp, filter_app, map_app.
    rewrite (TrackerSpec.filter_none _ made) by (intros r Hr [_ G]; by apply G, Hm). by rewrite app_nil_r.
Qed.

(** All the new reviews are reported, and the marker moves past every review. *)
Lemma rw_read l m0 m m' k ids new :
  reviewsOnce l m0 m k ids -> knownReview l m' -> ~ gt m m' -> (forall r, r ∈ l -> ~ gt (reviewMarker r) m') ->
  new ≡ₚ map re_ID (sinceReview m l) -> reviewsOnce l m0 m' (Z.of_nat (length l)) (ids ++ new).
Proof.
  intros [H1 H2 H3 H4 H5 H6] Hk Hm Ha Hn. split; try done; [order | |].
  - unfold sinceReview. rewrite (TrackerSpec.filter_none _ l) by done. cbn. lia.
  - rewrite Hn, H6, <- map_app. apply Permutation_map. unfold sinceReview. clear - H4 Ha. induction l as [| r l IH]; [done |].
    assert (Ha' : forall x, x ∈ l -> ~ gt (reviewMarker x) m') by (intros x Hx; apply Ha; by constructor). specialize (IH Ha').
    pose proof (Ha r ltac:(constructor)) as Hr. rewrite !filter_cons.
    destruct (decide (gt (reviewMarker r) m)) as [Gm | Gm].
    + rewrite decide_False by tauto. rewrite decide_True by (split; [order | done]). rewrite <- Permutation_middle. by rewrite IH.
    + destruct (decide (gt (reviewMarker r) m0)) as [G0 | G0].
      * rewrite !decide_True by tauto. cbn. by rewrite IH.
      * rewrite !decide_False by tauto. done.
Qed.

(** One poll: the reviews when the pull request was read in its batch and when they
    were paged through, the nodes and the count of the batch. *)
Record reviewPoll := MkReviewPoll {
  rp_batch : list PRReview; rp_read : list PRReview; rp_nodes : list PRReview; rp_faulty : bool; rp_client : reader PRReview;
  rp_submitted : list string -> option (gset string); rp_posted : list string -> option (gset string); rp_fuel : nat
}.
Definition validReviewPoll (l : list PRReview) (p : reviewPoll) : Prop :=
  laterReviews l (rp_batch p) /\ laterReviews (rp_batch p) (rp_read p) /\ (forall r, r ∈ rp_nodes p -> r ∈ rp_batch p) /\
  serves (rp_faulty p) (rp_client p) (Z.of_nat (length (rp_read p))) "" (rp_read p) /\ (length (rp_read p) < rp_fuel p)%nat.
Fixpoint validReviewPolls (l : list PRReview) (ps : list reviewPoll) : Prop :=
  match ps with [] => True | p :: ps => validReviewPoll l p /\ validReviewPolls (rp_read p) ps end.
Fixpoint finalReviews (l : list PRReview) (ps : list reviewPoll) : list PRReview :=
  match ps with [] => l | p :: ps => finalReviews (rp_read p) ps end.

Definition takeReviews (st : remembered) (p : reviewPoll) : res readErr (list NewReview) * remembered :=
  githubNewReviews parse (rp_fuel p) (rp_client p) (rp_submitted p) (rp_posted p) st
    (MkRemembered (Some (newestReview parse (rp_nodes p))) (Z.of_nat (length (rp_batch p)))).
Definition reviewsOf (o : res readErr (list NewReview) * remembered) : list NewReview := match o.1 with Ok l => l | Err _ => [] end.
Fixpoint reviewReports (st : remembered) (ps : list reviewPoll) : list NewReview * remembered :=
  match ps with
  | [] => ([], st)
  | p :: ps => let o := takeReviews st p in let r := reviewReports o.2 ps in (reviewsOf o ++ r.1, r.2)
  end.

Lemma newestReview_known nodes l : (forall r, r ∈ nodes -> r ∈ l) -> knownReview l (newestReview parse nodes).
Proof.
  unfold newestReview. assert (H : knownReview l (MkMarker 0 "")) by (by left). revert H. generalize (MkMarker 0 "").
  induction nodes as [| r nodes IH]; intros m Hm Hin; cbn; [done |]. apply IH; [| intros x Hx; apply Hin; by constructor].
  case_bool_decide; [done |]. destruct (Newer_one_of m (reviewMarker r)) as [-> | ->]; [done |]. right. exists r. split; [apply Hin; constructor | done].
Qed.

Lemma markTFReviews_ids submitted posted read fresh : markTFReviews submitted posted read = Some fresh -> map nr_ID fresh = map re_ID read.
Proof.
  unfold markTFReviews. destruct read as [| r read]; [intros [= <-]; done |]. destruct (submitted _); [| done]. destruct (posted _); [| done].
  intros [= <-]. cbn. f_equal. rewrite map_map. done.
Qed.
Lemma markTFReviews_fails submitted posted read :
  markTFReviews submitted posted read = None -> (exists ks, submitted ks = None) \/ exists ks, posted ks = None.
Proof.
  unfold markTFReviews. destruct read; [done |]. destruct (submitted _) eqn:E1; [destruct (posted _) eqn:E2; [done |] |]; eauto.
Qed.

Lemma review_step l p m0 m k ids :
  validReviewPoll l p -> reviewsOnce l m0 m k ids ->
  let o := takeReviews (MkRemembered (Some m) k) p in
  exists m' k' new, o.2 = MkRemembered (Some m') k' /\ map nr_ID (reviewsOf o) = new /\ reviewsOnce (rp_read p) m0 m' k' (ids ++ new) /\
    (rp_faulty p = false -> (forall ks, rp_submitted p ks <> None) -> (forall ks, rp_posted p ks <> None) ->
       forall r, r ∈ rp_batch p -> ~ gt (reviewMarker r) m').
Proof.
  intros (Lb & Lr & Hnodes & Hs & Hf) Hr o. pose proof (rw_later _ _ _ _ _ _ Lb Hr) as Hb. pose proof (rw_later _ _ _ _ _ _ Lr Hb) as Hd.
  subst o. unfold takeReviews, githubNewReviews. cbn [rm_marker rm_count]. set (cm := newestReview parse (rp_nodes p)).
  case_bool_decide as Hsame.
  - destruct Hsame as [Hc Hm]. rewrite Hm, Hc. exists m, k, []. rewrite app_nil_r. split_and!; try done. intros _ _ _ r Hin Hg.
    pose proof (rw_count _ _ _ _ _ Hb) as Hk. assert (Hz : sinceReview m (rp_batch p) = []) by (apply length_zero_iff_nil; lia).
    apply (not_elem_of_nil r). rewrite <- Hz. by apply list_elem_of_filter.
  - pose proof (readReviews_all _ _ m k _ _ _ Hs (rp_fuel p) None false [] Hf eq_refl) as Hall. cbn in Hall.
    pose proof (rw_count _ _ _ _ _ Hd) as Hk. specialize (Hall ltac:(lia)). unfold readNewReviews.
    destruct (readReviews_loop _ _ _ _ _ _ _ _ _) as [[read t] | e]; cbn.
    2: { exists m, k, []. rewrite app_nil_r. destruct e; split_and!; try done; congruence. }
    destruct Hall as [-> Hperm]. destruct (markTFReviews _ _ _) as [fresh |] eqn:Em; cbn.
    2: { exists m, k, []. rewrite app_nil_r. split_and!; try done. intros _ H1 H2. exfalso.
         destruct (markTFReviews_fails _ _ _ Em) as [[ks E] | [ks E]]; [by apply (H1 ks) | by apply (H2 ks)]. }
    pose proof (newest_spec reviewMarker (sortBy (reviewAfter parse) read) (Newer parse m cm)) as (N1 & N2 & N3).
    set (m' := foldl _ _ _) in *. pose proof (Newer_le_l m cm) as Hle.
    assert (Hin : forall r, r ∈ rp_read p -> gt (reviewMarker r) m -> r ∈ sortBy (reviewAfter parse) read).
    { intros r H1 H2. rewrite sortBy_perm, Hperm. by apply list_elem_of_filter. }
    assert (Hpast : forall r, r ∈ rp_read p -> ~ gt (reviewMarker r) m').
    { intros r H1. destruct (decide (gt (reviewMarker r) m)) as [G | G]; [by apply N2, Hin | order]. }
    exists m', (Z.of_nat (length (rp_read p))), (map nr_ID fresh). split_and!; try done.
    + eapply rw_read; [exact Hd | | order | exact Hpast |].
      * destruct N3 as [-> | (r & H1 & ->)].
        -- destruct (Newer_one_of m cm) as [-> | ->]; [apply Hd |]. eapply knownReview_later; [exact Lr |]. by apply newestReview_known.
        -- right. exists r. split; [| done]. rewrite sortBy_perm, Hperm in H1. by apply list_elem_of_filter in H1 as [_ ?].
      * rewrite (markTFReviews_ids _ _ _ _ Em), sortBy_perm, Hperm. done.
    + intros _ _ _ r H1. apply Hpast. destruct Lr as (_ & made & -> & _). apply elem_of_app. by left.
Qed.

Lemma reviewReports_inv ps : forall l m0 m k ids, validReviewPolls l ps -> reviewsOnce l m0 m k ids ->
  let r := reviewReports (MkRemembered (Some m) k) ps in
  exists m' k', r.2 = MkRemembered (Some m') k' /\ reviewsOnce (finalReviews l ps) m0 m' k' (ids ++ map nr_ID r.1).
Proof.
  induction ps as [| p ps IH]; intros l m0 m k ids Hv Hr; cbn [reviewReports finalReviews].
  - exists m, k. rewrite app_nil_r. done.
  - destruct Hv as [Hp Hv]. destruct (review_step _ _ _ _ _ _ Hp Hr) as (m1 & k1 & new & Ho & Hn & Hr1 & _).
    destruct (takeReviews (MkRemembered (Some m) k) p) as [o1 o2]. cbn in Ho. subst o2.
    destruct (IH _ _ m1 k1 _ Hv Hr1) as (m2 & k2 & Hm2 & Hr2). exists m2, k2. cbn. split; [done |].
    rewrite map_app, Hn, app_assoc. done.
Qed.

Lemma reviewReports_snoc ps p : forall st,
  (reviewReports st (ps ++ [p])).1 = (reviewReports st ps).1 ++ reviewsOf (takeReviews (reviewReports st ps).2 p).
Proof.
  induction ps as [| q ps IH]; intros st; cbn; [by rewrite app_nil_r |]. rewrite IH, app_assoc. done.
Qed.

Lemma rw_begin l m : wfReviews l -> knownReview l m -> reviewsOnce l m m (Z.of_nat (length l) - Z.of_nat (length (sinceReview m l))) [].
Proof.
  intros Hw Hk. split; try done; [order |]. rewrite (TrackerSpec.filter_none _ l) by tauto. done.
Qed.

Lemma review_ids (P : PRReview -> Prop) `{forall r, Decision (P r)} l r :
  wfReviews l -> r ∈ l -> (re_ID r ∈ map re_ID (filter P l) <-> P r).
Proof.
  intros [Hn _] Hr. rewrite list_elem_of_fmap. setoid_rewrite list_elem_of_filter. split.
  - intros (x & E & Hp & Hx). by rewrite (TrackerSpec.NoDup_map_inj _ _ _ _ Hn Hr Hx E).
  - eauto.
Qed.

#[global] Instance FormatInt_inj : Inj (=) (=) FormatInt.
Proof. unfold FormatInt. apply _. Qed.

End Order.

(** C19: Over any run of polls, with comments made and deleted at any time, pages
    and the ledger failing at any read, and what is stored put back after a failure,
    no comment is handed to the diff twice; a comment that is still there was handed
    over exactly when it is newer than the marker the run began with and not newer
    than the one stored; and after a poll in which no read failed, every comment
    newer than that first marker that was there when the poll began, and still was
    when it paged, has been.  Comments made later are newer, as GitHub orders them. *)
Theorem each_comment_is_reported_once parse s0 m0 k0 ps :
  wfServer parse s0 -> known (sv_created s0) m0 -> validPolls parse s0 ps ->
  let st := MkRemembered (Some m0) k0 in
  let ids qs := map nc_ID (reports parse st qs).1 in
  NoDup (ids ps) /\
  (exists m, rm_marker (reports parse st ps).2 = Some m /\
     forall c, c ∈ sv_alive (finalServer s0 ps) ->
       (FormatInt (pc_ID c) ∈ ids ps <-> gt parse (commentMarker c) m0 /\ ~ gt parse (commentMarker c) m)) /\
  (forall p, validPoll parse (finalServer s0 ps) p -> cp_faulty p = false -> (forall ks, cp_posted p ks <> None) ->
     forall c, c ∈ sv_alive (cp_batch p) -> c ∈ sv_alive (cp_read p) -> gt parse (commentMarker c) m0 ->
       FormatInt (pc_ID c) ∈ ids (ps ++ [p])).
Proof.
  intros Hw Hk Hv st ids. destruct (ro_begin parse s0 m0 k0 Hw Hk) as [H0 _].
  destruct (reports_inv parse ps s0 m0 m0 k0 [] Hv H0) as (m & new & Hm & Hn & Hr). fold st in Hm, Hn. cbn in Hr.
  assert (Hid : ids ps = map FormatInt new) by exact Hn. split_and!.
  - rewrite Hid. apply (NoDup_fmap_2 FormatInt). apply Hr.
  - exists m. split; [done |]. intros c Hc. rewrite <- (ro_exact _ _ _ _ _ Hr c Hc), Hid. apply (list_elem_of_fmap_inj FormatInt).
  - intros p Hp Hf Hl c Hb Hc Hg. destruct (reports parse st ps).2 as [om k] eqn:E. cbn in Hm. subst om.
    destruct (poll_step parse _ _ _ _ k _ Hp Hr) as (m' & new' & Hm' & Hn' & Hr' & Hall).
    unfold ids. rewrite reports_snoc, map_app, E. rewrite Hn'. fold (ids ps). rewrite Hid, <- map_app.
    apply list_elem_of_fmap. exists (pc_ID c). split; [done |]. apply (ro_exact _ _ _ _ _ Hr' c Hc). split; [done | by apply Hall].
Qed.

(** Over any run of polls, whatever order reviews are listed in and
    wherever pages or ledger reads fail, the reviews handed to the diff are, each
    once, exactly those newer than the marker the run began with and not newer than
    the one stored; after a poll in which no read failed, that is every review newer
    than that first marker that was there when the poll began.  The run begins with
    a count that agrees with its marker; reviews are not deleted, and one submitted
    later is newer. *)
Theorem each_review_is_reported_once parse l0 m0 ps :
  wfReviews parse l0 -> knownReview l0 m0 -> validReviewPolls parse l0 ps ->
  let st := MkRemembered (Some m0) (Z.of_nat (length l0) - Z.of_nat (length (sinceReview parse m0 l0))) in
  let ids qs := map nr_ID (reviewReports parse st qs).1 in
  NoDup (ids ps) /\
  (exists m, rm_marker (reviewReports parse st ps).2 = Some m /\
     forall r, r ∈ finalReviews l0 ps -> (re_ID r ∈ ids ps <-> gt parse (reviewMarker r) m0 /\ ~ gt parse (reviewMarker r) m)) /\
  (forall p, validReviewPoll parse (finalReviews l0 ps) p -> rp_faulty p = false ->
     (forall ks, rp_submitted p ks <> None) -> (forall ks, rp_posted p ks <> None) ->
     forall r, r ∈ rp_batch p -> gt parse (reviewMarker r) m0 -> re_ID r ∈ ids (ps ++ [p])).
Proof.
  intros Hw Hk Hv st ids.
  destruct (reviewReports_inv parse ps l0 m0 m0 _ [] Hv (rw_begin parse l0 m0 Hw Hk)) as (m & k & Hm & Hr). fold st in Hm, Hr. cbn [app] in Hr.
  assert (Hmem : forall l m k js r, reviewsOnce parse l m0 m k js -> r ∈ l ->
    (re_ID r ∈ js <-> gt parse (reviewMarker r) m0 /\ ~ gt parse (reviewMarker r) m)).
  { intros l m' k' js r H Hin. rewrite (rw_exact _ _ _ _ _ _ H). apply (review_ids parse); [apply H | done]. }
  split_and!.
  - unfold ids. rewrite (rw_exact _ _ _ _ _ _ Hr). eapply sublist_NoDup; [apply Hr |]. apply (fmap_sublist re_ID), sublist_filter.
  - exists m. rewrite Hm. split; [done |]. intros r Hin. by eapply Hmem.
  - intros p Hp Hf H1 H2 r Hin Hg. destruct (review_step parse _ _ _ _ _ _ Hp Hr) as (m' & k' & new & Ho & Hn & Hr' & Hall).
    unfold ids. rewrite reviewReports_snoc, map_app, Hm, Hn. eapply Hmem; [exact Hr' | |].
    + destruct Hp as (_ & (_ & made & Hpm & _) & _). rewrite Hpm. apply elem_of_app. by left.
    + split; [done | by apply Hall].
Qed.

(** A time that parses is newer than one that does not, whatever the ids. *)
Theorem parsed_is_newer parse x y t : parse (mk_At x) = Some t -> parse (mk_At y) = None -> gt parse x y.
Proof. intros Hx Hy. unfold gt, After, markedAfter. rewrite Hx, Hy. done. Qed.

(** ** A concrete run *)

(** Times are texts of increasing length. *)
Definition clock (s : string) : option Z := if bool_decide (s = "") then None else Some (Z.of_nat (String.length s)).

Definition said (id : Z) (at_ : string) : PRComment := MkPRComment id "ann" "1" at_ [].
Definition c1 : PRComment := said 1 "t".
Definition c2 : PRComment := said 2 "tt".
Definition c3 : PRComment := said 3 "ttt".

(** A comment a page, and one comment made between the batch and the pages. *)
Definition onePerPage (b : string) : res readErr (page PRComment) :=
  if bool_decide (b = "") then Ok (MkPage [c3] 3 true "p2")
  else if bool_decide (b = "p2") then Ok (MkPage [c2] 3 true "p1") else Ok (MkPage [c1] 3 false "").
Definition raced : commentPoll :=
  MkCommentPoll (MkServer [c1; c2] [c1; c2]) (MkServer [c1; c2; c3] [c1; c2; c3]) [c2] 2 false onePerPage (fun _ => Some ∅) 4.

Lemma wf_comments l : l = [c1] \/ l = [c1; c2] \/ l = [c1; c2; c3] -> wfServer clock (MkServer l l).
Proof.
  intros H. split_and!.
  - destruct H as [-> | [-> | ->]]; repeat constructor.
  - destruct H as [-> | [-> | ->]]; repeat constructor; cbn; set_solver.
  - done.
  - intros c Hc. assert (Hc' : c ∈ [c1; c2; c3]) by (destruct H as [-> | [-> | ->]]; set_solver).
    rewrite !elem_of_cons, elem_of_nil in Hc'. destruct Hc' as [-> | [-> | [-> | []]]]; reflexivity.
Qed.

Lemma raced_valid : validPoll clock (MkServer [c1] [c1]) raced.
Proof.
  split_and!.
  - split; [apply wf_comments; auto |]. exists [c2]. split; done.
  - split; [apply wf_comments; auto |]. exists [c3]. split; done.
  - by exists [c1].
  - done.
  - apply (serves_page false onePerPage 3 "" [c1; c2] [c3] "p2"); try done.
    apply (serves_page false onePerPage 3 "p2" [c1] [c2] "p1"); try done. by apply (serves_rest false onePerPage 3 "p1" [c1] "").
  - cbn. lia.
Qed.

(** The run of that one poll reports both comments, each once. *)
Example raced_reports : map nc_ID (reports clock (MkRemembered (Some (commentMarker c1)) 1) [raced]).1 = ["2"; "3"].
Proof. vm_compute. reflexivity. Qed.

Lemma each_comment_is_reported_once_witness :
  FormatInt 2 ∈ map nc_ID (reports clock (MkRemembered (Some (commentMarker c1)) 1) [raced]).1.
Proof.
  apply (each_comment_is_reported_once clock (MkServer [c1] [c1]) (commentMarker c1) 1 []) with (p := raced) (c := c2).
  - apply wf_comments. auto.
  - right. exists c1. split; [apply list_elem_of_here | reflexivity].
  - exact I.
  - exact raced_valid.
  - reflexivity.
  - done.
  - apply list_elem_of_further, list_elem_of_here.
  - apply list_elem_of_further, list_elem_of_here.
  - reflexivity.
Defined.

(** A review begun before another and submitted after it is listed first. *)
Definition rev (id : Z) (at_ : string) : PRReview := MkPRReview id "APPROVED" "cy" "33" at_ [] 0 [].
Definition r1 : PRReview := rev 5 "t".
Definition r2 : PRReview := rev 4 "tt".
Definition reviewPages (b : string) : res readErr (page PRReview) :=
  if bool_decide (b = "") then Ok (MkPage [r1] 2 true "p1") else Ok (MkPage [r2] 2 false "").
Definition lateSubmission : reviewPoll :=
  MkReviewPoll [r2; r1] [r2; r1] [r1; r2] false reviewPages (fun _ => Some ∅) (fun _ => Some ∅) 3.

Lemma wf_reviews l : l = [r1] \/ l = [r2; r1] -> wfReviews clock l.
Proof.
  intros H. split.
  - destruct H as [-> | ->]; repeat constructor; cbn; set_solver.
  - intros r Hr. assert (Hr' : r ∈ [r2; r1]) by (destruct H as [-> | ->]; set_solver).
    rewrite !elem_of_cons, elem_of_nil in Hr'. destruct Hr' as [-> | [-> | []]]; reflexivity.
Qed.

Lemma late_valid : validReviewPoll clock [r1] lateSubmission.
Proof.
  split_and!.
  - split; [apply wf_reviews; auto |]. exists [r2]. split; [apply Permutation_swap |].
    intros r o Hr Ho. apply list_elem_of_singleton in Hr, Ho. subst. reflexivity.
  - split; [apply wf_reviews; auto |]. exists []. split; [done |]. intros r o Hr. by apply not_elem_of_nil in Hr.
  - cbn. set_solver.
  - apply (serves_page false reviewPages 2 "" [r2] [r1] "p1"); try done. by apply (serves_rest false reviewPages 2 "p1" [r2] "").
  - cbn. lia.
Qed.

Lemma each_review_is_reported_once_witness :
  4 ∈ map nr_ID (reviewReports clock (MkRemembered (Some (reviewMarker r1)) 1) [lateSubmission]).1.
Proof.
  apply (each_review_is_reported_once clock [r1] (reviewMarker r1) []) with (p := lateSubmission) (r := r2).
  - apply wf_reviews. auto.
  - right. exists r1. split; [apply list_elem_of_here | reflexivity].
  - exact I.
  - exact late_valid.
  - reflexivity.
  - done.
  - done.
  - apply list_elem_of_here.
  - reflexivity.
Defined.

End TrackerReadSpec.
