(* ===== verification/ConvRow.v ===== *)
(** * The tables of the conversation queue and the predicates over them

    Models what the Postgres conversation queue reads and writes
    (internal/db/postgres/conversation_queue.go, conversation.go,
    blueprints.go, tasks.go): conversations, claims, blueprint runs, the
    message rows that count as input, executor instances, per-organization
    caps, tasks and teams, and the SQL fragments every queue statement is
    assembled from (active claim, awaiting driving, due, settled, drivable,
    working, the episode counts).

    A uuid column is the number its sixteen bytes spell, so SQL's order on it
    is [Z.le]; an id argument of a store method is an [option Z], [None] being
    a string that does not parse as a uuid.  A timestamp or an interval is a
    number of one unit. *)

From S2P Require Import Prelude.
From Stdlib Require Import QArith.
#[local] Open Scope Z_scope.

(** ** Rows *)

(** Stored conversation statuses: a NULL status is the mid-flight state. *)
Inductive cstatus := Open | Failed.
#[global] Instance cstatus_eq_dec : EqDecision cstatus. Proof. solve_decision. Defined.

(** The columns fixed at the mint. *)
Record convKey := ConvKey {
  id : Z; org_id : Z; task_id : option Z; team_id : option Z;
  blueprint_run_id : option Z; blueprint_step_index : option Z;
  parent_conversation_id : option Z; trigger_type : string; creator_user_id : option Z;
  started_at : Z }.

(** The columns a park writes, the pending stop, the ending, the queue columns
    and the boundary. *)
Record parkCols := Park { status : option cstatus; parked_at : option Z; park_reason : option string }.
Record stopCols := Stop { stop_requested_at : option Z; stop_requested_by : option string; stop_requested_reason : option string }.
Record endCols := Ending { completed_at : option Z; outcome : option string; outcome_reason : option string;
  failure_kind : option string; result_summary : string }.
Record queueCols := Queue { queued_at : option Z; next_attempt_at : option Z; preferred_executor_id : option string }.
Record boundCols := Bound { archived_at : option Z; ended_at : option Z; ended_reason : option string }.

Record conversation := Conv {
  key : convKey; park : parkCols; stop : stopCols; ending : endCols; queue : queueCols; bound : boundCols }.

Definition noStop : stopCols := Stop None None None.

(** A claim: one engagement of one executor with one conversation. *)
Record claim := Claim {
  k_id : Z; k_org : Z; k_conv : Z; executor_id : string; boot_epoch : Z; claimed_at : Z;
  released_at : option Z; lease_expires_at : option Z; k_outcome : option string;
  phase : option string; cred_pubkey : option string;
  last_activity_at : option Z; current_op : option string; last_checkpoint_at : option Z;
  duration_ms : option Z; num_turns : option Z; peak_mem_mb : option Z; cpu_usec : option Z }.

Inductive rstatus := Running | Completed | Aborted | RFailed | Cancelled.
#[global] Instance rstatus_eq_dec : EqDecision rstatus. Proof. solve_decision. Defined.

Definition Terminal (s : rstatus) : bool := negb (bool_decide (s = Running)).

Record brun := Run {
  b_id : Z; b_org : Z; b_task : Z; triggering_event_id : option Z; b_trigger : option Z; b_started : Z;
  b_status : rstatus; cancel_requested : bool; current_step_index : Z;
  abort_reason : option string; aborted_at_step : option Z; b_completed : option Z }.

Record message := Msg {
  m_id : Z; m_org : Z; m_conv : Z; m_claim : option Z; m_user : option Z; m_role : string; m_subtype : string;
  delivered : bool; window_state : string; m_model : option string; cost_usd : option Q }.

Record instance := Inst {
  i_id : string; i_boot : Z; last_heartbeat_at : Z; draining : bool; drain_until_epoch : option Z;
  dispatch_gated : option bool }.

Record task := Task {
  t_id : Z; t_org : Z; t_status : string; close_deferred_event_id : option Z; t_team : option Z;
  claimed_by_user_id : option Z; claimed_by_agent_id : option Z; snooze_until : option Z }.

Record team := Team { tm_id : Z; tm_org : Z; deleted_at : option Z }.

(** The database: [caps] is org_settings.max_concurrent_runs, [memories] the
    conversations that have a conversation_memory row. *)
Record qdb := Db {
  convs : list conversation; claims : list claim; runs : list brun; messages : list message;
  instances : list instance; caps : list (Z * option Z); memories : list Z;
  tasks : list task; teams : list team }.

Definition c_id (r : conversation) : Z := id (key r).
Definition c_org (r : conversation) : Z := org_id (key r).

(** One UPDATE: every row the WHERE clause keeps is rewritten from its old
    version. *)
Definition update {A} (p : A -> bool) (f : A -> A) (l : list A) : list A :=
  map (fun x => if p x then f x else x) l.

Definition set_convs (l : list conversation) (d : qdb) : qdb :=
  Db l (claims d) (runs d) (messages d) (instances d) (caps d) (memories d) (tasks d) (teams d).
Definition set_claims (l : list claim) (d : qdb) : qdb :=
  Db (convs d) l (runs d) (messages d) (instances d) (caps d) (memories d) (tasks d) (teams d).
Definition set_runs (l : list brun) (d : qdb) : qdb :=
  Db (convs d) (claims d) l (messages d) (instances d) (caps d) (memories d) (tasks d) (teams d).
Definition set_messages (l : list message) (d : qdb) : qdb :=
  Db (convs d) (claims d) (runs d) l (instances d) (caps d) (memories d) (tasks d) (teams d).
Definition set_tasks (l : list task) (d : qdb) : qdb :=
  Db (convs d) (claims d) (runs d) (messages d) (instances d) (caps d) (memories d) l (teams d).

Notation "a =? b" := (bool_decide (a = b)) : q_scope.
Delimit Scope q_scope with q.
#[local] Open Scope q_scope.

(** [x IS NULL] *)
Definition isNull {A} (o : option A) : bool := match o with None => true | Some _ => false end.
(** [NULLIF(s, '')] *)
Definition nullIfEmpty (s : string) : option string := if s =? ""%string then None else Some s.
(** [COALESCE(a, b)] over two nullable columns *)
Definition coalesce {A} (a b : option A) : option A := match a with Some _ => a | None => b end.
(** [a = b] on nullable operands, as a WHERE clause reads it: unknown is not kept *)
Definition eqv {A} `{EqDecision A} (a b : option A) : bool :=
  match a, b with Some x, Some y => x =? y | _, _ => false end.

(** ** Settled and unsettled conversations *)

Definition ConcludedConversationSQL (r : conversation) : bool :=
  (status (park r) =? Some Open) && negb (isNull (completed_at (ending r))).

Definition SettledConversationSQL (r : conversation) : bool :=
  (status (park r) =? Some Failed) || ConcludedConversationSQL r.

Definition UnsettledConversationSQL (r : conversation) : bool :=
  isNull (status (park r)) || negb (SettledConversationSQL r).

(** ** The needs-driving predicate *)

Definition unreleased (cl : claim) : bool := isNull (released_at cl).

Definition activeClaimExistsSQL (d : qdb) (r : conversation) : bool :=
  existsb (fun cl => (k_conv cl =? c_id r) && unreleased cl) (claims d).

(** Unreleased with a lease still in the future: the guard of every holder write. *)
Definition claimLeaseLive (now : Z) (cl : claim) : bool :=
  unreleased cl && match lease_expires_at cl with Some e => now <? e | None => false end.

Definition claimLeaseLapsed (now : Z) (cl : claim) : bool :=
  unreleased cl && match lease_expires_at cl with Some e => e <=? now | None => false end.

Definition liveClaimExistsSQL (now : Z) (d : qdb) (r : conversation) : bool :=
  existsb (fun cl => (k_conv cl =? c_id r) && claimLeaseLive now cl) (claims d).

Definition drivable_input (r : conversation) (m : message) : bool :=
  (m_conv m =? c_id r) && negb (delivered m) && (m_role m =? "user"%string) && (m_subtype m =? ""%string)
  && (window_state m =? "active"%string).

Definition undeliveredInputExistsSQL (d : qdb) (r : conversation) : bool :=
  existsb (drivable_input r) (messages d).

Definition undeliveredInputDuringClaimSQL (d : qdb) (claimID : Z) (r : conversation) : bool :=
  existsb (fun m => drivable_input r m && eqv (m_claim m) (Some claimID)) (messages d).

Definition awaitingDrivingSQL (d : qdb) (r : conversation) : bool :=
  isNull (archived_at (bound r)) && isNull (stop_requested_at (stop r)) && negb (activeClaimExistsSQL d r)
  && (isNull (status (park r))
      || ((status (park r) =? Some Open) && isNull (completed_at (ending r)) && undeliveredInputExistsSQL d r)).

Definition nextAttemptDueSQL (now : Z) (r : conversation) : bool :=
  match next_attempt_at (queue r) with None => true | Some t => t <=? now end.

Definition needsDrivingSQL (now : Z) (d : qdb) (r : conversation) : bool :=
  awaitingDrivingSQL d r && nextAttemptDueSQL now r.

Definition deferredSQL (now : Z) (d : qdb) (r : conversation) : bool :=
  awaitingDrivingSQL d r && match next_attempt_at (queue r) with None => false | Some t => now <? t end.

Definition eligibleForDrivingSQL := needsDrivingSQL.

(** ** The blueprint, task and memory gates *)

(** LEFT JOIN blueprint_runs br ON br.id = r.blueprint_run_id *)
Definition run_of (d : qdb) (r : conversation) : option brun :=
  match blueprint_run_id (key r) with
  | None => None
  | Some i => find (fun b => b_id b =? i) (runs d)
  end.

Definition workingConversationSQL (d : qdb) (r : conversation) : bool :=
  let orgRun (p : brun -> bool) := existsb (fun b => (b_org b =? c_org r) && eqv (Some (b_id b)) (blueprint_run_id (key r)) && p b) (runs d) in
  isNull (parent_conversation_id (key r)) && isNull (ended_at (bound r))
  && (activeClaimExistsSQL d r
      || (awaitingDrivingSQL d r && negb (orgRun (fun b => cancel_requested b || (b_status b =? Cancelled))))
      || (SettledConversationSQL r
          && orgRun (fun b => (b_status b =? Running) && negb (cancel_requested b)
                              && eqv (Some (current_step_index b)) (blueprint_step_index (key r))))).

Definition liveTopLevelConversationSQL (r : conversation) : bool :=
  isNull (ended_at (bound r)) && isNull (parent_conversation_id (key r)).

(** ORDER BY started_at DESC, id DESC: [a] comes before [b]. *)
Definition newer (a b : conversation) : bool :=
  (started_at (key b) <? started_at (key a))
  || ((started_at (key a) =? started_at (key b)) && (c_id b <? c_id a)).

Fixpoint newest (l : list conversation) : option conversation :=
  match l with
  | [] => None
  | r :: l' => match newest l' with Some s => Some (if newer r s then r else s) | None => Some r end
  end.

Definition of_task (org t : Z) (r : conversation) : bool := (c_org r =? org) && eqv (task_id (key r)) (Some t).

Definition taskLiveConversationSQL (d : qdb) (org t : Z) : option Z :=
  c_id <$> newest (filter (fun r => of_task org t r && liveTopLevelConversationSQL r = true) (convs d)).

Definition taskMemoryPendingSQL (d : qdb) (org t : Z) : bool :=
  existsb (fun r => of_task org t r && negb (isNull (ended_at (bound r))) && isNull (parent_conversation_id (key r))
                    && negb (bool_decide (c_id r ∈ memories d))) (convs d).

Definition blueprintDrivableSQL (d : qdb) (r : conversation) : bool :=
  match blueprint_run_id (key r) with
  | None => true
  | Some _ =>
      match run_of d r with
      | None => false
      | Some br => negb (cancel_requested br) && negb (b_status br =? Cancelled)
                   && eqv (blueprint_step_index (key r)) (Some (current_step_index br))
      end
  end
  && match task_id (key r) with
     | None => true
     | Some t => eqv (Some (c_id r)) (taskLiveConversationSQL d (c_org r) t) && negb (taskMemoryPendingSQL d (c_org r) t)
     end.

(** ** Hand-backs and queue episodes *)

Inductive HandBackBudget := BudgetNone | BudgetSetup | BudgetLoss | BudgetUpstream | BudgetJail.
#[global] Instance HandBackBudget_eq_dec : EqDecision HandBackBudget. Proof. solve_decision. Defined.

Definition second : Z := 10 ^ 9.

Record HandBackPolicy := Policy { p_outcome : string; Budget : HandBackBudget; Schedule : list Z }.

Definition RequeueSetupFailure : string := "requeued".
Definition RequeueAwaitingCredentials : string := "requeued_credentials".
Definition HandBackReaped : string := "reaped".
Definition HandBackShutdown : string := "requeued_shutdown".
Definition HandBackUpstream : string := "requeued_upstream".
Definition RequeueUpstreamUnavailable : string := HandBackUpstream.
Definition HandBackJailLost : string := "requeued_jail_lost".

Definition HandBackPolicies : list HandBackPolicy :=
  [ Policy RequeueSetupFailure BudgetSetup [];
    Policy RequeueAwaitingCredentials BudgetNone [];
    Policy HandBackReaped BudgetLoss [];
    Policy HandBackShutdown BudgetNone [];
    Policy HandBackUpstream BudgetUpstream [30 * second; 60 * second; 120 * second; 300 * second; 600 * second];
    Policy HandBackJailLost BudgetJail [] ].

Definition HandBackPolicyFor (outcome : string) : option HandBackPolicy :=
  find (fun p => p_outcome p =? outcome) HandBackPolicies.

Definition Delay (p : HandBackPolicy) (prior : Z) : Z :=
  match Schedule p with
  | [] => 0
  | l => nth (Z.to_nat (Z.min (Z.max prior 0) (Z.of_nat (length l) - 1))) l 0
  end.

(** The outcomes of [HandBackOutcomesSQL] and [HandBackBudgetOutcomesSQL]. *)
Definition HandBackOutcomesSQL : list string := map p_outcome HandBackPolicies.
Definition HandBackBudgetOutcomesSQL (b : HandBackBudget) : list string :=
  map p_outcome (filter (fun p => Budget p = b) HandBackPolicies).

(** [o IN (l)] *)
Definition inList (o : option string) (l : list string) : bool :=
  match o with Some s => existsb (fun x => x =? s) l | None => false end.

Definition EpisodeStartSQL (r : conversation) : option Z :=
  if isNull (status (park r)) then Some (default (started_at (key r)) (queued_at (queue r))) else None.

Definition releaseOrClaim (cl : claim) : Z := default (claimed_at cl) (released_at cl).

(** A claim of the conversation that recorded an outcome of its own at or after [t]. *)
Definition spokeSince (d : qdb) (conv t : Z) : bool :=
  existsb (fun c3 => (k_conv c3 =? conv) && negb (isNull (k_outcome c3)) && negb (inList (k_outcome c3) HandBackOutcomesSQL)
                     && (t <=? claimed_at c3)) (claims d).

Definition episodeHandBack (d : qdb) (r : conversation) (outcomes : list string) (c2 : claim) : bool :=
  (k_conv c2 =? c_id r) && inList (k_outcome c2) outcomes
  && match EpisodeStartSQL r with Some s => s <? releaseOrClaim c2 | None => false end
  && negb (spokeSince d (k_conv c2) (releaseOrClaim c2)).

Definition episodeHandBacksSQL (d : qdb) (r : conversation) (outcomes : list string) : Z :=
  Z.of_nat (length (List.filter (episodeHandBack d r outcomes) (claims d))).

Definition EpisodeSetupFailuresSQL (d : qdb) (r : conversation) : Z := episodeHandBacksSQL d r (HandBackBudgetOutcomesSQL BudgetSetup).
Definition EpisodeLostEngagementsSQL (d : qdb) (r : conversation) : Z := episodeHandBacksSQL d r (HandBackBudgetOutcomesSQL BudgetLoss).
Definition EpisodeUpstreamHandBacksSQL (d : qdb) (r : conversation) : Z := episodeHandBacksSQL d r (HandBackBudgetOutcomesSQL BudgetUpstream).
Definition EpisodeJailLossesSQL (d : qdb) (r : conversation) : Z := episodeHandBacksSQL d r (HandBackBudgetOutcomesSQL BudgetJail).
