(* ===== verification/ConvStore.v ===== *)
(** * Writes of a conversation and of its blueprint run

    Models the claim fence (internal/db/postgres/claim_fence.go), the
    lifecycle writes of internal/db/postgres/conversation.go (the terminal
    write with its cost settlement, the park, the failure, the stop request,
    the wake, the boundaries, the claim columns an engagement writes) and the
    run writes of internal/db/postgres/blueprints.go (the firing, the advance,
    the terminal, the reopening, the cancel request).

    [tx] is the transaction's now(), [now] the statement_timestamp() of the
    statement that reads it, [wall] the clock of the calling process.  A
    transaction that returns an error leaves the database as it was. *)

From S2P Require Import Prelude ConvRow.
From Stdlib Require Import QArith.
#[local] Open Scope Z_scope.
#[local] Open Scope q_scope.

Inductive qerr :=
| ErrClaimReleased | ErrClaimLeaseExpired | ErrInvalidRequeueOutcome | ErrInvalidConversationEnding
| ErrNoSuchConversation | ErrInvalidEndedReason
| ErrNoSuchTask | ErrNoSuchBlueprintRun | ErrBlueprintStepUnindexed | ErrManualCreatorRequired
| ErrBlueprintRunTriggerTypeRequired | ErrBlueprintRunFenceRequiresEventAndTrigger
| ErrTaskBusyActiveRun | ErrTaskClosedForEventRun | ErrTeamArchived
| ErrClaimIDRequired | ErrNoCanonicalTeam | ErrUniqueViolation.
#[global] Instance qerr_eq_dec : EqDecision qerr. Proof. solve_decision. Defined.

(** errors.Is(err, db.ErrClaimReleased): a lapsed lease is one way to have lost the claim. *)
Definition IsClaimReleased (e : qerr) : bool := (e =? ErrClaimReleased) || (e =? ErrClaimLeaseExpired).

(** A store method's answer and the database it leaves. *)
Definition ans (A : Type) : Type := res qerr A * qdb.

(** ** The fence *)

Definition names (org conv clm : Z) (cl : claim) : bool :=
  (k_id cl =? clm) && (k_org cl =? org) && (k_conv cl =? conv).

(** [None] while a holder write by this claim would be let through. *)
Definition claimRefusal (now : Z) (d : qdb) (org conv clm : Z) : option qerr :=
  match find (names org conv clm) (claims d) with
  | None => Some ErrClaimReleased
  | Some cl =>
      if claimLeaseLive now cl then None
      else if unreleased cl && negb (isNull (lease_expires_at cl)) then Some ErrClaimLeaseExpired
      else Some ErrClaimReleased
  end.

Definition assertClaimActive (now : Z) (d : qdb) (org : Z) (conv clm : option Z) : option qerr :=
  match conv, clm with
  | Some c, Some k => claimRefusal now d org c k
  | _, _ => Some ErrClaimReleased
  end.

(** With the conversation row locked first, which no other transaction can then write. *)
Definition assertClaimActiveForConversationWrite (now : Z) (d : qdb) (org : Z) (conv clm : option Z) : option qerr :=
  assertClaimActive now d org conv clm.

(** Run a fenced body: a refusal answers the error and writes nothing. *)
Definition fenced {A} (now : Z) (d : qdb) (org : Z) (conv clm : option Z) (body : Z -> Z -> ans A) : ans A :=
  match assertClaimActiveForConversationWrite now d org conv clm, conv, clm with
  | None, Some c, Some k => body c k
  | Some e, _, _ => (Err e, d)
  | _, _, _ => (Err ErrClaimReleased, d)
  end.

(** ** Releases *)

Definition release (tx : Z) (out : string) (cl : claim) : claim :=
  Claim (k_id cl) (k_org cl) (k_conv cl) (executor_id cl) (boot_epoch cl) (claimed_at cl)
        (Some tx) (lease_expires_at cl) (Some out) (phase cl) (cred_pubkey cl)
        (last_activity_at cl) (current_op cl) (last_checkpoint_at cl) (duration_ms cl) (num_turns cl)
        (peak_mem_mb cl) (cpu_usec cl).

Definition claimOutcomeForStatus (s : cstatus) : string :=
  match s with Failed => "failed" | Open => "completed" end.

Definition activeOf (org conv : Z) (cl : claim) : bool := (k_org cl =? org) && (k_conv cl =? conv) && unreleased cl.

Definition releaseActiveClaim (tx : Z) (org conv : Z) (out : string) (d : qdb) : qdb :=
  set_claims (update (activeOf org conv) (release tx out) (claims d)) d.

Definition telemetry (durationMs numTurns : Z) (cl : claim) : claim :=
  Claim (k_id cl) (k_org cl) (k_conv cl) (executor_id cl) (boot_epoch cl) (claimed_at cl)
        (released_at cl) (lease_expires_at cl) (k_outcome cl) (phase cl) (cred_pubkey cl)
        (last_activity_at cl) (current_op cl) (last_checkpoint_at cl) (Some durationMs) (Some numTurns)
        (peak_mem_mb cl) (cpu_usec cl).

Definition releaseActiveClaimWithTelemetry (tx org conv : Z) (out : string) (durationMs numTurns : Z) (d : qdb) : qdb :=
  set_claims (update (activeOf org conv) (fun cl => telemetry durationMs numTurns (release tx out cl)) (claims d)) d.

(** ** The cost of an engagement, on the newest row that can carry it *)

Definition ModelSynthetic : string := "<synthetic>".

Definition real_model (m : message) : bool :=
  match m_model m with Some x => negb (x =? ModelSynthetic) | None => false end.
Definition not_synthetic (m : message) : bool := negb (m_model m =? Some ModelSynthetic).

(** ORDER BY the keys DESC, id DESC LIMIT 1: the id of the first row. *)
Definition rank2 (m : message) : Z := (if real_model m then 2 else 0) + (if not_synthetic m then 1 else 0).
Definition before_msg (k : message -> Z) (a b : message) : bool :=
  (k b <? k a) || ((k a =? k b) && (m_id b <? m_id a)).
Fixpoint first_msg (k : message -> Z) (l : list message) : option message :=
  match l with
  | [] => None
  | m :: l' => match first_msg k l' with Some n => Some (if before_msg k m n then m else n) | None => Some m end
  end.

Definition set_cost (c : option Q) (m : message) : message :=
  Msg (m_id m) (m_org m) (m_conv m) (m_claim m) (m_user m) (m_role m) (m_subtype m) (delivered m) (window_state m) (m_model m) c.

(** UPDATE messages SET cost_usd = f(cost_usd) WHERE org_id, conversation_id and
    id = (the row chosen); answers RowsAffected > 0. *)
Definition settle_on (org conv : Z) (target : option message) (f : option Q -> Q) (d : qdb) : bool * qdb :=
  match target with
  | None => (false, d)
  | Some t =>
      let p m := (m_org m =? org) && (m_conv m =? conv) && (m_id m =? m_id t) in
      (existsb p (messages d), set_messages (update p (fun m => set_cost (Some (f (cost_usd m))) m) (messages d)) d)
  end.

Definition settleClaimCostLump (org conv : Z) (clm : option Z) (costUSD : Q) (d : qdb) : qdb :=
  let zero := Qeq_bool costUSD 0 in
  let first :=
    match clm with
    | Some k =>
        if zero then (false, d)
        else settle_on org conv
               (first_msg (fun m => if real_model m then 1 else 0)
                  (List.filter (fun m => eqv (m_claim m) (Some k) && not_synthetic m) (messages d)))
               (fun _ => costUSD) d
    | None => (false, d)
    end in
  if fst first || zero then snd first
  else snd (settle_on org conv
              (first_msg rank2 (List.filter (fun m => (m_org m =? org) && (m_conv m =? conv)) (messages (snd first))))
              (fun c => Qplus (default 0%Q c) costUSD) (snd first)).

Definition SettleClaimCostSystem (org conv : Z) (clm : option Z) (costUSD : Q) (d : qdb) : ans unit :=
  match clm with None => (Err ErrClaimIDRequired, d) | Some _ => (Ok tt, settleClaimCostLump org conv clm costUSD d) end.

Definition settleCompletionCostAndClaim (tx org conv : Z) (s : cstatus) (costUSD : Q) (durationMs numTurns : Z) (d : qdb) : qdb :=
  releaseActiveClaimWithTelemetry tx org conv (claimOutcomeForStatus s) durationMs numTurns
    (settleClaimCostLump org conv (k_id <$> find (activeOf org conv) (claims d)) costUSD d).

(** ** The terminal write *)

Definition is_conv (org conv : Z) (r : conversation) : bool := (c_org r =? org) && (c_id r =? conv).

Definition complete_row (wall : Z) (s : cstatus) (summary out reason kind : string) (r : conversation) : conversation :=
  Conv (key r)
       (Park (Some s) (parked_at (park r)) (if s =? Open then None else park_reason (park r)))
       noStop (Ending (Some wall) (nullIfEmpty out) (nullIfEmpty reason) (nullIfEmpty kind) summary)
       (queue r) (bound r).

Definition completeConversationFlip (wall org conv : Z) (s : cstatus) (summary out reason kind : string) (d : qdb) : ans conversation :=
  let l := update (is_conv org conv) (complete_row wall s summary out reason kind) (convs d) in
  match find (is_conv org conv) l with
  | Some r => (Ok r, set_convs l d)
  | None => (Err ErrNoSuchConversation, d)
  end.

Definition ValidateConversationEnding (s : string) : option cstatus :=
  if s =? "open"%string then Some Open else if s =? "failed"%string then Some Failed else None.

Definition CompleteForClaimSystem (tx now wall org : Z) (conv clm : option Z) (st : string) (costUSD : Q)
    (durationMs numTurns : Z) (summary out reason kind : string) (d : qdb) : ans conversation :=
  match ValidateConversationEnding st with
  | None => (Err ErrInvalidConversationEnding, d)
  | Some s =>
      fenced now d org conv clm (fun c k =>
        match completeConversationFlip wall org c s summary out reason kind
                (settleCompletionCostAndClaim tx org c s costUSD durationMs numTurns d) with
        | (Ok r, d') => (Ok r, d')
        | (Err e, _) => (Err e, d)
        end)
  end.

(** ** Parks *)

Record parking := Parking { Deliberate : bool; Reason : string; ResultSummary : string }.
Definition ParkIdle : parking := Parking false "idle" "".
Definition ParkStopped (reason summary : string) : parking := Parking true reason summary.
Definition ClaimOutcome (p : parking) : string := if Deliberate p then "cancelled" else "parked".

(** The reason a pending stop records, whatever the caller passed. *)
Definition stop_reason_of (r : conversation) : string :=
  match stop_requested_reason (stop r) with
  | Some s => s
  | None => if isNull (stop_requested_by (stop r)) then "system_cancelled" else "user_cancelled"
  end.

Definition park_row (wall : Z) (p : parking) (r : conversation) : conversation :=
  Conv (key r)
       (Park (Some Open) (coalesce (parked_at (park r)) (Some wall))
             (if isNull (stop_requested_at (stop r)) then coalesce (nullIfEmpty (Reason p)) (park_reason (park r))
              else Some (stop_reason_of r)))
       noStop
       (Ending (completed_at (ending r)) (outcome (ending r)) (outcome_reason (ending r)) (failure_kind (ending r))
               (default (result_summary (ending r)) (nullIfEmpty (ResultSummary p))))
       (queue r) (bound r).

Definition park_where (org conv : Z) (p : parking) (r : conversation) : bool :=
  is_conv org conv r && UnsettledConversationSQL r && (Deliberate p || negb (status (park r) =? Some Open)).

Definition parkOpen (wall org conv : Z) (p : parking) (d : qdb) : bool * qdb :=
  (existsb (park_where org conv p) (convs d), set_convs (update (park_where org conv p) (park_row wall p) (convs d)) d).

Definition ParkOpenForClaimSystem (tx now wall org : Z) (conv clm : option Z) (p : parking) (d : qdb) : ans bool :=
  fenced now d org conv clm (fun c k =>
    let (flipped, d') := parkOpen wall org c p d in
    (Ok flipped, if flipped then releaseActiveClaim tx org c (ClaimOutcome p) d' else d')).

(** ** The infrastructure failure *)

Definition fail_row (wall : Z) (kind : string) (r : conversation) : conversation :=
  Conv (key r) (Park (Some Failed) (parked_at (park r)) (park_reason (park r))) noStop
       (Ending (coalesce (completed_at (ending r)) (Some wall)) (outcome (ending r)) (outcome_reason (ending r))
               (nullIfEmpty kind) (result_summary (ending r)))
       (queue r) (bound r).

Definition markFailedIfActive (wall org conv : Z) (kind : string) (d : qdb) : bool * qdb :=
  let p r := is_conv org conv r && UnsettledConversationSQL r in
  (existsb p (convs d), set_convs (update p (fail_row wall kind) (convs d)) d).

Definition MarkFailedIfActiveForClaimSystem (tx now wall org : Z) (conv clm : option Z) (kind : string) (d : qdb) : ans bool :=
  fenced now d org conv clm (fun c k =>
    let (flipped, d') := markFailedIfActive wall org c kind d in
    (Ok flipped, if flipped then releaseActiveClaim tx org c "failed" d' else d')).

(** ** Stop requests *)

Definition stop_row (tx : Z) (by_ reason : string) (r : conversation) : conversation :=
  Conv (key r) (park r)
       (if isNull (stop_requested_at (stop r)) then Stop (Some tx) (nullIfEmpty by_) (nullIfEmpty reason) else stop r)
       (ending r) (queue r) (bound r).

Definition writeStopIntent (tx org conv : Z) (by_ reason : string) (d : qdb) : bool * qdb :=
  let p r := is_conv org conv r && UnsettledConversationSQL r in
  (existsb p (convs d), set_convs (update p (stop_row tx by_ reason) (convs d)) d).

Definition RequestStopSystem (tx org conv : Z) (by_ reason : string) (d : qdb) : ans bool :=
  let (b, d') := writeStopIntent tx org conv by_ reason d in (Ok b, d').

Definition RequestStopForClaimSystem (tx now org : Z) (conv clm : option Z) (reason : string) (d : qdb) : ans bool :=
  fenced now d org conv clm (fun c _ => let (b, d') := writeStopIntent tx org c "" reason d in (Ok b, d')).

(** ** The wake *)

(** ORDER BY claimed_at DESC, released_at DESC NULLS FIRST, id DESC *)
Definition nearer (a b : claim) : bool :=
  (claimed_at b <? claimed_at a)
  || ((claimed_at a =? claimed_at b)
      && match released_at a, released_at b with
         | None, Some _ => true
         | Some _, None => false
         | Some x, Some y => (y <? x) || ((x =? y) && (k_id b <? k_id a))
         | None, None => k_id b <? k_id a
         end).

Fixpoint nearest (l : list claim) : option claim :=
  match l with
  | [] => None
  | a :: l' => match nearest l' with Some b => Some (if nearer a b then a else b) | None => Some a end
  end.

Definition newestExecutor (d : qdb) (org conv : Z) : option string :=
  executor_id <$> nearest (List.filter (fun cl => (k_org cl =? org) && (k_conv cl =? conv)) (claims d)).

Definition PriorClaimExecutorSystem (d : qdb) (org conv clm : Z) : string :=
  default ""%string (executor_id <$> nearest (List.filter (fun cl => (k_org cl =? org) && (k_conv cl =? conv) && negb (k_id cl =? clm)) (claims d))).

Definition conversationRunCalledOff (d : qdb) (org conv : Z) : bool :=
  match find (is_conv org conv) (convs d) with
  | None => false
  | Some r =>
      match run_of d r with
      | Some br => (b_org br =? c_org r) && (cancel_requested br || (b_status br =? Cancelled))
      | None => false
      end
  end.

(** tf.blueprint_run_is_running *)
Definition blueprint_run_is_running (d : qdb) (run : option Z) (org : Z) : bool :=
  match run with
  | None => false
  | Some i => existsb (fun b => (b_id b =? i) && (b_org b =? org) && (b_status b =? Running)) (runs d)
  end.

Definition wake_row (tx : Z) (preferred : option string) (r : conversation) : conversation :=
  Conv (key r) (Park None None None) noStop (ending r) (Queue (Some tx) None preferred) (bound r).

Definition wake_where (d : qdb) (org conv : Z) (calledOff : bool) (r : conversation) : bool :=
  is_conv org conv r && isNull (ended_at (bound r)) && (status (park r) =? Some Open) && negb calledOff
  && (isNull (completed_at (ending r)) || negb (blueprint_run_is_running d (blueprint_run_id (key r)) (c_org r))).

Definition MarkQueuedForResume (tx org conv : Z) (d : qdb) : ans bool :=
  match find (is_conv org conv) (convs d) with
  | None => (Ok false, d)
  | Some _ =>
      let p := wake_where d org conv (conversationRunCalledOff d org conv) in
      let flipped := existsb p (convs d) in
      let d' := set_convs (update p (wake_row tx (newestExecutor d org conv)) (convs d)) d in
      (Ok flipped, if flipped then releaseActiveClaim tx org conv "requeued" d' else d')
  end.

Definition ClearNextAttempt (org : Z) (conv : option Z) (d : qdb) : ans unit :=
  match conv with
  | None => (Ok tt, d)
  | Some c =>
      (Ok tt, set_convs (update (fun r => is_conv org c r && negb (isNull (next_attempt_at (queue r))))
        (fun r => Conv (key r) (park r) (stop r) (ending r) (Queue (queued_at (queue r)) None (preferred_executor_id (queue r))) (bound r))
        (convs d)) d)
  end.

(** ** The claim columns an engagement writes *)

Definition claim_as (executor : string) (boot : Z) (cl : claim) : claim :=
  Claim (k_id cl) (k_org cl) (k_conv cl) executor boot (claimed_at cl) (released_at cl) (lease_expires_at cl)
        (k_outcome cl) (phase cl) (cred_pubkey cl) (last_activity_at cl) (current_op cl) (last_checkpoint_at cl)
        (duration_ms cl) (num_turns cl)
        (peak_mem_mb cl) (cpu_usec cl).

Definition SetExecutorForClaimSystem (now org : Z) (conv clm : option Z) (executor : string) (boot : Z) (d : qdb) : ans unit :=
  fenced now d org conv clm (fun c k => (Ok tt, set_claims (update (names org c k) (claim_as executor boot) (claims d)) d)).

Definition DefaultClaimLease : Z := 75 * second.

(** The unfenced stamp: re-stamps the active claim, or mints one when there is
    none, whatever the conversation's status. *)
Definition SetExecutorSystem (newID tx now org conv : Z) (executor : string) (boot : Z) (d : qdb) : ans unit :=
  if executor =? ""%string then (Ok tt, releaseActiveClaim tx org conv "requeued" d)
  else if existsb (activeOf org conv) (claims d)
  then (Ok tt, set_claims (update (activeOf org conv) (claim_as executor boot) (claims d)) d)
  else (Ok tt, set_claims (Claim newID org conv executor boot tx None (Some (now + DefaultClaimLease)) None None None None None None None None None None
                           :: claims d) d).

Definition with_phase (p : option string) (cl : claim) : claim :=
  Claim (k_id cl) (k_org cl) (k_conv cl) (executor_id cl) (boot_epoch cl) (claimed_at cl) (released_at cl)
        (lease_expires_at cl) (k_outcome cl) p (cred_pubkey cl) (last_activity_at cl) (current_op cl)
        (last_checkpoint_at cl) (duration_ms cl) (num_turns cl)
        (peak_mem_mb cl) (cpu_usec cl).

Definition SetActiveClaimPhaseSystem (org conv : Z) (p : string) (d : qdb) : ans unit :=
  (Ok tt, set_claims (update (activeOf org conv) (with_phase (nullIfEmpty p)) (claims d)) d).

Definition SetClaimPhaseSystem (now org : Z) (conv clm : option Z) (p : string) (d : qdb) : ans unit :=
  fenced now d org conv clm (fun c k => (Ok tt, set_claims (update (names org c k) (with_phase (nullIfEmpty p)) (claims d)) d)).

Definition with_stats (peakMemMB cpuUsec : option Z) (cl : claim) : claim :=
  Claim (k_id cl) (k_org cl) (k_conv cl) (executor_id cl) (boot_epoch cl) (claimed_at cl) (released_at cl)
        (lease_expires_at cl) (k_outcome cl) (phase cl) (cred_pubkey cl) (last_activity_at cl) (current_op cl)
        (last_checkpoint_at cl) (duration_ms cl) (num_turns cl) peakMemMB cpuUsec.

(** Keyed on the claim alone, released or not: the teardown that measures the
    sandbox runs after the release. *)
Definition RecordClaimSandboxStatsSystem (org clm : Z) (peakMemMB cpuUsec : option Z) (d : qdb) : ans unit :=
  (Ok tt, set_claims (update (fun cl => (k_org cl =? org) && (k_id cl =? clm)) (with_stats peakMemMB cpuUsec) (claims d)) d).

(** ** Boundaries *)

Definition EndedDelegated : string := "delegated".
Definition EndedStepAdvanced : string := "step_advanced".
Definition IsEndedReason (s : string) : bool :=
  existsb (fun x => x =? s) ["requeued"; EndedDelegated; "taken_over"; EndedStepAdvanced; "team_archived"; "failed"]%string.

Definition end_row (wall : Z) (reason : string) (r : conversation) : conversation :=
  Conv (key r) (park r) (stop r) (ending r) (queue r) (Bound (archived_at (bound r)) (Some wall) (Some reason)).

Definition endSettledConversationsForTask (wall org t : Z) (d : qdb) : qdb :=
  set_convs (update (fun r => of_task org t r && isNull (ended_at (bound r)) && isNull (parent_conversation_id (key r))
                              && SettledConversationSQL r) (end_row wall EndedDelegated) (convs d)) d.

Definition endConversationsScoped (wall org : Z) (reason : string) (scope : conversation -> bool) (d : qdb) : qdb :=
  set_convs (update (fun r => (c_org r =? org) && scope r && isNull (ended_at (bound r)) && isNull (parent_conversation_id (key r)))
                    (end_row wall reason) (convs d)) d.

Definition endConversationsForTask (wall org : Z) (t : option Z) (reason : string) (d : qdb) : ans unit :=
  if negb (IsEndedReason reason) then (Err ErrInvalidEndedReason, d)
  else match t with
       | None => (Ok tt, d)
       | Some t => (Ok tt, endConversationsScoped wall org reason (fun r => eqv (task_id (key r)) (Some t)) d)
       end.

Definition EndConversationsForTeamSystem (wall org : Z) (g : option Z) (reason : string) (d : qdb) : ans unit :=
  if negb (IsEndedReason reason) then (Err ErrInvalidEndedReason, d)
  else match g with
       | None => (Ok tt, d)
       | Some g => (Ok tt, endConversationsScoped wall org reason (fun r => eqv (team_id (key r)) (Some g)) d)
       end.

Definition endConversation (wall org : Z) (conv : option Z) (reason : string) (d : qdb) : ans unit :=
  if negb (IsEndedReason reason) then (Err ErrInvalidEndedReason, d)
  else match conv with
       | None => (Ok tt, d)
       | Some c => (Ok tt, set_convs (update (fun r => is_conv org c r && isNull (ended_at (bound r))) (end_row wall reason) (convs d)) d)
       end.

(** ** The mint *)

(** The caller's row: [n_creator] and [n_run] are [None] for an empty string. *)
Record newConv := NewConv {
  n_id : Z; n_task : Z; n_run : option Z; n_step : option Z; n_trigger : string; n_creator : option Z; n_preferred : string }.

(** The all-zero uuid ending in 0100, which local mode carries for its one user. *)
Definition LocalDefaultUserID : Z := 256.
Definition LocalDefaultTeamID : Z := 16.

Definition AssertBlueprintStepIndexed (n : newConv) : bool := isNull (n_run n) || negb (isNull (n_step n)).

Definition manualCreatorMissing (c : option Z) : bool := isNull c || (c =? Some LocalDefaultUserID).

Definition task_team (d : qdb) (org t : Z) : option Z :=
  match find (fun x => (t_id x =? t) && (t_org x =? org)) (tasks d) with Some x => t_team x | None => None end.

Definition minted_row (tx org : Z) (n : newConv) (d : qdb) : conversation :=
  let event := n_trigger n =? "event"%string in
  Conv (ConvKey (n_id n) org (Some (n_task n)) (task_team d org (n_task n)) (n_run n) (n_step n) None
          (if event then "event" else "manual") (if event then None else n_creator n) tx)
       (Park None None None) noStop (Ending None None None None "")
       (Queue (Some tx) None (nullIfEmpty (n_preferred n))) (Bound None None None).

Definition insertConversation (tx org : Z) (n : newConv) (d : qdb) : ans conversation :=
  if negb (AssertBlueprintStepIndexed n) then (Err ErrBlueprintStepUnindexed, d)
  else if negb (n_trigger n =? "event"%string) && manualCreatorMissing (n_creator n) then (Err ErrManualCreatorRequired, d)
  else if existsb (fun r => c_id r =? n_id n) (convs d) then (Err ErrUniqueViolation, d)
  else (Ok (minted_row tx org n d), set_convs (minted_row tx org n d :: convs d) d).

(** ** The firing *)

Record newRun := NewRun {
  nr_id : Z; nr_task : Z; nr_trigger_type : string; nr_trigger : option Z; nr_event : option Z; nr_status : option rstatus }.

Definition find_task (d : qdb) (org t : Z) : option task := find (fun x => (t_org x =? org) && (t_id x =? t)) (tasks d).
Definition task_closed (x : task) : bool := (t_status x =? "done"%string) || (t_status x =? "dismissed"%string).

(** open and the team, read under the task's row lock *)
Definition lockFiringTask (d : qdb) (org t : Z) : res qerr (bool * option Z) :=
  match find_task d org t with
  | None => Err ErrNoSuchTask
  | Some x => Ok (negb (task_closed x) && isNull (close_deferred_event_id x), t_team x)
  end.

(** The local-mode sentinel names the organization's oldest team; [teams] is in creation order. *)
Definition resolveTeamBind (d : qdb) (org g : Z) : res qerr Z :=
  if negb (g =? LocalDefaultTeamID) then Ok g
  else match find (fun x => tm_org x =? org) (teams d) with Some x => Ok (tm_id x) | None => Err ErrNoCanonicalTeam end.

Definition lockFiringTeam (d : qdb) (org : Z) (g : option Z) : bool :=
  match g with
  | None => false
  | Some g => match find (fun x => (tm_org x =? org) && (tm_id x =? g)) (teams d) with
              | Some x => negb (isNull (deleted_at x))
              | None => false
              end
  end.

Definition insertFiringRun (tx org : Z) (n : newRun) (event : bool) (creator : option Z) (d : qdb) : res qerr (bool * qdb) :=
  refuse? negb event && manualCreatorMissing creator with ErrManualCreatorRequired ;;
  let r := Run (nr_id n) org (nr_task n) (if event then nr_event n else None) (nr_trigger n) tx
               (default Running (nr_status n)) false 0 None None None in
  if event && existsb (fun b => eqv (triggering_event_id b) (nr_event n) && eqv (b_trigger b) (nr_trigger n)) (runs d)
  then Ok (false, d)
  else refuse? existsb (fun b => b_id b =? nr_id n) (runs d) with ErrUniqueViolation ;;
  refuse? (b_status r =? Running) && existsb (fun b => (b_org b =? org) && (b_task b =? nr_task n) && (b_status b =? Running)) (runs d)
  with ErrTaskBusyActiveRun ;;
  Ok (true, set_runs (r :: runs d) d).

Definition set_team (g : option Z) (x : task) : task :=
  Task (t_id x) (t_org x) (t_status x) (close_deferred_event_id x) (coalesce g (t_team x)) (claimed_by_user_id x)
       (claimed_by_agent_id x) (snooze_until x).

Definition setOwnerTeam (org t : Z) (g : option Z) (d : qdb) : qdb :=
  set_tasks (update (fun x => (t_org x =? org) && (t_id x =? t)) (set_team g) (tasks d)) d.

Definition pgClaimStageExpr (s : string) : string :=
  if (s =? "queued"%string) || (s =? "snoozed"%string) then "in_progress" else s.

Definition stampAgentClaimIfUnclaimed (org t agent : Z) (g : option Z) (d : qdb) : bool * qdb :=
  let p x := (t_org x =? org) && (t_id x =? t) && isNull (claimed_by_user_id x)
             && negb (eqv (claimed_by_agent_id x) (Some agent)) && negb (task_closed x) in
  (existsb p (tasks d),
   set_tasks (update p (fun x => Task (t_id x) (t_org x) (pgClaimStageExpr (t_status x)) (close_deferred_event_id x)
                                      (coalesce g (t_team x)) (claimed_by_user_id x) (Some agent) None) (tasks d)) d).

Definition opt_bind_team (d : qdb) (org : Z) (g : option Z) : res qerr (option Z) :=
  match g with None => Ok None | Some g => let? t := resolveTeamBind d org g in Ok (Some t) end.

(** inserted, claimed and the step minted; the ended rows are in the database. *)
Definition CreateRunWithFirstStepSystem (tx wall org : Z) (n : newRun) (agent : option (Z * option Z)) (ownerTeam : option Z)
    (first : newConv) (d : qdb) : ans (bool * bool * option conversation) :=
  let event := nr_trigger_type n =? "event"%string in
  let body : res qerr (bool * bool * option conversation * qdb) :=
    refuse? nr_trigger_type n =? ""%string with ErrBlueprintRunTriggerTypeRequired ;;
    refuse? event && (isNull (nr_event n) || isNull (nr_trigger n)) with ErrBlueprintRunFenceRequiresEventAndTrigger ;;
    let? (open, taskTeam) := lockFiringTask d org (nr_task n) in
    let? owner := opt_bind_team d org ownerTeam in
    let archived := lockFiringTeam d org (coalesce owner taskTeam) in
    let? (inserted, d1) := insertFiringRun tx org n event (n_creator first) d in
    if negb inserted then Ok (false, false, None, d)
    else refuse? event && negb open with ErrTaskClosedForEventRun ;;
    refuse? archived with ErrTeamArchived ;;
    let d2 := endSettledConversationsForTask wall org (nr_task n) d1 in
    let d3 := match owner with None => d2 | Some _ => setOwnerTeam org (nr_task n) owner d2 end in
    let? (claimed, d4) :=
      match agent with
      | None => Ok (false, d3)
      | Some (a, g) => let? g := opt_bind_team d org g in Ok (stampAgentClaimIfUnclaimed org (nr_task n) a g d3)
      end in
    match insertConversation tx org first d4 with
    | (Ok r, d5) => Ok (true, claimed, Some r, d5)
    | (Err e, _) => Err e
    end in
  match body with Ok (i, c, r, d') => (Ok (i, c, r), d') | Err e => (Err e, d) end.

(** ** The advance *)

Definition step_to (to : Z) (b : brun) : brun :=
  Run (b_id b) (b_org b) (b_task b) (triggering_event_id b) (b_trigger b) (b_started b) (b_status b) (cancel_requested b)
      to (abort_reason b) (aborted_at_step b) (b_completed b).

Definition advanceRunCurrentStep (org run from to : Z) (d : qdb) : bool * qdb :=
  let p b := (b_org b =? org) && (b_id b =? run) && (b_status b =? Running) && (current_step_index b =? from) in
  (existsb p (runs d), set_runs (update p (step_to to) (runs d)) d).

Definition AdvanceRunToStepSystem (tx wall org from : Z) (concluded : option Z) (next : newConv) (d : qdb) :
    ans (bool * option conversation) :=
  match n_run next, n_step next with
  | None, _ => (Err ErrNoSuchBlueprintRun, d)
  | _, None => (Err ErrBlueprintStepUnindexed, d)
  | Some run, Some to =>
      let (ok, d1) := advanceRunCurrentStep org run from to d in
      if negb ok then (Ok (false, None), d)
      else let (e, d2) := endConversation wall org concluded EndedStepAdvanced d1 in
           match insertConversation tx org next d2 with
           | (Ok r, d3) => (Ok (true, Some r), d3)
           | (Err e, _) => (Err e, d)
           end
  end.

(** ** The terminal *)

Definition orphanSummary : string := "Stopped: owning blueprint run reached a terminal state".

Definition orphan_row (tx : Z) (r : conversation) : conversation :=
  Conv (key r) (Park (Some Open) (coalesce (parked_at (park r)) (Some tx)) (coalesce (park_reason (park r)) (Some "blueprint_terminal"%string)))
       noStop
       (Ending (completed_at (ending r)) (outcome (ending r)) (outcome_reason (ending r)) (failure_kind (ending r))
               (default orphanSummary (nullIfEmpty (result_summary (ending r)))))
       (queue r) (bound r).

Definition midflight_child (org run : Z) (r : conversation) : bool :=
  (c_org r =? org) && eqv (blueprint_run_id (key r)) (Some run) && isNull (status (park r)).

Definition claims_of (ids : list Z) (cl : claim) : bool := existsb (fun i => i =? k_conv cl) ids && unreleased cl.

Definition childIDs (org run : Z) (d : qdb) : list Z := map c_id (List.filter (midflight_child org run) (convs d)).

Definition parkOrphanedChildConversations (tx org run : Z) (d : qdb) : list Z * qdb :=
  (childIDs org run d, set_convs (update (midflight_child org run) (orphan_row tx) (convs d)) d).

Definition parkOrphanedChildConversationsWithClaims (tx org run : Z) (d : qdb) : qdb :=
  let (ids, d') := parkOrphanedChildConversations tx org run d in
  set_claims (update (claims_of ids) (release tx "cancelled") (claims d')) d'.

Definition releaseParkedChildClaims (tx org : Z) (ids : list Z) (d : qdb) : qdb :=
  set_claims (update (fun cl => (k_org cl =? org) && claims_of ids cl) (release tx "cancelled") (claims d)) d.

Definition run_to (tx : Z) (s : rstatus) (reason : option string) (step : option Z) (b : brun) : brun :=
  Run (b_id b) (b_org b) (b_task b) (triggering_event_id b) (b_trigger b) (b_started b) s (cancel_requested b)
      (current_step_index b) reason step (Some tx).

(** [adjacent] is the app-pool path: the children's claims are released on a
    connection of their own while the transaction that parks them is still
    open and holds their rows; [commits] says whether that transaction then
    commits. *)
Definition markBlueprintRunStatus (tx org : Z) (run : option Z) (s : rstatus) (reason : string) (step : option Z)
    (adjacent commits : bool) (d : qdb) : ans bool :=
  match run with
  | None => (Ok false, d)
  | Some i =>
      let p b := (b_org b =? org) && (b_id b =? i) && (b_status b =? Running) in
      let changed := existsb p (runs d) in
      let d1 := set_runs (update p (run_to tx s (nullIfEmpty reason) step) (runs d)) d in
      if changed && Terminal s
      then if negb adjacent then (Ok true, parkOrphanedChildConversationsWithClaims tx org i d1)
           else let (ids, d2) := parkOrphanedChildConversations tx org i d1 in
                (Ok true, releaseParkedChildClaims tx org ids (if commits then d2 else d))
      else (Ok changed, if adjacent && negb commits then d else d1)
  end.

(** ** Reopening and the cancel request *)

Definition reopen_run (b : brun) : brun :=
  Run (b_id b) (b_org b) (b_task b) (triggering_event_id b) (b_trigger b) (b_started b) Running (cancel_requested b)
      (current_step_index b) None None None.

Definition withdraw_row (r : conversation) : conversation :=
  Conv (key r) (park r) (stop r) (Ending None None None (failure_kind (ending r)) (result_summary (ending r))) (queue r) (bound r).

Definition reopen_where (d : qdb) (org run c : Z) (b : brun) : bool :=
  (b_org b =? org) && (b_id b =? run) && (b_status b =? Aborted)
  && existsb (fun t => (t_org t =? b_org b) && (t_id t =? b_task b) && negb (task_closed t)) (tasks d)
  && existsb (fun r => (c_org r =? b_org b) && (c_id r =? c) && eqv (blueprint_run_id (key r)) (Some (b_id b))
                       && eqv (blueprint_step_index (key r)) (Some (current_step_index b))) (convs d).

Definition ReopenRunForResume (org : Z) (run stepConv : option Z) (d : qdb) : ans bool :=
  match run, stepConv with
  | Some i, Some c =>
      let p := reopen_where d org i c in
      if existsb p (runs d)
      then (Ok true,
            set_convs (update (fun r => is_conv org c r && eqv (blueprint_run_id (key r)) (Some i)) withdraw_row (convs d))
                      (set_runs (update p reopen_run (runs d)) d))
      else (Ok false, d)
  | _, _ => (Ok false, d)
  end.

Definition cancel_run (b : brun) : brun :=
  Run (b_id b) (b_org b) (b_task b) (triggering_event_id b) (b_trigger b) (b_started b) (b_status b) true
      (current_step_index b) (abort_reason b) (aborted_at_step b) (b_completed b).

Definition RequestRunCancelSystem (org : Z) (run : option Z) (d : qdb) : ans bool :=
  match run with
  | None => (Ok false, d)
  | Some i =>
      let p b := (b_org b =? org) && (b_id b =? i) && (b_status b =? Running) && negb (cancel_requested b) in
      (Ok (existsb p (runs d)), set_runs (update p cancel_run (runs d)) d)
  end.

(** ** The follow-up's wake

    [wakeParked] of internal/delegate/followup.go: the flip, and for a
    conversation read as concluded the reopening of its aborted run, in one
    transaction.  A flip that loses only re-reads the conversation to choose
    between two answers; it writes nothing, and answers false here. *)
Definition wakeParked (tx org conv : Z) (concluded : bool) (run : option Z) (d : qdb) : ans bool :=
  match MarkQueuedForResume tx org conv d with
  | (Ok true, d1) =>
      if concluded && negb (isNull run)
      then match ReopenRunForResume org run (Some conv) d1 with (Ok _, d2) => (Ok true, d2) | (Err e, _) => (Err e, d) end
      else (Ok true, d1)
  | r => r
  end.
