(* ===== verification/ConvQueue.v ===== *)
(** * The conversation queue

    Models internal/db/postgres/conversation_queue.go: the claim of the next
    conversation with its placement tiers, fairness order, caps and retry on a
    lost race, the lease renewal and its re-acquisition, the settlement of
    stops nobody drives, the take-over and the releases of lapsed claims, the
    hand-backs, the boot reset and the boot reconciliation with its two
    checkers, and the fleet reads.

    A statement reads a snapshot [snap] taken when it starts and writes the
    committed database [cur].  Under READ COMMITTED a row it locks is read
    again as committed, and the WHERE clause is tested again on that version;
    every other table the clause reads is still the snapshot's.  Rows locked by
    another transaction are an arbitrary [skip] list. *)

From S2P Require Import Prelude ConvRow ConvStore.
#[local] Open Scope Z_scope.
#[local] Open Scope q_scope.

(** ** Placement and order *)

Record ClaimPlacement := Placement { Enabled : bool; AgingInterval : Z; Liveness : Z }.

Definition drainingSQL (i : instance) : bool := draining i || (drain_until_epoch i =? Some (i_boot i)).

(** The stamped executor is a live claimant: a fresh heartbeat, not draining, not gated. *)
Definition live_claimant (tx liveness : Z) (d : qdb) (e : string) : bool :=
  existsb (fun i => (i_id i =? e) && (tx - liveness <=? last_heartbeat_at i) && negb (drainingSQL i)
                    && negb (dispatch_gated i =? Some true)) (instances d).

Definition tier1 (executorID : string) (r : conversation) : bool := eqv (preferred_executor_id (queue r)) (Some executorID).

Definition placed (tx : Z) (pl : ClaimPlacement) (executorID : string) (d : qdb) (r : conversation) : bool :=
  negb (Enabled pl) || tier1 executorID r
  || match preferred_executor_id (queue r) with
     | None => true
     | Some e => (default (started_at (key r)) (queued_at (queue r)) <? tx - AgingInterval pl)
                 || negb (live_claimant tx (Liveness pl) d e)
     end.

(** org_active: an unreleased claim is an occupied slot. *)
Definition org_active (d : qdb) (org : Z) : Z :=
  Z.of_nat (length (List.filter (fun cl => (k_org cl =? org) && unreleased cl) (claims d))).

Definition cap_of (d : qdb) (org : Z) : option Z :=
  match find (fun x => fst x =? org) (caps d) with Some (_, Some c) => if c <=? 0 then None else Some c | _ => None end.

Definition under_cap (d : qdb) (r : conversation) : bool :=
  match cap_of d (c_org r) with None => true | Some c => org_active d (c_org r) <? c end.

Definition claim_where (tx now : Z) (pl : ClaimPlacement) (executorID : string) (d : qdb) (r : conversation) : bool :=
  eligibleForDrivingSQL now d r && blueprintDrivableSQL d r && under_cap d r && placed tx pl executorID d r.

(** ORDER BY the tier (only with placement), the organization's occupied slots, started_at, id *)
Definition claim_le (pl : ClaimPlacement) (executorID : string) (d : qdb) (a b : conversation) : bool :=
  let tier r := if Enabled pl && tier1 executorID r then 0 else 1 in
  let k r := [tier r; org_active d (c_org r); started_at (key r); c_id r] in
  (fix lex (x y : list Z) : bool :=
     match x, y with
     | a :: x, b :: y => (a <? b) || ((a =? b) && lex x y)
     | _, _ => true
     end) (k a) (k b).

Fixpoint insert_by {A} (le : A -> A -> bool) (x : A) (l : list A) : list A :=
  match l with [] => [x] | y :: l' => if le x y then x :: y :: l' else y :: insert_by le x l' end.
Fixpoint sort_by {A} (le : A -> A -> bool) (l : list A) : list A :=
  match l with [] => [] | x :: l' => insert_by le x (sort_by le l') end.

(** ** Claiming *)

(** The first row of the ordered scan that is not locked elsewhere and whose
    committed version still satisfies the clause. *)
Definition candidate (tx now : Z) (pl : ClaimPlacement) (executorID : string) (skip : list Z) (snap cur : qdb) : option conversation :=
  (fix go (l : list conversation) : option conversation :=
     match l with
     | [] => None
     | r :: l' =>
         if existsb (fun i => i =? c_id r) skip then go l'
         else match find (fun x => c_id x =? c_id r) (convs cur) with
              | Some r' => if claim_where tx now pl executorID snap r' then Some r' else go l'
              | None => go l'
              end
     end) (sort_by (claim_le pl executorID snap) (List.filter (claim_where tx now pl executorID snap) (convs snap))).

(** The un-park: a row taken off its park or off its wait is mid-flight again. *)
Definition unpark_row (tx : Z) (r : conversation) : conversation :=
  Conv (key r) (Park None None None) noStop (ending r)
       (Queue (if isNull (status (park r)) then queued_at (queue r) else Some tx) None (preferred_executor_id (queue r))) (bound r).

Definition unpark_where (c : Z) (r : conversation) : bool :=
  (c_id r =? c) && (negb (isNull (status (park r))) || negb (isNull (next_attempt_at (queue r)))).

Definition mint_claim (newID tx now lease : Z) (executorID : string) (boot : Z) (r : conversation) : claim :=
  Claim newID (c_org r) (c_id r) executorID boot tx None (Some (now + lease)) None None None None None None None None None None.

(** What the dispatcher is handed. *)
Record claimed := Claimed {
  cl_conv : Z; cl_org : Z; cl_claim : Z; cl_executor : string; cl_at : Z;
  Attempts : Z; SetupFailures : Z; LostEngagements : Z; UpstreamHandBacks : Z; JailLosses : Z;
  LastHandBackOutcome : string }.

(** ORDER BY released_at DESC, claimed_at DESC, id DESC over released claims *)
Definition released_later (a b : claim) : bool :=
  let t cl := default 0 (released_at cl) in
  (t b <? t a) || ((t a =? t b) && ((claimed_at b <? claimed_at a) || ((claimed_at a =? claimed_at b) && (k_id b <? k_id a)))).
Fixpoint last_released (l : list claim) : option claim :=
  match l with
  | [] => None
  | a :: l' => match last_released l' with Some b => Some (if released_later a b then a else b) | None => Some a end
  end.

Definition claim_report (snap : qdb) (r : conversation) (executorID : string) (newID tx : Z) : claimed :=
  Claimed (c_id r) (c_org r) newID executorID tx
    (1 + episodeHandBacksSQL snap r HandBackOutcomesSQL) (EpisodeSetupFailuresSQL snap r) (EpisodeLostEngagementsSQL snap r)
    (EpisodeUpstreamHandBacksSQL snap r) (EpisodeJailLossesSQL snap r)
    (default ""%string (match last_released (List.filter (fun cl => (k_conv cl =? c_id r) && negb (unreleased cl)) (claims snap)) with
                        | Some cl => k_outcome cl | None => None end)).

Inductive claimAnswer := Nothing | Conflict | Got (c : claimed).

(** One run of the statement.  The insert is refused by idx_claims_one_active
    when the committed table already holds an unreleased claim of the
    conversation, and the statement then writes nothing. *)
Definition claim_statement (newID tx now : Z) (executorID : string) (boot : Z) (pl : ClaimPlacement) (lease : Z)
    (skip : list Z) (snap cur : qdb) : claimAnswer * qdb :=
  match candidate tx now pl executorID skip snap cur with
  | None => (Nothing, cur)
  | Some r =>
      if activeClaimExistsSQL cur r then (Conflict, cur)
      else (Got (claim_report snap r executorID newID tx),
            set_claims (mint_claim newID tx now lease executorID boot r :: claims cur)
              (set_convs (update (unpark_where (c_id r)) (unpark_row tx) (convs cur)) cur))
  end.

(** What one attempt meets: its clock, its snapshot, the rows locked elsewhere,
    the committed database, and the id the insert draws. *)
Record view := View { v_tx : Z; v_now : Z; v_skip : list Z; v_snap : qdb; v_cur : qdb; v_new : Z }.

Definition claimRetryAttempts : nat := 2.

(** [world n] is what the n-th attempt meets; a lost race is retried. *)
Fixpoint claim_loop (tries n : nat) (executorID : string) (boot : Z) (pl : ClaimPlacement) (lease : Z) (world : nat -> view) :
    option claimed * qdb :=
  let v := world n in
  match claim_statement (v_new v) (v_tx v) (v_now v) executorID boot pl lease (v_skip v) (v_snap v) (v_cur v), tries with
  | (Conflict, d), O => (None, d)
  | (Conflict, _), S tries => claim_loop tries (S n) executorID boot pl lease world
  | (Nothing, d), _ => (None, d)
  | (Got c, d), _ => (Some c, d)
  end.

Definition ClaimNextConversation (executorID : string) (boot : Z) (pl : ClaimPlacement) (lease : Z) (world : nat -> view) :
    option claimed * qdb :=
  claim_loop claimRetryAttempts 0 executorID boot pl lease world.

(** ** Leases *)

Record ClaimRenewal := Renewal { ExpiresAt : Z; StopRequested : bool; StopRequestedBy : string }.
Record ClaimActivity := Activity { Idle : Z; Op : string; CheckpointAge : option Z }.

Definition renew_row (now lease : Z) (a : ClaimActivity) (cl : claim) : claim :=
  Claim (k_id cl) (k_org cl) (k_conv cl) (executor_id cl) (boot_epoch cl) (claimed_at cl) (released_at cl)
        (Some (now + lease)) (k_outcome cl) (phase cl) (cred_pubkey cl)
        (Some (now - Idle a)) (nullIfEmpty (Op a)) ((fun t => now - t) <$> CheckpointAge a) (duration_ms cl) (num_turns cl)
        (peak_mem_mb cl) (cpu_usec cl).

Definition renewal_of (now lease : Z) (d : qdb) (conv : Z) : ClaimRenewal :=
  match find (fun r => c_id r =? conv) (convs d) with
  | Some r => Renewal (now + lease) (negb (isNull (stop_requested_at (stop r)))) (default ""%string (stop_requested_by (stop r)))
  | None => Renewal (now + lease) false ""
  end.

(** A refusal seen as a lapse even when the claim is live again by the time it is classified. *)
Definition liveGuardRefusal (now : Z) (d : qdb) (org conv clm : Z) : qerr :=
  match claimRefusal now d org conv clm with None => ErrClaimLeaseExpired | Some e => e end.

Definition RenewClaimLeaseSystem (now org : Z) (conv clm : option Z) (lease : Z) (a : ClaimActivity) (d : qdb) : ans ClaimRenewal :=
  match conv, clm with
  | Some c, Some k =>
      let p cl := names org c k cl && claimLeaseLive now cl in
      if existsb p (claims d)
      then (Ok (renewal_of now lease d c), set_claims (update p (renew_row now lease a) (claims d)) d)
      else (Err (liveGuardRefusal now d org c k), d)
  | _, _ => (Err ErrClaimReleased, d)
  end.

Definition relet (now lease : Z) (cl : claim) : claim :=
  Claim (k_id cl) (k_org cl) (k_conv cl) (executor_id cl) (boot_epoch cl) (claimed_at cl) (released_at cl)
        (Some (now + lease)) (k_outcome cl) (phase cl) (cred_pubkey cl)
        (last_activity_at cl) (current_op cl) (last_checkpoint_at cl) (duration_ms cl) (num_turns cl)
        (peak_mem_mb cl) (cpu_usec cl).

Definition ReacquireClaimLeaseSystem (now org : Z) (conv clm : option Z) (executorID : string) (boot lease : Z) (d : qdb) : ans ClaimRenewal :=
  match conv, clm with
  | Some c, Some k =>
      let p cl := names org c k cl && (executor_id cl =? executorID) && (boot_epoch cl =? boot) && unreleased cl in
      if existsb p (claims d)
      then (Ok (renewal_of now lease d c), set_claims (update p (relet now lease) (claims d)) d)
      else (Err ErrClaimReleased, d)
  | _, _ => (Err ErrClaimReleased, d)
  end.

(** ** Settling the stops nobody drives *)

Definition ReactorGrace : Z := 60 * second.

Definition settleNoLiveClaimSQL (d : qdb) (r : conversation) : bool := negb (activeClaimExistsSQL d r).

Definition settleReleasedRecentlySQL (tx : Z) (d : qdb) (r : conversation) : bool :=
  existsb (fun cl => (k_conv cl =? c_id r) && match released_at cl with Some t => tx - ReactorGrace <? t | None => false end) (claims d).

Definition called (b : brun) : bool := (b_status b =? Running) && cancel_requested b.

(** The runs a settlement may cancel, minus the ones another writer holds. *)
Definition settle_runs (tx : Z) (scope : conversation -> bool) (skip : list Z) (d : qdb) : list Z :=
  map b_id (List.filter (fun b =>
    called b && negb (existsb (fun i => i =? b_id b) skip)
    && existsb (fun r => eqv (blueprint_run_id (key r)) (Some (b_id b)) && UnsettledConversationSQL r
                         && settleNoLiveClaimSQL d r
                         && (negb (isNull (stop_requested_at (stop r))) || negb (settleReleasedRecentlySQL tx d r)) && scope r)
               (convs d)) (runs d)).

(** The victims' clause on the committed version [r] of a row, over the
    statement's snapshot [snap] of the other tables. *)
Definition victim (tx : Z) (scope : conversation -> bool) (locked : list Z) (snap : qdb) (r : conversation) : bool :=
  let br := run_of snap r in
  let calledOff := match br with Some b => called b | None => false end in
  settleNoLiveClaimSQL snap r
  && (negb (isNull (stop_requested_at (stop r)))
      || (UnsettledConversationSQL r && calledOff && negb (settleReleasedRecentlySQL tx snap r)))
  && (match br with
      | None => true
      | Some b => negb (called b) || SettledConversationSQL r || existsb (fun i => i =? b_id b) locked
      end)
  && scope r.

Definition stop_words (r : conversation) (none : string) : string :=
  if isNull (stop_requested_at (stop r)) then none else stop_reason_of r.

Definition settle_row (tx : Z) (r : conversation) : conversation :=
  if SettledConversationSQL r
  then Conv (key r) (park r) noStop (ending r) (Queue (queued_at (queue r)) None (preferred_executor_id (queue r))) (bound r)
  else Conv (key r)
         (Park (Some Open) (coalesce (parked_at (park r)) (Some tx)) (Some (stop_words r "blueprint_cancelled")))
         noStop (ending r) (Queue (queued_at (queue r)) None (preferred_executor_id (queue r))) (bound r).

(** The run write of the settlement.  Where several settled steps belong to one
    run, Postgres leaves open which of them the update joins; it is the first
    here, and only the words recorded depend on it. *)
Definition settle_run (tx : Z) (victims : list conversation) (locked : list Z) (b : brun) : brun :=
  match find (fun r => eqv (blueprint_run_id (key r)) (Some (b_id b)) && negb (SettledConversationSQL r)) victims with
  | Some r =>
      if called b && existsb (fun i => i =? b_id b) locked
      then run_to tx Cancelled (Some (stop_words r "cancelled")) (blueprint_step_index (key r)) b else b
  | None => b
  end.

Record SettledStop := Settled { s_org : Z; s_conv : Z; s_run : option Z; s_step : option Z }.

(** Exactly one of a run's settled conversations names the run it cancelled. *)
Fixpoint settle_report (cancelled seen : list Z) (l : list conversation) : list SettledStop :=
  match l with
  | [] => []
  | r :: l' =>
      let run := blueprint_run_id (key r) in
      let fresh := match run with Some i => negb (existsb (fun x => x =? i) seen) && existsb (fun x => x =? i) cancelled | None => false end in
      Settled (c_org r) (c_id r) (if fresh then run else None) (blueprint_step_index (key r))
        :: settle_report cancelled (match run with Some i => i :: seen | None => seen end) l'
  end.

(** [view1] and [snap] are what the two statements read, [cur] what the second
    writes. *)
Definition settleUnclaimedStops (tx : Z) (scope : conversation -> bool) (skipRuns skip : list Z) (view1 snap cur : qdb) :
    list SettledStop * qdb :=
  let locked := settle_runs tx scope skipRuns view1 in
  let p r := victim tx scope locked snap r && negb (existsb (fun i => i =? c_id r) skip)
             && existsb (fun r' => (c_id r' =? c_id r) && victim tx scope locked snap r') (convs snap) in
  let victims := sort_by (fun a b => c_id a <=? c_id b) (List.filter p (convs cur)) in
  let runs' := map (settle_run tx victims locked) (runs cur) in
  let cancelled := map b_id (List.filter (fun b => existsb (fun r => eqv (blueprint_run_id (key r)) (Some (b_id b)) && negb (SettledConversationSQL r)) victims
                                                   && called b && existsb (fun i => i =? b_id b) locked) (runs cur)) in
  (settle_report cancelled [] victims, set_runs runs' (set_convs (update p (settle_row tx) (convs cur)) cur)).

Definition SettleUnclaimedStopsSystem (tx : Z) := settleUnclaimedStops tx (fun _ => true).
Definition SettleUnclaimedStopsForTaskSystem (tx org t : Z) := settleUnclaimedStops tx (of_task org t).

(** ** Lapsed claims *)

Record ClaimRef := Ref { ClaimID : Z; OrgID : Z; ConversationID : Z }.
Definition ref_of (cl : claim) : ClaimRef := Ref (k_id cl) (k_org cl) (k_conv cl).

(** The number of lapsed claims and how long ago the oldest lapsed. *)
Definition ExpiredClaimsSystem (now : Z) (d : qdb) : Z * Z :=
  let l := List.filter (claimLeaseLapsed now) (claims d) in
  (Z.of_nat (length l), match map (fun cl => default now (lease_expires_at cl)) l with
                        | [] => 0
                        | e :: es => now - fold_right Z.min e es
                        end).

Definition lease_le (a b : claim) : bool :=
  let e cl := default 0 (lease_expires_at cl) in (e a <? e b) || ((e a =? e b) && (k_id a <=? k_id b)).

Definition mine (executorID : string) (boot : Z) (cl : claim) : bool := (executor_id cl =? executorID) && (boot_epoch cl =? boot).

Definition ExpiredClaimsOfExecutorSystem (now : Z) (executorID : string) (boot : Z) (d : qdb) : list ClaimRef :=
  map ref_of (sort_by lease_le (List.filter (fun cl => mine executorID boot cl && claimLeaseLapsed now cl) (claims d))).

Definition ReleaseExpiredClaimSystem (tx now : Z) (org conv clm : option Z) (d : qdb) : ans bool :=
  match org, conv, clm with
  | Some o, Some c, Some k =>
      let p cl := names o c k cl && claimLeaseLapsed now cl in
      (Ok (existsb p (claims d)), set_claims (update p (release tx HandBackReaped) (claims d)) d)
  | _, _, _ => (Ok false, d)
  end.

Definition unstamp (r : conversation) : conversation :=
  Conv (key r) (park r) (stop r) (ending r) (Queue (queued_at (queue r)) (next_attempt_at (queue r)) None) (bound r).

Definition clearPreferredExecutor (ids skip : list Z) (d : qdb) : qdb :=
  set_convs (update (fun r => existsb (fun i => i =? c_id r) ids && negb (isNull (preferred_executor_id (queue r)))
                              && negb (existsb (fun i => i =? c_id r) skip)) unstamp (convs d)) d.

(** The lapsed claims of other executors, oldest lapse first, that are not locked. *)
Definition takeable (now : Z) (executorID : string) (boot : Z) (limit : nat) (skip : list Z) (d : qdb) : list claim :=
  take limit (sort_by lease_le (List.filter (fun cl =>
    claimLeaseLapsed now cl && negb (mine executorID boot cl) && negb (existsb (fun i => i =? k_id cl) skip)) (claims d))).

Definition TakeOverExpiredClaimsSystem (tx now : Z) (executorID : string) (boot limit : Z) (skip skipConv : list Z) (d : qdb) :
    ans (list ClaimRef) :=
  if limit <=? 0 then (Ok [], d)
  else let l := takeable now executorID boot (Z.to_nat limit) skip d in
       let d1 := set_claims (update (fun cl => existsb (fun x => k_id x =? k_id cl) l) (release tx HandBackReaped) (claims d)) d in
       (Ok (map ref_of l), clearPreferredExecutor (map k_conv l) skipConv d1).

Definition LiveClaimsOfExecutorSystem (executorID : string) (boot : Z) (d : qdb) : list ClaimRef :=
  map ref_of (sort_by (fun a b => (claimed_at a <? claimed_at b) || ((claimed_at a =? claimed_at b) && (k_id a <=? k_id b)))
    (List.filter (fun cl => mine executorID boot cl && unreleased cl) (claims d))).

Definition ReleaseOwnClaimsOnShutdownSystem (tx : Z) (executorID : string) (boot : Z) (convIDs : list (option Z)) (skipConv : list Z) (d : qdb) : ans Z :=
  let ids := omap (fun x => x) convIDs in
  match ids with
  | [] => (Ok 0, d)
  | _ =>
      let p cl := mine executorID boot cl && claims_of ids cl in
      let released := map k_conv (List.filter p (claims d)) in
      (Ok (Z.of_nat (length released)),
       clearPreferredExecutor released skipConv (set_claims (update p (release tx HandBackShutdown) (claims d)) d))
  end.

Definition ResetProcessingConversations (tx : Z) (executorID : string) (boot : Z) (skipConv : list Z) (d : qdb) : ans Z :=
  let p cl := unreleased cl && (executor_id cl =? executorID) && (boot_epoch cl <? boot) in
  let released := map k_conv (List.filter p (claims d)) in
  (Ok (Z.of_nat (length released)),
   clearPreferredExecutor released skipConv (set_claims (update p (release tx HandBackReaped) (claims d)) d)).

(** ** Hand-backs *)

Definition handback_row (now delay : Z) (lastErr : string) (fresh : bool) (r : conversation) : conversation :=
  Conv (key r) (park r) (stop r)
       (Ending (completed_at (ending r)) (outcome (ending r)) (outcome_reason (ending r)) (failure_kind (ending r))
               (default (result_summary (ending r)) (nullIfEmpty lastErr)))
       (Queue (queued_at (queue r)) (if (0 <? delay) && negb fresh then Some (now + delay) else None) None) (bound r).

(** The release of the named claim under the live guard, by every hand-back. *)
Definition releaseLive (tx now org c k : Z) (out : string) (d : qdb) : option qdb :=
  let p cl := names org c k cl && claimLeaseLive now cl in
  if existsb p (claims d) then Some (set_claims (update p (release tx out) (claims d)) d) else None.

(** [now] is when the release of the claim is checked, [later] when the
    conversation is written. *)
Definition HandBackClaimSystem (tx now later : Z) (org conv clm : option Z) (out : string) (delay : Z) (lastErr : string) (d : qdb) : ans unit :=
  match HandBackPolicyFor out, org, conv, clm with
  | None, _, _, _ => (Err ErrInvalidRequeueOutcome, d)
  | Some _, Some o, Some c, Some k =>
      match releaseLive tx now o c k out d with
      | None => (Err (liveGuardRefusal now d o c k), d)
      | Some d1 =>
          (Ok tt, set_convs (update (fun r => is_conv o c r && isNull (status (park r)))
                    (fun r => handback_row later delay lastErr (undeliveredInputDuringClaimSQL d1 k r) r) (convs d1)) d1)
      end
  | _, _, _, _ => (Err ErrClaimReleased, d)
  end.

Definition RequeueOutcomeValid (o : string) : bool :=
  (o =? RequeueSetupFailure) || (o =? RequeueAwaitingCredentials) || (o =? RequeueUpstreamUnavailable).

Definition requeue_row (now delay : Z) (lastErr : string) (r : conversation) : conversation :=
  Conv (key r) (park r) (stop r)
       (Ending (completed_at (ending r)) (outcome (ending r)) (outcome_reason (ending r)) (failure_kind (ending r)) lastErr)
       (Queue (queued_at (queue r)) (if 0 <? delay then Some (now + delay) else None) None) (bound r).

Definition RequeueConversation (tx now later : Z) (org conv clm : option Z) (out : string) (delay : Z) (lastErr : string) (d : qdb) :
    ans (option conversation) :=
  match RequeueOutcomeValid out, org, conv, clm with
  | false, _, _, _ => (Err ErrInvalidRequeueOutcome, d)
  | true, Some o, Some c, Some k =>
      match find (is_conv o c) (convs d) with
      | None => (Err ErrClaimReleased, d)
      | Some r0 =>
          match releaseLive tx now o c k out d with
          | None => (Err (liveGuardRefusal now d o c k), d)
          | Some d1 =>
              if isNull (status (park r0))
              then let l := update (is_conv o c) (requeue_row later delay lastErr) (convs d1) in
                   (Ok (find (is_conv o c) l), set_convs l d1)
              else (Ok None, d1)
          end
      end
  | true, _, _, _ => (Err ErrClaimReleased, d)
  end.

Definition park_phase (key : string) (cl : claim) : claim :=
  Claim (k_id cl) (k_org cl) (k_conv cl) (executor_id cl) (boot_epoch cl) (claimed_at cl) (released_at cl)
        (lease_expires_at cl) (k_outcome cl) (Some "awaiting_credentials"%string) (nullIfEmpty key) (last_activity_at cl)
        (current_op cl) (last_checkpoint_at cl) (duration_ms cl) (num_turns cl)
        (peak_mem_mb cl) (cpu_usec cl).

Definition MarkAwaitingCredentials (org conv : Z) (credPubKey : string) (d : qdb) : ans bool :=
  let p cl := activeOf org conv cl && isNull (phase cl) in
  (Ok (existsb p (claims d)), set_claims (update p (park_phase credPubKey) (claims d)) d).

(** ** Reads *)

Definition ClaimExecutorSystem (d : qdb) (org clm : Z) : option string :=
  executor_id <$> find (fun cl => (k_org cl =? org) && (k_id cl =? clm)) (claims d).

Definition ClaimLiveSystem (now : Z) (d : qdb) (org : Z) (clm : option Z) (boot : Z) : bool :=
  match clm with
  | None => false
  | Some k => existsb (fun cl => (k_org cl =? org) && (k_id cl =? k) && (boot_epoch cl =? boot) && claimLeaseLive now cl) (claims d)
  end.

Record StrandedRun := Stranded { st_org : Z; st_run : Z; st_conv : Z }.

Definition stranded (tx grace : Z) (d : qdb) (b : brun) (r : conversation) : bool :=
  eqv (blueprint_run_id (key r)) (Some (b_id b)) && eqv (blueprint_step_index (key r)) (Some (current_step_index b))
  && (b_status b =? Running) && SettledConversationSQL r
  && (default (started_at (key r)) (coalesce (completed_at (ending r)) (parked_at (park r))) <=? tx - grace)
  && negb (existsb (fun cl => (k_conv cl =? c_id r) && match released_at cl with None => true | Some t => tx - grace <? t end) (claims d)).

Definition StrandedBlueprintRunsSystem (tx grace limit : Z) (d : qdb) : list StrandedRun :=
  if limit <=? 0 then []
  else take (Z.to_nat limit) (flat_map (fun b => map (fun r => Stranded (b_org b) (b_id b) (c_id r)) (List.filter (stranded tx grace d b) (convs d)))
         (sort_by (fun a b => (b_started a <? b_started b) || ((b_started a =? b_started b) && (b_id a <=? b_id b))) (runs d))).

(** ** The boot reconciliation *)

Definition orphaned (d : qdb) (r : conversation) : bool :=
  isNull (status (park r))
  && match blueprint_run_id (key r) with
     | None => false
     | Some i => existsb (fun b => (b_id b =? i) && Terminal (b_status b)) (runs d)
     end.

Definition claimDesync (d : qdb) (r : conversation) : bool := SettledConversationSQL r && activeClaimExistsSQL d r.
Definition countClaimDesyncs (d : qdb) : Z := Z.of_nat (length (List.filter (claimDesync d) (convs d))).

Definition missingStep (d : qdb) (b : brun) : bool :=
  (b_status b =? Running)
  && negb (existsb (fun r => eqv (blueprint_run_id (key r)) (Some (b_id b)) && eqv (blueprint_step_index (key r)) (Some (current_step_index b))) (convs d)).
Definition countBlueprintRunsMissingCurrentStep (d : qdb) : Z := Z.of_nat (length (List.filter (missingStep d) (runs d))).

(** Both samples are oldest first and bounded. *)
Definition OrphanedStepSampleLimit : nat := 20.

Definition claimDesyncSample (d : qdb) : list Z :=
  take OrphanedStepSampleLimit (map c_id
    (sort_by (fun a b => (started_at (key a) <? started_at (key b)) || ((started_at (key a) =? started_at (key b)) && (c_id a <=? c_id b)))
       (List.filter (claimDesync d) (convs d)))).

Definition missingStepSample (d : qdb) : list Z :=
  take OrphanedStepSampleLimit (map b_id
    (sort_by (fun a b => (b_started a <? b_started b) || ((b_started a =? b_started b) && (b_id a <=? b_id b)))
       (List.filter (missingStep d) (runs d)))).

Record OrphanedStepCheck := Check_ { Count : Z; Sample : list Z; ClaimDesyncs : Z; ClaimDesyncSample : list Z }.

Definition ReconcileOrphanedConversations (tx : Z) (d : qdb) : ans (Z * OrphanedStepCheck) :=
  let ids := map c_id (List.filter (orphaned d) (convs d)) in
  let d1 := set_claims (update (claims_of ids) (release tx "cancelled") (claims d))
              (set_convs (update (orphaned d) (orphan_row tx) (convs d)) d) in
  (Ok (Z.of_nat (length ids), Check_ (countBlueprintRunsMissingCurrentStep d1) (missingStepSample d1) (countClaimDesyncs d1) (claimDesyncSample d1)), d1).

(** ** Fleet reads *)

Definition CountQueuedSystem (now : Z) (d : qdb) : Z := Z.of_nat (length (List.filter (eligibleForDrivingSQL now d) (convs d))).

Definition CountDeferredSystem (now : Z) (d : qdb) (org : Z) : Z :=
  Z.of_nat (length (List.filter (fun r => (c_org r =? org) && deferredSQL now d r) (convs d))).

Record OrgQueueShare := Share { sh_org : Z; Active : Z; Queued : Z; MaxConcurrentRuns : option Z }.

Definition queued_of (now : Z) (d : qdb) (org : Z) : Z :=
  Z.of_nat (length (List.filter (fun r => (c_org r =? org) && eligibleForDrivingSQL now d r) (convs d))).

Definition FleetQueueShares (now : Z) (d : qdb) : list OrgQueueShare :=
  let orgs := remove_dups (map k_org (List.filter unreleased (claims d)) ++ map c_org (List.filter (eligibleForDrivingSQL now d) (convs d))) in
  sort_by (fun a b => (Active b + Queued b <? Active a + Queued a)
                      || ((Active a + Queued a =? Active b + Queued b) && (sh_org a <=? sh_org b)))
    (map (fun o => Share o (org_active d o) (queued_of now d o) (cap_of d o)) orgs).
