(* ===== verification/ConvInv.v ===== *)
(** * The invariant of the conversation tables

    [wf] is what every committed state of the tables satisfies: keys are
    unique, at most one claim of a conversation is unreleased, an unreleased
    claim has a lease and no outcome, a claim belongs to a conversation of its
    organization, a conversation under an unreleased claim is mid-flight, and a
    running blueprint has a conversation at the step it points at.

    Every statement is an UPDATE that keeps row identities or an INSERT;
    [evolve] is what the updates of one operation have in common, and
    [evolve_wf] is the one argument that preserves [wf] for all of them. *)

From S2P Require Import Prelude ConvRow ConvStore ConvQueue.
#[local] Open Scope Z_scope.
#[local] Open Scope q_scope.

Create HintDb cq discriminated.

(** ** UPDATE, as a relation on rows *)

Section Update.
Context {A : Type} (R : relation A) `{!Reflexive R}.

Lemma update_rel p f l : (forall x, x ∈ l -> p x = true -> R x (f x)) -> Forall2 R l (update p f l).
Proof.
  unfold update. induction l as [|x l IH]; intros H; simpl; constructor.
  - destruct (p x) eqn:E; [apply H; [by left|done]|done].
  - apply IH. intros y Hy. apply H. by right.
Qed.

Lemma update_rel_all p f l : (forall x, R x (f x)) -> Forall2 R l (update p f l).
Proof. intros H. by apply update_rel. Qed.

Lemma map_rel f l : (forall x, R x (f x)) -> Forall2 R l (map f l).
Proof. intros H. induction l; simpl; constructor; auto. Qed.

End Update.

Lemma elem_of_update {A} p f (l : list A) y :
  y ∈ update p f l <-> exists x, x ∈ l /\ y = if p x then f x else x.
Proof. unfold update. rewrite list_elem_of_fmap. naive_solver. Qed.

Lemma Forall2_right {A} (R : A -> A -> Prop) l l' y : Forall2 R l l' -> y ∈ l' -> exists x, x ∈ l /\ R x y.
Proof.
  induction 1 as [|a b l l' Hab _ IH]; [by intros ?%elem_of_nil|].
  intros [->|(x & ? & ?)%IH]%elem_of_cons; [exists a|exists x]; split; by try (left; done); try (right; done).
Qed.

Lemma Forall2_left {A} (R : A -> A -> Prop) l l' x : Forall2 R l l' -> x ∈ l -> exists y, y ∈ l' /\ R x y.
Proof.
  induction 1 as [|a b l l' Hab _ IH]; [by intros ?%elem_of_nil|].
  intros [->|(y & ? & ?)%IH]%elem_of_cons; [exists b|exists y]; split; by try (left; done); try (right; done).
Qed.

Lemma Forall2_map_eq {A B} (R : A -> A -> Prop) (g : A -> B) l l' :
  (forall x y, R x y -> g y = g x) -> Forall2 R l l' -> map g l' = map g l.
Proof. intros HR. induction 1; simpl; [done|]. by rewrite IHForall2, (HR _ _ H). Qed.

Lemma existsb_elem {A} (p : A -> bool) l : existsb p l = true <-> exists x, x ∈ l /\ p x = true.
Proof. rewrite existsb_exists. setoid_rewrite <- list_elem_of_In. done. Qed.

Lemma existsb_nobody {A} (p : A -> bool) l : existsb p l = false <-> forall x, x ∈ l -> p x = false.
Proof.
  split.
  - intros H x Hx. destruct (p x) eqn:E; [|done]. rewrite <- H. symmetry. apply existsb_elem. eauto.
  - intros H. destruct (existsb p l) eqn:E; [|done]. apply existsb_elem in E as (x & Hx & E). by rewrite (H x Hx) in E.
Qed.

Lemma find_elem {A} (p : A -> bool) l x : find p l = Some x -> x ∈ l /\ p x = true.
Proof. intros H. apply find_some in H as [H ?]. split; [by apply list_elem_of_In|done]. Qed.

Lemma filter_elem {A} (p : A -> bool) l x : x ∈ List.filter p l <-> x ∈ l /\ p x = true.
Proof. rewrite !list_elem_of_In. apply filter_In. Qed.

Lemma NoDup_key_inj {A B} (g : A -> B) l x y : NoDup (map g l) -> x ∈ l -> y ∈ l -> g x = g y -> x = y.
Proof.
  induction l as [|a l IH]; [by intros _ ?%elem_of_nil|]. simpl. intros [Ha Hl]%NoDup_cons Hx Hy E.
  apply elem_of_cons in Hx as [->|Hx], Hy as [->|Hy]; [done| | |by apply IH].
  - exfalso. apply Ha. rewrite E. apply list_elem_of_fmap. eauto.
  - exfalso. apply Ha. rewrite <- E. apply list_elem_of_fmap. eauto.
Qed.

(** ** How rows evolve *)

(** A claim keeps its identity; it is released at most once, at the time [t] of
    the transaction; once released it keeps its outcome; while unreleased it
    keeps a lease and no outcome. *)
Definition claim_ok (cl : claim) : Prop :=
  if unreleased cl then is_Some (lease_expires_at cl) /\ k_outcome cl = None else is_Some (k_outcome cl).

Record claim_step (t : Z) (a b : claim) : Prop := ClaimStep {
  cs_id : k_id b = k_id a; cs_org : k_org b = k_org a; cs_conv : k_conv b = k_conv a; cs_at : claimed_at b = claimed_at a;
  cs_when : released_at b = released_at a \/ (released_at a = None /\ released_at b = Some t);
  cs_outcome : unreleased a = false -> k_outcome b = k_outcome a;
  cs_ok : claim_ok a -> claim_ok b }.

#[global] Instance claim_step_refl t : Reflexive (claim_step t).
Proof. intros a. split; auto. Qed.

Lemma released_kept t a b : claim_step t a b -> unreleased a = false -> released_at b = released_at a.
Proof. intros H Ha. destruct (cs_when _ _ _ H) as [?|[E _]]; [done|]. unfold unreleased in Ha. by rewrite E in Ha. Qed.

#[global] Instance claim_step_trans t : Transitive (claim_step t).
Proof.
  intros a b c Hab Hbc. pose proof (released_kept _ _ _ Hab). pose proof (released_kept _ _ _ Hbc).
  destruct Hab as [? ? ? ? Hw Ho ?], Hbc as [? ? ? ? Hw' Ho' ?]. unfold unreleased in *. split; try congruence; [| |auto].
  - destruct Hw as [E|[? E]], Hw' as [E'|[? E']]; rewrite ?E in *; auto; congruence.
  - intros Ha. rewrite Ho', Ho; [done|done|]. by rewrite H.
Qed.

Lemma claim_step_active t a b : claim_step t a b -> unreleased b = true -> unreleased a = true.
Proof.
  intros H Hb. destruct (unreleased a) eqn:E; [done|]. pose proof (released_kept _ _ _ H E) as E'.
  unfold unreleased in *. by rewrite E', E in Hb.
Qed.

(** A mid-flight conversation stays so unless its claims are released with it. *)
Definition free (cls : list claim) (c : Z) : Prop := forall cl, cl ∈ cls -> k_conv cl = c -> unreleased cl = false.

(** A conversation that is mid-flight keeps the time it entered the queue; one
    that was parked has it re-stamped. *)
Definition stamped (t : Z) (a b : conversation) : Prop :=
  status (park b) = None -> queued_at (queue b) = if isNull (status (park a)) then queued_at (queue a) else Some t.

Definition conv_step (t : Z) (cls : list claim) (a b : conversation) : Prop :=
  key b = key a /\ (status (park b) = None \/ status (park a) <> None \/ free cls (c_id b)) /\ stamped t a b.

#[global] Instance conv_step_refl t cls : Reflexive (conv_step t cls).
Proof. intros a. split; [done|]. unfold stamped. destruct (status (park a)); simpl; split; auto; done. Qed.

Definition run_step (b b' : brun) : Prop := b_id b' = b_id b /\ b_org b' = b_org b /\ b_task b' = b_task b.

#[global] Instance run_step_refl : Reflexive run_step.
Proof. by intros b. Qed.

(** ** The invariant *)

Definition at_step (d : qdb) (b : brun) : Prop :=
  exists r, r ∈ convs d /\ blueprint_run_id (key r) = Some (b_id b) /\ blueprint_step_index (key r) = Some (current_step_index b).

Record wf (d : qdb) : Prop := Wf {
  wf_convs : NoDup (map c_id (convs d));
  wf_claims : NoDup (map k_id (claims d));
  wf_runs : NoDup (map b_id (runs d));
  wf_one : forall a b, a ∈ claims d -> b ∈ claims d -> k_conv a = k_conv b -> unreleased a = true -> unreleased b = true -> a = b;
  wf_lease : forall cl, cl ∈ claims d -> claim_ok cl;
  wf_owner : forall cl, cl ∈ claims d -> exists r, r ∈ convs d /\ c_id r = k_conv cl /\ c_org r = k_org cl;
  wf_midflight : forall cl r, cl ∈ claims d -> r ∈ convs d -> unreleased cl = true -> k_conv cl = c_id r -> status (park r) = None;
  wf_step : forall b, b ∈ runs d -> b_status b = Running -> at_step d b }.

(** What the updates of one operation have in common. *)
Record evolve (t : Z) (d d' : qdb) : Prop := Evolve {
  ev_claims : Forall2 (claim_step t) (claims d) (claims d');
  ev_convs : Forall2 (conv_step t (claims d')) (convs d) (convs d');
  ev_runs : Forall2 run_step (runs d) (runs d');
  ev_step : forall b', b' ∈ runs d' -> b_status b' = Running ->
    (exists b, b ∈ runs d /\ b_id b = b_id b' /\ b_status b = Running /\ current_step_index b = current_step_index b') \/ at_step d b' }.

Lemma key_id a b : key b = key a -> c_id b = c_id a.
Proof. unfold c_id. by intros ->. Qed.

Lemma at_step_evolve t d d' b : Forall2 (conv_step t (claims d')) (convs d) (convs d') -> at_step d b -> at_step d' b.
Proof.
  intros H (r & Hr & ? & ?). destruct (Forall2_left _ _ _ _ H Hr) as (r' & Hr' & [E _]).
  exists r'. rewrite E. done.
Qed.

Lemma evolve_wf t d d' : wf d -> evolve t d d' -> wf d'.
Proof.
  intros W [Hc Hr Hb Hs].
  assert (Hid : map c_id (convs d') = map c_id (convs d)).
  { eapply Forall2_map_eq; [|exact Hr]. intros x y [E _]. by apply key_id. }
  assert (Hback : forall cl, cl ∈ claims d' -> exists a, a ∈ claims d /\ claim_step t a cl) by (intros; by eapply Forall2_right).
  split.
  - rewrite Hid. apply (wf_convs _ W).
  - rewrite (Forall2_map_eq (claim_step t) k_id (claims d)); [apply (wf_claims _ W)| |done]. by intros x y [].
  - rewrite (Forall2_map_eq run_step b_id (runs d)); [apply (wf_runs _ W)| |done]. by intros x y [].
  - intros a b Ha Hb' E Ua Ub.
    destruct (Hback a Ha) as (a0 & Ha0 & Sa), (Hback b Hb') as (b0 & Hb0 & Sb).
    pose proof (claim_step_active _ _ _ Sa Ua). pose proof (claim_step_active _ _ _ Sb Ub).
    assert (a0 = b0) as -> by (eapply (wf_one _ W); eauto; by rewrite <- (cs_conv _ _ _ Sa), <- (cs_conv _ _ _ Sb)).
    eapply (NoDup_key_inj k_id (claims d')); eauto.
    { rewrite (Forall2_map_eq (claim_step t) k_id (claims d)); [apply (wf_claims _ W)| |done]. by intros x y []. }
    by rewrite (cs_id _ _ _ Sa), (cs_id _ _ _ Sb).
  - intros cl Hcl. destruct (Hback cl Hcl) as (a & Ha & Sa). by apply (cs_ok _ _ _ Sa), (wf_lease _ W).
  - intros cl Hcl. destruct (Hback cl Hcl) as (a & Ha & Sa). destruct (wf_owner _ W a Ha) as (r & Hin & E1 & E2).
    destruct (Forall2_left _ _ _ _ Hr Hin) as (r' & Hr' & [E _]). exists r'.
    unfold c_id, c_org in *. rewrite E, E1, E2, (cs_conv _ _ _ Sa), (cs_org _ _ _ Sa). done.
  - intros cl r' Hcl Hr' U E. destruct (Forall2_right _ _ _ _ Hr Hr') as (r & Hin & (Ek & [?|[Hn|Hf]] & _)); [done| |].
    + destruct (Hback cl Hcl) as (a & Ha & Sa). contradict Hn. eapply (wf_midflight _ W a); eauto.
      * by eapply claim_step_active.
      * by rewrite <- (cs_conv _ _ _ Sa), E, (key_id _ _ Ek).
    + by rewrite (Hf cl Hcl E) in U.
  - intros b' Hb' Hrun. destruct (Hs b' Hb' Hrun) as [(b & Hin & E1 & Hr1 & E2)|H]; [|by eapply at_step_evolve].
    eapply at_step_evolve; [done|]. destruct (wf_step _ W b Hin Hr1) as (r & ? & ? & ?). exists r. by rewrite <- E1, <- E2.
Qed.

(** Most operations leave the runs alone. *)
Lemma evolve_same_runs t d d' :
  Forall2 (claim_step t) (claims d) (claims d') -> Forall2 (conv_step t (claims d')) (convs d) (convs d') -> runs d' = runs d -> evolve t d d'.
Proof.
  intros ? ? E. split; [done|done| |].
  - rewrite E. apply Forall_Forall2_diag, Forall_true. done.
  - rewrite E. intros b Hb Hr. left. by exists b.
Qed.

Lemma Forall2_self {A} (R : relation A) `{!Reflexive R} l : Forall2 R l l.
Proof. apply Forall_Forall2_diag, Forall_true. done. Qed.

Lemma evolve_claims t d l : Forall2 (claim_step t) (claims d) l -> evolve t d (set_claims l d).
Proof. intros H. apply evolve_same_runs; [done|apply Forall2_self, _|done]. Qed.

(** ** The row writes *)

Ltac claim_kept := intros; split; try done; unfold claim_ok, unreleased in *; simpl; auto; try congruence; try naive_solver.

Lemma release_step tx out cl : unreleased cl = true -> claim_step tx cl (release tx out cl).
Proof. claim_kept. right. by destruct (released_at cl). Qed.

Lemma telemetry_step t dm nt cl : claim_step t cl (telemetry dm nt cl).
Proof. claim_kept. Qed.

Lemma claim_as_step t e b cl : claim_step t cl (claim_as e b cl).
Proof. claim_kept. Qed.

Lemma with_phase_step t p cl : claim_step t cl (with_phase p cl).
Proof. claim_kept. Qed.

Lemma with_stats_step t m c cl : claim_step t cl (with_stats m c cl).
Proof. claim_kept. Qed.

Lemma park_phase_step t k cl : claim_step t cl (park_phase k cl).
Proof. claim_kept. Qed.

Lemma renew_step t now lease a cl : claim_step t cl (renew_row now lease a cl).
Proof. claim_kept. destruct (released_at cl); simpl; naive_solver. Qed.

Lemma relet_step t now lease cl : claim_step t cl (relet now lease cl).
Proof. claim_kept. destruct (released_at cl); simpl; naive_solver. Qed.

#[export] Hint Resolve release_step telemetry_step claim_as_step with_phase_step with_stats_step park_phase_step renew_step relet_step : cq.
