(* ===== verification/ConvSystem.v ===== *)
(** * The conversation queue as a system

    [qop] is every operation of the stores on the conversation tables, with
    the clock readings, lock sets and snapshots it meets as arguments; [apply]
    runs one, and a run of the system is any sequence of operations by any
    number of executors, recovery passes, request handlers and other writers.
    [legal] is what the callers and the keys guarantee. *)

From S2P Require Import Prelude ConvRow ConvStore ConvQueue ConvInv.
From Stdlib Require Import QArith.
#[local] Open Scope Z_scope.
#[local] Open Scope q_scope.

(** ** Operations *)

Inductive qop :=
| OCreate (tx wall org : Z) (n : newRun) (agent : option (Z * option Z)) (owner : option Z) (first : newConv)
| OAdvance (tx wall org from : Z) (concluded : option Z) (next : newConv)
| OMark (tx org : Z) (run : option Z) (s : rstatus) (reason : string) (step : option Z) (adjacent commits : bool)
| OCancelRun (org : Z) (run : option Z)
| OWake (tx org conv : Z) (concluded : bool) (run : option Z)
| OClaim (newID tx now : Z) (executorID : string) (boot : Z) (pl : ClaimPlacement) (lease : Z) (skip : list Z) (snap : qdb)
| ORenew (now org : Z) (conv clm : option Z) (lease : Z) (a : ClaimActivity)
| OReacquire (now org : Z) (conv clm : option Z) (executorID : string) (boot lease : Z)
| OComplete (tx now wall org : Z) (conv clm : option Z) (st : string) (cost : Q) (dms turns : Z) (summary out reason kind : string)
| OPark (tx now wall org : Z) (conv clm : option Z) (p : parking)
| OFail (tx now wall org : Z) (conv clm : option Z) (kind : string)
| OStop (tx org conv : Z) (by_ reason : string)
| OStopFor (tx now org : Z) (conv clm : option Z) (reason : string)
| OClearNext (org : Z) (conv : option Z)
| OSetExecutor (now org : Z) (conv clm : option Z) (executorID : string) (boot : Z)
| OActivePhase (org conv : Z) (p : string)
| OPhase (now org : Z) (conv clm : option Z) (p : string)
| OAwaitCredentials (org conv : Z) (pubkey : string)
| OEndTask (wall org : Z) (t : option Z) (reason : string)
| OEndTeam (wall org : Z) (g : option Z) (reason : string)
| OEnd (wall org : Z) (conv : option Z) (reason : string)
| OSettle (tx : Z) (scope : conversation -> bool) (skipRuns skip : list Z) (view1 snap : qdb)
| OReleaseExpired (tx now : Z) (org conv clm : option Z)
| OTakeOver (tx now : Z) (executorID : string) (boot limit : Z) (skip skipConv : list Z)
| OShutdown (tx : Z) (executorID : string) (boot : Z) (convIDs : list (option Z)) (skipConv : list Z)
| OReset (tx : Z) (executorID : string) (boot : Z) (skipConv : list Z)
| OHandBack (tx now later : Z) (org conv clm : option Z) (out : string) (delay : Z) (lastErr : string)
| ORequeue (tx now later : Z) (org conv clm : option Z) (out : string) (delay : Z) (lastErr : string)
| OReconcile (tx : Z)
| OCost (org conv : Z) (clm : option Z) (cost : Q)
| OStats (org clm : Z) (peakMemMB cpuUsec : option Z)
| OOther (ms : list message) (is_ : list instance) (cs : list (Z * option Z)) (mem : list Z) (ts : list task) (gs : list team).

Definition apply (o : qop) (d : qdb) : qdb :=
  match o with
  | OCreate tx wall org n agent owner first => snd (CreateRunWithFirstStepSystem tx wall org n agent owner first d)
  | OAdvance tx wall org from concluded next => snd (AdvanceRunToStepSystem tx wall org from concluded next d)
  | OMark tx org run s reason step adjacent commits => snd (markBlueprintRunStatus tx org run s reason step adjacent commits d)
  | OCancelRun org run => snd (RequestRunCancelSystem org run d)
  | OWake tx org conv concluded run => snd (wakeParked tx org conv concluded run d)
  | OClaim newID tx now e boot pl lease skip snap => snd (claim_statement newID tx now e boot pl lease skip snap d)
  | ORenew now org conv clm lease a => snd (RenewClaimLeaseSystem now org conv clm lease a d)
  | OReacquire now org conv clm e boot lease => snd (ReacquireClaimLeaseSystem now org conv clm e boot lease d)
  | OComplete tx now wall org conv clm st cost dms turns su ou re ki => snd (CompleteForClaimSystem tx now wall org conv clm st cost dms turns su ou re ki d)
  | OPark tx now wall org conv clm p => snd (ParkOpenForClaimSystem tx now wall org conv clm p d)
  | OFail tx now wall org conv clm kind => snd (MarkFailedIfActiveForClaimSystem tx now wall org conv clm kind d)
  | OStop tx org conv by_ reason => snd (RequestStopSystem tx org conv by_ reason d)
  | OStopFor tx now org conv clm reason => snd (RequestStopForClaimSystem tx now org conv clm reason d)
  | OClearNext org conv => snd (ClearNextAttempt org conv d)
  | OSetExecutor now org conv clm e boot => snd (SetExecutorForClaimSystem now org conv clm e boot d)
  | OActivePhase org conv p => snd (SetActiveClaimPhaseSystem org conv p d)
  | OPhase now org conv clm p => snd (SetClaimPhaseSystem now org conv clm p d)
  | OAwaitCredentials org conv k => snd (MarkAwaitingCredentials org conv k d)
  | OEndTask wall org t reason => snd (endConversationsForTask wall org t reason d)
  | OEndTeam wall org g reason => snd (EndConversationsForTeamSystem wall org g reason d)
  | OEnd wall org conv reason => snd (endConversation wall org conv reason d)
  | OSettle tx scope skipRuns skip view1 snap => snd (settleUnclaimedStops tx scope skipRuns skip view1 snap d)
  | OReleaseExpired tx now org conv clm => snd (ReleaseExpiredClaimSystem tx now org conv clm d)
  | OTakeOver tx now e boot limit skip skipConv => snd (TakeOverExpiredClaimsSystem tx now e boot limit skip skipConv d)
  | OShutdown tx e boot ids skipConv => snd (ReleaseOwnClaimsOnShutdownSystem tx e boot ids skipConv d)
  | OReset tx e boot skipConv => snd (ResetProcessingConversations tx e boot skipConv d)
  | OHandBack tx now later org conv clm out delay lastErr => snd (HandBackClaimSystem tx now later org conv clm out delay lastErr d)
  | ORequeue tx now later org conv clm out delay lastErr => snd (RequeueConversation tx now later org conv clm out delay lastErr d)
  | OReconcile tx => snd (ReconcileOrphanedConversations tx d)
  | OCost org conv clm cost => snd (SettleClaimCostSystem org conv clm cost d)
  | OStats org clm m c => snd (RecordClaimSandboxStatsSystem org clm m c d)
  | OOther ms is_ cs mem ts gs => Db (convs d) (claims d) (runs d) ms is_ cs mem ts gs
  end.

(** A claim id is drawn fresh; a firing's first step is step 0 of the run it
    fires; the settlement reads the claims as they stand when it locks its
    rows. *)
Definition legal (o : qop) (d : qdb) : Prop :=
  match o with
  | OCreate _ _ _ n _ _ first => n_run first = Some (nr_id n) /\ n_step first = Some 0
  | OClaim newID _ _ _ _ _ _ _ _ => newID ∉ map k_id (claims d)
  | OSettle _ _ _ _ _ snap => claims snap = claims d
  | _ => True
  end.

Inductive step : qdb -> qdb -> Prop :=
| step_op o d : legal o d -> step d (apply o d).

Definition emptyDb : qdb := Db [] [] [] [] [] [] [] [] [].
Definition reachable (d : qdb) : Prop := rtc step emptyDb d.

(** ** Releases free a conversation *)

Lemma update_claims_step t p g l : (forall cl, p cl = true -> claim_step t cl (g cl)) -> Forall2 (claim_step t) l (update p g l).
Proof. intros H. apply update_rel; [apply _|auto]. Qed.

Lemma freed p g l c :
  (forall cl, cl ∈ l -> k_conv cl = c -> unreleased cl = true -> p cl = true) ->
  (forall cl, p cl = true -> unreleased (g cl) = false /\ k_conv (g cl) = k_conv cl) ->
  free (update p g l) c.
Proof.
  intros Hp Hg cl Hcl E. apply elem_of_update in Hcl as (x & Hx & ->).
  destruct (p x) eqn:Ep; [by apply Hg|]. destruct (unreleased x) eqn:Eu; [|done]. by rewrite (Hp x Hx E Eu) in Ep.
Qed.

Lemma active_claim_org d org c r cl :
  wf d -> r ∈ convs d -> is_conv org c r = true -> cl ∈ claims d -> k_conv cl = c -> k_org cl = org.
Proof.
  unfold is_conv. intros W Hr E Hcl Ec. bool_hyps. destruct (wf_owner _ W cl Hcl) as (r' & Hr' & E1 & E2).
  assert (r' = r) as -> by (eapply (NoDup_key_inj c_id); eauto using wf_convs; congruence). congruence.
Qed.

Lemma releaseActive_free d org c r tx out :
  wf d -> r ∈ convs d -> is_conv org c r = true -> free (update (activeOf org c) (release tx out) (claims d)) c.
Proof.
  intros W Hr E. apply freed; [|done]. intros cl Hcl Ec Hu. unfold activeOf.
  rewrite (active_claim_org d org c r cl), Ec, Hu by done. by rewrite !bool_decide_true by done.
Qed.

Lemma activeOf_active org c cl : activeOf org c cl = true -> unreleased cl = true.
Proof. unfold activeOf. intros ?. by bool_hyps. Qed.

Lemma claims_of_active ids cl : claims_of ids cl = true -> unreleased cl = true.
Proof. unfold claims_of. intros ?. by bool_hyps. Qed.

Lemma live_active now cl : claimLeaseLive now cl = true -> unreleased cl = true.
Proof. unfold claimLeaseLive. intros ?. by bool_hyps. Qed.

Lemma lapsed_active now cl : claimLeaseLapsed now cl = true -> unreleased cl = true.
Proof. unfold claimLeaseLapsed. intros ?. by bool_hyps. Qed.

#[export] Hint Resolve activeOf_active claims_of_active live_active lapsed_active : cq.

(** ** Updates of conversations *)

Lemma update_convs_step t cls p f l :
  (forall r, r ∈ l -> p r = true -> conv_step t cls r (f r)) -> Forall2 (conv_step t cls) l (update p f l).
Proof. intros H. apply update_rel; [apply _|done]. Qed.

(** A write that leaves the status and the queue stamp alone. *)
Definition quiet (f : conversation -> conversation) : Prop :=
  forall r, key (f r) = key r /\ status (park (f r)) = status (park r) /\ queued_at (queue (f r)) = queued_at (queue r).

Lemma quiet_step t cls f r : quiet f -> conv_step t cls r (f r).
Proof. intros H. destruct (H r) as (E1 & E2 & E3). split; [done|]. unfold stamped. rewrite E2, E3. destruct (status (park r)); simpl; split; auto; done. Qed.

Lemma evolve_convs t d p f : quiet f -> evolve t d (set_convs (update p f (convs d)) d).
Proof.
  intros H. apply evolve_same_runs; [apply Forall2_self, _| |done]. simpl. apply update_convs_step. intros r _ _. by apply quiet_step.
Qed.

(** A write that parks. *)
Lemma parked_stamp t a b : status (park b) <> None -> stamped t a b.
Proof. by intros H ?. Qed.

Lemma evolve_refl t d : evolve t d d.
Proof. apply evolve_same_runs; [apply Forall2_self, _|apply Forall2_self, _|done]. Qed.

(** The pattern of the terminal write, the park and the failure: flip the row
    and release the claims on it. *)
Lemma flip_and_release t d org c p f g :
  wf d -> (forall r, p r = true -> is_conv org c r = true) -> (forall r, key (f r) = key r /\ status (park (f r)) <> None) ->
  (forall cl, activeOf org c cl = true -> claim_step t cl (g cl) /\ unreleased (g cl) = false) ->
  evolve t d (set_claims (update (activeOf org c) g (claims d)) (set_convs (update p f (convs d)) d)).
Proof.
  intros W Hp Hf Hg. apply evolve_same_runs; simpl; [|apply update_convs_step|done].
  - apply update_claims_step. intros. by apply Hg.
  - intros r Hr Hpr. destruct (Hf r) as [Ek Ep]. split; [done|]. split; [|by apply parked_stamp]. do 2 right. rewrite (key_id _ _ Ek).
    assert (c_id r = c) as -> by (specialize (Hp r Hpr); unfold is_conv in Hp; by bool_hyps).
    apply freed.
    + intros cl Hcl Ec Hu. unfold activeOf. rewrite (active_claim_org d org c r cl), Ec, Hu by auto.
      by rewrite !bool_decide_true by done.
    + intros cl Hcl. destruct (Hg cl Hcl) as [H ?]. split; [done|]. apply (cs_conv _ _ _ H).
Qed.

Lemma evolve_messages t d ms d' : evolve t (set_messages ms d) d' -> evolve t d d'.
Proof. intros [? ? ? H]. split; try done. Qed.

(** ** Each operation evolves the tables *)

Lemma fenced_db {A} (P : qdb -> Prop) now d org conv clm (body : Z -> Z -> ans A) :
  P d -> (forall c k, conv = Some c -> clm = Some k -> claimRefusal now d org c k = None -> P (snd (body c k))) ->
  P (snd (fenced now d org conv clm body)).
Proof.
  intros Hd Hb. unfold fenced, assertClaimActiveForConversationWrite, assertClaimActive.
  destruct conv as [c|], clm as [k|]; simpl; try done.
  destruct (claimRefusal now d org c k) eqn:E; simpl; [done|by apply Hb].
Qed.

Lemma cost_same org c clm q d :
  exists ms, settleClaimCostLump org c clm q d = set_messages ms d.
Proof.
  assert (forall t f d, exists ms, snd (settle_on org c t f d) = set_messages ms d) as H.
  { intros [t|] f []; simpl; eauto. }
  assert (forall d ms ms', set_messages ms' (set_messages ms d) = set_messages ms' d) as HH by done.
  assert (exists ms, d = set_messages ms d) as Hd by (exists (messages d); by destruct d).
  unfold settleClaimCostLump. destruct clm as [k|], (Qeq_bool q 0); simpl; eauto.
  match goal with |- context [settle_on org c ?t ?f d] => destruct (H t f d) as [ms E]; destruct (settle_on org c t f d) as [b d1] end.
  simpl in E. subst d1. destruct b; simpl; eauto. edestruct H as [ms' ->]. by exists ms'.
Qed.

Lemma complete_ev tx now wall org conv clm st q dms tn su ou re ki d :
  wf d -> evolve tx d (snd (CompleteForClaimSystem tx now wall org conv clm st q dms tn su ou re ki d)).
Proof.
  intros W. unfold CompleteForClaimSystem. destruct (ValidateConversationEnding st) as [s|]; [|apply evolve_refl].
  apply fenced_db; [apply evolve_refl|]. intros c k _ _ _. unfold settleCompletionCostAndClaim.
  destruct (cost_same org c (k_id <$> find (activeOf org c) (claims d)) q d) as [ms ->].
  unfold completeConversationFlip, releaseActiveClaimWithTelemetry. simpl. destruct (find _ _); [|apply evolve_refl].
  eapply (evolve_messages tx d ms), (flip_and_release tx (set_messages ms d) org c (is_conv org c)); [|done|done|].
  - eapply (evolve_wf tx); [exact W|]. eapply evolve_messages, evolve_refl.
  - intros cl Hcl. split; [|done]. transitivity (release tx (claimOutcomeForStatus s) cl); eauto with cq.
Qed.

Lemma park_ev tx now wall org conv clm p d : wf d -> evolve tx d (snd (ParkOpenForClaimSystem tx now wall org conv clm p d)).
Proof.
  intros W. unfold ParkOpenForClaimSystem. apply fenced_db; [apply evolve_refl|]. intros c k _ _ _. unfold parkOpen. simpl.
  destruct (existsb (park_where org c p) (convs d)) eqn:E; simpl.
  - apply (flip_and_release tx d org c (park_where org c p)); [done| |done|].
    + unfold park_where. intros r ?. by bool_hyps.
    + intros cl Hcl. eauto with cq.
  - apply evolve_same_runs; [apply Forall2_self, _| |done]. apply update_convs_step. intros r Hr Hp.
    by rewrite (proj1 (existsb_nobody _ _) E r Hr) in Hp.
Qed.

Lemma fail_ev tx now wall org conv clm kind d : wf d -> evolve tx d (snd (MarkFailedIfActiveForClaimSystem tx now wall org conv clm kind d)).
Proof.
  intros W. unfold MarkFailedIfActiveForClaimSystem. apply fenced_db; [apply evolve_refl|]. intros c k _ _ _. unfold markFailedIfActive. simpl.
  destruct (existsb _ (convs d)) eqn:E; simpl.
  - apply (flip_and_release tx d org c); [done| |done|].
    + intros r ?. by bool_hyps.
    + intros cl Hcl. eauto with cq.
  - apply evolve_same_runs; [apply Forall2_self, _| |done]. apply update_convs_step. intros r Hr Hp.
    by rewrite (proj1 (existsb_nobody _ _) E r Hr) in Hp.
Qed.

Lemma stop_ev t tx org c by_ reason d : evolve t d (snd (writeStopIntent tx org c by_ reason d)).
Proof. by apply evolve_convs. Qed.

Lemma mark_queued_ev tx org c d : evolve tx d (snd (MarkQueuedForResume tx org c d)).
Proof.
  unfold MarkQueuedForResume. destruct (find _ _); [|apply evolve_refl]. simpl. set (p := wake_where _ _ _ _). set (e := newestExecutor _ _ _).
  assert (forall cls, Forall2 (conv_step tx cls) (convs d) (update p (wake_row tx e) (convs d))) as H.
  { intros cls. apply update_convs_step. intros r _ Hp. split; [done|]. split; [by left|]. intros _. simpl.
    unfold p, wake_where in Hp. bool_hyps. by destruct (status (park r)). }
  destruct (existsb _ _); apply evolve_same_runs; simpl; try done; try (by apply H).
  apply update_claims_step. eauto with cq.
Qed.

Lemma reopen_ev t org run c d : evolve t d (snd (ReopenRunForResume org run c d)).
Proof.
  unfold ReopenRunForResume. destruct run as [i|], c as [c|]; try apply evolve_refl.
  destruct (existsb _ _); [|apply evolve_refl]. split; simpl.
  - apply Forall2_self, _.
  - apply update_convs_step. intros r _ _. by apply quiet_step.
  - apply update_rel_all; [apply _|]. by intros [].
  - intros b' [b [Hb ->]]%elem_of_update Hr. destruct (reopen_where d org i c b) eqn:E; [|left; by exists b]. right.
    unfold reopen_where in E. bool_hyps. match goal with H : existsb _ (convs d) = true |- _ => apply existsb_elem in H as (r & Hr' & E') end.
    bool_hyps. exists r. split; [done|]. unfold eqv in *. destruct b; simpl in *.
    destruct (blueprint_run_id (key r)), (blueprint_step_index (key r)); try done. bool_hyps. by subst.
Qed.

(** Writes of one transaction compose unless the second takes a park back. *)
Definition unparks_none (d d' : qdb) : Prop :=
  Forall2 (fun a b => status (park b) = None -> status (park a) = None) (convs d) (convs d').

Lemma evolve_trans t d d' d'' : wf d -> evolve t d d' -> unparks_none d' d'' -> evolve t d' d'' -> evolve t d d''.
Proof.
  intros W H Hn H'. pose proof (evolve_wf _ _ _ W H) as W'. split.
  - destruct H as [H _ _ _], H' as [H' _ _ _]. clear W W'. revert H'. generalize (claims d''). induction H; intros l'' H'; inversion H'; subst; constructor.
    + by etransitivity.
    + auto.
  - destruct H as [Hc H _ _], H' as [Hc' H' _ _]. revert Hn H H'.
    assert (forall c, free (claims d') c -> free (claims d'') c) as Hf.
    { intros c Hf cl Hcl Ec. destruct (Forall2_right _ _ _ _ Hc' Hcl) as (a & Ha & S).
      destruct (unreleased cl) eqn:E; [|done]. rewrite <- (claim_step_active _ _ _ S E). apply Hf; [done|]. by rewrite <- (cs_conv _ _ _ S). }
    clear -Hf. unfold unparks_none. intros Hn H. revert Hn. generalize (convs d'').
    induction H as [|a b l l' (E & Hab & Sab) H IH]; intros l'' Hn H'; inversion H' as [|? c ? ? (E' & Hbc & Sbc)]; subst; constructor;
      inversion Hn as [|? ? ? ? Hnb Hnl]; subst; [|by apply IH].
    split; [congruence|]. split.
    + destruct Hbc as [?|[Hb|?]]; [auto| |by do 2 right].
      destruct Hab as [?|[?|?]]; [done|auto|]. do 2 right. apply Hf. by rewrite (key_id _ _ E').
    + intros Hc. specialize (Hnb Hc). rewrite (Sbc Hc), Hnb. by apply Sab.
  - destruct H as [_ _ H _], H' as [_ _ H' _]. clear -H H'. revert H'. generalize (runs d''). induction H as [|? ? ? ? (?&?&?)]; intros l'' H'; inversion H' as [|? ? ? ? (?&?&?)]; subst; constructor; [|auto].
    repeat split; congruence.
  - intros b'' Hb'' Hr. destruct (ev_step _ _ _ H' b'' Hb'' Hr) as [(b' & Hb' & E1 & E2 & E3)|(r' & Hr' & E1 & E2)].
    + destruct (ev_step _ _ _ H b' Hb' E2) as [(b & ? & ? & ? & ?)|(r & ? & ? & ?)].
      * left. exists b. repeat split; congruence.
      * right. exists r. repeat split; congruence.
    + right. destruct (Forall2_right _ _ _ _ (ev_convs _ _ _ H) Hr') as (r & ? & [E _]). exists r. repeat split; congruence.
Qed.

Ltac no_unpark := unfold unparks_none; simpl; first [ apply update_rel; [by intros ?|by intros ? _ _] | apply Forall2_self; by intros ? ].

Lemma reopen_unparks org run c d : unparks_none d (snd (ReopenRunForResume org run c d)).
Proof.
  unfold ReopenRunForResume. destruct run as [i|], c as [c|]; try no_unpark. destruct (existsb _ _); [|no_unpark].
  apply update_rel; [by intros ?|]. intros r _ _. done.
Qed.

Lemma wake_ev tx org c b run d : wf d -> evolve tx d (snd (wakeParked tx org c b run d)).
Proof.
  intros W. unfold wakeParked. pose proof (mark_queued_ev tx org c d) as H1.
  destruct (MarkQueuedForResume tx org c d) as [[[]|e] d1]; simpl in *; [|done|done].
  destruct (b && _); [|done]. pose proof (reopen_ev tx org run (Some c) d1) as H2. pose proof (reopen_unparks org run (Some c) d1) as H3.
  destruct (ReopenRunForResume org run (Some c) d1) as [[]]; simpl in *; [by eapply evolve_trans|apply evolve_refl].
Qed.

Lemma renew_ev t now org c k lease a d : evolve t d (snd (RenewClaimLeaseSystem now org c k lease a d)).
Proof.
  unfold RenewClaimLeaseSystem. destruct c as [c|], k as [k|]; try apply evolve_refl. destruct (existsb _ _); [|apply evolve_refl].
  apply evolve_claims, update_claims_step. eauto with cq.
Qed.

Lemma reacquire_ev t now org c k e boot lease d : evolve t d (snd (ReacquireClaimLeaseSystem now org c k e boot lease d)).
Proof.
  unfold ReacquireClaimLeaseSystem. destruct c as [c|], k as [k|]; try apply evolve_refl. destruct (existsb _ _); [|apply evolve_refl].
  apply evolve_claims, update_claims_step. eauto with cq.
Qed.

Lemma release_expired_ev tx now org c k d : evolve tx d (snd (ReleaseExpiredClaimSystem tx now org c k d)).
Proof.
  unfold ReleaseExpiredClaimSystem. destruct org, c, k; try apply evolve_refl.
  apply evolve_claims, update_claims_step. intros cl ?. bool_hyps. eauto with cq.
Qed.

Lemma clear_ev t ids skip d : evolve t d (clearPreferredExecutor ids skip d).
Proof. by apply evolve_convs. Qed.

Lemma release_clear_ev p out tx ids skip d :
  wf d -> (forall cl, cl ∈ claims d -> p cl = true -> unreleased cl = true) ->
  evolve tx d (clearPreferredExecutor ids skip (set_claims (update p (release tx out) (claims d)) d)).
Proof.
  intros W Hp. eapply evolve_trans; [done| | |apply clear_ev]; [apply evolve_claims, update_rel; [apply _|]; eauto with cq|no_unpark].
Qed.

Lemma insert_by_elem {A} (le : A -> A -> bool) x l y : y ∈ insert_by le x l <-> y = x \/ y ∈ l.
Proof.
  induction l as [|z l IH]; simpl; [by rewrite list_elem_of_singleton, elem_of_nil; tauto|].
  destruct (le x z); rewrite !elem_of_cons; [tauto|]. rewrite IH. tauto.
Qed.

Lemma sort_by_elem {A} (le : A -> A -> bool) l y : y ∈ sort_by le l <-> y ∈ l.
Proof. induction l as [|x l IH]; simpl; [done|]. by rewrite insert_by_elem, elem_of_cons, IH. Qed.

Lemma take_elem {A} n (l : list A) x : x ∈ take n l -> x ∈ l.
Proof. intros H. rewrite <- (take_drop n l). apply elem_of_app. by left. Qed.

Lemma takeable_lapsed now e boot n skip d cl :
  cl ∈ takeable now e boot n skip d -> cl ∈ claims d /\ claimLeaseLapsed now cl = true /\ mine e boot cl = false.
Proof. unfold takeable. intros [? ?]%take_elem%sort_by_elem%filter_elem. bool_hyps. done. Qed.

Lemma takeover_ev tx now e boot limit skip sc d : wf d -> evolve tx d (snd (TakeOverExpiredClaimsSystem tx now e boot limit skip sc d)).
Proof.
  intros W. unfold TakeOverExpiredClaimsSystem. destruct (limit <=? 0); [apply evolve_refl|]. simpl.
  apply release_clear_ev; [done|]. intros cl Hcl (x & (? & ? & _)%takeable_lapsed & E)%existsb_elem. bool_hyps.
  assert (x = cl) as -> by (eapply (NoDup_key_inj k_id); eauto using wf_claims). eauto with cq.
Qed.

Lemma shutdown_ev tx e boot ids sc d : wf d -> evolve tx d (snd (ReleaseOwnClaimsOnShutdownSystem tx e boot ids sc d)).
Proof.
  intros W. unfold ReleaseOwnClaimsOnShutdownSystem. destruct (omap _ ids); [apply evolve_refl|]. simpl.
  apply release_clear_ev; [done|]. intros cl _ ?. bool_hyps. eauto with cq.
Qed.

Lemma reset_ev tx e boot sc d : wf d -> evolve tx d (snd (ResetProcessingConversations tx e boot sc d)).
Proof. intros W. apply release_clear_ev; [done|]. intros cl _ ?. by bool_hyps. Qed.

Lemma release_live_ev tx now o c k out d d1 : releaseLive tx now o c k out d = Some d1 -> evolve tx d d1.
Proof.
  unfold releaseLive. destruct (existsb _ _); [|done]. intros [= <-]. apply evolve_claims, update_claims_step.
  intros cl ?. bool_hyps. eauto with cq.
Qed.

Lemma handback_ev tx now later o c k out delay le d : wf d -> evolve tx d (snd (HandBackClaimSystem tx now later o c k out delay le d)).
Proof.
  intros W. unfold HandBackClaimSystem. destruct (HandBackPolicyFor out); [|apply evolve_refl].
  destruct o as [o|], c as [c|], k as [k|]; try apply evolve_refl.
  destruct (releaseLive tx now o c k out d) as [d1|] eqn:E; [|apply evolve_refl].
  eapply evolve_trans; [done|by eapply release_live_ev|no_unpark|]. by apply evolve_convs.
Qed.

Lemma requeue_ev tx now later o c k out delay le d : wf d -> evolve tx d (snd (RequeueConversation tx now later o c k out delay le d)).
Proof.
  intros W. unfold RequeueConversation. destruct (RequeueOutcomeValid out); [|apply evolve_refl].
  destruct o as [o|], c as [c|], k as [k|]; try apply evolve_refl. destruct (find _ _) as [r0|]; [|apply evolve_refl].
  destruct (releaseLive tx now o c k out d) as [d1|] eqn:E; [|apply evolve_refl].
  destruct (isNull _); [|by eapply release_live_ev]. eapply evolve_trans; [done|by eapply release_live_ev|no_unpark|]. by apply evolve_convs.
Qed.

(** Parking mid-flight conversations [p] together with the release of their claims. *)
Lemma orphan_ev d p tx q :
  (forall cl, q cl = true -> unreleased cl = true) ->
  (forall r cl, r ∈ convs d -> p r = true -> cl ∈ claims d -> k_conv cl = c_id r -> unreleased cl = true -> q cl = true) ->
  evolve tx d (set_claims (update q (release tx "cancelled") (claims d)) (set_convs (update p (orphan_row tx) (convs d)) d)).
Proof.
  intros Hq Hp. apply evolve_same_runs; simpl; [|apply update_convs_step|done].
  - apply update_claims_step. eauto with cq.
  - intros r Hr Hpr. split; [done|]. split; [|by apply parked_stamp]. do 2 right. apply freed; [|done]. intros cl Hcl Ec Hu. by eapply (Hp r).
Qed.

Lemma claims_of_child (p : conversation -> bool) l r cl :
  r ∈ l -> p r = true -> k_conv cl = c_id r -> unreleased cl = true -> claims_of (map c_id (List.filter p l)) cl = true.
Proof.
  intros Hr Hp E Hu. unfold claims_of. rewrite Hu, andb_true_r. apply existsb_elem. exists (c_id r).
  split; [|by rewrite E, bool_decide_true]. apply list_elem_of_fmap. exists r. split; [done|]. by apply filter_elem.
Qed.

Lemma reconcile_ev tx d : evolve tx d (snd (ReconcileOrphanedConversations tx d)).
Proof. apply orphan_ev; [eauto with cq|]. intros. by eapply claims_of_child. Qed.

(** A write of the runs that keeps their identity and starts none. *)
Lemma evolve_runs t d f :
  (forall b, run_step b (f b)) -> (forall b, b_status (f b) = Running -> b_status b = Running /\ current_step_index (f b) = current_step_index b) ->
  evolve t d (set_runs (map f (runs d)) d).
Proof.
  intros H1 H2. split; simpl; [apply Forall2_self, _|apply Forall2_self, _|by apply map_rel|].
  intros b' (b & -> & Hb)%list_elem_of_fmap Hr. left. destruct (H2 b Hr), (H1 b) as (? & _ & _). by exists b.
Qed.

Lemma mark_ev tx org run s reason st adj com d : wf d -> evolve tx d (snd (markBlueprintRunStatus tx org run s reason st adj com d)).
Proof.
  intros W. unfold markBlueprintRunStatus. destruct run as [i|]; [|apply evolve_refl].
  set (p := fun b => _). set (d1 := set_runs _ d).
  assert (evolve tx d d1) as H1.
  { apply evolve_runs; intros b; destruct (p b) eqn:E; [done|done| |done]. simpl. intros ->. unfold p in E. by bool_hyps. }
  assert (forall l, evolve tx l (set_claims (update (claims_of (childIDs org i l)) (release tx "cancelled") (claims l))
            (set_convs (update (midflight_child org i) (orphan_row tx) (convs l)) l))) as H2.
  { intros l. apply orphan_ev; [eauto with cq|]. intros. by eapply claims_of_child. }
  destruct (existsb p (runs d) && Terminal s); [destruct adj; simpl|].
  - destruct com; simpl.
    + eapply evolve_trans; [done|exact H1|unfold releaseParkedChildClaims; simpl; no_unpark|]. unfold releaseParkedChildClaims. simpl.
      apply (orphan_ev d1); [intros cl ?; bool_hyps; eauto with cq|]. intros r cl Hr Hp Hcl E Hu.
      assert (claims_of (childIDs org i d1) cl = true) as -> by (by eapply claims_of_child). rewrite andb_true_r.
      unfold midflight_child in Hp. bool_hyps. rewrite (active_claim_org d1 org (c_id r) r cl); [by apply bool_decide_true| |done| |done|done].
      * by eapply evolve_wf.
      * unfold is_conv. by rewrite !bool_decide_true.
    + unfold releaseParkedChildClaims. apply evolve_claims, update_claims_step. intros cl ?. bool_hyps. eauto with cq.
  - eapply evolve_trans; [done|exact H1|no_unpark|apply H2].
  - destruct (adj && negb com); [apply evolve_refl|done].
Qed.

Lemma cancel_ev t org run d : evolve t d (snd (RequestRunCancelSystem org run d)).
Proof.
  unfold RequestRunCancelSystem. destruct run; [|apply evolve_refl]. simpl. unfold update.
  apply evolve_runs; intros b; match goal with |- context [if ?x then _ else _] => destruct x end; by simpl.
Qed.

Lemma settled_parked r : SettledConversationSQL r = true -> status (park r) <> None.
Proof. unfold SettledConversationSQL, ConcludedConversationSQL. destruct (status (park r)); [done|]. by rewrite !bool_decide_false by done. Qed.

Lemma settle_ev tx scope sr sk v snap d : claims snap = claims d -> wf d -> evolve tx d (snd (settleUnclaimedStops tx scope sr sk v snap d)).
Proof.
  intros E W. unfold settleUnclaimedStops. simpl. set (vs := sort_by _ _). set (lk := settle_runs _ _ _ _).
  eapply (evolve_trans _ _ (set_convs _ d)); [done| |no_unpark|apply (evolve_runs tx (set_convs _ d))].
  - apply evolve_same_runs; [apply Forall2_self, _| |done]. simpl. apply update_convs_step. intros r Hr Hp.
    split; [unfold settle_row; by destruct (SettledConversationSQL r)|].
    split; [|apply parked_stamp; unfold settle_row; destruct (SettledConversationSQL r) eqn:Es; [|done]; by apply settled_parked in Es]. do 2 right. bool_hyps.
    match goal with H : victim _ _ _ _ r = true |- _ => unfold victim, settleNoLiveClaimSQL, activeClaimExistsSQL in H; rewrite E in H end. bool_hyps.
    intros cl Hcl Ec. match goal with H : existsb _ (claims d) = false |- _ => pose proof (proj1 (existsb_nobody _ _) H cl Hcl) as Hx end. simpl in Hx.
    assert (c_id (settle_row tx r) = c_id r) as Ei by (unfold settle_row, c_id; by destruct (SettledConversationSQL r)).
    rewrite Ec, Ei, bool_decide_true in Hx by done. done.
  - intros b. unfold settle_run. break.
  - intros b. unfold settle_run. break.
Qed.

(** ** Inserts *)

Lemma wf_ext d d' : convs d' = convs d -> claims d' = claims d -> runs d' = runs d -> wf d -> wf d'.
Proof.
  intros E1 E2 E3 W. eapply (evolve_wf 0); [exact W|]. apply evolve_same_runs; [rewrite E2|rewrite E1|done]; apply Forall2_self, _.
Qed.

Lemma wf_mint_conv d r bs :
  wf d -> c_id r ∉ map c_id (convs d) -> NoDup (map b_id bs) ->
  (forall b, b ∈ bs -> b_status b = Running -> at_step (set_convs (r :: convs d) d) b) ->
  wf (set_runs bs (set_convs (r :: convs d) d)).
Proof.
  intros W Hf Hb Hs. destruct W as [H1 H2 H3 H4 H5 H6 H7 H8]. split; simpl; try done.
  - by apply NoDup_cons.
  - intros cl Hcl. destruct (H6 cl Hcl) as (x & ? & ?). exists x. split; [by right|done].
  - intros cl x Hcl [->|Hx]%elem_of_cons Hu E; [|by eapply H7].
    exfalso. apply Hf. destruct (H6 cl Hcl) as (y & Hy & Ey & _). apply list_elem_of_fmap. exists y. split; [congruence|done].
Qed.

Lemma insertConversation_ok tx org n d r d' :
  insertConversation tx org n d = (Ok r, d') ->
  r = minted_row tx org n d /\ d' = set_convs (r :: convs d) d /\ c_id r ∉ map c_id (convs d).
Proof.
  unfold insertConversation. destruct (negb (AssertBlueprintStepIndexed n)); [done|]. destruct (negb _ && _); [done|].
  destruct (existsb _ _) eqn:E; [done|]. intros [= <- <-]. split; [done|]. split; [done|].
  intros (x & Ex & Hx)%list_elem_of_fmap. rewrite existsb_nobody in E. specialize (E x Hx). bool_hyps. apply E. by rewrite <- Ex.
Qed.

Lemma insertConversation_err tx org n d e d' : insertConversation tx org n d = (Err e, d') -> d' = d.
Proof. unfold insertConversation. intros. break. Qed.

Lemma create_wf tx wall org n agent owner first d :
  wf d -> n_run first = Some (nr_id n) -> n_step first = Some 0 ->
  wf (snd (CreateRunWithFirstStepSystem tx wall org n agent owner first d)).
Proof.
  intros W Er Es. unfold CreateRunWithFirstStepSystem. cbv zeta.
  set (event := nr_trigger_type n =? "event"%string).
  match goal with |- wf (snd (match ?x with Ok _ => _ | Err _ => _ end)) => destruct x as [[[[i c] r] d']|e] eqn:E; [|done] end. simpl.
  destruct (nr_trigger_type n =? ""%string); [done|]. destruct (event && _); [done|].
  apply res_bind_ok in E as ([open tt'] & _ & E). apply res_bind_ok in E as (ow & _ & E). apply res_bind_ok in E as ([ins d1] & Ei & E).
  assert (ins = false \/ (exists b, d1 = set_runs (b :: runs d) d /\ b_id b = nr_id n /\ current_step_index b = 0 /\ nr_id n ∉ map b_id (runs d))) as Hi.
  { unfold insertFiringRun in Ei. destruct (negb event && _); [done|]. destruct (event && existsb _ _); [left; by simplify_eq|].
    destruct (existsb _ (runs d)) eqn:Ex; [done|]. destruct (_ && _); [done|]. right. simplify_eq. eexists. split; [reflexivity|]. do 2 (split; [done|]).
    intros (b & Eb & Hb)%list_elem_of_fmap. rewrite existsb_nobody in Ex. specialize (Ex b Hb). bool_hyps. congruence. }
  destruct ins; simpl in E; [|by simplify_eq]. destruct Hi as [?|(b & -> & Eb & Eb0 & Hfresh)]; [done|].
  destruct (event && negb open); [done|]. destruct (lockFiringTeam _ _ _); [done|].
  apply res_bind_ok in E as ([cl d4] & E4 & E).
  set (e := endSettledConversationsForTask wall org (nr_task n) d).
  assert (convs d4 = convs e /\ claims d4 = claims d /\ runs d4 = b :: runs d) as (C1 & C2 & C3).
  { destruct agent as [[a g]|]; [apply res_bind_ok in E4 as (g' & _ & E4)|]; unfold stampAgentClaimIfUnclaimed in E4; simplify_eq; by destruct ow. }
  destruct (insertConversation tx org first d4) as [[r'|e'] d5] eqn:E5; simplify_eq.
  apply insertConversation_ok in E5 as (-> & -> & Hf). rewrite C1 in Hf.
  assert (wf e) as We by (eapply (evolve_wf 0); [exact W|]; by apply evolve_convs).
  set (r := minted_row tx org first d4) in *.
  eapply (wf_ext (set_runs (b :: runs d) (set_convs (r :: convs e) e))); [simpl; by rewrite C1|simpl; by rewrite C2|simpl; by rewrite C3|].
  apply wf_mint_conv; [done|done|simpl; apply NoDup_cons; rewrite Eb; split; [done|apply (wf_runs _ W)]|].
  intros b' [->|Hb']%elem_of_cons Hr.
  - exists r. simpl. rewrite Eb, Eb0. split; [by left|done].
  - destruct (wf_step _ We b' Hb' Hr) as (x & ? & ?). exists x. split; [by right|done].
Qed.

Lemma advance_wf tx wall org from co next d : wf d -> wf (snd (AdvanceRunToStepSystem tx wall org from co next d)).
Proof.
  intros W. unfold AdvanceRunToStepSystem. destruct (n_run next) as [run|] eqn:Er; [|done]. destruct (n_step next) as [to|] eqn:Es; [|done].
  unfold advanceRunCurrentStep. set (p := fun b => _). destruct (existsb p (runs d)) eqn:Ep; simpl; [|done].
  set (d1 := set_runs _ d). destruct (endConversation wall org co EndedStepAdvanced d1) as [e d2] eqn:Ee.
  destruct (insertConversation tx org next d2) as [[r|e'] d3] eqn:Ei; [|done]. simpl.
  apply insertConversation_ok in Ei as (-> & -> & Hf). set (r := minted_row tx org next d2) in *.
  set (e0 := snd (endConversation wall org co EndedStepAdvanced d)).
  assert (convs d2 = convs e0 /\ claims d2 = claims e0 /\ runs d2 = runs d1 /\ runs e0 = runs d) as (C1 & C2 & C3 & C4).
  { unfold e0. destruct d. unfold endConversation, d1 in *. destruct co; simpl in *; by simplify_eq. }
  assert (wf e0) as We.
  { eapply (evolve_wf 0); [exact W|]. unfold e0, endConversation. destruct co; simpl; [by apply evolve_convs|apply evolve_refl]. }
  eapply (wf_ext (set_runs (runs d1) (set_convs (r :: convs e0) e0))); [simpl; by rewrite C1|simpl; by rewrite C2|simpl; by rewrite C3|]. rewrite C1 in Hf.
  apply wf_mint_conv; [done|done| |].
  - simpl. rewrite (Forall2_map_eq run_step b_id (runs d)); [apply (wf_runs _ W)|by intros x y []|]. apply update_rel_all; [apply _|done].
  - intros b' (b & Hb & ->)%elem_of_update Hr. destruct (p b) eqn:Epb.
    + exists r. simpl. rewrite Er, Es. unfold p in Epb. bool_hyps. subst. split; [by left|done].
    + destruct (wf_step _ We b) as (x & ? & ?); [by rewrite C4|done|]. exists x. split; [by right|done].
Qed.

Lemma create_claims tx wall org n agent owner first d : claims (snd (CreateRunWithFirstStepSystem tx wall org n agent owner first d)) = claims d.
Proof.
  unfold CreateRunWithFirstStepSystem. cbv zeta.
  match goal with |- claims (snd (match ?x with Ok _ => _ | Err _ => _ end)) = _ => destruct x as [[[[i c] r] d']|e] eqn:E; [|done] end. simpl.
  destruct (nr_trigger_type n =? ""%string); [done|]. destruct (_ && _); [done|].
  apply res_bind_ok in E as ([open tt'] & _ & E). apply res_bind_ok in E as (ow & _ & E). apply res_bind_ok in E as ([ins d1] & Ei & E).
  assert (claims d1 = claims d) as C1 by (unfold insertFiringRun in Ei; by break).
  destruct ins; simpl in E; [|by simplify_eq]. destruct (_ && _); [done|]. destruct (lockFiringTeam _ _ _); [done|].
  apply res_bind_ok in E as ([cl d4] & E4 & E).
  assert (claims d4 = claims d) as C4.
  { destruct agent as [[a g]|]; [apply res_bind_ok in E4 as (g' & _ & E4)|]; unfold stampAgentClaimIfUnclaimed in E4; simplify_eq; by destruct ow. }
  destruct (insertConversation tx org first d4) as [[r'|e'] d5] eqn:E5; simplify_eq. by apply insertConversation_ok in E5 as (_ & -> & _).
Qed.

Lemma advance_claims tx wall org from co next d : claims (snd (AdvanceRunToStepSystem tx wall org from co next d)) = claims d.
Proof.
  unfold AdvanceRunToStepSystem. destruct (n_run next), (n_step next); try done. unfold advanceRunCurrentStep. destruct (existsb _ _); simpl; [|done].
  destruct (endConversation _ _ _ _ _) as [e d2] eqn:Ee. destruct (insertConversation _ _ _ _) as [[r|e'] d3] eqn:Ei; [|done].
  apply insertConversation_ok in Ei as (_ & -> & _). unfold endConversation in Ee. simpl in *. destruct co; by simplify_eq.
Qed.

(** What an operation makes of the conversations: rows rewritten in place, and
    at most one minted at the head, queued at the time of the transaction. *)
Definition kept (t : Z) (a b : conversation) : Prop := key b = key a /\ stamped t a b.

Definition convs_step (t : Z) (l l' : list conversation) : Prop :=
  exists rest, Forall2 (kept t) l rest /\
    (l' = rest \/ exists r, l' = r :: rest /\ c_id r ∉ map c_id l /\ queued_at (queue r) = Some t).

#[global] Instance kept_refl t : Reflexive (kept t).
Proof. intros a. split; [done|]. unfold stamped. by intros ->. Qed.

Lemma convs_step_refl t l : convs_step t l l.
Proof. exists l. split; [apply Forall2_self, _|by left]. Qed.

Lemma quiet_kept t f p l : quiet f -> Forall2 (kept t) l (update p f l).
Proof. intros H. apply update_rel; [apply _|]. intros r _ _. by destruct (quiet_step t [] f r H) as (? & _ & ?). Qed.

Lemma mint_convs tx org n d r d' l :
  insertConversation tx org n d = (Ok r, d') -> Forall2 (kept tx) l (convs d) -> convs_step tx l (convs d').
Proof.
  intros (-> & -> & Hf)%insertConversation_ok H. exists (convs d). split; [done|]. right. eexists. split; [done|]. split; [|done].
  replace (map c_id l) with (map c_id (convs d)); [done|]. eapply Forall2_map_eq; [|exact H]. intros x y [E _]. by apply key_id.
Qed.

Lemma create_convs tx wall org n agent owner first d :
  convs_step tx (convs d) (convs (snd (CreateRunWithFirstStepSystem tx wall org n agent owner first d))).
Proof.
  unfold CreateRunWithFirstStepSystem. cbv zeta.
  match goal with |- convs_step _ _ (convs (snd (match ?x with Ok _ => _ | Err _ => _ end))) => destruct x as [[[[i c] r] d']|e] eqn:E; [|apply convs_step_refl] end. simpl.
  destruct (nr_trigger_type n =? ""%string); [done|]. destruct (_ && _); [done|].
  apply res_bind_ok in E as ([open tt'] & _ & E). apply res_bind_ok in E as (ow & _ & E). apply res_bind_ok in E as ([ins d1] & Ei & E).
  assert (convs d1 = convs d) as C1 by (unfold insertFiringRun in Ei; by break).
  destruct ins; simpl in E; [|simplify_eq; apply convs_step_refl]. destruct (_ && _); [done|]. destruct (lockFiringTeam _ _ _); [done|].
  apply res_bind_ok in E as ([cl d4] & E4 & E).
  assert (convs d4 = convs (endSettledConversationsForTask wall org (nr_task n) d1)) as C4.
  { destruct agent as [[a g]|]; [apply res_bind_ok in E4 as (g' & _ & E4)|]; unfold stampAgentClaimIfUnclaimed in E4; simplify_eq; by destruct ow. }
  destruct (insertConversation tx org first d4) as [[r'|e'] d5] eqn:E5; simplify_eq. eapply mint_convs; [exact E5|]. rewrite C4. simpl. rewrite C1.
  by apply quiet_kept.
Qed.

Lemma advance_convs tx wall org from co next d : convs_step tx (convs d) (convs (snd (AdvanceRunToStepSystem tx wall org from co next d))).
Proof.
  unfold AdvanceRunToStepSystem. destruct (n_run next), (n_step next); try apply convs_step_refl. unfold advanceRunCurrentStep.
  destruct (existsb _ _); simpl; [|apply convs_step_refl].
  destruct (endConversation _ _ _ _ _) as [e d2] eqn:Ee. destruct (insertConversation _ _ _ _) as [[r|e'] d3] eqn:Ei; [|apply convs_step_refl].
  eapply mint_convs; [exact Ei|]. unfold endConversation in Ee. simpl in *. destruct co; simplify_eq; simpl; [by apply quiet_kept|apply Forall2_self, _].
Qed.

Lemma candidate_spec tx now pl e skip snap cur r :
  candidate tx now pl e skip snap cur = Some r -> r ∈ convs cur /\ claim_where tx now pl e snap r = true.
Proof.
  unfold candidate. induction (sort_by _ _) as [|x l IH]; [done|]. destruct (existsb _ skip); [done|].
  destruct (find _ _) as [r'|] eqn:Ef; [|done]. destruct (claim_where tx now pl e snap r') eqn:Ew; [|done].
  intros [= <-]. by apply find_elem in Ef as [].
Qed.

Lemma unpark_ev tx c d : evolve tx d (set_convs (update (unpark_where c) (unpark_row tx) (convs d)) d).
Proof.
  apply evolve_same_runs; [apply Forall2_self, _| |done]. apply update_convs_step. intros r _ _. split; [done|]. split; [by left|done].
Qed.

Lemma unparked_midflight tx c l r : r ∈ update (unpark_where c) (unpark_row tx) l -> c_id r = c -> status (park r) = None.
Proof.
  intros (x & Hx & ->)%elem_of_update E. destruct (unpark_where c x) eqn:Eu; [done|].
  unfold unpark_where in Eu. rewrite E, bool_decide_true in Eu by done. simpl in Eu. bool_hyps. by destruct (status (park x)).
Qed.

Lemma claim_wf newID tx now e boot pl lease skip snap d :
  wf d -> newID ∉ map k_id (claims d) -> wf (snd (claim_statement newID tx now e boot pl lease skip snap d)).
Proof.
  intros W Hf. unfold claim_statement. destruct (candidate _ _ _ _ _ _ _) as [r|] eqn:Ec; [|done].
  apply candidate_spec in Ec as [Hr _]. destruct (activeClaimExistsSQL d r) eqn:Ea; [done|]. simpl.
  pose proof (evolve_wf _ _ _ W (unpark_ev tx (c_id r) d)) as [H1 H2 H3 H4 H5 H6 H7 H8]. simpl in *.
  assert (forall a, a ∈ claims d -> k_conv a = c_id r -> unreleased a = true -> False) as Hno.
  { intros a Ha E Hu. unfold activeClaimExistsSQL in Ea. rewrite existsb_nobody in Ea. specialize (Ea a Ha).
    rewrite E, Hu, bool_decide_true in Ea by done. done. }
  split; simpl; try done.
  - apply NoDup_cons. done.
  - intros a b [->|Ha]%elem_of_cons [->|Hb]%elem_of_cons E Ua Ub; [done| | |by apply H4]; exfalso; by eapply Hno.
  - intros cl [->|Hcl]%elem_of_cons; [split; simpl; eauto|by apply H5].
  - intros cl [->|Hcl]%elem_of_cons; [|by apply H6]. simpl.
    destruct (Forall2_left _ _ _ _ (ev_convs _ _ _ (unpark_ev tx (c_id r) d)) Hr) as (r' & Hr' & [Ek _]).
    exists r'. unfold c_id, c_org. by rewrite Ek.
  - intros cl x [->|Hcl]%elem_of_cons Hx Hu E; [by eapply unparked_midflight|by eapply H7].
Qed.

(** ** Every step keeps the invariant and every release *)

(** The time an operation stamps on the rows it writes, [T] where it stamps none. *)
Definition op_time (T : Z) (o : qop) : Z :=
  match o with
  | OCreate tx _ _ _ _ _ _ | OAdvance tx _ _ _ _ _ | OMark tx _ _ _ _ _ _ _ | OWake tx _ _ _ _ | OClaim _ tx _ _ _ _ _ _ _ | OComplete tx _ _ _ _ _ _ _ _ _ _ _ _ _
  | OPark tx _ _ _ _ _ _ | OFail tx _ _ _ _ _ _ | OSettle tx _ _ _ _ _ | OReleaseExpired tx _ _ _ _
  | OTakeOver tx _ _ _ _ _ _ | OShutdown tx _ _ _ _ | OReset tx _ _ _ | OHandBack tx _ _ _ _ _ _ _ _
  | ORequeue tx _ _ _ _ _ _ _ _ | OReconcile tx => tx
  | _ => T
  end.

Definition inserts (o : qop) : bool :=
  match o with OCreate _ _ _ _ _ _ _ | OAdvance _ _ _ _ _ _ | OClaim _ _ _ _ _ _ _ _ _ => true | _ => false end.

Lemma op_evolves T o d : wf d -> legal o d -> inserts o = false -> evolve (op_time T o) d (apply o d).
Proof.
  intros W L Hi. destruct o; try done; simpl in *.
  - by apply mark_ev.
  - apply cancel_ev.
  - by apply wake_ev.
  - apply renew_ev.
  - apply reacquire_ev.
  - by apply complete_ev.
  - by apply park_ev.
  - by apply fail_ev.
  - apply stop_ev.
  - unfold RequestStopForClaimSystem. apply fenced_db; [apply evolve_refl|]. intros. apply stop_ev.
  - unfold ClearNextAttempt. destruct conv; [by apply evolve_convs|apply evolve_refl].
  - unfold SetExecutorForClaimSystem. apply fenced_db; [apply evolve_refl|]. intros. apply evolve_claims, update_claims_step. eauto with cq.
  - apply evolve_claims, update_claims_step. eauto with cq.
  - unfold SetClaimPhaseSystem. apply fenced_db; [apply evolve_refl|]. intros. apply evolve_claims, update_claims_step. eauto with cq.
  - apply evolve_claims, update_claims_step. eauto with cq.
  - unfold endConversationsForTask. destruct (negb _), t; try apply evolve_refl; by apply evolve_convs.
  - unfold EndConversationsForTeamSystem. destruct (negb _), g; try apply evolve_refl; by apply evolve_convs.
  - unfold endConversation. destruct (negb _), conv; try apply evolve_refl; by apply evolve_convs.
  - by apply settle_ev.
  - apply release_expired_ev.
  - by apply takeover_ev.
  - by apply shutdown_ev.
  - by apply reset_ev.
  - by apply handback_ev.
  - by apply requeue_ev.
  - apply reconcile_ev.
  - unfold SettleClaimCostSystem. destruct clm; [|apply evolve_refl]. simpl. destruct (cost_same org conv (Some z) cost d) as [ms ->].
    eapply evolve_messages, evolve_refl.
  - apply evolve_claims, update_claims_step. eauto with cq.
  - apply evolve_same_runs; [apply Forall2_self, _|apply Forall2_self, _|done].
Qed.

Lemma op_wf o d : wf d -> legal o d -> wf (apply o d).
Proof.
  intros W L. destruct (inserts o) eqn:Hi; [|by eapply evolve_wf, (op_evolves 0)].
  destruct o; try done; simpl in *; [apply create_wf; naive_solver|by apply advance_wf|by apply claim_wf].
Qed.

(** Outside a claim the list of claims only has its rows rewritten; a claim adds
    its row at the head. *)
Lemma op_claims T o d :
  wf d -> legal o d ->
  Forall2 (claim_step (op_time T o)) (claims d) (claims (apply o d))
  \/ exists cl, claims (apply o d) = cl :: claims d /\ claimed_at cl = op_time T o /\ released_at cl = None /\ free (claims d) (k_conv cl).
Proof.
  intros W L. destruct (inserts o) eqn:Hi; [|left; by apply (ev_claims _ _ _ (op_evolves T o d W L Hi))].
  destruct o; try done; simpl in *.
  - left. rewrite create_claims. apply Forall2_self, _.
  - left. rewrite advance_claims. apply Forall2_self, _.
  - unfold claim_statement. destruct (candidate _ _ _ _ _ _ _) as [r|]; [|left; apply Forall2_self, _].
    destruct (activeClaimExistsSQL d r) eqn:E; [left; apply Forall2_self, _|]. right. eexists. split; [reflexivity|]. do 2 (split; [done|]).
    intros cl Hcl Ec. unfold activeClaimExistsSQL in E. rewrite existsb_nobody in E. specialize (E cl Hcl). simpl in Ec.
    rewrite Ec, bool_decide_true in E by done. done.
Qed.

Lemma op_convs T o d : wf d -> legal o d -> convs_step (op_time T o) (convs d) (convs (apply o d)).
Proof.
  intros W L. assert (forall d', evolve (op_time T o) d d' -> convs_step (op_time T o) (convs d) (convs d')) as He.
  { intros d' H. exists (convs d'). split; [|by left]. eapply Forall2_impl; [apply (ev_convs _ _ _ H)|]. by intros a b (? & _ & ?). }
  destruct (inserts o) eqn:Hi; [|by apply He, op_evolves]. destruct o; try done; simpl in *; [apply create_convs|apply advance_convs|].
  unfold claim_statement. destruct (candidate _ _ _ _ _ _ _) as [r|]; [|apply convs_step_refl].
  destruct (activeClaimExistsSQL d r); [apply convs_step_refl|]. apply (He _ (unpark_ev tx (c_id r) d)).
Qed.

Lemma reachable_wf d d' : wf d -> rtc step d d' -> wf d'.
Proof. intros W H. revert W. induction H as [|? ? ? [o d L] _ IH]; intros W; [done|]. by apply IH, op_wf. Qed.

Lemma empty_wf : wf emptyDb.
Proof. split; simpl; try apply NoDup_nil_2; by intros ?? ?%elem_of_nil || by intros ? ?%elem_of_nil. Qed.

(** Along a run a released claim keeps its identity, its release and its outcome. *)
Definition same_release (a b : claim) : Prop :=
  k_id b = k_id a /\ k_org b = k_org a /\ k_conv b = k_conv a /\ released_at b = released_at a /\ k_outcome b = k_outcome a.

Lemma release_is_final d d' a :
  wf d -> rtc step d d' -> a ∈ claims d -> unreleased a = false -> exists b, b ∈ claims d' /\ same_release a b.
Proof.
  intros W H. revert a W. induction H as [|? ? ? [o d L] _ IH]; intros a W Ha Hu; [by exists a|].
  assert (exists b, b ∈ claims (apply o d) /\ same_release a b) as (b & Hb & E1 & E2 & E3 & E4 & E5).
  { destruct (op_claims 0 o d W L) as [H|(cl & E & _)].
    - destruct (Forall2_left _ _ _ _ H Ha) as (b & Hb & Hs). exists b. split; [done|].
      split; [apply Hs|]. split; [apply Hs|]. split; [apply Hs|]. split; [by eapply released_kept|by apply (cs_outcome _ _ _ Hs)].
    - exists a. rewrite E. split; [by right|done]. }
  destruct (IH b) as (c & Hc & F1 & F2 & F3 & F4 & F5); [by apply op_wf|done|unfold unreleased in *; by rewrite E4|].
  exists c. repeat split; congruence.
Qed.
