(* ===== verification/ConvSpec.v ===== *)
(** * What the conversation queue promises

    One driver per conversation in every reachable state, a lost claim that
    can write nothing any more, the claim that takes exactly the first
    conversation of its order and drains the queue when repeated, the episode
    counts against the claim history, the wait of a hand-back and the
    settlement of a stop. *)

From S2P Require Import Prelude ConvRow ConvStore ConvQueue ConvInv ConvSystem.
From Stdlib Require Import QArith.
#[local] Open Scope Z_scope.
#[local] Open Scope q_scope.

(** ** One driver *)

(** C6: In every state any interleaving of the store operations reaches, as
    long as a settlement of stops reads the claims committed before it and the
    unfenced executor stamp is not used, two unreleased claims of one
    conversation are the same claim, and an unreleased claim has a lease, has no
    outcome, and holds a conversation of its own organization that is
    mid-flight: neither parked nor failed nor concluded. *)
Theorem one_driver_per_conversation d :
  reachable d ->
  (forall a b, a ∈ claims d -> b ∈ claims d -> k_conv a = k_conv b -> unreleased a = true -> unreleased b = true -> a = b)
  /\ (forall cl, cl ∈ claims d -> unreleased cl = true ->
       is_Some (lease_expires_at cl) /\ k_outcome cl = None
       /\ exists r, r ∈ convs d /\ c_id r = k_conv cl /\ c_org r = k_org cl /\ status (park r) = None).
Proof.
  intros W%(reachable_wf _ _ empty_wf). split; [apply (wf_one _ W)|]. intros cl Hcl Hu.
  pose proof (wf_lease _ W cl Hcl) as Hl. unfold claim_ok in Hl. rewrite Hu in Hl. destruct Hl as [? ?]. do 2 (split; [done|]).
  destruct (wf_owner _ W cl Hcl) as (r & Hr & E1 & E2). exists r. do 3 (split; [done|]). by eapply (wf_midflight _ W cl).
Qed.

Lemma filter_nothing {A} (p : A -> bool) l : (forall x, x ∈ l -> p x = false) -> List.filter p l = [].
Proof.
  intros H. induction l as [|x l IH]; [done|]. simpl. rewrite (H x) by (by left). apply IH. intros y Hy. apply H. by right.
Qed.

Lemma eqv_some {A} `{EqDecision A} (o : option A) x : o = Some x -> eqv o (Some x) = true.
Proof. intros ->. simpl. by apply bool_decide_true. Qed.

Lemma no_desync d : wf d -> List.filter (missingStep d) (runs d) = [] /\ List.filter (claimDesync d) (convs d) = [].
Proof.
  intros W. split; apply filter_nothing.
  - intros b Hb. unfold missingStep. destruct (decide (b_status b = Running)) as [E|E]; [|by rewrite bool_decide_false].
    destruct (wf_step _ W b Hb E) as (r & Hr & E1 & E2). rewrite bool_decide_true by done. simpl. apply negb_false_iff, existsb_elem.
    exists r. split; [done|]. by rewrite (eqv_some _ _ E1), (eqv_some _ _ E2).
  - intros r Hr. unfold claimDesync. destruct (activeClaimExistsSQL d r) eqn:E; [|apply andb_false_r]. apply existsb_elem in E as (cl & Hcl & E). bool_hyps.
    unfold SettledConversationSQL, ConcludedConversationSQL. by rewrite (wf_midflight _ W cl r).
Qed.

(** C20: Whatever the stores did before, under the same two provisos, the boot
    reconciliation's two checkers answer zero and sample nothing: no settled
    conversation holds an unreleased claim and no running blueprint lacks a
    conversation at its current step. *)
Theorem boot_checkers_find_nothing d tx :
  reachable d -> exists n, fst (ReconcileOrphanedConversations tx d) = Ok (n, Check_ 0 [] 0 []).
Proof.
  intros H%(reachable_wf _ _ empty_wf). pose proof (op_wf (OReconcile tx) d H I) as W.
  destruct (no_desync _ W) as [E1 E2]. unfold apply, ReconcileOrphanedConversations in *. simpl snd in *. simpl fst.
  unfold countClaimDesyncs, countBlueprintRunsMissingCurrentStep, missingStepSample, claimDesyncSample. rewrite E1, E2. eauto.
Qed.

(** ** A lost claim *)

(** The operations an engagement performs in the name of claim [k], but for the
    two that keep its books: its cost and its sandbox's statistics. *)
Definition by_claim (k : Z) (o : qop) : bool :=
  match o with
  | ORenew _ _ _ c _ _ | OReacquire _ _ _ c _ _ _ | OComplete _ _ _ _ _ c _ _ _ _ _ _ _ _ | OPark _ _ _ _ _ c _ | OFail _ _ _ _ _ c _
  | OStopFor _ _ _ _ c _ | OSetExecutor _ _ _ c _ _ | OPhase _ _ _ c _ | OHandBack _ _ _ _ _ c _ _ _ | ORequeue _ _ _ _ _ c _ _ _ =>
      eqv c (Some k)
  | _ => false
  end.

Definition err_of {A} (a : ans A) : option qerr := match fst a with Err e => Some e | Ok _ => None end.

(** The error an engagement's operation answers, if it is refused. *)
Definition refusal (o : qop) (d : qdb) : option qerr :=
  match o with
  | ORenew now org conv clm lease a => err_of (RenewClaimLeaseSystem now org conv clm lease a d)
  | OReacquire now org conv clm e boot lease => err_of (ReacquireClaimLeaseSystem now org conv clm e boot lease d)
  | OComplete tx now wall org conv clm st cost dms turns su ou re ki => err_of (CompleteForClaimSystem tx now wall org conv clm st cost dms turns su ou re ki d)
  | OPark tx now wall org conv clm p => err_of (ParkOpenForClaimSystem tx now wall org conv clm p d)
  | OFail tx now wall org conv clm kind => err_of (MarkFailedIfActiveForClaimSystem tx now wall org conv clm kind d)
  | OStopFor tx now org conv clm reason => err_of (RequestStopForClaimSystem tx now org conv clm reason d)
  | OSetExecutor now org conv clm e boot => err_of (SetExecutorForClaimSystem now org conv clm e boot d)
  | OPhase now org conv clm p => err_of (SetClaimPhaseSystem now org conv clm p d)
  | OHandBack tx now later org conv clm out delay lastErr => err_of (HandBackClaimSystem tx now later org conv clm out delay lastErr d)
  | ORequeue tx now later org conv clm out delay lastErr => err_of (RequeueConversation tx now later org conv clm out delay lastErr d)
  | _ => None
  end.

Definition refused (d : qdb) (o : qop) : Prop := apply o d = d /\ is_Some (refusal o d).

Section Lost.
Context (d : qdb) (W : wf d) (a : claim) (Ha : a ∈ claims d) (Hu : unreleased a = false).

Lemma lost_named org c cl : cl ∈ claims d -> names org c (k_id a) cl = true -> cl = a.
Proof. intros Hcl E. unfold names in E. bool_hyps. by eapply (NoDup_key_inj k_id); eauto using wf_claims. Qed.

Lemma lost_refusal now org c : claimRefusal now d org c (k_id a) = Some ErrClaimReleased.
Proof.
  unfold claimRefusal. destruct (find _ _) as [cl|] eqn:E; [|done]. apply find_elem in E as [Hcl E].
  apply lost_named in E as ->; [|done]. unfold claimLeaseLive. by rewrite Hu.
Qed.

Lemma lost_nothing (p : claim -> bool) org c :
  (forall cl, p cl = true -> names org c (k_id a) cl = true /\ unreleased cl = true) -> existsb p (claims d) = false.
Proof.
  intros Hp. apply existsb_nobody. intros cl Hcl. apply not_true_is_false. intros [E ?]%Hp. apply lost_named in E as ->; [|done]. congruence.
Qed.

Lemma lost_fenced {A} now org conv (body : Z -> Z -> ans A) :
  fenced now d org conv (Some (k_id a)) body = (Err ErrClaimReleased, d).
Proof.
  unfold fenced, assertClaimActiveForConversationWrite, assertClaimActive. destruct conv as [c|]; [|done]. by rewrite lost_refusal.
Qed.

Lemma lost_releaseLive tx now o c out : releaseLive tx now o c (k_id a) out d = None.
Proof. unfold releaseLive. by rewrite (lost_nothing _ o c) by (intros; bool_hyps; eauto with cq). Qed.

Lemma lost_refused o : by_claim (k_id a) o = true -> refused d o.
Proof.
  intros Hb. unfold refused. destruct o; try done; simpl in Hb; destruct clm as [k|]; try done; simpl in Hb; bool_hyps; subst k; simpl.
  - unfold RenewClaimLeaseSystem. destruct conv as [c|]; [|by split]. rewrite (lost_nothing _ org c) by (intros; bool_hyps; eauto with cq). by split.
  - unfold ReacquireClaimLeaseSystem. destruct conv as [c|]; [|by split].
    rewrite (lost_nothing _ org c) by (intros; by bool_hyps). by split.
  - unfold CompleteForClaimSystem. destruct (ValidateConversationEnding st); [|by split]. rewrite lost_fenced. by split.
  - unfold ParkOpenForClaimSystem. rewrite lost_fenced. by split.
  - unfold MarkFailedIfActiveForClaimSystem. rewrite lost_fenced. by split.
  - unfold RequestStopForClaimSystem. rewrite lost_fenced. by split.
  - unfold SetExecutorForClaimSystem. rewrite lost_fenced. by split.
  - unfold SetClaimPhaseSystem. rewrite lost_fenced. by split.
  - unfold HandBackClaimSystem. destruct (HandBackPolicyFor out), org as [og|], conv as [c|]; try (by split). rewrite lost_releaseLive. by split.
  - unfold RequeueConversation. destruct (RequeueOutcomeValid out), org as [og|], conv as [c|]; try (by split).
    destruct (find _ _); [|by split]. rewrite lost_releaseLive. by split.
Qed.

End Lost.

(** ** The books of a claim *)

(** Only messages of conversation [c] change, and only their cost. *)
Definition costs_only (c : Z) (d d' : qdb) : Prop :=
  d' = set_messages (messages d') d /\
  Forall2 (fun m m' => m' = m \/ m_conv m = c /\ exists q, m' = set_cost q m) (messages d) (messages d').

(** Only claims named [k] change, and only their two statistics columns. *)
Definition stats_only (k : Z) (d d' : qdb) : Prop :=
  d' = set_claims (claims d') d /\
  Forall2 (fun a a' => a' = a \/ k_id a = k /\ exists m c, a' = with_stats m c a) (claims d) (claims d').

Lemma costs_only_refl c d : costs_only c d d.
Proof. split; [by destruct d|]. apply Forall2_self. by left. Qed.

Lemma settle_costs org c t f d : costs_only c d (snd (settle_on org c t f d)).
Proof.
  unfold settle_on. destruct t as [t|]; [|apply costs_only_refl]. split; [done|]. simpl. apply update_rel; [by left|].
  intros m _ Hm. right. bool_hyps. split; [done|]. by eexists.
Qed.

Lemma costs_only_trans c d d' d'' : costs_only c d d' -> costs_only c d' d'' -> costs_only c d d''.
Proof.
  intros [E1 H1] [E2 H2]. split; [rewrite E2, E1; done|]. revert H2. generalize (messages d''). clear E1 E2.
  induction H1 as [|m m' l l' Hm _ IH]; intros l'' H2; inversion H2 as [|? m'' ? ? Hm' H2']; subst; constructor; [|by apply IH].
  destruct Hm as [->|(Hc & q & ->)]; [done|]. destruct Hm' as [->|(_ & q' & ->)]; right; (split; [done|]); [by exists q|by exists q'].
Qed.

Lemma lump_costs org c clm q d : costs_only c d (settleClaimCostLump org c clm q d).
Proof.
  unfold settleClaimCostLump. set (first := match clm with Some _ => _ | None => _ end).
  assert (costs_only c d (snd first)) as H.
  { unfold first. destruct clm; [|apply costs_only_refl]. destruct (Qeq_bool q 0); [apply costs_only_refl|apply settle_costs]. }
  destruct (fst first || _); [done|]. eapply costs_only_trans; [exact H|apply settle_costs].
Qed.

(** C7: Once a claim is released, by its own hand-back, by a take-over after its
    lease lapsed, by a boot reset or by the end of its run, then in any later
    state every operation that drives the conversation in its name is refused
    with an error and writes nothing: the renewal, the re-acquisition, the
    terminal write, the park, the failure, the request to stop, the hand-backs
    and the stamps of executor and phase.  The two that only keep its books
    still run, as the teardown after a release needs: settling its cost changes
    nothing but the cost of messages of the conversation it is given, recording
    its sandbox's statistics nothing but those two columns of the claim. *)
Theorem lost_claim_writes_nothing d d' a :
  reachable d -> a ∈ claims d -> unreleased a = false -> rtc step d d' ->
  (forall o, by_claim (k_id a) o = true -> refused d' o)
  /\ (forall org c q, costs_only c d' (apply (OCost org c (Some (k_id a)) q) d'))
  /\ (forall org m c, stats_only (k_id a) d' (apply (OStats org (k_id a) m c) d')).
Proof.
  intros Hd Ha Hu Hs. pose proof (reachable_wf _ _ empty_wf Hd) as W.
  destruct (release_is_final d d' a W Hs Ha Hu) as (b & Hb' & E1 & _ & _ & E4 & _). split; [|split].
  - intros o Hb. apply (lost_refused d' (reachable_wf _ _ W Hs) b Hb'); [unfold unreleased in *; by rewrite E4|by rewrite E1].
  - intros org c q. apply lump_costs.
  - intros org m c. split; [done|]. simpl. apply update_rel; [by left|]. intros x _ Hx. right. bool_hyps. eauto.
Qed.

(** ** The claim takes the first conversation of its order *)

Section Order.
Context {A : Type} (le : A -> A -> bool).
Context (le_total : forall a b, le a b = true \/ le b a = true) (le_trans : forall a b c, le a b = true -> le b c = true -> le a c = true).

Lemma insert_head x l : match insert_by le x l with [] => False | y :: _ => (y = x \/ head l = Some y) end.
Proof. destruct l as [|z l]; simpl; [by left|]. destruct (le x z); [by left|by right]. Qed.

Lemma sort_head l m : head (sort_by le l) = Some m -> forall x, x ∈ l -> le m x = true.
Proof.
  revert m. induction l as [|y l IH]; [done|]. simpl. intros m Hm x Hx.
  assert (forall z, le z z = true) as refl by (intros z; by destruct (le_total z z)).
  destruct (sort_by le l) as [|z s] eqn:E; simpl in *.
  - assert (l = []) as -> by (destruct l as [|w l]; [done|]; exfalso; assert (w ∈ sort_by le (w :: l)) as Hw by (apply sort_by_elem; by left); by rewrite E in Hw; apply elem_of_nil in Hw).
    simplify_eq. apply elem_of_cons in Hx as [->|Hx]; [done|by apply elem_of_nil in Hx].
  - destruct (le y z) eqn:Ey; simpl in Hm; simplify_eq.
    + apply elem_of_cons in Hx as [->|Hx]; [done|]. by eapply le_trans, IH.
    + apply elem_of_cons in Hx as [->|Hx]; [by destruct (le_total m y); congruence|]. by apply IH.
Qed.

End Order.

Section Lex.
Fixpoint lexle (x y : list Z) : bool :=
  match x, y with a :: x, b :: y => (a <? b) || ((a =? b) && lexle x y) | _, _ => true end.

Lemma lexle_total x y : lexle x y = true \/ lexle y x = true.
Proof.
  revert y. induction x as [|a x IH]; intros [|b y]; simpl; auto.
  destruct (Z.lt_trichotomy a b) as [H|[->|H]]; [left|destruct (IH y) as [->| ->]; [left|right]|right];
    rewrite ?(proj2 (Z.ltb_lt _ _) H); rewrite ?bool_decide_true by done; by rewrite ?orb_true_r.
Qed.

Lemma lexle_trans x y z : length x = length y -> lexle x y = true -> lexle y z = true -> lexle x z = true.
Proof.
  revert y z. induction x as [|a x IH]; intros [|b y] [|c z] E; simpl in *; try done. injection E as E.
  rewrite !orb_true_iff, !andb_true_iff, !Z.ltb_lt, !bool_decide_eq_true.
  intros [H|[-> H]] [H'|[-> H']]; [left; lia|by left|by left|]. right. split; [done|by eapply IH].
Qed.
End Lex.

Definition claim_key (pl : ClaimPlacement) (e : string) (d : qdb) (r : conversation) : list Z :=
  [if Enabled pl && tier1 e r then 0 else 1; org_active d (c_org r); started_at (key r); c_id r].

Lemma claim_le_key pl e d a b : claim_le pl e d a b = lexle (claim_key pl e d a) (claim_key pl e d b).
Proof. done. Qed.

(** The order of claims, spelled out: the executor's own tier, the organization
    with fewest occupied slots, the oldest start, the smallest id. *)
Definition claimed_before (pl : ClaimPlacement) (e : string) (d : qdb) (a b : conversation) : Prop :=
  let tier r := if Enabled pl && tier1 e r then 0 else 1 in
  tier a < tier b
  \/ (tier a = tier b
      /\ (org_active d (c_org a) < org_active d (c_org b)
          \/ (org_active d (c_org a) = org_active d (c_org b)
              /\ (started_at (key a) < started_at (key b) \/ (started_at (key a) = started_at (key b) /\ c_id a <= c_id b))))).

Lemma claim_le_before pl e d a b : claim_le pl e d a b = true -> claimed_before pl e d a b.
Proof.
  rewrite claim_le_key. unfold claim_key, claimed_before. simpl.
  rewrite !orb_true_iff, !andb_true_iff, !orb_true_iff, !andb_true_iff, !orb_true_iff, !andb_true_iff, !orb_true_iff, !andb_true_iff, !Z.ltb_lt, !bool_decide_eq_true.
  intuition lia.
Qed.

Lemma claim_le_total pl e d a b : claim_le pl e d a b = true \/ claim_le pl e d b a = true.
Proof. rewrite !claim_le_key. apply lexle_total. Qed.

Lemma claim_le_trans pl e d a b c : claim_le pl e d a b = true -> claim_le pl e d b c = true -> claim_le pl e d a c = true.
Proof. rewrite !claim_le_key. by apply lexle_trans. Qed.

Lemma find_self d r : wf d -> r ∈ convs d -> find (fun x => c_id x =? c_id r) (convs d) = Some r.
Proof.
  intros W Hr. destruct (find _ _) as [x|] eqn:E.
  - apply find_elem in E as [Hx E]. bool_hyps. f_equal. by eapply (NoDup_key_inj c_id); eauto using wf_convs.
  - exfalso. eapply find_none in E; [|by apply list_elem_of_In]. bool_hyps. by apply E.
Qed.

(** With nothing locked and a current snapshot the candidate is the head of the order. *)
Lemma candidate_head tx now pl e d :
  wf d -> candidate tx now pl e [] d d = head (sort_by (claim_le pl e d) (List.filter (claim_where tx now pl e d) (convs d))).
Proof.
  intros W. unfold candidate.
  assert (forall x, x ∈ sort_by (claim_le pl e d) (List.filter (claim_where tx now pl e d) (convs d)) -> x ∈ convs d /\ claim_where tx now pl e d x = true) as H.
  { intros x Hx%sort_by_elem. by apply filter_elem in Hx. }
  destruct (sort_by _ _) as [|r l]; [done|]. destruct (H r) as [Hr Hw]; [by left|]. simpl. by rewrite find_self, Hw.
Qed.

Lemma org_active_mint cl d l org :
  org_active (set_claims (cl :: claims d) l) org = org_active d org + (if (k_org cl =? org) && unreleased cl then 1 else 0).
Proof. unfold org_active. simpl. destruct (_ && _); simpl; lia. Qed.

Lemma claim_step_of tx now pl e boot lease newID d :
  wf d ->
  match claim_statement newID tx now e boot pl lease [] d d with
  | (Conflict, _) => False
  | (Nothing, d') => d' = d /\ forall r, r ∈ convs d -> claim_where tx now pl e d r = false
  | (Got c, d') =>
      exists r, r ∈ convs d /\ claim_where tx now pl e d r = true
        /\ (forall r', r' ∈ convs d -> claim_where tx now pl e d r' = true -> claim_le pl e d r r' = true)
        /\ c = claim_report d r e newID tx
        /\ d' = set_claims (mint_claim newID tx now lease e boot r :: claims d)
                  (set_convs (update (unpark_where (c_id r)) (unpark_row tx) (convs d)) d)
  end.
Proof.
  intros W. unfold claim_statement. rewrite candidate_head by done.
  destruct (head _) as [r|] eqn:Eh.
  - assert (r ∈ convs d /\ claim_where tx now pl e d r = true) as [Hr Hw].
    { apply filter_elem, (sort_by_elem (claim_le pl e d)). destruct (sort_by _ _); [done|]. simplify_eq/=. by left. }
    destruct (activeClaimExistsSQL d r) eqn:Ea.
    + unfold claim_where, eligibleForDrivingSQL, needsDrivingSQL, awaitingDrivingSQL in Hw. rewrite Ea in Hw. bool_hyps. done.
    + exists r. split; [done|]. split; [done|]. split; [|done]. intros r' Hr' Hw'.
      eapply sort_head; [apply claim_le_total|intros; by eapply claim_le_trans|exact Eh|]. by apply filter_elem.
  - split; [done|]. intros r Hr. apply not_true_is_false. intros Hw.
    assert (r ∈ sort_by (claim_le pl e d) (List.filter (claim_where tx now pl e d) (convs d))) as Hin by (apply sort_by_elem, filter_elem; done).
    destruct (sort_by _ _); [by apply elem_of_nil in Hin|done].
Qed.

(** C10: A claim made with no row locked elsewhere never loses the race for its
    own insert; it answers nothing exactly when no conversation is eligible,
    drivable, within its organization's cap and open to this executor;
    otherwise it takes the first such conversation of the order (its own tier,
    the organization with fewest occupied slots, the oldest), holds a live
    claim on it, and leaves the organization within its cap. *)
Theorem claim_takes_the_first tx now pl e boot lease newID d :
  reachable d -> 0 < lease ->
  match claim_statement newID tx now e boot pl lease [] d d with
  | (Conflict, _) => False
  | (Nothing, d') => d' = d /\ forall r, r ∈ convs d -> claim_where tx now pl e d r = false
  | (Got c, d') =>
      exists r, r ∈ convs d /\ cl_conv c = c_id r /\ claim_where tx now pl e d r = true
        /\ (forall r', r' ∈ convs d -> claim_where tx now pl e d r' = true -> claimed_before pl e d r r')
        /\ ClaimLiveSystem now d' (c_org r) (Some (cl_claim c)) boot = true
        /\ (forall m, cap_of d (c_org r) = Some m -> org_active d' (c_org r) <= m)
  end.
Proof.
  intros W%(reachable_wf _ _ empty_wf) Hl. pose proof (claim_step_of tx now pl e boot lease newID d W) as H.
  destruct (claim_statement _ _ _ _ _ _ _ _ _ _) as [[| |c] d']; [done|done|].
  destruct H as (r & Hr & Hw & Hle & -> & ->). exists r. do 3 (split; [done|]). split; [eauto using claim_le_before|]. split.
  - simpl. rewrite !bool_decide_true by done. unfold claimLeaseLive. simpl. by rewrite (proj2 (Z.ltb_lt now (now + lease))) by lia.
  - intros m Hm. rewrite org_active_mint. simpl. rewrite bool_decide_true by done. simpl.
    unfold claim_where, under_cap in Hw. rewrite Hm in Hw. bool_hyps. unfold org_active in *. simpl in *. lia.
Qed.

(** ** Repeated claims drain the queue *)

Section Drain.
Context (tx now : Z) (pl : ClaimPlacement) (e : string) (boot lease : Z).

Definition claimable (d : qdb) : list conversation := List.filter (claim_where tx now pl e d) (convs d).

(** [n] claims in a row, with the conversations they took; [ids] are the claim ids drawn. *)
Fixpoint claim_times (ids : list Z) (d : qdb) : list Z * qdb :=
  match ids with
  | [] => ([], d)
  | i :: ids =>
      match claim_statement i tx now e boot pl lease [] d d with
      | (Got c, d1) => let (l, d2) := claim_times ids d1 in (cl_conv c :: l, d2)
      | (_, d1) => claim_times ids d1
      end
  end.

(** The database after the claim of [r]. *)
Definition after (i : Z) (r : conversation) (d : qdb) : qdb :=
  set_claims (mint_claim i tx now lease e boot r :: claims d)
    (set_convs (update (unpark_where (c_id r)) (unpark_row tx) (convs d)) d).

Lemma newest_update p f l :
  (forall x : conversation, key (f x) = key x) -> c_id <$> newest (update p f l) = c_id <$> newest l.
Proof.
  intros Hf. assert (key <$> newest (update p f l) = key <$> newest l) as E.
  { unfold update. induction l as [|x l IH]; [done|]. simpl.
    assert (forall x, key (if p x then f x else x) = key x) as Hk by (intros y; destruct (p y); auto).
    destruct (newest (map _ l)) as [s|], (newest l) as [s'|]; simplify_eq/=; [|by rewrite Hk].
    unfold newer, c_id. rewrite Hk, IH. by destruct (_ || _); rewrite ?Hk, ?IH. }
  destruct (newest (update p f l)), (newest l); simplify_eq/=; [|done]. unfold c_id. by rewrite E.
Qed.

Lemma filter_update (q : conversation -> bool) p f l :
  (forall x, q (f x) = q x) -> filter (fun x => q x = true) (update p f l) = update p f (filter (fun x => q x = true) l).
Proof.
  intros Hq. unfold update. induction l as [|x l IH]; [done|]. simpl. rewrite !filter_cons.
  assert (q (if p x then f x else x) = q x) as Eq by (by destruct (p x)).
  destruct (decide (q x = true)) as [E|E]; [rewrite decide_True by congruence|rewrite decide_False by congruence]; simpl; by rewrite IH.
Qed.

Lemma existsb_update (q : conversation -> bool) p f l : (forall x, q (f x) = q x) -> existsb q (update p f l) = existsb q l.
Proof. intros Hq. unfold update. induction l as [|x l IH]; [done|]. simpl. rewrite IH. f_equal. by destruct (p x). Qed.

Lemma drivable_after i r d x : blueprintDrivableSQL (after i r d) x = blueprintDrivableSQL d x.
Proof.
  unfold blueprintDrivableSQL. f_equal. destruct (task_id (key x)) as [t|]; [|done].
  unfold taskLiveConversationSQL, taskMemoryPendingSQL. simpl.
  rewrite (filter_update (fun r => of_task (c_org x) t r && liveTopLevelConversationSQL r)), newest_update, existsb_update by done. done.
Qed.

Lemma claim_where_after i r d x :
  (forall org, cap_of d org = None) -> c_id x <> c_id r -> claim_where tx now pl e (after i r d) x = claim_where tx now pl e d x.
Proof.
  intros Hc Hx. unfold claim_where. rewrite drivable_after. unfold under_cap.
  change (cap_of (after i r d) (c_org x)) with (cap_of d (c_org x)). rewrite Hc.
  change (placed tx pl e (after i r d) x) with (placed tx pl e d x). do 3 f_equal.
  unfold eligibleForDrivingSQL, needsDrivingSQL, awaitingDrivingSQL. do 4 f_equal.
  unfold activeClaimExistsSQL. simpl. by rewrite bool_decide_false by done.
Qed.

Lemma claim_where_taken i r d x : c_id x = c_id r -> claim_where tx now pl e (after i r d) x = false.
Proof.
  intros Hx. unfold claim_where, eligibleForDrivingSQL, needsDrivingSQL, awaitingDrivingSQL, activeClaimExistsSQL. simpl.
  rewrite bool_decide_true by done. simpl. rewrite !andb_false_r. done.
Qed.

Lemma claimable_after i r d :
  (forall org, cap_of d org = None) ->
  map c_id (claimable (after i r d)) = filter (fun c => c <> c_id r) (map c_id (claimable d)).
Proof.
  intros Hc. unfold claimable. simpl. unfold update. induction (convs d) as [|x l IH]; [done|]. simpl.
  destruct (decide (c_id x = c_id r)) as [E|E].
  - rewrite claim_where_taken by (by destruct (unpark_where _ _)). destruct (claim_where tx now pl e d x); [|done].
    simpl. rewrite filter_cons_False by (intros H; by apply H). done.
  - assert (unpark_where (c_id r) x = false) as -> by (unfold unpark_where; by rewrite bool_decide_false).
    rewrite claim_where_after by done. destruct (claim_where tx now pl e d x); [|done]. simpl. rewrite filter_cons_True by done. by rewrite IH.
Qed.

Lemma claimable_nodup d : wf d -> NoDup (map c_id (claimable d)).
Proof.
  intros W. eapply sublist_NoDup; [apply (wf_convs _ W)|]. unfold claimable. apply (fmap_sublist c_id). clear.
  induction (convs d); simpl; [done|]. destruct (claim_where _ _ _ _ _ _); by constructor.
Qed.

Lemma claim_times_drains ids d :
  wf d -> (forall org, cap_of d org = None) -> NoDup ids -> (forall i, i ∈ ids -> i ∉ map k_id (claims d)) -> length ids = length (claimable d) ->
  let (l, d') := claim_times ids d in l ≡ₚ map c_id (claimable d) /\ claimable d' = [].
Proof.
  revert d. induction ids as [|i ids IH]; intros d W Hc Hn Hf Hlen; simpl.
  - destruct (claimable d); [done|done].
  - pose proof (claim_step_of tx now pl e boot lease i d W) as H. pose proof (claim_wf i tx now e boot pl lease [] d d W) as W'.
    destruct (claim_statement _ _ _ _ _ _ _ _ _ _) as [[| |c] d1]; [|done|].
    + destruct H as [-> H]. exfalso. unfold claimable in Hlen. rewrite filter_nothing in Hlen by done. done.
    + destruct H as (r & Hr & Hw & _ & -> & E). fold (after i r d) in E. subst d1. apply NoDup_cons in Hn as [Hi Hn].
      assert (c_id r ∈ map c_id (claimable d)) as Hin by (apply list_elem_of_fmap; exists r; split; [done|by apply filter_elem]).
      pose proof (claimable_nodup d W) as Hnd.
      assert (map c_id (claimable d) ≡ₚ c_id r :: map c_id (claimable (after i r d))) as Hp.
      { rewrite claimable_after by done. apply NoDup_Permutation; [done| |].
        - apply NoDup_cons. split; [|by apply NoDup_filter]. rewrite list_elem_of_filter. by intros [? _].
        - intros x. rewrite elem_of_cons, list_elem_of_filter. destruct (decide (x = c_id r)); naive_solver. }
      specialize (IH (after i r d)). destruct (claim_times ids (after i r d)) as [l d2]. destruct IH as [IH1 IH2]; [|done|done| | |].
      * simpl in W'. apply W', Hf. by left.
      * intros j Hj. simpl. rewrite elem_of_cons. intros [->|H]; [done|]. eapply Hf; [by right|done].
      * apply Permutation_length in Hp. rewrite !length_map in Hp. simpl in Hp, Hlen. rewrite length_map in Hp. lia.
      * split; [|done]. simpl. by rewrite IH1, Hp.
Qed.

End Drain.

(** Executor [e] is a live claimant: it heartbeats, does not drain and takes
    work. *)
Definition takes_work (tx : Z) (pl : ClaimPlacement) (d : qdb) (e : string) : Prop :=
  exists i, i ∈ instances d /\ i_id i = e /\ tx <= last_heartbeat_at i + Liveness pl /\ draining i = false
    /\ drain_until_epoch i <> Some (i_boot i) /\ dispatch_gated i <> Some true.

(** Whom placement lets claim [r]: anyone when it is off, when the conversation
    is unowned, has waited past the aging interval or its owner takes no work;
    its owner always. *)
Definition open_to (tx : Z) (pl : ClaimPlacement) (e : string) (d : qdb) (r : conversation) : Prop :=
  Enabled pl = false \/
  match preferred_executor_id (queue r) with
  | None => True
  | Some o => o = e \/ default (started_at (key r)) (queued_at (queue r)) + AgingInterval pl < tx \/ ~ takes_work tx pl d o
  end.

Lemma live_claimant_spec tx pl d e : live_claimant tx (Liveness pl) d e = true <-> takes_work tx pl d e.
Proof.
  unfold live_claimant, takes_work, drainingSQL. rewrite existsb_elem. split.
  - intros (i & Hi & E). exists i. bool_hyps. split_and!; try done. lia.
  - intros (i & Hi & E1 & E2 & E3 & E4 & E5). exists i. split; [done|]. rewrite E3. simpl.
    rewrite (bool_decide_true _ E1), (bool_decide_false _ E4), (bool_decide_false _ E5). simpl. rewrite !andb_true_r. apply Z.leb_le. lia.
Qed.

Lemma placed_spec tx pl e d r : placed tx pl e d r = true <-> open_to tx pl e d r.
Proof.
  unfold placed, open_to, tier1. destruct (Enabled pl); simpl; [|by intuition]. destruct (preferred_executor_id (queue r)) as [o|]; simpl; [|by intuition].
  rewrite !orb_true_iff, bool_decide_eq_true, Z.ltb_lt, negb_true_iff, <- not_true_iff_false, live_claimant_spec.
  split; [intros [?|[?|?]]; right; [by left|right; left; lia|by do 2 right]|intros [?|[?|[?|?]]]; [done|by left|right; left; lia|by do 2 right]].
Qed.

Lemma claim_where_spec tx now pl e d r : cap_of d (c_org r) = None ->
  claim_where tx now pl e d r = true <-> eligibleForDrivingSQL now d r = true /\ blueprintDrivableSQL d r = true /\ open_to tx pl e d r.
Proof. intros Hc. unfold claim_where, under_cap. rewrite Hc, andb_true_r, !andb_true_iff, placed_spec. tauto. Qed.

(** C11: In a state the store operations reach (under the two provisos of C6),
    with no caps set and nobody else writing, an executor that claims at one
    instant, under fresh claim ids, as often as there are conversations it may
    claim takes each of them exactly once, and none is left. Those are the
    conversations that are eligible and drivable and that placement leaves
    open to it: its own and, for every executor, the unowned, those that
    waited past the aging interval and those whose owner is gone, drains or is
    gated. So nothing ahead in the order keeps a claimable conversation
    waiting for ever. *)
Theorem repeated_claims_drain_the_queue tx now pl e boot lease ids d :
  reachable d -> (forall org, cap_of d org = None) -> NoDup ids -> (forall i, i ∈ ids -> i ∉ map k_id (claims d)) ->
  length ids = length (claimable tx now pl e d) ->
  let (l, d') := claim_times tx now pl e boot lease ids d in
  NoDup l /\ claimable tx now pl e d' = [] /\ length l = length (claimable tx now pl e d)
  /\ (forall c, c ∈ l <-> exists r, r ∈ convs d /\ c_id r = c /\ eligibleForDrivingSQL now d r = true
                           /\ blueprintDrivableSQL d r = true /\ open_to tx pl e d r).
Proof.
  intros W%(reachable_wf _ _ empty_wf) Hc Hi Hf Hlen. pose proof (claim_times_drains tx now pl e boot lease ids d W Hc Hi Hf Hlen) as H.
  destruct (claim_times _ _ _ _ _ _ _ _) as [l d']. destruct H as [Hp Hd]. split; [|split; [done|split]].
  - rewrite Hp. by apply claimable_nodup.
  - by rewrite (Permutation_length Hp), length_map.
  - intros c. rewrite Hp, list_elem_of_fmap. split.
    + intros (r & -> & [Hr Hw]%filter_elem). apply (claim_where_spec tx now pl e d r (Hc _)) in Hw. by exists r.
    + intros (r & Hr & <- & Hw). exists r. split; [done|]. apply filter_elem. split; [done|]. by apply claim_where_spec.
Qed.
