(* ===== verification/ConvEpisode.v ===== *)
(** * Queue episodes against the claim history

    The episode counts of a claim are SQL over the timestamps of released
    claims and the conversation's queued_at.  [episode] is what they stand for,
    read off the history of the conversation's claims from the newest back, and
    off the times at which an observer saw the conversation enter the queue; on
    a database whose clock does not run backwards the SQL never counts more, and
    counts the same once every engagement that recorded an outcome of its own
    took some time.  The waits of hand-backs and the settlement of stops
    follow. *)

From S2P Require Import Prelude ConvRow ConvStore ConvQueue ConvInv ConvSystem ConvSpec.
#[local] Open Scope Z_scope.
#[local] Open Scope q_scope.

(** ** A run on a clock that does not go back *)

(** Conversation [c] is mid-flight: its row is there and not parked. *)
Definition midflight (d : qdb) (c : Z) : bool :=
  existsb (fun r => (c_id r =? c) && isNull (status (park r))) (convs d).

(** What an observer of the statuses notes at time [t]: the conversations that
    are mid-flight and were not before entered the queue then. *)
Definition observe (t : Z) (d d' : qdb) (entered : Z -> Z) : Z -> Z :=
  fun c => if midflight d' c && negb (midflight d c) then t else entered c.

(** The clock, the database and the observer's notes. *)
Inductive clocked : Z * qdb * (Z -> Z) -> Z * qdb * (Z -> Z) -> Prop :=
| clocked_op T o d entered : legal o d -> T <= op_time T o ->
    clocked (T, d, entered) (op_time T o, apply o d, observe (op_time T o) d (apply o d) entered).

(** The queue stamp of every mid-flight conversation is the time it was seen to
    enter the queue. *)
Definition noted (d : qdb) (entered : Z -> Z) : Prop :=
  forall r, r ∈ convs d -> status (park r) = None -> queued_at (queue r) = Some (entered (c_id r)).

Lemma midflight_row d r : wf d -> r ∈ convs d -> midflight d (c_id r) = isNull (status (park r)).
Proof.
  intros W Hr. apply eq_bool_prop_intro. unfold midflight. rewrite !Is_true_true, existsb_elem. split.
  - intros (x & Hx & E). bool_hyps. assert (x = r) as -> by (by eapply (NoDup_key_inj c_id); eauto using wf_convs). done.
  - intros E. exists r. by rewrite bool_decide_true.
Qed.

Lemma midflight_absent d c : c ∉ map c_id (convs d) -> midflight d c = false.
Proof.
  intros H. apply existsb_nobody. intros r Hr. apply not_true_is_false. intros E. bool_hyps. apply H, list_elem_of_fmap. by exists r.
Qed.

Lemma noted_step t d d' entered :
  wf d -> wf d' -> convs_step t (convs d) (convs d') -> noted d entered -> noted d' (observe t d d' entered).
Proof.
  intros W W' (rest & Hk & Hl) Hn r' Hr' Hs. unfold observe. rewrite (midflight_row d' r' W' Hr'), Hs. simpl.
  assert (r' ∈ rest \/ c_id r' ∉ map c_id (convs d) /\ queued_at (queue r') = Some t) as [Hrest|[Hf Hq]].
  { destruct Hl as [<-|(r & El & Hf & Hq)]; [by left|]. rewrite El in Hr'. apply elem_of_cons in Hr' as [->|?]; [by right|by left]. }
  - destruct (Forall2_right _ _ _ _ Hk Hrest) as (r & Hr & Ek & Hst). rewrite (Hst Hs), (key_id _ _ Ek), (midflight_row d r W Hr).
    destruct (status (park r)) eqn:Er; simpl; [done|]. by apply Hn.
  - by rewrite midflight_absent.
Qed.

(** Claims of one conversation do not overlap; the newer is first. *)
Definition follows (a b : claim) : Prop := k_conv a = k_conv b -> exists t, released_at b = Some t /\ t <= claimed_at a.

Definition spans (T : Z) (cl : claim) : Prop := claimed_at cl <= T /\ forall t, released_at cl = Some t -> claimed_at cl <= t <= T.

Record timeline (T : Z) (l : list claim) : Prop := Timeline {
  tl_sorted : StronglySorted follows l; tl_spans : Forall (spans T) l }.

Lemma follows_step t a b a' b' : claim_step t a a' -> claim_step t b b' -> follows a b -> follows a' b'.
Proof.
  intros Ha Hb H E. destruct H as (x & Hx & Hle); [by rewrite <- (cs_conv _ _ _ Ha), <- (cs_conv _ _ _ Hb)|].
  exists x. rewrite (released_kept _ _ _ Hb), (cs_at _ _ _ Ha); [done|]. unfold unreleased. by rewrite Hx.
Qed.

Lemma timeline_step T t l l' : T <= t -> timeline T l -> Forall2 (claim_step t) l l' -> timeline t l'.
Proof.
  intros Ht [Hs Hf] H. split.
  - clear Hf. induction H as [|a b l l' Hab H IH]; [constructor|]. apply StronglySorted_inv in Hs as [Hs Hx]. constructor; [auto|].
    rewrite Forall_forall in Hx |- *. intros y Hy. destruct (Forall2_right _ _ _ _ H Hy) as (x & ? & ?). eapply follows_step; eauto.
  - rewrite Forall_forall in Hf |- *. intros b Hb. destruct (Forall2_right _ _ _ _ H Hb) as (a & Ha & Hab).
    destruct (Hf a Ha) as [H1 H2]. unfold spans. rewrite (cs_at _ _ _ Hab). split; [lia|]. intros x Hx.
    destruct (cs_when _ _ _ Hab) as [E|[_ E]]; rewrite E in Hx; [specialize (H2 x Hx); lia|]. injection Hx as <-. lia.
Qed.

Lemma op_timeline T o d : wf d -> legal o d -> T <= op_time T o -> timeline T (claims d) -> timeline (op_time T o) (claims (apply o d)).
Proof.
  intros W L Ht Hl. destruct (op_claims T o d W L) as [H|(cl & E & E1 & E2 & Hf)]; [by eapply timeline_step|].
  rewrite E. destruct Hl as [Hs Hsp]. split.
  - constructor; [done|]. apply Forall_forall. intros b Hb Ec. specialize (Hf b Hb (eq_sym Ec)). unfold unreleased in Hf.
    destruct (released_at b) as [x|] eqn:Eb; [|done]. exists x. split; [done|]. rewrite Forall_forall in Hsp. destruct (Hsp b Hb) as [_ H].
    specialize (H x Eb). lia.
  - constructor; [split; [lia|by rewrite E2]|]. rewrite Forall_forall in Hsp |- *. intros b Hb. destruct (Hsp b Hb) as [? H].
    split; [lia|]. intros x Hx. specialize (H x Hx). lia.
Qed.

Definition clocked_ok (s : Z * qdb * (Z -> Z)) : Prop :=
  let '(T, d, entered) := s in wf d /\ timeline T (claims d) /\ noted d entered.

Lemma clocked_reach s s' : rtc clocked s s' -> clocked_ok s -> clocked_ok s'.
Proof.
  induction 1 as [|s s1 s2 H _ IH]; [done|]. intros Hs. apply IH. destruct H as [T o d entered L Ht]. destruct Hs as (W & Hl & Hn).
  pose proof (op_wf o d W L) as W'. split; [done|]. split; [by apply op_timeline|]. apply noted_step; [done|done|by apply op_convs|done].
Qed.

(** ** The count as a walk back over the history *)

Definition spoke (cl : claim) : bool := match k_outcome cl with Some _ => negb (inList (k_outcome cl) HandBackOutcomesSQL) | None => false end.

(** Hand-backs among [outcomes] released after [start], back to the newest
    engagement that recorded an outcome of its own. *)
Fixpoint episode (outcomes : list string) (start : Z) (history : list claim) : nat :=
  match history with
  | [] => 0
  | cl :: h => if spoke cl then 0
               else (if inList (k_outcome cl) outcomes && (start <? releaseOrClaim cl) then 1 else 0) + episode outcomes start h
  end.

Definition history (d : qdb) (c : Z) : list claim := List.filter (fun cl => k_conv cl =? c) (claims d).

(** The SQL count over a history, with the claims that may have spoken. *)
Definition counted (all : list claim) (start : Z) (outcomes : list string) (c2 : claim) : bool :=
  inList (k_outcome c2) outcomes && (start <? releaseOrClaim c2)
  && negb (existsb (fun c3 => spoke c3 && (releaseOrClaim c2 <=? claimed_at c3)) all).

Lemma spokeSince_history d c t : spokeSince d c t = existsb (fun c3 => spoke c3 && (t <=? claimed_at c3)) (history d c).
Proof.
  unfold spokeSince, history, spoke. induction (claims d) as [|x l IH]; [done|]. simpl. destruct (k_conv x =? c); simpl; [|done].
  rewrite IH. f_equal. by destruct (k_outcome x).
Qed.

Lemma counts_history d r outcomes s :
  EpisodeStartSQL r = Some s ->
  episodeHandBacksSQL d r outcomes = Z.of_nat (length (List.filter (counted (history d (c_id r)) s outcomes) (history d (c_id r)))).
Proof.
  intros Hs. unfold episodeHandBacksSQL. do 2 f_equal.
  assert (forall x, k_conv x = c_id r -> episodeHandBack d r outcomes x = counted (history d (c_id r)) s outcomes x) as H.
  { intros x E. unfold episodeHandBack, counted. by rewrite Hs, E, bool_decide_true, spokeSince_history. }
  unfold history at 2. induction (claims d) as [|x l IH]; [done|]. simpl. destruct (decide (k_conv x = c_id r)) as [E|E].
  - rewrite (bool_decide_true _ E). simpl. rewrite H by done. by destruct (counted _ _ _ _); rewrite IH.
  - rewrite (bool_decide_false _ E). unfold episodeHandBack at 1. by rewrite (bool_decide_false _ E).
Qed.

Lemma history_timeline T d c : timeline T (claims d) -> timeline T (history d c) /\ Forall (fun cl => k_conv cl = c) (history d c).
Proof.
  intros [Hs Hf]. unfold history. split; [split|].
  - eapply StronglySorted_sublist; [|exact Hs]. clear. induction (claims d); simpl; [done|]. destruct (_ =? _); by constructor.
  - rewrite Forall_forall in Hf |- *. intros x [? _]%filter_elem. auto.
  - apply Forall_forall. intros x [_ E]%filter_elem. by bool_hyps.
Qed.

(** Every engagement that spoke for itself took some time. *)
Definition took_time (cl : claim) : Prop := spoke cl = true -> forall t, released_at cl = Some t -> claimed_at cl < t.

Lemma length_filter_le {A} (p q : A -> bool) l : (forall x, x ∈ l -> p x = true -> q x = true) -> (length (List.filter p l) <= length (List.filter q l))%nat.
Proof.
  induction l as [|x l IH]; intros H; [done|]. simpl. specialize (IH (fun y Hy => H y (list_elem_of_further _ _ _ Hy))).
  destruct (p x) eqn:E; [rewrite (H x) by (done || by left); simpl; lia|]. destruct (q x); simpl; lia.
Qed.

Lemma episode_none outcomes s h :
  Forall (fun cl => spoke cl = false) h -> episode outcomes s h = length (List.filter (fun cl => inList (k_outcome cl) outcomes && (s <? releaseOrClaim cl)) h).
Proof. induction 1 as [|cl h Hc _ IH]; [done|]. simpl. rewrite Hc, IH. by destruct (_ && _). Qed.

(** The history up to the newest engagement that spoke, and the rest. *)
Lemma split_spoken h : Forall (fun cl => spoke cl = false) h \/ exists h1 c3 h2, h = h1 ++ c3 :: h2 /\ Forall (fun cl => spoke cl = false) h1 /\ spoke c3 = true.
Proof.
  induction h as [|cl h IH]; [by left|]. destruct (spoke cl) eqn:E; [right; by exists [], cl, h|].
  destruct IH as [H|(h1 & c3 & h2 & -> & H1 & H2)]; [left; by constructor|]. right. exists (cl :: h1), c3, h2. split; [done|]. split; [by constructor|done].
Qed.

Lemma episode_app outcomes s h1 c3 h2 :
  Forall (fun cl => spoke cl = false) h1 -> spoke c3 = true -> episode outcomes s (h1 ++ c3 :: h2) = episode outcomes s h1.
Proof. induction 1 as [|cl h Hc _ IH]; simpl; intros H3; [by rewrite H3|]. by rewrite Hc, IH. Qed.

Section Count.
Context (T start c : Z) (outcomes : list string).
Context (Hout : Forall (fun o => o ∈ HandBackOutcomesSQL) outcomes).

Lemma spoke_not_counted all cl : spoke cl = true -> counted all start outcomes cl = false.
Proof.
  unfold spoke, counted. destruct (k_outcome cl) as [o|]; [|done]. intros H. bool_hyps.
  destruct (inList (Some o) outcomes) eqn:E; [|done]. exfalso. unfold inList in *. rewrite existsb_nobody in H. apply existsb_elem in E as (x & Hx & E). bool_hyps. subst x.
  rewrite Forall_forall in Hout. specialize (H o (Hout o Hx)). by rewrite bool_decide_true in H.
Qed.

Lemma releaseOrClaim_ge cl : spans T cl -> claimed_at cl <= releaseOrClaim cl.
Proof. intros [? H]. unfold releaseOrClaim. destruct (released_at cl) as [t|]; simpl; [|lia]. specialize (H t eq_refl). lia. Qed.

(** An engagement older than [c2] cannot be read as later, unless it took no time. *)
Lemma older_spoken a b : follows a b -> k_conv a = k_conv b -> spans T a -> spans T b -> took_time b -> spoke b = true -> claimed_at b < releaseOrClaim a.
Proof.
  intros Hf E Ha Hb Ht Hs. destruct (Hf E) as (t & Et & Hle). specialize (Ht Hs t Et). pose proof (releaseOrClaim_ge a Ha). lia.
Qed.

Lemma count_bounds h :
  timeline T h -> Forall (fun cl => k_conv cl = c) h ->
  (length (List.filter (counted h start outcomes) h) <= episode outcomes start h)%nat
  /\ (Forall took_time h -> length (List.filter (counted h start outcomes) h) = episode outcomes start h).
Proof.
  intros [Hs Hsp] Hc. destruct (split_spoken h) as [Hn|(h1 & c3 & h2 & -> & Hn & H3)].
  - rewrite episode_none by done. assert (forall x, counted h start outcomes x = inList (k_outcome x) outcomes && (start <? releaseOrClaim x)) as E.
    { intros x. unfold counted. replace (existsb _ h) with false; [by rewrite andb_true_r|]. symmetry. apply existsb_nobody. intros y Hy.
      rewrite Forall_forall in Hn. by rewrite (Hn y Hy). }
    assert (List.filter (counted h start outcomes) h = List.filter (fun x => inList (k_outcome x) outcomes && (start <? releaseOrClaim x)) h) as -> by (by apply filter_ext).
    split; [done|]. done.
  - rewrite episode_app, episode_none by done. set (h := h1 ++ c3 :: h2) in *.
    assert (List.filter (counted h start outcomes) h = List.filter (counted h start outcomes) h1) as ->.
    { unfold h at 2. rewrite List.filter_app, (filter_nothing (counted h start outcomes) (c3 :: h2)); [by rewrite app_nil_r|].
      intros x [->|Hx]%elem_of_cons; [by apply spoke_not_counted|]. unfold counted.
      replace (existsb _ h) with true; [by rewrite andb_false_r|]. symmetry. apply existsb_elem. exists c3.
      split; [unfold h; apply elem_of_app; right; by left|]. rewrite H3. simpl. apply Z.leb_le.
      apply StronglySorted_app_1_r in Hs as Hs'. apply StronglySorted_inv in Hs' as [_ Hs']. rewrite Forall_forall in Hs', Hc.
      destruct (Hs' x Hx) as (t & Et & ?); [|unfold releaseOrClaim; by rewrite Et].
      rewrite !Hc; [done| |]; unfold h; apply elem_of_app; right; [by right|by left]. }
    split; [apply length_filter_le; intros x _; unfold counted; by intros [? _]%andb_true_iff|]. intros Ht. f_equal.
    apply filter_ext_in. intros x Hx%list_elem_of_In. unfold counted. replace (existsb _ h) with false; [by rewrite andb_true_r|].
    symmetry. apply existsb_nobody. intros y Hy. destruct (spoke y) eqn:Ey; [|done]. simpl. apply Z.leb_gt.
    assert (y ∈ c3 :: h2) as Hy2.
    { unfold h in Hy. apply elem_of_app in Hy as [Hy|?]; [|done]. rewrite Forall_forall in Hn. by rewrite (Hn y Hy) in Ey. }
    assert (x ∈ h) as Hxh by (unfold h; apply elem_of_app; by left). rewrite Forall_forall in Hsp, Hc, Ht.
    apply older_spoken; [|by rewrite !Hc|auto|auto|auto|done]. clear -Hs Hx Hy2. unfold h in Hs. induction h1 as [|z h1 IH]; [by apply elem_of_nil in Hx|].
    apply StronglySorted_inv in Hs as [Hs Hz]. apply elem_of_cons in Hx as [->|Hx]; [|auto]. rewrite Forall_forall in Hz. apply Hz, elem_of_app. by right.
Qed.

End Count.

Lemma budget_outcomes b : Forall (fun o => o ∈ HandBackOutcomesSQL) (HandBackBudgetOutcomesSQL b).
Proof. destruct b; repeat (apply Forall_cons; split; [vm_compute; repeat first [by left|right]|]); apply Forall_nil_2. Qed.

(** C14: On a clock that does not go back, in every state any interleaving of
    the store operations reaches (under the two provisos of C6): for a
    conversation that is mid-flight, each budget's episode count is at most
    the number of that budget's hand-backs after the conversation was last
    seen to enter the queue (minted, woken or taken off its park) and after
    its newest engagement that recorded an outcome of its own, and is exactly
    that number when every such engagement took some time; a parked
    conversation counts none, so the claim that takes it off its park starts
    with full budgets. A retry budget is never overcharged by stops, resumes
    or earlier episodes. *)
Theorem episode_counts_are_never_over T0 T d entered0 entered r b :
  rtc clocked (T0, emptyDb, entered0) (T, d, entered) -> r ∈ convs d ->
  let outcomes := HandBackBudgetOutcomesSQL b in
  let due := Z.of_nat (episode outcomes (entered (c_id r)) (history d (c_id r))) in
  match status (park r) with
  | None => episodeHandBacksSQL d r outcomes <= due
            /\ ((forall cl, cl ∈ claims d -> took_time cl) -> episodeHandBacksSQL d r outcomes = due)
  | Some _ => episodeHandBacksSQL d r outcomes = 0
  end.
Proof.
  intros H Hr outcomes due. apply clocked_reach in H as (_ & Ht & Hn); [|split; [apply empty_wf|split; [split; constructor|by intros ? ?%elem_of_nil]]].
  destruct (status (park r)) as [st|] eqn:Es.
  - unfold episodeHandBacksSQL. rewrite filter_nothing; [done|]. intros x _. unfold episodeHandBack, EpisodeStartSQL. rewrite Es. simpl. by rewrite andb_false_r.
  - assert (EpisodeStartSQL r = Some (entered (c_id r))) as Hs by (unfold EpisodeStartSQL; by rewrite Es, (Hn r Hr Es)).
    rewrite (counts_history d r _ _ Hs). destruct (history_timeline T d (c_id r) Ht) as [Hh Hc].
    destruct (count_bounds T (entered (c_id r)) (c_id r) _ (budget_outcomes b) _ Hh Hc) as [H1 H2]. split; [unfold due, outcomes; lia|].
    intros Hall. unfold due, outcomes. rewrite H2; [done|]. apply Forall_forall. intros cl [? _]%filter_elem. auto.
Qed.

(** ** Hand-backs *)




(** ** Stops nobody is there to honour *)

Lemma settle_run_id tx vs lk b : b_id (settle_run tx vs lk b) = b_id b.
Proof. unfold settle_run. break. Qed.

(** A conversation with a pending stop and no driver is a victim of the pass,
    and a called-off run of it is one the pass has locked. *)
Lemma stopped_is_victim tx d r :
  r ∈ convs d -> stop_requested_at (stop r) <> None -> SettledConversationSQL r = false -> activeClaimExistsSQL d r = false ->
  let lk := settle_runs tx (fun _ => true) [] d in
  (forall b, b ∈ runs d -> blueprint_run_id (key r) = Some (b_id b) -> called b = true -> b_id b ∈ lk)
  /\ victim tx (fun _ => true) lk d r = true.
Proof.
  intros Hr Hs Hset Ha lk. assert (isNull (stop_requested_at (stop r)) = false) as En by (by destruct (stop_requested_at (stop r))).
  assert (forall b, b ∈ runs d -> blueprint_run_id (key r) = Some (b_id b) -> called b = true -> b_id b ∈ lk) as Hlk.
  { intros b Hb Ei Hcb. apply list_elem_of_fmap. exists b. split; [done|]. apply filter_elem. split; [done|]. rewrite Hcb. simpl.
    apply existsb_elem. exists r. split; [done|]. unfold settleNoLiveClaimSQL, UnsettledConversationSQL.
    rewrite (eqv_some _ _ Ei), Ha, En, Hset. by rewrite orb_true_r. }
  split; [done|]. unfold victim, settleNoLiveClaimSQL. rewrite Ha, En, Hset. simpl. rewrite andb_true_r.
  unfold run_of. destruct (blueprint_run_id (key r)) as [i|] eqn:Ei; [|done]. destruct (find _ _) as [b|] eqn:Eb; [|done].
  apply find_elem in Eb as [Hb E]. bool_hyps. destruct (called b) eqn:Ec; [|done]. simpl. apply existsb_elem. exists (b_id b).
  split; [apply Hlk; [done|by rewrite E|done]|by apply bool_decide_true].
Qed.

Lemma unsettled_not_settled r : UnsettledConversationSQL r = true -> SettledConversationSQL r = false.
Proof.
  unfold UnsettledConversationSQL. destruct (status (park r)) eqn:E; simpl; intros H; [by bool_hyps|].
  unfold SettledConversationSQL, ConcludedConversationSQL. by rewrite E.
Qed.

(** C15: A stop requested on an unsettled conversation that nothing drives and
    that has no request pending is settled by the next pass, when that pass
    reads the request, finds no row locked and nobody writes in between: the
    conversation is parked with the reason the request recorded and the
    request is cleared; its run becomes cancelled if the run was called off
    and is left as it is otherwise; and the conversation is claimed again only
    while a message a person wrote to it, before the stop or after, is
    undelivered. *)
Theorem requested_stop_is_settled tx tx' org c by_ reason d r :
  r ∈ convs d -> is_conv org c r = true -> UnsettledConversationSQL r = true -> stop_requested_at (stop r) = None ->
  activeClaimExistsSQL d r = false ->
  let d1 := apply (OStop tx org c by_ reason) d in
  let d2 := apply (OSettle tx' (fun _ => true) [] [] d1 d1) d1 in
  exists r', r' ∈ convs d2 /\ c_id r' = c
    /\ status (park r') = Some Open /\ stop r' = noStop
    /\ park_reason (park r') = Some (default (if by_ =? ""%string then "system_cancelled"%string else "user_cancelled"%string) (nullIfEmpty reason))
    /\ (forall b, b ∈ runs d -> blueprint_run_id (key r') = Some (b_id b) ->
          if called b then exists b', b' ∈ runs d2 /\ b_id b' = b_id b /\ b_status b' = Cancelled else b ∈ runs d2)
    /\ (forall t now pl e, claim_where t now pl e d2 r' = true -> undeliveredInputExistsSQL d2 r' = true).
Proof.
  intros Hr Hc Hu Hs Ha. cbv zeta. set (d1 := apply _ d). set (r1 := stop_row tx by_ reason r).
  assert (r1 ∈ convs d1) as Hr1 by (simpl; apply elem_of_update; exists r; by rewrite Hc, Hu).
  assert (stop r1 = Stop (Some tx) (nullIfEmpty by_) (nullIfEmpty reason)) as Es by (unfold r1, stop_row; simpl; by rewrite Hs).
  pose proof (unsettled_not_settled r Hu : SettledConversationSQL r1 = false) as Hset.
  destruct (stopped_is_victim tx' d1 r1) as [Hlk Hv]; [done|by rewrite Es|done|done|].
  unfold apply, settleUnclaimedStops. simpl snd. set (lk := settle_runs _ _ _ _) in *.
  match goal with |- context [update ?q (settle_row tx') _] => set (p := q) end.
  assert (p r1 = true) as Hp by (unfold p; rewrite Hv; simpl; apply existsb_elem; exists r1; by rewrite Hv, bool_decide_true).
  exists (settle_row tx' r1). split; [simpl; apply elem_of_update; exists r1; by rewrite Hp|]. unfold settle_row. rewrite Hset. simpl.
  split; [unfold is_conv in Hc; by bool_hyps|]. split; [done|]. split; [done|]. split; [|split].
  - unfold stop_words, stop_reason_of. rewrite Es. simpl. unfold nullIfEmpty. by destruct (reason =? ""%string), (by_ =? ""%string).
  - intros b Hb Ei. match goal with |- context [map (settle_run tx' ?v lk)] => set (vs := v) end.
    assert (settle_run tx' vs lk b ∈ map (settle_run tx' vs lk) (runs d)) as Hin by (apply list_elem_of_fmap; by exists b).
    destruct (called b) eqn:Ecb; [|unfold settle_run in Hin at 1; rewrite Ecb in Hin; simpl in Hin; by destruct (find _ _)].
    exists (settle_run tx' vs lk b). split; [done|]. split; [apply settle_run_id|]. unfold settle_run. destruct (find _ _) as [x|] eqn:Ef.
    + rewrite Ecb. simpl. destruct (existsb _ lk) eqn:El; [done|]. exfalso.
      specialize (Hlk b Hb Ei Ecb). rewrite existsb_nobody in El. specialize (El _ Hlk). by rewrite bool_decide_true in El.
    + exfalso. assert (blueprint_run_id (key r1) = Some (b_id b)) as Ei1 by done.
      eapply (find_none _ _) in Ef; [|apply list_elem_of_In, sort_by_elem, (filter_elem _ _ r1); done]. simpl in Ef. by rewrite (eqv_some _ _ Ei1), Hset in Ef.
  - intros t now pl e. unfold claim_where, eligibleForDrivingSQL, needsDrivingSQL, awaitingDrivingSQL. simpl. intros ?. by bool_hyps.
Qed.
