(* ===== verification/ConvExample.v ===== *)
(** * The conversation queue on concrete runs

    One firing driven through claim, lapse, take-over, hand-back and stop: the
    witnesses of the queue's properties.  Two more runs show what the comments
    of the code rule out: a settlement whose snapshot predates a claim parks
    the conversation under the claim, and the unfenced executor stamp puts a
    claim on a settled conversation. *)

From S2P Require Import Prelude ConvRow ConvStore ConvQueue ConvInv ConvSystem ConvSpec ConvEpisode.
From Stdlib Require Import QArith.
#[local] Open Scope Z_scope.
#[local] Open Scope q_scope.

(** ** Running a list of operations *)

Fixpoint run_ops (ops : list qop) (d : qdb) : qdb := match ops with [] => d | o :: ops => run_ops ops (apply o d) end.
Fixpoint legal_run (ops : list qop) (d : qdb) : Prop := match ops with [] => True | o :: ops => legal o d /\ legal_run ops (apply o d) end.

Lemma run_reaches ops d : legal_run ops d -> rtc step d (run_ops ops d).
Proof.
  revert d. induction ops as [|o ops IH]; intros d H; [apply rtc_refl|]. destruct H as [Ho H].
  eapply rtc_l; [by constructor|]. by apply IH.
Qed.

(** [T]s of a run on a clock. *)
Fixpoint clocked_run (T : Z) (ops : list qop) (d : qdb) : Prop :=
  match ops with [] => True | o :: ops => legal o d /\ T <= op_time T o /\ clocked_run (op_time T o) ops (apply o d) end.
Fixpoint last_time (T : Z) (ops : list qop) : Z := match ops with [] => T | o :: ops => last_time (op_time T o) ops end.

Fixpoint notes (T : Z) (ops : list qop) (d : qdb) (entered : Z -> Z) : Z -> Z :=
  match ops with [] => entered | o :: ops => notes (op_time T o) ops (apply o d) (observe (op_time T o) d (apply o d) entered) end.

Lemma run_clocked T ops d entered : clocked_run T ops d -> rtc clocked (T, d, entered) (last_time T ops, run_ops ops d, notes T ops d entered).
Proof.
  revert T d entered. induction ops as [|o ops IH]; intros T d entered H; [apply rtc_refl|]. destruct H as (Ho & Ht & H).
  eapply rtc_l; [by constructor|]. by apply IH.
Qed.

(** ** A firing and its engagements *)

Definition placing : ClaimPlacement := Placement true (30 * second) (60 * second).

(** One task, one executor alive, no caps. *)
Definition world0 : qop := OOther [] [Inst "exec-b" 3 (100 * second) false None None] [] [] [Task 10 1 "queued" None None None None None] [].
Definition fire : qop := OCreate (100 * second) (100 * second) 1 (NewRun 20 10 "event" (Some 5) (Some 6) None) None None
  (NewConv 30 10 (Some 20) (Some 0) "event" None "exec-a").
Definition fired : qdb := run_ops [world0; fire] emptyDb.

Definition claimA (snap : qdb) : qop := OClaim 40 (110 * second) (110 * second) "exec-a" 1 placing (75 * second) [] snap.
Definition takeOver : qop := OTakeOver (200 * second) (200 * second) "exec-b" 3 10 [] [].
Definition claimB (snap : qdb) : qop := OClaim 41 (201 * second) (201 * second) "exec-b" 3 placing (75 * second) [] snap.
Definition handBackB : qop := OHandBack (210 * second) (210 * second) (211 * second) (Some 1) (Some 30) (Some 41) HandBackUpstream (30 * second) "upstream down".

Definition driven : qdb := run_ops [claimA fired] fired.
Definition takenOver : qdb := run_ops [takeOver] driven.
Definition reclaimed : qdb := run_ops [claimB takenOver] takenOver.
Definition handedBack : qdb := run_ops [handBackB] reclaimed.

Definition whole : list qop := [world0; fire; claimA fired; takeOver; claimB takenOver; handBackB].

Ltac legal_tac := vm_compute; repeat match goal with |- _ /\ _ => split | |- True => exact I end;
  try reflexivity; try discriminate; try (intros H; repeat (apply elem_of_cons in H as [H|H]; [discriminate|]); by apply elem_of_nil in H).

Lemma whole_legal : legal_run whole emptyDb.
Proof. legal_tac. Qed.

Lemma reach_fired : reachable fired.
Proof. apply run_reaches. legal_tac. Qed.

Lemma reach_driven : reachable driven.
Proof. apply (run_reaches [world0; fire; claimA fired]). legal_tac. Qed.

Lemma reach_takenOver : reachable takenOver.
Proof. apply (run_reaches [world0; fire; claimA fired; takeOver]). legal_tac. Qed.


(** The first executor's claim lapsed at 185 s and was taken over; the second
    executor's claim counts one lost engagement. *)
Example second_claim_counts_the_loss :
  match claim_statement 41 (201 * second) (201 * second) "exec-b" 3 placing (75 * second) [] takenOver takenOver with
  | (Got c, _) => Attempts c = 2 /\ LostEngagements c = 1 /\ SetupFailures c = 0 /\ LastHandBackOutcome c = HandBackReaped
  | _ => False
  end.
Proof. vm_compute. repeat split. Qed.

(** ** Witnesses *)

Definition blank : conversation := minted_row 0 0 (NewConv 0 0 None None "" None "") emptyDb.
Definition lostRow : conversation := hd blank (convs takenOver).
Definition lostClaim : claim := hd (mint_claim 0 0 0 0 "" 0 blank) (claims takenOver).

Lemma one_driver_per_conversation_witness : exists cl, cl ∈ claims driven /\ unreleased cl = true /\ is_Some (lease_expires_at cl).
Proof.
  pose proof (one_driver_per_conversation driven reach_driven) as [_ H]. eexists. split; [left|]. split; [reflexivity|]. apply H; [left|reflexivity].
Defined.

Lemma boot_checkers_find_nothing_witness : exists n, fst (ReconcileOrphanedConversations (300 * second) driven) = Ok (n, Check_ 0 [] 0 []).
Proof. exact (boot_checkers_find_nothing driven (300 * second) reach_driven). Defined.

Lemma lost_claim_writes_nothing_witness :
  refused reclaimed (OComplete (205 * second) (205 * second) 0 1 (Some 30) (Some 40) "open" 0 1 1 "done" "pass" "" "")
  /\ stats_only 40 reclaimed (apply (OStats 1 40 (Some 512) (Some 9)) reclaimed).
Proof.
  pose proof (lost_claim_writes_nothing takenOver reclaimed lostClaim reach_takenOver) as H.
  destruct H as (H1 & _ & H3).
  - left.
  - reflexivity.
  - apply (run_reaches [claimB takenOver]). legal_tac.
  - split; [by apply H1|apply H3].
Defined.

Definition is_got (a : claimAnswer) : bool := match a with Got _ => true | _ => false end.

Lemma claim_takes_the_first_witness :
  is_got (fst (claim_statement 41 (201 * second) (201 * second) "exec-b" 3 placing (75 * second) [] takenOver takenOver)) = true
  /\ match claim_statement 41 (201 * second) (201 * second) "exec-b" 3 placing (75 * second) [] takenOver takenOver with
     | (Got c, d') =>
         exists r, r ∈ convs takenOver /\ cl_conv c = c_id r /\ claim_where (201 * second) (201 * second) placing "exec-b" takenOver r = true
           /\ (forall r', r' ∈ convs takenOver -> claim_where (201 * second) (201 * second) placing "exec-b" takenOver r' = true ->
                claimed_before placing "exec-b" takenOver r r')
           /\ ClaimLiveSystem (201 * second) d' (c_org r) (Some (cl_claim c)) 3 = true
           /\ (forall m, cap_of takenOver (c_org r) = Some m -> org_active d' (c_org r) <= m)
     | (Nothing, d') => d' = takenOver /\ forall r, r ∈ convs takenOver -> claim_where (201 * second) (201 * second) placing "exec-b" takenOver r = false
     | (Conflict, _) => False
     end.
Proof.
  split; [vm_compute; reflexivity|].
  exact (claim_takes_the_first (201 * second) (201 * second) placing "exec-b" 3 (75 * second) 41 takenOver reach_takenOver eq_refl).
Defined.

Lemma repeated_claims_drain_the_queue_witness :
  claimable (201 * second) (201 * second) placing "exec-b" (snd (claim_times (201 * second) (201 * second) placing "exec-b" 3 (75 * second) [41] takenOver)) = [].
Proof.
  pose proof (repeated_claims_drain_the_queue (201 * second) (201 * second) placing "exec-b" 3 (75 * second) [41] takenOver reach_takenOver
    (fun _ => eq_refl) (NoDup_singleton 41) ltac:(intros i Hi; apply list_elem_of_singleton in Hi as ->; legal_tac) eq_refl) as H.
  destruct (claim_times _ _ _ _ _ _ _ _) as [l d']. apply H.
Defined.

(** The conversation entered the queue when it was minted, and its one lost
    engagement is due. *)
Lemma episode_counts_are_never_over_witness :
  EpisodeLostEngagementsSQL takenOver lostRow = 1
  /\ EpisodeLostEngagementsSQL takenOver lostRow
     <= Z.of_nat (episode (HandBackBudgetOutcomesSQL BudgetLoss) (notes 0 [world0; fire; claimA fired; takeOver] emptyDb (fun _ => 0) (c_id lostRow))
                   (history takenOver (c_id lostRow))).
Proof.
  split; [reflexivity|].
  refine (proj1 (episode_counts_are_never_over 0 (last_time 0 [world0; fire; claimA fired; takeOver]) takenOver (fun _ => 0)
    (notes 0 [world0; fire; claimA fired; takeOver] emptyDb (fun _ => 0)) lostRow BudgetLoss _ _)).
  - apply (run_clocked 0 [world0; fire; claimA fired; takeOver]). legal_tac.
  - left.
Defined.





Lemma requested_stop_is_settled_witness :
  exists r', r' ∈ convs (apply (OSettle (220 * second) (fun _ => true) [] [] (apply (OStop (215 * second) 1 30 "ada" "") handedBack) (apply (OStop (215 * second) 1 30 "ada" "") handedBack))
                         (apply (OStop (215 * second) 1 30 "ada" "") handedBack))
    /\ status (park r') = Some Open /\ park_reason (park r') = Some "user_cancelled"%string.
Proof.
  edestruct (requested_stop_is_settled (215 * second) (220 * second) 1 30 "ada" "" handedBack) as (r' & ? & _ & ? & _ & ? & _);
    [left|reflexivity|reflexivity|reflexivity|reflexivity|by exists r'].
Defined.

(** ** What the comments rule out *)

(** The run is called off; an executor whose snapshot is older claims the step;
    the settlement, whose snapshot was taken in between, sees no claim and no
    change of the conversation row, and parks it under the live claim. *)
Definition calledOff : qdb := run_ops [OCancelRun 1 (Some 20)] fired.
Definition claimedAnyway : qdb := run_ops [claimA fired] calledOff.

Lemma settlement_can_park_a_driven_conversation :
  reachable claimedAnyway /\
  exists cl r, cl ∈ claims (snd (SettleUnclaimedStopsSystem (170 * second) [] [] calledOff calledOff claimedAnyway))
    /\ r ∈ convs (snd (SettleUnclaimedStopsSystem (170 * second) [] [] calledOff calledOff claimedAnyway))
    /\ claimLeaseLive (170 * second) cl = true /\ k_conv cl = c_id r /\ status (park r) = Some Open.
Proof.
  split; [apply (run_reaches [world0; fire; OCancelRun 1 (Some 20); claimA fired]); legal_tac|].
  eexists _, _. split; [left|]. split; [left|]. repeat split.
Qed.

(** A concluded conversation, its claim released, and the stamp without a claim id. *)
Definition concluded : qdb :=
  run_ops [OComplete (120 * second) (120 * second) (120 * second) 1 (Some 30) (Some 40) "open" 0 1 1 "done" "pass" "" ""] driven.

Lemma executor_stamp_can_desync :
  countClaimDesyncs concluded = 0
  /\ countClaimDesyncs (snd (SetExecutorSystem 42 (130 * second) (130 * second) 1 30 "exec-a" 1 concluded)) = 1.
Proof. by vm_compute. Qed.
