(* ===== verification/Placement.v ===== *)
(** * Placement: which executor a conversation prefers

    Models internal/placement (placement.go, resolver.go, config.go) and the
    stamp of internal/delegate/placement.go: the weighted rendezvous ranking of
    the executors of a key, the plan drawn from the registry and an override,
    the executor stamped on a conversation, and the settings.

    Hashes are 64-bit integers with their wrap-around and scores are binary64
    values.  [math.Log] is the class [MathLog]: all the ranking relies on is
    that it is finite and negative between 0 and 1.  A registry read and an
    override read are the answers they gave, [None] for a reader that is not
    wired.  Settings are ASCII. *)

From Stdlib Require Import SpecFloat.
From S2P Require Import Prelude WorkItemKind GoBytes ConvQueue ConvInv.

#[local] Open Scope Z_scope.

(** ** The hash *)

Definition u64 (z : Z) : Z := z mod 2 ^ 64.
Definition offset64 : Z := 14695981039346656037.
Definition prime64 : Z := 1099511628211.

Definition writeFNV (h : Z) (s : string) : Z :=
  fold_left (fun h c => u64 (Z.lxor h (bv c) * prime64)) (bs s) h.

Definition splitmix64 (x : Z) : Z :=
  let x := u64 (x + 11400714819323198485) in
  let x := u64 (Z.lxor x (Z.shiftr x 30) * 13787848793156543929) in
  let x := u64 (Z.lxor x (Z.shiftr x 27) * 10723151780598845931) in
  Z.lxor x (Z.shiftr x 31).

Definition hash64 (key instanceID : string) : Z :=
  let h := writeFNV offset64 key in
  let h := u64 (Z.lxor h 31 * prime64) in
  splitmix64 (writeFNV h instanceID).

(** ** Scores *)

Definition f64_div := SFdiv f64_prec f64_emax.
Definition f64_2p53 : spec_float := f64_of_int (2 ^ 53).

Definition hashToUnit (h : Z) : spec_float :=
  let u := f64_div (f64_of_int (Z.shiftr h 11)) f64_2p53 in
  if SFeqb u f64_zero then f64_div f64_one f64_2p53 else u.

(** A finite float strictly between 0 and 1. *)
Definition in_unit (u : spec_float) : Prop :=
  exists m e, u = S754_finite false m e /\ SFltb u f64_one = true.

Class MathLog := {
  Log : spec_float -> spec_float;
  Log_negative : forall u, in_unit u -> exists m e, Log u = S754_finite true m e }.

Record Member := NewMember { m_id : string; m_weight : Z }.
Record Ranked := NewRanked { rk_id : string; rk_weight : Z; rk_score : spec_float }.

(** Strings compare bytewise: [a < b] unless [b <= a]. *)
Definition less (a b : Ranked) : bool :=
  if negb (SFeqb (rk_score a) (rk_score b)) then SFltb (rk_score b) (rk_score a) else bool_decide (~ String.le (rk_id b) (rk_id a)).

(** [sort.Slice] leaves no entry before one that is less than it. *)
Definition not_after (a b : Ranked) : bool := negb (less b a).

Definition weightedScore {L : MathLog} (key instanceID : string) (weight : Z) : spec_float :=
  f64_div (SFopp (f64_of_int weight)) (Log (hashToUnit (hash64 key instanceID))).

Definition Rank {L : MathLog} (key : string) (members : list Member) : list Ranked :=
  sort_by not_after
    (map (fun m => NewRanked (m_id m) (m_weight m) (weightedScore key (m_id m) (m_weight m)))
       (List.filter (fun m => negb (m_weight m <=? 0)) members)).

(** ** Plans *)

Record Instance := NewInstance {
  ID : string; Role : string; BootEpoch : Z; LastHeartbeatAt : Z; Draining : bool; MaxRuns : option Z }.
Record PlacementOverride := Override { PinnedInstanceID : string; Replicas : Z }.
Record Config := NewConfig { cfgEnabled : bool; cfgLiveness : Z; cfgAging : Z }.

Definition DefaultAging : Z := 20 * Second.
Definition DefaultLiveness : Z := 12 * Second.
Definition InstanceRoleExecutor : string := "executor".
Definition PlacementKindRepo : string := "repo".

Record Candidate := NewCandidate {
  c_instance : string; c_weight : Z; c_score : spec_float; c_boot : Z; Eligible : bool; Preferred : bool; c_reason : string }.
Record Plan := NewPlan {
  p_enabled : bool; p_org : string; p_repo : string; Candidates : list Candidate; PreferredSet : list string;
  p_override : option PlacementOverride; p_aging : Z; p_liveness : Z }.

Definition maxRunsOrZero (i : Instance) : Z := default 0 (MaxRuns i).

Definition ineligibleReason (i : Instance) (liveCutoff : Z) : option string :=
  if negb (bool_decide (Role i = InstanceRoleExecutor)) then Some "not-an-executor"%string
  else if LastHeartbeatAt i <? liveCutoff then Some "dead"%string
  else if Draining i then Some "draining"%string
  else if maxRunsOrZero i <=? 0 then Some "no-capacity"%string
  else None.

Definition unitSep : string := String (byte_of 31) EmptyString.
Definition keyFor (orgID repositoryID : string) : string := (orgID ++ unitSep ++ PlacementKindRepo ++ unitSep ++ repositoryID)%string.

Definition pin_of (o : option PlacementOverride) : option string :=
  match o with Some v => if bool_decide (PinnedInstanceID v = ""%string) then None else Some (PinnedInstanceID v) | None => None end.

Definition preferredSet (ranked : list Ranked) (o : option PlacementOverride) : list string :=
  match pin_of o with
  | Some p => [p]
  | None =>
      let k := match o with Some v => if 1 <? Replicas v then Replicas v else 1 | None => 1 end in
      let k := if Z.of_nat (length ranked) <? k then Z.of_nat (length ranked) else k in
      map rk_id (take (Z.to_nat k) ranked)
  end.

(** [bootByID]: a later row of the same id overwrites an earlier one. *)
Definition bootByID (rows : list Instance) (id : string) : Z :=
  match find (fun i => bool_decide (ID i = id)) (rev rows) with Some i => BootEpoch i | None => 0 end.

Definition containsCandidate (cs : list Candidate) (id : string) : bool := existsb (fun c => bool_decide (c_instance c = id)) cs.

Definition livenessOrDefault (cfg : Config) : Z := if 0 <? cfgLiveness cfg then cfgLiveness cfg else DefaultLiveness.

Definition ineligible (cutoff : Z) (i : Instance) : bool := match ineligibleReason i cutoff with Some _ => true | None => false end.

Definition excluded_of (cutoff : Z) (rows : list Instance) : list Candidate :=
  map (fun i => NewCandidate (ID i) (maxRunsOrZero i) f64_zero (BootEpoch i) false false (default ""%string (ineligibleReason i cutoff)))
    (List.filter (ineligible cutoff) rows).

Definition members_of (cutoff : Z) (rows : list Instance) : list Member :=
  map (fun i => NewMember (ID i) (maxRunsOrZero i)) (List.filter (fun i => negb (ineligible cutoff i)) rows).

Definition ranked_candidate (rows : list Instance) (set : list string) (o : option PlacementOverride) (rk : Ranked) : Candidate :=
  let p := bool_decide (rk_id rk ∈ set) in
  NewCandidate (rk_id rk) (rk_weight rk) (rk_score rk) (bootByID rows (rk_id rk)) true p
    (if p && match o with Some v => bool_decide (PinnedInstanceID v = rk_id rk) | None => false end then "pinned"%string else ""%string).

Section Resolver.
Context {L : MathLog} {E : Type}.

Definition plan_of (cfg : Config) (now : Z) (orgID repositoryID : string) (rows : list Instance) (o : option PlacementOverride) : Plan :=
  let cutoff := now - livenessOrDefault cfg in
  let ranked := Rank (keyFor orgID repositoryID) (members_of cutoff rows) in
  let set := preferredSet ranked o in
  let cs := map (ranked_candidate rows set o) ranked in
  let cs := match pin_of o with
            | Some p => if containsCandidate cs p then cs else cs ++ [NewCandidate p 0 f64_zero 0 false true "pinned"]
            | None => cs
            end in
  NewPlan (cfgEnabled cfg) orgID repositoryID (cs ++ excluded_of cutoff rows) set o (cfgAging cfg) (cfgLiveness cfg).

Definition emptyPlan (enabled : bool) (cfg : Config) (orgID repositoryID : string) : Plan :=
  NewPlan enabled orgID repositoryID [] [] None (cfgAging cfg) (cfgLiveness cfg).

(** The plan and the error: a failed read returns the plan built so far. *)
Definition computePlan (cfg : Config) (now : Z) (orgID repositoryID : string)
  (instances : option (res E (list Instance))) (overrides : option (res E (option PlacementOverride))) : Plan * option E :=
  match instances with
  | Some (Err e) => (emptyPlan (cfgEnabled cfg) cfg orgID repositoryID, Some e)
  | _ =>
      let rows := match instances with Some (Ok l) => l | _ => [] end in
      match overrides with
      | Some (Err e) => (emptyPlan (cfgEnabled cfg) cfg orgID repositoryID, Some e)
      | _ =>
          let o := match overrides with Some (Ok o) => o | _ => None end in
          (plan_of cfg now orgID repositoryID rows o, None)
      end
  end.

Definition Explain := computePlan.

Definition Resolve (cfg : Config) (now : Z) (orgID repositoryID : string)
  (instances : option (res E (list Instance))) (overrides : option (res E (option PlacementOverride))) : Plan * option E :=
  if cfgEnabled cfg then computePlan cfg now orgID repositoryID instances overrides
  else (emptyPlan false cfg orgID repositoryID, None).

Definition PreferredForConversation (p : Plan) (conversationID : string) : string :=
  match PreferredSet p with
  | [] => ""
  | [x] => x
  | l => nth (Z.to_nat (hash64 conversationID "" mod Z.of_nat (length l))) l ""%string
  end.

(** [repo] is what reading the task's repository answered. *)
Definition preferredExecutorFor (cfg : option Config) (now : Z) (orgID : string) (repo : res E (option string)) (conversationID : string)
  (instances : option (res E (list Instance))) (overrides : option (res E (option PlacementOverride))) : string :=
  match cfg with
  | Some c =>
      if cfgEnabled c then
        match repo with
        | Ok (Some r) =>
            match Resolve c now orgID r instances overrides with
            | (p, None) => PreferredForConversation p conversationID
            | (_, Some _) => ""
            end
        | _ => ""
        end
      else ""
  | None => ""
  end.
End Resolver.

(** ** Settings *)

Definition parseBool (raw : bytes) : option bool :=
  let s := ToLower (TrimSpace raw) in
  if bool_decide (s ∈ map bs ["on"; "1"; "true"; "yes"; "enabled"]%string) then Some true
  else if bool_decide (s ∈ map bs ["off"; "0"; "false"; "no"; "disabled"]%string) then Some false
  else None.

(** [time.Duration(n) * time.Second] is a multiplication of int64. *)
Definition parseSeconds (raw : bytes) (def : Z) : option Z :=
  let s := TrimSpace raw in
  if bool_decide (s = []) then Some def
  else match GoPath.Atoi s with
       | None => None
       | Some n => if n <=? 0 then None else Some (wrap64 (n * Second))
       end.

Inductive configError := InvalidPlacement | InvalidAging | InvalidLiveness.

Definition ConfigFromEnv (getenv : string -> bytes) (localMode : bool) : res configError Config :=
  let raw := TrimSpace (getenv "TF_PLACEMENT"%string) in
  match (if bool_decide (raw = []) then Some true else parseBool raw) with
  | None => Err InvalidPlacement
  | Some enabled =>
      let enabled := if localMode then false else enabled in
      match parseSeconds (getenv "TF_PLACEMENT_AGING_SEC"%string) DefaultAging with
      | None => Err InvalidAging
      | Some aging =>
          match parseSeconds (getenv "TF_PLACEMENT_LIVENESS_SEC"%string) DefaultLiveness with
          | None => Err InvalidLiveness
          | Some liveness => Ok (NewConfig enabled liveness aging)
          end
      end
  end.

(** * The unit interval *)

Lemma digits_size p : digits2_pos p = Pos.size p.
Proof. induction p; simpl; by rewrite ?IHp. Qed.

Lemma digits_bounds p : 2 ^ (Zpos (digits2_pos p) - 1) <= Zpos p < 2 ^ Zpos (digits2_pos p).
Proof.
  rewrite digits_size. pose proof (Pos.size_gt p) as H1. pose proof (Pos.size_le p) as H2.
  rewrite <- Pos2Z.inj_pow. split; [|lia].
  assert (2 * 2 ^ (Zpos (Pos.size p) - 1) = 2 ^ Zpos (Pos.size p)) as E
    by (rewrite <- Z.pow_succ_r by lia; f_equal; lia).
  rewrite <- Pos2Z.inj_pow in E. lia.
Qed.

Lemma digits_unique p d : 2 ^ (d - 1) <= Zpos p < 2 ^ d -> Zpos (digits2_pos p) = d.
Proof.
  intros [H1 H2]. destruct (digits_bounds p) as [H3 H4].
  assert (0 <= d) by (destruct (decide (0 <= d)); [done|]; rewrite (Z.pow_neg_r _ d) in H2 by lia; lia).
  assert (d - 1 < Zpos (digits2_pos p)) by (apply (Z.pow_lt_mono_r_iff 2); lia).
  assert (Zpos (digits2_pos p) - 1 < d) by (apply (Z.pow_lt_mono_r_iff 2); lia). lia.
Qed.

Lemma fexp_53 e : -1074 <= e -> fexp f64_prec f64_emax (53 + e) = e.
Proof. unfold fexp, emin, f64_prec, f64_emax. lia. Qed.

Lemma shr_exact m e : Zpos (digits2_pos m) = 53 -> -1074 <= e ->
  shr_fexp f64_prec f64_emax (Zpos m) e loc_Exact = ({| shr_m := Zpos m; shr_r := false; shr_s := false |}, e).
Proof. intros H1 H2. unfold shr_fexp, Zdigits2. rewrite H1, fexp_53, Z.sub_diag by done. done. Qed.

(** A mantissa of 53 bits is not rounded. *)
Lemma round_exact s m e : Zpos (digits2_pos m) = 53 -> -1074 <= e <= 971 ->
  binary_round_aux f64_prec f64_emax s (Zpos m) e loc_Exact = S754_finite s m e.
Proof.
  intros H1 H2. unfold binary_round_aux. rewrite !shr_exact by lia. cbn -[Z.leb Z.sub].
  rewrite shr_exact by lia. cbn -[Z.leb Z.sub]. rewrite (proj2 (Z.leb_le e (f64_emax - f64_prec))); [done|unfold f64_emax, f64_prec; lia].
Qed.

Lemma iter_xO m d : Zpos (Pos.iter xO m d) = Zpos m * 2 ^ Zpos d.
Proof.
  induction d as [|d IH] using Pos.peano_ind; [simpl; lia|]. rewrite Pos.iter_succ, Pos2Z.inj_succ, Z.pow_succ_r by lia. lia.
Qed.

(** [float64(n)] is exact below 2^53. *)
Lemma of_int_exact n : 0 < n < 2 ^ 53 ->
  exists m d, f64_of_int n = S754_finite false m (d - 53) /\ Zpos (digits2_pos m) = 53 /\ Zpos m = n * 2 ^ (53 - d) /\ 1 <= d <= 53.
Proof.
  intros [H1 H2]. destruct n as [|p|]; [lia| |lia]. destruct (digits_bounds p) as [H3 H4].
  set (d := Zpos (digits2_pos p)) in *.
  assert (d - 1 < 53) by (apply (Z.pow_lt_mono_r_iff 2); lia).
  assert (exists m, shl_align p 0 (fexp f64_prec f64_emax (d + 0)) = (m, d - 53) /\ Zpos m = Zpos p * 2 ^ (53 - d)) as (m & Em & Hm).
  { unfold fexp, emin, f64_prec, f64_emax. replace (Z.max _ _) with (d - 53) by lia. unfold shl_align.
    destruct (d - 53 - 0) as [|q|q] eqn:E; [|lia|].
    - exists p. replace d with 53 by lia. split; [done|lia].
    - eexists. split; [done|]. rewrite iter_xO. f_equal. f_equal. lia. }
  exists m, d. unfold f64_of_int, binary_normalize, binary_round. fold d. rewrite Em.
  assert (Zpos (digits2_pos m) = 53) as Hd.
  { apply digits_unique. rewrite Hm. replace 53 with (d + (53 - d)) at 4 by lia. replace (53 - 1) with (d - 1 + (53 - d)) by lia.
    rewrite !Z.pow_add_r by lia. assert (0 < 2 ^ (53 - d)) by (apply Z.pow_pos_nonneg; lia). nia. }
  rewrite round_exact by lia. split; [done|]. split; [done|]. split; [done|lia].
Qed.

Lemma shr_double m : SpecFloat.iter_pos shr_1 1 {| shr_m := Zpos m~0; shr_r := false; shr_s := false |} = {| shr_m := Zpos m; shr_r := false; shr_s := false |}.
Proof. done. Qed.

(** Dividing by 2^53 only moves the exponent. *)
Lemma div_2p53 m e : Zpos (digits2_pos m) = 53 -> -52 <= e <= 0 ->
  f64_div (S754_finite false m e) f64_2p53 = S754_finite false m (e - 53).
Proof.
  intros Hd He. change f64_2p53 with (S754_finite false (2 ^ 52)%positive 1).
  unfold f64_div, SFdiv, SFdiv_core_binary, Zdigits2. rewrite Hd.
  change (Zpos (digits2_pos (2 ^ 52))) with 53.
  replace (Z.min _ _) with (e - 54) by (unfold fexp, emin, f64_prec, f64_emax; lia). replace (e - 1 - (e - 54)) with 53 by lia.
  assert (Z.div_eucl (Z.shiftl (Zpos m) 53) (Zpos (2 ^ 52)) = (Zpos m~0, 0)) as ->.
  { rewrite Z.shiftl_mul_pow2 by lia. pose proof (Z.div_eucl_eq (Zpos m * 2 ^ 53) (Zpos (2 ^ 52)) ltac:(done)) as H1.
    pose proof (Z.mod_pos_bound (Zpos m * 2 ^ 53) (Zpos (2 ^ 52)) ltac:(done)) as H2. unfold Z.modulo in H2.
    destruct (Z.div_eucl _ _) as [q r]. assert (q = Zpos m~0 /\ r = 0) as [-> ->]; [|done].
    change (Zpos (2 ^ 52)) with (2 ^ 52) in *. rewrite (Pos2Z.inj_xO m). change (2 ^ 53) with (2 * 2 ^ 52) in *. lia. }
  unfold new_location. change (Z.even (Zpos (2 ^ 52))) with true. cbv iota. unfold new_location_even. cbn [Z.eqb xorb].
  unfold binary_round_aux, shr_fexp at 1. change (Zdigits2 (Zpos m~0)) with (Zpos (Pos.succ (digits2_pos m))). rewrite Pos2Z.inj_succ, Hd.
  replace (fexp f64_prec f64_emax (Z.succ 53 + (e - 54))) with (e - 53) by (unfold fexp, emin, f64_prec, f64_emax; lia).
  replace (e - 53 - (e - 54)) with 1 by lia. unfold shr, shr_record_of_loc. rewrite shr_double. cbn -[Z.leb Z.sub Z.add shr_fexp].
  replace (e - 54 + 1) with (e - 53) by lia. rewrite shr_exact by lia. cbn -[Z.leb Z.sub].
  rewrite (proj2 (Z.leb_le _ (f64_emax - f64_prec))); [done|unfold f64_emax, f64_prec; lia].
Qed.

(** The hash is read exactly: its top 53 bits over 2^53, and 1 over 2^53 when
    they are all zero, so never 0 and never 1. *)
Theorem hash_unit_is_exact h :
  0 <= h < 2 ^ 64 ->
  exists m e, hashToUnit h = S754_finite false m e /\ e <= -53 /\ Zpos m = Z.max 1 (Z.shiftr h 11) * 2 ^ (- e - 53) /\ in_unit (hashToUnit h).
Proof.
  intros Hh. assert (0 <= Z.shiftr h 11 < 2 ^ 53) as Hn.
  { rewrite Z.shiftr_div_pow2 by lia. split; [apply Z.div_pos; lia|]. apply Z.div_lt_upper_bound; lia. }
  assert (forall n, 0 < n < 2 ^ 53 -> exists m e, f64_div (f64_of_int n) f64_2p53 = S754_finite false m e /\ e <= -53
            /\ Zpos m = n * 2 ^ (- e - 53) /\ in_unit (f64_div (f64_of_int n) f64_2p53)) as K.
  { intros n H. destruct (of_int_exact n H) as (m & d & -> & Hd & Hm & Hr). rewrite div_2p53 by lia.
    exists m, (d - 53 - 53). split; [done|]. split; [lia|]. split; [rewrite Hm; f_equal; f_equal; lia|].
    exists m, (d - 53 - 53). split; [done|]. unfold SFltb, SFcompare. change f64_one with (S754_finite false (2 ^ 52)%positive (-52)).
    cbv iota beta. rewrite (proj2 (Z.compare_lt_iff (d - 53 - 53) (-52))) by lia. done. }
  unfold hashToUnit. destruct (decide (Z.shiftr h 11 = 0)) as [->|Hz].
  - exact (K 1 ltac:(lia)).
  - destruct (K (Z.shiftr h 11)) as (m & e & E & H1 & H2 & H3); [lia|]. rewrite E in *. rewrite Z.max_r by lia. eauto 6.
Qed.

(** * The ranking is a total order *)

Definition nonneg (f : spec_float) : Prop :=
  match f with S754_nan => False | S754_zero _ => True | S754_infinity s | S754_finite s _ _ => s = false end.

(** Where a non-negative float stands: zero, then by exponent and mantissa, then infinity. *)
Definition place (f : spec_float) : Z * Z * Z :=
  match f with S754_finite _ m e => (1, e, Zpos m) | S754_infinity _ => (2, 0, 0) | _ => (0, 0, 0) end.
Definition below (x y : Z * Z * Z) : Prop :=
  let '(a, b, c) := x in let '(a', b', c') := y in a < a' \/ (a = a' /\ (b < b' \/ (b = b' /\ c < c'))).

Lemma compare_place a b : nonneg a -> nonneg b ->
  match SFcompare a b with
  | Some Lt => below (place a) (place b) | Some Eq => place a = place b | Some Gt => below (place b) (place a) | None => False
  end.
Proof.
  destruct a as [sa|sa| |sa ma ea], b as [sb|sb| |sb mb eb]; simpl; intros; subst; try done; try lia.
  destruct (Z.compare_spec ea eb) as [->|H|H]; [|lia|lia].
  change (Pos.compare_cont Eq ma mb) with (ma ?= mb)%positive. destruct (Pos.compare_spec ma mb); subst; [done|lia|lia].
Qed.

Lemma not_after_spec a b : nonneg (rk_score a) -> nonneg (rk_score b) ->
  not_after a b = true <-> below (place (rk_score b)) (place (rk_score a))
                           \/ (place (rk_score a) = place (rk_score b) /\ String.le (rk_id a) (rk_id b)).
Proof.
  intros Ha Hb. unfold not_after, less, SFeqb, SFltb. pose proof (compare_place _ _ Hb Ha) as H1. pose proof (compare_place _ _ Ha Hb) as H2.
  destruct (place (rk_score a)) as [[xa ya] za], (place (rk_score b)) as [[xb yb] zb]. unfold below in *.
  destruct (SFcompare (rk_score b) (rk_score a)) as [[]|]; [|..|done]; simplify_eq; cbn [negb].
  - destruct (decide (String.le (rk_id a) (rk_id b))) as [L|L].
    + rewrite bool_decide_false by tauto. split; [by right|done].
    + rewrite bool_decide_true by done. split; [done|]. intros [?|[_ ?]]; [lia|done].
  - destruct (SFcompare (rk_score a) (rk_score b)) as [[]|]; [simplify_eq; lia|lia| |done]. split; [by left|done].
  - destruct (SFcompare (rk_score a) (rk_score b)) as [[]|]; [simplify_eq; lia| |lia|done].
    split; [done|]. intros [?|[? _]]; [lia|simplify_eq; lia].
Qed.

Definition scored (a : Ranked) : Prop := nonneg (rk_score a).

Lemma not_after_total a b : scored a -> scored b -> not_after a b = true \/ not_after b a = true.
Proof.
  intros Ha Hb. rewrite !not_after_spec by done. destruct (place (rk_score a)) as [[xa ya] za], (place (rk_score b)) as [[xb yb] zb]. simpl.
  destruct (total String.le (rk_id a) (rk_id b)); destruct (Z.lt_total xa xb) as [|[->|]]; [lia| |lia|lia| |lia];
    destruct (Z.lt_total ya yb) as [|[->|]]; [lia| |lia|lia| |lia]; destruct (Z.lt_total za zb) as [|[->|]]; intuition lia.
Qed.

Lemma not_after_trans a b c : scored a -> scored b -> scored c -> not_after a b = true -> not_after b c = true -> not_after a c = true.
Proof.
  intros Ha Hb Hc. rewrite !not_after_spec by done.
  destruct (place (rk_score a)) as [[xa ya] za], (place (rk_score b)) as [[xb yb] zb], (place (rk_score c)) as [[xc yc] zc]. simpl.
  intros [?|[? L1]] [?|[? L2]]; simplify_eq; [left; lia|left; lia|left; lia|right; split; [done|by etrans]].
Qed.

Lemma not_after_antisym a b : scored a -> scored b -> not_after a b = true -> not_after b a = true -> rk_id a = rk_id b.
Proof.
  intros Ha Hb. rewrite !not_after_spec by done.
  destruct (place (rk_score a)) as [[xa ya] za], (place (rk_score b)) as [[xb yb] zb]. simpl.
  intros [?|[? L1]] [?|[? L2]]; simplify_eq; [lia|lia|lia|]. by apply (anti_symm String.le).
Qed.

(** ** Sorting *)

Lemma insert_by_perm {A} (le : A -> A -> bool) x l : insert_by le x l ≡ₚ x :: l.
Proof. induction l as [|y l IH]; simpl; [done|]. destruct (le x y); [done|]. rewrite IH. constructor. Qed.

Lemma sort_by_perm {A} (le : A -> A -> bool) l : sort_by le l ≡ₚ l.
Proof. induction l as [|x l IH]; simpl; [done|]. by rewrite insert_by_perm, IH. Qed.

Definition ordered : list Ranked -> Prop := StronglySorted (fun a b => not_after a b = true).

Lemma insert_ordered x l : scored x -> Forall scored l -> ordered l -> ordered (insert_by not_after x l).
Proof.
  intros Hx Hl Hs. induction Hs as [|y l Hs IH Hy]; simpl; [repeat constructor|]. apply Forall_cons in Hl as [Hsy Hl].
  destruct (not_after x y) eqn:E.
  - constructor; [by constructor|]. constructor; [done|]. rewrite Forall_forall in *. eauto using not_after_trans.
  - constructor; [by apply IH|]. rewrite insert_by_perm. constructor; [|done].
    destruct (not_after_total x y); [done|done|congruence|done].
Qed.

Lemma sort_ordered l : Forall scored l -> ordered (sort_by not_after l).
Proof.
  induction 1 as [|x l Hx Hl IH]; simpl; [constructor|]. apply insert_ordered; [done| |done]. by rewrite sort_by_perm.
Qed.

(** Whatever algorithm sorts the entries, there is one answer. *)
Lemma ordered_unique l l' : Forall scored l -> NoDup (map rk_id l) -> l ≡ₚ l' -> ordered l -> ordered l' -> l = l'.
Proof.
  intros Hl Hn Hp H1 H2. apply (StronglySorted_unique_strong (fun a b => not_after a b = true)); [|done..].
  intros a b Ha Hb Hab Hba. rewrite <- Hp in Hb. rewrite Forall_forall in Hl.
  assert (rk_id a = rk_id b) as E by (apply not_after_antisym; [by apply Hl|by apply Hl|done|done]).
  apply list_elem_of_lookup in Ha as [i Hi]. apply list_elem_of_lookup in Hb as [j Hj].
  assert (i = j) as ->; [|congruence]. eapply NoDup_lookup; [exact Hn| |]; rewrite list_lookup_fmap.
  - by rewrite Hi.
  - rewrite Hj. simpl. by rewrite E.
Qed.

(** ** Scores are non-negative *)

(** A number of sign [s]. *)
Definition signed (s : bool) (f : spec_float) : Prop :=
  match f with S754_nan => False | S754_zero t | S754_infinity t | S754_finite t _ _ => t = s end.

Lemma shr_1_nonneg r : 0 <= shr_m r -> 0 <= shr_m (shr_1 r).
Proof. destruct r as [m r s]. simpl. destruct m as [|[p|p|]|]; simpl; lia. Qed.

Lemma shr_iter_nonneg p r : 0 <= shr_m r -> 0 <= shr_m (SpecFloat.iter_pos shr_1 p r).
Proof. revert r. induction p as [p IH|p IH|]; intros r H; simpl; auto using shr_1_nonneg. Qed.

Lemma shr_nonneg m e l : 0 <= m -> 0 <= shr_m (fst (shr_fexp f64_prec f64_emax m e l)).
Proof.
  intros H. unfold shr_fexp, shr. assert (0 <= shr_m (shr_record_of_loc m l)) by (destruct l as [|[]]; done).
  destruct (_ - e); simpl; auto using shr_iter_nonneg.
Qed.

Lemma round_signed s m e l : 0 <= m -> signed s (binary_round_aux f64_prec f64_emax s m e l).
Proof.
  intros H. unfold binary_round_aux. pose proof (shr_nonneg m e l H) as H1. destruct (shr_fexp _ _ m e l) as [r1 e1]. simpl in H1.
  assert (0 <= round_nearest_even (shr_m r1) (loc_of_shr_record r1)) as H2
    by (destruct (loc_of_shr_record r1) as [|[]]; simpl; repeat case_match; lia).
  apply (shr_nonneg _ e1 loc_Exact) in H2 as H3. destruct (shr_fexp _ _ (round_nearest_even _ _) e1 _) as [r2 e2]. simpl in H3.
  destruct (shr_m r2); [done| |lia]. by destruct (_ <=? _).
Qed.

Lemma of_int_signed w : 0 < w -> signed false (f64_of_int w).
Proof.
  intros H. destruct w as [|p|]; [lia| |lia]. unfold f64_of_int, binary_normalize, binary_round. destruct (shl_align _ _ _). by apply round_signed.
Qed.

Lemma opp_signed f : signed false f -> signed true (SFopp f).
Proof. by destruct f as [[]|[]| |[]]. Qed.

Lemma div_signed f m e : signed true f -> nonneg (f64_div f (S754_finite true m e)).
Proof.
  destruct f as [s|s| |s fm fe]; simpl; intros; subst; try done. unfold f64_div, SFdiv, SFdiv_core_binary.
  destruct (Z.div_eucl _ _) as [q r] eqn:E. assert (0 <= q) as Hq.
  { match type of E with Z.div_eucl ?a ?b = _ => assert (q = a / b) as -> by (unfold Z.div; by rewrite E); apply Z.div_pos end; [|lia].
    destruct (_ - _ - _); [lia| |lia]. apply Z.shiftl_nonneg. lia. }
  pose proof (round_signed false q (Z.min (fexp f64_prec f64_emax (Zdigits2 (Zpos fm) + fe - (Zdigits2 (Zpos m) + e))) (fe - e))
                (new_location (Zpos m) r) Hq) as H.
  simpl xorb. by destruct (binary_round_aux _ _ _ _ _ _).
Qed.

Section Ranking.
Context {L : MathLog}.

Lemma u64_range z : 0 <= u64 z < 2 ^ 64.
Proof. apply Z.mod_pos_bound. lia. Qed.

Lemma hash64_range key i : 0 <= hash64 key i < 2 ^ 64.
Proof.
  unfold hash64, splitmix64. match goal with |- context [u64 (?x * 10723151780598845931)] => set (y := u64 (x * _)) end.
  assert (0 <= y < 2 ^ 64) as Hy by apply u64_range. clearbody y.
  assert (0 <= Z.shiftr y 31) by (apply Z.shiftr_nonneg; lia).
  assert (0 <= Z.lxor y (Z.shiftr y 31)) as Hx by (apply Z.lxor_nonneg; lia). split; [done|].
  destruct (decide (Z.lxor y (Z.shiftr y 31) = 0)) as [->|Hz]; [lia|]. apply Z.log2_lt_pow2; [lia|].
  eapply Z.le_lt_trans; [apply Z.log2_lxor; lia|]. apply Z.max_lub_lt.
  - destruct (decide (y = 0)) as [->|]; [done|]. apply Z.log2_lt_pow2; lia.
  - rewrite Z.shiftr_div_pow2 by lia. eapply Z.le_lt_trans; [apply Z.log2_le_mono, (Z.div_le_upper_bound _ _ y); lia|].
    destruct (decide (y = 0)) as [->|]; [done|]. apply Z.log2_lt_pow2; lia.
Qed.

Lemma score_nonneg key i w : 0 < w -> nonneg (weightedScore key i w).
Proof.
  intros Hw. destruct (hash_unit_is_exact _ (hash64_range key i)) as (? & ? & _ & _ & _ & U).
  destruct (Log_negative _ U) as (m & e & E). unfold weightedScore. rewrite E. by apply div_signed, opp_signed, of_int_signed.
Qed.

Definition entries (key : string) (ms : list Member) : list Ranked :=
  map (fun m => NewRanked (m_id m) (m_weight m) (weightedScore key (m_id m) (m_weight m))) (List.filter (fun m => negb (m_weight m <=? 0)) ms).

Lemma entries_scored key ms : Forall scored (entries key ms).
Proof.
  apply Forall_forall. intros x Hx. apply list_elem_of_fmap in Hx as (m & -> & Hm). apply filter_elem in Hm as [_ Hw].
  apply score_nonneg. bool_hyps. lia.
Qed.

Lemma filter_perm {A} (p : A -> bool) l l' : l ≡ₚ l' -> List.filter p l ≡ₚ List.filter p l'.
Proof.
  induction 1 as [|x l l' _ IH|x y l|l l' l'' _ IH1 _ IH2]; simpl; [done| |repeat case_match; done || constructor|by rewrite IH1].
  destruct (p x); by rewrite IH.
Qed.

#[local] Instance filter_proper {A} (p : A -> bool) : Proper (Permutation ==> Permutation) (List.filter p).
Proof. intros l l'. apply filter_perm. Qed.

Lemma filter_map {A B} (p : B -> bool) (f : A -> B) l : List.filter p (map f l) = map f (List.filter (fun x => p (f x)) l).
Proof. induction l as [|x l IH]; simpl; [done|]. destruct (p (f x)); simpl; by rewrite IH. Qed.

Lemma filter_swap {A} (p q : A -> bool) l : List.filter p (List.filter q l) = List.filter q (List.filter p l).
Proof. induction l as [|x l IH]; simpl; [done|]. destruct (q x) eqn:E1, (p x) eqn:E2; simpl; rewrite ?E1, ?E2, IH; done. Qed.

Lemma filter_ordered (p : Ranked -> bool) l : ordered l -> ordered (List.filter p l).
Proof.
  induction 1 as [|x l Hs IH Hx]; simpl; [constructor|]. destruct (p x); [|done]. constructor; [done|].
  rewrite Forall_forall in *. intros y [Hy _]%filter_elem. auto.
Qed.

Lemma filter_NoDup {A B} (f : A -> B) (p : A -> bool) l : NoDup (map f l) -> NoDup (map f (List.filter p l)).
Proof.
  induction l as [|x l IH]; simpl; [done|]. intros [Hx Hn]%NoDup_cons. destruct (p x); [|auto]. simpl. apply NoDup_cons. split; [|auto].
  intros (y & E & [Hy _]%filter_elem)%list_elem_of_fmap. apply Hx, list_elem_of_fmap. eauto.
Qed.

(** [other x y]: the key is not [x]'s. *)
Definition other (x y : string) : bool := negb (bool_decide (y = x)).

(** Removing a member and shuffling the rest removes its entry and moves no other. *)
Lemma rank_without key ms ms' x :
  NoDup (map m_id ms) -> ms' ≡ₚ List.filter (fun m => other x (m_id m)) ms ->
  Rank key ms' = List.filter (fun r => other x (rk_id r)) (Rank key ms).
Proof.
  intros Hn Hp. unfold Rank. fold (entries key ms') (entries key ms).
  assert (entries key ms' ≡ₚ List.filter (fun r => other x (rk_id r)) (entries key ms)) as He.
  { unfold entries. rewrite filter_map. simpl. rewrite filter_swap. by apply Permutation_map, filter_perm. }
  apply ordered_unique.
  - rewrite sort_by_perm. apply entries_scored.
  - rewrite sort_by_perm, He. apply filter_NoDup. unfold entries. rewrite map_map. by apply filter_NoDup.
  - by rewrite sort_by_perm, He, sort_by_perm.
  - apply sort_ordered, entries_scored.
  - apply filter_ordered, sort_ordered, entries_scored.
Qed.

Lemma members_without cutoff rows rows' x :
  rows' ≡ₚ List.filter (fun i => other x (ID i)) rows ->
  members_of cutoff rows' ≡ₚ List.filter (fun m => other x (m_id m)) (members_of cutoff rows).
Proof. intros Hp. unfold members_of. rewrite filter_map. simpl. rewrite filter_swap. by apply Permutation_map, filter_perm. Qed.

Lemma members_NoDup cutoff rows : NoDup (map ID rows) -> NoDup (map m_id (members_of cutoff rows)).
Proof. intros H. unfold members_of. rewrite map_map. by apply filter_NoDup. Qed.

(** ** The preferred set *)

Definition replicas (o : option PlacementOverride) : nat :=
  Z.to_nat (match o with Some v => if 1 <? Replicas v then Replicas v else 1 | None => 1 end).

Lemma preferred_take ranked o : pin_of o = None -> preferredSet ranked o = map rk_id (take (replicas o) ranked).
Proof.
  intros E. unfold preferredSet, replicas. rewrite E. set (k := match o with Some _ => _ | None => _ end). clearbody k.
  destruct (Z.ltb_spec (Z.of_nat (length ranked)) k); [|done]. by rewrite !take_ge by lia.
Qed.

Lemma take_filter {A} (p : A -> bool) k l : (forall y, y ∈ take k l -> p y = true) -> take k (List.filter p l) = take k l.
Proof.
  revert k. induction l as [|x l IH]; intros [|k] H; simpl in *; [done..|]. rewrite (H x) by (by left). simpl. f_equal. apply IH.
  intros y Hy. apply H. by right.
Qed.

Lemma preferred_without ranked o x : x ∉ preferredSet ranked o ->
  preferredSet (List.filter (fun r => other x (rk_id r)) ranked) o = preferredSet ranked o.
Proof.
  destruct (pin_of o) eqn:E; [intros _; unfold preferredSet; by rewrite E|]. rewrite !preferred_take by done. intros Hx.
  f_equal. apply take_filter. intros y Hy. unfold other. rewrite bool_decide_false; [done|]. intros <-. apply Hx, list_elem_of_fmap. eauto.
Qed.

(** The eligible candidates of a plan, best first. *)
Definition eligible_order (p : Plan) : list string := map c_instance (List.filter Eligible (Candidates p)).

Lemma eligible_ranked cfg now org repo rows o :
  eligible_order (plan_of cfg now org repo rows o) = map rk_id (Rank (keyFor org repo) (members_of (now - livenessOrDefault cfg) rows)).
Proof.
  unfold eligible_order, plan_of. simpl. set (ranked := Rank _ _). set (f := ranked_candidate _ _ _). set (ex := excluded_of _ _).
  assert (List.filter Eligible ex = []) as Hex.
  { unfold ex, excluded_of. generalize (List.filter (ineligible (now - livenessOrDefault cfg)) rows). intros l.
    induction l as [|i l IH]; simpl; [done|]. exact IH. }
  assert (List.filter Eligible (map f ranked) = map f ranked) as Hr.
  { generalize ranked. intros l. induction l as [|r l IH]; simpl; [done|]. by rewrite IH. }
  assert (map c_instance (map f ranked) = map rk_id ranked) as Hm by (rewrite map_map; done).
  destruct (pin_of o) as [p|]; [destruct (containsCandidate _ _)|]; rewrite ?List.filter_app, Hex, Hr, ?app_nil_r; simpl; by rewrite ?app_nil_r.
Qed.

(** C16: When an executor leaves the registry (or joins it, reading the two
    plans the other way round), in whatever order the registry lists the rest,
    the order of the eligible executors of every key is the old one without it;
    and for every key whose preferred set it was not in, the preferred set and
    the executor stamped on every conversation stay the same. *)
Theorem placement_moves_only_its_keys {E} cfg now org repo o rows rows' x :
  NoDup (map ID rows) -> rows' ≡ₚ List.filter (fun i => other x (ID i)) rows ->
  let plan l := fst (computePlan (E := E) cfg now org repo (Some (Ok l)) (Some (Ok o))) in
  eligible_order (plan rows') = List.filter (other x) (eligible_order (plan rows))
  /\ (x ∉ PreferredSet (plan rows) ->
      PreferredSet (plan rows') = PreferredSet (plan rows)
      /\ forall c, PreferredForConversation (plan rows') c = PreferredForConversation (plan rows) c).
Proof.
  intros Hn Hp plan. set (cutoff := now - livenessOrDefault cfg).
  assert (Rank (keyFor org repo) (members_of cutoff rows') = List.filter (fun r => other x (rk_id r)) (Rank (keyFor org repo) (members_of cutoff rows))) as Hr
    by (apply rank_without; [by apply members_NoDup|by apply members_without]).
  unfold plan. simpl. split; [rewrite !eligible_ranked; fold cutoff; by rewrite Hr, filter_map|]. intros Hx.
  assert (PreferredSet (plan rows') = PreferredSet (plan rows)) as Hs
    by (unfold plan; simpl; fold cutoff; rewrite Hr; by apply preferred_without).
  split; [exact Hs|]. intros c. unfold PreferredForConversation. unfold plan in Hs. simpl in *. by rewrite Hs.
Qed.

(** ** Stamps *)

Lemma stamp_in p c : PreferredSet p <> [] -> PreferredForConversation p c ∈ PreferredSet p.
Proof.
  unfold PreferredForConversation. destruct (PreferredSet p) as [|a [|b l]] eqn:E; intros H; [done|by left|].
  apply list_elem_of_In, nth_In. rewrite <- E in *. pose proof (Z.mod_pos_bound (hash64 c "") (Z.of_nat (length (PreferredSet p)))) as B.
  rewrite E in B at 1. simpl length in B at 1. lia.
Qed.

Lemma ineligible_spec cutoff i : ineligibleReason i cutoff = None <->
  Role i = InstanceRoleExecutor /\ cutoff <= LastHeartbeatAt i /\ Draining i = false /\ 0 < maxRunsOrZero i.
Proof.
  unfold ineligibleReason. case_bool_decide; simpl; [|split; [done|by intros [? _]]].
  destruct (Z.ltb_spec (LastHeartbeatAt i) cutoff); [split; [done|lia]|]. destruct (Draining i); [split; [done|by intros (_ & _ & ? & _)]|].
  destruct (Z.leb_spec (maxRunsOrZero i) 0); split; try done; lia.
Qed.

Lemma ranked_eligible key cutoff rows s : s ∈ map rk_id (Rank key (members_of cutoff rows)) <->
  exists i, i ∈ rows /\ ID i = s /\ ineligibleReason i cutoff = None.
Proof.
  unfold Rank. rewrite sort_by_perm, list_elem_of_fmap. split.
  - intros (r & -> & (m & -> & [(i & -> & [Hi Hk]%filter_elem)%list_elem_of_fmap _]%filter_elem)%list_elem_of_fmap).
    exists i. split; [done|]. split; [done|]. unfold ineligible in Hk. by destruct (ineligibleReason i cutoff).
  - intros (i & Hi & <- & Hk). eexists. split; [|apply list_elem_of_fmap; eexists; split; [done|]; apply filter_elem; split;
      [apply list_elem_of_fmap; exists i; split; [done|]; apply filter_elem; split; [done|]; unfold ineligible; by rewrite Hk|]]; [done|].
    simpl. apply ineligible_spec in Hk. destruct (Z.leb_spec (maxRunsOrZero i) 0); [lia|done].
Qed.

(** C22: With placement on and the reads answered, a conversation of a pinned
    repository is stamped with the pin; any other is stamped with an executor
    whose heartbeat is fresh, that is not draining and has capacity, whenever
    the registry has one, and with nothing when it has none. *)
Theorem stamps_name_live_executors {E} cfg now org repo o rows c :
  cfgEnabled cfg = true ->
  let cutoff := now - livenessOrDefault cfg in
  let stamp := preferredExecutorFor (E := E) (Some cfg) now org (Ok (Some repo)) c (Some (Ok rows)) (Some (Ok o)) in
  match pin_of o with
  | Some p => stamp = p
  | None =>
      if existsb (fun i => negb (ineligible cutoff i)) rows
      then exists i, i ∈ rows /\ ID i = stamp /\ Role i = InstanceRoleExecutor /\ cutoff <= LastHeartbeatAt i
                     /\ Draining i = false /\ 0 < maxRunsOrZero i
      else stamp = ""%string
  end.
Proof.
  intros Hc cutoff stamp. unfold stamp, preferredExecutorFor, Resolve. rewrite Hc. simpl.
  set (ranked := Rank (keyFor org repo) (members_of cutoff rows)). set (pl := plan_of cfg now org repo rows o).
  assert (PreferredSet pl = preferredSet ranked o) as Hs by done. destruct (pin_of o) as [p|] eqn:Ep.
  { unfold PreferredForConversation. rewrite Hs. unfold preferredSet. by rewrite Ep. }
  rewrite preferred_take in Hs by done. destruct (existsb _ rows) eqn:Ex.
  - apply existsb_elem in Ex as (i & Hi & Hk). assert (replicas o <> 0%nat) as Hr by (unfold replicas; repeat case_match; lia).
    assert (PreferredSet pl <> []) as Hne.
    { assert (ID i ∈ map rk_id ranked) as Hin.
      { apply ranked_eligible. exists i. unfold ineligible in Hk. by destruct (ineligibleReason i cutoff). }
      rewrite Hs. destruct ranked, (replicas o); [by apply not_elem_of_nil in Hin..|done|done]. }
    apply (stamp_in pl c) in Hne. rewrite Hs in Hne. apply list_elem_of_fmap in Hne as (r & E1 & Hr').
    assert (rk_id r ∈ map rk_id ranked) as Hin by (apply list_elem_of_fmap; exists r; split; [done|]; rewrite <- (take_drop (replicas o) ranked); set_solver).
    apply ranked_eligible in Hin as (j & Hj & Ej & Hk'). exists j. split; [done|]. split; [congruence|]. by apply ineligible_spec.
  - assert (ranked = []) as Hz.
    { destruct ranked as [|r l] eqn:E0; [done|]. exfalso. assert (rk_id r ∈ map rk_id ranked) as Hin by (rewrite E0; by left).
      apply ranked_eligible in Hin as (j & Hj & _ & Hk). rewrite (proj2 (existsb_elem _ rows)) in Ex; [done|]. exists j. split; [done|].
      unfold ineligible. by rewrite Hk. }
    unfold PreferredForConversation. rewrite Hs, Hz. by destruct (replicas o).
Qed.
End Ranking.

(** * Examples *)

(** A logarithm good enough to rank: minus the exponent. *)
Definition crudeLog (u : spec_float) : spec_float :=
  match u with S754_finite _ _ e => S754_finite true (Z.to_pos (- e)) 0 | _ => S754_nan end.

#[local] Instance exampleLog : MathLog.
Proof. refine {| Log := crudeLog |}. intros u (m & e & -> & _). simpl. eauto. Defined.

Definition exampleConfig : Config := NewConfig true DefaultLiveness DefaultAging.
Definition executor (id : string) (beat w : Z) : Instance := NewInstance id "executor" 7 beat false (Some w).
Definition exampleFleet : list Instance :=
  [executor "exec-a" (100 * Second) 4; executor "exec-b" (100 * Second) 4; executor "exec-c" (100 * Second) 4; executor "exec-d" (10 * Second) 4].
Definition examplePlan (l : list Instance) : Plan :=
  fst (computePlan (E := unit) exampleConfig (101 * Second) "org" "repo-1" (Some (Ok l)) (Some (Ok None))).

Example hash64_vector : hash64 "k" "a" = 8230668983515289685 /\ hash64 "" "" = 8945125232686059409.
Proof. by vm_compute. Qed.

Lemma placement_moves_only_its_keys_witness :
  eligible_order (examplePlan exampleFleet) = ["exec-b"; "exec-c"; "exec-a"]%string
  /\ (let rest := rev (List.filter (fun i => other "exec-a" (ID i)) exampleFleet) in
      eligible_order (examplePlan rest) = List.filter (other "exec-a") (eligible_order (examplePlan exampleFleet))
      /\ PreferredSet (examplePlan rest) = PreferredSet (examplePlan exampleFleet)).
Proof.
  split; [by vm_compute|]. intros rest.
  destruct (placement_moves_only_its_keys (E := unit) exampleConfig (101 * Second) "org" "repo-1" None exampleFleet rest "exec-a") as [H1 H2].
  - apply (bool_decide_unpack _). by vm_compute.
  - apply Permutation_sym, Permutation_rev.
  - split; [exact H1|]. apply H2. apply (bool_decide_unpack _). by vm_compute.
Defined.

Lemma stamps_name_live_executors_witness :
  exists i, i ∈ exampleFleet /\ ID i = preferredExecutorFor (E := unit) (Some exampleConfig) (101 * Second) "org" (Ok (Some "repo-1"%string)) "conv" (Some (Ok exampleFleet)) (Some (Ok None))
            /\ Role i = InstanceRoleExecutor /\ 101 * Second - livenessOrDefault exampleConfig <= LastHeartbeatAt i /\ Draining i = false /\ 0 < maxRunsOrZero i.
Proof. exact (stamps_name_live_executors (E := unit) exampleConfig (101 * Second) "org" "repo-1" None exampleFleet "conv" eq_refl). Defined.

(** A positive setting of 9223372037 seconds is read as a negative duration. *)
Theorem window_setting_overflows def : parseSeconds (bs "9223372037") def = Some (-9223372036709551616).
Proof. by vm_compute. Qed.
